(* ===== verification/_CoqProject ===== *)
-Q . S2P
Prelude.v
Types.v
ObjectPool.v
PriceLevel.v
OrderIdMap.v
LevelMap.v
OrderBook.v
AbstractBook.v
BookRepr.v
BookMatch.v
BookScan.v
BookRefine.v
BookSpec.v
BookProps.v
BookClaims.v
BookWalk.v
Wire.v
Messages.v
Framing.v
Decoder.v
FeedCodec.v
SpscRing.v
MulticastRing.v
RingHold.v
Events.v
MatchingThread.v
BookMirror.v
Reconstruction.v
Crc32.v
JournalFormat.v
SegmentNames.v
JournalWriter.v
JournalReader.v
JournalSpec.v
JournalCrash.v
JournalDurable.v
JournalTailer.v
Sequencer.v
Snapshot.v
Recovery.v
AuditDaemon.v
AuditSpec.v
AuditClaims.v
Shard.v
Digest.v
MirrorLevels.v
MirrorFeed.v
Publisher.v
Ladder.v
FeedSpec.v
FeedBurst.v
FeedClaims.v
Session.v
SessionSpec.v
SessionClaims.v
Router.v
FeedServer.v
Base64.v
Fips.v
Sha256.v
Jwt.v
AdminHttp.v
AdminClaims.v
Sha1.v
WsServer.v
WsClaims.v
Telemetry.v
Credentials.v
Workload.v
Loadgen.v
Scenario.v
Options.v
LiveMain.v
LiveClaims.v
Visualizer.v
VizClaims.v
ClientMain.v
GatewayMain.v
