(* ===== verification/Prelude.v ===== *)
(** * Velox: an exchange core, modelled and verified

    Velox matches orders for several instruments.  Clients connect to the gateway over TCP;
    a session authenticates, checks the client's sequence numbers and hands each order
    to the sequencer of the instrument's shard.  The sequencer numbers the command, appends it to
    a journal and publishes it in a ring; the matching thread takes it from there, applies
    it to the order book and publishes what happened in an outbound ring.  The router
    reads that ring and sends the reports to the sessions; the market-data publisher reads it
    too, keeps a mirror of the book and sends deltas to subscribers, one of which is the
    visualizer.  On a restart recovery rebuilds the book from the newest snapshot and the
    journal.  Beside it run an audit daemon, which follows the journal into a database, and
    an admin API, which shows the files of the shards to holders of a token.  The programs in
    apps/ put these parts together: the gateway, a single-process version of it that reads
    orders as text, a client, the visualizer, the daemon and the admin server; a load generator
    measures them.

    The models are shallow embeddings of the C++ sources under src/: a function per function, a
    record per class, explicit state, [option] for what has no defined result.

    ** Conventions

    Integers are [Z]; a value that is stored in a w-bit variable goes through [u64],
    [s64] or [u32], so wrap-around is in the model.  An array is a list accessed by
    [aget] and [aset], which are [None] out of range.  [None] means undefined behaviour, an
    exception that leaves the function, or exhausted fuel; the theorems show for which inputs it
    does not happen.  A byte is a [Z] in [0, 256), a string the list of its bytes.  The outcomes of system
    calls are a list the model consumes ([IoResult]), so that the theorems hold for every
    outcome.  Threads are interleaved at the accesses to memory another thread writes, and
    memory is sequentially consistent.  A directory of numbered files maps the numbers to
    contents; [SegmentNames] shows that names sort as their numbers.

    ** The order book

    - [Types]: common/types.hpp, engine/order.hpp, engine/trade.hpp, the structs of
      engine/order_book.hpp and the output buffers.
    - [ObjectPool]: common/object_pool.hpp; [PriceLevel]: engine/price_level.hpp;
      [OrderIdMap]: book/order_id_map.hpp; [LevelMap]: book/level_map.hpp.  Each is shown to
      implement its abstract counterpart: a set of slots, a queue, a finite map, a set of
      occupied prices with its best.
    - [OrderBook]: engine/order_book.cpp, function by function.
    - [AbstractBook]: the contract, two lists in price-time priority.  [BookRepr],
      [BookMatch], [BookScan], [BookRefine]: the code implements it.  [BookSpec]: what the
      contract guarantees.  [BookProps], [BookClaims]: both put together for every book the
      engine can reach: every operation returns, refines the contract, respects price-time
      priority, conserves quantity, respects the order types; the queries are right.  Limit
      prices are on ticks; [off_tick_trades_through_limit] shows the others.
    - [BookWalk]: the walk over resting orders that snapshots, digests and resynchronisation share.

    ** Wire formats

    - [Wire]: protocol/wire.hpp; [Messages]: the messages and protocol/encoder.cpp;
      [Framing]: the reassembly that both decoders share, over the interface [PayloadCodec];
      [Decoder]: protocol/decoder.cpp; [FeedCodec]: the market-data codec.  Round trips
      under any cutting of the stream into reads that fit the buffer of 256 bytes, what a
      longer read does, and total behaviour on hostile input.
    - [Crc32]: common/crc32.hpp, with what it detects; [Base64]: common/base64.hpp;
      [Sha256], [Sha1]: the hashes of admin/ and viz/, equal on bytes to FIPS 180-4, and
      HMAC, equal to RFC 2104.  [Fips] is the text of these standards, apart from the code:
      functions bit by bit, constants as fractions of roots of primes.

    ** Rings and threads

    - [SpscRing], [MulticastRing]: ipc/spsc_ring.hpp and ipc/multicast_ring.hpp as step relations,
      with delivery, order and the absence of torn reads under every interleaving.
      [RingHold]: what a consumer of the outbound ring finds.
    - [Events]: ipc/command.hpp, ipc/outbound_event.hpp; [MatchingThread]:
      runtime/matching_thread.hpp, whose run refines the abstract book.
    - [Telemetry]: the sequence lock of telemetry/live_latency.hpp.

    ** Journal, snapshots, recovery

    - [JournalFormat], [SegmentNames], [JournalWriter], [JournalReader]:
      sequencer/journal_format.hpp, journal_writer.hpp, journal_reader.hpp.  [JournalSpec],
      [JournalCrash], [JournalDurable]: what is in a directory after any appends, system
      call outcomes and crashes, and what a reader makes of it.  A file has bytes and a
      synced part.  A kill of the process keeps all the bytes and syncs nothing; a failure
      of the machine keeps the synced part and some of the rest ([Fault], [stopped]).  A
      restart syncs nothing it finds.
    - [JournalTailer]: sequencer/journal_tailer.hpp, each record once and in order while
      the journal grows.
    - [Sequencer]: sequencer/sequencer.hpp; what a consumer can see is durable, up to the
      first append after a failed one.  The model goes on after a failed append as the code
      does, and keeps track of it ([Health]).
    - [Snapshot], [Recovery], [Shard]: snapshot writer and reader, recovery_manager.hpp,
      snapshot_thread.hpp, runtime/shard.hpp; a shard that is stopped by a kill or a failure of
      the machine restarts with the book of the commands that were published.
    - [Digest]: recovery/state_digest.hpp, marketdata/mirror_digest.hpp, snapshot_source.hpp.
    - [AuditDaemon], [AuditSpec], [AuditClaims]: audit/audit_replayer.hpp, audit/pg_writer.cpp, the
      worker of apps/velox_auditd.cpp, over the interface [Postgres] and its laws
      [PostgresLaws]: the tables are those of a prefix of the journal after every transaction.

    ** Market data

    - [BookMirror], [Reconstruction]: marketdata/book_mirror.hpp shows the engine's book.
    - [MirrorLevels], [MirrorFeed], [Publisher], [Ladder], [FeedSpec], [FeedBurst],
      [FeedClaims]: marketdata/publisher.hpp, viz/ladder.hpp, viz/md_client.hpp; a
      subscriber that joins a gateway started on an empty journal, or whose feed was lapped,
      and that is not disconnected by a read its decoder has no room for, ends with the depth
      of the book.
    - [FeedServer]: marketdata/feed_server.hpp, frames in order in a bounded queue; the socket
      takes the bytes of a write in pieces, and a write can fail in the middle.

    ** Gateway

    - [Session], [SessionSpec], [SessionClaims]: gateway/session.cpp, gateway/auth.hpp, over the
      interface [SubmitPort] of the sequencers; what is submitted is exactly what was admitted,
      and a session never gets stuck inside a handler.  A read that has completed is delivered
      also to a session that was closed meanwhile; the theorem says what that can submit.
    - [Router]: the exec-report router of gateway/gateway.hpp.
    - [Credentials]: the credentials file of gateway/auth.hpp, and the lines of
      viz/stats_client.hpp.

    ** Admin API and visualizer server

    - [Jwt]: admin/jwt.cpp and scripts/issue-admin-token.sh; [AdminHttp], [AdminClaims]: admin/
      http_server.cpp, json.hpp, store.cpp, routes.cpp, common/http_parse.hpp.  Tokens
      that verify are signed, issued tokens verify, without a token no answer depends on the
      store, and the pages of a collection cover it.
    - [WsServer], [WsClaims]: viz/ws_server.cpp and viz/http_static.hpp against RFC 6455, with
      writes that go out in pieces.
    - [Visualizer], [VizClaims]: viz/snapshot_json.hpp, the timer of apps/velox_viz.cpp and the
      state of the page viz/web/app.js; a browser that gets the text of a ladder has the best
      levels of the engine's book and marks those that have changed.  Its numbers are doubles,
      exact up to 2 ^ 53.

    ** The programs

    - [Options]: the command lines of all programs, a module for each.
    - [Scenario]: common/scenario.hpp, orders as lines of text, with prices in binary64; what is
      written is read back.
    - [LiveMain], [LiveClaims]: apps/velox_live.cpp; a command whose acknowledgement was printed
      is in the book that recovery prints after a kill, and without --group-commit also after
      a failure of the machine.
    - [ClientMain]: apps/velox_client.cpp, joined to the session that serves it: what is
      sequenced are the first of the client's orders, and all of them when nothing is refused.
    - [GatewayMain]: apps/velox_gateway.cpp with the construction of shards and server; every
      shard comes back with its own book, and a subscriber of one instrument shows its book.
    - [Workload], [Loadgen]: benchmark/loadgen/ and the loops of benchmark/velox_loadgen.cpp; a
      workload never grows the book, and every measured order is recorded once.

    Where the code falls short of its comments or of what it means to do, a theorem shows the
    run: the theorems after the claims of a file whose names say what goes wrong
    ([BookClaims], [MulticastRing], [JournalDurable], [JournalTailer], [AuditClaims],
    [FeedClaims], [SessionClaims], [Router], [Base64], [Jwt], [AdminClaims], [WsClaims],
    [Credentials], [Scenario], [LiveClaims], [VizClaims], [ClientMain]).

    ** Fuel

    Loops that are not structural take a bound.  In the book the bound is a number of slots,
    orders or words that the loop cannot exceed (the pool's capacity, the summary words, the
    table's capacity), and the refinement theorems show that it is never exhausted.  Readers
    of journals are bounded by the number of records plus one or two, decoders by the bytes in
    their buffer, drains of a ring by the events in it, the WebSocket reader by the bytes of
    the frame, the JSON reader by the bytes of the text, the thin population of a workload by
    the prices it can reach; the theorems are stated with the bound and include that it is enough.  Only the
    figures of the admin status page are computed with a bound, the bytes of the
    journal, that no theorem is about.

    ** Not modelled

    The C++ memory model below sequential consistency; asio, sockets, name resolution, timers
    and the starting and joining of threads (their effects are the events of the models, and
    what the threads run is modelled); libpq and HdrHistogram (interfaces).  Of the page, the
    drawing on the canvas and the latency chart.  Of the load generator, the reports in text, JSON and CSV, which
    print floating-point rates and what the histogram library answers, the sharded runs
    and the replay of recorded files.  The micro-benchmarks of benchmark/, which time operations that
    are modelled, and platform/platform.hpp, whose functions pin threads, pause and make system
    calls.  Directory entries are assumed to survive a crash once the file's contents are
    synced.  A kill in the one place between the write and the [fsync] of a record followed by
    a failure of the machine is outside the restart theorems; the code has no defence against
    it, as [JournalDurable] shows. *)
From Stdlib Require Export ZArith Lia ZifyBool Bool.
From stdpp Require Export base numbers option list sets gmap.
#[export] Set Default Goal Selector "!".
Open Scope Z_scope.

(** * Machine integers *)

Definition INT64_MAX : Z := 9223372036854775807.
Definition INT64_MIN : Z := -9223372036854775808.

(** The value of a 64-bit unsigned (resp. signed, two's complement) variable
    after [x] has been stored in it; likewise for the narrower widths. *)
Definition u64 (x : Z) : Z := x mod 18446744073709551616.
Definition s64 (x : Z) : Z :=
  (x + 9223372036854775808) mod 18446744073709551616 - 9223372036854775808.
Definition u32 (x : Z) : Z := x mod 4294967296.
Definition u8 (x : Z) : Z := x mod 256.

Definition in_i64 (x : Z) : Prop := INT64_MIN <= x <= INT64_MAX.
Definition in_u64 (x : Z) : Prop := 0 <= x < 18446744073709551616.

Lemma in_u64_pow x : in_u64 x ↔ 0 <= x < 2 ^ 64.
Proof. reflexivity. Qed.

Lemma u64_range x : in_u64 (u64 x).
Proof. apply Z.mod_pos_bound. lia. Qed.

Lemma u64_id x : in_u64 x → u64 x = x.
Proof. apply Z.mod_small. Qed.

Lemma s64_range x : in_i64 (s64 x).
Proof.
  unfold in_i64, s64, INT64_MIN, INT64_MAX.
  pose proof (Z.mod_pos_bound (x + 9223372036854775808) 18446744073709551616).
  lia.
Qed.

Lemma s64_id x : in_i64 x → s64 x = x.
Proof.
  unfold in_i64, s64, INT64_MIN, INT64_MAX. intros.
  rewrite Z.mod_small by lia. lia.
Qed.

(** A value known to be in range is stored as it is. *)
Ltac u64_small := rewrite u64_id by (unfold in_u64; lia).
Ltac s64_small := rewrite s64_id by (unfold in_i64, INT64_MIN, INT64_MAX in *; lia).

(** One step of a sequence of fallible operations whose first one has been evaluated. *)
Ltac simpl_bind := cbn [mbind option_bind].

(** Facts about machine integers and array accesses that need no thought. *)
Create HintDb velox.
#[export] Hint Resolve u64_range s64_range : velox.
#[export] Hint Extern 1 (in_u64 _) => (unfold in_u64; lia) : velox.
#[export] Hint Extern 1 (in_i64 _) => (unfold in_i64, INT64_MIN, INT64_MAX in *; lia) : velox.

(** [s64] only depends on the residue of its argument: it may be pushed out of
    every sum, which is what keeps a running total exact modulo 2^64. *)
Lemma s64_congr x y k : x = y + k * 18446744073709551616 → s64 x = s64 y.
Proof.
  intros ->. unfold s64.
  replace (y + k * 18446744073709551616 + 9223372036854775808)
    with (y + 9223372036854775808 + k * 18446744073709551616) by lia.
  by rewrite Z_mod_plus_full.
Qed.

Lemma s64_residue x : ∃ k, s64 x = x + k * 18446744073709551616.
Proof.
  exists (- ((x + 9223372036854775808) / 18446744073709551616)). unfold s64.
  pose proof (Z.div_mod (x + 9223372036854775808) 18446744073709551616). lia.
Qed.

Lemma s64_add_l x y : s64 (s64 x + y) = s64 (x + y).
Proof.
  destruct (s64_residue x) as [k ->]. apply (s64_congr _ _ k). lia.
Qed.

Lemma s64_sub_l x y : s64 (s64 x - y) = s64 (x - y).
Proof.
  destruct (s64_residue x) as [k ->]. apply (s64_congr _ _ k). lia.
Qed.

(** * Arrays

    A C++ array is a list; an access outside its bounds is undefined behaviour
    and is the value [None]. *)
Definition aget {A} (l : list A) (i : Z) : option A :=
  if (0 <=? i) && (i <? Z.of_nat (length l)) then l !! Z.to_nat i else None.

Definition aset {A} (l : list A) (i : Z) (x : A) : option (list A) :=
  if (0 <=? i) && (i <? Z.of_nat (length l))
  then Some (<[Z.to_nat i := x]> l) else None.

Lemma aget_nat {A} (l : list A) (n : nat) : aget l (Z.of_nat n) = l !! n.
Proof.
  unfold aget. rewrite Nat2Z.id.
  destruct (Z.of_nat n <? Z.of_nat (length l)) eqn:E.
  - by destruct (0 <=? Z.of_nat n) eqn:E0; [|lia].
  - rewrite andb_false_r. symmetry. apply lookup_ge_None. lia.
Qed.

Lemma aset_nat {A} (l : list A) (n : nat) x :
  (n < length l)%nat → aset l (Z.of_nat n) x = Some (<[n := x]> l).
Proof.
  intros. unfold aset. rewrite Nat2Z.id.
  destruct (0 <=? Z.of_nat n) eqn:E0; [|lia].
  destruct (Z.of_nat n <? Z.of_nat (length l)) eqn:E; [done|lia].
Qed.

Lemma aget_Some {A} (l : list A) i x :
  aget l i = Some x ↔ 0 <= i ∧ l !! Z.to_nat i = Some x.
Proof.
  split.
  - unfold aget. case_match eqn:E; [|done]. intros. split; [lia|done].
  - intros [H0 H]. rewrite <- (Z2Nat.id i) by done. by rewrite aget_nat.
Qed.

Lemma aset_Some {A} (l : list A) i x l' :
  aset l i x = Some l' ↔ 0 <= i < Z.of_nat (length l) ∧ l' = <[Z.to_nat i := x]> l.
Proof.
  unfold aset. split.
  - case_match eqn:E; [|done]. intros [= <-]. split; [lia|done].
  - intros [H ->]. case_match eqn:E; [done|lia].
Qed.

Lemma aset_in {A} (l : list A) i x :
  0 <= i < Z.of_nat (length l) → aset l i x = Some (<[Z.to_nat i := x]> l).
Proof. intros. by apply aset_Some. Qed.

Lemma aget_in {A} (l : list A) i :
  0 <= i < Z.of_nat (length l) → is_Some (aget l i).
Proof.
  intros. destruct (lookup_lt_is_Some_2 l (Z.to_nat i)) as [x Hx]; [lia|].
  exists x. apply aget_Some. split; [lia|done].
Qed.

Lemma aget_insert_eq {A} (l : list A) i x :
  0 <= i < Z.of_nat (length l) → aget (<[Z.to_nat i := x]> l) i = Some x.
Proof. intros. apply aget_Some. split; [lia|]. apply list_lookup_insert_eq. lia. Qed.

Lemma aget_insert_ne {A} (l : list A) i j x :
  0 <= i → j ≠ i → aget (<[Z.to_nat i := x]> l) j = aget l j.
Proof.
  intros Hi Hj. unfold aget. rewrite length_insert. case_match eqn:E; [|done].
  apply list_lookup_insert_ne. lia.
Qed.

(** * Lists of lists *)

Lemma concat_split {A} (Q : list (list A)) i qs :
  Q !! i = Some qs →
  ∃ Q1 Q2, Q = Q1 ++ qs :: Q2 ∧ length Q1 = i ∧ ∀ qs', <[i := qs']> Q = Q1 ++ qs' :: Q2.
Proof.
  intros H. exists (take i Q), (drop (S i) Q).
  pose proof (lookup_lt_Some _ _ _ H) as Hlt.
  split; [symmetry; by apply take_drop_middle|].
  split; [rewrite length_take; lia|].
  intros qs'. by apply insert_take_drop.
Qed.

Lemma elem_of_concat {A} (Q : list (list A)) x :
  x ∈ concat Q ↔ ∃ i qs, Q !! i = Some qs ∧ x ∈ qs.
Proof.
  rewrite list_elem_of_In, in_concat. split.
  - intros (qs & HQ & Hx). apply list_elem_of_In, list_elem_of_lookup in HQ as [i Hi].
    exists i, qs. split; [done|]. by apply list_elem_of_In.
  - intros (i & qs & Hi & Hx). exists qs. split; [|by apply list_elem_of_In].
    apply list_elem_of_In. by apply list_elem_of_lookup_2 in Hi.
Qed.

Lemma concat_disjoint {A} (Q : list (list A)) i j a b x :
  NoDup (concat Q) → Q !! i = Some a → Q !! j = Some b → i ≠ j → x ∈ a → x ∉ b.
Proof.
  intros Hn Hi Hj Hne Ha Hb.
  destruct (concat_split Q i a Hi) as (Q1 & Q2 & -> & Hl & _).
  rewrite concat_app in Hn. simpl in Hn.
  apply NoDup_app in Hn as (_ & Hd & (_ & Hd2 & _)%NoDup_app).
  destruct (decide (j < i)%nat).
  - rewrite lookup_app_l in Hj by lia. apply (Hd x); [|by apply elem_of_app; left].
    apply elem_of_concat. eauto.
  - rewrite lookup_app_r in Hj by lia.
    destruct (j - length Q1)%nat as [|k] eqn:E; [lia|]. simpl in Hj.
    apply (Hd2 x Ha). apply elem_of_concat. eauto.
Qed.

Lemma concat_insert {A} (Q : list (list A)) i qs :
  Q !! i = Some qs → ∃ X Y, concat Q = X ++ qs ++ Y ∧
    ∀ qs', concat (<[i := qs']> Q) = X ++ qs' ++ Y.
Proof.
  intros H. destruct (concat_split Q i qs H) as (Q1 & Q2 & -> & _ & Hins).
  exists (concat Q1), (concat Q2). split; [by rewrite concat_app|].
  intros qs'. by rewrite Hins, concat_app.
Qed.

Lemma concat_remove {A} (Q : list (list A)) i l1 p l2 :
  Q !! i = Some (l1 ++ p :: l2) → concat Q ≡ₚ p :: concat (<[i := l1 ++ l2]> Q).
Proof.
  intros H. destruct (concat_insert Q i _ H) as (X & Y & -> & Hins). rewrite Hins.
  rewrite <- !app_assoc. rewrite !(app_assoc X l1). simpl. by rewrite <- Permutation_middle.
Qed.

Lemma concat_add {A} (Q : list (list A)) i qs p :
  Q !! i = Some qs → concat (<[i := qs ++ [p]]> Q) ≡ₚ p :: concat Q.
Proof.
  intros H. destruct (concat_insert Q i _ H) as (X & Y & -> & Hins). rewrite Hins.
  rewrite <- !app_assoc. rewrite !(app_assoc X qs). simpl. by rewrite <- Permutation_middle.
Qed.

Lemma Forall_concat {A} (P : A → Prop) (Q : list (list A)) :
  Forall (Forall P) Q → Forall P (concat Q).
Proof. induction 1; simpl; [done|]. by apply Forall_app. Qed.

Lemma Forall_concat_inv {A} (P : A → Prop) (Q : list (list A)) :
  Forall P (concat Q) → Forall (Forall P) Q.
Proof. induction Q; simpl; [done|]. intros []%Forall_app. constructor; auto. Qed.

Lemma filter_all {A} (P : A → Prop) `{!∀ x, Decision (P x)} l :
  Forall P l → filter P l = l.
Proof.
  induction 1 as [|x l Hx _ IH]; [done|]. rewrite filter_cons_True by done. by rewrite IH.
Qed.

Lemma filter_none {A} (P : A → Prop) `{!∀ x, Decision (P x)} (l : list A) : Forall (λ x, ¬ P x) l → filter P l = [].
Proof. induction 1 as [|x l Hx _ IH]; [done|]. by rewrite filter_cons_False. Qed.

Lemma filter_nil_iff {A} (P : A → Prop) `{!∀ x, Decision (P x)} l :
  filter P l = [] ↔ ∀ x, x ∈ l → ¬ P x.
Proof.
  split.
  - intros Hf x Hx HP. by eapply filter_nil_not_elem_of.
  - intros Hn. induction l as [|x l IH]; [done|].
    rewrite filter_cons_False by (apply Hn; by left). apply IH. intros. apply Hn. by right.
Qed.

(** * Bits of a 64-bit word *)

(** [std::countl_zero], [std::countr_zero] and [std::bit_width] on uint64_t. *)
Definition countl_zero (x : Z) : Z := if x =? 0 then 64 else 63 - Z.log2 x.

Fixpoint pos_ctz (p : positive) : Z :=
  match p with xO p' => 1 + pos_ctz p' | _ => 0 end.
Definition countr_zero (x : Z) : Z :=
  match x with Zpos p => pos_ctz p | _ => 64 end.

Definition bit_width (x : Z) : Z := if x =? 0 then 0 else Z.log2 x + 1.

(** Complement at 64 bits. *)
Definition not64 (x : Z) : Z := u64 (Z.lnot x).

Lemma testbit_above w n : in_u64 w → 64 <= n → Z.testbit w n = false.
Proof.
  intros [H0 H1] Hn. destruct (decide (w = 0)) as [->|]; [apply Z.bits_0|].
  apply Z.bits_above_log2; [lia|].
  assert (Z.log2 w < 64); [|lia]. apply Z.log2_lt_pow2; [lia|]. exact H1.
Qed.

Lemma testbit_lt w n : in_u64 w → Z.testbit w n = true → 0 <= n < 64.
Proof.
  intros Hw Ht. destruct (decide (n < 0)); [by rewrite Z.testbit_neg_r in Ht|].
  destruct (decide (64 <= n)) as [|]; [|lia].
  by rewrite testbit_above in Ht.
Qed.

Lemma nonzero_testbit w : in_u64 w → w ≠ 0 ↔ ∃ n, 0 <= n < 64 ∧ Z.testbit w n = true.
Proof.
  intros Hw. destruct (Hw) as [H0 H1]. split.
  - intros Hne. exists (Z.log2 w). assert (Hb : Z.testbit w (Z.log2 w) = true).
    { apply Z.bit_log2. lia. }
    split; [|done]. by apply testbit_lt with w.
  - intros (n & _ & Hn) ->. by rewrite Z.bits_0 in Hn.
Qed.

(** A nonnegative number without bits from 64 up fits in a word. *)
Lemma in_u64_bits x : 0 <= x → (∀ n, 64 <= n → Z.testbit x n = false) → in_u64 x.
Proof.
  intros H0 Hb. split; [done|].
  destruct (decide (x = 0)) as [->|]; [lia|].
  change (x < 2 ^ 64). apply Z.log2_lt_pow2; [lia|].
  destruct (decide (Z.log2 x < 64)); [done|].
  assert (Z.testbit x (Z.log2 x) = true) by (apply Z.bit_log2; lia).
  rewrite Hb in *; [done|lia].
Qed.

Lemma in_u64_land x y : in_u64 x → in_u64 (Z.land x y).
Proof.
  intros Hx. apply in_u64_bits.
  - apply Z.land_nonneg. left. apply Hx.
  - intros n Hn. by rewrite Z.land_spec, testbit_above.
Qed.

Lemma in_u64_lor x y : in_u64 x → in_u64 y → in_u64 (Z.lor x y).
Proof.
  intros Hx Hy. apply in_u64_bits.
  - apply Z.lor_nonneg. split; [apply Hx|apply Hy].
  - intros n Hn. by rewrite Z.lor_spec, !testbit_above.
Qed.

Lemma in_u64_bit n : 0 <= n < 64 → in_u64 (Z.shiftl 1 n).
Proof.
  intros. rewrite Z.shiftl_1_l. split; [lia|].
  apply (Z.pow_lt_mono_r 2 n 64); lia.
Qed.

Lemma not64_testbit x n : 0 <= n < 64 → Z.testbit (not64 x) n = negb (Z.testbit x n).
Proof.
  intros. unfold not64, u64.
  change 18446744073709551616 with (2 ^ 64). rewrite Z.mod_pow2_bits_low by lia.
  apply Z.lnot_spec. lia.
Qed.

Lemma bit_testbit n m : 0 <= n → 0 <= m → Z.testbit (Z.shiftl 1 n) m = (n =? m).
Proof.
  intros. rewrite Z.shiftl_1_l, Z.pow2_bits_eqb by lia. done.
Qed.

Lemma ones_mask_testbit n m :
  0 <= n → 0 <= m → Z.testbit (Z.shiftl 1 n - 1) m = (m <? n).
Proof.
  intros. rewrite Z.shiftl_1_l, Z.sub_1_r, <- Z.ones_equiv.
  destruct (m <? n) eqn:E.
  - apply Z.ones_spec_low. lia.
  - apply Z.ones_spec_high. lia.
Qed.

Lemma countl_zero_spec x :
  in_u64 x → x ≠ 0 →
  let k := 63 - countl_zero x in
  0 <= k < 64 ∧ Z.testbit x k = true ∧ ∀ j, k < j → Z.testbit x j = false.
Proof.
  intros Hx Hp. unfold countl_zero. destruct (x =? 0) eqn:E; [lia|].
  replace (63 - (63 - Z.log2 x)) with (Z.log2 x) by lia. cbv zeta.
  assert (0 < x) by (destruct Hx; lia).
  assert (Hb : Z.testbit x (Z.log2 x) = true) by (apply Z.bit_log2; lia).
  split; [by eapply testbit_lt|]. split; [done|].
  intros j Hj. apply Z.bits_above_log2; lia.
Qed.

Lemma pos_ctz_spec p :
  0 <= pos_ctz p ∧ Z.testbit (Zpos p) (pos_ctz p) = true
  ∧ ∀ j, 0 <= j < pos_ctz p → Z.testbit (Zpos p) j = false.
Proof.
  induction p as [p _|p IH|]; cbn [pos_ctz].
  - split; [lia|]. split; [done|]. lia.
  - destruct IH as (H0 & H1 & H2).
    rewrite (Pos2Z.inj_xO p).
    split; [lia|]. split.
    + rewrite Z.add_comm, Z.add_1_r, Z.double_bits_succ. done.
    + intros j Hj. destruct (decide (j = 0)) as [->|].
      * apply Z.testbit_even_0.
      * replace j with (Z.succ (j - 1)) by lia. rewrite Z.double_bits_succ.
        apply H2. lia.
  - split; [lia|]. split; [done|]. lia.
Qed.

Lemma countr_zero_spec x :
  in_u64 x → x ≠ 0 →
  let k := countr_zero x in
  0 <= k < 64 ∧ Z.testbit x k = true ∧ ∀ j, 0 <= j < k → Z.testbit x j = false.
Proof.
  intros Hx Hp. destruct x as [|p|p]; [lia| |destruct Hx; lia]. cbn [countr_zero].
  destruct (pos_ctz_spec p) as (H0 & H1 & H2).
  split; [|done]. by eapply testbit_lt.
Qed.
