(* ===== verification/Types.v ===== *)
(** Data types of the engine: [common/types.hpp], [engine/order.hpp],
    [engine/trade.hpp] and the plain structs of [engine/order_book.hpp].

    A price, quantity, order id, participant id or sequence number is an
    int64_t and is a [Z]; a pointer to a pooled [Order] is the index of its slot
    in the pool; a pointer to a [PriceLevel] is the side whose [LevelMap] owns it
    and its index in that map's array.  A null pointer is [None]. *)
From S2P Require Import Prelude.

Inductive Side := Buy | Sell.

#[export] Instance Side_eq_dec : EqDecision Side.
Proof. solve_decision. Defined.

Definition opposite (s : Side) : Side :=
  match s with Buy => Sell | Sell => Buy end.

Definition kPriceScale : Z := 10000.
Definition kBidEmpty : Z := INT64_MIN.
Definition kAskEmpty : Z := INT64_MAX.

Definition emptySentinel (s : Side) : Z :=
  match s with Buy => kBidEmpty | Sell => kAskEmpty end.

Lemma opposite_involutive s : opposite (opposite s) = s.
Proof. by destruct s. Qed.

(** ** Orders *)

Abbreviation ptr := nat.
Definition LevelRef := (Side * nat)%type.

Record Order := mkOrder {
  o_remaining : Z;
  o_participant : Z;
  o_price : Z;
  o_id : Z;
  o_next : option ptr;
  o_level : option LevelRef;
  o_side : Side;
  o_quantity : Z;
  o_seq : Z;
  o_prev : option ptr
}.

(** Assignment to one field of an order. *)
Definition set_remaining (v : Z) (o : Order) : Order :=
  mkOrder v (o_participant o) (o_price o) (o_id o) (o_next o) (o_level o)
    (o_side o) (o_quantity o) (o_seq o) (o_prev o).
Definition set_next (v : option ptr) (o : Order) : Order :=
  mkOrder (o_remaining o) (o_participant o) (o_price o) (o_id o) v (o_level o)
    (o_side o) (o_quantity o) (o_seq o) (o_prev o).
Definition set_prev (v : option ptr) (o : Order) : Order :=
  mkOrder (o_remaining o) (o_participant o) (o_price o) (o_id o) (o_next o) (o_level o)
    (o_side o) (o_quantity o) (o_seq o) v.
Definition set_level (v : option LevelRef) (o : Order) : Order :=
  mkOrder (o_remaining o) (o_participant o) (o_price o) (o_id o) (o_next o) v
    (o_side o) (o_quantity o) (o_seq o) (o_prev o).

(** ** Commands and results *)

Inductive OrderType := Limit | Market | Ioc | Fok.
Inductive StpPolicy := CancelAggressor | CancelPassive | CancelBoth.

#[export] Instance OrderType_eq_dec : EqDecision OrderType.
Proof. solve_decision. Defined.
#[export] Instance StpPolicy_eq_dec : EqDecision StpPolicy.
Proof. solve_decision. Defined.

Record BookConfig := mkConfig {
  cfg_minPrice : Z;
  cfg_maxPrice : Z;
  cfg_tick : Z;
  cfg_maxOrders : Z;
  cfg_stp : StpPolicy
}.

Definition defaultConfig : BookConfig :=
  mkConfig (1 * kPriceScale) (1000 * kPriceScale) (kPriceScale / 100)
    (Z.shiftl 1 20) CancelAggressor.

Record NewOrder := mkNew {
  n_id : Z;
  n_price : Z;
  n_quantity : Z;
  n_participant : Z;
  n_side : Side;
  n_type : OrderType
}.

Inductive SubmitStatus :=
  | Ok
  | RejectedPriceOutOfRange
  | RejectedInvalidQuantity
  | RejectedDuplicateId
  | RejectedPoolExhausted
  | RejectedUnknownOrder
  | RejectedMarketIntoEmptyBook
  | RejectedFokUnfillable
  | CancelledBySelfTradePrevention
  | CancelledResidual.

#[export] Instance SubmitStatus_eq_dec : EqDecision SubmitStatus.
Proof. solve_decision. Defined.

Record OrderResult := mkResult {
  r_status : SubmitStatus;
  r_filled : Z;
  r_remaining : Z;
  r_rested : bool;
  r_price : Z;
  r_quantity : Z;
  r_participant : Z;
  r_seq : Z;
  r_side : Side
}.

(** [OrderResult result{};] *)
Definition emptyResult : OrderResult := mkResult Ok 0 0 false 0 0 0 0 Buy.

Definition with_status (r : OrderResult) (st : SubmitStatus) : OrderResult :=
  mkResult st (r_filled r) (r_remaining r) (r_rested r) (r_price r)
    (r_quantity r) (r_participant r) (r_seq r) (r_side r).

Record Trade := mkTrade {
  t_id : Z;
  t_aggressorId : Z;
  t_passiveId : Z;
  t_price : Z;
  t_quantity : Z;
  t_aggressorSide : Side
}.

Record StpVictim := mkVictim {
  v_id : Z;
  v_price : Z;
  v_quantity : Z;
  v_remaining : Z;
  v_participant : Z;
  v_seq : Z;
  v_side : Side
}.

(** ** Caller-provided output buffers

    [TradeBuffer] and [StpVictimBuffer] have the same shape: a fixed array and a
    count that keeps growing after the array is full, so that truncation can be
    detected. *)
Module Buffer.
Section buffer.
Context {A : Type}.

Record Buffer := mkBuffer { data : list A; capacity : Z; count : Z }.

Definition push (b : Buffer) (x : A) : Buffer :=
  mkBuffer
    (if count b <? capacity b then <[Z.to_nat (count b) := x]> (data b) else data b)
    (capacity b) (u64 (count b + 1)).

Definition overflowed (b : Buffer) : bool := capacity b <? count b.
Definition clear (b : Buffer) : Buffer := mkBuffer (data b) (capacity b) 0.

(** What the caller may read back: the elements below both [count] and
    [capacity]. *)
Definition contents (b : Buffer) : list A :=
  take (Z.to_nat (Z.min (count b) (capacity b))) (data b).

Definition wf (b : Buffer) : Prop :=
  capacity b = Z.of_nat (length (data b)) ∧ 0 <= count b < 18446744073709551616.

Definition push_all (b : Buffer) (xs : list A) : Buffer := foldl push b xs.

Lemma push_all_app b xs ys : push_all b (xs ++ ys) = push_all (push_all b xs) ys.
Proof. apply foldl_app. Qed.

Lemma push_all_capacity b xs : capacity (push_all b xs) = capacity b.
Proof. revert b. induction xs as [|x xs IH]; intros b; [done|]. simpl. by rewrite IH. Qed.

Lemma push_wf b x : wf b → wf (push b x).
Proof.
  intros [Hc Hn]. split; [|apply u64_range]. simpl.
  case_match; [by rewrite length_insert|done].
Qed.

Lemma push_contents b x :
  wf b → count b + 1 < 18446744073709551616 →
  count (push b x) = count b + 1 ∧
  contents (push b x) =
    if count b <? capacity b then contents b ++ [x] else contents b.
Proof.
  intros [Hc Hn] Hlt. unfold contents, push; simpl.
  rewrite u64_id by (split; lia). split; [done|].
  destruct (count b <? capacity b) eqn:E.
  - rewrite !Z.min_l by lia.
    replace (Z.to_nat (count b + 1)) with (S (Z.to_nat (count b))) by lia.
    rewrite (take_S_r _ _ x).
    + f_equal. apply take_insert_ge. lia.
    + apply list_lookup_insert_eq. lia.
  - by rewrite !Z.min_r by lia.
Qed.

(** Pushing [xs] into a buffer appends the part of [xs] that still fits; the
    count tells exactly how many elements were offered. *)
Lemma push_all_contents b xs :
  wf b → count b + Z.of_nat (length xs) < 18446744073709551616 →
  count (push_all b xs) = count b + Z.of_nat (length xs) ∧
  contents (push_all b xs) =
    contents b ++ take (Z.to_nat (capacity b - count b)) xs.
Proof.
  revert b. induction xs as [|x xs IH]; intros b Hb Hlt; simpl in *.
  { rewrite take_nil, app_nil_r. split; [lia|done]. }
  destruct (push_contents b x) as [Hc Hd]; [done|lia|].
  destruct (IH (push b x)) as [IHc IHd]; [by apply push_wf|lia|].
  rewrite IHc, IHd, Hc, Hd. split; [lia|]. cbn [push capacity].
  destruct (count b <? capacity b) eqn:E.
  - replace (Z.to_nat (capacity b - count b))
      with (S (Z.to_nat (capacity b - (count b + 1)))) by lia.
    simpl. by rewrite <- app_assoc.
  - replace (Z.to_nat (capacity b - count b)) with 0%nat by lia.
    replace (Z.to_nat (capacity b - (count b + 1))) with 0%nat by lia.
    done.
Qed.
End buffer.
Arguments Buffer : clear implicits.
End Buffer.

Abbreviation TradeBuffer := (Buffer.Buffer Trade).
Abbreviation StpVictimBuffer := (Buffer.Buffer StpVictim).
