(* ===== verification/ObjectPool.v ===== *)
(** [common/object_pool.hpp]: the fixed-capacity pool.

    The storage is a list of slots.  A slot is the union of the source: either a
    link of the free list or a live object, never both.  Following a pointer to a
    slot that does not hold what is read is undefined behaviour and is [None]. *)
From S2P Require Import Prelude.

Inductive Slot (T : Type) :=
  | SNext (next : option nat)
  | SValue (value : T).
Arguments SNext {T} next.
Arguments SValue {T} value.

Section pool.
Context {T : Type}.
Implicit Types (h : list (Slot T)) (p : nat) (fl : list nat).

Record ObjectPool := mkPool {
  storage_ : list (Slot T);
  free_ : option nat;
  capacity_ : Z;
  inUse_ : Z
}.

Definition set_storage (pl : ObjectPool) h : ObjectPool :=
  mkPool h (free_ pl) (capacity_ pl) (inUse_ pl).

(** The constructor threads the free list through the slots in order. *)
Definition linkSlots (n : nat) : list (Slot T) :=
  (λ i, SNext (if decide (S i < n)%nat then Some (S i) else None)) <$> seq 0 n.

Definition poolNew (capacity : Z) : ObjectPool :=
  mkPool (linkSlots (Z.to_nat capacity))
    (if 0 <? capacity then Some 0%nat else None) capacity 0.

Definition acquire (pl : ObjectPool) : option (ObjectPool * option nat) :=
  match free_ pl with
  | None => Some (pl, None)
  | Some s =>
      match storage_ pl !! s with
      | Some (SNext n) =>
          Some (mkPool (storage_ pl) n (capacity_ pl) (u64 (inUse_ pl + 1)), Some s)
      | _ => None
      end
  end.

Definition release (pl : ObjectPool) (op : option nat) : option ObjectPool :=
  match op with
  | None => Some pl
  | Some s =>
      if decide (s < length (storage_ pl))%nat
      then Some (mkPool (<[s := SNext (free_ pl)]> (storage_ pl)) (Some s)
                   (capacity_ pl) (u64 (inUse_ pl - 1)))
      else None
  end.

Definition available (pl : ObjectPool) : Z := u64 (capacity_ pl - inUse_ pl).

(** Reading the object a pointer designates, assigning to it, and filling in
    every field of a slot just acquired. *)
Definition hget h p : option T :=
  match h !! p with Some (SValue v) => Some v | _ => None end.

Definition hset h p (v : T) : option (list (Slot T)) :=
  match h !! p with Some (SValue _) => Some (<[p := SValue v]> h) | _ => None end.

Definition hupd h p (f : T → T) : option (list (Slot T)) :=
  v ← hget h p; hset h p (f v).

Definition hinit h p (v : T) : option (list (Slot T)) :=
  match h !! p with Some _ => Some (<[p := SValue v]> h) | None => None end.

(** ** The invariant *)

(** [chain h q fl]: following links from [q] visits exactly [fl]. *)
Fixpoint chain h (q : option nat) fl : Prop :=
  match fl with
  | [] => q = None
  | p :: fl' => q = Some p ∧ ∃ n, h !! p = Some (SNext n) ∧ chain h n fl'
  end.

Record pool_ok (pl : ObjectPool) fl : Prop := {
  po_chain : chain (storage_ pl) (free_ pl) fl;
  po_nodup : NoDup fl;
  po_free : ∀ p, p ∈ fl ↔ ∃ n, storage_ pl !! p = Some (SNext n);
  po_capacity : capacity_ pl = Z.of_nat (length (storage_ pl));
  po_small : capacity_ pl < 18446744073709551616;
  po_inUse : inUse_ pl = capacity_ pl - Z.of_nat (length fl)
}.

Lemma hget_Some h p v : hget h p = Some v ↔ h !! p = Some (SValue v).
Proof. unfold hget. repeat case_match; naive_solver. Qed.

Lemma hset_Some h p v v' : hget h p = Some v → hset h p v' = Some (<[p := SValue v']> h).
Proof. intros Hv%hget_Some. unfold hset. by rewrite Hv. Qed.

Lemma hset_live h p v : is_Some (hget h p) → hset h p v = Some (<[p := SValue v]> h).
Proof. intros [v' Hv]. by eapply hset_Some. Qed.

Lemma hupd_Some h p v f : hget h p = Some v → hupd h p f = Some (<[p := SValue (f v)]> h).
Proof. intros H. unfold hupd. rewrite H. by eapply hset_Some. Qed.

Lemma hget_lt h p v : hget h p = Some v → (p < length h)%nat.
Proof. intros H%hget_Some. by eapply lookup_lt_Some. Qed.

Lemma hget_insert_eq h p v : (p < length h)%nat → hget (<[p := SValue v]> h) p = Some v.
Proof. intros. apply hget_Some. by apply list_lookup_insert_eq. Qed.

Lemma hget_insert_ne h p q s : p ≠ q → hget (<[p := s]> h) q = hget h q.
Proof. intros. unfold hget. by rewrite list_lookup_insert_ne. Qed.

Lemma chain_ext h h' q fl :
  (∀ p, p ∈ fl → h' !! p = h !! p) → chain h q fl → chain h' q fl.
Proof.
  revert q. induction fl as [|p fl IH]; intros q Hext; [done|].
  intros (-> & n & Hn & Hc). split; [done|]. exists n. split.
  - rewrite Hext; [done|]. by left.
  - apply IH; [|done]. intros. apply Hext. by right.
Qed.

Lemma chain_free h q fl p : chain h q fl → p ∈ fl → ∃ n, h !! p = Some (SNext n).
Proof.
  revert q. induction fl as [|x fl IH]; intros q; [by intros _ ?%elem_of_nil|].
  intros (-> & n & Hn & Hc) [->|Hin]%elem_of_cons; eauto.
Qed.

(** A live object is not on the free list, and is below the capacity. *)
Lemma pool_live pl fl p v : pool_ok pl fl → hget (storage_ pl) p = Some v → p ∉ fl.
Proof.
  intros Hok Hv%hget_Some [n Hn]%(po_free _ _ Hok). congruence.
Qed.

(** Distinct slots of the pool are at most as many as its slots. *)
Lemma slots_bound (n : nat) fl :
  NoDup fl → (∀ p, p ∈ fl → (p < n)%nat) → (length fl <= n)%nat.
Proof.
  intros Hn Hlt. rewrite <- (length_seq n 0).
  apply NoDup_incl_length; [by apply NoDup_ListNoDup|].
  intros q Hq%list_elem_of_In. apply list_elem_of_In, elem_of_seq.
  specialize (Hlt _ Hq). lia.
Qed.

Lemma free_bound pl fl : pool_ok pl fl → (length fl <= length (storage_ pl))%nat.
Proof.
  intros Hok. apply slots_bound; [apply Hok|].
  intros p [n Hp]%(po_free _ _ Hok). by eapply lookup_lt_Some.
Qed.

Lemma lookup_linkSlots n i :
  (i < n)%nat →
  linkSlots n !! i = Some (SNext (if decide (S i < n)%nat then Some (S i) else None)).
Proof.
  intros. unfold linkSlots. rewrite list_lookup_fmap, lookup_seq_lt by done. done.
Qed.

Lemma chain_linkSlots n k :
  (k <= n)%nat →
  chain (linkSlots n) (if decide (n - k < n)%nat then Some (n - k)%nat else None)
    (seq (n - k) k).
Proof.
  induction k as [|k IH]; intros Hk; simpl.
  - by rewrite decide_False by lia.
  - rewrite decide_True by lia. split; [done|].
    eexists. rewrite lookup_linkSlots by lia. split; [done|].
    replace (S (n - S k)) with (n - k)%nat by lia.
    apply IH. lia.
Qed.

(** A new pool has every slot on its free list, in order. *)
Lemma poolNew_ok c :
  0 <= c < 18446744073709551616 → pool_ok (poolNew c) (seq 0 (Z.to_nat c)).
Proof.
  intros Hc.
  assert (Hlen : length (linkSlots (Z.to_nat c)) = Z.to_nat c).
  { unfold linkSlots. by rewrite length_fmap, length_seq. }
  split; simpl.
  - pose proof (chain_linkSlots (Z.to_nat c) (Z.to_nat c)) as H.
    rewrite Nat.sub_diag in H.
    destruct (0 <? c) eqn:E.
    + rewrite decide_True in H by lia. apply H. lia.
    + rewrite decide_False in H by lia. apply H. lia.
  - apply NoDup_seq.
  - intros p. rewrite elem_of_seq. split.
    + intros. rewrite lookup_linkSlots by lia. eauto.
    + intros [n Hn%lookup_lt_Some]. lia.
  - lia.
  - lia.
  - rewrite length_seq. lia.
Qed.

(** Assigning to a live object does not disturb the pool. *)
Lemma pool_ok_store pl fl p v v' :
  pool_ok pl fl → hget (storage_ pl) p = Some v →
  pool_ok (set_storage pl (<[p := SValue v']> (storage_ pl))) fl.
Proof.
  intros Hok Hv. pose proof (pool_live _ _ _ _ Hok Hv) as Hp.
  destruct Hok as [Hc Hn Hf Hcap Hs Hu]. split; simpl; try done.
  - eapply chain_ext; [|done]. intros q Hq. apply list_lookup_insert_ne. set_solver.
  - intros q. rewrite Hf. destruct (decide (p = q)) as [<-|].
    + apply hget_Some in Hv. rewrite list_lookup_insert_eq by (by eapply lookup_lt_Some).
      rewrite Hv. naive_solver.
    + by rewrite list_lookup_insert_ne.
  - by rewrite length_insert.
Qed.

(** [acquire] hands out the head of the free list; once the caller has filled
    the slot in, the pool is well formed with one slot fewer free. *)
Lemma acquire_ok pl fl :
  pool_ok pl fl →
  match fl with
  | [] => acquire pl = Some (pl, None)
  | p :: fl' => ∃ pl',
      acquire pl = Some (pl', Some p) ∧ storage_ pl' = storage_ pl ∧
      hget (storage_ pl) p = None ∧ (p < length (storage_ pl))%nat ∧
      ∀ v, hinit (storage_ pl') p v = Some (<[p := SValue v]> (storage_ pl)) ∧
           pool_ok (set_storage pl' (<[p := SValue v]> (storage_ pl))) fl'
  end.
Proof.
  intros Hok. pose proof (free_bound _ _ Hok) as Hle.
  destruct Hok as [Hc Hn Hf Hcap Hs Hu]. destruct fl as [|p fl'].
  { unfold acquire. simpl in Hc. by rewrite Hc. }
  destruct Hc as (Hfr & n & Hp & Hc). unfold acquire. rewrite Hfr, Hp.
  eexists. split; [done|]. split; [done|].
  apply NoDup_cons in Hn as [Hni Hn].
  assert (Hlt : (p < length (storage_ pl))%nat) by (by eapply lookup_lt_Some).
  split; [unfold hget; by rewrite Hp|]. split; [done|].
  intros v. simpl. split; [unfold hinit; by rewrite Hp|].
  split; simpl; try done.
  - eapply chain_ext; [|done]. intros q Hq. apply list_lookup_insert_ne. set_solver.
  - intros q. destruct (decide (p = q)) as [<-|].
    + rewrite list_lookup_insert_eq by done. naive_solver.
    + rewrite list_lookup_insert_ne by done. rewrite <- Hf. set_solver.
  - by rewrite length_insert.
  - simpl in Hu, Hle. rewrite u64_id; [|split]; lia.
Qed.

(** [release] puts a live slot back at the head of the free list. *)
Lemma release_ok pl fl p v :
  pool_ok pl fl → hget (storage_ pl) p = Some v →
  ∃ pl', release pl (Some p) = Some pl' ∧
    storage_ pl' = <[p := SNext (free_ pl)]> (storage_ pl) ∧ pool_ok pl' (p :: fl).
Proof.
  intros Hok Hv. pose proof (pool_live _ _ _ _ Hok Hv) as Hp.
  destruct Hok as [Hc Hn Hf Hcap Hs Hu].
  assert (Hlt : (p < length (storage_ pl))%nat) by (by eapply hget_lt).
  unfold release. rewrite decide_True by done.
  eexists. split; [done|]. split; [done|].
  assert (Hle : (length (p :: fl) <= length (storage_ pl))%nat).
  { apply slots_bound; [by constructor|]. intros q [->|Hq]%elem_of_cons; [done|].
    apply Hf in Hq as [n Hq]. by eapply lookup_lt_Some. }
  simpl in Hle.
  split; simpl; try done.
  - split; [done|]. exists (free_ pl). rewrite list_lookup_insert_eq by done.
    split; [done|]. eapply chain_ext; [|done].
    intros q Hq. apply list_lookup_insert_ne. set_solver.
  - by constructor.
  - intros q. destruct (decide (p = q)) as [<-|].
    + rewrite list_lookup_insert_eq by done. set_solver.
    + rewrite list_lookup_insert_ne by done. rewrite <- Hf. set_solver.
  - by rewrite length_insert.
  - rewrite u64_id; [|split]; lia.
Qed.
End pool.
Arguments ObjectPool : clear implicits.
#[global] Arguments hget {T} h p : simpl never.
#[global] Arguments hset {T} h p v : simpl never.
#[global] Arguments hupd {T} h p f : simpl never.
#[global] Arguments hinit {T} h p v : simpl never.

(** ** Pools a client can reach

    A client acquires a slot and fills it in, or releases a slot it holds; [L] is
    the client's view: which slots it holds and what it stored there. *)
Section history.
Context {T : Type}.
Implicit Types (pl : ObjectPool T) (L : gmap nat T).

Inductive pool_reach (c : Z) : ObjectPool T → gmap nat T → Prop :=
  | pr_new : pool_reach c (poolNew c) ∅
  | pr_acquire pl L pl' p v h :
      pool_reach c pl L → acquire pl = Some (pl', Some p) → hinit (storage_ pl') p v = Some h →
      pool_reach c (set_storage pl' h) (<[p := v]> L)
  | pr_release pl L p pl' :
      pool_reach c pl L → is_Some (L !! p) → release pl (Some p) = Some pl' →
      pool_reach c pl' (delete p L).

Lemma pool_reach_ok c pl L :
  0 <= c < 18446744073709551616 → pool_reach c pl L →
  ∃ fl, pool_ok pl fl ∧ (∀ p, hget (storage_ pl) p = L !! p) ∧ capacity_ pl = c ∧
        Z.of_nat (length fl + size L) = c.
Proof.
  intros Hc. induction 1 as [|pl L pl' p v h _ (fl & Hok & Hget & Hcap & Hlen) Ha Hh|
                              pl L p pl' _ (fl & Hok & Hget & Hcap & Hlen) [v Hp] Hrel].
  - exists (seq 0 (Z.to_nat c)). split; [by apply poolNew_ok|]. split; [|split; [done|]].
    + intros p. rewrite lookup_empty. unfold hget, poolNew. simpl.
      destruct (linkSlots (Z.to_nat c) !! p) as [s|] eqn:E; [|done].
      unfold linkSlots in E. apply list_lookup_fmap_Some in E as (i & -> & _). done.
    + rewrite length_seq, map_size_empty. lia.
  - pose proof (acquire_ok _ _ Hok) as Hacq. destruct fl as [|q fl]; [congruence|].
    destruct Hacq as (pl2 & Ha2 & Hst & Hnone & Hlt & Hinit).
    rewrite Ha in Ha2. injection Ha2 as <- <-. destruct (Hinit v) as [Hh2 Hok2].
    rewrite Hh in Hh2. injection Hh2 as ->. exists fl. split; [done|].
    assert (HL : L !! p = None) by (by rewrite <- Hget).
    split; [|split].
    + intros x. simpl. destruct (decide (p = x)) as [<-|Hne].
      * rewrite lookup_insert_eq. by apply hget_insert_eq.
      * rewrite lookup_insert_ne by done. by rewrite hget_insert_ne.
    + simpl. pose proof (po_capacity _ _ Hok). pose proof (po_capacity _ _ Hok2) as Hc2.
      simpl in Hc2. rewrite length_insert in Hc2. lia.
    + rewrite map_size_insert_None by done. simpl in Hlen. lia.
  - rewrite <- Hget in Hp. destruct (release_ok _ _ p v Hok Hp) as (pl2 & Hr2 & Hst & Hok2).
    assert (pl2 = pl') as -> by congruence. exists (p :: fl). split; [done|].
    assert (HL : L !! p = Some v) by (by rewrite <- Hget). split; [|split].
    + intros x. rewrite Hst. destruct (decide (p = x)) as [<-|Hne].
      * rewrite lookup_delete_eq. unfold hget.
        rewrite list_lookup_insert_eq; [done|]. by eapply hget_lt.
      * rewrite lookup_delete_ne by done. by rewrite hget_insert_ne.
    + pose proof (po_capacity _ _ Hok). pose proof (po_capacity _ _ Hok2) as Hc2.
      rewrite Hst, length_insert in Hc2. lia.
    + pose proof (map_size_delete_Some p L ltac:(by exists v)).
      assert (size L ≠ 0%nat) by (intros H0; apply map_size_empty_inv in H0; by subst).
      simpl. lia.
Qed.

(** In every state a client can bring the pool to, each slot it holds still
    contains what it stored, [available] counts the rest, [acquire] hands out a
    slot not in use exactly while fewer than [capacity] are, and releasing a held
    slot succeeds. *)
Lemma pool_is_safe c pl L :
  0 <= c < 18446744073709551616 → pool_reach c pl L →
  (∀ p, hget (storage_ pl) p = L !! p) ∧ available pl = c - Z.of_nat (size L) ∧
  (if decide (Z.of_nat (size L) < c)
   then ∃ pl' p, acquire pl = Some (pl', Some p) ∧ L !! p = None
   else acquire pl = Some (pl, None)) ∧
  (∀ p, is_Some (L !! p) → is_Some (release pl (Some p))).
Proof.
  intros Hc Hre. destruct (pool_reach_ok c pl L Hc Hre) as (fl & Hok & Hget & Hcap & Hlen).
  split; [done|]. split; [|split].
  - unfold available. rewrite (po_inUse _ _ Hok), (po_capacity _ _ Hok) in *.
    rewrite u64_id by (split; lia). lia.
  - pose proof (acquire_ok _ _ Hok) as Hacq. destruct fl as [|q fl].
    + rewrite decide_False by (simpl in Hlen; lia). done.
    + rewrite decide_True by (simpl in Hlen; lia).
      destruct Hacq as (pl2 & Ha2 & _ & Hnone & _). exists pl2, q. split; [done|]. by rewrite <- Hget.
  - intros p [v Hp]. rewrite <- Hget in Hp. destruct (release_ok _ _ p v Hok Hp) as (pl2 & -> & _). by eexists.
Qed.
End history.
