(* ===== verification/PriceLevel.v ===== *)
(** [engine/price_level.hpp]: one price level, an intrusive doubly-linked FIFO.

    The operations work on the pool's storage, where the links live, and on the
    level's own fields.  [level_ok] says that a level represents the queue [qs]
    of order pointers, head first; the three operations are shown to be "append",
    "remove this element" and "reduce this element" on that queue. *)
From S2P Require Import Prelude Types ObjectPool.

Abbreviation heap := (list (Slot Order)).

Record PriceLevel := mkLevel {
  head_ : option ptr;
  tail_ : option ptr;
  price_ : Z;
  totalQty_ : Z;
  count_ : Z
}.

Definition initLevel (p : Z) : PriceLevel := mkLevel None None p 0 0.

Definition levelEmpty (lv : PriceLevel) : bool :=
  match head_ lv with None => true | Some _ => false end.

Definition enqueue (self : LevelRef) (h : heap) (lv : PriceLevel) (p : ptr) :
    option (heap * PriceLevel) :=
  h ← hupd h p (set_prev (tail_ lv));
  h ← hupd h p (set_next None);
  h ← hupd h p (set_level (Some self));
  '(h, hd) ← match tail_ lv with
             | Some t => h ← hupd h t (set_next (Some p)); Some (h, head_ lv)
             | None => Some (h, Some p)
             end;
  o ← hget h p;
  Some (h, mkLevel hd (Some p) (price_ lv) (s64 (totalQty_ lv + o_remaining o))
             (u64 (count_ lv + 1))).

Definition unlink (h : heap) (lv : PriceLevel) (p : ptr) : option (heap * PriceLevel) :=
  o ← hget h p;
  '(h, hd) ← match o_prev o with
             | Some q => h ← hupd h q (set_next (o_next o)); Some (h, head_ lv)
             | None => Some (h, o_next o)
             end;
  o ← hget h p;
  '(h, tl) ← match o_next o with
             | Some q => h ← hupd h q (set_prev (o_prev o)); Some (h, tail_ lv)
             | None => Some (h, o_prev o)
             end;
  o ← hget h p;
  let lv := mkLevel hd tl (price_ lv) (s64 (totalQty_ lv - o_remaining o))
              (u64 (count_ lv - 1)) in
  h ← hupd h p (set_prev None);
  h ← hupd h p (set_next None);
  h ← hupd h p (set_level None);
  Some (h, lv).

Definition reduceQuantity (lv : PriceLevel) (by_ : Z) : PriceLevel :=
  mkLevel (head_ lv) (tail_ lv) (price_ lv) (s64 (totalQty_ lv - by_)) (count_ lv).

(** ** Payload: what an order is once its links are forgotten *)

Record AOrder := mkAOrder {
  ao_id : Z;
  ao_price : Z;
  ao_quantity : Z;
  ao_remaining : Z;
  ao_participant : Z;
  ao_seq : Z;
  ao_side : Side
}.

#[export] Instance AOrder_eq_dec : EqDecision AOrder.
Proof. solve_decision. Defined.

Definition aorder (o : Order) : AOrder :=
  mkAOrder (o_id o) (o_price o) (o_quantity o) (o_remaining o) (o_participant o)
    (o_seq o) (o_side o).

Definition payload (h : heap) (p : ptr) : option AOrder := aorder <$> hget h p.

Lemma payload_Some h p a : payload h p = Some a ↔ ∃ o, hget h p = Some o ∧ aorder o = a.
Proof.
  unfold payload. destruct (hget h p) as [o|]; simpl; split.
  - intros [= <-]. by exists o.
  - intros (o' & ? & <-). congruence.
  - done.
  - by intros (o' & ? & _).
Qed.

Fixpoint queue (h : heap) (qs : list ptr) : list AOrder :=
  match qs with
  | [] => []
  | q :: r => match payload h q with
              | Some o => o :: queue h r
              | None => queue h r
              end
  end.

Definition total (os : list AOrder) : Z := foldr (λ o s, ao_remaining o + s) 0 os.

Lemma total_app os os' : total (os ++ os') = total os + total os'.
Proof. induction os as [|o os IH]; simpl; lia. Qed.

Lemma total_cons o os : total (o :: os) = ao_remaining o + total os.
Proof. done. Qed.

(** [links_only h h' S]: [h'] differs from [h] at most in the link fields of the
    orders in [S]. *)
Record links_only (h h' : heap) (S : list ptr) : Prop := {
  lo_length : length h' = length h;
  lo_payload : ∀ q, payload h' q = payload h q;
  lo_other : ∀ q, q ∉ S → h' !! q = h !! q;
  lo_free : ∀ q n, h' !! q = Some (SNext n) ↔ h !! q = Some (SNext n)
}.

Lemma links_only_refl h S : links_only h h S.
Proof. by split. Qed.

Lemma links_only_trans h1 h2 h3 S :
  links_only h1 h2 S → links_only h2 h3 S → links_only h1 h3 S.
Proof.
  intros [A1 A2 A3 A4] [B1 B2 B3 B4]. split.
  - by rewrite B1.
  - intros. by rewrite B2.
  - intros. rewrite B3 by done. by apply A3.
  - intros. by rewrite B4.
Qed.

Lemma links_only_mono h h' S S' :
  (∀ q, q ∈ S → q ∈ S') → links_only h h' S → links_only h h' S'.
Proof. intros Hs [A1 A2 A3 A4]. split; auto. Qed.

Lemma links_only_hget h h' S q :
  links_only h h' S → is_Some (hget h' q) ↔ is_Some (hget h q).
Proof.
  intros [_ Hp _ _]. specialize (Hp q). unfold payload in Hp.
  destruct (hget h' q), (hget h q); simpl in *; try done; split; eauto.
Qed.

Lemma links_only_order h h' S q o :
  links_only h h' S → hget h q = Some o → ∃ o', hget h' q = Some o' ∧ aorder o' = aorder o.
Proof.
  intros [_ Hp _ _] Ho. specialize (Hp q). unfold payload in Hp. rewrite Ho in Hp.
  destruct (hget h' q) as [o'|]; [|done]. exists o'. split; [done|].
  change (Some (aorder o') = Some (aorder o)) in Hp. congruence.
Qed.

Lemma links_only_upd h p o f :
  hget h p = Some o → aorder (f o) = aorder o →
  links_only h (<[p := SValue (f o)]> h) [p].
Proof.
  intros Ho Hf. pose proof (hget_lt _ _ _ Ho) as Hlt. split.
  - apply length_insert.
  - intros q. unfold payload. destruct (decide (p = q)) as [<-|].
    + rewrite hget_insert_eq by done. rewrite Ho. simpl. by rewrite Hf.
    + by rewrite hget_insert_ne.
  - intros q Hq. apply list_lookup_insert_ne. set_solver.
  - intros q n. destruct (decide (p = q)) as [<-|].
    + rewrite list_lookup_insert_eq by done. apply hget_Some in Ho. rewrite Ho. done.
    + by rewrite list_lookup_insert_ne.
Qed.

Lemma links_only_queue h h' S qs : links_only h h' S → queue h' qs = queue h qs.
Proof.
  intros [_ Hp _ _]. induction qs as [|q qs IH]; [done|].
  simpl. by rewrite Hp, IH.
Qed.

Lemma links_only_pool (pl : ObjectPool Order) fl h' S :
  pool_ok pl fl → links_only (storage_ pl) h' S → pool_ok (set_storage pl h') fl.
Proof.
  intros [Hc Hn Hf Hcap Hs Hu] [A1 A2 A3 A4]. split; simpl; try done.
  - clear -Hc A4. revert Hc. generalize (free_ pl). induction fl as [|p fl IH]; [done|].
    intros q (-> & n & Hn & Hc). split; [done|]. exists n. by rewrite A4; auto.
  - intros p. rewrite Hf. split; intros [n Hp]; exists n; by apply A4.
  - by rewrite A1.
Qed.

(** ** Doubly-linked segments *)

(** [dseg h lr pv qs nx]: the orders [qs] are linked in that order, the first
    one's predecessor being [pv] and the last one's successor [nx], and all of
    them point back to the level [lr]. *)
Definition first (qs : list ptr) (nx : option ptr) : option ptr :=
  match qs with [] => nx | q :: _ => Some q end.

Fixpoint lastp (pv : option ptr) (qs : list ptr) : option ptr :=
  match qs with [] => pv | q :: r => lastp (Some q) r end.

Fixpoint dseg (h : heap) (lr : LevelRef) (pv : option ptr) (qs : list ptr)
    (nx : option ptr) : Prop :=
  match qs with
  | [] => True
  | p :: r => ∃ o, hget h p = Some o ∧ o_prev o = pv ∧ o_next o = first r nx ∧
                   o_level o = Some lr ∧ dseg h lr (Some p) r nx
  end.

Lemma first_app l1 l2 nx : first (l1 ++ l2) nx = first l1 (first l2 nx).
Proof. by destruct l1. Qed.

Lemma lastp_app pv l1 l2 : lastp pv (l1 ++ l2) = lastp (lastp pv l1) l2.
Proof. revert pv. induction l1 as [|a l1 IH]; intros pv; [done|]. simpl. apply IH. Qed.

Lemma dseg_app h lr pv l1 l2 nx :
  dseg h lr pv (l1 ++ l2) nx ↔
  dseg h lr pv l1 (first l2 nx) ∧ dseg h lr (lastp pv l1) l2 nx.
Proof.
  revert pv. induction l1 as [|a l1 IH]; intros pv; simpl.
  - tauto.
  - setoid_rewrite IH. setoid_rewrite first_app. naive_solver.
Qed.

Lemma dseg_ext h h' lr pv qs nx :
  (∀ q, q ∈ qs → hget h' q = hget h q) → dseg h lr pv qs nx → dseg h' lr pv qs nx.
Proof.
  revert pv. induction qs as [|q qs IH]; intros pv Hx; [done|].
  intros (o & Ho & ? & ? & ? & ?). exists o. rewrite Hx by (by left).
  repeat split; try done. apply IH; [|done]. intros. apply Hx. by right.
Qed.

Lemma dseg_hget h lr pv qs nx q :
  dseg h lr pv qs nx → q ∈ qs → ∃ o, hget h q = Some o ∧ o_level o = Some lr.
Proof.
  revert pv. induction qs as [|p qs IH]; intros pv; [by intros _ ?%elem_of_nil|].
  intros (o & Ho & ? & ? & ? & Hd) [->|Hq]%elem_of_cons; eauto.
Qed.

Lemma dseg_skip h lr pv qs nx p s :
  p ∉ qs → dseg h lr pv qs nx → dseg (<[p := s]> h) lr pv qs nx.
Proof.
  intros Hp. apply dseg_ext. intros q Hq. apply hget_insert_ne. set_solver.
Qed.

(** Relinking the last order of a segment to a new successor, and the first one
    to a new predecessor. *)
Lemma dseg_set_next h lr pv l a o nx nx' :
  a ∉ l → hget h a = Some o → dseg h lr pv (l ++ [a]) nx →
  dseg (<[a := SValue (set_next nx' o)]> h) lr pv (l ++ [a]) nx'.
Proof.
  intros Ha Ho. rewrite !dseg_app. intros [H1 H2]. split.
  - by apply dseg_skip.
  - destruct H2 as (o' & Ho' & ? & ? & ? & _). simplify_eq.
    exists (set_next nx' o). rewrite hget_insert_eq by (by eapply hget_lt). done.
Qed.

Lemma dseg_set_prev h lr pv pv' l b o nx :
  b ∉ l → hget h b = Some o → dseg h lr pv (b :: l) nx →
  dseg (<[b := SValue (set_prev pv' o)]> h) lr pv' (b :: l) nx.
Proof.
  intros Hb Ho (o' & Ho' & ? & ? & ? & Hd). simplify_eq.
  exists (set_prev pv' o). rewrite hget_insert_eq by (by eapply hget_lt).
  repeat split; try done. by apply dseg_skip.
Qed.

(** ** The level invariant *)

Record level_ok (h : heap) (lr : LevelRef) (lv : PriceLevel) (qs : list ptr) : Prop := {
  lv_nodup : NoDup qs;
  lv_links : dseg h lr None qs None;
  lv_head : head_ lv = first qs None;
  lv_tail : tail_ lv = lastp None qs;
  lv_total : totalQty_ lv = s64 (total (queue h qs));
  lv_count : count_ lv = Z.of_nat (length qs);
  lv_small : Z.of_nat (length qs) < 18446744073709551616
}.

Lemma initLevel_ok h lr p : level_ok h lr (initLevel p) [].
Proof. split; try done. constructor. Qed.

Lemma levelEmpty_spec h lr lv qs :
  level_ok h lr lv qs → levelEmpty lv = bool_decide (qs = []).
Proof. intros [_ _ Hh _ _ _ _]. unfold levelEmpty. rewrite Hh. by destruct qs. Qed.

Lemma queue_ext h h' qs :
  (∀ q, q ∈ qs → hget h' q = hget h q) → queue h' qs = queue h qs.
Proof.
  intros Hx. induction qs as [|q qs IH]; [done|]. simpl. unfold payload.
  rewrite Hx by (by left). rewrite IH; [done|]. intros. apply Hx. by right.
Qed.

Lemma level_ok_ext h h' lr lv qs :
  (∀ q, q ∈ qs → hget h' q = hget h q) → level_ok h lr lv qs → level_ok h' lr lv qs.
Proof.
  intros Hx [Hn Hd Hh Ht Htot Hc Hs]. split; try done.
  - by eapply dseg_ext.
  - rewrite Htot. f_equal. f_equal. symmetry. by apply queue_ext.
Qed.

Lemma queue_app h l1 l2 : queue h (l1 ++ l2) = queue h l1 ++ queue h l2.
Proof.
  induction l1 as [|q l1 IH]; [done|]. simpl. rewrite IH. by case_match.
Qed.

Lemma queue_live h p o : hget h p = Some o → queue h [p] = [aorder o].
Proof. intros Ho. unfold payload. simpl. unfold payload. by rewrite Ho. Qed.

Lemma queue_cons h p o qs : hget h p = Some o → queue h (p :: qs) = aorder o :: queue h qs.
Proof. intros Ho. unfold payload. simpl. unfold payload. by rewrite Ho. Qed.

(** The three consecutive link assignments of [enqueue] and [unlink]. *)
Lemma relink h p o pv nx lr :
  hget h p = Some o →
  (h ← hupd h p (set_prev pv); h ← hupd h p (set_next nx); hupd h p (set_level lr))
  = Some (<[p := SValue (set_level lr (set_next nx (set_prev pv o)))]> h).
Proof.
  intros Ho. pose proof (hget_lt _ _ _ Ho). rewrite (hupd_Some _ _ _ _ Ho). simpl.
  rewrite (hupd_Some _ p (set_prev pv o)) by (apply hget_insert_eq; done). simpl.
  rewrite (hupd_Some _ p (set_next nx (set_prev pv o))).
  - by rewrite !list_insert_insert_eq.
  - apply hget_insert_eq. by rewrite length_insert.
Qed.

Lemma relink_bind {B} h p o pv nx lr (k : heap → option B) :
  hget h p = Some o →
  (h ← hupd h p (set_prev pv); h ← hupd h p (set_next nx);
   h ← hupd h p (set_level lr); k h)
  = k (<[p := SValue (set_level lr (set_next nx (set_prev pv o)))]> h).
Proof.
  intros Ho. pose proof (relink _ _ _ pv nx lr Ho) as H.
  destruct (hupd h p (set_prev pv)) as [h1|]; [|done]. simpl in *.
  destruct (hupd h1 p (set_next nx)) as [h2|]; [|done]. simpl in *.
  by rewrite H.
Qed.

Lemma relink_aorder pv nx lr o :
  aorder (set_level lr (set_next nx (set_prev pv o))) = aorder o.
Proof. done. Qed.

(** [enqueue] appends: the order joins the back of the queue, only links change. *)
Lemma enqueue_ok h lr lv qs p o :
  level_ok h lr lv qs → hget h p = Some o → p ∉ qs →
  Z.of_nat (length qs) + 1 < 18446744073709551616 →
  ∃ h' lv', enqueue lr h lv p = Some (h', lv') ∧
    level_ok h' lr lv' (qs ++ [p]) ∧ price_ lv' = price_ lv ∧
    links_only h h' (qs ++ [p]).
Proof.
  intros [Hn Hd Hh Ht Htot Hc Hs] Ho Hp Hlt.
  pose proof (hget_lt _ _ _ Ho) as Hpl.
  set (o1 := set_level (Some lr) (set_next None (set_prev (tail_ lv) o))).
  set (h1 := <[p := SValue o1]> h).
  assert (Hh1 : links_only h h1 [p]).
  { apply (links_only_upd h p o (λ o, set_level (Some lr) (set_next None (set_prev (tail_ lv) o)))); done. }
  assert (Hp1 : hget h1 p = Some o1) by (by apply hget_insert_eq).
  assert (Hnd : NoDup (qs ++ [p])).
  { apply NoDup_app. split; [done|]. split; [set_solver|]. apply NoDup_singleton. }
  assert (Htl : tail_ lv = lastp None qs) by done.
  assert (Hend : ∀ h2 hd, links_only h h2 (qs ++ [p]) →
    hd = first (qs ++ [p]) None → dseg h2 lr None (qs ++ [p]) None →
    level_ok h2 lr (mkLevel hd (Some p) (price_ lv)
      (s64 (totalQty_ lv + o_remaining o)) (u64 (count_ lv + 1))) (qs ++ [p])).
  { intros h2 hd Hl Hhd Hds. split; simpl; try done.
    - by rewrite lastp_app.
    - rewrite (links_only_queue _ _ _ _ Hl), queue_app, (queue_live _ _ _ Ho), total_app.
      rewrite Htot, s64_add_l. f_equal. simpl. lia.
    - rewrite length_app, Hc. simpl. rewrite u64_id; [lia|split; lia].
    - rewrite length_app. simpl. lia. }
  unfold enqueue. rewrite (relink_bind h p o) by done. fold o1 h1.
  destruct (tail_ lv) as [t|] eqn:Et.
  - (* non-empty: the old tail is relinked *)
    assert (∃ l, qs = l ++ [t]) as [l ->].
    { destruct qs as [|x qs' _] using rev_ind; [done|].
      rewrite lastp_app in Htl. simpl in Htl. simplify_eq. by exists qs'. }
    destruct (dseg_hget _ _ _ _ _ t Hd) as (ot & Hot & _); [set_solver|].
    assert (Hpt : p ≠ t) by set_solver.
    assert (Hot1 : hget h1 t = Some ot) by (unfold h1; by rewrite hget_insert_ne).
    rewrite (hupd_Some _ _ _ _ Hot1). simpl.
    set (h2 := <[t := SValue (set_next (Some p) ot)]> h1).
    assert (Hp2 : hget h2 p = Some o1) by (unfold h2; by rewrite hget_insert_ne).
    rewrite Hp2. simpl.
    assert (Hl2 : links_only h h2 ((l ++ [t]) ++ [p])).
    { eapply links_only_trans.
      - eapply links_only_mono; [|exact Hh1]. set_solver.
      - eapply links_only_mono; [|by apply (links_only_upd h1 t ot)]. set_solver. }
    exists h2. eexists. split; [done|]. split; [|done].
    apply Hend; [done| |].
    + rewrite Hh. by destruct l.
    + rewrite dseg_app. split.
      * apply dseg_set_next with None; [| |].
        -- apply NoDup_app in Hn as (_ & Hn & _). set_solver.
        -- done.
        -- by apply dseg_skip.
      * exists o1. rewrite lastp_app. simpl. by rewrite Hp2.
  - (* empty level *)
    assert (qs = []) as ->.
    { destruct qs as [|x qs' _] using rev_ind; [done|]. by rewrite lastp_app in Htl. }
    simpl. rewrite Hp1. simpl. exists h1. eexists. split; [done|]. split; [|done].
    apply Hend; [done|done|]. exists o1. by rewrite Hp1.
Qed.

(** The two neighbour updates of [unlink]. *)
Lemma unlink_next_ok h lr l nx nx' (hd1 hd2 : option ptr) :
  NoDup l → dseg h lr None l nx →
  ∃ h', match lastp None l with
        | Some q => h ← hupd h q (set_next nx'); Some (h, hd1)
        | None => Some (h, hd2)
        end = Some (h', match l with [] => hd2 | _ => hd1 end) ∧
    dseg h' lr None l nx' ∧ links_only h h' l.
Proof.
  intros Hn Hd. destruct l as [|a l _] using rev_ind.
  { exists h. split; [done|]. split; [done|]. apply links_only_refl. }
  rewrite lastp_app. simpl.
  destruct (dseg_hget _ _ _ _ _ a Hd) as (oa & Hoa & _); [set_solver|].
  rewrite (hupd_Some _ _ _ _ Hoa). simpl. eexists. split; [by destruct l|]. split.
  - apply dseg_set_next with nx; [|done|done].
    apply NoDup_app in Hn as (_ & Hn & _). set_solver.
  - eapply links_only_mono; [|by apply (links_only_upd h a oa)]. set_solver.
Qed.

Lemma unlink_prev_ok h lr l pv pv' (tl1 tl2 : option ptr) :
  NoDup l → dseg h lr pv l None →
  ∃ h', match first l None with
        | Some q => h ← hupd h q (set_prev pv'); Some (h, tl1)
        | None => Some (h, tl2)
        end = Some (h', match l with [] => tl2 | _ => tl1 end) ∧
    dseg h' lr pv' l None ∧ links_only h h' l.
Proof.
  intros Hn Hd. destruct l as [|b l].
  { exists h. split; [done|]. split; [done|]. apply links_only_refl. }
  destruct (dseg_hget _ _ _ _ _ b Hd) as (ob & Hob & _); [set_solver|].
  cbn [first]. rewrite (hupd_Some _ _ _ _ Hob). simpl mbind. eexists. split; [done|]. split.
  - apply dseg_set_prev with pv; [|done|done]. by apply NoDup_cons in Hn as [? _].
  - eapply links_only_mono; [|by apply (links_only_upd h b ob)]. set_solver.
Qed.

Lemma lastp_some pv l : l ≠ [] → lastp pv l = lastp None l.
Proof. by destruct l. Qed.

(** [unlink] removes one order from anywhere in the queue and leaves the others
    in their order; only links change, and the order itself stays allocated. *)
Lemma unlink_ok h lr lv l1 p l2 :
  level_ok h lr lv (l1 ++ p :: l2) →
  ∃ h' lv', unlink h lv p = Some (h', lv') ∧
    level_ok h' lr lv' (l1 ++ l2) ∧ price_ lv' = price_ lv ∧
    links_only h h' (l1 ++ p :: l2).
Proof.
  intros [Hn Hd Hh Ht Htot Hc Hs].
  pose proof Hn as (Hn1 & Hdj & Hn2)%NoDup_app.
  apply NoDup_cons in Hn2 as [Hp2 Hn2].
  assert (Hp1 : p ∉ l1) by (intros ?; eapply Hdj; [done|by left]).
  apply dseg_app in Hd as [Hd1 (o & Ho & Hpv & Hnx & Hlr & Hd2)]. simpl in Hd1.
  assert (Hsub1 : ∀ q, q ∈ l1 → q ∈ l1 ++ p :: l2) by set_solver.
  assert (Hsub2 : ∀ q, q ∈ l2 → q ∈ l1 ++ p :: l2) by set_solver.
  unfold unlink. rewrite Ho. simpl_bind. rewrite Hpv, Hnx.
  destruct (unlink_next_ok h lr l1 (Some p) (first l2 None) (head_ lv) (first l2 None) Hn1 Hd1)
    as (h1 & E1 & Hd1' & Hl1).
  rewrite E1. simpl_bind.
  assert (Ho1 : hget h1 p = Some o).
  { unfold hget. by rewrite (lo_other _ _ _ Hl1). }
  rewrite Ho1. simpl_bind. rewrite Hpv, Hnx.
  assert (Hd2' : dseg h1 lr (Some p) l2 None).
  { eapply dseg_ext; [|exact Hd2]. intros q Hq. unfold hget.
    rewrite (lo_other _ _ _ Hl1); [done|]. intros ?. eapply Hdj; [done|by right]. }
  destruct (unlink_prev_ok h1 lr l2 (Some p) (lastp None l1) (tail_ lv) (lastp None l1) Hn2 Hd2')
    as (h2 & E2 & Hd2'' & Hl2).
  rewrite E2. simpl_bind.
  assert (Ho2 : hget h2 p = Some o).
  { unfold hget. by rewrite (lo_other _ _ _ Hl2). }
  rewrite Ho2. simpl_bind.
  rewrite (relink_bind h2 p o None None None) by done.
  eexists _, _. split; [done|].
  assert (Hl : links_only h (<[p:=SValue (set_level None (set_next None (set_prev None o)))]> h2)
                 (l1 ++ p :: l2)).
  { eapply links_only_trans; [eapply links_only_mono; [exact Hsub1|exact Hl1]|].
    eapply links_only_trans; [eapply links_only_mono; [exact Hsub2|exact Hl2]|].
    eapply links_only_mono; [|apply (links_only_upd h2 p o (λ o, set_level None (set_next None (set_prev None o)))); done].
    set_solver. }
  split; [|split; done].
  assert (Hn12 : NoDup (l1 ++ l2)).
  { apply NoDup_app. split; [done|]. split; [|done]. intros q Hq Hq2. eapply Hdj; [done|by right]. }
  split; simpl; try done.
  - apply dseg_app. split; (apply dseg_skip; [done|]); [|done].
    eapply dseg_ext; [|exact Hd1']. intros q Hq. unfold hget.
    rewrite (lo_other _ _ _ Hl2); [done|]. intros ?. eapply Hdj; [done|by right].
  - rewrite Hh, !first_app. by destruct l1.
  - rewrite Ht, !lastp_app. simpl. destruct l2; [done|].
    by rewrite !(lastp_some _ (_ :: _)).
  - rewrite (links_only_queue _ _ _ _ Hl), Htot, s64_sub_l, !queue_app.
    rewrite (queue_cons _ _ _ _ Ho), !total_app, total_cons. f_equal. simpl. lia.
  - rewrite length_app in *. simpl in *. rewrite u64_id; [lia|split; lia].
  - rewrite length_app in *. simpl in Hs. lia.
Qed.

(** A fill: the resting order's remaining quantity and the level's aggregate both
    shrink by [q]; nothing moves. *)
Lemma reduce_ok h lr lv l1 p l2 o q :
  level_ok h lr lv (l1 ++ p :: l2) → hget h p = Some o →
  let h' := <[p := SValue (set_remaining (o_remaining o - q) o)]> h in
  level_ok h' lr (reduceQuantity lv q) (l1 ++ p :: l2).
Proof.
  intros [Hn Hd Hh Ht Htot Hc Hs] Ho h'.
  pose proof (hget_lt _ _ _ Ho) as Hlt.
  assert (Hp : hget h' p = Some (set_remaining (o_remaining o - q) o))
    by (by apply hget_insert_eq).
  pose proof Hn as (Hn1 & Hdj & Hn2)%NoDup_app.
  apply NoDup_cons in Hn2 as [Hp2 Hn2].
  assert (Hp1 : p ∉ l1) by (intros ?; eapply Hdj; [done|by left]).
  assert (Hx : ∀ x, x ≠ p → hget h' x = hget h x) by (intros; by apply hget_insert_ne).
  split; simpl; try done.
  - apply dseg_app in Hd as [Hd1 (o' & Ho' & Hpv & Hnx & Hlr & Hd2)].
    assert (o' = o) as -> by congruence. apply dseg_app. split.
    + eapply dseg_ext; [|exact Hd1]. intros. apply Hx. set_solver.
    + exists (set_remaining (o_remaining o - q) o). repeat split; try done.
      eapply dseg_ext; [|exact Hd2]. intros. apply Hx. set_solver.
  - rewrite Htot, s64_sub_l, !queue_app.
    rewrite (queue_cons _ _ _ _ Ho), (queue_cons _ _ _ _ Hp).
    rewrite !(queue_ext h h'); [|intros; apply Hx; set_solver..].
    rewrite !total_app, !total_cons. f_equal. simpl. lia.
Qed.
