(* ===== verification/OrderIdMap.v ===== *)
(** [book/order_id_map.hpp]: the open-addressed map from order id to [Order*].

    [idmap_ok m M] says that the three arrays of [m] represent the finite map
    [M].  [find], [insert] and [erase] are shown to be lookup, insertion and
    deletion on [M]; in particular backward-shift deletion keeps every key
    reachable, and its unbounded scan terminates because the table is never full. *)
From S2P Require Import Prelude Types.

Module IdMap.

Record OrderIdMap := mkIdMap {
  im_capacity : Z;
  im_mask : Z;
  im_keys : list Z;
  im_values : list (option ptr);
  im_state : list bool;            (* true is State::Occupied *)
  im_size : Z
}.

Definition idMapNew (capacityPowerOfTwo : Z) : OrderIdMap :=
  let n := Z.to_nat capacityPowerOfTwo in
  mkIdMap capacityPowerOfTwo (capacityPowerOfTwo - 1)
    (replicate n 0) (replicate n None) (replicate n false) 0.

Definition slot (m : OrderIdMap) (id : Z) : Z :=
  Z.land (Z.shiftr (u64 (u64 id * 11400714819323198485)) 32) (im_mask m).

Definition nextSlot (m : OrderIdMap) (i : Z) : Z := Z.land (i + 1) (im_mask m).

Arguments slot : simpl never.
Arguments nextSlot : simpl never.

(** Each probe loop runs at most [capacity_] times; [fuel] is the number of
    probes left. *)
Fixpoint insertLoop (fuel : nat) (m : OrderIdMap) (id : Z) (p : ptr) (i : Z) :
    option (OrderIdMap * bool) :=
  match fuel with
  | O => Some (m, false)
  | S fuel =>
      s ← aget (im_state m) i;
      k ← aget (im_keys m) i;
      if s && (k =? id) then Some (m, false)
      else if negb s then
        ks ← aset (im_keys m) i id;
        vs ← aset (im_values m) i (Some p);
        ss ← aset (im_state m) i true;
        Some (mkIdMap (im_capacity m) (im_mask m) ks vs ss (u64 (im_size m + 1)), true)
      else insertLoop fuel m id p (nextSlot m i)
  end.

Definition insert (m : OrderIdMap) (id : Z) (p : ptr) : option (OrderIdMap * bool) :=
  insertLoop (Z.to_nat (im_capacity m)) m id p (slot m id).

Fixpoint findLoop (fuel : nat) (m : OrderIdMap) (id : Z) (i : Z) : option (option ptr) :=
  match fuel with
  | O => Some None
  | S fuel =>
      s ← aget (im_state m) i;
      if negb s then Some None
      else
        k ← aget (im_keys m) i;
        if k =? id then aget (im_values m) i
        else findLoop fuel m id (nextSlot m i)
  end.

Definition find (m : OrderIdMap) (id : Z) : option (option ptr) :=
  findLoop (Z.to_nat (im_capacity m)) m id (slot m id).

(** The search of [erase]: [Some (Some i)] is the slot of the key, [Some None]
    is "absent". *)
Fixpoint locateLoop (fuel : nat) (m : OrderIdMap) (id : Z) (i : Z) : option (option Z) :=
  match fuel with
  | O => Some None
  | S fuel =>
      s ← aget (im_state m) i;
      if negb s then Some None
      else
        k ← aget (im_keys m) i;
        if k =? id then Some (Some i)
        else locateLoop fuel m id (nextSlot m i)
  end.

(** Backward shift: [i] is the hole, [j] the scan position. *)
Fixpoint shiftLoop (fuel : nat) (m : OrderIdMap) (i j : Z) : option OrderIdMap :=
  match fuel with
  | O => None
  | S fuel =>
      let j := nextSlot m j in
      s ← aget (im_state m) j;
      if negb s then
        ss ← aset (im_state m) i false;
        vs ← aset (im_values m) i None;
        Some (mkIdMap (im_capacity m) (im_mask m) (im_keys m) vs ss (u64 (im_size m - 1)))
      else
        k ← aget (im_keys m) j;
        let home := slot m k in
        let moveBack := if i <=? j then (home <=? i) || (j <? home)
                        else (home <=? i) && (j <? home) in
        if moveBack : bool then
          v ← aget (im_values m) j;
          ks ← aset (im_keys m) i k;
          vs ← aset (im_values m) i v;
          ss ← aset (im_state m) i true;
          shiftLoop fuel
            (mkIdMap (im_capacity m) (im_mask m) ks vs ss (im_size m)) j j
        else shiftLoop fuel m i j
  end.

Definition erase (m : OrderIdMap) (id : Z) : option (OrderIdMap * bool) :=
  r ← locateLoop (Z.to_nat (im_capacity m)) m id (slot m id);
  match r with
  | None => Some (m, false)
  | Some i =>
      m ← shiftLoop (Z.to_nat (im_capacity m)) m i i;
      Some (m, true)
  end.

(** [forEach] visits the occupied slots in slot order. *)
Definition forEach (m : OrderIdMap) : list (Z * option ptr) :=
  omap (λ i, match im_state m !! i with
             | Some true => k ← im_keys m !! i; v ← im_values m !! i; Some (k, v)
             | _ => None
             end) (seq 0 (Z.to_nat (im_capacity m))).

(** * Linear probing, abstractly

    A table is a function from slots [0 .. cap-1] to entries; slots are taken
    modulo [cap], so that a probe sequence is [home k, home k + 1, ...]. *)
Section probing.
Context (cap : Z) (Hcap : 0 < cap) (home : Z → Z) (Hhome : ∀ k, 0 <= home k < cap).
Context {V : Type}.
Implicit Types (E : Z → option (Z * V)).

Definition at_ E (x : Z) : option (Z * V) := E (x mod cap).

Definition upd E (i : Z) (e : option (Z * V)) : Z → option (Z * V) :=
  λ y, if y =? i then e else E y.

(** Every slot probed before a key is reached is occupied. *)
Definition reachable E : Prop := ∀ k v d,
  0 <= d < cap → at_ E (home k + d) = Some (k, v) →
  ∀ t, 0 <= t < d → at_ E (home k + t) ≠ None.

Definition unique E : Prop := ∀ x y k v w,
  0 <= x < cap → 0 <= y < cap → E x = Some (k, v) → E y = Some (k, w) → x = y.

Lemma at_small E x : 0 <= x < cap → at_ E x = E x.
Proof. intros. unfold at_. by rewrite Z.mod_small. Qed.

Lemma at_range x : 0 <= x mod cap < cap.
Proof. by apply Z.mod_pos_bound. Qed.

Lemma upd_eq E i e : upd E i e i = e.
Proof. unfold upd. by rewrite Z.eqb_refl. Qed.

Lemma upd_ne E i e y : y ≠ i → upd E i e y = E y.
Proof. intros. unfold upd. by case_match; [lia|]. Qed.

Lemma mod_wrap x : cap <= x < 2 * cap → x mod cap = x - cap.
Proof. intros. symmetry. apply (Z.mod_unique_pos _ _ 1); lia. Qed.

(** Two probes of the same sequence less than a lap apart hit distinct slots. *)
Lemma mod_inj a s t : 0 <= s < cap → 0 <= t < cap → (a + s) mod cap = (a + t) mod cap → s = t.
Proof.
  intros Hs Ht Heq.
  assert (H : (s - t) mod cap = 0).
  { replace (s - t) with ((a + s) - (a + t)) by lia.
    rewrite Zminus_mod, Heq, Z.sub_diag. by apply Z.mod_0_l; lia. }
  apply Z.mod_divide in H as [q Hq]; [|lia].
  assert (q = 0) by nia. lia.
Qed.

(** Every slot is on every probe sequence. *)
Lemma probe_covers h x :
  0 <= h < cap → 0 <= x < cap → ∃ d, 0 <= d < cap ∧ (h + d) mod cap = x.
Proof.
  intros Hh Hx. destruct (decide (h <= x)).
  - exists (x - h). split; [lia|]. rewrite Z.mod_small; lia.
  - exists (x - h + cap). split; [lia|].
    rewrite mod_wrap; lia.
Qed.

(** Following [t] probes without meeting [k] or an empty slot: an empty slot
    next proves [k] absent, and so does the end of the lap. *)
Definition passed E (k : Z) (t : Z) : Prop :=
  ∀ s, 0 <= s < t → ∃ k' v, at_ E (home k + s) = Some (k', v) ∧ k' ≠ k.

Lemma passed_absent E k t :
  reachable E → passed E k t → 0 <= t <= cap →
  (t = cap ∨ at_ E (home k + t) = None) →
  ∀ x v, 0 <= x < cap → E x ≠ Some (k, v).
Proof.
  intros Hr Hp Ht Hend x v Hx He.
  destruct (probe_covers (home k) x (Hhome k) Hx) as (d & Hd & Hdx).
  assert (Hat : at_ E (home k + d) = Some (k, v)) by (unfold at_; by rewrite Hdx).
  destruct (decide (d < t)) as [Hlt|].
  - destruct (Hp d) as (k' & v' & He' & Hne); [lia|]. congruence.
  - destruct Hend as [->|Hnone]; [lia|].
    destruct (decide (d = t)) as [->|]; [congruence|].
    apply (Hr k v d Hd Hat t); [lia|done].
Qed.

Lemma passed_S E k t k' v :
  0 <= t → passed E k t → at_ E (home k + t) = Some (k', v) → k' ≠ k → passed E k (t + 1).
Proof.
  intros H0 Hp He Hne s Hs. destruct (decide (s = t)) as [->|]; [eauto|].
  apply Hp. lia.
Qed.

(** Filling the first empty slot of the probe sequence keeps every key reachable. *)
Lemma reachable_insert E k v t :
  reachable E → passed E k t → 0 <= t < cap → at_ E (home k + t) = None →
  reachable (upd E ((home k + t) mod cap) (Some (k, v))).
Proof.
  intros Hr Hp Ht Hn k1 v1 d Hd He s Hs. unfold at_ in *.
  set (i := (home k + t) mod cap) in *.
  destruct (decide ((home k1 + s) mod cap = i)) as [->|Hne]; [by rewrite upd_eq|].
  rewrite upd_ne by done.
  destruct (decide ((home k1 + d) mod cap = i)) as [Hi|Hni].
  - rewrite Hi, upd_eq in He. assert (k1 = k) as -> by congruence.
    unfold i in Hi. apply mod_inj in Hi; [|lia|lia]. subst d.
    destruct (Hp s) as (k' & v' & He' & _); [lia|]. unfold at_ in He'. congruence.
  - rewrite upd_ne in He by done. by apply (Hr k1 v1 d).
Qed.

(** ** Contents *)

Record content E (M : gmap Z V) : Prop := {
  ct_sound : ∀ x k v, 0 <= x < cap → E x = Some (k, v) → M !! k = Some v;
  ct_complete : ∀ k v, M !! k = Some v → ∃ x, 0 <= x < cap ∧ E x = Some (k, v);
  ct_unique : unique E
}.

Lemma content_ext E E' M :
  (∀ x, 0 <= x < cap → E' x = E x) → content E M → content E' M.
Proof.
  intros Hx [Hs Hc Hu]. split.
  - intros x k v Hr He. rewrite Hx in He by done. by apply (Hs x).
  - intros k v Hk. destruct (Hc k v Hk) as (x & Hr & He). exists x. by rewrite Hx.
  - intros x y k v w Hrx Hry H1 H2. rewrite Hx in H1, H2 by done. by apply (Hu x y k v w).
Qed.

Lemma reachable_ext E E' :
  (∀ x, 0 <= x < cap → E' x = E x) → reachable E → reachable E'.
Proof.
  intros Hx Hr k v d Hd He t Ht. unfold at_ in *.
  rewrite Hx in He |- * by apply at_range. by apply (Hr k v d).
Qed.

Lemma content_insert E M i k v :
  content E M → 0 <= i < cap → E i = None → M !! k = None →
  content (upd E i (Some (k, v))) (<[k := v]> M).
Proof.
  intros [Hs Hc Hu] Hi He Hk.
  assert (Hin : ∀ x k1 v1, 0 <= x < cap → upd E i (Some (k, v)) x = Some (k1, v1) →
    (x = i ∧ k1 = k ∧ v1 = v) ∨ (x ≠ i ∧ k1 ≠ k ∧ E x = Some (k1, v1))).
  { intros x k1 v1 Hx H1. destruct (decide (x = i)) as [->|Hne].
    - rewrite upd_eq in H1. left. split; [done|]. split; congruence.
    - rewrite upd_ne in H1 by done. right. split; [done|]. split; [|done].
      intros ->. apply Hs in H1; [congruence|done]. }
  split.
  - intros x k1 v1 Hx H1. destruct (Hin x k1 v1 Hx H1) as [(_ & -> & ->)|(_ & Hne & H2)].
    + apply lookup_insert_eq.
    + rewrite lookup_insert_ne by done. by apply (Hs x).
  - intros k1 v1 H1. destruct (decide (k1 = k)) as [->|Hne].
    + rewrite lookup_insert_eq in H1. exists i. rewrite upd_eq. split; [done|congruence].
    + rewrite lookup_insert_ne in H1 by done.
      destruct (Hc k1 v1 H1) as (x & Hx & H2). exists x. split; [done|].
      rewrite upd_ne; [done|]. intros ->. congruence.
  - intros x y k1 v1 w1 Hx Hy H1 H2.
    destruct (Hin _ _ _ Hx H1) as [(-> & -> & ->)|(? & ? & H3)],
      (Hin _ _ _ Hy H2) as [(-> & ? & ?)|(? & ? & H4)]; try congruence.
    by apply (Hu x y k1 v1 w1).
Qed.

Lemma content_delete E M i k v :
  content E M → 0 <= i < cap → E i = Some (k, v) →
  content (upd E i None) (delete k M).
Proof.
  intros [Hs Hc Hu] Hi He.
  assert (Hin : ∀ x e, upd E i None x = Some e → x ≠ i ∧ E x = Some e).
  { intros x e. destruct (decide (x = i)) as [->|]; [by rewrite upd_eq|].
    by rewrite upd_ne. }
  split.
  - intros x k1 v1 Hx H1. apply Hin in H1 as [Hne H1].
    rewrite lookup_delete_ne; [by apply (Hs x)|].
    intros ->. apply Hne. by apply (Hu x i k1 v1 v).
  - intros k1 v1 H1. apply lookup_delete_Some in H1 as [Hne H1].
    destruct (Hc k1 v1 H1) as (x & Hx & H2). exists x. split; [done|].
    rewrite upd_ne; [done|]. intros ->. congruence.
  - intros x y k1 v1 w1 Hx Hy H1 H2. apply Hin in H1 as [_ H1]. apply Hin in H2 as [_ H2].
    by apply (Hu x y k1 v1 w1).
Qed.

Lemma content_move E M i j e :
  content E M → 0 <= i < cap → 0 <= j < cap → i ≠ j → E i = None → E j = Some e →
  content (upd (upd E i (Some e)) j None) M.
Proof.
  intros Hct Hi Hj Hne Hn He. destruct e as [k v].
  pose proof (ct_sound _ _ Hct j k v Hj He) as Hk.
  rewrite <- (insert_delete_id M k v) by done.
  apply (content_ext (upd (upd E j None) i (Some (k, v)))).
  { intros x _. unfold upd. destruct (x =? i) eqn:?, (x =? j) eqn:?; done || lia. }
  apply content_insert; [by eapply content_delete|done| |apply lookup_delete_eq].
  by rewrite upd_ne.
Qed.

(** A table that represents fewer than [cap] keys has an empty slot. *)
Lemma content_room E M :
  content E M → Z.of_nat (size M) < cap → ∃ x, 0 <= x < cap ∧ E x = None.
Proof.
  intros [Hs Hc Hu] Hsz.
  destruct (decide (Forall (λ x, is_Some (E x)) (seqZ 0 cap))) as [Hall|Hnot].
  - exfalso. set (f := λ x, match E x with Some (k, _) => k | None => 0 end).
    assert (Hnd : NoDup (f <$> seqZ 0 cap)).
    { apply NoDup_fmap_2_strong; [|apply NoDup_seqZ].
      intros x y Hx Hy Hf. rewrite Forall_forall in Hall.
      destruct (Hall x Hx) as [[k v] Ex], (Hall y Hy) as [[k' v'] Ey].
      apply elem_of_seqZ in Hx, Hy. unfold f in Hf. rewrite Ex, Ey in Hf. subst.
      apply (Hu x y k' v v'); [lia|lia|done|done]. }
    assert (Hsub : list_to_set (f <$> seqZ 0 cap) ⊆@{gset Z} dom M).
    { intros k Hk. apply elem_of_list_to_set, list_elem_of_fmap in Hk as (x & -> & Hx).
      rewrite Forall_forall in Hall. destruct (Hall x Hx) as [[k v] Ex].
      apply elem_of_seqZ in Hx. unfold f. rewrite Ex. apply elem_of_dom.
      exists v. apply (Hs x); [lia|done]. }
    apply subseteq_size in Hsub. rewrite size_list_to_set in Hsub by done.
    rewrite length_fmap, length_seqZ, size_dom in Hsub. lia.
  - apply not_Forall_Exists in Hnot; [|intros ?; apply _].
    apply Exists_exists in Hnot as (x & Hx & Hn). apply elem_of_seqZ in Hx.
    exists x. split; [lia|]. by apply eq_None_not_Some.
Qed.

(** ** Backward shift

    [hole_inv E i n]: the entry of slot [i] has been removed; the [n] slots after
    it have been scanned.  A key's probe path may be broken at the hole only if
    the key lies beyond the scanned slots. *)
Record hole_inv E (i n : Z) : Prop := {
  hi_empty : E i = None;
  hi_paths : ∀ k v d, 0 <= d < cap → at_ E (home k + d) = Some (k, v) →
    ∀ t, 0 <= t < d → at_ E (home k + t) = None → (home k + t) mod cap = i;
  hi_scanned : ∀ t, 1 <= t <= n → ∃ k v d,
    at_ E (i + t) = Some (k, v) ∧ 0 <= d < t ∧ (home k + d) mod cap = (i + t) mod cap
}.

Lemma hole_start E i :
  reachable E → 0 <= i < cap → hole_inv (upd E i None) i 0.
Proof.
  intros Hr Hi. split.
  - apply upd_eq.
  - intros k v d Hd He t Ht Hn. unfold at_ in *.
    destruct (decide ((home k + t) mod cap = i)) as [|Hne]; [done|].
    rewrite upd_ne in Hn by done.
    destruct (decide ((home k + d) mod cap = i)) as [Hdi|Hdi].
    + by rewrite Hdi, upd_eq in He.
    + rewrite upd_ne in He by done. exfalso. by apply (Hr k v d Hd He t).
  - intros; lia.
Qed.

Lemma hole_skip E i n k v d :
  hole_inv E i n → 0 <= n →
  at_ E (i + (n + 1)) = Some (k, v) → 0 <= d < n + 1 →
  (home k + d) mod cap = (i + (n + 1)) mod cap →
  hole_inv E i (n + 1).
Proof.
  intros [He Hp Hs] Hn Ha Hd Hm. split; [done|done|].
  intros t Ht. destruct (decide (t = n + 1)) as [->|]; [by exists k, v, d|].
  apply Hs. lia.
Qed.

(** The element at scan position [j] whose path crosses the hole moves into it,
    and its old slot becomes the hole. *)
Lemma hole_move E i n k v :
  hole_inv E i n → 0 <= i < cap → 0 <= n → n + 1 < cap →
  let j := (i + (n + 1)) mod cap in
  E j = Some (k, v) →
  (∀ d, 0 <= d < n + 1 → (home k + d) mod cap ≠ j) →
  hole_inv (upd (upd E i (Some (k, v))) j None) j 0.
Proof.
  intros [He Hp Hs] Hi Hn0 Hn j Hj Hcross.
  assert (Hij : i ≠ j).
  { intros Heq. assert (0 = n + 1); [|lia]. apply (mod_inj i); [lia|lia|].
    rewrite Z.add_0_r, (Z.mod_small i); [|done]. exact Heq. }
  destruct (probe_covers (home k) j (Hhome k)) as (dj & Hdj & Hdjm).
  { apply at_range. }
  assert (Hdjn : n + 1 <= dj).
  { destruct (decide (n + 1 <= dj)); [done|]. exfalso. apply (Hcross dj); [lia|done]. }
  (* the hole is on the path, n + 1 slots before j *)
  assert (Hdi : (home k + (dj - (n + 1))) mod cap = i).
  { replace (home k + (dj - (n + 1))) with ((home k + dj) - (n + 1)) by lia.
    rewrite Zminus_mod, Hdjm. unfold j. rewrite Zminus_mod_idemp_l, Zminus_mod_idemp_r.
    replace (i + (n + 1) - (n + 1)) with i by lia. by apply Z.mod_small. }
  split.
  - apply upd_eq.
  - intros k1 v1 d Hd Ha t Ht Hnone. unfold at_ in *.
    destruct (decide ((home k1 + t) mod cap = j)) as [|Htj]; [done|]. exfalso.
    rewrite upd_ne in Hnone by done.
    destruct (decide ((home k1 + t) mod cap = i)) as [Hti|Hti];
      [by rewrite Hti, upd_eq in Hnone|].
    rewrite upd_ne in Hnone by done.
    destruct (decide ((home k1 + d) mod cap = j)) as [Hd1|Hd1];
      [by rewrite Hd1, upd_eq in Ha|].
    rewrite upd_ne in Ha by done.
    destruct (decide ((home k1 + d) mod cap = i)) as [Hd2|Hd2].
    + (* the moved element itself: its new path is a prefix of the old one *)
      rewrite Hd2, upd_eq in Ha. assert (k1 = k ∧ v1 = v) as [-> ->] by (split; congruence).
      rewrite <- Hdi in Hd2. apply mod_inj in Hd2; [|lia|lia]. subst d.
      apply Hti. apply (Hp k v dj); [lia| |lia|done]. unfold at_. by rewrite Hdjm.
    + rewrite upd_ne in Ha by done. apply Hti. by apply (Hp k1 v1 d).
  - intros; lia.
Qed.

(** When the next slot is empty nothing can be beyond it on a broken path. *)
Lemma hole_done E i n :
  hole_inv E i n → 0 <= i < cap → 0 <= n → n + 1 < cap →
  at_ E (i + (n + 1)) = None → reachable E.
Proof.
  intros [He Hp Hs] Hi Hn0 Hn Hnone k v d Hd Ha t Ht Hbad.
  pose proof (Hp k v d Hd Ha t Ht Hbad) as Hti.
  assert (Hshift : ∀ s, (home k + (t + s)) mod cap = (i + s) mod cap).
  { intros s. rewrite Z.add_assoc, <- Zplus_mod_idemp_l, Hti. done. }
  destruct (decide (d - t <= n)) as [Hin|Hout].
  - (* the key is among the scanned slots: its home is after the hole *)
    destruct (Hs (d - t)) as (k' & v' & d' & Ha' & Hd' & Hm'); [lia|].
    unfold at_ in Ha, Ha'. rewrite <- Hshift in Ha', Hm'.
    replace (t + (d - t)) with d in Ha', Hm' by lia.
    assert ((k', v') = (k, v)) as [= -> ->] by congruence.
    apply mod_inj in Hm'; lia.
  - (* the empty slot is on its path, and is not the hole *)
    assert (Hj : (home k + (t + (n + 1))) mod cap = i).
    { destruct (decide (t + (n + 1) = d)) as [Heq|].
      - unfold at_ in *. rewrite <- Hshift, Heq in Hnone. congruence.
      - apply (Hp k v d Hd Ha); [lia|]. unfold at_ in *. by rewrite Hshift. }
    rewrite <- Hti in Hj. apply mod_inj in Hj; lia.
Qed.

(** The test of the source decides whether the home of the scanned element lies
    in the cyclic interval from after the hole to the scan position. *)
Lemma moveBack_spec i n h :
  0 <= i < cap → 0 <= n → n + 1 < cap → 0 <= h < cap →
  let j := (i + (n + 1)) mod cap in
  (if i <=? j then (h <=? i) || (j <? h) else (h <=? i) && (j <? h)) = false ↔
  ∃ d, 0 <= d < n + 1 ∧ (h + d) mod cap = j.
Proof.
  intros Hi Hn0 Hn Hh j.
  assert (Hj : (i + (n + 1) < cap ∧ j = i + (n + 1)) ∨
               (cap <= i + (n + 1) ∧ j = i + (n + 1) - cap)).
  { destruct (decide (i + (n + 1) < cap)).
    - left. split; [done|]. unfold j. apply Z.mod_small. lia.
    - right. split; [lia|]. unfold j. apply mod_wrap. lia. }
  assert (Hmod : ∀ d, 0 <= d < cap →
    (h + d < cap ∧ (h + d) mod cap = h + d) ∨ (cap <= h + d ∧ (h + d) mod cap = h + d - cap)).
  { intros d Hd. destruct (decide (h + d < cap)).
    - left. split; [done|]. apply Z.mod_small. lia.
    - right. split; [lia|]. apply mod_wrap. lia. }
  split.
  - intros Hf. destruct (decide (h <= j)) as [Hhj|Hhj].
    + exists (j - h). destruct (i <=? j) eqn:E.
      * split; [lia|]. destruct (Hmod (j - h)) as [[? ->]|[? ?]]; lia.
      * split; [lia|]. destruct (Hmod (j - h)) as [[? ->]|[? ?]]; lia.
    + exists (j - h + cap). destruct (i <=? j) eqn:E; [lia|].
      split; [lia|]. destruct (Hmod (j - h + cap)) as [[? ?]|[? ->]]; lia.
  - intros (d & Hd & Hm). destruct (Hmod d) as [[? Hm']|[? Hm']]; [lia| |];
      rewrite Hm' in Hm; destruct (i <=? j) eqn:E; lia.
Qed.
End probing.

(** * The arrays represent a finite map *)

Record shape (m : OrderIdMap) : Prop := {
  sh_pow : ∃ k, 0 <= k ∧ im_capacity m = 2 ^ k;
  sh_mask : im_mask m = im_capacity m - 1;
  sh_keys : Z.of_nat (length (im_keys m)) = im_capacity m;
  sh_values : Z.of_nat (length (im_values m)) = im_capacity m;
  sh_state : Z.of_nat (length (im_state m)) = im_capacity m
}.

Definition view (m : OrderIdMap) (x : Z) : option (Z * option ptr) :=
  s ← aget (im_state m) x;
  if s : bool then k ← aget (im_keys m) x; v ← aget (im_values m) x; Some (k, v) else None.

Record idmap_ok (m : OrderIdMap) (M : gmap Z ptr) : Prop := {
  ok_shape : shape m;
  ok_reach : reachable (im_capacity m) (slot m) (view m);
  ok_content : content (im_capacity m) (view m) (Some <$> M);
  ok_size : im_size m = Z.of_nat (size M);
  ok_room : Z.of_nat (size M) < im_capacity m;
  ok_small : im_capacity m < 2 ^ 63
}.

Lemma shape_pos m : shape m → 0 < im_capacity m.
Proof. intros [(k & Hk & ->) _ _ _ _]. by apply Z.pow_pos_nonneg. Qed.

Lemma land_mask m x : shape m → Z.land x (im_mask m) = x mod im_capacity m.
Proof.
  intros [(k & Hk & Hc) Hm _ _ _]. rewrite Hm, Hc.
  replace (2 ^ k - 1) with (Z.ones k) by (rewrite Z.ones_equiv; lia).
  by apply Z.land_ones.
Qed.

Lemma slot_range m k : shape m → 0 <= slot m k < im_capacity m.
Proof.
  intros H. unfold slot. rewrite land_mask by done.
  apply Z.mod_pos_bound. by apply shape_pos.
Qed.

Lemma nextSlot_spec m a t :
  shape m → nextSlot m ((a + t) mod im_capacity m) = (a + (t + 1)) mod im_capacity m.
Proof.
  intros H. unfold nextSlot. rewrite land_mask by done.
  rewrite Zplus_mod_idemp_l. f_equal. lia.
Qed.

(** What one array read sees in terms of [view]. *)
Lemma read_slot m x : shape m → 0 <= x < im_capacity m →
  match view m x with
  | None => aget (im_state m) x = Some false ∧ is_Some (aget (im_keys m) x)
  | Some (k, v) => aget (im_state m) x = Some true ∧ aget (im_keys m) x = Some k ∧
                   aget (im_values m) x = Some v
  end.
Proof.
  intros [_ _ Hk Hv Hs] Hx. unfold view.
  destruct (aget_in (im_state m) x) as [s ->]; [lia|].
  destruct (aget_in (im_keys m) x) as [k ->]; [lia|].
  destruct (aget_in (im_values m) x) as [v ->]; [lia|].
  by destruct s.
Qed.

Section operations.
Context (m : OrderIdMap) (M : gmap Z ptr) (Hok : idmap_ok m M).

#[local] Abbreviation cap := (im_capacity m).
#[local] Abbreviation E := (view m).

Let Hshape : shape m := ok_shape m M Hok.
Let Hpos : 0 < cap := shape_pos m Hshape.
Let Hslot : ∀ k, 0 <= slot m k < cap := λ k, slot_range m k Hshape.

Lemma present_find id t v :
  0 <= t < cap → at_ cap E (slot m id + t) = Some (id, v) → ∃ p, v = Some p ∧ M !! id = Some p.
Proof.
  intros Ht He. unfold at_ in He.
  apply (ct_sound _ _ _ (ok_content m M Hok)) in He; [|by apply at_range].
  rewrite lookup_fmap in He. destruct (M !! id) as [p|]; [|done].
  simpl in He. exists p. split; congruence.
Qed.

Lemma absent_find id t :
  0 <= t <= cap → passed cap (slot m) E id t →
  (t = cap ∨ at_ cap E (slot m id + t) = None) → M !! id = None.
Proof.
  intros Ht Hp Hend. destruct (M !! id) as [p|] eqn:Hid; [|done]. exfalso.
  destruct (ct_complete _ _ _ (ok_content m M Hok) id (Some p)) as (x & Hx & He).
  { by rewrite lookup_fmap, Hid. }
  by apply (passed_absent cap (slot m) Hslot E id t (ok_reach m M Hok) Hp Ht Hend x (Some p)).
Qed.

Lemma findLoop_spec id fuel t :
  passed cap (slot m) E id t → 0 <= t → t + Z.of_nat fuel = cap →
  findLoop fuel m id ((slot m id + t) mod cap) = Some (M !! id).
Proof.
  revert t. induction fuel as [|fuel IH]; intros t Hp Ht Hf.
  { cbn. rewrite (absent_find id t); [done|lia|done|left; lia]. }
  pose proof (at_range cap Hpos (slot m id + t)) as Hi.
  pose proof (read_slot m _ Hshape Hi) as Hr.
  cbn [findLoop].
  destruct (E ((slot m id + t) mod cap)) as [[k v]|] eqn:He.
  - destruct Hr as (-> & -> & ->). simpl.
    destruct (k =? id) eqn:Hk.
    + assert (k = id) as -> by lia.
      destruct (present_find id t v) as (p & -> & ->); [lia|done|done].
    + rewrite nextSlot_spec by done. apply IH; [|lia|lia].
      eapply passed_S; [done|done|exact He|lia].
  - destruct Hr as [-> _]. simpl.
    rewrite (absent_find id t); [done|lia|done|by right].
Qed.

Lemma probe_start id : slot m id = (slot m id + 0) mod cap.
Proof. rewrite Z.add_0_r, Z.mod_small; [done|apply Hslot]. Qed.

Lemma passed_0 id : passed cap (slot m) E id 0.
Proof. intros s Hs. lia. Qed.

Lemma find_ok id : find m id = Some (M !! id).
Proof.
  unfold find. rewrite (probe_start id).
  apply findLoop_spec; [apply passed_0|lia|lia].
Qed.

Lemma locateLoop_spec id fuel t :
  passed cap (slot m) E id t → 0 <= t → t + Z.of_nat fuel = cap →
  match M !! id with
  | None => locateLoop fuel m id ((slot m id + t) mod cap) = Some None
  | Some p => ∃ i, locateLoop fuel m id ((slot m id + t) mod cap) = Some (Some i) ∧
                   0 <= i < cap ∧ E i = Some (id, Some p)
  end.
Proof.
  revert t. induction fuel as [|fuel IH]; intros t Hp Ht Hf.
  { cbn. rewrite (absent_find id t); [done|lia|done|left; lia]. }
  pose proof (at_range cap Hpos (slot m id + t)) as Hi.
  pose proof (read_slot m _ Hshape Hi) as Hr.
  cbn [locateLoop].
  destruct (E ((slot m id + t) mod cap)) as [[k v]|] eqn:He.
  - destruct Hr as (-> & -> & _). simpl.
    destruct (k =? id) eqn:Hk.
    + assert (k = id) as -> by lia.
      destruct (present_find id t v) as (p & -> & ->); [lia|done|].
      eexists. split; [done|]. split; [by apply at_range|done].
    + rewrite nextSlot_spec by done. apply IH; [|lia|lia].
      eapply passed_S; [done|done|exact He|lia].
  - destruct Hr as [-> _]. simpl.
    rewrite (absent_find id t); [done|lia|done|by right].
Qed.

(** Storing an entry in one slot of the three arrays. *)
Definition store (i k : Z) (v : option ptr) (size : Z) : OrderIdMap :=
  mkIdMap cap (im_mask m) (<[Z.to_nat i := k]> (im_keys m))
    (<[Z.to_nat i := v]> (im_values m)) (<[Z.to_nat i := true]> (im_state m)) size.
End operations.

Lemma store_shape m i k v n : shape m → shape (store m i k v n).
Proof. intros [? ? ? ? ?]. split; simpl; try rewrite length_insert; done. Qed.

Lemma store_view m i k v n x :
  shape m → 0 <= i < im_capacity m →
  view (store m i k v n) x = upd (view m) i (Some (k, v)) x.
Proof.
  intros [_ _ Hk Hv Hs] Hi. unfold view, upd, store; simpl.
  destruct (x =? i) eqn:E.
  - assert (x = i) as -> by lia. rewrite !aget_insert_eq by lia. done.
  - rewrite !aget_insert_ne by lia. done.
Qed.

Lemma store_arrays m i k v n : shape m → 0 <= i < im_capacity m →
  aset (im_keys m) i k = Some (im_keys (store m i k v n)) ∧
  aset (im_values m) i v = Some (im_values (store m i k v n)) ∧
  aset (im_state m) i true = Some (im_state (store m i k v n)).
Proof. intros [_ _ Hk Hv Hs] Hi. simpl. rewrite !aset_in by lia. done. Qed.

Lemma insertLoop_spec m M id p fuel t :
  idmap_ok m M → passed (im_capacity m) (slot m) (view m) id t →
  0 <= t → t + Z.of_nat fuel = im_capacity m →
  match M !! id with
  | Some _ => insertLoop fuel m id p ((slot m id + t) mod im_capacity m) = Some (m, false)
  | None => ∃ i,
      insertLoop fuel m id p ((slot m id + t) mod im_capacity m)
        = Some (store m i id (Some p) (u64 (im_size m + 1)), true) ∧
      0 <= i < im_capacity m ∧ view m i = None ∧
      reachable (im_capacity m) (slot m) (upd (view m) i (Some (id, Some p)))
  end.
Proof.
  intros Hok. pose proof (ok_shape _ _ Hok) as Hsh. pose proof (shape_pos _ Hsh) as Hpos.
  revert t. induction fuel as [|fuel IH]; intros t Hp Ht Hf.
  { exfalso. destruct (content_room _ Hpos _ _ (ok_content _ _ Hok)) as (x & Hx & He).
    { rewrite map_size_fmap. apply ok_room, Hok. }
    destruct (probe_covers (im_capacity m) (slot m id) x) as (d & Hd & Hdx);
      [by apply slot_range|done|].
    destruct (Hp d) as (k & v & Hat & _); [lia|].
    unfold at_ in Hat. rewrite Hdx in Hat. congruence. }
  cbn [insertLoop].
  pose proof (at_range _ Hpos (slot m id + t)) as Hi.
  set (i := (slot m id + t) mod im_capacity m) in *.
  pose proof (read_slot m i Hsh Hi) as Hr.
  destruct (view m i) as [[k v]|] eqn:He.
  - destruct Hr as (-> & -> & _). simpl.
    destruct (k =? id) eqn:Hk.
    + assert (k = id) as -> by lia.
      destruct (present_find m M Hok id t v) as (q & -> & ->); [lia|done|done].
    + unfold i. rewrite nextSlot_spec by done. apply IH; [|lia|lia].
      eapply passed_S; [done|done|exact He|lia].
  - destruct Hr as (-> & k & ->).
    destruct (store_arrays m i id (Some p) (u64 (im_size m + 1)) Hsh Hi) as (-> & -> & ->).
    rewrite (absent_find m M Hok id t); [|lia|done|by right].
    exists i. split; [done|]. split; [done|]. split; [done|].
    apply reachable_insert; [done|apply (ok_reach _ _ Hok)|done|lia|done].
Qed.

Lemma view_slot m m' : im_mask m' = im_mask m → ∀ k, slot m' k = slot m k.
Proof. intros Hm k. unfold slot. by rewrite Hm. Qed.

(** [insert] refuses a duplicate id and otherwise adds the binding, provided the
    table keeps an empty slot. *)
Lemma insert_ok m M id p :
  idmap_ok m M → Z.of_nat (size M) + 1 < im_capacity m →
  match M !! id with
  | Some _ => insert m id p = Some (m, false)
  | None => ∃ m', insert m id p = Some (m', true) ∧ idmap_ok m' (<[id := p]> M) ∧
                  im_capacity m' = im_capacity m
  end.
Proof.
  intros Hok Hroom. unfold insert.
  pose proof (insertLoop_spec m M id p (Z.to_nat (im_capacity m)) 0 Hok
                (passed_0 m id)) as H.
  rewrite <- (probe_start m M Hok) in H.
  pose proof (shape_pos _ (ok_shape _ _ Hok)).
  specialize (H ltac:(lia) ltac:(lia)). destruct (M !! id) as [q|] eqn:Hid; [done|].
  destruct H as (i & -> & Hi & He & Hr). eexists. split; [done|]. split; [|done].
  destruct Hok as [Hsh _ Hct Hsz Hlt Hsm].
  assert (Hv : ∀ x, view (store m i id (Some p) (u64 (im_size m + 1))) x
                    = upd (view m) i (Some (id, Some p)) x)
    by (intros; by apply store_view).
  split; simpl.
  - by apply store_shape.
  - eapply reachable_ext; [done| |exact Hr]. intros; apply Hv.
  - eapply content_ext; [intros; apply Hv|]. rewrite fmap_insert.
    apply content_insert; [done|done|done|]. by rewrite lookup_fmap, Hid.
  - rewrite Hsz, map_size_insert_None by done. rewrite u64_id; [lia|].
    split; [lia|]. change (2 ^ 63) with 9223372036854775808 in Hsm. lia.
  - rewrite map_size_insert_None by done. lia.
  - done.
Qed.

(** The scan of [erase]: slot [i] is the hole, [n] slots after it are scanned and
    an empty slot lies [delta] further on. *)
Record shifting (m : OrderIdMap) (M : gmap Z ptr) (E : Z → option (Z * option ptr))
    (i n delta : Z) : Prop := {
  sf_shape : shape m;
  sf_hole : 0 <= i < im_capacity m;
  sf_view : ∀ x, 0 <= x < im_capacity m → x ≠ i → view m x = E x;
  sf_inv : hole_inv (im_capacity m) (slot m) E i n;
  sf_content : content (im_capacity m) E (Some <$> M);
  sf_n : 0 <= n;
  sf_delta : 1 <= delta ∧ n + delta < im_capacity m;
  sf_empty : at_ (im_capacity m) E (i + (n + delta)) = None
}.

Lemma scan_ne m i n : shape m → 0 <= i < im_capacity m → 0 < n < im_capacity m →
  (i + n) mod im_capacity m ≠ i.
Proof.
  intros Hsh Hi Hn Heq. assert (n = 0); [|lia].
  apply (mod_inj (im_capacity m) (shape_pos m Hsh) i); [lia|lia|].
  by rewrite Heq, Z.add_0_r, Z.mod_small.
Qed.

Lemma shift_step_skip m M E i n delta k v d :
  shifting m M E i n delta →
  E ((i + (n + 1)) mod im_capacity m) = Some (k, v) → 0 <= d < n + 1 →
  (slot m k + d) mod im_capacity m = (i + (n + 1)) mod im_capacity m →
  shifting m M E i (n + 1) (delta - 1).
Proof.
  intros [Hsh Hi Hv Hinv Hct Hn [Hd1 Hd2] He] Hj Hd Hm.
  assert (delta ≠ 1) by (intros ->; unfold at_ in He; congruence).
  split; try done; try lia.
  - by eapply hole_skip.
  - by replace (n + 1 + (delta - 1)) with (n + delta) by lia.
Qed.

Lemma shift_step_move m M E i n delta k v :
  shifting m M E i n delta →
  let j := (i + (n + 1)) mod im_capacity m in
  E j = Some (k, v) →
  (∀ d, 0 <= d < n + 1 → (slot m k + d) mod im_capacity m ≠ j) →
  shifting (store m i k v (im_size m)) M (upd (upd E i (Some (k, v))) j None) j 0 (delta - 1).
Proof.
  intros [Hsh Hi Hv Hinv Hct Hn [Hd1 Hd2] He] j Hj Hcross.
  pose proof (shape_pos _ Hsh) as Hpos.
  pose proof (at_range _ Hpos (i + (n + 1))) as Hjr. fold j in Hjr.
  assert (Hne : j ≠ i) by (apply scan_ne; [done|done|lia]).
  assert (Hdelta : delta ≠ 1) by (intros ->; unfold at_ in He; fold j in He; congruence).
  split; simpl; try lia.
  - by apply store_shape.
  - intros x Hx Hxj. rewrite store_view by done. rewrite (upd_ne _ j) by done.
    unfold upd. case_match; [done|]. apply Hv; [done|lia].
  - apply (hole_move (im_capacity m) Hpos (slot m) (λ k, slot_range m k Hsh)); [done|done|lia|lia|done|done].
  - apply content_move; [done|done|done|done| |done]. by apply (hi_empty _ _ _ _ _ Hinv).
  - unfold at_, j. rewrite Z.add_0_l, Zplus_mod_idemp_l.
    replace (i + (n + 1) + (delta - 1)) with (i + (n + delta)) by lia.
    rewrite upd_ne.
    + rewrite upd_ne; [exact He|]. apply scan_ne; [done|done|lia].
    + intros Heq. fold j in Heq. unfold at_ in He. rewrite Heq in He. congruence.
Qed.

Lemma shiftLoop_spec fuel m M E i n delta :
  shifting m M E i n delta → (Z.to_nat delta <= fuel)%nat →
  im_size m = Z.of_nat (size M) + 1 → im_capacity m < 2 ^ 63 →
  Z.of_nat (size M) + 1 < im_capacity m →
  ∃ m', shiftLoop fuel m i ((i + n) mod im_capacity m) = Some m' ∧ idmap_ok m' M ∧
        im_capacity m' = im_capacity m.
Proof.
  revert m E i n delta. induction fuel as [|fuel IH];
    intros m E i n delta Hs Hf Hsz Hsm Hroom.
  { destruct Hs. lia. }
  pose proof Hs as [Hsh Hi Hv Hinv Hct Hn [Hd1 Hd2] He].
  pose proof (shape_pos _ Hsh) as Hpos.
  cbn [shiftLoop]. rewrite nextSlot_spec by done.
  pose proof (at_range _ Hpos (i + (n + 1))) as Hj.
  assert (Hne : (i + (n + 1)) mod im_capacity m ≠ i) by (apply scan_ne; [done|done|lia]).
  pose proof (read_slot m _ Hsh Hj) as Hr. rewrite (Hv _ Hj Hne) in Hr.
  destruct (E ((i + (n + 1)) mod im_capacity m)) as [[k v]|] eqn:Ej.
  - destruct Hr as (-> & -> & ->). cbn [mbind option_bind negb].
    destruct (moveBack_spec (im_capacity m) Hpos i n (slot m k)) as [Hmb1 Hmb2];
      [done|done|lia|by apply slot_range|].
    destruct (if i <=? _ then _ else _) eqn:Hmb.
    + destruct (store_arrays m i k v (im_size m) Hsh Hi) as (-> & -> & ->).
      simpl_bind.
      destruct (IH (store m i k v (im_size m)) _ _ _ _
                  (shift_step_move m M E i n delta k v Hs Ej
                     ltac:(intros d Hd Heq; specialize (Hmb2 (ex_intro _ d (conj Hd Heq))); congruence)))
        as (m' & Hm' & Hok & Hc); [lia|done|done|done|].
      exists m'. split; [|done]. rewrite Z.add_0_r in Hm'. simpl in Hm'.
      rewrite Z.mod_mod in Hm' by lia. exact Hm'.
    + destruct Hmb1 as (d & Hd & Hm); [done|].
      apply (IH m E i (n + 1) (delta - 1)); [|lia|done|done|done].
      by eapply shift_step_skip.
  - destruct Hr as [-> _]. cbn [mbind option_bind negb].
    rewrite !aset_in by (destruct Hsh; lia). simpl_bind.
    eexists. split; [done|]. split; [|done].
    set (m' := mkIdMap _ _ _ _ _ _).
    assert (Hv' : ∀ x, 0 <= x < im_capacity m → view m' x = E x).
    { intros x Hx. destruct (decide (x = i)) as [->|Hxi].
      - rewrite (hi_empty _ _ _ _ _ Hinv). unfold view; simpl.
        rewrite (aget_insert_eq (im_state m)) by (destruct Hsh; lia). done.
      - rewrite <- Hv by done. unfold view; simpl. by rewrite !aget_insert_ne by lia. }
    split.
    + destruct Hsh. split; simpl; try rewrite length_insert; done.
    + eapply reachable_ext; [done|apply Hv'|].
      change (reachable (im_capacity m) (slot m) E).
      eapply hole_done; [done|done|done|done|lia|done].
    + eapply content_ext; [apply Hv'|done].
    + simpl. rewrite Hsz. rewrite u64_id; [lia|].
      split; [lia|]. change (2 ^ 63) with 9223372036854775808 in Hsm. lia.
    + simpl. lia.
    + done.
Qed.

(** [erase] deletes exactly the binding of [id]; backward shifting keeps every
    other key reachable and the scan reaches an empty slot. *)
Lemma erase_ok m M id :
  idmap_ok m M →
  match M !! id with
  | None => erase m id = Some (m, false)
  | Some _ => ∃ m', erase m id = Some (m', true) ∧ idmap_ok m' (delete id M) ∧
                    im_capacity m' = im_capacity m
  end.
Proof.
  intros Hok. unfold erase.
  pose proof (locateLoop_spec m M Hok id (Z.to_nat (im_capacity m)) 0 (passed_0 m id)) as H.
  rewrite <- (probe_start m M Hok) in H.
  destruct Hok as [Hsh Hr Hct Hsz Hlt Hsm]. pose proof (shape_pos _ Hsh) as Hpos.
  specialize (H ltac:(lia) ltac:(lia)). destruct (M !! id) as [p|] eqn:Hid.
  2: { by rewrite H. }
  destruct H as (i & -> & Hi & He). simpl_bind.
  destruct (content_room _ Hpos _ _ Hct) as (x & Hx & Ex).
  { by rewrite map_size_fmap. }
  destruct (probe_covers (im_capacity m) i x Hi Hx) as (d & Hd & Hdx).
  assert (d ≠ 0).
  { intros ->. rewrite Z.add_0_r, Z.mod_small in Hdx by done. congruence. }
  assert (Hxi : x ≠ i) by congruence.
  pose proof (map_size_delete_Some id M ltac:(by exists p)) as Hsd.
  assert (size M ≠ 0%nat).
  { intros H0. apply map_size_empty_inv in H0. subst. done. }
  destruct (shiftLoop_spec (Z.to_nat (im_capacity m)) m (delete id M)
              (upd (view m) i None) i 0 d) as (m' & Hm' & Hok' & Hc'); [|lia|lia|done|lia|].
  - split; try done; try lia.
    + intros y Hy Hne. by rewrite upd_ne.
    + by apply hole_start.
    + rewrite fmap_delete. by eapply content_delete.
    + unfold at_. rewrite Z.add_0_l, Hdx, upd_ne; done.
  - rewrite Z.add_0_r, Z.mod_small in Hm' by done. rewrite Hm'. simpl. by exists m'.
Qed.

Lemma idMapNew_ok k :
  0 <= k < 63 → idmap_ok (idMapNew (2 ^ k)) ∅.
Proof.
  intros Hk. assert (0 < 2 ^ k) by (by apply Z.pow_pos_nonneg; lia).
  assert (Hv : ∀ x, view (idMapNew (2 ^ k)) x = None).
  { intros x. unfold view. simpl.
    destruct (aget (replicate _ false) x) as [s|] eqn:Es; [|done]. simpl.
    apply aget_Some in Es as [_ Es]. apply lookup_replicate in Es as [-> _]. done. }
  split.
  - split; simpl; try rewrite length_replicate; try lia. exists k. lia.
  - intros k' v d Hd Hat. unfold at_ in Hat. by rewrite Hv in Hat.
  - split.
    + intros x k' v _ Hat. by rewrite Hv in Hat.
    + intros k' v Hk'. by rewrite fmap_empty, lookup_empty in Hk'.
    + intros x y k' v w _ _ Hat. by rewrite Hv in Hat.
  - done.
  - simpl. by rewrite map_size_empty.
  - simpl. apply Z.pow_lt_mono_r; lia.
Qed.

(** * Histories

    A sequence of insertions and erasures, on the table and on a finite map. *)
Inductive Op := OpInsert (id : Z) (p : ptr) | OpErase (id : Z).

Fixpoint runOps (m : OrderIdMap) (ops : list Op) : option (OrderIdMap * list bool) :=
  match ops with
  | [] => Some (m, [])
  | o :: ops =>
      '(m, r) ← match o with OpInsert id p => insert m id p | OpErase id => erase m id end;
      '(m, rs) ← runOps m ops;
      Some (m, r :: rs)
  end.

Definition specOp (M : gmap Z ptr) (o : Op) : gmap Z ptr * bool :=
  match o with
  | OpInsert id p =>
      match M !! id with Some _ => (M, false) | None => (<[id := p]> M, true) end
  | OpErase id =>
      match M !! id with Some _ => (delete id M, true) | None => (M, false) end
  end.

Fixpoint specOps (M : gmap Z ptr) (ops : list Op) : gmap Z ptr * list bool :=
  match ops with
  | [] => (M, [])
  | o :: ops =>
      let '(M, r) := specOp M o in
      let '(M, rs) := specOps M ops in (M, r :: rs)
  end.

(** The table keeps a free slot beyond every insertion. *)
Fixpoint fits (cap : Z) (M : gmap Z ptr) (ops : list Op) : Prop :=
  match ops with
  | [] => True
  | o :: ops => Z.of_nat (size M) + 1 < cap ∧ fits cap (specOp M o).1 ops
  end.

Lemma runOps_ok m M ops :
  idmap_ok m M → fits (im_capacity m) M ops →
  ∃ m', runOps m ops = Some (m', (specOps M ops).2) ∧ idmap_ok m' (specOps M ops).1.
Proof.
  revert m M. induction ops as [|o ops IH]; intros m M Hok Hf; simpl in *; [by exists m|].
  destruct Hf as [Hroom Hf].
  assert (Hstep : ∃ m1, match o with OpInsert id p => insert m id p | OpErase id => erase m id end
                        = Some (m1, (specOp M o).2) ∧ idmap_ok m1 (specOp M o).1 ∧
                        im_capacity m1 = im_capacity m).
  { destruct o as [id p|id]; simpl.
    - pose proof (insert_ok m M id p Hok Hroom) as H. destruct (M !! id); [by exists m|]. exact H.
    - pose proof (erase_ok m M id Hok) as H. destruct (M !! id); [exact H|by exists m]. }
  destruct Hstep as (m1 & -> & Hok1 & Hcap). simpl_bind.
  destruct (specOp M o) as [M1 r]. simpl in *. rewrite <- Hcap in Hf.
  destruct (IH m1 M1 Hok1 Hf) as (m2 & -> & Hok2). simpl.
  destruct (specOps M1 ops) as [M2 rs]. by exists m2.
Qed.

Lemma forEach_elem m M id v :
  idmap_ok m M → (id, v) ∈ forEach m ↔ ∃ p, v = Some p ∧ M !! id = Some p.
Proof.
  intros Hok. pose proof (ok_shape _ _ Hok) as Hsh. pose proof (shape_pos _ Hsh) as Hpos.
  assert (Hview : (id, v) ∈ forEach m ↔ ∃ x, 0 <= x < im_capacity m ∧ view m x = Some (id, v)).
  { unfold forEach. rewrite list_elem_of_omap. setoid_rewrite elem_of_seq. unfold view. split.
    - intros (i & Hi & He). exists (Z.of_nat i). split; [lia|]. rewrite !aget_nat.
      destruct (im_state m !! i) as [[]|]; done.
    - intros (x & Hx & He). exists (Z.to_nat x). split; [lia|].
      replace x with (Z.of_nat (Z.to_nat x)) in He by lia. rewrite !aget_nat in He.
      destruct (im_state m !! Z.to_nat x) as [[]|]; done. }
  rewrite Hview. destruct (ok_content _ _ Hok) as [Hs Hcp _]. split.
  - intros (x & Hx & He). apply Hs in He; [|done]. rewrite lookup_fmap in He.
    destruct (M !! id) as [p|]; [|done]. exists p. simpl in He. split; congruence.
  - intros (p & -> & Hp). apply Hcp. by rewrite lookup_fmap, Hp.
Qed.

(** C26: Over any history of insertions and erasures that leaves a slot free, the
    open-addressed table with backward-shift deletion behaves as a finite map:
    every call returns what the map would, every lookup finds the current binding,
    the size is the number of bindings, and enumeration lists exactly them. *)
Theorem idmap_refines_finite_map k ops :
  0 <= k < 63 → fits (2 ^ k) ∅ ops →
  let '(M, results) := specOps ∅ ops in
  ∃ m, runOps (idMapNew (2 ^ k)) ops = Some (m, results) ∧
    (∀ id, find m id = Some (M !! id)) ∧ im_size m = Z.of_nat (size M) ∧
    (∀ id v, (id, v) ∈ forEach m ↔ ∃ p, v = Some p ∧ M !! id = Some p).
Proof.
  intros Hk Hf. destruct (runOps_ok _ ∅ ops (idMapNew_ok k Hk) Hf) as (m & Hrun & Hok).
  destruct (specOps ∅ ops) as [M rs]. simpl in *. exists m. split; [done|].
  split; [intros id; by apply find_ok|]. split; [by apply ok_size|].
  intros id v. by apply forEach_elem.
Qed.

Lemma idmap_refines_finite_map_witness :
  let ops := [OpInsert 5 0; OpInsert 13 1; OpErase 5; OpInsert 13 2; OpErase 7]%nat in
  let '(M, results) := specOps ∅ ops in
  ∃ m, runOps (idMapNew (2 ^ 3)) ops = Some (m, results) ∧
    (∀ id, find m id = Some (M !! id)) ∧ im_size m = Z.of_nat (size M) ∧
    (∀ id v, (id, v) ∈ forEach m ↔ ∃ p, v = Some p ∧ M !! id = Some p).
Proof.
  apply (idmap_refines_finite_map 3).
  - lia.
  - vm_compute. repeat split.
Defined.

End IdMap.
