(* ===== verification/LevelMap.v ===== *)
(** [book/level_map.hpp]: the price levels of one side and the best price.

    The levels are a direct-indexed array; a two-level bitset summarises which
    are occupied.  The first part gives the operations as the source has them,
    the second shows that the bitset searches return what a linear scan of the
    slots would, the third that [addOrder] and [onLevelEmptied] keep the bitset
    and the best price in step with the queues. *)
From S2P Require Import Prelude Types ObjectPool PriceLevel.

Record LevelMap := mkLevelMap {
  side_ : Side;
  minPrice_ : Z;
  maxPrice_ : Z;
  tick_ : Z;
  numSlots_ : Z;
  levels_ : list PriceLevel;
  l0Words_ : Z;
  l1Words_ : Z;
  l0_ : list Z;
  l1_ : list Z;
  best_ : Z
}.

Definition set_levels (m : LevelMap) (ls : list PriceLevel) : LevelMap :=
  mkLevelMap (side_ m) (minPrice_ m) (maxPrice_ m) (tick_ m) (numSlots_ m) ls
    (l0Words_ m) (l1Words_ m) (l0_ m) (l1_ m) (best_ m).
Definition set_bits (m : LevelMap) (w0 w1 : list Z) : LevelMap :=
  mkLevelMap (side_ m) (minPrice_ m) (maxPrice_ m) (tick_ m) (numSlots_ m) (levels_ m)
    (l0Words_ m) (l1Words_ m) w0 w1 (best_ m).
Definition set_best (m : LevelMap) (p : Z) : LevelMap :=
  mkLevelMap (side_ m) (minPrice_ m) (maxPrice_ m) (tick_ m) (numSlots_ m) (levels_ m)
    (l0Words_ m) (l1Words_ m) (l0_ m) (l1_ m) p.

Definition kNotFound : Z := 18446744073709551615.

Definition levelMapNew (side : Side) (minPrice maxPrice tick : Z) : LevelMap :=
  let numSlots := u64 (u64 (Z.quot (s64 (maxPrice - minPrice)) tick) + 1) in
  let l0Words := u64 (numSlots + 64 - 1) / 64 in
  let l1Words := u64 (l0Words + 64 - 1) / 64 in
  mkLevelMap side minPrice maxPrice tick numSlots
    ((λ i, initLevel (s64 (minPrice + s64 (Z.of_nat i * tick)))) <$> seq 0 (Z.to_nat numSlots))
    l0Words l1Words
    (replicate (Z.to_nat l0Words) 0) (replicate (Z.to_nat l1Words) 0)
    (emptySentinel side).

Definition inRange (m : LevelMap) (p : Z) : bool := (minPrice_ m <=? p) && (p <=? maxPrice_ m).
Definition hasBest (m : LevelMap) : bool := negb (best_ m =? emptySentinel (side_ m)).

Definition index (m : LevelMap) (p : Z) : Z := u64 (Z.quot (s64 (p - minPrice_ m)) (tick_ m)).

(** The pointer [levelAt] returns is the index of the level. *)
Definition levelAt (m : LevelMap) (p : Z) : option Z :=
  if inRange m p then Some (index m p) else None.

Definition isBetter (m : LevelMap) (a b : Z) : bool :=
  match side_ m with Buy => b <? a | Sell => a <? b end.

Definition occupiedBit (m : LevelMap) (i : Z) : option bool :=
  x ← aget (l0_ m) (i / 64);
  Some (negb (Z.land x (Z.shiftl 1 (i mod 64)) =? 0)).

Definition setOccupied (m : LevelMap) (i : Z) : option LevelMap :=
  let w := i / 64 in
  x ← aget (l0_ m) w;
  w0 ← aset (l0_ m) w (Z.lor x (Z.shiftl 1 (i mod 64)));
  y ← aget (l1_ m) (w / 64);
  w1 ← aset (l1_ m) (w / 64) (Z.lor y (Z.shiftl 1 (w mod 64)));
  Some (set_bits m w0 w1).

Definition clearOccupied (m : LevelMap) (i : Z) : option LevelMap :=
  let w := i / 64 in
  x ← aget (l0_ m) w;
  let x := Z.land x (not64 (Z.shiftl 1 (i mod 64))) in
  w0 ← aset (l0_ m) w x;
  if x =? 0 then
    y ← aget (l1_ m) (w / 64);
    w1 ← aset (l1_ m) (w / 64) (Z.land y (not64 (Z.shiftl 1 (w mod 64))));
    Some (set_bits m w0 w1)
  else Some (set_bits m w0 (l1_ m)).

(** The walk over summary words; [fuel] bounds the number of words left. *)
Fixpoint belowLoop (fuel : nat) (m : LevelMap) (curL1 l1mask : Z) : option Z :=
  match fuel with
  | O => None
  | S fuel =>
      y ← aget (l1_ m) curL1;
      let l1word := Z.land y l1mask in
      if negb (l1word =? 0) then
        let prevL0 := curL1 * 64 + (64 - 1 - countl_zero l1word) in
        l0word ← aget (l0_ m) prevL0;
        Some (prevL0 * 64 + (64 - 1 - countl_zero l0word))
      else if curL1 =? 0 then Some kNotFound
      else belowLoop fuel m (curL1 - 1) (not64 0)
  end.

Definition findSetBitBelow (m : LevelMap) (idx : Z) : option Z :=
  let w := idx / 64 in
  let bitInWord := idx mod 64 in
  let mask := if bitInWord =? 0 then 0 else Z.shiftl 1 bitInWord - 1 in
  x ← aget (l0_ m) w;
  let masked := Z.land x mask in
  if negb (masked =? 0) then Some (w * 64 + (64 - 1 - countl_zero masked))
  else if w =? 0 then Some kNotFound
  else
    let curL1 := (w - 1) / 64 in
    let l1Bit := (w - 1) mod 64 in
    let l1mask := if l1Bit =? 64 - 1 then not64 0 else Z.shiftl 1 (l1Bit + 1) - 1 in
    belowLoop (length (l1_ m)) m curL1 l1mask.

Fixpoint aboveLoop (fuel : nat) (m : LevelMap) (curL1 l1mask : Z) : option Z :=
  match fuel with
  | O => None
  | S fuel =>
      if curL1 <? l1Words_ m then
        y ← aget (l1_ m) curL1;
        let l1word := Z.land y l1mask in
        if negb (l1word =? 0) then
          let nextL0 := curL1 * 64 + countr_zero l1word in
          if l0Words_ m <=? nextL0 then Some kNotFound
          else
            l0word ← aget (l0_ m) nextL0;
            Some (nextL0 * 64 + countr_zero l0word)
        else aboveLoop fuel m (curL1 + 1) (not64 0)
      else Some kNotFound
  end.

Definition findSetBitAbove (m : LevelMap) (idx : Z) : option Z :=
  let w := idx / 64 in
  let bitInWord := idx mod 64 in
  let mask := if bitInWord =? 64 - 1 then 0 else not64 (u64 (Z.shiftl 2 bitInWord) - 1) in
  x ← aget (l0_ m) w;
  let masked := Z.land x mask in
  if negb (masked =? 0) then Some (w * 64 + countr_zero masked)
  else
    let firstNextWord := w + 1 in
    if l0Words_ m <=? firstNextWord then Some kNotFound
    else
      let curL1 := firstNextWord / 64 in
      let l1Bit := firstNextWord mod 64 in
      aboveLoop (S (length (l1_ m))) m curL1 (not64 (Z.shiftl 1 l1Bit - 1)).

Definition nextOccupied (m : LevelMap) (from : Z) : option Z :=
  let idx := index m from in
  found ← match side_ m with
          | Buy => findSetBitBelow m idx
          | Sell => findSetBitAbove m idx
          end;
  if found =? kNotFound then Some (emptySentinel (side_ m))
  else lv ← aget (levels_ m) found; Some (price_ lv).

Definition addOrder (m : LevelMap) (h : heap) (p : ptr) : option (LevelMap * heap) :=
  o ← hget h p;
  let i := index m (o_price o) in
  lvl ← aget (levels_ m) i;
  let wasEmpty := levelEmpty lvl in
  '(h, lvl) ← enqueue (side_ m, Z.to_nat i) h lvl p;
  ls ← aset (levels_ m) i lvl;
  m ← (if wasEmpty then setOccupied (set_levels m ls) i else Some (set_levels m ls));
  o ← hget h p;
  Some (if isBetter m (o_price o) (best_ m) then set_best m (o_price o) else m, h).

Definition onLevelEmptied (m : LevelMap) (p : Z) : option LevelMap :=
  m ← clearOccupied m (index m p);
  if negb (p =? best_ m) then Some m
  else b ← nextOccupied m p; Some (set_best m b).

(** Calls through a [PriceLevel*]: the level's fields live in the array. *)
Definition levelUnlink (m : LevelMap) (h : heap) (i : Z) (p : ptr) : option (LevelMap * heap) :=
  lv ← aget (levels_ m) i;
  '(h, lv) ← unlink h lv p;
  ls ← aset (levels_ m) i lv;
  Some (set_levels m ls, h).

Definition levelReduce (m : LevelMap) (i : Z) (q : Z) : option LevelMap :=
  lv ← aget (levels_ m) i;
  ls ← aset (levels_ m) i (reduceQuantity lv q);
  Some (set_levels m ls).

(** * The bitset *)

(** Bit [i] of an array of 64-bit words. *)
Definition wordBit (l : list Z) (i : Z) : bool :=
  match aget l (i / 64) with Some x => Z.testbit x (i mod 64) | None => false end.

Record bits_ok (m : LevelMap) (P : Z → bool) : Prop := {
  bo_len0 : l0Words_ m = Z.of_nat (length (l0_ m));
  bo_len1 : l1Words_ m = Z.of_nat (length (l1_ m));
  bo_cover0 : numSlots_ m <= l0Words_ m * 64;
  bo_cover1 : l0Words_ m <= l1Words_ m * 64;
  bo_word0 : ∀ i x, l0_ m !! i = Some x → in_u64 x;
  bo_word1 : ∀ i x, l1_ m !! i = Some x → in_u64 x;
  bo_bits : ∀ i, 0 <= i → wordBit (l0_ m) i = P i;
  bo_range : ∀ i, 0 <= i → P i = true → i < numSlots_ m;
  bo_sum : ∀ w, 0 <= w → wordBit (l1_ m) w = true ↔ ∃ b, 0 <= b < 64 ∧ P (w * 64 + b) = true
}.

(** What the two searches compute, by a linear scan of the predicate. *)
Definition found_above (P : Z → bool) (a r : Z) : Prop :=
  (r = kNotFound ∧ ∀ j, a <= j → P j = false) ∨
  (a <= r ∧ P r = true ∧ ∀ j, a <= j < r → P j = false).

Definition found_below (P : Z → bool) (a r : Z) : Prop :=
  (r = kNotFound ∧ ∀ j, 0 <= j < a → P j = false) ∨
  (0 <= r < a ∧ P r = true ∧ ∀ j, r < j < a → P j = false).

Lemma split64 i : i = i / 64 * 64 + i mod 64 ∧ 0 <= i mod 64 < 64.
Proof. pose proof (Z.mod_pos_bound i 64). pose proof (Z.div_mod i 64). lia. Qed.

Lemma div64 w b : 0 <= b < 64 → (w * 64 + b) / 64 = w ∧ (w * 64 + b) mod 64 = b.
Proof.
  intros. split.
  - symmetry. apply (Z.div_unique _ _ _ b); lia.
  - symmetry. apply (Z.mod_unique _ _ w); lia.
Qed.

Lemma wordBit_word l w b x :
  0 <= b < 64 → aget l w = Some x → wordBit l (w * 64 + b) = Z.testbit x b.
Proof. intros Hb Hx. unfold wordBit. destruct (div64 w b Hb) as [-> ->]. by rewrite Hx. Qed.

Lemma wordBit_bound l i : wordBit l i = true → i < Z.of_nat (length l) * 64.
Proof.
  unfold wordBit. destruct (aget l (i / 64)) as [x|] eqn:E; [|done].
  apply aget_Some in E as [? ?%lookup_lt_Some]. intros _.
  destruct (split64 i). lia.
Qed.

Lemma not64_0_testbit n : 0 <= n < 64 → Z.testbit (not64 0) n = true.
Proof. intros. by rewrite not64_testbit, Z.bits_0. Qed.

Section search.
Context (m : LevelMap) (P : Z → bool) (Hb : bits_ok m P).

Lemma word0 w x : aget (l0_ m) w = Some x → in_u64 x.
Proof. intros [_ H]%aget_Some. by eapply (bo_word0 _ _ Hb). Qed.

Lemma word1 w y : aget (l1_ m) w = Some y → in_u64 y.
Proof. intros [_ H]%aget_Some. by eapply (bo_word1 _ _ Hb). Qed.

Lemma bit0 w b x : 0 <= w → 0 <= b < 64 → aget (l0_ m) w = Some x →
  Z.testbit x b = P (w * 64 + b).
Proof.
  intros Hw H0 Hx. rewrite <- (bo_bits _ _ Hb) by lia. symmetry. by apply wordBit_word.
Qed.

(** A summary bit that is clear rules out every slot of its word. *)
Lemma summary_clear w b :
  0 <= w → 0 <= b < 64 → wordBit (l1_ m) w = false → P (w * 64 + b) = false.
Proof.
  intros Hw H0 Hc. destruct (P (w * 64 + b)) eqn:E; [|done].
  assert (wordBit (l1_ m) w = true); [|congruence].
  apply (bo_sum _ _ Hb); [done|]. by exists b.
Qed.

Lemma summary_clear_range lo hi :
  0 <= lo → (∀ w, lo <= w < hi → wordBit (l1_ m) w = false) →
  ∀ j, lo * 64 <= j < hi * 64 → P j = false.
Proof.
  intros Hlo Hc j Hj. destruct (split64 j) as [Hs Hm]. rewrite Hs.
  apply summary_clear; [lia|done|]. apply Hc. lia.
Qed.

Lemma summary_set w : 0 <= w → wordBit (l1_ m) w = true →
  ∃ x, aget (l0_ m) w = Some x ∧ x ≠ 0 ∧ in_u64 x.
Proof.
  intros Hw (b & Hb0 & HP)%(bo_sum _ _ Hb); [|done].
  rewrite <- (bo_bits _ _ Hb) in HP by lia. unfold wordBit in HP.
  destruct (div64 w b Hb0) as [Hd Hm]. rewrite Hd, Hm in HP.
  destruct (aget (l0_ m) w) as [x|] eqn:E; [|done]. exists x.
  split; [done|]. split; [|by eapply word0]. intros ->. by rewrite Z.bits_0 in HP.
Qed.

Lemma aboveLoop_ok fuel cur mask lo :
  0 <= cur → cur * 64 <= lo <= (cur + 1) * 64 →
  (∀ b, 0 <= b < 64 → Z.testbit mask b = (lo <=? cur * 64 + b)) →
  (Z.to_nat (l1Words_ m - cur) < fuel)%nat →
  ∃ r, aboveLoop fuel m cur mask = Some r ∧ found_above P (lo * 64) r.
Proof.
  revert cur mask lo. induction fuel as [|fuel IH]; intros cur mask lo Hcur Hlo Hmask Hf; [lia|].
  cbn [aboveLoop]. destruct (cur <? l1Words_ m) eqn:Ec.
  2: { exists kNotFound. split; [done|]. left. split; [done|]. intros j Hj.
       destruct (P j) eqn:E; [|done]. exfalso.
       rewrite <- (bo_bits _ _ Hb) in E by lia. apply wordBit_bound in E.
       rewrite <- (bo_len0 _ _ Hb) in E. pose proof (bo_cover1 _ _ Hb). lia. }
  destruct (aget_in (l1_ m) cur) as [y Hy].
  { rewrite <- (bo_len1 _ _ Hb). lia. }
  rewrite Hy. simpl_bind.
  assert (Hbit : ∀ b, 0 <= b < 64 → Z.testbit (Z.land y mask) b =
                       wordBit (l1_ m) (cur * 64 + b) && (lo <=? cur * 64 + b)).
  { intros b H0. rewrite Z.land_spec, Hmask by done. by rewrite (wordBit_word _ _ _ _ H0 Hy). }
  pose proof (in_u64_land y mask (word1 _ _ Hy)) as Hw.
  destruct (Z.land y mask =? 0) eqn:E0; cbn [negb].
  - (* nothing in this summary word *)
    assert (Hz : Z.land y mask = 0) by lia.
    destruct (IH (cur + 1) (not64 0) ((cur + 1) * 64)) as (r & Hr & Hf'); [lia|lia| |lia|].
    { intros b H0. rewrite not64_0_testbit by done. symmetry. apply Z.leb_le. lia. }
    exists r. split; [done|].
    assert (Hclr : ∀ j, lo * 64 <= j < (cur + 1) * 64 * 64 → P j = false).
    { apply summary_clear_range; [lia|]. intros w Hw'.
      specialize (Hbit (w - cur * 64) ltac:(lia)).
      rewrite Hz, Z.bits_0 in Hbit. replace (cur * 64 + (w - cur * 64)) with w in Hbit by lia.
      destruct (wordBit (l1_ m) w); [|done]. simpl in Hbit. lia. }
    destruct Hf' as [[-> Hn]|(Hr1 & Hr2 & Hr3)].
    + left. split; [done|]. intros j Hj.
      destruct (decide (j < (cur + 1) * 64 * 64)); [apply Hclr; lia|apply Hn; lia].
    + right. split; [lia|]. split; [done|]. intros j Hj.
      destruct (decide (j < (cur + 1) * 64 * 64)); [apply Hclr; lia|apply Hr3; lia].
  - destruct (countr_zero_spec _ Hw ltac:(lia)) as (Hk & Hk1 & Hk2).
    set (k := countr_zero (Z.land y mask)) in *.
    rewrite Hbit in Hk1 by done. apply andb_true_iff in Hk1 as [Hs Hge].
    destruct (summary_set (cur * 64 + k)) as (x & Hx & Hx0 & Hxu); [lia|done|].
    assert (cur * 64 + k < l0Words_ m).
    { rewrite (bo_len0 _ _ Hb). apply aget_Some in Hx as [? ?%lookup_lt_Some]. lia. }
    destruct (l0Words_ m <=? cur * 64 + k) eqn:El; [lia|].
    rewrite Hx. simpl_bind. eexists. split; [done|].
    destruct (countr_zero_spec x Hxu Hx0) as (Hc & Hc1 & Hc2).
    set (c := countr_zero x) in *. right. split; [lia|]. split.
    + rewrite <- Hc1. symmetry. apply bit0; [lia|done|done].
    + intros j Hj. destruct (decide (j < (cur * 64 + k) * 64)).
      * eapply (summary_clear_range lo (cur * 64 + k)); [lia| |lia].
        intros w Hw'. specialize (Hk2 (w - cur * 64) ltac:(lia)).
        rewrite Hbit in Hk2 by lia. replace (cur * 64 + (w - cur * 64)) with w in Hk2 by lia.
        destruct (wordBit (l1_ m) w); [|done]. simpl in Hk2. lia.
      * specialize (Hc2 (j - (cur * 64 + k) * 64) ltac:(lia)).
        rewrite (bit0 (cur * 64 + k)) in Hc2 by (lia || done).
        by replace ((cur * 64 + k) * 64 + (j - (cur * 64 + k) * 64)) with j in Hc2 by lia.
Qed.

Lemma findSetBitAbove_found idx :
  0 <= idx < numSlots_ m →
  ∃ r, findSetBitAbove m idx = Some r ∧ found_above P (idx + 1) r.
Proof.
  intros Hi. destruct (split64 idx) as [Hs Hm]. unfold findSetBitAbove.
  set (w := idx / 64) in *. set (b := idx mod 64) in *.
  assert (Hw : 0 <= w < l0Words_ m).
  { pose proof (bo_cover0 _ _ Hb). lia. }
  destruct (aget_in (l0_ m) w) as [x Hx]; [rewrite <- (bo_len0 _ _ Hb); lia|].
  rewrite Hx. simpl_bind. set (mask := if b =? 64 - 1 then _ else _).
  assert (Hmask : ∀ n, 0 <= n < 64 → Z.testbit mask n = (b <? n)).
  { intros n Hn. unfold mask. destruct (b =? 64 - 1) eqn:E.
    - rewrite Z.bits_0. symmetry. apply Z.ltb_ge. lia.
    - replace (Z.shiftl 2 b) with (Z.shiftl 1 (b + 1)).
      2: { rewrite !Z.shiftl_mul_pow2 by lia. rewrite Z.pow_add_r by lia. lia. }
      rewrite u64_id by (apply in_u64_bit; lia).
      rewrite not64_testbit, ones_mask_testbit by lia. lia. }
  assert (Hbit : ∀ n, 0 <= n < 64 → Z.testbit (Z.land x mask) n = P (w * 64 + n) && (b <? n)).
  { intros n Hn. rewrite Z.land_spec, Hmask by done. by rewrite (bit0 w n x) by (lia || done). }
  pose proof (in_u64_land x mask (word0 _ _ Hx)) as Hu.
  destruct (Z.land x mask =? 0) eqn:E0; cbn [negb].
  - assert (Hz : Z.land x mask = 0) by lia.
    assert (Hin : ∀ j, idx + 1 <= j < (w + 1) * 64 → P j = false).
    { intros j Hj. specialize (Hbit (j - w * 64) ltac:(lia)). rewrite Hz, Z.bits_0 in Hbit.
      replace (w * 64 + (j - w * 64)) with j in Hbit by lia.
      destruct (P j); [|done]. simpl in Hbit. lia. }
    destruct (l0Words_ m <=? w + 1) eqn:El.
    + exists kNotFound. split; [done|]. left. split; [done|]. intros j Hj.
      destruct (P j) eqn:E; [|done].
      assert (j < (w + 1) * 64); [|rewrite <- E; apply Hin; lia].
      rewrite <- (bo_bits _ _ Hb) in E by lia. apply wordBit_bound in E.
      rewrite <- (bo_len0 _ _ Hb) in E. lia.
    + destruct (split64 (w + 1)) as [Hs1 Hm1].
      destruct (aboveLoop_ok (S (length (l1_ m))) ((w + 1) / 64)
                  (not64 (Z.shiftl 1 ((w + 1) mod 64) - 1)) (w + 1)) as (r & Hr & Hf).
      * lia.
      * lia.
      * intros n Hn. rewrite not64_testbit, ones_mask_testbit by lia. lia.
      * rewrite (bo_len1 _ _ Hb). lia.
      * exists r. split; [done|]. destruct Hf as [[-> Hn]|(Hr1 & Hr2 & Hr3)].
        -- left. split; [done|]. intros j Hj.
           destruct (decide (j < (w + 1) * 64)); [apply Hin; lia|apply Hn; lia].
        -- right. split; [lia|]. split; [done|]. intros j Hj.
           destruct (decide (j < (w + 1) * 64)); [apply Hin; lia|apply Hr3; lia].
  - destruct (countr_zero_spec _ Hu ltac:(lia)) as (Hk & Hk1 & Hk2).
    set (k := countr_zero (Z.land x mask)) in *.
    rewrite Hbit in Hk1 by done. apply andb_true_iff in Hk1 as [HP Hlt].
    eexists. split; [done|]. right. split; [lia|]. split; [done|].
    intros j Hj. specialize (Hk2 (j - w * 64) ltac:(lia)). rewrite Hbit in Hk2 by lia.
    replace (w * 64 + (j - w * 64)) with j in Hk2 by lia.
    destruct (P j); [|done]. simpl in Hk2. lia.
Qed.

Lemma belowLoop_ok fuel cur mask hi :
  0 <= cur < l1Words_ m → cur * 64 <= hi <= (cur + 1) * 64 →
  (∀ b, 0 <= b < 64 → Z.testbit mask b = (cur * 64 + b <? hi)) →
  (Z.to_nat cur < fuel)%nat →
  ∃ r, belowLoop fuel m cur mask = Some r ∧ found_below P (hi * 64) r.
Proof.
  revert cur mask hi. induction fuel as [|fuel IH]; intros cur mask hi Hcur Hhi Hmask Hf; [lia|].
  cbn [belowLoop].
  destruct (aget_in (l1_ m) cur) as [y Hy].
  { rewrite <- (bo_len1 _ _ Hb). lia. }
  rewrite Hy. simpl_bind.
  assert (Hbit : ∀ b, 0 <= b < 64 → Z.testbit (Z.land y mask) b =
                       wordBit (l1_ m) (cur * 64 + b) && (cur * 64 + b <? hi)).
  { intros b H0. rewrite Z.land_spec, Hmask by done. by rewrite (wordBit_word _ _ _ _ H0 Hy). }
  pose proof (in_u64_land y mask (word1 _ _ Hy)) as Hw.
  destruct (Z.land y mask =? 0) eqn:E0; cbn [negb].
  - assert (Hz : Z.land y mask = 0) by lia.
    assert (Hclr : ∀ j, cur * 64 * 64 <= j < hi * 64 → P j = false).
    { apply summary_clear_range; [lia|]. intros w Hw'.
      specialize (Hbit (w - cur * 64) ltac:(lia)).
      rewrite Hz, Z.bits_0 in Hbit. replace (cur * 64 + (w - cur * 64)) with w in Hbit by lia.
      destruct (wordBit (l1_ m) w); [|done]. simpl in Hbit. lia. }
    destruct (cur =? 0) eqn:Ec.
    { exists kNotFound. split; [done|]. left. split; [done|].
      intros j Hj. apply Hclr. lia. }
    destruct (IH (cur - 1) (not64 0) (cur * 64)) as (r & Hr & Hf'); [lia|lia| |lia|].
    { intros b H0. rewrite not64_0_testbit by done. symmetry. apply Z.ltb_lt. lia. }
    exists r. split; [done|]. destruct Hf' as [[-> Hn]|(Hr1 & Hr2 & Hr3)].
    + left. split; [done|]. intros j Hj.
      destruct (decide (cur * 64 * 64 <= j)); [apply Hclr; lia|apply Hn; lia].
    + right. split; [lia|]. split; [done|]. intros j Hj.
      destruct (decide (cur * 64 * 64 <= j)); [apply Hclr; lia|apply Hr3; lia].
  - destruct (countl_zero_spec _ Hw ltac:(lia)) as (Hk & Hk1 & Hk2).
    change (64 - 1) with 63. set (k := 63 - countl_zero (Z.land y mask)) in *.
    rewrite Hbit in Hk1 by done. apply andb_true_iff in Hk1 as [Hs Hge].
    destruct (summary_set (cur * 64 + k)) as (x & Hx & Hx0 & Hxu); [lia|done|].
    rewrite Hx. simpl_bind. eexists. split; [done|].
    destruct (countl_zero_spec x Hxu Hx0) as (Hc & Hc1 & Hc2).
    set (c := 63 - countl_zero x) in *. right. split; [lia|]. split.
    + rewrite <- Hc1. symmetry. apply bit0; [lia|done|done].
    + intros j Hj. destruct (decide ((cur * 64 + k + 1) * 64 <= j)).
      * eapply (summary_clear_range (cur * 64 + k + 1) hi); [lia| |lia].
        intros w Hw'. specialize (Hk2 (w - cur * 64) ltac:(lia)).
        rewrite Hbit in Hk2 by lia. replace (cur * 64 + (w - cur * 64)) with w in Hk2 by lia.
        destruct (wordBit (l1_ m) w); [|done]. simpl in Hk2. lia.
      * specialize (Hc2 (j - (cur * 64 + k) * 64) ltac:(lia)).
        rewrite (bit0 (cur * 64 + k)) in Hc2 by (lia || done).
        by replace ((cur * 64 + k) * 64 + (j - (cur * 64 + k) * 64)) with j in Hc2 by lia.
Qed.

Lemma findSetBitBelow_found idx :
  0 <= idx < numSlots_ m →
  ∃ r, findSetBitBelow m idx = Some r ∧ found_below P idx r.
Proof.
  intros Hi. destruct (split64 idx) as [Hs Hm]. unfold findSetBitBelow.
  set (w := idx / 64) in *. set (b := idx mod 64) in *.
  assert (Hw : 0 <= w < l0Words_ m).
  { pose proof (bo_cover0 _ _ Hb). lia. }
  destruct (aget_in (l0_ m) w) as [x Hx]; [rewrite <- (bo_len0 _ _ Hb); lia|].
  rewrite Hx. simpl_bind. set (mask := if b =? 0 then _ else _).
  assert (Hmask : ∀ n, 0 <= n < 64 → Z.testbit mask n = (n <? b)).
  { intros n Hn. unfold mask. destruct (b =? 0) eqn:E.
    - rewrite Z.bits_0. symmetry. apply Z.ltb_ge. lia.
    - by rewrite ones_mask_testbit by lia. }
  assert (Hbit : ∀ n, 0 <= n < 64 → Z.testbit (Z.land x mask) n = P (w * 64 + n) && (n <? b)).
  { intros n Hn. rewrite Z.land_spec, Hmask by done. by rewrite (bit0 w n x) by (lia || done). }
  pose proof (in_u64_land x mask (word0 _ _ Hx)) as Hu.
  destruct (Z.land x mask =? 0) eqn:E0; cbn [negb].
  - assert (Hz : Z.land x mask = 0) by lia.
    assert (Hin : ∀ j, w * 64 <= j < idx → P j = false).
    { intros j Hj. specialize (Hbit (j - w * 64) ltac:(lia)). rewrite Hz, Z.bits_0 in Hbit.
      replace (w * 64 + (j - w * 64)) with j in Hbit by lia.
      destruct (P j); [|done]. simpl in Hbit. lia. }
    destruct (w =? 0) eqn:El.
    + exists kNotFound. split; [done|]. left. split; [done|]. intros j Hj. apply Hin. lia.
    + destruct (split64 (w - 1)) as [Hs1 Hm1].
      set (l1mask := if _ =? 64 - 1 then not64 0 else _).
      pose proof (bo_cover1 _ _ Hb). pose proof (bo_len1 _ _ Hb).
      destruct (belowLoop_ok (length (l1_ m)) ((w - 1) / 64) l1mask w) as (r & Hr & Hf).
      * lia.
      * lia.
      * intros n Hn. unfold l1mask. destruct ((w - 1) mod 64 =? 64 - 1) eqn:E.
        -- rewrite not64_0_testbit by done. symmetry. apply Z.ltb_lt. lia.
        -- rewrite ones_mask_testbit by lia. lia.
      * lia.
      * exists r. split; [done|]. destruct Hf as [[-> Hn]|(Hr1 & Hr2 & Hr3)].
        -- left. split; [done|]. intros j Hj.
           destruct (decide (w * 64 <= j)); [apply Hin; lia|apply Hn; lia].
        -- right. split; [lia|]. split; [done|]. intros j Hj.
           destruct (decide (w * 64 <= j)); [apply Hin; lia|apply Hr3; lia].
  - destruct (countl_zero_spec _ Hu ltac:(lia)) as (Hk & Hk1 & Hk2).
    change (64 - 1) with 63. set (k := 63 - countl_zero (Z.land x mask)) in *.
    rewrite Hbit in Hk1 by done. apply andb_true_iff in Hk1 as [HP Hlt].
    eexists. split; [done|]. right. split; [lia|]. split; [done|].
    intros j Hj. specialize (Hk2 (j - w * 64) ltac:(lia)). rewrite Hbit in Hk2 by lia.
    replace (w * 64 + (j - w * 64)) with j in Hk2 by lia.
    destruct (P j); [|done]. simpl in Hk2. lia.
Qed.
End search.

(** ** Reference: the linear scan the bitset replaces *)

Fixpoint scanUp (P : Z → bool) (fuel : nat) (i : Z) : Z :=
  match fuel with
  | O => kNotFound
  | S fuel => if P i then i else scanUp P fuel (i + 1)
  end.

Fixpoint scanDown (P : Z → bool) (i : nat) : Z :=
  match i with
  | O => kNotFound
  | S i => if P (Z.of_nat i) then Z.of_nat i else scanDown P i
  end.

Lemma scanUp_found P fuel i r :
  found_above P i r → (∀ j, i + Z.of_nat fuel <= j → P j = false) → scanUp P fuel i = r.
Proof.
  revert i. induction fuel as [|fuel IH]; intros i Hf Hn; simpl.
  - destruct Hf as [[-> _]|(Hr & HP & _)]; [done|]. rewrite Hn in HP by lia. done.
  - destruct (P i) eqn:E.
    + destruct Hf as [[-> H]|(Hr & HP & H)]; [rewrite H in E by lia; done|].
      destruct (decide (r = i)); [done|]. rewrite H in E by lia. done.
    + apply IH; [|intros; apply Hn; lia].
      destruct Hf as [[-> H]|(Hr & HP & H)].
      * left. split; [done|]. intros; apply H; lia.
      * right. assert (r ≠ i) by congruence. split; [lia|]. split; [done|].
        intros; apply H; lia.
Qed.

Lemma scanDown_found P i r : found_below P (Z.of_nat i) r → scanDown P i = r.
Proof.
  induction i as [|i IH]; intros Hf; simpl.
  - destruct Hf as [[-> _]|(? & _)]; [done|lia].
  - destruct (P (Z.of_nat i)) eqn:E.
    + destruct Hf as [[-> H]|(Hr & HP & H)]; [rewrite H in E by lia; done|].
      destruct (decide (r = Z.of_nat i)); [done|]. rewrite H in E by lia. done.
    + apply IH. destruct Hf as [[-> H]|(Hr & HP & H)].
      * left. split; [done|]. intros; apply H; lia.
      * right. assert (r ≠ Z.of_nat i) by congruence. split; [lia|]. split; [done|].
        intros; apply H; lia.
Qed.

(** ** Setting and clearing a slot *)

Definition pset (P : Z → bool) (i : Z) (v : bool) : Z → bool :=
  λ j, if j =? i then v else P j.

Lemma wordBit_insert l w x x' j :
  aget l w = Some x →
  wordBit (<[Z.to_nat w := x']> l) j =
    if j / 64 =? w then Z.testbit x' (j mod 64) else wordBit l j.
Proof.
  intros [Hw Hx]%aget_Some. apply lookup_lt_Some in Hx. unfold wordBit.
  destruct (j / 64 =? w) eqn:E.
  - assert (j / 64 = w) as -> by lia. by rewrite aget_insert_eq by lia.
  - by rewrite aget_insert_ne by lia.
Qed.

Lemma setbit_wordBit l w b x j :
  0 <= w → 0 <= b < 64 → aget l w = Some x →
  wordBit (<[Z.to_nat w := Z.lor x (Z.shiftl 1 b)]> l) j
    = pset (wordBit l) (w * 64 + b) true j.
Proof.
  intros Hw Hb Hx. rewrite (wordBit_insert _ _ _ _ _ Hx). unfold pset.
  destruct (split64 j) as [Hj Hm]. destruct (j / 64 =? w) eqn:E.
  - assert (Hd : j / 64 = w) by lia.
    rewrite Z.lor_spec, bit_testbit by lia.
    assert (Hjb : wordBit l j = Z.testbit x (j mod 64)) by (unfold wordBit; by rewrite Hd, Hx).
    destruct (j =? w * 64 + b) eqn:E2.
    + replace (b =? j mod 64) with true by lia. by rewrite orb_true_r.
    + replace (b =? j mod 64) with false by lia. by rewrite orb_false_r.
  - by replace (j =? w * 64 + b) with false by lia.
Qed.

Lemma clearbit_wordBit l w b x j :
  0 <= w → 0 <= b < 64 → aget l w = Some x →
  wordBit (<[Z.to_nat w := Z.land x (not64 (Z.shiftl 1 b))]> l) j
    = pset (wordBit l) (w * 64 + b) false j.
Proof.
  intros Hw Hb Hx. rewrite (wordBit_insert _ _ _ _ _ Hx). unfold pset.
  destruct (split64 j) as [Hj Hm]. destruct (j / 64 =? w) eqn:E.
  - assert (Hd : j / 64 = w) by lia.
    rewrite Z.land_spec, not64_testbit, bit_testbit by lia.
    assert (Hjb : wordBit l j = Z.testbit x (j mod 64)) by (unfold wordBit; by rewrite Hd, Hx).
    destruct (j =? w * 64 + b) eqn:E2.
    + replace (b =? j mod 64) with true by lia. by rewrite andb_false_r.
    + replace (b =? j mod 64) with false by lia. by rewrite andb_true_r.
  - by replace (j =? w * 64 + b) with false by lia.
Qed.

Lemma words_insert (l : list Z) w x' :
  (∀ i x, l !! i = Some x → in_u64 x) → in_u64 x' →
  ∀ i x, <[w := x']> l !! i = Some x → in_u64 x.
Proof.
  intros Hl Hx i x Hi. destruct (decide (w = i)) as [<-|Hne].
  - pose proof (lookup_lt_Some _ _ _ Hi) as Hlt. rewrite length_insert in Hlt.
    rewrite list_lookup_insert_eq in Hi by done. congruence.
  - rewrite list_lookup_insert_ne in Hi by done. by eapply Hl.
Qed.

(** The words that hold slot [i]. *)
Lemma slot_words m P i : bits_ok m P → 0 <= i < numSlots_ m →
  ∃ x y, aget (l0_ m) (i / 64) = Some x ∧ aget (l1_ m) (i / 64 / 64) = Some y ∧
    in_u64 x ∧ in_u64 y ∧ 0 <= i / 64 ∧ 0 <= i / 64 / 64.
Proof.
  intros Hb Hi. destruct (split64 i), (split64 (i / 64)).
  pose proof (bo_cover0 _ _ Hb). pose proof (bo_cover1 _ _ Hb).
  pose proof (bo_len0 _ _ Hb). pose proof (bo_len1 _ _ Hb).
  destruct (aget_in (l0_ m) (i / 64)) as [x Hx]; [lia|].
  destruct (aget_in (l1_ m) (i / 64 / 64)) as [y Hy]; [lia|].
  exists x, y. repeat split; try done; try lia.
  - apply (word0 m P Hb _ _ Hx).
  - apply (word0 m P Hb _ _ Hx).
  - apply (word1 m P Hb _ _ Hy).
  - apply (word1 m P Hb _ _ Hy).
Qed.

Lemma setOccupied_ok m P i :
  bits_ok m P → 0 <= i < numSlots_ m →
  ∃ w0 w1, setOccupied m i = Some (set_bits m w0 w1) ∧
           bits_ok (set_bits m w0 w1) (pset P i true).
Proof.
  intros Hb Hi. destruct (slot_words m P i Hb Hi) as (x & y & Hx & Hy & Hxu & Hyu & Hw & Hw1).
  destruct (split64 i) as [Hs Hm], (split64 (i / 64)) as [Hs1 Hm1].
  unfold setOccupied. rewrite Hx, Hy. simpl_bind.
  pose proof Hx as [_ Hxl%lookup_lt_Some]%aget_Some.
  pose proof Hy as [_ Hyl%lookup_lt_Some]%aget_Some.
  rewrite !aset_in by lia. simpl_bind.
  eexists _, _. split; [done|].
  destruct Hb as [B1 B2 B3 B4 B5 B6 B7 B8 B9].
  split; simpl; try rewrite length_insert; try done.
  - apply words_insert; [done|]. apply in_u64_lor; [done|]. by apply in_u64_bit.
  - apply words_insert; [done|]. apply in_u64_lor; [done|]. by apply in_u64_bit.
  - intros j Hj. rewrite setbit_wordBit by done. unfold pset. rewrite B7 by done.
    by rewrite <- Hs.
  - intros j Hj. unfold pset. destruct (j =? i) eqn:E; [lia|]. by apply B8.
  - intros w Hw'. rewrite setbit_wordBit by done. rewrite <- Hs1. unfold pset.
    destruct (w =? i / 64) eqn:E.
    + split; [|done]. intros _. exists (i mod 64). split; [done|].
      by replace (w * 64 + i mod 64 =? i) with true by lia.
    + rewrite B9 by done. split; intros (b & Hb & HP); exists b; (split; [done|]).
      * by replace (w * 64 + b =? i) with false by lia.
      * by replace (w * 64 + b =? i) with false in HP by lia.
Qed.

Lemma clearOccupied_ok m P i :
  bits_ok m P → 0 <= i < numSlots_ m →
  ∃ w0 w1, clearOccupied m i = Some (set_bits m w0 w1) ∧
           bits_ok (set_bits m w0 w1) (pset P i false).
Proof.
  intros Hb Hi. destruct (slot_words m P i Hb Hi) as (x & y & Hx & Hy & Hxu & Hyu & Hw & Hw1).
  destruct (split64 i) as [Hs Hm], (split64 (i / 64)) as [Hs1 Hm1].
  unfold clearOccupied. rewrite Hx. simpl_bind.
  pose proof Hx as [_ Hxl%lookup_lt_Some]%aget_Some.
  pose proof Hy as [_ Hyl%lookup_lt_Some]%aget_Some.
  set (x' := Z.land x (not64 (Z.shiftl 1 (i mod 64)))).
  assert (Hxu' : in_u64 x') by (by apply in_u64_land).
  rewrite aset_in by lia. simpl_bind.
  destruct Hb as [B1 B2 B3 B4 B5 B6 B7 B8 B9].
  (* what the rewritten word holds *)
  assert (Hx' : ∀ b, 0 <= b < 64 → Z.testbit x' b = pset P i false (i / 64 * 64 + b)).
  { intros b Hb. unfold x'. rewrite Z.land_spec, not64_testbit, bit_testbit by lia.
    rewrite <- (wordBit_word _ _ _ _ Hb Hx), B7 by lia. unfold pset.
    destruct (i / 64 * 64 + b =? i) eqn:E.
    - replace (i mod 64 =? b) with true by lia. by rewrite andb_false_r.
    - replace (i mod 64 =? b) with false by lia. by rewrite andb_true_r. }
  assert (Hother : ∀ w, 0 <= w → w ≠ i / 64 → ∀ b, 0 <= b < 64 →
            pset P i false (w * 64 + b) = P (w * 64 + b)).
  { intros w Hw' Hne b Hb. unfold pset. by replace (w * 64 + b =? i) with false by lia. }
  assert (Hbits : ∀ j, 0 <= j → wordBit (<[Z.to_nat (i / 64) := x']> (l0_ m)) j = pset P i false j).
  { intros j Hj. unfold x'. rewrite clearbit_wordBit by done. unfold pset.
    rewrite B7 by done. by rewrite <- Hs. }
  assert (Hrange : ∀ j, 0 <= j → pset P i false j = true → j < numSlots_ m).
  { intros j Hj. unfold pset. destruct (j =? i); [done|]. by apply B8. }
  destruct (x' =? 0) eqn:E0.
  - assert (Hz : x' = 0) by lia. rewrite Hy. simpl_bind.
    rewrite aset_in by lia. simpl_bind.
    eexists _, _. split; [done|]. split; simpl; try rewrite length_insert; try done.
    + by apply words_insert.
    + apply words_insert; [done|]. by apply in_u64_land.
    + intros w Hw'. rewrite clearbit_wordBit by done. rewrite <- Hs1. unfold pset at 1.
      destruct (w =? i / 64) eqn:E.
      * split; [done|]. intros (b & Hb & HP). assert (w = i / 64) as -> by lia.
        rewrite <- Hx' in HP by done. by rewrite Hz, Z.bits_0 in HP.
      * rewrite B9 by done. split; intros (b & Hb & HP); exists b; (split; [done|]);
          rewrite Hother in * by (lia || done); done.
  - eexists _, _. split; [done|]. split; simpl; try rewrite length_insert; try done.
    + by apply words_insert.
    + intros w Hw'. rewrite B9 by done. destruct (decide (w = i / 64)) as [->|Hne].
      * split; intros _.
        -- apply nonzero_testbit in Hxu' as [H _].
           destruct H as (b & Hb & Ht); [lia|]. exists b. split; [done|]. by rewrite <- Hx'.
        -- apply B9; [done|]. apply nonzero_testbit in Hxu' as [H _].
           destruct H as (b & Hb & Ht); [lia|].
           apply B9; [done|]. exists b. split; [done|]. rewrite Hx' in Ht by done.
           unfold pset in Ht. by destruct (_ =? i).
      * split; intros (b & Hb & HP); exists b; (split; [done|]);
          rewrite Hother in * by (lia || done); done.
Qed.

(** * The level map represents an array of queues *)

Record config_ok (c : BookConfig) : Prop := {
  co_tick : 0 < cfg_tick c;
  co_min : INT64_MIN < cfg_minPrice c;
  co_order : cfg_minPrice c <= cfg_maxPrice c;
  co_max : cfg_maxPrice c < INT64_MAX;
  co_width : cfg_maxPrice c - cfg_minPrice c < INT64_MAX;
  co_orders : 0 < cfg_maxOrders c <= 2305843009213693952
}.

Definition slots (c : BookConfig) : Z := (cfg_maxPrice c - cfg_minPrice c) / cfg_tick c + 1.
Definition priceAt (c : BookConfig) (i : Z) : Z := cfg_minPrice c + i * cfg_tick c.

(** [ahead s j i]: slot [j] has a better price than slot [i] on side [s]. *)
Definition ahead (s : Side) (j i : Z) : Prop :=
  match s with Buy => i < j | Sell => j < i end.

#[export] Instance ahead_dec s j i : Decision (ahead s j i).
Proof. destruct s; simpl; apply _. Defined.

Definition occ (Q : list (list ptr)) (i : Z) : bool :=
  match Q !! Z.to_nat i with Some (_ :: _) => true | _ => false end.

Definition best_ok (c : BookConfig) (s : Side) (P : Z → bool) (b : Z) : Prop :=
  (b = emptySentinel s ∧ ∀ i, 0 <= i → P i = false) ∨
  (∃ i, 0 <= i < slots c ∧ P i = true ∧ b = priceAt c i ∧
        ∀ j, 0 <= j → ahead s j i → P j = false).

(** [lm_pre] leaves the best price open; [lm_ok] adds it. *)
Record lm_pre (c : BookConfig) (h : heap) (s : Side) (m : LevelMap)
    (Q : list (list ptr)) (P : Z → bool) : Prop := {
  lm_side : side_ m = s;
  lm_min : minPrice_ m = cfg_minPrice c;
  lm_max : maxPrice_ m = cfg_maxPrice c;
  lm_tick : tick_ m = cfg_tick c;
  lm_slots : numSlots_ m = slots c;
  lm_lenQ : Z.of_nat (length Q) = slots c;
  lm_levels : ∀ i qs, Q !! i = Some qs → ∃ lv, levels_ m !! i = Some lv ∧
    level_ok h (s, i) lv qs ∧ price_ lv = priceAt c (Z.of_nat i);
  lm_bits : bits_ok m P;
  lm_lenL : length (levels_ m) = length Q
}.

Record lm_ok (c : BookConfig) (h : heap) (s : Side) (m : LevelMap)
    (Q : list (list ptr)) (P : Z → bool) : Prop := {
  lm_parts : lm_pre c h s m Q P;
  lm_best : best_ok c s P (best_ m)
}.

Section config.
Context (c : BookConfig) (Hc : config_ok c).

Lemma slots_range : 1 <= slots c <= 9223372036854775807.
Proof.
  destruct Hc as [Ht Hmin Ho Hmax Hw _]. unfold slots, INT64_MAX in *.
  pose proof (Z.div_pos (cfg_maxPrice c - cfg_minPrice c) (cfg_tick c)).
  pose proof (Z.div_le_upper_bound (cfg_maxPrice c - cfg_minPrice c) (cfg_tick c)
                (cfg_maxPrice c - cfg_minPrice c)).
  nia.
Qed.

Lemma priceAt_range i : 0 <= i < slots c → cfg_minPrice c <= priceAt c i <= cfg_maxPrice c.
Proof.
  intros Hi. destruct Hc as [Ht Hmin Ho Hmax Hw _]. unfold slots, priceAt in *.
  pose proof (Z.mul_div_le (cfg_maxPrice c - cfg_minPrice c) (cfg_tick c)).
  nia.
Qed.

Lemma priceAt_inj i j : priceAt c i = priceAt c j → i = j.
Proof. destruct Hc as [Ht _ _ _ _ _]. unfold priceAt. nia. Qed.

Lemma priceAt_not_sentinel s i : 0 <= i < slots c → priceAt c i ≠ emptySentinel s.
Proof.
  intros Hi. pose proof (priceAt_range i Hi). destruct Hc.
  destruct s; unfold emptySentinel, kBidEmpty, kAskEmpty; lia.
Qed.

Section map.
Context (h : heap) (s : Side) (m : LevelMap) (Q : list (list ptr)) (P : Z → bool).
Context (Hm : lm_pre c h s m Q P).

Lemma inRange_spec p : inRange m p = (cfg_minPrice c <=? p) && (p <=? cfg_maxPrice c).
Proof. unfold inRange. by rewrite (lm_min _ _ _ _ _ _ Hm), (lm_max _ _ _ _ _ _ Hm). Qed.

Lemma index_priceAt i : 0 <= i < slots c → index m (priceAt c i) = i.
Proof.
  intros Hi. unfold index.
  rewrite (lm_min _ _ _ _ _ _ Hm), (lm_tick _ _ _ _ _ _ Hm).
  pose proof (priceAt_range i Hi). pose proof slots_range. destruct Hc as [Ht Hmin Ho Hmax Hw _].
  rewrite s64_id.
  2: { unfold in_i64, INT64_MAX, INT64_MIN in *. lia. }
  unfold priceAt. replace (_ - cfg_minPrice c) with (i * cfg_tick c) by lia.
  rewrite Z.quot_mul by lia. apply u64_id. split; lia.
Qed.

Lemma levelAt_priceAt i : 0 <= i < slots c → levelAt m (priceAt c i) = Some i.
Proof.
  intros Hi. unfold levelAt. rewrite inRange_spec, index_priceAt by done.
  pose proof (priceAt_range i Hi). case_match; [done|lia].
Qed.

Lemma level_slot i qs : Q !! i = Some qs → 0 <= Z.of_nat i < slots c.
Proof. intros H%lookup_lt_Some. rewrite <- (lm_lenQ _ _ _ _ _ _ Hm). lia. Qed.

Lemma level_get i qs : Q !! i = Some qs →
  ∃ lv, aget (levels_ m) (Z.of_nat i) = Some lv ∧
        level_ok h (s, i) lv qs ∧ price_ lv = priceAt c (Z.of_nat i).
Proof.
  intros HQ. destruct (lm_levels _ _ _ _ _ _ Hm i qs HQ) as (lv & Hlv & Hok & Hp).
  exists lv. by rewrite aget_nat.
Qed.

(** [nextOccupied] from the price of slot [i]: the nearest occupied slot behind it. *)
Lemma nextOccupied_ok i :
  0 <= i < slots c →
  ∃ b, nextOccupied m (priceAt c i) = Some b ∧
    ((b = emptySentinel s ∧ ∀ j, 0 <= j → ahead s i j → P j = false) ∨
     (∃ k, 0 <= k < slots c ∧ P k = true ∧ b = priceAt c k ∧ ahead s i k ∧
           ∀ j, 0 <= j → ahead s i j → ahead s j k → P j = false)).
Proof.
  intros Hi. unfold nextOccupied. rewrite index_priceAt by done.
  pose proof slots_range as Hsl. pose proof (lm_bits _ _ _ _ _ _ Hm) as Hb.
  pose proof (lm_slots _ _ _ _ _ _ Hm) as Hns.
  assert (Hend : ∀ k, 0 <= k → P k = true →
    0 <= k < slots c ∧ (lv ← aget (levels_ m) k; Some (price_ lv)) = Some (priceAt c k)).
  { intros k Hk HP. pose proof (bo_range _ _ Hb k Hk HP) as Hlt.
    split; [lia|]. destruct (lookup_lt_is_Some_2 Q (Z.to_nat k)) as [qs HQ].
    { pose proof (lm_lenQ _ _ _ _ _ _ Hm). lia. }
    destruct (level_get _ _ HQ) as (lv & Hlv & _ & Hp).
    rewrite Z2Nat.id in Hlv, Hp by done. rewrite Hlv. simpl. by rewrite Hp. }
  rewrite (lm_side _ _ _ _ _ _ Hm). destruct s.
  - destruct (findSetBitBelow_found m P Hb i) as (r & -> & Hr); [lia|]. simpl_bind.
    destruct Hr as [[-> Hn]|(Hr & HP & Hn)].
    + eexists. split; [done|]. left. split; [done|]. intros j Hj Ha. simpl in Ha. apply Hn. lia.
    + destruct (Hend r ltac:(lia) HP) as [Hrs Hlv].
      destruct (r =? kNotFound) eqn:E; [unfold kNotFound in E; lia|].
      exists (priceAt c r). split; [done|]. right. exists r. simpl.
      repeat split; try done; try lia. intros j Hj H1 H2. apply Hn. lia.
  - destruct (findSetBitAbove_found m P Hb i) as (r & -> & Hr); [lia|]. simpl_bind.
    destruct Hr as [[-> Hn]|(Hr & HP & Hn)].
    + eexists. split; [done|]. left. split; [done|]. intros j Hj Ha. simpl in Ha. apply Hn. lia.
    + destruct (Hend r ltac:(lia) HP) as [Hrs Hlv].
      destruct (r =? kNotFound) eqn:E; [unfold kNotFound in E; lia|].
      exists (priceAt c r). split; [done|]. right. exists r. simpl.
      repeat split; try done; try lia. intros j Hj H1 H2. apply Hn. lia.
Qed.
End map.

Lemma hasBest_spec h s m Q P :
  lm_ok c h s m Q P →
  hasBest m = true ↔ ∃ i, 0 <= i ∧ P i = true.
Proof.
  intros [Hm Hbest]. unfold hasBest. rewrite (lm_side _ _ _ _ _ _ Hm).
  destruct Hbest as [[-> Hn]|(i & Hi & HP & -> & _)].
  - rewrite Z.eqb_refl. split; [done|]. intros (i & Hi & HP). by rewrite Hn in HP.
  - pose proof (priceAt_not_sentinel s i Hi). split; [|lia]. intros _.
    exists i. split; [lia|done].
Qed.
End config.


(** ** The operations *)

Section ops.
Context (c : BookConfig) (Hc : config_ok c).
Implicit Types (h : heap) (s : Side) (m : LevelMap) (Q : list (list ptr)) (P : Z → bool).

Lemma bits_ok_ext m m' P P' :
  (∀ i, 0 <= i → P' i = P i) →
  numSlots_ m' = numSlots_ m → l0Words_ m' = l0Words_ m → l1Words_ m' = l1Words_ m →
  l0_ m' = l0_ m → l1_ m' = l1_ m → bits_ok m P → bits_ok m' P'.
Proof.
  intros HP E1 E2 E3 E4 E5 [B1 B2 B3 B4 B5 B6 B7 B8 B9].
  split; rewrite ?E1, ?E2, ?E3, ?E4, ?E5; try done.
  - intros i Hi. rewrite HP by done. by apply B7.
  - intros i Hi. rewrite HP by done. by apply B8.
  - intros w Hw. rewrite B9 by done.
    split; intros (b & Hb & Hp); exists b; (split; [done|]); rewrite HP in * by lia; done.
Qed.

Lemma best_ok_ext s P P' b :
  (∀ i, 0 <= i → P' i = P i) → best_ok c s P b → best_ok c s P' b.
Proof.
  intros HP [[-> Hn]|(i & Hi & Hp & -> & Hn)].
  - left. split; [done|]. intros i Hi. rewrite HP by done. by apply Hn.
  - right. exists i. rewrite HP by lia. repeat split; try done; try lia.
    intros j Hj Ha. rewrite HP by done. by apply Hn.
Qed.

Lemma lm_ok_ext h s m Q P P' :
  (∀ i, 0 <= i → P' i = P i) → lm_ok c h s m Q P → lm_ok c h s m Q P'.
Proof.
  intros HP [[L1 L2 L3 L4 L5 L6 L7 L8 L10] L9]. split; [split; try done|].
  - by eapply bits_ok_ext.
  - by eapply best_ok_ext.
Qed.

Lemma lm_ok_frame h h' s m Q P :
  (∀ q, q ∈ concat Q → hget h' q = hget h q) → lm_ok c h s m Q P → lm_ok c h' s m Q P.
Proof.
  intros Hx [[L1 L2 L3 L4 L5 L6 L7 L8 L10] L9]. split; [|done]. split; try done.
  intros i qs HQ. destruct (L7 i qs HQ) as (lv & Hlv & Hok & Hp).
  exists lv. split; [done|]. split; [|done]. eapply level_ok_ext; [|done].
  intros q Hq. apply Hx, elem_of_concat. eauto.
Qed.

(** Replacing one level, with a heap that other levels do not notice. *)
Lemma lm_ok_level h h' s m Q P i qs qs' lv' :
  lm_ok c h s m Q P → Q !! i = Some qs →
  (∀ j b q, j ≠ i → Q !! j = Some b → q ∈ b → hget h' q = hget h q) →
  level_ok h' (s, i) lv' qs' → price_ lv' = priceAt c (Z.of_nat i) →
  lm_ok c h' s (set_levels m (<[i := lv']> (levels_ m))) (<[i := qs']> Q) P.
Proof.
  intros Hm HQ Hx Hlv Hp. destruct Hm as [[L1 L2 L3 L4 L5 L6 L7 L8 L10] L9].
  split; [|done]. split; simpl; try done.
  - by rewrite length_insert.
  - intros j b Hj. destruct (decide (i = j)) as [<-|Hne].
    + pose proof (lookup_lt_Some _ _ _ HQ). rewrite list_lookup_insert_eq in Hj by done.
      simplify_eq. exists lv'. destruct (L7 i qs HQ) as (lv & Hlv0 & _).
      rewrite list_lookup_insert_eq by (by eapply lookup_lt_Some). done.
    + rewrite list_lookup_insert_ne in Hj by done. rewrite list_lookup_insert_ne by done.
      destruct (L7 j b Hj) as (lv & Hlv0 & Hok & Hp0). exists lv. split; [done|].
      split; [|done]. eapply level_ok_ext; [|done]. intros q Hq. by eapply Hx.
  - eapply bits_ok_ext; [| | | | | |exact L8]; done.
  - by rewrite !length_insert.
Qed.

Lemma levelUnlink_ok h s m Q P i l1 p l2 :
  lm_ok c h s m Q P → NoDup (concat Q) → Q !! i = Some (l1 ++ p :: l2) →
  ∃ m' h', levelUnlink m h (Z.of_nat i) p = Some (m', h') ∧
    lm_ok c h' s m' (<[i := l1 ++ l2]> Q) P ∧ links_only h h' (l1 ++ p :: l2).
Proof.
  intros Hm Hn HQ. destruct (level_get c h s m Q P (lm_parts _ _ _ _ _ _ Hm) _ _ HQ) as (lv & Hlv & Hok & Hp).
  destruct (unlink_ok _ _ _ _ _ _ Hok) as (h' & lv' & Hu & Hok' & Hp' & Hl).
  unfold levelUnlink. rewrite Hlv. simpl_bind. rewrite Hu. simpl_bind.
  rewrite aget_nat in Hlv. rewrite aset_nat by (by eapply lookup_lt_Some).
  eexists _, _. split; [done|]. split; [|done].
  eapply lm_ok_level; [done|done| |done|congruence].
  intros j b q Hne Hj Hq. unfold hget. rewrite (lo_other _ _ _ Hl); [done|].
  intros Hin. eapply (concat_disjoint Q i j); [done|done|done|done|done|done].
Qed.

Lemma levelReduce_ok h s m Q P i l1 p l2 o q :
  lm_ok c h s m Q P → NoDup (concat Q) → Q !! i = Some (l1 ++ p :: l2) →
  hget h p = Some o →
  ∃ m', levelReduce m (Z.of_nat i) q = Some m' ∧
    lm_ok c (<[p := SValue (set_remaining (o_remaining o - q) o)]> h) s m' Q P.
Proof.
  intros Hm Hn HQ Ho. destruct (level_get c h s m Q P (lm_parts _ _ _ _ _ _ Hm) _ _ HQ) as (lv & Hlv & Hok & Hp).
  unfold levelReduce. rewrite Hlv. simpl_bind.
  rewrite aget_nat in Hlv. rewrite aset_nat by (by eapply lookup_lt_Some).
  eexists. split; [done|].
  rewrite <- (list_insert_id Q i (l1 ++ p :: l2)) by done.
  eapply lm_ok_level; [done|done| |by apply reduce_ok|done].
  intros j b x Hne Hj Hx. apply hget_insert_ne. intros ->.
  eapply (concat_disjoint Q i j _ b x); [done|done|done|done|set_solver|done].
Qed.


(** Clearing the level at the best price moves the best to the nearest occupied
    level behind it; clearing another level leaves it alone. *)
Lemma onLevelEmptied_ok h s m Q P i :
  lm_ok c h s m Q P → 0 <= i < slots c →
  ∃ m', onLevelEmptied m (priceAt c i) = Some m' ∧ lm_ok c h s m' Q (pset P i false).
Proof.
  intros [Hm Hbest] Hi. unfold onLevelEmptied. rewrite (index_priceAt c Hc h s m Q P Hm i Hi).
  pose proof Hm as [L1 L2 L3 L4 L5 L6 L7 L8 L10].
  destruct (clearOccupied_ok m P i L8) as (w0 & w1 & -> & Hb'); [lia|]. simpl_bind.
  assert (Hpre : ∀ b, lm_pre c h s (set_best (set_bits m w0 w1) b) Q (pset P i false)).
  { intros b. split; simpl; try done. eapply bits_ok_ext; [| | | | | |exact Hb']; done. }
  cbn [set_bits best_]. destruct (priceAt c i =? best_ m) eqn:E; cbn [negb].
  - assert (Hah : ∀ j, 0 <= j → ahead s j i → P j = false).
    { destruct Hbest as [[Hs _]|(k & Hk & HPk & Hbk & Hn)].
      - exfalso. apply (priceAt_not_sentinel c Hc s i Hi). lia.
      - assert (k = i) as -> by (apply (priceAt_inj c Hc); lia). done. }
    destruct (nextOccupied_ok c Hc h s _ Q _ (Hpre (best_ m)) i Hi) as (b & Hb & Hcase).
    change (set_best (set_bits m w0 w1) (best_ m)) with (set_bits m w0 w1) in Hb.
    rewrite Hb. simpl_bind. eexists. split; [done|]. split; [done|]. simpl.
    destruct Hcase as [[-> Hn]|(k & Hk & HPk & -> & Hik & Hn)].
    + left. split; [done|]. intros j Hj. destruct (decide (ahead s i j)); [by apply Hn|].
      unfold pset. destruct (j =? i) eqn:Ej; [done|]. apply Hah; [done|].
      destruct s; simpl in *; lia.
    + right. exists k. repeat split; try done; try lia. intros j Hj Ha.
      destruct (decide (ahead s i j)); [by apply Hn|].
      unfold pset. destruct (j =? i) eqn:Ej; [done|]. apply Hah; [done|].
      destruct s; simpl in *; lia.
  - eexists. split; [done|]. split; [apply (Hpre (best_ m))|]. simpl.
    destruct Hbest as [[Hs Hn]|(k & Hk & HPk & Hbk & Hn)].
    + left. split; [done|]. intros j Hj. unfold pset. destruct (j =? i); [done|]. by apply Hn.
    + right. exists k. assert (k ≠ i) by (intros ->; lia). unfold pset.
      replace (k =? i) with false by lia. repeat split; try done; try lia.
      intros j Hj Ha. destruct (j =? i); [done|]. by apply Hn.
Qed.

Lemma addOrder_ok h s m Q i qs p o :
  lm_ok c h s m Q (occ Q) → NoDup (concat Q) → Q !! i = Some qs →
  hget h p = Some o → o_price o = priceAt c (Z.of_nat i) → p ∉ concat Q →
  Z.of_nat (length qs) + 1 < 18446744073709551616 →
  ∃ m' h', addOrder m h p = Some (m', h') ∧
    lm_ok c h' s m' (<[i := qs ++ [p]]> Q) (occ (<[i := qs ++ [p]]> Q)) ∧
    links_only h h' (qs ++ [p]).
Proof.
  intros Hlm Hn HQ Ho Hpr Hp Hlen. pose proof Hlm as [Hm Hbest].
  pose proof (level_slot c h s m Q _ Hm _ _ HQ) as Hi.
  destruct (level_get c h s m Q _ Hm _ _ HQ) as (lv & Hlv & Hok & Hplv).
  assert (Hpq : p ∉ qs) by (intros ?; apply Hp, elem_of_concat; eauto).
  destruct (enqueue_ok _ _ _ _ _ _ Hok Ho Hpq Hlen) as (h' & lv' & Henq & Hok' & Hp' & Hl).
  assert (Hp2 : ∃ o', hget h' p = Some o' ∧ o_price o' = o_price o).
  { destruct (links_only_order _ _ _ _ _ Hl Ho) as (o' & Ho' & Ha). exists o'.
    split; [done|]. by apply (f_equal ao_price) in Ha. }
  destruct Hp2 as (o' & Ho' & Hpo').
  unfold addOrder. rewrite Ho. simpl_bind.
  rewrite Hpr, (index_priceAt c Hc h s m Q _ Hm _ Hi), Hlv. simpl_bind.
  rewrite Nat2Z.id, (lm_side _ _ _ _ _ _ Hm), Henq. simpl_bind.
  rewrite aget_nat in Hlv. rewrite aset_nat by (by eapply lookup_lt_Some).
  simpl_bind.
  set (Q' := <[i := qs ++ [p]]> Q).
  assert (HQ' : ∀ j, 0 <= j → occ Q' j = pset (occ Q) (Z.of_nat i) true j).
  { intros j Hj. unfold occ, pset, Q'. destruct (j =? Z.of_nat i) eqn:E.
    - assert (j = Z.of_nat i) as -> by lia. rewrite Nat2Z.id.
      rewrite list_lookup_insert_eq by (by eapply lookup_lt_Some). by destruct qs.
    - by rewrite list_lookup_insert_ne by lia. }
  assert (Hlm1 : lm_ok c h' s (set_levels m (<[i := lv']> (levels_ m))) Q' (occ Q)).
  { eapply lm_ok_level; [done|done| |done|congruence].
    intros j b q Hne Hj Hq. unfold hget. rewrite (lo_other _ _ _ Hl); [done|].
    intros [Hin|Hin]%elem_of_app.
    - eapply (concat_disjoint Q i j); done.
    - apply Hp. apply elem_of_concat. exists j, b. split; [done|]. set_solver. }
  set (m1 := set_levels m (<[i := lv']> (levels_ m))) in *.
  assert (Hm2 : ∃ m2, (if levelEmpty lv then setOccupied m1 (Z.of_nat i) else Some m1) = Some m2 ∧
            best_ m2 = best_ m ∧ side_ m2 = s ∧
            ∀ b, lm_pre c h' s (set_best m2 b) Q' (occ Q') ).
  { pose proof Hlm1 as [[L1 L2 L3 L4 L5 L6 L7 L8 L10] L9].
    rewrite (levelEmpty_spec _ _ _ _ Hok). case_bool_decide as Hemp.
    - destruct (setOccupied_ok m1 (occ Q) (Z.of_nat i) L8) as (w0 & w1 & -> & Hb'); [lia|].
      eexists. split; [done|]. split; [done|]. split; [done|]. intros b. split; try done.
      eapply bits_ok_ext; [| | | | | |exact Hb']; done.
    - exists m1. split; [done|]. split; [done|]. split; [done|]. intros b. split; try done.
      eapply bits_ok_ext; [| | | | | |exact L8]; try done.
      intros j Hj. rewrite HQ' by done. unfold pset.
      destruct (j =? Z.of_nat i) eqn:E; [|done]. assert (j = Z.of_nat i) as -> by lia.
      unfold occ. rewrite Nat2Z.id, HQ. by destruct qs. }
  destruct Hm2 as (m2 & -> & Hb2 & Hs2 & Hpre). simpl_bind.
  rewrite Ho'. simpl_bind. rewrite Hpo', Hpr, Hb2.
  eexists _, _. split; [done|]. split; [|done].
  assert (Hbest2 : best_ok c s (occ Q')
    (if isBetter m2 (priceAt c (Z.of_nat i)) (best_ m) then priceAt c (Z.of_nat i) else best_ m)).
  { eapply best_ok_ext; [exact HQ'|]. unfold isBetter. rewrite Hs2.
    pose proof (priceAt_range c Hc (Z.of_nat i) Hi) as Hpri. pose proof (co_tick _ Hc) as Htick.
    destruct Hbest as [[-> Hno]|(k & Hk & HPk & -> & Hno)].
    - replace (match s with Buy => _ | Sell => _ end) with true.
      2: { destruct Hc, s; simpl; unfold kBidEmpty, kAskEmpty; lia. }
      right. exists (Z.of_nat i). unfold pset. rewrite Z.eqb_refl.
      repeat split; try done; try lia. intros j Hj Ha.
      replace (j =? Z.of_nat i) with false by (destruct s; simpl in Ha; lia). by apply Hno.
    - assert (Hcmp : (match s with Buy => priceAt c k <? priceAt c (Z.of_nat i)
                             | Sell => priceAt c (Z.of_nat i) <? priceAt c k end)
                     = bool_decide (ahead s (Z.of_nat i) k)).
      { unfold priceAt. destruct s; simpl; case_bool_decide; nia. }
      rewrite Hcmp. case_bool_decide as Hah.
      + right. exists (Z.of_nat i). unfold pset at 1. rewrite Z.eqb_refl.
        repeat split; try done; try lia. intros j Hj Ha. unfold pset.
        replace (j =? Z.of_nat i) with false by (destruct s; simpl in Ha; lia).
        apply Hno; [done|]. destruct s; simpl in *; lia.
      + right. exists k. unfold pset at 1. split; [done|]. split; [by destruct (k =? _)|].
        split; [done|]. intros j Hj Ha. unfold pset.
        destruct (j =? Z.of_nat i) eqn:Ej; [|by apply Hno].
        exfalso. apply Hah. by replace (Z.of_nat i) with j by lia. }
  destruct (isBetter m2 _ _).
  - split; [apply Hpre|done].
  - split; [|by rewrite Hb2]. specialize (Hpre (best_ m2)). by destruct m2.
Qed.

Lemma levelMapNew_ok h s :
  lm_ok c h s (levelMapNew s (cfg_minPrice c) (cfg_maxPrice c) (cfg_tick c))
    (replicate (Z.to_nat (slots c)) []) (occ (replicate (Z.to_nat (slots c)) [])).
Proof.
  set (Q := replicate _ _).
  assert (Hocc : ∀ i, occ Q i = false).
  { intros i. unfold occ. destruct (Q !! Z.to_nat i) as [qs|] eqn:E; [|done].
    apply lookup_replicate in E as [-> _]. done. }
  pose proof (slots_range c Hc) as Hsl. destruct Hc as [Ht Hmin Hord Hmax Hw Hno].
  unfold levelMapNew.
  assert (Hns : u64 (u64 (Z.quot (s64 (cfg_maxPrice c - cfg_minPrice c)) (cfg_tick c)) + 1) = slots c).
  { rewrite s64_id by (unfold in_i64, INT64_MAX, INT64_MIN in *; lia).
    rewrite Z.quot_div_nonneg by lia. unfold slots in *.
    rewrite (u64_id (_ / _)) by (split; lia). apply u64_id. split; lia. }
  rewrite Hns. set (n := slots c) in *.
  rewrite (u64_id (n + 64 - 1)) by (split; lia). set (w := (n + 64 - 1) / 64).
  assert (Hwd : n <= w * 64 ∧ 0 <= w <= n).
  { destruct (split64 (n + 64 - 1)). unfold w. lia. }
  rewrite (u64_id (w + 64 - 1)) by (split; lia). set (w1 := (w + 64 - 1) / 64).
  assert (Hwd1 : w <= w1 * 64 ∧ 0 <= w1).
  { destruct (split64 (w + 64 - 1)). unfold w1. lia. }
  assert (Hzero : ∀ k i, wordBit (replicate k 0) i = false).
  { intros k i. unfold wordBit. destruct (aget _ _) as [x|] eqn:E; [|done].
    apply aget_Some in E as [_ [-> _]%lookup_replicate]. apply Z.bits_0. }
  assert (Hwords : ∀ k i (x : Z), replicate k 0 !! i = Some x → in_u64 x).
  { intros k i x [-> _]%lookup_replicate. split; lia. }
  split; [split|]; simpl; try done.
  - unfold Q. rewrite length_replicate. lia.
  - intros i qs Hi. pose proof (lookup_lt_Some _ _ _ Hi) as Hlt.
    unfold Q in Hi, Hlt. rewrite length_replicate in Hlt.
    apply lookup_replicate in Hi as [-> _].
    exists (initLevel (priceAt c (Z.of_nat i))). split.
    + rewrite list_lookup_fmap, lookup_seq_lt by done. simpl. f_equal. f_equal.
      pose proof (priceAt_range c ltac:(by split) (Z.of_nat i) ltac:(lia)) as Hp.
      unfold priceAt in *. unfold INT64_MIN, INT64_MAX in *.
      rewrite (s64_id (_ * _)) by (unfold in_i64, INT64_MIN, INT64_MAX; lia).
      apply s64_id. unfold in_i64, INT64_MIN, INT64_MAX. lia.
    + split; [|done]. apply initLevel_ok.
  - split; simpl; try rewrite length_replicate; try lia; try apply Hwords.
    + intros i Hi. by rewrite Hzero, Hocc.
    + intros i Hi. by rewrite Hocc.
    + intros i Hi. rewrite Hzero. split; [done|]. intros (b & _ & Hb). by rewrite Hocc in Hb.
  - unfold Q. by rewrite length_fmap, length_seq, length_replicate.
  - left. split; [done|]. intros. apply Hocc.
Qed.
End ops.

(** * The bitset over a history of set and clear *)

Inductive BitOp := BSet (i : Z) | BClear (i : Z).

Definition bitStep (m : LevelMap) (o : BitOp) : option LevelMap :=
  match o with BSet i => setOccupied m i | BClear i => clearOccupied m i end.

Definition bitSpec (P : Z → bool) (o : BitOp) : Z → bool :=
  match o with BSet i => pset P i true | BClear i => pset P i false end.

Definition bitIn (n : Z) (o : BitOp) : Prop :=
  match o with BSet i | BClear i => 0 <= i < n end.

Fixpoint bitRun (m : LevelMap) (ops : list BitOp) : option LevelMap :=
  match ops with [] => Some m | o :: ops => m ← bitStep m o; bitRun m ops end.

Lemma bitRun_ok m P ops :
  bits_ok m P → Forall (bitIn (numSlots_ m)) ops →
  ∃ m', bitRun m ops = Some m' ∧ bits_ok m' (foldl bitSpec P ops) ∧ numSlots_ m' = numSlots_ m.
Proof.
  intros Hb Hall. revert m P Hb Hall. induction ops as [|o ops IH]; intros m P Hb Hall; [by exists m|].
  apply Forall_cons in Hall as [Ho Hall]. simpl.
  assert (Hs : ∃ w0 w1, bitStep m o = Some (set_bits m w0 w1) ∧ bits_ok (set_bits m w0 w1) (bitSpec P o)).
  { destruct o; [by apply setOccupied_ok|by apply clearOccupied_ok]. }
  destruct Hs as (w0 & w1 & -> & Hb'). simpl.
  destruct (IH (set_bits m w0 w1) (bitSpec P o) Hb' Hall) as (m' & Hm' & Hb2 & Hn). by exists m'.
Qed.

Lemma occupiedBit_ok m P i :
  bits_ok m P → 0 <= i < numSlots_ m → occupiedBit m i = Some (P i).
Proof.
  intros Hb Hi. destruct (slot_words m P i Hb Hi) as (x & y & Hx & _ & Hxu & _ & Hw & _).
  destruct (split64 i) as [Hs Hm]. unfold occupiedBit. rewrite Hx. simpl. f_equal.
  rewrite <- (bo_bits _ _ Hb) by lia. unfold wordBit. rewrite Hx.
  pose proof (in_u64_land x (Z.shiftl 1 (i mod 64)) Hxu) as Hu.
  destruct (Z.testbit x (i mod 64)) eqn:Et.
  - assert (Z.land x (Z.shiftl 1 (i mod 64)) ≠ 0); [|lia].
    apply (nonzero_testbit _ Hu). exists (i mod 64). split; [done|].
    rewrite Z.land_spec, Et, bit_testbit by lia. simpl. lia.
  - assert (Z.land x (Z.shiftl 1 (i mod 64)) = 0); [|lia].
    apply Z.bits_inj'. intros n Hn. rewrite Z.land_spec, bit_testbit, Z.bits_0 by lia.
    destruct (i mod 64 =? n) eqn:En; [|by rewrite andb_false_r].
    assert (n = i mod 64) as -> by lia. by rewrite Et.
Qed.

(** C27: After any history of set and clear on the two-level bitset, both searches
    return what a linear scan of the occupied slots would: the nearest occupied
    slot above or below, or not-found. *)
Theorem bitset_search_is_linear_scan c s ops idx :
  config_ok c → Forall (bitIn (slots c)) ops → 0 <= idx < slots c →
  let P := foldl bitSpec (λ _, false) ops in
  ∃ m, bitRun (levelMapNew s (cfg_minPrice c) (cfg_maxPrice c) (cfg_tick c)) ops = Some m ∧
    findSetBitAbove m idx = Some (scanUp P (Z.to_nat (slots c - (idx + 1))) (idx + 1)) ∧
    findSetBitBelow m idx = Some (scanDown P (Z.to_nat idx)) ∧
    occupiedBit m idx = Some (P idx).
Proof.
  intros Hc Hall Hi P. destruct (levelMapNew_ok c Hc [] s) as [[_ _ _ _ Hn _ _ Hb _] _].
  set (m0 := levelMapNew s _ _ _) in *.
  assert (Hb0 : bits_ok m0 (λ _, false)).
  { eapply bits_ok_ext; [| | | | | |exact Hb]; try done. intros i Hi0. unfold occ.
    destruct (replicate _ _ !! Z.to_nat i) as [q|] eqn:E; [|done].
    apply lookup_replicate in E as [-> _]. done. }
  rewrite <- Hn in Hall. destruct (bitRun_ok m0 _ ops Hb0 Hall) as (m & Hm & Hbm & Hnm).
  fold P in Hbm. exists m. split; [done|].
  destruct (findSetBitAbove_found m P Hbm idx) as (r & -> & Hr); [lia|].
  destruct (findSetBitBelow_found m P Hbm idx) as (r' & -> & Hr'); [lia|].
  split; [|split].
  - f_equal. symmetry. apply scanUp_found; [done|]. intros j Hj.
    destruct (P j) eqn:E; [|done]. pose proof (bo_range _ _ Hbm j ltac:(lia) E). lia.
  - f_equal. symmetry. apply scanDown_found. by rewrite Z2Nat.id by lia.
  - apply occupiedBit_ok; [done|lia].
Qed.

Lemma bitset_search_is_linear_scan_witness :
  let c := mkConfig 100 100000 10 4 CancelPassive in
  let ops := [BSet 3; BSet 700; BSet 9000; BClear 700] in
  let P := foldl bitSpec (λ _, false) ops in
  ∃ m, bitRun (levelMapNew Buy 100 100000 10) ops = Some m ∧
    findSetBitAbove m 5 = Some (scanUp P (Z.to_nat (slots c - (5 + 1))) (5 + 1)) ∧
    findSetBitBelow m 5 = Some (scanDown P (Z.to_nat 5)) ∧ occupiedBit m 5 = Some (P 5).
Proof.
  apply (bitset_search_is_linear_scan (mkConfig 100 100000 10 4 CancelPassive) Buy
           [BSet 3; BSet 700; BSet 9000; BClear 700] 5).
  - split; vm_compute; intuition discriminate.
  - repeat constructor; vm_compute; congruence.
  - vm_compute. split; congruence.
Defined.
