(* ===== verification/OrderBook.v ===== *)
(** [engine/order_book.cpp]: the order book, translated call by call.

    [None] stands for undefined behaviour (dereferencing a null or released
    pointer, indexing outside an array) or exhausted loop fuel; the refinement
    theorems show that neither happens. *)
From S2P Require Import Prelude Types ObjectPool PriceLevel OrderIdMap LevelMap.

(** ** State *)

Record OrderBook := mkBook {
  cfg_ : BookConfig;
  bids_ : LevelMap;
  asks_ : LevelMap;
  idMap_ : IdMap.OrderIdMap;
  pool_ : ObjectPool Order;
  seq_ : Z;
  nextTradeId_ : Z
}.

Definition sideOf (b : OrderBook) (s : Side) : LevelMap :=
  match s with Buy => bids_ b | Sell => asks_ b end.

Definition set_side (b : OrderBook) (s : Side) (m : LevelMap) : OrderBook :=
  match s with
  | Buy => mkBook (cfg_ b) m (asks_ b) (idMap_ b) (pool_ b) (seq_ b) (nextTradeId_ b)
  | Sell => mkBook (cfg_ b) (bids_ b) m (idMap_ b) (pool_ b) (seq_ b) (nextTradeId_ b)
  end.
Definition set_idMap (b : OrderBook) im : OrderBook :=
  mkBook (cfg_ b) (bids_ b) (asks_ b) im (pool_ b) (seq_ b) (nextTradeId_ b).
Definition set_pool (b : OrderBook) pl : OrderBook :=
  mkBook (cfg_ b) (bids_ b) (asks_ b) (idMap_ b) pl (seq_ b) (nextTradeId_ b).
Definition set_counters (b : OrderBook) (sq tid : Z) : OrderBook :=
  mkBook (cfg_ b) (bids_ b) (asks_ b) (idMap_ b) (pool_ b) sq tid.

(** The storage that the [Order*] pointers point into. *)
Definition orders (b : OrderBook) : heap := storage_ (pool_ b).
Definition set_orders (b : OrderBook) (h : heap) : OrderBook :=
  set_pool b (set_storage (pool_ b) h).

Definition nextPowerOfTwo (n : Z) : Z :=
  if n <=? 1 then 1 else Z.shiftl 1 (bit_width (n - 1)).

Definition bookNew (c : BookConfig) : OrderBook :=
  mkBook c
    (levelMapNew Buy (cfg_minPrice c) (cfg_maxPrice c) (cfg_tick c))
    (levelMapNew Sell (cfg_minPrice c) (cfg_maxPrice c) (cfg_tick c))
    (IdMap.idMapNew (nextPowerOfTwo (u64 (cfg_maxOrders c * 2))))
    (poolNew (cfg_maxOrders c)) 0 0.

Definition bestBid (b : OrderBook) : Z := best_ (bids_ b).
Definition bestAsk (b : OrderBook) : Z := best_ (asks_ b).

Definition quantityAt (b : OrderBook) (s : Side) (price : Z) : option Z :=
  match levelAt (sideOf b s) price with
  | None => Some 0
  | Some i => lv ← aget (levels_ (sideOf b s)) i; Some (totalQty_ lv)
  end.

Definition crosses (type : OrderType) (side : Side) (price restingPrice : Z) : bool :=
  match type with
  | Market => true
  | _ => match side with Buy => restingPrice <=? price | Sell => price <=? restingPrice end
  end.

(** ** Matching *)

Inductive MatchOutcome := Exhausted | NoLongerCrosses | StpFired.

(** What [matchInto] mutates: the book, the two output buffers ([victims] may be
    null) and [remaining]. *)
Record MatchState := mkMatch {
  ms_book : OrderBook;
  ms_trades : TradeBuffer;
  ms_victims : option StpVictimBuffer;
  ms_remaining : Z
}.

(** [level->unlink(o); idMap_.erase(o->id); pool_.release(o);] *)
Definition removeResting (b : OrderBook) (s : Side) (lvl : Z) (p : ptr) : option OrderBook :=
  '(m, h) ← levelUnlink (sideOf b s) (orders b) lvl p;
  let b := set_orders (set_side b s m) h in
  o ← hget (orders b) p;
  '(im, _) ← IdMap.erase (idMap_ b) (o_id o);
  let b := set_idMap b im in
  pl ← release (pool_ b) (Some p);
  Some (set_pool b pl).

Definition levelIsEmpty (b : OrderBook) (s : Side) (lvl : Z) : option bool :=
  lv ← aget (levels_ (sideOf b s)) lvl; Some (levelEmpty lv).

(** [if (level->empty()) side.onLevelEmptied(price);] *)
Definition emptiedCheck (b : OrderBook) (s : Side) (lvl price : Z) : option OrderBook :=
  e ← levelIsEmpty b s lvl;
  if e : bool then m ← onLevelEmptied (sideOf b s) price; Some (set_side b s m) else Some b.

Definition victimOf (o : Order) : StpVictim :=
  mkVictim (o_id o) (o_price o) (o_quantity o) (o_remaining o) (o_participant o) (o_seq o)
    (o_side o).

Definition pushVictim (v : option StpVictimBuffer) (x : StpVictim) : option StpVictimBuffer :=
  (λ vb, Buffer.push vb x) <$> v.

(** The inner loop: orders of the level [lvl] at price [bestOpp] on side [s].  The
    boolean result says that self-trade prevention ended the command. *)
Fixpoint matchLevel (fuel : nat) (inc : NewOrder) (s : Side) (bestOpp lvl : Z)
    (st : MatchState) : option (MatchState * bool) :=
  match fuel with
  | O => None
  | S fuel =>
      let b := ms_book st in
      let remaining := ms_remaining st in
      lv ← aget (levels_ (sideOf b s)) lvl;
      if (0 <? remaining) && negb (levelEmpty lv) then
        resting ← head_ lv;
        o ← hget (orders b) resting;
        if o_participant o =? n_participant inc then
          match cfg_stp (cfg_ b) with
          | CancelAggressor => Some (st, true)
          | policy =>
              let victims := pushVictim (ms_victims st) (victimOf o) in
              b ← removeResting b s lvl resting;
              b ← emptiedCheck b s lvl bestOpp;
              let st := mkMatch b (ms_trades st) victims remaining in
              match policy with
              | CancelPassive => matchLevel fuel inc s bestOpp lvl st
              | _ => Some (st, true)
              end
          end
        else
          let qty := Z.min remaining (o_remaining o) in
          let trades := Buffer.push (ms_trades st)
            (mkTrade (nextTradeId_ b) (n_id inc) (o_id o) (o_price o) qty (n_side inc)) in
          let b := set_counters b (seq_ b) (s64 (nextTradeId_ b + 1)) in
          let remaining := remaining - qty in
          h ← hupd (orders b) resting (set_remaining (o_remaining o - qty));
          let b := set_orders b h in
          m ← levelReduce (sideOf b s) lvl qty;
          let b := set_side b s m in
          o ← hget (orders b) resting;
          b ← (if o_remaining o =? 0 then removeResting b s lvl resting else Some b);
          matchLevel fuel inc s bestOpp lvl (mkMatch b trades (ms_victims st) remaining)
      else Some (st, false)
  end.

(** Every order of the level is visited at most once, and every level at most
    once, so the number of pool slots bounds both loops. *)
Definition loopFuel (b : OrderBook) : nat := S (length (orders b)).

Fixpoint matchLoop (fuel : nat) (inc : NewOrder) (st : MatchState) :
    option (MatchState * MatchOutcome) :=
  match fuel with
  | O => None
  | S fuel =>
      let s := opposite (n_side inc) in
      let b := ms_book st in
      if (0 <? ms_remaining st) && hasBest (sideOf b s) then
        let bestOpp := best_ (sideOf b s) in
        if negb (crosses (n_type inc) (n_side inc) (n_price inc) bestOpp)
        then Some (st, NoLongerCrosses)
        else
          lvl ← levelAt (sideOf b s) bestOpp;
          '(st, stp) ← matchLevel (loopFuel b) inc s bestOpp lvl st;
          if stp : bool then Some (st, StpFired)
          else
            b ← emptiedCheck (ms_book st) s lvl bestOpp;
            matchLoop fuel inc (mkMatch b (ms_trades st) (ms_victims st) (ms_remaining st))
      else Some (st, Exhausted)
  end.

Definition matchInto (b : OrderBook) (inc : NewOrder) (trades : TradeBuffer) (remaining : Z)
    (victims : option StpVictimBuffer) : option (MatchState * MatchOutcome) :=
  matchLoop (loopFuel b) inc (mkMatch b trades victims remaining).

(** ** The fill-or-kill pre-scan *)

(** Walks one level; the boolean result is an early [return sum]. *)
Fixpoint scanLevel (fuel : nat) (b : OrderBook) (inc : NewOrder) (p : option ptr) (sum : Z) :
    option (Z * bool) :=
  match fuel with
  | O => None
  | S fuel =>
      match p with
      | None => Some (sum, false)
      | Some p =>
          o ← hget (orders b) p;
          if o_participant o =? n_participant inc then
            match cfg_stp (cfg_ b) with
            | CancelPassive => scanLevel fuel b inc (o_next o) sum
            | _ => Some (sum, true)
            end
          else
            let sum := s64 (sum + o_remaining o) in
            if n_quantity inc <=? sum then Some (sum, true)
            else scanLevel fuel b inc (o_next o) sum
      end
  end.

Fixpoint availableLoop (fuel : nat) (b : OrderBook) (inc : NewOrder) (p sum : Z) : option Z :=
  match fuel with
  | O => None
  | S fuel =>
      let s := opposite (n_side inc) in
      if p =? emptySentinel s then Some sum
      else if negb (crosses (n_type inc) (n_side inc) (n_price inc) p) then Some sum
      else
        lvl ← levelAt (sideOf b s) p;
        lv ← aget (levels_ (sideOf b s)) lvl;
        '(sum, ret) ← scanLevel (loopFuel b) b inc (head_ lv) sum;
        if ret : bool then Some sum
        else
          p ← nextOccupied (sideOf b s) p;
          availableLoop fuel b inc p sum
  end.

Definition availableAgainst (b : OrderBook) (inc : NewOrder) : option Z :=
  availableLoop (loopFuel b) b inc (best_ (sideOf b (opposite (n_side inc)))) 0.

(** ** Resting, submitting, cancelling *)

Definition freshOrder (inc : NewOrder) (remaining sq : Z) : Order :=
  mkOrder remaining (n_participant inc) (n_price inc) (n_id inc) None None
    (n_side inc) (n_quantity inc) sq None.

Definition restResidual (b : OrderBook) (inc : NewOrder) (mySeq remaining : Z) :
    option (OrderBook * bool) :=
  '(pl, op) ← acquire (pool_ b);
  let b := set_pool b pl in
  match op with
  | None => Some (b, false)
  | Some p =>
      h ← hinit (orders b) p (freshOrder inc remaining mySeq);
      let b := set_orders b h in
      '(m, h) ← addOrder (sideOf b (n_side inc)) (orders b) p;
      let b := set_orders (set_side b (n_side inc) m) h in
      '(im, _) ← IdMap.insert (idMap_ b) (n_id inc) p;
      Some (set_idMap b im, true)
  end.

(** The end of [submitEx], after matching: fill in the result and decide what
    becomes of the residual. *)
Definition disposeResidual (inc : NewOrder) (mySeq : Z) (st : MatchState)
    (outcome : MatchOutcome) :
    option (OrderBook * TradeBuffer * option StpVictimBuffer * OrderResult) :=
  let remaining := ms_remaining st in
  let b := ms_book st in
  let finish b status rested :=
    Some (b, ms_trades st, ms_victims st,
          mkResult status (n_quantity inc - remaining) remaining rested
            (n_price inc) (n_quantity inc) (n_participant inc) mySeq (n_side inc)) in
  match outcome with
  | StpFired => finish b CancelledBySelfTradePrevention false
  | _ =>
      match n_type inc with
      | Limit =>
          if 0 <? remaining then
            '(b, rested) ← restResidual b inc mySeq remaining;
            if rested : bool then finish b Ok true else finish b RejectedPoolExhausted false
          else finish b Ok false
      | Market | Ioc => finish b (if 0 <? remaining then CancelledResidual else Ok) false
      | Fok => finish b (if 0 <? remaining then RejectedFokUnfillable else Ok) false
      end
  end.

Definition submitEx (b : OrderBook) (inc : NewOrder) (trades : TradeBuffer)
    (victims : option StpVictimBuffer) :
    option (OrderBook * TradeBuffer * option StpVictimBuffer * OrderResult) :=
  let result := mkResult Ok 0 0 false (n_price inc) (n_quantity inc) (n_participant inc) 0
                  (n_side inc) in
  let reject st := Some (b, trades, victims, with_status result st) in
  if n_quantity inc <=? 0 then reject RejectedInvalidQuantity
  else if negb (bool_decide (n_type inc = Market)) && negb (inRange (bids_ b) (n_price inc))
  then reject RejectedPriceOutOfRange
  else
    dup ← IdMap.find (idMap_ b) (n_id inc);
    if bool_decide (dup ≠ None) then reject RejectedDuplicateId
    else if bool_decide (n_type inc = Market) && negb (hasBest (sideOf b (opposite (n_side inc))))
    then reject RejectedMarketIntoEmptyBook
    else
      unfillable ← (if bool_decide (n_type inc = Fok)
                    then a ← availableAgainst b inc; Some (a <? n_quantity inc)
                    else Some false);
      if unfillable : bool then reject RejectedFokUnfillable
      else
        let mySeq := s64 (seq_ b + 1) in
        let b := set_counters b mySeq (nextTradeId_ b) in
        '(st, outcome) ← matchInto b inc trades (n_quantity inc) victims;
        disposeResidual inc mySeq st outcome.

Definition submit (b : OrderBook) (inc : NewOrder) (trades : TradeBuffer) :
    option (OrderBook * TradeBuffer * SubmitStatus) :=
  '(b, trades, _, r) ← submitEx b inc trades None;
  Some (b, trades, r_status r).

Definition cancel (b : OrderBook) (id : Z) : option (OrderBook * OrderResult) :=
  op ← IdMap.find (idMap_ b) id;
  match op with
  | None => Some (b, with_status emptyResult RejectedUnknownOrder)
  | Some p =>
      o ← hget (orders b) p;
      let result := mkResult Ok (o_quantity o - o_remaining o) (o_remaining o) false
                      (o_price o) (o_quantity o) (o_participant o) (o_seq o) (o_side o) in
      '(ls, li) ← o_level o;
      '(m, h) ← levelUnlink (sideOf b ls) (orders b) (Z.of_nat li) p;
      let b := set_orders (set_side b ls m) h in
      e ← levelIsEmpty b ls (Z.of_nat li);
      b ← (if e : bool
           then m ← onLevelEmptied (sideOf b (o_side o)) (o_price o);
                Some (set_side b (o_side o) m)
           else Some b);
      '(im, _) ← IdMap.erase (idMap_ b) id;
      let b := set_idMap b im in
      pl ← release (pool_ b) (Some p);
      Some (set_pool b pl, result)
  end.

Definition restoreResting (b : OrderBook) (o : NewOrder) (remaining sq : Z) :
    option (OrderBook * bool) :=
  '(pl, op) ← acquire (pool_ b);
  let b := set_pool b pl in
  match op with
  | None => Some (b, false)
  | Some p =>
      h ← hinit (orders b) p (freshOrder o remaining sq);
      let b := set_orders b h in
      '(im, inserted) ← IdMap.insert (idMap_ b) (n_id o) p;
      let b := set_idMap b im in
      if negb inserted then
        pl ← release (pool_ b) (Some p);
        Some (set_pool b pl, false)
      else
        '(m, h) ← addOrder (sideOf b (n_side o)) (orders b) p;
        Some (set_orders (set_side b (n_side o) m) h, true)
  end.

Definition restoreCounters (b : OrderBook) (lastSeq nextTradeId : Z) : OrderBook :=
  set_counters b lastSeq nextTradeId.

(** The third component of the result is [*oldResult]: the internal cancel's
    result, or [None] where it is left untouched. *)
Definition replace (b : OrderBook) (oldId : Z) (fresh : NewOrder) (trades : TradeBuffer)
    (victims : option StpVictimBuffer) :
    option (OrderBook * TradeBuffer * option StpVictimBuffer * OrderResult * option OrderResult) :=
  let reject st := Some (b, trades, victims, with_status emptyResult st, None) in
  old ← IdMap.find (idMap_ b) oldId;
  if bool_decide (old = None) then reject RejectedUnknownOrder
  else if n_quantity fresh <=? 0 then reject RejectedInvalidQuantity
  else if negb (bool_decide (n_type fresh = Market)) && negb (inRange (bids_ b) (n_price fresh))
  then reject RejectedPriceOutOfRange
  else
    dup ← (if n_id fresh =? oldId then Some None else IdMap.find (idMap_ b) (n_id fresh));
    if bool_decide (dup ≠ None) then reject RejectedDuplicateId
    else
      '(b, cancelResult) ← cancel b oldId;
      '(b, trades, victims, r) ← submitEx b fresh trades victims;
      Some (b, trades, victims, r, Some cancelResult).
