(* ===== verification/BookRepr.v ===== *)
(** The representation invariant of [OrderBook], and the two structural steps that
    every operation is made of: taking one resting order out, and resting a new
    one.

    A ghost record names what the pointers of the book form: the pool's free
    list, the queue of every price slot on both sides, and the finite map the
    hash table stands for. *)
From S2P Require Import Prelude Types ObjectPool PriceLevel OrderIdMap LevelMap OrderBook AbstractBook.

Record ghost := mkGhost {
  g_free : list ptr;
  g_bids : list (list ptr);
  g_asks : list (list ptr);
  g_map : gmap Z ptr
}.

Definition g_q (g : ghost) (s : Side) : list (list ptr) :=
  match s with Buy => g_bids g | Sell => g_asks g end.

Definition set_q (g : ghost) (s : Side) (Q : list (list ptr)) : ghost :=
  match s with
  | Buy => mkGhost (g_free g) Q (g_asks g) (g_map g)
  | Sell => mkGhost (g_free g) (g_bids g) Q (g_map g)
  end.

Definition set_free (g : ghost) fl : ghost := mkGhost fl (g_bids g) (g_asks g) (g_map g).
Definition set_map (g : ghost) M : ghost := mkGhost (g_free g) (g_bids g) (g_asks g) M.

Lemma g_q_set_q g s Q s' : g_q (set_q g s Q) s' = if decide (s = s') then Q else g_q g s'.
Proof. by destruct s, s'. Qed.

Lemma sideOf_set_side b s m s' :
  sideOf (set_side b s m) s' = if decide (s = s') then m else sideOf b s'.
Proof. by destruct s, s'. Qed.

(** ** A side's queues in priority order *)

Definition flat (s : Side) (Q : list (list ptr)) : list ptr :=
  concat (match s with Buy => rev Q | Sell => Q end).

Lemma elem_of_flat s Q p : p ∈ flat s Q ↔ p ∈ concat Q.
Proof.
  unfold flat. destruct s; [|done]. rewrite !list_elem_of_In, !in_concat.
  by setoid_rewrite <- in_rev.
Qed.

Lemma flat_perm s Q : flat s Q ≡ₚ concat Q.
Proof.
  unfold flat. destruct s; [|done]. induction Q as [|q Q IH]; [done|]. simpl.
  rewrite concat_app. simpl. rewrite app_nil_r, IH. apply Permutation_app_comm.
Qed.

Lemma length_flat s Q : length (flat s Q) = length (concat Q).
Proof. by rewrite flat_perm. Qed.

(** Slot [i]'s queue within the whole side: better slots before, worse after. *)
Lemma flat_split s Q i qs :
  Q !! i = Some qs →
  ∃ A B, (∀ qs', flat s (<[i := qs']> Q) = A ++ qs' ++ B) ∧
    (∀ p, p ∈ A → ∃ j b, ahead s (Z.of_nat j) (Z.of_nat i) ∧ Q !! j = Some b ∧ p ∈ b) ∧
    (∀ p, p ∈ B → ∃ j b, ahead s (Z.of_nat i) (Z.of_nat j) ∧ Q !! j = Some b ∧ p ∈ b).
Proof.
  intros HQ. destruct (concat_split Q i qs HQ) as (Q1 & Q2 & HeQ & Hlen & Hins).
  assert (H1 : ∀ p, p ∈ concat Q1 → ∃ j b, (j < i)%nat ∧ Q !! j = Some b ∧ p ∈ b).
  { intros p (j & b & Hj & Hp)%elem_of_concat. pose proof (lookup_lt_Some _ _ _ Hj).
    exists j, b. split; [lia|]. split; [|done]. rewrite HeQ, lookup_app_l by lia. done. }
  assert (H2 : ∀ p, p ∈ concat Q2 → ∃ j b, (i < j)%nat ∧ Q !! j = Some b ∧ p ∈ b).
  { intros p (j & b & Hj & Hp)%elem_of_concat. exists (length Q1 + S j)%nat, b.
    split; [lia|]. split; [|done]. rewrite HeQ, lookup_app_r by lia.
    by replace (length Q1 + S j - length Q1)%nat with (S j) by lia. }
  destruct s; unfold flat.
  - exists (concat (rev Q2)), (concat (rev Q1)). split; [|split].
    + intros qs'. rewrite Hins, rev_app_distr. simpl. rewrite !concat_app. simpl.
      by rewrite app_nil_r, <- app_assoc.
    + intros p Hp. apply (elem_of_flat Buy Q2) in Hp. destruct (H2 p Hp) as (j & b & ? & ? & ?).
      exists j, b. simpl. split; [lia|done].
    + intros p Hp. apply (elem_of_flat Buy Q1) in Hp. destruct (H1 p Hp) as (j & b & ? & ? & ?).
      exists j, b. simpl. split; [lia|done].
  - exists (concat Q1), (concat Q2). split; [|split].
    + intros qs'. rewrite Hins, concat_app. done.
    + intros p Hp. destruct (H1 p Hp) as (j & b & ? & ? & ?). exists j, b. simpl. split; [lia|done].
    + intros p Hp. destruct (H2 p Hp) as (j & b & ? & ? & ?). exists j, b. simpl. split; [lia|done].
Qed.

Lemma flat_nil s Q : (∀ i, 0 <= i → occ Q i = false) → flat s Q = [].
Proof.
  intros Hn. destruct (flat s Q) as [|p l] eqn:E; [done|]. exfalso.
  assert (Hp : p ∈ concat Q) by (apply (elem_of_flat s); rewrite E; by left).
  apply elem_of_concat in Hp as (i & qs & HQ & Hp).
  specialize (Hn (Z.of_nat i) ltac:(lia)). unfold occ in Hn. rewrite Nat2Z.id, HQ in Hn.
  destruct qs; [by apply elem_of_nil in Hp|done].
Qed.

Lemma occ_insert Q i qs qs' j :
  Q !! i = Some qs → 0 <= j →
  occ (<[i := qs']> Q) j = pset (occ Q) (Z.of_nat i) (bool_decide (qs' ≠ [])) j.
Proof.
  intros HQ Hj. unfold occ, pset. destruct (j =? Z.of_nat i) eqn:E.
  - assert (j = Z.of_nat i) as -> by lia. rewrite Nat2Z.id.
    rewrite list_lookup_insert_eq by (by eapply lookup_lt_Some). by destruct qs'.
  - by rewrite list_lookup_insert_ne by lia.
Qed.

(** ** The invariant *)

Record repr (c : BookConfig) (b : OrderBook) (g : ghost) (P : Side → Z → bool) : Prop := {
  rp_cfg : cfg_ b = c;
  rp_pool : pool_ok (pool_ b) (g_free g);
  rp_capacity : capacity_ (pool_ b) = cfg_maxOrders c;
  rp_sides : ∀ s, lm_ok c (orders b) s (sideOf b s) (g_q g s) (P s);
  rp_nodup : ∀ s, NoDup (concat (g_q g s));
  rp_disjoint : ∀ s p, p ∈ concat (g_q g s) → p ∉ concat (g_q g (opposite s));
  rp_count : (length (g_free g) + length (concat (g_bids g)) + length (concat (g_asks g))
              = length (orders b))%nat;
  rp_order : ∀ s i qs p, g_q g s !! i = Some qs → p ∈ qs →
    ∃ o, payload (orders b) p = Some o ∧ ao_side o = s ∧ ao_price o = priceAt c (Z.of_nat i);
  rp_map : IdMap.idmap_ok (idMap_ b) (g_map g);
  rp_mcap : cfg_maxOrders c * 2 <= IdMap.im_capacity (idMap_ b);
  rp_ids : ∀ id p, g_map g !! id = Some p ↔
    (∃ s, p ∈ concat (g_q g s)) ∧ ao_id <$> payload (orders b) p = Some id
}.

(** The normal state, in which a slot's bit says whether its queue is non-empty. *)
Definition gocc (g : ghost) (s : Side) : Z → bool := occ (g_q g s).

Definition Repr (c : BookConfig) (b : OrderBook) (a : ABook) : Prop :=
  ∃ g, repr c b g (gocc g) ∧
    (∀ s, aside a s = queue (orders b) (flat s (g_q g s))) ∧
    seq_ b = ab_seq a ∧ nextTradeId_ b = ab_tid a.

Section facts.
Context {c : BookConfig} {b : OrderBook} {g : ghost} {P : Side → Z → bool}.
Context (Hr : repr c b g P).

Lemma rp_live s p : p ∈ concat (g_q g s) → ∃ o, hget (orders b) p = Some o.
Proof.
  intros (i & qs & HQ & Hp)%elem_of_concat.
  destruct (rp_order _ _ _ _ Hr _ _ _ _ HQ Hp) as (a & (o & Ho & _)%payload_Some & _). eauto.
Qed.

Lemma rp_not_free s p : p ∈ concat (g_q g s) → p ∉ g_free g.
Proof. intros [o Ho]%rp_live. by eapply pool_live; [apply Hr|]. Qed.

Lemma rp_total s :
  (length (g_free g) + length (concat (g_q g s)) + length (concat (g_q g (opposite s)))
   = length (orders b))%nat.
Proof. rewrite <- (rp_count _ _ _ _ Hr). destruct s; simpl; lia. Qed.

Lemma rp_lookup s p o :
  p ∈ concat (g_q g s) → hget (orders b) p = Some o → g_map g !! o_id o = Some p.
Proof. intros Hp Ho. apply (rp_ids _ _ _ _ Hr). split; [eauto|]. unfold payload. by rewrite Ho. Qed.

(** The number of resting orders is the size of the id map. *)
Lemma rp_size :
  size (g_map g) = (length (concat (g_bids g)) + length (concat (g_asks g)))%nat.
Proof.
  set (l := concat (g_q g Buy) ++ concat (g_q g Sell)).
  assert (Hnd : NoDup l).
  { apply NoDup_app. split; [apply (rp_nodup _ _ _ _ Hr Buy)|].
    split; [|apply (rp_nodup _ _ _ _ Hr Sell)]. intros p Hp. by apply (rp_disjoint _ _ _ _ Hr Buy). }
  assert (Hin : ∀ p, p ∈ l ↔ ∃ s, p ∈ concat (g_q g s)).
  { intros p. unfold l. rewrite elem_of_app. split; [intros [?|?]; eauto|].
    intros [[] ?]; [by left|by right]. }
  rewrite <- length_app. change (size (g_map g) = length l).
  rewrite <- (length_map_to_list (g_map g)), <- (length_fmap snd).
  apply Permutation_length, NoDup_Permutation; [|done|].
  - apply NoDup_fmap_2_strong; [|apply NoDup_map_to_list].
    intros [i p] [j q] Hi%elem_of_map_to_list Hj%elem_of_map_to_list. simpl. intros ->.
    apply (rp_ids _ _ _ _ Hr) in Hi as [_ Hi], Hj as [_ Hj]. congruence.
  - intros p. rewrite Hin. split.
    + intros ([id q] & -> & Hm%elem_of_map_to_list)%list_elem_of_fmap.
      by apply (rp_ids _ _ _ _ Hr) in Hm as [? _].
    + intros [s Hp]. destruct (rp_live _ _ Hp) as [o Ho].
      apply list_elem_of_fmap. exists (o_id o, p). split; [done|].
      apply elem_of_map_to_list. by eapply rp_lookup.
Qed.

Lemma rp_pool_length : Z.of_nat (length (orders b)) = cfg_maxOrders c.
Proof. rewrite <- (rp_capacity _ _ _ _ Hr). symmetry. apply (po_capacity _ _ (rp_pool _ _ _ _ Hr)). Qed.

(** While the pool has a slot the id map has room to spare. *)
Lemma rp_room : config_ok c → g_free g ≠ [] →
  Z.of_nat (size (g_map g)) + 1 < IdMap.im_capacity (idMap_ b).
Proof.
  intros Hc Hne. pose proof rp_pool_length. pose proof (co_orders _ Hc).
  pose proof (rp_mcap _ _ _ _ Hr). pose proof (rp_count _ _ _ _ Hr) as Hcnt.
  rewrite rp_size. destruct (g_free g); [done|]. simpl in Hcnt. lia.
Qed.
End facts.

(** ** Taking one resting order out *)

(** [g] without the order [p], the one between [l1] and [l2] in slot [i]. *)
Definition ghost_remove (g : ghost) (s : Side) (i : nat) (l1 l2 : list ptr) (p : ptr) (id : Z) :
    ghost :=
  set_map (set_free (set_q g s (<[i := l1 ++ l2]> (g_q g s))) (p :: g_free g))
    (delete id (g_map g)).

Lemma ghost_remove_q g s i l1 l2 p id s' :
  g_q (ghost_remove g s i l1 l2 p id) s' =
    if decide (s = s') then <[i := l1 ++ l2]> (g_q g s) else g_q g s'.
Proof. by destruct s, s'. Qed.

Section remove.
Context {c : BookConfig} {b : OrderBook} {g : ghost} {P : Side → Z → bool}.
Context (Hr : repr c b g P).
Context (s : Side) (i : nat) (l1 l2 : list ptr) (p : ptr) (o : Order).
Context (HQ : g_q g s !! i = Some (l1 ++ p :: l2)) (Ho : hget (orders b) p = Some o).

#[local] Abbreviation g' := (ghost_remove g s i l1 l2 p (o_id o)).

Lemma remove_perm : concat (g_q g s) ≡ₚ p :: concat (g_q g' s).
Proof. rewrite ghost_remove_q, decide_True by done. by apply concat_remove. Qed.

Lemma remove_in s' q : q ∈ concat (g_q g' s') ↔ q ∈ concat (g_q g s') ∧ q ≠ p.
Proof.
  pose proof (rp_nodup _ _ _ _ Hr s) as Hn. pose proof remove_perm as Hp.
  rewrite Hp in Hn. apply NoDup_cons in Hn as [Hpn _].
  destruct (decide (s = s')) as [<-|Hne].
  - rewrite Hp at 1. rewrite elem_of_cons. split; [|naive_solver].
    intros Hq. split; [by right|]. by intros ->.
  - rewrite ghost_remove_q, decide_False by done. split; [|tauto]. intros Hq.
    split; [done|]. intros ->.
    assert (s' = opposite s) as -> by (by destruct s, s').
    apply (rp_disjoint _ _ _ _ Hr s p); [|done]. rewrite Hp. by left.
Qed.

Lemma remove_slot s' j qs q :
  g_q g' s' !! j = Some qs → q ∈ qs → q ≠ p ∧ ∃ qs0, g_q g s' !! j = Some qs0 ∧ q ∈ qs0.
Proof.
  intros Hj Hq. split.
  { apply (remove_in s' q). apply elem_of_concat. eauto. }
  rewrite ghost_remove_q in Hj. destruct (decide (s = s')) as [<-|Hne]; [|eauto].
  destruct (decide (i = j)) as [<-|Hij].
  - rewrite list_lookup_insert_eq in Hj by (by eapply lookup_lt_Some). simplify_eq.
    eexists. split; [done|]. set_solver.
  - rewrite list_lookup_insert_ne in Hj by done. eauto.
Qed.

Lemma remove_ids id q h2 :
  (∀ x, x ≠ p → payload h2 x = payload (orders b) x) →
  delete (o_id o) (g_map g) !! id = Some q ↔
  (∃ s, q ∈ concat (g_q g' s)) ∧ ao_id <$> payload h2 q = Some id.
Proof.
  intros Hpay. rewrite lookup_delete_Some. setoid_rewrite remove_in.
  assert (Hpid : ∀ id', g_map g !! id' = Some p → o_id o = id').
  { intros id' [_ Hid]%(rp_ids _ _ _ _ Hr). unfold payload in Hid. rewrite Ho in Hid.
    by injection Hid. }
  split.
  - intros [Hne Hm]. pose proof Hm as [[s' Hin] Hid]%(rp_ids _ _ _ _ Hr).
    assert (Hqp : q ≠ p) by (intros ->; by apply Hne, Hpid).
    split; [eauto|]. by rewrite Hpay.
  - intros [(s' & Hin & Hqp) Hid]. rewrite Hpay in Hid by done.
    assert (Hm : g_map g !! id = Some q) by (apply (rp_ids _ _ _ _ Hr); eauto).
    split; [|done]. intros <-. apply Hqp.
    assert (g_map g !! o_id o = Some p) as Hm'; [|congruence].
    eapply (rp_lookup Hr s); [|done]. rewrite remove_perm. by left.
Qed.

Lemma remove_core : ∃ m h im pl,
  levelUnlink (sideOf b s) (orders b) (Z.of_nat i) p = Some (m, h) ∧
  (∃ o', hget h p = Some o' ∧ o_id o' = o_id o) ∧
  IdMap.erase (idMap_ b) (o_id o) = Some (im, true) ∧
  release (set_storage (pool_ b) h) (Some p) = Some pl ∧
  (∀ x, x ≠ p → payload (storage_ pl) x = payload (orders b) x) ∧
  repr c (set_pool (set_idMap (set_side b s m) im) pl) g' P.
Proof.
  destruct (levelUnlink_ok c _ s _ _ _ i l1 p l2 (rp_sides _ _ _ _ Hr s)
              (rp_nodup _ _ _ _ Hr s) HQ) as (m & h & Hu & Hlm & Hl).
  destruct (links_only_order _ _ _ _ _ Hl Ho) as (o' & Ho' & Ha).
  pose proof (links_only_pool _ _ _ _ (rp_pool _ _ _ _ Hr) Hl) as Hpool.
  destruct (release_ok _ _ p o' Hpool Ho') as (pl & Hrel & Hst & Hpok).
  assert (Hm : g_map g !! o_id o = Some p).
  { eapply (rp_lookup Hr s); [|done]. rewrite remove_perm. by left. }
  pose proof (IdMap.erase_ok _ _ (o_id o) (rp_map _ _ _ _ Hr)) as Herase. rewrite Hm in Herase.
  destruct Herase as (im & Herase & Him & Hcap).
  exists m, h, im, pl. split; [done|]. split; [exists o'; split; [done|by apply (f_equal ao_id) in Ha]|].
  split; [done|]. split; [done|].
  assert (Hget : ∀ x, x ≠ p → hget (storage_ pl) x = hget h x).
  { intros x Hx. rewrite Hst. by apply hget_insert_ne. }
  assert (Hpay : ∀ x, x ≠ p → payload (storage_ pl) x = payload (orders b) x).
  { intros x Hx. unfold payload at 1. rewrite Hget by done. apply (lo_payload _ _ _ Hl). }
  assert (Hlen : length (storage_ pl) = length (orders b)).
  { rewrite Hst, length_insert. apply (lo_length _ _ _ Hl). }
  split; [done|].
  assert (Hq' : ∀ s', g_q g' s' = if decide (s = s') then <[i := l1 ++ l2]> (g_q g s) else g_q g s')
    by (intros; apply ghost_remove_q).
  split; simpl.
  - rewrite <- (rp_cfg _ _ _ _ Hr). by destruct s.
  - exact Hpok.
  - rewrite (po_capacity _ _ Hpok), Hlen. by apply (rp_pool_length Hr).
  - intros s'. change (sideOf (set_pool _ _) s') with (sideOf (set_side b s m) s').
    unfold orders. simpl. rewrite sideOf_set_side.
    pose proof (rp_sides _ _ _ _ Hr s') as Hs'.
    destruct (decide (s = s')) as [<-|Hne].
    + eapply lm_ok_frame; [|rewrite Hq', decide_True by done; exact Hlm].
      intros q [_ Hqp]%remove_in. by apply Hget.
    + rewrite Hq', decide_False by done. eapply lm_ok_frame; [|exact Hs'].
      intros q Hq. assert (Hno : q ∉ l1 ++ p :: l2).
      { intros Hin. assert (s' = opposite s) as -> by (by destruct s, s').
        apply (rp_disjoint _ _ _ _ Hr s q); [|done]. apply elem_of_concat. eauto. }
      rewrite Hget by set_solver. unfold hget. by rewrite (lo_other _ _ _ Hl).
  - intros s'. destruct (decide (s = s')) as [<-|Hne].
    + pose proof (rp_nodup _ _ _ _ Hr s) as Hn. rewrite remove_perm in Hn.
      by apply NoDup_cons in Hn as [_ ?].
    + rewrite Hq', decide_False by done. apply Hr.
  - intros s' q [Hq _]%remove_in [Hq2 _]%remove_in. by apply (rp_disjoint _ _ _ _ Hr s' q).
  - change (orders _) with (storage_ pl). rewrite Hlen, <- (rp_total Hr s).
    rewrite remove_perm. destruct s; simpl; lia.
  - intros s' j qs q Hj Hq. destruct (remove_slot _ _ _ _ Hj Hq) as (Hqp & qs0 & Hj0 & Hq0).
    change (orders _) with (storage_ pl). rewrite Hpay by done. by eapply Hr.
  - exact Him.
  - destruct s; simpl; rewrite Hcap; apply Hr.
  - intros id q. by apply remove_ids.
Qed.
End remove.

(** What a step leaves alone. *)
Record same_counters (b b' : OrderBook) : Prop := {
  sc_seq : seq_ b' = seq_ b;
  sc_tid : nextTradeId_ b' = nextTradeId_ b
}.

Lemma set_side_counters b s m : seq_ (set_side b s m) = seq_ b ∧
  nextTradeId_ (set_side b s m) = nextTradeId_ b ∧ orders (set_side b s m) = orders b ∧
  cfg_ (set_side b s m) = cfg_ b ∧ idMap_ (set_side b s m) = idMap_ b ∧
  pool_ (set_side b s m) = pool_ b.
Proof. by destruct s. Qed.

Lemma removeResting_ok c b g P s i l1 l2 p o :
  repr c b g P → g_q g s !! i = Some (l1 ++ p :: l2) → hget (orders b) p = Some o →
  ∃ b', removeResting b s (Z.of_nat i) p = Some b' ∧
    repr c b' (ghost_remove g s i l1 l2 p (o_id o)) P ∧
    (∀ x, x ≠ p → payload (orders b') x = payload (orders b) x) ∧ same_counters b b'.
Proof.
  intros Hr HQ Ho.
  destruct (remove_core Hr s i l1 l2 p o HQ Ho)
    as (m & h & im & pl & Hu & (o' & Ho' & Hid) & He & Hrel & Hpay & Hr').
  destruct (set_side_counters b s m) as (Hs1 & Hs2 & Hs3 & Hs4 & Hs5 & Hs6).
  unfold removeResting. rewrite Hu. simpl_bind.
  change (orders (set_orders (set_side b s m) h)) with h. rewrite Ho'. simpl_bind.
  change (idMap_ (set_orders (set_side b s m) h)) with (idMap_ (set_side b s m)).
  rewrite Hs5, Hid, He. simpl_bind.
  change (pool_ (set_idMap (set_orders (set_side b s m) h) im))
    with (set_storage (pool_ (set_side b s m)) h).
  rewrite Hs6, Hrel. simpl_bind. eexists. split; [done|].
  split; [|split; [done|]].
  - unfold set_pool, set_idMap in *. simpl in *. exact Hr'.
  - split; simpl; done.
Qed.

Definition updP (P : Side → Z → bool) (s : Side) (f : Z → bool) : Side → Z → bool :=
  λ s', if decide (s = s') then f else P s'.

Lemma emptied_core c b g P s i qs :
  config_ok c → repr c b g P → g_q g s !! i = Some qs →
  ∃ m, onLevelEmptied (sideOf b s) (priceAt c (Z.of_nat i)) = Some m ∧
    repr c (set_side b s m) g (updP P s (pset (P s) (Z.of_nat i) false)).
Proof.
  intros Hc Hr HQ. pose proof (rp_sides _ _ _ _ Hr s) as Hs.
  pose proof (level_slot c _ _ _ _ _ (lm_parts _ _ _ _ _ _ Hs) _ _ HQ) as Hi.
  destruct (onLevelEmptied_ok c Hc _ _ _ _ _ _ Hs Hi) as (m & Hm & Hok).
  exists m. split; [done|].
  destruct (set_side_counters b s m) as (Hs1 & Hs2 & Hs3 & Hs4 & Hs5 & Hs6).
  destruct Hr as [R1 R2 R3 R4 R5 R6 R7 R8 R9 R10 R11].
  split; rewrite ?Hs3, ?Hs4, ?Hs5, ?Hs6; try done.
  intros s'. rewrite sideOf_set_side. unfold updP. by destruct (decide (s = s')) as [<-|].
Qed.

Lemma level_empty_spec c b g P s i qs :
  repr c b g P → g_q g s !! i = Some qs →
  levelIsEmpty b s (Z.of_nat i) = Some (bool_decide (qs = [])).
Proof.
  intros Hr HQ.
  destruct (level_get c _ _ _ _ _ (lm_parts _ _ _ _ _ _ (rp_sides _ _ _ _ Hr s)) _ _ HQ)
    as (lv & Hlv & Hok & _).
  unfold levelIsEmpty. rewrite Hlv. simpl. by rewrite (levelEmpty_spec _ _ _ _ Hok).
Qed.

Lemma emptiedCheck_ok c b g P s i qs :
  config_ok c → repr c b g P → g_q g s !! i = Some qs →
  ∃ b', emptiedCheck b s (Z.of_nat i) (priceAt c (Z.of_nat i)) = Some b' ∧
    repr c b' g (if decide (qs = []) then updP P s (pset (P s) (Z.of_nat i) false) else P) ∧
    orders b' = orders b ∧ same_counters b b'.
Proof.
  intros Hc Hr HQ. unfold emptiedCheck. rewrite (level_empty_spec c b g P s i qs Hr HQ).
  simpl_bind. case_bool_decide as He.
  - destruct (emptied_core c b g P s i qs Hc Hr HQ) as (m & -> & Hr'). simpl.
    eexists. split; [done|]. rewrite decide_True by done. split; [done|].
    destruct (set_side_counters b s m) as (? & ? & ? & _). by split.
  - exists b. rewrite decide_False by done. split; [done|]. split; [done|]. by split.
Qed.

(** Replacing the pool without disturbing what the queues see. *)
Lemma repr_pool c b g P pl fl :
  repr c b g P → pool_ok pl fl → length fl = length (g_free g) →
  length (storage_ pl) = length (orders b) →
  (∀ s q, q ∈ concat (g_q g s) → hget (storage_ pl) q = hget (orders b) q) →
  repr c (set_pool b pl) (set_free g fl) P.
Proof.
  intros Hr Hpok Hfl Hlen Hget.
  assert (Hpay : ∀ s q, q ∈ concat (g_q g s) → payload (storage_ pl) q = payload (orders b) q).
  { intros s q Hq. unfold payload. by rewrite (Hget s). }
  pose proof (rp_pool_length Hr) as Hpl. pose proof Hr as [R1 R2 R3 R4 R5 R6 R7 R8 R9 R10 R11].
  split; simpl; try done.
  - rewrite (po_capacity _ _ Hpok). lia.
  - intros s. change (g_q (set_free g fl) s) with (g_q g s).
    change (sideOf (set_pool b pl) s) with (sideOf b s).
    eapply lm_ok_frame; [|apply R4]. intros q Hq. by apply (Hget s).
  - change (orders _) with (storage_ pl). lia.
  - intros s i qs q Hi Hq. change (g_q (set_free g fl) s) with (g_q g s) in Hi.
    change (orders _) with (storage_ pl). rewrite (Hpay s); [by eapply R8|].
    apply elem_of_concat. eauto.
  - intros id q. rewrite R11. change (orders (set_pool b pl)) with (storage_ pl).
    split; intros [[s Hs] Hid]; (split; [by exists s|]).
    + by rewrite (Hpay s).
    + by rewrite (Hpay s) in Hid.
Qed.

(** ** Resting a new order *)

Definition ghost_rest (g : ghost) (s : Side) (i : nat) (qs : list ptr) (p : ptr) (id : Z)
    (fl : list ptr) : ghost :=
  set_map (set_free (set_q g s (<[i := qs ++ [p]]> (g_q g s))) fl) (<[id := p]> (g_map g)).

Lemma ghost_rest_q g s i qs p id fl s' :
  g_q (ghost_rest g s i qs p id fl) s' =
    if decide (s = s') then <[i := qs ++ [p]]> (g_q g s) else g_q g s'.
Proof. by destruct s, s'. Qed.

Section rest.
Context {c : BookConfig} (Hc : config_ok c) {b : OrderBook} {g : ghost}.
Context (Hr : repr c b g (gocc g)).
Context (s : Side) (i : nat) (qs : list ptr) (p : ptr) (fl : list ptr) (o : Order).
Context (HQ : g_q g s !! i = Some qs) (Hfree : g_free g = p :: fl).
Context (Hside : o_side o = s) (Hprice : o_price o = priceAt c (Z.of_nat i)).
Context (Hid : g_map g !! o_id o = None).

#[local] Abbreviation g' := (ghost_rest g s i qs p (o_id o) fl).

Lemma rest_fresh s' : p ∉ concat (g_q g s').
Proof. intros Hp%(rp_not_free Hr). apply Hp. rewrite Hfree. by left. Qed.

Lemma rest_perm : concat (g_q g' s) ≡ₚ p :: concat (g_q g s).
Proof. rewrite ghost_rest_q, decide_True by done. by apply concat_add. Qed.

Lemma rest_other s' : s ≠ s' → g_q g' s' = g_q g s'.
Proof. intros. by rewrite ghost_rest_q, decide_False. Qed.

Lemma rest_in s' q : q ∈ concat (g_q g' s') ↔ q ∈ concat (g_q g s') ∨ (q = p ∧ s' = s).
Proof.
  destruct (decide (s = s')) as [<-|Hne].
  - rewrite rest_perm, elem_of_cons. naive_solver.
  - rewrite rest_other by done. naive_solver.
Qed.

Lemma rest_slot s' j b0 q :
  g_q g' s' !! j = Some b0 → q ∈ b0 →
  (q = p ∧ s' = s ∧ j = i) ∨ (q ≠ p ∧ ∃ b1, g_q g s' !! j = Some b1 ∧ q ∈ b1).
Proof.
  intros Hj Hq. rewrite ghost_rest_q in Hj.
  destruct (decide (q = p)) as [->|Hqp].
  - left. destruct (decide (s = s')) as [<-|Hne].
    + destruct (decide (i = j)) as [<-|Hij]; [done|].
      rewrite list_lookup_insert_ne in Hj by done. exfalso.
      apply (rest_fresh s), elem_of_concat. eauto.
    + exfalso. apply (rest_fresh s'), elem_of_concat. eauto.
  - right. split; [done|]. destruct (decide (s = s')) as [<-|Hne]; [|eauto].
    destruct (decide (i = j)) as [<-|Hij].
    + rewrite list_lookup_insert_eq in Hj by (by eapply lookup_lt_Some). simplify_eq.
      exists qs. split; [done|]. set_solver.
    + rewrite list_lookup_insert_ne in Hj by done. eauto.
Qed.

Lemma rest_ids h id q :
  payload h p = Some (aorder o) → (∀ x, x ≠ p → payload h x = payload (orders b) x) →
  <[o_id o := p]> (g_map g) !! id = Some q ↔
  (∃ s, q ∈ concat (g_q g' s)) ∧ ao_id <$> payload h q = Some id.
Proof.
  intros Hp Hx. setoid_rewrite rest_in. destruct (decide (q = p)) as [->|Hqp].
  - rewrite Hp. simpl. split.
    + intros [[-> _]|[_ Hm]]%lookup_insert_Some.
      * split; [eauto|done].
      * apply (rp_ids _ _ _ _ Hr) in Hm as [[s' Hin] _]. by apply rest_fresh in Hin.
    + intros [_ [= <-]]. apply lookup_insert_eq.
  - rewrite Hx by done. rewrite lookup_insert_Some. split.
    + intros [[_ ?]|[_ Hm]]; [congruence|]. apply (rp_ids _ _ _ _ Hr) in Hm as [[s' ?] ?]. eauto.
    + intros [(s' & [Hin|[? _]]) Hq]; [|done]. right.
      assert (Hm : g_map g !! id = Some q) by (apply (rp_ids _ _ _ _ Hr); eauto).
      split; [|done]. intros Heq. congruence.
Qed.

Lemma rest_core : ∃ pl m h im,
  acquire (pool_ b) = Some (pl, Some p) ∧ storage_ pl = orders b ∧
  hinit (orders b) p o = Some (<[p := SValue o]> (orders b)) ∧
  addOrder (sideOf b s) (<[p := SValue o]> (orders b)) p = Some (m, h) ∧
  IdMap.insert (idMap_ b) (o_id o) p = Some (im, true) ∧
  payload h p = Some (aorder o) ∧ (∀ x, x ≠ p → payload h x = payload (orders b) x) ∧
  repr c (set_idMap (set_side (set_pool b (set_storage pl h)) s m) im) g' (gocc g').
Proof.
  pose proof (acquire_ok _ _ (rp_pool _ _ _ _ Hr)) as Hacq. rewrite Hfree in Hacq.
  destruct Hacq as (pl & Ha & Hst & Hnone & Hlt & Hinit). destruct (Hinit o) as [Hh Hpok].
  rewrite Hst in Hh. fold (orders b) in *.
  set (h0 := <[p := SValue o]> (orders b)) in *.
  assert (Hget0 : ∀ x, x ≠ p → hget h0 x = hget (orders b) x)
    by (intros; by apply hget_insert_ne).
  assert (Hp0 : hget h0 p = Some o) by (by apply hget_insert_eq).
  assert (Hfr : ∀ s', lm_ok c h0 s' (sideOf b s') (g_q g s') (gocc g s')).
  { intros s'. eapply lm_ok_frame; [|apply Hr]. intros q Hq. apply Hget0.
    intros ->. by apply rest_fresh in Hq. }
  pose proof (rp_pool_length Hr) as Hpl. pose proof (co_orders _ Hc) as Hmax.
  destruct (addOrder_ok c Hc h0 s (sideOf b s) (g_q g s) i qs p o (Hfr s)
              (rp_nodup _ _ _ _ Hr s) HQ Hp0 Hprice (rest_fresh s)) as (m & h & Hadd & Hlm & Hl).
  { destruct (concat_insert _ _ _ HQ) as (X & Y & HXY & _).
    pose proof (rp_total Hr s) as Ht. rewrite HXY, !length_app in Ht. lia. }
  pose proof (IdMap.insert_ok _ _ (o_id o) p (rp_map _ _ _ _ Hr)) as Hins. rewrite Hid in Hins.
  destruct Hins as (im & Hins & Him & Hcap).
  { apply (rp_room Hr Hc). by rewrite Hfree. }
  exists pl, m, h, im. split; [done|]. split; [done|]. split; [done|].
  split; [done|]. split; [done|].
  assert (Hpp : payload h p = Some (aorder o)).
  { rewrite (lo_payload _ _ _ Hl). unfold payload. by rewrite Hp0. }
  assert (Hpay : ∀ x, x ≠ p → payload h x = payload (orders b) x).
  { intros x Hx. rewrite (lo_payload _ _ _ Hl). unfold payload. by rewrite Hget0. }
  split; [done|]. split; [done|].
  pose proof (links_only_pool _ _ _ _ Hpok Hl) as Hpok'.
  change (set_storage (set_storage pl h0) h) with (set_storage pl h) in Hpok'.
  assert (Hlen : length h = length (orders b)).
  { rewrite (lo_length _ _ _ Hl). apply length_insert. }
  set (b' := set_pool b (set_storage pl h)).
  destruct (set_side_counters b' s m) as (_ & _ & Hs3 & Hs4 & Hs5 & Hs6).
  set (b2 := set_idMap (set_side b' s m) im).
  assert (Ho2 : orders b2 = h) by (unfold b2; by destruct s).
  assert (Hp2 : pool_ b2 = set_storage pl h) by (unfold b2; by destruct s).
  split; rewrite ?Ho2, ?Hp2; simpl; try done.
  - rewrite Hs4. apply Hr.
  - pose proof (po_capacity _ _ Hpok') as Hcp. simpl in Hcp. lia.
  - intros s'. change (sideOf b2 s') with (sideOf (set_side b' s m) s').
    rewrite sideOf_set_side. unfold gocc. destruct (decide (s = s')) as [<-|Hne].
    + rewrite ghost_rest_q, decide_True by done. exact Hlm.
    + rewrite rest_other by done. change (sideOf b' s') with (sideOf b s').
      eapply lm_ok_frame; [|apply Hfr]. intros q Hq. unfold hget.
      rewrite (lo_other _ _ _ Hl); [done|]. intros [Hin|Hin]%elem_of_app.
      * assert (s' = opposite s) as -> by (by destruct s, s').
        apply (rp_disjoint _ _ _ _ Hr s q); [|done]. apply elem_of_concat. eauto.
      * apply (rest_fresh s'). set_solver.
  - intros s'. destruct (decide (s = s')) as [<-|Hne].
    + rewrite rest_perm. constructor; [apply rest_fresh|apply Hr].
    + rewrite rest_other by done. apply Hr.
  - intros s' q. rewrite !rest_in. intros [Hq|[Hqp Hs1]] [Hq2|[Hqp2 Hs2]].
    + by apply (rp_disjoint _ _ _ _ Hr s' q).
    + rewrite Hqp2 in Hq. by apply rest_fresh in Hq.
    + rewrite Hqp in Hq2. by apply rest_fresh in Hq2.
    + rewrite Hs1 in Hs2. by destruct s.
  - rewrite Hlen, <- (rp_total Hr s), Hfree. pose proof rest_perm as Hpm.
    apply Permutation_length in Hpm. revert Hpm. destruct s; simpl; lia.
  - intros s' j b0 q Hj Hq. destruct (rest_slot _ _ _ _ Hj Hq) as [(-> & -> & ->)|(Hqp & b1 & Hj1 & Hq1)].
    + rewrite Hpp. exists (aorder o). done.
    + rewrite Hpay by done. by eapply Hr.
  - rewrite Hcap. apply Hr.
  - intros id q. by apply rest_ids.
Qed.
End rest.
