(* ===== verification/BookMatch.v ===== *)
(** [OrderBook::matchInto] implements [amatch]: the nested loops over levels and
    queues do exactly what one walk down the opposite side's priority list does,
    and they terminate without touching memory they must not. *)
From S2P Require Import Prelude Types ObjectPool PriceLevel OrderIdMap LevelMap OrderBook AbstractBook BookRepr.

#[export] Instance MatchOutcome_eq_dec : EqDecision MatchOutcome.
Proof. solve_decision. Defined.

(** ** One walk, split at a level boundary *)

Lemma amatch_app stp inc tid rem xs ys :
  amatch stp inc tid rem (xs ++ ys) =
    let r := amatch stp inc tid rem xs in
    match am_outcome r, am_rest r with
    | Exhausted, [] =>
        let r2 := amatch stp inc (am_tid r) (am_remaining r) ys in
        mkAMatch (am_rest r2) (am_trades r ++ am_trades r2) (am_victims r ++ am_victims r2)
          (am_remaining r2) (am_tid r2) (am_outcome r2)
    | out, rest =>
        mkAMatch (rest ++ ys) (am_trades r) (am_victims r) (am_remaining r) (am_tid r) out
    end.
Proof.
  revert tid rem. induction xs as [|o xs IH]; intros tid rem; simpl.
  { by destruct (amatch stp inc tid rem ys). }
  destruct (negb (0 <? rem)); [done|].
  destruct (negb (crosses _ _ _ _)); [done|].
  destruct (ao_participant o =? n_participant inc).
  - destruct stp; simpl; [done| |].
    + rewrite IH. simpl.
      by destruct (am_outcome (amatch _ _ _ _ xs)), (am_rest (amatch _ _ _ _ xs)).
    + by destruct xs.
  - destruct (ao_remaining o - _ =? 0); simpl; [|done].
    rewrite IH. simpl.
    by destruct (am_outcome (amatch _ _ _ _ xs)), (am_rest (amatch _ _ _ _ xs)).
Qed.

(** ** Occupancy while a level is being consumed *)

Definition exact (P : Side → Z → bool) (g : ghost) : Prop :=
  ∀ s j, 0 <= j → P s j = gocc g s j.

(** Only slot [i] of side [s] may have an emptied queue whose bit is still set. *)
Definition near (P : Side → Z → bool) (g : ghost) (s : Side) (i : nat) : Prop :=
  (∀ s' j, 0 <= j → (s', j) ≠ (s, Z.of_nat i) → P s' j = gocc g s' j) ∧
  (gocc g s (Z.of_nat i) = true → P s (Z.of_nat i) = true).

Lemma exact_near P g s i : exact P g → near P g s i.
Proof. intros He. split; [intros; by apply He|]. intros <-. apply He. lia. Qed.

Lemma gocc_slot g s i qs :
  g_q g s !! i = Some qs → gocc g s (Z.of_nat i) = bool_decide (qs ≠ []).
Proof. intros HQ. unfold gocc, occ. rewrite Nat2Z.id, HQ. by destruct qs. Qed.

Lemma near_emptied P g s i qs :
  near P g s i → g_q g s !! i = Some qs →
  exact (if decide (qs = []) then updP P s (pset (P s) (Z.of_nat i) false) else P) g.
Proof.
  intros [Hn1 Hn2] HQ s' j Hj. pose proof (gocc_slot _ _ _ _ HQ) as Hg.
  destruct (decide ((s', j) = (s, Z.of_nat i))) as [[= -> ->]|Hne].
  - destruct (decide (qs = [])) as [Hq|Hq].
    + rewrite Hg, bool_decide_false by naive_solver.
      unfold updP, pset. rewrite decide_True by done. by rewrite Z.eqb_refl.
    + rewrite bool_decide_true in Hg by done. rewrite Hg. by apply Hn2.
  - rewrite <- Hn1 by done. destruct (decide (qs = [])); [|done].
    unfold updP, pset. destruct (decide (s = s')) as [<-|]; [|done].
    destruct (j =? Z.of_nat i) eqn:E; [|done]. exfalso. apply Hne. f_equal. lia.
Qed.

Lemma near_slot P g g' s i qs qs' :
  g_q g s !! i = Some qs → qs ≠ [] →
  (∀ s', g_q g' s' = if decide (s = s') then <[i := qs']> (g_q g s) else g_q g s') →
  near P g s i → near P g' s i.
Proof.
  intros HQ Hne Hq [Hn1 Hn2]. split.
  - intros s' j Hj Hne'. rewrite Hn1 by done. unfold gocc. rewrite Hq.
    destruct (decide (s = s')) as [<-|]; [|done]. rewrite (occ_insert _ _ _ _ _ HQ) by done.
    unfold pset. destruct (j =? Z.of_nat i) eqn:E; [|done]. exfalso. apply Hne'. f_equal. lia.
  - intros _. apply Hn2. rewrite (gocc_slot _ _ _ _ HQ). by apply bool_decide_true.
Qed.

Lemma repr_ext c b g P P' :
  (∀ s j, 0 <= j → P' s j = P s j) → repr c b g P → repr c b g P'.
Proof.
  intros HP Hr. pose proof Hr as [R1 R2 R3 R4 R5 R6 R7 R8 R9 R10 R11].
  split; try done. intros s. eapply lm_ok_ext; [|done]. auto.
Qed.

Lemma repr_exact c b g P : exact P g → repr c b g P → repr c b g (gocc g).
Proof. intros He. apply repr_ext. intros. symmetry. by apply He. Qed.

(** ** A fill *)

Lemma fill_ok c b g P s i l1 p l2 o q :
  config_ok c → repr c b g P →
  g_q g s !! i = Some (l1 ++ p :: l2) → hget (orders b) p = Some o →
  ∃ h m, hupd (orders b) p (set_remaining (o_remaining o - q)) = Some h ∧
    levelReduce (sideOf b s) (Z.of_nat i) q = Some m ∧
    hget h p = Some (set_remaining (o_remaining o - q) o) ∧
    (∀ x, x ≠ p → payload h x = payload (orders b) x) ∧
    repr c (set_side (set_orders b h) s m) g P.
Proof.
  intros Hc Hr HQ Ho. set (o' := set_remaining (o_remaining o - q) o).
  pose proof (hget_lt _ _ _ Ho) as Hlt.
  rewrite (hupd_Some _ _ _ _ Ho). fold o'. set (h := <[p := SValue o']> (orders b)).
  destruct (levelReduce_ok c Hc _ s _ _ _ i l1 p l2 o q (rp_sides _ _ _ _ Hr s)
              (rp_nodup _ _ _ _ Hr s) HQ Ho) as (m & Hm & Hlm).
  fold o' in Hlm. fold h in Hlm. exists h, m. split; [done|]. split; [done|].
  assert (Hp : hget h p = Some o') by (by apply hget_insert_eq).
  assert (Hget : ∀ x, x ≠ p → hget h x = hget (orders b) x)
    by (intros; by apply hget_insert_ne).
  assert (Hpay : ∀ x, x ≠ p → payload h x = payload (orders b) x)
    by (intros; unfold payload; by rewrite Hget).
  assert (Hpp : payload h p = Some (aorder o')) by (unfold payload; by rewrite Hp).
  assert (Hpo : payload (orders b) p = Some (aorder o)) by (unfold payload; by rewrite Ho).
  split; [done|]. split; [done|].
  assert (Hin : p ∈ concat (g_q g s)).
  { apply elem_of_concat. eexists _, _. split; [done|]. set_solver. }
  destruct (set_side_counters (set_orders b h) s m) as (_ & _ & Hs3 & Hs4 & Hs5 & Hs6).
  pose proof (pool_ok_store _ _ p o o' (rp_pool _ _ _ _ Hr) Ho) as Hpok.
  pose proof Hr as [R1 R2 R3 R4 R5 R6 R7 R8 R9 R10 R11].
  split; rewrite ?Hs3, ?Hs4, ?Hs5, ?Hs6; try done.
  - intros s'. rewrite sideOf_set_side. change (orders (set_orders b h)) with h.
    destruct (decide (s = s')) as [<-|Hne]; [done|].
    eapply lm_ok_frame; [|apply R4]. intros x Hx. apply Hget. intros ->.
    assert (s' = opposite s) as -> by (by destruct s, s'). by apply (R6 s p).
  - change (orders (set_orders b h)) with h. unfold h. by rewrite length_insert.
  - change (orders (set_orders b h)) with h. intros s' j qs x Hj Hx.
    destruct (R8 s' j qs x Hj Hx) as (a & Ha & Has & Hap).
    destruct (decide (x = p)) as [->|]; [|rewrite Hpay by done; eauto].
    rewrite Hpp. exists (aorder o'). split; [done|].
    assert (a = aorder o) as -> by congruence. done.
  - change (orders (set_orders b h)) with h. intros id x. rewrite R11.
    destruct (decide (x = p)) as [->|]; [|by rewrite Hpay by done].
    by rewrite Hpp, Hpo.
Qed.

(** ** The output buffers *)

Definition avictim (o : AOrder) : StpVictim :=
  mkVictim (ao_id o) (ao_price o) (ao_quantity o) (ao_remaining o) (ao_participant o)
    (ao_seq o) (ao_side o).

Definition victims_all (v : option StpVictimBuffer) (os : list AOrder) : option StpVictimBuffer :=
  (λ vb, Buffer.push_all vb (avictim <$> os)) <$> v.

Lemma victims_all_nil v : victims_all v [] = v.
Proof. by destruct v. Qed.

Lemma victims_all_cons v o os :
  victims_all v (aorder o :: os) = victims_all (pushVictim v (victimOf o)) os.
Proof. by destruct v. Qed.

Lemma victims_all_app v xs ys : victims_all v (xs ++ ys) = victims_all (victims_all v xs) ys.
Proof. destruct v; [|done]. unfold victims_all. simpl. by rewrite fmap_app, Buffer.push_all_app. Qed.

(** ** The inner loop *)

(** The state after consuming from slot [i]: it represents what [amatch] left, and
    nothing outside the slot's queue [qs] changed. *)
Record level_post (c : BookConfig) (s : Side) (i : nat) (st : MatchState) (g : ghost)
    (qs : list ptr) (r : AMatch) (st' : MatchState) (g' : ghost) (P' : Side → Z → bool)
    (qs' : list ptr) : Prop := {
  lp_repr : repr c (ms_book st') g' P';
  lp_near : near P' g' s i;
  lp_stp : am_outcome r = StpFired → exact P' g';
  lp_q : ∀ s', g_q g' s' = if decide (s = s') then <[i := qs']> (g_q g s) else g_q g s';
  lp_rest : queue (orders (ms_book st')) qs' = am_rest r;
  lp_frame : ∀ x, x ∉ qs → payload (orders (ms_book st')) x = payload (orders (ms_book st)) x;
  lp_trades : ms_trades st' = Buffer.push_all (ms_trades st) (am_trades r);
  lp_victims : ms_victims st' = victims_all (ms_victims st) (am_victims r);
  lp_remaining : ms_remaining st' = am_remaining r;
  lp_tid : nextTradeId_ (ms_book st') = am_tid r;
  lp_seq : seq_ (ms_book st') = seq_ (ms_book st)
}.

Lemma queue_payload h h' qs :
  (∀ x, x ∈ qs → payload h' x = payload h x) → queue h' qs = queue h qs.
Proof.
  intros Hx. induction qs as [|q qs IH]; [done|]. simpl.
  rewrite Hx by (by left). rewrite IH; [done|]. intros. apply Hx. by right.
Qed.

Lemma slot_nodup c b g P s i qs : repr c b g P → g_q g s !! i = Some qs → NoDup qs.
Proof.
  intros Hr HQ. pose proof (rp_nodup _ _ _ _ Hr s) as Hn.
  destruct (concat_insert _ _ _ HQ) as (X & Y & HXY & _). rewrite HXY in Hn.
  by apply NoDup_app in Hn as (_ & _ & (? & _)%NoDup_app).
Qed.

(** Nothing consumed: the loop stops at the head of a non-empty queue. *)
Lemma level_post_stop c s i st g P qs r :
  repr c (ms_book st) g P → near P g s i → g_q g s !! i = Some qs →
  (am_outcome r = StpFired → qs ≠ []) →
  r = mkAMatch (queue (orders (ms_book st)) qs) [] [] (ms_remaining st)
        (nextTradeId_ (ms_book st)) (am_outcome r) →
  level_post c s i st g qs r st g P qs.
Proof.
  intros Hr Hn HQ Hstp ->. split; simpl; try done.
  - intros Hs. pose proof (near_emptied _ _ _ _ _ Hn HQ) as He.
    by rewrite decide_False in He by auto.
  - intros s'. destruct (decide (s = s')) as [<-|]; [|done]. by rewrite list_insert_id.
  - by rewrite victims_all_nil.
Qed.

(** The head [p] is gone and the rest of the level has been processed. *)
Lemma level_post_step c s i st g p qs st1 g1 r1 st' g' P' qs' a ts vs :
  g_q g s !! i = Some (p :: qs) →
  (∀ s', g_q g1 s' = if decide (s = s') then <[i := qs]> (g_q g s) else g_q g s') →
  (∀ x, x ≠ p → payload (orders (ms_book st1)) x = payload (orders (ms_book st)) x) →
  ms_trades st1 = Buffer.push_all (ms_trades st) ts →
  ms_victims st1 = victims_all (ms_victims st) vs →
  seq_ (ms_book st1) = seq_ (ms_book st) →
  a = mkAMatch (am_rest r1) (ts ++ am_trades r1) (vs ++ am_victims r1) (am_remaining r1)
        (am_tid r1) (am_outcome r1) →
  level_post c s i st1 g1 qs r1 st' g' P' qs' →
  level_post c s i st g (p :: qs) a st' g' P' qs'.
Proof.
  intros HQ Hq1 Hpay Ht Hv Hs -> [L1 L2 L3 L4 L5 L6 L7 L8 L9 L10 L11].
  split; simpl; try done.
  - intros s'. rewrite L4. destruct (decide (s = s')) as [<-|Hne].
    + rewrite Hq1, decide_True by done. by rewrite list_insert_insert_eq.
    + by rewrite Hq1, decide_False.
  - intros x [Hxp Hxq]%not_elem_of_cons. rewrite L6 by done. by apply Hpay.
  - by rewrite L7, Ht, Buffer.push_all_app.
  - by rewrite L8, Hv, victims_all_app.
  - congruence.
Qed.

Lemma ghost_remove_head_q g s i p qs id s' :
  g_q (ghost_remove g s i [] qs p id) s' =
    if decide (s = s') then <[i := qs]> (g_q g s) else g_q g s'.
Proof. apply ghost_remove_q. Qed.

Section level.
Context (c : BookConfig) (Hc : config_ok c) (inc : NewOrder) (s : Side) (i : nat).
Context (Hx : crosses (n_type inc) (n_side inc) (n_price inc) (priceAt c (Z.of_nat i)) = true).

#[local] Abbreviation run st qs :=
  (amatch (cfg_stp c) inc (nextTradeId_ (ms_book st)) (ms_remaining st)
     (queue (orders (ms_book st)) qs)).

(** What the loop body reads at the head of a non-empty slot. *)
Lemma level_head b g P p qs :
  repr c b g P → g_q g s !! i = Some (p :: qs) →
  ∃ lv o, aget (levels_ (sideOf b s)) (Z.of_nat i) = Some lv ∧ levelEmpty lv = false ∧
    head_ lv = Some p ∧ hget (orders b) p = Some o ∧
    o_price o = priceAt c (Z.of_nat i) ∧ p ∉ qs.
Proof.
  intros Hr HQ.
  destruct (level_get c _ _ _ _ _ (lm_parts _ _ _ _ _ _ (rp_sides _ _ _ _ Hr s)) _ _ HQ)
    as (lv & Hlv & Hok & _).
  destruct (rp_order _ _ _ _ Hr s i _ p HQ) as (a & (o & Ho & <-)%payload_Some & _ & Hp); [by left|].
  exists lv, o. split; [done|]. split; [by rewrite (levelEmpty_spec _ _ _ _ Hok)|].
  split; [apply (lv_head _ _ _ _ Hok)|]. split; [done|]. split; [done|].
  pose proof (slot_nodup _ _ _ _ _ _ _ Hr HQ) as Hn. by apply NoDup_cons in Hn as [? _].
Qed.

(** Removing a victim and, if that empties the level, repairing the best price. *)
Lemma victim_ok b g P p qs o :
  repr c b g P → near P g s i → g_q g s !! i = Some (p :: qs) → hget (orders b) p = Some o →
  ∃ b1 b2 P2, removeResting b s (Z.of_nat i) p = Some b1 ∧
    emptiedCheck b1 s (Z.of_nat i) (priceAt c (Z.of_nat i)) = Some b2 ∧
    repr c b2 (ghost_remove g s i [] qs p (o_id o)) P2 ∧
    exact P2 (ghost_remove g s i [] qs p (o_id o)) ∧
    (∀ x, x ≠ p → payload (orders b2) x = payload (orders b) x) ∧ same_counters b b2.
Proof.
  intros Hr Hn HQ Ho.
  destruct (removeResting_ok c b g P s i [] qs p o Hr HQ Ho) as (b1 & Hb1 & Hr1 & Hpay & [Hs1 Ht1]).
  assert (HQ1 : g_q (ghost_remove g s i [] qs p (o_id o)) s !! i = Some qs).
  { rewrite ghost_remove_head_q, decide_True by done.
    apply list_lookup_insert_eq. by eapply lookup_lt_Some. }
  assert (Hn1 : near P (ghost_remove g s i [] qs p (o_id o)) s i).
  { eapply near_slot; [exact HQ|done|intros; apply ghost_remove_head_q|done]. }
  destruct (emptiedCheck_ok c b1 _ P s i qs Hc Hr1 HQ1) as (b2 & Hb2 & Hr2 & Ho2 & [Hs2 Ht2]).
  exists b1, b2. eexists. split; [done|]. split; [done|]. split; [exact Hr2|].
  split; [by apply near_emptied|]. rewrite Ho2. split; [done|]. split; congruence.
Qed.

(** A fill that takes the whole resting order, up to its removal. *)
Lemma fill_remove_ok b g P p qs o :
  repr c b g P → near P g s i → g_q g s !! i = Some (p :: qs) → hget (orders b) p = Some o →
  ∀ q, ∃ h m b2, hupd (orders b) p (set_remaining (o_remaining o - q)) = Some h ∧
    levelReduce (sideOf b s) (Z.of_nat i) q = Some m ∧
    hget h p = Some (set_remaining (o_remaining o - q) o) ∧
    repr c (set_side (set_orders b h) s m) g P ∧
    (∀ x, x ≠ p → payload h x = payload (orders b) x) ∧
    removeResting (set_side (set_orders b h) s m) s (Z.of_nat i) p = Some b2 ∧
    repr c b2 (ghost_remove g s i [] qs p (o_id o)) P ∧
    near P (ghost_remove g s i [] qs p (o_id o)) s i ∧
    (∀ x, x ≠ p → payload (orders b2) x = payload (orders b) x) ∧
    same_counters b b2.
Proof.
  intros Hr Hn HQ Ho q.
  destruct (fill_ok c b g P s i [] p qs o q Hc Hr HQ Ho) as (h & m & Hh & Hm & Hp & Hpay & Hr1).
  set (b1 := set_side (set_orders b h) s m) in *.
  destruct (set_side_counters (set_orders b h) s m) as (Hs1 & Hs2 & Hs3 & _).
  assert (Hp1 : hget (orders b1) p = Some (set_remaining (o_remaining o - q) o))
    by (unfold b1; rewrite Hs3; exact Hp).
  destruct (removeResting_ok c b1 g P s i [] qs p _ Hr1 HQ Hp1) as (b2 & Hb2 & Hr2 & Hpay2 & [Hq1 Hq2]).
  change (o_id (set_remaining (o_remaining o - q) o)) with (o_id o) in Hr2.
  exists h, m, b2. split; [done|]. split; [done|]. split; [done|]. split; [done|].
  split; [done|]. split; [done|]. split; [done|].
  split; [eapply near_slot; [exact HQ|done|intros; apply ghost_remove_head_q|done]|].
  split.
  - intros x Hne. rewrite Hpay2 by done. unfold b1. rewrite Hs3. by apply Hpay.
  - split; [rewrite Hq1|rewrite Hq2]; unfold b1; [by rewrite Hs1|by rewrite Hs2].
Qed.

Lemma set_counters_repr b g P sq tid : repr c b g P → repr c (set_counters b sq tid) g P.
Proof. intros [R1 R2 R3 R4 R5 R6 R7 R8 R9 R10 R11]. by split. Qed.

Lemma matchLevel_ok qs fuel st g P :
  repr c (ms_book st) g P → near P g s i → g_q g s !! i = Some qs → (length qs < fuel)%nat →
  ∃ st' g' P' qs',
    matchLevel fuel inc s (priceAt c (Z.of_nat i)) (Z.of_nat i) st
      = Some (st', bool_decide (am_outcome (run st qs) = StpFired)) ∧
    level_post c s i st g qs (run st qs) st' g' P' qs'.
Proof.
  revert fuel st g P. induction qs as [|p qs IH]; intros fuel st g P Hr Hn HQ Hf;
    (destruct fuel as [|fuel]; [simpl in Hf; lia|]); cbn [matchLevel].
  { destruct (level_get c _ _ _ _ _ (lm_parts _ _ _ _ _ _ (rp_sides _ _ _ _ Hr s)) _ _ HQ)
      as (lv & Hlv & Hok & _).
    rewrite Hlv. simpl_bind. rewrite (levelEmpty_spec _ _ _ _ Hok).
    rewrite bool_decide_true by done. rewrite andb_false_r.
    exists st, g, P, []. split; [done|]. by eapply level_post_stop. }
  destruct (level_head _ _ _ _ _ Hr HQ) as (lv & o & Hlv & Hemp & Hhd & Ho & Hpr & Hpq).
  rewrite Hlv. simpl_bind. rewrite Hemp. cbn [negb]. rewrite andb_true_r.
  assert (Hqueue : queue (orders (ms_book st)) (p :: qs)
                   = aorder o :: queue (orders (ms_book st)) qs) by (by apply queue_cons).
  assert (Hsame : ∀ h, (∀ x, x ≠ p → payload h x = payload (orders (ms_book st)) x) →
            queue h qs = queue (orders (ms_book st)) qs).
  { intros h Hpay. apply queue_payload. intros x Hxq. apply Hpay. by intros ->. }
  rewrite Hqueue. cbn [amatch].
  change (ao_price (aorder o)) with (o_price o). rewrite Hpr, Hx. cbn [negb].
  change (ao_participant (aorder o)) with (o_participant o).
  change (ao_remaining (aorder o)) with (o_remaining o).
  destruct (0 <? ms_remaining st) eqn:Erem; cbn [negb].
  2: { exists st, g, P, (p :: qs). split; [done|].
       eapply level_post_stop; [done|done|done|done|]. cbn [am_outcome]. by rewrite Hqueue. }
  rewrite Hhd. simpl_bind. rewrite Ho. simpl_bind.
  destruct (o_participant o =? n_participant inc).
  - (* self-trade prevention *)
    rewrite (rp_cfg _ _ _ _ Hr).
    destruct (victim_ok _ _ _ _ _ _ Hr Hn HQ Ho) as (b1 & b2 & P2 & Hb1 & Hb2 & Hr2 & He2 & Hpay & [Hs2 Ht2]).
    destruct (cfg_stp c) eqn:Estp.
    + exists st, g, P, (p :: qs). split; [done|].
      eapply level_post_stop; [done|done|done|done|]. cbn [am_outcome]. by rewrite Hqueue.
    + rewrite Hb1. simpl_bind. rewrite Hb2. simpl_bind.
      set (st1 := mkMatch b2 _ _ _).
      destruct (IH fuel st1 _ P2 Hr2) as (st' & g' & P' & qs' & Hrun & Hpost).
      * by apply exact_near.
      * rewrite ghost_remove_head_q, decide_True by done.
        apply list_lookup_insert_eq. by eapply lookup_lt_Some.
      * simpl in Hf. lia.
      * unfold st1 in Hrun, Hpost. cbn [ms_book ms_remaining] in Hrun, Hpost.
        rewrite (Hsame _ Hpay), Ht2 in Hrun, Hpost. fold st1 in Hrun, Hpost.
        exists st', g', P', qs'. split; [exact Hrun|].
        eapply (level_post_step _ _ _ st g p qs st1 _ _ _ _ _ _ _ [] [aorder o]);
          [done|intros; apply ghost_remove_head_q|done|done| |done|done|exact Hpost].
        unfold st1. simpl. by rewrite victims_all_cons, victims_all_nil.
    + rewrite Hb1. simpl_bind. rewrite Hb2. simpl_bind.
      eexists _, _, P2, qs. split; [done|].
      split; simpl; try done.
      * by apply exact_near.
      * intros; apply ghost_remove_head_q.
      * by apply Hsame.
      * intros x [Hxp _]%not_elem_of_cons. by apply Hpay.
  - (* a trade *)
    set (q := Z.min (ms_remaining st) (o_remaining o)).
    set (b0 := set_counters (ms_book st) (seq_ (ms_book st)) (s64 (nextTradeId_ (ms_book st) + 1))).
    destruct (fill_remove_ok b0 g P p qs o (set_counters_repr _ _ _ _ _ Hr) Hn HQ Ho q)
      as (h & m & b2 & Hh & Hm & Hp & Hr1 & Hpayh & Hb2 & Hr2 & Hn2 & Hpay & [Hs2 Ht2]).
    rewrite Hh. simpl_bind.
    change (sideOf (set_orders b0 h) s) with (sideOf b0 s). rewrite Hm. simpl_bind.
    destruct (set_side_counters (set_orders b0 h) s m) as (Hc1 & Hc2 & Hc3 & _).
    rewrite Hc3. change (orders (set_orders b0 h)) with h. rewrite Hp. simpl_bind.
    change (o_remaining (set_remaining (o_remaining o - q) o)) with (o_remaining o - q).
    set (t := mkTrade _ _ _ _ _ _).
    destruct (o_remaining o - q =? 0) eqn:E0.
    + rewrite Hb2. simpl_bind. set (st1 := mkMatch b2 _ _ _).
      destruct (IH fuel st1 _ P Hr2 Hn2) as (st' & g' & P' & qs' & Hrun & Hpost).
      * rewrite ghost_remove_head_q, decide_True by done.
        apply list_lookup_insert_eq. by eapply lookup_lt_Some.
      * simpl in Hf. lia.
      * unfold st1 in Hrun, Hpost. cbn [ms_book ms_remaining] in Hrun, Hpost.
        rewrite (Hsame _ Hpay), Ht2 in Hrun, Hpost. fold st1 in Hrun, Hpost.
        exists st', g', P', qs'. split; [exact Hrun|].
        eapply (level_post_step _ _ _ st g p qs st1 _ _ _ _ _ _ _ [t] []);
          [done|intros; apply ghost_remove_head_q|done|done| |done|done|exact Hpost].
        unfold st1. simpl. by rewrite victims_all_nil.
    + (* partial fill: remaining is exhausted and the loop stops *)
      simpl_bind. set (b1 := set_side (set_orders b0 h) s m) in *.
      destruct fuel as [|fuel]; [simpl in Hf; lia|]. cbn [matchLevel ms_book ms_remaining].
      destruct (level_head _ _ _ _ _ Hr1 HQ) as (lv1 & o1 & Hlv1 & _).
      rewrite Hlv1. simpl_bind.
      replace (0 <? ms_remaining st - q) with false by (unfold q in *; lia). cbn [andb].
      eexists _, g, P, (p :: qs). split; [done|].
      assert (Hob1 : orders b1 = h) by (by rewrite Hc3).
      split; cbn [ms_book ms_trades ms_victims ms_remaining am_rest am_trades am_victims
                  am_remaining am_tid am_outcome]; try done.
      * intros s'. destruct (decide (s = s')) as [<-|]; [|done]. by rewrite list_insert_id.
      * rewrite Hob1, (queue_cons h p _ qs Hp), (Hsame h Hpayh). done.
      * intros x [Hxp _]%not_elem_of_cons. rewrite Hob1. by apply Hpayh.
      * by rewrite victims_all_nil.
Qed.
End level.

(** ** The outer loop *)

Lemma amatch_outcome stp inc tid rem os :
  Forall (λ o, crosses (n_type inc) (n_side inc) (n_price inc) (ao_price o) = true) os →
  am_outcome (amatch stp inc tid rem os) ≠ NoLongerCrosses.
Proof.
  revert tid rem. induction os as [|o os IH]; intros tid rem Hall; [done|].
  apply Forall_cons in Hall as [Ho Hall]. simpl. rewrite Ho. simpl.
  destruct (negb (0 <? rem)); [done|].
  destruct (ao_participant o =? n_participant inc).
  - destruct stp; try done. by apply IH.
  - destruct (ao_remaining o - _ =? 0); [by apply IH|done].
Qed.

(** A walk that ends for lack of quantity has none left. *)
Lemma amatch_exhausted stp inc tid rem os :
  am_outcome (amatch stp inc tid rem os) = Exhausted →
  am_rest (amatch stp inc tid rem os) ≠ [] →
  am_remaining (amatch stp inc tid rem os) <= 0.
Proof.
  revert tid rem. induction os as [|o os IH]; intros tid rem; [done|]. simpl.
  destruct (negb (0 <? rem)) eqn:E1; [simpl; lia|].
  destruct (negb (crosses _ _ _ _)); [done|].
  destruct (ao_participant o =? n_participant inc).
  - destruct stp; try done. simpl. apply IH.
  - destruct (ao_remaining o - _ =? 0) eqn:E2; simpl; [apply IH|lia].
Qed.

Lemma queue_nil_inv c b g P s i qs :
  repr c b g P → g_q g s !! i = Some qs → queue (orders b) qs = [] → qs = [].
Proof.
  intros Hr HQ Hq. destruct qs as [|p qs]; [done|].
  destruct (rp_order _ _ _ _ Hr s i _ p HQ) as (a & Ha & _); [by left|].
  simpl in Hq. by rewrite Ha in Hq.
Qed.

Lemma queue_prices c b g P s i qs :
  repr c b g P → g_q g s !! i = Some qs →
  Forall (λ o, ao_price o = priceAt c (Z.of_nat i)) (queue (orders b) qs).
Proof.
  intros Hr HQ. assert (Hall : ∀ p, p ∈ qs → ∃ o, payload (orders b) p = Some o ∧
                                      ao_price o = priceAt c (Z.of_nat i)).
  { intros p Hp. destruct (rp_order _ _ _ _ Hr s i qs p HQ Hp) as (o & Ho & _ & Hpr). eauto. }
  clear HQ. induction qs as [|p qs IH]; [constructor|]. simpl.
  destruct (Hall p ltac:(by left)) as (o & -> & Hpr). constructor; [done|].
  apply IH. intros. apply Hall. by right.
Qed.

(** The best price names the first non-empty slot in priority order. *)
Lemma best_slot c b g s :
  config_ok c → repr c b g (gocc g) →
  if hasBest (sideOf b s) then
    ∃ i qs B, best_ (sideOf b s) = priceAt c (Z.of_nat i) ∧
      levelAt (sideOf b s) (best_ (sideOf b s)) = Some (Z.of_nat i) ∧
      g_q g s !! i = Some qs ∧ qs ≠ [] ∧
      ∀ qs', flat s (<[i := qs']> (g_q g s)) = qs' ++ B
  else flat s (g_q g s) = [].
Proof.
  intros Hc Hr. pose proof (rp_sides _ _ _ _ Hr s) as Hs. pose proof Hs as [Hpre Hbest].
  pose proof (hasBest_spec c Hc _ _ _ _ _ Hs) as Hhas.
  destruct (hasBest (sideOf b s)) eqn:E.
  - destruct Hbest as [[Hb Hno]|(k & Hk & HPk & Hb & Hno)].
    { exfalso. destruct Hhas as [Hhas _]. destruct (Hhas eq_refl) as (j & Hj & HP).
      by rewrite Hno in HP. }
    assert (Hki : Z.of_nat (Z.to_nat k) = k) by lia.
    unfold gocc, occ in HPk. destruct (g_q g s !! Z.to_nat k) as [qs|] eqn:HQ; [|done].
    destruct qs as [|p qs]; [done|].
    destruct (flat_split s _ _ _ HQ) as (A & B & Hfl & HA & _).
    exists (Z.to_nat k), (p :: qs), B. rewrite Hki. split; [done|]. split.
    { rewrite Hb. by apply (levelAt_priceAt c Hc _ _ _ _ _ Hpre). }
    split; [done|]. split; [done|].
    assert (A = []) as ->; [|done].
    destruct A as [|x A]; [done|]. exfalso.
    destruct (HA x) as (j & bq & Hah & Hj & Hx); [by left|]. rewrite Hki in Hah.
    specialize (Hno (Z.of_nat j) ltac:(lia) Hah).
    rewrite (gocc_slot g s j bq Hj) in Hno. destruct bq; [by apply elem_of_nil in Hx|].
    by rewrite bool_decide_true in Hno.
  - apply flat_nil. intros i Hi. destruct (gocc g s i) eqn:Ei; [|done].
    exfalso. assert (false = true); [|done]. apply Hhas. eauto.
Qed.

Record match_post (c : BookConfig) (s : Side) (st : MatchState) (g : ghost) (r : AMatch)
    (st' : MatchState) (g' : ghost) : Prop := {
  mp_repr : repr c (ms_book st') g' (gocc g');
  mp_rest : queue (orders (ms_book st')) (flat s (g_q g' s)) = am_rest r;
  mp_other : g_q g' (opposite s) = g_q g (opposite s);
  mp_frame : ∀ x, x ∉ concat (g_q g s) →
    payload (orders (ms_book st')) x = payload (orders (ms_book st)) x;
  mp_trades : ms_trades st' = Buffer.push_all (ms_trades st) (am_trades r);
  mp_victims : ms_victims st' = victims_all (ms_victims st) (am_victims r);
  mp_remaining : ms_remaining st' = am_remaining r;
  mp_tid : nextTradeId_ (ms_book st') = am_tid r;
  mp_seq : seq_ (ms_book st') = seq_ (ms_book st)
}.

Lemma match_post_stop c s st g out :
  repr c (ms_book st) g (gocc g) →
  match_post c s st g (mkAMatch (queue (orders (ms_book st)) (flat s (g_q g s))) [] []
    (ms_remaining st) (nextTradeId_ (ms_book st)) out) st g.
Proof. intros Hr. split; try done. simpl. by rewrite victims_all_nil. Qed.

(** After the level in slot [i] has been consumed, the side's list is what is left
    of the level followed by the untouched rest [B]. *)
Section after_level.
Context {c : BookConfig} {s : Side} {i : nat} {st : MatchState} {g : ghost} {qs B : list ptr}.
Context {r1 : AMatch} {st1 : MatchState} {g1 : ghost} {P1 : Side → Z → bool} {qs1 : list ptr}.
Context (Hr : repr c (ms_book st) g (gocc g)) (HQ : g_q g s !! i = Some qs).
Context (Hfl : ∀ qs', flat s (<[i := qs']> (g_q g s)) = qs' ++ B).
Context (Hpost : level_post c s i st g qs r1 st1 g1 P1 qs1).
Context {b2 : OrderBook} (Hr2 : repr c b2 g1 (gocc g1)).
Context (Ho2 : orders b2 = orders (ms_book st1)) (Hc2 : same_counters (ms_book st1) b2).

#[local] Abbreviation st2 := (mkMatch b2 (ms_trades st1) (ms_victims st1) (ms_remaining st1)).

Lemma after_flat0 : flat s (g_q g s) = qs ++ B.
Proof. rewrite <- Hfl. by rewrite list_insert_id. Qed.

Lemma after_flat : flat s (g_q g1 s) = qs1 ++ B.
Proof. rewrite (lp_q _ _ _ _ _ _ _ _ _ _ _ Hpost), decide_True by done. apply Hfl. Qed.

Lemma after_rest : queue (orders b2) B = queue (orders (ms_book st)) B.
Proof.
  apply queue_payload. intros x Hx. rewrite Ho2. apply (lp_frame _ _ _ _ _ _ _ _ _ _ _ Hpost).
  pose proof (rp_nodup _ _ _ _ Hr s) as Hnd. rewrite <- (flat_perm s), after_flat0 in Hnd.
  apply NoDup_app in Hnd as (_ & Hd & _). intros Hx2. by apply (Hd x).
Qed.

Lemma after_other : g_q g1 (opposite s) = g_q g (opposite s).
Proof.
  rewrite (lp_q _ _ _ _ _ _ _ _ _ _ _ Hpost), decide_False; [done|]. by destruct s.
Qed.

Lemma after_frame x : x ∉ concat (g_q g s) →
  payload (orders b2) x = payload (orders (ms_book st)) x.
Proof.
  intros Hx. rewrite Ho2. apply (lp_frame _ _ _ _ _ _ _ _ _ _ _ Hpost).
  intros Hin. apply Hx, elem_of_concat. eauto.
Qed.

Lemma after_stop out :
  match_post c s st g
    (mkAMatch (am_rest r1 ++ queue (orders (ms_book st)) B) (am_trades r1) (am_victims r1)
       (am_remaining r1) (am_tid r1) out) st2 g1.
Proof.
  pose proof Hpost as [L1 L2 L3 L4 L5 L6 L7 L8 L9 L10 L11]. destruct Hc2 as [Hs Ht].
  split; simpl; try done.
  - by rewrite after_flat, queue_app, after_rest, Ho2, L5.
  - apply after_other.
  - apply after_frame.
  - congruence.
  - congruence.
Qed.

Lemma after_continue r2 st' g' :
  qs1 = [] → match_post c s st2 g1 r2 st' g' →
  match_post c s st g
    (mkAMatch (am_rest r2) (am_trades r1 ++ am_trades r2) (am_victims r1 ++ am_victims r2)
       (am_remaining r2) (am_tid r2) (am_outcome r2)) st' g'.
Proof.
  intros Hnil [M1 M2 M3 M4 M5 M6 M7 M8 M9]. destruct Hc2 as [Hs Ht].
  pose proof Hpost as [L1 L2 L3 L4 L5 L6 L7 L8 L9 L10 L11].
  split; simpl in *; try done.
  - rewrite M3. apply after_other.
  - intros x Hx. rewrite M4; [by apply after_frame|].
    intros Hin. apply Hx. rewrite <- (elem_of_flat s) in Hin |- *.
    rewrite after_flat, Hnil in Hin. rewrite after_flat0. apply elem_of_app. by right.
  - by rewrite M5, L7, Buffer.push_all_app.
  - by rewrite M6, L8, victims_all_app.
  - congruence.
Qed.
End after_level.

Section outer.
Context (c : BookConfig) (Hc : config_ok c) (inc : NewOrder).
#[local] Abbreviation s := (opposite (n_side inc)).

(** Nothing happens any more once the quantity is used up. *)
Lemma matchLoop_done fuel st : ms_remaining st <= 0 →
  matchLoop (S fuel) inc st = Some (st, Exhausted).
Proof. intros Hle. cbn [matchLoop]. by replace (0 <? ms_remaining st) with false by lia. Qed.

Lemma matchLoop_ok fuel st g :
  repr c (ms_book st) g (gocc g) → (length (concat (g_q g s)) < fuel)%nat →
  let r := amatch (cfg_stp c) inc (nextTradeId_ (ms_book st)) (ms_remaining st)
             (queue (orders (ms_book st)) (flat s (g_q g s))) in
  ∃ st' g', matchLoop fuel inc st = Some (st', am_outcome r) ∧ match_post c s st g r st' g'.
Proof.
  revert st g. induction fuel as [|fuel IH]; intros st g Hr Hf; [lia|]. cbn [matchLoop].
  pose proof (best_slot c _ g s Hc Hr) as Hbest.
  destruct (hasBest (sideOf (ms_book st) s)) eqn:Eb.
  2: { rewrite andb_false_r, Hbest. exists st, g. split; [done|].
       pose proof (match_post_stop c s st g Exhausted Hr) as Hp. by rewrite Hbest in Hp. }
  rewrite andb_true_r. destruct Hbest as (i & qs & B & Hbp & Hla & HQ & Hne & Hfl).
  assert (Hflat : flat s (g_q g s) = qs ++ B).
  { rewrite <- Hfl. by rewrite list_insert_id. }
  destruct qs as [|p qs0]; [done|]. set (qs := p :: qs0) in *.
  destruct (rp_order _ _ _ _ Hr s i qs p HQ ltac:(by left)) as (a & Ha & _ & Hap).
  assert (Hq : ∃ os, queue (orders (ms_book st)) (flat s (g_q g s)) = a :: os).
  { rewrite Hflat. simpl. rewrite Ha. eauto. }
  destruct (0 <? ms_remaining st) eqn:Erem; cbn [andb].
  2: { exists st, g. destruct Hq as [os Hq]. simpl. rewrite Hq. simpl. rewrite Erem. simpl.
       split; [done|]. rewrite <- Hq. by apply match_post_stop. }
  rewrite Hbp. destruct (crosses _ _ _ (priceAt c (Z.of_nat i))) eqn:Ex; cbn [negb].
  2: { exists st, g. destruct Hq as [os Hq]. simpl. rewrite Hq. simpl.
       rewrite Erem, Hap, Ex. simpl. split; [done|]. rewrite <- Hq. by apply match_post_stop. }
  rewrite Hbp in Hla. rewrite Hla. simpl_bind.
  assert (Hlen : length (concat (g_q g s)) = (length qs + length B)%nat).
  { by rewrite <- (length_flat s), Hflat, length_app. }
  destruct (matchLevel_ok c Hc inc s i Ex qs (loopFuel (ms_book st)) st g (gocc g) Hr)
    as (st1 & g1 & P1 & qs1 & Hrun & Hpost); [by apply exact_near|done| |].
  { unfold loopFuel. pose proof (rp_total Hr s). lia. }
  rewrite Hrun. simpl_bind. clear Hrun.
  pose proof (lp_repr _ _ _ _ _ _ _ _ _ _ _ Hpost) as Hr1.
  assert (HQ1 : g_q g1 s !! i = Some qs1).
  { rewrite (lp_q _ _ _ _ _ _ _ _ _ _ _ Hpost), decide_True by done.
    apply list_lookup_insert_eq. by eapply lookup_lt_Some. }
  rewrite Hflat, queue_app, amatch_app. cbv zeta.
  set (r1 := amatch (cfg_stp c) inc _ _ (queue (orders (ms_book st)) qs)) in *.
  destruct (decide (am_outcome r1 = StpFired)) as [Hstp|Hstp].
  { (* self-trade prevention ends the command *)
    rewrite bool_decide_true by done. exists st1, g1. rewrite Hstp. split; [done|].
    apply (repr_exact _ _ _ _ (lp_stp _ _ _ _ _ _ _ _ _ _ _ Hpost Hstp)) in Hr1.
    pose proof (after_stop Hr HQ Hfl Hpost Hr1 eq_refl (Build_same_counters _ _ eq_refl eq_refl) StpFired) as Hp.
    by destruct st1. }
  rewrite bool_decide_false by done.
  destruct (emptiedCheck_ok c (ms_book st1) g1 P1 s i qs1 Hc Hr1 HQ1) as (b2 & Hb2 & Hr2 & Ho2 & Hc2).
  apply repr_exact in Hr2; [|apply near_emptied; [apply Hpost|done]].
  rewrite Hb2. simpl_bind.
  assert (Hout : am_outcome r1 = Exhausted).
  { assert (am_outcome r1 ≠ NoLongerCrosses); [|by destruct (am_outcome r1)].
    apply amatch_outcome. eapply Forall_impl; [by eapply queue_prices|].
    intros o Hpo. simpl in Hpo. by rewrite Hpo. }
  rewrite Hout. destruct (am_rest r1) as [|a1 rest] eqn:Erest.
  - (* the level is exhausted: go on with the rest of the side *)
    assert (qs1 = []) as ->.
    { eapply queue_nil_inv; [exact Hr1|exact HQ1|]. by rewrite (lp_rest _ _ _ _ _ _ _ _ _ _ _ Hpost). }
    destruct (IH (mkMatch b2 (ms_trades st1) (ms_victims st1) (ms_remaining st1)) g1 Hr2)
      as (st' & g' & Hrun & Hpost').
    { rewrite <- (length_flat s), (after_flat Hfl Hpost). simpl in *. lia. }
    pose proof (lp_tid _ _ _ _ _ _ _ _ _ _ _ Hpost) as Htid. destruct Hc2 as [Hs2 Ht2].
    cbn [ms_book ms_remaining] in Hrun, Hpost'.
    rewrite (after_flat Hfl Hpost) in Hrun, Hpost'. cbn [app] in Hrun, Hpost'.
    rewrite (after_rest Hr HQ Hfl Hpost Ho2), Ht2, Htid in Hrun, Hpost'.
    rewrite <- (lp_remaining _ _ _ _ _ _ _ _ _ _ _ Hpost).
    exists st', g'. split; [exact Hrun|]. by eapply (after_continue HQ Hfl Hpost Ho2).
  - (* the quantity is used up *)
    assert (Hle : ms_remaining st1 <= 0).
    { rewrite (lp_remaining _ _ _ _ _ _ _ _ _ _ _ Hpost).
      apply amatch_exhausted; [exact Hout|]. fold r1. by rewrite Erest. }
    destruct fuel as [|fuel]; [simpl in Hlen; lia|]. rewrite matchLoop_done by done.
    eexists _, g1. split; [done|]. rewrite <- Erest.
    by apply (after_stop Hr HQ Hfl Hpost Hr2).
Qed.
End outer.
