(* ===== verification/BookScan.v ===== *)
(** [OrderBook::availableAgainst], the read-only scan that decides whether a
    fill-or-kill order can be filled, computes [aavailable] of the opposite
    side's priority list. *)
From S2P Require Import Prelude Types ObjectPool PriceLevel OrderIdMap LevelMap OrderBook AbstractBook BookRepr BookMatch.

(** ** The queues behind a slot *)

Definition behind (s : Side) (Q : list (list ptr)) (i : nat) : list ptr :=
  match s with Buy => concat (rev (take i Q)) | Sell => concat (drop (S i) Q) end.

Lemma concat_empty (Q : list (list ptr)) : Forall (λ q, q = []) Q → concat Q = [].
Proof. induction 1 as [|q Q -> _ IH]; [done|]. done. Qed.

Lemma occ_false_slot Q j q : occ Q (Z.of_nat j) = false → Q !! j = Some q → q = [].
Proof. unfold occ. rewrite Nat2Z.id. intros Hf Hq. rewrite Hq in Hf. by destruct q. Qed.

Lemma behind_split s Q i qs : Q !! i = Some qs →
  ∃ A, ∀ qs', flat s (<[i := qs']> Q) = A ++ qs' ++ behind s Q i.
Proof.
  intros HQ. pose proof (lookup_lt_Some _ _ _ HQ) as Hlt. destruct s; unfold flat, behind.
  - exists (concat (rev (drop (S i) Q))). intros qs'. rewrite insert_take_drop by done.
    rewrite rev_app_distr. simpl. rewrite !concat_app. simpl. by rewrite app_nil_r, <- app_assoc.
  - exists (concat (take i Q)). intros qs'. rewrite insert_take_drop by done.
    by rewrite concat_app.
Qed.

(** Nothing but empty slots up to the next occupied one. *)
Lemma behind_next s Q i k qs :
  Q !! k = Some qs → ahead s (Z.of_nat i) (Z.of_nat k) → (i < length Q)%nat →
  (∀ j, 0 <= j → ahead s (Z.of_nat i) j → ahead s j (Z.of_nat k) → occ Q j = false) →
  behind s Q i = qs ++ behind s Q k.
Proof.
  intros HQ Hah Hi Hno.
  assert (Hmid : ∀ j q, ahead s (Z.of_nat i) (Z.of_nat j) → ahead s (Z.of_nat j) (Z.of_nat k) →
            Q !! j = Some q → q = []).
  { intros j q H1 H2 Hq. eapply occ_false_slot; [|done]. apply Hno; [lia|done|done]. }
  destruct s; simpl in *.
  - assert (Ht : take i Q = take k Q ++ qs :: drop (S k) (take i Q)).
    { rewrite <- (take_drop k (take i Q)) at 1. rewrite take_take, Nat.min_l by lia. f_equal.
      apply drop_S. rewrite lookup_take_lt by lia. done. }
    rewrite Ht, rev_app_distr. simpl. rewrite !concat_app. simpl. rewrite app_nil_r.
    rewrite (concat_empty (rev _)); [done|]. apply Forall_rev, Forall_lookup. intros j q Hj.
    rewrite lookup_drop in Hj. destruct (decide (S k + j < i)%nat) as [Hlt|Hge].
    + rewrite lookup_take_lt in Hj by lia. eapply Hmid; [| |done]; lia.
    + rewrite lookup_take_ge in Hj by lia. done.
  - assert (Ht : drop (S i) Q = take (k - S i) (drop (S i) Q) ++ qs :: drop (S k) Q).
    { rewrite <- (take_drop (k - S i) (drop (S i) Q)) at 1. f_equal.
      rewrite drop_drop. replace (S i + (k - S i))%nat with k by lia. by apply drop_S. }
    rewrite Ht, concat_app. rewrite (concat_empty (take _ _)); [done|].
    apply Forall_lookup. intros j q Hj. destruct (decide (j < k - S i)%nat).
    + rewrite lookup_take_lt, lookup_drop in Hj by lia. eapply Hmid; [| |done]; lia.
    + rewrite lookup_take_ge in Hj by lia. done.
Qed.

Lemma behind_none s Q i :
  (i < length Q)%nat →
  (∀ j, 0 <= j → ahead s (Z.of_nat i) j → occ Q j = false) → behind s Q i = [].
Proof.
  intros Hi Hno. destruct s; simpl in *; apply concat_empty.
  - apply Forall_rev, Forall_lookup. intros j q Hj. destruct (decide (j < i)%nat).
    + rewrite lookup_take_lt in Hj by lia.
      eapply occ_false_slot; [|done]. apply Hno; lia.
    + rewrite lookup_take_ge in Hj by lia. done.
  - apply Forall_lookup. intros j q Hj. rewrite lookup_drop in Hj.
    eapply occ_false_slot; [|done]. apply Hno; lia.
Qed.

(** ** One level *)

Fixpoint ascan (stp : StpPolicy) (inc : NewOrder) (os : list AOrder) (sum : Z) : Z * bool :=
  match os with
  | [] => (sum, false)
  | o :: os' =>
      if ao_participant o =? n_participant inc then
        match stp with CancelPassive => ascan stp inc os' sum | _ => (sum, true) end
      else
        let sum := s64 (sum + ao_remaining o) in
        if n_quantity inc <=? sum then (sum, true) else ascan stp inc os' sum
  end.

Lemma aavailable_app stp inc xs ys sum :
  Forall (λ o, crosses (n_type inc) (n_side inc) (n_price inc) (ao_price o) = true) xs →
  aavailable stp inc (xs ++ ys) sum =
    let '(v, ret) := ascan stp inc xs sum in if ret : bool then v else aavailable stp inc ys v.
Proof.
  intros Hall. revert sum. induction Hall as [|o xs Ho _ IH]; intros sum; [done|]. simpl.
  rewrite Ho. simpl. destruct (ao_participant o =? n_participant inc).
  - destruct stp; [done|apply IH|done].
  - destruct (n_quantity inc <=? _); [done|]. apply IH.
Qed.

Lemma scanLevel_ok b inc lr pv qs fuel sum :
  dseg (orders b) lr pv qs None → (length qs < fuel)%nat →
  scanLevel fuel b inc (first qs None) sum
    = Some (ascan (cfg_stp (cfg_ b)) inc (queue (orders b) qs) sum).
Proof.
  revert pv fuel sum. induction qs as [|p qs IH]; intros pv fuel sum Hd Hf;
    (destruct fuel as [|fuel]; [simpl in Hf; lia|]); [done|].
  destruct Hd as (o & Ho & _ & Hnx & _ & Hd). rewrite (queue_cons _ _ _ _ Ho).
  cbn [first scanLevel]. rewrite Ho. cbn [mbind option_bind ascan].
  change (ao_participant (aorder o)) with (o_participant o).
  change (ao_remaining (aorder o)) with (o_remaining o).
  assert (Hrec : ∀ sum, scanLevel fuel b inc (o_next o) sum
            = Some (ascan (cfg_stp (cfg_ b)) inc (queue (orders b) qs) sum)).
  { intros sum'. rewrite Hnx. apply (IH (Some p)); [done|simpl in Hf; lia]. }
  destruct (o_participant o =? n_participant inc).
  - destruct (cfg_stp (cfg_ b)); [done|apply Hrec|done].
  - destruct (n_quantity inc <=? _); [done|apply Hrec].
Qed.

(** The best price's queue comes first, and what is behind it follows. *)
Lemma best_front c b g s :
  config_ok c → repr c b g (gocc g) →
  if hasBest (sideOf b s) then
    ∃ i qs, best_ (sideOf b s) = priceAt c (Z.of_nat i) ∧ g_q g s !! i = Some qs ∧ qs ≠ [] ∧
      flat s (g_q g s) = qs ++ behind s (g_q g s) i ∧
      (length (qs ++ behind s (g_q g s) i) <= length (orders b))%nat
  else best_ (sideOf b s) = emptySentinel s ∧ flat s (g_q g s) = [].
Proof.
  intros Hc Hr. pose proof (best_slot c b g s Hc Hr) as Hbest.
  destruct (hasBest (sideOf b s)) eqn:Eb.
  - destruct Hbest as (i & qs & B & Hb & _ & HQ & Hne & Hfl). exists i, qs.
    destruct (behind_split s (g_q g s) i qs HQ) as (A & HA).
    assert (A = []) as ->.
    { destruct A as [|x A]; [done|]. exfalso.
      pose proof (HA [0%nat]) as H0. pose proof (HA [1%nat]) as H1. rewrite Hfl in H0, H1.
      simpl in H0, H1. congruence. }
    assert (Hflat : flat s (g_q g s) = qs ++ behind s (g_q g s) i).
    { rewrite <- (list_insert_id (g_q g s) i qs) at 1 by done. apply HA. }
    split_and!; try done. rewrite <- Hflat, length_flat. pose proof (rp_total Hr s). lia.
  - split; [|done]. unfold hasBest in Eb.
    rewrite (lm_side _ _ _ _ _ _ (lm_parts _ _ _ _ _ _ (rp_sides _ _ _ _ Hr s))) in Eb. lia.
Qed.

(** ** The walk over levels *)

Section scan.
Context (c : BookConfig) (Hc : config_ok c) (b : OrderBook) (g : ghost).
Context (Hr : repr c b g (gocc g)) (inc : NewOrder).
#[local] Abbreviation s := (opposite (n_side inc)).
#[local] Abbreviation Q := (g_q g s).

Lemma availableLoop_ok fuel i qs sum :
  Q !! i = Some qs → qs ≠ [] → (length qs + length (behind s Q i) < fuel)%nat →
  (length (qs ++ behind s Q i) <= length (orders b))%nat →
  availableLoop fuel b inc (priceAt c (Z.of_nat i)) sum
    = Some (aavailable (cfg_stp c) inc (queue (orders b) (qs ++ behind s Q i)) sum).
Proof.
  revert i qs sum. induction fuel as [|fuel IH]; intros i qs sum HQ Hne Hf Hlen; [lia|].
  pose proof (rp_sides _ _ _ _ Hr s) as Hs. pose proof (lm_parts _ _ _ _ _ _ Hs) as Hpre.
  pose proof (level_slot c _ _ _ _ _ Hpre _ _ HQ) as Hi.
  cbn [availableLoop]. pose proof (priceAt_not_sentinel c Hc s _ Hi).
  destruct (_ =? emptySentinel s) eqn:Es; [lia|].
  pose proof (queue_prices c b g _ s i qs Hr HQ) as Hpr. rewrite queue_app.
  destruct (crosses _ _ _ (priceAt c (Z.of_nat i))) eqn:Ex; cbn [negb].
  2: { destruct qs as [|p qs]; [done|].
       destruct (rp_order _ _ _ _ Hr s i _ p HQ) as (o & Ho & _ & Hpo); [by left|].
       simpl. rewrite Ho. simpl. by rewrite Hpo, Ex. }
  rewrite (levelAt_priceAt c Hc _ _ _ _ _ Hpre _ Hi). simpl_bind.
  destruct (level_get c _ _ _ _ _ Hpre _ _ HQ) as (lv & -> & Hok & _). simpl_bind.
  rewrite (lv_head _ _ _ _ Hok), (scanLevel_ok _ _ _ _ _ _ _ (lv_links _ _ _ _ Hok)).
  2: { unfold loopFuel. rewrite length_app in Hlen. lia. }
  simpl_bind. rewrite (rp_cfg _ _ _ _ Hr).
  rewrite aavailable_app by (eapply Forall_impl; [exact Hpr|]; intros o Hpo; simpl in Hpo; by rewrite Hpo).
  destruct (ascan _ _ _ sum) as [v []]; [done|].
  destruct (nextOccupied_ok c Hc _ _ _ _ _ Hpre _ Hi) as (nb & -> & Hnext). simpl_bind.
  pose proof (lookup_lt_Some _ _ _ HQ) as HiQ.
  assert (Hn0 : length qs ≠ 0%nat) by (destruct qs; [done|simpl; lia]).
  destruct Hnext as [[-> Hno]|(k & Hk & HPk & -> & Hah & Hno)].
  - rewrite (behind_none s Q i HiQ) by done.
    destruct fuel as [|fuel]; [lia|]. cbn [availableLoop].
    by rewrite Z.eqb_refl.
  - unfold gocc, occ in HPk. destruct (Q !! Z.to_nat k) as [qk|] eqn:HQk; [|done].
    assert (Hki : Z.of_nat (Z.to_nat k) = k) by lia. rewrite <- Hki in Hah, Hno |- *.
    rewrite (behind_next s Q i (Z.to_nat k) qk HQk Hah HiQ Hno) in Hf, Hlen |- *.
    apply IH; [done|by destruct qk| |]; rewrite !length_app in *; lia.
Qed.

Lemma availableAgainst_ok :
  availableAgainst b inc = Some (aavailable (cfg_stp c) inc (queue (orders b) (flat s Q)) 0).
Proof.
  unfold availableAgainst. pose proof (best_front c b g s Hc Hr) as Hbest.
  destruct (hasBest (sideOf b s)) eqn:Eb.
  - destruct Hbest as (i & qs & -> & HQ & Hne & -> & Hlen). apply availableLoop_ok; [done|done| |done].
    unfold loopFuel. rewrite length_app in Hlen. lia.
  - destruct Hbest as [-> ->]. simpl. by rewrite Z.eqb_refl.
Qed.
End scan.
