(* ===== verification/BookRefine.v ===== *)
(** Every operation of [OrderBook] implements its abstract counterpart.

    Each refinement theorem says: from a book that represents [a], the operation
    returns (no undefined behaviour, no exhausted fuel), its outputs are those of
    the abstract operation, and the resulting book represents the abstract result. *)
From S2P Require Import Prelude Types ObjectPool PriceLevel OrderIdMap LevelMap OrderBook AbstractBook BookRepr BookMatch BookScan.

(** ** Looking up an id *)

Lemma elem_of_queue h qs o : o ∈ queue h qs ↔ ∃ p, p ∈ qs ∧ payload h p = Some o.
Proof.
  induction qs as [|q qs IH]; simpl.
  - split; [by intros ?%elem_of_nil|]. by intros (p & ?%elem_of_nil & _).
  - setoid_rewrite elem_of_cons. destruct (payload h q) as [x|] eqn:Eq.
    + rewrite elem_of_cons, IH. split.
      * intros [->|(p & Hp & Ho)]; eauto.
      * intros (p & [->|Hp] & Ho); [left; congruence|]. eauto.
    + rewrite IH. split.
      * intros (p & Hp & Ho). eauto.
      * intros (p & [->|Hp] & Ho); [congruence|]. eauto.
Qed.

Section lookup.
Context {c : BookConfig} {b : OrderBook} {g : ghost} {P : Side → Z → bool} {a : ABook}.
Context (Hr : repr c b g P).
Context (Hsides : ∀ s, aside a s = queue (orders b) (flat s (g_q g s))).

Lemma elem_of_aresting o :
  o ∈ aresting a ↔ ∃ p s, p ∈ concat (g_q g s) ∧ payload (orders b) p = Some o.
Proof.
  unfold aresting. change (ab_bids a) with (aside a Buy). change (ab_asks a) with (aside a Sell).
  rewrite elem_of_app, !Hsides, !elem_of_queue. setoid_rewrite elem_of_flat. split.
  - intros [(p & ? & ?)|(p & ? & ?)]; eauto.
  - intros (p & [] & ? & ?); eauto.
Qed.

Lemma afind_spec id : afind a id = g_map g !! id ≫= payload (orders b).
Proof.
  assert (Huniq : ∀ o, o ∈ aresting a → ao_id o = id →
            g_map g !! id ≫= payload (orders b) = Some o).
  { intros o (p & s & Hp & Ho)%elem_of_aresting Hid.
    assert (Hm : g_map g !! id = Some p).
    { apply (rp_ids _ _ _ _ Hr). split; [eauto|]. rewrite Ho. simpl. congruence. }
    by rewrite Hm. }
  unfold afind. destruct (list_find _ (aresting a)) as [[n o]|] eqn:Ef.
  - apply list_find_Some in Ef as (Hn & Hid & _). simpl. symmetry. apply Huniq; [|done].
    by apply list_elem_of_lookup_2 in Hn.
  - simpl. destruct (g_map g !! id) as [p|] eqn:Hm; [|done]. simpl.
    apply (rp_ids _ _ _ _ Hr) in Hm as [[s Hp] Hid].
    destruct (payload (orders b) p) as [o|] eqn:Ho; [|done]. exfalso.
    apply list_find_None in Ef. rewrite Forall_forall in Ef. apply (Ef o).
    + apply elem_of_aresting. eauto.
    + simpl in Hid. congruence.
Qed.

Lemma afind_none id : afind a id = None ↔ g_map g !! id = None.
Proof.
  rewrite afind_spec. destruct (g_map g !! id) as [p|] eqn:Hm; [|done]. simpl.
  apply (rp_ids _ _ _ _ Hr) in Hm as [_ Hid]. by destruct (payload (orders b) p).
Qed.

Lemma length_queue s : length (queue (orders b) (flat s (g_q g s))) = length (concat (g_q g s)).
Proof.
  rewrite <- (length_flat s).
  assert (Hlive : ∀ p, p ∈ flat s (g_q g s) → is_Some (payload (orders b) p)).
  { intros p Hp%elem_of_flat. destruct (rp_live Hr _ _ Hp) as [o Ho].
    unfold payload. rewrite Ho. by eexists. }
  revert Hlive. generalize (flat s (g_q g s)) as l. induction l as [|p l IH]; intros Hlive; [done|].
  simpl. destruct (Hlive p) as [o ->]; [by left|]. simpl. f_equal. apply IH.
  intros. apply Hlive. by right.
Qed.

Lemma length_aresting : length (aresting a) = size (g_map g).
Proof.
  unfold aresting. change (ab_bids a) with (aside a Buy). change (ab_asks a) with (aside a Sell).
  rewrite length_app, !Hsides, !length_queue. by rewrite (rp_size Hr).
Qed.

(** The pool has a free slot exactly when fewer than [maxOrders] orders rest. *)
Lemma free_nil :
  g_free g = [] ↔ ¬ Z.of_nat (length (aresting a)) < cfg_maxOrders c.
Proof.
  rewrite length_aresting, (rp_size Hr), <- (rp_pool_length Hr), <- (rp_count _ _ _ _ Hr).
  destruct (g_free g); simpl; split; intros; done || lia.
Qed.
End lookup.

(** ** Resting *)

Lemma arest_app s o xs ys :
  Forall (λ x, noWorse s (ao_price x) (ao_price o) = true) xs →
  Forall (λ y, noWorse s (ao_price y) (ao_price o) = false) ys →
  arest s o (xs ++ ys) = xs ++ o :: ys.
Proof.
  intros Hx Hy. induction Hx as [|x xs Hx _ IH]; simpl.
  - destruct Hy as [|y ys Hy _]; [done|]. simpl. by rewrite Hy.
  - by rewrite Hx, IH.
Qed.

Lemma noWorse_slot c s i j :
  config_ok c →
  noWorse s (priceAt c j) (priceAt c i) = negb (bool_decide (ahead s i j)).
Proof.
  intros Hc. pose proof (co_tick _ Hc) as Ht. unfold noWorse, priceAt.
  destruct s; simpl; case_bool_decide; simpl; nia.
Qed.

(** Appending to a slot's queue is [arest] on the side's priority list. *)
Lemma rest_flat c b g s i qs p h o :
  config_ok c → repr c b g (gocc g) → g_q g s !! i = Some qs →
  p ∉ concat (g_q g s) → payload h p = Some o → ao_price o = priceAt c (Z.of_nat i) →
  (∀ x, x ≠ p → payload h x = payload (orders b) x) →
  queue h (flat s (<[i := qs ++ [p]]> (g_q g s)))
    = arest s o (queue (orders b) (flat s (g_q g s))).
Proof.
  intros Hc Hr HQ Hp Ho Hprice Hpay.
  destruct (flat_split s _ _ _ HQ) as (A & B & Hfl & HA & HB).
  assert (Hflat : flat s (g_q g s) = A ++ qs ++ B).
  { rewrite <- (list_insert_id (g_q g s) i qs) at 1 by done. apply Hfl. }
  assert (Hsame : ∀ l, (∀ x, x ∈ l → x ∈ flat s (g_q g s)) → queue h l = queue (orders b) l).
  { intros l Hl. apply queue_payload. intros x Hx. apply Hpay. intros ->.
    apply Hp. rewrite <- (elem_of_flat s). by apply Hl. }
  assert (Hpr : ∀ j bq x y, g_q g s !! j = Some bq → x ∈ bq → payload (orders b) x = Some y →
            ao_price y = priceAt c (Z.of_nat j)).
  { intros j bq x y Hj Hx Hy. destruct (rp_order _ _ _ _ Hr s j bq x Hj Hx) as (z & Hz & _ & ?).
    congruence. }
  rewrite Hfl, Hflat, !queue_app.
  rewrite (Hsame A), (Hsame qs), (Hsame B) by (rewrite Hflat; set_solver).
  assert (Hq1 : queue h [p] = [o]) by (simpl; by rewrite Ho). rewrite Hq1.
  rewrite app_assoc, (app_assoc (queue _ A) (queue _ qs) [o]), <- app_assoc. simpl.
  symmetry. rewrite (app_assoc (queue _ A)). rewrite arest_app; [done| |]; rewrite Hprice.
  - apply Forall_app. split; apply Forall_forall; intros y (x & Hx & Hy)%elem_of_queue.
    + destruct (HA x Hx) as (j & bq & Hah & Hj & Hin). rewrite (Hpr _ _ _ _ Hj Hin Hy).
      rewrite noWorse_slot by done. rewrite bool_decide_false; [done|]. destruct s; simpl in *; lia.
    + rewrite (Hpr _ _ _ _ HQ Hx Hy), noWorse_slot by done.
      rewrite bool_decide_false; [done|]. destruct s; simpl; lia.
  - apply Forall_forall. intros y (x & Hx & Hy)%elem_of_queue.
    destruct (HB x Hx) as (j & bq & Hah & Hj & Hin). rewrite (Hpr _ _ _ _ Hj Hin Hy).
    rewrite noWorse_slot by done. by rewrite bool_decide_true.
Qed.

(** A price the book can rest at: in range and a whole number of ticks from the
    minimum. *)
Definition aligned (c : BookConfig) (p : Z) : Prop := (p - cfg_minPrice c) mod cfg_tick c = 0.

Lemma aligned_slot c b g P s p :
  config_ok c → repr c b g P → ainRange c p = true → aligned c p →
  ∃ i qs, p = priceAt c (Z.of_nat i) ∧ g_q g s !! i = Some qs.
Proof.
  intros Hc Hr Hin Hal. unfold ainRange, aligned in *. pose proof (co_tick _ Hc) as Ht.
  apply Z.mod_divide in Hal as [k Hk]; [|lia].
  assert (Hks : 0 <= k < slots c).
  { unfold slots. split; [nia|].
    assert (k <= (cfg_maxPrice c - cfg_minPrice c) / cfg_tick c); [|lia].
    apply Z.div_le_lower_bound; nia. }
  pose proof (lm_lenQ _ _ _ _ _ _ (lm_parts _ _ _ _ _ _ (rp_sides _ _ _ _ Hr s))) as Hlen.
  destruct (lookup_lt_is_Some_2 (g_q g s) (Z.to_nat k)) as [qs HQ]; [lia|].
  exists (Z.to_nat k), qs. split; [|done]. unfold priceAt. rewrite Z2Nat.id by lia. lia.
Qed.

Lemma aside_set_aside a s os s' :
  aside (set_aside a s os) s' = if decide (s = s') then os else aside a s'.
Proof. by destruct s, s'. Qed.

Lemma set_pool_id b : set_pool b (pool_ b) = b.
Proof. by destruct b. Qed.

(** What the book represents once [rest_core] has placed a new order. *)
Lemma rest_Repr c b g a s i qs p fl o m h im pl :
  config_ok c → repr c b g (gocc g) →
  (∀ s, aside a s = queue (orders b) (flat s (g_q g s))) →
  seq_ b = ab_seq a → nextTradeId_ b = ab_tid a →
  g_q g s !! i = Some qs → g_free g = p :: fl → o_price o = priceAt c (Z.of_nat i) →
  payload h p = Some (aorder o) → (∀ x, x ≠ p → payload h x = payload (orders b) x) →
  repr c (set_idMap (set_side (set_pool b (set_storage pl h)) s m) im)
    (ghost_rest g s i qs p (o_id o) fl) (gocc (ghost_rest g s i qs p (o_id o) fl)) →
  Repr c (set_idMap (set_side (set_pool b (set_storage pl h)) s m) im)
    (set_aside a s (arest s (aorder o) (aside a s))).
Proof.
  intros Hc Hr Hsides Hsq Htid HQ Hfree Hprice Hp Hpay Hr'.
  eexists. split; [exact Hr'|].
  assert (Hord : orders (set_idMap (set_side (set_pool b (set_storage pl h)) s m) im) = h)
    by (by destruct s).
  rewrite Hord. split; [|by destruct s].
  intros s'. rewrite ghost_rest_q, aside_set_aside. destruct (decide (s = s')) as [<-|Hne].
  - rewrite Hsides. symmetry. eapply rest_flat; try done. by apply (rest_fresh Hr p fl Hfree).
  - rewrite Hsides. symmetry. apply queue_payload. intros x Hx%elem_of_flat. apply Hpay.
    intros ->. by apply (rest_fresh Hr p fl Hfree) in Hx.
Qed.

Lemma restResidual_ok c b a inc sq rem :
  config_ok c → Repr c b a → ainRange c (n_price inc) = true → aligned c (n_price inc) →
  afind a (n_id inc) = None →
  let room := Z.of_nat (length (aresting a)) <? cfg_maxOrders c in
  ∃ b', restResidual b inc sq rem = Some (b', room) ∧
    Repr c b' (if room then set_aside a (n_side inc)
                 (arest (n_side inc) (newAOrder inc rem sq) (aside a (n_side inc))) else a).
Proof.
  intros Hc (g & Hr & Hsides & Hsq & Htid) Hin Hal Hid room.
  apply (afind_none Hr Hsides) in Hid.
  pose proof (free_nil Hr Hsides) as Hfree.
  unfold restResidual. destruct (g_free g) as [|p fl] eqn:Efl.
  - pose proof (acquire_ok _ _ (rp_pool _ _ _ _ Hr)) as Hacq. rewrite Efl in Hacq.
    rewrite Hacq. simpl_bind. rewrite set_pool_id.
    assert (room = false) as -> by (unfold room; apply Z.ltb_ge; destruct Hfree as [Hf _]; specialize (Hf eq_refl); lia).
    exists b. split; [done|]. by exists g.
  - assert (room = true) as ->.
    { unfold room. apply Z.ltb_lt. destruct (decide (Z.of_nat (length (aresting a)) < cfg_maxOrders c)); [done|].
      destruct Hfree as [_ Hf]. by specialize (Hf n). }
    destruct (aligned_slot c b g _ (n_side inc) _ Hc Hr Hin Hal) as (i & qs & Hpi & HQ).
    set (o := freshOrder inc rem sq).
    destruct (rest_core Hc Hr (n_side inc) i qs p fl o HQ Efl eq_refl Hpi Hid)
      as (pl & m & h & im & Hacq & Hst & Hini & Hadd & Hins & Hp & Hpay & Hr').
    rewrite Hacq. simpl_bind.
    change (orders (set_pool b pl)) with (storage_ pl). rewrite Hst, Hini. simpl_bind.
    set (h0 := <[p := SValue o]> (orders b)) in *.
    change (sideOf (set_orders (set_pool b pl) h0) (n_side inc)) with (sideOf b (n_side inc)).
    change (orders (set_orders (set_pool b pl) h0)) with h0. rewrite Hadd. simpl_bind.
    set (b3 := set_orders (set_side (set_orders (set_pool b pl) h0) (n_side inc) m) h).
    assert (Hb3 : b3 = set_side (set_pool b (set_storage pl h)) (n_side inc) m)
      by (unfold b3; by destruct (n_side inc)).
    assert (Him : idMap_ b3 = idMap_ b) by (unfold b3; by destruct (n_side inc)).
    change (n_id inc) with (o_id o). rewrite Him, Hins. simpl_bind.
    eexists. split; [done|]. rewrite Hb3.
    by eapply (rest_Repr c b g a (n_side inc) i qs p fl o).
Qed.

(** ** Cancelling *)

Lemma filter_queue_id h l id :
  (∀ x y, x ∈ l → payload h x = Some y → ao_id y ≠ id) →
  filter (λ o, ao_id o ≠ id) (queue h l) = queue h l.
Proof.
  intros Hx. apply filter_all. apply Forall_forall.
  intros y (x & Hin & Hy)%elem_of_queue. by apply (Hx x).
Qed.

(** Where a resting order lives, found through the id map. *)
Lemma locate_order c b g P id p :
  repr c b g P → g_map g !! id = Some p →
  ∃ s i l1 l2 o, g_q g s !! i = Some (l1 ++ p :: l2) ∧ hget (orders b) p = Some o ∧
    o_id o = id ∧ o_side o = s ∧ o_price o = priceAt c (Z.of_nat i) ∧ o_level o = Some (s, i).
Proof.
  intros Hr Hm. pose proof Hm as [[s Hp] Hid]%(rp_ids _ _ _ _ Hr).
  apply elem_of_concat in Hp as (i & qs & HQ & Hp).
  destruct (rp_order _ _ _ _ Hr s i qs p HQ Hp) as (a & Ha & Hs & Hpr).
  pose proof Ha as (o & Ho & <-)%payload_Some.
  destruct (level_get c _ _ _ _ _ (lm_parts _ _ _ _ _ _ (rp_sides _ _ _ _ Hr s)) _ _ HQ)
    as (lv & _ & Hok & _).
  destruct (dseg_hget _ _ _ _ _ p (lv_links _ _ _ _ Hok) Hp) as (o' & Ho' & Hlv).
  assert (o' = o) as -> by congruence.
  apply list_elem_of_split in Hp as (l1 & l2 & ->).
  exists s, i, l1, l2, o. rewrite Ha in Hid. simpl in Hid. repeat split; try done. congruence.
Qed.

(** Taking [p] out of its queue is [aremove] on the priority lists. *)
Lemma remove_sides c b g P a s i l1 l2 p o h :
  repr c b g P → (∀ s, aside a s = queue (orders b) (flat s (g_q g s))) →
  g_q g s !! i = Some (l1 ++ p :: l2) → hget (orders b) p = Some o →
  (∀ x, x ≠ p → payload h x = payload (orders b) x) →
  ∀ s', aside (aremove a (o_id o)) s'
        = queue h (flat s' (g_q (ghost_remove g s i l1 l2 p (o_id o)) s')).
Proof.
  intros Hr Hsides HQ Ho Hpay s'.
  assert (Hrem : aside (aremove a (o_id o)) s' = filter (λ x, ao_id x ≠ o_id o) (aside a s'))
    by (by destruct s'). rewrite Hrem, Hsides. clear Hrem.
  assert (Hpin : p ∈ concat (g_q g s)) by (apply elem_of_concat; eexists _, _; split; [done|]; set_solver).
  assert (Hids : ∀ s0 x y, x ∈ concat (g_q g s0) → x ≠ p → payload (orders b) x = Some y → ao_id y ≠ o_id o).
  { intros s0 x y Hx Hne Hy Hid. apply Hne.
    assert (g_map g !! o_id o = Some p) by (by eapply (rp_lookup Hr)).
    assert (g_map g !! o_id o = Some x); [|congruence].
    apply (rp_ids _ _ _ _ Hr). split; [eauto|]. rewrite Hy. simpl. congruence. }
  rewrite ghost_remove_q. destruct (decide (s = s')) as [<-|Hne].
  - destruct (flat_split s _ _ _ HQ) as (A & B & Hfl & _).
    pose proof (rp_nodup _ _ _ _ Hr s) as Hnd. rewrite <- (flat_perm s) in Hnd.
    assert (Hflat : flat s (g_q g s) = (A ++ l1) ++ p :: (l2 ++ B)).
    { rewrite <- (list_insert_id (g_q g s) i (l1 ++ p :: l2)) at 1 by done.
      rewrite Hfl, <- !app_assoc. done. }
    rewrite Hfl. replace (A ++ (l1 ++ l2) ++ B) with ((A ++ l1) ++ (l2 ++ B))
      by (by rewrite <- !app_assoc).
    assert (Hin : ∀ x, x ∈ flat s (g_q g s) → x ∈ concat (g_q g s)) by (intros x; by rewrite elem_of_flat).
    rewrite Hflat in Hnd, Hin |- *.
    apply NoDup_app in Hnd as (_ & Hd1 & [Hd2 _]%NoDup_cons).
    rewrite (queue_app _ (A ++ l1)), (queue_app h (A ++ l1)), (queue_cons _ _ _ _ Ho).
    rewrite filter_app, filter_cons_False by naive_solver.
    assert (Hpn : p ∉ A ++ l1) by (intros Hx; apply (Hd1 p Hx); by left).
    rewrite !filter_queue_id.
    + f_equal; symmetry; apply queue_payload; intros x Hx; apply Hpay; intros ->; done.
    + intros x y Hx. apply (Hids s); [apply Hin; set_solver|]. by intros ->.
    + intros x y Hx. apply (Hids s); [apply Hin; set_solver|]. by intros ->.
  - assert (Hno : ∀ x, x ∈ flat s' (g_q g s') → x ≠ p).
    { intros x Hx%elem_of_flat ->. assert (s' = opposite s) as -> by (by destruct s, s').
      by apply (rp_disjoint _ _ _ _ Hr s p). }
    rewrite filter_queue_id.
    + symmetry. apply queue_payload. intros x Hx. by apply Hpay, Hno.
    + intros x y Hx. apply (Hids s'); [by apply elem_of_flat in Hx|by apply Hno].
Qed.

(** [cancel]'s sequence: unlink, repair the best price if the level emptied, erase,
    release. *)
Lemma cancel_core c b g s i l1 l2 p o :
  config_ok c → repr c b g (gocc g) →
  g_q g s !! i = Some (l1 ++ p :: l2) → hget (orders b) p = Some o →
  let g' := ghost_remove g s i l1 l2 p (o_id o) in
  ∃ m h b2 im pl,
    levelUnlink (sideOf b s) (orders b) (Z.of_nat i) p = Some (m, h) ∧
    (let b1 := set_orders (set_side b s m) h in
     e ← levelIsEmpty b1 s (Z.of_nat i);
     if e : bool then m2 ← onLevelEmptied (sideOf b1 s) (priceAt c (Z.of_nat i));
                      Some (set_side b1 s m2)
     else Some b1) = Some b2 ∧
    IdMap.erase (idMap_ b2) (o_id o) = Some (im, true) ∧
    release (pool_ (set_idMap b2 im)) (Some p) = Some pl ∧
    repr c (set_pool (set_idMap b2 im) pl) g' (gocc g') ∧
    (∀ x, x ≠ p → payload (storage_ pl) x = payload (orders b) x) ∧ same_counters b b2.
Proof.
  intros Hc Hr HQ Ho g'.
  destruct (remove_core Hr s i l1 l2 p o HQ Ho) as (m & h & im & pl & Hu & _ & He & Hrel & Hpay & Hr').
  fold g' in Hr'. set (b' := set_pool (set_idMap (set_side b s m) im) pl) in *.
  assert (HQ' : g_q g' s !! i = Some (l1 ++ l2)).
  { unfold g'. rewrite ghost_remove_q, decide_True by done.
    apply list_lookup_insert_eq. by eapply lookup_lt_Some. }
  assert (Hnear : near (gocc g) g' s i).
  { eapply (near_slot _ g g' s i _ (l1 ++ l2) HQ); [by destruct l1|intros; apply ghost_remove_q|].
    by apply exact_near. }
  pose proof (near_emptied _ _ _ _ _ Hnear HQ') as Hexact.
  pose proof (level_empty_spec c b' g' _ s i _ Hr' HQ') as Hemp.
  exists m, h. cbv zeta. set (b1 := set_orders (set_side b s m) h).
  assert (Hside : sideOf b1 s = sideOf b' s) by (by destruct s).
  unfold levelIsEmpty in *. rewrite Hside, Hemp. simpl_bind.
  case_bool_decide as Hnil.
  - rewrite decide_True in Hexact by done.
    destruct (emptied_core c b' g' _ s i _ Hc Hr' HQ') as (m2 & Hm2 & Hr2). rewrite Hm2.
    exists (set_side b1 s m2), im, pl. apply (repr_exact _ _ _ _ Hexact) in Hr2.
    assert (Hfin : set_pool (set_idMap (set_side b1 s m2) im) pl = set_side b' s m2) by (by destruct s).
    rewrite Hfin. split; [done|]. split; [done|]. split; [by destruct s|].
    split; [by destruct s|]. split; [done|]. split; [done|]. by destruct s.
  - rewrite decide_False in Hexact by done. apply (repr_exact _ _ _ _ Hexact) in Hr'.
    exists b1, im, pl.
    assert (Hfin : set_pool (set_idMap b1 im) pl = b') by (by destruct s).
    rewrite Hfin. split; [done|]. split; [done|]. split; [by destruct s|].
    split; [by destruct s|]. split; [done|]. split; [done|]. by destruct s.
Qed.

Lemma cancel_ok c b a id :
  config_ok c → Repr c b a →
  ∃ b', cancel b id = Some (b', (acancel a id).2) ∧ Repr c b' (acancel a id).1.
Proof.
  intros Hc (g & Hr & Hsides & Hsq & Htid). unfold cancel, acancel.
  rewrite (IdMap.find_ok _ _ (rp_map _ _ _ _ Hr)). simpl_bind.
  rewrite (afind_spec Hr Hsides). destruct (g_map g !! id) as [p|] eqn:Hm.
  2: { simpl. exists b. split; [done|]. by exists g. }
  destruct (locate_order c b g _ id p Hr Hm) as (s & i & l1 & l2 & o & HQ & Ho & <- & Hs & Hpr & Hlv).
  destruct (cancel_core c b g s i l1 l2 p o Hc Hr HQ Ho)
    as (m & h & b2 & im & pl & Hu & Hb2 & He & Hrel & Hr' & Hpay & [Hs2 Ht2]).
  assert (Hpp : payload (orders b) p = Some (aorder o)) by (unfold payload; by rewrite Ho).
  simpl_bind. rewrite Hpp, Ho. simpl_bind.
  rewrite Hlv. simpl_bind. rewrite Hu. simpl_bind.
  rewrite Hs, Hpr. cbv zeta in Hb2.
  destruct (levelIsEmpty _ s (Z.of_nat i)) as [e|]; [|done]. cbn [mbind option_bind] in Hb2 |- *.
  rewrite Hb2. simpl_bind. rewrite He. simpl_bind.
  rewrite Hrel. simpl_bind. eexists. split.
  { unfold cancelResult. simpl. by rewrite Hs, Hpr. }
  eexists. split; [exact Hr'|]. split; [|simpl; split; congruence].
  intros s'. by eapply remove_sides.
Qed.

(** ** Submitting *)

Lemma afind_None a id : afind a id = None ↔ ∀ o, o ∈ aresting a → ao_id o ≠ id.
Proof.
  unfold afind. rewrite fmap_None, list_find_None, Forall_forall. done.
Qed.

(** Matching brings no new ids into the book. *)
Lemma amatch_ids stp inc tid rem os o :
  o ∈ am_rest (amatch stp inc tid rem os) → ∃ o', o' ∈ os ∧ ao_id o' = ao_id o.
Proof.
  revert tid rem. induction os as [|x os IH]; intros tid rem; simpl.
  { by intros ?%elem_of_nil. }
  assert (Hself : o ∈ x :: os → ∃ o', o' ∈ x :: os ∧ ao_id o' = ao_id o) by eauto.
  assert (Htail : ∀ tid rem, o ∈ am_rest (amatch stp inc tid rem os) →
            ∃ o', o' ∈ x :: os ∧ ao_id o' = ao_id o).
  { intros tid' rem' (o' & ? & ?)%IH. exists o'. split; [by right|done]. }
  destruct (negb (0 <? rem)); [done|]. destruct (negb (crosses _ _ _ _)); [done|].
  destruct (ao_participant x =? n_participant inc).
  - destruct stp; simpl; [done|apply Htail|]. intros Ho. apply Hself. by right.
  - destruct (ao_remaining x - _ =? 0); simpl; [apply Htail|].
    intros [->|Ho]%elem_of_cons; [exists x; split; [by left|done]|]. apply Hself. by right.
Qed.

Lemma set_aside_resting a s os o :
  o ∈ aresting (set_aside a s os) ↔ o ∈ os ∨ o ∈ aside a (opposite s).
Proof. unfold aresting. rewrite elem_of_app. destruct s; simpl; tauto. Qed.

Lemma aside_resting a s o : o ∈ aside a s → o ∈ aresting a.
Proof. unfold aresting. rewrite elem_of_app. destruct s; simpl; tauto. Qed.

Lemma hasBest_ok c b g a s :
  config_ok c → repr c b g (gocc g) → (∀ s, aside a s = queue (orders b) (flat s (g_q g s))) →
  hasBest (sideOf b s) = negb (bool_decide (aside a s = [])).
Proof.
  intros Hc Hr Hsides. pose proof (best_slot c b g s Hc Hr) as Hb. rewrite Hsides.
  destruct (hasBest (sideOf b s)).
  - destruct Hb as (i & qs & B & _ & _ & HQ & Hne & Hfl).
    rewrite bool_decide_false; [done|]. intros Hnil.
    rewrite <- (list_insert_id (g_q g s) i qs), Hfl in Hnil by done.
    destruct qs as [|p qs]; [done|].
    destruct (rp_order _ _ _ _ Hr s i _ p HQ) as (o & Ho & _); [by left|].
    simpl in Hnil. by rewrite Ho in Hnil.
  - rewrite Hb. by rewrite bool_decide_true.
Qed.

(** The part of [submitEx] shared by every accepted order: assign the arrival
    number and match. *)
Lemma matchInto_ok c b a inc trades victims :
  config_ok c → Repr c b a →
  let r := amatched c a inc in
  ∃ st, matchInto (set_counters b (s64 (ab_seq a + 1)) (nextTradeId_ b)) inc trades
          (n_quantity inc) victims = Some (st, am_outcome r) ∧
    Repr c (ms_book st) (aafter c a inc) ∧
    ms_trades st = Buffer.push_all trades (am_trades r) ∧
    ms_victims st = victims_all victims (am_victims r) ∧
    ms_remaining st = am_remaining r.
Proof.
  intros Hc (g & Hr & Hsides & Hsq & Htid) r. unfold matchInto.
  set (b0 := set_counters b (s64 (ab_seq a + 1)) (nextTradeId_ b)).
  destruct (matchLoop_ok c Hc inc (loopFuel b0) (mkMatch b0 trades victims (n_quantity inc)) g)
    as (st & g' & Hrun & Hpost).
  { by apply set_counters_repr. }
  { unfold loopFuel. pose proof (rp_total Hr (opposite (n_side inc))).
    change (orders b0) with (orders b). lia. }
  cbn [ms_book ms_remaining] in Hrun, Hpost.
  change (orders b0) with (orders b) in Hrun, Hpost.
  change (nextTradeId_ b0) with (nextTradeId_ b) in Hrun, Hpost.
  rewrite <- Hsides, Htid in Hrun, Hpost. fold (amatched c a inc) r in Hrun, Hpost.
  exists st. split; [exact Hrun|].
  destruct Hpost as [M1 M2 M3 M4 M5 M6 M7 M8 M9].
  split; [|done]. unfold aafter. fold r. set (s := opposite (n_side inc)) in *.
  exists g'. split; [done|]. split; [|by simpl in *; destruct s].
  intros s'. change (aside (set_acounters _ _ _) s') with (aside (set_aside a s (am_rest r)) s').
  rewrite aside_set_aside. destruct (decide (s = s')) as [<-|Hne]; [done|].
  assert (s' = opposite s) as -> by (by destruct s, s'). rewrite M3, Hsides.
  symmetry. apply queue_payload. intros x Hx%elem_of_flat. apply M4.
  intros Hin. by apply (rp_disjoint _ _ _ _ Hr s x).
Qed.

Lemma aafter_absent c a inc id :
  afind a id = None → afind (aafter c a inc) id = None.
Proof.
  rewrite !afind_None. intros Hno o Ho.
  apply (set_aside_resting a (opposite (n_side inc))) in Ho as [Ho|Ho].
  - apply amatch_ids in Ho as (o' & Ho' & <-). apply Hno. by eapply aside_resting.
  - apply Hno. by eapply aside_resting.
Qed.

Lemma disposeResidual_ok c a1 inc mySeq r st :
  config_ok c → Repr c (ms_book st) a1 → afind a1 (n_id inc) = None →
  (n_type inc = Limit → ainRange c (n_price inc) = true ∧ aligned c (n_price inc)) →
  ms_remaining st = am_remaining r →
  let out := adispose c a1 inc mySeq r in
  ∃ b', disposeResidual inc mySeq st (am_outcome r)
          = Some (b', ms_trades st, ms_victims st, out_result out) ∧
        out_trades out = am_trades r ∧ out_victims out = am_victims r ∧
        Repr c b' (out_book out).
Proof.
  intros Hc HR Hid Hlim Hrem. unfold disposeResidual, adispose. rewrite Hrem.
  destruct (decide (am_outcome r = StpFired)) as [->|Hstp].
  { exists (ms_book st). done. }
  assert (Hm : ∀ X (x y : X), match am_outcome r with StpFired => x | _ => y end = y)
    by (intros; by destruct (am_outcome r)).
  rewrite !Hm. destruct (n_type inc).
  - destruct (0 <? am_remaining r); [|by exists (ms_book st)].
    destruct (Hlim eq_refl) as [Hin Hal].
    destruct (restResidual_ok c _ a1 inc mySeq (am_remaining r) Hc HR Hin Hal Hid) as (b' & Hb' & HR').
    rewrite Hb'. simpl_bind.
    exists b'. by destruct (Z.of_nat (length (aresting a1)) <? cfg_maxOrders c).
  - by exists (ms_book st).
  - by exists (ms_book st).
  - by exists (ms_book st).
Qed.

(** The checks of [submitEx] before it touches the book give [averdict]. *)
Lemma submitEx_ok c b a inc trades victims :
  config_ok c → Repr c b a → (n_type inc = Limit → aligned c (n_price inc)) →
  let out := asubmit c a inc in
  ∃ b', submitEx b inc trades victims
          = Some (b', Buffer.push_all trades (out_trades out),
                  victims_all victims (out_victims out), out_result out) ∧
        Repr c b' (out_book out) ∧ (averdict c a inc = None ∨ b' = b).
Proof.
  intros Hc HR Hal out. subst out. pose proof HR as (g & Hr & Hsides & Hsq & Htid).
  set (s := opposite (n_side inc)). unfold submitEx, asubmit, averdict. fold s.
  rewrite (inRange_spec c _ _ _ _ _ (lm_parts _ _ _ _ _ _ (rp_sides _ _ _ _ Hr Buy))).
  fold (ainRange c (n_price inc)).
  destruct (n_quantity inc <=? 0) eqn:E1.
  { exists b. simpl. rewrite victims_all_nil. by auto. }
  destruct (negb (bool_decide (n_type inc = Market)) && negb (ainRange c (n_price inc))) eqn:E2.
  { exists b. simpl. rewrite victims_all_nil. by auto. }
  rewrite (IdMap.find_ok _ _ (rp_map _ _ _ _ Hr)). simpl_bind.
  assert (Hdup : bool_decide (g_map g !! n_id inc ≠ None) = bool_decide (afind a (n_id inc) ≠ None)).
  { apply bool_decide_ext. by rewrite (afind_none Hr Hsides). }
  rewrite Hdup. destruct (bool_decide (afind a (n_id inc) ≠ None)) eqn:E3.
  { exists b. simpl. rewrite victims_all_nil. by auto. }
  rewrite (hasBest_ok c b g a s Hc Hr Hsides), negb_involutive.
  destruct (bool_decide (n_type inc = Market) && bool_decide (aside a s = [])) eqn:E4.
  { exists b. simpl. rewrite victims_all_nil. by auto. }
  rewrite (availableAgainst_ok c Hc b g Hr inc). fold s. rewrite <- Hsides. simpl_bind.
  set (unf := (aavailable (cfg_stp c) inc (aside a s) 0 <? n_quantity inc)).
  assert (Hunf : (if bool_decide (n_type inc = Fok) then Some unf else Some false)
                 = Some (bool_decide (n_type inc = Fok) && unf))
    by (by destruct (bool_decide (n_type inc = Fok))).
  rewrite Hunf. simpl_bind.
  destruct (bool_decide (n_type inc = Fok) && unf) eqn:E5.
  { exists b. simpl. rewrite victims_all_nil. by auto. }
  rewrite Hsq. destruct (matchInto_ok c b a inc trades victims Hc HR)
    as (st & Hrun & HR1 & Ht & Hv & Hrem).
  rewrite Hrun. simpl_bind. unfold aexecute.
  apply bool_decide_eq_false, dec_stable in E3.
  destruct (disposeResidual_ok c (aafter c a inc) inc (s64 (ab_seq a + 1)) (amatched c a inc) st Hc HR1)
    as (b' & Hb' & Hot & Hov & HR'); [by apply aafter_absent| |done|].
  { intros Hl. split; [|by apply Hal]. rewrite Hl in E2. simpl in E2. by apply negb_false_iff. }
  exists b'. rewrite Hb', Hot, Hov, Ht, Hv. by auto.
Qed.

Lemma replace_ok c b a oldId fresh trades victims :
  config_ok c → Repr c b a → (n_type fresh = Limit → aligned c (n_price fresh)) →
  let out := (areplace c a oldId fresh).1 in
  ∃ b', replace b oldId fresh trades victims
          = Some (b', Buffer.push_all trades (out_trades out),
                  victims_all victims (out_victims out), out_result out,
                  (areplace c a oldId fresh).2) ∧
        Repr c b' (out_book out).
Proof.
  intros Hc HR Hal. pose proof HR as (g & Hr & Hsides & Hsq & Htid).
  unfold replace, areplace.
  rewrite (inRange_spec c _ _ _ _ _ (lm_parts _ _ _ _ _ _ (rp_sides _ _ _ _ Hr Buy))).
  fold (ainRange c (n_price fresh)).
  rewrite (IdMap.find_ok _ _ (rp_map _ _ _ _ Hr) oldId). simpl_bind.
  rewrite (bool_decide_ext (g_map g !! oldId = None) (afind a oldId = None))
    by (by rewrite (afind_none Hr Hsides)).
  destruct (bool_decide (afind a oldId = None)).
  { exists b. simpl. by rewrite victims_all_nil. }
  destruct (n_quantity fresh <=? 0).
  { exists b. simpl. by rewrite victims_all_nil. }
  destruct (negb (bool_decide (n_type fresh = Market)) && negb (ainRange c (n_price fresh))).
  { exists b. simpl. by rewrite victims_all_nil. }
  rewrite (IdMap.find_ok _ _ (rp_map _ _ _ _ Hr)).
  set (dup := negb (n_id fresh =? oldId) && bool_decide (afind a (n_id fresh) ≠ None)).
  assert (Hdup : ∃ d, (if n_id fresh =? oldId then Some None else Some (g_map g !! n_id fresh))
                      = Some d ∧ bool_decide (d ≠ None) = dup).
  { unfold dup. destruct (n_id fresh =? oldId); eexists; (split; [done|]); [done|].
    apply bool_decide_ext. by rewrite (afind_none Hr Hsides). }
  destruct Hdup as (d & -> & Hd). simpl_bind. rewrite Hd. destruct dup.
  { exists b. simpl. by rewrite victims_all_nil. }
  destruct (cancel_ok c b a oldId Hc HR) as (b1 & Hb1 & HR1). rewrite Hb1. simpl_bind.
  destruct (acancel a oldId) as [a1 r1]. simpl in HR1 |- *.
  destruct (submitEx_ok c b1 a1 fresh trades victims Hc HR1 Hal) as (b2 & Hb2 & HR2 & _).
  rewrite Hb2. simpl. by exists b2.
Qed.

(** ** Restoring *)

(** A duplicate id: the slot goes straight back to the pool. *)
Lemma restore_dup c b g P p fl v q :
  config_ok c → repr c b g P → g_free g = p :: fl → g_map g !! o_id v = Some q →
  ∃ pl pl', acquire (pool_ b) = Some (pl, Some p) ∧
    hinit (storage_ pl) p v = Some (<[p := SValue v]> (orders b)) ∧
    IdMap.insert (idMap_ b) (o_id v) p = Some (idMap_ b, false) ∧
    release (set_storage pl (<[p := SValue v]> (orders b))) (Some p) = Some pl' ∧
    repr c (set_pool b pl') g P ∧
    (∀ s x, x ∈ concat (g_q g s) → payload (storage_ pl') x = payload (orders b) x).
Proof.
  intros Hc Hr Efl Hid.
  pose proof (acquire_ok _ _ (rp_pool _ _ _ _ Hr)) as Hacq. rewrite Efl in Hacq.
  destruct Hacq as (pl & Ha & Hst & Hnone & Hlt & Hinit). destruct (Hinit v) as [Hh Hpok].
  fold (orders b) in *. set (h0 := <[p := SValue v]> (orders b)) in *.
  destruct (release_ok _ _ p v Hpok) as (pl' & Hrel & Hst' & Hpok').
  { by apply hget_insert_eq. }
  pose proof (IdMap.insert_ok _ _ (o_id v) p (rp_map _ _ _ _ Hr)) as Hins. rewrite Hid in Hins.
  exists pl, pl'. split; [done|]. split; [done|].
  split; [apply Hins, (rp_room Hr Hc); by rewrite Efl|]. split; [done|].
  assert (Hget : ∀ s x, x ∈ concat (g_q g s) → hget (storage_ pl') x = hget (orders b) x).
  { intros s x Hx. assert (p ≠ x) by (intros <-; apply (rp_not_free Hr) in Hx; rewrite Efl in Hx; set_solver).
    rewrite Hst'. rewrite hget_insert_ne by done. by apply hget_insert_ne. }
  split.
  - replace g with (set_free g (p :: fl)) at 1 by (rewrite <- Efl; by destruct g).
    apply (repr_pool c b g P); [done|done|by rewrite Efl| |done].
    rewrite Hst', length_insert. apply length_insert.
  - intros s x Hx. unfold payload. by rewrite (Hget s).
Qed.

Lemma restoreResting_ok c b a o rem sq :
  config_ok c → Repr c b a → ainRange c (n_price o) = true → aligned c (n_price o) →
  ∃ b', restoreResting b o rem sq = Some (b', (arestore c a o rem sq).2) ∧
        Repr c b' (arestore c a o rem sq).1.
Proof.
  intros Hc (g & Hr & Hsides & Hsq & Htid) Hin Hal.
  pose proof (free_nil Hr Hsides) as Hfree.
  unfold restoreResting, arestore. destruct (g_free g) as [|p fl] eqn:Efl.
  { pose proof (acquire_ok _ _ (rp_pool _ _ _ _ Hr)) as Hacq. rewrite Efl in Hacq.
    rewrite Hacq. simpl_bind. rewrite set_pool_id.
    destruct Hfree as [Hf _]. specialize (Hf eq_refl).
    replace (Z.of_nat (length (aresting a)) <? cfg_maxOrders c) with false by lia. simpl.
    exists b. split; [done|]. by exists g. }
  assert (Hroom : (Z.of_nat (length (aresting a)) <? cfg_maxOrders c) = true).
  { apply Z.ltb_lt. destruct (decide (Z.of_nat (length (aresting a)) < cfg_maxOrders c)); [done|].
    destruct Hfree as [_ Hf]. by specialize (Hf n). }
  rewrite Hroom. cbn [negb]. set (v := freshOrder o rem sq).
  destruct (g_map g !! n_id o) as [q|] eqn:Hid.
  - rewrite bool_decide_true by (rewrite (afind_none Hr Hsides); by rewrite Hid).
    destruct (restore_dup c b g _ p fl v q Hc Hr Efl Hid)
      as (pl & pl' & Ha & Hh & Hins & Hrel & Hr' & Hpay).
    rewrite Ha. simpl_bind. change (orders (set_pool b pl)) with (storage_ pl).
    rewrite Hh. simpl_bind. set (h0 := <[p := SValue v]> (orders b)) in *.
    change (n_id o) with (o_id v). change (idMap_ (set_orders (set_pool b pl) h0)) with (idMap_ b).
    rewrite Hins. cbn [mbind option_bind negb].
    change (pool_ (set_idMap (set_orders (set_pool b pl) h0) (idMap_ b))) with (set_storage pl h0).
    rewrite Hrel. simpl_bind. eexists. split; [done|].
    exists g. split; [exact Hr'|]. split; [|done].
    intros s. simpl. rewrite Hsides. symmetry. apply queue_payload. intros x Hx%elem_of_flat. by apply (Hpay s).
  - rewrite bool_decide_false by (rewrite (afind_none Hr Hsides); naive_solver).
    destruct (aligned_slot c b g _ (n_side o) _ Hc Hr Hin Hal) as (i & qs & Hpi & HQ).
    destruct (rest_core Hc Hr (n_side o) i qs p fl v HQ Efl eq_refl Hpi Hid)
      as (pl & m & h & im & Hacq & Hst & Hini & Hadd & Hins & Hp & Hpay & Hr').
    rewrite Hacq. simpl_bind. change (orders (set_pool b pl)) with (storage_ pl).
    rewrite Hst, Hini. simpl_bind. set (h0 := <[p := SValue v]> (orders b)) in *.
    change (n_id o) with (o_id v). change (idMap_ (set_orders (set_pool b pl) h0)) with (idMap_ b).
    rewrite Hins. cbn [mbind option_bind negb].
    change (sideOf (set_idMap (set_orders (set_pool b pl) h0) im) (n_side o)) with (sideOf b (n_side o)).
    change (orders (set_idMap (set_orders (set_pool b pl) h0) im)) with h0.
    rewrite Hadd. simpl_bind. eexists. split; [done|].
    assert (Hb3 : set_orders (set_side (set_idMap (set_orders (set_pool b pl) h0) im) (n_side o) m) h
                  = set_idMap (set_side (set_pool b (set_storage pl h)) (n_side o) m) im)
      by (by destruct (n_side o)).
    rewrite Hb3. by eapply (rest_Repr c b g a (n_side o) i qs p fl v).
Qed.

Lemma nextPowerOfTwo_spec n :
  0 < n <= 2 ^ 62 → ∃ k, 0 <= k < 63 ∧ nextPowerOfTwo n = 2 ^ k ∧ n <= 2 ^ k.
Proof.
  intros Hn. unfold nextPowerOfTwo, bit_width.
  destruct (n <=? 1) eqn:E; [exists 0; simpl; lia|].
  destruct (n - 1 =? 0) eqn:E0; [lia|]. rewrite Z.shiftl_1_l.
  destruct (Z.log2_spec (n - 1) ltac:(lia)) as [Hl Hu].
  exists (Z.log2 (n - 1) + 1). split; [|split; [done|]].
  - pose proof (Z.log2_nonneg (n - 1)). split; [lia|].
    assert (Z.log2 (n - 1) < 62); [|lia]. apply Z.log2_lt_pow2; lia.
  - rewrite Z.add_1_r. lia.
Qed.

Lemma bookNew_ok c : config_ok c → Repr c (bookNew c) emptyABook.
Proof.
  intros Hc. pose proof (co_orders _ Hc) as Hmax.
  destruct (nextPowerOfTwo_spec (cfg_maxOrders c * 2)) as (k & Hk & Hpow & Hle).
  { change (2 ^ 62) with 4611686018427387904. lia. }
  set (Q := replicate (Z.to_nat (slots c)) ([] : list ptr)).
  assert (HQ : concat Q = []).
  { apply concat_empty. unfold Q. apply Forall_replicate. done. }
  assert (HQs : ∀ i qs, Q !! i = Some qs → qs = []) by (by intros i qs [-> _]%lookup_replicate).
  exists (mkGhost (seq 0 (Z.to_nat (cfg_maxOrders c))) Q Q ∅).
  assert (Hq : ∀ s, g_q (mkGhost (seq 0 (Z.to_nat (cfg_maxOrders c))) Q Q ∅) s = Q) by (by intros []).
  split; [split|]; simpl; try done.
  - apply poolNew_ok. lia.
  - intros s. rewrite Hq. unfold gocc. rewrite Hq. unfold orders.
    destruct s; apply levelMapNew_ok; done.
  - intros s. rewrite Hq, HQ. constructor.
  - intros s p. rewrite Hq, HQ. by intros ?%elem_of_nil.
  - rewrite HQ, length_seq. simpl. unfold orders. simpl. unfold linkSlots.
    rewrite length_fmap, length_seq. lia.
  - intros s i qs p Hi Hp. rewrite Hq in Hi. rewrite (HQs _ _ Hi) in Hp. by apply elem_of_nil in Hp.
  - rewrite u64_id by (split; lia). rewrite Hpow. by apply IdMap.idMapNew_ok.
  - rewrite u64_id by (split; lia). rewrite Hpow. done.
  - intros id p. rewrite lookup_empty. split; [done|]. intros [[s Hp] _].
    rewrite Hq, HQ in Hp. by apply elem_of_nil in Hp.
  - split; [|done]. intros s. rewrite Hq.
    assert (Hf : flat s Q = []); [|rewrite Hf; by destruct s].
    apply length_zero_iff_nil. by rewrite length_flat, HQ.
Qed.
