(* ===== verification/BookSpec.v ===== *)
(** What the abstract book guarantees: quantity conservation, price-time priority,
    self-trade prevention, all-or-nothing fills, and an invariant preserved by
    every operation. *)
From stdpp Require Import sorting.
From S2P Require Import Prelude Types PriceLevel LevelMap OrderBook AbstractBook BookMatch BookRefine.

(** ** Order and book invariants *)

Record order_wf (c : BookConfig) (s : Side) (sq : Z) (o : AOrder) : Prop := {
  ow_side : ao_side o = s;
  ow_range : ainRange c (ao_price o) = true;
  ow_aligned : aligned c (ao_price o);
  ow_remaining : 0 < ao_remaining o <= ao_quantity o;
  ow_quantity : ao_quantity o <= INT64_MAX;
  ow_seq : ao_seq o <= sq
}.

(** [o] ranks before [o'] on side [s]: better price, or same price and earlier. *)
Definition before (s : Side) (o o' : AOrder) : Prop :=
  (noWorse s (ao_price o) (ao_price o') = true ∧ ao_price o ≠ ao_price o') ∨
  (ao_price o = ao_price o' ∧ ao_seq o < ao_seq o').

Record wf (c : BookConfig) (a : ABook) : Prop := {
  wf_orders : ∀ s, Forall (order_wf c s (ab_seq a)) (aside a s);
  wf_sorted : ∀ s, StronglySorted (before s) (aside a s);
  wf_ids : NoDup (ao_id <$> aresting a);
  wf_uncrossed : ∀ x y, x ∈ ab_bids a → y ∈ ab_asks a → ao_price x < ao_price y;
  wf_room : Z.of_nat (length (aresting a)) <= cfg_maxOrders c;
  wf_seq : in_i64 (ab_seq a)
}.

(** ** Matching consumes a prefix

    [consumed inc os r]: the walk went through a prefix [xs] of the priority list.
    Every order of [xs] is gone: it traded in full, or was removed because it
    belongs to the aggressor.  At most the next order traded in part.  The trades
    list exactly the traded orders in priority order. *)
Record consumed (inc : NewOrder) (os : list AOrder) (r : AMatch) (xs part ys : list AOrder) : Prop := {
  cs_split : os = xs ++ part ++ ys;
  cs_rest : ∃ part', am_rest r = part' ++ ys ∧
    match part with
    | [] => part' = []
    | [o] => ∃ q, part' = [with_aremaining o (ao_remaining o - q)] ∧ 0 < q < ao_remaining o ∧
                  am_remaining r = 0 ∧ ao_participant o ≠ n_participant inc
    | _ => False
    end;
  cs_trades : t_passiveId <$> am_trades r
    = ao_id <$> (filter (λ o, ao_participant o ≠ n_participant inc) xs ++ part);
  cs_victims : am_victims r = filter (λ o, ao_participant o = n_participant inc) xs
}.

Lemma amatch_consumed stp inc tid rem os :
  Forall (λ o, 0 < ao_remaining o) os →
  ∃ xs part ys, consumed inc os (amatch stp inc tid rem os) xs part ys.
Proof.
  intros Hpos. revert tid rem. induction Hpos as [|o os Ho Hpos IH]; intros tid rem; simpl.
  { exists [], [], []. split; try done. by exists []. }
  assert (Hstop : ∀ out, consumed inc (o :: os) (mkAMatch (o :: os) [] [] rem tid out) [] [] (o :: os)).
  { intros out. split; try done. by exists []. }
  destruct (0 <? rem) eqn:Erem; simpl; [|by exists [], [], (o :: os)].
  destruct (negb (crosses _ _ _ _)); [by exists [], [], (o :: os)|].
  destruct (ao_participant o =? n_participant inc) eqn:Ep.
  - apply Z.eqb_eq in Ep. destruct stp; [by exists [], [], (o :: os)| |].
    + destruct (IH tid rem) as (xs & part & ys & [H1 H2 H3 H4]).
      exists (o :: xs), part, ys. split; simpl.
      * by rewrite H1.
      * done.
      * rewrite filter_cons_False by naive_solver. done.
      * rewrite filter_cons_True by done. by rewrite H4.
    + exists [o], [], os. split; simpl; try done; [by exists []| |].
      * rewrite filter_cons_False by naive_solver. done.
      * rewrite filter_cons_True by done. done.
  - apply Z.eqb_neq in Ep. set (q := Z.min rem (ao_remaining o)).
    destruct (ao_remaining o - q =? 0) eqn:Eq; simpl.
    + destruct (IH (s64 (tid + 1)) (rem - q)) as (xs & part & ys & [H1 H2 H3 H4]).
      exists (o :: xs), part, ys. split; cbn [am_rest am_trades am_victims am_remaining].
      * by rewrite H1.
      * done.
      * rewrite filter_cons_True by done. by rewrite <- app_comm_cons, !fmap_cons, H3.
      * by rewrite filter_cons_False.
    + exists [], [o], os. split; simpl; try done.
      exists [with_aremaining o (ao_remaining o - q)]. split; [done|].
      exists q. split; [done|]. unfold q in *. lia.
Qed.

(** ** Quantities *)

Definition traded (ts : list Trade) : Z := foldr (λ t n, t_quantity t + n) 0 ts.

Lemma amatch_conserves stp inc tid rem os :
  0 <= rem → Forall (λ o, 0 < ao_remaining o) os →
  let r := amatch stp inc tid rem os in
  traded (am_trades r) + am_remaining r = rem ∧ 0 <= am_remaining r ∧
  total (am_rest r) + traded (am_trades r) + total (am_victims r) = total os ∧
  Forall (λ t, 0 < t_quantity t) (am_trades r).
Proof.
  intros Hrem Hpos. revert tid rem Hrem. induction Hpos as [|o os Ho Hpos IH]; intros tid rem Hrem; simpl.
  { repeat split; done || lia. }
  destruct (0 <? rem) eqn:Erem; simpl; [|repeat split; done || lia].
  destruct (negb (crosses _ _ _ _)); simpl; [repeat split; done || lia|].
  destruct (ao_participant o =? n_participant inc).
  - destruct stp; simpl; [repeat split; done || lia| |repeat split; done || lia].
    destruct (IH tid rem Hrem) as (H1 & H2 & H3 & H4). repeat split; done || lia.
  - set (q := Z.min rem (ao_remaining o)). destruct (ao_remaining o - q =? 0) eqn:Eq; simpl.
    + destruct (IH (s64 (tid + 1)) (rem - q)) as (H1 & H2 & H3 & H4); [unfold q; lia|].
      repeat split; try lia. constructor; [simpl; unfold q; lia|done].
    + repeat split; try (unfold q in *; lia). constructor; [simpl; unfold q; lia|done].
Qed.

(** Where each trade comes from. *)
Record trade_of (inc : NewOrder) (os : list AOrder) (t : Trade) : Prop := {
  to_aggressor : t_aggressorId t = n_id inc ∧ t_aggressorSide t = n_side inc;
  to_passive : ∃ o, o ∈ os ∧ t_passiveId t = ao_id o ∧ t_price t = ao_price o ∧
    ao_participant o ≠ n_participant inc ∧ t_quantity t <= ao_remaining o;
  to_limit : crosses (n_type inc) (n_side inc) (n_price inc) (t_price t) = true
}.

Lemma trade_of_tail inc o os t : trade_of inc os t → trade_of inc (o :: os) t.
Proof.
  intros [H1 (x & Hx & H2) H3]. split; [done| |done]. exists x. split; [by right|done].
Qed.

Lemma amatch_trades stp inc tid rem os :
  Forall (trade_of inc os) (am_trades (amatch stp inc tid rem os)).
Proof.
  revert tid rem. induction os as [|o os IH]; intros tid rem; simpl; [done|].
  destruct (negb (0 <? rem)); [done|].
  destruct (crosses _ _ _ (ao_price o)) eqn:Ex; simpl; [|done].
  destruct (ao_participant o =? n_participant inc) eqn:Ep.
  - destruct stp; simpl; [done| |done].
    eapply Forall_impl; [apply IH|]. intros t. apply trade_of_tail.
  - assert (Ht : trade_of inc (o :: os) (atrade inc tid o (Z.min rem (ao_remaining o)))).
    { split; simpl; [done| |done]. exists o. split; [by left|]. repeat split; try done; lia. }
    destruct (ao_remaining o - _ =? 0); simpl.
    + constructor; [done|]. eapply Forall_impl; [apply IH|]. intros t. apply trade_of_tail.
    + by constructor.
Qed.

Lemma amatch_count stp inc tid rem os :
  (length (am_trades (amatch stp inc tid rem os)) <= length os)%nat.
Proof.
  revert tid rem. induction os as [|o os IH]; intros tid rem; simpl; [lia|].
  destruct (negb (0 <? rem)); [simpl; lia|].
  destruct (negb (crosses _ _ _ _)); [simpl; lia|].
  destruct (ao_participant o =? n_participant inc).
  - destruct stp; simpl; [lia| |lia]. specialize (IH tid rem). lia.
  - destruct (ao_remaining o - _ =? 0); simpl; [|lia].
    match goal with |- context [amatch _ _ ?t ?q os] => specialize (IH t q) end. lia.
Qed.

(** ** Fill-or-kill *)

Lemma aavailable_fills stp inc tid rem os sum :
  Forall (λ o, 0 < ao_remaining o) os → 0 < rem →
  n_quantity inc = rem + sum → 0 <= sum → sum + total os <= INT64_MAX →
  n_quantity inc <= aavailable stp inc os sum →
  let r := amatch stp inc tid rem os in
  am_remaining r = 0 ∧ am_outcome r = Exhausted.
Proof.
  intros Hpos. revert tid rem sum. induction Hpos as [|o os Ho Hpos IH];
    intros tid rem sum Hrem Hq Hsum Hmax Hav; cbn [amatch aavailable] in *; [lia|].
  rewrite total_cons in Hmax.
  assert (Htot : 0 <= total os).
  { clear -Hpos. induction Hpos as [|x os Hx _ IH]; simpl; lia. }
  replace (0 <? rem) with true by lia. cbn [negb].
  destruct (crosses _ _ _ (ao_price o)); cbn [negb] in *; [|lia].
  destruct (ao_participant o =? n_participant inc).
  - destruct stp; [lia| |lia]. simpl. apply (IH tid rem sum); done || lia.
  - rewrite s64_id in Hav by (unfold in_i64, INT64_MAX, INT64_MIN in *; lia).
    destruct (n_quantity inc <=? sum + ao_remaining o) eqn:Eq.
    + assert (Hmin : Z.min rem (ao_remaining o) = rem) by lia. rewrite Hmin.
      destruct (ao_remaining o - rem =? 0) eqn:E0; simpl; [|split; [lia|done]].
      rewrite Z.sub_diag. destruct os; simpl; done.
    + assert (Hmin : Z.min rem (ao_remaining o) = ao_remaining o) by lia. rewrite Hmin.
      rewrite Z.sub_diag. simpl. apply (IH _ _ (sum + ao_remaining o)); done || lia.
Qed.

(** ** The invariant is preserved *)

(** What matching and cancelling may do to a side: orders disappear, or keep
    everything but part of their remaining quantity. *)
Definition reduced (o o' : AOrder) : Prop :=
  o' = with_aremaining o (ao_remaining o') ∧ 0 < ao_remaining o' <= ao_remaining o.

Definition shrinks (os os' : list AOrder) : Prop :=
  ∃ zs, zs `sublist_of` os ∧ Forall2 reduced zs os'.

Lemma reduced_refl o : 0 < ao_remaining o → reduced o o.
Proof. intros. split; [by destruct o|lia]. Qed.

Lemma reduced_key o o' : reduced o o' →
  ao_id o' = ao_id o ∧ ao_price o' = ao_price o ∧ ao_seq o' = ao_seq o ∧
  ao_side o' = ao_side o ∧ ao_quantity o' = ao_quantity o.
Proof. by intros [-> _]. Qed.

Lemma reduced_refl_list os : Forall (λ o, 0 < ao_remaining o) os → Forall2 reduced os os.
Proof. induction 1; constructor; [by apply reduced_refl|done]. Qed.

Lemma sublist_shrinks zs os :
  zs `sublist_of` os → Forall (λ o, 0 < ao_remaining o) os → shrinks os zs.
Proof.
  intros Hs Hp. exists zs. split; [done|]. apply reduced_refl_list.
  rewrite Forall_forall in *. intros o Ho. apply Hp. by eapply elem_of_sublist.
Qed.

Lemma amatch_shrinks stp inc tid rem os :
  Forall (λ o, 0 < ao_remaining o) os →
  shrinks os (am_rest (amatch stp inc tid rem os)).
Proof.
  intros Hpos. destruct (amatch_consumed stp inc tid rem os Hpos) as (xs & part & ys & [H1 H2 _ _]).
  exists (part ++ ys). split; [rewrite H1; by apply sublist_inserts_l|].
  destruct H2 as (part' & -> & Hpart). rewrite H1 in Hpos.
  apply Forall_app in Hpos as [_ [_ Hys]%Forall_app].
  apply Forall2_app; [|by apply reduced_refl_list].
  destruct part as [|o [|? ?]]; [by rewrite Hpart|..]; [|done].
  destruct Hpart as (q & -> & Hq & _). constructor; [|done]. split; simpl; [done|lia].
Qed.

Lemma shrinks_elem os os' o' :
  shrinks os os' → o' ∈ os' → ∃ o, o ∈ os ∧ reduced o o'.
Proof.
  intros (zs & Hs & Hf) Ho. apply list_elem_of_lookup in Ho as [i Hi].
  destruct (Forall2_lookup_r _ _ _ _ _ Hf Hi) as (o & Ho & Hr). exists o. split; [|done].
  eapply elem_of_sublist; [|done]. by apply list_elem_of_lookup_2 in Ho.
Qed.

Lemma shrinks_ids os os' : shrinks os os' → (ao_id <$> os') `sublist_of` (ao_id <$> os).
Proof.
  intros (zs & Hs & Hf). replace (ao_id <$> os') with (ao_id <$> zs).
  - clear Hf. induction Hs; simpl; by constructor.
  - clear Hs. induction Hf as [|o o' zs os' Hr _ IH]; [done|]. rewrite !fmap_cons, IH.
    by destruct (reduced_key _ _ Hr) as [-> _].
Qed.

Lemma sublist_sorted {A} (R : A → A → Prop) zs os :
  zs `sublist_of` os → StronglySorted R os → StronglySorted R zs.
Proof.
  induction 1 as [|x l1 l2 Hs IH|x l1 l2 Hs IH]; intros Hst; [done| |].
  - apply StronglySorted_inv in Hst as [Hst Hall]. constructor; [by apply IH|].
    rewrite Forall_forall in *. intros y Hy. apply Hall. by eapply elem_of_sublist.
  - apply StronglySorted_inv in Hst as [Hst _]. by apply IH.
Qed.

Lemma shrinks_sorted s os os' :
  shrinks os os' → StronglySorted (before s) os → StronglySorted (before s) os'.
Proof.
  intros (zs & Hs & Hf) Hst. apply (sublist_sorted _ _ _ Hs) in Hst. clear Hs.
  induction Hf as [|o o' zs os' Hr Hf IH]; [constructor|].
  apply StronglySorted_inv in Hst as [Hst Hall]. constructor; [by apply IH|].
  apply Forall_lookup. intros i y' Hy'.
  destruct (Forall2_lookup_r _ _ _ _ _ Hf Hy') as (y & Hy & Hry).
  rewrite Forall_lookup in Hall. specialize (Hall i y Hy). unfold before in *.
  destruct (reduced_key _ _ Hr) as (_ & -> & -> & _).
  by destruct (reduced_key _ _ Hry) as (_ & -> & -> & _).
Qed.

Lemma shrinks_length os os' : shrinks os os' → (length os' <= length os)%nat.
Proof.
  intros (zs & Hs & Hf). rewrite <- (Forall2_length _ _ _ Hf). by apply sublist_length.
Qed.

Lemma order_wf_reduced c s sq sq' o o' :
  reduced o o' → sq <= sq' → order_wf c s sq o → order_wf c s sq' o'.
Proof.
  intros Hr Hsq [W1 W2 W3 W4 W5 W6]. destruct (reduced_key _ _ Hr) as (_ & Hp & Hs & Hsd & Hq).
  destruct Hr as [_ Hr]. split; rewrite ?Hp, ?Hs, ?Hsd, ?Hq; try done; lia.
Qed.

(** Shrinking both sides and moving the counters forward keeps the invariant. *)
Lemma wf_shrinks c a a' :
  wf c a → (∀ s, shrinks (aside a s) (aside a' s)) → ab_seq a <= ab_seq a' → in_i64 (ab_seq a') →
  wf c a'.
Proof.
  intros [W1 W2 W3 W4 W5 W6] Hs Hsq Hin. split; try done.
  - intros s. apply Forall_forall. intros o' Ho'.
    destruct (shrinks_elem _ _ _ (Hs s) Ho') as (o & Ho & Hr).
    eapply order_wf_reduced; [done|done|]. specialize (W1 s). rewrite Forall_forall in W1. by apply W1.
  - intros s. by eapply shrinks_sorted.
  - eapply sublist_NoDup; [exact W3|]. unfold aresting. rewrite !fmap_app.
    apply sublist_app; [apply (shrinks_ids _ _ (Hs Buy))|apply (shrinks_ids _ _ (Hs Sell))].
  - intros x' y' Hx Hy.
    destruct (shrinks_elem _ _ _ (Hs Buy) Hx) as (x & Hx0 & Hrx).
    destruct (shrinks_elem _ _ _ (Hs Sell) Hy) as (y & Hy0 & Hry).
    destruct (reduced_key _ _ Hrx) as (_ & -> & _), (reduced_key _ _ Hry) as (_ & -> & _).
    by apply W4.
  - pose proof (shrinks_length _ _ (Hs Buy)) as H1. pose proof (shrinks_length _ _ (Hs Sell)) as H2.
    simpl in H1, H2. unfold aresting in *. rewrite length_app in *. lia.
Qed.

Lemma wf_positive c a s : wf c a → Forall (λ o, 0 < ao_remaining o) (aside a s).
Proof.
  intros Hw. eapply Forall_impl; [apply (wf_orders _ _ Hw s)|]. intros o [_ _ _ H _ _]. lia.
Qed.

Lemma aafter_shrinks c a inc s :
  wf c a → shrinks (aside a s) (aside (aafter c a inc) s).
Proof.
  intros Hw. unfold aafter.
  change (aside (set_acounters ?x _ _) s) with (aside x s). rewrite aside_set_aside.
  destruct (decide (opposite (n_side inc) = s)) as [<-|Hne].
  - apply amatch_shrinks. by apply (wf_positive c).
  - apply sublist_shrinks; [done|]. by apply (wf_positive c).
Qed.

Lemma aafter_wf c a inc :
  wf c a → ab_seq a < INT64_MAX → wf c (aafter c a inc) ∧ ab_seq (aafter c a inc) = ab_seq a + 1.
Proof.
  intros Hw Hlt. pose proof (wf_seq _ _ Hw) as Hin. unfold in_i64 in Hin.
  assert (Hsq : ab_seq (aafter c a inc) = ab_seq a + 1).
  { unfold aafter. simpl. apply s64_id. unfold in_i64. lia. }
  split; [|done]. eapply wf_shrinks; [done|intros; by apply aafter_shrinks| |];
    rewrite Hsq; unfold in_i64; lia.
Qed.

Lemma acancel_wf c a id : wf c a → wf c (acancel a id).1.
Proof.
  intros Hw. unfold acancel. destruct (afind a id); simpl; [|done].
  eapply wf_shrinks; [done| |done|by apply (wf_seq _ _ Hw)]. intros s.
  assert (Hs : aside (aremove a id) s = filter (λ o, ao_id o ≠ id) (aside a s)) by (by destruct s).
  rewrite Hs. apply sublist_shrinks; [apply sublist_filter|by apply (wf_positive c)].
Qed.

(** ** Resting keeps priority *)

Lemma arest_elem s o os x : x ∈ arest s o os ↔ x = o ∨ x ∈ os.
Proof.
  induction os as [|y os IH]; simpl.
  - rewrite elem_of_cons. done.
  - destruct (noWorse s (ao_price y) (ao_price o)); rewrite !elem_of_cons; [rewrite IH|]; tauto.
Qed.

Lemma arest_perm s o os : arest s o os ≡ₚ o :: os.
Proof.
  induction os as [|y os IH]; simpl; [done|].
  destruct (noWorse s (ao_price y) (ao_price o)); [|done]. rewrite IH. constructor.
Qed.

Lemma arest_sorted s o os :
  StronglySorted (before s) os → (∀ x, x ∈ os → ao_seq x < ao_seq o) →
  StronglySorted (before s) (arest s o os).
Proof.
  induction 1 as [|x os Hst IH Hall]; intros Hsq; simpl.
  { constructor; [constructor|done]. }
  destruct (noWorse s (ao_price x) (ao_price o)) eqn:E.
  - constructor.
    + apply IH. intros y Hy. apply Hsq. by right.
    + apply Forall_forall. intros y [->|Hy]%arest_elem.
      * unfold before. destruct (decide (ao_price x = ao_price o)) as [Heq|Hne]; [right|by left].
        split; [done|]. apply Hsq. by left.
      * rewrite Forall_forall in Hall. by apply Hall.
  - assert (Hlt : ∀ p, noWorse s (ao_price x) p = true →
              noWorse s (ao_price o) p = true ∧ ao_price o ≠ p).
    { intros p Hp. unfold noWorse in *. destruct s; lia. }
    constructor; [by constructor|]. constructor.
    + left. apply Hlt. unfold noWorse. destruct s; lia.
    + rewrite Forall_forall in *. intros y Hy. left. apply Hlt.
      specialize (Hall y Hy). unfold before, noWorse in *. destruct s; lia.
Qed.

(** [apart s p q]: a price [p] on side [s] does not cross a price [q] opposite. *)
Definition apart (s : Side) (p q : Z) : Prop :=
  match s with Buy => p < q | Sell => q < p end.

Lemma aresting_perm a s : aresting a ≡ₚ aside a s ++ aside a (opposite s).
Proof. unfold aresting. destruct s; simpl; [done|]. apply Permutation_app_comm. Qed.

Lemma wf_rest c a s o :
  wf c a → order_wf c s (ab_seq a) o →
  (∀ x, x ∈ aside a s → ao_seq x < ao_seq o) → afind a (ao_id o) = None →
  (∀ y, y ∈ aside a (opposite s) → apart s (ao_price o) (ao_price y)) →
  Z.of_nat (length (aresting a)) < cfg_maxOrders c →
  wf c (set_aside a s (arest s o (aside a s))).
Proof.
  intros [W1 W2 W3 W4 W5 W6] Ho Hsq Hid Hap Hroom.
  set (a' := set_aside a s (arest s o (aside a s))).
  assert (Hseq : ab_seq a' = ab_seq a) by (by destruct s).
  assert (Hside : ∀ s', aside a' s' = if decide (s = s') then arest s o (aside a s) else aside a s')
    by (intros; apply aside_set_aside).
  assert (Hopp : aside a' (opposite s) = aside a (opposite s)).
  { rewrite Hside, decide_False; [done|by destruct s]. }
  assert (Hperm : aresting a' ≡ₚ o :: aresting a).
  { rewrite (aresting_perm a' s), (aresting_perm a s), Hopp, Hside, decide_True by done.
    by rewrite arest_perm. }
  split.
  - intros s'. rewrite Hside, Hseq. destruct (decide (s = s')) as [<-|]; [|done].
    apply Forall_forall. intros x [->|Hx]%arest_elem; [done|].
    specialize (W1 s). rewrite Forall_forall in W1. by apply W1.
  - intros s'. rewrite Hside. destruct (decide (s = s')) as [<-|]; [|done]. by apply arest_sorted.
  - rewrite Hperm. simpl. constructor; [|done].
    intros (x & Hx & Hin)%list_elem_of_fmap. apply afind_None with (o := x) in Hid; done.
  - intros x y Hx Hy.
    assert (Hb : ab_bids a' = aside a' Buy) by done. assert (Hk : ab_asks a' = aside a' Sell) by done.
    rewrite Hb in Hx. rewrite Hk in Hy. rewrite !Hside in Hx, Hy.
    destruct s; simpl in *.
    + apply arest_elem in Hx as [->|Hx]; [by apply Hap|by apply W4].
    + apply arest_elem in Hy as [->|Hy]; [by apply Hap|by apply W4].
  - rewrite Hperm. simpl. lia.
  - by rewrite Hseq.
Qed.

(** If quantity is left when matching stops and self-trade prevention did not
    fire, nothing on the opposite side is crossed any more. *)
Lemma amatch_nocross stp inc tid rem os :
  am_outcome (amatch stp inc tid rem os) = NoLongerCrosses →
  ∃ o rest, am_rest (amatch stp inc tid rem os) = o :: rest ∧
    crosses (n_type inc) (n_side inc) (n_price inc) (ao_price o) = false.
Proof.
  revert tid rem. induction os as [|o os IH]; intros tid rem; simpl; [done|].
  destruct (negb (0 <? rem)); [done|].
  destruct (crosses _ _ _ (ao_price o)) eqn:Ex; simpl; [|by exists o, os].
  destruct (ao_participant o =? n_participant inc).
  - destruct stp; simpl; [done|apply IH|done].
  - destruct (ao_remaining o - _ =? 0); simpl; [apply IH|done].
Qed.

Lemma amatch_apart c a inc :
  wf c a → n_type inc ≠ Market → ab_seq a < INT64_MAX →
  let r := amatched c a inc in
  am_outcome r ≠ StpFired → 0 < am_remaining r →
  ∀ y, y ∈ am_rest r → apart (n_side inc) (n_price inc) (ao_price y).
Proof.
  intros Hw Hty Hsq r Hstp Hrem y Hy. unfold r, amatched in *.
  set (s := opposite (n_side inc)) in *.
  destruct (am_outcome (amatch _ _ _ _ (aside a s))) eqn:Eo; [| |done].
  - pose proof (amatch_exhausted _ _ _ _ _ Eo) as Hex.
    destruct (am_rest (amatch _ _ _ _ (aside a s))) as [|z l]; [by apply elem_of_nil in Hy|].
    specialize (Hex ltac:(done)). lia.
  - destruct (amatch_nocross _ _ _ _ _ Eo) as (o & rest & Hrest & Hx).
    assert (Hst : StronglySorted (before s) (o :: rest)).
    { rewrite <- Hrest. eapply shrinks_sorted; [|apply (wf_sorted _ _ Hw s)].
      apply amatch_shrinks. by apply (wf_positive c). }
    apply StronglySorted_inv in Hst as [_ Hall]. rewrite Forall_forall in Hall.
    assert (Hle : noWorse s (ao_price o) (ao_price y) = true).
    { rewrite Hrest in Hy. apply elem_of_cons in Hy as [->|Hy].
      - unfold noWorse. destruct s; lia.
      - destruct (Hall y Hy) as [[? _]|[-> _]]; [done|]. unfold noWorse. destruct s; lia. }
    unfold crosses, apart, noWorse in *. unfold s in *.
    destruct (n_type inc); try done; destruct (n_side inc); simpl in *; lia.
Qed.

Record valid_new (c : BookConfig) (inc : NewOrder) : Prop := {
  vn_aligned : n_type inc = Limit → aligned c (n_price inc);
  vn_quantity : n_quantity inc <= INT64_MAX
}.

Lemma asubmit_wf c a inc :
  wf c a → ab_seq a < INT64_MAX → valid_new c inc → wf c (out_book (asubmit c a inc)).
Proof.
  intros Hw Hsq [Hal Hqm]. unfold asubmit. destruct (averdict c a inc) as [st|] eqn:Ev; [done|].
  destruct (aafter_wf c a inc Hw Hsq) as [Hw1 Hsq1].
  unfold aexecute, adispose. set (r := amatched c a inc).
  destruct (decide (am_outcome r = StpFired)) as [->|Hstp]; [done|].
  assert (Hm : ∀ X (x y : X), match am_outcome r with StpFired => x | _ => y end = y)
    by (intros; by destruct (am_outcome r)).
  rewrite Hm. destruct (n_type inc) eqn:Ety; try done.
  destruct (0 <? am_remaining r) eqn:Erem; [|done].
  destruct (Z.of_nat (length (aresting (aafter c a inc))) <? cfg_maxOrders c) eqn:Eroom; [|done].
  unfold averdict in Ev. rewrite Ety in Ev. simpl in Ev.
  destruct (n_quantity inc <=? 0) eqn:E1; [done|].
  destruct (negb (ainRange c (n_price inc))) eqn:E2; [done|].
  destruct (bool_decide (afind a (n_id inc) ≠ None)) eqn:E3; [done|].
  apply bool_decide_eq_false, dec_stable in E3.
  destruct (amatch_conserves (cfg_stp c) inc (ab_tid a) (n_quantity inc)
              (aside a (opposite (n_side inc))) ltac:(lia) (wf_positive c a _ Hw))
    as (Hc1 & Hc2 & _ & Htr). fold (amatched c a inc) r in Hc1, Hc2, Htr.
  assert (Htpos : 0 <= traded (am_trades r)).
  { clear -Htr. induction Htr as [|t ts Ht _ IH]; simpl; lia. }
  pose proof (wf_seq _ _ Hw) as Hin. unfold in_i64 in Hin.
  assert (Hs64 : s64 (ab_seq a + 1) = ab_seq a + 1) by (apply s64_id; unfold in_i64; lia).
  apply wf_rest; [done| | | | |lia].
  - split; simpl; [done|by apply negb_false_iff|by apply Hal|lia|lia|lia].
  - intros x Hx. simpl. rewrite Hs64.
    destruct (shrinks_elem _ _ _ (aafter_shrinks c a inc (n_side inc) Hw) Hx) as (x0 & Hx0 & Hr).
    destruct (reduced_key _ _ Hr) as (_ & _ & -> & _).
    pose proof (wf_orders _ _ Hw (n_side inc)) as Ho. rewrite Forall_forall in Ho.
    pose proof (ow_seq _ _ _ _ (Ho x0 Hx0)). lia.
  - by apply aafter_absent.
  - intros y Hy. apply (amatch_apart c a inc Hw); [by rewrite Ety|done|done|by apply Z.ltb_lt|].
    unfold aafter in Hy. change (aside (set_acounters ?x _ _) ?s) with (aside x s) in Hy.
    rewrite aside_set_aside in Hy. by rewrite decide_True in Hy.
Qed.

Lemma areplace_wf c a oldId fresh :
  wf c a → ab_seq a < INT64_MAX → valid_new c fresh →
  wf c (out_book (areplace c a oldId fresh).1).
Proof.
  intros Hw Hsq Hv. unfold areplace.
  destruct (bool_decide (afind a oldId = None)); [done|].
  destruct (n_quantity fresh <=? 0); [done|].
  destruct (_ && negb (ainRange c _)); [done|].
  destruct (negb (n_id fresh =? oldId) && _); [done|].
  pose proof (acancel_wf c a oldId Hw) as Hw1.
  assert (Hs1 : ab_seq (acancel a oldId).1 = ab_seq a).
  { unfold acancel. by destruct (afind a oldId). }
  destruct (acancel a oldId) as [a1 r]. simpl in *. apply asubmit_wf; [done|lia|done].
Qed.

Lemma emptyABook_wf c : config_ok c → wf c emptyABook.
Proof.
  intros Hc. pose proof (co_orders _ Hc). split.
  - intros []; constructor.
  - intros []; constructor.
  - constructor.
  - intros x y Hx. by apply elem_of_nil in Hx.
  - simpl. lia.
  - unfold in_i64, INT64_MIN, INT64_MAX. simpl. lia.
Qed.
