(* ===== verification/BookProps.v ===== *)
(** The order book, seen from outside.

    [abs] reads the resting orders of a book straight from its levels and links.
    [reachable] is the set of books the engine can be in.  The theorems say that
    every operation on a reachable book returns, that its effect on [abs] is the
    abstract operation's, and what follows for trades, quantities, self-trade
    prevention and the resting orders. *)
From stdpp Require Import sorting.
From S2P Require Import Prelude Types ObjectPool PriceLevel OrderIdMap LevelMap OrderBook AbstractBook BookRepr BookMatch BookScan BookRefine BookSpec.

(** ** Observation *)

(** The orders of one level, from [head_] along [next]. *)
Fixpoint walkLevel (fuel : nat) (h : heap) (p : option ptr) : list AOrder :=
  match fuel, p with
  | S fuel, Some p =>
      match hget h p with
      | Some o => aorder o :: walkLevel fuel h (o_next o)
      | None => []
      end
  | _, _ => []
  end.

(** One side in priority order: best price first, each level front to back. *)
Definition observe (b : OrderBook) (s : Side) : list AOrder :=
  concat ((λ lv, walkLevel (length (orders b)) (orders b) (head_ lv)) <$>
    match s with Buy => rev (levels_ (bids_ b)) | Sell => levels_ (asks_ b) end).

Definition abs (b : OrderBook) : ABook :=
  mkABook (observe b Buy) (observe b Sell) (seq_ b) (nextTradeId_ b).

Lemma walkLevel_queue h lr pv qs fuel :
  dseg h lr pv qs None → (length qs <= fuel)%nat →
  walkLevel fuel h (first qs None) = queue h qs.
Proof.
  revert pv fuel. induction qs as [|p qs IH]; intros pv fuel Hd Hf; [by destruct fuel|].
  destruct fuel as [|fuel]; [simpl in Hf; lia|].
  destruct Hd as (o & Ho & _ & Hnx & _ & Hd). rewrite (queue_cons _ _ _ _ Ho). cbn [first walkLevel].
  rewrite Ho, Hnx. f_equal. apply (IH (Some p)); [done|simpl in Hf; lia].
Qed.

Lemma queue_concat h (Q : list (list ptr)) : queue h (concat Q) = concat (queue h <$> Q).
Proof. induction Q as [|q Q IH]; [done|]. simpl. by rewrite queue_app, IH. Qed.

Lemma levels_queues c b g P s :
  config_ok c → repr c b g P →
  (λ lv, walkLevel (length (orders b)) (orders b) (head_ lv)) <$> levels_ (sideOf b s)
    = queue (orders b) <$> g_q g s.
Proof.
  intros Hc Hr. pose proof (lm_parts _ _ _ _ _ _ (rp_sides _ _ _ _ Hr s)) as Hpre.
  pose proof (lm_lenL _ _ _ _ _ _ Hpre) as Hlen.
  apply list_eq. intros i. rewrite !list_lookup_fmap.
  destruct (g_q g s !! i) as [qs|] eqn:HQ.
  - destruct (lm_levels _ _ _ _ _ _ Hpre i qs HQ) as (lv & -> & Hok & _). simpl. f_equal.
    rewrite (lv_head _ _ _ _ Hok). eapply walkLevel_queue; [apply (lv_links _ _ _ _ Hok)|].
    destruct (concat_insert _ _ _ HQ) as (X & Y & HXY & _).
    pose proof (rp_total Hr s) as Ht. rewrite HXY, !length_app in Ht. lia.
  - apply lookup_ge_None in HQ. by rewrite (lookup_ge_None_2 (levels_ _)) by lia.
Qed.

Lemma fmap_rev {A B} (f : A → B) (l : list A) : f <$> rev l = rev (f <$> l).
Proof. induction l as [|x l IH]; [done|]. simpl. by rewrite fmap_app, IH. Qed.

Lemma observe_spec c b g P s :
  config_ok c → repr c b g P → observe b s = queue (orders b) (flat s (g_q g s)).
Proof.
  intros Hc Hr. pose proof (levels_queues c b g P s Hc Hr) as Hl.
  unfold observe, flat. rewrite queue_concat. destruct s; simpl in Hl |- *; f_equal.
  - by rewrite !fmap_rev, Hl.
  - done.
Qed.

(** The representation relation is a function: a book represents what it shows. *)
Lemma Repr_abs c b a : config_ok c → Repr c b a → abs b = a.
Proof.
  intros Hc (g & Hr & Hs & Hsq & Htid). destruct a as [bs aks sq tid]. unfold abs.
  rewrite !(observe_spec c b g _ _ Hc Hr), <- !Hs. simpl in *. by rewrite Hsq, Htid.
Qed.

(** A book that represents what it shows, and shows a well-formed book. *)
Definition sound (c : BookConfig) (b : OrderBook) : Prop := Repr c b (abs b) ∧ wf c (abs b).

Lemma sound_intro c b a : config_ok c → Repr c b a → wf c a → sound c b ∧ abs b = a.
Proof. intros Hc HR Hw. pose proof (Repr_abs c b a Hc HR) as He. unfold sound. by rewrite He. Qed.

(** ** Books the engine can be in *)

Inductive Request :=
  | RSubmit (inc : NewOrder)
  | RCancel (id : Z)
  | RReplace (oldId : Z) (fresh : NewOrder).

(** One call of the public interface, with the caller's output buffers. *)
Definition exec (b : OrderBook) (q : Request) (tb : TradeBuffer) (vb : option StpVictimBuffer) :
    option OrderBook :=
  match q with
  | RSubmit inc => '(b, _, _, _) ← submitEx b inc tb vb; Some b
  | RCancel id => '(b, _) ← cancel b id; Some b
  | RReplace oldId fresh => '(b, _, _, _, _) ← replace b oldId fresh tb vb; Some b
  end.

(** Prices of resting orders are whole ticks and quantities are int64_t. *)
Definition valid_request (c : BookConfig) (q : Request) : Prop :=
  match q with
  | RSubmit inc => valid_new c inc
  | RCancel _ => True
  | RReplace _ fresh => valid_new c fresh
  end.

Inductive reachable (c : BookConfig) : OrderBook → Prop :=
  | reach_new : reachable c (bookNew c)
  | reach_step b q tb vb b' :
      reachable c b → valid_request c q → seq_ b < INT64_MAX →
      exec b q tb vb = Some b' → reachable c b'.

(** One step on a book that represents a well-formed abstract book. *)
Lemma exec_ok c b a q tb vb :
  config_ok c → Repr c b a → wf c a → valid_request c q → ab_seq a < INT64_MAX →
  ∃ b' a', exec b q tb vb = Some b' ∧ Repr c b' a' ∧ wf c a'.
Proof.
  intros Hc HR Hw Hv Hsq. destruct q as [inc|id|oldId fresh]; simpl in *.
  - destruct (submitEx_ok c b a inc tb vb Hc HR (vn_aligned _ _ Hv)) as (b' & -> & HR' & _).
    exists b'. eexists. split; [done|]. split; [exact HR'|]. by apply asubmit_wf.
  - destruct (cancel_ok c b a id Hc HR) as (b' & -> & HR').
    exists b'. eexists. split; [done|]. split; [exact HR'|]. by apply acancel_wf.
  - destruct (replace_ok c b a oldId fresh tb vb Hc HR (vn_aligned _ _ Hv)) as (b' & -> & HR').
    exists b'. eexists. split; [done|]. split; [exact HR'|]. by apply areplace_wf.
Qed.

Lemma reachable_Repr c b : config_ok c → reachable c b → Repr c b (abs b) ∧ wf c (abs b).
Proof.
  intros Hc Hre. assert (Hex : ∃ a, Repr c b a ∧ wf c a).
  { induction Hre as [|b q tb vb b' _ (a & HR & Hw) Hv Hsq He].
    - exists emptyABook. split; [by apply bookNew_ok|by apply emptyABook_wf].
    - assert (Hsa : ab_seq a < INT64_MAX) by (destruct HR as (g & _ & _ & Hs & _); lia).
      destruct (exec_ok c b a q tb vb Hc HR Hw Hv Hsa) as (b2 & a2 & He2 & HR2 & Hw2).
      assert (b2 = b') as -> by congruence. eauto. }
  destruct Hex as (a & HR & Hw). by rewrite (Repr_abs c b a Hc HR).
Qed.

(** What the level maps track as best is the price of the first resting order. *)
Lemma best_spec c b a s :
  config_ok c → Repr c b a →
  best_ (sideOf b s) = match aside a s with [] => emptySentinel s | o :: _ => ao_price o end.
Proof.
  intros Hc (g & Hr & Hs & _). rewrite Hs. pose proof (best_slot c b g s Hc Hr) as Hb.
  destruct (hasBest (sideOf b s)) eqn:E.
  - destruct Hb as (i & qs & B & Hbest & _ & HQ & Hne & Hfl). rewrite Hbest.
    rewrite <- (list_insert_id (g_q g s) i qs), Hfl by done.
    destruct qs as [|p qs]; [done|].
    destruct (rp_order _ _ _ _ Hr s i _ p HQ) as (o & Ho & _ & Hp); [by left|].
    simpl. by rewrite Ho.
  - rewrite Hb. simpl. unfold hasBest in E.
    rewrite (lm_side _ _ _ _ _ _ (lm_parts _ _ _ _ _ _ (rp_sides _ _ _ _ Hr s))) in E. lia.
Qed.

Lemma total_prices c b g P s i qs :
  config_ok c → repr c b g P → g_q g s !! i = Some qs →
  total (filter (λ o, ao_price o = priceAt c (Z.of_nat i)) (queue (orders b) (flat s (g_q g s))))
    = total (queue (orders b) qs).
Proof.
  intros Hc Hr HQ. destruct (flat_split s _ _ _ HQ) as (A & B & Hfl & HA & HB).
  assert (Hflat : flat s (g_q g s) = A ++ qs ++ B).
  { rewrite <- (list_insert_id (g_q g s) i qs) at 1 by done. apply Hfl. }
  assert (Hother : ∀ l, (∀ p, p ∈ l → ∃ j bq, j ≠ i ∧ g_q g s !! j = Some bq ∧ p ∈ bq) →
            filter (λ o, ao_price o = priceAt c (Z.of_nat i)) (queue (orders b) l) = []).
  { intros l Hl. apply filter_nil_iff. intros o (p & Hp & Ho)%elem_of_queue Heq.
    destruct (Hl p Hp) as (j & bq & Hne & Hj & Hin).
    destruct (rp_order _ _ _ _ Hr s j bq p Hj Hin) as (o' & Ho' & _ & Hpr).
    assert (o' = o) as -> by congruence. apply Hne.
    assert (Z.of_nat j = Z.of_nat i); [|lia]. apply (priceAt_inj c Hc). congruence. }
  rewrite Hflat, !queue_app, !filter_app.
  rewrite (Hother A), (Hother B), app_nil_l, app_nil_r.
  - f_equal. apply filter_all. by eapply queue_prices.
  - intros p Hp. destruct (HB p Hp) as (j & bq & Hah & ? & ?). exists j, bq.
    split; [|done]. intros ->. destruct s; simpl in Hah; lia.
  - intros p Hp. destruct (HA p Hp) as (j & bq & Hah & ? & ?). exists j, bq.
    split; [|done]. intros ->. destruct s; simpl in Hah; lia.
Qed.

(** ** Reading the refinement off a finished call *)

Lemma submit_inv c b inc tb vb b' tb' vb' r :
  config_ok c → reachable c b → valid_new c inc → submitEx b inc tb vb = Some (b', tb', vb', r) →
  let out := asubmit c (abs b) inc in
  wf c (abs b) ∧ tb' = Buffer.push_all tb (out_trades out) ∧
  vb' = victims_all vb (out_victims out) ∧ r = out_result out ∧ abs b' = out_book out ∧
  (averdict c (abs b) inc = None ∨ b' = b).
Proof.
  intros Hc Hre Hv Hs out. destruct (reachable_Repr c b Hc Hre) as [HR Hw].
  destruct (submitEx_ok c b (abs b) inc tb vb Hc HR (vn_aligned _ _ Hv)) as (b2 & Hb2 & HR2 & Hrej).
  rewrite Hs in Hb2. injection Hb2 as <- -> -> ->. apply (Repr_abs c) in HR2; [|done]. done.
Qed.

(** A rejected order: no trades, no victims, nothing filled or left. *)
Lemma asubmit_rejected c a inc st :
  averdict c a inc = Some st →
  let out := asubmit c a inc in
  out_book out = a ∧ out_trades out = [] ∧ out_victims out = [] ∧
  r_status (out_result out) = st ∧ r_filled (out_result out) = 0 ∧
  r_remaining (out_result out) = 0 ∧ r_rested (out_result out) = false.
Proof. intros Hv. unfold asubmit. by rewrite Hv. Qed.

(** An accepted order: trades and victims are those of the walk, the opposite side
    is what the walk left, and the own side gains the residual if it rested. *)
Lemma adispose_facts c a1 inc mySeq r :
  let out := adispose c a1 inc mySeq r in
  let s := n_side inc in
  out_trades out = am_trades r ∧ out_victims out = am_victims r ∧
  r_filled (out_result out) = n_quantity inc - am_remaining r ∧
  r_remaining (out_result out) = am_remaining r ∧
  aside (out_book out) (opposite s) = aside a1 (opposite s) ∧
  aside (out_book out) s =
    (if r_rested (out_result out)
     then arest s (newAOrder inc (am_remaining r) mySeq) (aside a1 s) else aside a1 s) ∧
  (r_rested (out_result out) = true → n_type inc = Limit).
Proof.
  cbv zeta. unfold adispose.
  assert (Hs : ∀ os, aside (set_aside a1 (n_side inc) os) (opposite (n_side inc))
                     = aside a1 (opposite (n_side inc)) ∧
                     aside (set_aside a1 (n_side inc) os) (n_side inc) = os)
    by (intros; by destruct (n_side inc)).
  destruct (am_outcome r); [destruct (n_type inc)|destruct (n_type inc)|];
    try (repeat split; done).
  - destruct (0 <? am_remaining r); [|repeat split; done].
    destruct (_ <? cfg_maxOrders c); simpl; [|repeat split; done].
    destruct (Hs (arest (n_side inc) (newAOrder inc (am_remaining r) mySeq) (aside a1 (n_side inc)))) as [-> ->].
    repeat split; done.
  - destruct (0 <? am_remaining r); [|repeat split; done].
    destruct (_ <? cfg_maxOrders c); simpl; [|repeat split; done].
    destruct (Hs (arest (n_side inc) (newAOrder inc (am_remaining r) mySeq) (aside a1 (n_side inc)))) as [-> ->].
    repeat split; done.
Qed.

Lemma asubmit_accepted c a inc :
  averdict c a inc = None →
  let out := asubmit c a inc in
  let r := amatched c a inc in
  let s := n_side inc in
  out_trades out = am_trades r ∧ out_victims out = am_victims r ∧
  r_filled (out_result out) = n_quantity inc - am_remaining r ∧
  r_remaining (out_result out) = am_remaining r ∧
  aside (out_book out) (opposite s) = am_rest r ∧
  aside (out_book out) s =
    (if r_rested (out_result out)
     then arest s (newAOrder inc (am_remaining r) (s64 (ab_seq a + 1))) (aside a s)
     else aside a s) ∧
  (r_rested (out_result out) = true → n_type inc = Limit).
Proof.
  intros Hv out r s. unfold out, asubmit. rewrite Hv. unfold aexecute. fold r.
  destruct (adispose_facts c (aafter c a inc) inc (s64 (ab_seq a + 1)) r)
    as (H1 & H2 & H3 & H4 & H5 & H6 & H7).
  assert (Hopp : aside (aafter c a inc) (opposite s) = am_rest r)
    by (unfold aafter, s; fold r; by destruct (n_side inc)).
  assert (Hown : aside (aafter c a inc) s = aside a s)
    by (unfold aafter, s; fold r; by destruct (n_side inc)).
  fold s in H5, H6. rewrite Hopp in H5. rewrite Hown in H6. done.
Qed.

Lemma averdict_quantity c a inc : averdict c a inc = None → 0 < n_quantity inc.
Proof. unfold averdict. destruct (n_quantity inc <=? 0) eqn:E; [done|lia]. Qed.

Lemma total_perm os os' : os ≡ₚ os' → total os = total os'.
Proof. induction 1; simpl in *; lia. Qed.

Lemma traded_nonneg ts : Forall (λ t, 0 < t_quantity t) ts → 0 <= traded ts.
Proof. induction 1; simpl; lia. Qed.

Lemma averdict_not_ok c a inc st : averdict c a inc = Some st → st ≠ Ok.
Proof. unfold averdict. repeat case_match; by intros [= <-]. Qed.

Lemma averdict_fok c a inc :
  averdict c a inc = None → n_type inc = Fok →
  n_quantity inc <= aavailable (cfg_stp c) inc (aside a (opposite (n_side inc))) 0.
Proof.
  unfold averdict. intros Hv Hty. rewrite Hty in Hv. simpl in Hv.
  destruct (n_quantity inc <=? 0); [done|]. destruct (negb (ainRange c (n_price inc))); [done|].
  destruct (bool_decide (afind a (n_id inc) ≠ None)); [done|].
  destruct (aavailable _ _ _ _ <? _) eqn:E; [done|lia].
Qed.
