(* ===== verification/BookClaims.v ===== *)
(** The correctness theorems of the order book, stated for every book the engine
    can reach, with a small concrete book on which each of them is exercised. *)
From stdpp Require Import sorting.
From S2P Require Import Prelude Types ObjectPool PriceLevel OrderIdMap LevelMap OrderBook AbstractBook BookRepr BookMatch BookScan BookRefine BookSpec BookProps.

(** ** A concrete book

    Prices 100 to 200 in steps of 10, room for four orders.  Two sells rest at 120
    (participants 7 and 8) and one at 130. *)
Definition demoConfig : BookConfig := mkConfig 100 200 10 4 CancelPassive.
Definition demoSell1 : NewOrder := mkNew 1 120 5 7 Sell Limit.
Definition demoSell2 : NewOrder := mkNew 2 120 3 8 Sell Limit.
Definition demoSell3 : NewOrder := mkNew 3 130 4 9 Sell Limit.
Definition demoBuy : NewOrder := mkNew 9 130 6 8 Buy Limit.
Definition noTrade : Trade := mkTrade 0 0 0 0 0 Buy.
Definition demoTrades : TradeBuffer := Buffer.mkBuffer (replicate 8 noTrade) 8 0.

Definition demoRun (qs : list Request) : OrderBook :=
  foldl (λ b q, default b (exec b q demoTrades None)) (bookNew demoConfig) qs.
Definition demoBook1 : OrderBook := Eval vm_compute in demoRun [RSubmit demoSell1].
Definition demoBook2 : OrderBook := Eval vm_compute in
  demoRun [RSubmit demoSell1; RSubmit demoSell2].
Definition demoBook : OrderBook := Eval vm_compute in
  demoRun [RSubmit demoSell1; RSubmit demoSell2; RSubmit demoSell3].

Lemma demoConfig_ok : config_ok demoConfig.
Proof. split; vm_compute; intuition discriminate. Qed.

Lemma demoNew_valid inc :
  (n_price inc - 100) mod 10 = 0 → n_quantity inc <= 9223372036854775807 →
  valid_new demoConfig inc.
Proof. intros H1 H2. split; [intros _; exact H1|exact H2]. Qed.

Lemma demoBook_reachable : reachable demoConfig demoBook.
Proof.
  apply (reach_step _ demoBook2 (RSubmit demoSell3) demoTrades None);
    [|by apply demoNew_valid|by vm_compute|by vm_compute].
  apply (reach_step _ demoBook1 (RSubmit demoSell2) demoTrades None);
    [|by apply demoNew_valid|by vm_compute|by vm_compute].
  apply (reach_step _ (bookNew demoConfig) (RSubmit demoSell1) demoTrades None);
    [apply reach_new|by apply demoNew_valid|by vm_compute|by vm_compute].
Qed.

Lemma demoBuy_valid : valid_new demoConfig demoBuy.
Proof. by apply demoNew_valid. Qed.

(** ** Refinement *)

Section claims.
Context (c : BookConfig) (Hc : config_ok c).

Lemma reachable_seq b : seq_ b = ab_seq (abs b).
Proof. done. Qed.

(** C1: Submitting an order whose limit price is on a tick ([valid_new]) to any reachable
    book returns (no undefined behaviour, every loop ends), and its observable effect is
    that of price-time-priority matching on the priority lists: same trades, same self-trade
    victims, same result, and the resulting book shows exactly the abstract result. *)
Theorem submitEx_refines b inc tb vb :
  reachable c b → valid_new c inc → seq_ b < INT64_MAX →
  let out := asubmit c (abs b) inc in
  ∃ b', submitEx b inc tb vb
          = Some (b', Buffer.push_all tb (out_trades out),
                  victims_all vb (out_victims out), out_result out) ∧
        abs b' = out_book out ∧ reachable c b'.
Proof using Hc.
  intros Hre Hv Hsq out. destruct (reachable_Repr c b Hc Hre) as [HR _].
  destruct (submitEx_ok c b (abs b) inc tb vb Hc HR (vn_aligned _ _ Hv)) as (b' & Hb' & HR' & _).
  exists b'. split; [exact Hb'|]. split; [by apply (Repr_abs c)|].
  eapply (reach_step c b (RSubmit inc) tb vb); [done|done|done|]. simpl. by rewrite Hb'.
Qed.

(** Cancelling removes exactly the order with that id, reports its price, side
    and quantities, and reports an unknown order without touching the book. *)
Lemma cancel_refines b id :
  reachable c b → seq_ b < INT64_MAX →
  ∃ b', cancel b id = Some (b', (acancel (abs b) id).2) ∧
        abs b' = (acancel (abs b) id).1 ∧ reachable c b'.
Proof using Hc.
  intros Hre Hsq. destruct (reachable_Repr c b Hc Hre) as [HR _].
  destruct (cancel_ok c b (abs b) id Hc HR) as (b' & Hb' & HR').
  exists b'. split; [exact Hb'|]. split; [by apply (Repr_abs c)|].
  eapply (reach_step c b (RCancel id) demoTrades None); [done|done|done|]. simpl. by rewrite Hb'.
Qed.

(** Replacing validates first, then cancels the old order and submits the new
    one as a fresh arrival. *)
Lemma replace_refines b oldId fresh tb vb :
  reachable c b → valid_new c fresh → seq_ b < INT64_MAX →
  let '(out, old) := areplace c (abs b) oldId fresh in
  ∃ b', replace b oldId fresh tb vb
          = Some (b', Buffer.push_all tb (out_trades out),
                  victims_all vb (out_victims out), out_result out, old) ∧
        abs b' = out_book out ∧ reachable c b'.
Proof using Hc.
  intros Hre Hv Hsq. destruct (reachable_Repr c b Hc Hre) as [HR _].
  destruct (replace_ok c b (abs b) oldId fresh tb vb Hc HR (vn_aligned _ _ Hv)) as (b' & Hb' & HR').
  destruct (areplace c (abs b) oldId fresh) as [out old]. simpl in *.
  exists b'. split; [exact Hb'|]. split; [by apply (Repr_abs c)|].
  eapply (reach_step c b (RReplace oldId fresh) tb vb); [done|done|done|]. simpl. by rewrite Hb'.
Qed.

(** C3: Every book reached from an empty one by submitting orders with limit prices on
    a tick, cancelling and replacing satisfies the book invariant: both sides sorted by
    price and then arrival, every order on its side at a valid price with a
    positive remainder, ids unique, no crossed prices, at most [maxOrders] orders. *)
Theorem reachable_invariant b : reachable c b → wf c (abs b).
Proof using Hc. intros Hre. by apply (reachable_Repr c b Hc Hre). Qed.

(** The tracked best prices are the prices of the first orders in priority (the
    empty sentinel on an empty side), and the book is never crossed. *)
Lemma best_prices_uncrossed b :
  reachable c b →
  bestBid b = match observe b Buy with [] => kBidEmpty | o :: _ => ao_price o end ∧
  bestAsk b = match observe b Sell with [] => kAskEmpty | o :: _ => ao_price o end ∧
  bestBid b < bestAsk b.
Proof using Hc.
  intros Hre. destruct (reachable_Repr c b Hc Hre) as [HR Hw].
  pose proof (best_spec c b (abs b) Buy Hc HR) as Hb. pose proof (best_spec c b (abs b) Sell Hc HR) as Ha.
  simpl in Hb, Ha. unfold bestBid, bestAsk. split; [done|]. split; [done|].
  rewrite Hb, Ha. pose proof (wf_uncrossed _ _ Hw) as Hu. simpl in Hu.
  pose proof (wf_orders _ _ Hw Buy) as Hob. pose proof (wf_orders _ _ Hw Sell) as Hoa. simpl in Hob, Hoa.
  destruct (co_min _ Hc), (co_max _ Hc).
  destruct (observe b Buy) as [|x xs], (observe b Sell) as [|y ys];
    [done| | |apply Hu; by left];
    [apply Forall_cons in Hoa as [Ho _]|apply Forall_cons in Hob as [Ho _]];
    pose proof (ow_range _ _ _ _ Ho) as Hrg; unfold ainRange in Hrg;
    unfold kBidEmpty, kAskEmpty, INT64_MIN, INT64_MAX in *;
    pose proof (co_min _ Hc); pose proof (co_max _ Hc); unfold INT64_MIN, INT64_MAX in *; lia.
Qed.

(** [quantityAt] is the total remaining quantity of the orders resting at that
    price, as int64_t arithmetic. *)
Lemma quantityAt_total b s i :
  reachable c b → 0 <= i < slots c →
  quantityAt b s (priceAt c i)
    = Some (s64 (total (filter (λ o, ao_price o = priceAt c i) (observe b s)))).
Proof using Hc.
  intros Hre Hi. destruct (reachable_Repr c b Hc Hre) as [(g & Hr & Hs & _) _].
  pose proof (lm_parts _ _ _ _ _ _ (rp_sides _ _ _ _ Hr s)) as Hpre.
  unfold quantityAt. rewrite (levelAt_priceAt c Hc _ _ _ _ _ Hpre i Hi).
  destruct (lookup_lt_is_Some_2 (g_q g s) (Z.to_nat i)) as [qs HQ].
  { pose proof (lm_lenQ _ _ _ _ _ _ Hpre). lia. }
  destruct (level_get c _ _ _ _ _ Hpre _ _ HQ) as (lv & Hlv & Hok & _).
  rewrite Z2Nat.id in Hlv by lia. rewrite Hlv. simpl_bind.
  rewrite (lv_total _ _ _ _ Hok), (observe_spec c b g _ s Hc Hr).
  pose proof (total_prices c b g _ s _ _ Hc Hr HQ) as Ht. rewrite Z2Nat.id in Ht by lia.
  by rewrite Ht.
Qed.

(** ** Matching *)

(** C2: Price-time priority.  A submitted order, its limit price on a tick, trades with a
    prefix of the opposite side's priority list: every order of the prefix [xs] is gone,
    having traded in full or been removed as the aggressor's own; at most the next order
    traded in part and keeps its place; the orders behind are untouched.  The trades name
    exactly the traded orders, in priority order. *)
Theorem submit_price_time_priority b inc tb vb b' tb' vb' r :
  reachable c b → valid_new c inc → submitEx b inc tb vb = Some (b', tb', vb', r) →
  ∃ ts xs part part' ys,
    tb' = Buffer.push_all tb ts ∧
    observe b (opposite (n_side inc)) = xs ++ part ++ ys ∧
    observe b' (opposite (n_side inc)) = part' ++ ys ∧
    t_passiveId <$> ts
      = ao_id <$> (filter (λ o, ao_participant o ≠ n_participant inc) xs ++ part) ∧
    match part with
    | [] => part' = []
    | [o] => ∃ q, 0 < q < ao_remaining o ∧ part' = [with_aremaining o (ao_remaining o - q)]
    | _ => False
    end.
Proof using Hc.
  intros Hre Hv Hs.
  destruct (submit_inv c b inc tb vb b' tb' vb' r Hc Hre Hv Hs) as (Hw & -> & _ & _ & Habs & _).
  set (s := opposite (n_side inc)).
  assert (Ho : ∀ x, observe x s = aside (abs x) s) by (intros; by destruct s).
  rewrite !Ho, Habs. destruct (averdict c (abs b) inc) as [st|] eqn:Ev.
  - destruct (asubmit_rejected c (abs b) inc st Ev) as (-> & -> & _).
    exists [], [], [], [], (aside (abs b) s). done.
  - destruct (asubmit_accepted c (abs b) inc Ev) as (-> & _ & _ & _ & Hopp & _).
    fold s in Hopp. rewrite Hopp. unfold amatched. fold s.
    destruct (amatch_consumed (cfg_stp c) inc (ab_tid (abs b)) (n_quantity inc) (aside (abs b) s))
      as (xs & part & ys & [H1 (part' & H2 & Hp) H3 _]); [by apply (wf_positive c)|].
    eexists _, xs, part, part', ys. split; [done|]. split; [exact H1|]. split; [exact H2|].
    split; [exact H3|]. destruct part as [|o [|]]; [done| |done].
    destruct Hp as (q & -> & Hq & _). by exists q.
Qed.

(** Quantity is conserved.  What an accepted order traded plus what is left of it
    is what was submitted; the opposite side loses exactly the traded quantity and
    the victims' quantity; the own side gains exactly the residual when it rests.
    A rejected order leaves the book as it was and trades nothing. *)
Lemma submit_conserves_quantity b inc tb vb b' tb' vb' r :
  reachable c b → valid_new c inc → submitEx b inc tb vb = Some (b', tb', vb', r) →
  ∃ ts vs, tb' = Buffer.push_all tb ts ∧ vb' = victims_all vb vs ∧ r_filled r = traded ts ∧
    Forall (λ t, 0 < t_quantity t) ts ∧
    ((ts = [] ∧ vs = [] ∧ b' = b) ∨
     (r_filled r + r_remaining r = n_quantity inc ∧ 0 <= r_remaining r ∧
      total (observe b' (opposite (n_side inc))) + traded ts + total vs
        = total (observe b (opposite (n_side inc))) ∧
      total (observe b' (n_side inc))
        = total (observe b (n_side inc)) + (if r_rested r then r_remaining r else 0))).
Proof using Hc.
  intros Hre Hv Hs.
  destruct (submit_inv c b inc tb vb b' tb' vb' r Hc Hre Hv Hs) as (Hw & -> & -> & -> & Habs & Hrej).
  eexists _, _. split; [done|]. split; [done|].
  assert (Ho : ∀ x s, observe x s = aside (abs x) s) by (by intros ? []).
  destruct (averdict c (abs b) inc) as [st|] eqn:Ev.
  - destruct (asubmit_rejected c (abs b) inc st Ev) as (_ & -> & -> & _ & -> & _).
    split; [done|]. split; [constructor|]. left. by destruct Hrej.
  - destruct (asubmit_accepted c (abs b) inc Ev) as (-> & -> & -> & -> & Hopp & Hown & _).
    pose proof (averdict_quantity _ _ _ Ev) as Hq.
    destruct (amatch_conserves (cfg_stp c) inc (ab_tid (abs b)) (n_quantity inc)
      (aside (abs b) (opposite (n_side inc))) ltac:(lia) (wf_positive c _ _ Hw)) as (H1 & H2 & H3 & H4).
    fold (amatched c (abs b) inc) in H1, H2, H3, H4.
    split; [lia|]. split; [exact H4|]. right. rewrite !Ho, Habs, Hopp, Hown.
    split; [lia|]. split; [exact H2|]. split; [exact H3|].
    destruct (r_rested _); [|lia]. rewrite (total_perm _ _ (arest_perm _ _ _)). simpl. lia.
Qed.

(** Every trade is between the aggressor and an order that was resting opposite,
    of another participant, at the resting order's price, which the aggressor's
    limit accepts, and for no more than that order had left. *)
Lemma submit_trades_valid b inc tb vb b' tb' vb' r :
  reachable c b → valid_new c inc → submitEx b inc tb vb = Some (b', tb', vb', r) →
  ∃ ts, tb' = Buffer.push_all tb ts ∧
    Forall (trade_of inc (observe b (opposite (n_side inc)))) ts ∧
    (length ts <= length (observe b (opposite (n_side inc))))%nat ∧
    Z.of_nat (length ts) <= cfg_maxOrders c.
Proof using Hc.
  intros Hre Hv Hs.
  destruct (submit_inv c b inc tb vb b' tb' vb' r Hc Hre Hv Hs) as (Hw & -> & _ & _ & _ & _).
  eexists. split; [done|]. set (s := opposite (n_side inc)).
  assert (Ho : observe b s = aside (abs b) s) by (by destruct s). rewrite Ho.
  assert (Hroom : Z.of_nat (length (aside (abs b) s)) <= cfg_maxOrders c).
  { pose proof (wf_room _ _ Hw) as Hr. rewrite (aresting_perm _ s), length_app in Hr. lia. }
  destruct (averdict c (abs b) inc) as [st|] eqn:Ev.
  - destruct (asubmit_rejected c (abs b) inc st Ev) as (_ & -> & _).
    split; [constructor|]. simpl. lia.
  - destruct (asubmit_accepted c (abs b) inc Ev) as (-> & _). unfold amatched. fold s.
    pose proof (amatch_count (cfg_stp c) inc (ab_tid (abs b)) (n_quantity inc) (aside (abs b) s)).
    split; [apply amatch_trades|]. lia.
Qed.

(** Fill-or-kill is all or nothing.  As long as the opposite side's total fits in
    an int64_t, a FOK order either fills completely or is rejected with the book,
    the trades and the victims untouched. *)
Lemma fok_all_or_nothing b inc tb vb b' tb' vb' r :
  reachable c b → valid_new c inc → n_type inc = Fok →
  total (observe b (opposite (n_side inc))) <= INT64_MAX →
  submitEx b inc tb vb = Some (b', tb', vb', r) →
  (r_status r = Ok ∧ r_filled r = n_quantity inc ∧ r_remaining r = 0 ∧ r_rested r = false) ∨
  (b' = b ∧ tb' = tb ∧ vb' = vb ∧ r_filled r = 0 ∧ r_status r ≠ Ok).
Proof using Hc.
  intros Hre Hv Hty Htot Hs.
  destruct (submit_inv c b inc tb vb b' tb' vb' r Hc Hre Hv Hs) as (Hw & -> & -> & -> & _ & Hrej).
  set (s := opposite (n_side inc)) in *.
  assert (Ho : observe b s = aside (abs b) s) by (by destruct s). rewrite Ho in Htot.
  destruct (averdict c (abs b) inc) as [st|] eqn:Ev.
  - right. destruct Hrej as [?| ->]; [done|].
    pose proof (averdict_not_ok _ _ _ _ Ev) as Hst.
    destruct (asubmit_rejected c (abs b) inc st Ev) as (_ & -> & -> & -> & -> & _).
    by rewrite victims_all_nil.
  - left. pose proof (averdict_quantity _ _ _ Ev) as Hq.
    assert (Hav : n_quantity inc <= aavailable (cfg_stp c) inc (aside (abs b) s) 0)
      by (by apply (averdict_fok c (abs b))).
    destruct (aavailable_fills (cfg_stp c) inc (ab_tid (abs b)) (n_quantity inc) (aside (abs b) s) 0
      (wf_positive c _ _ Hw) Hq ltac:(lia) ltac:(lia) ltac:(lia) Hav) as [Hr0 Hout].
    unfold asubmit. rewrite Ev. unfold aexecute, adispose, amatched. fold s.
    rewrite Hout, Hty, Hr0. simpl. split; [done|]. split; [lia|done].
Qed.

(** Only a limit order ever rests: a market, IOC or FOK order leaves its own side
    of the book exactly as it was. *)
Lemma only_limit_rests b inc tb vb b' tb' vb' r :
  reachable c b → valid_new c inc → n_type inc ≠ Limit →
  submitEx b inc tb vb = Some (b', tb', vb', r) →
  r_rested r = false ∧ observe b' (n_side inc) = observe b (n_side inc).
Proof using Hc.
  intros Hre Hv Hty Hs.
  destruct (submit_inv c b inc tb vb b' tb' vb' r Hc Hre Hv Hs) as (_ & _ & _ & -> & Habs & _).
  assert (Ho : ∀ x s, observe x s = aside (abs x) s) by (by intros ? []).
  rewrite !Ho, Habs. destruct (averdict c (abs b) inc) as [st|] eqn:Ev.
  - by destruct (asubmit_rejected c (abs b) inc st Ev) as (-> & _ & _ & _ & _ & _ & ->).
  - destruct (asubmit_accepted c (abs b) inc Ev) as (_ & _ & _ & _ & _ & Hown & Hl).
    rewrite Hown. destruct (r_rested _); [|done]. by specialize (Hl eq_refl).
Qed.

(** A replace that is refused before its cancel changes nothing; one whose new order is refused
    behind the cancel leaves the book without the old order. *)
Lemma areplace_refused a id fresh :
  let '(out, old) := areplace c a id fresh in
  match old with
  | None => out_book out = a ∧ out_trades out = [] ∧ r_status (out_result out) ≠ Ok
  | Some _ => ∀ st, averdict c (acancel a id).1 fresh = Some st →
      out_book out = (acancel a id).1 ∧ out_trades out = [] ∧ r_status (out_result out) = st
  end.
Proof.
  unfold areplace. repeat (case_match; simplify_eq/=; try done).
  intros st Hv. by destruct (asubmit_rejected c _ _ _ Hv) as (-> & -> & _ & -> & _).
Qed.


(** The queries tell the truth.  In every reachable book the best prices are those of the
    first orders in priority, or the sentinels of an empty side, and do not cross; and the
    quantity at a price is the total of what rests there, as a signed 64-bit number. *)
Theorem queries_answer b :
  reachable c b →
  (bestBid b = match observe b Buy with [] => kBidEmpty | o :: _ => ao_price o end ∧
   bestAsk b = match observe b Sell with [] => kAskEmpty | o :: _ => ao_price o end ∧
   bestBid b < bestAsk b) ∧
  ∀ s i, 0 <= i < slots c →
    quantityAt b s (priceAt c i) = Some (s64 (total (filter (λ o, ao_price o = priceAt c i) (observe b s)))).
Proof using Hc. intros Hre. split; [by apply best_prices_uncrossed|intros; by apply quantityAt_total]. Qed.

(** C11: What a submission trades, its limit price on a tick.  Quantity is conserved: what
    the order traded plus what is left of it is what was ordered, the opposite side loses
    exactly what was traded and what self-trade prevention cancelled, and the own side gains
    exactly what rests; every trade is between the order and one that rested opposite, at
    the resting order's price, within the limit, and there are at most as many as orders
    rested. *)
Theorem submit_conserves_and_trades b inc tb vb b' tb' vb' r :
  reachable c b → valid_new c inc → submitEx b inc tb vb = Some (b', tb', vb', r) →
  (∃ ts vs, tb' = Buffer.push_all tb ts ∧ vb' = victims_all vb vs ∧ r_filled r = traded ts ∧
    Forall (λ t, 0 < t_quantity t) ts ∧
    ((ts = [] ∧ vs = [] ∧ b' = b) ∨
     (r_filled r + r_remaining r = n_quantity inc ∧ 0 <= r_remaining r ∧
      total (observe b' (opposite (n_side inc))) + traded ts + total vs
        = total (observe b (opposite (n_side inc))) ∧
      total (observe b' (n_side inc))
        = total (observe b (n_side inc)) + (if r_rested r then r_remaining r else 0)))) ∧
  ∃ ts, tb' = Buffer.push_all tb ts ∧
    Forall (trade_of inc (observe b (opposite (n_side inc)))) ts ∧
    (length ts <= length (observe b (opposite (n_side inc))))%nat ∧
    Z.of_nat (length ts) <= cfg_maxOrders c.
Proof using Hc.
  intros Hre Hv Hs. split; [by eapply submit_conserves_quantity|by eapply submit_trades_valid].
Qed.

(** The order types are respected.  A fill-or-kill order fills completely or changes
    nothing, as long as the total on the opposite side fits 64 bits; and only a limit order ever
    rests: any other leaves its own side as it was. *)
Theorem order_types_respected b inc tb vb b' tb' vb' r :
  reachable c b → valid_new c inc → submitEx b inc tb vb = Some (b', tb', vb', r) →
  (n_type inc = Fok → total (observe b (opposite (n_side inc))) <= INT64_MAX →
   (r_status r = Ok ∧ r_filled r = n_quantity inc ∧ r_remaining r = 0 ∧ r_rested r = false) ∨
   (b' = b ∧ tb' = tb ∧ vb' = vb ∧ r_filled r = 0 ∧ r_status r ≠ Ok)) ∧
  (n_type inc ≠ Limit → r_rested r = false ∧ observe b' (n_side inc) = observe b (n_side inc)).
Proof using Hc.
  intros Hre Hv Hs. split; [intros; by eapply fok_all_or_nothing|intros; by eapply only_limit_rests].
Qed.
End claims.

(** ** The theorems on the concrete book *)

Definition demoOut (b : OrderBook) (inc : NewOrder) :
    OrderBook * TradeBuffer * option StpVictimBuffer * OrderResult :=
  default (b, demoTrades, None, emptyResult) (submitEx b inc demoTrades None).
Definition demoAfter : OrderBook := Eval vm_compute in (demoOut demoBook demoBuy).1.1.1.
Definition demoAfterTrades : TradeBuffer := Eval vm_compute in (demoOut demoBook demoBuy).1.1.2.
Definition demoAfterResult : OrderResult := Eval vm_compute in (demoOut demoBook demoBuy).2.

(** The aggressor (participant 8) takes order 1 in full, removes its own order 2
    and takes one lot of order 3. *)
Lemma demoBuy_run :
  submitEx demoBook demoBuy demoTrades None
    = Some (demoAfter, demoAfterTrades, None, demoAfterResult) ∧
  Buffer.contents demoAfterTrades
    = [mkTrade 0 9 1 120 5 Buy; mkTrade 1 9 3 130 1 Buy].
Proof. split; by vm_compute. Qed.

Lemma submitEx_refines_witness :
  ∃ b', submitEx demoBook demoBuy demoTrades None
      = Some (b', Buffer.push_all demoTrades (out_trades (asubmit demoConfig (abs demoBook) demoBuy)),
              victims_all None (out_victims (asubmit demoConfig (abs demoBook) demoBuy)),
              out_result (asubmit demoConfig (abs demoBook) demoBuy)) ∧
    abs b' = out_book (asubmit demoConfig (abs demoBook) demoBuy) ∧ reachable demoConfig b'.
Proof.
  apply (submitEx_refines demoConfig demoConfig_ok demoBook demoBuy demoTrades None
           demoBook_reachable demoBuy_valid). vm_compute. reflexivity.
Defined.

Lemma reachable_invariant_witness : wf demoConfig (abs demoBook).
Proof. apply (reachable_invariant demoConfig demoConfig_ok demoBook demoBook_reachable). Defined.

Lemma submit_price_time_priority_witness :
  ∃ ts xs part part' ys,
    demoAfterTrades = Buffer.push_all demoTrades ts ∧
    observe demoBook Sell = xs ++ part ++ ys ∧ observe demoAfter Sell = part' ++ ys ∧
    t_passiveId <$> ts = ao_id <$> (filter (λ o, ao_participant o ≠ 8) xs ++ part) ∧
    match part with
    | [] => part' = []
    | [o] => ∃ q, 0 < q < ao_remaining o ∧ part' = [with_aremaining o (ao_remaining o - q)]
    | _ => False
    end.
Proof.
  apply (submit_price_time_priority demoConfig demoConfig_ok demoBook demoBuy demoTrades None
           demoAfter demoAfterTrades None demoAfterResult demoBook_reachable demoBuy_valid).
  vm_compute. reflexivity.
Defined.


Lemma queries_answer_witness :
  bestBid demoBook < bestAsk demoBook ∧
  quantityAt demoBook Sell 120 = Some (s64 (total (filter (λ o, ao_price o = 120) (observe demoBook Sell)))).
Proof.
  destruct (queries_answer demoConfig demoConfig_ok demoBook demoBook_reachable) as ((_ & _ & H1) & H2).
  split; [exact H1|]. apply (H2 Sell 2). vm_compute. split; congruence.
Defined.

Lemma submit_conserves_and_trades_witness :
  (∃ ts vs, demoAfterTrades = Buffer.push_all demoTrades ts ∧ None = victims_all None vs ∧
    r_filled demoAfterResult = traded ts ∧ Forall (λ t, 0 < t_quantity t) ts ∧
    ((ts = [] ∧ vs = [] ∧ demoAfter = demoBook) ∨
     (r_filled demoAfterResult + r_remaining demoAfterResult = 6 ∧ 0 <= r_remaining demoAfterResult ∧
      total (observe demoAfter Sell) + traded ts + total vs = total (observe demoBook Sell) ∧
      total (observe demoAfter Buy) = total (observe demoBook Buy)
        + (if r_rested demoAfterResult then r_remaining demoAfterResult else 0)))) ∧
  (∃ ts, demoAfterTrades = Buffer.push_all demoTrades ts ∧
    Forall (trade_of demoBuy (observe demoBook Sell)) ts ∧
    (length ts <= length (observe demoBook Sell))%nat ∧ Z.of_nat (length ts) <= 4).
Proof.
  apply (submit_conserves_and_trades demoConfig demoConfig_ok demoBook demoBuy demoTrades None
           demoAfter demoAfterTrades None demoAfterResult demoBook_reachable demoBuy_valid).
  vm_compute. reflexivity.
Defined.

Definition demoFok : NewOrder := mkNew 9 130 9 5 Buy Fok.
Definition demoFokAfter : OrderBook := Eval vm_compute in (demoOut demoBook demoFok).1.1.1.
Definition demoFokTrades : TradeBuffer := Eval vm_compute in (demoOut demoBook demoFok).1.1.2.
Definition demoFokResult : OrderResult := Eval vm_compute in (demoOut demoBook demoFok).2.

Lemma demoFok_valid : valid_new demoConfig demoFok.
Proof. by apply demoNew_valid. Qed.

Lemma order_types_respected_witness :
  ((r_status demoFokResult = Ok ∧ r_filled demoFokResult = 9 ∧ r_remaining demoFokResult = 0 ∧
    r_rested demoFokResult = false) ∨
   (demoFokAfter = demoBook ∧ demoFokTrades = demoTrades ∧ (None : option StpVictimBuffer) = None ∧
    r_filled demoFokResult = 0 ∧ r_status demoFokResult ≠ Ok)) ∧
  (r_rested demoFokResult = false ∧ observe demoFokAfter Buy = observe demoBook Buy).
Proof.
  destruct (order_types_respected demoConfig demoConfig_ok demoBook demoFok demoTrades None
    demoFokAfter demoFokTrades None demoFokResult demoBook_reachable demoFok_valid) as [H1 H2].
  - vm_compute. reflexivity.
  - split; [apply H1; [reflexivity|vm_compute; congruence]|apply H2; discriminate].
Defined.

(** ** Restoring *)

(** ** Where the code departs from its documentation *)

(** The book accepts a price between two ticks and files it under the tick below.
    Here a sell at 129 shares the slot of price 120, and a buy limited to 120 trades
    with it at 129. *)
Theorem off_tick_trades_through_limit :
  let b := demoRun [RSubmit (mkNew 1 120 5 7 Sell Limit); RSubmit (mkNew 2 129 5 7 Sell Limit)] in
  let buy := mkNew 9 120 8 8 Buy Limit in
  Buffer.contents (demoOut b buy).1.1.2
    = [mkTrade 0 9 1 120 5 Buy; mkTrade 1 9 2 129 3 Buy].
Proof. by vm_compute. Qed.

(** A replace whose new order is rejected after the internal cancel: the old order
    is gone although the call reports a rejection. *)
Theorem rejected_replace_loses_order :
  let b := demoRun [RSubmit (mkNew 1 120 5 7 Sell Limit)] in
  match replace b 1 (mkNew 2 0 5 8 Buy Market) demoTrades None with
  | Some (b', _, _, r, _) =>
      r_status r = RejectedMarketIntoEmptyBook ∧ observe b' Sell = [] ∧
      length (observe b Sell) = 1%nat
  | None => False
  end.
Proof. by vm_compute. Qed.

(** Large quantities overflow the signed accumulators: the aggregate of a level
    turns negative, and a fill-or-kill order that could be filled is refused. *)
Theorem large_quantities_overflow :
  let q := 4611686018427387904 in
  let b := demoRun [RSubmit (mkNew 1 120 q 7 Sell Limit); RSubmit (mkNew 2 120 q 7 Sell Limit)] in
  quantityAt b Sell 120 = Some (-9223372036854775808) ∧
  r_status (demoOut b (mkNew 9 120 9223372036854775807 8 Buy Fok)).2 = RejectedFokUnfillable.
Proof. by vm_compute. Qed.
