(* ===== verification/BookWalk.v ===== *)
(** The walk over the resting orders that the snapshot writer, the state digest and
    the market-data resynchronisation share: bids from the best price down, asks from
    the best price up, each level front to back. *)
From S2P Require Import Prelude Types ObjectPool PriceLevel OrderIdMap LevelMap OrderBook AbstractBook BookRepr BookMatch BookScan BookRefine BookSpec BookProps.

(** [for (const Order* o = level->head(); o != nullptr; o = o->next)], collecting the
    fields of each order. *)
Fixpoint levelOrders (fuel : nat) (b : OrderBook) (p : option ptr) : option (list AOrder) :=
  match p with
  | None => Some []
  | Some p =>
      match fuel with
      | O => None
      | S fuel => o ← hget (orders b) p; os ← levelOrders fuel b (o_next o); Some (aorder o :: os)
      end
  end.

(** [while (p != emptySentinel(side)) { ...; p = lm.nextOccupied(p); }] *)
Fixpoint walkLoop (fuel : nat) (b : OrderBook) (s : Side) (p : Z) : option (list AOrder) :=
  match fuel with
  | O => None
  | S fuel =>
      if p =? emptySentinel s then Some []
      else
        lvl ← levelAt (sideOf b s) p;
        lv ← aget (levels_ (sideOf b s)) lvl;
        os ← levelOrders (loopFuel b) b (head_ lv);
        p ← nextOccupied (sideOf b s) p;
        rest ← walkLoop fuel b s p;
        Some (os ++ rest)
  end.

Definition walkSide (b : OrderBook) (s : Side) : option (list AOrder) :=
  walkLoop (loopFuel b) b s (best_ (sideOf b s)).

Definition walkBook (b : OrderBook) : option (list AOrder) :=
  bids ← walkSide b Buy; asks ← walkSide b Sell; Some (bids ++ asks).

Lemma levelOrders_ok b lr pv qs fuel :
  dseg (orders b) lr pv qs None → (length qs <= fuel)%nat →
  levelOrders fuel b (first qs None) = Some (queue (orders b) qs).
Proof.
  revert pv fuel. induction qs as [|p qs IH]; intros pv fuel Hd Hf; [by destruct fuel|].
  destruct fuel as [|fuel]; [simpl in Hf; lia|].
  destruct Hd as (o & Ho & _ & Hnx & _ & Hd). rewrite (queue_cons _ _ _ _ Ho).
  cbn [first levelOrders]. rewrite Ho. simpl_bind.
  by rewrite Hnx, (IH (Some p) fuel Hd) by (simpl in Hf; lia).
Qed.

Section walk.
Context (c : BookConfig) (Hc : config_ok c) (b : OrderBook) (g : ghost) (Hr : repr c b g (gocc g)) (s : Side).
#[local] Abbreviation Q := (g_q g s).

Lemma walkLoop_ok fuel i qs :
  Q !! i = Some qs → qs ≠ [] → (length qs + length (behind s Q i) < fuel)%nat →
  (length (qs ++ behind s Q i) <= length (orders b))%nat →
  walkLoop fuel b s (priceAt c (Z.of_nat i)) = Some (queue (orders b) (qs ++ behind s Q i)).
Proof using Hc Hr.
  revert i qs. induction fuel as [|fuel IH]; intros i qs HQ Hne Hf Hlen; [lia|].
  pose proof (rp_sides _ _ _ _ Hr s) as Hs. pose proof (lm_parts _ _ _ _ _ _ Hs) as Hpre.
  pose proof (level_slot c _ _ _ _ _ Hpre _ _ HQ) as Hi.
  cbn [walkLoop]. pose proof (priceAt_not_sentinel c Hc s _ Hi).
  destruct (_ =? emptySentinel s) eqn:Es; [lia|].
  rewrite (levelAt_priceAt c Hc _ _ _ _ _ Hpre _ Hi). simpl_bind.
  destruct (level_get c _ _ _ _ _ Hpre _ _ HQ) as (lv & -> & Hok & _). simpl_bind.
  rewrite (lv_head _ _ _ _ Hok), (levelOrders_ok _ _ _ _ _ (lv_links _ _ _ _ Hok)).
  2: { unfold loopFuel. rewrite length_app in Hlen. lia. }
  simpl_bind. rewrite queue_app.
  destruct (nextOccupied_ok c Hc _ _ _ _ _ Hpre _ Hi) as (nb & -> & Hnext). simpl_bind.
  pose proof (lookup_lt_Some _ _ _ HQ) as HiQ.
  assert (Hn0 : length qs ≠ 0%nat) by (destruct qs; [done|simpl; lia]).
  destruct Hnext as [[-> Hno]|(k & Hk & HPk & -> & Hah & Hno)].
  - rewrite (behind_none s Q i HiQ) by done.
    destruct fuel as [|fuel]; [lia|]. cbn [walkLoop]. by rewrite Z.eqb_refl.
  - unfold gocc, occ in HPk. destruct (Q !! Z.to_nat k) as [qk|] eqn:HQk; [|done].
    assert (Hki : Z.of_nat (Z.to_nat k) = k) by lia. rewrite <- Hki in Hah, Hno |- *.
    rewrite (behind_next s Q i (Z.to_nat k) qk HQk Hah HiQ Hno) in Hf, Hlen |- *.
    rewrite (IH (Z.to_nat k) qk HQk); [done|by destruct qk| |]; rewrite !length_app in *; lia.
Qed.

Lemma walkSide_queue : walkSide b s = Some (queue (orders b) (flat s Q)).
Proof using Hc Hr.
  unfold walkSide. pose proof (best_front c b g s Hc Hr) as Hbest.
  destruct (hasBest (sideOf b s)) eqn:Eb.
  - destruct Hbest as (i & qs & -> & HQ & Hne & -> & Hlen). apply walkLoop_ok; [done|done| |done].
    unfold loopFuel. rewrite length_app in Hlen. lia.
  - destruct Hbest as [-> ->]. simpl. by rewrite Z.eqb_refl.
Qed.
End walk.

Lemma walkBook_ok c b a : config_ok c → Repr c b a → walkBook b = Some (ab_bids a ++ ab_asks a).
Proof.
  intros Hc (g & Hr & Hs & _). unfold walkBook. rewrite !(walkSide_queue c Hc b g Hr). simpl_bind.
  by rewrite <- (Hs Buy), <- (Hs Sell).
Qed.
