(* ===== verification/Wire.v ===== *)
(** Bytes: the explicit little-endian loads and stores of [protocol/wire.hpp]
    and the raw copies ([std::memcpy], [std::memmove]) the codecs use.

    A byte is a [Z] in [0, 256); a buffer is a list of bytes and a pointer into
    it is an offset.  An access outside the buffer is [None]. *)
From S2P Require Import Prelude.

Definition is_byte (b : Z) : Prop := 0 <= b < 256.
Abbreviation bytes := (Forall is_byte).

(** ** Stores and loads *)

(** [for (int i = 0; i < n; ++i) dst[i] = v >> (8 * i)], from iteration [i]. *)
Fixpoint storeLoop (n : nat) (i : Z) (dst : list Z) (p v : Z) : option (list Z) :=
  match n with
  | O => Some dst
  | S n' =>
      dst' ← aset dst (p + i) (u8 (Z.shiftr v (8 * i)));
      storeLoop n' (i + 1) dst' p v
  end.

(** [for (int i = 0; i < n; ++i) v |= src[i] << (8 * i)], from iteration [i]. *)
Fixpoint loadLoop (n : nat) (i : Z) (src : list Z) (p v : Z) : option Z :=
  match n with
  | O => Some v
  | S n' =>
      b ← aget src (p + i);
      loadLoop n' (i + 1) src p (Z.lor v (Z.shiftl b (8 * i)))
  end.

Definition putU8 (dst : list Z) (p v : Z) : option (list Z) := aset dst p v.
Definition getU8 (src : list Z) (p : Z) : option Z := aget src p.
Definition putU32 (dst : list Z) (p v : Z) : option (list Z) := storeLoop 4 0 dst p v.
Definition getU32 (src : list Z) (p : Z) : option Z := loadLoop 4 0 src p 0.
Definition putU64 (dst : list Z) (p v : Z) : option (list Z) := storeLoop 8 0 dst p v.
Definition getU64 (src : list Z) (p : Z) : option Z := loadLoop 8 0 src p 0.
Definition putI64 (dst : list Z) (p v : Z) : option (list Z) := putU64 dst p (u64 v).
Definition getI64 (src : list Z) (p : Z) : option Z := s64 <$> getU64 src p.

(** [std::memcpy (dst + p, src, |src|)]. *)
Definition memcpy (dst : list Z) (p : Z) (src : list Z) : option (list Z) :=
  if (0 <=? p) && (p + Z.of_nat (length src) <=? Z.of_nat (length dst))
  then Some (take (Z.to_nat p) dst ++ src ++ drop (Z.to_nat p + length src) dst)
  else None.

(** The [n] bytes at [src + p], as [memcpy] or [memmove] reads them. *)
Definition slice (src : list Z) (p n : Z) : option (list Z) :=
  if (0 <=? p) && (0 <=? n) && (p + n <=? Z.of_nat (length src))
  then Some (take (Z.to_nat n) (drop (Z.to_nat p) src)) else None.

(** ** Little-endian words *)

(** The [n] bytes of [v], least significant first, and back. *)
Fixpoint le (n : nat) (v : Z) : list Z :=
  match n with O => [] | S n' => u8 v :: le n' (Z.shiftr v 8) end.

Fixpoint unle (bs : list Z) : Z :=
  match bs with [] => 0 | b :: bs' => b + 256 * unle bs' end.

Lemma length_le n v : length (le n v) = n.
Proof. revert v. induction n as [|n IH]; intros v; simpl; [done|]. by rewrite IH. Qed.

Lemma u8_byte x : is_byte (u8 x).
Proof. apply Z.mod_pos_bound. lia. Qed.

Lemma le_bytes n v : bytes (le n v).
Proof.
  revert v. induction n as [|n IH]; intros v; simpl; constructor; [apply u8_byte|apply IH].
Qed.

Lemma unle_le n v : 0 <= v → unle (le n v) = v mod 256 ^ Z.of_nat n.
Proof.
  revert v. induction n as [|n IH]; intros v Hv; cbn [le unle].
  { by rewrite Z.mod_1_r. }
  rewrite IH by (by apply Z.shiftr_nonneg). unfold u8.
  rewrite Z.shiftr_div_pow2 by lia. change (2 ^ 8) with 256.
  rewrite Nat2Z.inj_succ, Z.pow_succ_r by lia. by rewrite Z.rem_mul_r by lia.
Qed.

Lemma unle_range bs : bytes bs → 0 <= unle bs < 256 ^ Z.of_nat (length bs).
Proof.
  induction 1 as [|b bs Hb _ IH]; cbn [unle length]; [done|].
  rewrite Nat2Z.inj_succ, Z.pow_succ_r by lia. unfold is_byte in Hb. lia.
Qed.

Lemma le_unle bs : bytes bs → le (length bs) (unle bs) = bs.
Proof.
  induction 1 as [|b bs Hb Hbs IH]; cbn [le unle length]; [done|].
  unfold is_byte in Hb. pose proof (unle_range bs Hbs).
  rewrite Z.shiftr_div_pow2 by lia. change (2 ^ 8) with 256.
  unfold u8. rewrite (Z.add_comm b), (Z.mul_comm 256), Z.div_add_l, Z.div_small, Z.add_0_r by lia.
  rewrite IH. f_equal. by rewrite Z.add_comm, Z_mod_plus_full, Z.mod_small.
Qed.

Lemma shiftr_shiftr_8 v i : 0 <= i → Z.shiftr (Z.shiftr v (8 * i)) 8 = Z.shiftr v (8 * (i + 1)).
Proof. intros. rewrite Z.shiftr_shiftr by lia. f_equal. lia. Qed.

(** A store replaces exactly the addressed bytes. *)
Lemma storeLoop_app n i pre old post p v :
  0 <= p → 0 <= i → length old = n → Z.of_nat (length pre) = p + i →
  storeLoop n i (pre ++ old ++ post) p v = Some (pre ++ le n (Z.shiftr v (8 * i)) ++ post).
Proof.
  intros Hp. revert i pre old. induction n as [|n IH]; intros i pre old Hi Hold Hpre.
  { by destruct old. }
  destruct old as [|o old]; [done|]. injection Hold as Hold. cbn [storeLoop].
  rewrite aset_in by (rewrite !length_app; simpl; lia). simpl_bind.
  replace (Z.to_nat (p + i)) with (length pre + 0)%nat by lia.
  rewrite insert_app_r. cbn [app insert list_insert].
  set (b := u8 _). rewrite (app_assoc pre [b] (old ++ post) : pre ++ b :: old ++ post = _).
  rewrite IH by (try rewrite length_app; simpl; lia).
  rewrite <- app_assoc. cbn [app le]. by rewrite shiftr_shiftr_8.
Qed.

Lemma lor_shift v b k : 0 <= v < 2 ^ k → 0 <= k → Z.lor v (Z.shiftl b k) = v + b * 2 ^ k.
Proof.
  intros Hv Hk. rewrite <- (Z.shiftl_mul_pow2 b k Hk).
  assert (Hl : Z.land v (Z.shiftl b k) = 0).
  { apply Z.bits_inj_0. intros n. rewrite Z.land_spec.
    destruct (decide (n < 0)); [by rewrite Z.testbit_neg_r|].
    destruct (decide (n < k)).
    - rewrite Z.shiftl_spec_low by done. apply andb_false_r.
    - rewrite <- (Z.mod_small v (2 ^ k)) by done.
      by rewrite Z.mod_pow2_bits_high by lia. }
  by rewrite <- Z.lxor_lor, Z.add_nocarry_lxor.
Qed.

(** A load assembles the addressed bytes. *)
Lemma loadLoop_app bs i pre post p v :
  bytes bs → 0 <= p → 0 <= i → Z.of_nat (length pre) = p + i → 0 <= v < 2 ^ (8 * i) →
  loadLoop (length bs) i (pre ++ bs ++ post) p v = Some (v + unle bs * 2 ^ (8 * i)).
Proof.
  intros Hbs Hp. revert i pre v. induction Hbs as [|b bs Hb Hbs IH]; intros i pre v Hi Hpre Hv.
  { cbn [loadLoop length unle]. f_equal. lia. }
  cbn [length loadLoop].
  assert (Hget : aget (pre ++ (b :: bs) ++ post) (p + i) = Some b).
  { apply aget_Some. split; [lia|]. rewrite lookup_app_r by lia.
    by replace (Z.to_nat (p + i) - length pre)%nat with 0%nat by lia. }
  rewrite Hget. simpl_bind. rewrite lor_shift by lia.
  replace (pre ++ (b :: bs) ++ post) with ((pre ++ [b]) ++ bs ++ post) by by rewrite <- app_assoc.
  unfold is_byte in Hb.
  rewrite IH; [|lia|rewrite length_app; simpl; lia|].
  - f_equal. cbn [unle]. replace (8 * (i + 1)) with (8 * i + 8) by lia.
    rewrite Z.pow_add_r by lia. change (2 ^ 8) with 256. ring.
  - replace (8 * (i + 1)) with (8 * i + 8) by lia.
    rewrite Z.pow_add_r by lia. change (2 ^ 8) with 256. nia.
Qed.

(** ** Filling a buffer from the left

    The encoders write consecutive fields.  [pre] is what has been written so
    far, [rest] what the buffer still holds behind it. *)
Section fill.
Context (pre rest : list Z) (p v : Z).
Hypothesis Hp : Z.of_nat (length pre) = p.

Lemma store_fill n :
  (n <= length rest)%nat →
  storeLoop n 0 (pre ++ rest) p v = Some ((pre ++ le n v) ++ drop n rest).
Proof using Hp.
  intros Hn. rewrite <- (take_drop n rest) at 1.
  rewrite storeLoop_app by (try rewrite length_take; lia).
  rewrite Z.shiftr_0_r. by rewrite app_assoc.
Qed.

Lemma putU8_fill :
  (1 <= length rest)%nat → is_byte v →
  putU8 (pre ++ rest) p v = Some ((pre ++ le 1 v) ++ drop 1 rest).
Proof using Hp.
  intros Hn Hv. destruct rest as [|r rest']; [simpl in Hn; lia|]. unfold putU8.
  rewrite aset_in by (rewrite length_app; simpl; lia).
  replace (Z.to_nat p) with (length pre + 0)%nat by lia.
  rewrite insert_app_r. rewrite <- app_assoc. cbn [le app drop insert list_insert].
  unfold u8. by rewrite Z.mod_small by exact Hv.
Qed.

Lemma putU32_fill :
  (4 <= length rest)%nat → putU32 (pre ++ rest) p v = Some ((pre ++ le 4 v) ++ drop 4 rest).
Proof using Hp. apply store_fill. Qed.

Lemma putU64_fill :
  (8 <= length rest)%nat → putU64 (pre ++ rest) p v = Some ((pre ++ le 8 v) ++ drop 8 rest).
Proof using Hp. apply store_fill. Qed.
End fill.

Lemma putI64_fill pre rest p v :
  Z.of_nat (length pre) = p → (8 <= length rest)%nat →
  putI64 (pre ++ rest) p v = Some ((pre ++ le 8 (u64 v)) ++ drop 8 rest).
Proof. intros. by apply putU64_fill. Qed.

Lemma memcpy_fill pre rest p src :
  Z.of_nat (length pre) = p → (length src <= length rest)%nat →
  memcpy (pre ++ rest) p src = Some ((pre ++ src) ++ drop (length src) rest).
Proof.
  intros Hp Hn. unfold memcpy. rewrite length_app.
  case_match eqn:E; [|lia]. replace (Z.to_nat p) with (length pre) by lia.
  rewrite take_app_length, <- app_assoc. do 3 f_equal.
  rewrite <- drop_drop. by rewrite drop_app_length.
Qed.

(** ** Reading a field at its offset *)

(** [loadLoop] reads a little-endian word when its bytes are in the buffer. *)
Lemma load_slice n src p :
  0 <= p → (Z.to_nat p + n <= length src)%nat → bytes src →
  loadLoop n 0 src p 0 = Some (unle (take n (drop (Z.to_nat p) src))).
Proof.
  intros Hp Hn Hb.
  set (bs := take n (drop (Z.to_nat p) src)).
  assert (Hlen : length bs = n) by (unfold bs; rewrite length_take, length_drop; lia).
  assert (Hs : src = take (Z.to_nat p) src ++ bs ++ drop n (drop (Z.to_nat p) src)).
  { unfold bs. by rewrite !take_drop. }
  rewrite Hs at 1. rewrite <- Hlen at 1.
  rewrite loadLoop_app; [f_equal; lia| |lia|lia| |lia].
  - unfold bs. by apply Forall_take, Forall_drop.
  - rewrite length_take. lia.
Qed.

(** The reading lemmas below walk over the fields in front ([_skip]) and stop at
    the field itself ([_here]). *)
Lemma load_skip n pre rest p q :
  p = Z.of_nat (length pre) + q → 0 <= q →
  loadLoop n 0 (pre ++ rest) p 0 = loadLoop n 0 rest q 0.
Proof.
  intros -> Hq.
  enough (∀ i v, 0 <= i → loadLoop n i (pre ++ rest) (Z.of_nat (length pre) + q) v
    = loadLoop n i rest q v) as He by (apply He; lia).
  induction n as [|n IH]; intros i v Hi; [done|]. cbn [loadLoop].
  assert (aget (pre ++ rest) (Z.of_nat (length pre) + q + i) = aget rest (q + i)) as ->.
  { destruct (aget rest (q + i)) as [b|] eqn:E.
    - apply aget_Some in E as [E0 E]. apply aget_Some. split; [lia|].
      rewrite lookup_app_r by lia. rewrite <- E. f_equal. lia.
    - destruct (aget (pre ++ rest) _) as [b|] eqn:E1; [|done].
      apply aget_Some in E1 as [E0 E1]. rewrite lookup_app_r in E1 by lia.
      rewrite <- E. symmetry. apply aget_Some. split; [lia|]. rewrite <- E1. f_equal. lia. }
  destruct (aget rest (q + i)) as [b|]; [|done]. apply IH. lia.
Qed.

Lemma load_here n v rest :
  0 <= v → loadLoop n 0 (le n v ++ rest) 0 0 = Some (v mod 256 ^ Z.of_nat n).
Proof.
  intros Hv. rewrite <- unle_le by done.
  pose proof (loadLoop_app (le n v) 0 [] rest 0 0 (le_bytes n v)) as H.
  rewrite length_le in H. cbn [app] in H. rewrite H by (simpl; lia). f_equal. lia.
Qed.

Lemma getU8_here v rest : is_byte v → getU8 (le 1 v ++ rest) 0 = Some v.
Proof.
  intros Hv. cbn. unfold u8. by rewrite Z.mod_small by exact Hv.
Qed.

Lemma getU8_skip pre rest p q :
  p = Z.of_nat (length pre) + q → 0 <= q → getU8 (pre ++ rest) p = getU8 rest q.
Proof.
  intros Hp Hq. unfold getU8. pose proof (load_skip 1 pre rest p q Hp Hq) as H.
  cbn [loadLoop] in H. rewrite !Z.add_0_r in H.
  destruct (aget (pre ++ rest) p) as [a|], (aget rest q) as [b|]; cbn in H; try done.
Qed.

Lemma getU32_here v rest : 0 <= v < 4294967296 → getU32 (le 4 v ++ rest) 0 = Some v.
Proof.
  intros Hv. unfold getU32. rewrite load_here by lia. f_equal. by apply Z.mod_small.
Qed.

Lemma getU32_skip pre rest p q :
  p = Z.of_nat (length pre) + q → 0 <= q → getU32 (pre ++ rest) p = getU32 rest q.
Proof. apply load_skip. Qed.

Lemma getU64_here v rest : in_u64 v → getU64 (le 8 v ++ rest) 0 = Some v.
Proof.
  intros Hv. unfold getU64. rewrite load_here by apply Hv. f_equal. by apply Z.mod_small.
Qed.

Lemma getU64_skip pre rest p q :
  p = Z.of_nat (length pre) + q → 0 <= q → getU64 (pre ++ rest) p = getU64 rest q.
Proof. apply load_skip. Qed.

Lemma s64_u64 v : in_i64 v → s64 (u64 v) = v.
Proof.
  intros Hv. rewrite <- (s64_id v Hv) at 2. unfold u64.
  apply (s64_congr _ _ (- (v / 18446744073709551616))).
  pose proof (Z.div_mod v 18446744073709551616). lia.
Qed.

Lemma getI64_here v rest : in_i64 v → getI64 (le 8 (u64 v) ++ rest) 0 = Some v.
Proof.
  intros Hv. unfold getI64. rewrite getU64_here by auto with velox.
  cbn. f_equal. by apply s64_u64.
Qed.

Lemma getI64_skip pre rest p q :
  p = Z.of_nat (length pre) + q → 0 <= q → getI64 (pre ++ rest) p = getI64 rest q.
Proof. intros Hp Hq. unfold getI64. by rewrite (getU64_skip _ _ p q). Qed.

Lemma slice_skip pre rest p q n :
  p = Z.of_nat (length pre) + q → 0 <= q → slice (pre ++ rest) p n = slice rest q n.
Proof.
  intros -> Hq. unfold slice. rewrite length_app.
  repeat case_match; try done; try lia. f_equal.
  replace (Z.to_nat (Z.of_nat (length pre) + q)) with (length pre + Z.to_nat q)%nat by lia.
  rewrite <- drop_drop. by rewrite drop_app_length.
Qed.

Lemma slice_here bs rest n : Z.of_nat (length bs) = n → slice (bs ++ rest) 0 n = Some bs.
Proof.
  intros <-. unfold slice. rewrite length_app. case_match eqn:E; [|lia].
  rewrite Nat2Z.id. f_equal. apply take_app_length.
Qed.

(** ** Loads depend only on the bytes they address *)

Lemma load_local n src src' p k :
  0 <= p → (Z.to_nat p + n <= k)%nat → take k src = take k src' →
  loadLoop n 0 src p 0 = loadLoop n 0 src' p 0.
Proof.
  intros Hp Hk Ht.
  enough (∀ m i v, 0 <= i → (Z.to_nat (p + i) + m <= k)%nat →
    loadLoop m i src p v = loadLoop m i src' p v) as He by (apply He; lia).
  induction m as [|m IH]; intros i v Hi Hm; [done|]. cbn [loadLoop].
  assert (Hl : src !! Z.to_nat (p + i) = src' !! Z.to_nat (p + i)).
  { rewrite <- (lookup_take_lt src k), <- (lookup_take_lt src' k) by lia. by rewrite Ht. }
  assert (aget src (p + i) = aget src' (p + i)) as ->.
  { destruct (aget src' (p + i)) as [b|] eqn:E.
    - apply aget_Some in E as [E0 E]. apply aget_Some. split; [done|]. by rewrite Hl.
    - destruct (aget src (p + i)) as [b|] eqn:E1; [|done].
      apply aget_Some in E1 as [E0 E1]. rewrite Hl in E1.
      rewrite <- E. symmetry. by apply aget_Some. }
  destruct (aget src' (p + i)) as [b|]; [|done]. apply IH; lia.
Qed.

(** The same for each load, with the number [k] of agreeing bytes in [Z]. *)
Section local.
Context (src src' : list Z) (p k : Z).
Hypothesis Hp : 0 <= p.
Hypothesis Ht : take (Z.to_nat k) src = take (Z.to_nat k) src'.

Lemma getU8_local : p + 1 <= k → getU8 src p = getU8 src' p.
Proof using Hp Ht.
  intros Hk. pose proof (load_local 1 src src' p (Z.to_nat k) Hp ltac:(lia) Ht) as H.
  cbn [loadLoop] in H. rewrite !Z.add_0_r in H. unfold getU8.
  by destruct (aget src p), (aget src' p); cbn in H.
Qed.

Lemma getU32_local : p + 4 <= k → getU32 src p = getU32 src' p.
Proof using Hp Ht. intros. apply (load_local 4 _ _ _ (Z.to_nat k)); [done|lia|done]. Qed.

Lemma getU64_local : p + 8 <= k → getU64 src p = getU64 src' p.
Proof using Hp Ht. intros. apply (load_local 8 _ _ _ (Z.to_nat k)); [done|lia|done]. Qed.

Lemma getI64_local : p + 8 <= k → getI64 src p = getI64 src' p.
Proof using Hp Ht. intros. unfold getI64. by rewrite getU64_local. Qed.

Lemma slice_local n :
  0 <= n → p + n <= k → k <= Z.of_nat (length src) → k <= Z.of_nat (length src') →
  slice src p n = slice src' p n.
Proof using Hp Ht.
  intros Hn Hk Hl Hl'. unfold slice.
  destruct (_ && _) eqn:E1; [|lia]. destruct (_ && _ && (_ <=? Z.of_nat (length src'))) eqn:E2; [|lia].
  f_equal. assert (Htk : ∀ l : list Z, take (Z.to_nat n) (drop (Z.to_nat p) l)
    = take (Z.to_nat n) (drop (Z.to_nat p) (take (Z.to_nat k) l))).
  { intros l. rewrite skipn_firstn_comm, take_take. f_equal. lia. }
  rewrite (Htk src), (Htk src'). by rewrite Ht.
Qed.
End local.

(** Loads inside the buffer succeed, and return a value of their width. *)
Section total.
Context (src : list Z) (p : Z).
Hypothesis Hp : 0 <= p.
Hypothesis Hb : bytes src.

Lemma getU8_total : p + 1 <= Z.of_nat (length src) → ∃ v, getU8 src p = Some v ∧ is_byte v.
Proof using Hp Hb.
  intros Hl. destruct (aget_in src p) as [v Hv]; [lia|]. exists v. split; [done|].
  apply aget_Some in Hv as [_ Hv]. by eapply Forall_lookup_1.
Qed.

Lemma load_total n :
  (Z.to_nat p + n <= length src)%nat →
  ∃ v, loadLoop n 0 src p 0 = Some v ∧ 0 <= v < 256 ^ Z.of_nat n.
Proof using Hp Hb.
  intros Hl. rewrite load_slice by done. eexists; split; [done|].
  assert (Hs : length (take n (drop (Z.to_nat p) src)) = n).
  { rewrite length_take, length_drop. lia. }
  pose proof (unle_range (take n (drop (Z.to_nat p) src))) as Hr. rewrite Hs in Hr.
  apply Hr. by apply Forall_take, Forall_drop.
Qed.

Lemma getU32_total :
  p + 4 <= Z.of_nat (length src) → ∃ v, getU32 src p = Some v ∧ 0 <= v < 4294967296.
Proof using Hp Hb. intros. apply load_total. lia. Qed.

Lemma getU64_total : p + 8 <= Z.of_nat (length src) → ∃ v, getU64 src p = Some v ∧ in_u64 v.
Proof using Hp Hb. intros. apply load_total. lia. Qed.

Lemma getI64_total : p + 8 <= Z.of_nat (length src) → ∃ v, getI64 src p = Some v ∧ in_i64 v.
Proof using Hp Hb.
  intros Hl. unfold getI64. destruct getU64_total as (v & -> & _); [done|].
  exists (s64 v). split; [done|]. apply s64_range.
Qed.

Lemma slice_total n :
  0 <= n → p + n <= Z.of_nat (length src) →
  ∃ bs, slice src p n = Some bs ∧ Z.of_nat (length bs) = n ∧ bytes bs.
Proof using Hp Hb.
  intros Hn Hl. unfold slice. case_match eqn:E; [|lia]. eexists; split; [done|]. split.
  - rewrite length_take, length_drop. lia.
  - by apply Forall_take, Forall_drop.
Qed.
End total.

(** ** Automation *)

Create HintDb wire.
#[export] Hint Resolve u8_byte le_bytes u64_range : wire.

(** Lengths of the byte lists the codecs build. *)
Ltac wire_len :=
  repeat rewrite ?length_app, ?length_le, ?length_drop; cbn [length]; try lia.

(** [read_all b]: every load from [b] in the goal succeeds; name the values. *)
Ltac read_all b :=
  repeat (
    match goal with
    | |- context [getU8 b ?p] => destruct (getU8_total b p) as (? & -> & ?)
    | |- context [getU32 b ?p] => destruct (getU32_total b p) as (? & -> & ?)
    | |- context [getU64 b ?p] => destruct (getU64_total b p) as (? & -> & ?)
    | |- context [getI64 b ?p] => destruct (getI64_total b p) as (? & -> & ?)
    | |- context [slice b ?p ?n] =>
        destruct (λ Hp Hb, slice_total b p Hp Hb n) as (? & -> & ? & ?)
    end; [lia|done|try lia..|]; simpl_bind).

(** [read_same b b' k]: loads from [b] are loads from [b'], which agrees with
    it on the first [k] bytes. *)
Ltac read_same b b' k :=
  repeat first
    [ rewrite (getU8_local b b' _ k) by (done || lia)
    | rewrite (getU32_local b b' _ k) by (done || lia)
    | rewrite (getU64_local b b' _ k) by (done || lia)
    | rewrite (getI64_local b b' _ k) by (done || lia)
    | rewrite (slice_local b b' _ k) by (done || lia) ].

(** Read one field of a buffer that is a concatenation of fields: walk over the
    fields in front, then take the value. *)
Ltac field_len a :=
  match a with
  | le ?n _ => constr:(Z.of_nat n)
  | _ => match goal with H : length a = ?n |- _ => constr:(Z.of_nat n) end
  end.

Ltac read_skip lem a r p :=
  let n := field_len a in
  let q := eval vm_compute in (p - n) in
  rewrite (lem a r p q) by (rewrite ?length_le; lia).

Ltac read_field :=
  match goal with
  | |- context [getU8 (?a ++ ?r) 0] => rewrite (getU8_here _ r) by auto with wire
  | |- context [getU32 (?a ++ ?r) 0] => rewrite (getU32_here _ r) by auto with wire
  | |- context [getU64 (?a ++ ?r) 0] => rewrite (getU64_here _ r) by auto with wire
  | |- context [getI64 (?a ++ ?r) 0] => rewrite (getI64_here _ r) by auto with wire
  | |- context [slice (?a ++ ?r) 0 ?n] => rewrite (slice_here a r n) by lia
  | |- context [getU8 (?a ++ ?r) ?p] => read_skip getU8_skip a r p
  | |- context [getU32 (?a ++ ?r) ?p] => read_skip getU32_skip a r p
  | |- context [getU64 (?a ++ ?r) ?p] => read_skip getU64_skip a r p
  | |- context [getI64 (?a ++ ?r) ?p] => read_skip getI64_skip a r p
  | |- context [slice (?a ++ ?r) ?p ?n] =>
      let k := field_len a in
      let q := eval vm_compute in (p - k) in
      rewrite (slice_skip a r p q n) by (rewrite ?length_le; lia)
  end; simpl_bind.
