(* ===== verification/Messages.v ===== *)
(** Wire vocabulary of the order-entry protocol: [protocol/message_types.hpp],
    [protocol/messages.hpp] and the encoders of [protocol/encoder.cpp].

    An enumeration with a fixed underlying type may hold any byte.  Fields the
    decoder stores without a range check ([execType], [reason]) are therefore
    kept as the underlying byte, with the enumerators' codes as definitions. *)
From S2P Require Import Prelude Types Wire.

Inductive MessageType :=
  | Login | NewOrderT | Cancel | CancelReplace | Heartbeat | LoginAck | LoginReject
  | ExecReport | Reject
  | L2Delta | L3Order | L3Fill | TradeTick | SnapshotStart | SnapshotEnd.

#[export] Instance MessageType_eq_dec : EqDecision MessageType.
Proof. solve_decision. Defined.

Definition typeCode (t : MessageType) : Z :=
  match t with
  | Login => 1 | NewOrderT => 2 | Cancel => 3 | CancelReplace => 4 | Heartbeat => 5
  | LoginAck => 6 | LoginReject => 7 | ExecReport => 8 | Reject => 9
  | L2Delta => 10 | L3Order => 11 | L3Fill => 12 | TradeTick => 13
  | SnapshotStart => 14 | SnapshotEnd => 15
  end.

(** [static_cast<MessageType>(raw)], on the bytes [isKnownMessageType] accepts. *)
Definition messageTypeOf (raw : Z) : option MessageType :=
  match raw with
  | 1 => Some Login | 2 => Some NewOrderT | 3 => Some Cancel | 4 => Some CancelReplace
  | 5 => Some Heartbeat | 6 => Some LoginAck | 7 => Some LoginReject | 8 => Some ExecReport
  | 9 => Some Reject | 10 => Some L2Delta | 11 => Some L3Order | 12 => Some L3Fill
  | 13 => Some TradeTick | 14 => Some SnapshotStart | 15 => Some SnapshotEnd
  | _ => None
  end.

Definition isKnownMessageType (raw : Z) : bool :=
  match messageTypeOf raw with Some _ => true | None => false end.

Inductive WireOrderType := WLimit | WMarket.
Inductive WireTimeInForce := Day | WIoc | WFok.
Inductive ExecType := NewAck | PartialFill | Fill | ExCancelled | ExReplaced.

#[export] Instance WireOrderType_eq_dec : EqDecision WireOrderType.
Proof. solve_decision. Defined.
#[export] Instance WireTimeInForce_eq_dec : EqDecision WireTimeInForce.
Proof. solve_decision. Defined.

Definition sideCode (s : Side) : Z := match s with Buy => 0 | Sell => 1 end.
Definition orderTypeCode (t : WireOrderType) : Z := match t with WLimit => 0 | WMarket => 1 end.
Definition tifCode (t : WireTimeInForce) : Z :=
  match t with Day => 0 | WIoc => 1 | WFok => 2 end.
Definition execCode (t : ExecType) : Z :=
  match t with NewAck => 0 | PartialFill => 1 | Fill => 2 | ExCancelled => 3 | ExReplaced => 4 end.

Inductive RejectReason :=
  | MalformedFrame | UnknownMessageType | InvalidField | UnknownInstrument
  | NotAuthenticated | DuplicateSeq | SequenceGap | RingFull | EngineReject
  | InvalidTifCombination | AuthFailed | AlreadyAuthenticated.

Definition rejectCode (r : RejectReason) : Z :=
  match r with
  | MalformedFrame => 0 | UnknownMessageType => 1 | InvalidField => 2
  | UnknownInstrument => 3 | NotAuthenticated => 4 | DuplicateSeq => 5
  | SequenceGap => 6 | RingFull => 7 | EngineReject => 8
  | InvalidTifCombination => 9 | AuthFailed => 10 | AlreadyAuthenticated => 11
  end.

(** ** Frame sizes *)

Definition kFrameHeaderSize : Z := 4.
Definition kMsgTypeSize : Z := 1.
Definition kMaxFrame : Z := 64.

Definition expectedPayloadSize (t : MessageType) : Z :=
  match t with
  | Login => 48 | NewOrderT => 39 | Cancel => 20 | CancelReplace => 36 | Heartbeat => 8
  | LoginAck => 9 | LoginReject => 2 | ExecReport => 49 | Reject => 17
  | L2Delta => 34 | L3Order => 54 | L3Fill => 52 | TradeTick => 53
  | SnapshotStart => 20 | SnapshotEnd => 16
  end.

(** ** Messages *)

Record LoginMsg := mkLogin {
  lg_participantId : Z; lg_token : list Z; lg_clientSeqNum : Z }.

Record NewOrderMsg := mkNewOrderMsg {
  no_clientSeqNum : Z; no_orderId : Z; no_instrumentId : Z; no_side : Side;
  no_orderType : WireOrderType; no_price : Z; no_quantity : Z;
  no_timeInForce : WireTimeInForce }.

Record CancelMsg := mkCancel {
  cn_clientSeqNum : Z; cn_orderId : Z; cn_instrumentId : Z }.

Record CancelReplaceMsg := mkCancelReplace {
  cr_clientSeqNum : Z; cr_orderId : Z; cr_instrumentId : Z;
  cr_newPrice : Z; cr_newQuantity : Z }.

Record HeartbeatMsg := mkHeartbeat { hb_marker : Z }.

Record LoginAckMsg := mkLoginAck { la_serverSeq : Z; la_status : Z }.

Record LoginRejectMsg := mkLoginReject { lr_reason : Z; lr_reserved : Z }.

Record ExecReportMsg := mkExecReport {
  er_orderId : Z; er_execType : Z; er_execQty : Z; er_leavesQty : Z;
  er_tradePrice : Z; er_tradeId : Z; er_globalSeq : Z }.

Record RejectMsg := mkRejectMsg { rj_orderId : Z; rj_reason : Z; rj_globalSeq : Z }.

(** ** Encoders

    Each writes a complete frame at the start of [dst] and returns the buffer
    and the number of bytes written. *)

(** The buffer, and the offset where the payload starts. *)
Definition writeHeader (dst : list Z) (t : MessageType) (payloadSize : Z)
    : option (list Z * Z) :=
  d ← putU32 dst 0 (u32 (kMsgTypeSize + payloadSize));
  d ← putU8 d kFrameHeaderSize (typeCode t);
  Some (d, kFrameHeaderSize + kMsgTypeSize).

Definition frameSize (t : MessageType) : Z :=
  kFrameHeaderSize + kMsgTypeSize + expectedPayloadSize t.

Definition encodeLogin (m : LoginMsg) (dst : list Z) : option (list Z * Z) :=
  '(d, p) ← writeHeader dst Login (expectedPayloadSize Login);
  d ← putI64 d p (lg_participantId m);
  d ← memcpy d (p + 8) (lg_token m);
  d ← putU64 d (p + 8 + 32) (lg_clientSeqNum m);
  Some (d, frameSize Login).

Definition encodeNewOrder (m : NewOrderMsg) (dst : list Z) : option (list Z * Z) :=
  '(d, p) ← writeHeader dst NewOrderT (expectedPayloadSize NewOrderT);
  d ← putU64 d p (no_clientSeqNum m);
  d ← putI64 d (p + 8) (no_orderId m);
  d ← putU32 d (p + 16) (no_instrumentId m);
  d ← putU8 d (p + 20) (sideCode (no_side m));
  d ← putU8 d (p + 21) (orderTypeCode (no_orderType m));
  d ← putI64 d (p + 22) (no_price m);
  d ← putI64 d (p + 30) (no_quantity m);
  d ← putU8 d (p + 38) (tifCode (no_timeInForce m));
  Some (d, frameSize NewOrderT).

Definition encodeCancel (m : CancelMsg) (dst : list Z) : option (list Z * Z) :=
  '(d, p) ← writeHeader dst Cancel (expectedPayloadSize Cancel);
  d ← putU64 d p (cn_clientSeqNum m);
  d ← putI64 d (p + 8) (cn_orderId m);
  d ← putU32 d (p + 16) (cn_instrumentId m);
  Some (d, frameSize Cancel).

Definition encodeCancelReplace (m : CancelReplaceMsg) (dst : list Z) : option (list Z * Z) :=
  '(d, p) ← writeHeader dst CancelReplace (expectedPayloadSize CancelReplace);
  d ← putU64 d p (cr_clientSeqNum m);
  d ← putI64 d (p + 8) (cr_orderId m);
  d ← putU32 d (p + 16) (cr_instrumentId m);
  d ← putI64 d (p + 20) (cr_newPrice m);
  d ← putI64 d (p + 28) (cr_newQuantity m);
  Some (d, frameSize CancelReplace).

Definition encodeHeartbeat (m : HeartbeatMsg) (dst : list Z) : option (list Z * Z) :=
  '(d, p) ← writeHeader dst Heartbeat (expectedPayloadSize Heartbeat);
  d ← putU64 d p (hb_marker m);
  Some (d, frameSize Heartbeat).

Definition encodeLoginAck (m : LoginAckMsg) (dst : list Z) : option (list Z * Z) :=
  '(d, p) ← writeHeader dst LoginAck (expectedPayloadSize LoginAck);
  d ← putI64 d p (la_serverSeq m);
  d ← putU8 d (p + 8) (la_status m);
  Some (d, frameSize LoginAck).

Definition encodeLoginReject (m : LoginRejectMsg) (dst : list Z) : option (list Z * Z) :=
  '(d, p) ← writeHeader dst LoginReject (expectedPayloadSize LoginReject);
  d ← putU8 d p (lr_reason m);
  d ← putU8 d (p + 1) (lr_reserved m);
  Some (d, frameSize LoginReject).

Definition encodeExecReport (m : ExecReportMsg) (dst : list Z) : option (list Z * Z) :=
  '(d, p) ← writeHeader dst ExecReport (expectedPayloadSize ExecReport);
  d ← putI64 d p (er_orderId m);
  d ← putU8 d (p + 8) (er_execType m);
  d ← putI64 d (p + 9) (er_execQty m);
  d ← putI64 d (p + 17) (er_leavesQty m);
  d ← putI64 d (p + 25) (er_tradePrice m);
  d ← putI64 d (p + 33) (er_tradeId m);
  d ← putI64 d (p + 41) (er_globalSeq m);
  Some (d, frameSize ExecReport).

Definition encodeReject (m : RejectMsg) (dst : list Z) : option (list Z * Z) :=
  '(d, p) ← writeHeader dst Reject (expectedPayloadSize Reject);
  d ← putI64 d p (rj_orderId m);
  d ← putU8 d (p + 8) (rj_reason m);
  d ← putI64 d (p + 9) (rj_globalSeq m);
  Some (d, frameSize Reject).

(** ** What the encoders write *)

(** A frame: length prefix, message type, payload. *)
Definition frame (t : MessageType) (payload : list Z) : list Z :=
  le 4 (kMsgTypeSize + expectedPayloadSize t) ++ le 1 (typeCode t) ++ payload.

Lemma messageTypeOf_code t : messageTypeOf (typeCode t) = Some t.
Proof. by destruct t. Qed.

Lemma messageTypeOf_Some raw t : messageTypeOf raw = Some t → raw = typeCode t.
Proof. unfold messageTypeOf. repeat case_match; naive_solver. Qed.

Lemma typeCode_byte t : is_byte (typeCode t).
Proof. destruct t; split; simpl; lia. Qed.

Lemma payload_bounds t : 2 <= expectedPayloadSize t <= 54.
Proof. destruct t; simpl; lia. Qed.

Lemma sideCode_byte s : is_byte (sideCode s).
Proof. destruct s; split; simpl; lia. Qed.
Lemma orderTypeCode_byte t : is_byte (orderTypeCode t).
Proof. destruct t; split; simpl; lia. Qed.
Lemma tifCode_byte t : is_byte (tifCode t).
Proof. destruct t; split; simpl; lia. Qed.

#[export] Hint Resolve typeCode_byte sideCode_byte orderTypeCode_byte tifCode_byte : wire.

Lemma writeHeader_ok dst t :
  (5 <= length dst)%nat →
  writeHeader dst t (expectedPayloadSize t)
  = Some ((le 4 (kMsgTypeSize + expectedPayloadSize t) ++ le 1 (typeCode t)) ++ drop 5 dst, 5).
Proof.
  intros Hl. unfold writeHeader.
  rewrite (putU32_fill [] dst) by (simpl; lia). simpl_bind.
  rewrite putU8_fill by (wire_len; auto with wire). simpl_bind.
  rewrite drop_drop. pose proof (payload_bounds t).
  replace (u32 (kMsgTypeSize + expectedPayloadSize t))
    with (kMsgTypeSize + expectedPayloadSize t) by (unfold u32, kMsgTypeSize; rewrite Z.mod_small; lia).
  done.
Qed.

(** Fields written one after the other, up to the end of the payload. *)
Ltac encode_step :=
  first
    [ rewrite putI64_fill by wire_len
    | rewrite putU64_fill by wire_len
    | rewrite putU32_fill by wire_len
    | rewrite putU8_fill by (wire_len; auto with wire)
    | rewrite memcpy_fill by wire_len ]; simpl_bind; rewrite ?drop_drop.

Ltac encode_ok :=
  rewrite writeHeader_ok
    by (unfold frameSize, kFrameHeaderSize, kMsgTypeSize in *; cbn [expectedPayloadSize] in *; lia);
  simpl_bind;
  unfold frameSize, kFrameHeaderSize, kMsgTypeSize in *; cbn [expectedPayloadSize] in *;
  repeat encode_step; repeat f_equal; unfold frame;
  cbn [expectedPayloadSize typeCode]; unfold kMsgTypeSize; rewrite <- ?app_assoc; first [done|lia].
