(* ===== verification/Framing.v ===== *)
(** Stream reassembly: the part [protocol/decoder.cpp] and
    [marketdata/feed_decoder.cpp] have in common.

    Both decoders own a fixed 256-byte buffer, append what the socket delivers
    ([feed]), and cut complete frames off its front ([next]) after the same
    checks in the same order.  They differ in how they read a payload, which is
    the interface [PayloadCodec]. *)
From S2P Require Import Prelude Types Wire Messages.

(** What a decoder promises the reassembly: a reader for the payload of each
    message type, from a buffer that starts with the frame. *)
Class PayloadCodec (M E : Type) := {
  parsePayload : MessageType → list Z → option (E + M);
  errMalformed : E;
  errUnknown : E
}.

(** The reader succeeds whenever the frame is complete, and looks at no byte
    behind it. *)
Class PayloadLaws (M E : Type) {PC : PayloadCodec M E} := {
  parsePayload_total t buf :
    bytes buf → frameSize t <= Z.of_nat (length buf) → is_Some (parsePayload t buf);
  parsePayload_local t buf buf' :
    frameSize t <= Z.of_nat (length buf) → frameSize t <= Z.of_nat (length buf') →
    take (Z.to_nat (frameSize t)) buf = take (Z.to_nat (frameSize t)) buf' →
    parsePayload t buf = parsePayload t buf'
}.

Record Reassembly := mkReassembly {
  rs_buf : list Z;
  rs_len : Z;
  rs_terminal : bool
}.

Definition kCapacity : Z := 256.

Inductive Result (M E : Type) :=
  | ROk (m : M)
  | RIncomplete
  | RInvalid (e : E).
Arguments ROk {M E} m.
Arguments RIncomplete {M E}.
Arguments RInvalid {M E} e.

Definition feed (d : Reassembly) (data : list Z) : option (Reassembly * bool) :=
  if rs_terminal d || (kCapacity <? rs_len d + Z.of_nat (length data)) then Some (d, false)
  else
    b ← memcpy (rs_buf d) (rs_len d) data;
    Some (mkReassembly b (rs_len d + Z.of_nat (length data)) (rs_terminal d), true).

Definition consume (d : Reassembly) (n : Z) : option Reassembly :=
  s ← slice (rs_buf d) n (u64 (rs_len d - n));
  b ← memcpy (rs_buf d) 0 s;
  Some (mkReassembly b (u64 (rs_len d - n)) (rs_terminal d)).

Definition reassemblyNew (junk : list Z) : Reassembly := mkReassembly junk 0 false.

Section framing.
Context {M E : Type} `{PC : !PayloadCodec M E}.

Definition fail (d : Reassembly) (e : E) : option (Reassembly * Result M E) :=
  Some (mkReassembly (rs_buf d) (rs_len d) true, RInvalid e).

Definition next (d : Reassembly) : option (Reassembly * Result M E) :=
  if rs_terminal d then fail d errMalformed
  else if rs_len d <? kFrameHeaderSize then Some (d, RIncomplete)
  else
    length ← getU32 (rs_buf d) 0;
    if (length <? 1) || (kMaxFrame <? length) then fail d errMalformed
    else
      let total := kFrameHeaderSize + length in
      if rs_len d <? total then Some (d, RIncomplete)
      else
        rawType ← getU8 (rs_buf d) kFrameHeaderSize;
        match messageTypeOf rawType with
        | None => fail d errUnknown
        | Some t =>
            if negb (length =? kMsgTypeSize + expectedPayloadSize t) then fail d errMalformed
            else
              r ← parsePayload t (rs_buf d);
              match r with
              | inl e => fail d e
              | inr m => d' ← consume d total; Some (d', ROk m)
              end
        end.

(** The caller's loop: [next] until it stops returning [Ok]. *)
Fixpoint drain (fuel : nat) (d : Reassembly) : option (Reassembly * list M * option E) :=
  match fuel with
  | O => None
  | S f =>
      '(d1, r) ← next d;
      match r with
      | RIncomplete => Some (d1, [], None)
      | RInvalid e => Some (d1, [], Some e)
      | ROk m => '(d2, ms, e) ← drain f d1; Some (d2, m :: ms, e)
      end
  end.

(** A connection: chunks as the socket delivers them, until one is refused or a
    frame is invalid.  The result is the messages and the state: the decoder of
    a connection that is still open, or why it was closed ([None]: the buffer
    would have overflowed). *)
Fixpoint receive (d : Reassembly) (chunks : list (list Z))
    : option (list M * (Reassembly + option E)) :=
  match chunks with
  | [] => Some ([], inl d)
  | c :: cs =>
      '(d1, accepted) ← feed d c;
      if negb accepted then Some ([], inr None)
      else
        '(d2, ms, e) ← drain (S (Z.to_nat (rs_len d1))) d1;
        match e with
        | Some e => Some (ms, inr (Some e))
        | None => '(ms', st) ← receive d2 cs; Some (ms ++ ms', st)
        end
  end.

(** ** Reference: parsing the byte stream as a whole *)

Inductive Parsed := PMore | PFail (e : E) | PMsg (m : M) (rest : list Z).

Definition parse1 (bs : list Z) : Parsed :=
  if Z.of_nat (length bs) <? kFrameHeaderSize then PMore
  else
    let len := unle (take 4 bs) in
    if (len <? 1) || (kMaxFrame <? len) then PFail errMalformed
    else if Z.of_nat (length bs) <? kFrameHeaderSize + len then PMore
    else
      match messageTypeOf (nth 4 bs 0) with
      | None => PFail errUnknown
      | Some t =>
          if negb (len =? kMsgTypeSize + expectedPayloadSize t) then PFail errMalformed
          else
            match default (inl errMalformed) (parsePayload t bs) with
            | inl e => PFail e
            | inr m => PMsg m (drop (Z.to_nat (kFrameHeaderSize + len)) bs)
            end
      end.

Fixpoint parseLoop (fuel : nat) (bs : list Z) : list M * (E + list Z) :=
  match fuel with
  | O => ([], inr bs)
  | S f =>
      match parse1 bs with
      | PMore => ([], inr bs)
      | PFail e => ([], inl e)
      | PMsg m rest => let '(ms, st) := parseLoop f rest in (m :: ms, st)
      end
  end.

(** The messages of a stream, and either the error that ends it or the
    incomplete frame at its end. *)
Definition parseStream (bs : list Z) : list M * (E + list Z) := parseLoop (S (length bs)) bs.

Context `{PL : !PayloadLaws M E}.

Lemma parse1_rest bs m rest : parse1 bs = PMsg m rest → (length rest < length bs)%nat.
Proof.
  unfold parse1, kFrameHeaderSize. repeat case_match; try done. intros [= <- <-].
  rewrite length_drop. lia.
Qed.

Lemma parseLoop_fuel f1 f2 bs :
  (length bs < f1)%nat → (length bs < f2)%nat → parseLoop f1 bs = parseLoop f2 bs.
Proof.
  revert f2 bs. induction f1 as [|f1 IH]; intros [|f2] bs H1 H2; try lia. cbn [parseLoop].
  destruct (parse1 bs) as [| |m rest] eqn:E1; [done|done|].
  apply parse1_rest in E1. by rewrite (IH f2) by lia.
Qed.

Lemma parseStream_unfold bs :
  parseStream bs =
    match parse1 bs with
    | PMore => ([], inr bs)
    | PFail e => ([], inl e)
    | PMsg m rest => (m :: (parseStream rest).1, (parseStream rest).2)
    end.
Proof.
  unfold parseStream at 1. cbn [parseLoop].
  destruct (parse1 bs) as [| |m rest] eqn:E1; [done|done|].
  apply parse1_rest in E1. rewrite (parseLoop_fuel (length bs) (S (length rest))) by lia.
  change (parseLoop (S (length rest)) rest) with (parseStream rest).
  by destruct (parseStream rest).
Qed.

Lemma parse1_more bs : parse1 bs = PMore → Z.of_nat (length bs) < kFrameHeaderSize + kMaxFrame.
Proof.
  unfold parse1, kFrameHeaderSize, kMaxFrame. repeat case_match; intros Hp; try done; lia.
Qed.

(** Bytes that arrive later do not change what has been decided. *)
Lemma parse1_app bs more :
  bytes bs → bytes more →
  match parse1 bs with
  | PMore => True
  | PFail e => parse1 (bs ++ more) = PFail e
  | PMsg m rest => parse1 (bs ++ more) = PMsg m (rest ++ more)
  end.
Proof using PL.
  intros Hb Hm. unfold parse1, kFrameHeaderSize. rewrite length_app.
  destruct (Z.of_nat (length bs) <? 4) eqn:E4; [done|].
  destruct (Z.of_nat (length bs + length more) <? 4) eqn:E4'; [lia|].
  rewrite take_app_le by lia. cbv zeta. set (len := unle (take 4 bs)).
  destruct ((len <? 1) || (kMaxFrame <? len)) eqn:El; [done|].
  destruct (Z.of_nat (length bs) <? 4 + len) eqn:Et; [done|].
  destruct (Z.of_nat (length bs + length more) <? 4 + len) eqn:Et'; [lia|].
  rewrite app_nth1 by lia.
  destruct (messageTypeOf (nth 4 bs 0)) as [t|] eqn:Ety; [|done].
  destruct (negb (len =? kMsgTypeSize + expectedPayloadSize t)) eqn:Es; [done|].
  assert (Hlen : frameSize t = 4 + len).
  { unfold frameSize, kFrameHeaderSize, kMsgTypeSize in *. lia. }
  rewrite (parsePayload_local t (bs ++ more) bs).
  - destruct (default _ _) as [e|m]; [done|]. rewrite drop_app_le by lia. done.
  - rewrite length_app. lia.
  - lia.
  - rewrite take_app_le by lia. done.
Qed.

Lemma parse1_bytes bs m rest : bytes bs → parse1 bs = PMsg m rest → bytes rest.
Proof.
  unfold parse1. intros Hb. repeat case_match; try done. intros [= <- <-]. by apply Forall_drop.
Qed.

(** Parsing a stream piecewise: what is left of the first piece goes in front
    of the second. *)
Lemma parseStream_app bs more :
  bytes bs → bytes more →
  parseStream (bs ++ more) =
    match (parseStream bs).2 with
    | inl e => ((parseStream bs).1, inl e)
    | inr rest =>
        ((parseStream bs).1 ++ (parseStream (rest ++ more)).1, (parseStream (rest ++ more)).2)
    end.
Proof using PL.
  intros Hb Hm. remember (length bs) as n eqn:Hn. revert bs Hb Hn.
  induction (lt_wf n) as [n _ IH]. intros bs Hb ->.
  pose proof (parse1_app bs more Hb Hm) as Happ.
  rewrite (parseStream_unfold bs). destruct (parse1 bs) as [|e|m rest] eqn:E1.
  - cbn [fst snd app]. apply surjective_pairing.
  - rewrite parseStream_unfold, Happ. done.
  - rewrite parseStream_unfold, Happ.
    rewrite (IH (length rest)); [|by eapply parse1_rest|by eapply parse1_bytes|done].
    cbn [fst snd]. by destruct (parseStream rest).2.
Qed.
(** What is left at the end of a stream is an incomplete frame. *)
Lemma parseStream_stuck bs rest : (parseStream bs).2 = inr rest → parse1 rest = PMore.
Proof.
  remember (length bs) as n eqn:Hn. revert bs Hn.
  induction (lt_wf n) as [n _ IH]. intros bs ->. rewrite parseStream_unfold.
  destruct (parse1 bs) as [|e|m rest'] eqn:E1; cbn [snd]; intros H; [congruence|done|].
  eapply IH; [by eapply parse1_rest|done|done].
Qed.
End framing.
Arguments Parsed : clear implicits.

(** ** The buffer holds the unparsed end of the stream *)

Record rs_wf (d : Reassembly) : Prop := {
  rs_cap : Z.of_nat (length (rs_buf d)) = kCapacity;
  rs_byte : bytes (rs_buf d);
  rs_range : 0 <= rs_len d <= kCapacity
}.

Definition pending (d : Reassembly) : list Z := take (Z.to_nat (rs_len d)) (rs_buf d).

Lemma pending_length d : rs_wf d → Z.of_nat (length (pending d)) = rs_len d.
Proof. intros [Hc _ Hr]. unfold pending. rewrite length_take. lia. Qed.

Lemma pending_bytes d : rs_wf d → bytes (pending d).
Proof. intros [_ Hb _]. by apply Forall_take. Qed.

Lemma pending_take d k : (k <= Z.to_nat (rs_len d))%nat → take k (pending d) = take k (rs_buf d).
Proof. intros. unfold pending. rewrite take_take. f_equal. lia. Qed.

Lemma feed_ok d c :
  rs_wf d → bytes c → rs_terminal d = false → rs_len d + Z.of_nat (length c) <= kCapacity →
  ∃ d', feed d c = Some (d', true) ∧ rs_wf d' ∧ rs_terminal d' = false ∧
    pending d' = pending d ++ c.
Proof.
  intros [Hc Hb Hr] Hbc Ht Hfit. unfold feed. rewrite Ht. cbn [orb].
  destruct (kCapacity <? _) eqn:E1; [lia|]. unfold memcpy.
  destruct ((0 <=? rs_len d) && _) eqn:E2; [|lia]. simpl_bind.
  set (n := Z.to_nat (rs_len d)) in *.
  eexists; split; [done|]. split; [split; cbn|split; [done|]].
  - rewrite !length_app, length_take, length_drop. lia.
  - rewrite !Forall_app. split_and!; [by apply Forall_take|done|by apply Forall_drop].
  - lia.
  - unfold pending; cbn. rewrite app_assoc. rewrite take_app_le.
    + rewrite take_ge; [done|]. rewrite length_app, length_take. lia.
    + rewrite length_app, length_take. lia.
Qed.

Lemma consume_ok d n :
  rs_wf d → 0 <= n <= rs_len d →
  ∃ d', consume d n = Some d' ∧ rs_wf d' ∧ rs_terminal d' = rs_terminal d ∧
    pending d' = drop (Z.to_nat n) (pending d).
Proof.
  intros [Hc Hb Hr] Hn. unfold consume, slice, kCapacity in *.
  rewrite u64_id by (split; lia).
  destruct ((0 <=? n) && _ && _) eqn:E1; [|lia]. simpl_bind. unfold memcpy.
  set (s := take _ (drop _ _)).
  assert (Hs : length s = Z.to_nat (rs_len d - n)).
  { unfold s. rewrite length_take, length_drop. lia. }
  destruct ((0 <=? 0) && _) eqn:E2; [|lia]. simpl_bind.
  eexists; split; [done|]. split; [split; cbn|split; [done|]].
  - unfold kCapacity. rewrite !length_app, length_drop. simpl. lia.
  - change (bytes (s ++ drop (length s) (rs_buf d))). rewrite Forall_app.
    split; [unfold s; by apply Forall_take, Forall_drop|by apply Forall_drop].
  - unfold kCapacity. lia.
  - unfold pending; cbn [rs_len rs_buf].
    change (take (Z.to_nat 0) (rs_buf d)) with (@nil Z). cbn [app].
    rewrite <- Hs, take_app_length. unfold s.
    rewrite skipn_firstn_comm. f_equal. lia.
Qed.

Lemma getU32_buf d :
  rs_wf d → 4 <= rs_len d → getU32 (rs_buf d) 0 = Some (unle (take 4 (pending d))).
Proof.
  intros [Hc Hb Hr] H4. unfold getU32. rewrite load_slice by (unfold kCapacity in *; simpl; lia || done).
  rewrite pending_take by lia. done.
Qed.

Lemma getU8_buf d k :
  rs_wf d → Z.of_nat k < rs_len d → getU8 (rs_buf d) (Z.of_nat k) = Some (nth k (pending d) 0).
Proof.
  intros Hd Hk. unfold getU8. rewrite aget_nat.
  rewrite <- (lookup_take_lt _ (Z.to_nat (rs_len d))) by lia.
  fold (pending d). rewrite nth_lookup. pose proof (pending_length d Hd).
  destruct (lookup_lt_is_Some_2 (pending d) k) as [x ->]; [lia|done].
Qed.

Section framing_ok.
Context {M E : Type} `{PC : !PayloadCodec M E} `{PL : !PayloadLaws M E}.

(** [next] decides what the reference decides on the buffered bytes. *)
Lemma next_ok d :
  rs_wf d → rs_terminal d = false →
  ∃ d', match parse1 (M:=M) (E:=E) (pending d) with
    | PMore => next d = Some (d', RIncomplete) ∧ d' = d
    | PFail e => next d = Some (d', RInvalid e) ∧ rs_terminal d' = true
    | PMsg m rest =>
        next d = Some (d', ROk m) ∧ rs_wf d' ∧ rs_terminal d' = false ∧ pending d' = rest
    end.
Proof using PL.
  intros Hd Ht. pose proof (pending_length d Hd) as Hlen.
  unfold next, parse1. rewrite Ht, Hlen.
  destruct (rs_len d <? kFrameHeaderSize) eqn:E4; [by exists d|].
  unfold kFrameHeaderSize in *. rewrite getU32_buf by (done || lia). simpl_bind.
  cbv zeta. set (len := unle (take 4 (pending d))).
  destruct ((len <? 1) || (kMaxFrame <? len)) eqn:El; [eexists; by split|].
  destruct (rs_len d <? 4 + len) eqn:Et; [by exists d|].
  change (getU8 (rs_buf d) 4) with (getU8 (rs_buf d) (Z.of_nat 4)).
  rewrite (getU8_buf d 4) by (done || lia). simpl_bind.
  destruct (messageTypeOf _) as [t|] eqn:Ety; [|eexists; by split].
  destruct (negb _) eqn:Es; [eexists; by split|].
  assert (Hsz : frameSize t = 4 + len).
  { unfold frameSize, kFrameHeaderSize, kMsgTypeSize in *. lia. }
  assert (Hcap : rs_len d <= Z.of_nat (length (rs_buf d))) by (destruct Hd; lia).
  rewrite (parsePayload_local t (pending d) (rs_buf d)); [|lia|lia|].
  2: { apply pending_take. lia. }
  destruct (parsePayload_total t (rs_buf d)) as [r Hr]; [by destruct Hd|lia|].
  rewrite Hr. cbn [mbind option_bind default from_option].
  destruct r as [e|m]; [eexists; by split|].
  destruct (consume_ok d (4 + len) Hd) as (d' & Hc & Hd' & Ht' & Hp'); [lia|].
  exists d'. rewrite Hc. split; [done|]. split; [done|]. split; [congruence|done].
Qed.

(** The read loop takes every complete frame off the buffer. *)
Lemma drain_ok d fuel :
  rs_wf d → rs_terminal d = false → (length (pending d) < fuel)%nat →
  ∃ d' e, drain (M:=M) (E:=E) fuel d = Some (d', (parseStream (pending d)).1, e) ∧
    match (parseStream (M:=M) (E:=E) (pending d)).2 with
    | inl e' => e = Some e'
    | inr rest => e = None ∧ rs_wf d' ∧ rs_terminal d' = false ∧ pending d' = rest ∧
        Z.of_nat (length rest) < kFrameHeaderSize + kMaxFrame
    end.
Proof using PL.
  revert d. induction fuel as [|fuel IH]; intros d Hd Ht Hf; [lia|].
  cbn [drain]. rewrite (parseStream_unfold (pending d)).
  destruct (next_ok d Hd Ht) as [d1 Hn].
  destruct (parse1 (pending d)) as [|e|m rest] eqn:E1.
  - destruct Hn as [-> ->]. exists d, None. split; [done|]. cbn.
    split_and!; [done..|]. by apply parse1_more in E1.
  - destruct Hn as [-> Ht1]. by exists d1, (Some e).
  - destruct Hn as (-> & Hd1 & Ht1 & Hp1). simpl_bind.
    apply parse1_rest in E1. rewrite <- Hp1 in *.
    destruct (IH d1) as (d2 & e & -> & He); [done|done|lia|]. simpl_bind.
    by exists d2, e.
Qed.

(** A chunk no longer than this always fits behind an incomplete frame. *)
Definition maxChunk : Z := kCapacity - (kFrameHeaderSize + kMaxFrame - 1).

(** The chunk behind the first [k] does not fit behind the incomplete frame they end in. *)
Definition refused (bs : list Z) (chunks : list (list Z)) (k : nat) : Prop :=
  ∃ c rest, chunks !! k = Some c ∧ (parseStream (M:=M) (E:=E) (bs ++ concat (take k chunks))).2 = inr rest ∧
    kCapacity < Z.of_nat (length rest) + Z.of_nat (length c).

(** Where a connection stands after [chunks]: it has parsed the stream up to the
    first chunk that did not fit, and every chunk of at most [maxChunk] bytes
    fits. *)
Definition received (d : Reassembly) (chunks : list (list Z))
    (ms : list M) (st : Reassembly + option E) : Prop :=
  ∃ k, ms = (parseStream (pending d ++ concat (take k chunks))).1 ∧
    ((k < length chunks)%nat → st = inr None ∧ refused (pending d) chunks k) ∧
    (Forall (λ c, Z.of_nat (length c) <= maxChunk) chunks → (length chunks <= k)%nat) ∧
    ((length chunks <= k)%nat →
      match (parseStream (M:=M) (E:=E) (pending d ++ concat chunks)).2 with
      | inl e => st = inr (Some e)
      | inr rest => ∃ d', st = inl d' ∧ rs_wf d' ∧ rs_terminal d' = false ∧ pending d' = rest
      end).

Lemma received_refused d c cs :
  rs_wf d → Z.of_nat (length (pending d)) < kFrameHeaderSize + kMaxFrame →
  parse1 (M:=M) (E:=E) (pending d) = PMore → kCapacity < rs_len d + Z.of_nat (length c) →
  received d (c :: cs) [] (inr None).
Proof using PL.
  intros Hd Hlen Hmore Hbig. pose proof (pending_length d Hd). exists 0%nat. split_and!.
  - cbn [firstn concat]. by rewrite app_nil_r, parseStream_unfold, Hmore.
  - intros _. split; [done|]. exists c, (pending d). split; [done|].
    cbn [firstn concat]. rewrite app_nil_r, parseStream_unfold, Hmore. split; [done|lia].
  - intros Hf. apply Forall_cons in Hf as [Hc _]. unfold maxChunk in Hc. lia.
  - simpl. lia.
Qed.

Lemma receive_ok chunks d :
  rs_wf d → rs_terminal d = false →
  Z.of_nat (length (pending d)) < kFrameHeaderSize + kMaxFrame →
  Forall bytes chunks → parse1 (M:=M) (E:=E) (pending d) = PMore →
  ∃ ms st, receive d chunks = Some (ms, st) ∧ received d chunks ms st.
Proof using PL.
  revert d. induction chunks as [|c cs IH]; intros d Hd Ht Hlen Hcs Hmore.
  { cbn [receive]. eexists [], (inl d). split; [done|]. exists 0%nat.
    cbn [firstn concat length]. rewrite app_nil_r, parseStream_unfold, Hmore. split_and!; try done; try lia.
    intros _. by exists d. }
  apply Forall_cons in Hcs as [Hbc Hcs]. cbn [receive].
  destruct (decide (kCapacity < rs_len d + Z.of_nat (length c))) as [Hbig|Hfit].
  { unfold feed. rewrite Ht. destruct (kCapacity <? _) eqn:E1; [|lia]. cbn.
    eexists _, _. split; [done|]. by apply received_refused. }
  destruct (feed_ok d c Hd Hbc Ht) as (d1 & -> & Hd1 & Ht1 & Hp1); [lia|].
  cbn [mbind option_bind negb]. pose proof (pending_length d1 Hd1) as Hl1.
  destruct (drain_ok d1 (S (Z.to_nat (rs_len d1))) Hd1 Ht1) as (d2 & e & -> & He); [lia|].
  simpl_bind.
  assert (Happ : ∀ cs', Forall bytes cs' → parseStream (pending d ++ concat (c :: cs')) = _)
    by (intros cs' Hcs'; cbn [concat]; rewrite app_assoc, <- Hp1;
        apply parseStream_app; [by apply pending_bytes|by apply Forall_concat]).
  destruct (parseStream (pending d1)) as [ms st1] eqn:Hps. cbn [fst snd] in *.
  destruct st1 as [e1|rest].
  { subst e. eexists _, _. split; [done|]. exists (S (length cs)). cbn [firstn length].
    rewrite firstn_all, Happ by done. split_and!; try done; lia. }
  destruct He as (-> & Hd2 & Ht2 & <- & Hr).
  destruct (IH d2) as (ms' & st & -> & k & -> & Hk1 & Hk2 & Hk3); [done|done|done|done| |].
  { eapply parseStream_stuck. by rewrite Hps. }
  simpl_bind. eexists _, st. split; [done|]. exists (S k). cbn [firstn length].
  rewrite !Happ by (done || by apply Forall_take). cbn [fst snd]. split_and!.
  - done.
  - intros Hlt. destruct Hk1 as [Hst (c' & rest & Hc' & Hrest & Hbig)]; [lia|]. split; [done|]. exists c', rest.
    split; [done|]. cbn [firstn]. rewrite Happ by (by apply Forall_take). done.
  - intros Hf. apply Forall_cons in Hf as [_ Hf]. apply Hk2 in Hf. lia.
  - intros. apply Hk3. lia.
Qed.
End framing_ok.

(** ** Round trip

    What an encoder promises: it writes the frame of a message, and the payload
    reader returns the message from a buffer that starts with that frame. *)
Class PayloadEncoder (M E : Type) {PC : PayloadCodec M E} := {
  msgTypeOf : M → MessageType;
  bodyOf : M → list Z;
  encodeMsg : M → list Z → option (list Z * Z);
  validMsg : M → Prop;
  bodyOf_length m :
    validMsg m → Z.of_nat (length (bodyOf m)) = expectedPayloadSize (msgTypeOf m);
  bodyOf_bytes m : validMsg m → bytes (bodyOf m);
  encodeMsg_ok m dst :
    validMsg m → frameSize (msgTypeOf m) <= Z.of_nat (length dst) →
    encodeMsg m dst =
      Some (frame (msgTypeOf m) (bodyOf m) ++ drop (Z.to_nat (frameSize (msgTypeOf m))) dst,
            frameSize (msgTypeOf m));
  parse_body m rest :
    validMsg m →
    parsePayload (msgTypeOf m) (frame (msgTypeOf m) (bodyOf m) ++ rest) = Some (inr m)
}.

Section roundtrip.
Context {M E : Type} `{PC : !PayloadCodec M E} `{PL : !PayloadLaws M E} `{PE : !PayloadEncoder M E}.

Definition wireFrame (m : M) : list Z := frame (msgTypeOf m) (bodyOf m).

(** The bytes one encoder call puts on the wire, from a 128-byte buffer. *)
Definition encodeFrame (m : M) : option (list Z) :=
  '(b, n) ← encodeMsg m (replicate 128 0); Some (take (Z.to_nat n) b).

Lemma wireFrame_length m :
  validMsg m → Z.of_nat (length (wireFrame m)) = frameSize (msgTypeOf m).
Proof.
  intros Hv. pose proof (bodyOf_length m Hv).
  unfold wireFrame, frame, frameSize, kFrameHeaderSize, kMsgTypeSize. wire_len.
Qed.

Lemma encodeFrame_ok m : validMsg m → encodeFrame m = Some (wireFrame m).
Proof.
  intros Hv. unfold encodeFrame. pose proof (payload_bounds (msgTypeOf m)).
  rewrite encodeMsg_ok; [|done|].
  - simpl_bind. by rewrite <- wireFrame_length, Nat2Z.id, take_app_length.
  - unfold frameSize, kFrameHeaderSize, kMsgTypeSize. rewrite length_replicate. lia.
Qed.

Lemma wireFrame_bytes m : validMsg m → bytes (wireFrame m).
Proof.
  intros Hv. unfold wireFrame, frame. rewrite !Forall_app. split_and!; auto with wire.
  by apply bodyOf_bytes.
Qed.

Lemma wireFrame_parse1 m rest : validMsg m → parse1 (wireFrame m ++ rest) = PMsg m rest.
Proof.
  intros Hv. pose proof (bodyOf_length m Hv) as Hlen.
  pose proof (payload_bounds (msgTypeOf m)) as Hb.
  pose proof (parse_body m rest Hv) as Hd. unfold parse1, kFrameHeaderSize.
  unfold wireFrame, frame in *. rewrite <- !app_assoc in *.
  rewrite !length_app, !length_le. destruct (Z.of_nat _ <? 4) eqn:E4; [lia|]. cbv zeta.
  set (t := msgTypeOf m) in *.
  assert (Hl : unle (take 4 (le 4 (kMsgTypeSize + expectedPayloadSize t) ++
      le 1 (typeCode t) ++ bodyOf m ++ rest)) = kMsgTypeSize + expectedPayloadSize t).
  { rewrite take_app_le by (by rewrite length_le). rewrite take_ge by (by rewrite length_le).
    unfold kMsgTypeSize. rewrite unle_le by lia. apply Z.mod_small. simpl. lia. }
  rewrite Hl. unfold kMaxFrame, kMsgTypeSize in *.
  destruct (_ || _) eqn:E1; [lia|]. destruct (Z.of_nat _ <? 4 + _) eqn:E2; [lia|].
  rewrite app_nth2 by (rewrite length_le; lia). rewrite length_le.
  change (nth (4 - 4) (le 1 (typeCode t) ++ bodyOf m ++ rest) 0) with (u8 (typeCode t)).
  unfold u8. rewrite (Z.mod_small (typeCode t)) by apply typeCode_byte.
  rewrite messageTypeOf_code. rewrite Z.eqb_refl. cbn [negb]. rewrite Hd.
  cbn [default from_option]. f_equal. rewrite !app_assoc.
  apply drop_app_length'. rewrite !length_app, !length_le. lia.
Qed.

Lemma frames_parse ms :
  Forall validMsg ms → parseStream (concat (wireFrame <$> ms)) = (ms, inr []).
Proof.
  induction 1 as [|m ms Hm _ IH]; [done|]. cbn [fmap list_fmap concat].
  rewrite parseStream_unfold, wireFrame_parse1 by done. by rewrite IH.
Qed.

(** A decoder as the constructor leaves it: the buffer is not initialised. *)
Lemma reassemblyNew_wf junk :
  length junk = 256%nat → bytes junk →
  rs_wf (reassemblyNew junk) ∧ pending (reassemblyNew junk) = [].
Proof. intros Hl Hb. split; [|done]. split; cbn; unfold kCapacity; try done; lia. Qed.

Lemma parseStream_prefix bs more :
  bytes bs → bytes more → (parseStream (M:=M) (E:=E) bs).1 `prefix_of` (parseStream (M:=M) (E:=E) (bs ++ more)).1.
Proof using PL.
  intros Hb Hm. rewrite parseStream_app by done. destruct (parseStream bs).2; cbn [fst]; [done|]. by apply prefix_app_r.
Qed.

(** Whatever the sizes of the reads: a prefix of the messages arrives, and all of them
    unless a read of more than [maxChunk] bytes closes the connection. *)
Lemma roundtrip_cut ms junk reads :
  length junk = 256%nat → bytes junk → Forall validMsg ms → concat reads = concat (wireFrame <$> ms) →
  ∃ ms' st, receive (reassemblyNew junk) reads = Some (ms', st) ∧ ms' `prefix_of` ms ∧
    ((∃ d, st = inl d ∧ ms' = ms ∧ pending d = [] ∧ rs_terminal d = false) ∨
     st = inr None ∧ Exists (λ r, maxChunk < Z.of_nat (length r)) reads).
Proof using PL.
  intros Hl Hj Hms Hcat. destruct (reassemblyNew_wf junk Hl Hj) as [Hwf Hp].
  assert (Hb : Forall bytes reads).
  { apply Forall_concat_inv. rewrite Hcat. apply Forall_concat.
    apply Forall_fmap. eapply Forall_impl; [exact Hms|]. intros m. by apply wireFrame_bytes. }
  destruct (receive_ok (M:=M) (E:=E) reads (reassemblyNew junk))
    as (ms' & st & Hrec & k & -> & Hno & Hk & Hst); [done|done|rewrite Hp; done|done|by rewrite Hp|].
  rewrite Hp in *. cbn [app] in *. eexists _, st. split; [done|].
  assert (Hall : parseStream (concat reads) = (ms, inr [])) by (rewrite Hcat; by apply frames_parse). split.
  - rewrite <- (take_drop k reads), concat_app in Hall. apply (f_equal fst) in Hall. cbn [fst] in Hall. rewrite <- Hall.
    apply parseStream_prefix; apply Forall_concat; [by apply Forall_take|by apply Forall_drop].
  - destruct (decide (length reads <= k)%nat) as [Hle|Hlt].
    + left. specialize (Hst Hle). rewrite Hall in Hst. destruct Hst as (d & -> & _ & Ht & Hpd). exists d.
      rewrite take_ge by done. rewrite Hall. done.
    + right. split; [apply Hno; lia|]. destruct (decide (Exists (λ r : list Z, maxChunk < Z.of_nat (length r)) reads)) as [|Hex]; [done|].
      exfalso. apply Hlt, Hk. apply not_Exists_Forall in Hex; [|intros r; apply _]. eapply Forall_impl; [exact Hex|]. cbn. lia.
Qed.

Lemma roundtrip ms chunks junk reads :
  length junk = 256%nat → bytes junk → Forall validMsg ms →
  mapM encodeFrame ms = Some chunks → concat reads = concat chunks →
  Forall (λ r, Z.of_nat (length r) <= maxChunk) reads →
  ∃ d, receive (reassemblyNew junk) reads = Some (ms, inl d) ∧
    pending d = [] ∧ rs_terminal d = false.
Proof using PL.
  intros Hl Hj Hms Henc Hcat Hshort. destruct (reassemblyNew_wf junk Hl Hj) as [Hwf Hp].
  assert (chunks = wireFrame <$> ms) as ->.
  { apply (inj Some). rewrite <- Henc. apply mapM_Some_2.
    clear -Hms. induction Hms; constructor; [by apply encodeFrame_ok|done]. }
  assert (Hb : Forall bytes reads).
  { apply Forall_concat_inv. rewrite Hcat. apply Forall_concat.
    apply Forall_fmap. eapply Forall_impl; [exact Hms|]. intros m. by apply wireFrame_bytes. }
  destruct (receive_ok reads (reassemblyNew junk))
    as (ms' & st & Hrec & k & -> & _ & Hk & Hst); [done|done|rewrite Hp; done|done|by rewrite Hp|].
  rewrite Hp in *. cbn [app] in *. pose proof (Hk Hshort) as Hlen.
  rewrite take_ge in * by done. rewrite Hcat, (frames_parse ms Hms) in *. cbn [fst snd] in *.
  destruct Hst as (d & -> & _ & Ht & Hpd); [done|]. by exists d.
Qed.
End roundtrip.
