(* ===== verification/Decoder.v ===== *)
(** The order-entry decoder: [protocol/decoder.hpp] and [protocol/decoder.cpp].

    [FrameDecoder] is the stream reassembly of [Framing] with the payload reader
    below.  [DecodedMessage] is the source's tagged struct: only the member its
    tag names is meaningful. *)
From S2P Require Import Prelude Types Wire Messages Framing.

(** ** InstrumentSet *)

Definition kMaxInstruments : Z := 64.

Record InstrumentSet := mkInstruments { is_ids : list Z; is_count : Z }.

Definition instrumentsNew : InstrumentSet := mkInstruments (replicate 64 0) 0.

Fixpoint containsLoop (n : nat) (i : Z) (s : InstrumentSet) (id : Z) : option bool :=
  match n with
  | O => Some false
  | S n' =>
      x ← aget (is_ids s) i;
      if x =? id then Some true else containsLoop n' (i + 1) s id
  end.

Definition contains (s : InstrumentSet) (id : Z) : option bool :=
  containsLoop (Z.to_nat (is_count s)) 0 s id.

Definition addInstrument (s : InstrumentSet) (id : Z) : option InstrumentSet :=
  c ← contains s id;
  if c || (kMaxInstruments <=? is_count s) then Some s
  else
    ids ← aset (is_ids s) (is_count s) id;
    Some (mkInstruments ids (is_count s + 1)).

Definition instrumentsOf (ids : list Z) : option InstrumentSet :=
  foldl (λ s id, s ← s; addInstrument s id) (Some instrumentsNew) ids.

(** The ids in the set. *)
Definition members (s : InstrumentSet) : list Z := take (Z.to_nat (is_count s)) (is_ids s).

Definition instruments_ok (s : InstrumentSet) : Prop :=
  length (is_ids s) = 64%nat ∧ 0 <= is_count s <= 64 ∧ NoDup (members s).

Lemma containsLoop_ok n i s id :
  0 <= i → i + Z.of_nat n <= Z.of_nat (length (is_ids s)) →
  containsLoop n i s id = Some (bool_decide (id ∈ take n (drop (Z.to_nat i) (is_ids s)))).
Proof.
  revert i. induction n as [|n IH]; intros i Hi Hn; cbn [containsLoop]; [done|].
  destruct (aget_in (is_ids s) i) as [x Hx]; [lia|]. rewrite Hx. simpl_bind.
  apply aget_Some in Hx as [_ Hx]. rewrite (drop_S _ _ _ Hx). cbn [firstn].
  destruct (x =? id) eqn:E.
  - f_equal. symmetry. apply bool_decide_eq_true. apply elem_of_cons. left. lia.
  - rewrite IH by lia. f_equal. replace (Z.to_nat (i + 1)) with (S (Z.to_nat i)) by lia.
    apply bool_decide_ext. rewrite elem_of_cons. split; [by right|]. intros [->|]; [lia|done].
Qed.

Lemma contains_ok s id :
  instruments_ok s → contains s id = Some (bool_decide (id ∈ members s)).
Proof.
  intros (Hl & Hc & _). unfold contains. by rewrite containsLoop_ok by lia.
Qed.

(** Adding keeps the ids distinct, and only a full set ignores a new one. *)
Lemma addInstrument_ok s id :
  instruments_ok s →
  ∃ s', addInstrument s id = Some s' ∧ instruments_ok s' ∧
    members s' = if bool_decide (id ∈ members s) || (64 <=? is_count s)
                 then members s else members s ++ [id].
Proof.
  intros Hs. destruct (Hs) as (Hl & Hc & Hn). unfold addInstrument.
  rewrite (contains_ok s id Hs). simpl_bind. unfold kMaxInstruments.
  destruct (bool_decide _ || _) eqn:E; [by exists s|].
  apply orb_false_iff in E as [E1 E2]. apply bool_decide_eq_false in E1.
  rewrite aset_in by lia. simpl_bind. eexists; split; [done|].
  assert (Hm : take (Z.to_nat (is_count s + 1)) (<[Z.to_nat (is_count s) := id]> (is_ids s))
    = members s ++ [id]).
  { replace (Z.to_nat (is_count s + 1)) with (S (Z.to_nat (is_count s))) by lia.
    rewrite (take_S_r _ _ id) by (apply list_lookup_insert_eq; lia).
    f_equal. apply take_insert_ge. lia. }
  split; [split; [|split]|exact Hm]; cbn.
  - by rewrite length_insert.
  - lia.
  - unfold members; cbn. rewrite Hm. apply NoDup_app. split; [done|]. split.
    + intros x Hx ->%list_elem_of_singleton. done.
    + apply NoDup_singleton.
Qed.

(** ** Decoding *)

Inductive DecodedMessage :=
  | DLogin (m : LoginMsg)
  | DNewOrder (m : NewOrderMsg)
  | DCancel (m : CancelMsg)
  | DCancelReplace (m : CancelReplaceMsg)
  | DHeartbeat (m : HeartbeatMsg)
  | DLoginAck (m : LoginAckMsg)
  | DLoginReject (m : LoginRejectMsg)
  | DExecReport (m : ExecReportMsg)
  | DReject (m : RejectMsg).

(** The decoder's configuration. *)
Record DecoderConfig := mkDecoderConfig {
  dc_instruments : InstrumentSet;
  dc_minPrice : Z;
  dc_maxPrice : Z
}.

Definition validSide (raw : Z) : bool := (raw =? 0) || (raw =? 1).
Definition validWireOrderType (raw : Z) : bool := (raw =? 0) || (raw =? 1).
Definition validWireTif (raw : Z) : bool := (raw =? 0) || (raw =? 1) || (raw =? 2).

(** [static_cast] of a byte the validation above accepted. *)
Definition castSide (raw : Z) : Side := if raw =? 0 then Buy else Sell.
Definition castWireOrderType (raw : Z) : WireOrderType := if raw =? 0 then WLimit else WMarket.
Definition castWireTif (raw : Z) : WireTimeInForce :=
  if raw =? 0 then Day else if raw =? 1 then WIoc else WFok.

Abbreviation Decoded := (RejectReason + DecodedMessage)%type.

Definition decodeLogin (b : list Z) (p : Z) : option Decoded :=
  participantId ← getI64 b p;
  token ← slice b (p + 8) 32;
  clientSeqNum ← getU64 b (p + 8 + 32);
  Some (inr (DLogin (mkLogin participantId token clientSeqNum))).

Definition decodeNewOrder (c : DecoderConfig) (b : list Z) (p : Z) : option Decoded :=
  clientSeqNum ← getU64 b p;
  orderId ← getI64 b (p + 8);
  instrumentId ← getU32 b (p + 16);
  sideRaw ← getU8 b (p + 20);
  typeRaw ← getU8 b (p + 21);
  price ← getI64 b (p + 22);
  quantity ← getI64 b (p + 30);
  tifRaw ← getU8 b (p + 38);
  if negb (validSide sideRaw) || negb (validWireOrderType typeRaw) || negb (validWireTif tifRaw)
  then Some (inl InvalidField)
  else
    let m := mkNewOrderMsg clientSeqNum orderId instrumentId (castSide sideRaw)
               (castWireOrderType typeRaw) price quantity (castWireTif tifRaw) in
    known ← contains (dc_instruments c) instrumentId;
    if negb known then Some (inl UnknownInstrument)
    else if quantity <=? 0 then Some (inl InvalidField)
    else if bool_decide (no_orderType m = WMarket) && bool_decide (no_timeInForce m = WFok)
    then Some (inl InvalidTifCombination)
    else if
      match no_orderType m with
      | WLimit => (price <? dc_minPrice c) || (dc_maxPrice c <? price)
      | WMarket =>
          negb (price =? 0) && ((price <? dc_minPrice c) || (dc_maxPrice c <? price))
      end
    then Some (inl InvalidField)
    else Some (inr (DNewOrder m)).

Definition decodeCancel (c : DecoderConfig) (b : list Z) (p : Z) : option Decoded :=
  clientSeqNum ← getU64 b p;
  orderId ← getI64 b (p + 8);
  instrumentId ← getU32 b (p + 16);
  known ← contains (dc_instruments c) instrumentId;
  if negb known then Some (inl UnknownInstrument)
  else Some (inr (DCancel (mkCancel clientSeqNum orderId instrumentId))).

Definition decodeCancelReplace (c : DecoderConfig) (b : list Z) (p : Z) : option Decoded :=
  clientSeqNum ← getU64 b p;
  orderId ← getI64 b (p + 8);
  instrumentId ← getU32 b (p + 16);
  newPrice ← getI64 b (p + 20);
  newQuantity ← getI64 b (p + 28);
  known ← contains (dc_instruments c) instrumentId;
  if negb known then Some (inl UnknownInstrument)
  else if (newQuantity <=? 0) || (newPrice <? dc_minPrice c) || (dc_maxPrice c <? newPrice)
  then Some (inl InvalidField)
  else Some (inr (DCancelReplace
    (mkCancelReplace clientSeqNum orderId instrumentId newPrice newQuantity))).

Definition decodeServerMsg (t : MessageType) (b : list Z) (p : Z) : option Decoded :=
  match t with
  | Heartbeat =>
      marker ← getU64 b p;
      Some (inr (DHeartbeat (mkHeartbeat marker)))
  | LoginAck =>
      serverSeq ← getI64 b p;
      status ← getU8 b (p + 8);
      Some (inr (DLoginAck (mkLoginAck serverSeq status)))
  | LoginReject =>
      reason ← getU8 b p;
      reserved ← getU8 b (p + 1);
      Some (inr (DLoginReject (mkLoginReject reason reserved)))
  | ExecReport =>
      orderId ← getI64 b p;
      execType ← getU8 b (p + 8);
      execQty ← getI64 b (p + 9);
      leavesQty ← getI64 b (p + 17);
      tradePrice ← getI64 b (p + 25);
      tradeId ← getI64 b (p + 33);
      globalSeq ← getI64 b (p + 41);
      Some (inr (DExecReport
        (mkExecReport orderId execType execQty leavesQty tradePrice tradeId globalSeq)))
  | Reject =>
      orderId ← getI64 b p;
      reason ← getU8 b (p + 8);
      globalSeq ← getI64 b (p + 9);
      Some (inr (DReject (mkRejectMsg orderId reason globalSeq)))
  | _ => Some (inl UnknownMessageType)
  end.

(** Step 6 of [FrameDecoder::next]: field validation per message type. *)
Definition decodePayload (c : DecoderConfig) (t : MessageType) (b : list Z) : option Decoded :=
  let p := kFrameHeaderSize + kMsgTypeSize in
  match t with
  | Login => decodeLogin b p
  | NewOrderT => decodeNewOrder c b p
  | Cancel => decodeCancel c b p
  | CancelReplace => decodeCancelReplace c b p
  | _ => decodeServerMsg t b p
  end.

Definition frame_codec (c : DecoderConfig) : PayloadCodec DecodedMessage RejectReason := {|
  parsePayload := decodePayload c;
  errMalformed := MalformedFrame;
  errUnknown := UnknownMessageType
|}.

Record FrameDecoder := mkFrameDecoder { fd_config : DecoderConfig; fd_stream : Reassembly }.

Definition decoderNext (d : FrameDecoder)
    : option (FrameDecoder * Result DecodedMessage RejectReason) :=
  '(s, r) ← next (PC := frame_codec (fd_config d)) (fd_stream d);
  Some (mkFrameDecoder (fd_config d) s, r).

Definition decoderFeed (d : FrameDecoder) (data : list Z) : option (FrameDecoder * bool) :=
  '(s, ok) ← feed (fd_stream d) data; Some (mkFrameDecoder (fd_config d) s, ok).

(** The reader keeps the promise the reassembly relies on. *)
Section config.
Context (c : DecoderConfig) (Hc : instruments_ok (dc_instruments c)).

Lemma decodePayload_total t b :
  bytes b → frameSize t <= Z.of_nat (length b) → is_Some (decodePayload c t b).
Proof using Hc.
  intros Hb Hl. unfold frameSize, decodePayload, kFrameHeaderSize, kMsgTypeSize in *.
  destruct t; cbn [expectedPayloadSize] in Hl;
    unfold decodeLogin, decodeNewOrder, decodeCancel, decodeCancelReplace, decodeServerMsg;
    read_all b; rewrite ?(contains_ok _ _ Hc); simpl_bind;
    repeat case_match; eauto.
Qed.

Lemma decodePayload_local t b b' :
  frameSize t <= Z.of_nat (length b) → frameSize t <= Z.of_nat (length b') →
  take (Z.to_nat (frameSize t)) b = take (Z.to_nat (frameSize t)) b' →
  decodePayload c t b = decodePayload c t b'.
Proof.
  intros Hl Hl' Ht. remember (frameSize t) as k eqn:Hk.
  unfold frameSize, decodePayload, kFrameHeaderSize, kMsgTypeSize in *.
  destruct t; cbn [expectedPayloadSize] in Hk;
    unfold decodeLogin, decodeNewOrder, decodeCancel, decodeCancelReplace, decodeServerMsg;
    read_same b b' k; done.
Qed.

#[local] Instance frame_laws : PayloadLaws (PC := frame_codec c) DecodedMessage RejectReason.
Proof using Hc. split; [apply decodePayload_total|apply decodePayload_local]. Qed.

(** ** Round trip *)

Definition payloadOf (m : DecodedMessage) : list Z :=
  match m with
  | DLogin m => le 8 (u64 (lg_participantId m)) ++ lg_token m ++ le 8 (lg_clientSeqNum m)
  | DNewOrder m =>
      le 8 (no_clientSeqNum m) ++ le 8 (u64 (no_orderId m)) ++ le 4 (no_instrumentId m) ++
      le 1 (sideCode (no_side m)) ++ le 1 (orderTypeCode (no_orderType m)) ++
      le 8 (u64 (no_price m)) ++ le 8 (u64 (no_quantity m)) ++ le 1 (tifCode (no_timeInForce m))
  | DCancel m =>
      le 8 (cn_clientSeqNum m) ++ le 8 (u64 (cn_orderId m)) ++ le 4 (cn_instrumentId m)
  | DCancelReplace m =>
      le 8 (cr_clientSeqNum m) ++ le 8 (u64 (cr_orderId m)) ++ le 4 (cr_instrumentId m) ++
      le 8 (u64 (cr_newPrice m)) ++ le 8 (u64 (cr_newQuantity m))
  | DHeartbeat m => le 8 (hb_marker m)
  | DLoginAck m => le 8 (u64 (la_serverSeq m)) ++ le 1 (la_status m)
  | DLoginReject m => le 1 (lr_reason m) ++ le 1 (lr_reserved m)
  | DExecReport m =>
      le 8 (u64 (er_orderId m)) ++ le 1 (er_execType m) ++ le 8 (u64 (er_execQty m)) ++
      le 8 (u64 (er_leavesQty m)) ++ le 8 (u64 (er_tradePrice m)) ++
      le 8 (u64 (er_tradeId m)) ++ le 8 (u64 (er_globalSeq m))
  | DReject m => le 8 (u64 (rj_orderId m)) ++ le 1 (rj_reason m) ++ le 8 (u64 (rj_globalSeq m))
  end.

Definition msgType (m : DecodedMessage) : MessageType :=
  match m with
  | DLogin _ => Login | DNewOrder _ => NewOrderT | DCancel _ => Cancel
  | DCancelReplace _ => CancelReplace | DHeartbeat _ => Heartbeat | DLoginAck _ => LoginAck
  | DLoginReject _ => LoginReject | DExecReport _ => ExecReport | DReject _ => Reject
  end.

(** The encoder of each message. *)
Definition encode (m : DecodedMessage) (dst : list Z) : option (list Z * Z) :=
  match m with
  | DLogin m => encodeLogin m dst
  | DNewOrder m => encodeNewOrder m dst
  | DCancel m => encodeCancel m dst
  | DCancelReplace m => encodeCancelReplace m dst
  | DHeartbeat m => encodeHeartbeat m dst
  | DLoginAck m => encodeLoginAck m dst
  | DLoginReject m => encodeLoginReject m dst
  | DExecReport m => encodeExecReport m dst
  | DReject m => encodeReject m dst
  end.

Definition is_u32 (x : Z) : Prop := 0 <= x < 4294967296.

(** A message the decoder accepts: fields of their width, a known instrument,
    positive quantities and prices within the configured bounds. *)
Definition valid_msg (m : DecodedMessage) : Prop :=
  match m with
  | DLogin m =>
      in_i64 (lg_participantId m) ∧ length (lg_token m) = 32%nat ∧ bytes (lg_token m) ∧
      in_u64 (lg_clientSeqNum m)
  | DNewOrder m =>
      in_u64 (no_clientSeqNum m) ∧ in_i64 (no_orderId m) ∧ is_u32 (no_instrumentId m) ∧
      in_i64 (no_price m) ∧ in_i64 (no_quantity m) ∧
      no_instrumentId m ∈ members (dc_instruments c) ∧ 0 < no_quantity m ∧
      ¬ (no_orderType m = WMarket ∧ no_timeInForce m = WFok) ∧
      (dc_minPrice c <= no_price m <= dc_maxPrice c ∨
       no_orderType m = WMarket ∧ no_price m = 0)
  | DCancel m =>
      in_u64 (cn_clientSeqNum m) ∧ in_i64 (cn_orderId m) ∧ is_u32 (cn_instrumentId m) ∧
      cn_instrumentId m ∈ members (dc_instruments c)
  | DCancelReplace m =>
      in_u64 (cr_clientSeqNum m) ∧ in_i64 (cr_orderId m) ∧ is_u32 (cr_instrumentId m) ∧
      in_i64 (cr_newPrice m) ∧ in_i64 (cr_newQuantity m) ∧
      cr_instrumentId m ∈ members (dc_instruments c) ∧ 0 < cr_newQuantity m ∧
      dc_minPrice c <= cr_newPrice m <= dc_maxPrice c
  | DHeartbeat m => in_u64 (hb_marker m)
  | DLoginAck m => in_i64 (la_serverSeq m) ∧ is_byte (la_status m)
  | DLoginReject m => is_byte (lr_reason m) ∧ is_byte (lr_reserved m)
  | DExecReport m =>
      in_i64 (er_orderId m) ∧ is_byte (er_execType m) ∧ in_i64 (er_execQty m) ∧
      in_i64 (er_leavesQty m) ∧ in_i64 (er_tradePrice m) ∧ in_i64 (er_tradeId m) ∧
      in_i64 (er_globalSeq m)
  | DReject m => in_i64 (rj_orderId m) ∧ is_byte (rj_reason m) ∧ in_i64 (rj_globalSeq m)
  end.

Definition frameOf (m : DecodedMessage) : list Z := frame (msgType m) (payloadOf m).

Lemma payloadOf_length m :
  valid_msg m → Z.of_nat (length (payloadOf m)) = expectedPayloadSize (msgType m).
Proof.
  destruct m; cbn [payloadOf msgType expectedPayloadSize valid_msg]; intros Hv; wire_len.
Qed.

(** Each encoder writes the message's frame and nothing else. *)
Lemma encode_ok m dst :
  valid_msg m → frameSize (msgType m) <= Z.of_nat (length dst) →
  encode m dst = Some (frameOf m ++ drop (Z.to_nat (frameSize (msgType m))) dst,
                       frameSize (msgType m)).
Proof.
  unfold frameOf.
  destruct m as [m|m|m|m|m|m|m|m|m]; cbn [encode msgType payloadOf valid_msg]; intros Hv Hl;
    destruct_and?;
    unfold encodeLogin, encodeNewOrder, encodeCancel, encodeCancelReplace, encodeHeartbeat,
      encodeLoginAck, encodeLoginReject, encodeExecReport, encodeReject; encode_ok.
Qed.

Lemma castSide_code s : validSide (sideCode s) = true ∧ castSide (sideCode s) = s.
Proof. by destruct s. Qed.
Lemma castWireOrderType_code t :
  validWireOrderType (orderTypeCode t) = true ∧ castWireOrderType (orderTypeCode t) = t.
Proof. by destruct t. Qed.
Lemma castWireTif_code t : validWireTif (tifCode t) = true ∧ castWireTif (tifCode t) = t.
Proof. by destruct t. Qed.

Lemma contains_member id :
  id ∈ members (dc_instruments c) → contains (dc_instruments c) id = Some true.
Proof using Hc. intros. rewrite (contains_ok _ _ Hc). by rewrite bool_decide_eq_true_2. Qed.

Lemma decodeNewOrder_frame m rest :
  valid_msg (DNewOrder m) →
  decodeNewOrder c (frameOf (DNewOrder m) ++ rest) 5 = Some (inr (DNewOrder m)).
Proof using Hc.
  unfold is_u32. intros (? & ? & ? & ? & ? & Hin & Hq & Htif & Hpr).
  unfold decodeNewOrder, frameOf, frame; cbn [msgType payloadOf]. rewrite <- !app_assoc.
  repeat read_field.
  destruct (castSide_code (no_side m)) as [-> ->].
  destruct (castWireOrderType_code (no_orderType m)) as [-> ->].
  destruct (castWireTif_code (no_timeInForce m)) as [-> ->]. cbn [negb orb].
  rewrite contains_member by done. cbn [mbind option_bind negb no_orderType no_timeInForce].
  destruct (no_quantity m <=? 0) eqn:E1; [lia|].
  destruct (bool_decide _ && bool_decide _) eqn:E2.
  { apply andb_true_iff in E2 as [E2%bool_decide_eq_true E3%bool_decide_eq_true].
    by destruct Htif. }
  destruct m as [? ? ? ? ot ? ? ?]; cbn in *. destruct ot.
  - destruct (_ || _) eqn:E3; [|done]. destruct Hpr as [?|[? ?]]; [lia|done].
  - destruct (negb _ && _) eqn:E3; [|done]. destruct Hpr; lia.
Qed.

Lemma decode_frame m rest :
  valid_msg m → decodePayload c (msgType m) (frameOf m ++ rest) = Some (inr m).
Proof using Hc.
  intros Hv. unfold decodePayload, kFrameHeaderSize, kMsgTypeSize.
  destruct m as [m|m|m|m|m|m|m|m|m]; cbn [msgType]; cbn [Z.add Pos.add];
    [|by apply decodeNewOrder_frame|..];
    cbn [valid_msg] in Hv; unfold is_u32 in *; destruct_and?;
    unfold decodeLogin, decodeCancel, decodeCancelReplace, decodeServerMsg, frameOf, frame;
    cbn [msgType payloadOf]; rewrite <- ?app_assoc; repeat read_field;
    rewrite ?contains_member by done; cbn [mbind option_bind negb];
    try (case_match eqn:E; [lia|]); by destruct m.
Qed.

(** Whatever the bytes are, a message the decoder returns is valid. *)
Lemma decodeNewOrder_valid b m :
  bytes b → frameSize NewOrderT <= Z.of_nat (length b) →
  decodeNewOrder c b 5 = Some (inr m) → valid_msg m ∧ msgType m = NewOrderT.
Proof using Hc.
  intros Hb Hl. unfold frameSize, kFrameHeaderSize, kMsgTypeSize in Hl.
  cbn [expectedPayloadSize] in Hl. unfold decodeNewOrder. read_all b.
  case_match eqn:E1; [done|]. rewrite (contains_ok _ _ Hc).
  simpl_bind. case_match eqn:E2; [done|]. case_match eqn:E3; [done|].
  case_match eqn:E4; [done|]. case_match eqn:E5; [done|]. intros [= <-].
  split; [|done]. cbn in *. unfold is_u32. apply negb_false_iff, bool_decide_eq_true in E2.
  split_and!; try done; try lia.
  - intros [Ho Ht]. by rewrite Ho, Ht in E4.
  - destruct (castWireOrderType _); [left; lia|]. apply andb_false_iff in E5.
    destruct E5; [right; split; [done|]|left]; lia.
Qed.

Lemma decode_valid t b m :
  bytes b → frameSize t <= Z.of_nat (length b) →
  decodePayload c t b = Some (inr m) → valid_msg m ∧ msgType m = t.
Proof using Hc.
  intros Hb Hl. unfold decodePayload. change (kFrameHeaderSize + kMsgTypeSize) with 5.
  destruct t; try (by apply decodeNewOrder_valid);
    unfold frameSize, kFrameHeaderSize, kMsgTypeSize in Hl; cbn [expectedPayloadSize] in Hl;
    unfold decodeLogin, decodeCancel, decodeCancelReplace, decodeServerMsg; read_all b;
    rewrite ?(contains_ok _ _ Hc); simpl_bind;
    repeat case_match; intros [= <-]; split; try done; cbn [valid_msg]; cbn;
    unfold is_u32; split_and?; try done; try lia;
    by eapply bool_decide_eq_true, negb_false_iff.
Qed.

Lemma payloadOf_bytes m : valid_msg m → bytes (payloadOf m).
Proof.
  intros Hv. destruct m; cbn [payloadOf valid_msg] in *; rewrite ?Forall_app; split_and?; auto with wire.
  apply Hv.
Qed.

Lemma parseStream_valid bs : bytes bs → Forall valid_msg (parseStream (PC := frame_codec c) bs).1.
Proof using Hc.
  intros Hb. remember (length bs) as n eqn:Hn. revert bs Hb Hn.
  induction (lt_wf n) as [n _ IH]. intros bs Hb ->. rewrite parseStream_unfold.
  destruct (parse1 bs) as [|e|m rest] eqn:E1; [constructor|constructor|].
  cbn [fst]. constructor.
  - unfold parse1, kFrameHeaderSize, kMsgTypeSize in E1. repeat case_match; simplify_eq.
    match goal with H : default _ ?x = _ |- _ => destruct x as [r|] eqn:Hr; simpl in H; simplify_eq end.
    apply decode_valid in Hr as [? _]; [done|done|].
    unfold frameSize, kFrameHeaderSize, kMsgTypeSize. lia.
  - apply (IH (length rest)); [by eapply parse1_rest|by eapply parse1_bytes|done].
Qed.

Definition frame_encoder : PayloadEncoder (PC := frame_codec c) DecodedMessage RejectReason.
Proof using Hc.
  refine (Build_PayloadEncoder _ _ (frame_codec c) msgType payloadOf encode valid_msg _ _ _ _).
  - exact payloadOf_length.
  - exact payloadOf_bytes.
  - exact encode_ok.
  - exact decode_frame.
Defined.

(** C21: order-entry round trip over a byte stream.  Take any valid messages,
    put the encoders' bytes on the wire one after the other, and cut the stream
    into arbitrary chunks of at most 189 bytes (the gateway reads 128).  The
    decoder accepts every chunk and returns exactly those messages, in order, and
    is left with nothing pending. *)
Theorem stream_roundtrip ms chunks junk reads :
  length junk = 256%nat → bytes junk → Forall valid_msg ms →
  mapM (encodeFrame (PE := frame_encoder)) ms = Some chunks →
  concat reads = concat chunks →
  Forall (λ r, Z.of_nat (length r) <= maxChunk) reads →
  ∃ d, receive (PC := frame_codec c) (reassemblyNew junk) reads = Some (ms, inl d) ∧
    pending d = [] ∧ rs_terminal d = false.
Proof using Hc. apply (roundtrip (PL := frame_laws) (PE := frame_encoder)). Qed.

(** C22: hostile input.  On any bytes in reads of any sizes the decoder terminates
    without an out-of-bounds access, and every message it returns satisfies the field
    checks (known instrument, positive quantity, price bounds, order type and
    time-in-force combination).  What it returns are the messages of the stream up to the
    first read that does not fit its 256-byte buffer behind the incomplete frame that
    waits there, which closes the connection; without such a read, they are the messages of
    the whole stream, up to the first invalid frame.  A read of at most 189 bytes always
    fits, so for such reads (the gateway reads 128) nothing depends on how the stream was
    cut. *)
Theorem decoder_hostile_input reads junk :
  length junk = 256%nat → bytes junk → Forall bytes reads →
  ∃ k ms st, receive (PC := frame_codec c) (reassemblyNew junk) reads = Some (ms, st) ∧
    Forall valid_msg ms ∧ ms = (parseStream (PC := frame_codec c) (concat (take k reads))).1 ∧
    ((k < length reads)%nat → st = inr None ∧ refused (PC := frame_codec c) [] reads k) ∧
    ((length reads <= k)%nat →
      match (parseStream (PC := frame_codec c) (concat reads)).2 with
      | inl e => st = inr (Some e)
      | inr rest => ∃ d, st = inl d ∧ rs_terminal d = false ∧ pending d = rest
      end) ∧
    (Forall (λ r, Z.of_nat (length r) <= maxChunk) reads → (length reads <= k)%nat).
Proof using Hc.
  intros Hl Hj Hb. destruct (reassemblyNew_wf junk Hl Hj) as [Hwf Hp].
  destruct (receive_ok (PL := frame_laws) reads (reassemblyNew junk))
    as (ms & st & Hrec & k & -> & Hno & Hk & Hst); [done|done|rewrite Hp; done|done|by rewrite Hp|].
  rewrite Hp in *. cbn [app] in *. eexists k, _, st. split; [done|]. split.
  { apply parseStream_valid. apply Forall_concat. by apply Forall_take. }
  split; [done|]. split; [done|]. split; [|done]. intros Hle. specialize (Hst Hle).
  destruct (parseStream (concat reads)).2; [done|]. destruct Hst as (d & -> & _ & ? & ?). by exists d.
Qed.
End config.

(** ** A concrete connection *)

Definition demoDecoder : DecoderConfig :=
  mkDecoderConfig (default instrumentsNew (instrumentsOf [1; 7; 1])) 10000 10000000.

Lemma demoDecoder_ok : instruments_ok (dc_instruments demoDecoder).
Proof.
  split; [done|]. split; [vm_compute; split; discriminate|].
  vm_compute. by apply (bool_decide_unpack _).
Qed.

Definition demoMsgs : list DecodedMessage :=
  [DLogin (mkLogin 42 (replicate 32 171) 100);
   DNewOrder (mkNewOrderMsg 101 5001 7 Sell WLimit 1505000 300 WIoc);
   DCancel (mkCancel 102 5001 1);
   DExecReport (mkExecReport (-5) 2 300 0 1505000 9 77)].

Definition demoWire : list Z := Eval vm_compute in concat (default [] (mapM (encodeFrame (PE := frame_encoder demoDecoder demoDecoder_ok)) demoMsgs)).

(** The stream cut in the middle of a length prefix, a payload and a frame. *)
Definition demoReads : list (list Z) :=
  [take 2 demoWire; take 60 (drop 2 demoWire); []; drop 62 demoWire].

Lemma demoMsgs_valid : Forall (valid_msg demoDecoder) demoMsgs.
Proof.
  repeat constructor; cbn; unfold in_i64, in_u64, is_u32, INT64_MIN, INT64_MAX; try lia;
    try (by apply (bool_decide_unpack _)).
Qed.

Lemma stream_roundtrip_witness :
  ∃ d, receive (PC := frame_codec demoDecoder) (reassemblyNew (replicate 256 0)) demoReads
       = Some (demoMsgs, inl d) ∧ pending d = [] ∧ rs_terminal d = false.
Proof.
  apply (stream_roundtrip demoDecoder demoDecoder_ok demoMsgs
           (default [] (mapM (encodeFrame (PE := frame_encoder demoDecoder demoDecoder_ok)) demoMsgs)) (replicate 256 0)).
  - done.
  - by apply Forall_replicate.
  - exact demoMsgs_valid.
  - vm_compute. reflexivity.
  - vm_compute. reflexivity.
  - repeat constructor; vm_compute; discriminate.
Defined.

(** A good frame followed by a length of 4 GiB. *)
Definition hostileReads : list (list Z) := [take 30 demoWire; drop 30 demoWire ++ [255; 255; 255]; [255; 1; 2; 3]].

Lemma decoder_hostile_input_witness :
  ∃ k ms st, receive (PC := frame_codec demoDecoder) (reassemblyNew (replicate 256 0)) hostileReads
    = Some (ms, st) ∧ Forall (valid_msg demoDecoder) ms ∧
    ms = (parseStream (PC := frame_codec demoDecoder) (concat (take k hostileReads))).1.
Proof.
  destruct (decoder_hostile_input demoDecoder demoDecoder_ok hostileReads (replicate 256 0)) as (k & ms & st & H1 & H2 & H3 & _).
  - done.
  - by apply Forall_replicate.
  - repeat constructor; vm_compute; discriminate.
  - exists k, ms, st. split; [exact H1|]. split; [exact H2|exact H3].
Defined.
