(* ===== verification/FeedCodec.v ===== *)
(** The market-data feed's wire format: [marketdata/feed_messages.hpp],
    [marketdata/feed_encoder.cpp] and [marketdata/feed_decoder.cpp].

    [FeedDecoder] is the stream reassembly of [Framing] with the reader below.
    It stores enumeration bytes ([side], [action]) without a range check, so
    these fields are bytes here. *)
From S2P Require Import Prelude Types Wire Messages Framing.

Record L2DeltaMsg := mkL2Delta {
  l2_instrumentId : Z; l2_feedSeq : Z; l2_side : Z; l2_action : Z; l2_price : Z;
  l2_totalQty : Z; l2_orderCount : Z }.

Record L3OrderMsg := mkL3Order {
  l3_instrumentId : Z; l3_feedSeq : Z; l3_action : Z; l3_orderId : Z; l3_side : Z;
  l3_price : Z; l3_quantity : Z; l3_remaining : Z; l3_participant : Z }.

Record L3FillMsg := mkL3Fill {
  lf_instrumentId : Z; lf_feedSeq : Z; lf_orderId : Z; lf_tradeId : Z; lf_price : Z;
  lf_quantity : Z; lf_remaining : Z }.

Record TradeTickMsg := mkTradeTick {
  tt_instrumentId : Z; tt_feedSeq : Z; tt_tradeId : Z; tt_aggressorId : Z; tt_passiveId : Z;
  tt_price : Z; tt_quantity : Z; tt_aggressorSide : Z }.

Record SnapshotStartMsg := mkSnapshotStart {
  ss_instrumentId : Z; ss_feedSeq : Z; ss_restingOrders : Z }.

Record SnapshotEndMsg := mkSnapshotEnd { se_instrumentId : Z; se_feedSeq : Z; se_crc32 : Z }.

Inductive L2Action := L2Add | L2Modify | L2Delete.
Inductive L3Action := L3Rested | L3Cancelled | L3Replaced.
Definition l2Code (a : L2Action) : Z := match a with L2Add => 0 | L2Modify => 1 | L2Delete => 2 end.
Definition l3Code (a : L3Action) : Z :=
  match a with L3Rested => 0 | L3Cancelled => 1 | L3Replaced => 2 end.

(** ** Encoders *)

Definition encodeL2Delta (m : L2DeltaMsg) (dst : list Z) : option (list Z * Z) :=
  '(d, p) ← writeHeader dst L2Delta (expectedPayloadSize L2Delta);
  d ← putU32 d p (l2_instrumentId m);
  d ← putU64 d (p + 4) (l2_feedSeq m);
  d ← putU8 d (p + 12) (l2_side m);
  d ← putU8 d (p + 13) (l2_action m);
  d ← putI64 d (p + 14) (l2_price m);
  d ← putI64 d (p + 22) (l2_totalQty m);
  d ← putU32 d (p + 30) (l2_orderCount m);
  Some (d, frameSize L2Delta).

Definition encodeL3Order (m : L3OrderMsg) (dst : list Z) : option (list Z * Z) :=
  '(d, p) ← writeHeader dst L3Order (expectedPayloadSize L3Order);
  d ← putU32 d p (l3_instrumentId m);
  d ← putU64 d (p + 4) (l3_feedSeq m);
  d ← putU8 d (p + 12) (l3_action m);
  d ← putI64 d (p + 13) (l3_orderId m);
  d ← putU8 d (p + 21) (l3_side m);
  d ← putI64 d (p + 22) (l3_price m);
  d ← putI64 d (p + 30) (l3_quantity m);
  d ← putI64 d (p + 38) (l3_remaining m);
  d ← putI64 d (p + 46) (l3_participant m);
  Some (d, frameSize L3Order).

Definition encodeL3Fill (m : L3FillMsg) (dst : list Z) : option (list Z * Z) :=
  '(d, p) ← writeHeader dst L3Fill (expectedPayloadSize L3Fill);
  d ← putU32 d p (lf_instrumentId m);
  d ← putU64 d (p + 4) (lf_feedSeq m);
  d ← putI64 d (p + 12) (lf_orderId m);
  d ← putI64 d (p + 20) (lf_tradeId m);
  d ← putI64 d (p + 28) (lf_price m);
  d ← putI64 d (p + 36) (lf_quantity m);
  d ← putI64 d (p + 44) (lf_remaining m);
  Some (d, frameSize L3Fill).

Definition encodeTradeTick (m : TradeTickMsg) (dst : list Z) : option (list Z * Z) :=
  '(d, p) ← writeHeader dst TradeTick (expectedPayloadSize TradeTick);
  d ← putU32 d p (tt_instrumentId m);
  d ← putU64 d (p + 4) (tt_feedSeq m);
  d ← putI64 d (p + 12) (tt_tradeId m);
  d ← putI64 d (p + 20) (tt_aggressorId m);
  d ← putI64 d (p + 28) (tt_passiveId m);
  d ← putI64 d (p + 36) (tt_price m);
  d ← putI64 d (p + 44) (tt_quantity m);
  d ← putU8 d (p + 52) (tt_aggressorSide m);
  Some (d, frameSize TradeTick).

Definition encodeSnapshotStart (m : SnapshotStartMsg) (dst : list Z) : option (list Z * Z) :=
  '(d, p) ← writeHeader dst SnapshotStart (expectedPayloadSize SnapshotStart);
  d ← putU32 d p (ss_instrumentId m);
  d ← putU64 d (p + 4) (ss_feedSeq m);
  d ← putU64 d (p + 12) (ss_restingOrders m);
  Some (d, frameSize SnapshotStart).

Definition encodeSnapshotEnd (m : SnapshotEndMsg) (dst : list Z) : option (list Z * Z) :=
  '(d, p) ← writeHeader dst SnapshotEnd (expectedPayloadSize SnapshotEnd);
  d ← putU32 d p (se_instrumentId m);
  d ← putU64 d (p + 4) (se_feedSeq m);
  d ← putU32 d (p + 12) (se_crc32 m);
  Some (d, frameSize SnapshotEnd).

(** ** Decoder *)

Inductive DecodedFeedMessage :=
  | FL2Delta (m : L2DeltaMsg)
  | FL3Order (m : L3OrderMsg)
  | FL3Fill (m : L3FillMsg)
  | FTradeTick (m : TradeTickMsg)
  | FSnapshotStart (m : SnapshotStartMsg)
  | FSnapshotEnd (m : SnapshotEndMsg).

Definition decodeFeedPayload (t : MessageType) (b : list Z) : option (unit + DecodedFeedMessage) :=
  let p := kFrameHeaderSize + kMsgTypeSize in
  match t with
  | L2Delta =>
      instrumentId ← getU32 b p;
      feedSeq ← getU64 b (p + 4);
      side ← getU8 b (p + 12);
      action ← getU8 b (p + 13);
      price ← getI64 b (p + 14);
      totalQty ← getI64 b (p + 22);
      orderCount ← getU32 b (p + 30);
      Some (inr (FL2Delta
        (mkL2Delta instrumentId feedSeq side action price totalQty orderCount)))
  | L3Order =>
      instrumentId ← getU32 b p;
      feedSeq ← getU64 b (p + 4);
      action ← getU8 b (p + 12);
      orderId ← getI64 b (p + 13);
      side ← getU8 b (p + 21);
      price ← getI64 b (p + 22);
      quantity ← getI64 b (p + 30);
      remaining ← getI64 b (p + 38);
      participant ← getI64 b (p + 46);
      Some (inr (FL3Order
        (mkL3Order instrumentId feedSeq action orderId side price quantity remaining participant)))
  | L3Fill =>
      instrumentId ← getU32 b p;
      feedSeq ← getU64 b (p + 4);
      orderId ← getI64 b (p + 12);
      tradeId ← getI64 b (p + 20);
      price ← getI64 b (p + 28);
      quantity ← getI64 b (p + 36);
      remaining ← getI64 b (p + 44);
      Some (inr (FL3Fill (mkL3Fill instrumentId feedSeq orderId tradeId price quantity remaining)))
  | TradeTick =>
      instrumentId ← getU32 b p;
      feedSeq ← getU64 b (p + 4);
      tradeId ← getI64 b (p + 12);
      aggressorId ← getI64 b (p + 20);
      passiveId ← getI64 b (p + 28);
      price ← getI64 b (p + 36);
      quantity ← getI64 b (p + 44);
      aggressorSide ← getU8 b (p + 52);
      Some (inr (FTradeTick
        (mkTradeTick instrumentId feedSeq tradeId aggressorId passiveId price quantity
           aggressorSide)))
  | SnapshotStart =>
      instrumentId ← getU32 b p;
      feedSeq ← getU64 b (p + 4);
      restingOrders ← getU64 b (p + 12);
      Some (inr (FSnapshotStart (mkSnapshotStart instrumentId feedSeq restingOrders)))
  | SnapshotEnd =>
      instrumentId ← getU32 b p;
      feedSeq ← getU64 b (p + 4);
      crc32 ← getU32 b (p + 12);
      Some (inr (FSnapshotEnd (mkSnapshotEnd instrumentId feedSeq crc32)))
  | _ => Some (inl tt)
  end.

#[export] Instance feed_codec : PayloadCodec DecodedFeedMessage unit := {|
  parsePayload := decodeFeedPayload;
  errMalformed := tt;
  errUnknown := tt
|}.

Definition feedDecoderNext (d : Reassembly) : option (Reassembly * Result DecodedFeedMessage unit) :=
  next d.

#[export] Instance feed_laws : PayloadLaws DecodedFeedMessage unit.
Proof.
  split; cbn [parsePayload feed_codec]; unfold decodeFeedPayload.
  - intros t b Hb Hl. unfold frameSize, kFrameHeaderSize, kMsgTypeSize in *.
    destruct t; cbn [expectedPayloadSize] in Hl; read_all b; eauto.
  - intros t b b' Hl Hl' Ht. remember (frameSize t) as k eqn:Hk.
    unfold frameSize, kFrameHeaderSize, kMsgTypeSize in *.
    destruct t; cbn [expectedPayloadSize] in Hk; read_same b b' k; done.
Qed.

(** ** Round trip *)

Definition feedType (m : DecodedFeedMessage) : MessageType :=
  match m with
  | FL2Delta _ => L2Delta | FL3Order _ => L3Order | FL3Fill _ => L3Fill
  | FTradeTick _ => TradeTick | FSnapshotStart _ => SnapshotStart | FSnapshotEnd _ => SnapshotEnd
  end.

Definition encodeFeed (m : DecodedFeedMessage) (dst : list Z) : option (list Z * Z) :=
  match m with
  | FL2Delta m => encodeL2Delta m dst
  | FL3Order m => encodeL3Order m dst
  | FL3Fill m => encodeL3Fill m dst
  | FTradeTick m => encodeTradeTick m dst
  | FSnapshotStart m => encodeSnapshotStart m dst
  | FSnapshotEnd m => encodeSnapshotEnd m dst
  end.

Definition feedPayload (m : DecodedFeedMessage) : list Z :=
  match m with
  | FL2Delta m =>
      le 4 (l2_instrumentId m) ++ le 8 (l2_feedSeq m) ++ le 1 (l2_side m) ++ le 1 (l2_action m) ++
      le 8 (u64 (l2_price m)) ++ le 8 (u64 (l2_totalQty m)) ++ le 4 (l2_orderCount m)
  | FL3Order m =>
      le 4 (l3_instrumentId m) ++ le 8 (l3_feedSeq m) ++ le 1 (l3_action m) ++
      le 8 (u64 (l3_orderId m)) ++ le 1 (l3_side m) ++ le 8 (u64 (l3_price m)) ++
      le 8 (u64 (l3_quantity m)) ++ le 8 (u64 (l3_remaining m)) ++ le 8 (u64 (l3_participant m))
  | FL3Fill m =>
      le 4 (lf_instrumentId m) ++ le 8 (lf_feedSeq m) ++ le 8 (u64 (lf_orderId m)) ++
      le 8 (u64 (lf_tradeId m)) ++ le 8 (u64 (lf_price m)) ++ le 8 (u64 (lf_quantity m)) ++
      le 8 (u64 (lf_remaining m))
  | FTradeTick m =>
      le 4 (tt_instrumentId m) ++ le 8 (tt_feedSeq m) ++ le 8 (u64 (tt_tradeId m)) ++
      le 8 (u64 (tt_aggressorId m)) ++ le 8 (u64 (tt_passiveId m)) ++ le 8 (u64 (tt_price m)) ++
      le 8 (u64 (tt_quantity m)) ++ le 1 (tt_aggressorSide m)
  | FSnapshotStart m =>
      le 4 (ss_instrumentId m) ++ le 8 (ss_feedSeq m) ++ le 8 (ss_restingOrders m)
  | FSnapshotEnd m => le 4 (se_instrumentId m) ++ le 8 (se_feedSeq m) ++ le 4 (se_crc32 m)
  end.

Definition is_u32 (x : Z) : Prop := 0 <= x < 4294967296.

(** Fields of their declared width. *)
Definition feed_valid (m : DecodedFeedMessage) : Prop :=
  match m with
  | FL2Delta m =>
      is_u32 (l2_instrumentId m) ∧ in_u64 (l2_feedSeq m) ∧ is_byte (l2_side m) ∧
      is_byte (l2_action m) ∧ in_i64 (l2_price m) ∧ in_i64 (l2_totalQty m) ∧
      is_u32 (l2_orderCount m)
  | FL3Order m =>
      is_u32 (l3_instrumentId m) ∧ in_u64 (l3_feedSeq m) ∧ is_byte (l3_action m) ∧
      in_i64 (l3_orderId m) ∧ is_byte (l3_side m) ∧ in_i64 (l3_price m) ∧
      in_i64 (l3_quantity m) ∧ in_i64 (l3_remaining m) ∧ in_i64 (l3_participant m)
  | FL3Fill m =>
      is_u32 (lf_instrumentId m) ∧ in_u64 (lf_feedSeq m) ∧ in_i64 (lf_orderId m) ∧
      in_i64 (lf_tradeId m) ∧ in_i64 (lf_price m) ∧ in_i64 (lf_quantity m) ∧
      in_i64 (lf_remaining m)
  | FTradeTick m =>
      is_u32 (tt_instrumentId m) ∧ in_u64 (tt_feedSeq m) ∧ in_i64 (tt_tradeId m) ∧
      in_i64 (tt_aggressorId m) ∧ in_i64 (tt_passiveId m) ∧ in_i64 (tt_price m) ∧
      in_i64 (tt_quantity m) ∧ is_byte (tt_aggressorSide m)
  | FSnapshotStart m =>
      is_u32 (ss_instrumentId m) ∧ in_u64 (ss_feedSeq m) ∧ in_u64 (ss_restingOrders m)
  | FSnapshotEnd m => is_u32 (se_instrumentId m) ∧ in_u64 (se_feedSeq m) ∧ is_u32 (se_crc32 m)
  end.

#[export] Instance feed_encoder : PayloadEncoder DecodedFeedMessage unit.
Proof.
  refine (Build_PayloadEncoder _ _ feed_codec feedType feedPayload encodeFeed feed_valid _ _ _ _).
  - intros [m|m|m|m|m|m] Hv; cbn [feedPayload feedType expectedPayloadSize]; wire_len.
  - intros [m|m|m|m|m|m] Hv; cbn [feedPayload]; rewrite ?Forall_app; split_and?; auto with wire.
  - intros [m|m|m|m|m|m] dst Hv Hl; cbn [feedType feedPayload encodeFeed feed_valid] in *;
      destruct_and?; unfold encodeL2Delta, encodeL3Order, encodeL3Fill, encodeTradeTick,
        encodeSnapshotStart, encodeSnapshotEnd; encode_ok.
  - intros [m|m|m|m|m|m] rest Hv; cbn [feedType feedPayload feed_valid parsePayload feed_codec] in *;
      unfold is_u32 in *; destruct_and?; unfold decodeFeedPayload, frame;
      rewrite <- ?app_assoc; change (kFrameHeaderSize + kMsgTypeSize) with 5; repeat read_field; by destruct m.
Defined.

(** C23: market-data round trip over a byte stream.  Whatever messages the publisher
    encodes, and in reads of whatever sizes the bytes arrive, the feed decoder returns a
    prefix of exactly those messages, in order.  It returns all of them and waits for the
    next frame with an empty buffer, unless a read was of more than 189 bytes and did not
    fit its buffer: then it has given up the connection. *)
Theorem feed_roundtrip ms chunks junk reads :
  length junk = 256%nat → bytes junk → Forall feed_valid ms →
  mapM encodeFrame ms = Some chunks →
  concat reads = concat chunks →
  ∃ ms' st, receive (reassemblyNew junk) reads = Some (ms', st) ∧ ms' `prefix_of` ms ∧
    ((∃ d, st = inl d ∧ ms' = ms ∧ pending d = [] ∧ rs_terminal d = false) ∨
     st = inr None ∧ Exists (λ r, maxChunk < Z.of_nat (length r)) reads).
Proof.
  intros Hl Hj Hms Henc Hcat. apply (roundtrip_cut (PE := feed_encoder)); try done. rewrite Hcat. f_equal.
  apply (inj Some). rewrite <- Henc. apply mapM_Some_2. clear -Hms.
  induction Hms; constructor; [by apply encodeFrame_ok|done].
Qed.

Definition demoFeed : list DecodedFeedMessage :=
  [FSnapshotStart (mkSnapshotStart 1 1 2);
   FL3Order (mkL3Order 1 2 0 77 1 1005000 50 20 9);
   FL2Delta (mkL2Delta 1 3 0 2 1004900 0 0);
   FTradeTick (mkTradeTick 1 4 12 88 77 1005000 30 0);
   FSnapshotEnd (mkSnapshotEnd 1 5 4027020077)].

Definition demoFeedWire : list Z := Eval vm_compute in concat (default [] (mapM encodeFrame demoFeed)).

Lemma feed_roundtrip_witness :
  ∃ ms' st, receive (reassemblyNew (replicate 256 0)) [take 100 demoFeedWire; drop 100 demoFeedWire] = Some (ms', st) ∧
    ms' `prefix_of` demoFeed.
Proof.
  destruct (feed_roundtrip demoFeed (default [] (mapM encodeFrame demoFeed)) (replicate 256 0)
    [take 100 demoFeedWire; drop 100 demoFeedWire]) as (ms' & st & H1 & H2 & _).
  - done.
  - by apply Forall_replicate.
  - repeat constructor; vm_compute; discriminate.
  - vm_compute. reflexivity.
  - vm_compute. reflexivity.
  - exists ms', st. split; [exact H1|exact H2].
Defined.
