(* ===== verification/SpscRing.v ===== *)
(** The single-producer/single-consumer ring: [ipc/spsc_ring.hpp] and
    [ipc/blocking_producer.hpp].

    The two threads share the storage and the two cursors; each keeps a private
    cache of the other's cursor.  Every operation touches at most one variable
    the other thread writes (the acquire load of the opposite cursor), so an
    execution is an interleaving of the operations below, with the writes into a
    claimed slot as steps of their own.  The claims hold for sequentially
    consistent executions; the release/acquire pairs of the source order the slot
    accesses accordingly.

    Cursors are uint64_t and do wrap; a capacity is a power of two, at most
    2^63. *)
From Stdlib Require Import Znumtheory.
From S2P Require Import Prelude.

Section ring.
Context {T : Type} (k : Z) (Hk : 0 <= k <= 63).

Definition Capacity : Z := Z.shiftl 1 k.

Record SpscRing := mkSpsc {
  sp_storage : list T;
  sp_head : Z;
  sp_tail : Z;
  sp_cachedTail : Z;
  sp_cachedHead : Z
}.

Definition spscNew (dflt : T) : SpscRing :=
  mkSpsc (replicate (Z.to_nat Capacity) dflt) 0 0 0 0.

(** *** Producer side *)

Definition tryClaim (r : SpscRing) : SpscRing * option Z :=
  let head := sp_head r in
  let slot := Z.land head (Capacity - 1) in
  if Capacity <=? u64 (head - sp_cachedTail r) then
    let r := mkSpsc (sp_storage r) (sp_head r) (sp_tail r) (sp_tail r) (sp_cachedHead r) in
    if Capacity <=? u64 (head - sp_cachedTail r) then (r, None) else (r, Some slot)
  else (r, Some slot).

Definition writeSlot (r : SpscRing) (i : Z) (v : T) : option SpscRing :=
  st ← aset (sp_storage r) i v;
  Some (mkSpsc st (sp_head r) (sp_tail r) (sp_cachedTail r) (sp_cachedHead r)).

Definition publish (r : SpscRing) : SpscRing :=
  mkSpsc (sp_storage r) (u64 (sp_head r + 1)) (sp_tail r) (sp_cachedTail r) (sp_cachedHead r).

Definition push (r : SpscRing) (v : T) : option (SpscRing * bool) :=
  match tryClaim r with
  | (r, None) => Some (r, false)
  | (r, Some i) => r ← writeSlot r i v; Some (publish r, true)
  end.

(** One turn of [BlockingProducer::push]: done, or one more spin on a full ring. *)
Definition blockingTurn (r : SpscRing) (fullSpins : Z) (v : T) : option (SpscRing * Z * bool) :=
  match tryClaim r with
  | (r, Some i) => r ← writeSlot r i v; Some (publish r, fullSpins, true)
  | (r, None) => Some (r, u64 (fullSpins + 1), false)
  end.

(** *** Consumer side *)

Definition tryPeek (r : SpscRing) : SpscRing * option Z :=
  let tail := sp_tail r in
  let slot := Z.land tail (Capacity - 1) in
  if tail =? sp_cachedHead r then
    let r := mkSpsc (sp_storage r) (sp_head r) (sp_tail r) (sp_cachedTail r) (sp_head r) in
    if tail =? sp_cachedHead r then (r, None) else (r, Some slot)
  else (r, Some slot).

Definition readSlot (r : SpscRing) (i : Z) : option T := aget (sp_storage r) i.

Definition consume (r : SpscRing) : SpscRing :=
  mkSpsc (sp_storage r) (sp_head r) (u64 (sp_tail r + 1)) (sp_cachedTail r) (sp_cachedHead r).

Definition pop (r : SpscRing) : option (SpscRing * option T) :=
  match tryPeek r with
  | (r, None) => Some (r, None)
  | (r, Some i) => v ← readSlot r i; Some (consume r, Some v)
  end.

(** ** Executions

    [s_claimed] and [s_peeked] are the slots the two threads hold; [s_sent] and
    [s_got] record what has been published and what has been consumed.  A thread
    may write its claimed slot any number of times before it publishes, so a
    partially written element is a state of the execution; it may also give the slot
    up, which leaves no trace in the ring. *)
Record Exec := mkExec {
  s_ring : SpscRing;
  s_claimed : option Z;
  s_peeked : option Z;
  s_sent : list T;
  s_got : list T
}.

Inductive exec_step : Exec → Exec → Prop :=
  | step_claim r p sent got r' o :
      tryClaim r = (r', o) →
      exec_step (mkExec r None p sent got) (mkExec r' o p sent got)
  | step_write r i p sent got v r' :
      writeSlot r i v = Some r' →
      exec_step (mkExec r (Some i) p sent got) (mkExec r' (Some i) p sent got)
  | step_publish r i p sent got v :
      readSlot r i = Some v →
      exec_step (mkExec r (Some i) p sent got) (mkExec (publish r) None p (sent ++ [v]) got)
  | step_abandon r i p sent got :
      exec_step (mkExec r (Some i) p sent got) (mkExec r None p sent got)
  | step_peek r c sent got r' o :
      tryPeek r = (r', o) →
      exec_step (mkExec r c None sent got) (mkExec r' c o sent got)
  | step_consume r c i sent got v :
      readSlot r i = Some v →
      exec_step (mkExec r c (Some i) sent got) (mkExec (consume r) c None sent (got ++ [v])).

Inductive exec_reach (dflt : T) : Exec → Prop :=
  | reach_init : exec_reach dflt (mkExec (spscNew dflt) None None [] [])
  | reach_next s s' : exec_reach dflt s → exec_step s s' → exec_reach dflt s'.

(** ** The invariant *)

Record exec_ok (s : Exec) (ct ch : Z) : Prop := {
  ex_len : Z.of_nat (length (sp_storage (s_ring s))) = Capacity;
  ex_got : s_got s = take (length (s_got s)) (s_sent s);
  ex_slots j : Z.of_nat (length (s_got s)) <= Z.of_nat j < Z.of_nat (length (s_sent s)) →
    sp_storage (s_ring s) !! Z.to_nat (Z.of_nat j mod Capacity) = s_sent s !! j;
  ex_head : sp_head (s_ring s) = u64 (Z.of_nat (length (s_sent s)));
  ex_tail : sp_tail (s_ring s) = u64 (Z.of_nat (length (s_got s)));
  ex_ct : sp_cachedTail (s_ring s) = u64 ct;
  ex_ch : sp_cachedHead (s_ring s) = u64 ch;
  ex_ct_range : 0 <= ct <= Z.of_nat (length (s_got s))
    ∧ Z.of_nat (length (s_sent s)) <= ct + Capacity;
  ex_ch_range : Z.of_nat (length (s_got s)) <= ch <= Z.of_nat (length (s_sent s));
  ex_claimed i : s_claimed s = Some i →
    i = Z.of_nat (length (s_sent s)) mod Capacity ∧
    Z.of_nat (length (s_sent s)) < ct + Capacity;
  ex_peeked i : s_peeked s = Some i →
    i = Z.of_nat (length (s_got s)) mod Capacity ∧ Z.of_nat (length (s_got s)) < ch
}.

Lemma Capacity_pow : Capacity = 2 ^ k.
Proof using Hk. unfold Capacity. by rewrite Z.shiftl_1_l. Qed.

Lemma Capacity_pos : 0 < Capacity.
Proof using Hk. rewrite Capacity_pow. lia. Qed.

Lemma Capacity_bound : Capacity <= 9223372036854775808.
Proof using Hk.
  rewrite Capacity_pow. change 9223372036854775808 with (2 ^ 63). apply Z.pow_le_mono_r; lia.
Qed.

(** Masking a wrapped cursor gives the index of the unwrapped count. *)
Lemma mask_index n : 0 <= n → Z.land (u64 n) (Capacity - 1) = n mod Capacity.
Proof using Hk.
  intros Hn. rewrite Capacity_pow, Z.sub_1_r, <- Z.ones_equiv, Z.land_ones by lia.
  unfold u64. change 18446744073709551616 with (2 ^ 64).
  symmetry. apply Zmod_div_mod; [lia|lia|].
  exists (2 ^ (64 - k)). rewrite <- Z.pow_add_r by lia. f_equal. lia.
Qed.

(** Differences of wrapped cursors are exact while the counts are close. *)
Lemma u64_diff n m : 0 <= n - m < 18446744073709551616 → u64 (u64 n - u64 m) = n - m.
Proof.
  intros H. unfold u64. rewrite <- Zminus_mod. by apply Z.mod_small.
Qed.

Lemma u64_eq n m : 0 <= n - m < 18446744073709551616 → u64 n = u64 m → n = m.
Proof.
  intros H He. pose proof (u64_diff n m H) as Hd. rewrite He, Z.sub_diag in Hd.
  change (u64 0) with 0 in Hd. lia.
Qed.

Lemma u64_succ n : u64 (u64 n + 1) = u64 (n + 1).
Proof. unfold u64. by rewrite Zplus_mod_idemp_l. Qed.

(** Two counts less than a lap apart use different slots. *)
Lemma slot_ne n m : 0 < n - m < Capacity → n mod Capacity ≠ m mod Capacity.
Proof using Hk.
  pose proof Capacity_pos. intros H' He.
  assert (Hd : (n - m) mod Capacity = 0).
  { rewrite Zminus_mod, He, Z.sub_diag. by apply Z.mod_0_l; lia. }
  rewrite Z.mod_small in Hd; lia.
Qed.

Lemma mod_range n : 0 <= n mod Capacity < Capacity.
Proof using Hk. apply Z.mod_pos_bound, Capacity_pos. Qed.

Lemma spsc_exec_init_ok dflt : exec_ok (mkExec (spscNew dflt) None None [] []) 0 0.
Proof using Hk.
  pose proof Capacity_pos. split; cbn [s_ring s_got s_sent s_claimed s_peeked spscNew
    sp_storage sp_head sp_tail sp_cachedTail sp_cachedHead length]; try done; try lia.
  rewrite length_replicate. lia.
Qed.

(** When does the producer see a full ring, and when does the consumer see an
    empty one?  Exactly when it is: a stale cache only makes them look again. *)
Lemma spsc_tryClaim_spec s ct ch :
  exec_ok s ct ch →
  ∃ ct', (tryClaim (s_ring s)).1
      = mkSpsc (sp_storage (s_ring s)) (sp_head (s_ring s)) (sp_tail (s_ring s)) (u64 ct')
          (sp_cachedHead (s_ring s)) ∧
    ct <= ct' <= Z.of_nat (length (s_got s)) ∧
    (((tryClaim (s_ring s)).2 = None ∧
        Z.of_nat (length (s_sent s)) = Z.of_nat (length (s_got s)) + Capacity) ∨
     ((tryClaim (s_ring s)).2 = Some (Z.of_nat (length (s_sent s)) mod Capacity) ∧
        Z.of_nat (length (s_sent s)) < ct' + Capacity)).
Proof using Hk.
  intros Hs. pose proof Capacity_pos. pose proof Capacity_bound.
  destruct (ex_ct_range _ _ _ Hs) as [Hct Hct2]. destruct (ex_ch_range _ _ _ Hs) as [Hch1 Hch2].
  destruct s as [[st h t ctc chc] cl pk sent got]; cbn in *.
  pose proof (ex_head _ _ _ Hs) as Hh. pose proof (ex_tail _ _ _ Hs) as Ht.
  pose proof (ex_ct _ _ _ Hs) as Hc. cbn in Hh, Ht, Hc. subst h t ctc.
  unfold tryClaim; cbn.
  rewrite mask_index by lia. rewrite !u64_diff by lia.
  destruct (Capacity <=? _ - ct) eqn:E1; [destruct (Capacity <=? _ - Z.of_nat _) eqn:E2|].
  - exists (Z.of_nat (length got)). split; [done|]. split; [lia|]. left. split; [done|lia].
  - exists (Z.of_nat (length got)). split; [done|]. split; [lia|]. right. split; [done|lia].
  - exists ct. split; [done|]. split; [lia|]. right. split; [done|lia].
Qed.

Lemma spsc_tryPeek_spec s ct ch :
  exec_ok s ct ch →
  ∃ ch', (tryPeek (s_ring s)).1
      = mkSpsc (sp_storage (s_ring s)) (sp_head (s_ring s)) (sp_tail (s_ring s))
          (sp_cachedTail (s_ring s)) (u64 ch') ∧
    ch <= ch' <= Z.of_nat (length (s_sent s)) ∧
    (((tryPeek (s_ring s)).2 = None ∧ length (s_sent s) = length (s_got s)) ∨
     ((tryPeek (s_ring s)).2 = Some (Z.of_nat (length (s_got s)) mod Capacity) ∧
        Z.of_nat (length (s_got s)) < ch')).
Proof using Hk.
  intros Hs. pose proof Capacity_pos. pose proof Capacity_bound.
  destruct (ex_ct_range _ _ _ Hs) as [Hct Hct2]. destruct (ex_ch_range _ _ _ Hs) as [Hch1 Hch2].
  destruct s as [[st h t ctc chc] cl pk sent got]; cbn in *.
  pose proof (ex_head _ _ _ Hs) as Hh. pose proof (ex_tail _ _ _ Hs) as Ht.
  pose proof (ex_ch _ _ _ Hs) as Hc. cbn in Hh, Ht, Hc. subst h t chc.
  unfold tryPeek; cbn. rewrite mask_index by lia.
  destruct (u64 _ =? u64 ch) eqn:E1; [destruct (u64 _ =? u64 (Z.of_nat (length sent))) eqn:E2|].
  - exists (Z.of_nat (length sent)). split; [done|]. split; [lia|]. left. split; [done|].
    apply Z.eqb_eq, symmetry, u64_eq in E2; lia.
  - exists (Z.of_nat (length sent)). split; [done|]. split; [lia|]. right. split; [done|].
    destruct (decide (length sent = length got)) as [Heq|]; [|lia].
    rewrite Heq, Z.eqb_refl in E2. done.
  - exists ch. split; [done|]. split; [lia|]. right. split; [done|].
    destruct (decide (ch = Z.of_nat (length got))) as [Heq|]; [|lia].
    rewrite Heq, Z.eqb_refl in E1. done.
Qed.

(** Writing the claimed slot touches no slot between the cursors. *)
Lemma spsc_write_ok r i p sent got v r' ct ch :
  exec_ok (mkExec r (Some i) p sent got) ct ch → writeSlot r i v = Some r' →
  exec_ok (mkExec r' (Some i) p sent got) ct ch.
Proof using Hk.
  intros Hs Hw. unfold writeSlot in Hw. destruct (aset _ i v) as [st|] eqn:Ha; [|done].
  injection Hw as <-. apply aset_Some in Ha as [Hi ->].
  destruct (ex_claimed _ _ _ Hs i eq_refl) as [Hi' Hlt].
  destruct (ex_ct_range _ _ _ Hs) as [Hct Hct2].
  destruct Hs; cbn in *. split; cbn; try done.
  - by rewrite length_insert.
  - intros j Hj. rewrite list_lookup_insert_ne; [by apply ex_slots0|].
    assert (i ≠ Z.of_nat j mod Capacity).
    { rewrite Hi'. apply slot_ne. lia. }
    pose proof (mod_range (Z.of_nat j)). lia.
Qed.

Lemma spsc_publish_ok r i p sent got v ct ch :
  exec_ok (mkExec r (Some i) p sent got) ct ch → readSlot r i = Some v →
  exec_ok (mkExec (publish r) None p (sent ++ [v]) got) ct ch.
Proof using Hk.
  intros Hs Hr. apply aget_Some in Hr as [_ Hr].
  destruct (ex_claimed _ _ _ Hs i eq_refl) as [Hi Hlt].
  destruct (ex_ch_range _ _ _ Hs) as [Hch1 Hch2].
  destruct Hs; cbn in *. split; cbn; rewrite ?length_app; cbn [length]; try done; try lia.
  - rewrite take_app_le by lia. done.
  - intros j Hj. destruct (decide (j = length sent)) as [->|].
    + rewrite lookup_app_r, Nat.sub_diag by lia. by rewrite <- Hi.
    + rewrite lookup_app_l by lia. apply ex_slots0. lia.
  - rewrite ex_head0, u64_succ. f_equal. lia.
Qed.

Lemma spsc_consume_ok r c i sent got v ct ch :
  exec_ok (mkExec r c (Some i) sent got) ct ch → readSlot r i = Some v →
  sent !! length got = Some v ∧
  exec_ok (mkExec (consume r) c None sent (got ++ [v])) ct ch.
Proof using Hk.
  intros Hs Hr. apply aget_Some in Hr as [_ Hr].
  destruct (ex_peeked _ _ _ Hs i eq_refl) as [Hi Hlt].
  destruct (ex_ch_range _ _ _ Hs) as [Hch1 Hch2].
  destruct Hs; cbn in *.
  assert (Hv : sent !! length got = Some v) by (rewrite <- ex_slots0, <- Hi by lia; done).
  split; [done|]. split; cbn; rewrite ?length_app; cbn [length]; try done; try lia.
  - rewrite Nat.add_1_r. rewrite (take_S_r _ _ v Hv). by rewrite <- ex_got0.
  - intros j Hj. apply ex_slots0. lia.
  - rewrite ex_tail0, u64_succ. f_equal. lia.
Qed.

Lemma spsc_step_ok s s' : exec_step s s' → (∃ ct ch, exec_ok s ct ch) → ∃ ct ch, exec_ok s' ct ch.
Proof using Hk.
  intros Hst (ct & ch & Hs).
  destruct Hst as [r p sent got r' o Ho|r i p sent got v r' Hw|r i p sent got v Hr|r i p sent got
    |r c sent got r' o Ho|r c i sent got v Hr].
  - destruct (spsc_tryClaim_spec _ _ _ Hs) as (ct' & H1 & Hct & H2). cbn in H1, H2, Hct.
    rewrite Ho in H1, H2. cbn in H1, H2. subst r'. exists ct', ch.
    destruct (ex_ct_range _ _ _ Hs) as [Hc1 Hc2].
    destruct Hs; cbn in *. split; cbn; try done; try lia.
    intros i ->. destruct H2 as [[? _]|[[= ->] ?]]; [done|]. split; [done|lia].
  - exists ct, ch. by eapply spsc_write_ok.
  - exists ct, ch. by eapply spsc_publish_ok.
  - exists ct, ch. destruct Hs; cbn in *. by split.
  - destruct (spsc_tryPeek_spec _ _ _ Hs) as (ch' & H1 & Hct & H2). cbn in H1, H2, Hct.
    rewrite Ho in H1, H2. cbn in H1, H2. subst r'. exists ct, ch'.
    destruct (ex_ch_range _ _ _ Hs) as [Hc1 Hc2].
    destruct Hs; cbn in *. split; cbn; try done; try lia.
    intros i ->. destruct H2 as [[? _]|[[= ->] ?]]; [done|]. split; [done|lia].
  - exists ct, ch. by eapply spsc_consume_ok.
Qed.

Lemma spsc_exec_reach_ok dflt s : exec_reach dflt s → ∃ ct ch, exec_ok s ct ch.
Proof using Hk.
  induction 1 as [|s s' _ IH Hst]; [exists 0, 0; apply spsc_exec_init_ok|by eapply spsc_step_ok].
Qed.

(** C19: the ring is a bounded FIFO under every interleaving of its two threads.
    What has been consumed is a prefix of what has been published, at most
    [Capacity] elements are in flight, the slot the consumer holds contains the
    next element and is never the slot the producer is writing, both accesses
    stay inside the storage, a claim fails exactly when the ring is full and a
    peek fails exactly when it is empty, whatever the private cursor caches hold
    and although the cursors wrap. *)
Theorem spsc_fifo dflt s :
  exec_reach dflt s →
  s_got s `prefix_of` s_sent s ∧
  Z.of_nat (length (s_sent s)) <= Z.of_nat (length (s_got s)) + Capacity ∧
  (∀ i, s_peeked s = Some i →
     readSlot (s_ring s) i = s_sent s !! length (s_got s) ∧
     (length (s_got s) < length (s_sent s))%nat ∧ s_claimed s ≠ Some i) ∧
  (∀ i v, s_claimed s = Some i → is_Some (writeSlot (s_ring s) i v)) ∧
  ((tryClaim (s_ring s)).2 = None ↔
     Z.of_nat (length (s_sent s)) = Z.of_nat (length (s_got s)) + Capacity) ∧
  ((tryPeek (s_ring s)).2 = None ↔ s_got s = s_sent s).
Proof using Hk.
  intros (ct & ch & Hs)%spsc_exec_reach_ok.
  pose proof Capacity_pos as Hpos.
  destruct (ex_ct_range _ _ _ Hs) as [Hct Hct2]. destruct (ex_ch_range _ _ _ Hs) as [Hch1 Hch2].
  split_and!.
  - exists (drop (length (s_got s)) (s_sent s)). rewrite (ex_got _ _ _ Hs) at 1.
    by rewrite take_drop.
  - lia.
  - intros i Hi. destruct (ex_peeked _ _ _ Hs i Hi) as [-> Hlt]. split_and!; [|lia|].
    + unfold readSlot. rewrite <- (ex_slots _ _ _ Hs) by lia.
      rewrite <- (Z2Nat.id (_ mod _)) at 1 by apply mod_range. apply aget_nat.
    + intros [Heq Hlt2]%(ex_claimed _ _ _ Hs).
      by apply (slot_ne (Z.of_nat (length (s_sent s))) (Z.of_nat (length (s_got s)))); [lia|].
  - intros i v [-> _]%(ex_claimed _ _ _ Hs). unfold writeSlot.
    rewrite aset_in by (rewrite (ex_len _ _ _ Hs); apply mod_range). by eexists.
  - destruct (spsc_tryClaim_spec s ct ch Hs) as (ct' & _ & Hr & [[-> ?]|[-> ?]]); split; try done; lia.
  - destruct (spsc_tryPeek_spec s ct ch Hs) as (ch' & _ & Hr & [[-> Hl]|[-> Hl]]); split; try done.
    + intros _. rewrite (ex_got _ _ _ Hs), <- Hl. by rewrite firstn_all.
    + intros Heq. rewrite Heq in Hl. lia.
Qed.
End ring.
Arguments SpscRing : clear implicits.
Arguments Exec : clear implicits.

(** ** A concrete execution, with two slots

    The producer publishes 5 and 6 and finds the ring full; the consumer takes 5
    and holds the slot of 6. *)
Definition demoRing : SpscRing Z := mkSpsc [5; 6] 2 1 0 2.
Definition demoExec : Exec Z := mkExec demoRing None (Some 1) [5; 6] [5].

Lemma demoExec_reach : exec_reach 1 0 demoExec.
Proof.
  eapply reach_next; [|apply (step_peek 1 (mkSpsc [5; 6] 2 1 0 2)); reflexivity].
  eapply reach_next; [|apply (step_consume 1 (mkSpsc [5; 6] 2 0 0 2) None 0 _ [] 5); reflexivity].
  eapply reach_next; [|apply (step_peek 1 (mkSpsc [5; 6] 2 0 0 0)); reflexivity].
  eapply reach_next; [|apply (step_claim 1 (mkSpsc [5; 6] 2 0 0 0)); reflexivity].
  eapply reach_next; [|apply (step_publish 1 (mkSpsc [5; 6] 1 0 0 0) 1 _ [5] _ 6); reflexivity].
  eapply reach_next; [|apply (step_write 1 (mkSpsc [5; 0] 1 0 0 0) _ _ _ _ 6); reflexivity].
  eapply reach_next; [|apply (step_claim 1 (mkSpsc [5; 0] 1 0 0 0)); reflexivity].
  eapply reach_next; [|apply (step_publish 1 (mkSpsc [5; 0] 0 0 0 0) 0 _ [] _ 5); reflexivity].
  eapply reach_next; [|apply (step_write 1 (mkSpsc [0; 0] 0 0 0 0) _ _ _ _ 5); reflexivity].
  eapply reach_next; [|apply (step_claim 1 (mkSpsc [0; 0] 0 0 0 0)); reflexivity].
  exact (reach_init 1 0).
Qed.

Lemma spsc_fifo_witness : readSlot demoRing 1 = Some 6 ∧ (tryPeek 1 demoRing).2 ≠ None.
Proof.
  destruct (spsc_fifo 1 ltac:(lia) 0 demoExec demoExec_reach) as (_ & _ & Hp & _ & _ & He).
  split; [apply (Hp 1 eq_refl)|]. intros H%He. discriminate.
Defined.
