(* ===== verification/MulticastRing.v ===== *)
(** The multi-consumer outbound ring: [ipc/multicast_ring.hpp].

    One producer, [N] consumers with their own cursors.  Consumers in
    [GatingMask] hold the producer back; the others may be lapped and use the
    copy-then-validate read [tryPeekChecked].  An element is a list of words that
    are written and copied one by one, so that a torn copy is possible in the
    model.

    The operations that look at more than one variable another thread writes
    (the scan over the consumers' cursors, the two head checks around a copy) are
    split into the steps between those accesses.  The per-consumer arrays
    [tails_], [cachedHead_] and [lappedCounts_] are one list of [Cursor]s.
    Cursors are uint64_t; an execution publishes fewer than 2^64 elements. *)
From stdpp Require Import sorting.
From S2P Require Import Prelude.

Section ring.
Context {W : Type}.
Context (Capacity : Z) (words : nat) (GatingMask : Z).

Record Cursor := mkCursor { c_tail : Z; c_cachedHead : Z; c_lapped : Z }.

Record MulticastRing := mkMulticast {
  mc_storage : list (list W);
  mc_head : Z;
  mc_cachedMinTail : Z;
  mc_cursors : list Cursor
}.

Definition multicastNew (N : nat) (dflt : list W) : MulticastRing :=
  mkMulticast (replicate (Z.to_nat Capacity) dflt) 0 0 (replicate N (mkCursor 0 0 0)).

Definition slotOf (n : Z) : Z := Z.land n (Capacity - 1).

Definition gating (i : nat) : bool := negb (Z.land GatingMask (Z.shiftl 1 (Z.of_nat i)) =? 0).

Definition UINT64_MAX : Z := 18446744073709551615.

(** [minConsumerCursor] on the cursor values its loop has loaded, from index
    [i]. *)
Fixpoint minLoop (i : nat) (obs : list Z) (m : Z) : Z :=
  match obs with
  | [] => m
  | t :: obs' => minLoop (S i) obs' (if gating i then Z.min m t else m)
  end.

Definition minConsumerCursor (obs : list Z) (head : Z) : Z :=
  let m := minLoop 0 obs UINT64_MAX in
  if m =? UINT64_MAX then head else m.

(** [tryClaim]: the check against the cached minimum, and the check after the
    scan has observed [obs]. *)
Definition looksFull (r : MulticastRing) : bool :=
  Capacity <=? u64 (mc_head r - mc_cachedMinTail r).

Definition rescan (r : MulticastRing) (obs : list Z) : MulticastRing :=
  mkMulticast (mc_storage r) (mc_head r) (minConsumerCursor obs (mc_head r)) (mc_cursors r).

Definition tryClaim (r : MulticastRing) : MulticastRing * option Z :=
  if looksFull r then
    let r := rescan r (c_tail <$> mc_cursors r) in
    if looksFull r then (r, None) else (r, Some (slotOf (mc_head r)))
  else (r, Some (slotOf (mc_head r))).

Definition writeWord (r : MulticastRing) (j : nat) (w : W) : option MulticastRing :=
  el ← aget (mc_storage r) (slotOf (mc_head r));
  st ← aset (mc_storage r) (slotOf (mc_head r)) (<[j := w]> el);
  Some (mkMulticast st (mc_head r) (mc_cachedMinTail r) (mc_cursors r)).

Definition publish (r : MulticastRing) : MulticastRing :=
  mkMulticast (mc_storage r) (u64 (mc_head r + 1)) (mc_cachedMinTail r) (mc_cursors r).

Definition setCursor (r : MulticastRing) (i : nat) (c : Cursor) : MulticastRing :=
  mkMulticast (mc_storage r) (mc_head r) (mc_cachedMinTail r) (<[i := c]> (mc_cursors r)).

(** The emptiness check both kinds of peek start with: refresh the cached head
    when it says there is nothing. *)
Definition peekStart (r : MulticastRing) (i : nat) : option (MulticastRing * bool) :=
  c ← mc_cursors r !! i;
  if c_tail c =? c_cachedHead c then
    let c := mkCursor (c_tail c) (mc_head r) (c_lapped c) in
    Some (setCursor r i c, negb (c_tail c =? c_cachedHead c))
  else Some (r, true).

(** The slot a peek returns a pointer to. *)
Definition readSlot (r : MulticastRing) (i : nat) : option (list W) :=
  c ← mc_cursors r !! i; aget (mc_storage r) (slotOf (c_tail c)).

Definition consume (r : MulticastRing) (i : nat) : option MulticastRing :=
  c ← mc_cursors r !! i;
  Some (setCursor r i (mkCursor (u64 (c_tail c + 1)) (c_cachedHead c) (c_lapped c))).

Definition lapse (r : MulticastRing) (i : nat) (newTail : Z) : option MulticastRing :=
  c ← mc_cursors r !! i;
  Some (setCursor r i (mkCursor newTail newTail (u64 (c_lapped c + 1)))).

(** [head - tail >= Capacity], on the head just loaded; [true] after a lapse. *)
Definition checkLapped (r : MulticastRing) (i : nat) : option (MulticastRing * bool) :=
  c ← mc_cursors r !! i;
  if Capacity <=? u64 (mc_head r - c_tail c)
  then r' ← lapse r i (mc_head r); Some (r', true)
  else Some (r, false).

Inductive PeekStatus := Empty | Ok (out : list W) | Lapped.

(** [tryPeekChecked] when nothing interferes between its steps. *)
Definition tryPeekChecked (r : MulticastRing) (i : nat) : option (MulticastRing * PeekStatus) :=
  '(r, some) ← peekStart r i;
  if negb some then Some (r, Empty)
  else
    '(r, lapped) ← checkLapped r i;
    if (lapped : bool) then Some (r, Lapped)
    else
      out ← readSlot r i;
      '(r, lapped) ← checkLapped r i;
      if (lapped : bool) then Some (r, Lapped) else Some (r, Ok out).

(** ** Executions *)

Inductive Producer := PIdle | PScanning (obs : list Z) | PClaimed.

(** Where a consumer is: idle; holding the pointer [tryPeek] returned; between
    the steps of [tryPeekChecked], with the words copied so far; holding a
    validated copy. *)
Inductive Consumer := CIdle | CPeeked | CCheck | CCopy (out : list W) | COk (out : list W).

(** A consumer thread and what it has been given: sequence number and element. *)
Record Thread := mkThread { th_state : Consumer; th_got : list (Z * list W) }.

Record Exec := mkExec {
  e_ring : MulticastRing;
  e_producer : Producer;
  e_threads : list Thread;
  e_sent : list (list W)
}.

Definition setThread (s : Exec) (r : MulticastRing) (i : nat) (t : Thread) : Exec :=
  mkExec r (e_producer s) (<[i := t]> (e_threads s)) (e_sent s).

Inductive exec_step : Exec → Exec → Prop :=
  | p_fast r ts sent :
      looksFull r = false →
      exec_step (mkExec r PIdle ts sent) (mkExec r PClaimed ts sent)
  | p_scan_begin r ts sent :
      looksFull r = true →
      exec_step (mkExec r PIdle ts sent) (mkExec r (PScanning []) ts sent)
  | p_scan r obs ts sent c :
      mc_cursors r !! length obs = Some c →
      exec_step (mkExec r (PScanning obs) ts sent)
        (mkExec r (PScanning (obs ++ [c_tail c])) ts sent)
  | p_scan_end r obs ts sent :
      length obs = length (mc_cursors r) →
      exec_step (mkExec r (PScanning obs) ts sent)
        (mkExec (rescan r obs) (if looksFull (rescan r obs) then PIdle else PClaimed) ts sent)
  | p_write r j w ts sent r' :
      writeWord r j w = Some r' →
      exec_step (mkExec r PClaimed ts sent) (mkExec r' PClaimed ts sent)
  | p_publish r ts sent el :
      aget (mc_storage r) (slotOf (mc_head r)) = Some el →
      Z.of_nat (length sent) + 1 < UINT64_MAX →
      exec_step (mkExec r PClaimed ts sent) (mkExec (publish r) PIdle ts (sent ++ [el]))
  | c_peek s i t r some :
      e_threads s !! i = Some t → th_state t = CIdle → gating i = true →
      peekStart (e_ring s) i = Some (r, some) →
      exec_step s (setThread s r i (mkThread (if some : bool then CPeeked else CIdle) (th_got t)))
  | c_consume s i t r c el :
      e_threads s !! i = Some t → th_state t = CPeeked →
      mc_cursors (e_ring s) !! i = Some c →
      readSlot (e_ring s) i = Some el → consume (e_ring s) i = Some r →
      exec_step s (setThread s r i (mkThread CIdle (th_got t ++ [(c_tail c, el)])))
  | c_start s i t r some :
      e_threads s !! i = Some t → th_state t = CIdle → gating i = false →
      peekStart (e_ring s) i = Some (r, some) →
      exec_step s (setThread s r i (mkThread (if some : bool then CCheck else CIdle) (th_got t)))
  | c_check1 s i t r lapped :
      e_threads s !! i = Some t → th_state t = CCheck →
      checkLapped (e_ring s) i = Some (r, lapped) →
      exec_step s (setThread s r i (mkThread (if lapped : bool then CIdle else CCopy []) (th_got t)))
  | c_copy s i t out el w :
      e_threads s !! i = Some t → th_state t = CCopy out →
      readSlot (e_ring s) i = Some el → el !! length out = Some w →
      exec_step s (setThread s (e_ring s) i (mkThread (CCopy (out ++ [w])) (th_got t)))
  | c_check2 s i t out r lapped :
      e_threads s !! i = Some t → th_state t = CCopy out → length out = words →
      checkLapped (e_ring s) i = Some (r, lapped) →
      exec_step s (setThread s r i (mkThread (if lapped : bool then CIdle else COk out) (th_got t)))
  | c_deliver s i t out r c :
      e_threads s !! i = Some t → th_state t = COk out →
      mc_cursors (e_ring s) !! i = Some c → consume (e_ring s) i = Some r →
      exec_step s (setThread s r i (mkThread CIdle (th_got t ++ [(c_tail c, out)]))).

Definition execNew (N : nat) (dflt : list W) : Exec :=
  mkExec (multicastNew N dflt) PIdle (replicate N (mkThread CIdle [])) [].

Inductive exec_reach (N : nat) (dflt : list W) : Exec → Prop :=
  | reach_init : exec_reach N dflt (execNew N dflt)
  | reach_next s s' : exec_reach N dflt s → exec_step s s' → exec_reach N dflt s'.

(** ** The invariant *)

Section invariant.
Context (k : Z) (Hk : 0 <= k <= 63) (HCap : Capacity = 2 ^ k).

Lemma mc_capacity : 0 < Capacity <= 9223372036854775808.
Proof using HCap Hk.
  rewrite HCap. split; [lia|]. change 9223372036854775808 with (2 ^ 63).
  apply Z.pow_le_mono_r; lia.
Qed.

Lemma slotOf_mod n : slotOf n = n mod Capacity.
Proof using HCap Hk.
  unfold slotOf. rewrite HCap, Z.sub_1_r, <- Z.ones_equiv. apply Z.land_ones. lia.
Qed.

Lemma slotOf_range n : 0 <= slotOf n < Capacity.
Proof using HCap Hk.
  rewrite slotOf_mod. apply Z.mod_pos_bound. pose proof mc_capacity. lia.
Qed.

Lemma slotOf_ne n m : 0 < n - m < Capacity → slotOf n ≠ slotOf m.
Proof using HCap Hk.
  pose proof mc_capacity. rewrite !slotOf_mod. intros H' He.
  assert (Hd : (n - m) mod Capacity = 0).
  { rewrite Zminus_mod, He, Z.sub_diag. apply Z.mod_0_l. lia. }
  rewrite Z.mod_small in Hd; lia.
Qed.

(** A consumer: its cursor stays between what it was given and the head; a copy
    is right up to here unless the producer has come around; a gating consumer
    has been given every element in front of its cursor, any other a
    subsequence. *)
Record consumer_ok (sent : list (list W)) (i : nat) (c : Cursor) (t : Thread) : Prop := {
  co_range : 0 <= c_tail c <= c_cachedHead c ∧ c_cachedHead c <= Z.of_nat (length sent);
  co_state :
    match th_state t with
    | CIdle => True
    | CPeeked => gating i = true ∧ c_tail c < c_cachedHead c
    | CCheck => c_tail c < c_cachedHead c
    | CCopy out =>
        c_tail c < c_cachedHead c ∧
        (Z.of_nat (length sent) < c_tail c + Capacity →
          ∃ el, sent !! Z.to_nat (c_tail c) = Some el ∧ out = take (length out) el)
    | COk out => c_tail c < c_cachedHead c ∧ sent !! Z.to_nat (c_tail c) = Some out
    end;
  co_got : Forall (λ p, 0 <= p.1 < c_tail c ∧ sent !! Z.to_nat p.1 = Some p.2) (th_got t);
  co_sorted : StronglySorted Z.lt (th_got t).*1;
  co_all : gating i = true → (th_got t).*2 = take (Z.to_nat (c_tail c)) sent;
  co_mode : gating i = true → th_state t = CIdle ∨ th_state t = CPeeked
}.

Record mc_ok (s : Exec) : Prop := {
  mo_len : Z.of_nat (length (mc_storage (e_ring s))) = Capacity;
  mo_words : Forall (λ el, length el = words) (mc_storage (e_ring s));
  mo_sent : Forall (λ el, length el = words) (e_sent s);
  mo_head : mc_head (e_ring s) = Z.of_nat (length (e_sent s));
  mo_fits : Z.of_nat (length (e_sent s)) < UINT64_MAX;
  mo_slots j : 0 <= j → Z.of_nat (length (e_sent s)) - Capacity <= j < Z.of_nat (length (e_sent s)) →
    (e_producer s = PClaimed → Z.of_nat (length (e_sent s)) - Capacity < j) →
    mc_storage (e_ring s) !! Z.to_nat (slotOf j) = e_sent s !! Z.to_nat j;
  mo_min : 0 <= mc_cachedMinTail (e_ring s) <= Z.of_nat (length (e_sent s)) ∧
    Z.of_nat (length (e_sent s)) <= mc_cachedMinTail (e_ring s) + Capacity;
  mo_claim : e_producer s = PClaimed →
    Z.of_nat (length (e_sent s)) < mc_cachedMinTail (e_ring s) + Capacity;
  mo_gate i c : mc_cursors (e_ring s) !! i = Some c → gating i = true →
    mc_cachedMinTail (e_ring s) <= c_tail c;
  mo_scan obs : e_producer s = PScanning obs →
    (length obs <= length (mc_cursors (e_ring s)))%nat ∧
    ∀ i t c, obs !! i = Some t → mc_cursors (e_ring s) !! i = Some c → gating i = true →
      mc_cachedMinTail (e_ring s) <= t <= c_tail c;
  mo_threads : length (e_threads s) = length (mc_cursors (e_ring s));
  mo_cons i c t : mc_cursors (e_ring s) !! i = Some c → e_threads s !! i = Some t →
    consumer_ok (e_sent s) i c t
}.

(** What the scan over the cursors returns. *)
Lemma minLoop_spec i obs m :
  minLoop i obs m <= m ∧
  (∀ j t, obs !! j = Some t → gating (i + j) = true → minLoop i obs m <= t) ∧
  (minLoop i obs m = m ∨ ∃ j t, obs !! j = Some t ∧ gating (i + j) = true ∧ minLoop i obs m = t).
Proof.
  revert i m. induction obs as [|t obs IH]; intros i m; cbn [minLoop].
  { split; [lia|]. split; [|by left]. intros j t. by rewrite lookup_nil. }
  destruct (IH (S i) (if gating i then Z.min m t else m)) as (H1 & H2 & H3). split; [|split].
  - case_match; lia.
  - intros [|j] t' Hj Hg; cbn in Hj.
    + rewrite Nat.add_0_r in Hg. rewrite Hg in *. simplify_eq. lia.
    + apply (H2 j); [done|]. by replace (S i + j)%nat with (i + S j)%nat by lia.
  - destruct H3 as [H3|(j & t' & Hj & Hg & He)].
    + destruct (gating i) eqn:Hg; [|by left].
      destruct (Z.min_spec m t) as [[_ Hm]|[_ Hm]]; rewrite Hm in H3 at 2; [by left|].
      right. exists 0%nat, t. rewrite Nat.add_0_r. done.
    + right. exists (S j), t'. by replace (i + S j)%nat with (S i + j)%nat by lia.
Qed.

(** A step of consumer [i] that moves its cursor forward. *)
Lemma thread_ok s i c t c' t' :
  mc_ok s → mc_cursors (e_ring s) !! i = Some c → e_threads s !! i = Some t →
  c_tail c <= c_tail c' → consumer_ok (e_sent s) i c' t' →
  mc_ok (setThread s (setCursor (e_ring s) i c') i t').
Proof.
  intros Hs Hc Ht Hle Hok. destruct Hs. destruct s as [r p ts sent]; cbn in *.
  split; cbn; try done.
  - intros j cj Hj Hg. destruct (decide (i = j)) as [<-|].
    + rewrite list_lookup_insert_eq in Hj by (by eapply lookup_lt_Some). simplify_eq.
      pose proof (mo_gate0 i c Hc Hg). lia.
    + rewrite list_lookup_insert_ne in Hj by done. by eapply mo_gate0.
  - intros obs Hobs. rewrite length_insert. destruct (mo_scan0 obs Hobs) as [Hl Hsc].
    split; [done|]. intros j tj cj Hj Hcj Hg. destruct (decide (i = j)) as [<-|].
    + rewrite list_lookup_insert_eq in Hcj by (by eapply lookup_lt_Some). simplify_eq.
      pose proof (Hsc i tj c Hj Hc Hg). lia.
    + rewrite list_lookup_insert_ne in Hcj by done. by eapply Hsc.
  - by rewrite !length_insert.
  - intros j cj tj Hcj Htj. destruct (decide (i = j)) as [<-|].
    + rewrite list_lookup_insert_eq in Hcj by (by eapply lookup_lt_Some).
      rewrite list_lookup_insert_eq in Htj by (by eapply lookup_lt_Some). by simplify_eq.
    + rewrite list_lookup_insert_ne in Hcj by done.
      rewrite list_lookup_insert_ne in Htj by done. by apply mo_cons0.
Qed.

Lemma setCursor_id r i c : mc_cursors r !! i = Some c → setCursor r i c = r.
Proof. intros Hc. destruct r; unfold setCursor; cbn in *. by rewrite list_insert_id. Qed.

(** The slot of an element that is not more than a lap old. *)
Lemma readSlot_ok s i c :
  mc_ok s → mc_cursors (e_ring s) !! i = Some c →
  0 <= c_tail c < Z.of_nat (length (e_sent s)) →
  (Z.of_nat (length (e_sent s)) <= c_tail c + Capacity) →
  (e_producer s = PClaimed → Z.of_nat (length (e_sent s)) < c_tail c + Capacity) →
  readSlot (e_ring s) i = e_sent s !! Z.to_nat (c_tail c).
Proof using HCap Hk.
  intros Hs Hc Hr Hl Hcl. unfold readSlot. rewrite Hc. simpl_bind.
  rewrite <- (mo_slots _ Hs); [|lia|lia|intros Hp; specialize (Hcl Hp); lia].
  rewrite <- (Z2Nat.id (slotOf _)) at 1 by apply slotOf_range. apply aget_nat.
Qed.

Lemma gating_slot s i c t :
  mc_ok s → mc_cursors (e_ring s) !! i = Some c → e_threads s !! i = Some t →
  th_state t = CPeeked →
  readSlot (e_ring s) i = e_sent s !! Z.to_nat (c_tail c) ∧
  0 <= c_tail c < Z.of_nat (length (e_sent s)) ∧
  (e_producer s = PClaimed → slotOf (c_tail c) ≠ slotOf (mc_head (e_ring s))).
Proof using HCap Hk.
  intros Hs Hc Ht Hst. pose proof (mo_cons _ Hs i c t Hc Ht) as Hok.
  pose proof (co_state _ _ _ _ Hok) as Hstate. rewrite Hst in Hstate.
  destruct Hstate as [Hg Hlt]. destruct (co_range _ _ _ _ Hok) as [Hr1 Hr2].
  pose proof (mo_gate _ Hs i c Hc Hg) as Hgate. destruct (mo_min _ Hs) as [Hm1 Hm2].
  split; [|split].
  - apply readSlot_ok; [done|done|lia|lia|]. intros Hcl. apply (mo_claim _ Hs) in Hcl. lia.
  - lia.
  - intros Hcl. apply (mo_claim _ Hs) in Hcl. apply not_eq_sym, slotOf_ne.
    rewrite (mo_head _ Hs). lia.
Qed.

(** *** Producer steps *)

Lemma multicastNew_ok N dflt : length dflt = words → mc_ok (execNew N dflt).
Proof using HCap Hk.
  intros Hd. pose proof mc_capacity. split; cbn; try done; try lia.
  - rewrite length_replicate. lia.
  - by apply Forall_replicate.
  - intros i c [-> _]%lookup_replicate _. done.
  - by rewrite !length_replicate.
  - intros i c t [-> _]%lookup_replicate [-> _]%lookup_replicate.
    split; cbn; try done; first [by left|apply Forall_nil_2|apply SSorted_nil].
Qed.

Lemma looksFull_spec s :
  mc_ok s →
  looksFull (e_ring s) = (Capacity <=? Z.of_nat (length (e_sent s)) - mc_cachedMinTail (e_ring s)).
Proof using HCap Hk.
  intros Hs. pose proof mc_capacity. destruct (mo_min _ Hs) as [Hm1 Hm2]. unfold looksFull.
  rewrite (mo_head _ Hs), u64_id; [done|]. split; lia.
Qed.

Lemma p_fast_ok r ts sent :
  mc_ok (mkExec r PIdle ts sent) → looksFull r = false → mc_ok (mkExec r PClaimed ts sent).
Proof using HCap Hk.
  intros Hs Hf. pose proof (looksFull_spec _ Hs) as Hfull. cbn in Hfull. rewrite Hf in Hfull.
  destruct Hs; cbn in *. split; cbn; try done.
  - intros j Hj Hr _. by apply mo_slots0.
  - intros _. lia.
Qed.

Lemma rescan_min s obs :
  mc_ok s → e_producer s = PScanning obs → length obs = length (mc_cursors (e_ring s)) →
  let m := minConsumerCursor obs (mc_head (e_ring s)) in
  mc_cachedMinTail (e_ring s) <= m <= Z.of_nat (length (e_sent s)) ∧
  ∀ i c, mc_cursors (e_ring s) !! i = Some c → gating i = true → m <= c_tail c.
Proof.
  intros Hs Hp Hl. destruct (mo_scan _ Hs obs Hp) as [_ Hsc]. cbv zeta. unfold minConsumerCursor.
  destruct (minLoop_spec 0 obs UINT64_MAX) as (H1 & H2 & H3).
  assert (Hmin : ∀ i c, mc_cursors (e_ring s) !! i = Some c → gating i = true →
    ∃ t, obs !! i = Some t ∧ minLoop 0 obs UINT64_MAX <= t ∧
      mc_cachedMinTail (e_ring s) <= t <= c_tail c ∧ c_tail c <= Z.of_nat (length (e_sent s))).
  { intros i c Hc Hg. destruct (lookup_lt_is_Some_2 obs i) as [t Ht].
    { rewrite Hl. by eapply lookup_lt_Some. }
    destruct (lookup_lt_is_Some_2 (e_threads s) i) as [th Hth].
    { rewrite (mo_threads _ Hs). by eapply lookup_lt_Some. }
    destruct (co_range _ _ _ _ (mo_cons _ Hs i c th Hc Hth)).
    exists t. split_and!; [done|by apply (H2 i)|by eapply Hsc|by eapply Hsc|lia]. }
  pose proof (mo_fits _ Hs) as Hfits. destruct (mo_min _ Hs) as [Hm1 Hm2].
  rewrite (mo_head _ Hs).
  destruct (minLoop 0 obs UINT64_MAX =? UINT64_MAX) eqn:E.
  - split; [lia|]. intros i c Hc Hg. destruct (Hmin i c Hc Hg) as (t & _ & ? & ? & ?). lia.
  - destruct H3 as [H3|(j & t & Hj & Hg & He)]; [lia|]. split.
    + destruct (lookup_lt_is_Some_2 (mc_cursors (e_ring s)) j) as [c Hc].
      { rewrite <- Hl. by eapply lookup_lt_Some. }
      destruct (Hmin j c Hc Hg) as (t' & Ht' & ? & ? & ?). simplify_eq. lia.
    + intros i c Hc Hg'. destruct (Hmin i c Hc Hg') as (t' & _ & ? & ? & ?). lia.
Qed.

Lemma p_scan_end_ok r obs ts sent :
  mc_ok (mkExec r (PScanning obs) ts sent) → length obs = length (mc_cursors r) →
  mc_ok (mkExec (rescan r obs) (if looksFull (rescan r obs) then PIdle else PClaimed) ts sent).
Proof using HCap Hk.
  intros Hs Hl. destruct (rescan_min _ obs Hs eq_refl Hl) as [Hm Hg]. cbn in Hm, Hg.
  assert (Hidle : mc_ok (mkExec (rescan r obs) PIdle ts sent)).
  { destruct Hs; cbn in *. split; cbn; try done; [|lia].
    intros j Hj Hr _. by apply mo_slots0. }
  destruct (looksFull (rescan r obs)) eqn:E; [done|]. by apply p_fast_ok.
Qed.

Lemma p_scan_begin_ok r ts sent :
  mc_ok (mkExec r PIdle ts sent) → mc_ok (mkExec r (PScanning []) ts sent).
Proof.
  intros Hs. destruct Hs; cbn in *. split; cbn; try done.
  - intros j Hj Hr _. by apply mo_slots0.
  - intros obs [= <-]. split; [simpl; lia|]. intros i t c. by rewrite lookup_nil.
Qed.

Lemma p_scan_step r obs ts sent c :
  mc_ok (mkExec r (PScanning obs) ts sent) → mc_cursors r !! length obs = Some c →
  mc_ok (mkExec r (PScanning (obs ++ [c_tail c])) ts sent).
Proof.
  intros Hs Hc. destruct Hs; cbn in *. destruct (mo_scan0 obs eq_refl) as [Hl Hsc].
  split; cbn; try done.
  - intros j Hj Hr _. by apply mo_slots0.
  - intros obs' [= <-]. rewrite length_app. cbn [length].
    split; [apply lookup_lt_Some in Hc; lia|]. intros i t ci Ht Hci Hg.
    apply lookup_app_Some in Ht as [Ht|[Hge Ht]]; [by eapply Hsc|].
    apply list_lookup_singleton_Some in Ht as [Hi <-].
    assert (i = length obs) as -> by lia. simplify_eq. split; [by eapply mo_gate0|lia].
Qed.

Lemma p_write_ok r j w ts sent r' :
  mc_ok (mkExec r PClaimed ts sent) → writeWord r j w = Some r' →
  mc_ok (mkExec r' PClaimed ts sent).
Proof using HCap Hk.
  intros Hs Hw. unfold writeWord in Hw. destruct (aget _ _) as [el|] eqn:Hel; [|done].
  cbn [mbind option_bind] in Hw. destruct (aset _ _ _) as [st|] eqn:Hst; [|done].
  injection Hw as <-. apply aset_Some in Hst as [Hi ->]. apply aget_Some in Hel as [_ Hel].
  destruct Hs; cbn in *. split; cbn; try done.
  - by rewrite length_insert.
  - apply Forall_insert; [done|]. rewrite length_insert. by eapply (Forall_lookup_1 _ _ _ _ mo_words0).
  - intros n Hn Hr Hcl. rewrite list_lookup_insert_ne; [by apply mo_slots0|].
    specialize (Hcl eq_refl). rewrite mo_head0.
    pose proof (slotOf_ne (Z.of_nat (length sent)) n). pose proof (slotOf_range n).
    pose proof (slotOf_range (Z.of_nat (length sent))). lia.
Qed.

Lemma consumer_grow sent el i c t :
  consumer_ok sent i c t → consumer_ok (sent ++ [el]) i c t.
Proof.
  intros [Hr Hst Hgot Hso Hall Hmo]. split; try done; rewrite ?length_app; cbn [length].
  - lia.
  - destruct (th_state t) as [| | |out|out]; try done.
    + split; [by destruct Hst|]. intros Hlt. destruct Hst as [Hlt' Hst].
      destruct Hst as (e & He & Hout); [lia|]. exists e. split; [|done].
      by apply lookup_app_l_Some.
    + destruct Hst as [? ?]. split; [done|]. by apply lookup_app_l_Some.
  - eapply Forall_impl; [exact Hgot|]. intros p [? ?]. split; [done|]. by apply lookup_app_l_Some.
  - intros Hg. rewrite take_app_le by lia. by apply Hall.
Qed.

Lemma p_publish_ok r ts sent el :
  mc_ok (mkExec r PClaimed ts sent) → aget (mc_storage r) (slotOf (mc_head r)) = Some el →
  Z.of_nat (length sent) + 1 < UINT64_MAX →
  mc_ok (mkExec (publish r) PIdle ts (sent ++ [el])).
Proof using HCap Hk.
  intros Hs Hel Hfit. apply aget_Some in Hel as [_ Hel]. pose proof mc_capacity.
  pose proof (mo_claim _ Hs eq_refl) as Hcl. destruct Hs; cbn in *. rewrite mo_head0 in Hel.
  split; cbn; rewrite ?length_app; cbn [length]; try done; try lia.
  - apply Forall_app. split; [done|]. constructor; [|done].
    by eapply (Forall_lookup_1 _ _ _ _ mo_words0).
  - rewrite mo_head0, u64_id; [lia|]. split; unfold UINT64_MAX in *; lia.
  - intros j Hj Hr _. destruct (decide (j = Z.of_nat (length sent))) as [->|].
    + rewrite lookup_app_r by lia. by rewrite Nat2Z.id, Nat.sub_diag.
    + rewrite lookup_app_l by lia. apply mo_slots0; lia.
  - intros i c t Hc Ht. apply consumer_grow. by apply mo_cons0.
Qed.

(** *** Consumer steps *)

Lemma peekStart_ok s i c t r some :
  mc_ok s → mc_cursors (e_ring s) !! i = Some c → e_threads s !! i = Some t →
  th_state t = CIdle → peekStart (e_ring s) i = Some (r, some) →
  ∃ c', r = setCursor (e_ring s) i c' ∧ c_tail c' = c_tail c ∧ consumer_ok (e_sent s) i c' t ∧
    (some = true → c_tail c' < c_cachedHead c').
Proof.
  intros Hs Hc Ht Hst. unfold peekStart. rewrite Hc. simpl_bind.
  pose proof (mo_cons _ Hs i c t Hc Ht) as Hok. destruct (co_range _ _ _ _ Hok) as [Hr1 Hr2].
  destruct (c_tail c =? c_cachedHead c) eqn:E; intros [= <- <-].
  - eexists; split; [done|]. cbn. rewrite (mo_head _ Hs). split; [done|]. split; [|lia].
    destruct Hok. split; cbn; try done; [lia|by rewrite Hst].
  - exists c. rewrite setCursor_id by done. split_and!; try done. lia.
Qed.

(** Handing an element to a consumer. *)
Lemma deliver_ok s i c t el :
  mc_ok s → mc_cursors (e_ring s) !! i = Some c → e_threads s !! i = Some t →
  c_tail c < c_cachedHead c → e_sent s !! Z.to_nat (c_tail c) = Some el →
  mc_ok (setThread s (setCursor (e_ring s) i
           (mkCursor (u64 (c_tail c + 1)) (c_cachedHead c) (c_lapped c))) i
           (mkThread CIdle (th_got t ++ [(c_tail c, el)]))).
Proof.
  intros Hs Hc Ht Hlt Hel. pose proof (mo_cons _ Hs i c t Hc Ht) as Hok.
  pose proof (mo_fits _ Hs) as Hfits. unfold UINT64_MAX in Hfits.
  destruct (co_range _ _ _ _ Hok) as [Hr1 Hr2].
  assert (Hu : u64 (c_tail c + 1) = c_tail c + 1) by (apply u64_id; split; lia).
  apply (thread_ok s i c t); [done|done|done|cbn; lia|].
  destruct Hok. split; cbn; rewrite ?Hu; try done; try lia.
  - apply Forall_app. split.
    + eapply Forall_impl; [exact co_got0|]. intros p [? ?]. split; [lia|done].
    + constructor; [|done]. cbn. split; [lia|done].
  - rewrite fmap_app. apply StronglySorted_app. split_and!; [|done|].
    + intros q q' Hq Hq'. apply list_elem_of_fmap in Hq as (p & -> & Hp).
      apply list_elem_of_singleton in Hq' as ->. cbn.
      rewrite Forall_forall in co_got0. apply co_got0 in Hp. lia.
    + apply SSorted_cons; [apply SSorted_nil|constructor].
  - intros Hg. rewrite fmap_app, co_all0 by done. cbn.
    replace (Z.to_nat (c_tail c + 1)) with (S (Z.to_nat (c_tail c))) by lia.
    by rewrite (take_S_r _ _ el).
  - by left.
Qed.

(** The two head checks: a lapse moves the cursor to the head it saw. *)
Lemma checkLapped_ok s i c t r lapped next :
  mc_ok s → mc_cursors (e_ring s) !! i = Some c → e_threads s !! i = Some t →
  gating i = false → checkLapped (e_ring s) i = Some (r, lapped) →
  (lapped = false → Z.of_nat (length (e_sent s)) < c_tail c + Capacity →
    consumer_ok (e_sent s) i c (mkThread next (th_got t))) →
  mc_ok (setThread s r i (mkThread (if lapped then CIdle else next) (th_got t))).
Proof.
  intros Hs Hc Ht Hg. unfold checkLapped. rewrite Hc. simpl_bind.
  pose proof (mo_cons _ Hs i c t Hc Ht) as Hok. destruct (co_range _ _ _ _ Hok) as [Hr1 Hr2].
  pose proof (mo_fits _ Hs) as Hfits. unfold UINT64_MAX in Hfits.
  rewrite (mo_head _ Hs), u64_id by (split; lia).
  destruct (Capacity <=? _) eqn:E.
  - unfold lapse. rewrite Hc. simpl_bind. intros [= <- <-] _.
    apply (thread_ok s i c t); [done|done|done|cbn; lia|].
    destruct Hok. split; cbn; try done; try lia; try congruence.
    eapply Forall_impl; [exact co_got0|]. intros p [? ?]. split; [lia|done].
  - intros [= <- <-] Hnext. rewrite <- (setCursor_id (e_ring s) i c) by done.
    apply (thread_ok s i c t); [done|done|done|lia|]. apply Hnext; [done|lia].
Qed.

Lemma not_gating s i c t :
  mc_ok s → mc_cursors (e_ring s) !! i = Some c → e_threads s !! i = Some t →
  th_state t ≠ CIdle → th_state t ≠ CPeeked → gating i = false.
Proof.
  intros Hs Hc Ht H1 H2. destruct (gating i) eqn:Hg; [|done].
  by destruct (co_mode _ _ _ _ (mo_cons _ Hs i c t Hc Ht) Hg).
Qed.

(** One more word of a copy. *)
Lemma copy_ok s i c t out el w :
  mc_ok s → mc_cursors (e_ring s) !! i = Some c → e_threads s !! i = Some t →
  th_state t = CCopy out → readSlot (e_ring s) i = Some el → el !! length out = Some w →
  consumer_ok (e_sent s) i c (mkThread (CCopy (out ++ [w])) (th_got t)).
Proof using HCap Hk.
  intros Hs Hc Ht Hst Hrd Hw. pose proof (mo_cons _ Hs i c t Hc Ht) as Hok.
  assert (Hg : gating i = false) by (eapply not_gating; try done; by rewrite Hst).
  pose proof (co_state _ _ _ _ Hok) as Hstate. rewrite Hst in Hstate.
  destruct Hstate as [Hlt Hcopy]. destruct (co_range _ _ _ _ Hok) as [Hr1 Hr2].
  destruct Hok. split; cbn; try done; [|congruence]. split; [done|]. intros Hnew.
  destruct (Hcopy Hnew) as (e & He & Hout).
  rewrite (readSlot_ok s i c), He in Hrd; [|done|done|lia|lia|lia]. injection Hrd as ->.
  exists el. split; [done|]. rewrite length_app, Nat.add_1_r.
  by rewrite (take_S_r _ _ w Hw), <- Hout.
Qed.

Lemma peek_step_ok s i c t r (some : bool) next :
  mc_ok s → mc_cursors (e_ring s) !! i = Some c → e_threads s !! i = Some t →
  th_state t = CIdle → peekStart (e_ring s) i = Some (r, some) →
  next = (if gating i then CPeeked else CCheck) →
  mc_ok (setThread s r i (mkThread (if some then next else CIdle) (th_got t))).
Proof.
  intros Hs Hc Ht Hti Hp ->.
  destruct (peekStart_ok s i c t r some Hs Hc Ht Hti Hp) as (c' & -> & Htl & Hok & Hsome).
  apply (thread_ok s i c t); [done|done|done|lia|].
  destruct Hok. destruct some; [|split; cbn; try done; by left].
  specialize (Hsome eq_refl).
  destruct (gating i) eqn:Hg; split; cbn; try done; try congruence; rewrite ?Hg; auto.
Qed.

Lemma check1_ok s i c t r lapped :
  mc_ok s → mc_cursors (e_ring s) !! i = Some c → e_threads s !! i = Some t →
  th_state t = CCheck → checkLapped (e_ring s) i = Some (r, lapped) →
  mc_ok (setThread s r i (mkThread (if lapped then CIdle else CCopy []) (th_got t))).
Proof.
  intros Hs Hc Ht Hti Hp.
  assert (Hg : gating i = false) by (eapply not_gating; try done; by rewrite Hti).
  apply (checkLapped_ok s i c t r lapped); try done. intros _ Hnew.
  pose proof (mo_cons _ Hs i c t Hc Ht) as Hok.
  pose proof (co_state _ _ _ _ Hok) as Hlt. rewrite Hti in Hlt.
  destruct (co_range _ _ _ _ Hok). destruct Hok. split; cbn; try done; [|congruence].
  split; [done|]. intros _.
  destruct (lookup_lt_is_Some_2 (e_sent s) (Z.to_nat (c_tail c))) as [el Hel]; [lia|].
  by exists el.
Qed.

Lemma check2_ok s i c t out r lapped :
  mc_ok s → mc_cursors (e_ring s) !! i = Some c → e_threads s !! i = Some t →
  th_state t = CCopy out → length out = words → checkLapped (e_ring s) i = Some (r, lapped) →
  mc_ok (setThread s r i (mkThread (if lapped then CIdle else COk out) (th_got t))).
Proof.
  intros Hs Hc Ht Hti Hl Hp.
  assert (Hg : gating i = false) by (eapply not_gating; try done; by rewrite Hti).
  apply (checkLapped_ok s i c t r lapped); try done. intros _ Hnew.
  pose proof (mo_cons _ Hs i c t Hc Ht) as Hok.
  pose proof (co_state _ _ _ _ Hok) as Hcp. rewrite Hti in Hcp. destruct Hcp as [Hlt Hcp].
  destruct (Hcp Hnew) as (el & Hel & Hout).
  destruct Hok. split; cbn; try done; [|congruence]. split; [done|].
  rewrite Hel. f_equal. rewrite Hout, Hl, take_ge; [done|].
  pose proof (mo_sent _ Hs) as Hws. by rewrite (Forall_lookup_1 _ _ _ _ Hws Hel).
Qed.

Lemma mc_step_ok s s' : mc_ok s → exec_step s s' → mc_ok s'.
Proof using HCap Hk.
  intros Hs Hst.
  assert (Hcur : ∀ i t, e_threads s !! i = Some t → is_Some (mc_cursors (e_ring s) !! i)).
  { intros i t Ht. apply lookup_lt_is_Some_2. rewrite <- (mo_threads _ Hs).
    by eapply lookup_lt_Some. }
  destruct Hst as [r ts sent Hf|r ts sent Hf|r obs ts sent c Hc|r obs ts sent Hl
    |r j w ts sent r' Hw|r ts sent el Hel Hfit|s i t r some Ht Hti Hg Hp
    |s i t r c el Ht Hti Hc Hel Hr|s i t r some Ht Hti Hg Hp|s i t r lapped Ht Hti Hp
    |s i t out el w Ht Hti Hrd Hw|s i t out r lapped Ht Hti Hl Hp|s i t out r c Ht Hti Hc Hr];
    try (destruct (Hcur i t Ht) as [ci Hci]).
  - by apply p_fast_ok.
  - by apply p_scan_begin_ok.
  - by apply p_scan_step.
  - by apply p_scan_end_ok.
  - by eapply p_write_ok.
  - by apply p_publish_ok.
  - apply (peek_step_ok s i ci); try done. by rewrite Hg.
  - destruct (gating_slot s i c t Hs Hc Ht Hti) as (Hrd & Hr1 & _). rewrite Hel in Hrd.
    unfold consume in Hr. rewrite Hc in Hr. injection Hr as <-. apply deliver_ok; try done.
    pose proof (co_state _ _ _ _ (mo_cons _ Hs i c t Hc Ht)) as H. rewrite Hti in H. apply H.
  - apply (peek_step_ok s i ci); try done. by rewrite Hg.
  - by apply (check1_ok s i ci).
  - rewrite <- (setCursor_id (e_ring s) i ci) at 1 by done.
    apply (thread_ok s i ci t); [done|done|done|lia|]. by eapply copy_ok.
  - by apply (check2_ok s i ci).
  - unfold consume in Hr. rewrite Hc in Hr. injection Hr as <-.
    pose proof (co_state _ _ _ _ (mo_cons _ Hs i c t Hc Ht)) as H. rewrite Hti in H.
    destruct H. by apply deliver_ok.
Qed.

Lemma mc_reach_ok N dflt s : length dflt = words → exec_reach N dflt s → mc_ok s.
Proof using HCap Hk.
  intros Hd. induction 1; [by apply multicastNew_ok|]. by eapply mc_step_ok.
Qed.

(** C20: the outbound ring under every (sequentially consistent) interleaving of the
    producer and its consumers.  A gating consumer is handed every published element, in
    order, and the slot it holds is never the one being written.  A non-gating consumer is
    handed a subsequence in publication order, and every element it is handed is exactly the
    one published under that number: a copy the producer may have torn is never returned.
    The producer is refused a slot only because a gating consumer was seen a full lap
    behind. *)
Theorem multicast_delivery N dflt s :
  length dflt = words → exec_reach N dflt s →
  (∀ i c t, mc_cursors (e_ring s) !! i = Some c → e_threads s !! i = Some t →
    Forall (λ p, e_sent s !! Z.to_nat p.1 = Some p.2) (th_got t) ∧
    StronglySorted Z.lt (th_got t).*1 ∧
    (gating i = true → (th_got t).*2 = take (Z.to_nat (c_tail c)) (e_sent s)) ∧
    (th_state t = CPeeked →
      readSlot (e_ring s) i = e_sent s !! Z.to_nat (c_tail c) ∧
      (e_producer s = PClaimed → slotOf (c_tail c) ≠ slotOf (mc_head (e_ring s))))) ∧
  (∀ obs, e_producer s = PScanning obs → length obs = length (mc_cursors (e_ring s)) →
    looksFull (rescan (e_ring s) obs) = true →
    ∃ i t, obs !! i = Some t ∧ gating i = true ∧ t + Capacity <= mc_head (e_ring s)).
Proof using HCap Hk.
  intros Hd Hs%mc_reach_ok; [|done]. split.
  - intros i c t Hc Ht. pose proof (mo_cons _ Hs i c t Hc Ht) as Hok. split_and!.
    + eapply Forall_impl; [apply (co_got _ _ _ _ Hok)|]. by intros p [_ ?].
    + apply (co_sorted _ _ _ _ Hok).
    + apply (co_all _ _ _ _ Hok).
    + intros Hst. destruct (gating_slot s i c t Hs Hc Ht Hst) as (? & _ & ?). done.
  - intros obs Hp Hl Hfull. destruct (rescan_min s obs Hs Hp Hl) as [Hm _].
    pose proof (mo_fits _ Hs) as Hf. destruct (mo_min _ Hs) as [Hmin _].
    pose proof mc_capacity. unfold looksFull, rescan in Hfull; cbn in Hfull, Hm.
    rewrite (mo_head _ Hs) in *. unfold UINT64_MAX in Hf.
    rewrite u64_id in Hfull by (split; lia).
    unfold minConsumerCursor in *.
    destruct (minLoop 0 obs UINT64_MAX =? UINT64_MAX) eqn:E; [lia|].
    destruct (minLoop_spec 0 obs UINT64_MAX) as (_ & _ & [H3|(j & t & Hj & Hg & He)]); [lia|].
    exists j, t. split_and!; [done|done|lia].
Qed.
End invariant.
End ring.
Arguments MulticastRing : clear implicits.
Arguments Exec : clear implicits.
Arguments PeekStatus : clear implicits.

(** ** A concrete execution: two slots of two words, consumer 0 gating

    The producer publishes one element; consumer 1 copies and validates it;
    consumer 0 holds the pointer to it. *)
Section demo.
Definition demoMc (st : list (list Z)) (head : Z) (c0 c1 : Cursor) : MulticastRing Z :=
  mkMulticast st head 0 [c0; c1].
Definition demoSt (r : MulticastRing Z) (p : Producer) (t0 t1 : Thread) (sent : list (list Z)) :=
  mkExec r p [t0; t1] sent.

Definition demoMcExec : Exec Z :=
  demoSt (demoMc [[7; 8]; [0; 0]] 1 (mkCursor 0 1 0) (mkCursor 1 1 0)) PIdle
    (mkThread CPeeked []) (mkThread CIdle [(0, [7; 8])]) [[7; 8]].

Let c00 := mkCursor 0 0 0.
Let c01 := mkCursor 0 1 0.
Let idle : Thread := mkThread CIdle (W := Z) [].
Let mid (t : Consumer (W := Z)) : Exec Z :=
  demoSt (demoMc [[7; 8]; [0; 0]] 1 c00 c01) PIdle idle (mkThread t []) [[7; 8]].

Lemma demo_via s s1 s' :
  exec_reach 2 2 1 2 [0; 0] s → exec_step 2 2 1 s s1 → s1 = s' → exec_reach 2 2 1 2 [0; 0] s'.
Proof. intros Hr Hst <-. by eapply reach_next. Qed.

Lemma demoMc_reach : exec_reach 2 2 1 2 [0; 0] demoMcExec.
Proof.
  eapply (demo_via (demoSt (demoMc [[7; 8]; [0; 0]] 1 c00 (mkCursor 1 1 0)) PIdle
    idle (mkThread CIdle [(0, [7; 8])]) [[7; 8]]));
    [|eapply (c_peek 2 2 1 _ 0 idle _ true); reflexivity|reflexivity].
  eapply (demo_via (mid (COk [7; 8])));
    [|eapply (c_deliver 2 2 1 _ 1 _ [7; 8] _ c01); reflexivity|reflexivity].
  eapply (demo_via (mid (CCopy [7; 8])));
    [|eapply (c_check2 2 2 1 _ 1 _ [7; 8] _ false); reflexivity|reflexivity].
  eapply (demo_via (mid (CCopy [7])));
    [|eapply (c_copy 2 2 1 _ 1 _ [7] [7; 8] 8); reflexivity|reflexivity].
  eapply (demo_via (mid (CCopy [])));
    [|eapply (c_copy 2 2 1 _ 1 _ [] [7; 8] 7); reflexivity|reflexivity].
  eapply (demo_via (mid CCheck));
    [|eapply (c_check1 2 2 1 _ 1 _ _ false); reflexivity|reflexivity].
  eapply (demo_via (demoSt (demoMc [[7; 8]; [0; 0]] 1 c00 c00) PIdle idle idle [[7; 8]]));
    [|eapply (c_start 2 2 1 _ 1 idle _ true); reflexivity|reflexivity].
  eapply (demo_via (demoSt (demoMc [[7; 8]; [0; 0]] 0 c00 c00) PClaimed idle idle []));
    [|eapply (p_publish 2 2 1 _ _ [] [7; 8]); reflexivity|reflexivity].
  eapply (demo_via (demoSt (demoMc [[7; 0]; [0; 0]] 0 c00 c00) PClaimed idle idle []));
    [|eapply (p_write 2 2 1 (demoMc [[7; 0]; [0; 0]] 0 c00 c00) 1 8 _ _ _); reflexivity|reflexivity].
  eapply (demo_via (demoSt (demoMc [[0; 0]; [0; 0]] 0 c00 c00) PClaimed idle idle []));
    [|eapply (p_write 2 2 1 (demoMc [[0; 0]; [0; 0]] 0 c00 c00) 0 7 _ _ _); reflexivity|reflexivity].
  eapply (demo_via (execNew 2 2 [0; 0]));
    [|eapply (p_fast 2 2 1 (demoMc [[0; 0]; [0; 0]] 0 c00 c00) _ _); reflexivity|reflexivity].
  apply reach_init.
Qed.
End demo.

Lemma multicast_delivery_witness :
  readSlot 2 (e_ring demoMcExec) 0 = Some [7; 8] ∧
  Forall (λ p, e_sent demoMcExec !! Z.to_nat p.1 = Some p.2) [(0, [7; 8])].
Proof.
  destruct (multicast_delivery 2 2 1 1 ltac:(lia) eq_refl 2 [0; 0] demoMcExec eq_refl demoMc_reach)
    as [H _]. split.
  - apply (H 0%nat (mkCursor 0 1 0) (mkThread CPeeked []) eq_refl eq_refl). done.
  - apply (H 1%nat (mkCursor 1 1 0) (mkThread CIdle [(0, [7; 8])]) eq_refl eq_refl).
Defined.

(** A gating consumer that used the checked read would lose elements: on a full
    ring, where nothing has been overwritten, the read reports [Lapped] and skips
    everything in flight. *)
Lemma gating_checked_read_lapses :
  let r := mkMulticast [[7]; [8]] 2 0 [mkCursor 0 0 0] in
  gating 1 0 = true ∧ readSlot 2 r 0 = Some [7] ∧
  tryPeekChecked 2 r 0 = Some (mkMulticast [[7]; [8]] 2 0 [mkCursor 2 2 1], Lapped).
Proof. vm_compute. done. Qed.
