(* ===== verification/RingHold.v ===== *)
(** What a consumer of the outbound ring finds in it: the events between its cursor
    and the head, and how the two kinds of peek and [consume] work them off.  Shared
    by the market-data publisher (consumer 1) and the exec-report router (consumer 0). *)
From S2P Require Import MulticastRing.
From S2P Require Import Prelude Types.

(** [tryPeek] when nothing interferes: the slot at the cursor, if there is one. *)
Definition tryPeek {W} (Capacity : Z) (r : MulticastRing W) (i : nat) :
    option (MulticastRing W * option (list W)) :=
  '(r, some) ← peekStart r i;
  if negb some then Some (r, None) else out ← readSlot Capacity r i; Some (r, Some out).

Section hold.
Context {W : Type} (Capacity : Z) (idx : nat).

(** The ring holds [evs] for consumer [idx], none of them overwritten. *)
Record ring_holds (r : MulticastRing W) (evs : list W) (c : Cursor) : Prop := {
  rh_cursor : mc_cursors r !! idx = Some c;
  rh_tail : 0 <= c_tail c <= c_cachedHead c ∧ c_cachedHead c <= mc_head r;
  rh_head : mc_head r < 2 ^ 64 - 1;
  rh_count : mc_head r - c_tail c = Z.of_nat (length evs);
  rh_slots : ∀ j ev, evs !! j = Some ev →
    aget (mc_storage r) (slotOf Capacity (c_tail c + Z.of_nat j)) = Some [ev]
}.

Lemma setCursor_lookup (r : MulticastRing W) c c' :
  mc_cursors r !! idx = Some c → mc_cursors (setCursor r idx c') !! idx = Some c'.
Proof. intros Hc. cbn. apply list_lookup_insert_eq. by eapply lookup_lt_Some. Qed.

Lemma peekStart_empty r c :
  ring_holds r [] c →
  ∃ r' c', peekStart r idx = Some (r', false) ∧ ring_holds r' [] c' ∧ c_tail c' = c_tail c.
Proof.
  intros [H1 H2 H3 H4 H5]. cbn [length] in H4. unfold peekStart. rewrite H1. simpl_bind.
  destruct (c_tail c =? c_cachedHead c) eqn:E; [|lia]. cbn [c_tail c_cachedHead].
  destruct (c_tail c =? mc_head r) eqn:E1; [|lia].
  eexists _, (mkCursor (c_tail c) (mc_head r) (c_lapped c)). split; [done|]. split; [|done].
  split; cbn; try done; try lia. exact (setCursor_lookup _ _ _ H1).
Qed.

Lemma peekStart_event r ev evs c :
  ring_holds r (ev :: evs) c →
  ∃ r' c', peekStart r idx = Some (r', true) ∧ ring_holds r' (ev :: evs) c' ∧ c_tail c' = c_tail c ∧
    c_tail c' < c_cachedHead c' ∧ readSlot Capacity r' idx = Some [ev].
Proof.
  intros [H1 H2 H3 H4 H5]. cbn [length] in H4. pose proof (H5 0%nat ev eq_refl) as H0. rewrite Z.add_0_r in H0.
  unfold peekStart. rewrite H1. simpl_bind. destruct (c_tail c =? c_cachedHead c) eqn:E.
  - cbn [c_tail c_cachedHead]. destruct (c_tail c =? mc_head r) eqn:E1; [lia|].
    pose proof (setCursor_lookup r c (mkCursor (c_tail c) (mc_head r) (c_lapped c)) H1) as Hl.
    eexists _, (mkCursor (c_tail c) (mc_head r) (c_lapped c)). split; [done|]. split; [|split_and!].
    + split; cbn; try done; lia.
    + done.
    + cbn. lia.
    + unfold readSlot. rewrite Hl. done.
  - eexists _, c. split; [done|]. split; [by split|]. split; [done|]. split; [lia|].
    unfold readSlot. rewrite H1. done.
Qed.

Lemma peek_empty r c :
  ring_holds r [] c →
  ∃ r' c', tryPeekChecked Capacity r idx = Some (r', MulticastRing.Empty) ∧ ring_holds r' [] c' ∧
    c_tail c' = c_tail c.
Proof.
  intros Hh. destruct (peekStart_empty r c Hh) as (r' & c' & Hp & H). exists r', c'.
  unfold tryPeekChecked. rewrite Hp. done.
Qed.

Lemma peek_event r ev evs c :
  ring_holds r (ev :: evs) c → Z.of_nat (length (ev :: evs)) < Capacity →
  ∃ r' c', tryPeekChecked Capacity r idx = Some (r', MulticastRing.Ok [ev]) ∧ ring_holds r' (ev :: evs) c' ∧
    c_tail c' = c_tail c ∧ c_tail c' < c_cachedHead c'.
Proof.
  intros Hh Hfresh. destruct (peekStart_event r ev evs c Hh) as (r' & c' & Hp & Hh' & Ht & Hlt & Hread).
  exists r', c'. split; [|done]. unfold tryPeekChecked. rewrite Hp. cbn [mbind option_bind negb].
  destruct Hh' as [G1 G2 G3 G4 _].
  assert (Hchk : checkLapped Capacity r' idx = Some (r', false)).
  { unfold checkLapped. rewrite G1. simpl_bind. u64_small.
    destruct (Capacity <=? _) eqn:E; [lia|done]. }
  rewrite Hchk. simpl_bind. rewrite Hread. simpl_bind. by rewrite Hchk.
Qed.

Lemma tryPeek_empty r c :
  ring_holds r [] c →
  ∃ r' c', tryPeek Capacity r idx = Some (r', None) ∧ ring_holds r' [] c' ∧ c_tail c' = c_tail c.
Proof.
  intros Hh. destruct (peekStart_empty r c Hh) as (r' & c' & Hp & H). exists r', c'.
  unfold tryPeek. by rewrite Hp.
Qed.

Lemma tryPeek_event r ev evs c :
  ring_holds r (ev :: evs) c →
  ∃ r' c', tryPeek Capacity r idx = Some (r', Some [ev]) ∧ ring_holds r' (ev :: evs) c' ∧
    c_tail c' = c_tail c ∧ c_tail c' < c_cachedHead c'.
Proof.
  intros Hh. destruct (peekStart_event r ev evs c Hh) as (r' & c' & Hp & Hh' & Ht & Hlt & Hread).
  exists r', c'. split; [|done]. unfold tryPeek. rewrite Hp. cbn [mbind option_bind negb]. by rewrite Hread.
Qed.

Lemma consume_event r ev evs c :
  ring_holds r (ev :: evs) c → c_tail c < c_cachedHead c →
  ∃ r' c', MulticastRing.consume r idx = Some r' ∧ ring_holds r' evs c' ∧ c_tail c' = c_tail c + 1.
Proof.
  intros [H1 H2 H3 H4 H6] Hlt. cbn [length] in H4. unfold MulticastRing.consume. rewrite H1. simpl_bind.
  u64_small. eexists _, (mkCursor (c_tail c + 1) (c_cachedHead c) (c_lapped c)).
  split; [done|]. split; [|done].
  split; cbn; try done; try lia; [exact (setCursor_lookup _ _ _ H1)|].
  intros j e Hj. specialize (H6 (S j) e Hj). rewrite <- H6. do 2 f_equal. lia.
Qed.
End hold.

(** In every reachable state of the ring, a consumer that gates the producer, or is
    less than a lap behind, finds exactly the elements from its cursor on. *)
Lemma ring_holds_reach {W} Capacity k mask N (dflt : list W) s idx c evs :
  0 <= k <= 63 → Capacity = 2 ^ k → length dflt = 1%nat → exec_reach Capacity 1 mask N dflt s →
  mc_cursors (e_ring s) !! idx = Some c →
  drop (Z.to_nat (c_tail c)) (e_sent s) = (λ ev, [ev]) <$> evs →
  gating mask idx = true ∨ Z.of_nat (length evs) < Capacity →
  ring_holds Capacity idx (e_ring s) evs c.
Proof.
  intros Hk HCap Hd Hre Hc Hev Hlen.
  pose proof (mc_reach_ok Capacity 1 mask k Hk HCap N dflt s Hd Hre) as Hs.
  destruct (lookup_lt_is_Some_2 (e_threads s) idx) as [t Ht].
  { rewrite (mo_threads _ _ _ _ Hs). by eapply lookup_lt_Some. }
  destruct (co_range _ _ _ _ _ _ (mo_cons _ _ _ _ Hs idx c t Hc Ht)) as [R1 R2].
  pose proof (mo_head _ _ _ _ Hs) as Hh. pose proof (mo_fits _ _ _ _ Hs) as Hf. unfold UINT64_MAX in Hf.
  assert (Hn : Z.of_nat (length (e_sent s)) - c_tail c = Z.of_nat (length evs)).
  { apply (f_equal length) in Hev. rewrite length_drop, length_fmap in Hev. lia. }
  assert (Hfresh : Z.of_nat (length (e_sent s)) - Capacity <= c_tail c ∧
    (e_producer s = PClaimed → Z.of_nat (length (e_sent s)) - Capacity < c_tail c)).
  { destruct Hlen as [Hg|Hl]; [|lia]. pose proof (mo_gate _ _ _ _ Hs idx c Hc Hg) as Hm.
    pose proof (mo_min _ _ _ _ Hs) as [? ?]. split; [lia|]. intros Hp.
    pose proof (mo_claim _ _ _ _ Hs Hp). lia. }
  destruct Hfresh as [F1 F2].
  split; rewrite ?Hh; try done; try lia.
  intros j ev Hj. pose proof (lookup_lt_Some _ _ _ Hj) as Hjl.
  rewrite <- (Z2Nat.id (slotOf _ _)) by apply (slotOf_range Capacity k Hk HCap).
  rewrite aget_nat. rewrite (mo_slots _ _ _ _ Hs); [|lia|lia|intros Hp; specialize (F2 Hp); lia].
  replace (Z.to_nat (c_tail c + Z.of_nat j)) with (Z.to_nat (c_tail c) + j)%nat by lia.
  rewrite <- lookup_drop, Hev, list_lookup_fmap, Hj. done.
Qed.

(** *** A ring of two slots with one element *)

Section one.
Context {W : Type} (e0 ev : W).

Definition twoSlots (sent : list (list W)) (st : list (list W)) (head : Z) (p : Producer) : Exec W :=
  mkExec (mkMulticast st head 0 [mkCursor 0 0 0; mkCursor 0 0 0]) p [mkThread CIdle []; mkThread CIdle []] sent.

Definition ringWith : Exec W := twoSlots [[ev]] [[ev]; [e0]] 1 PIdle.

Lemma ringWith_reach : exec_reach 2 1 1 2 [e0] ringWith.
Proof.
  eapply (reach_next _ _ _ _ _ (twoSlots [] [[ev]; [e0]] 0 PClaimed)).
  - eapply (reach_next _ _ _ _ _ (twoSlots [] [[e0]; [e0]] 0 PClaimed)).
    + eapply (reach_next _ _ _ _ _ (twoSlots [] [[e0]; [e0]] 0 PIdle)); [exact (reach_init 2 1 1 2 [e0])|]. apply p_fast. reflexivity.
    + eapply (p_write 2 1 1 _ 0 ev). reflexivity.
  - apply (p_publish 2 1 1 (mkMulticast [[ev]; [e0]] 0 0 [mkCursor 0 0 0; mkCursor 0 0 0]) _ [] [ev]);
      [reflexivity|unfold UINT64_MAX; cbn; lia].
Qed.
End one.
