(* ===== verification/Events.v ===== *)
(** The flyweights that cross the rings: [ipc/command.hpp] and
    [ipc/outbound_event.hpp]. *)
From S2P Require Import Prelude Types OrderBook.

Inductive CommandKind := KNew | KCancel | KReplace.

#[export] Instance CommandKind_eq_dec : EqDecision CommandKind.
Proof. solve_decision. Defined.

Record Command := mkCommand {
  cm_id : Z;
  cm_newId : Z;
  cm_price : Z;
  cm_quantity : Z;
  cm_participant : Z;
  cm_kind : CommandKind;
  cm_side : Side;
  cm_type : OrderType
}.

(** [ipc::Command cmd{};] *)
Definition emptyCommand : Command := mkCommand 0 0 0 0 0 KNew Buy Limit.

Definition toNewOrder (c : Command) : NewOrder :=
  mkNew (cm_id c) (cm_price c) (cm_quantity c) (cm_participant c) (cm_side c) (cm_type c).

(** [fresh = toNewOrder(cmd); fresh.id = cmd.newId;] *)
Definition toFreshOrder (c : Command) : NewOrder :=
  mkNew (cm_newId c) (cm_price c) (cm_quantity c) (cm_participant c) (cm_side c) (cm_type c).

Inductive UpdateAction := Rested | Cancelled | Rejected | Replaced.

Record OrderUpdate := mkUpdate {
  u_orderId : Z;
  u_price : Z;
  u_quantity : Z;
  u_remaining : Z;
  u_participant : Z;
  u_seq : Z
}.

(** The union of payloads; its constructor is the event's [kind]. *)
Inductive OutboundPayload :=
  | TradeEvent (t : Trade)
  | StatusEvent (id : Z) (status : SubmitStatus)
  | OrderUpdateEvent (u : OrderUpdate).

Record OutboundEvent := mkEvent {
  e_side : Side;
  e_status : SubmitStatus;
  e_action : UpdateAction;
  e_payload : OutboundPayload;
  e_globalSeq : Z
}.

Definition tradeEvent (t : Trade) (globalSeq : Z) : OutboundEvent :=
  mkEvent Buy Ok Rested (TradeEvent t) globalSeq.

Definition statusEvent (id : Z) (st : SubmitStatus) (globalSeq : Z) : OutboundEvent :=
  mkEvent Buy Ok Rested (StatusEvent id st) globalSeq.

Definition orderUpdateEvent (action : UpdateAction) (side : Side) (u : OrderUpdate)
    (globalSeq : Z) (status : SubmitStatus) : OutboundEvent :=
  mkEvent side status action (OrderUpdateEvent u) globalSeq.
