(* ===== verification/MatchingThread.v ===== *)
(** The matching thread: [runtime/matching_thread.hpp].

    [dispatch] applies one command to the book and publishes what happened.  The
    outbound ring is the stream of events it publishes, in order ([publishOutbound]
    spins until the ring has a slot, it never drops; the ring itself is
    [MulticastRing]).  The assertions on the output buffers are those of a release
    build: no check. *)
From S2P Require Import Prelude Types ObjectPool PriceLevel OrderIdMap LevelMap OrderBook.
From S2P Require Import AbstractBook BookRepr BookMatch BookScan BookRefine BookSpec BookProps.
From S2P Require Import Events.

Definition kTradeBufCapacity : Z := 1024.

Record MatchingThread := mkMatching {
  mt_book : OrderBook;
  mt_dispatchSeq : Z;
  mt_trades : TradeBuffer;
  mt_victims : StpVictimBuffer;
  mt_out : list OutboundEvent
}.

Definition zeroTrade : Trade := mkTrade 0 0 0 0 0 Buy.
Definition zeroVictim : StpVictim := mkVictim 0 0 0 0 0 0 Buy.

(** The thread with its stack buffers, before its first command. *)
Definition matchingNew (b : OrderBook) (lastSeq : Z) : MatchingThread :=
  mkMatching b lastSeq
    (Buffer.mkBuffer (replicate 1024 zeroTrade) kTradeBufCapacity 0)
    (Buffer.mkBuffer (replicate 1024 zeroVictim) kTradeBufCapacity 0) [].

Definition publishOutbound (m : MatchingThread) (e : OutboundEvent) : MatchingThread :=
  mkMatching (mt_book m) (mt_dispatchSeq m) (mt_trades m) (mt_victims m) (mt_out m ++ [e]).

Definition publishTrades (m : MatchingThread) : MatchingThread :=
  foldl (λ m t, publishOutbound m (tradeEvent t (mt_dispatchSeq m))) m
    (Buffer.contents (mt_trades m)).

Definition victimUpdate (v : StpVictim) : OrderUpdate :=
  mkUpdate (v_id v) (v_price v) (v_quantity v) (v_remaining v) (v_participant v) (v_seq v).

Definition publishStpVictims (m : MatchingThread) : MatchingThread :=
  foldl (λ m v, publishOutbound m
      (orderUpdateEvent Cancelled (v_side v) (victimUpdate v) (mt_dispatchSeq m) Ok)) m
    (Buffer.contents (mt_victims m)).

Definition resultUpdate (id : Z) (r : OrderResult) : OrderUpdate :=
  mkUpdate id (r_price r) (r_quantity r) (r_remaining r) (r_participant r) (r_seq r).

Definition emitOrderUpdate (m : MatchingThread) (id : Z) (side : Side) (r : OrderResult)
    : MatchingThread :=
  let u := resultUpdate id r in
  if r_rested r
  then publishOutbound m (orderUpdateEvent Rested (r_side r) u (mt_dispatchSeq m) Ok)
  else publishOutbound m (orderUpdateEvent Rejected side u (mt_dispatchSeq m) (r_status r)).

Definition rejectedBeforeDispatch (st : SubmitStatus) : bool :=
  match st with
  | RejectedUnknownOrder | RejectedInvalidQuantity | RejectedPriceOutOfRange
  | RejectedDuplicateId => true
  | _ => false
  end.

Definition set_book (m : MatchingThread) (b : OrderBook) (tb : TradeBuffer)
    (vb : StpVictimBuffer) : MatchingThread :=
  mkMatching b (mt_dispatchSeq m) tb vb (mt_out m).

Definition dispatch (m : MatchingThread) (cmd : Command) : option MatchingThread :=
  let m := mkMatching (mt_book m) (s64 (mt_dispatchSeq m + 1)) (Buffer.clear (mt_trades m))
             (Buffer.clear (mt_victims m)) (mt_out m) in
  match cm_kind cmd with
  | KNew =>
      let o := toNewOrder cmd in
      '(b, tb, vb, r) ← submitEx (mt_book m) o (mt_trades m) (Some (mt_victims m));
      vb ← vb;
      let m := publishStpVictims (publishTrades (set_book m b tb vb)) in
      let m := if bool_decide (r_status r ≠ Ok)
               then publishOutbound m (statusEvent (cm_id cmd) (r_status r) (mt_dispatchSeq m))
               else m in
      Some (emitOrderUpdate m (cm_id cmd) (n_side o) r)
  | KCancel =>
      '(b, r) ← cancel (mt_book m) (cm_id cmd);
      let m := set_book m b (mt_trades m) (mt_victims m) in
      let m := publishOutbound m (statusEvent (cm_id cmd) (r_status r) (mt_dispatchSeq m)) in
      if bool_decide (r_status r = Ok)
      then Some (publishOutbound m (orderUpdateEvent Cancelled (r_side r)
             (resultUpdate (cm_id cmd) r) (mt_dispatchSeq m) Ok))
      else Some m
  | KReplace =>
      let fresh := toFreshOrder cmd in
      '(b, tb, vb, r, old) ← replace (mt_book m) (cm_id cmd) fresh (mt_trades m)
                               (Some (mt_victims m));
      vb ← vb;
      let oldResult := default emptyResult old in
      let m := set_book m b tb vb in
      let early := rejectedBeforeDispatch (r_status r) in
      let m := if negb early
               then publishOutbound m (orderUpdateEvent Cancelled (r_side oldResult)
                      (resultUpdate (cm_id cmd) oldResult) (mt_dispatchSeq m) Ok)
               else m in
      let m := publishStpVictims (publishTrades m) in
      let m := publishOutbound m (statusEvent (cm_newId cmd) (r_status r) (mt_dispatchSeq m)) in
      Some (if negb early then emitOrderUpdate m (cm_newId cmd) (n_side fresh) r else m)
  end.

(** The drain loop on the commands the inbound ring delivers. *)
Fixpoint run (m : MatchingThread) (cmds : list Command) : option MatchingThread :=
  match cmds with
  | [] => Some m
  | cmd :: cmds' => m ← dispatch m cmd; run m cmds'
  end.

(** ** What a dispatch publishes, in terms of the abstract book *)

(** The book's answer to a command. *)
Inductive AAnswer :=
  | AnsNew (out : AOutcome)
  | AnsCancel (a : ABook) (r : OrderResult)
  | AnsReplace (out : AOutcome) (old : option OrderResult).

Definition aanswer (c : BookConfig) (a : ABook) (cmd : Command) : AAnswer :=
  match cm_kind cmd with
  | KNew => AnsNew (asubmit c a (toNewOrder cmd))
  | KCancel => AnsCancel (acancel a (cm_id cmd)).1 (acancel a (cm_id cmd)).2
  | KReplace =>
      AnsReplace (areplace c a (cm_id cmd) (toFreshOrder cmd)).1
        (areplace c a (cm_id cmd) (toFreshOrder cmd)).2
  end.

Definition ans_book (x : AAnswer) : ABook :=
  match x with
  | AnsNew out | AnsReplace out _ => out_book out
  | AnsCancel a _ => a
  end.

Definition ans_trades (x : AAnswer) : list Trade :=
  match x with AnsNew out | AnsReplace out _ => out_trades out | AnsCancel _ _ => [] end.

Definition ans_victims (x : AAnswer) : list AOrder :=
  match x with AnsNew out | AnsReplace out _ => out_victims out | AnsCancel _ _ => [] end.

Definition tradeEvents (q : Z) (ts : list Trade) : list OutboundEvent :=
  (λ t, tradeEvent t q) <$> ts.

Definition victimEvents (q : Z) (vs : list AOrder) : list OutboundEvent :=
  (λ o, orderUpdateEvent Cancelled (ao_side o) (victimUpdate (avictim o)) q Ok) <$> vs.

Definition fateEvent (q : Z) (id : Z) (side : Side) (r : OrderResult) : OutboundEvent :=
  if r_rested r then orderUpdateEvent Rested (r_side r) (resultUpdate id r) q Ok
  else orderUpdateEvent Rejected side (resultUpdate id r) q (r_status r).

Definition events (q : Z) (cmd : Command) (x : AAnswer) : list OutboundEvent :=
  match x with
  | AnsNew out =>
      let r := out_result out in
      tradeEvents q (out_trades out) ++ victimEvents q (out_victims out) ++
      (if bool_decide (r_status r ≠ Ok) then [statusEvent (cm_id cmd) (r_status r) q] else []) ++
      [fateEvent q (cm_id cmd) (cm_side cmd) r]
  | AnsCancel a r =>
      statusEvent (cm_id cmd) (r_status r) q ::
      (if bool_decide (r_status r = Ok)
       then [orderUpdateEvent Cancelled (r_side r) (resultUpdate (cm_id cmd) r) q Ok] else [])
  | AnsReplace out old =>
      let r := out_result out in
      match old with
      | Some o =>
          [orderUpdateEvent Cancelled (r_side o) (resultUpdate (cm_id cmd) o) q Ok] ++
          tradeEvents q (out_trades out) ++ victimEvents q (out_victims out) ++
          [statusEvent (cm_newId cmd) (r_status r) q; fateEvent q (cm_newId cmd) (cm_side cmd) r]
      | None => [statusEvent (cm_newId cmd) (r_status r) q]
      end
  end.

(** ** Refinement *)

Definition valid_command (c : BookConfig) (cmd : Command) : Prop :=
  match cm_kind cmd with
  | KNew => valid_new c (toNewOrder cmd)
  | KCancel => True
  | KReplace => valid_new c (toFreshOrder cmd)
  end.

Record thread_ok (c : BookConfig) (m : MatchingThread) : Prop := {
  th_book : sound c (mt_book m);
  th_trades : Buffer.wf (mt_trades m) ∧ Buffer.capacity (mt_trades m) = kTradeBufCapacity;
  th_victims : Buffer.wf (mt_victims m) ∧ Buffer.capacity (mt_victims m) = kTradeBufCapacity
}.

Lemma clear_wf {A} (b : Buffer.Buffer A) : Buffer.wf b → Buffer.wf (Buffer.clear b).
Proof. intros [H1 H2]. split; [done|simpl; lia]. Qed.

Lemma push_all_wf {A} (b : Buffer.Buffer A) xs : Buffer.wf b → Buffer.wf (Buffer.push_all b xs).
Proof.
  revert b. induction xs as [|x xs IH]; intros b Hb; [done|]. simpl. apply IH. by apply Buffer.push_wf.
Qed.

(** A cleared buffer into which no more than it can hold has been pushed. *)
Lemma filled_contents {A} (b : Buffer.Buffer A) xs :
  Buffer.wf b → Buffer.capacity b = kTradeBufCapacity →
  Z.of_nat (length xs) <= kTradeBufCapacity →
  Buffer.contents (Buffer.push_all (Buffer.clear b) xs) = xs.
Proof.
  intros Hb Hc Hl. unfold kTradeBufCapacity in *.
  destruct (Buffer.push_all_contents (Buffer.clear b) xs) as [_ ->];
    [by apply clear_wf|simpl; lia|].
  unfold Buffer.contents; simpl. rewrite Hc. simpl. apply take_ge. lia.
Qed.

Lemma publish_all {A} (f : A → OutboundEvent) (g : MatchingThread → A → OutboundEvent) m xs :
  (∀ m' x, mt_dispatchSeq m' = mt_dispatchSeq m → g m' x = f x) →
  foldl (λ m x, publishOutbound m (g m x)) m xs
  = mkMatching (mt_book m) (mt_dispatchSeq m) (mt_trades m) (mt_victims m) (mt_out m ++ (f <$> xs)).
Proof.
  revert m. induction xs as [|x xs IH]; intros m Hg; simpl.
  { rewrite app_nil_r. by destruct m. }
  rewrite IH by (intros m' y Hm; by apply Hg). simpl. rewrite <- app_assoc. by rewrite Hg.
Qed.

Lemma publishTrades_spec m :
  publishTrades m
  = mkMatching (mt_book m) (mt_dispatchSeq m) (mt_trades m) (mt_victims m)
      (mt_out m ++ tradeEvents (mt_dispatchSeq m) (Buffer.contents (mt_trades m))).
Proof.
  unfold publishTrades, tradeEvents. apply publish_all. intros m' x Hm. by rewrite Hm.
Qed.

Lemma publishStpVictims_spec m vs :
  Buffer.contents (mt_victims m) = avictim <$> vs →
  publishStpVictims m
  = mkMatching (mt_book m) (mt_dispatchSeq m) (mt_trades m) (mt_victims m)
      (mt_out m ++ victimEvents (mt_dispatchSeq m) vs).
Proof.
  intros Hv. unfold publishStpVictims, victimEvents. rewrite Hv.
  rewrite (publish_all (λ v, orderUpdateEvent Cancelled (v_side v) (victimUpdate v)
    (mt_dispatchSeq m) Ok)) by (intros m' x Hm; by rewrite Hm).
  by rewrite <- list_fmap_compose.
Qed.

(** The four statuses that make [dispatch] skip the old order's cancellation are
    exactly those [replace] returns before it touches the book. *)
Lemma aexecute_status c a inc :
  rejectedBeforeDispatch (r_status (out_result (aexecute c a inc))) = false.
Proof.
  unfold aexecute, adispose. by repeat case_match.
Qed.

Lemma afind_aremove a id id' :
  afind (aremove a id) id' = None ↔ id' = id ∨ afind a id' = None.
Proof.
  rewrite !afind_None. unfold aremove, aresting; simpl. split.
  - intros H. destruct (decide (id' = id)) as [|Hne]; [by left|right]. intros o Ho Hid.
    apply (H o); [|done]. apply elem_of_app in Ho as [Ho|Ho];
      apply elem_of_app; [left|right]; apply list_elem_of_filter; (split; [congruence|done]).
  - intros H o Ho. assert (Ho' : o ∈ ab_bids a ++ ab_asks a ∧ ao_id o ≠ id).
    { apply elem_of_app in Ho as [[? ?]%list_elem_of_filter|[? ?]%list_elem_of_filter];
        (split; [apply elem_of_app; auto|done]). }
    destruct Ho' as [Ho' Hne]. destruct H as [->|H]; [done|]. by apply H.
Qed.

Lemma areplace_early c a oldId fresh :
  rejectedBeforeDispatch (r_status (out_result (areplace c a oldId fresh).1))
  = bool_decide ((areplace c a oldId fresh).2 = None) ∧
  ((areplace c a oldId fresh).2 = None →
    out_trades (areplace c a oldId fresh).1 = [] ∧ out_victims (areplace c a oldId fresh).1 = []).
Proof.
  unfold areplace. destruct (bool_decide (afind a oldId = None)) eqn:E0; [done|].
  destruct (n_quantity fresh <=? 0) eqn:E1; [done|].
  destruct (_ && negb (ainRange c _)) eqn:E2; [done|].
  destruct (negb (n_id fresh =? oldId) && _) eqn:E3; [done|].
  assert (Hno : afind (acancel a oldId).1 (n_id fresh) = None).
  { apply bool_decide_eq_false in E0. unfold acancel. destruct (afind a oldId) as [o|]; [|done].
    simpl. apply afind_aremove. destruct (n_id fresh =? oldId) eqn:E4; [left; lia|right].
    simpl in E3. by apply bool_decide_eq_false, dec_stable in E3. }
  destruct (acancel a oldId) as [a1 r1]. simpl in *. split; [|done].
  unfold asubmit. destruct (averdict c a1 fresh) as [st|] eqn:Ev; [|apply aexecute_status].
  unfold averdict in Ev. rewrite E1, E2, Hno in Ev. simpl in Ev |- *.
  by repeat case_match; simplify_eq.
Qed.

(** Emitting the fate of an order appends one event. *)
Lemma emitOrderUpdate_spec m id side r :
  emitOrderUpdate m id side r = publishOutbound m (fateEvent (mt_dispatchSeq m) id side r).
Proof. unfold emitOrderUpdate, fateEvent. by destruct (r_rested r). Qed.

Section dispatch.
Context (c : BookConfig) (Hc : config_ok c).

(** The thread after a command that left book [b]. *)
Lemma thread_filled m b q ts vs out :
  thread_ok c m → sound c b →
  thread_ok c (mkMatching b q (Buffer.push_all (Buffer.clear (mt_trades m)) ts)
                 (Buffer.push_all (Buffer.clear (mt_victims m)) vs) out).
Proof.
  intros [_ [Htw Htc] [Hvw Hvc]] Hb. split; simpl; [done| |];
    (split; [by apply push_all_wf, clear_wf|by rewrite Buffer.push_all_capacity]).
Qed.

(** Publishing what the buffers hold after a call that filled them. *)
Lemma publish_filled m b q ts vs out :
  thread_ok c m →
  Z.of_nat (length ts) <= kTradeBufCapacity → Z.of_nat (length vs) <= kTradeBufCapacity →
  publishStpVictims (publishTrades (mkMatching b q
    (Buffer.push_all (Buffer.clear (mt_trades m)) ts)
    (Buffer.push_all (Buffer.clear (mt_victims m)) (avictim <$> vs)) out))
  = mkMatching b q (Buffer.push_all (Buffer.clear (mt_trades m)) ts)
      (Buffer.push_all (Buffer.clear (mt_victims m)) (avictim <$> vs))
      (out ++ tradeEvents q ts ++ victimEvents q vs).
Proof.
  intros [_ [Htw Htc] [Hvw Hvc]] Ht Hv.
  rewrite publishTrades_spec, (publishStpVictims_spec _ vs); simpl;
    rewrite filled_contents by (done || by rewrite ?length_fmap); [|done].
  by rewrite <- app_assoc.
Qed.

(** One command: the book moves to the abstract answer and exactly the events
    above are published. *)
Lemma dispatch_ok m cmd :
  thread_ok c m → valid_command c cmd → seq_ (mt_book m) < INT64_MAX →
  let x := aanswer c (abs (mt_book m)) cmd in
  let q := s64 (mt_dispatchSeq m + 1) in
  Z.of_nat (length (ans_trades x)) <= kTradeBufCapacity →
  Z.of_nat (length (ans_victims x)) <= kTradeBufCapacity →
  ∃ m', dispatch m cmd = Some m' ∧ thread_ok c m' ∧ abs (mt_book m') = ans_book x ∧
    mt_dispatchSeq m' = q ∧ mt_out m' = mt_out m ++ events q cmd x.
Proof using Hc.
  intros Hm Hv Hsq x q Ht Hvi. destruct (th_book _ _ Hm) as [HR Hw].
  change (seq_ (mt_book m)) with (ab_seq (abs (mt_book m))) in Hsq.
  unfold x, aanswer, valid_command in *.
  unfold dispatch, set_book. destruct (cm_kind cmd) eqn:Hk; simpl in Ht, Hvi |- *.
  - destruct (submitEx_ok c _ _ (toNewOrder cmd) (Buffer.clear (mt_trades m))
      (Some (Buffer.clear (mt_victims m))) Hc HR (vn_aligned _ _ Hv)) as (b' & Hs & HR' & _).
    apply (sound_intro c) in HR' as [Hso HR']; [|done|by apply asubmit_wf].
    rewrite Hs. cbn [mbind option_bind victims_all fmap option_fmap option_map].
    rewrite publish_filled by done. eexists. split; [done|]. rewrite emitOrderUpdate_spec.
    case_bool_decide; simpl; (split; [by apply thread_filled|]);
      (split; [done|]); (split; [done|]); by rewrite <- ?app_assoc.
  - destruct (cancel_ok c _ _ (cm_id cmd) Hc HR) as (b' & Hs & HR'). rewrite Hs.
    simpl_bind.
    apply (sound_intro c) in HR' as [Hso HR']; [|done|by apply acancel_wf].
    case_bool_decide; (eexists; split; [done|]); simpl;
      (split; [by apply (thread_filled m b' _ [] [])|]);
      (split; [done|]); (split; [done|]); by rewrite <- ?app_assoc.
  - destruct (replace_ok c _ _ (cm_id cmd) (toFreshOrder cmd) (Buffer.clear (mt_trades m))
      (Some (Buffer.clear (mt_victims m))) Hc HR (vn_aligned _ _ Hv)) as (b' & Hs & HR').
    apply (sound_intro c) in HR' as [Hso HR']; [|done|by apply areplace_wf].
    rewrite Hs. cbn [mbind option_bind victims_all fmap option_fmap option_map].
    destruct (areplace_early c (abs (mt_book m)) (cm_id cmd) (toFreshOrder cmd)) as [Hearly Hnone].
    destruct (areplace c (abs (mt_book m)) (cm_id cmd) (toFreshOrder cmd)) as [out old].
    simpl in *. rewrite Hearly. eexists. split; [done|].
    destruct old as [o|]; simpl; unfold publishOutbound; simpl; rewrite publish_filled by done.
    + rewrite emitOrderUpdate_spec. simpl. split; [by apply thread_filled|].
      split; [done|]. split; [done|]. by rewrite <- !app_assoc.
    + destruct (Hnone eq_refl) as [Ht0 Hv0]. rewrite Ht0, Hv0. simpl.
      rewrite app_nil_r. split; [by apply (thread_filled m b' _ [] [])|]. done.
Qed.
End dispatch.

(** ** Runs of the drain loop *)

(** A command's trades and removals fit the thread's buffers. *)
Definition fitsOne (x : AAnswer) : bool :=
  (Z.of_nat (length (ans_trades x)) <=? kTradeBufCapacity)
  && (Z.of_nat (length (ans_victims x)) <=? kTradeBufCapacity).

(** The contract of the loop, from book [a] and dispatch number [q]: the final book
    and the published stream. *)
Fixpoint arun (c : BookConfig) (q : Z) (a : ABook) (cmds : list Command) :
    ABook * list OutboundEvent :=
  match cmds with
  | [] => (a, [])
  | cmd :: cmds' =>
      let x := aanswer c a cmd in
      let q := s64 (q + 1) in
      let r := arun c q (ans_book x) cmds' in
      (r.1, events q cmd x ++ r.2)
  end.

Fixpoint fits (c : BookConfig) (a : ABook) (cmds : list Command) : bool :=
  match cmds with
  | [] => true
  | cmd :: cmds' => let x := aanswer c a cmd in fitsOne x && fits c (ans_book x) cmds'
  end.

Lemma asubmit_seq c a inc :
  wf c a → ab_seq a < INT64_MAX →
  ab_seq a <= ab_seq (out_book (asubmit c a inc)) <= ab_seq a + 1.
Proof.
  intros Hw Hsq. unfold asubmit. destruct (averdict c a inc); simpl; [lia|].
  destruct (aafter_wf c a inc Hw Hsq) as [_ Hq].
  assert (ab_seq (out_book (aexecute c a inc)) = ab_seq (aafter c a inc)) as ->; [|lia].
  unfold aexecute, adispose. repeat case_match; try done; by destruct (n_side inc).
Qed.

Lemma answer_seq c a cmd :
  wf c a → ab_seq a < INT64_MAX →
  ab_seq a <= ab_seq (ans_book (aanswer c a cmd)) <= ab_seq a + 1.
Proof.
  intros Hw Hsq. unfold aanswer. destruct (cm_kind cmd); simpl.
  - by apply asubmit_seq.
  - unfold acancel. destruct (afind _ _); simpl; lia.
  - unfold areplace. repeat (case_match; simpl; [lia|]).
    pose proof (acancel_wf c a (cm_id cmd) Hw) as Hw1.
    assert (Hq : ab_seq (acancel a (cm_id cmd)).1 = ab_seq a)
      by (unfold acancel; by destruct (afind _ _)).
    destruct (acancel a (cm_id cmd)) as [a1 r1]. simpl in *. rewrite <- Hq.
    apply asubmit_seq; [done|lia].
Qed.

Lemma run_ok c m cmds :
  config_ok c → thread_ok c m → Forall (valid_command c) cmds →
  seq_ (mt_book m) + Z.of_nat (length cmds) <= INT64_MAX →
  fits c (abs (mt_book m)) cmds = true →
  ∃ m', run m cmds = Some m' ∧ thread_ok c m' ∧
    abs (mt_book m') = (arun c (mt_dispatchSeq m) (abs (mt_book m)) cmds).1 ∧
    mt_out m' = mt_out m ++ (arun c (mt_dispatchSeq m) (abs (mt_book m)) cmds).2.
Proof.
  intros Hc. revert m. induction cmds as [|cmd cmds IH]; intros m Hm Hv Hsq Hfit.
  { exists m. simpl. by rewrite app_nil_r. }
  apply Forall_cons in Hv as [Hv Hvs]. cbn [fits length run arun] in *.
  apply andb_true_iff in Hfit as [[Hf1 Hf2]%andb_true_iff Hfit].
  destruct (dispatch_ok c Hc m cmd Hm Hv) as (m1 & Hd & Hm1 & Hb & Hq & Ho); [lia..|].
  rewrite Hd. simpl_bind.
  pose proof (answer_seq c (abs (mt_book m)) cmd (proj2 (th_book _ _ Hm))) as Has.
  change (ab_seq (abs (mt_book m))) with (seq_ (mt_book m)) in Has.
  rewrite <- Hb in Has, Hfit. change (ab_seq (abs (mt_book m1))) with (seq_ (mt_book m1)) in Has.
  destruct (IH m1 Hm1 Hvs) as (m2 & Hr & Hm2 & Hb2 & Ho2); [lia|done|].
  exists m2. split; [done|]. split; [done|]. rewrite <- Hb, <- Hq. split; [done|].
  by rewrite Ho2, Ho, Hq, <- app_assoc.
Qed.

Lemma matchingNew_ok c b q : sound c b → thread_ok c (matchingNew b q).
Proof. intros Hb. split; [done|by vm_compute|by vm_compute]. Qed.

(** C14: The matching thread implements its contract.  Started on any sound book (a
    fresh one or a recovered one) and fed any list of valid commands, the drain
    loop always returns; the book it leaves is the one the abstract book reaches by
    the same commands, and the published stream is, command by command, the trades
    in execution order, the removals by self-trade prevention, the status and the
    fate of the order, every event stamped with the number of its command. *)
Theorem run_refines c b q cmds :
  config_ok c → sound c b → Forall (valid_command c) cmds →
  seq_ b + Z.of_nat (length cmds) <= INT64_MAX → fits c (abs b) cmds = true →
  ∃ m, run (matchingNew b q) cmds = Some m ∧ sound c (mt_book m) ∧
    abs (mt_book m) = (arun c q (abs b) cmds).1 ∧ mt_out m = (arun c q (abs b) cmds).2.
Proof.
  intros Hc Hb Hv Hsq Hf.
  destruct (run_ok c (matchingNew b q) cmds Hc (matchingNew_ok c b q Hb) Hv Hsq Hf)
    as (m & Hr & Hm & Ha & Ho). exists m. split; [done|]. by destruct Hm.
Qed.

(** *** A run of four commands *)

Definition tapeConfig : BookConfig := mkConfig 100 200 10 4 CancelPassive.
Definition tape : list Command :=
  [mkCommand 1 0 120 5 7 KNew Sell Limit; mkCommand 2 0 120 3 8 KNew Sell Limit;
   mkCommand 3 0 130 7 8 KNew Buy Limit; mkCommand 3 4 110 2 8 KReplace Buy Limit].

Lemma tapeConfig_ok : config_ok tapeConfig.
Proof. split; by vm_compute. Qed.

Lemma tape_valid : Forall (valid_command tapeConfig) tape.
Proof. repeat constructor; by vm_compute. Qed.

Lemma tapeBook_sound : sound tapeConfig (bookNew tapeConfig).
Proof. apply reachable_Repr; [apply tapeConfig_ok|constructor]. Qed.

Lemma run_refines_witness :
  (arun tapeConfig 0 (abs (bookNew tapeConfig)) tape).1
    = mkABook [mkAOrder 4 110 2 2 8 4 Buy] [] 4 1 ∧
  ∃ m, run (matchingNew (bookNew tapeConfig) 0) tape = Some m ∧ sound tapeConfig (mt_book m) ∧
    abs (mt_book m) = (arun tapeConfig 0 (abs (bookNew tapeConfig)) tape).1 ∧
    mt_out m = (arun tapeConfig 0 (abs (bookNew tapeConfig)) tape).2.
Proof.
  split; [by vm_compute|].
  apply run_refines; [apply tapeConfig_ok|apply tapeBook_sound|apply tape_valid| |by vm_compute].
  by vm_compute.
Defined.
