(* ===== verification/BookMirror.v ===== *)
(** The subscriber-side book: [marketdata/book_mirror.hpp].

    [std::map] is an association list kept in its comparator's order (bids:
    [std::greater], asks: [std::less]), [std::deque] a list, and the
    [std::unordered_map] index a finite map.  Seen from outside the mirror is two
    lists of orders, the canonical walk; every operation is characterised on those
    lists. *)
From stdpp Require Import sorting.
From S2P Require Import Prelude Types PriceLevel LevelMap OrderBook AbstractBook Events.

(** ** [std::map] *)

Section ordmap.
Context {V : Type} (lt : Z → Z → bool).

Fixpoint omFind (m : list (Z * V)) (k : Z) : option V :=
  match m with
  | [] => None
  | (k', v) :: m' => if k =? k' then Some v else omFind m' k
  end.

Fixpoint omSet (m : list (Z * V)) (k : Z) (v : V) : list (Z * V) :=
  match m with
  | [] => [(k, v)]
  | (k', v') :: m' =>
      if k =? k' then (k, v) :: m'
      else if lt k k' then (k, v) :: (k', v') :: m'
      else (k', v') :: omSet m' k v
  end.

Fixpoint omErase (m : list (Z * V)) (k : Z) : list (Z * V) :=
  match m with
  | [] => []
  | (k', v') :: m' => if k =? k' then m' else (k', v') :: omErase m' k
  end.
End ordmap.

(** ** The mirror *)

Record MirrorOrder := mkMirrorOrder {
  mo_id : Z;
  mo_price : Z;
  mo_quantity : Z;
  mo_remaining : Z;
  mo_participant : Z;
  mo_seq : Z
}.

Abbreviation Levels := (list (Z * list MirrorOrder)).

Record BookMirror := mkMirror {
  bm_bids : Levels;
  bm_asks : Levels;
  bm_index : gmap Z (Side * Z);
  bm_lastSeq : Z;
  bm_tradeCount : Z
}.

Definition mirrorNew : BookMirror := mkMirror [] [] ∅ 0 0.

Definition clearMirror (m : BookMirror) : BookMirror := mkMirror [] [] ∅ 0 0.

(** [std::greater<Price>] for bids, [std::less<Price>] for asks. *)
Definition cmp (s : Side) (p q : Z) : bool := match s with Buy => q <? p | Sell => p <? q end.

Definition levelsOf (m : BookMirror) (s : Side) : Levels :=
  match s with Buy => bm_bids m | Sell => bm_asks m end.

Definition setLevels (m : BookMirror) (s : Side) (lv : Levels) : BookMirror :=
  match s with
  | Buy => mkMirror lv (bm_asks m) (bm_index m) (bm_lastSeq m) (bm_tradeCount m)
  | Sell => mkMirror (bm_bids m) lv (bm_index m) (bm_lastSeq m) (bm_tradeCount m)
  end.

Definition setIndex (m : BookMirror) (ix : gmap Z (Side * Z)) : BookMirror :=
  mkMirror (bm_bids m) (bm_asks m) ix (bm_lastSeq m) (bm_tradeCount m).

Definition mirrorOrderOf (u : OrderUpdate) : MirrorOrder :=
  mkMirrorOrder (u_orderId u) (u_price u) (u_quantity u) (u_remaining u) (u_participant u) (u_seq u).

(** [levels[price].push_back(o)] *)
Definition pushBack (s : Side) (lv : Levels) (p : Z) (o : MirrorOrder) : Levels :=
  omSet (cmp s) lv p (default [] (omFind lv p) ++ [o]).

Definition insert (m : BookMirror) (side : Side) (u : OrderUpdate) : BookMirror :=
  let m := setLevels m side (pushBack side (levelsOf m side) (u_price u) (mirrorOrderOf u)) in
  setIndex m (<[u_orderId u := (side, u_price u)]> (bm_index m)).

(** [deq.erase] of the first order with this id. *)
Fixpoint eraseFirst (id : Z) (q : list MirrorOrder) : list MirrorOrder :=
  match q with
  | [] => []
  | o :: q' => if mo_id o =? id then q' else o :: eraseFirst id q'
  end.

Definition eraseFromLevels (s : Side) (lv : Levels) (price id : Z) : Levels :=
  match omFind lv price with
  | None => lv
  | Some deq =>
      match eraseFirst id deq with
      | [] => omErase lv price
      | deq' => omSet (cmp s) lv price deq'
      end
  end.

Definition eraseFrom (m : BookMirror) (loc : Side * Z) (id : Z) : BookMirror :=
  setLevels m loc.1 (eraseFromLevels loc.1 (levelsOf m loc.1) loc.2 id).

Definition erase (m : BookMirror) (id : Z) : BookMirror :=
  match bm_index m !! id with
  | None => m
  | Some loc =>
      let m := eraseFrom m loc id in setIndex m (delete id (bm_index m))
  end.

Definition withRemaining (o : MirrorOrder) (r : Z) : MirrorOrder :=
  mkMirrorOrder (mo_id o) (mo_price o) (mo_quantity o) r (mo_participant o) (mo_seq o).

(** [o.remaining -= qty] on the first order with this id, and what is left. *)
Fixpoint reduceFirst (id qty : Z) (q : list MirrorOrder) : option (list MirrorOrder * Z) :=
  match q with
  | [] => None
  | o :: q' =>
      if mo_id o =? id
      then let r := s64 (mo_remaining o - qty) in Some (withRemaining o r :: q', r)
      else '(q', r) ← reduceFirst id qty q'; Some (o :: q', r)
  end.

Definition reduce (m : BookMirror) (id qty : Z) : BookMirror :=
  match bm_index m !! id with
  | None => m
  | Some loc =>
      match omFind (levelsOf m loc.1) loc.2 with
      | None => m
      | Some deq =>
          match reduceFirst id qty deq with
          | None => m
          | Some (deq', r) =>
              let m := setLevels m loc.1 (omSet (cmp loc.1) (levelsOf m loc.1) loc.2 deq') in
              if r <=? 0
              then let m := eraseFrom m loc id in setIndex m (delete id (bm_index m))
              else m
          end
      end
  end.

Definition applyTrade (m : BookMirror) (t : Trade) : BookMirror :=
  let m := reduce m (t_passiveId t) (t_quantity t) in
  mkMirror (bm_bids m) (bm_asks m) (bm_index m) (bm_lastSeq m) (s64 (bm_tradeCount m + 1)).

Definition applyOrderUpdate (m : BookMirror) (action : UpdateAction) (side : Side)
    (u : OrderUpdate) : BookMirror :=
  let m := if bm_lastSeq m <? u_seq u
           then mkMirror (bm_bids m) (bm_asks m) (bm_index m) (u_seq u) (bm_tradeCount m)
           else m in
  match action with
  | Rested => insert m side u
  | Cancelled | Replaced => erase m (u_orderId u)
  | Rejected => m
  end.

Definition apply (m : BookMirror) (e : OutboundEvent) : BookMirror :=
  match e_payload e with
  | TradeEvent t => applyTrade m t
  | OrderUpdateEvent u => applyOrderUpdate m (e_action e) (e_side e) u
  | StatusEvent _ _ => m
  end.

Definition seedCounters (m : BookMirror) (lastSeq tradeCount : Z) : BookMirror :=
  mkMirror (bm_bids m) (bm_asks m) (bm_index m) lastSeq tradeCount.

Definition restingOrders (m : BookMirror) : Z := Z.of_nat (size (bm_index m)).

(** [levelTotal], [levelOrderCount] and [remainingOf]. *)
Definition sumRemaining (q : list MirrorOrder) : Z :=
  foldl (λ total o, s64 (total + mo_remaining o)) 0 q.

Definition levelTotal (m : BookMirror) (s : Side) (p : Z) : Z :=
  match omFind (levelsOf m s) p with None => 0 | Some q => sumRemaining q end.

Definition levelOrderCount (m : BookMirror) (s : Side) (p : Z) : Z :=
  match omFind (levelsOf m s) p with None => 0 | Some q => u32 (Z.of_nat (length q)) end.

Definition remainingOf (m : BookMirror) (id : Z) : Z :=
  match bm_index m !! id with
  | None => 0
  | Some loc =>
      match omFind (levelsOf m loc.1) loc.2 with
      | None => 0
      | Some q =>
          match list_find (λ o, mo_id o = id) q with
          | None => 0
          | Some (_, o) => mo_remaining o
          end
      end
  end.

(** [forEachOrder] as the list of its callbacks. *)
Definition flat (lv : Levels) : list MirrorOrder := concat lv.*2.

Definition walk (m : BookMirror) : list (Side * MirrorOrder) :=
  (pair Buy <$> flat (bm_bids m)) ++ (pair Sell <$> flat (bm_asks m)).

(** [forEachLevel]: price, total and number of orders per level. *)
Definition walkLevels (m : BookMirror) : list (Side * Z * Z * Z) :=
  let row s (l : Z * list MirrorOrder) :=
    (s, l.1, sumRemaining l.2, u32 (Z.of_nat (length l.2))) in
  (row Buy <$> bm_bids m) ++ (row Sell <$> bm_asks m).

(** ** The operations on the walk *)

Definition lerase (id : Z) (l : list MirrorOrder) : list MirrorOrder :=
  filter (λ o, mo_id o ≠ id) l.

Definition reduced1 (id qty : Z) (o : MirrorOrder) : option MirrorOrder :=
  if mo_id o =? id
  then if s64 (mo_remaining o - qty) <=? 0 then None
       else Some (withRemaining o (s64 (mo_remaining o - qty)))
  else Some o.

Fixpoint lreduce (id qty : Z) (l : list MirrorOrder) : list MirrorOrder :=
  match l with
  | [] => []
  | o :: l' =>
      match reduced1 id qty o with
      | Some o' => o' :: lreduce id qty l'
      | None => lreduce id qty l'
      end
  end.

Fixpoint lrest (s : Side) (o : MirrorOrder) (l : list MirrorOrder) : list MirrorOrder :=
  match l with
  | [] => [o]
  | x :: l' => if noWorse s (mo_price x) (mo_price o) then x :: lrest s o l' else o :: l
  end.

(** A side: levels in order, none empty, every order at its level's price. *)
Record levels_ok (s : Side) (lv : Levels) : Prop := {
  lv_sorted : StronglySorted (λ a b, cmp s a.1 b.1 = true) lv;
  lv_level : Forall (λ l, l.2 ≠ [] ∧ Forall (λ o, mo_price o = l.1) l.2) lv
}.

Definition ids (m : BookMirror) : list Z := mo_id <$> (flat (bm_bids m) ++ flat (bm_asks m)).

Record mirror_ok (m : BookMirror) : Prop := {
  mk_levels s : levels_ok s (levelsOf m s);
  mk_ids : NoDup (ids m);
  mk_index id s p : bm_index m !! id = Some (s, p) ↔
    ∃ o, o ∈ flat (levelsOf m s) ∧ mo_id o = id ∧ mo_price o = p
}.

(** *** One side *)

Section side.
Context (s : Side).

Lemma levels_tail l lv : levels_ok s (l :: lv) →
  levels_ok s lv ∧ (l.2 ≠ [] ∧ Forall (λ o, mo_price o = l.1) l.2) ∧
  Forall (λ o, cmp s l.1 (mo_price o) = true) (flat lv).
Proof.
  intros [Hs Hl]. apply StronglySorted_inv in Hs as [Hs Hlt].
  apply Forall_cons in Hl as [Hl Hls]. split; [by split|]. split; [done|].
  apply Forall_concat, Forall_fmap, Forall_forall. intros l' Hl'. simpl.
  rewrite Forall_forall in Hlt, Hls. specialize (Hlt _ Hl'). destruct (Hls _ Hl') as [_ Hp].
  eapply Forall_impl; [exact Hp|]. intros o ->. done.
Qed.

Lemma cmp_irrefl p q : cmp s p q = true → p ≠ q.
Proof. unfold cmp. destruct s; lia. Qed.

Lemma levels_cons k v lv :
  v ≠ [] → Forall (λ o, mo_price o = k) v → levels_ok s lv →
  Forall (λ o, cmp s k (mo_price o) = true) (flat lv) → levels_ok s ((k, v) :: lv).
Proof.
  intros Hne Hv [Hs Hl] Hlt. split; [|by constructor]. apply SSorted_cons; [done|].
  rewrite Forall_forall in Hl |- *. intros [k2 v2] Hin. destruct (Hl _ Hin) as [Hn2 Hp2].
  destruct v2 as [|o2 v2]; [done|]. apply Forall_cons in Hp2 as [Hp2 _]. simpl in Hp2 |- *.
  rewrite <- Hp2. rewrite Forall_forall in Hlt. apply Hlt.
  apply list_elem_of_In, in_concat. exists (o2 :: v2). split; [|by left].
  apply list_elem_of_In, list_elem_of_fmap. by exists (k2, o2 :: v2).
Qed.

Lemma omFind_elem lv p q :
  levels_ok s lv → omFind lv p = Some q →
  q ≠ [] ∧ Forall (λ o, mo_price o = p) q ∧ ∀ o, o ∈ q → o ∈ flat lv.
Proof.
  induction lv as [|[k v] lv IH]; intros Hlv Hf; [done|]. cbn [omFind] in Hf.
  destruct (levels_tail _ _ Hlv) as (Htl & [Hne Hv] & _). simpl in Hne, Hv.
  destruct (p =? k) eqn:E.
  - injection Hf as ->. assert (k = p) as -> by lia. split_and!; [done|done|].
    intros o Ho. apply elem_of_app. by left.
  - destruct (IH Htl Hf) as (? & ? & Hin). split_and!; [done|done|].
    intros o Ho. apply elem_of_app. right. by apply Hin.
Qed.

Lemma omFind_None lv p : omFind lv p = None → levels_ok s lv → Forall (λ o, mo_price o ≠ p) (flat lv).
Proof.
  induction lv as [|[k v] lv IH]; intros Hf Hlv; [constructor|]. cbn [omFind] in Hf.
  destruct (levels_tail _ _ Hlv) as (Htl & [_ Hv] & _). simpl in Hv.
  destruct (p =? k) eqn:E; [done|]. apply Forall_app. split; [|by apply IH].
  eapply Forall_impl; [exact Hv|]. simpl. intros o ->. lia.
Qed.

(** The level at [p] is a block of the walk, and no other order has that
    price. *)
Lemma omFind_flat lv p q :
  levels_ok s lv → omFind lv p = Some q →
  ∃ X Y, flat lv = X ++ q ++ Y ∧ Forall (λ o, mo_price o ≠ p) (X ++ Y) ∧
    flat (omErase lv p) = X ++ Y ∧ levels_ok s (omErase lv p) ∧
    (∀ q', flat (omSet (cmp s) lv p q') = X ++ q' ++ Y) ∧
    (∀ q', q' ≠ [] → Forall (λ o, mo_price o = p) q' → levels_ok s (omSet (cmp s) lv p q')).
Proof.
  induction lv as [|[k v] lv IH]; intros Hlv Hf; [done|]. cbn [omFind omErase omSet] in *.
  destruct (levels_tail _ _ Hlv) as (Htl & [Hne Hv] & Hlt). simpl in Hne, Hv, Hlt.
  destruct (p =? k) eqn:E.
  - injection Hf as ->. assert (k = p) as -> by lia. exists [], (flat lv). split_and!; try done.
    + eapply Forall_impl; [exact Hlt|]. intros o Ho%cmp_irrefl. simpl. done.
    + intros q' Hq' Hp. by apply levels_cons.
  - destruct (omFind_elem lv p q Htl Hf) as (Hqne & Hq & _).
    destruct (IH Htl Hf) as (X & Y & Hfl & Hnp & He & Hok & Hset & Hsok).
    assert (Hkp : cmp s p k = false ∧ cmp s k p = true).
    { assert (cmp s k p = true).
      { destruct q as [|o q]; [done|]. rewrite Hfl, !Forall_app, Forall_cons in Hlt.
        apply Forall_cons in Hq as [<- _]. tauto. }
      unfold cmp in *. destruct s; lia. }
    destruct Hkp as [-> Hkp]. exists (v ++ X), Y.
    assert (Hk : ∀ lv', flat ((k, v) :: lv') = v ++ flat lv') by done.
    rewrite !Hk, Hfl, He. rewrite Hfl, !Forall_app in Hlt.
    split_and!; try (by rewrite <- app_assoc).
    + rewrite <- app_assoc. apply Forall_app. split; [|done].
      eapply Forall_impl; [exact Hv|]. simpl. intros o ->. lia.
    + apply levels_cons; try done. rewrite He. apply Forall_app. tauto.
    + intros q'. rewrite Hk, Hset. by rewrite <- app_assoc.
    + intros q' Hq' Hp'. apply levels_cons; try done; [by apply Hsok|].
      rewrite Hset, !Forall_app. split_and!; try tauto.
      eapply Forall_impl; [exact Hp'|]. by intros o ->.
Qed.

(** *** Appending to a level *)

Lemma lrest_elem o l x : x ∈ lrest s o l ↔ x = o ∨ x ∈ l.
Proof.
  induction l as [|y l IH]; simpl; [by rewrite list_elem_of_singleton, elem_of_nil; intuition|].
  destruct (noWorse _ _ _); rewrite !elem_of_cons; [rewrite IH|]; intuition.
Qed.

Lemma lrest_perm o l : lrest s o l ≡ₚ o :: l.
Proof.
  induction l as [|y l IH]; simpl; [done|]. destruct (noWorse _ _ _); [|done].
  rewrite IH. apply Permutation_swap.
Qed.

Lemma lrest_pass o q l :
  Forall (λ x, noWorse s (mo_price x) (mo_price o) = true) q → lrest s o (q ++ l) = q ++ lrest s o l.
Proof. induction 1 as [|x q Hx _ IH]; [done|]. simpl. by rewrite Hx, IH. Qed.

Lemma lrest_stop o l :
  Forall (λ x, cmp s (mo_price o) (mo_price x) = true) l → lrest s o l = o :: l.
Proof.
  destruct 1 as [|x l Hx _]; [done|]. simpl.
  assert (noWorse s (mo_price x) (mo_price o) = false) as ->; [|done].
  unfold cmp, noWorse in *. destruct s; lia.
Qed.

Lemma pushBack_ok lv o :
  levels_ok s lv →
  levels_ok s (pushBack s lv (mo_price o) o) ∧
  flat (pushBack s lv (mo_price o) o) = lrest s o (flat lv).
Proof.
  unfold pushBack. induction lv as [|[k v] lv IH]; intros Hlv; cbn [omFind omSet].
  { split; [|done]. apply levels_cons; [done|by constructor|done|constructor]. }
  destruct (levels_tail _ _ Hlv) as (Htl & [Hne Hv] & Hlt). simpl in Hne, Hv, Hlt.
  assert (Hk : ∀ k v lv', flat ((k, v) :: lv') = v ++ flat lv') by done.
  assert (Hpass : noWorse s k (mo_price o) = true →
    Forall (λ x, noWorse s (mo_price x) (mo_price o) = true) v).
  { intros Hw. eapply Forall_impl; [exact Hv|]. simpl. by intros x ->. }
  destruct (mo_price o =? k) eqn:E.
  - assert (k = mo_price o) as -> by lia. cbn [default from_option id]. rewrite !Hk.
    rewrite lrest_pass by (apply Hpass; unfold noWorse; destruct s; lia).
    rewrite lrest_stop by done. split; [|by rewrite <- app_assoc].
    apply levels_cons; [by destruct v| |done|done].
    apply Forall_app. split; [done|by constructor].
  - destruct (cmp s (mo_price o) k) eqn:E2.
    + assert (Hstop : Forall (λ x, cmp s (mo_price o) (mo_price x) = true) (flat ((k, v) :: lv))).
      { rewrite Hk. apply Forall_app. split.
        - eapply Forall_impl; [exact Hv|]. simpl. by intros x ->.
        - eapply Forall_impl; [exact Hlt|]. intros x Hx. unfold cmp in *. destruct s; lia. }
      assert (omFind lv (mo_price o) = None) as ->.
      { destruct (omFind lv (mo_price o)) as [q|] eqn:Hf; [|done].
        destruct (omFind_elem _ _ _ Htl Hf) as (Hqn & Hq & Hin). destruct q as [|x q]; [done|].
        apply Forall_cons in Hq as [Hx _]. rewrite Forall_forall in Hlt.
        pose proof (Hlt x (Hin x (list_elem_of_here _ _))) as Hc. rewrite Hx in Hc.
        unfold cmp in *. destruct s; lia. }
      cbn [default from_option app]. rewrite lrest_stop by done. split; [|done].
      apply levels_cons; [done|by constructor|done|done].
    + destruct (IH Htl) as [IH1 IH2]. rewrite !Hk, IH2.
      rewrite lrest_pass by (apply Hpass; unfold noWorse, cmp in *; destruct s; lia).
      split; [|done]. apply levels_cons; try done. rewrite IH2.
      apply Forall_forall. intros x Hx. apply lrest_elem in Hx as [->|Hx].
      * unfold cmp in *. destruct s; lia.
      * by eapply Forall_forall in Hlt.
Qed.

(** *** Finding an order *)

(** An order of the walk sits in the middle of its level; nothing else has its
    id; replacing it by [os] replaces it in the walk. *)
Record located (lv : Levels) (o : MirrorOrder) (q1 q2 A B : list MirrorOrder) : Prop := {
  lc_level : omFind lv (mo_price o) = Some (q1 ++ o :: q2);
  lc_flat : flat lv = A ++ o :: B;
  lc_ids : Forall (λ x, mo_id x ≠ mo_id o) (A ++ B);
  lc_front : Forall (λ x, mo_id x ≠ mo_id o) q1;
  lc_price : Forall (λ x, mo_price x = mo_price o) (q1 ++ q2);
  lc_set os : flat (omSet (cmp s) lv (mo_price o) (q1 ++ os ++ q2)) = A ++ os ++ B;
  lc_set_ok os : q1 ++ os ++ q2 ≠ [] → Forall (λ x, mo_price x = mo_price o) os →
    levels_ok s (omSet (cmp s) lv (mo_price o) (q1 ++ os ++ q2));
  lc_erase : q1 ++ q2 = [] →
    flat (omErase lv (mo_price o)) = A ++ B ∧ levels_ok s (omErase lv (mo_price o))
}.

Lemma locate lv o :
  levels_ok s lv → NoDup (mo_id <$> flat lv) → o ∈ flat lv → ∃ q1 q2 A B, located lv o q1 q2 A B.
Proof.
  intros Hlv Hnd Ho. destruct (omFind lv (mo_price o)) as [q|] eqn:Hf.
  2: { exfalso. apply (omFind_None _ _ Hf) in Hlv. rewrite Forall_forall in Hlv. by apply (Hlv o). }
  destruct (omFind_flat lv _ q Hlv Hf) as (X & Y & Hfl & Hnp & He & Heok & Hset & Hsok).
  destruct (omFind_elem lv _ q Hlv Hf) as (_ & Hq & _).
  assert (Hoq : o ∈ q).
  { rewrite Hfl, !elem_of_app in Ho. destruct Ho as [Ho|[Ho|Ho]]; [exfalso|done|exfalso];
      rewrite Forall_forall in Hnp; (apply (Hnp o); [apply elem_of_app; auto|done]). }
  apply list_elem_of_split in Hoq as (q1 & q2 & ->).
  assert (Hsplit : flat lv = (X ++ q1) ++ o :: (q2 ++ Y)).
  { rewrite Hfl. by rewrite <- !app_assoc. }
  assert (Hids : Forall (λ x, mo_id x ≠ mo_id o) ((X ++ q1) ++ (q2 ++ Y))).
  { rewrite Hsplit, fmap_app, fmap_cons in Hnd.
    apply NoDup_app in Hnd as (_ & Hd & [Hn2 _]%NoDup_cons).
    apply Forall_app. split; apply Forall_forall; intros x Hx He'.
    - apply (Hd (mo_id x)); [by apply list_elem_of_fmap_2|]. rewrite He'. by left.
    - apply Hn2. rewrite <- He'. by apply list_elem_of_fmap_2. }
  rewrite Forall_app, Forall_cons in Hq. exists q1, q2, (X ++ q1), (q2 ++ Y). split; try done.
  - rewrite !Forall_app in Hids. tauto.
  - apply Forall_app. tauto.
  - intros os. rewrite Hset. by rewrite <- !app_assoc.
  - intros os Hne Hos. apply Hsok; [done|]. rewrite !Forall_app. tauto.
  - intros [-> ->]%app_nil. simpl in *. by rewrite app_nil_r.
Qed.

Lemma eraseFirst_split id q1 o q2 :
  Forall (λ x, mo_id x ≠ id) q1 → mo_id o = id → eraseFirst id (q1 ++ o :: q2) = q1 ++ q2.
Proof.
  intros Hq <-. induction Hq as [|x q1 Hx _ IH]; simpl.
  - by rewrite Z.eqb_refl.
  - destruct (mo_id x =? mo_id o) eqn:E; [lia|]. by rewrite IH.
Qed.

Lemma reduceFirst_split id qty q1 o q2 :
  Forall (λ x, mo_id x ≠ id) q1 → mo_id o = id →
  reduceFirst id qty (q1 ++ o :: q2)
  = Some (q1 ++ withRemaining o (s64 (mo_remaining o - qty)) :: q2, s64 (mo_remaining o - qty)).
Proof.
  intros Hq <-. induction Hq as [|x q1 Hx _ IH]; simpl.
  - by rewrite Z.eqb_refl.
  - destruct (mo_id x =? mo_id o) eqn:E; [lia|]. by rewrite IH.
Qed.

Lemma eraseFromLevels_ok lv o q1 q2 A B :
  located lv o q1 q2 A B →
  levels_ok s (eraseFromLevels s lv (mo_price o) (mo_id o)) ∧
  flat (eraseFromLevels s lv (mo_price o) (mo_id o)) = A ++ B.
Proof.
  intros [Hl Hfl Hid Hfr Hpr Hset Hsok Her]. unfold eraseFromLevels. rewrite Hl.
  rewrite eraseFirst_split by done. destruct (q1 ++ q2) as [|x q] eqn:E.
  - destruct Her as [-> ?]; done.
  - rewrite <- E. split; [apply (Hsok []); [simpl; by rewrite E|constructor]|apply (Hset [])].
Qed.
End side.

(** *** The walk under erase and reduce *)

Lemma lerase_none id l : Forall (λ x, mo_id x ≠ id) l → lerase id l = l.
Proof. apply filter_all. Qed.

Lemma lerase_split id A o B :
  Forall (λ x, mo_id x ≠ id) (A ++ B) → mo_id o = id → lerase id (A ++ o :: B) = A ++ B.
Proof.
  intros [HA HB]%Forall_app Ho. unfold lerase. rewrite filter_app, filter_cons_False by naive_solver.
  by rewrite !filter_all.
Qed.

Lemma lreduce_none id qty l : Forall (λ x, mo_id x ≠ id) l → lreduce id qty l = l.
Proof.
  induction 1 as [|x l Hx _ IH]; [done|]. simpl. rewrite IH.
  unfold reduced1. destruct (mo_id x =? id) eqn:E; [lia|done].
Qed.

Lemma lreduce_app id qty A B : lreduce id qty (A ++ B) = lreduce id qty A ++ lreduce id qty B.
Proof. induction A as [|o A IH]; simpl; [done|]. rewrite IH. by destruct (reduced1 id qty o). Qed.

Lemma lreduce_split id qty A o B :
  Forall (λ x, mo_id x ≠ id) (A ++ B) → mo_id o = id →
  let r := s64 (mo_remaining o - qty) in
  lreduce id qty (A ++ o :: B) = A ++ (if r <=? 0 then [] else [withRemaining o r]) ++ B.
Proof.
  intros [HA HB]%Forall_app Ho. cbv zeta. rewrite lreduce_app. simpl.
  rewrite !lreduce_none by done. unfold reduced1. rewrite Ho, Z.eqb_refl. by destruct (_ <=? 0).
Qed.

(** ** The mirror's operations *)

Lemma ids_perm m s : ids m ≡ₚ mo_id <$> (flat (levelsOf m s) ++ flat (levelsOf m (opposite s))).
Proof. unfold ids. destruct s; simpl; [done|]. by rewrite Permutation_app_comm. Qed.

Lemma ids_side m s : mirror_ok m → NoDup (mo_id <$> flat (levelsOf m s)).
Proof.
  intros Hm. pose proof (mk_ids _ Hm) as Hn. rewrite (ids_perm m s), fmap_app in Hn.
  by apply NoDup_app in Hn as [? _].
Qed.

Lemma ids_other m s o x :
  mirror_ok m → o ∈ flat (levelsOf m s) → x ∈ flat (levelsOf m (opposite s)) → mo_id x ≠ mo_id o.
Proof.
  intros Hm Ho Hx He. pose proof (mk_ids _ Hm) as Hn. rewrite (ids_perm m s), fmap_app in Hn.
  apply NoDup_app in Hn as (_ & Hd & _). apply (Hd (mo_id o)); [by apply list_elem_of_fmap_2|].
  rewrite <- He. by apply list_elem_of_fmap_2.
Qed.

(** An id that is not indexed is nowhere in the walk. *)
Lemma index_None m id s :
  mirror_ok m → bm_index m !! id = None → Forall (λ x, mo_id x ≠ id) (flat (levelsOf m s)).
Proof.
  intros Hm Hn. apply Forall_forall. intros x Hx He.
  assert (bm_index m !! id = Some (s, mo_price x)) by (apply (mk_index _ Hm); eauto). congruence.
Qed.

Lemma levelsOf_setLevels m s lv s' :
  levelsOf (setLevels m s lv) s' = if decide (s = s') then lv else levelsOf m s'.
Proof. by destruct s, s'. Qed.

Lemma setLevels_index m s lv : bm_index (setLevels m s lv) = bm_index m.
Proof. by destruct s. Qed.

Lemma levelsOf_setIndex m ix s : levelsOf (setIndex m ix) s = levelsOf m s.
Proof. by destruct s. Qed.

(** Replacing the walk of one side, when ids and prices stay accounted for. *)
Lemma mirror_update m s lv ix :
  mirror_ok m → levels_ok s lv → NoDup (mo_id <$> flat lv) →
  (∀ x y, x ∈ flat lv → y ∈ flat (levelsOf m (opposite s)) → mo_id x ≠ mo_id y) →
  (∀ id p, ix !! id = Some (s, p) ↔ ∃ o, o ∈ flat lv ∧ mo_id o = id ∧ mo_price o = p) →
  (∀ id p, ix !! id = Some (opposite s, p) ↔ bm_index m !! id = Some (opposite s, p)) →
  mirror_ok (setIndex (setLevels m s lv) ix).
Proof.
  intros Hm Hlv Hnd Hdisj Hix1 Hix2. split.
  - intros s'. rewrite levelsOf_setIndex, levelsOf_setLevels. case_decide as Hs; [by subst|].
    apply (mk_levels _ Hm).
  - rewrite (ids_perm _ s), !levelsOf_setIndex, !levelsOf_setLevels.
    rewrite decide_True by done. rewrite decide_False by (by destruct s).
    rewrite fmap_app. apply NoDup_app. split_and!; [done| |].
    + intros id (x & -> & Hx)%list_elem_of_fmap (y & Hid & Hy)%list_elem_of_fmap.
      by apply (Hdisj x y Hx Hy).
    + by apply ids_side.
  - intros id s' p. rewrite levelsOf_setIndex, levelsOf_setLevels. simpl.
    case_decide as Hs; [subst; apply Hix1|].
    assert (s' = opposite s) as -> by (by destruct s, s'). rewrite Hix2. apply (mk_index _ Hm).
Qed.

Section replace_one.
Context (m : BookMirror) (s : Side) (o : MirrorOrder) (q1 q2 A B : list MirrorOrder).
Hypothesis Hm : mirror_ok m.
Hypothesis Hl : located s (levelsOf m s) o q1 q2 A B.

Lemma located_index x : x ∈ A ++ o :: B → bm_index m !! mo_id x = Some (s, mo_price x).
Proof using Hm Hl. intros Hx. apply (mk_index _ Hm). exists x. by rewrite (lc_flat _ _ _ _ _ _ _ Hl). Qed.

Lemma located_nodup : NoDup (mo_id <$> A ++ o :: B).
Proof using Hm Hl. rewrite <- (lc_flat _ _ _ _ _ _ _ Hl). by apply ids_side. Qed.

Lemma remove_one lv :
  levels_ok s lv → flat lv = A ++ B →
  mirror_ok (setIndex (setLevels m s lv) (delete (mo_id o) (bm_index m))).
Proof using Hm Hl.
  intros Hlv Hfl. pose proof (lc_ids _ _ _ _ _ _ _ Hl) as Hids. rewrite Forall_forall in Hids.
  assert (Hin : ∀ x, x ∈ A ++ B → x ∈ A ++ o :: B).
  { intros x. rewrite !elem_of_app, elem_of_cons. tauto. }
  apply mirror_update; try done.
  - rewrite Hfl. pose proof located_nodup as Hn. rewrite !fmap_app, fmap_cons in *.
    eapply sublist_NoDup; [exact Hn|]. apply sublist_app; [done|]. by apply sublist_cons.
  - intros x y Hx Hy He. rewrite Hfl in Hx. apply (ids_other m s x y Hm); [|done|done].
    rewrite (lc_flat _ _ _ _ _ _ _ Hl). by apply Hin.
  - intros id p. rewrite lookup_delete_Some, Hfl, (mk_index _ Hm), (lc_flat _ _ _ _ _ _ _ Hl).
    split.
    + intros (Hne & x & Hx & <- & Hp). exists x. split; [|done].
      rewrite elem_of_app, elem_of_cons in Hx. rewrite elem_of_app.
      destruct Hx as [?|[->|?]]; [by left|done|by right].
    + intros (x & Hx & <- & Hp). split; [|exists x; split; [by apply Hin|done]].
      by apply not_eq_sym, Hids.
  - intros id p. rewrite lookup_delete_Some. split; [by intros [_ ?]|]. intros Hid.
    split; [|done]. intros <-. rewrite (located_index o) in Hid; [by destruct s|].
    apply elem_of_app. right. by left.
Qed.

Lemma change_one o' lv :
  levels_ok s lv → flat lv = A ++ o' :: B → mo_id o' = mo_id o → mo_price o' = mo_price o →
  mirror_ok (setLevels m s lv).
Proof using Hm Hl.
  intros Hlv Hfl Hid Hpr. assert (setLevels m s lv = setIndex (setLevels m s lv) (bm_index m)) as ->.
  { destruct s; by destruct m. }
  apply mirror_update; try done.
  - rewrite Hfl, fmap_app, fmap_cons, Hid. rewrite <- fmap_cons, <- fmap_app. apply located_nodup.
  - intros x y Hx Hy He. rewrite Hfl, elem_of_app, elem_of_cons in Hx.
    assert (∃ x', x' ∈ A ++ o :: B ∧ mo_id x' = mo_id x) as (x' & Hx' & Hxid).
    { setoid_rewrite elem_of_app. setoid_rewrite elem_of_cons.
      destruct Hx as [?|[->|?]]; [exists x|exists o|exists x]; auto. }
    apply (ids_other m s x' y Hm); [by rewrite (lc_flat _ _ _ _ _ _ _ Hl)|done|congruence].
  - intros id p. rewrite (mk_index _ Hm), Hfl, (lc_flat _ _ _ _ _ _ _ Hl).
    setoid_rewrite elem_of_app. setoid_rewrite elem_of_cons. split.
    + intros (x & [?|[->|?]] & H1 & H2); [exists x|exists o'|exists x]; naive_solver congruence.
    + intros (x & [?|[->|?]] & H1 & H2); [exists x|exists o|exists x]; naive_solver congruence.
Qed.
End replace_one.

(** The walk of the other side has none of this side's ids. *)
Lemma other_untouched m s o :
  mirror_ok m → o ∈ flat (levelsOf m s) →
  Forall (λ x, mo_id x ≠ mo_id o) (flat (levelsOf m (opposite s))).
Proof. intros Hm Ho. apply Forall_forall. intros x Hx. by eapply ids_other. Qed.

Lemma mirror_erase_ok m id :
  mirror_ok m →
  mirror_ok (erase m id) ∧
  ∀ s, flat (levelsOf (erase m id) s) = lerase id (flat (levelsOf m s)).
Proof.
  intros Hm. unfold erase. destruct (bm_index m !! id) as [[s p]|] eqn:Hix.
  2: { split; [done|]. intros s. symmetry. apply lerase_none. by apply index_None. }
  apply (mk_index _ Hm) in Hix as (o & Ho & <- & <-).
  destruct (locate s _ o (mk_levels _ Hm s) (ids_side m s Hm) Ho) as (q1 & q2 & A & B & Hl).
  destruct (eraseFromLevels_ok s _ _ _ _ _ _ Hl) as [Hlv Hfl]. unfold eraseFrom. cbn [fst snd].
  rewrite setLevels_index. split; [by eapply remove_one|].
  intros s'. rewrite levelsOf_setIndex, levelsOf_setLevels. case_decide as Hs.
  - subst s'. rewrite Hfl, (lc_flat _ _ _ _ _ _ _ Hl). symmetry.
    apply lerase_split; [apply (lc_ids _ _ _ _ _ _ _ Hl)|done].
  - assert (s' = opposite s) as -> by (by destruct s, s').
    symmetry. apply lerase_none. by apply other_untouched.
Qed.

Lemma mirror_reduce_ok m id qty :
  mirror_ok m →
  mirror_ok (reduce m id qty) ∧
  ∀ s, flat (levelsOf (reduce m id qty) s) = lreduce id qty (flat (levelsOf m s)).
Proof.
  intros Hm. unfold reduce. destruct (bm_index m !! id) as [[s p]|] eqn:Hix.
  2: { split; [done|]. intros s. symmetry. apply lreduce_none. by apply index_None. }
  apply (mk_index _ Hm) in Hix as (o & Ho & <- & <-).
  destruct (locate s _ o (mk_levels _ Hm s) (ids_side m s Hm) Ho) as (q1 & q2 & A & B & Hl).
  cbn [fst snd]. rewrite (lc_level _ _ _ _ _ _ _ Hl).
  rewrite reduceFirst_split by (done || apply (lc_front _ _ _ _ _ _ _ Hl)). cbv zeta.
  set (r := s64 (mo_remaining o - qty)). set (o' := withRemaining o r).
  set (lv1 := omSet _ _ _ (q1 ++ o' :: q2)).
  assert (Hlv1 : levels_ok s lv1).
  { apply (lc_set_ok _ _ _ _ _ _ _ Hl [o']); [by destruct q1|by constructor]. }
  assert (Hfl1 : flat lv1 = A ++ o' :: B) by apply (lc_set _ _ _ _ _ _ _ Hl [o']).
  set (m1 := setLevels m s lv1).
  assert (Hm1 : mirror_ok m1) by (by eapply (change_one m s o q1 q2 A B Hm Hl o')).
  assert (Hside : ∀ s', levelsOf m1 s' = if decide (s = s') then lv1 else levelsOf m s')
    by (intros; apply levelsOf_setLevels).
  assert (Hred : ∀ s', lreduce (mo_id o) qty (flat (levelsOf m s'))
    = if decide (s = s') then A ++ (if r <=? 0 then [] else [o']) ++ B
      else flat (levelsOf m s')).
  { intros s'. case_decide as Hs.
    - subst s'. rewrite (lc_flat _ _ _ _ _ _ _ Hl).
      apply lreduce_split; [apply (lc_ids _ _ _ _ _ _ _ Hl)|done].
    - assert (s' = opposite s) as -> by (by destruct s, s').
      apply lreduce_none. by apply other_untouched. }
  destruct (r <=? 0) eqn:Er.
  - assert (He : setIndex (eraseFrom m1 (s, mo_price o) (mo_id o)) (delete (mo_id o)
        (bm_index (eraseFrom m1 (s, mo_price o) (mo_id o)))) = erase m1 (mo_id o)).
    { unfold erase. assert (bm_index m1 !! mo_id o = Some (s, mo_price o)) as ->; [|done].
      apply (mk_index _ Hm1). exists o'. rewrite Hside, decide_True, Hfl1 by done.
      split; [|done]. apply elem_of_app. right. by left. }
    rewrite He. destruct (mirror_erase_ok m1 (mo_id o) Hm1) as [Hok Hfl]. split; [done|].
    intros s'. rewrite Hfl, Hred, Hside. case_decide as Hs.
    + subst s'. rewrite Hfl1. apply (lerase_split (mo_id o) A o' B); [apply (lc_ids _ _ _ _ _ _ _ Hl)|done].
    + assert (s' = opposite s) as -> by (by destruct s, s').
      apply lerase_none. by apply other_untouched.
  - split; [done|]. intros s'. rewrite Hred, Hside. by case_decide.
Qed.

Lemma mirror_insert_ok m s u :
  mirror_ok m → bm_index m !! u_orderId u = None →
  mirror_ok (insert m s u) ∧
  ∀ s', flat (levelsOf (insert m s u) s')
    = if decide (s = s') then lrest s (mirrorOrderOf u) (flat (levelsOf m s))
      else flat (levelsOf m s').
Proof.
  intros Hm Hno. destruct (pushBack_ok s (levelsOf m s) (mirrorOrderOf u) (mk_levels _ Hm s))
    as [Hlv Hfl]. change (mo_price (mirrorOrderOf u)) with (u_price u) in Hlv, Hfl.
  unfold insert. rewrite setLevels_index. split.
  - apply mirror_update; try done.
    + rewrite Hfl. assert (Hp : lrest s (mirrorOrderOf u) (flat (levelsOf m s))
        ≡ₚ mirrorOrderOf u :: flat (levelsOf m s)) by apply lrest_perm.
      rewrite Hp, fmap_cons. apply NoDup_cons. split; [|by apply ids_side].
      intros (x & Hx & Hin)%list_elem_of_fmap. pose proof (index_None m _ s Hm Hno) as Hf.
      rewrite Forall_forall in Hf. by apply (Hf x).
    + intros x y Hx Hy He. rewrite Hfl in Hx. apply lrest_elem in Hx as [->|Hx].
      * pose proof (index_None m _ (opposite s) Hm Hno) as Hf. rewrite Forall_forall in Hf.
        by apply (Hf y).
      * by apply (ids_other m s x y Hm).
    + intros id p. rewrite Hfl. setoid_rewrite lrest_elem. rewrite lookup_insert_Some. split.
      * intros [[<- [= <-]]|[Hne (x & Hx & H1 & H2)%(mk_index _ Hm)]]; [|by exists x; auto].
        exists (mirrorOrderOf u). auto.
      * intros (x & [->|Hx] & <- & <-); [by left|right].
        assert (Hi : bm_index m !! mo_id x = Some (s, mo_price x)) by (apply (mk_index _ Hm); eauto).
        split; [|done]. congruence.
    + intros id p. rewrite lookup_insert_Some. split.
      * intros [[_ [= ? _]]|[_ ?]]; [by destruct s|done].
      * intros Hi. right. split; [congruence|done].
  - intros s'. rewrite levelsOf_setIndex, levelsOf_setLevels. case_decide; [|done]. by rewrite Hfl.
Qed.
