(* ===== verification/Reconstruction.v ===== *)
(** Market-data reconstruction: a [BookMirror] fed with the events the matching
    thread publishes shows the engine's book. *)
From stdpp Require Import sorting.
From S2P Require Import Prelude Types ObjectPool PriceLevel OrderIdMap LevelMap OrderBook.
From S2P Require Import AbstractBook BookRepr BookMatch BookScan BookRefine BookSpec BookProps.
From S2P Require Import Events MatchingThread BookMirror.

Definition mirrorOf (o : AOrder) : MirrorOrder :=
  mkMirrorOrder (ao_id o) (ao_price o) (ao_quantity o) (ao_remaining o) (ao_participant o) (ao_seq o).

(** The mirror shows the orders and the trade count of [a]. *)
Record shows (m : BookMirror) (a : ABook) : Prop := {
  sh_ok : mirror_ok m;
  sh_flat s : flat (levelsOf m s) = mirrorOf <$> aside a s;
  sh_tid : bm_tradeCount m = ab_tid a
}.

Definition mirrors (m : BookMirror) (a : ABook) : Prop := shows m a ∧ bm_lastSeq m = ab_seq a.

(** ** Lists of trades and of victims *)

Definition reduceAll (ts : list Trade) (l : list MirrorOrder) : list MirrorOrder :=
  foldl (λ l t, lreduce (t_passiveId t) (t_quantity t) l) l ts.

Definition eraseAll (vs : list AOrder) (l : list MirrorOrder) : list MirrorOrder :=
  foldl (λ l v, lerase (ao_id v) l) l vs.

Definition countUp (n : nat) (tid : Z) : Z := Nat.iter n (λ t, s64 (t + 1)) tid.

Lemma countUp_succ n tid : countUp n (s64 (tid + 1)) = countUp (S n) tid.
Proof. unfold countUp. induction n as [|n IH]; simpl; [done|]. by rewrite IH. Qed.

Lemma apply_trades q ts m :
  mirror_ok m →
  let m' := foldl apply m (tradeEvents q ts) in
  mirror_ok m' ∧ (∀ s, flat (levelsOf m' s) = reduceAll ts (flat (levelsOf m s))) ∧
  bm_tradeCount m' = countUp (length ts) (bm_tradeCount m) ∧ bm_lastSeq m' = bm_lastSeq m.
Proof.
  revert m. induction ts as [|t ts IH]; intros m Hm; [done|].
  change (tradeEvents q (t :: ts)) with (tradeEvent t q :: tradeEvents q ts). cbn [foldl].
  destruct (mirror_reduce_ok m (t_passiveId t) (t_quantity t) Hm) as [Hm1 Hf1].
  set (m1 := apply m (tradeEvent t q)).
  assert (Hl1 : ∀ s, levelsOf m1 s = levelsOf (reduce m (t_passiveId t) (t_quantity t)) s)
    by (by intros []).
  assert (Hok1 : mirror_ok m1).
  { destruct Hm1 as [H1 H2 H3]. split; [|done|]; intros; rewrite Hl1; auto. }
  assert (Hs : bm_lastSeq (reduce m (t_passiveId t) (t_quantity t)) = bm_lastSeq m ∧
    bm_tradeCount (reduce m (t_passiveId t) (t_quantity t)) = bm_tradeCount m).
  { unfold reduce. repeat case_match; try done; by destruct p as [[] ?]. }
  destruct (IH m1 Hok1) as (IH1 & IH2 & IH3 & IH4). split_and!; [done| | |].
  - intros s. rewrite IH2, Hl1, Hf1. done.
  - rewrite IH3. cbn [length]. rewrite <- countUp_succ. f_equal.
    change (bm_tradeCount m1)
      with (s64 (bm_tradeCount (reduce m (t_passiveId t) (t_quantity t)) + 1)).
    by rewrite (proj2 Hs).
  - rewrite IH4. apply Hs.
Qed.

(** A cancellation of an order the mirror knows, with an arrival number it has
    already seen. *)
Lemma apply_cancelled q s u m :
  mirror_ok m → u_seq u <= bm_lastSeq m →
  let m' := apply m (orderUpdateEvent Cancelled s u q Ok) in
  mirror_ok m' ∧ (∀ s, flat (levelsOf m' s) = lerase (u_orderId u) (flat (levelsOf m s))) ∧
  bm_tradeCount m' = bm_tradeCount m ∧ bm_lastSeq m' = bm_lastSeq m.
Proof.
  intros Hm Hq. unfold apply, applyOrderUpdate. cbn.
  destruct (bm_lastSeq m <? u_seq u) eqn:E; [lia|].
  destruct (mirror_erase_ok m (u_orderId u) Hm) as [H1 H2]. split_and!; [done|done| |];
    unfold erase, eraseFrom, setLevels; by repeat case_match.
Qed.

Lemma apply_victims q vs m :
  mirror_ok m → Forall (λ v, ao_seq v <= bm_lastSeq m) vs →
  let m' := foldl apply m (victimEvents q vs) in
  mirror_ok m' ∧ (∀ s, flat (levelsOf m' s) = eraseAll vs (flat (levelsOf m s))) ∧
  bm_tradeCount m' = bm_tradeCount m ∧ bm_lastSeq m' = bm_lastSeq m.
Proof.
  revert m. induction vs as [|v vs IH]; intros m Hm Hv; [done|].
  apply Forall_cons in Hv as [Hv Hvs]. 
  change (victimEvents q (v :: vs)) with
    (orderUpdateEvent Cancelled (ao_side v) (victimUpdate (avictim v)) q Ok :: victimEvents q vs).
  cbn [foldl].
  destruct (apply_cancelled q (ao_side v) (victimUpdate (avictim v)) m Hm Hv) as (H1 & H2 & H3 & H4).
  set (m1 := apply m _) in *. destruct (IH m1 H1) as (IH1 & IH2 & IH3 & IH4).
  { by rewrite H4. }
  split_and!; [done| |congruence|congruence]. intros s. rewrite IH2, H2. done.
Qed.

(** ** A walk down the book, seen by the mirror *)

Lemma lreduce_ids id q l x : x ∈ lreduce id q l → ∃ y, y ∈ l ∧ mo_id x = mo_id y.
Proof.
  induction l as [|o l IH]; simpl; [by intros ?%elem_of_nil|].
  assert (Hl : x ∈ lreduce id q l → ∃ y, y ∈ o :: l ∧ mo_id x = mo_id y).
  { intros (y & Hy & He)%IH. exists y. split; [by right|done]. }
  destruct (reduced1 id q o) as [o'|] eqn:Er; [|done]. intros [->|Hx]%elem_of_cons; [|by apply Hl].
  exists o. split; [by left|]. unfold reduced1 in Er. repeat case_match; by simplify_eq.
Qed.

Lemma reduceAll_ids ts l x : x ∈ reduceAll ts l → ∃ y, y ∈ l ∧ mo_id x = mo_id y.
Proof.
  revert l. induction ts as [|t ts IH]; intros l Hx; [by exists x|].
  destruct (IH _ Hx) as (y & Hy & Hxy). apply lreduce_ids in Hy as (z & Hz & Hyz).
  exists z. split; [done|congruence].
Qed.

(** Fills and removals that name other orders leave an order in place. *)
Lemma reduceAll_cons ts o l :
  Forall (λ t, t_passiveId t ≠ mo_id o) ts → reduceAll ts (o :: l) = o :: reduceAll ts l.
Proof.
  revert l. induction ts as [|t ts IH]; intros l; [done|]. intros [Ht Hts]%Forall_cons.
  unfold reduceAll in *. simpl. unfold reduced1. destruct (mo_id o =? t_passiveId t) eqn:E; [lia|].
  by apply IH.
Qed.

Lemma eraseAll_cons vs o l :
  Forall (λ v, ao_id v ≠ mo_id o) vs → eraseAll vs (o :: l) = o :: eraseAll vs l.
Proof.
  revert l. induction vs as [|v vs IH]; intros l; [done|]. intros [Hv Hvs]%Forall_cons.
  unfold eraseAll in *. simpl. unfold lerase at 2. rewrite filter_cons_True by congruence.
  by apply IH.
Qed.

Lemma eraseAll_head o vs l :
  Forall (λ x, mo_id x ≠ ao_id o) l → eraseAll (o :: vs) (mirrorOf o :: l) = eraseAll vs l.
Proof.
  intros Hl. unfold eraseAll. simpl. f_equal. unfold lerase.
  rewrite filter_cons_False by naive_solver. by apply filter_all.
Qed.

(** A fill of the first order: gone if it was the whole of it, reduced in place
    otherwise. *)
Lemma reduceAll_head inc tid rem o ts l :
  0 < ao_remaining o <= INT64_MAX → negb (0 <? rem) = false →
  Forall (λ x, mo_id x ≠ ao_id o) l →
  let qy := Z.min rem (ao_remaining o) in
  reduceAll (atrade inc tid o qy :: ts) (mirrorOf o :: l)
  = reduceAll ts (if ao_remaining o - qy =? 0 then l
                  else mirrorOf (with_aremaining o (ao_remaining o - qy)) :: l).
Proof.
  intros Hr Hrem Hl. cbv zeta. unfold reduceAll. simpl. f_equal. unfold reduced1. simpl.
  rewrite Z.eqb_refl, lreduce_none by done.
  s64_small.
  destruct (_ =? 0) eqn:E1, (_ <=? 0) eqn:E2; try lia; done.
Qed.

Lemma reduceAll_none ts l :
  Forall (λ t, Forall (λ x, mo_id x ≠ t_passiveId t) l) ts → reduceAll ts l = l.
Proof.
  induction 1 as [|t ts Ht _ IH]; [done|]. unfold reduceAll in *. simpl. by rewrite lreduce_none.
Qed.

Lemma eraseAll_none vs l :
  Forall (λ v, Forall (λ x, mo_id x ≠ ao_id v) l) vs → eraseAll vs l = l.
Proof.
  induction 1 as [|v vs Hv _ IH]; [done|]. unfold eraseAll in *. simpl. by rewrite lerase_none.
Qed.

(** The ids a walk touches are ids of the list it walks. *)
Lemma amatch_names stp inc tid rem os :
  Forall (λ t, t_passiveId t ∈ ao_id <$> os) (am_trades (amatch stp inc tid rem os)) ∧
  Forall (λ v, v ∈ os) (am_victims (amatch stp inc tid rem os)).
Proof.
  split.
  - eapply Forall_impl; [apply amatch_trades|]. intros t [_ (o & Ho & -> & _) _].
    by apply list_elem_of_fmap_2.
  - revert tid rem. induction os as [|o os IH]; intros tid rem; simpl; [done|].
    assert (Hmono : ∀ tid rem, Forall (λ v, v ∈ o :: os) (am_victims (amatch stp inc tid rem os))).
    { intros. eapply Forall_impl; [apply IH|]. intros v Hv. by right. }
    destruct (negb (0 <? rem)); [done|]. destruct (negb _); [done|].
    destruct (ao_participant o =? n_participant inc).
    + destruct stp; [done| |]; constructor; try (by left); try done; apply Hmono.
    + destruct (_ =? 0); [apply Hmono|done].
Qed.

Lemma amatch_tid stp inc tid rem os :
  am_tid (amatch stp inc tid rem os) = countUp (length (am_trades (amatch stp inc tid rem os))) tid.
Proof.
  revert tid rem. induction os as [|o os IH]; intros tid rem; simpl; [done|].
  destruct (negb (0 <? rem)); [done|]. destruct (negb _); [done|].
  destruct (ao_participant o =? n_participant inc).
  - destruct stp; [done| |done]. apply IH.
  - destruct (_ =? 0); [|done]. simpl am_tid. simpl am_trades. cbn [length].
    rewrite IH. apply countUp_succ.
Qed.

(** Applying the trades and then the removals to what was there gives what is
    left, although the walk interleaves them. *)
Lemma amatch_mirrored stp inc tid rem os :
  NoDup (ao_id <$> os) → Forall (λ o, 0 < ao_remaining o <= INT64_MAX) os →
  let r := amatch stp inc tid rem os in
  eraseAll (am_victims r) (reduceAll (am_trades r) (mirrorOf <$> os)) = mirrorOf <$> am_rest r.
Proof.
  intros Hnd Hpos. revert tid rem. induction os as [|o os IH]; intros tid rem; [done|].
  rewrite !fmap_cons in *. cbn [amatch]. apply NoDup_cons in Hnd as [Ho Hnd]. apply Forall_cons in Hpos as [Hr Hpos].
  specialize (IH Hnd Hpos).
  assert (Hfresh : Forall (λ x, mo_id x ≠ ao_id o) (mirrorOf <$> os)).
  { apply Forall_fmap, Forall_forall. simpl. intros x Hx He. apply Ho. rewrite <- He.
    by apply list_elem_of_fmap_2. }
  destruct (amatch_names stp inc tid rem os) as [Hnt _].
  destruct (negb (0 <? rem)) eqn:Erem; [done|]. destruct (negb (crosses _ _ _ _)); [done|].
  destruct (ao_participant o =? n_participant inc).
  - destruct stp; [done| |].
    + cbn [am_rest am_trades am_victims]. rewrite reduceAll_cons.
      * rewrite eraseAll_head; [apply IH|]. apply Forall_forall. intros x Hx.
        apply reduceAll_ids in Hx as (y & Hy & ->). rewrite Forall_forall in Hfresh. by apply Hfresh.
      * eapply Forall_impl; [exact Hnt|]. simpl. intros t Ht He. apply Ho. by rewrite <- He.
    + cbn [am_rest am_trades am_victims]. by apply (eraseAll_head o []).
  - destruct (ao_remaining o - _ =? 0) eqn:Eq; cbn [am_rest am_trades am_victims].
    + rewrite reduceAll_head; [|done..]. rewrite Eq. apply IH.
    + rewrite reduceAll_head; [|done..]. by rewrite Eq.
Qed.

(** What a fate event says about an accepted order. *)
Lemma adispose_echo c a1 inc sq r :
  let out := adispose c a1 inc sq r in
  let res := out_result out in
  r_price res = n_price inc ∧ r_quantity res = n_quantity inc ∧
  r_participant res = n_participant inc ∧ r_seq res = sq ∧ r_side res = n_side inc ∧
  ab_seq (out_book out) = ab_seq a1 ∧ ab_tid (out_book out) = ab_tid a1.
Proof.
  cbv zeta. unfold adispose.
  destruct (am_outcome r), (n_type inc); try (repeat split; done);
    (destruct (0 <? am_remaining r); [destruct (_ <? cfg_maxOrders c)|]); try (repeat split; done);
    by destruct (n_side inc).
Qed.

Lemma lrest_arest s o os : lrest s (mirrorOf o) (mirrorOf <$> os) = mirrorOf <$> arest s o os.
Proof.
  induction os as [|x os IH]; [done|]. rewrite fmap_cons. cbn [lrest arest mirrorOf mo_price].
  destruct (noWorse _ _ _); [|done]. by rewrite fmap_cons, IH.
Qed.

(** An id the abstract book does not know is not in the mirror's index. *)
Lemma shows_unknown m a id : shows m a → afind a id = None → bm_index m !! id = None.
Proof.
  intros [Hm Hf _] Hn. rewrite afind_None in Hn. destruct (bm_index m !! id) as [[s p]|] eqn:Hix; [|done].
  apply (mk_index _ Hm) in Hix as (o & Ho & Hid & _). rewrite Hf in Ho.
  apply list_elem_of_fmap in Ho as (x & -> & Hx). exfalso. apply (Hn x); [|done].
  unfold aresting. apply elem_of_app. destruct s; auto.
Qed.

Lemma averdict_fresh c a inc : averdict c a inc = None → afind a (n_id inc) = None.
Proof.
  unfold averdict. intros Hv. destruct (n_quantity inc <=? 0); [done|].
  destruct (_ && negb _); [done|].
  destruct (bool_decide (afind a (n_id inc) ≠ None)) eqn:E; [done|].
  by apply bool_decide_eq_false, dec_stable in E.
Qed.

Lemma afind_elem a id o : afind a id = Some o → o ∈ aresting a ∧ ao_id o = id.
Proof.
  unfold afind. intros ([i x] & Hf & ->)%fmap_Some. apply list_find_Some in Hf as (Hl & Hx & _).
  split; [by apply list_elem_of_lookup_2 in Hl|done].
Qed.

Lemma lerase_fmap id os :
  lerase id (mirrorOf <$> os) = mirrorOf <$> filter (λ o, ao_id o ≠ id) os.
Proof.
  induction os as [|o os IH]; [done|]. rewrite fmap_cons. unfold lerase in *.
  destruct (decide (ao_id o = id)) as [He|Hne].
  - by rewrite !filter_cons_False by (simpl; tauto).
  - rewrite !filter_cons_True by done. by rewrite fmap_cons, IH.
Qed.

Section replay.
Context (c : BookConfig).

(** After the trades and removals of an accepted order the mirror shows the book
    matching has left. *)
Lemma apply_matched m a inc q :
  mirrors m a → wf c a →
  let r := amatched c a inc in
  let m' := foldl apply m (tradeEvents q (am_trades r) ++ victimEvents q (am_victims r)) in
  shows m' (set_acounters (aafter c a inc) (ab_seq a) (am_tid r)) ∧ bm_lastSeq m' = ab_seq a.
Proof.
  intros [[Hm Hf Ht] Hs] Hw r. rewrite foldl_app.
  destruct (apply_trades q (am_trades r) m Hm) as (Hm1 & Hf1 & Ht1 & Hs1).
  set (m1 := foldl apply m _) in *. set (opp := opposite (n_side inc)).
  destruct (amatch_names (cfg_stp c) inc (ab_tid a) (n_quantity inc) (aside a opp)) as [Hnt Hnv].
  destruct (apply_victims q (am_victims r) m1 Hm1) as (Hm2 & Hf2 & Ht2 & Hs2).
  { rewrite Hs1, Hs. eapply Forall_impl; [exact Hnv|]. simpl. intros v Hv.
    pose proof (wf_orders _ _ Hw opp) as Ho. rewrite Forall_forall in Ho. apply (ow_seq _ _ _ _ (Ho v Hv)). }
  pose proof (wf_ids _ _ Hw) as Hids.
  assert (Hids2 : NoDup (ao_id <$> aside a opp) ∧
    ∀ x y, x ∈ aside a opp → y ∈ aside a (n_side inc) → ao_id y ≠ ao_id x).
  { unfold aresting in Hids. rewrite fmap_app in Hids. apply NoDup_app in Hids as (H1 & H2 & H3).
    unfold opp. destruct (n_side inc); simpl; (split; [done|]); intros x y Hx Hy He;
      (eapply H2; [by apply list_elem_of_fmap_2|]); rewrite He || rewrite <- He;
      by apply list_elem_of_fmap_2. }
  destruct Hids2 as [Hnd Hdis]. split; [|congruence]. split; [done| |].
  - intros s. rewrite Hf2, Hf1, Hf. destruct (decide (s = opp)) as [->|Hne].
    + assert (aside (set_acounters (aafter c a inc) (ab_seq a) (am_tid r)) opp = am_rest r) as ->
        by (unfold aafter, opp, r; by destruct (n_side inc)).
      apply amatch_mirrored; [done|]. eapply Forall_impl; [apply (wf_orders _ _ Hw)|].
      intros o [_ _ _ H4 H5 _]. lia.
    + assert (s = n_side inc) as -> by (unfold opp in Hne; by destruct s, (n_side inc)).
      assert (aside (set_acounters (aafter c a inc) (ab_seq a) (am_tid r)) (n_side inc)
              = aside a (n_side inc)) as -> by (unfold aafter; by destruct (n_side inc)).
      rewrite reduceAll_none, eraseAll_none; [done| |].
      * eapply Forall_impl; [exact Hnv|]. simpl. intros v Hv. apply Forall_fmap, Forall_forall.
        intros y Hy. by apply Hdis.
      * eapply Forall_impl; [exact Hnt|]. simpl. intros t (x & -> & Hx)%list_elem_of_fmap.
        apply Forall_fmap, Forall_forall. intros y Hy. by apply Hdis.
  - rewrite Ht2, Ht1, Ht. simpl. symmetry. apply amatch_tid.
Qed.

Lemma aafter_unknown a inc id : wf c a → afind a id = None → afind (aafter c a inc) id = None.
Proof.
  intros Hw. rewrite !afind_None. intros Hno o Ho. apply elem_of_app in Ho.
  assert (∃ s, o ∈ aside (aafter c a inc) s) as [s Hos]
    by (destruct Ho; [by exists Buy|by exists Sell]).
  destruct (shrinks_elem _ _ _ (aafter_shrinks c a inc s Hw) Hos) as (x & Hx & Hred).
  rewrite (proj1 (reduced_key _ _ Hred)). apply Hno. apply elem_of_app. destruct s; auto.
Qed.

(** The arrival counter is not part of what a mirror shows. *)
Lemma shows_seq m a sq : shows m a → shows (seedCounters m sq (bm_tradeCount m)) a.
Proof.
  intros [[H1 H2 H3] Hf Ht]. split; [split| |done].
  - intros []; [apply (H1 Buy)|apply (H1 Sell)].
  - done.
  - intros id [] p; [apply (H3 id Buy p)|apply (H3 id Sell p)].
  - intros []; [apply (Hf Buy)|apply (Hf Sell)].
Qed.

(** An order joins the mirror. *)
Lemma shows_rested m a o :
  shows m a → afind a (ao_id o) = None →
  let u := mkUpdate (ao_id o) (ao_price o) (ao_quantity o) (ao_remaining o) (ao_participant o) (ao_seq o) in
  let m' := insert m (ao_side o) u in
  shows m' (set_aside a (ao_side o) (arest (ao_side o) o (aside a (ao_side o)))) ∧
  bm_lastSeq m' = bm_lastSeq m.
Proof.
  intros Hsh Hno u. pose proof (shows_unknown _ _ _ Hsh Hno) as Hix. destruct Hsh as [Hm Hf Ht].
  destruct (mirror_insert_ok m (ao_side o) u Hm Hix) as [Hm' Hf']. split.
  - split; [done| |].
    + intros s. rewrite Hf', aside_set_aside. destruct (decide (ao_side o = s)); [|apply Hf].
      rewrite Hf. apply (lrest_arest (ao_side o) o).
    + unfold insert, setLevels, setIndex. by destruct (ao_side o).
  - unfold insert, setLevels, setIndex. by destruct (ao_side o).
Qed.

Lemma adispose_book a1 inc sq r :
  let out := adispose c a1 inc sq r in
  out_book out
  = if r_rested (out_result out)
    then set_aside a1 (n_side inc)
           (arest (n_side inc) (newAOrder inc (am_remaining r) sq) (aside a1 (n_side inc)))
    else a1.
Proof. cbv zeta. unfold adispose. by repeat case_match. Qed.

(** The fate of an accepted order. *)
Lemma apply_fate m a inc q side :
  shows m (aafter c a inc) → bm_lastSeq m = ab_seq a → wf c a → ab_seq a < INT64_MAX →
  afind a (n_id inc) = None →
  let out := aexecute c a inc in
  mirrors (apply m (fateEvent q (n_id inc) side (out_result out))) (out_book out).
Proof.
  intros Hsh Hls Hw Hsq Hno out. pose proof (aafter_wf c a inc Hw Hsq) as [_ Hsq1].
  pose proof (aafter_unknown a inc _ Hw Hno) as Hfree.
  assert (Hs1 : s64 (ab_seq a + 1) = ab_seq a + 1) by exact Hsq1.
  set (r := amatched c a inc) in *.
  destruct (adispose_echo c (aafter c a inc) inc (s64 (ab_seq a + 1)) r)
    as (E1 & E2 & E3 & E4 & E5 & E6 & E7).
  destruct (adispose_facts c (aafter c a inc) inc (s64 (ab_seq a + 1)) r) as (_ & _ & _ & F4 & _).
  pose proof (adispose_book (aafter c a inc) inc (s64 (ab_seq a + 1)) r) as HB.
  cbv zeta in *.
  change (adispose c (aafter c a inc) inc (s64 (ab_seq a + 1)) r) with (aexecute c a inc) in *.
  fold out in E1, E2, E3, E4, E5, E6, E7, F4, HB.
  apply (shows_seq _ _ (ab_seq a + 1)) in Hsh as Hsh1.
  unfold fateEvent, resultUpdate. rewrite E1, E2, E3, E4, E5, F4, Hs1. rewrite Hs1 in HB.
  destruct (r_rested (out_result out)).
  - destruct (shows_rested _ _ (newAOrder inc (am_remaining r) (ab_seq a + 1)) Hsh1 Hfree) as [Hs2 Hl2].
    unfold apply, applyOrderUpdate. simpl. rewrite Hls.
    destruct (ab_seq a <? ab_seq a + 1) eqn:E; [|lia]. split.
    + rewrite HB. exact Hs2.
    + rewrite E6, Hsq1. exact Hl2.
  - unfold apply, applyOrderUpdate. simpl. rewrite Hls.
    destruct (ab_seq a <? ab_seq a + 1) eqn:E; [|lia]. split.
    + rewrite HB. exact Hsh1.
    + by rewrite E6, Hsq1.
Qed.
(** The events of one submission: trades, removals, then the fate of the order. *)
Lemma apply_submission m a inc q side :
  mirrors m a → wf c a → 0 <= ab_seq a < INT64_MAX →
  let out := asubmit c a inc in
  mirrors (foldl apply m (tradeEvents q (out_trades out) ++ victimEvents q (out_victims out) ++
    [fateEvent q (n_id inc) side (out_result out)])) (out_book out).
Proof.
  intros Hmi Hw Hsq out. unfold out, asubmit. destruct (averdict c a inc) as [st|] eqn:Hv.
  - cbn. unfold apply, applyOrderUpdate. simpl. rewrite (proj2 Hmi).
    destruct (ab_seq a <? 0) eqn:E; [lia|done].
  - destruct (adispose_facts c (aafter c a inc) inc (s64 (ab_seq a + 1)) (amatched c a inc))
      as (Ht & Hvi & _). cbv zeta in *.
    change (adispose c (aafter c a inc) inc (s64 (ab_seq a + 1)) (amatched c a inc))
      with (aexecute c a inc) in *. rewrite Ht, Hvi, app_assoc, foldl_app.
    destruct (apply_matched m a inc q Hmi Hw) as [Hs1 Hl1]. cbn [foldl].
    apply apply_fate; [|done|done|lia|by apply averdict_fresh in Hv].
    destruct Hs1 as [H1 H2 H3]. split; [done| |done]. intros s. rewrite H2. by destruct s.
Qed.

(** A cancellation of the resting order [o]. *)
Lemma apply_acancel m a id o q :
  mirrors m a → wf c a → afind a id = Some o →
  mirrors (apply m (orderUpdateEvent Cancelled (ao_side o) (resultUpdate id (cancelResult o)) q Ok))
    (aremove a id).
Proof.
  intros [[Hm Hf Ht] Hs] Hw Ho. apply afind_elem in Ho as [Ho _].
  assert (Hle : ao_seq o <= bm_lastSeq m).
  { rewrite Hs. apply elem_of_app in Ho.
    assert (∃ s, o ∈ aside a s) as [s Hos] by (destruct Ho; [by exists Buy|by exists Sell]).
    pose proof (wf_orders _ _ Hw s) as Hwf. rewrite Forall_forall in Hwf. apply (ow_seq _ _ _ _ (Hwf o Hos)). }
  destruct (apply_cancelled q (ao_side o) (resultUpdate id (cancelResult o)) m Hm Hle)
    as (H1 & H2 & H3 & H4).
  split; [|by rewrite H4]. split; [done| |by rewrite H3]. intros s. rewrite H2, Hf. simpl.
  rewrite lerase_fmap. by destruct s.
Qed.

Lemma apply_dispatch m a cmd q :
  mirrors m a → wf c a → 0 <= ab_seq a < INT64_MAX →
  mirrors (foldl apply m (events q cmd (aanswer c a cmd))) (ans_book (aanswer c a cmd)).
Proof.
  intros Hmi Hw Hsq. unfold aanswer. destruct (cm_kind cmd); cbn [events ans_book].
  - pose proof (apply_submission m a (toNewOrder cmd) q (cm_side cmd) Hmi Hw Hsq) as Hsub.
    cbv zeta in Hsub. rewrite !foldl_app in Hsub |- *. by case_bool_decide.
  - unfold acancel. destruct (afind a (cm_id cmd)) as [o|] eqn:Ho; cbn; [|done].
    by apply apply_acancel.
  - unfold areplace. destruct (bool_decide (afind a (cm_id cmd) = None)) eqn:E0; [done|].
    destruct (n_quantity _ <=? 0); [done|]. destruct (_ && negb (ainRange c _)); [done|].
    destruct (negb (n_id (toFreshOrder cmd) =? cm_id cmd) && _); [done|].
    apply bool_decide_eq_false in E0. unfold acancel.
    destruct (afind a (cm_id cmd)) as [o|] eqn:Ho; [|done]. cbn [fst snd].
    rewrite foldl_app. cbn [foldl].
    pose proof (apply_acancel _ _ _ _ q Hmi Hw Ho) as Hmi1.
    assert (Hw1 : wf c (aremove a (cm_id cmd))).
    { pose proof (acancel_wf c a (cm_id cmd) Hw) as Hw1. unfold acancel in Hw1. by rewrite Ho in Hw1. }
    pose proof (apply_submission _ _ (toFreshOrder cmd) q (cm_side cmd) Hmi1 Hw1 Hsq) as Hsub.
    cbv zeta in Hsub. rewrite !foldl_app in Hsub |- *. exact Hsub.
Qed.
End replay.

(** ** Whole runs *)

Lemma mirrors_run c q a m cmds :
  config_ok c → wf c a → Forall (valid_command c) cmds →
  0 <= ab_seq a → ab_seq a + Z.of_nat (length cmds) <= INT64_MAX → mirrors m a →
  mirrors (foldl apply m (arun c q a cmds).2) (arun c q a cmds).1.
Proof.
  intros Hc. revert q a m. induction cmds as [|cmd cmds IH]; intros q a m Hw Hv H0 Hsq Hmi; [done|].
  apply Forall_cons in Hv as [Hv Hvs]. cbn [arun fst snd length] in *. rewrite foldl_app.
  assert (Hlt : ab_seq a < INT64_MAX) by lia.
  pose proof (answer_seq c a cmd Hw Hlt) as Has.
  apply IH; [|done|lia|lia|by apply apply_dispatch].
  unfold aanswer, valid_command in *. destruct (cm_kind cmd); simpl;
    [by apply asubmit_wf|by apply acancel_wf|by apply areplace_wf].
Qed.

Lemma mirrorNew_empty : mirrors mirrorNew emptyABook.
Proof.
  split; [|done]. split; [|by intros []|done]. split; [|constructor|].
  - intros []; (split; constructor).
  - intros id s p. split; [done|].
    intros (o & Ho & _). destruct s; by apply elem_of_nil in Ho.
Qed.

(** ** Queries

    A mirror that shows a book answers the queries the feed makes of it as the book
    would. *)
Lemma sumRemaining_total (os : list AOrder) acc :
  s64 acc = acc →
  foldl (λ t o, s64 (t + mo_remaining o)) acc (mirrorOf <$> os) = s64 (acc + total os).
Proof.
  revert acc. induction os as [|o os IH]; intros acc Hacc; simpl; [by rewrite Z.add_0_r|].
  rewrite IH by apply s64_id, s64_range. rewrite s64_add_l. f_equal. simpl. lia.
Qed.

Lemma filter_fmap_price p (os : list AOrder) :
  filter (λ o, mo_price o = p) (mirrorOf <$> os) = mirrorOf <$> filter (λ o, ao_price o = p) os.
Proof.
  induction os as [|o os IH]; [done|]. rewrite fmap_cons. destruct (decide (ao_price o = p)).
  - rewrite !filter_cons_True by done. by rewrite fmap_cons, IH.
  - by rewrite !filter_cons_False by done.
Qed.

(** The queue of a level is the part of the walk at its price. *)
Lemma level_filter s lv p :
  levels_ok s lv → default [] (omFind lv p) = filter (λ o, mo_price o = p) (flat lv).
Proof.
  intros Hlv. destruct (omFind lv p) as [l|] eqn:Hf.
  - destruct (omFind_flat s lv p l Hlv Hf) as (X & Y & -> & [HX HY]%Forall_app & _).
    destruct (omFind_elem s lv p l Hlv Hf) as (_ & Hl & _).
    rewrite !filter_app, (filter_all _ l) by done.
    rewrite (proj2 (filter_nil_iff _ X)), (proj2 (filter_nil_iff _ Y)) by (by apply Forall_forall).
    by rewrite app_nil_r.
  - symmetry. apply filter_nil_iff, Forall_forall. by apply (omFind_None s).
Qed.

Lemma NoDup_fmap_key {A B} (f : A → B) l x y :
  NoDup (f <$> l) → x ∈ l → y ∈ l → f x = f y → x = y.
Proof.
  induction l as [|z l IH]; [by intros _ ?%elem_of_nil|]. rewrite fmap_cons.
  intros [Hz Hnd]%NoDup_cons [->|Hx]%elem_of_cons [->|Hy]%elem_of_cons He; [done| | |by apply IH].
  - exfalso. apply Hz. rewrite He. by apply list_elem_of_fmap_2.
  - exfalso. apply Hz. rewrite <- He. by apply list_elem_of_fmap_2.
Qed.

Section queries.
Context (m : BookMirror) (a : ABook) (Hsh : shows m a).

Lemma shows_walk :
  walk m = ((λ o, (Buy, mirrorOf o)) <$> ab_bids a) ++ ((λ o, (Sell, mirrorOf o)) <$> ab_asks a).
Proof using Hsh.
  unfold walk. rewrite (sh_flat _ _ Hsh Buy : flat (bm_bids m) = _).
  rewrite (sh_flat _ _ Hsh Sell : flat (bm_asks m) = _). by rewrite <- !list_fmap_compose.
Qed.

Lemma shows_ids : ids m = ao_id <$> aresting a.
Proof using Hsh.
  unfold ids, aresting. rewrite (sh_flat _ _ Hsh Buy : flat (bm_bids m) = _).
  rewrite (sh_flat _ _ Hsh Sell : flat (bm_asks m) = _). rewrite !fmap_app, <- !list_fmap_compose. done.
Qed.

Lemma shows_count : restingOrders m = Z.of_nat (length (aresting a)).
Proof using Hsh.
  unfold restingOrders. f_equal. pose proof (sh_ok _ _ Hsh) as Hm.
  rewrite <- (length_fmap ao_id (aresting a)), <- shows_ids, <- size_dom.
  rewrite <- (size_list_to_set (C := gset Z) (ids m)) by apply (mk_ids _ Hm). f_equal.
  apply set_eq. intros id. rewrite elem_of_dom, elem_of_list_to_set. split.
  - intros [[s p] (o & Ho & <- & _)%(mk_index _ Hm)]. unfold ids.
    apply list_elem_of_fmap_2, elem_of_app. destruct s; auto.
  - intros (o & -> & Ho)%list_elem_of_fmap. apply elem_of_app in Ho as [Ho|Ho].
    + exists (Buy, mo_price o). apply (mk_index _ Hm). by exists o.
    + exists (Sell, mo_price o). apply (mk_index _ Hm). by exists o.
Qed.
Lemma shows_level s p :
  default [] (omFind (levelsOf m s) p) = mirrorOf <$> filter (λ o, ao_price o = p) (aside a s).
Proof using Hsh.
  rewrite (level_filter s) by apply (mk_levels _ (sh_ok _ _ Hsh)).
  rewrite (sh_flat _ _ Hsh s). apply filter_fmap_price.
Qed.

Lemma shows_total s p :
  levelTotal m s p = s64 (total (filter (λ o, ao_price o = p) (aside a s))).
Proof using Hsh.
  unfold levelTotal. pose proof (shows_level s p) as Hl.
  destruct (omFind (levelsOf m s) p) as [l|]; simpl in Hl.
  - rewrite Hl. unfold sumRemaining. by rewrite sumRemaining_total.
  - symmetry in Hl. apply fmap_nil_inv in Hl. by rewrite Hl.
Qed.

Lemma shows_level_count s p :
  levelOrderCount m s p = u32 (Z.of_nat (length (filter (λ o, ao_price o = p) (aside a s)))).
Proof using Hsh.
  unfold levelOrderCount. pose proof (shows_level s p) as Hl.
  destruct (omFind (levelsOf m s) p) as [l|]; simpl in Hl.
  - by rewrite Hl, length_fmap.
  - symmetry in Hl. apply fmap_nil_inv in Hl. by rewrite Hl.
Qed.
Lemma shows_remaining id : remainingOf m id = from_option ao_remaining 0 (afind a id).
Proof using Hsh.
  pose proof (sh_ok _ _ Hsh) as Hm. unfold remainingOf.
  destruct (bm_index m !! id) as [[s p]|] eqn:Hix.
  - apply (mk_index _ Hm) in Hix as (o & Ho & Hid & Hp). cbn [fst snd].
    pose proof (level_filter s _ p (mk_levels _ Hm s)) as Hl.
    assert (Hol : o ∈ default [] (omFind (levelsOf m s) p)).
    { rewrite Hl. apply list_elem_of_filter. auto. }
    destruct (omFind (levelsOf m s) p) as [l|]; simpl in Hl, Hol; [|by apply elem_of_nil in Hol].
    destruct (list_find (λ o, mo_id o = id) l) as [[i x]|] eqn:Hfd.
    2: { exfalso. apply list_find_None in Hfd. rewrite Forall_forall in Hfd. by apply (Hfd o). }
    apply list_find_Some in Hfd as (Hx & Hxi & _). apply list_elem_of_lookup_2 in Hx.
    rewrite Hl, (sh_flat _ _ Hsh s) in Hx. apply list_elem_of_filter in Hx as [_ Hx].
    apply list_elem_of_fmap in Hx as (y & -> & Hy). simpl in Hxi.
    assert (Hya : y ∈ aresting a) by (apply elem_of_app; destruct s; auto).
    destruct (afind a id) as [z|] eqn:Hz.
    + apply afind_elem in Hz as [Hz Hzi]. pose proof (mk_ids _ Hm) as Hnd. rewrite shows_ids in Hnd.
      assert (y = z) as -> by (eapply NoDup_fmap_key; [exact Hnd|done|done|congruence]). done.
    + rewrite afind_None in Hz. by destruct (Hz y Hya).
  - destruct (afind a id) as [z|] eqn:Hz; [|done]. apply afind_elem in Hz as [Hz Hzi]. exfalso.
    apply elem_of_app in Hz.
    assert (∃ s, z ∈ aside a s) as [s Hzs] by (destruct Hz; [by exists Buy|by exists Sell]).
    pose proof (index_None m id s Hm Hix) as Hn. rewrite (sh_flat _ _ Hsh s) in Hn.
    rewrite Forall_forall in Hn. apply (Hn (mirrorOf z)); [by apply list_elem_of_fmap_2|done].
Qed.
End queries.

Lemma run_mirrors c q cmds m :
  config_ok c → Forall (valid_command c) cmds → Z.of_nat (length cmds) <= INT64_MAX →
  fits c emptyABook cmds = true → run (matchingNew (bookNew c) q) cmds = Some m →
  Repr c (mt_book m) (abs (mt_book m)) ∧ wf c (abs (mt_book m)) ∧
  mirrors (foldl apply mirrorNew (mt_out m)) (abs (mt_book m)).
Proof.
  intros Hc Hv Hlen Hf Hr.
  destruct (reachable_Repr c (bookNew c) Hc (reach_new c)) as [HR Hw].
  assert (Habs : abs (bookNew c) = emptyABook) by (apply (Repr_abs c), bookNew_ok; done).
  destruct (run_ok c (matchingNew (bookNew c) q) cmds Hc) as (m' & Hr' & Hm & Hb & Ho);
    [by apply matchingNew_ok|done|simpl; lia|simpl; by rewrite Habs|].
  assert (m' = m) as -> by congruence. destruct Hm as [[HRm Hwm] _ _]. split; [done|]. split; [done|].
  cbn [matchingNew mt_dispatchSeq mt_book mt_out app] in Hb, Ho. rewrite Habs in Hb, Ho.
  rewrite Hb, Ho. apply mirrors_run; [done|by apply emptyABook_wf|done|simpl; lia|simpl; lia|apply mirrorNew_empty].
Qed.

(** C15: Market-data reconstruction.  Take any run of the matching thread over valid
    commands from a fresh book, with limit prices on ticks and trades that fit the thread's
    buffers, and apply the published events, in order, to an empty [BookMirror].  Then the
    mirror lists exactly the resting orders of the engine's book, side by side in priority
    order with every field equal, its arrival and trade counters are the engine's, and its
    queries (number of resting orders, total and number of orders at any price, remaining
    quantity of any id) are those of the engine's book. *)
Theorem mirror_tracks_book c q cmds m :
  config_ok c → Forall (valid_command c) cmds → Z.of_nat (length cmds) <= INT64_MAX →
  fits c emptyABook cmds = true → run (matchingNew (bookNew c) q) cmds = Some m →
  let mir := foldl apply mirrorNew (mt_out m) in
  let b := mt_book m in
  walk mir = ((λ o, (Buy, mirrorOf o)) <$> observe b Buy) ++
             ((λ o, (Sell, mirrorOf o)) <$> observe b Sell) ∧
  bm_lastSeq mir = seq_ b ∧ bm_tradeCount mir = nextTradeId_ b ∧
  restingOrders mir = Z.of_nat (length (observe b Buy ++ observe b Sell)) ∧
  (∀ s p, levelTotal mir s p = s64 (total (filter (λ o, ao_price o = p) (observe b s)))) ∧
  (∀ s p, levelOrderCount mir s p
          = u32 (Z.of_nat (length (filter (λ o, ao_price o = p) (observe b s))))) ∧
  (∀ id, remainingOf mir id = from_option ao_remaining 0 (afind (abs b) id)).
Proof.
  intros Hc Hv Hlen Hf Hr mir b. destruct (run_mirrors c q cmds m Hc Hv Hlen Hf Hr) as (_ & _ & Hmi).
  destruct Hmi as [Hsh Hls]. split; [exact (shows_walk _ _ Hsh)|]. split; [exact Hls|].
  split; [exact (sh_tid _ _ Hsh)|]. split; [exact (shows_count _ _ Hsh)|].
  split_and!; intros.
  - rewrite (shows_total _ _ Hsh). by destruct s.
  - rewrite (shows_level_count _ _ Hsh). by destruct s.
  - apply (shows_remaining _ _ Hsh).
Qed.

Lemma mirror_tracks_book_witness :
  ∃ m, run (matchingNew (bookNew tapeConfig) 0) tape = Some m ∧
    walk (foldl apply mirrorNew (mt_out m)) = [(Buy, mkMirrorOrder 4 110 2 2 8 4)] ∧
    restingOrders (foldl apply mirrorNew (mt_out m)) = 1.
Proof.
  destruct (run (matchingNew (bookNew tapeConfig) 0) tape) as [m|] eqn:Hr;
    [|vm_compute in Hr; discriminate].
  exists m. split; [done|].
  destruct (mirror_tracks_book tapeConfig 0 tape m) as (Hw & _ & _ & Hn & _);
    [apply tapeConfig_ok|apply tape_valid|by vm_compute|by vm_compute|done|].
  rewrite Hw, Hn. vm_compute in Hr. injection Hr as <-. split; vm_compute; reflexivity.
Defined.
