(* ===== verification/Crc32.v ===== *)
(** CRC-32: [common/crc32.hpp].

    The table, the byte-wise loop, the bit-wise definition it must agree with, and
    what the journal and the snapshots rely on: no change confined to four
    consecutive bytes goes undetected. *)
From S2P Require Import Prelude Wire.

Definition kPoly : Z := 0xEDB88320.
Definition mask32 : Z := 0xFFFFFFFF.

(** [c = (c & 1u) ? (kPoly ^ (c >> 1)) : (c >> 1);] *)
Definition crcBit (c : Z) : Z :=
  if Z.land c 1 =? 0 then Z.shiftr c 1 else Z.lxor kPoly (Z.shiftr c 1).

Definition makeCrc32Table : list Z :=
  (λ i : nat, Nat.iter 8 crcBit (Z.of_nat i)) <$> seq 0 256.

Definition kCrc32Table : list Z := Eval vm_compute in makeCrc32Table.

(** The byte loop; an access outside the table would be [None]. *)
Fixpoint crcLoop (c : Z) (bs : list Z) : option Z :=
  match bs with
  | [] => Some c
  | b :: bs' =>
      t ← aget kCrc32Table (Z.land (Z.lxor c b) 255);
      crcLoop (Z.lxor t (Z.shiftr c 8)) bs'
  end.

Definition crc32 (data : list Z) (seed : Z) : option Z :=
  c ← crcLoop (Z.lxor seed mask32) data;
  Some (Z.lxor c mask32).

(** ** The reference: one bit at a time *)

Definition word (c : Z) : Prop := 0 <= c < 2 ^ 32.

Definition crcByte (c : Z) : Z := Nat.iter 8 crcBit c.

Definition crcRef (c : Z) (bs : list Z) : Z := foldl (λ c b, crcByte (Z.lxor c b)) c bs.

Definition crc (bs : list Z) : Z := Z.lxor (crcRef mask32 bs) mask32.

(** ** Words and bits *)

Lemma word_bits c : 0 <= c → (word c ↔ ∀ i, 32 <= i → Z.testbit c i = false).
Proof.
  intros Hc. unfold word. split.
  - intros [_ Hlt] i Hi. destruct (decide (c = 0)) as [->|Hne]; [apply Z.testbit_0_l|].
    apply Z.bits_above_log2; [done|]. apply Z.lt_le_trans with 32; [|done]. apply Z.log2_lt_pow2; lia.
  - intros Hb. split; [done|]. destruct (decide (c = 0)) as [->|Hne]; [lia|].
    apply Z.log2_lt_pow2; [lia|]. destruct (decide (Z.log2 c < 32)) as [|Hge]; [done|].
    pose proof (Z.bit_log2 c ltac:(lia)) as H. by rewrite Hb in H by lia.
Qed.

Lemma lxor_word a b : word a → word b → word (Z.lxor a b).
Proof.
  intros Ha Hb. pose proof (proj1 Ha). pose proof (proj1 Hb).
  apply word_bits; [by apply Z.lxor_nonneg|]. intros i Hi. rewrite Z.lxor_spec.
  rewrite (proj1 (word_bits a ltac:(done)) Ha i Hi), (proj1 (word_bits b ltac:(done)) Hb i Hi). done.
Qed.

Lemma shiftr_word a n : 0 <= n → word a → word (Z.shiftr a n).
Proof.
  intros Hn Ha. pose proof (proj1 Ha). apply word_bits; [by apply Z.shiftr_nonneg|].
  intros i Hi. rewrite Z.shiftr_spec by lia. apply (proj1 (word_bits a ltac:(done)) Ha). lia.
Qed.

Lemma byte_word b : is_byte b → word b.
Proof. unfold is_byte, word. lia. Qed.

Lemma crcBit_word c : word c → word (crcBit c).
Proof.
  intros Hc. unfold crcBit. case_match; [by apply shiftr_word|].
  apply lxor_word; [by vm_compute|by apply shiftr_word].
Qed.

Lemma crcByte_word c : word c → word (crcByte c).
Proof. intros Hc. unfold crcByte. do 8 (apply crcBit_word). done. Qed.

Lemma crcRef_word c bs : word c → bytes bs → word (crcRef c bs).
Proof.
  intros Hc Hb. revert c Hc. induction Hb as [|b bs Hb _ IH]; intros c Hc; [done|].
  apply IH, crcByte_word, lxor_word; [done|by apply byte_word].
Qed.

(** ** The bit step is linear, shifts zeros out and is injective on words *)

Lemma crcBit_alt c : crcBit c = Z.lxor (Z.shiftr c 1) (if Z.testbit c 0 then kPoly else 0).
Proof.
  unfold crcBit. rewrite Z.bit0_odd. change 1 with (Z.ones 1) at 1.
  rewrite Z.land_ones by lia. change (2 ^ 1) with 2. rewrite Zmod_odd.
  destruct (Z.odd c); simpl; [apply Z.lxor_comm|by rewrite Z.lxor_0_r].
Qed.

Lemma crcBit_lxor a b : crcBit (Z.lxor a b) = Z.lxor (crcBit a) (crcBit b).
Proof.
  rewrite !crcBit_alt, Z.shiftr_lxor, Z.lxor_spec.
  apply Z.bits_inj'. intros i Hi. rewrite !Z.lxor_spec.
  destruct (Z.testbit a 0), (Z.testbit b 0); simpl;
    rewrite ?Z.testbit_0_l; repeat destruct (Z.testbit _ i); done.
Qed.

Lemma crcByte_lxor a b : crcByte (Z.lxor a b) = Z.lxor (crcByte a) (crcByte b).
Proof. unfold crcByte. cbn [Nat.iter nat_rect]. by rewrite !crcBit_lxor. Qed.

Lemma crcBit_double c : crcBit (2 * c) = c.
Proof.
  rewrite crcBit_alt, Z.bit0_odd, Z.odd_mul. simpl. rewrite Z.lxor_0_r, Z.shiftr_div_pow2 by lia.
  change (2 ^ 1) with 2. rewrite Z.mul_comm. by apply Z.div_mul.
Qed.

Lemma crcByte_shift c : crcByte (256 * c) = c.
Proof.
  unfold crcByte. cbn [Nat.iter nat_rect].
  replace (256 * c) with (2 * (2 * (2 * (2 * (2 * (2 * (2 * (2 * c)))))))) by lia.
  by rewrite !crcBit_double.
Qed.

Lemma crcBit_inj a b : word a → word b → crcBit a = crcBit b → a = b.
Proof.
  intros Ha Hb He. rewrite !crcBit_alt in He.
  assert (Htop : ∀ c, word c → Z.testbit (Z.shiftr c 1) 31 = false).
  { intros c Hc. rewrite Z.shiftr_spec by lia. apply (proj1 (word_bits c (proj1 Hc)) Hc). lia. }
  assert (Hlow : Z.testbit a 0 = Z.testbit b 0).
  { apply (f_equal (λ z, Z.testbit z 31)) in He. rewrite !Z.lxor_spec, !Htop in He by done.
    destruct (Z.testbit a 0), (Z.testbit b 0); by vm_compute in He. }
  rewrite Hlow in He. apply Z.bits_inj'. intros i Hi.
  destruct (decide (i = 0)) as [->|Hne]; [done|].
  apply (f_equal (λ z, Z.testbit z (i - 1))) in He. rewrite !Z.lxor_spec, !Z.shiftr_spec in He by lia.
  replace (i - 1 + 1) with i in He by lia.
  destruct (Z.testbit a i), (Z.testbit b i), (Z.testbit (if Z.testbit b 0 then kPoly else 0) (i - 1)); done.
Qed.

Lemma crcByte_inj a b : word a → word b → crcByte a = crcByte b → a = b.
Proof.
  intros Ha Hb. unfold crcByte. cbn [Nat.iter nat_rect]. intros He.
  do 8 (apply crcBit_inj in He; [|by repeat apply crcBit_word..]). done.
Qed.

(** ** The loop computes the reference *)

Lemma table_entry i : is_byte i → aget kCrc32Table i = Some (crcByte i).
Proof.
  intros Hi. unfold is_byte in Hi.
  assert (Hall : forallb (λ j : nat, from_option (λ v, v =? crcByte (Z.of_nat j)) false
    (aget kCrc32Table (Z.of_nat j))) (seq 0 256) = true) by (vm_compute; reflexivity).
  rewrite forallb_forall in Hall. specialize (Hall (Z.to_nat i)).
  rewrite Z2Nat.id in Hall by lia. specialize (Hall ltac:(apply in_seq; lia)).
  destruct (aget kCrc32Table i) as [v|]; simpl in Hall; [|done]. f_equal. lia.
Qed.

(** A word is its low byte and the rest. *)
Lemma split_low x : 0 <= x → x = Z.lxor (Z.land x 255) (256 * Z.shiftr x 8).
Proof.
  intros Hx. replace (256 * Z.shiftr x 8) with (Z.shiftl (Z.shiftr x 8) 8)
    by (rewrite Z.shiftl_mul_pow2 by lia; change (2 ^ 8) with 256; lia).
  change 255 with (Z.ones 8). apply Z.bits_inj'. intros i Hi.
  rewrite Z.lxor_spec, Z.land_spec, Z.testbit_ones_nonneg by lia.
  destruct (decide (i < 8)).
  - rewrite Z.shiftl_spec_low by lia. destruct (i <? 8) eqn:E; [|lia].
    by rewrite andb_true_r, xorb_false_r.
  - rewrite Z.shiftl_spec, Z.shiftr_spec by lia. destruct (i <? 8) eqn:E; [lia|].
    rewrite andb_false_r, xorb_false_l. f_equal. lia.
Qed.

Lemma low_byte x : is_byte (Z.land x 255).
Proof.
  change 255 with (Z.ones 8). rewrite Z.land_ones by lia. apply Z.mod_pos_bound. lia.
Qed.

Lemma crc_step c b : 0 <= c → is_byte b →
  Z.lxor (crcByte (Z.land (Z.lxor c b) 255)) (Z.shiftr c 8) = crcByte (Z.lxor c b).
Proof.
  intros Hc Hb. unfold is_byte in Hb.
  rewrite (split_low (Z.lxor c b)) at 2 by (apply Z.lxor_nonneg; lia).
  rewrite crcByte_lxor, crcByte_shift, Z.shiftr_lxor. f_equal.
  rewrite (Z.shiftr_div_pow2 b) by lia. rewrite (Z.div_small b) by (change (2 ^ 8) with 256; lia).
  by rewrite Z.lxor_0_r.
Qed.

Lemma crcLoop_ok c bs : word c → bytes bs → crcLoop c bs = Some (crcRef c bs).
Proof.
  intros Hc Hb. revert c Hc. induction Hb as [|b bs Hb _ IH]; intros c Hc; [done|]. cbn [crcLoop].
  rewrite table_entry by apply low_byte. simpl_bind.
  rewrite crc_step by (done || apply Hc). apply IH.
  apply crcByte_word, lxor_word; [done|by apply byte_word].
Qed.

Lemma crc32_ok bs : bytes bs → crc32 bs 0 = Some (crc bs).
Proof. intros Hb. unfold crc32. rewrite crcLoop_ok by done. done. Qed.

Lemma crc_word bs : bytes bs → word (crc bs).
Proof. intros Hb. by apply lxor_word; [apply crcRef_word|]. Qed.

(** ** Error detection *)

Lemma byte_join b u : is_byte b → 0 <= u → b + 256 * u = Z.lxor b (256 * u).
Proof.
  intros Hb Hu. unfold is_byte in Hb. rewrite (split_low (b + 256 * u)) by lia. f_equal.
  - change 255 with (Z.ones 8). rewrite Z.land_ones by lia. change (2 ^ 8) with 256.
    rewrite Z.mul_comm, Z.mod_add by lia. by apply Z.mod_small.
  - f_equal. rewrite Z.shiftr_div_pow2 by lia. change (2 ^ 8) with 256.
    rewrite Z.mul_comm, Z.div_add by lia. by rewrite Z.div_small.
Qed.

(** A message enters the register as one number. *)
Lemma crcRef_unle c bs :
  bytes bs → word c → crcRef c bs = Nat.iter (length bs) crcByte (Z.lxor c (unle bs)).
Proof.
  intros Hb. revert c. induction Hb as [|b bs Hb Hbs IH]; intros c Hc.
  { cbn. by rewrite Z.lxor_0_r. }
  cbn [length unle]. rewrite Nat.iter_succ_r.
  change (crcRef c (b :: bs)) with (crcRef (crcByte (Z.lxor c b)) bs).
  rewrite IH by (apply crcByte_word, lxor_word; [done|by apply byte_word]). f_equal.
  rewrite byte_join by (done || apply unle_range; done).
  by rewrite <- Z.lxor_assoc, (crcByte_lxor _ (256 * unle bs)), crcByte_shift.
Qed.

Lemma iter_crcByte_inj n a b :
  word a → word b → Nat.iter n crcByte a = Nat.iter n crcByte b → a = b.
Proof.
  intros Ha Hb. assert (Hw : ∀ n c, word c → word (Nat.iter n crcByte c)).
  { intros k c Hc. induction k; simpl; [done|by apply crcByte_word]. }
  induction n as [|n IH]; simpl; [done|]. intros He. apply IH, crcByte_inj; auto.
Qed.

Lemma unle_inj x y : bytes x → bytes y → length x = length y → unle x = unle y → x = y.
Proof. intros Hx Hy Hl He. rewrite <- (le_unle x), <- (le_unle y) by done. by rewrite Hl, He. Qed.

Lemma unle_word x : bytes x → (length x <= 4)%nat → word (unle x).
Proof.
  intros Hx Hl. pose proof (unle_range x Hx) as [H1 H2]. split; [done|].
  eapply Z.lt_le_trans; [exact H2|]. change (2 ^ 32) with (256 ^ 4). apply Z.pow_le_mono_r; lia.
Qed.

Lemma crcRef_app c xs ys : crcRef c (xs ++ ys) = crcRef (crcRef c xs) ys.
Proof. apply foldl_app. Qed.

Lemma lxor_inj a b c : Z.lxor c a = Z.lxor c b → a = b.
Proof.
  intros He. apply (f_equal (Z.lxor c)) in He.
  by rewrite <- !Z.lxor_assoc, Z.lxor_nilpotent, !Z.lxor_0_l in He.
Qed.

Lemma crcRef_burst c x y :
  word c → bytes x → bytes y → length x = length y → (length x <= 4)%nat →
  crcRef c x = crcRef c y → x = y.
Proof.
  intros Hc Hx Hy Hl H4. rewrite !crcRef_unle, Hl by done. intros He.
  apply iter_crcByte_inj in He; [|apply lxor_word; [done|apply unle_word; [done|lia]]..].
  apply lxor_inj in He. by apply unle_inj.
Qed.

Lemma crcRef_inj_l c d bs : word c → word d → bytes bs → crcRef c bs = crcRef d bs → c = d.
Proof.
  intros Hc Hd Hb. revert c d Hc Hd. induction Hb as [|b bs Hb _ IH]; intros c d Hc Hd He; [done|].
  pose proof (byte_word b Hb). apply IH in He; [|by apply crcByte_word, lxor_word..].
  apply crcByte_inj in He; [|by apply lxor_word..].
  rewrite !(Z.lxor_comm _ b) in He. by apply lxor_inj in He.
Qed.

(** C31: The checksum.  The table-driven [crc32] never reads outside its table and
    returns, for every byte string, the value of the bit-by-bit division by the
    IEEE polynomial; the result is a 32-bit number; and two strings that differ
    only inside a window of at most four consecutive bytes always have different
    checksums, so such damage to a journal record or a snapshot cannot pass the
    check. *)
Theorem crc32_detects pre x y post :
  bytes (pre ++ x ++ post) → bytes y → length x = length y → (length x <= 4)%nat → x ≠ y →
  ∃ cx cy, crc32 (pre ++ x ++ post) 0 = Some cx ∧ cx = crc (pre ++ x ++ post) ∧ 0 <= cx < 2 ^ 32 ∧
    crc32 (pre ++ y ++ post) 0 = Some cy ∧ cx ≠ cy.
Proof.
  intros Hb Hy Hl H4 Hne. pose proof Hb as [Hpre [Hx Hpost]%Forall_app]%Forall_app.
  exists (crc (pre ++ x ++ post)), (crc (pre ++ y ++ post)).
  split; [by apply crc32_ok|]. split; [done|]. split; [by apply crc_word|].
  split; [apply crc32_ok; by repeat apply Forall_app_2|]. intros He. apply Hne. unfold crc in He.
  rewrite !(Z.lxor_comm _ mask32) in He. apply lxor_inj in He. rewrite !crcRef_app in He.
  assert (Hw : word (crcRef mask32 pre)) by (by apply crcRef_word).
  apply crcRef_inj_l in He; [by eapply crcRef_burst|by apply crcRef_word..|done].
Qed.

(** The standard check value, and one flipped bit in it. *)
Lemma crc32_detects_witness :
  let msg := [49; 50; 51; 52; 53; 54; 55; 56; 57] in
  crc32 msg 0 = Some 0xCBF43926 ∧
  ∃ cx cy, crc32 msg 0 = Some cx ∧ crc32 [49; 50; 51; 52; 53; 55; 55; 56; 57] 0 = Some cy ∧ cx ≠ cy.
Proof.
  split; [by vm_compute|].
  destruct (crc32_detects [49; 50; 51; 52; 53] [54] [55] [55; 56; 57]) as (cx & cy & H1 & _ & _ & H2 & H3);
    [by repeat constructor|by repeat constructor|done|simpl; lia|done|].
  exists cx, cy. split; [exact H1|]. split; [exact H2|exact H3].
Defined.
