(* ===== verification/JournalFormat.v ===== *)
(** On-disk layout of the journal: [sequencer/journal_format.hpp].

    A record carries the object representation of an [ipc::Command] (five int64_t,
    three one-byte enumerations and five bytes of padding on the LP64 little-endian
    targets the build supports).  The padding bytes have no specified value, so an
    [Image] carries them; the enumeration bytes of an image may be anything. *)
From S2P Require Import Prelude Types OrderBook Wire Messages Crc32 Events.

(** ** [ipc::Command] in memory *)

Definition kindCode (k : CommandKind) : Z := match k with KNew => 0 | KCancel => 1 | KReplace => 2 end.
Definition engineTypeCode (t : OrderType) : Z :=
  match t with Limit => 0 | Market => 1 | Ioc => 2 | Fok => 3 end.

Definition kindOf (b : Z) : option CommandKind :=
  match b with 0 => Some KNew | 1 => Some KCancel | 2 => Some KReplace | _ => None end.
Definition sideOfByte (b : Z) : option Side :=
  match b with 0 => Some Buy | 1 => Some Sell | _ => None end.
Definition engineTypeOf (b : Z) : option OrderType :=
  match b with 0 => Some Limit | 1 => Some Market | 2 => Some Ioc | 3 => Some Fok | _ => None end.

Record Image := mkImage {
  im_id : Z; im_newId : Z; im_price : Z; im_quantity : Z; im_participant : Z;
  im_kind : Z; im_side : Z; im_type : Z;
  im_pad : list Z
}.

Definition kCommandSize : Z := 48.

Definition imageBytes (i : Image) : list Z :=
  le 8 (u64 (im_id i)) ++ le 8 (u64 (im_newId i)) ++ le 8 (u64 (im_price i)) ++
  le 8 (u64 (im_quantity i)) ++ le 8 (u64 (im_participant i)) ++
  le 1 (im_kind i) ++ le 1 (im_side i) ++ le 1 (im_type i) ++ im_pad i.

(** [std::memcpy(&cmd, src, sizeof(ipc::Command));] *)
Definition imageLoad (src : list Z) (p : Z) : option Image :=
  id ← getI64 src p; newId ← getI64 src (p + 8); price ← getI64 src (p + 16);
  quantity ← getI64 src (p + 24); participant ← getI64 src (p + 32);
  kind ← getU8 src (p + 40); side ← getU8 src (p + 41); type ← getU8 src (p + 42);
  pad ← slice src (p + 43) 5;
  Some (mkImage id newId price quantity participant kind side type pad).

Definition imageOf (pad : list Z) (c : Command) : Image :=
  mkImage (cm_id c) (cm_newId c) (cm_price c) (cm_quantity c) (cm_participant c)
    (kindCode (cm_kind c)) (sideCode (cm_side c)) (engineTypeCode (cm_type c)) pad.

(** The command an image holds, when its enumeration bytes are enumerators. *)
Definition commandOf (i : Image) : option Command :=
  kind ← kindOf (im_kind i); side ← sideOfByte (im_side i); type ← engineTypeOf (im_type i);
  Some (mkCommand (im_id i) (im_newId i) (im_price i) (im_quantity i) (im_participant i)
          kind side type).

(** ** Segment header *)

Definition kJournalMagic : Z := 0x534A5856.
Definition kJournalVersion : Z := 1.
Definition kSegmentHeaderSize : Z := 32.

Record SegmentHeader := mkSegmentHeader {
  sh_magic : Z; sh_version : Z; sh_firstSeq : Z; sh_createdCounter : Z
}.

Definition segmentHeader (firstSeq createdCounter : Z) : SegmentHeader :=
  mkSegmentHeader kJournalMagic kJournalVersion firstSeq createdCounter.

(** [crc32(buf, n)] *)
Definition crcOf (buf : list Z) (n : Z) : option Z := bs ← slice buf 0 n; crc32 bs 0.

Definition encodeSegmentHeader (h : SegmentHeader) (out : list Z) : option (list Z) :=
  out ← putU32 out 0 (sh_magic h);
  out ← putU32 out 4 (sh_version h);
  out ← putU64 out 8 (sh_firstSeq h);
  out ← putU64 out 16 (sh_createdCounter h);
  out ← putU32 out 24 0;
  crc ← crcOf out 28;
  putU32 out 28 crc.

(** The header read, and whether it is valid. *)
Definition decodeSegmentHeader (src : list Z) : option (SegmentHeader * bool) :=
  magic ← getU32 src 0;
  version ← getU32 src 4;
  firstSeq ← getU64 src 8;
  createdCounter ← getU64 src 16;
  storedCrc ← getU32 src 28;
  crc ← crcOf src 28;
  Some (mkSegmentHeader magic version firstSeq createdCounter,
        (magic =? kJournalMagic) && (version =? kJournalVersion) && (crc =? storedCrc)).

(** ** Record *)

Definition kRecordFixedSize : Z := 16.
Definition kRecordCrcSize : Z := 4.
Definition kRecordSize : Z := kRecordFixedSize + kCommandSize + kRecordCrcSize.

Record JournalRecord := mkJournalRecord { jr_seq : Z; jr_kind : Z; jr_command : Image }.

Definition encodeRecord (r : JournalRecord) (out : list Z) : option (list Z) :=
  out ← putU32 out 0 kCommandSize;
  out ← putU64 out 4 (u64 (jr_seq r));
  out ← putU8 out 12 (jr_kind r);
  out ← memcpy out 13 [0; 0; 0];
  out ← memcpy out kRecordFixedSize (imageBytes (jr_command r));
  crc ← crcOf out (kRecordFixedSize + kCommandSize);
  putU32 out (kRecordFixedSize + kCommandSize) crc.

(** ** The bytes these write *)

Definition valid_image (i : Image) : Prop :=
  in_i64 (im_id i) ∧ in_i64 (im_newId i) ∧ in_i64 (im_price i) ∧ in_i64 (im_quantity i) ∧
  in_i64 (im_participant i) ∧ is_byte (im_kind i) ∧ is_byte (im_side i) ∧ is_byte (im_type i) ∧
  bytes (im_pad i) ∧ length (im_pad i) = 5%nat.

(** A body followed by its checksum. *)
Definition sealed (body : list Z) : list Z := body ++ le 4 (crc body).

Definition headerBody (firstSeq createdCounter : Z) : list Z :=
  le 4 kJournalMagic ++ le 4 kJournalVersion ++ le 8 firstSeq ++ le 8 createdCounter ++ le 4 0.
Definition recordBody (r : JournalRecord) : list Z :=
  le 4 kCommandSize ++ le 8 (u64 (jr_seq r)) ++ le 1 (jr_kind r) ++ [0; 0; 0] ++
  imageBytes (jr_command r).

Lemma length_imageBytes i : length (im_pad i) = 5%nat → length (imageBytes i) = 48%nat.
Proof. intros H. unfold imageBytes. wire_len. Qed.

Lemma imageBytes_bytes i : bytes (im_pad i) → bytes (imageBytes i).
Proof. intros H. unfold imageBytes. by repeat (apply Forall_app_2; [apply le_bytes|]). Qed.

Lemma length_headerBody f k : length (headerBody f k) = 28%nat.
Proof. unfold headerBody. wire_len. Qed.

Lemma headerBody_bytes f k : bytes (headerBody f k).
Proof. unfold headerBody. repeat (apply Forall_app_2; [apply le_bytes|]). apply le_bytes. Qed.

Lemma length_recordBody r : valid_image (jr_command r) → length (recordBody r) = 64%nat.
Proof.
  intros Hv. unfold recordBody. rewrite !length_app, !length_le.
  rewrite length_imageBytes; [done|apply Hv].
Qed.

Lemma recordBody_bytes r : valid_image (jr_command r) → bytes (recordBody r).
Proof.
  intros Hv. unfold recordBody. do 3 (apply Forall_app_2; [apply le_bytes|]).
  apply Forall_app_2; [by repeat constructor|]. apply imageBytes_bytes, Hv.
Qed.

Lemma sealed_bytes body : bytes body → bytes (sealed body).
Proof. intros H. apply Forall_app_2; [done|apply le_bytes]. Qed.

Lemma length_sealed body : length (sealed body) = (length body + 4)%nat.
Proof. unfold sealed. wire_len. Qed.

Lemma crcOf_app body rest n :
  bytes body → Z.of_nat (length body) = n → crcOf (body ++ rest) n = Some (crc body).
Proof. intros Hb Hn. unfold crcOf. rewrite slice_here by done. by apply crc32_ok. Qed.

Lemma encodeSegmentHeader_ok f k out :
  length out = 32%nat →
  encodeSegmentHeader (segmentHeader f k) out = Some (sealed (headerBody f k)).
Proof.
  intros Hl. unfold encodeSegmentHeader. cbn [segmentHeader sh_magic sh_version sh_firstSeq sh_createdCounter].
  rewrite (putU32_fill [] out) by (simpl; lia). simpl_bind.
  do 4 encode_step. 
  pose proof (length_headerBody f k) as Hlen. pose proof (headerBody_bytes f k) as Hb.
  replace (((([] ++ le 4 kJournalMagic) ++ le 4 kJournalVersion) ++ le 8 f) ++ le 8 k)
    with (le 4 kJournalMagic ++ le 4 kJournalVersion ++ le 8 f ++ le 8 k) by (by rewrite <- !app_assoc).
  replace ((le 4 kJournalMagic ++ le 4 kJournalVersion ++ le 8 f ++ le 8 k) ++ le 4 0)
    with (headerBody f k) by (unfold headerBody; by rewrite <- !app_assoc).
  rewrite crcOf_app by (done || lia). simpl_bind.
  rewrite putU32_fill by wire_len. rewrite drop_drop, drop_ge by lia. by rewrite app_nil_r.
Qed.

Lemma encodeRecord_ok r out :
  valid_image (jr_command r) → is_byte (jr_kind r) → length out = 68%nat →
  encodeRecord r out = Some (sealed (recordBody r)).
Proof.
  intros Hv Hk Hl. pose proof (length_recordBody r Hv) as Hlen. pose proof (recordBody_bytes r Hv) as Hb.
  assert (Hi : length (imageBytes (jr_command r)) = 48%nat) by (apply length_imageBytes, Hv).
  unfold encodeRecord. rewrite (putU32_fill [] out) by (simpl; lia). simpl_bind.
  do 3 encode_step. rewrite memcpy_fill
    by (rewrite ?length_app, ?length_le, ?length_drop, ?Hi; unfold kRecordFixedSize; cbn [length]; lia).
  simpl_bind. rewrite drop_drop, Hi.
  match goal with |- context [crcOf (?b ++ _)] => replace b with (recordBody r) end.
  2: { unfold recordBody. by rewrite <- !app_assoc. }
  rewrite crcOf_app by (done || (rewrite Hlen; done)). simpl_bind.
  rewrite putU32_fill by (rewrite ?length_drop; unfold kRecordFixedSize, kCommandSize; cbn [length]; lia).
  rewrite drop_drop, drop_ge by (cbn [length]; lia). by rewrite app_nil_r.
Qed.

(** ** Reading them back *)

Lemma imageLoad_ok i pre rest p :
  valid_image i → Z.of_nat (length pre) = p → imageLoad (pre ++ imageBytes i ++ rest) p = Some i.
Proof.
  intros (H1 & H2 & H3 & H4 & H5 & H6 & H7 & H8 & H9 & H10) Hp. unfold imageLoad, imageBytes.
  rewrite (getI64_skip pre _ p 0), (getI64_skip pre _ (p + 8) 8), (getI64_skip pre _ (p + 16) 16),
    (getI64_skip pre _ (p + 24) 24), (getI64_skip pre _ (p + 32) 32), (getU8_skip pre _ (p + 40) 40),
    (getU8_skip pre _ (p + 41) 41), (getU8_skip pre _ (p + 42) 42), (slice_skip pre _ (p + 43) 43) by lia.
  rewrite <- !app_assoc. repeat read_field. by destruct i.
Qed.

Lemma decodeSegmentHeader_ok f k rest :
  in_u64 f → in_u64 k →
  decodeSegmentHeader (sealed (headerBody f k) ++ rest) = Some (segmentHeader f k, true).
Proof.
  intros Hf Hk. unfold decodeSegmentHeader, sealed.
  pose proof (crc_word _ (headerBody_bytes f k)) as Hw.
  assert (Hc : crcOf ((headerBody f k ++ le 4 (crc (headerBody f k))) ++ rest) 28
               = Some (crc (headerBody f k))).
  { rewrite <- app_assoc. apply crcOf_app; [apply headerBody_bytes|by rewrite length_headerBody]. }
  rewrite Hc. set (v := crc (headerBody f k)) in *. clearbody v. unfold headerBody.
  assert (Hm : 0 <= kJournalMagic < 4294967296) by (unfold kJournalMagic; lia).
  assert (Hv : 0 <= kJournalVersion < 4294967296) by (unfold kJournalVersion; lia).
  change (word v) with (0 <= v < 4294967296) in Hw.
  rewrite <- !app_assoc. repeat read_field. by rewrite !Z.eqb_refl.
Qed.

Lemma kindOf_code k : kindOf (kindCode k) = Some k.
Proof. by destruct k. Qed.
Lemma sideOfByte_code s : sideOfByte (sideCode s) = Some s.
Proof. by destruct s. Qed.
Lemma engineTypeOf_code t : engineTypeOf (engineTypeCode t) = Some t.
Proof. by destruct t. Qed.

Lemma commandOf_imageOf pad c : commandOf (imageOf pad c) = Some c.
Proof.
  unfold commandOf, imageOf; simpl. rewrite kindOf_code, sideOfByte_code, engineTypeOf_code. by destruct c.
Qed.

(** The integer fields of a command are int64_t. *)
Definition command_i64 (c : Command) : Prop :=
  in_i64 (cm_id c) ∧ in_i64 (cm_newId c) ∧ in_i64 (cm_price c) ∧ in_i64 (cm_quantity c) ∧
  in_i64 (cm_participant c).

Definition valid_pad (pad : list Z) : Prop := bytes pad ∧ length pad = 5%nat.

Lemma kindCode_byte k : is_byte (kindCode k).
Proof. destruct k; split; simpl; lia. Qed.
Lemma engineTypeCode_byte t : is_byte (engineTypeCode t).
Proof. destruct t; split; simpl; lia. Qed.

Lemma imageOf_valid pad c : command_i64 c → valid_pad pad → valid_image (imageOf pad c).
Proof.
  intros (H1 & H2 & H3 & H4 & H5) [Hb Hl]. repeat split; try done; simpl;
    try apply H1 || apply H2 || apply H3 || apply H4 || apply H5; by
    (apply kindCode_byte || apply sideCode_byte || apply engineTypeCode_byte).
Qed.
