(* ===== verification/SegmentNames.v ===== *)
(** The names of journal segments and snapshots: [segmentName] of
    [sequencer/journal_writer.hpp] and [finalName] of [sequencer/snapshot_writer.hpp].

    Readers sort the names; the models of the directories are keyed by the numbers in
    them.  Below 10^16 the two orders agree. *)
From S2P Require Import Prelude.

(** [%llu], most significant digit first; 20 digits are enough for a uint64_t. *)
Fixpoint decimal (fuel : nat) (n : Z) : list Z :=
  match fuel with
  | O => []
  | S fuel => if n <? 10 then [48 + n] else decimal fuel (n / 10) ++ [48 + n mod 10]
  end.

(** [%016llu] *)
Definition padded (n : Z) : list Z :=
  let ds := decimal 20 n in replicate (16 - length ds) 48 ++ ds.

(** ["seg-%016llu.jnl"] and ["snap-%016llu.snap"], as character codes. *)
Definition segmentName (firstSeq : Z) : list Z :=
  [115; 101; 103; 45] ++ padded (u64 firstSeq) ++ [46; 106; 110; 108].
Definition snapName (seq : Z) : list Z :=
  [115; 110; 97; 112; 45] ++ padded (u64 seq) ++ [46; 115; 110; 97; 112].

(** [std::string::compare] *)
Fixpoint lexLt (xs ys : list Z) : bool :=
  match xs, ys with
  | _, [] => false
  | [], _ => true
  | x :: xs', y :: ys' => (x <? y) || ((x =? y) && lexLt xs' ys')
  end.

(** Exactly [k] digits. *)
Fixpoint digits (k : nat) (n : Z) : list Z :=
  match k with O => [] | S k => digits k (n / 10) ++ [48 + n mod 10] end.

Lemma length_digits k n : length (digits k n) = k.
Proof. revert n. induction k as [|k IH]; intros n; [done|]. simpl. rewrite length_app, IH. simpl. lia. Qed.

Lemma digits_zero k : digits k 0 = replicate k 48.
Proof.
  induction k as [|k IH]; [done|]. cbn [digits]. change (0 / 10) with 0. rewrite IH.
  change (48 + 0 mod 10) with 48. by rewrite <- replicate_cons_app.
Qed.

Lemma decimal_digits fuel k n :
  0 <= n < 10 ^ Z.of_nat k → (0 < k <= fuel)%nat →
  (length (decimal fuel n) <= k)%nat ∧ replicate (k - length (decimal fuel n)) 48 ++ decimal fuel n = digits k n.
Proof.
  revert k n. induction fuel as [|fuel IH]; intros k n Hn Hk; [lia|]. destruct k as [|k]; [lia|].
  cbn [decimal digits]. destruct (n <? 10) eqn:E.
  - rewrite Z.div_small, Z.mod_small, digits_zero by lia. cbn [length]. split; [lia|].
    by replace (S k - 1)%nat with k by lia.
  - rewrite Nat2Z.inj_succ, Z.pow_succ_r in Hn by lia.
    assert (Hk0 : k ≠ 0%nat) by (intros ->; cbn in Hn; lia).
    destruct (IH k (n / 10)) as [Hl Hd].
    { split; [apply Z.div_pos; lia|apply Z.div_lt_upper_bound; lia]. }
    { lia. }
    rewrite length_app. cbn [length]. split; [lia|]. rewrite <- Hd, app_assoc. f_equal. f_equal. f_equal. lia.
Qed.

Lemma lexLt_app xs ys xs' ys' :
  length xs = length ys → lexLt (xs ++ xs') (ys ++ ys') = lexLt xs ys || (bool_decide (xs = ys) && lexLt xs' ys').
Proof.
  revert ys. induction xs as [|x xs IH]; intros [|y ys] Hl; try done. cbn [app lexLt].
  rewrite IH by (simpl in Hl; lia). destruct (x <? y) eqn:E1; [done|]. cbn [orb].
  destruct (x =? y) eqn:E2; cbn [andb orb].
  - assert (x = y) as -> by lia. destruct (lexLt xs ys); [done|]. cbn [orb]. f_equal.
    apply bool_decide_ext. naive_solver.
  - rewrite bool_decide_eq_false_2; [done|]. intros [= -> ->]. lia.
Qed.

Lemma digits_lt k a b :
  0 <= a < 10 ^ Z.of_nat k → 0 <= b < 10 ^ Z.of_nat k → lexLt (digits k a) (digits k b) = (a <? b).
Proof.
  revert a b. induction k as [|k IH]; intros a b Ha Hb; [cbn in *; symmetry; lia|].
  rewrite Nat2Z.inj_succ, Z.pow_succ_r in Ha, Hb by lia. cbn [digits].
  rewrite lexLt_app by (by rewrite !length_digits).
  assert (Hda : 0 <= a / 10 < 10 ^ Z.of_nat k) by (split; [apply Z.div_pos; lia|apply Z.div_lt_upper_bound; lia]).
  assert (Hdb : 0 <= b / 10 < 10 ^ Z.of_nat k) by (split; [apply Z.div_pos; lia|apply Z.div_lt_upper_bound; lia]).
  pose proof (IH _ _ Hda Hdb) as H1. pose proof (IH _ _ Hdb Hda) as H2. pose proof (IH _ _ Hda Hda) as H3.
  pose proof (Z.div_mod a 10). pose proof (Z.div_mod b 10). pose proof (Z.mod_pos_bound a 10). pose proof (Z.mod_pos_bound b 10).
  rewrite H1. destruct (a / 10 <? b / 10) eqn:E1; cbn [orb]; [symmetry; lia|].
  case_bool_decide as E2; cbn [andb lexLt].
  - assert (a / 10 = b / 10) by (rewrite E2 in H2; rewrite E2 in H1; rewrite H2 in H1; lia).
    rewrite andb_false_r, orb_false_r. apply Bool.eq_iff_eq_true. lia.
  - symmetry. assert (a / 10 ≠ b / 10) by (intros He; by rewrite He in E2). lia.
Qed.

Lemma padded_digits n : 0 <= n < 10 ^ 16 → padded n = digits 16 n.
Proof. intros Hn. unfold padded. apply (decimal_digits 20 16 n Hn). lia. Qed.

Lemma lexLt_irrefl xs : lexLt xs xs = false.
Proof. induction xs as [|x xs IH]; [done|]. cbn. rewrite Z.ltb_irrefl, Z.eqb_refl. done. Qed.

(** The names of segments and of snapshots sort as the numbers in them, so that
    reading a directory in name order is reading it in sequence order, and different
    numbers have different names.  It holds for numbers of at most 16 digits. *)
Lemma names_sort_as_numbers a b :
  0 <= a < 10 ^ 16 → 0 <= b < 10 ^ 16 →
  lexLt (segmentName a) (segmentName b) = (a <? b) ∧ lexLt (snapName a) (snapName b) = (a <? b) ∧
  (segmentName a = segmentName b → a = b) ∧ (snapName a = snapName b → a = b).
Proof.
  intros Ha Hb.
  assert (Hlt : ∀ pre post x y, 0 <= x < 10 ^ 16 → 0 <= y < 10 ^ 16 →
    lexLt (pre ++ padded (u64 x) ++ post) (pre ++ padded (u64 y) ++ post) = (x <? y)).
  { intros pre post x y Hx Hy. rewrite !u64_id by auto with velox. rewrite !padded_digits by done.
    rewrite lexLt_app, lexLt_irrefl, bool_decide_eq_true_2 by done. cbn [orb andb].
    rewrite lexLt_app by (by rewrite !length_digits). rewrite lexLt_irrefl, andb_false_r, orb_false_r.
    by apply digits_lt. }
  unfold segmentName, snapName. rewrite !Hlt by done. split; [done|]. split; [done|].
  split; intros He.
  - pose proof (Hlt [115; 101; 103; 45] [46; 106; 110; 108] a b Ha Hb) as H1.
    pose proof (Hlt [115; 101; 103; 45] [46; 106; 110; 108] b a Hb Ha) as H2.
    rewrite He, lexLt_irrefl in H1. rewrite He, lexLt_irrefl in H2. lia.
  - pose proof (Hlt [115; 110; 97; 112; 45] [46; 115; 110; 97; 112] a b Ha Hb) as H1.
    pose proof (Hlt [115; 110; 97; 112; 45] [46; 115; 110; 97; 112] b a Hb Ha) as H2.
    rewrite He, lexLt_irrefl in H1. rewrite He, lexLt_irrefl in H2. lia.
Qed.
