(* ===== verification/JournalWriter.v ===== *)
(** The journal writer: [sequencer/journal_writer.hpp].

    A directory maps the number in a segment's name to the file's bytes.  The
    names are [seg-%016llu.jnl], so for numbers below 10^16 distinct numbers have
    distinct names and names sort as numbers (see [SegmentNames]).
    Every descriptor the writer holds is positioned at the end of its file, so
    [::write] appends.  [jw_synced] is the part of each file an [fsync] has made
    durable.

    The outcome of each system call is taken from [jw_io]; when the list is
    exhausted calls succeed. *)
From stdpp Require Import gmap.
From S2P Require Import Prelude Types OrderBook Wire Messages Crc32 Events JournalFormat.

Inductive FsyncPolicy := PerRecord | Group.

#[export] Instance FsyncPolicy_eq_dec : EqDecision FsyncPolicy.
Proof. solve_decision. Defined.

(** A call succeeds, fails, or (for [::write]) stops after [n] bytes. *)
Inductive IoResult := IoOk | IoFail | IoShort (n : nat).

Abbreviation Dir := (gmap Z (list Z)).

Record WriterConfig := mkWriterConfig {
  wc_rollBytes : Z;
  wc_policy : FsyncPolicy;
  wc_groupSize : Z
}.

Record JournalWriter := mkWriter {
  jw_dir : Dir;
  jw_synced : gmap Z nat;
  jw_fd : option Z;
  jw_path : Z;
  jw_bytes : Z;
  jw_pending : Z;
  jw_counter : Z;
  jw_lastSeq : Z;
  jw_io : list IoResult
}.

(** [groupSize_(groupSize == 0 ? 1 : groupSize)] *)
Definition writerConfig (rollBytes : Z) (policy : FsyncPolicy) (groupSize : Z) : WriterConfig :=
  mkWriterConfig rollBytes policy (if groupSize =? 0 then 1 else groupSize).

Definition writerNew (d : Dir) (synced : gmap Z nat) (io : list IoResult) : JournalWriter :=
  mkWriter d synced None 0 0 0 0 0 io.

(** *** System calls *)

Definition sys (w : JournalWriter) : IoResult * JournalWriter :=
  match jw_io w with
  | [] => (IoOk, w)
  | r :: io => (r, mkWriter (jw_dir w) (jw_synced w) (jw_fd w) (jw_path w) (jw_bytes w)
                     (jw_pending w) (jw_counter w) (jw_lastSeq w) io)
  end.

Definition set_fd (w : JournalWriter) (fd : option Z) : JournalWriter :=
  mkWriter (jw_dir w) (jw_synced w) fd (jw_path w) (jw_bytes w) (jw_pending w) (jw_counter w)
    (jw_lastSeq w) (jw_io w).
Definition set_files (w : JournalWriter) (d : Dir) (sy : gmap Z nat) : JournalWriter :=
  mkWriter d sy (jw_fd w) (jw_path w) (jw_bytes w) (jw_pending w) (jw_counter w) (jw_lastSeq w)
    (jw_io w).
Definition set_path (w : JournalWriter) (p : Z) : JournalWriter :=
  mkWriter (jw_dir w) (jw_synced w) (jw_fd w) p (jw_bytes w) (jw_pending w) (jw_counter w)
    (jw_lastSeq w) (jw_io w).
Definition set_bytes (w : JournalWriter) (n : Z) : JournalWriter :=
  mkWriter (jw_dir w) (jw_synced w) (jw_fd w) (jw_path w) n (jw_pending w) (jw_counter w)
    (jw_lastSeq w) (jw_io w).
Definition set_pending (w : JournalWriter) (n : Z) : JournalWriter :=
  mkWriter (jw_dir w) (jw_synced w) (jw_fd w) (jw_path w) (jw_bytes w) n (jw_counter w)
    (jw_lastSeq w) (jw_io w).
Definition set_counter (w : JournalWriter) (n : Z) : JournalWriter :=
  mkWriter (jw_dir w) (jw_synced w) (jw_fd w) (jw_path w) (jw_bytes w) (jw_pending w) n
    (jw_lastSeq w) (jw_io w).
Definition set_lastSeq (w : JournalWriter) (n : Z) : JournalWriter :=
  mkWriter (jw_dir w) (jw_synced w) (jw_fd w) (jw_path w) (jw_bytes w) (jw_pending w)
    (jw_counter w) n (jw_io w).

Definition fileOf (d : Dir) (p : Z) : list Z := default [] (d !! p).

(** [::write(fd, bs, |bs|)]: how many bytes went into the file. *)
Definition writeFile (w : JournalWriter) (fd : Z) (bs : list Z) : Z * JournalWriter :=
  let '(r, w) := sys w in
  let k := match r with IoOk => length bs | IoFail => 0%nat | IoShort n => Nat.min n (length bs) end in
  (Z.of_nat k, set_files w (<[fd := fileOf (jw_dir w) fd ++ take k bs]> (jw_dir w)) (jw_synced w)).

(** [platform::fsyncFile(fd)] *)
Definition fsyncFile (w : JournalWriter) (fd : Z) : bool * JournalWriter :=
  let '(r, w) := sys w in
  match r with
  | IoOk => (true, set_files w (jw_dir w) (<[fd := length (fileOf (jw_dir w) fd)]> (jw_synced w)))
  | _ => (false, w)
  end.

(** ** The operations *)

Definition sync (w : JournalWriter) : bool * JournalWriter :=
  match jw_fd w with
  | None => (true, w)
  | Some fd =>
      let '(ok, w) := fsyncFile w fd in
      if ok then (true, set_pending w 0) else (false, w)
  end.

Definition close (w : JournalWriter) : JournalWriter :=
  match jw_fd w with None => w | Some _ => set_fd (sync w).2 None end.

Definition openSegment (w : JournalWriter) (firstSeq : Z) : option (bool * JournalWriter) :=
  let path := u64 firstSeq in
  let w := set_path w path in
  let '(r, w) := sys w in
  match r with
  | IoOk =>
      let w := set_fd (set_files w (<[path := []]> (jw_dir w)) (<[path := 0%nat]> (jw_synced w)))
                 (Some path) in
      hbuf ← encodeSegmentHeader (segmentHeader (u64 firstSeq) (jw_counter w)) (replicate 32 0);
      let w := set_counter w (u64 (jw_counter w + 1)) in
      let '(n, w) := writeFile w path hbuf in
      if negb (n =? kSegmentHeaderSize) then Some (false, set_fd w None)
      else Some (fsyncFile (set_bytes w kSegmentHeaderSize) path)
  | _ => Some (false, set_fd w None)
  end.

Definition rollSegment (w : JournalWriter) (nextFirstSeq : Z) : option (bool * JournalWriter) :=
  let '(ok, w) := sync w in
  if negb ok then Some (false, w) else openSegment (set_fd w None) nextFirstSeq.

(** The part of [append] after a segment is open. *)
Definition appendRecord (c : WriterConfig) (w : JournalWriter) (globalSeq kind : Z) (cmd : Image) :
    option (bool * JournalWriter) :=
  fd ← jw_fd w;
  buf ← encodeRecord (mkJournalRecord globalSeq kind cmd) (replicate 68 0);
  let '(n, w) := writeFile w fd buf in
  if negb (n =? kRecordSize) then Some (false, w)
  else
    let w := set_bytes w (u64 (jw_bytes w + kRecordSize)) in
    let w := set_lastSeq w globalSeq in
    let w := set_pending w (u64 (jw_pending w + 1)) in
    if bool_decide (wc_policy c = PerRecord) || (wc_groupSize c <=? jw_pending w)
    then Some (sync w) else Some (true, w).

Definition append (c : WriterConfig) (w : JournalWriter) (globalSeq kind : Z) (cmd : Image) :
    option (bool * JournalWriter) :=
  '(ready, w) ←
    match jw_fd w with
    | None => openSegment w globalSeq
    | Some _ =>
        if wc_rollBytes c <? u64 (jw_bytes w + kRecordSize) then rollSegment w globalSeq
        else Some (true, w)
    end;
  if negb ready then Some (false, w) else appendRecord c w globalSeq kind cmd.

(** [::ftruncate] also extends a shorter file with zeros. *)
Definition truncateFile (bs : list Z) (n : Z) : list Z :=
  take (Z.to_nat n) bs ++ replicate (Z.to_nat n - length bs) 0.

Definition resumeFrom (w : JournalWriter) (path validOffset createdCounter lastSeq : Z) :
    bool * JournalWriter :=
  let w := close w in
  let '(r, w) := sys w in
  match r, jw_dir w !! path with
  | IoOk, Some bs =>
      let '(r, w) := sys w in
      match r with
      | IoOk =>
          let w := set_files w (<[path := truncateFile bs validOffset]> (jw_dir w))
                     (<[path := Nat.min (Z.to_nat validOffset) (default 0%nat (jw_synced w !! path))]>
                        (jw_synced w)) in
          let '(r, w) := sys w in
          match r with
          | IoOk =>
              let w := set_bytes (set_path (set_fd w (Some path)) path) validOffset in
              let w := set_counter w (u64 (createdCounter + 1)) in
              (true, set_lastSeq w lastSeq)
          | _ => (false, set_fd w None)
          end
      | _ => (false, set_fd w None)
      end
  | _, _ => (false, set_fd w None)
  end.
