(* ===== verification/JournalReader.v ===== *)
(** The journal reader: [sequencer/journal_reader.hpp].

    The reader's functions take the directory as it is at the time of the call, so
    that a journal that grows between two calls can be described.  Opening and
    reading existing files succeeds; [::pread] delivers what the file holds. *)
From stdpp Require Import gmap sorting.
From S2P Require Import Prelude Types OrderBook Wire Messages Crc32 Events JournalFormat.
From S2P Require Import JournalWriter.

Inductive ReadStatus := ReadOk | EndOfJournal | TruncatedTail | Corrupt.

#[export] Instance ReadStatus_eq_dec : EqDecision ReadStatus.
Proof. solve_decision. Defined.

Record ReadResult := mkReadResult {
  rr_status : ReadStatus;
  rr_seq : Z;
  rr_kind : Z;
  rr_command : Image;
  rr_offset : Z
}.

Definition emptyImage : Image := mkImage 0 0 0 0 0 0 0 0 [0; 0; 0; 0; 0].

Record JournalReader := mkReader {
  jd_segments : list Z;
  jd_next : nat;
  jd_fd : option Z;
  jd_path : Z;
  jd_fileSize : Z;
  jd_offset : Z;
  jd_firstSeq : Z;
  jd_counter : Z;
  jd_lastGood : Z
}.

(** The directory's segments, in name order. *)
Definition listSegments (d : Dir) : list Z := merge_sort Z.le (map_to_list d).*1.

Definition readerNew (d : Dir) : JournalReader := mkReader (listSegments d) 0 None 0 0 0 0 0 0.

Definition closeCurrent (r : JournalReader) : JournalReader :=
  mkReader (jd_segments r) (jd_next r) None (jd_path r) (jd_fileSize r) (jd_offset r)
    (jd_firstSeq r) (jd_counter r) (jd_lastGood r).

Definition set_offset (r : JournalReader) (o : Z) : JournalReader :=
  mkReader (jd_segments r) (jd_next r) (jd_fd r) (jd_path r) (jd_fileSize r) o (jd_firstSeq r)
    (jd_counter r) (jd_lastGood r).

Definition set_nextIdx (r : JournalReader) (n : nat) : JournalReader :=
  mkReader (jd_segments r) n (jd_fd r) (jd_path r) (jd_fileSize r) (jd_offset r) (jd_firstSeq r)
    (jd_counter r) (jd_lastGood r).

Definition openSegmentAtIndex (d : Dir) (r : JournalReader) (idx : nat) :
    option (bool * JournalReader) :=
  path ← jd_segments r !! idx;
  match d !! path with
  | None =>
      Some (false, mkReader (jd_segments r) (jd_next r) None path (jd_fileSize r) (jd_offset r)
                     (jd_firstSeq r) (jd_counter r) (jd_lastGood r))
  | Some bs =>
      let size := Z.of_nat (length bs) in
      let r := mkReader (jd_segments r) (jd_next r) (Some path) path size (jd_offset r)
                 (jd_firstSeq r) (jd_counter r) (jd_lastGood r) in
      if size <? kSegmentHeaderSize then Some (false, closeCurrent r)
      else
        hbuf ← slice bs 0 kSegmentHeaderSize;
        '(h, ok) ← decodeSegmentHeader hbuf;
        if negb ok then Some (false, closeCurrent r)
        else Some (true, mkReader (jd_segments r) (jd_next r) (jd_fd r) (jd_path r) size
                           kSegmentHeaderSize (s64 (sh_firstSeq h)) (sh_createdCounter h)
                           (jd_lastGood r))
  end.

(** [while (nextSegmentIdx_ < segments_.size())]; [fuel] bounds the segments left. *)
Fixpoint openNextLoop (fuel : nat) (d : Dir) (r : JournalReader) : option (bool * JournalReader) :=
  if (jd_next r <? length (jd_segments r))%nat then
    match fuel with
    | O => None
    | S fuel' =>
        let idx := jd_next r in
        '(ok, r) ← openSegmentAtIndex d (set_nextIdx r (S idx)) idx;
        if (ok : bool) then Some (true, r) else openNextLoop fuel' d r
    end
  else Some (false, r).

Definition openNextSegment (d : Dir) (r : JournalReader) : option (bool * JournalReader) :=
  openNextLoop (length (jd_segments r)) d r.

Definition torn (r : JournalReader) (offset : Z) : ReadResult * JournalReader :=
  (mkReadResult TruncatedTail 0 0 emptyImage offset, set_offset r offset).

Definition readOneRecord (d : Dir) (r : JournalReader) : option (ReadResult * JournalReader) :=
  path ← jd_fd r;
  let file := fileOf d path in
  let recordStart := jd_offset r in
  if recordStart =? jd_fileSize r
  then Some (mkReadResult EndOfJournal 0 0 emptyImage recordStart, r)
  else if jd_fileSize r <? recordStart + kRecordFixedSize then Some (torn r recordStart)
  else
    match slice file recordStart kRecordFixedSize with
    | None => Some (torn r recordStart)
    | Some fixed =>
        payloadLen ← getU32 fixed 0;
        if negb (payloadLen =? kCommandSize) then Some (torn r recordStart)
        else
          let totalSize := kRecordFixedSize + payloadLen + kRecordCrcSize in
          if jd_fileSize r <? recordStart + totalSize then Some (torn r recordStart)
          else
            match slice file recordStart totalSize with
            | None => Some (torn r recordStart)
            | Some buf =>
                storedCrc ← getU32 buf (kRecordFixedSize + payloadLen);
                crc ← crcOf buf (kRecordFixedSize + payloadLen);
                if negb (crc =? storedCrc) then Some (torn r recordStart)
                else
                  seqRaw ← getU64 buf 4;
                  let seq := s64 seqRaw in
                  kindByte ← getU8 buf 12;
                  cmd ← imageLoad buf kRecordFixedSize;
                  if negb (seq =? s64 (jd_lastGood r + 1))
                  then Some (mkReadResult Corrupt seq kindByte cmd recordStart, r)
                  else
                    Some (mkReadResult ReadOk seq kindByte cmd recordStart,
                          mkReader (jd_segments r) (jd_next r) (jd_fd r) (jd_path r)
                            (jd_fileSize r) (recordStart + totalSize) (jd_firstSeq r)
                            (jd_counter r) seq)
            end
    end.

(** The loop of [next]: each turn opens a segment or finishes one; [fuel] bounds the
    segments left. *)
Fixpoint nextLoop (fuel : nat) (d : Dir) (r : JournalReader) :
    option (ReadResult * JournalReader) :=
  '(opened, r) ← match jd_fd r with
                 | Some _ => Some (true, r)
                 | None => openNextSegment d r
                 end;
  if negb opened then Some (mkReadResult EndOfJournal 0 0 emptyImage (jd_offset r), r)
  else
    '(x, r) ← readOneRecord d r;
    if bool_decide (rr_status x = EndOfJournal) then
      match fuel with
      | O => None
      | S fuel' => nextLoop fuel' d (closeCurrent r)
      end
    else Some (x, r).

Definition next (d : Dir) (r : JournalReader) : option (ReadResult * JournalReader) :=
  nextLoop (S (length (jd_segments r))) d r.

(** Read until something other than a record comes back; [fuel] bounds the
    records. *)
Fixpoint readAll (fuel : nat) (d : Dir) (r : JournalReader) :
    option (list ReadResult * ReadResult * JournalReader) :=
  match fuel with
  | O => None
  | S fuel' =>
      '(x, r) ← next d r;
      if bool_decide (rr_status x = ReadOk) then
        '(xs, last, r) ← readAll fuel' d r; Some (x :: xs, last, r)
      else Some ([], x, r)
  end.

(** ** Additions for a live reader *)

(** Segments that have appeared since, once their header is complete. *)
Definition rescan (d : Dir) (r : JournalReader) : JournalReader :=
  let found := filter (λ p, kSegmentHeaderSize <= Z.of_nat (length (fileOf d p))) (listSegments d) in
  let segs :=
    match last (jd_segments r) with
    | None => found
    | Some lastKnown => jd_segments r ++ filter (λ p, lastKnown < p) found
    end in
  mkReader segs (jd_next r) (jd_fd r) (jd_path r) (jd_fileSize r) (jd_offset r) (jd_firstSeq r)
    (jd_counter r) (jd_lastGood r).

Definition refreshFileSize (d : Dir) (r : JournalReader) : JournalReader :=
  match jd_fd r with
  | None => r
  | Some path =>
      mkReader (jd_segments r) (jd_next r) (jd_fd r) (jd_path r)
        (Z.of_nat (length (fileOf d path))) (jd_offset r) (jd_firstSeq r) (jd_counter r) (jd_lastGood r)
  end.

(** The segments from [idx] on are tried in turn. *)
Fixpoint seekLoop (todo : nat) (d : Dir) (r : JournalReader) (idx : nat) (counter offset : Z) :
    option (bool * JournalReader) :=
  match todo with
  | O => Some (false, set_nextIdx r (length (jd_segments r)))
  | S todo' =>
      '(ok, r) ← openSegmentAtIndex d r idx;
      if negb ok then seekLoop todo' d r (S idx) counter offset
      else if jd_counter r =? counter
      then Some (true, set_offset (set_nextIdx r (S idx)) offset)
      else seekLoop todo' d (closeCurrent r) (S idx) counter offset
  end.

Definition seekTo (d : Dir) (r : JournalReader) (counter offset lastGood : Z) :
    option (bool * JournalReader) :=
  let r := closeCurrent r in
  let r := mkReader (jd_segments r) (jd_next r) (jd_fd r) (jd_path r) (jd_fileSize r)
             (jd_offset r) (jd_firstSeq r) (jd_counter r) lastGood in
  seekLoop (length (jd_segments r)) d r 0 counter offset.
