(* ===== verification/JournalSpec.v ===== *)
(** What a journal directory holds, and what the reader makes of it.

    A directory is described by the list of its files in name order: complete
    segments, segments that end in part of a record, and files whose header was
    never completed.  [readAll_ok] says that the reader returns exactly the records
    up to the first torn tail. *)
From stdpp Require Import gmap sorting.
From S2P Require Import Prelude Types OrderBook Wire Messages Crc32 Events JournalFormat.
From S2P Require Import JournalWriter JournalReader.

Inductive FileSpec :=
  | Stub (bs : list Z)
  | Seg (firstSeq counter : Z) (rs : list JournalRecord) (tail : list Z).

Definition recordBytes (r : JournalRecord) : list Z := sealed (recordBody r).
Definition recordsBytes (rs : list JournalRecord) : list Z := concat (recordBytes <$> rs).
Definition headerBytes (firstSeq counter : Z) : list Z := sealed (headerBody firstSeq counter).

Definition fileBytes (f : FileSpec) : list Z :=
  match f with
  | Stub bs => bs
  | Seg first k rs tail => headerBytes first k ++ recordsBytes rs ++ tail
  end.

Definition record_ok (r : JournalRecord) : Prop :=
  valid_image (jr_command r) ∧ is_byte (jr_kind r) ∧ in_i64 (jr_seq r).

(** Part of a record: what a crash leaves of the last append. *)
Definition tail_ok (tail : list Z) : Prop := bytes tail ∧ (length tail < 68)%nat.

Definition file_ok (f : FileSpec) : Prop :=
  match f with
  | Stub bs => (length bs < 32)%nat
  | Seg first k rs tail => in_u64 first ∧ in_u64 k ∧ Forall record_ok rs ∧ tail_ok tail
  end.

Definition dirOf (fs : list (Z * FileSpec)) : Dir := list_to_map (prod_map id fileBytes <$> fs).

Definition files_ok (fs : list (Z * FileSpec)) : Prop :=
  StronglySorted Z.lt fs.*1 ∧ Forall file_ok fs.*2.

(** The records up to the first torn tail, and whether there is one. *)
Fixpoint contents (fs : list FileSpec) : list JournalRecord * bool :=
  match fs with
  | [] => ([], false)
  | Stub _ :: fs' => contents fs'
  | Seg _ _ rs tail :: fs' =>
      match tail with
      | [] => (rs ++ (contents fs').1, (contents fs').2)
      | _ => (rs, true)
      end
  end.

(** Record numbers follow one another from [lastGood] on. *)
Fixpoint consecutive (lastGood : Z) (rs : list JournalRecord) : Prop :=
  match rs with
  | [] => True
  | r :: rs' => jr_seq r = s64 (lastGood + 1) ∧ consecutive (jr_seq r) rs'
  end.

(** ** Bytes *)

Lemma length_recordBytes r : record_ok r → length (recordBytes r) = 68%nat.
Proof. intros [Hv _]. unfold recordBytes. by rewrite length_sealed, length_recordBody. Qed.

Lemma recordBytes_bytes r : record_ok r → bytes (recordBytes r).
Proof. intros [Hv _]. by apply sealed_bytes, recordBody_bytes. Qed.

Lemma recordsBytes_cons r rs : recordsBytes (r :: rs) = recordBytes r ++ recordsBytes rs.
Proof. done. Qed.

Lemma recordsBytes_bytes rs : Forall record_ok rs → bytes (recordsBytes rs).
Proof.
  induction 1 as [|r rs Hr _ IH]; [constructor|]. apply Forall_app_2; [by apply recordBytes_bytes|done].
Qed.

Lemma length_recordsBytes rs :
  Forall record_ok rs → length (recordsBytes rs) = (68 * length rs)%nat.
Proof.
  induction 1 as [|r rs Hr _ IH]; [done|]. rewrite recordsBytes_cons.
  rewrite length_app, length_recordBytes, IH by done. cbn [length]. lia.
Qed.

Lemma length_headerBytes f k : length (headerBytes f k) = 32%nat.
Proof. unfold headerBytes. by rewrite length_sealed, length_headerBody. Qed.

(** Every field of a record at the front of a buffer. *)
Lemma record_fields r rest :
  record_ok r →
  let b := recordBytes r ++ rest in
  getU32 b 0 = Some kCommandSize ∧ getU64 b 4 = Some (u64 (jr_seq r)) ∧
  getU8 b 12 = Some (jr_kind r) ∧ imageLoad b 16 = Some (jr_command r) ∧
  getU32 b 64 = Some (crc (recordBody r)) ∧ crcOf b 64 = Some (crc (recordBody r)).
Proof.
  intros (Hv & Hk & Hs). cbv zeta. unfold recordBytes, sealed.
  pose proof (length_recordBody r Hv) as Hl. pose proof (recordBody_bytes r Hv) as Hb.
  pose proof (crc_word _ Hb) as Hw. change (word (crc (recordBody r))) with
    (0 <= crc (recordBody r) < 4294967296) in Hw.
  rewrite <- app_assoc. split_and!.
  - unfold recordBody. rewrite <- !app_assoc. by rewrite getU32_here by (unfold kCommandSize; lia).
  - unfold recordBody. rewrite <- !app_assoc.
    rewrite (getU64_skip _ _ 4 0) by (rewrite ?length_le; lia). apply getU64_here, u64_range.
  - unfold recordBody. rewrite <- !app_assoc.
    rewrite (getU8_skip _ _ 12 8), (getU8_skip _ _ 8 0) by (rewrite ?length_le; lia).
    by apply getU8_here.
  - unfold recordBody. rewrite <- !app_assoc, !(app_assoc (le 4 _)), !(app_assoc (_ ++ le 8 _)),
      !(app_assoc (_ ++ le 1 _)). apply imageLoad_ok; [done|].
    rewrite !length_app, !length_le. done.
  - rewrite (getU32_skip (recordBody r) _ 64 0) by lia. by apply getU32_here.
  - apply crcOf_app; [done|lia].
Qed.

Lemma slice_at pre x rest p n :
  Z.of_nat (length pre) = p → Z.of_nat (length x) = n → slice (pre ++ x ++ rest) p n = Some x.
Proof. intros Hp Hn. rewrite (slice_skip pre _ p 0) by lia. by apply slice_here. Qed.

(** ** One record *)

(** The reader is inside file [p], in front of [rs] and then [tail]. *)
Record reading (d : Dir) (R : JournalReader) (p : Z) (rs : list JournalRecord) (tail : list Z) : Prop := {
  rd_fd : jd_fd R = Some p;
  rd_file : ∃ pre, fileOf d p = pre ++ recordsBytes rs ++ tail ∧ jd_offset R = Z.of_nat (length pre);
  rd_size : jd_fileSize R = Z.of_nat (length (fileOf d p))
}.

Definition okResult (r : JournalRecord) (offset : Z) : ReadResult :=
  mkReadResult ReadOk (jr_seq r) (jr_kind r) (jr_command r) offset.

Definition advance (R : JournalReader) (r : JournalRecord) : JournalReader :=
  mkReader (jd_segments R) (jd_next R) (jd_fd R) (jd_path R) (jd_fileSize R)
    (jd_offset R + kRecordSize) (jd_firstSeq R) (jd_counter R) (jr_seq r).

Lemma read_record d R p r rs tail :
  reading d R p (r :: rs) tail → record_ok r →
  readOneRecord d R =
    Some (if jr_seq r =? s64 (jd_lastGood R + 1)
          then (okResult r (jd_offset R), advance R r)
          else (mkReadResult Corrupt (jr_seq r) (jr_kind r) (jr_command r) (jd_offset R), R)).
Proof.
  intros [Hfd (pre & Hf & Ho) Hsz] Hr. pose proof (length_recordBytes r Hr) as Hl.
  rewrite recordsBytes_cons, <- app_assoc in Hf.
  assert (Hlen : jd_fileSize R = Z.of_nat (length pre) + 68 + Z.of_nat (length (recordsBytes rs ++ tail))).
  { rewrite Hsz, Hf, !length_app. lia. }
  pose proof (record_fields r [] Hr) as (F1 & F2 & F3 & F4 & F5 & F6). rewrite app_nil_r in *.
  unfold readOneRecord. rewrite Hfd. simpl_bind. rewrite Ho, Hf.
  unfold kRecordFixedSize, kRecordCrcSize in *.
  destruct (_ =? jd_fileSize R) eqn:E1; [lia|].
  destruct (jd_fileSize R <? _ + 16) eqn:E2; [lia|].
  rewrite <- (take_drop 16 (recordBytes r)) at 1. rewrite <- app_assoc.
  rewrite slice_at by (rewrite ?length_take; lia).
  rewrite (getU32_local (take 16 (recordBytes r)) (recordBytes r) 0 4), F1
    by (lia || (rewrite take_take; done)). simpl_bind.
  change (kCommandSize =? kCommandSize) with true. cbn [negb]. unfold kCommandSize in *.
  destruct (jd_fileSize R <? _ + (16 + 48 + 4)) eqn:E3; [lia|].
  rewrite slice_at by lia. change (16 + 48) with 64.
  rewrite F5, F6, F2, F3, F4. simpl_bind. rewrite Z.eqb_refl. cbn [negb].
  destruct Hr as (_ & _ & Hs). rewrite s64_u64 by done.
  unfold okResult, advance. rewrite Ho, Hfd.
  by destruct (jr_seq r =? s64 (jd_lastGood R + 1)).
Qed.

Lemma reading_advance d R p r rs tail :
  reading d R p (r :: rs) tail → record_ok r → reading d (advance R r) p rs tail.
Proof.
  intros [Hfd (pre & Hf & Ho) Hsz] Hr. split; [done| |done].
  exists (pre ++ recordBytes r). rewrite recordsBytes_cons in Hf. rewrite <- app_assoc.
  rewrite Hf, <- app_assoc. split; [done|]. cbn [advance jd_offset].
  rewrite length_app, length_recordBytes by done. unfold kRecordSize, kRecordFixedSize, kCommandSize, kRecordCrcSize. lia.
Qed.

Lemma read_end d R p :
  reading d R p [] [] →
  readOneRecord d R = Some (mkReadResult EndOfJournal 0 0 emptyImage (jd_offset R), R).
Proof.
  intros [Hfd (pre & Hf & Ho) Hsz]. unfold readOneRecord. rewrite Hfd. simpl_bind.
  rewrite Hsz, Hf, Ho. cbn. rewrite app_nil_r, Z.eqb_refl. done.
Qed.

Lemma read_torn d R p tail :
  reading d R p [] tail → tail ≠ [] → tail_ok tail → readOneRecord d R = Some (torn R (jd_offset R)).
Proof.
  intros [Hfd (pre & Hf & Ho) Hsz] Hne [Hb Hl]. unfold readOneRecord. rewrite Hfd.
  simpl_bind. cbn [app recordsBytes concat] in Hf.
  assert (Hlen : jd_fileSize R = Z.of_nat (length pre) + Z.of_nat (length tail)).
  { rewrite Hsz, Hf, length_app. cbn. lia. }
  assert (length tail ≠ 0%nat) by (destruct tail; [done|simpl; lia]).
  rewrite Hf, Hlen, Ho. unfold kRecordFixedSize, kRecordCrcSize.
  destruct (_ =? _ + Z.of_nat (length tail)) eqn:E1; [lia|].
  destruct (_ + Z.of_nat (length tail) <? _ + 16) eqn:E2; [done|].
  destruct (slice _ _ 16) as [fixed|] eqn:Hsl; [|done].
  assert (Hfix : bytes fixed ∧ length fixed = 16%nat).
  { cbn in Hsl. rewrite (slice_skip pre _ _ 0) in Hsl by lia. unfold slice in Hsl. case_match; [|done].
    injection Hsl as <-. split; [by apply Forall_take, Forall_drop|].
    rewrite length_take, length_drop. lia. }
  destruct (getU32_total fixed 0) as (v & -> & Hv); [lia|apply Hfix|lia|]. simpl_bind.
  destruct (v =? kCommandSize) eqn:Ev; [|done]. cbn [negb].
  assert (v = 48) as -> by (unfold kCommandSize in Ev; lia).
  destruct (_ + Z.of_nat (length tail) <? _ + (16 + 48 + 4)) eqn:E3; [done|lia].
Qed.

(** ** Walking the directory *)

(** Opening the file at place [i] of the list. *)
Lemma openAt_stub d R i p bs :
  jd_segments R !! i = Some p → d !! p = Some bs → (length bs < 32)%nat →
  openSegmentAtIndex d R i
    = Some (false, mkReader (jd_segments R) (jd_next R) None p (Z.of_nat (length bs)) (jd_offset R)
                     (jd_firstSeq R) (jd_counter R) (jd_lastGood R)).
Proof.
  intros Hi Hd Hl. unfold openSegmentAtIndex. rewrite Hi. simpl_bind. rewrite Hd.
  unfold kSegmentHeaderSize. destruct (_ <? 32) eqn:E; [done|lia].
Qed.

Lemma openAt_seg d R i p f k rs tail :
  jd_segments R !! i = Some p → d !! p = Some (fileBytes (Seg f k rs tail)) → in_u64 f → in_u64 k →
  openSegmentAtIndex d R i
    = Some (true, mkReader (jd_segments R) (jd_next R) (Some p) p
                    (Z.of_nat (length (fileBytes (Seg f k rs tail)))) 32 (s64 f) k (jd_lastGood R)).
Proof.
  intros Hi Hd Hf Hk. pose proof (length_headerBytes f k) as Hh.
  change (fileBytes _) with (headerBytes f k ++ recordsBytes rs ++ tail) in *.
  unfold openSegmentAtIndex. rewrite Hi. simpl_bind. rewrite Hd.
  rewrite length_app, Hh. unfold kSegmentHeaderSize. destruct (_ <? 32) eqn:E; [lia|].
  rewrite slice_here by lia. simpl_bind.
  rewrite <- (app_nil_r (headerBytes f k)). unfold headerBytes. by rewrite decodeSegmentHeader_ok.
Qed.

Section walk.
Context (all : list (Z * FileSpec)).

(** A segment being read, one of the files [all]: its place, its header, the records read, the records
    ahead and the tail. *)
Record Cur := mkCur {
  cu_path : Z; cu_first : Z; cu_counter : Z;
  cu_done : list JournalRecord; cu_rs : list JournalRecord; cu_tail : list Z
}.

Definition cu_file (c : Cur) : FileSpec := Seg (cu_first c) (cu_counter c) (cu_done c ++ cu_rs c) (cu_tail c).

Record inside (d : Dir) (R : JournalReader) (c : Cur) : Prop := {
  in_reading : reading d R (cu_path c) (cu_rs c) (cu_tail c);
  in_path : jd_path R = cu_path c;
  in_counter : jd_counter R = cu_counter c;
  in_offset : jd_offset R = 32 + 68 * Z.of_nat (length (cu_done c));
  in_dir : d !! cu_path c = Some (fileBytes (cu_file c));
  in_ok : file_ok (cu_file c);
  in_all : (cu_path c, cu_file c) ∈ all
}.

(** The reader is in segment [cur], or between segments, and has the files [rest]
    still to open. *)
Record at_pos (d : Dir) (R : JournalReader) (cur : option Cur) (rest : list (Z * FileSpec)) : Prop := {
  ap_segments : ∃ done, jd_segments R = done ++ rest.*1 ∧ jd_next R = length done;
  ap_files : Forall (λ pf, d !! pf.1 = Some (fileBytes pf.2) ∧ file_ok pf.2 ∧ pf ∈ all) rest;
  ap_cur : match cur with None => jd_fd R = None | Some c => inside d R c end
}.

Definition ahead (cur : option Cur) (rest : list (Z * FileSpec)) : list JournalRecord * bool :=
  match cur with
  | None => contents rest.*2
  | Some c => contents (Seg (cu_first c) (cu_counter c) (cu_rs c) (cu_tail c) :: rest.*2)
  end.

Lemma fileOf_Some d p bs : d !! p = Some bs → fileOf d p = bs.
Proof. unfold fileOf. by intros ->. Qed.

Lemma open_stub d R p bs rest :
  at_pos d R None ((p, Stub bs) :: rest) →
  ∃ R', openSegmentAtIndex d (set_nextIdx R (S (jd_next R))) (jd_next R) = Some (false, R') ∧
    at_pos d R' None rest ∧ jd_lastGood R' = jd_lastGood R ∧ jd_segments R' = jd_segments R.
Proof.
  intros [(dn & Hs & Hn) [(Hd & Hok & Hall) Hf]%Forall_cons _].
  cbn [fst snd file_ok fmap list_fmap fileBytes] in Hok, Hd, Hs.
  rewrite (openAt_stub d _ _ p bs); [|cbn [set_nextIdx jd_segments]|done|done].
  - eexists. split; [done|]. split; [|done]. split; [|done|done]. cbn [set_nextIdx jd_segments jd_next].
    exists (dn ++ [p]). rewrite Hs, (length_app dn), <- app_assoc. simpl. split; [done|lia].
  - by rewrite Hn, Hs, (list_lookup_middle dn _ p _ eq_refl).
Qed.

Lemma open_seg d R p f k rs tail rest :
  at_pos d R None ((p, Seg f k rs tail) :: rest) →
  ∃ R', openSegmentAtIndex d (set_nextIdx R (S (jd_next R))) (jd_next R) = Some (true, R') ∧
    at_pos d R' (Some (mkCur p f k [] rs tail)) rest ∧ jd_lastGood R' = jd_lastGood R ∧
    jd_segments R' = jd_segments R.
Proof.
  intros [(dn & Hs & Hn) [(Hd & Hok & Hall) Hf]%Forall_cons _].
  cbn [fst snd file_ok fmap list_fmap] in Hok, Hd, Hs. destruct Hok as (Hu & Hk & Hrs & Htl).
  rewrite (openAt_seg d _ _ p f k rs tail); [|cbn [set_nextIdx jd_segments]|done|done|done].
  - eexists. split; [done|]. split; [|done].
    split; [|done|split; [split|..]]; cbn [cu_path cu_rs cu_tail cu_counter cu_done]; try done.
    + cbn [set_nextIdx jd_segments jd_next].
      exists (dn ++ [p]). rewrite Hs, (length_app dn), <- app_assoc. simpl. split; [done|lia].
    + exists (headerBytes f k). rewrite (fileOf_Some _ _ _ Hd). cbn [jd_offset].
      by rewrite length_headerBytes.
    + by rewrite (fileOf_Some _ _ _ Hd).
  - by rewrite Hn, Hs, (list_lookup_middle dn _ p _ eq_refl).
Qed.

Lemma openNext_ok d R rest fuel :
  at_pos d R None rest → (length rest <= fuel)%nat →
  ∃ b R', openNextLoop fuel d R = Some (b, R') ∧ jd_lastGood R' = jd_lastGood R ∧
    jd_segments R' = jd_segments R ∧
    if b : bool then ∃ cur rest', at_pos d R' (Some cur) rest' ∧ ahead (Some cur) rest' = contents rest.*2 ∧
                       (length rest' < length rest)%nat
    else contents rest.*2 = ([], false) ∧ at_pos d R' None [].
Proof.
  revert R fuel. induction rest as [|[p f] rest IH]; intros R fuel Hat Hfuel.
  - destruct (ap_segments _ _ _ _ Hat) as (dn & Hs & Hn). simpl in Hs. rewrite app_nil_r in Hs.
    exists false, R. destruct fuel; simpl; rewrite Hn, Hs, Nat.ltb_irrefl; done.
  - destruct (ap_segments _ _ _ _ Hat) as (dn & Hs & Hn). destruct fuel as [|fuel]; [simpl in Hfuel; lia|].
    cbn [openNextLoop]. assert ((jd_next R <? length (jd_segments R))%nat = true) as ->.
    { rewrite Hs, length_app, Hn. simpl. apply Nat.ltb_lt. lia. }
    destruct f as [bs|f k rs tail].
    + destruct (open_stub _ _ _ _ _ Hat) as (R' & -> & Hat' & Hlg & Hsg). simpl_bind.
      simpl in Hfuel. destruct (IH R' fuel Hat') as (b & R2 & -> & H1 & H2 & H3); [lia|].
      exists b, R2. split; [done|]. split; [congruence|]. split; [congruence|].
      destruct b; [|done]. destruct H3 as (cur & rest' & ? & ? & ?). exists cur, rest'. simpl. eauto with lia.
    + destruct (open_seg _ _ _ _ _ _ _ _ Hat) as (R' & -> & Hat' & Hlg & Hsg). simpl_bind.
      exists true, R'. split; [done|]. split; [done|]. split; [done|].
      exists (mkCur p f k [] rs tail), rest. split; [done|]. split; [done|simpl; lia].
Qed.

Lemma inside_advance d R c r rs :
  inside d R c → cu_rs c = r :: rs → record_ok r →
  inside d (advance R r)
    (mkCur (cu_path c) (cu_first c) (cu_counter c) (cu_done c ++ [r]) rs (cu_tail c)).
Proof.
  intros [H1 H2 H3 H4 H5 H6 H7] Hrs Hr. unfold cu_file in *. rewrite Hrs in *.
  split; cbn [cu_path cu_first cu_counter cu_done cu_rs cu_tail]; try done.
  - by eapply reading_advance.
  - cbn [advance jd_offset]. rewrite H4, length_app. cbn [length].
    unfold kRecordSize, kRecordFixedSize, kCommandSize, kRecordCrcSize. lia.
  - rewrite H5. unfold cu_file. cbn. by rewrite <- app_assoc.
  - unfold cu_file. cbn. by rewrite <- app_assoc.
  - unfold cu_file. cbn. by rewrite <- app_assoc.
Qed.

Lemma inside_records d R c : inside d R c → Forall record_ok (cu_rs c) ∧ tail_ok (cu_tail c).
Proof. intros [_ _ _ _ _ (_ & _ & H & Ht) _]. apply Forall_app in H as [_ H]. done. Qed.

(** What one call of [next] answers when [a] is ahead and [lastGood] was the last
    number accepted. *)
Definition answers (d : Dir) (lastGood : Z) (a : list JournalRecord * bool) (x : ReadResult)
    (R' : JournalReader) : Prop :=
  match a with
  | (r :: rs, t) =>
      if jr_seq r =? s64 (lastGood + 1)
      then (∃ off, x = okResult r off) ∧ jd_lastGood R' = jr_seq r ∧
           ∃ c' rest', at_pos d R' (Some c') rest' ∧ ahead (Some c') rest' = (rs, t)
      else rr_status x = Corrupt ∧ jd_lastGood R' = lastGood
  | ([], true) =>
      rr_status x = TruncatedTail ∧ jd_lastGood R' = lastGood ∧
      ∃ c', inside d R' c' ∧ cu_rs c' = [] ∧ cu_tail c' ≠ []
  | ([], false) => rr_status x = EndOfJournal ∧ jd_lastGood R' = lastGood ∧ jd_fd R' = None
  end.

(** The second half of a turn of the loop. *)
Definition turn (fuel : nat) (d : Dir) (R : JournalReader) : option (ReadResult * JournalReader) :=
  '(x, R) ← readOneRecord d R;
  if bool_decide (rr_status x = EndOfJournal) then
    match fuel with O => None | S fuel' => nextLoop fuel' d (closeCurrent R) end
  else Some (x, R).

Lemma nextLoop_inside fuel d R p : jd_fd R = Some p → nextLoop fuel d R = turn fuel d R.
Proof. intros Hp. unfold turn. destruct fuel; cbn [nextLoop]; by rewrite Hp. Qed.

Lemma nextLoop_between fuel d R :
  jd_fd R = None →
  nextLoop fuel d R =
    '(b, R) ← openNextSegment d R;
    if negb b then Some (mkReadResult EndOfJournal 0 0 emptyImage (jd_offset R), R) else turn fuel d R.
Proof. intros Hp. unfold turn. destruct fuel; cbn [nextLoop]; by rewrite Hp. Qed.

Lemma at_pos_fd d R c rest : at_pos d R (Some c) rest → jd_fd R = Some (cu_path c).
Proof. intros [_ _ [[? _ _] _ _ _ _ _ _]]. done. Qed.

Lemma turn_ok d rest fuel :
  (∀ R, at_pos d R None rest → ∃ x R', nextLoop fuel d R = Some (x, R') ∧
    jd_segments R' = jd_segments R ∧ answers d (jd_lastGood R) (contents rest.*2) x R') →
  ∀ R c, at_pos d R (Some c) rest → ∃ x R', turn (S fuel) d R = Some (x, R') ∧
    jd_segments R' = jd_segments R ∧ answers d (jd_lastGood R) (ahead (Some c) rest) x R'.
Proof.
  intros Hnone R c Hat. pose proof (ap_cur _ _ _ _ Hat) as Hin. destruct (inside_records _ _ _ Hin) as [Hrs Htl].
  pose proof (in_reading _ _ _ Hin) as Hrd. unfold turn, ahead.
  destruct (cu_rs c) as [|r rs] eqn:Ers.
  - destruct (cu_tail c) as [|b tl] eqn:Et.
    + rewrite (read_end _ _ _ Hrd). cbn [mbind option_bind rr_status].
      destruct (Hnone (closeCurrent R)) as (x & R' & Hx & Hs & Ha).
      { destruct Hat as [H1 H2 _]. by split. }
      exists x, R'. split; [done|]. split; [done|]. cbn [contents app]. by destruct (contents rest.*2).
    + rewrite (read_torn _ _ _ _ Hrd) by done. cbn [mbind option_bind torn rr_status].
      eexists _, _. split; [done|]. split; [done|]. cbn [contents answers rr_status]. split; [done|].
      split; [done|]. exists c. split; [|by rewrite Et].
      assert (set_offset R (jd_offset R) = R) as -> by (by destruct R). done.
  - apply Forall_cons in Hrs as [Hr Hrs]. rewrite (read_record _ _ _ _ _ _ Hrd Hr). simpl_bind.
    assert (Hc : ∃ rs' t, contents (Seg (cu_first c) (cu_counter c) (r :: rs) (cu_tail c) :: rest.*2) = (r :: rs', t)
      ∧ contents (Seg (cu_first c) (cu_counter c) rs (cu_tail c) :: rest.*2) = (rs', t)).
    { cbn [contents]. destruct (cu_tail c); eexists _, _; by split. }
    destruct Hc as (rs' & t & -> & Hc). cbn [answers].
    destruct (jr_seq r =? s64 (jd_lastGood R + 1)) eqn:Eq; cbn [fst snd okResult rr_status].
    + eexists _, _. split; [done|]. split; [done|]. split; [by eexists|]. split; [done|].
      exists (mkCur (cu_path c) (cu_first c) (cu_counter c) (cu_done c ++ [r]) rs (cu_tail c)), rest.
      split; [|exact Hc]. destruct Hat as [H1 H2 H3]. split; [exact H1|exact H2|].
      by apply inside_advance.
    + eexists _, _. split; [done|]. done.
Qed.

Lemma nextLoop_ok d rest :
  ∀ fuel R, at_pos d R None rest → (length rest <= fuel)%nat →
  ∃ x R', nextLoop fuel d R = Some (x, R') ∧ jd_segments R' = jd_segments R ∧
    answers d (jd_lastGood R) (contents rest.*2) x R'.
Proof.
  induction rest as [rest IH] using (induction_ltof1 _ (@length _)). unfold ltof in IH.
  intros fuel R Hat Hfuel. rewrite nextLoop_between by apply (ap_cur _ _ _ _ Hat).
  destruct (openNext_ok d R rest (length (jd_segments R)) Hat) as (b & R' & Ho & Hlg & Hsg & Hb).
  { destruct (ap_segments _ _ _ _ Hat) as (dn & -> & _). rewrite length_app, length_fmap. lia. }
  unfold openNextSegment. rewrite Ho. simpl_bind. destruct b; cbn [negb].
  - destruct Hb as (c & rest' & Hat' & Heq & Hlt). destruct fuel as [|fuel]; [lia|].
    destruct (turn_ok d rest' fuel) with (R := R') (c := c) as (x & R2 & Hx & Hs2 & Ha);
      [intros R2 HR2; apply (IH rest'); [done|done|lia]|done|].
    exists x, R2. split; [done|]. split; [congruence|]. by rewrite <- Heq, <- Hlg.
  - destruct Hb as [-> Hat']. eexists _, _. split; [done|]. split; [done|].
    split; [done|]. split; [done|]. apply (ap_cur _ _ _ _ Hat').
Qed.

Lemma read_next_ok d R cur rest :
  at_pos d R cur rest →
  ∃ x R', next d R = Some (x, R') ∧ jd_segments R' = jd_segments R ∧
    answers d (jd_lastGood R) (ahead cur rest) x R'.
Proof.
  intros Hat. unfold next.
  assert (Hl : (length rest <= length (jd_segments R))%nat).
  { destruct (ap_segments _ _ _ _ Hat) as (dn & -> & _). rewrite length_app, length_fmap. lia. }
  destruct cur as [c|]; [|apply nextLoop_ok; [done|lia]].
  rewrite (nextLoop_inside _ _ _ _ (at_pos_fd _ _ _ _ Hat)). apply turn_ok; [|done].
  intros R2 HR2. by apply nextLoop_ok.
Qed.

(** ** Reading to the end *)

Definition recordOf (x : ReadResult) : JournalRecord := mkJournalRecord (rr_seq x) (rr_kind x) (rr_command x).

Definition lastSeqOf (lastGood : Z) (rs : list JournalRecord) : Z := from_option jr_seq lastGood (last rs).

Lemma lastSeqOf_cons lg r rs : lastSeqOf lg (r :: rs) = lastSeqOf (jr_seq r) rs.
Proof. unfold lastSeqOf. rewrite last_cons. by destruct (last rs). Qed.

Lemma readAll_pos d R cur rest rs t fuel :
  at_pos d R cur rest → ahead cur rest = (rs, t) → consecutive (jd_lastGood R) rs →
  (length rs < fuel)%nat →
  ∃ xs x R', readAll fuel d R = Some (xs, x, R') ∧ recordOf <$> xs = rs ∧
    Forall (λ x, rr_status x = ReadOk) xs ∧ answers d (lastSeqOf (jd_lastGood R) rs) ([], t) x R'.
Proof.
  revert R cur rest fuel. induction rs as [|r rs IH]; intros R cur rest fuel Hat Hah Hc Hfuel;
    (destruct fuel as [|fuel]; [simpl in Hfuel; lia|]); cbn [readAll];
    destruct (read_next_ok d R cur rest Hat) as (x & R' & -> & Hsg & Ha); rewrite Hah in Ha;
    simpl_bind.
  - exists [], x, R'. assert (Hne : rr_status x ≠ ReadOk) by (destruct t, Ha as [-> _]; done).
    rewrite bool_decide_eq_false_2 by done. done.
  - destruct Hc as [Hseq Hc]. cbn [answers] in Ha. rewrite <- Hseq, Z.eqb_refl in Ha.
    destruct Ha as ((off & ->) & Hlg & c' & rest' & Hat' & Hah').
    rewrite bool_decide_eq_true_2 by done.
    destruct (IH R' (Some c') rest' fuel Hat' Hah') as (xs & x & R2 & -> & Hxs & Hok & Ha);
      [by rewrite Hlg|simpl in Hfuel; lia|].
    simpl_bind. eexists _, x, R2. split; [done|]. split; [|split].
    + rewrite fmap_cons, Hxs. f_equal. by destruct r.
    + by constructor.
    + rewrite lastSeqOf_cons, <- Hlg. done.
Qed.

End walk.

Lemma listSegments_dirOf fs : files_ok fs → listSegments (dirOf fs) = fs.*1.
Proof.
  intros [Hs _]. unfold listSegments.
  assert (Hkeys : (prod_map id fileBytes <$> fs).*1 = fs.*1).
  { rewrite <- list_fmap_compose. by apply list_fmap_ext. }
  assert (Hnd : NoDup fs.*1).
  { clear Hkeys. induction Hs as [|p l _ IH Hl]; constructor; [|done]. intros Hin.
    rewrite Forall_forall in Hl. specialize (Hl p Hin). lia. }
  assert (Hp : merge_sort Z.le (map_to_list (dirOf fs)).*1 ≡ₚ fs.*1).
  { rewrite merge_sort_Permutation. unfold dirOf.
    rewrite <- Hkeys. apply fmap_Permutation, map_to_list_to_map. by rewrite Hkeys. }
  apply (StronglySorted_unique Z.le); [apply StronglySorted_merge_sort; apply _| |done].
  clear -Hs. induction Hs as [|p l _ IH Hl]; constructor; [done|].
  eapply Forall_impl; [exact Hl|]. simpl. lia.
Qed.

Lemma dirOf_lookup fs :
  files_ok fs → Forall (λ pf, dirOf fs !! pf.1 = Some (fileBytes pf.2) ∧ file_ok pf.2 ∧ pf ∈ fs) fs.
Proof.
  intros [Hs Hok]. apply Forall_forall. intros [p f] Hin. cbn [fst snd].
  rewrite Forall_forall in Hok.
  split; [|split; [apply Hok; by apply (list_elem_of_fmap_2 snd fs (p, f))|done]].
  assert (Hkeys : (prod_map id fileBytes <$> fs).*1 = fs.*1).
  { rewrite <- list_fmap_compose. by apply list_fmap_ext. }
  apply elem_of_list_to_map_1.
  - rewrite Hkeys. clear -Hs. induction Hs as [|q l _ IH Hl]; constructor; [|done]. intros Hin.
    rewrite Forall_forall in Hl. specialize (Hl q Hin). lia.
  - by apply (list_elem_of_fmap_2 (prod_map id fileBytes) fs (p, f)).
Qed.

Lemma readerNew_pos fs : files_ok fs → at_pos fs (dirOf fs) (readerNew (dirOf fs)) None fs.
Proof.
  intros Hok. split; [|by apply dirOf_lookup|done].
  exists []. unfold readerNew; simpl. by rewrite listSegments_dirOf.
Qed.

(** A journal directory is read up to its first torn tail, and the reader stops
    there. *)
Lemma readAll_ok fs rs t fuel :
  files_ok fs → contents fs.*2 = (rs, t) → consecutive 0 rs → (length rs < fuel)%nat →
  ∃ xs x R', readAll fuel (dirOf fs) (readerNew (dirOf fs)) = Some (xs, x, R') ∧
    recordOf <$> xs = rs ∧ Forall (λ x, rr_status x = ReadOk) xs ∧
    answers fs (dirOf fs) (lastSeqOf 0 rs) ([], t) x R'.
Proof.
  intros Hok Hc Hcons Hf.
  exact (readAll_pos _ _ (readerNew (dirOf fs)) None fs rs t fuel (readerNew_pos fs Hok) Hc Hcons Hf).
Qed.
