(* ===== verification/JournalCrash.v ===== *)
(** Durability of the journal: what is in the directory after any append, however
    its system calls turn out, and after a crash at any later point.

    A crash is here a failure of the machine.  It keeps of every file at least the part the last successful [fsync]
    covered, and of the rest some prefix; a file that was never synced may be
    missing. *)
From stdpp Require Import gmap sorting.
From S2P Require Import Prelude Types OrderBook Wire Messages Crc32 Events JournalFormat.
From S2P Require Import JournalWriter JournalReader JournalSpec.

Definition synced (w : JournalWriter) (p : Z) : nat := default 0%nat (jw_synced w !! p).

Definition crashed (w : JournalWriter) (d' : Dir) : Prop :=
  ∀ p, match jw_dir w !! p, d' !! p with
       | None, None => True
       | None, Some _ => False
       | Some bs, Some bs' => ∃ n, (synced w p <= n)%nat ∧ bs' = take n bs
       | Some _, None => synced w p = 0%nat
       end.

(** ** A prefix of a segment *)

Lemma take_records n rs :
  Forall record_ok rs → (n <= 68 * length rs)%nat →
  ∃ j tail, take n (recordsBytes rs) = recordsBytes (take j rs) ++ tail ∧ tail_ok tail ∧
    (68 * j <= n < 68 * (j + 1))%nat ∧ (j <= length rs)%nat.
Proof.
  intros Hrs. revert n. induction Hrs as [|r rs Hr Hrs IH]; intros n Hn.
  { exists 0%nat, []. cbn in Hn |- *. assert (n = 0%nat) as -> by lia. repeat split; try constructor; simpl; lia. }
  rewrite recordsBytes_cons. pose proof (length_recordBytes r Hr) as Hl.
  destruct (decide (n < 68)%nat) as [Hlt|Hge].
  - exists 0%nat, (take n (recordBytes r)). rewrite take_app_le by lia. split; [done|].
    split; [split; [by apply Forall_take, recordBytes_bytes|rewrite length_take; lia]|].
    cbn [length]. lia.
  - cbn [length] in Hn. destruct (IH (n - 68)%nat) as (j & tl & He & Htl & Hj & Hj2); [lia|].
    exists (S j), tl. rewrite take_app_ge, Hl, He by lia. cbn [take length].
    rewrite recordsBytes_cons, <- app_assoc. split; [done|]. split; [done|]. lia.
Qed.

(** [f'] is what is left of a segment cut after its [j]th record, or inside its
    header. *)
Definition cut (f k : Z) (rs : list JournalRecord) (j : nat) (f' : FileSpec) : Prop :=
  (j = 0%nat ∧ ∃ n, f' = Stub (take n (headerBytes f k)) ∧ (n <= 32)%nat) ∨ ∃ tl, f' = Seg f k (take j rs) tl.

Definition isTorn (f : FileSpec) : bool :=
  match f with Stub _ => false | Seg _ _ _ tl => bool_decide (tl ≠ []) end.

Lemma cut_contents f k rs j f' : cut f k rs j f' → contents [f'] = (take j rs, isTorn f').
Proof.
  intros [(-> & n & -> & _)|[tl ->]]; [done|]. cbn [contents isTorn]. destruct tl; simpl; [|done].
  by rewrite app_nil_r.
Qed.

(** The reader sees of the first [n] bytes of a segment the records that are
    complete. *)
Lemma prefix_file f k rs n :
  file_ok (Seg f k rs []) → (n <= 32 + 68 * length rs)%nat →
  ∃ f' j, take n (fileBytes (Seg f k rs [])) = fileBytes f' ∧ file_ok f' ∧ cut f k rs j f' ∧
    (∀ i, (32 + 68 * i <= n)%nat → (i <= j)%nat) ∧ (j <= length rs)%nat ∧
    (68 * j <= n - 32)%nat.
Proof.
  intros (Hf & Hk & Hrs & _) Hn. pose proof (length_headerBytes f k) as Hh. cbn [fileBytes]. rewrite app_nil_r.
  destruct (decide (n < 32)%nat) as [Hlt|Hge].
  - exists (Stub (take n (headerBytes f k))), 0%nat. rewrite take_app_le by lia.
    cbn [fileBytes file_ok]. rewrite length_take. split; [done|]. split; [lia|].
    split; [left; eauto with lia|].
    split; [intros; lia|lia].
  - destruct (take_records (n - 32) rs Hrs) as (j & tl & He & Htl & Hj & Hj2); [lia|].
    assert (Hd : take n (headerBytes f k ++ recordsBytes rs)
                 = headerBytes f k ++ recordsBytes (take j rs) ++ tl).
    { rewrite take_app_ge by lia. by rewrite Hh, He. }
    exists (Seg f k (take j rs) tl), j. split; [done|].
    split; [split; [done|split; [done|split; [by apply Forall_take|done]]]|].
    split; [right; eauto|]. split; [intros; lia|lia].
Qed.

(** ** Complete segments in front *)

Definition full (fs : list (Z * FileSpec)) : Prop := Forall (λ pf, ∃ f k rs, pf.2 = Seg f k rs []) fs.

Definition records (fs : list (Z * FileSpec)) : list JournalRecord := (contents fs.*2).1.

Lemma contents_app fs fs' :
  full fs → contents (fs ++ fs').*2 = (records fs ++ records fs', (contents fs'.*2).2).
Proof.
  unfold records. induction 1 as [|[p f] fs (f0 & k & rs & Hf) _ IH]; cbn [app fmap list_fmap].
  { by destruct (contents fs'.*2). }
  cbn [snd] in Hf. rewrite Hf. cbn [contents]. rewrite IH. cbn [fst snd]. by rewrite app_assoc.
Qed.

Lemma records_full fs : full fs → contents fs.*2 = (records fs, false).
Proof.
  intros Hf. pose proof (contents_app fs [] Hf) as H. rewrite app_nil_r in H. rewrite H.
  unfold records at 2. simpl. by rewrite app_nil_r.
Qed.

Lemma dirOf_snoc fs p f : p ∉ fs.*1 → dirOf (fs ++ [(p, f)]) = <[p := fileBytes f]> (dirOf fs).
Proof.
  intros Hp. unfold dirOf. rewrite fmap_app, list_to_map_app. cbn.
  rewrite (insert_union_singleton_r (list_to_map _)); [by rewrite insert_empty|].
  apply not_elem_of_list_to_map_1. rewrite <- list_fmap_compose.
  intros Hin. apply Hp. erewrite list_fmap_ext; [exact Hin|]. done.
Qed.

Lemma files_ok_snoc fs p f :
  files_ok fs → Forall (λ q, q < p) fs.*1 → file_ok f → files_ok (fs ++ [(p, f)]).
Proof.
  intros [Hs Hok] Hp Hf. split.
  - rewrite fmap_app. apply StronglySorted_app. split; [|split; [done|by repeat constructor]].
    cbn. intros x y Hx Hy. apply list_elem_of_singleton in Hy as ->.
    rewrite Forall_forall in Hp. by apply Hp.
  - rewrite fmap_app. apply Forall_app_2; [done|]. by repeat constructor.
Qed.

Lemma fresh_above (fs : list (Z * FileSpec)) p : Forall (λ q, q < p) fs.*1 → p ∉ fs.*1.
Proof. intros Hf Hp. rewrite Forall_forall in Hf. specialize (Hf p Hp). lia. Qed.

(** The files in front are complete and synced; file [p], the last one, holds the
    first [n] bytes of a segment. *)
Record dirty (w : JournalWriter) (fs : list (Z * FileSpec)) (p f k : Z) (rs : list JournalRecord)
    (n : nat) : Prop := {
  dt_files : files_ok fs;
  dt_full : full fs;
  dt_names : Forall (λ q, q < p) fs.*1;
  dt_dir : delete p (jw_dir w) = dirOf fs;
  dt_synced : Forall (λ pf, length (fileBytes pf.2) <= synced w pf.1)%nat fs;
  dt_seg : file_ok (Seg f k rs []);
  dt_len : (n <= 32 + 68 * length rs)%nat;
  dt_hot : jw_dir w !! p = Some (take n (fileBytes (Seg f k rs [])))
}.

Lemma length_full fs p f : full fs → (p, f) ∈ fs → (32 <= length (fileBytes f))%nat.
Proof.
  intros Hf Hin. unfold full in Hf. rewrite Forall_forall in Hf. destruct (Hf _ Hin) as (f0 & k & rs & He).
  cbn [snd] in He. subst f. cbn [fileBytes]. rewrite length_app, length_headerBytes. lia.
Qed.

(** The synced files survive a crash unchanged. *)
Lemma crashed_front w fs p d' :
  files_ok fs → full fs → Forall (λ pf, length (fileBytes pf.2) <= synced w pf.1)%nat fs →
  delete p (jw_dir w) = dirOf fs → crashed w d' → delete p d' = dirOf fs.
Proof.
  intros Hok Hfull Hsy Hd Hcr. apply map_eq. intros q. destruct (decide (q = p)) as [->|Hne].
  { rewrite <- Hd. by rewrite !lookup_delete_eq. }
  rewrite <- Hd, !lookup_delete_ne by done. specialize (Hcr q).
  destruct (jw_dir w !! q) as [bs|] eqn:Hq; [|by destruct (d' !! q)].
  assert (Hin : dirOf fs !! q = Some bs) by (rewrite <- Hd; by rewrite lookup_delete_ne).
  apply elem_of_list_to_map_2, list_elem_of_fmap in Hin as ([q' f] & [= -> ->] & Hin).
  pose proof (length_full _ _ _ Hfull Hin) as Hlen. rewrite Forall_forall in Hsy.
  specialize (Hsy _ Hin). cbn [fst snd] in Hsy. unfold id in *.
  destruct (d' !! q') as [bs'|]; [|lia].
  destruct Hcr as (n & Hn & ->). by rewrite take_ge by lia.
Qed.

Lemma crash_dirty w fs p f k rs n d' :
  dirty w fs p f k rs n → crashed w d' →
  ∃ fs' j, files_ok fs' ∧ d' = dirOf fs' ∧ (j <= length rs)%nat ∧
    (fs' = fs ∧ j = 0%nat ∨ ∃ f', fs' = fs ++ [(p, f')] ∧ cut f k rs j f') ∧
    (∀ i, (32 + 68 * i <= synced w p)%nat → (32 + 68 * i <= n)%nat → (i <= j)%nat).
Proof.
  intros [H1 H2 H3 H4 H5 H6 H7 H8] Hcr. pose proof (crashed_front w fs p d' H1 H2 H5 H4 Hcr) as Hfr.
  specialize (Hcr p). rewrite H8 in Hcr. destruct (d' !! p) as [bs'|] eqn:Hp.
  - destruct Hcr as (m & Hm & ->). rewrite take_take in Hp.
    destruct (prefix_file f k rs (m `min` n) H6) as (f' & j & He & Hok & Hcut & Hi & Hj & _); [lia|].
    exists (fs ++ [(p, f')]), j. split; [by apply files_ok_snoc|]. split.
    + rewrite dirOf_snoc by (by apply fresh_above). rewrite <- He, <- Hfr.
      rewrite insert_delete_eq. symmetry. by apply insert_id.
    + split; [done|]. split; [right; eauto|]. intros i Hi1 Hi2. apply Hi. lia.
  - exists fs, 0%nat. split; [done|]. split; [|split; [lia|]].
    + rewrite <- Hfr. symmetry. by apply delete_id.
    + split; [by left|]. intros i Hi. lia.
Qed.

(** ** Writer states between appends *)

Definition writer_config_ok (c : WriterConfig) : Prop :=
  100 <= wc_rollBytes c < 9223372036854775808 ∧ 1 <= wc_groupSize c < 18446744073709551616.

(** The segment being written. *)
Record Hot := mkHot { ht_path : Z; ht_first : Z; ht_counter : Z; ht_rs : list JournalRecord }.

Definition hotRecords (hot : option Hot) : list JournalRecord := from_option ht_rs [] hot.

(** The complete, synced segments. *)
Record front (w : JournalWriter) (fs : list (Z * FileSpec)) (seq : Z) : Prop := {
  fr_files : files_ok fs;
  fr_full : full fs;
  fr_synced : Forall (λ pf, length (fileBytes pf.2) <= synced w pf.1)%nat fs;
  fr_names : Forall (λ q, 0 <= q <= seq) fs.*1
}.

(** No segment is open.  A file left by an attempt that failed inside its header may
    be there under the name of the next segment. *)
Definition closed (w : JournalWriter) (fs : list (Z * FileSpec)) (seq : Z) : Prop :=
  jw_fd w = None ∧ jw_pending w = 0 ∧
  (jw_dir w = dirOf fs ∨ ∃ f k n, dirty w fs (seq + 1) f k [] n).

(** Segment [h] is open, with [jw_pending] records not yet synced. *)
Record opened (w : JournalWriter) (fs : list (Z * FileSpec)) (seq : Z) (h : Hot) : Prop := {
  op_fd : jw_fd w = Some (ht_path h);
  op_dir : dirty w fs (ht_path h) (ht_first h) (ht_counter h) (ht_rs h) (32 + 68 * length (ht_rs h));
  op_bytes : jw_bytes w = 32 + 68 * Z.of_nat (length (ht_rs h));
  op_pending : jw_pending w <= Z.of_nat (length (ht_rs h));
  op_synced : jw_bytes w - 68 * jw_pending w <= Z.of_nat (synced w (ht_path h));
  op_name : ht_path h = seq - Z.of_nat (length (ht_rs h)) + 1;
  op_size : jw_bytes w < 9223372036854775808
}.

Record clean (c : WriterConfig) (w : JournalWriter) (fs : list (Z * FileSpec)) (hot : option Hot)
    (seq : Z) : Prop := {
  cl_front : front w fs (seq - Z.of_nat (length (hotRecords hot)));
  cl_count : seq = Z.of_nat (length (records fs ++ hotRecords hot));
  cl_counter : in_u64 (jw_counter w);
  cl_pending : 0 <= jw_pending w < wc_groupSize c;
  cl_policy : wc_policy c = PerRecord → jw_pending w = 0;
  cl_hot : match hot with None => closed w fs seq | Some h => opened w fs seq h end
}.

(** All but the last [lost] records of the open segment are synced. *)
Definition covers (w : JournalWriter) (hot : option Hot) (lost : nat) : Prop :=
  match hot with
  | None => True
  | Some h => (32 + 68 * length (ht_rs h) <= synced w (ht_path h) + 68 * lost)%nat
  end.

Lemma clean_covers c w fs hot seq : clean c w fs hot seq → covers w hot (Z.to_nat (jw_pending w)).
Proof.
  intros [_ _ _ Hp _ Hh]. destruct hot as [h|]; [|done]. destruct Hh as [_ _ Hb _ Hs _ _]. unfold covers. lia.
Qed.

Definition set_io (w : JournalWriter) (io : list IoResult) : JournalWriter :=
  mkWriter (jw_dir w) (jw_synced w) (jw_fd w) (jw_path w) (jw_bytes w) (jw_pending w)
    (jw_counter w) (jw_lastSeq w) io.

Lemma sys_ok w : ∃ r io, sys w = (r, set_io w io).
Proof.
  unfold sys. destruct (jw_io w) as [|r io] eqn:E; [exists IoOk, []|by exists r, io].
  f_equal. destruct w; simpl in *. by subst.
Qed.

(** A write adds some prefix of the bytes to the file. *)
Lemma writeFile_ok w fd bs :
  ∃ k io, (k <= length bs)%nat ∧
    writeFile w fd bs = (Z.of_nat k, set_files (set_io w io)
      (<[fd := fileOf (jw_dir w) fd ++ take k bs]> (jw_dir w)) (jw_synced w)).
Proof.
  unfold writeFile. destruct (sys_ok w) as (r & io & ->). cbn [set_io jw_dir jw_synced].
  destruct r as [| |n]; eexists _, io; (split; [|done]); lia.
Qed.

Lemma fsyncFile_ok w fd :
  ∃ (b : bool) io, fsyncFile w fd =
    (b, if b then set_files (set_io w io) (jw_dir w)
                    (<[fd := length (fileOf (jw_dir w) fd)]> (jw_synced w))
        else set_io w io).
Proof.
  unfold fsyncFile. destruct (sys_ok w) as (r & io & ->).
  destruct r; [exists true, io|exists false, io|exists false, io]; done.
Qed.

(** Only the last file changes. *)
Lemma dirty_change w w' fs p f k rs n f' k' rs' n' :
  dirty w fs p f k rs n → delete p (jw_dir w') = delete p (jw_dir w) →
  (∀ q, q ≠ p → synced w' q = synced w q) →
  jw_dir w' !! p = Some (take n' (fileBytes (Seg f' k' rs' []))) → file_ok (Seg f' k' rs' []) →
  (n' <= 32 + 68 * length rs')%nat → dirty w' fs p f' k' rs' n'.
Proof.
  intros [H1 H2 H3 H4 H5 H6 H7 H8] Hd Hs Hp Hok Hn. split; try done; [congruence|].
  apply Forall_forall. intros [q g] Hin. rewrite Forall_forall in H5. specialize (H5 _ Hin).
  cbn [fst snd] in *. rewrite Hs; [done|]. intros ->. apply (fresh_above _ _ H3). by apply (list_elem_of_fmap_2 fst fs (p, g)).
Qed.

Lemma dirty_ext w w' fs p f k rs n :
  dirty w fs p f k rs n → jw_dir w' = jw_dir w → jw_synced w' = jw_synced w → dirty w' fs p f k rs n.
Proof.
  intros Hd H1 H2. eapply dirty_change; [exact Hd|by rewrite H1| |rewrite H1; apply Hd|apply Hd|apply Hd].
  intros. unfold synced. by rewrite H2.
Qed.

Lemma front_change w w' fs seq seq' p :
  front w fs seq → (∀ q, q ≠ p → synced w' q = synced w q) → p ∉ fs.*1 → seq <= seq' → front w' fs seq'.
Proof.
  intros [H1 H2 H3 H4] Hs Hp Hle. split; try done.
  - apply Forall_forall. intros [q g] Hin. rewrite Forall_forall in H3. specialize (H3 _ Hin).
    cbn [fst snd] in *. rewrite Hs; [done|]. intros ->. apply Hp. by apply (list_elem_of_fmap_2 fst fs (p, g)).
  - eapply Forall_impl; [exact H4|]. simpl. lia.
Qed.

Lemma synced_insert_ne w d p q n io :
  q ≠ p → synced (set_files (set_io w io) d (<[p := n]> (jw_synced w))) q = synced w q.
Proof. intros Hne. unfold synced. cbn. by rewrite lookup_insert_ne. Qed.

Lemma fileBytes_snoc f k rs r m :
  Forall record_ok rs → (m <= 68)%nat → record_ok r →
  fileBytes (Seg f k rs []) ++ take m (recordBytes r)
  = take (32 + 68 * length rs + m) (fileBytes (Seg f k (rs ++ [r]) [])).
Proof.
  intros Hrs Hm Hr. cbn [fileBytes]. rewrite !app_nil_r. unfold recordsBytes. rewrite fmap_app, concat_app.
  fold (recordsBytes rs). cbn [fmap list_fmap concat]. rewrite app_nil_r, app_assoc.
  rewrite take_app_ge; rewrite length_app, length_headerBytes, length_recordsBytes by done; [|lia].
  f_equal. f_equal. lia.
Qed.

Lemma take_full f k rs :
  Forall record_ok rs → take (32 + 68 * length rs) (fileBytes (Seg f k rs [])) = fileBytes (Seg f k rs []).
Proof.
  intros Hrs. apply take_ge. cbn [fileBytes]. rewrite app_nil_r, length_app, length_headerBytes.
  by rewrite length_recordsBytes.
Qed.

(** The bytes of one record go into the open segment. *)
Lemma dirty_write w fs p f k rs r m io :
  dirty w fs p f k rs (32 + 68 * length rs) → record_ok r → (m <= 68)%nat →
  dirty (set_files (set_io w io) (<[p := fileOf (jw_dir w) p ++ take m (recordBytes r)]> (jw_dir w))
           (jw_synced w)) fs p f k (rs ++ [r]) (32 + 68 * length rs + m).
Proof.
  intros Hd Hr Hm. pose proof (dt_seg _ _ _ _ _ _ _ Hd) as (Hf & Hk & Hrs & _).
  eapply dirty_change; [exact Hd| | | | |].
  - cbn. by rewrite delete_insert_eq.
  - done.
  - cbn. rewrite lookup_insert_eq. f_equal.
    rewrite (fileOf_Some _ _ _ (dt_hot _ _ _ _ _ _ _ Hd)), take_full by done. by apply fileBytes_snoc.
  - split; [done|]. split; [done|]. split; [|by split; [constructor|simpl; lia]].
    apply Forall_app_2; [done|by constructor].
  - rewrite length_app. simpl. lia.
Qed.

Lemma opened_fresh w fs seq h : opened w fs seq h → ht_path h ∉ fs.*1.
Proof. intros Ho. apply fresh_above, (dt_names _ _ _ _ _ _ _ (op_dir _ _ _ _ Ho)). Qed.

(** A sync that succeeds covers the whole segment. *)
Lemma sync_ok c w fs h seq :
  1 <= wc_groupSize c → front w fs (seq - Z.of_nat (length (ht_rs h))) →
  seq = Z.of_nat (length (records fs ++ ht_rs h)) → in_u64 (jw_counter w) → 0 <= jw_pending w →
  opened w fs seq h →
  ∃ (b : bool) w', sync w = (b, w') ∧
    dirty w' fs (ht_path h) (ht_first h) (ht_counter h) (ht_rs h) (32 + 68 * length (ht_rs h)) ∧
    (synced w (ht_path h) `min` (32 + 68 * length (ht_rs h)) <= synced w' (ht_path h))%nat ∧
    (b = true → clean c w' fs (Some h) seq ∧ jw_pending w' = 0).
Proof.
  intros Hg Hfr Hseq Hctr Hpend Ho. pose proof (op_dir _ _ _ _ Ho) as Hd.
  pose proof (dt_seg _ _ _ _ _ _ _ Hd) as (_ & _ & Hrs & _).
  assert (Hfile : length (fileOf (jw_dir w) (ht_path h)) = (32 + 68 * length (ht_rs h))%nat).
  { rewrite (fileOf_Some _ _ _ (dt_hot _ _ _ _ _ _ _ Hd)), take_full by done. cbn [fileBytes].
    by rewrite app_nil_r, length_app, length_headerBytes, length_recordsBytes. }
  unfold sync. rewrite (op_fd _ _ _ _ Ho). destruct (fsyncFile_ok w (ht_path h)) as (b & io & ->).
  destruct b.
  - eexists true, _. split; [done|].
    set (w' := set_pending _ 0).
    assert (Hne : ∀ q, q ≠ ht_path h → synced w' q = synced w q) by (intros; by apply synced_insert_ne).
    assert (Hsy : synced w' (ht_path h) = (32 + 68 * length (ht_rs h))%nat).
    { unfold synced, w'. cbn. by rewrite lookup_insert_eq. }
    assert (Hd' : dirty w' fs (ht_path h) (ht_first h) (ht_counter h) (ht_rs h) (32 + 68 * length (ht_rs h))).
    { eapply dirty_change; [exact Hd|done|exact Hne|apply Hd|apply Hd|apply Hd]. }
    destruct Ho as [O1 O2 O3 O4 O5 O6 O7]. split; [done|]. split; [lia|]. intros _. split; [|done].
    split; try done; [|by cbn; lia|].
    + eapply front_change; [done|exact Hne|by apply fresh_above, (dt_names _ _ _ _ _ _ _ Hd)|apply Z.le_refl].
    + split; try done; cbn [jw_pending w' set_pending]; [lia|]. rewrite Hsy. cbn. lia.
  - exists false, (set_io w io). split; [done|]. split; [by eapply dirty_ext|].
    change (synced (set_io w io) (ht_path h)) with (synced w (ht_path h)). split; [lia|done].
Qed.

Definition hot_snoc (h : Hot) (r : JournalRecord) : Hot :=
  mkHot (ht_path h) (ht_first h) (ht_counter h) (ht_rs h ++ [r]).

Lemma appendRecord_ok c w fs h seq r :
  writer_config_ok c → clean c w fs (Some h) seq → jw_bytes w + 68 <= wc_rollBytes c →
  record_ok r → jr_seq r = seq + 1 →
  ∃ (b : bool) w' n, appendRecord c w (jr_seq r) (jr_kind r) (jr_command r) = Some (b, w') ∧
    dirty w' fs (ht_path h) (ht_first h) (ht_counter h) (ht_rs h ++ [r]) n ∧
    (32 + 68 * length (ht_rs h) <= n)%nat ∧
    (∀ lost, covers w (Some h) lost → (32 + 68 * length (ht_rs h) <= synced w' (ht_path h) + 68 * lost)%nat) ∧
    (b = true → clean c w' fs (Some (hot_snoc h r)) (seq + 1)).
Proof.
  intros [Hroll Hg] [Hfr Hseq Hctr Hpd Hpol Ho] Hb Hr Hs. pose proof Ho as [O1 O2 O3 O4 O5 O6 O7].
  unfold appendRecord. rewrite O1. simpl_bind.
  rewrite encodeRecord_ok by (apply Hr || by rewrite length_replicate). simpl_bind.
  assert (Heta : mkJournalRecord (jr_seq r) (jr_kind r) (jr_command r) = r) by (by destruct r).
  rewrite Heta. fold (recordBytes r).
  destruct (writeFile_ok w (ht_path h) (recordBytes r)) as (m & io & Hm & ->).
  rewrite length_recordBytes in Hm by done.
  pose proof (dirty_write w fs _ _ _ _ r m io O2 Hr Hm) as Hd.
  destruct (negb (Z.of_nat m =? kRecordSize)) eqn:Em.
  { eexists false, _, _. split; [done|]. split; [exact Hd|]. split; [lia|]. split; [done|done]. }
  assert (m = 68%nat) as -> by (unfold kRecordSize, kRecordFixedSize, kCommandSize, kRecordCrcSize in Em; lia).
  set (w2 := set_pending _ _).
  assert (Hp2 : jw_pending w2 = jw_pending w + 1).
  { unfold w2. cbn. apply u64_id. unfold in_u64. lia. }
  assert (Ho2 : opened w2 fs (seq + 1) (hot_snoc h r)).
  { split; cbn [ht_path ht_first ht_counter ht_rs hot_snoc].
    - done.
    - replace (32 + 68 * length (ht_rs h ++ [r]))%nat with (32 + 68 * length (ht_rs h) + 68)%nat
        by (rewrite length_app; simpl; lia). by eapply dirty_ext.
    - unfold w2. cbn. u64_small. rewrite length_app. simpl. lia.
    - rewrite Hp2, length_app. simpl. lia.
    - rewrite Hp2. unfold w2, synced. cbn. u64_small.
      unfold synced in O5. lia.
    - rewrite length_app. simpl. lia.
    - unfold w2. cbn. u64_small. lia. }
  assert (Hfr2 : front w2 fs (seq + 1 - Z.of_nat (length (ht_rs (hot_snoc h r))))).
  { eapply front_change; [exact Hfr|done|by apply (opened_fresh w fs seq)|].
    cbn. rewrite length_app. cbn. lia. }
  destruct (bool_decide (wc_policy c = PerRecord) || (wc_groupSize c <=? jw_pending w2)) eqn:Esync.
  - destruct (sync_ok c w2 fs (hot_snoc h r) (seq + 1)) as (b & w' & -> & Hd' & Hsy & Hcl);
      [lia|done| |done|rewrite Hp2; lia|done|].
    { cbn [hotRecords from_option hot_snoc ht_rs] in *. rewrite app_assoc, length_app. cbn [length]. lia. }
    exists b, w', (32 + 68 * length (ht_rs h ++ [r]))%nat. split; [done|]. split; [exact Hd'|].
    split; [rewrite length_app; lia|]. split; [|intros Hbt; by apply Hcl].
    intros lost Hlost. unfold covers in Hlost. cbn [hot_snoc ht_rs ht_path] in Hsy. rewrite length_app in Hsy.
    change (synced w2 (ht_path h)) with (synced w (ht_path h)) in Hsy. lia.
  - apply orb_false_iff in Esync as [E1 E2]. apply bool_decide_eq_false in E1.
    eexists true, w2, _. split; [done|]. split; [by eapply dirty_ext|]. split; [lia|]. split; [done|]. intros _.
    split; try done; [|lia].
    cbn [hotRecords from_option hot_snoc ht_rs] in *. rewrite app_assoc, length_app. cbn [length]. lia.
Qed.

(** Nothing but complete segments, and perhaps a file without records under the
    next name. *)
Definition quiet (w : JournalWriter) (fs : list (Z * FileSpec)) (seq : Z) : Prop :=
  front w fs seq ∧ (jw_dir w = dirOf fs ∨ ∃ f k n, dirty w fs (seq + 1) f k [] n).

Lemma front_above w fs seq p : front w fs seq → seq < p → Forall (λ q, q < p) fs.*1.
Proof. intros [_ _ _ H] Hp. eapply Forall_impl; [exact H|]. simpl. lia. Qed.

Lemma dirOf_fresh fs p : p ∉ fs.*1 → dirOf fs !! p = None.
Proof.
  intros Hp. apply not_elem_of_list_to_map_1. rewrite <- list_fmap_compose.
  intros Hin. apply Hp. erewrite list_fmap_ext; [exact Hin|]. done.
Qed.

Lemma quiet_delete w fs seq : quiet w fs seq → delete (seq + 1) (jw_dir w) = dirOf fs.
Proof.
  intros [Hfr [->|(f & k & n & Hd)]]; [|apply (dt_dir _ _ _ _ _ _ _ Hd)].
  apply delete_id, dirOf_fresh, fresh_above. eapply front_above; [done|lia].
Qed.

Lemma front_ext w w' fs seq : front w fs seq → jw_synced w' = jw_synced w → front w' fs seq.
Proof. intros [H1 H2 H3 H4] Hs. split; try done. unfold synced in *. by rewrite Hs. Qed.

Lemma quiet_ext w w' fs seq :
  quiet w fs seq → jw_dir w' = jw_dir w → jw_synced w' = jw_synced w → quiet w' fs seq.
Proof.
  intros [Hf Hd] H1 H2. split; [by eapply front_ext|]. rewrite H1. destruct Hd as [?|(f & k & n & Hd)]; [by left|].
  right. exists f, k, n. by eapply dirty_ext.
Qed.

(** The next segment's file has been created and [m] bytes of its header written. *)
Lemma header_written w w2 fs seq k m :
  quiet w fs seq → 0 <= seq < INT64_MAX → in_u64 k → (m <= 32)%nat →
  jw_dir w2 = <[seq + 1 := take m (headerBytes (seq + 1) k)]> (jw_dir w) →
  jw_synced w2 = <[seq + 1 := 0%nat]> (jw_synced w) →
  front w2 fs seq ∧ dirty w2 fs (seq + 1) (seq + 1) k [] m.
Proof.
  intros Hq Hseq Hk Hm Hd Hs. pose proof (quiet_delete _ _ _ Hq) as Hdel. pose proof (proj1 Hq) as Hfr.
  assert (Hab : Forall (λ q, q < seq + 1) fs.*1) by (eapply front_above; [done|lia]).
  assert (Hfr2 : front w2 fs seq).
  { eapply front_change; [exact Hfr| |by apply fresh_above|lia].
    intros q Hqn. unfold synced. rewrite Hs. by rewrite lookup_insert_ne. }
  split; [done|]. split; try done; try apply Hfr2.
  - by rewrite Hd, delete_insert_eq.
  - split; [unfold in_u64, INT64_MAX in *; lia|]. split; [done|]. split; [done|]. split; [done|simpl; lia].
  - rewrite Hd, lookup_insert_eq. cbn [fileBytes]. by rewrite !app_nil_r.
Qed.

Ltac wcbn :=
  cbn [set_fd set_files set_io set_path set_bytes set_pending set_counter set_lastSeq
       jw_dir jw_synced jw_fd jw_path jw_bytes jw_pending jw_counter jw_lastSeq].

Lemma openSegment_ok c w fs seq :
  writer_config_ok c → quiet w fs seq → in_u64 (jw_counter w) → jw_pending w = 0 →
  seq = Z.of_nat (length (records fs)) → seq < INT64_MAX →
  ∃ (b : bool) w', openSegment w (seq + 1) = Some (b, w') ∧ quiet w' fs seq ∧
    (b = true → clean c w' fs (Some (mkHot (seq + 1) (seq + 1) (jw_counter w) [])) seq ∧ jw_bytes w' = 32).
Proof.
  intros [Hroll Hg] Hq Hctr Hpd Hcnt Hlt. assert (Hseq : 0 <= seq < INT64_MAX) by lia.
  assert (Hu : u64 (seq + 1) = seq + 1) by (apply u64_id; unfold in_u64, INT64_MAX in *; lia).
  unfold openSegment. rewrite Hu. destruct (sys_ok (set_path w (seq + 1))) as (r & io & ->).
  assert (Hfail : ∀ w', jw_dir w' = jw_dir w → jw_synced w' = jw_synced w → quiet w' fs seq)
    by (intros; by eapply quiet_ext).
  destruct r as [| |n]; [|eexists false, _; split; [done|]; split; [by apply Hfail|done]..].
  wcbn. rewrite encodeSegmentHeader_ok by done. fold (headerBytes (seq + 1) (jw_counter w)).
  simpl_bind.
  match goal with |- context [writeFile ?x _ _] => set (w1 := x) end.
  destruct (writeFile_ok w1 (seq + 1) (headerBytes (seq + 1) (jw_counter w))) as (m & io2 & Hm & ->).
  rewrite length_headerBytes in Hm. set (w2 := set_files _ _ _).
  assert (Hd2 : jw_dir w2 = <[seq + 1 := take m (headerBytes (seq + 1) (jw_counter w))]> (jw_dir w)).
  { unfold w2, w1, fileOf. wcbn. by rewrite lookup_insert_eq, insert_insert_eq. }
  destruct (header_written w w2 fs seq (jw_counter w) m Hq Hseq Hctr Hm Hd2 eq_refl) as [Hfr Hdt].
  destruct (negb (Z.of_nat m =? kSegmentHeaderSize)) eqn:Em.
  { eexists false, _. split; [done|]. split; [|done]. apply (quiet_ext w2); [|done|done].
    split; [exact Hfr|right; eauto]. }
  assert (m = 32%nat) as -> by (unfold kSegmentHeaderSize in Em; lia).
  destruct (fsyncFile_ok (set_bytes w2 kSegmentHeaderSize) (seq + 1)) as (b & io3 & ->).
  destruct b.
  2: { eexists false, _. split; [done|]. split; [|done]. apply (quiet_ext w2); [|done|done].
       split; [exact Hfr|right; eauto]. }
  eexists true, _. split; [done|]. set (w3 := set_files _ _ _).
  assert (Hne : ∀ q, q ≠ seq + 1 → synced w3 q = synced w2 q).
  { intros q Hqn. unfold synced, w3. wcbn. by rewrite lookup_insert_ne. }
  assert (Hfr3 : front w3 fs seq).
  { eapply front_change; [exact Hfr|exact Hne|apply fresh_above, Hdt|lia]. }
  assert (Hdt3 : dirty w3 fs (seq + 1) (seq + 1) (jw_counter w) [] 32).
  { eapply dirty_change; [exact Hdt|done|exact Hne|apply Hdt|apply Hdt|apply Hdt]. }
  assert (Hsy3 : synced w3 (seq + 1) = 32%nat).
  { unfold synced, w3. wcbn. rewrite lookup_insert_eq. cbn [default].
    rewrite (fileOf_Some _ _ _ (dt_hot _ _ _ _ _ _ _ Hdt)). rewrite length_take. cbn [fileBytes].
    rewrite length_app, length_headerBytes. done. }
  split; [split; [done|right; eauto]|]. intros _. split; [|done].
  split; try done; [by rewrite Z.sub_0_r|by rewrite app_nil_r|apply u64_range|unfold w3, w2, w1; wcbn; lia|].
  split; try done; cbn [ht_path ht_rs length]; unfold w3, w2, w1; wcbn; try lia.
  fold w1 w2 w3. change (synced _ (seq + 1)) with (synced w3 (seq + 1)). by rewrite Hsy3, Hpd.
Qed.

(** ** After a crash *)

(** A directory as a crash leaves it: complete segments, then at most one file, under
    the number of its first record, that may be cut anywhere. *)
Record image (d : Dir) (fs : list (Z * FileSpec)) (lst : option FileSpec) : Prop := {
  im_files : files_ok (fs ++ from_option (λ f, [(Z.of_nat (length (records fs)) + 1, f)]) [] lst);
  im_full : full fs;
  im_names : Forall (λ q, 0 <= q <= Z.of_nat (length (records fs))) fs.*1;
  im_dir : d = dirOf (fs ++ from_option (λ f, [(Z.of_nat (length (records fs)) + 1, f)]) [] lst);
  im_stub : ∀ bs, lst = Some (Stub bs) →
    ∃ f k n, in_u64 f ∧ in_u64 k ∧ (n <= 32)%nat ∧ bs = take n (headerBytes f k)
}.

Definition imageRecords (fs : list (Z * FileSpec)) (lst : option FileSpec) : list JournalRecord :=
  records fs ++ from_option (λ f, (contents [f]).1) [] lst.

(** Of the records [all], in order, at least the first [n] are still there. *)
Definition survives (d : Dir) (all : list JournalRecord) (n : nat) : Prop :=
  ∃ fs lst j, image d fs lst ∧ imageRecords fs lst = take j all ∧ (n <= j <= length all)%nat.

Lemma survives_less d all n n' : survives d all n → (n' <= n)%nat → survives d all n'.
Proof. intros (fs & l & j & H1 & H2 & H3) Hn. exists fs, l, j. split; [done|]. split; [done|lia]. Qed.

Lemma survives_more d all more n : survives d all n → survives d (all ++ more) n.
Proof.
  intros (fs & l & j & H1 & H2 & H3). exists fs, l, j. split; [done|].
  rewrite length_app. split; [|lia]. rewrite H2, take_app_le by lia. done.
Qed.

Lemma crash_hot w fs f k rs n d' :
  front w fs (Z.of_nat (length (records fs))) →
  dirty w fs (Z.of_nat (length (records fs)) + 1) f k rs n → crashed w d' →
  ∃ m, survives d' (records fs ++ rs) (length (records fs) + m) ∧
    ∀ i, (32 + 68 * i <= synced w (Z.of_nat (length (records fs)) + 1))%nat → (32 + 68 * i <= n)%nat → (i <= m)%nat.
Proof.
  intros Hfr Hd Hcr. destruct (crash_dirty _ _ _ _ _ _ _ _ Hd Hcr) as (fs' & j & Hok & Hd' & Hj & Hsh & Hi).
  exists j. split; [|exact Hi]. destruct Hsh as [[-> ->]|(f' & -> & Hcut)].
  - exists fs, None, (length (records fs)). split; [split|].
    + by rewrite app_nil_r.
    + apply Hfr.
    + apply Hfr.
    + by rewrite app_nil_r.
    + done.
    + unfold imageRecords. simpl. rewrite app_nil_r, take_app_length, length_app. split; [done|lia].
  - exists fs, (Some f'), (length (records fs) + j)%nat.
    split; [split; [done|apply Hfr|apply Hfr|done|]|].
    { intros bs [= ->]. destruct (dt_seg _ _ _ _ _ _ _ Hd) as (Hf & Hk & _).
      destruct Hcut as [(_ & n' & [= ->] & Hn)|[tl [=]]]. by exists f, k, n'. }
    unfold imageRecords. cbn [from_option]. rewrite (cut_contents _ _ _ _ _ Hcut). cbn [fst].
    rewrite take_app_add, length_app. split; [done|lia].
Qed.

Lemma crash_quiet w fs d' :
  quiet w fs (Z.of_nat (length (records fs))) → crashed w d' → survives d' (records fs) (length (records fs)).
Proof.
  intros [Hfr [Hd|(f & k & n & Hd)]] Hcr.
  - exists fs, None, (length (records fs)). split; [split|].
    + rewrite app_nil_r. apply Hfr.
    + apply Hfr.
    + apply Hfr.
    + rewrite app_nil_r. set (p := Z.of_nat (length (records fs)) + 1).
      assert (Hp : p ∉ fs.*1) by (apply fresh_above; eapply front_above; [done|lia]).
      pose proof (crashed_front w fs p d' (fr_files _ _ _ Hfr) (fr_full _ _ _ Hfr) (fr_synced _ _ _ Hfr)) as H.
      rewrite Hd in H. rewrite delete_id in H by (by apply dirOf_fresh). specialize (H eq_refl Hcr).
      specialize (Hcr p). rewrite Hd, dirOf_fresh in Hcr by done. rewrite <- H.
      destruct (d' !! p) eqn:E; [done|]. by rewrite delete_id.
    + done.
    + unfold imageRecords. simpl. rewrite app_nil_r, take_ge by lia. done.
  - destruct (crash_hot w fs f k [] n d' Hfr Hd Hcr) as (m & Hs & _). rewrite app_nil_r in Hs.
    eapply survives_less; [exact Hs|lia].
Qed.

Lemma crash_clean c w fs hot seq lost d' :
  clean c w fs hot seq → covers w hot lost → crashed w d' →
  survives d' (records fs ++ hotRecords hot) (length (records fs ++ hotRecords hot) - lost).
Proof.
  intros [Hfr Hcnt _ Hpd _ Hh] Hco Hcr. unfold covers in Hco. destruct hot as [h|]; cbn [hotRecords from_option] in *.
  - destruct Hh as [O1 O2 O3 O4 O5 O6 O7]. rewrite length_app in *.
    replace (seq - Z.of_nat (length (ht_rs h))) with (Z.of_nat (length (records fs))) in * by lia.
    rewrite O6 in *. destruct (crash_hot _ _ _ _ _ _ _ Hfr O2 Hcr) as (m & Hs & Hm).
    eapply survives_less; [exact Hs|]. specialize (Hm (length (ht_rs h) - lost)%nat). lia.
  - rewrite app_nil_r in *. simpl in Hfr. rewrite Z.sub_0_r in Hfr. destruct Hh as (_ & Hp0 & Hh).
    eapply survives_less; [apply (crash_quiet w); [|done]|lia]. rewrite <- Hcnt. by split.
Qed.

(** ** Appending *)

Definition ht_file (h : Hot) : FileSpec := Seg (ht_first h) (ht_counter h) (ht_rs h) [].

Lemma records_snoc fs h :
  full fs → records (fs ++ [(ht_path h, ht_file h)]) = records fs ++ ht_rs h.
Proof.
  intros Hf. unfold records at 1. rewrite contents_app by done. unfold records. cbn [fst].
  cbn. by rewrite app_nil_r.
Qed.

(** A synced segment is closed. *)
Lemma close_hot c w w' fs h seq :
  clean c w fs (Some h) seq → jw_pending w = 0 → ht_rs h ≠ [] →
  jw_dir w' = jw_dir w → jw_synced w' = jw_synced w →
  quiet w' (fs ++ [(ht_path h, ht_file h)]) seq.
Proof.
  intros [Hfr Hcnt _ _ _ [O1 O2 O3 O4 O5 O6 O7]] Hp0 Hne Hd Hs.
  cbn [hotRecords from_option] in *. rewrite length_app in Hcnt.
  pose proof (dt_seg _ _ _ _ _ _ _ O2) as Hseg. pose proof Hseg as (_ & _ & Hrs & _).
  assert (length (ht_rs h) ≠ 0%nat) by (by destruct (ht_rs h)).
  assert (Hlen : length (fileBytes (ht_file h)) = (32 + 68 * length (ht_rs h))%nat).
  { cbn [ht_file fileBytes]. by rewrite app_nil_r, length_app, length_headerBytes, length_recordsBytes. }
  split; [split|left].
  - apply files_ok_snoc; [apply Hfr|apply O2|done].
  - apply Forall_app_2; [apply Hfr|]. constructor; [|done]. by eexists _, _, _.
  - apply Forall_app_2.
    + unfold synced. rewrite Hs. apply Hfr.
    + constructor; [|done]. cbn [fst snd]. unfold synced in O5 |- *. rewrite Hs, Hlen. lia.
  - rewrite fmap_app. apply Forall_app_2.
    + eapply Forall_impl; [apply Hfr|]. simpl. lia.
    + constructor; [|done]. cbn [fst]. lia.
  - rewrite dirOf_snoc by (by apply (opened_fresh w fs seq)). rewrite Hd, <- (dt_dir _ _ _ _ _ _ _ O2).
    rewrite insert_delete_eq. symmetry. apply insert_id. rewrite (dt_hot _ _ _ _ _ _ _ O2).
    by rewrite take_full.
Qed.

(** What one append leaves behind, whatever its system calls return, if [lost] records
    were not synced before. *)
Definition outcome (c : WriterConfig) (lost : nat) (w' : JournalWriter) (b : bool) (all : list JournalRecord)
    (r : JournalRecord) (seq : Z) : Prop :=
  (∀ d', crashed w' d' → survives d' (all ++ [r]) (length all - lost)) ∧
  (b = true → ∃ fs' h', clean c w' fs' (Some h') (seq + 1) ∧
     records fs' ++ ht_rs h' = all ++ [r]).

Lemma appendRecord_outcome c lost w fs h seq r :
  writer_config_ok c → clean c w fs (Some h) seq → jw_bytes w + 68 <= wc_rollBytes c →
  record_ok r → jr_seq r = seq + 1 → covers w (Some h) lost →
  ∃ (b : bool) w', appendRecord c w (jr_seq r) (jr_kind r) (jr_command r) = Some (b, w') ∧
    outcome c lost w' b (records fs ++ ht_rs h) r seq.
Proof.
  intros Hcfg Hcl Hb Hr Hs Hco.
  destruct (appendRecord_ok c w fs h seq r Hcfg Hcl Hb Hr Hs) as (b & w' & n & -> & Hd & Hn & Hsy & Hcl').
  specialize (Hsy lost Hco).
  exists b, w'. split; [done|]. destruct Hcl as [Hfr Hcnt _ Hpd _ [O1 O2 O3 O4 O5 O6 O7]].
  cbn [hotRecords from_option] in *. split.
  - intros d' Hcr. rewrite length_app in *.
    replace (seq - Z.of_nat (length (ht_rs h))) with (Z.of_nat (length (records fs))) in * by lia.
    rewrite O6 in *. rewrite <- app_assoc.
    assert (Hfr' : front w' fs (Z.of_nat (length (records fs)))).
    { destruct Hfr as [F1 F2 F3 F4]. split; try done. apply Hd. }
    destruct (crash_hot _ _ _ _ _ _ _ Hfr' Hd Hcr) as (m & Hsv & Hm).
    eapply survives_less; [exact Hsv|]. specialize (Hm (length (ht_rs h) - lost)%nat). lia.
  - intros Hbt. exists fs, (hot_snoc h r). split; [by apply Hcl'|]. cbn. by rewrite app_assoc.
Qed.

(** From a state with every record synced and no segment open. *)
Lemma open_outcome c lost w fs seq r :
  writer_config_ok c → quiet w fs seq → in_u64 (jw_counter w) → jw_pending w = 0 →
  seq = Z.of_nat (length (records fs)) → seq < INT64_MAX → record_ok r → jr_seq r = seq + 1 →
  ∃ (b : bool) w', ('(ready, w) ← openSegment w (jr_seq r);
      if negb ready then Some (false, w) else appendRecord c w (jr_seq r) (jr_kind r) (jr_command r))
    = Some (b, w') ∧ outcome c lost w' b (records fs) r seq.
Proof.
  intros Hcfg Hq Hctr Hp Hcnt Hlt Hr Hs.
  destruct (openSegment_ok c w fs seq Hcfg Hq Hctr Hp Hcnt Hlt) as (b & w1 & Ho & Hq1 & Hcl).
  rewrite Hs, Ho. simpl_bind. destruct b; cbn [negb].
  - destruct (Hcl eq_refl) as [Hcl1 Hb1].
    destruct (appendRecord_outcome c lost w1 fs _ seq r Hcfg Hcl1) as (b & w' & He & Hout); [|done|done| |].
    + destruct Hcfg. lia.
    + pose proof (clean_covers _ _ _ _ _ Hcl1) as Hco. destruct Hcl1 as [_ _ _ _ _ [_ _ _ Hpd _ _ _]].
      cbn in Hpd, Hco |- *. lia.
    + cbn [ht_rs] in Hout. rewrite app_nil_r in Hout. rewrite Hs in He. eauto.
  - exists false, w1. split; [done|]. split; [|done]. intros d' Hcr. apply survives_more.
    eapply survives_less; [apply (crash_quiet w1); [|done]|lia]. by rewrite <- Hcnt.
Qed.

Lemma append_outcome c w fs hot seq r lost :
  writer_config_ok c → clean c w fs hot seq → covers w hot lost → seq < INT64_MAX → record_ok r → jr_seq r = seq + 1 →
  ∃ (b : bool) w', append c w (jr_seq r) (jr_kind r) (jr_command r) = Some (b, w') ∧
    outcome c lost w' b (records fs ++ hotRecords hot) r seq.
Proof.
  intros Hcfg Hcl Hco Hlt Hr Hs. pose proof Hcl as [Hfr Hcnt Hctr Hpd Hpol Hh]. unfold append.
  destruct hot as [h|]; cbn [hotRecords from_option] in *.
  - pose proof Hh as [O1 O2 O3 O4 O5 O6 O7]. rewrite O1.
    assert (Hu : u64 (jw_bytes w + kRecordSize) = jw_bytes w + 68).
    { apply u64_id. unfold in_u64, kRecordSize, kRecordFixedSize, kCommandSize, kRecordCrcSize. lia. }
    rewrite Hu. destruct (wc_rollBytes c <? jw_bytes w + 68) eqn:Eroll.
    2: { cbn [mbind option_bind negb]. apply (appendRecord_outcome c lost w fs h seq r); try done; lia. }
    unfold rollSegment.
    destruct (sync_ok c w fs h seq) as (b & w1 & -> & Hd1 & Hsy1 & Hcl1); [destruct Hcfg; lia|done|done|done|lia|done|].
    destruct b; cbn [negb].
    + destruct (Hcl1 eq_refl) as [Hcl2 Hp2].
      assert (Hne : ht_rs h ≠ []) by (intros He; rewrite He in O3; simpl in O3; destruct Hcfg; lia).
      rewrite <- (records_snoc fs h (fr_full _ _ _ Hfr)) in Hcnt |- *.
      apply (open_outcome c lost (set_fd w1 None)); try done; [|apply (cl_counter _ _ _ _ _ Hcl2)].
      by apply (close_hot c w1).
    + cbn [mbind option_bind negb covers] in *. exists false, w1. split; [done|]. split; [|done]. intros d' Hcr.
      apply survives_more. rewrite length_app in *.
      replace (seq - Z.of_nat (length (ht_rs h))) with (Z.of_nat (length (records fs))) in * by lia.
      rewrite O6 in *.
      assert (Hfr' : front w1 fs (Z.of_nat (length (records fs)))).
      { destruct Hfr as [F1 F2 F3 F4]. split; try done. apply Hd1. }
      destruct (crash_hot _ _ _ _ _ _ _ Hfr' Hd1 Hcr) as (m & Hsv & Hm).
      eapply survives_less; [exact Hsv|]. specialize (Hm (length (ht_rs h) - lost)%nat). lia.
  - destruct Hh as (Hfd & Hp0 & Hd). rewrite Hfd. simpl in Hfr. rewrite Z.sub_0_r in Hfr.
    rewrite app_nil_r in *. by apply (open_outcome c lost w).
Qed.

Lemma consecutive_app s rs rs' :
  consecutive s (rs ++ rs') ↔ consecutive s rs ∧ consecutive (lastSeqOf s rs) rs'.
Proof.
  revert s. induction rs as [|r rs IH]; intros s; [cbn; tauto|].
  cbn [app consecutive]. rewrite IH, lastSeqOf_cons. tauto.
Qed.

Lemma consecutive_last rs :
  consecutive 0 rs → Z.of_nat (length rs) <= INT64_MAX → lastSeqOf 0 rs = Z.of_nat (length rs).
Proof.
  induction rs as [|r rs IH] using rev_ind; intros Hc Hl; [done|].
  apply consecutive_app in Hc as [Hc [Hr _]]. rewrite length_app in *. cbn [length] in *.
  unfold lastSeqOf. rewrite last_snoc. cbn [from_option]. rewrite Hr, IH by (done || lia).
  s64_small. lia.
Qed.
