(* ===== verification/JournalDurable.v ===== *)
(** What a restart finds in the journal: reading back a directory a crash has left,
    and going on writing where it ends. *)
From stdpp Require Import gmap sorting.
From S2P Require Import Prelude Types OrderBook Wire Messages Crc32 Events JournalFormat.
From S2P Require Import JournalWriter JournalReader JournalSpec JournalCrash.

(** ** Reading an image *)

Definition lastFile (fs : list (Z * FileSpec)) (lst : option FileSpec) : list (Z * FileSpec) :=
  from_option (λ f, [(Z.of_nat (length (records fs)) + 1, f)]) [] lst.

Definition imageTorn (lst : option FileSpec) : bool := from_option isTorn false lst.

Lemma image_contents d fs lst :
  image d fs lst → contents (fs ++ lastFile fs lst).*2 = (imageRecords fs lst, imageTorn lst).
Proof.
  intros Him. rewrite contents_app by apply Him. unfold imageRecords, lastFile, imageTorn.
  destruct lst as [[bs|f k rs tl]|]; cbn [from_option isTorn]; [done| |done].
  unfold records at 2. cbn [fmap list_fmap snd]. f_equal. by destruct tl.
Qed.

Lemma consecutive_take s rs j : consecutive s rs → consecutive s (take j rs).
Proof. rewrite <- (take_drop j rs) at 1. rewrite consecutive_app. tauto. Qed.

(** How a reading of the whole journal ends. *)
Definition readEnd (torn : bool) : ReadStatus := if torn then TruncatedTail else EndOfJournal.

Lemma image_reads d fs lst fuel :
  image d fs lst → consecutive 0 (imageRecords fs lst) → (length (imageRecords fs lst) < fuel)%nat →
  ∃ xs x R, readAll fuel d (readerNew d) = Some (xs, x, R) ∧ recordOf <$> xs = imageRecords fs lst ∧
    rr_status x = readEnd (imageTorn lst) ∧ jd_lastGood R = lastSeqOf 0 (imageRecords fs lst) ∧
    answers (fs ++ lastFile fs lst) d (jd_lastGood R) ([], imageTorn lst) x R.
Proof.
  intros Him Hc Hf. pose proof (image_contents _ _ _ Him) as Hcon.
  pose proof (im_dir _ _ _ Him) as Hd. pose proof (im_files _ _ _ Him) as Hok.
  fold (lastFile fs lst) in Hd, Hok.
  destruct (readAll_ok _ _ _ fuel Hok Hcon Hc Hf) as (xs & x & R & Hr & Hxs & _ & Ha).
  rewrite <- Hd in *. exists xs, x, R. split; [done|]. split; [done|].
  destruct (imageTorn lst); destruct Ha as (Hst & Hlg & Ha); split; try done; split; try done;
    rewrite Hlg; split; done.
Qed.

(** ** Faults

    A process that is killed leaves everything it has written, synced or not.  When the
    machine fails, what is there afterwards has been read back from the disk. *)

Inductive Fault := ProcessKill | MachineFailure.

(** The bytes of a segment's header and complete records. *)
Definition wholeBytes (n : nat) : nat := if (n <? 32)%nat then 0%nat else (32 + 68 * ((n - 32) / 68))%nat.

(** Every complete record of the directory is synced. *)
Definition settled (d : Dir) (sy : gmap Z nat) : Prop :=
  ∀ p bs, d !! p = Some bs → (wholeBytes (length bs) <= default 0%nat (sy !! p))%nat.

(** How the process that writes a journal comes to its end, where [worst] is what may
    happen in the life of the directory: the files that are left, and how much of each is
    synced.  Where the machine may fail, a kill must not fall between the write of a
    record and its [fsync]; [clean_restart_leaves_records_unsynced] shows why. *)
Inductive stopped : Fault → JournalWriter → Dir → gmap Z nat → Prop :=
  | killed w : stopped ProcessKill w (jw_dir w) (jw_synced w)
  | killed_settled w : settled (jw_dir w) (jw_synced w) → stopped MachineFailure w (jw_dir w) (jw_synced w)
  | machine_failed w d : crashed w d → stopped MachineFailure w d (length <$> d).

Definition setSync (w : JournalWriter) (sy : gmap Z nat) : JournalWriter := set_files w (jw_dir w) sy.

(** A writer as the faults see it: for kills it makes no difference what is synced. *)
Definition view (worst : Fault) (w : JournalWriter) : JournalWriter :=
  match worst with ProcessKill => setSync w (length <$> jw_dir w) | MachineFailure => w end.

Lemma crashed_self w : crashed w (jw_dir w).
Proof.
  intros p. destruct (jw_dir w !! p) as [bs|]; [|done]. exists (synced w p `max` length bs)%nat.
  split; [lia|]. by rewrite take_ge by lia.
Qed.

Lemma stopped_crashed worst w d sy : stopped worst w d sy → crashed (view worst w) d.
Proof. intros [w'|w' _|w' d' H]; [apply (crashed_self (setSync w' _))|apply crashed_self|exact H]. Qed.

Lemma wholeBytes_le n : (wholeBytes n <= n)%nat.
Proof. unfold wholeBytes. destruct (n <? 32)%nat eqn:E; [lia|]. apply Nat.ltb_ge in E. pose proof (Nat.Div0.mul_div_le (n - 32) 68). lia. Qed.

Lemma settled_length d : settled d (length <$> d).
Proof. intros p bs Hp. rewrite lookup_fmap, Hp. apply wholeBytes_le. Qed.

Lemma stopped_settled worst w d sy io :
  stopped worst w d sy → settled d (jw_synced (view worst (writerNew d sy io))).
Proof. intros []; [apply settled_length|done|apply settled_length]. Qed.

(** *** What is synced does not show in the files *)

Lemma sys_setSync w sy : sys (setSync w sy) = ((sys w).1, setSync (sys w).2 sy).
Proof. destruct w as [d s0 fd p b pe ct l [|r io]]; reflexivity. Qed.

Lemma writeFile_setSync w sy fd bs :
  writeFile (setSync w sy) fd bs = ((writeFile w fd bs).1, setSync (writeFile w fd bs).2 sy).
Proof. unfold writeFile. rewrite sys_setSync. by destruct (sys w) as [[] w1]. Qed.

Lemma fsyncFile_setSync w sy fd :
  ∃ sy', fsyncFile (setSync w sy) fd = ((fsyncFile w fd).1, setSync (fsyncFile w fd).2 sy').
Proof. unfold fsyncFile. rewrite sys_setSync. destruct (sys w) as [[] w1]; by eexists. Qed.

Lemma sync_setSync w sy : ∃ sy', sync (setSync w sy) = ((sync w).1, setSync (sync w).2 sy').
Proof.
  unfold sync. change (jw_fd (setSync w sy)) with (jw_fd w). destruct (jw_fd w) as [fd|]; [|by exists sy].
  destruct (fsyncFile_setSync w sy fd) as (sy' & ->). exists sy'. by destruct (fsyncFile w fd) as [[] w1].
Qed.

(** Two results that differ in what is synced only. *)
Definition alike (x y : option (bool * JournalWriter)) : Prop :=
  match x, y with
  | Some (b, w), Some (b', w') => b' = b ∧ ∃ sy, w' = setSync w sy
  | None, None => True
  | _, _ => False
  end.

Lemma openSegment_alike w sy n : alike (openSegment w n) (openSegment (setSync w sy) n).
Proof.
  unfold openSegment. change (set_path (setSync w sy) (u64 n)) with (setSync (set_path w (u64 n)) sy). rewrite sys_setSync.
  destruct (sys _) as [[] w1]; cbn [fst snd]; try (split; [done|by exists sy]).
  change (set_fd (set_files (setSync w1 sy) (<[u64 n := []]> (jw_dir (setSync w1 sy))) (<[u64 n := 0%nat]> (jw_synced (setSync w1 sy)))) (Some (u64 n)))
    with (setSync (set_fd (set_files w1 (<[u64 n := []]> (jw_dir w1)) (<[u64 n := 0%nat]> (jw_synced w1))) (Some (u64 n))) (<[u64 n := 0%nat]> sy)).
  set (w2 := set_fd _ _). generalize (<[u64 n := 0%nat]> sy). intros s2.
  change (jw_counter (setSync w2 s2)) with (jw_counter w2). destruct (encodeSegmentHeader _ _) as [hbuf|]; [|done]. cbn [mbind option_bind].
  change (set_counter (setSync w2 s2) (u64 (jw_counter w2 + 1))) with (setSync (set_counter w2 (u64 (jw_counter w2 + 1))) s2).
  rewrite writeFile_setSync. destruct (writeFile _ _ _) as [m w3]. cbn [fst snd]. destruct (negb _); [split; [done|by exists s2]|].
  change (set_bytes (setSync w3 s2) kSegmentHeaderSize) with (setSync (set_bytes w3 kSegmentHeaderSize) s2).
  destruct (fsyncFile_setSync (set_bytes w3 kSegmentHeaderSize) s2 (u64 n)) as (s3 & ->).
  destruct (fsyncFile _ _) as [b w4]. split; [done|by exists s3].
Qed.

Lemma appendRecord_alike c w sy n kind cmd :
  alike (appendRecord c w n kind cmd) (appendRecord c (setSync w sy) n kind cmd).
Proof.
  unfold appendRecord. change (jw_fd (setSync w sy)) with (jw_fd w). destruct (jw_fd w) as [fd|]; [|done]. cbn [mbind option_bind].
  destruct (encodeRecord _ _) as [buf|]; [|done]. cbn [mbind option_bind]. rewrite writeFile_setSync.
  destruct (writeFile w fd buf) as [m w1]. cbn [fst snd]. destruct (negb _); [split; [done|by exists sy]|].
  set (w2 := set_pending (set_lastSeq (set_bytes w1 _) _) _).
  match goal with |- alike _ (if _ then Some (sync ?x) else _) => change x with (setSync w2 sy) end.
  change (jw_pending (setSync w2 sy)) with (jw_pending w2). destruct (_ || _); [|split; [done|by exists sy]].
  destruct (sync_setSync w2 sy) as (s2 & ->). destruct (sync w2) as [b w3]. split; [done|by exists s2].
Qed.

Lemma append_alike c w sy n kind cmd : alike (append c w n kind cmd) (append c (setSync w sy) n kind cmd).
Proof.
  assert (Hrest : ∀ x y, alike x y → alike
    ('(ready, w) ← x; if negb ready then Some (false, w) else appendRecord c w n kind cmd)
    ('(ready, w) ← y; if negb ready then Some (false, w) else appendRecord c w n kind cmd)).
  { intros [[b w1]|] [[b' w1']|]; try done. intros [-> [s ->]]. cbn [mbind option_bind].
    destruct b; cbn [negb]; [apply appendRecord_alike|split; [done|by exists s]]. }
  unfold append. apply Hrest. change (jw_fd (setSync w sy)) with (jw_fd w). change (jw_bytes (setSync w sy)) with (jw_bytes w).
  destruct (jw_fd w) as [fd|]; [|apply openSegment_alike]. destruct (_ <? _); [|split; [done|by exists sy]].
  unfold rollSegment. destruct (sync_setSync w sy) as (s2 & ->). destruct (sync w) as [[] w1]; cbn [fst snd negb]; [|split; [done|by exists s2]].
  apply (openSegment_alike (set_fd w1 None) s2).
Qed.

(** ** Acknowledged records survive *)

(** How many acknowledged records may be unsynced. *)
Definition unsynced (c : WriterConfig) : nat :=
  match wc_policy c with PerRecord => 0%nat | Group => Z.to_nat (wc_groupSize c - 1) end.

Lemma clean_unsynced c w fs hot seq : clean c w fs hot seq → (Z.to_nat (jw_pending w) <= unsynced c)%nat.
Proof.
  intros [_ _ _ Hp Hpol _]. unfold unsynced. destruct (wc_policy c); [rewrite Hpol by done|]; lia.
Qed.

Lemma writerNew_clean c io : writer_config_ok c → clean c (writerNew ∅ ∅ io) [] None 0.
Proof.
  intros Hc. split; [|done| | | |]; unfold writerNew; cbn [jw_counter jw_pending].
  - split; try apply Forall_nil_2. split; [constructor|by apply Forall_nil_2].
  - unfold in_u64. lia.
  - destruct Hc. lia.
  - done.
  - split; [done|]. split; [done|]. by left.
Qed.

(** Appends, one after the other, up to the first that fails; the result counts the
    acknowledged ones. *)
Fixpoint appendRun (c : WriterConfig) (w : JournalWriter) (rs : list JournalRecord) :
    option (nat * JournalWriter) :=
  match rs with
  | [] => Some (0%nat, w)
  | r :: rs' =>
      '(ok, w) ← append c w (jr_seq r) (jr_kind r) (jr_command r);
      if negb ok then Some (0%nat, w) else '(n, w) ← appendRun c w rs'; Some (S n, w)
  end.

(** How many acknowledged records a fault may take. *)
Definition risk (worst : Fault) (c : WriterConfig) : nat :=
  match worst with ProcessKill => 0%nat | MachineFailure => unsynced c end.

Lemma synced_setSync w p : synced (setSync w (length <$> jw_dir w)) p = length (fileOf (jw_dir w) p).
Proof. unfold synced, setSync, fileOf. cbn. rewrite lookup_fmap. by destruct (jw_dir w !! p). Qed.

Lemma front_kill w fs seq :
  front w fs seq → Forall (λ pf, jw_dir w !! pf.1 = Some (fileBytes pf.2)) fs →
  front (setSync w (length <$> jw_dir w)) fs seq.
Proof.
  intros [H1 H2 H3 H4] Hd. split; try done. eapply Forall_impl; [exact Hd|]. intros pf Hp. cbn beta in *.
  rewrite synced_setSync. by rewrite (fileOf_Some _ _ _ Hp).
Qed.

Lemma dirty_front w fs p f k rs n : dirty w fs p f k rs n → Forall (λ pf, jw_dir w !! pf.1 = Some (fileBytes pf.2)) fs.
Proof.
  intros [H1 _ H3 H4 _ _ _ _]. pose proof (dirOf_lookup fs H1) as H. rewrite <- H4 in H.
  rewrite Forall_forall in H |- *. intros pf Hin. destruct (H pf Hin) as (Hl & _).
  rewrite lookup_delete_ne in Hl; [done|]. rewrite Forall_forall in H3.
  specialize (H3 pf.1 (list_elem_of_fmap_2 fst fs pf Hin)). lia.
Qed.

Lemma dirty_kill w fs p f k rs n : dirty w fs p f k rs n → dirty (setSync w (length <$> jw_dir w)) fs p f k rs n.
Proof.
  intros Hd. pose proof (dirty_front _ _ _ _ _ _ _ Hd) as Hf. destruct Hd as [H1 H2 H3 H4 H5 H6 H7 H8]. split; try done.
  eapply Forall_impl; [exact Hf|]. intros pf Hp. cbn beta in *. rewrite synced_setSync. by rewrite (fileOf_Some _ _ _ Hp).
Qed.

(** A writer between two appends is in order for kills, whatever is synced. *)
Lemma clean_kill c w fs hot seq :
  clean c w fs hot seq →
  clean c (setSync w (length <$> jw_dir w)) fs hot seq ∧ covers (setSync w (length <$> jw_dir w)) hot 0.
Proof.
  intros [Hfr Hcnt Hctr Hpd Hpol Hh]. destruct hot as [h|].
  - destruct Hh as [O1 O2 O3 O4 O5 O6 O7]. pose proof (dt_seg _ _ _ _ _ _ _ O2) as (_ & _ & Hrs & _).
    assert (Hsy : synced (setSync w (length <$> jw_dir w)) (ht_path h) = (32 + 68 * length (ht_rs h))%nat).
    { rewrite synced_setSync, (fileOf_Some _ _ _ (dt_hot _ _ _ _ _ _ _ O2)), take_full by done. cbn [fileBytes].
      by rewrite app_nil_r, length_app, length_headerBytes, length_recordsBytes. }
    split; [|unfold covers; rewrite Hsy; lia]. split; try done.
    + eapply front_kill; [done|by eapply dirty_front].
    + split; try done; [by apply dirty_kill|]. rewrite Hsy. cbn. lia.
  - split; [|done]. destruct Hh as (H1 & H2 & H3).
    assert (Hf : Forall (λ pf, jw_dir w !! pf.1 = Some (fileBytes pf.2)) fs).
    { destruct H3 as [->|(f & k & n & Hd)]; [|by eapply dirty_front]. pose proof (dirOf_lookup fs (fr_files _ _ _ Hfr)) as H.
      eapply Forall_impl; [exact H|]. by intros pf [? _]. }
    split; try done; [by apply front_kill|]. split; [done|]. split; [done|].
    destruct H3 as [Hd|(f & k & n & Hd)]; [by left|]. right. exists f, k, n. by apply dirty_kill.
Qed.

Lemma clean_view worst c w fs hot seq :
  clean c (view worst w) fs hot seq → covers (view worst w) hot (risk worst c).
Proof.
  intros Hcl. destruct worst; cbn [risk].
  - pose proof (clean_kill _ _ _ _ _ Hcl) as [_ Hco]. exact Hco.
  - pose proof (clean_covers _ _ _ _ _ Hcl) as Hco. pose proof (clean_unsynced _ _ _ _ _ Hcl) as Hle. cbn [view] in *.
    unfold covers in *. destruct hot; [lia|done].
Qed.

Lemma stopped_survives worst c w fs hot seq d sy :
  clean c (view worst w) fs hot seq → stopped worst w d sy →
  survives d (records fs ++ hotRecords hot) (length (records fs ++ hotRecords hot) - risk worst c).
Proof.
  intros Hcl Hst. eapply crash_clean; [exact Hcl|by apply (clean_view _ _ _ fs _ seq)|by eapply stopped_crashed].
Qed.

(** One append, under either kind of fault. *)
Lemma append_view worst c w fs hot seq r :
  writer_config_ok c → clean c (view worst w) fs hot seq → seq < INT64_MAX → record_ok r → jr_seq r = seq + 1 →
  let all := records fs ++ hotRecords hot in
  ∃ (b : bool) w', append c w (jr_seq r) (jr_kind r) (jr_command r) = Some (b, w') ∧
    (∀ d sy, stopped worst w' d sy → survives d (all ++ [r]) (length all - risk worst c)) ∧
    (b = true → ∃ fs' h', clean c (view worst w') fs' (Some h') (seq + 1) ∧ records fs' ++ ht_rs h' = all ++ [r]).
Proof.
  intros Hcfg Hcl Hlt Hr Hs all. pose proof (clean_view _ _ _ _ _ _ Hcl) as Hco.
  destruct (append_outcome c (view worst w) fs hot seq r (risk worst c) Hcfg Hcl Hco Hlt Hr Hs) as (b & w2 & Ha & Hcr & Hok).
  destruct worst; cbn [view] in *.
  - pose proof (append_alike c w (length <$> jw_dir w) (jr_seq r) (jr_kind r) (jr_command r)) as Hal. rewrite Ha in Hal.
    destruct (append c w _ _ _) as [[b' w']|]; [|done]. destruct Hal as [-> [sy ->]]. exists b', w'. split; [done|]. split.
    + intros d sy' Hst. inversion Hst; subst. apply Hcr. exact (crashed_self (setSync w' sy)).
    + intros Hb. destruct (Hok Hb) as (fs' & h' & Hcl' & Hrec). exists fs', h'. split; [|done].
      pose proof (clean_kill _ _ _ _ _ Hcl') as [H _]. exact H.
  - exists b, w2. split; [done|]. split; [|done].
    intros d sy Hst. apply Hcr. exact (stopped_crashed _ _ _ _ Hst).
Qed.

Lemma appendRun_ok worst c w fs hot seq rs :
  writer_config_ok c → clean c (view worst w) fs hot seq → consecutive seq rs → Forall record_ok rs →
  seq + Z.of_nat (length rs) <= INT64_MAX →
  ∃ n w', appendRun c w rs = Some (n, w') ∧
    ∀ d sy, stopped worst w' d sy → ∃ m, survives d ((records fs ++ hotRecords hot) ++ rs) m ∧
      (length (records fs ++ hotRecords hot) + n <= m + risk worst c)%nat.
Proof.
  intros Hcfg. revert w fs hot seq. induction rs as [|r rs IH]; intros w fs hot seq Hcl Hc Hok Hl.
  { exists 0%nat, w. split; [done|]. intros d sy Hst. rewrite app_nil_r. eexists.
    split; [by eapply stopped_survives|]. lia. }
  apply Forall_cons in Hok as [Hr Hok]. destruct Hc as [Hs Hc]. cbn [appendRun length] in *.
  pose proof (cl_count _ _ _ _ _ Hcl) as Hcnt.
  assert (Hs' : jr_seq r = seq + 1).
  { rewrite Hs. apply s64_id. unfold in_i64, INT64_MIN, INT64_MAX in *. lia. }
  destruct (append_view worst c w fs hot seq r Hcfg Hcl) as (b & w1 & -> & Hout & Hcl1); [lia|done|done|].
  simpl_bind. rewrite cons_middle, app_assoc. destruct b; cbn [negb].
  - destruct (Hcl1 eq_refl) as (fs1 & h1 & Hc1 & Hrec). rewrite Hs' in Hc.
    destruct (IH w1 fs1 (Some h1) (seq + 1) Hc1 Hc Hok) as (n & w2 & -> & Hcl2); [lia|].
    simpl_bind. exists (S n), w2. split; [done|]. intros d sy Hst.
    destruct (Hcl2 d sy Hst) as (m & Hsv & Hm). cbn [hotRecords from_option] in Hsv, Hm. rewrite Hrec in Hsv, Hm.
    exists m. split; [done|]. rewrite (length_app _ [r]) in Hm. simpl in Hm. lia.
  - exists 0%nat, w1. split; [done|]. intros d sy Hst. eexists. split; [by eapply survives_more, Hout|]. lia.
Qed.

Lemma survives_reads d all n fuel :
  survives d all n → consecutive 0 all → (length all < fuel)%nat →
  ∃ xs x R j, readAll fuel d (readerNew d) = Some (xs, x, R) ∧ recordOf <$> xs = take j all ∧
    (n <= j)%nat ∧ rr_status x ≠ Corrupt.
Proof.
  intros (fs & lst & j & Him & Hj & Hn) Hc Hf.
  destruct (image_reads d fs lst fuel Him) as (xs & x & R & Hread & Hxs & Hst & _).
  - rewrite Hj. by apply consecutive_take.
  - rewrite Hj, length_take. lia.
  - exists xs, x, R, j. split; [done|]. split; [congruence|]. split; [lia|].
    rewrite Hst. by destruct (imageTorn lst).
Qed.

(** Between two appends with a sync per record, a kill finds every record synced. *)
Lemma clean_settled c w fs h seq :
  wc_policy c = PerRecord → clean c w fs (Some h) seq → stopped MachineFailure w (jw_dir w) (jw_synced w).
Proof.
  intros Hpol Hcl. apply killed_settled. intros p bs Hp. change (default 0%nat (jw_synced w !! p)) with (synced w p).
  etrans; [apply wholeBytes_le|]. pose proof (cl_policy _ _ _ _ _ Hcl Hpol) as Hp0. pose proof (clean_covers _ _ _ _ _ Hcl) as Hco.
  rewrite Hp0 in Hco. destruct Hcl as [_ _ _ _ _ [_ O2 _ _ _ _ _]]. destruct (decide (p = ht_path h)) as [->|Hne].
  - rewrite (dt_hot _ _ _ _ _ _ _ O2) in Hp. apply (f_equal (from_option length 0%nat)) in Hp. cbn [from_option] in Hp.
    rewrite length_take in Hp. unfold covers in Hco. lia.
  - assert (Hin : dirOf fs !! p = Some bs) by (rewrite <- (dt_dir _ _ _ _ _ _ _ O2); by rewrite lookup_delete_ne).
    apply elem_of_list_to_map_2, list_elem_of_fmap in Hin as ([q f] & [= -> ->] & Hin).
    pose proof (dt_synced _ _ _ _ _ _ _ O2) as Hsy. rewrite Forall_forall in Hsy. apply (Hsy _ Hin).
Qed.

Lemma writerNew_view worst c io : writer_config_ok c → clean c (view worst (writerNew ∅ ∅ io)) [] None 0.
Proof. intros Hcfg. destruct worst; [|by apply writerNew_clean]. by apply clean_kill, writerNew_clean. Qed.

(** Durability.  Any sequence of appends to an empty journal, up to the first that
    fails, whatever the system calls return, followed by a kill or a failure of the
    machine, leaves a directory from which the reader gets back, in order and unchanged, a
    prefix of what was appended.  It holds every acknowledged record, but for at most
    [groupSize - 1] when the machine fails under group commit; and the reader never answers
    Corrupt. *)
Lemma acked_records_survive worst c io rs :
  writer_config_ok c → Forall record_ok rs → consecutive 0 rs → Z.of_nat (length rs) <= INT64_MAX →
  ∃ acked w, appendRun c (writerNew ∅ ∅ io) rs = Some (acked, w) ∧
    ∀ d sy, stopped worst w d sy → ∃ xs x R j,
      readAll (S (length rs)) d (readerNew d) = Some (xs, x, R) ∧ recordOf <$> xs = take j rs ∧
      (acked <= j + risk worst c)%nat ∧ rr_status x ≠ Corrupt.
Proof.
  intros Hcfg Hok Hc Hl.
  destruct (appendRun_ok worst c _ [] None 0 rs Hcfg (writerNew_view worst c io Hcfg) Hc Hok) as (n & w & Hw & Hs); [lia|].
  exists n, w. split; [done|]. intros d sy Hst. destruct (Hs d sy Hst) as (m & Hm & Hle). simpl in Hle, Hm.
  destruct (survives_reads d rs m (S (length rs)) Hm Hc) as (xs & x & R & j & H1 & H2 & H3 & H4); [lia|].
  exists xs, x, R, j. split; [done|]. split; [done|]. split; [lia|done].
Qed.

(** ** Going on after a restart *)

(** The files of an image are covered where their complete records are synced. *)
Lemma settled_file d sy p f k rs tl :
  settled d sy → d !! p = Some (fileBytes (Seg f k rs tl)) → Forall record_ok rs →
  (32 + 68 * length rs <= default 0%nat (sy !! p))%nat.
Proof.
  intros Hs Hp Hrs. specialize (Hs _ _ Hp). cbn [fileBytes] in Hs.
  rewrite !length_app, length_headerBytes, length_recordsBytes in Hs by done. unfold wholeBytes in Hs.
  destruct (_ <? 32)%nat eqn:E; [apply Nat.ltb_lt in E; lia|].
  replace (32 + (68 * length rs + length tl) - 32)%nat with (length rs * 68 + length tl)%nat in Hs by lia.
  rewrite Nat.div_add_l in Hs by lia. lia.
Qed.

Lemma image_synced d sy fs lst io :
  image d fs lst → settled d sy → Forall (λ pf, length (fileBytes pf.2) <= synced (writerNew d sy io) pf.1)%nat fs.
Proof.
  intros Him Hse. pose proof (dirOf_lookup _ (im_files _ _ _ Him)) as H. rewrite <- (im_dir _ _ _ Him) in H.
  apply Forall_app in H as [H _]. pose proof (im_full _ _ _ Him) as Hf. unfold full in Hf. rewrite Forall_forall in H, Hf |- *.
  intros pf Hin. destruct (H pf Hin) as (Hp & Hok & _). destruct (Hf pf Hin) as (f & k & rs & Hpf). rewrite Hpf in Hp, Hok |- *.
  destruct Hok as (_ & _ & Hrs & _). pose proof (settled_file _ _ _ _ _ _ _ Hse Hp Hrs) as Hle. cbn [fileBytes].
  rewrite app_nil_r, length_app, length_headerBytes, length_recordsBytes by done. exact Hle.
Qed.

Lemma image_front d sy fs lst io :
  image d fs lst → settled d sy → front (writerNew d sy io) fs (Z.of_nat (length (records fs))).
Proof.
  intros Him Hse. split; [| |by eapply image_synced|].
  - destruct (im_files _ _ _ Him) as [Hs Hf]. rewrite fmap_app in Hs. rewrite fmap_app in Hf. split.
    + by apply StronglySorted_app_1_l in Hs.
    + by apply Forall_app in Hf as [Hf _].
  - apply Him.
  - apply Him.
Qed.

Lemma image_last d fs f :
  image d fs (Some f) →
  d = <[Z.of_nat (length (records fs)) + 1 := fileBytes f]> (dirOf fs) ∧ file_ok f ∧
  delete (Z.of_nat (length (records fs)) + 1) d = dirOf fs ∧
  Forall (λ q, q < Z.of_nat (length (records fs)) + 1) fs.*1.
Proof.
  intros Him. pose proof (im_names _ _ _ Him) as Hn.
  assert (Hab : Forall (λ q, q < Z.of_nat (length (records fs)) + 1) fs.*1).
  { eapply Forall_impl; [exact Hn|]. simpl. lia. }
  pose proof (im_dir _ _ _ Him) as Hd. cbn [from_option] in Hd.
  rewrite dirOf_snoc in Hd by (by apply fresh_above).
  split; [done|]. split; [|split; [|done]].
  - destruct (im_files _ _ _ Him) as [_ Hf]. rewrite fmap_app in Hf. apply Forall_app in Hf as [_ Hf].
    by apply Forall_cons in Hf as [Hf _].
  - rewrite Hd. apply delete_insert_id, dirOf_fresh. by apply fresh_above.
Qed.

Lemma restart_clean c d sy io fs :
  writer_config_ok c → quiet (writerNew d sy io) fs (Z.of_nat (length (records fs))) →
  clean c (writerNew d sy io) fs None (Z.of_nat (length (records fs))).
Proof.
  intros [_ Hg] [Hq1 Hq2]. split; cbn [hotRecords from_option]; rewrite ?app_nil_r; try done.
  - cbn [length]. by rewrite Z.sub_0_r.
  - unfold writerNew. cbn [jw_pending]. lia.
Qed.

(** A last file without records is left to be written again. *)
Lemma image_empty_last c d sy fs f io f0 k n :
  writer_config_ok c → image d fs (Some f) → settled d sy → (contents [f]).1 = [] → in_u64 f0 → in_u64 k → (n <= 32)%nat →
  fileBytes f = take n (headerBytes f0 k) →
  clean c (writerNew d sy io) fs None (Z.of_nat (length (imageRecords fs (Some f)))) ∧
  records fs = imageRecords fs (Some f).
Proof.
  intros Hcfg Him Hse Hno H1 H2 H3 H4. pose proof (image_front d sy fs _ io Him Hse) as Hfr.
  destruct (image_last _ _ _ Him) as (Hd & Hok & Hdel & Hab). unfold imageRecords. cbn [from_option].
  rewrite Hno, app_nil_r. split; [|done]. apply restart_clean; [done|]. split; [done|].
  right. exists f0, k, n. split; try done; try apply Hfr.
  - split; [done|]. split; [done|]. split; [apply Forall_nil_2|]. split; [apply Forall_nil_2|simpl; lia].
  - unfold writerNew. cbn [jw_dir]. rewrite Hd, lookup_insert_eq, H4. cbn [fileBytes].
    change (recordsBytes []) with (@nil Z). by rewrite !app_nil_r.
Qed.

(** The last file's records stay where they are, and the writer starts the next
    segment. *)
Lemma image_closed c d sy fs lst io :
  writer_config_ok c → image d fs lst → settled d sy → imageTorn lst = false →
  ∃ fs', clean c (writerNew d sy io) fs' None (Z.of_nat (length (imageRecords fs lst))) ∧
    records fs' = imageRecords fs lst.
Proof.
  intros Hcfg Him Hse Ht. pose proof (image_front d sy fs lst io Him Hse) as Hfr.
  destruct lst as [f|].
  2: { exists fs. unfold imageRecords. cbn [from_option]. rewrite app_nil_r. split; [|done].
       apply restart_clean; [done|]. split; [done|]. left. pose proof (im_dir _ _ _ Him) as Hd.
       cbn [from_option] in Hd. by rewrite app_nil_r in Hd. }
  destruct (image_last _ _ _ Him) as (Hd & Hok & Hdel & Hab).
  destruct f as [bs|f k rs tl].
  { destruct (im_stub _ _ _ Him bs eq_refl) as (f0 & k & n & H1 & H2 & H3 & H4). exists fs.
    by apply (image_empty_last c d sy fs _ io f0 k n). }
  cbn [imageTorn from_option isTorn] in Ht. destruct tl; [|by rewrite bool_decide_eq_true_2 in Ht].
  destruct rs as [|r rs].
  { destruct Hok as (H1 & H2 & _). exists fs. by apply (image_empty_last c d sy fs _ io f k 32). }
  exists (fs ++ [(Z.of_nat (length (records fs)) + 1, Seg f k (r :: rs) [])]).
  assert (Hrec : records (fs ++ [(Z.of_nat (length (records fs)) + 1, Seg f k (r :: rs) [])])
                 = imageRecords fs (Some (Seg f k (r :: rs) []))).
  { unfold records at 1. rewrite contents_app by apply Hfr. done. }
  split; [|done]. rewrite <- Hrec. apply restart_clean; [done|]. split; [|by left; apply Him].
  split; [apply Him| | |].
  - apply Forall_app_2; [apply Hfr|]. constructor; [|done]. by exists f, k, (r :: rs).
  - apply Forall_app_2; [apply Hfr|]. constructor; [|done]. cbn [fst snd].
    destruct Hok as (_ & _ & Hrs & _). cbn [fileBytes]. rewrite app_nil_r, length_app, length_headerBytes, length_recordsBytes by done.
    eapply settled_file; [exact Hse| |exact Hrs]. by rewrite Hd, lookup_insert_eq.
  - rewrite Hrec. unfold imageRecords. rewrite length_app. cbn [from_option contents fst]. rewrite app_nil_r. cbn [length].
    rewrite fmap_app. apply Forall_app_2; [eapply Forall_impl; [apply Hfr|]; simpl; lia|].
    constructor; [|done]. cbn [fst]. lia.
Qed.

(** The reader that met the torn tail stands at its start. *)
Lemma torn_place d fs f k rs tl R c' :
  image d fs (Some (Seg f k rs tl)) → inside (fs ++ lastFile fs (Some (Seg f k rs tl))) d R c' →
  cu_rs c' = [] → cu_tail c' ≠ [] →
  jd_fd R = Some (Z.of_nat (length (records fs)) + 1) ∧ jd_path R = Z.of_nat (length (records fs)) + 1 ∧
  jd_offset R = 32 + 68 * Z.of_nat (length rs) ∧ jd_counter R = k.
Proof.
  intros Him [[Hfd _ _] Hp Hk Ho _ _ Hin] Hrs Htl. apply elem_of_app in Hin as [Hin|Hin].
  - pose proof (im_full _ _ _ Him) as Hf. unfold full in Hf. rewrite Forall_forall in Hf.
    destruct (Hf _ Hin) as (? & ? & ? & [= _ _ _ He]). done.
  - unfold lastFile in Hin. cbn [from_option] in Hin. apply list_elem_of_singleton in Hin.
    unfold cu_file in Hin. rewrite Hrs, app_nil_r in Hin. injection Hin as H1 H2 H3 H4 H5.
    rewrite <- H4, <- H1, <- H3. done.
Qed.

(** Cutting the tail off leaves the complete records. *)
Lemma truncate_tail f k rs tl :
  Forall record_ok rs →
  truncateFile (fileBytes (Seg f k rs tl)) (32 + 68 * Z.of_nat (length rs)) = fileBytes (Seg f k rs []).
Proof.
  intros Hrs. unfold truncateFile. cbn [fileBytes]. rewrite app_nil_r.
  assert (Hl : length (headerBytes f k ++ recordsBytes rs) = (32 + 68 * length rs)%nat)
    by (rewrite length_app, length_headerBytes, length_recordsBytes; done).
  rewrite (app_assoc (headerBytes f k)), take_app_le by lia.
  rewrite (length_app (_ ++ _)). rewrite take_ge by lia.
  replace (Z.to_nat _ - _)%nat with 0%nat by lia. apply app_nil_r.
Qed.

Lemma resumeFrom_writes d sy p f k rs tl io lastSeq w' :
  d !! p = Some (fileBytes (Seg f k rs tl)) → Forall record_ok rs →
  resumeFrom (writerNew d sy io) p (32 + 68 * Z.of_nat (length rs)) k lastSeq = (true, w') →
  ∃ io', w' = mkWriter (<[p := fileBytes (Seg f k rs [])]> d)
    (<[p := ((32 + 68 * length rs) `min` default 0%nat (sy !! p))%nat]> sy) (Some p) p (32 + 68 * Z.of_nat (length rs)) 0
    (u64 (k + 1)) lastSeq io'.
Proof.
  intros Hp Hrs. unfold resumeFrom, close, writerNew, sys. cbn [jw_fd jw_io jw_dir].
  rewrite <- (truncate_tail f k rs tl Hrs). replace (32 + 68 * length rs)%nat with (Z.to_nat (32 + 68 * Z.of_nat (length rs))) by lia.
  destruct io as [|[] [|[] [|[] ?]]]; cbn [jw_io jw_dir]; rewrite ?Hp; intros [= <-]; by eexists.
Qed.

Lemma image_resumed c d sy fs f k rs tl io lastSeq w' :
  writer_config_ok c → image d fs (Some (Seg f k rs tl)) → settled d sy →
  32 + 68 * Z.of_nat (length rs) < 9223372036854775808 →
  resumeFrom (writerNew d sy io) (Z.of_nat (length (records fs)) + 1) (32 + 68 * Z.of_nat (length rs)) k lastSeq
    = (true, w') →
  clean c w' fs (Some (mkHot (Z.of_nat (length (records fs)) + 1) f k rs))
    (Z.of_nat (length (records fs ++ rs))).
Proof.
  intros [_ Hg] Him Hse Hsz Hr. destruct (image_last _ _ _ Him) as (Hd & Hok & Hdel & Hab).
  pose proof Hok as (Hf & Hk & Hrs & Htl). pose proof (image_front d sy fs _ io Him Hse) as Hfr.
  set (p := Z.of_nat (length (records fs)) + 1) in *.
  assert (Hp : d !! p = Some (fileBytes (Seg f k rs tl))) by (by rewrite Hd, lookup_insert_eq).
  destruct (resumeFrom_writes _ _ _ _ _ _ _ _ _ _ Hp Hrs Hr) as (io' & ->).
  pose proof (settled_file _ _ _ _ _ _ _ Hse Hp Hrs) as Hcov.
  assert (Hsy : Forall (λ pf : Z * FileSpec, length (fileBytes pf.2)
    <= default 0 ((<[p := ((32 + 68 * length rs) `min` default 0 (sy !! p))]> sy) !! pf.1))%nat fs).
  { pose proof (fr_synced _ _ _ Hfr) as H. rewrite Forall_forall in H. rewrite Forall_forall in Hab. apply Forall_forall. intros pf Hin.
    specialize (H pf Hin). specialize (Hab pf.1 (list_elem_of_fmap_2 fst fs pf Hin)).
    rewrite lookup_insert_ne by lia. exact H. }
  rewrite length_app. split; cbn [hotRecords from_option ht_rs jw_counter jw_pending].
  - replace (Z.of_nat _ - _) with (Z.of_nat (length (records fs))) by lia.
    destruct Hfr as [H1 H2 H3 H4]. by split.
  - by rewrite length_app.
  - apply u64_range.
  - lia.
  - done.
  - split; cbn [ht_rs ht_path ht_first ht_counter jw_fd jw_bytes jw_pending]; try done; try lia.
    + split; cbn [jw_dir]; try done; try apply Hfr.
      * by rewrite delete_insert_eq, Hdel.
      * split; [done|]. split; [done|]. split; [done|]. split; [apply Forall_nil_2|simpl; lia].
      * by rewrite lookup_insert_eq, take_full.
    + unfold synced. cbn [jw_synced]. rewrite lookup_insert_eq. cbn [from_option]. unfold id in *. lia.
Qed.

(** What a restart does with the writer, given where the reader stopped. *)
Definition resumeJournal (R : JournalReader) (lastSeq : Z) (w : JournalWriter) : bool * JournalWriter :=
  match jd_fd R with
  | Some _ => resumeFrom w (jd_path R) (jd_offset R) (jd_counter R) lastSeq
  | None => (true, w)
  end.

(** More records than a journal of segments below 2^63 bytes can count to. *)
Definition kMaxRecords : Z := 2 ^ 56.

Lemma resumeJournal_clean c d sy fs lst io x R lastSeq w :
  writer_config_ok c → image d fs lst → settled d sy → Z.of_nat (length (imageRecords fs lst)) < kMaxRecords →
  answers (fs ++ lastFile fs lst) d (jd_lastGood R) ([], imageTorn lst) x R →
  resumeJournal R lastSeq (writerNew d sy io) = (true, w) →
  ∃ fs' hot, clean c w fs' hot (Z.of_nat (length (imageRecords fs lst))) ∧
    records fs' ++ hotRecords hot = imageRecords fs lst.
Proof.
  intros Hcfg Him Hse Hlen Ha Hr. unfold resumeJournal in Hr. destruct (imageTorn lst) eqn:Et.
  - destruct Ha as (_ & _ & c' & Hin & Hrs & Htl). destruct lst as [[bs|f k rs tl]|]; try done.
    destruct (torn_place _ _ _ _ _ _ _ _ Him Hin Hrs Htl) as (Hfd & Hp & Ho & Hk).
    rewrite Hfd, Hp, Ho, Hk in Hr.
    assert (Hrec : imageRecords fs (Some (Seg f k rs tl)) = records fs ++ rs).
    { unfold imageRecords. cbn [from_option contents]. destruct tl; cbn [fst]; by rewrite ?app_nil_r. }
    rewrite Hrec in Hlen |- *. rewrite length_app in Hlen. unfold kMaxRecords in Hlen.
    eexists _, (Some _). split; [eapply image_resumed; [done|done|done|lia|done]|done].
  - destruct Ha as (_ & _ & Hfd). rewrite Hfd in Hr. injection Hr as <-.
    destruct (image_closed c d sy fs lst io Hcfg Him Hse Et) as (fs' & Hcl & Hrec). exists fs', None.
    split; [done|]. by rewrite app_nil_r.
Qed.

Lemma resumeFrom_alike w sy p off k lastSeq :
  jw_fd w = None → alike (Some (resumeFrom w p off k lastSeq)) (Some (resumeFrom (setSync w sy) p off k lastSeq)).
Proof.
  destruct w as [d s0 fd p0 b pe ct l io]. cbn [jw_fd]. intros ->.
  unfold alike, resumeFrom, close, setSync, set_files, sys. cbn [jw_fd jw_io jw_dir].
  destruct (d !! p) as [bs|] eqn:E; destruct io as [|[] [|[] [|[] ?]]]; cbn [jw_io jw_dir]; rewrite ?E; (split; [done|by eexists]).
Qed.

(** The writer of a process that starts again is in order for the same faults. *)
Lemma resumeJournal_view worst c w0 d sy fs lst io x R lastSeq w :
  writer_config_ok c → stopped worst w0 d sy → image d fs lst → Z.of_nat (length (imageRecords fs lst)) < kMaxRecords →
  answers (fs ++ lastFile fs lst) d (jd_lastGood R) ([], imageTorn lst) x R →
  resumeJournal R lastSeq (writerNew d sy io) = (true, w) →
  ∃ fs' hot, clean c (view worst w) fs' hot (Z.of_nat (length (imageRecords fs lst))) ∧
    records fs' ++ hotRecords hot = imageRecords fs lst.
Proof.
  intros Hcfg Hst Him Hlen Ha Hr. pose proof (stopped_settled _ _ _ _ io Hst) as Hse.
  destruct worst; [|by eapply resumeJournal_clean].
  assert (Hal : alike (Some (true, w)) (Some (resumeJournal R lastSeq (writerNew d (length <$> d) io)))).
  { rewrite <- Hr. unfold resumeJournal. destruct (jd_fd R); [|split; [done|by eexists]].
    exact (resumeFrom_alike (writerNew d sy io) (length <$> d) _ _ _ _ eq_refl). }
  destruct (resumeJournal R lastSeq (writerNew d (length <$> d) io)) as [b w2] eqn:Ew. destruct Hal as [-> [sy2 ->]].
  destruct (resumeJournal_clean c d (length <$> d) fs lst io x R lastSeq _ Hcfg Him Hse Hlen Ha Ew) as (fs' & hot & Hcl & Hrec).
  exists fs', hot. split; [|done]. pose proof (clean_kill _ _ _ _ _ Hcl) as [H _]. exact H.
Qed.

Lemma readAll_more d f g R v : readAll f d R = Some v → readAll (f + g) d R = Some v.
Proof.
  revert R v. induction f as [|f IH]; intros R v; [done|]. cbn [readAll Nat.add].
  destruct (next d R) as [[x R']|]; [|done]. simpl_bind. case_bool_decide; [|done].
  destruct (readAll f d R') as [[[xs y] R2]|] eqn:E; [|done]. by rewrite (IH _ _ E).
Qed.

Lemma readAll_fuel d f g R v v' : readAll f d R = Some v → readAll g d R = Some v' → v = v'.
Proof. intros H1%(readAll_more _ _ g) H2%(readAll_more _ _ f). rewrite Nat.add_comm in H2. congruence. Qed.

(** Runs of the process on one journal directory: each starts from what the last one has
    left, reads it, resumes, appends up to a failure, and is stopped.  [sy] says how much
    of each file is synced.  The list is what has to be there: the records the run
    has found, and those it has acknowledged, but for those at risk. *)
Inductive history (worst : Fault) (c : WriterConfig) : Dir → gmap Z nat → list JournalRecord → Prop :=
  | history_start : history worst c ∅ ∅ []
  | history_run d sy kept io fuel xs x R w rs acked w' d' sy' :
      history worst c d sy kept →
      readAll fuel d (readerNew d) = Some (xs, x, R) →
      resumeJournal R (jd_lastGood R) (writerNew d sy io) = (true, w) →
      Forall record_ok rs → consecutive (jd_lastGood R) rs →
      jd_lastGood R + Z.of_nat (length rs) < kMaxRecords →
      appendRun c w rs = Some (acked, w') →
      stopped worst w' d' sy' →
      history worst c d' sy' (take (length xs + acked - risk worst c) ((recordOf <$> xs) ++ rs)).

Lemma survives_empty : survives ∅ [] 0.
Proof.
  exists [], None, 0%nat. split; [|done]. split; try done; try apply Forall_nil_2.
  split; [constructor|apply Forall_nil_2].
Qed.

(** An empty directory is what a process that wrote nothing leaves. *)
Lemma stopped_empty worst : ∃ w, stopped worst w ∅ ∅.
Proof.
  exists (writerNew ∅ ∅ []). destruct worst; [apply (killed (writerNew ∅ ∅ []))|].
  apply (killed_settled (writerNew ∅ ∅ [])). intros p bs. cbn. by rewrite lookup_empty.
Qed.

Lemma history_survives worst c d sy kept :
  writer_config_ok c → history worst c d sy kept →
  (∃ w, stopped worst w d sy) ∧
  ∃ all n, survives d all n ∧ kept = take n all ∧ consecutive 0 all ∧ Z.of_nat (length all) < kMaxRecords.
Proof.
  intros Hcfg. induction 1 as [|d sy kept io fuel xs x R w rs acked w' d' sy' _ [[w0 Hst0] IH] Hread Hres Hok Hc Hlen Hrun Hst].
  { split; [apply stopped_empty|]. exists [], 0%nat. split; [exact survives_empty|done]. }
  split; [by exists w'|]. destruct IH as (all & n & (fs & lst & j & Him & Hj & Hn) & -> & Hcons & Hall).
  assert (Hc0 : consecutive 0 (imageRecords fs lst)) by (rewrite Hj; by apply consecutive_take).
  assert (Hl0 : Z.of_nat (length (imageRecords fs lst)) < kMaxRecords) by (rewrite Hj, length_take; lia).
  destruct (image_reads d fs lst _ Him Hc0 (Nat.lt_succ_diag_r _)) as (xs' & x' & R' & Hread' & Hxs & _ & Hlg & Ha).
  pose proof (readAll_fuel _ _ _ _ _ _ Hread Hread') as [= -> -> ->].
  rewrite consecutive_last in Hlg by (done || (unfold kMaxRecords, INT64_MAX in *; lia)).
  destruct (resumeJournal_view worst c w0 d sy fs lst io x' R' _ w Hcfg Hst0 Him Hl0 Ha Hres) as (fs' & hot & Hcl & Hrec).
  rewrite Hlg in Hc, Hlen.
  destruct (appendRun_ok worst c w fs' hot _ rs Hcfg Hcl Hc Hok) as (n' & w2 & Hrun' & Hs);
    [unfold kMaxRecords, INT64_MAX in *; lia|].
  rewrite Hrun in Hrun'. injection Hrun' as <- <-. destruct (Hs d' sy' Hst) as (m & Hsv & Hm).
  rewrite Hrec, <- Hxs in Hsv, Hm. rewrite length_fmap in Hm.
  exists ((recordOf <$> xs') ++ rs), (length xs' + acked - risk worst c)%nat.
  split; [eapply survives_less; [exact Hsv|lia]|]. split; [done|].
  rewrite Hxs, length_app. split; [|lia]. apply consecutive_app. split; [done|].
  by rewrite consecutive_last by (done || (unfold kMaxRecords, INT64_MAX in *; lia)).
Qed.


(** *** A run that ends in a torn record, and one that goes on from it *)

Definition buyRecord (seq : Z) : JournalRecord :=
  mkJournalRecord seq 0 (mkImage (100 + seq) 0 5000 10 7 0 0 0 [0; 0; 0; 0; 0]).

Lemma buyRecord_ok seq : 0 <= seq < 1000 → record_ok (buyRecord seq).
Proof.
  intros Hs. unfold record_ok, valid_image, buyRecord, in_i64, INT64_MIN, INT64_MAX, is_byte. cbn.
  split; [|lia]. repeat (split; [lia|]). split; [|done]. repeat constructor; lia.
Qed.

Lemma buyRecords_ok a b : 0 <= a < 1000 ∧ 0 <= b < 1000 → Forall record_ok [buyRecord a; buyRecord b].
Proof. intros [Ha Hb]. constructor; [by apply buyRecord_ok|]. constructor; [by apply buyRecord_ok|constructor]. Qed.

Definition perRecord : WriterConfig := writerConfig 200 PerRecord 0.

Lemma perRecord_ok : writer_config_ok perRecord.
Proof. unfold writer_config_ok, perRecord. cbn. lia. Qed.

Definition firstRun : option (nat * JournalWriter) :=
  appendRun perRecord (writerNew ∅ ∅ [IoOk; IoOk; IoOk; IoOk; IoOk; IoShort 10]) [buyRecord 1; buyRecord 2].
Definition firstDir : Dir := from_option (λ r, jw_dir r.2) ∅ firstRun.
Definition firstSync : gmap Z nat := from_option (λ r, jw_synced r.2) ∅ firstRun.
Definition secondRead : option (list ReadResult * ReadResult * JournalReader) :=
  readAll 3 firstDir (readerNew firstDir).
Definition secondReader : JournalReader := from_option snd (readerNew ∅) secondRead.
Definition secondWriter : JournalWriter :=
  (resumeJournal secondReader (jd_lastGood secondReader) (writerNew firstDir firstSync [])).2.
Definition secondRun : option (nat * JournalWriter) := appendRun perRecord secondWriter [buyRecord 2; buyRecord 3].
Definition secondDir : Dir := from_option (λ r, jw_dir r.2) ∅ secondRun.
Definition secondSync : gmap Z nat := length <$> secondDir.

Lemma firstRun_eq :
  firstRun = appendRun perRecord (writerNew ∅ ∅ [IoOk; IoOk; IoOk; IoOk; IoOk; IoShort 10]) [buyRecord 1; buyRecord 2].
Proof. done. Qed.
Lemma secondRead_eq : secondRead = readAll 3 firstDir (readerNew firstDir).
Proof. done. Qed.
Lemma secondRun_eq : secondRun = appendRun perRecord secondWriter [buyRecord 2; buyRecord 3].
Proof. done. Qed.

Lemma firstRun_ok : ∃ w, firstRun = Some (1%nat, w) ∧ firstDir = jw_dir w ∧ firstSync = jw_synced w.
Proof.
  assert (H : fst <$> firstRun = Some 1%nat) by (vm_compute; reflexivity).
  unfold firstDir, firstSync. destruct firstRun as [[n w]|]; [|done]. injection H as ->. by exists w.
Qed.

(** The torn record was not synced, the one before was. *)
Lemma firstRun_settled : settled firstDir firstSync.
Proof.
  assert (H : forallb (λ pb, bool_decide (wholeBytes (length pb.2) <= default 0%nat (firstSync !! pb.1))%nat) (map_to_list firstDir) = true)
    by (vm_compute; reflexivity).
  intros p bs Hp. rewrite forallb_forall in H. apply elem_of_map_to_list, list_elem_of_In in Hp.
  apply H in Hp. by apply bool_decide_eq_true in Hp.
Qed.

Lemma firstHistory : history MachineFailure perRecord firstDir firstSync [buyRecord 1].
Proof.
  pose proof firstRun_settled as Hse. destruct firstRun_ok as (w & Hw & Hd & Hsy). rewrite Hd, Hsy in *. rewrite firstRun_eq in Hw.
  apply (history_run MachineFailure perRecord ∅ ∅ [] [IoOk; IoOk; IoOk; IoOk; IoOk; IoShort 10] 1 []
    (mkReadResult EndOfJournal 0 0 emptyImage 0) (readerNew ∅)
    (writerNew ∅ ∅ [IoOk; IoOk; IoOk; IoOk; IoOk; IoShort 10]) [buyRecord 1; buyRecord 2] 1 w (jw_dir w) (jw_synced w)).
  - apply history_start.
  - vm_compute; reflexivity.
  - vm_compute; reflexivity.
  - apply (buyRecords_ok 1 2); lia.
  - by repeat constructor.
  - vm_compute; reflexivity.
  - exact Hw.
  - by apply killed_settled.
Qed.

Lemma secondRead_ok : ∃ xs x, secondRead = Some (xs, x, secondReader) ∧ recordOf <$> xs = [buyRecord 1].
Proof.
  assert (H : option_map (λ r, recordOf <$> r.1.1) secondRead = Some [buyRecord 1]) by (vm_compute; reflexivity).
  unfold secondReader. destruct secondRead as [[[xs x] R]|]; [|done]. injection H as H. by exists xs, x.
Qed.

Lemma secondRun_ok : ∃ w, secondRun = Some (2%nat, w) ∧ secondDir = jw_dir w.
Proof.
  assert (H : fst <$> secondRun = Some 2%nat) by (vm_compute; reflexivity).
  unfold secondDir. destruct secondRun as [[n w]|]; [|done]. injection H as ->. by exists w.
Qed.

Lemma secondWriter_ok :
  resumeJournal secondReader (jd_lastGood secondReader) (writerNew firstDir firstSync []) = (true, secondWriter).
Proof.
  assert (H : (resumeJournal secondReader (jd_lastGood secondReader) (writerNew firstDir firstSync [])).1 = true)
    by (vm_compute; reflexivity).
  unfold secondWriter. destruct (resumeJournal _ _ _) as [b w]. cbn in H |- *. by subst.
Qed.

Lemma secondHistory : history MachineFailure perRecord secondDir secondSync [buyRecord 1; buyRecord 2; buyRecord 3].
Proof.
  assert (Hlg : jd_lastGood secondReader = 1) by (vm_compute; reflexivity).
  destruct secondRead_ok as (xs & x & Hread & Hxs). destruct secondRun_ok as (w & Hw & Hd). unfold secondSync. rewrite Hd.
  pose proof secondWriter_ok as Hres. rewrite secondRead_eq in Hread. rewrite secondRun_eq in Hw.
  assert (Hlen : length xs = 1%nat) by (rewrite <- (length_fmap recordOf), Hxs; done).
  assert (Hkept : take (length xs + 2 - risk MachineFailure perRecord) ((recordOf <$> xs) ++ [buyRecord 2; buyRecord 3])
    = [buyRecord 1; buyRecord 2; buyRecord 3]) by (by rewrite Hxs, Hlen).
  rewrite <- Hkept. apply (history_run MachineFailure perRecord firstDir firstSync [buyRecord 1] [] 3 xs x secondReader secondWriter
    [buyRecord 2; buyRecord 3] 2 w (jw_dir w) (length <$> jw_dir w)).
  - exact firstHistory.
  - exact Hread.
  - exact Hres.
  - apply (buyRecords_ok 2 3); lia.
  - rewrite Hlg. by repeat constructor.
  - rewrite Hlg. by vm_compute.
  - exact Hw.
  - apply machine_failed, crashed_self.
Qed.


(** ** Two ways to lose acknowledged records *)

(** What two appends answer, and what a reader then makes of the directory. *)
Definition readBack (d : Dir) : option (list JournalRecord * ReadStatus) :=
  r ← readAll 3 d (readerNew d); Some (map recordOf r.1.1, rr_status r.1.2).

(** The [fsync] of the first append fails; the second uses the number again. *)
Definition reuseAfterFailure : option (bool * bool * (list JournalRecord * ReadStatus)) :=
  '(b1, w1) ← append perRecord (writerNew ∅ ∅ [IoOk; IoOk; IoOk; IoOk; IoFail]) 1 0 (jr_command (buyRecord 1));
  '(b2, w2) ← append perRecord w1 1 0 (jr_command (buyRecord 2));
  back ← readBack (jw_dir w2);
  Some (b1, b2, back).

(** A failed [append] may have written its record.  A writer that is used again all
    the same writes a second record under the same number, which is acknowledged and
    which no reader gets back: it stops there with Corrupt. *)
Theorem append_after_failure_is_lost :
  reuseAfterFailure = Some (false, true, ([buyRecord 1], Corrupt)).
Proof. vm_compute. reflexivity. Qed.

(** The process is killed between the write and the [fsync] of its first record, so
    that the record is in the directory but not on disk; the next process finds a
    clean end and starts a new segment; then the machine fails. *)
Definition killedThenFailed : option (bool * list Z * (list JournalRecord * ReadStatus)) :=
  '(_, w1) ← append perRecord (writerNew ∅ ∅ [IoOk; IoOk; IoOk; IoOk; IoFail]) 1 0 (jr_command (buyRecord 1));
  found ← readAll 3 (jw_dir w1) (readerNew (jw_dir w1));
  let R := found.2 in
  let '(_, w2) := resumeJournal R (jd_lastGood R) (writerNew (jw_dir w1) (jw_synced w1) []) in
  '(b2, w3) ← append perRecord w2 2 0 (jr_command (buyRecord 2));
  back ← readBack (<[1 := take (synced w3 1) (fileOf (jw_dir w3) 1)]> (jw_dir w3));
  Some (b2, map rr_seq found.1.1, back).

(** Record 1 is recovered and record 2 is acknowledged after it, but nothing has
    synced the segment of record 1: after the failure there is a gap, and both are
    lost. *)
Theorem clean_restart_leaves_records_unsynced :
  killedThenFailed = Some (true, [1], ([], Corrupt)).
Proof. vm_compute. reflexivity. Qed.
