(* ===== verification/JournalTailer.v ===== *)
(** The live reader: [sequencer/journal_tailer.hpp], following a journal that its
    writer is still appending to.

    Each call of [tailNext] takes the directory as it is at that moment; a journal
    that grows is a sequence of directories related by [grows].  [tailing] is the
    tailer's invariant, [tailNext_ok] what one call does, and
    [tailer_delivers_journal] that across any number of calls and of restarts from
    its own checkpoint the tailer delivers every record exactly once, in order. *)
From stdpp Require Import gmap sorting.
From S2P Require Import Prelude Types OrderBook Wire Messages Crc32 Events JournalFormat.
From S2P Require Import JournalWriter JournalReader JournalSpec JournalCrash JournalDurable.

Inductive TailStatus := TailOk | NotYet | TailCorrupt.

#[export] Instance TailStatus_eq_dec : EqDecision TailStatus.
Proof. solve_decision. Defined.

Record Checkpoint := mkCheckpoint {
  cp_createdCounter : Z;
  cp_offset : Z;
  cp_lastGoodSeq : Z
}.

Record TailResult := mkTailResult {
  tr_status : TailStatus;
  tr_seq : Z;
  tr_kind : Z;
  tr_command : Image
}.

Record JournalTailer := mkTailer {
  jt_reader : JournalReader;
  jt_needsReseek : bool
}.

Definition isRealCheckpoint (cp : Checkpoint) : bool := negb (cp_lastGoodSeq cp =? 0).

Definition tailerNew (d : Dir) (resumeFrom : Checkpoint) : option JournalTailer :=
  let r := readerNew d in
  if isRealCheckpoint resumeFrom then
    '(_, r) ← seekTo d r (cp_createdCounter resumeFrom) (cp_offset resumeFrom) (cp_lastGoodSeq resumeFrom);
    Some (mkTailer r false)
  else Some (mkTailer r false).

(** The first half of [next]: look again at what is on disk. *)
Definition refresh (d : Dir) (t : JournalTailer) : option JournalReader :=
  let r := jt_reader t in
  if jt_needsReseek t then
    let r := rescan d r in
    if kSegmentHeaderSize <=? jd_offset r
    then '(_, r) ← seekTo d r (jd_counter r) (jd_offset r) (jd_lastGood r); Some r
    else Some r
  else match jd_fd r with
       | Some _ => Some (refreshFileSize d r)
       | None => Some r
       end.

Definition tailNext (d : Dir) (t : JournalTailer) : option (TailResult * JournalTailer) :=
  r ← refresh d t;
  '(x, r) ← next d r;
  match rr_status x with
  | ReadOk => Some (mkTailResult TailOk (rr_seq x) (rr_kind x) (rr_command x), mkTailer r false)
  | Corrupt => Some (mkTailResult TailCorrupt (rr_seq x) (rr_kind x) (rr_command x), mkTailer r false)
  | TruncatedTail | EndOfJournal => Some (mkTailResult NotYet 0 0 emptyImage, mkTailer r true)
  end.

Definition checkpoint (t : JournalTailer) : Checkpoint :=
  mkCheckpoint (jd_counter (jt_reader t)) (jd_offset (jt_reader t)) (jd_lastGood (jt_reader t)).

(** ** A journal with a live writer *)

(** Only the newest file can be incomplete, no two segments have the same creation
    counter, and the records are numbered from 1. *)
Record live (fs : list (Z * FileSpec)) : Prop := {
  lv_files : files_ok fs;
  lv_full : ∀ i pf, fs !! i = Some pf → (S i < length fs)%nat → ∃ f k rs, pf.2 = Seg f k rs [];
  lv_counters : ∀ i i' p p' f f' k rs rs' tl tl',
    fs !! i = Some (p, Seg f k rs tl) → fs !! i' = Some (p', Seg f' k rs' tl') → i = i';
  lv_consecutive : consecutive 0 (records fs);
  lv_count : Z.of_nat (length (records fs)) < INT64_MAX
}.

(** What the writer can have done between two looks at the directory: finished or
    extended the newest file, started further ones. *)
Definition file_grows (newest : Prop) (f f' : FileSpec) : Prop :=
  match f with
  | Stub _ => True
  | Seg first k rs tl =>
      ∃ more tl', f' = Seg first k (rs ++ more) tl' ∧ (newest ∨ more = [] ∧ tl' = tl)
  end.

Definition grows (fs fs' : list (Z * FileSpec)) : Prop :=
  ∀ i p f, fs !! i = Some (p, f) →
    ∃ f', fs' !! i = Some (p, f') ∧ file_grows (S i = length fs) f f'.

(** ** Where the tailer is *)

(** In front of record [pc_j] of the segment that is file [pc_i]. *)
Record Place := mkPlace {
  pc_i : nat; pc_path : Z; pc_first : Z; pc_counter : Z;
  pc_rs : list JournalRecord; pc_tail : list Z; pc_j : nat
}.

(** The reader knows the first [m] files, has read [n] records, and its offset and
    counter are those of place [P]. *)
Record placed (fs : list (Z * FileSpec)) (m : nat) (R : JournalReader) (n : nat) (P : Place) : Prop := {
  pl_file : fs !! pc_i P = Some (pc_path P, Seg (pc_first P) (pc_counter P) (pc_rs P) (pc_tail P));
  pl_known : (pc_i P < m <= length fs)%nat;
  pl_j : (pc_j P <= length (pc_rs P))%nat;
  pl_n : n = (length (records (take (pc_i P) fs)) + pc_j P)%nat;
  pl_segments : jd_segments R = take m fs.*1;
  pl_counter : jd_counter R = pc_counter P;
  pl_offset : jd_offset R = 32 + 68 * Z.of_nat (pc_j P);
  pl_last : jd_lastGood R = Z.of_nat n
}.

(** The segment is open, with its size as it is in the directory. *)
Record seated (fs : list (Z * FileSpec)) (m : nat) (R : JournalReader) (n : nat) (P : Place) : Prop := {
  se_placed : placed fs m R n P;
  se_fd : jd_fd R = Some (pc_path P);
  se_next : jd_next R = S (pc_i P);
  se_size : jd_fileSize R = Z.of_nat (length (fileOf (dirOf fs) (pc_path P)))
}.

(** Nothing was opened yet. *)
Record unopened (fs : list (Z * FileSpec)) (m : nat) (R : JournalReader) : Prop := {
  un_known : (m <= length fs)%nat;
  un_segments : jd_segments R = take m fs.*1;
  un_fd : jd_fd R = None;
  un_next : jd_next R = 0%nat;
  un_offset : jd_offset R = 0;
  un_last : jd_lastGood R = 0;
  un_first : m = 0%nat ∨ ∃ p f k rs tl, fs !! 0%nat = Some (p, Seg f k rs tl)
}.

Definition tailing (fs : list (Z * FileSpec)) (t : JournalTailer) (n : nat) : Prop :=
  ∃ m, (unopened fs m (jt_reader t) ∧ n = 0%nat) ∨
       (∃ P, placed fs m (jt_reader t) n P ∧
          (jt_needsReseek t = false → jd_fd (jt_reader t) = Some (pc_path P) ∧
                                      jd_next (jt_reader t) = S (pc_i P))).

(** ** The files in front *)

Lemma records_app fs fs' : full fs → records (fs ++ fs') = records fs ++ records fs'.
Proof. intros Hf. unfold records at 1. by rewrite contents_app. Qed.

Lemma records_seg p f k rs tl : records [(p, Seg f k rs tl)] = rs.
Proof. unfold records. cbn. destruct tl; cbn; [by rewrite app_nil_r|done]. Qed.

Lemma live_front fs i : live fs → (i < length fs)%nat → full (take i fs).
Proof.
  intros Hl Hi. apply Forall_lookup. intros i' pf Hlk. apply lookup_take_Some in Hlk as [Hlk Hi'].
  apply (lv_full fs Hl i' pf Hlk). lia.
Qed.

Lemma live_lookup fs i p f :
  live fs → fs !! i = Some (p, f) → dirOf fs !! p = Some (fileBytes f) ∧ file_ok f.
Proof.
  intros Hl Hi. pose proof (dirOf_lookup fs (lv_files fs Hl)) as Ha. rewrite Forall_lookup in Ha.
  by destruct (Ha i _ Hi) as (H1 & H2 & _).
Qed.

Lemma records_upto fs i p f k rs tl :
  live fs → fs !! i = Some (p, Seg f k rs tl) →
  records (take (S i) fs) = records (take i fs) ++ rs.
Proof.
  intros Hl Hi. rewrite (take_S_r _ _ _ Hi), records_app, records_seg; [done|].
  apply live_front; [done|]. by eapply lookup_lt_Some.
Qed.

(** A segment's records are a stretch of the journal's. *)
Lemma records_split fs i p f k rs tl :
  live fs → fs !! i = Some (p, Seg f k rs tl) →
  ∃ rest, records fs = records (take i fs) ++ rs ++ rest ∧ (S i = length fs → rest = []).
Proof.
  intros Hl Hi. pose proof (lookup_lt_Some _ _ _ Hi) as Hlt.
  destruct (decide (S i = length fs)) as [He|Hne].
  - exists []. split; [|done]. rewrite app_nil_r, <- (records_upto fs i p f k rs tl Hl Hi), He.
    by rewrite take_ge.
  - exists (records (drop (S i) fs)). split; [|done].
    rewrite <- (take_drop (S i) fs) at 1. rewrite records_app by (apply live_front; [done|lia]).
    by rewrite (records_upto fs i p f k rs tl Hl Hi), <- app_assoc.
Qed.

Lemma placed_record fs m R n P r :
  live fs → placed fs m R n P → pc_rs P !! pc_j P = Some r → records fs !! n = Some r.
Proof.
  intros Hl HP Hr. destruct (records_split fs _ _ _ _ _ _ Hl (pl_file _ _ _ _ _ HP)) as (rest & -> & _).
  rewrite (pl_n _ _ _ _ _ HP), lookup_app_r by lia. rewrite Nat.add_sub_swap, Nat.sub_diag by lia.
  rewrite lookup_app_l; [done|]. by eapply lookup_lt_Some.
Qed.

Lemma consecutive_nth rs n r :
  consecutive 0 rs → rs !! n = Some r → Z.of_nat n < INT64_MAX → jr_seq r = Z.of_nat n + 1.
Proof.
  intros Hc Hr Hn. rewrite <- (take_drop_middle rs n r Hr) in Hc.
  apply consecutive_app in Hc as [Hc [Hq _]]. pose proof (lookup_lt_Some _ _ _ Hr) as Hlt.
  rewrite consecutive_last, length_take, Nat.min_l in Hq by (done || rewrite ?length_take; lia).
  rewrite Hq. s64_small. lia.
Qed.

Lemma seated_reading fs m R n P :
  live fs → seated fs m R n P →
  reading (dirOf fs) R (pc_path P) (drop (pc_j P) (pc_rs P)) (pc_tail P).
Proof.
  intros Hl [HP Hfd Hnx Hsz]. destruct (live_lookup _ _ _ _ Hl (pl_file _ _ _ _ _ HP)) as [Hd Hok].
  destruct Hok as (_ & _ & Hrs & _). split; [done| |done].
  exists (headerBytes (pc_first P) (pc_counter P) ++ recordsBytes (take (pc_j P) (pc_rs P))).
  rewrite (fileOf_Some _ _ _ Hd). cbn [fileBytes]. split.
  - rewrite <- (take_drop (pc_j P) (pc_rs P)) at 1. unfold recordsBytes.
    by rewrite fmap_app, concat_app, <- !app_assoc.
  - rewrite length_app, length_headerBytes, length_recordsBytes by by apply Forall_take.
    pose proof (pl_j _ _ _ _ _ HP). rewrite length_take, (pl_offset _ _ _ _ _ HP). lia.
Qed.

(** ** Opening *)

Definition openedAt (R : JournalReader) (fs : list (Z * FileSpec)) (nx : nat) (p f k : Z) : JournalReader :=
  mkReader (jd_segments R) nx (Some p) p (Z.of_nat (length (fileOf (dirOf fs) p))) 32 (s64 f) k (jd_lastGood R).

Lemma live_open fs R i p f k rs tl :
  live fs → jd_segments R !! i = Some p → fs !! i = Some (p, Seg f k rs tl) →
  openSegmentAtIndex (dirOf fs) R i = Some (true, openedAt R fs (jd_next R) p f k).
Proof.
  intros Hl Hs Hi. destruct (live_lookup _ _ _ _ Hl Hi) as [Hd (Hf & Hk & _)].
  rewrite (openAt_seg _ _ _ p f k rs tl) by done. unfold openedAt. by rewrite (fileOf_Some _ _ _ Hd).
Qed.

Lemma known_path (fs : list (Z * FileSpec)) m i p f :
  fs !! i = Some (p, f) → (i < m)%nat → take m fs.*1 !! i = Some p.
Proof. intros Hi Hm. rewrite lookup_take_lt by done. by rewrite list_lookup_fmap, Hi. Qed.

(** The reader between files, with [i] next. *)
Lemma openNext_live fs m R i :
  live fs → (m <= length fs)%nat → jd_segments R = take m fs.*1 → jd_next R = i → (i <= m)%nat →
  ∃ b R', openNextSegment (dirOf fs) R = Some (b, R') ∧ jd_segments R' = jd_segments R ∧
    jd_lastGood R' = jd_lastGood R ∧
    if b : bool
    then (i < m)%nat ∧ ∃ p f k rs tl, fs !! i = Some (p, Seg f k rs tl) ∧ R' = openedAt R fs (S i) p f k
    else (∀ i', (i <= i' < m)%nat → ∃ p bs, fs !! i' = Some (p, Stub bs)) ∧ jd_offset R' = jd_offset R ∧
         jd_counter R' = jd_counter R ∧ jd_fd R' = if decide (i = m) then jd_fd R else None.
Proof.
  intros Hl Hm Hs Hn Hi. unfold openNextSegment.
  assert (Hlen : length (jd_segments R) = m) by (rewrite Hs, length_take, length_fmap; lia).
  rewrite Hlen. destruct (decide (i = m)) as [->|Hne].
  { exists false, R. split; [|split; [done|split; [done|split; [lia|done]]]].
    destruct m; simpl; by rewrite Hn, Hlen, Nat.ltb_irrefl. }
  destruct m as [|m']; [lia|]. cbn [openNextLoop]. rewrite Hn, Hlen.
  assert ((i <? S m')%nat = true) as -> by (apply Nat.ltb_lt; lia).
  destruct (lookup_lt_is_Some_2 fs i) as [[p f] Hf]; [lia|].
  pose proof (known_path fs (S m') i p f Hf ltac:(lia)) as Hp. rewrite <- Hs in Hp.
  destruct f as [bs|f k rs tl].
  - destruct (live_lookup _ _ _ _ Hl Hf) as [Hd Hok]. rewrite (openAt_stub _ _ _ p bs) by done. simpl_bind.
    assert (i = m') as ->.
    { destruct (decide (S i < length fs)%nat) as [Hlt|]; [|lia].
      destruct (lv_full fs Hl i _ Hf Hlt) as (? & ? & ? & ?). done. }
    exists false. eexists. split; [|cbn [set_nextIdx jd_segments jd_lastGood jd_offset jd_counter jd_fd]].
    + destruct m'; cbn [openNextLoop set_nextIdx jd_next jd_segments]; by rewrite Hlen, Nat.ltb_irrefl.
    + split; [done|]. split; [done|]. split; [|done]. intros i' Hi'. assert (i' = m') as -> by lia. eauto.
  - rewrite (live_open fs _ i p f k rs tl) by done. simpl_bind. eexists true, _. split; [done|].
    split; [done|]. split; [done|]. split; [lia|]. exists p, f, k, rs, tl. done.
Qed.

(** ** One read *)

Definition stepped (P : Place) : Place :=
  mkPlace (pc_i P) (pc_path P) (pc_first P) (pc_counter P) (pc_rs P) (pc_tail P) (S (pc_j P)).

Lemma seated_step fs m R n P r :
  live fs → seated fs m R n P → pc_rs P !! pc_j P = Some r →
  readOneRecord (dirOf fs) R = Some (okResult r (jd_offset R), advance R r) ∧
  seated fs m (advance R r) (S n) (stepped P).
Proof.
  intros Hl HS Hr. pose proof (seated_reading _ _ _ _ _ Hl HS) as Hrd. destruct HS as [HP Hfd Hnx Hsz].
  pose proof (placed_record _ _ _ _ _ _ Hl HP Hr) as Hg.
  pose proof (lookup_lt_Some _ _ _ Hg) as Hlt. pose proof (lv_count fs Hl) as Hc.
  pose proof (consecutive_nth _ _ _ (lv_consecutive fs Hl) Hg ltac:(lia)) as Hseq.
  rewrite (drop_S _ _ _ Hr) in Hrd.
  assert (Hok : record_ok r).
  { destruct (live_lookup _ _ _ _ Hl (pl_file _ _ _ _ _ HP)) as [_ (_ & _ & Hrs & _)].
    rewrite Forall_lookup in Hrs. by eapply Hrs. }
  split.
  - rewrite (read_record _ _ _ _ _ _ Hrd Hok), (pl_last _ _ _ _ _ HP), Hseq.
    s64_small. by rewrite Z.eqb_refl.
  - destruct HP as [H1 H2 H3 H4 H5 H6 H7 H8]. split; [|done..].
    split; cbn [stepped pc_i pc_path pc_first pc_counter pc_rs pc_tail pc_j advance jd_segments jd_counter jd_offset jd_lastGood];
      try done; try lia.
    + apply lookup_lt_Some in Hr. lia.
    + rewrite H7. unfold kRecordSize, kRecordFixedSize, kCommandSize, kRecordCrcSize. lia.
Qed.

(** A call that finds everything it knows of delivered leaves the place where it
    was, or moves to the start of a newer, empty segment. *)
Definition waits (fs : list (Z * FileSpec)) (m n : nat) (x : ReadResult) (R' : JournalReader) : Prop :=
  n = length (records (take m fs)) ∧ (rr_status x = TruncatedTail ∨ rr_status x = EndOfJournal) ∧
  ∃ P', placed fs m R' n P'.

Definition delivers (fs : list (Z * FileSpec)) (m n : nat) (x : ReadResult) (R' : JournalReader) : Prop :=
  ∃ r off P', records fs !! n = Some r ∧ x = okResult r off ∧ seated fs m R' (S n) P'.

Lemma placed_end fs m R n P :
  live fs → placed fs m R n P → pc_j P = length (pc_rs P) →
  (∀ i, (pc_i P < i < m)%nat → ∃ p bs, fs !! i = Some (p, Stub bs)) → n = length (records (take m fs)).
Proof.
  intros Hl HP Hj Hst. pose proof (pl_file _ _ _ _ _ HP) as Hf. pose proof (pl_known _ _ _ _ _ HP) as Hk.
  rewrite (pl_n _ _ _ _ _ HP), Hj, <- length_app, <- (records_upto _ _ _ _ _ _ _ Hl Hf). f_equal.
  destruct (decide (S (pc_i P) = m)) as [->|Hne]; [done|].
  destruct (Hst (S (pc_i P))) as (p & bs & Hs); [lia|].
  assert (m = S (S (pc_i P))) as ->.
  { destruct (decide (S (S (pc_i P)) < length fs)%nat) as [Hlt|]; [|lia].
    by destruct (lv_full fs Hl _ _ Hs Hlt) as (? & ? & ? & ?). }
  rewrite (take_S_r _ _ _ Hs), records_app; [|apply live_front; [done|lia]].
  by rewrite app_nil_r.
Qed.

Lemma turn_live fs m :
  live fs → ∀ fuel R n P, seated fs m R n P → (m - pc_i P <= fuel)%nat →
  ∃ x R', turn fuel (dirOf fs) R = Some (x, R') ∧ (delivers fs m n x R' ∨ waits fs m n x R').
Proof.
  intros Hl. induction fuel as [|fuel IH]; intros R n P HS Hfuel; pose proof (se_placed _ _ _ _ _ HS) as HP;
    pose proof (pl_known _ _ _ _ _ HP) as Hk; [lia|].
  unfold turn. destruct (pc_rs P !! pc_j P) as [r|] eqn:Hr.
  { destruct (seated_step _ _ _ _ _ _ Hl HS Hr) as [-> HS']. simpl_bind. eexists _, _. split; [done|].
    left. exists r, (jd_offset R), (stepped P). split; [by eapply placed_record|done]. }
  apply lookup_ge_None in Hr. pose proof (pl_j _ _ _ _ _ HP).
  assert (Hj : pc_j P = length (pc_rs P)) by lia.
  pose proof (seated_reading _ _ _ _ _ Hl HS) as Hrd. rewrite drop_ge in Hrd by lia.
  destruct (live_lookup _ _ _ _ Hl (pl_file _ _ _ _ _ HP)) as [_ (_ & _ & _ & Htl)].
  destruct (decide (pc_tail P = [])) as [Et|Et].
  - rewrite Et in Hrd. rewrite (read_end _ _ _ Hrd). cbn [mbind option_bind rr_status].
    rewrite bool_decide_eq_true_2 by done. rewrite nextLoop_between by done.
    destruct (openNext_live fs m (closeCurrent R) (S (pc_i P)) Hl ltac:(lia) (pl_segments _ _ _ _ _ HP)
      (se_next _ _ _ _ _ HS) ltac:(lia)) as (b & R' & -> & Hsg & Hlg & Hb). simpl_bind. destruct b; cbn [negb].
    + destruct Hb as (Hlt & p & f & k & rs & tl & Hf & ->).
      apply (IH _ n (mkPlace (S (pc_i P)) p f k rs tl 0)); [|cbn; lia]. split; [|done..].
      split; cbn [pc_i pc_path pc_first pc_counter pc_rs pc_tail pc_j]; try done; try lia.
      * rewrite (pl_n _ _ _ _ _ HP), Hj.
        rewrite (records_upto _ _ _ _ _ _ _ Hl (pl_file _ _ _ _ _ HP)), length_app. lia.
      * apply (pl_segments _ _ _ _ _ HP).
      * apply (pl_last _ _ _ _ _ HP).
    + destruct Hb as (Hst & Ho & Hc & _). eexists _, _. split; [done|]. right.
      split; [eapply placed_end; [done|done|done|]; intros i Hi; apply Hst; lia|]. split; [by right|].
      exists P. destruct HP as [H1 H2 H3 H4 H5 H6 H7 H8]. split; try done.
      * by rewrite Hsg.
      * by rewrite Hc.
      * by rewrite Ho.
      * by rewrite Hlg.
  - rewrite (read_torn _ _ _ _ Hrd) by done. cbn [mbind option_bind torn rr_status].
    eexists _, _. split; [done|]. right. split; [|split; [by left|]].
    + eapply placed_end; [done|done|done|]. intros i Hi. exfalso.
      destruct (lv_full fs Hl _ _ (pl_file _ _ _ _ _ HP)) as (? & ? & ? & Heq); [lia|]. by simplify_eq/=.
    + exists P. by destruct R.
Qed.

Lemma next_seated fs m R n P :
  live fs → seated fs m R n P →
  ∃ x R', next (dirOf fs) R = Some (x, R') ∧ (delivers fs m n x R' ∨ waits fs m n x R').
Proof.
  intros Hl HS. unfold next. pose proof (se_placed _ _ _ _ _ HS) as HP.
  rewrite (nextLoop_inside _ _ _ _ (se_fd _ _ _ _ _ HS)). eapply turn_live; [done|done|].
  pose proof (pl_known _ _ _ _ _ HP). rewrite (pl_segments _ _ _ _ _ HP), length_take, length_fmap. lia.
Qed.

Lemma next_unopened fs m R :
  live fs → unopened fs m R →
  ∃ x R', next (dirOf fs) R = Some (x, R') ∧
    (delivers fs m 0 x R' ∨ waits fs m 0 x R' ∨
     rr_status x = EndOfJournal ∧ m = 0%nat ∧ unopened fs m R').
Proof.
  intros Hl [H1 H2 H3 H4 H5 H6 H7]. unfold next. rewrite nextLoop_between by done.
  assert (Hlen : length (jd_segments R) = m) by (rewrite H2, length_take, length_fmap; lia).
  destruct (decide (m = 0%nat)) as [->|Hm].
  { unfold openNextSegment. rewrite Hlen. simpl. rewrite H4, Hlen. simpl.
    eexists _, _. split; [done|]. right. right. split; [done|]. split; [done|]. split; auto. }
  destruct H7 as [?|(p & f & k & rs & tl & Hf)]; [done|].
  destruct (openNext_live fs m R 0 Hl H1 H2 H4 ltac:(lia)) as (b & R' & -> & Hsg & Hlg & Hb). simpl_bind.
  destruct b; cbn [negb].
  - destruct Hb as (Hlt & p' & f' & k' & rs' & tl' & Hf' & ->). rewrite Hf in Hf'. injection Hf' as <- <- <- <- <-.
    destruct (turn_live fs m Hl (S (length (jd_segments R))) (openedAt R fs 1 p f k) 0 (mkPlace 0 p f k rs tl 0))
      as (x & R' & Hx & Ha); [|cbn; lia|exists x, R'; split; [exact Hx|tauto]].
    split; [|done..]. split; cbn [pc_i pc_path pc_first pc_counter pc_rs pc_tail pc_j]; try done; lia.
  - destruct (proj1 Hb 0%nat) as (? & ? & ?); [lia|]. congruence.
Qed.

(** ** Going back to a place *)

Lemma seekLoop_live fs m i p f k rs tl off :
  live fs → fs !! i = Some (p, Seg f k rs tl) → (i < m <= length fs)%nat →
  ∀ todo idx R, jd_segments R = take m fs.*1 → (idx <= i)%nat → todo = (m - idx)%nat →
  ∃ R', seekLoop todo (dirOf fs) R idx k off
          = Some (true, set_offset (openedAt R' fs (S i) p f k) off) ∧
    jd_segments R' = jd_segments R ∧ jd_lastGood R' = jd_lastGood R.
Proof.
  intros Hl Hi Hm. induction todo as [|todo IH]; intros idx R Hs Hidx Htodo; [lia|]. cbn [seekLoop].
  destruct (lookup_lt_is_Some_2 fs idx) as [[p' f'] Hf]; [lia|].
  assert (∃ f0 k0 rs0 tl0, f' = Seg f0 k0 rs0 tl0) as (f0 & k0 & rs0 & tl0 & ->).
  { destruct (decide (idx = i)) as [->|]; [simplify_eq; eauto|].
    destruct (lv_full fs Hl idx _ Hf) as (? & ? & ? & ?); [lia|]. eauto. }
  rewrite (live_open fs R idx p' f0 k0 rs0 tl0); [|done| |done].
  2: { rewrite Hs. apply (known_path fs m idx p' _ Hf). lia. }
  cbn [mbind option_bind negb openedAt jd_counter]. destruct (k0 =? k) eqn:Ek.
  - assert (k0 = k) as -> by lia. pose proof (lv_counters fs Hl _ _ _ _ _ _ _ _ _ _ _ Hi Hf) as <-.
    rewrite Hi in Hf. injection Hf as <- <- <- <-. exists R. done.
  - assert (idx ≠ i) by (intros ->; simplify_eq; lia).
    destruct (IH (S idx) (closeCurrent (openedAt R fs (jd_next R) p' f0 k0)) Hs) as (R' & HR & Hs' & Hlg);
      [lia..|]. exists R'. done.
Qed.

Lemma seek_place fs m R n i p f k rs tl j :
  live fs → fs !! i = Some (p, Seg f k rs tl) → (i < m <= length fs)%nat → (j <= length rs)%nat →
  n = (length (records (take i fs)) + j)%nat → jd_segments R = take m fs.*1 →
  ∃ R', seekTo (dirOf fs) R k (32 + 68 * Z.of_nat j) (Z.of_nat n) = Some (true, R') ∧
    seated fs m R' n (mkPlace i p f k rs tl j).
Proof.
  intros Hl Hi Hm Hj Hn Hs. unfold seekTo. cbn [closeCurrent jd_segments].
  destruct (seekLoop_live fs m i p f k rs tl (32 + 68 * Z.of_nat j) Hl Hi Hm (length (jd_segments R)) 0
    (mkReader (jd_segments R) (jd_next R) None (jd_path R) (jd_fileSize R) (jd_offset R) (jd_firstSeq R)
       (jd_counter R) (Z.of_nat n))) as (R' & HR & Hs' & Hlg);
    [done|lia|rewrite Hs, length_take, length_fmap; lia|].
  eexists. split; [exact HR|]. split; [|done..].
  split; cbn [pc_i pc_path pc_first pc_counter pc_rs pc_tail pc_j set_offset openedAt jd_segments jd_counter jd_offset jd_lastGood];
    try done.
  by rewrite Hs'.
Qed.

Lemma seek_back fs m R n P :
  live fs → placed fs m R n P →
  ∃ b R', seekTo (dirOf fs) R (jd_counter R) (jd_offset R) (jd_lastGood R) = Some (b, R') ∧
    seated fs m R' n P.
Proof.
  intros Hl [H1 H2 H3 H4 H5 H6 H7 H8]. rewrite H6, H7, H8. exists true.
  destruct P as [i p f k rs tl j]. by apply seek_place.
Qed.

(** ** Looking for new segments *)

(** How many files have a complete header: all of them, or all but the newest. *)
Definition complete (fs : list (Z * FileSpec)) : nat :=
  match last fs with Some (_, Stub _) => pred (length fs) | _ => length fs end.

Lemma sorted_lookup l i i' x x' :
  StronglySorted Z.lt l → l !! i = Some x → l !! i' = Some x' → (i < i')%nat → x < x'.
Proof.
  intros Hs. revert i i'. induction Hs as [|y l _ IH Hy]; intros i i' Hi Hi' Hlt; [done|].
  destruct i' as [|i']; [lia|]. destruct i as [|i]; [|apply (IH i i'); [done|done|lia]].
  simpl in Hi, Hi'. injection Hi as ->. rewrite Forall_lookup in Hy. by eapply Hy.
Qed.

Lemma filter_above l c i x :
  StronglySorted Z.lt l → l !! i = Some x → filter (λ y, x < y) (take c l) = drop (S i) (take c l).
Proof.
  intros Hs Hx. rewrite <- (take_drop (S i) (take c l)) at 1. rewrite filter_app, filter_none, filter_all.
  - done.
  - apply Forall_lookup. intros i' y Hy. rewrite lookup_drop in Hy. apply lookup_take_Some in Hy as [Hy _].
    apply (sorted_lookup l i (S i + i') x y Hs Hx Hy). lia.
  - apply Forall_lookup. intros i' y Hy. apply lookup_take_Some in Hy as [Hy Hlt].
    apply lookup_take_Some in Hy as [Hy _]. destruct (decide (i' = i)) as [->|]; [simplify_eq; lia|].
    pose proof (sorted_lookup l i' i y x Hs Hy Hx). lia.
Qed.

Lemma seg_header fs p f k rs tl i :
  live fs → fs !! i = Some (p, Seg f k rs tl) →
  kSegmentHeaderSize <= Z.of_nat (length (fileOf (dirOf fs) p)).
Proof.
  intros Hl Hi. destruct (live_lookup _ _ _ _ Hl Hi) as [Hd _]. rewrite (fileOf_Some _ _ _ Hd). cbn [fileBytes].
  rewrite length_app, length_headerBytes. unfold kSegmentHeaderSize. lia.
Qed.

Lemma live_complete fs :
  live fs → filter (λ p, kSegmentHeaderSize <= Z.of_nat (length (fileOf (dirOf fs) p))) fs.*1
            = take (complete fs) fs.*1.
Proof.
  intros Hl.
  assert (Hpre : ∀ l, (∀ i pf, l !! i = Some pf → fs !! i = Some pf ∧ ∃ f k rs tl, pf.2 = Seg f k rs tl) →
    filter (λ p, kSegmentHeaderSize <= Z.of_nat (length (fileOf (dirOf fs) p))) l.*1 = l.*1).
  { intros l Hall. apply filter_all, Forall_lookup. intros i p Hp.
    apply list_lookup_fmap_Some in Hp as ([p' f'] & -> & Hp).
    destruct (Hall _ _ Hp) as (Hi & f & k & rs & tl & He). cbn in He. subst. by eapply seg_header. }
  unfold complete. destruct (last fs) as [[p f]|] eqn:El.
  2: { apply last_None in El as ->. done. }
  rewrite last_lookup in El. pose proof (lookup_lt_Some _ _ _ El) as Hlt.
  destruct f as [bs|f k rs tl].
  - rewrite <- (take_drop (pred (length fs)) fs) at 1.
    rewrite (drop_S _ _ _ El), drop_ge, fmap_app, filter_app, <- fmap_take by lia. rewrite Hpre.
    + cbn [fmap list_fmap fst]. rewrite filter_cons_False; [by rewrite filter_nil, app_nil_r|].
      destruct (live_lookup _ _ _ _ Hl El) as [Hd Hok]. rewrite (fileOf_Some _ _ _ Hd). cbn in *.
      unfold kSegmentHeaderSize. lia.
    + intros i pf Hi. apply lookup_take_Some in Hi as [Hi Hil]. split; [done|].
      destruct (lv_full fs Hl _ _ Hi) as (? & ? & ? & ?); [lia|eauto].
  - rewrite take_ge by (rewrite length_fmap; lia). apply Hpre. intros i pf Hi. split; [done|].
    pose proof (lookup_lt_Some _ _ _ Hi). destruct (decide (S i < length fs)%nat) as [Hs|Hs].
    + destruct (lv_full fs Hl _ _ Hi Hs) as (? & ? & ? & ?). eauto.
    + replace i with (pred (length fs)) in Hi by lia. simplify_eq. cbn. eauto.
Qed.

Lemma rescan_live fs m R :
  live fs → (m <= length fs)%nat → jd_segments R = take m fs.*1 →
  jd_segments (rescan (dirOf fs) R) = take (m `max` complete fs) fs.*1.
Proof.
  intros Hl Hm Hs. unfold rescan. cbn [jd_segments].
  rewrite (listSegments_dirOf fs (lv_files fs Hl)), (live_complete fs Hl), Hs.
  destruct m as [|m]; [done|].
  destruct (lookup_lt_is_Some_2 fs.*1 m) as [x Hx]; [rewrite length_fmap; lia|].
  assert (last (take (S m) fs.*1) = Some x) as ->.
  { by rewrite (take_S_r _ _ _ Hx), last_snoc. }
  rewrite (filter_above fs.*1 (complete fs) m x (proj1 (lv_files fs Hl)) Hx).
  destruct (decide (complete fs <= S m)%nat).
  - rewrite Nat.max_l by lia. rewrite drop_ge, app_nil_r; [done|]. rewrite length_take. lia.
  - rewrite Nat.max_r by lia. rewrite <- (take_drop (S m) (take (complete fs) fs.*1)) at 2.
    rewrite take_take. by rewrite Nat.min_l by lia.
Qed.

(** The newest file may lack its header; the records are all in the others. *)
Lemma records_known fs m :
  live fs → (complete fs <= m)%nat → records (take m fs) = records fs.
Proof.
  intros Hl Hc. destruct (decide (length fs <= m)%nat) as [|Hm]; [by rewrite take_ge|].
  unfold complete in Hc. destruct (last fs) as [[p f]|] eqn:El; [|lia]. destruct f as [bs|]; [|lia].
  rewrite last_lookup in El. assert (m = pred (length fs)) as -> by lia.
  transitivity (records (take (pred (length fs)) fs ++ drop (pred (length fs)) fs)); [|by rewrite take_drop].
  rewrite (drop_S _ _ _ El), drop_ge, records_app by (lia || (apply live_front; [done|lia])).
  by rewrite app_nil_r.
Qed.

Lemma complete_le fs : (complete fs <= length fs)%nat.
Proof. unfold complete. repeat case_match; lia. Qed.

Lemma complete_first fs : live fs → (0 < complete fs)%nat → ∃ p f k rs tl, fs !! 0%nat = Some (p, Seg f k rs tl).
Proof.
  intros Hl Hc. pose proof (complete_le fs). destruct (lookup_lt_is_Some_2 fs 0) as [[p f] Hf]; [lia|].
  destruct f as [bs|f k rs tl]; [|by eauto 6]. exfalso.
  destruct (decide (1 < length fs)%nat) as [H1|H1].
  - by destruct (lv_full fs Hl _ _ Hf H1) as (? & ? & ? & ?).
  - destruct fs as [|x [|y fs]]; cbn in *; [lia| |lia]. injection Hf as ->. cbn in Hc. lia.
Qed.

Lemma placed_more fs m m' R R' n P :
  placed fs m R n P → (m <= m' <= length fs)%nat → jd_segments R' = take m' fs.*1 →
  jd_counter R' = jd_counter R → jd_offset R' = jd_offset R → jd_lastGood R' = jd_lastGood R →
  placed fs m' R' n P.
Proof. intros [H1 H2 H3 H4 H5 H6 H7 H8] Hm Hs Hc Ho Hg. split; try done; try congruence. lia. Qed.

Lemma refresh_ok fs t n :
  live fs → tailing fs t n →
  ∃ m R, refresh (dirOf fs) t = Some R ∧ (jt_needsReseek t = true → (complete fs <= m)%nat) ∧
    (unopened fs m R ∧ n = 0%nat ∨ ∃ P, seated fs m R n P).
Proof.
  intros Hl (m & Ht). unfold refresh. destruct (jt_needsReseek t) eqn:En.
  - pose proof (complete_le fs) as Hc. set (m' := (m `max` complete fs)%nat).
    destruct Ht as [([H1 H2 H3 H4 H5 H6 H7] & ->)|(P & HP & _)].
    + assert (kSegmentHeaderSize <=? jd_offset (rescan (dirOf fs) (jt_reader t)) = false) as ->.
      { unfold rescan, kSegmentHeaderSize. cbn [jd_offset]. rewrite H5. done. }
      exists m', (rescan (dirOf fs) (jt_reader t)). split; [done|]. split; [lia|]. left. split; [|done].
      split; [lia|by apply rescan_live|done..|].
      destruct (decide (complete fs = 0%nat)) as [Hz|Hz]; [|right; by apply complete_first; [|lia]].
      destruct H7 as [->|H7]; [left; lia|by right].
    + assert (kSegmentHeaderSize <=? jd_offset (rescan (dirOf fs) (jt_reader t)) = true) as ->.
      { unfold rescan, kSegmentHeaderSize. cbn [jd_offset]. rewrite (pl_offset _ _ _ _ _ HP). lia. }
      pose proof (pl_known _ _ _ _ _ HP) as Hk.
      destruct (seek_back fs m' (rescan (dirOf fs) (jt_reader t)) n P Hl) as (b & R' & -> & HS).
      { eapply placed_more; [exact HP|lia|apply rescan_live; [done|lia|apply HP]|done..]. }
      simpl_bind. exists m', R'. split; [done|]. split; [lia|]. right. by exists P.
  - destruct Ht as [(Hun & ->)|(P & HP & Hfd)].
    + rewrite (un_fd _ _ _ Hun). exists m, (jt_reader t). split; [done|]. split; [done|]. by left.
    + destruct (Hfd eq_refl) as [Hf Hn]. rewrite Hf. exists m, (refreshFileSize (dirOf fs) (jt_reader t)).
      split; [done|]. split; [done|]. right. exists P. unfold refreshFileSize. rewrite Hf.
      split; [|done..]. pose proof (pl_known _ _ _ _ _ HP) as Hk.
      eapply placed_more; [exact HP|lia|apply HP|done..].
Qed.

(** ** One call *)

Definition tailRecord (x : TailResult) : JournalRecord := mkJournalRecord (tr_seq x) (tr_kind x) (tr_command x).

Definition tailOk (r : JournalRecord) : TailResult := mkTailResult TailOk (jr_seq r) (jr_kind r) (jr_command r).

Definition notYet : TailResult := mkTailResult NotYet 0 0 emptyImage.

Lemma seated_tailing fs m R n P : seated fs m R n P → tailing fs (mkTailer R false) n.
Proof. intros [HP Hf Hn _]. exists m. right. by exists P. Qed.

Lemma placed_waiting fs m R n P : placed fs m R n P → tailing fs (mkTailer R true) n.
Proof. intros HP. exists m. right. by exists P. Qed.

Lemma tailNext_ok fs t n :
  live fs → tailing fs t n →
  ∃ x t', tailNext (dirOf fs) t = Some (x, t') ∧
    ((∃ r, records fs !! n = Some r ∧ x = tailOk r ∧ tailing fs t' (S n)) ∨
     x = notYet ∧ tailing fs t' n ∧ jt_needsReseek t' = true ∧
       (jt_needsReseek t = true → n = length (records fs))).
Proof.
  intros Hl Ht. unfold tailNext. destruct (refresh_ok fs t n Hl Ht) as (m & R & -> & Hm & Hpos). simpl_bind.
  assert (Hd : ∀ x R', delivers fs m n x R' →
    ∃ r, rr_status x = ReadOk ∧ records fs !! n = Some r ∧
      mkTailResult TailOk (rr_seq x) (rr_kind x) (rr_command x) = tailOk r ∧ tailing fs (mkTailer R' false) (S n)).
  { intros x R' (r & off & P' & Hr & -> & HS). exists r. split; [done|]. split; [done|]. split; [done|].
    by eapply seated_tailing. }
  assert (Hw : ∀ x R', waits fs m n x R' →
    (rr_status x = TruncatedTail ∨ rr_status x = EndOfJournal) ∧ tailing fs (mkTailer R' true) n ∧
    (jt_needsReseek t = true → n = length (records fs))).
  { intros x R' (Hn & Hst & P' & HP). split; [done|]. split; [by eapply placed_waiting|].
    intros Hre. by rewrite Hn, (records_known fs m Hl (Hm Hre)). }
  destruct Hpos as [(Hun & ->)|(P & HS)].
  - destruct (next_unopened fs m R Hl Hun) as (x & R' & -> & [Ha|[Ha|(Hst & -> & Hun')]]); simpl_bind.
    + destruct (Hd _ _ Ha) as (r & -> & H1 & -> & H2). eexists _, _. split; [done|]. left. by exists r.
    + destruct (Hw _ _ Ha) as ([-> | ->] & H2 & H3); (eexists _, _; split; [done|]); right; done.
    + rewrite Hst. eexists _, _. split; [done|]. right. split; [done|]. split.
      { exists 0%nat. by left. }
      split; [done|]. intros Hre. by rewrite <- (records_known fs 0 Hl (Hm Hre)).
  - destruct (next_seated fs m R n P Hl HS) as (x & R' & -> & [Ha|Ha]); simpl_bind.
    + destruct (Hd _ _ Ha) as (r & -> & H1 & -> & H2). eexists _, _. split; [done|]. left. by exists r.
    + destruct (Hw _ _ Ha) as ([-> | ->] & H2 & H3); (eexists _, _; split; [done|]); right; done.
Qed.

(** ** A journal that grows *)

Lemma grows_length fs fs' : grows fs fs' → (length fs <= length fs')%nat.
Proof.
  intros Hg. destruct (decide (length fs = 0%nat)) as [|Hne]; [lia|].
  destruct (lookup_lt_is_Some_2 fs (pred (length fs))) as [[p f] Hf]; [lia|].
  destruct (Hg _ _ _ Hf) as (f' & Hf' & _). apply lookup_lt_Some in Hf'. lia.
Qed.

Lemma grows_names fs fs' m : grows fs fs' → (m <= length fs)%nat → take m fs'.*1 = take m fs.*1.
Proof.
  intros Hg Hm. apply list_eq_same_length with (n := m).
  1, 2: pose proof (grows_length _ _ Hg); rewrite length_take, length_fmap; lia.
  intros i x y Hi Hx Hy. apply lookup_take_Some in Hx as [Hx _]. apply lookup_take_Some in Hy as [Hy _].
  apply list_lookup_fmap_Some in Hx as ([p f] & -> & Hx). apply list_lookup_fmap_Some in Hy as ([q g] & -> & Hy).
  destruct (Hg _ _ _ Hy) as (f' & Hf' & _). by simplify_eq.
Qed.

(** Complete segments with a newer file behind them do not change. *)
Lemma grows_front fs fs' i :
  live fs → grows fs fs' → (i < length fs)%nat → take i fs' = take i fs.
Proof.
  intros Hl Hg Hi. pose proof (grows_length _ _ Hg). apply list_eq_same_length with (n := i).
  1, 2: rewrite length_take; lia.
  intros i' x y Hi' Hx Hy. apply lookup_take_Some in Hx as [Hx _]. apply lookup_take_Some in Hy as [Hy _].
  destruct y as [p f]. destruct (lv_full fs Hl _ _ Hy) as (f0 & k & rs & He); [lia|]. cbn in He. subst f.
  destruct (Hg _ _ _ Hy) as (f' & Hf' & more & tl' & -> & [?|[-> ->]]); [lia|].
  rewrite app_nil_r in Hf'. congruence.
Qed.

Lemma grows_seg fs fs' i p f k rs tl :
  grows fs fs' → fs !! i = Some (p, Seg f k rs tl) →
  ∃ more tl', fs' !! i = Some (p, Seg f k (rs ++ more) tl').
Proof. intros Hg Hi. destruct (Hg _ _ _ Hi) as (f' & Hf' & more & tl' & -> & _). eauto. Qed.

Lemma tailing_grows fs fs' t n : live fs → grows fs fs' → tailing fs t n → tailing fs' t n.
Proof.
  intros Hl Hg (m & Ht). pose proof (grows_length _ _ Hg) as Hlen. exists m.
  destruct Ht as [([H1 H2 H3 H4 H5 H6 H7] & ->)|(P & [H1 H2 H3 H4 H5 H6 H7 H8] & Hfd)].
  - left. split; [|done]. split; try done; [lia|by rewrite (grows_names fs fs')|].
    destruct H7 as [->|(p & f & k & rs & tl & Hf)]; [by left|]. right.
    destruct (grows_seg _ _ _ _ _ _ _ _ Hg Hf) as (more & tl' & Hf'). eauto 6.
  - right. destruct (grows_seg _ _ _ _ _ _ _ _ Hg H1) as (more & tl' & Hf').
    exists (mkPlace (pc_i P) (pc_path P) (pc_first P) (pc_counter P) (pc_rs P ++ more) tl' (pc_j P)).
    split; [|done]. split; cbn [pc_i pc_path pc_first pc_counter pc_rs pc_tail pc_j]; try done; [lia|..].
    + rewrite length_app. lia.
    + rewrite (grows_front fs fs') by (done || lia). done.
    + by rewrite (grows_names fs fs') by (done || lia).
Qed.

(** ** Starting, and starting again *)

(** The first file, if there is one, has its header: what a tailer needs to find when
    it starts. *)
Definition ready (fs : list (Z * FileSpec)) : Prop := ∀ p bs, head fs ≠ Some (p, Stub bs).

Lemma tailerNew_fresh fs cp :
  live fs → ready fs → cp_lastGoodSeq cp = 0 →
  ∃ t, tailerNew (dirOf fs) cp = Some t ∧ tailing fs t 0.
Proof.
  intros Hl Hr Hcp. unfold tailerNew, isRealCheckpoint. rewrite Hcp. eexists. split; [done|].
  exists (length fs). left. split; [|done]. unfold readerNew. cbn [jt_reader].
  rewrite (listSegments_dirOf fs (lv_files fs Hl)). split; try done.
  - by rewrite take_ge by (rewrite length_fmap; lia).
  - destruct fs as [|[p f] fs]; [by left|]. right. destruct f as [bs|f k rs tl]; [by destruct (Hr p bs)|].
    cbn. eauto 6.
Qed.

Lemma placed_pos fs m R n P : placed fs m R n P → n ≠ 0%nat → negb (jd_lastGood R =? 0) = true.
Proof. intros HP Hn. rewrite (pl_last _ _ _ _ _ HP). destruct (Z.of_nat n =? 0) eqn:E; [lia|done]. Qed.

Lemma tailerNew_checkpoint fs t n :
  live fs → ready fs → tailing fs t n →
  ∃ t', tailerNew (dirOf fs) (checkpoint t) = Some t' ∧ tailing fs t' n.
Proof.
  intros Hl Hr (m & Ht). destruct (decide (n = 0%nat)) as [->|Hn].
  { apply tailerNew_fresh; [done|done|]. cbn [checkpoint cp_lastGoodSeq].
    destruct Ht as [(Hun & _)|(P & HP & _)]; [apply Hun|apply (pl_last _ _ _ _ _ HP)]. }
  destruct Ht as [[_ ?]|(P & HP & _)]; [done|].
  unfold tailerNew, isRealCheckpoint. cbn [checkpoint cp_lastGoodSeq cp_createdCounter cp_offset].
  rewrite (placed_pos _ _ _ _ _ HP Hn). destruct HP as [H1 H2 H3 H4 H5 H6 H7 H8]. rewrite H6, H7, H8.
  destruct (seek_place fs (length fs) (readerNew (dirOf fs)) n (pc_i P) (pc_path P) (pc_first P) (pc_counter P)
    (pc_rs P) (pc_tail P) (pc_j P) Hl H1) as (R' & -> & HS); [lia|done|done| |].
  { unfold readerNew. cbn [jd_segments]. rewrite (listSegments_dirOf fs (lv_files fs Hl)).
    by rewrite take_ge by (rewrite length_fmap; lia). }
  simpl_bind. eexists. split; [done|]. by eapply seated_tailing.
Qed.

(** ** Runs *)

(** What happens to a tailer: it is asked for the next record, or its process ends and
    a new one starts from the checkpoint. *)
Inductive TailAct := Poll (d : Dir) | Resume (d : Dir).

Definition tailStep (t : JournalTailer) (a : TailAct) : option (list TailResult * JournalTailer) :=
  match a with
  | Poll d => '(x, t) ← tailNext d t; Some ([x], t)
  | Resume d => t ← tailerNew d (checkpoint t); Some ([], t)
  end.

Fixpoint tailRun (t : JournalTailer) (acts : list TailAct) : option (list TailResult * JournalTailer) :=
  match acts with
  | [] => Some ([], t)
  | a :: acts' => '(xs, t) ← tailStep t a; '(ys, t) ← tailRun t acts'; Some (xs ++ ys, t)
  end.

(** The directory an act finds is one the writer can have made of the last. *)
Inductive finds (fs : list (Z * FileSpec)) : TailAct → list (Z * FileSpec) → Prop :=
  | finds_poll fs' : grows fs fs' → live fs' → finds fs (Poll (dirOf fs')) fs'
  | finds_resume fs' : grows fs fs' → live fs' → ready fs' → finds fs (Resume (dirOf fs')) fs'.

Inductive follows : list (Z * FileSpec) → list TailAct → list (Z * FileSpec) → Prop :=
  | follows_nil fs : follows fs [] fs
  | follows_cons fs a fs' acts fs'' :
      finds fs a fs' → follows fs' acts fs'' → follows fs (a :: acts) fs''.

Lemma finds_live fs a fs' : finds fs a fs' → grows fs fs' ∧ live fs'.
Proof. by destruct 1. Qed.

Definition delivered (xs : list TailResult) : list JournalRecord :=
  tailRecord <$> filter (λ x, tr_status x = TailOk) xs.

Lemma delivered_app xs ys : delivered (xs ++ ys) = delivered xs ++ delivered ys.
Proof. unfold delivered. by rewrite filter_app, fmap_app. Qed.

(** [n] records were delivered before. *)
Lemma tailStep_ok fs a fs' t n :
  live fs → finds fs a fs' → tailing fs t n →
  ∃ xs t', tailStep t a = Some (xs, t') ∧ Forall (λ x, tr_status x ≠ TailCorrupt) xs ∧
    tailing fs' t' (n + length (delivered xs)) ∧
    delivered xs = take (length (delivered xs)) (drop n (records fs')).
Proof.
  intros Hl Hf Ht. destruct Hf as [fs' Hg Hl'|fs' Hg Hl' Hr]; pose proof (tailing_grows _ _ _ _ Hl Hg Ht) as Ht'; cbn [tailStep].
  - destruct (tailNext_ok fs' t n Hl' Ht') as (x & t' & -> & [(r & Hr & -> & Htl)|(-> & Htl & _)]); simpl_bind;
      (eexists _, t'; split; [done|]; split; [by repeat constructor|]).
    + cbn [delivered tailOk filter list_filter]. unfold delivered. rewrite filter_cons_True by done.
      rewrite filter_nil. cbn [fmap list_fmap length]. rewrite (drop_S _ _ _ Hr), Nat.add_1_r.
      split; [done|]. cbn. by destruct r.
    + unfold delivered. rewrite filter_cons_False, filter_nil by done. cbn. by rewrite Nat.add_0_r.
  - destruct (tailerNew_checkpoint fs' t n Hl' Hr Ht') as (t' & -> & Htl). simpl_bind.
    exists [], t'. split; [done|]. split; [constructor|]. cbn. by rewrite Nat.add_0_r.
Qed.

Lemma records_grow fs fs' : live fs → live fs' → grows fs fs' → records fs `prefix_of` records fs'.
Proof.
  intros Hl Hl' Hg. destruct (decide (length fs = 0%nat)) as [Hz|Hz].
  { destruct fs; [|done]. apply prefix_nil. }
  set (i := pred (length fs)). destruct (lookup_lt_is_Some_2 fs i) as [[p f] Hf]; [lia|].
  pose proof (grows_front fs fs' i Hl Hg ltac:(lia)) as Hfr. pose proof (grows_length _ _ Hg) as Hlen.
  destruct f as [bs|f k rs tl].
  - assert (records fs = records (take i fs)) as ->.
    { symmetry. apply records_known; [done|]. unfold complete. rewrite last_lookup. fold i. by rewrite Hf. }
    rewrite <- Hfr, <- (take_drop i fs') at 1. rewrite take_app_le, take_take by (rewrite length_take; lia).
    rewrite Nat.min_id. exists (records (drop i fs')).
    rewrite <- records_app by (apply live_front; [done|lia]). by rewrite take_drop.
  - destruct (grows_seg _ _ _ _ _ _ _ _ Hg Hf) as (more & tl' & Hf').
    destruct (records_split fs i _ _ _ _ _ Hl Hf) as (rest & -> & Hrest). rewrite Hrest, app_nil_r by lia.
    destruct (records_split fs' i _ _ _ _ _ Hl' Hf') as (rest' & -> & _). rewrite Hfr.
    exists (more ++ rest'). by rewrite <- !app_assoc.
Qed.

Lemma tailing_bound fs t n : live fs → tailing fs t n → (n <= length (records fs))%nat.
Proof.
  intros Hl (m & [(_ & ->)|(P & [H1 H2 H3 H4 _ _ _ _] & _)]); [lia|].
  destruct (records_split _ _ _ _ _ _ _ Hl H1) as (rest & -> & _). rewrite !length_app. lia.
Qed.

Lemma follows_live fs acts fs' : live fs → follows fs acts fs' → live fs'.
Proof. intros Hl Hf. induction Hf as [|fs a fs1 acts fs2 H _ IH]; [done|]. by apply IH, (finds_live fs a). Qed.

Lemma tailRun_ok fs acts fs' t n :
  live fs → follows fs acts fs' → tailing fs t n →
  ∃ xs t', tailRun t acts = Some (xs, t') ∧ Forall (λ x, tr_status x ≠ TailCorrupt) xs ∧
    tailing fs' t' (n + length (delivered xs)) ∧
    take n (records fs) ++ delivered xs = take (n + length (delivered xs)) (records fs').
Proof.
  intros Hl Hf. revert t n. induction Hf as [fs|fs a fs1 acts fs2 Ha Hf IH]; intros t n Ht.
  { exists [], t. split; [done|]. split; [constructor|]. cbn. by rewrite Nat.add_0_r, app_nil_r. }
  destruct (tailStep_ok fs a fs1 t n Hl Ha Ht) as (xs & t1 & Hst & Hok & Ht1 & Hd).
  apply finds_live in Ha as [Hg Hl1]. cbn [tailRun]. rewrite Hst. simpl_bind.
  destruct (IH Hl1 t1 _ Ht1) as (ys & t2 & -> & Hok' & Ht2 & Hd'). simpl_bind.
  exists (xs ++ ys), t2. split; [done|]. split; [by apply Forall_app_2|].
  rewrite delivered_app, length_app, Nat.add_assoc. split; [done|]. rewrite <- Hd', app_assoc. f_equal.
  pose proof (tailing_bound _ _ _ Hl Ht) as Hb. destruct (records_grow _ _ Hl Hl1 Hg) as (more & Hm).
  rewrite <- (take_take_drop _ n (length (delivered xs))), Hm, take_app_le by lia. f_equal.
  by rewrite Hd at 1; rewrite Hm.
Qed.

(** ** Catching up *)

(** The polls a tailer that has delivered [n] records still needs, at most. *)
Definition pollsLeft (fs : list (Z * FileSpec)) (t : JournalTailer) (n : nat) : nat :=
  2 * (length (records fs) - n) + (if jt_needsReseek t then 0 else 1).

Lemma polls_catch_up fs k t n :
  live fs → tailing fs t n → (pollsLeft fs t n <= k)%nat →
  ∃ xs t', tailRun t (replicate k (Poll (dirOf fs))) = Some (xs, t') ∧ delivered xs = drop n (records fs).
Proof.
  intros Hl. revert t n. induction k as [|k IH]; intros t n Ht Hk; unfold pollsLeft in Hk;
    pose proof (tailing_bound _ _ _ Hl Ht) as Hb.
  { exists [], t. split; [done|]. rewrite drop_ge; [done|]. lia. }
  cbn [replicate tailRun tailStep].
  destruct (tailNext_ok fs t n Hl Ht) as (x & t1 & -> & [(r & Hr & -> & Ht1)|(-> & Ht1 & Hre & Hend)]); simpl_bind.
  - pose proof (lookup_lt_Some _ _ _ Hr).
    destruct (IH t1 (S n) Ht1) as (xs & t' & -> & Hd); [unfold pollsLeft; repeat case_match; lia|]. simpl_bind.
    eexists _, t'. split; [done|]. rewrite (drop_S _ _ _ Hr), <- Hd. unfold delivered. cbn. by destruct r.
  - destruct (IH t1 n Ht1) as (xs & t' & -> & Hd).
    { unfold pollsLeft. rewrite Hre. destruct (jt_needsReseek t); [rewrite (Hend eq_refl)|]; lia. }
    simpl_bind. exists ([notYet] ++ xs), t'. done.
Qed.

(** C24: a tailer on the journal that one run of a writer writes from record 1 on
    ([live]: distinct creation counters, only the newest file incomplete; a writer that
    is restarted counts its segments from 0 again and is not covered).  If the first
    file, when there is one, has its complete header each time the tailer's process is
    started ([ready]), then whatever the writer does between the calls (partly written
    records and headers, new segments) and however often the tailer is restarted from
    its checkpoint, it delivers the journal's records, each once and in order; it never
    reports corruption; and once the writer pauses, it delivers everything within
    twice as many calls as there are records, plus one. *)
Theorem tailer_delivers_journal fs0 cp acts fs :
  live fs0 → ready fs0 → cp_lastGoodSeq cp = 0 → follows fs0 acts fs →
  ∃ t xs t', tailerNew (dirOf fs0) cp = Some t ∧ tailRun t acts = Some (xs, t') ∧
    Forall (λ x, tr_status x ≠ TailCorrupt) xs ∧ delivered xs `prefix_of` records fs ∧
    ∀ k, (2 * length (records fs) + 1 <= k)%nat →
      ∃ ys t'', tailRun t' (replicate k (Poll (dirOf fs))) = Some (ys, t'') ∧
        delivered (xs ++ ys) = records fs.
Proof.
  intros Hl Hr Hcp Hf. destruct (tailerNew_fresh fs0 cp Hl Hr Hcp) as (t & Ht & Htl).
  destruct (tailRun_ok fs0 acts fs t 0 Hl Hf Htl) as (xs & t' & Hx & Hok & Htl' & Hd).
  change (delivered xs = take (length (delivered xs)) (records fs)) in Hd.
  exists t, xs, t'. split; [done|]. split; [done|]. split; [done|]. split.
  { rewrite Hd. apply prefix_take. }
  intros k Hk. destruct (polls_catch_up fs k t' (length (delivered xs)) (follows_live _ _ _ Hl Hf) Htl')
    as (ys & t'' & Hy & Hd'); [unfold pollsLeft; case_match; lia|].
  exists ys, t''. split; [done|]. rewrite delivered_app, Hd'. rewrite Hd at 1. apply take_drop.
Qed.

(** *** A writer that starts two segments, and a tailer that is restarted *)

(** The journal after one record and part of the next, after two records and part of
    the next header, and after three records. *)
Definition oneAndSome : list (Z * FileSpec) := [(1, Seg 1 0 [buyRecord 1] (take 10 (recordBytes (buyRecord 2))))].
Definition twoAndStub : list (Z * FileSpec) :=
  [(1, Seg 1 0 [buyRecord 1; buyRecord 2] []); (3, Stub (take 10 (headerBytes 3 1)))].
Definition threeRecords : list (Z * FileSpec) :=
  [(1, Seg 1 0 [buyRecord 1; buyRecord 2] []); (3, Seg 3 1 [buyRecord 3] [])].

(** They are what a writer produces. *)
Lemma tail_dirs_written :
  (∃ w, appendRun perRecord (writerNew ∅ ∅ [IoOk; IoOk; IoOk; IoOk; IoOk; IoShort 10]) (buyRecord <$> [1; 2; 3])
          = Some (1%nat, w) ∧ jw_dir w = dirOf oneAndSome) ∧
  (∃ w, appendRun perRecord (writerNew ∅ ∅ []) (buyRecord <$> [1; 2; 3])
          = Some (3%nat, w) ∧ jw_dir w = dirOf threeRecords).
Proof.
  split.
  - destruct (appendRun perRecord (writerNew ∅ ∅ [IoOk; IoOk; IoOk; IoOk; IoOk; IoShort 10]) (buyRecord <$> [1; 2; 3]))
      as [[n w]|] eqn:E; vm_compute in E; [|done]. injection E as <- <-. eexists. split; [done|]. by vm_compute.
  - destruct (appendRun perRecord (writerNew ∅ ∅ []) (buyRecord <$> [1; 2; 3])) as [[n w]|] eqn:E;
      vm_compute in E; [|done]. injection E as <- <-. eexists. split; [done|]. by vm_compute.
Qed.

Ltac each_file :=
  repeat match goal with
         | H : ?l !! ?i = Some _ |- _ => destruct i as [|i]; simpl in H; simplify_eq
         end.

Lemma oneAndSome_live : live oneAndSome.
Proof.
  split; [|intros; each_file; simpl in *; lia|intros; by each_file|by vm_compute|by vm_compute].
  split; [repeat constructor|]. constructor; [|constructor].
  split; [done|]. split; [done|]. split; [constructor; [by apply buyRecord_ok|constructor]|].
  split; [apply Forall_take, recordBytes_bytes, buyRecord_ok; lia|]. rewrite length_take. lia.
Qed.

Lemma firstSegment_ok : file_ok (Seg 1 0 [buyRecord 1; buyRecord 2] []).
Proof. split; [done|]. split; [done|]. split; [by apply buyRecords_ok|]. split; [constructor|cbn; lia]. Qed.

Lemma twoAndStub_live : live twoAndStub.
Proof.
  split; [|intros; each_file; simpl in *; [eauto|lia]|intros; by each_file|by vm_compute|by vm_compute].
  split; [by repeat constructor|]. constructor; [exact firstSegment_ok|]. constructor; [|constructor].
  change (length (take 10 (headerBytes 3 1)) < 32)%nat. rewrite length_take. lia.
Qed.

Lemma threeRecords_live : live threeRecords.
Proof.
  split; [|intros; each_file; simpl in *; [eauto|lia]|intros; by each_file|by vm_compute|by vm_compute].
  split; [by repeat constructor|]. constructor; [exact firstSegment_ok|]. constructor; [|constructor].
  split; [done|]. split; [done|]. split; [constructor; [by apply buyRecord_ok|constructor]|].
  split; [constructor|cbn; lia].
Qed.

Lemma nothing_live : live [].
Proof. split; [by split; constructor|done|done|done|done]. Qed.

Lemma nothing_grows fs : grows [] fs.
Proof. done. Qed.

Lemma same_seg newest f k rs tl : file_grows newest (Seg f k rs tl) (Seg f k rs tl).
Proof. exists [], tl. rewrite app_nil_r. auto. Qed.

Lemma one_grows : grows oneAndSome twoAndStub.
Proof. intros i p f H. each_file. eexists. split; [done|]. exists [buyRecord 2], []. auto. Qed.

Lemma two_grows : grows twoAndStub threeRecords.
Proof. intros i p f H. each_file; (eexists; split; [done|]); [apply same_seg|done]. Qed.

Lemma two_stays : grows twoAndStub twoAndStub.
Proof. intros i p f H. each_file; (eexists; split; [done|]); [apply same_seg|done]. Qed.

(** Started on an empty directory, restarted in the middle. *)
Definition tailActs : list TailAct :=
  [Poll (dirOf oneAndSome); Poll (dirOf twoAndStub); Resume (dirOf twoAndStub); Poll (dirOf threeRecords)].

Lemma tailActs_follow : follows [] tailActs threeRecords.
Proof.
  econstructor; [apply (finds_poll _ oneAndSome), oneAndSome_live; apply nothing_grows|].
  econstructor; [apply (finds_poll _ twoAndStub), twoAndStub_live; apply one_grows|].
  econstructor; [apply (finds_resume _ twoAndStub); [apply two_stays|apply twoAndStub_live|intros ? ? [=]]|].
  econstructor; [apply (finds_poll _ threeRecords), threeRecords_live; apply two_grows|]. constructor.
Qed.

Lemma tailer_delivers_journal_witness :
  ∃ t xs t', tailerNew (dirOf []) (mkCheckpoint 0 0 0) = Some t ∧ tailRun t tailActs = Some (xs, t') ∧
    delivered xs `prefix_of` records threeRecords.
Proof.
  destruct (tailer_delivers_journal [] (mkCheckpoint 0 0 0) tailActs threeRecords) as (t & xs & t' & H1 & H2 & _ & H3 & _).
  - exact nothing_live.
  - intros p bs [=].
  - reflexivity.
  - exact tailActs_follow.
  - exists t, xs, t'. split; [exact H1|]. split; [exact H2|exact H3].
Defined.

(** ** Two ways to get stuck *)

(** The records delivered and the statuses of a number of polls. *)
Definition tailTrace (t : option JournalTailer) (acts : list TailAct) : option (list (TailStatus * Z)) :=
  t ← t; '(xs, _) ← tailRun t acts; Some (map (λ x, (tr_status x, tr_seq x)) xs).

(** A tailer that starts when the first segment's header is only partly written never
    reads that segment: the constructor lists the file, fails to open it, and
    [rescan] only adds newer names.  The next segment's first record is then a gap. *)
Definition startsOnStub : option (list (TailStatus * Z)) :=
  let stub := [(1, Stub (take 10 (headerBytes 1 0)))] in
  tailTrace (tailerNew (dirOf stub) (mkCheckpoint 0 0 0))
    [Poll (dirOf stub); Poll (dirOf oneAndSome); Poll (dirOf twoAndStub); Poll (dirOf threeRecords)].

Theorem tailer_started_on_partial_header_stalls :
  startsOnStub = Some [(NotYet, 0); (NotYet, 0); (NotYet, 0); (TailCorrupt, 3)].
Proof. vm_compute. reflexivity. Qed.

(** A writer that is restarted on a journal with a clean end counts its segments from
    0 again.  A tailer that has read record 3 in the new segment looks for counter 0
    when it next has to wait, finds the old segment, and stops with Corrupt. *)
Definition writerRestarts : option (list (TailStatus * Z)) :=
  '(_, w1) ← appendRun perRecord (writerNew ∅ ∅ []) (buyRecord <$> [1; 2]);
  found ← readAll 4 (jw_dir w1) (readerNew (jw_dir w1));
  let R := found.2 in
  let '(_, w2) := resumeJournal R (jd_lastGood R) (writerNew (jw_dir w1) (jw_synced w1) []) in
  '(_, w3) ← appendRun perRecord w2 [buyRecord 3];
  tailTrace (tailerNew (jw_dir w1) (mkCheckpoint 0 0 0))
    [Poll (jw_dir w1); Poll (jw_dir w1); Poll (jw_dir w1); Poll (jw_dir w3); Poll (jw_dir w3); Poll (jw_dir w3)].

Theorem tailer_stops_after_writer_restart :
  writerRestarts = Some [(TailOk, 1); (TailOk, 2); (NotYet, 0); (TailOk, 3); (NotYet, 0); (TailCorrupt, 2)].
Proof. vm_compute. reflexivity. Qed.
