(* ===== verification/Sequencer.v ===== *)
(** The sequencer: [sequencer/sequencer.hpp].

    [trySubmit] and [submit] are given as functions on a sequencer whose ring nobody
    else touches, and as a step relation in which the consumer of the ring may run
    between any two of their actions. *)
From stdpp Require Import gmap sorting.
From S2P Require Import Prelude Types OrderBook Wire Messages Crc32 Events SpscRing JournalFormat.
From S2P Require Import JournalWriter JournalReader JournalSpec JournalCrash JournalDurable.

Inductive Outcome := Sequenced | RingFull | DurabilityFailure.

#[export] Instance Outcome_eq_dec : EqDecision Outcome.
Proof. solve_decision. Defined.

Record TrySubmitResult := mkTrySubmitResult { ts_outcome : Outcome; ts_seq : Z }.

Record Sequencer := mkSequencer {
  sq_journal : JournalWriter;
  sq_ring : SpscRing Command;
  sq_seq : Z
}.

Section sequencer.
Context (k : Z) (Hk : 0 <= k <= 63) (c : WriterConfig) (Hc : writer_config_ok c).

(** [pad] is what the padding of the command happens to hold. *)
Definition trySubmit (q : Sequencer) (kind : CommandKind) (pad : list Z) (cmd : Command) :
    option (TrySubmitResult * Sequencer) :=
  match tryClaim k (sq_ring q) with
  | (r, None) => Some (mkTrySubmitResult RingFull 0, mkSequencer (sq_journal q) r (sq_seq q))
  | (r, Some slot) =>
      let mySeq := s64 (sq_seq q + 1) in
      '(ok, j) ← append c (sq_journal q) mySeq (kindCode kind) (imageOf pad cmd);
      if negb ok then Some (mkTrySubmitResult DurabilityFailure 0, mkSequencer j r (sq_seq q))
      else
        r ← writeSlot r slot cmd;
        Some (mkTrySubmitResult Sequenced mySeq, mkSequencer j (publish r) mySeq)
  end.

(** [while (!ring_.push(cmd)) { platform::cpuPause(); }]: before each attempt the
    consumer acts on the ring as [env] says; [None] when it still spins at the end of
    [env]. *)
Fixpoint pushLoop (env : list (SpscRing Command → SpscRing Command)) (r : SpscRing Command)
    (cmd : Command) : option (SpscRing Command) :=
  match env with
  | [] => None
  | e :: env' =>
      '(r, done) ← push k (e r) cmd;
      if (done : bool) then Some r else pushLoop env' r cmd
  end.

Definition submit (env : list (SpscRing Command → SpscRing Command)) (q : Sequencer)
    (kind : CommandKind) (pad : list Z) (cmd : Command) : option (Z * Sequencer) :=
  let mySeq := s64 (sq_seq q + 1) in
  '(ok, j) ← append c (sq_journal q) mySeq (kindCode kind) (imageOf pad cmd);
  if negb ok then Some (0, mkSequencer j (sq_ring q) (sq_seq q))
  else
    r ← pushLoop env (sq_ring q) cmd;
    Some (mySeq, mkSequencer j r mySeq).

(** ** Interleavings

    [accepts] is what the callers promise about the commands they submit. *)

Context (accepts : Command → Prop).

(** Where the producer is: outside; holding a slot in [trySubmit], before the append;
    in the loop of [submit]; about to write its slot; about to publish it. *)
Inductive Pc :=
  | PcIdle
  | PcClaimed (slot : Z) (kind : CommandKind) (cmd : Command)
  | PcSpin (cmd : Command)
  | PcWrite (slot : Z) (cmd : Command)
  | PcPublish (slot : Z) (cmd : Command).

(** Whether every append has succeeded so far; or one has failed and none has been tried
    since; or the journal was used again all the same, as [trySubmit] does when a session
    calls it. *)
Inductive Health := Sound | Failed | Reused.

#[export] Instance Health_eq_dec : EqDecision Health.
Proof. solve_decision. Defined.

Definition afterAppend (h : Health) (ok : bool) : Health :=
  match h with Sound => if ok then Sound else Failed | _ => Reused end.

(** [y_log] is what has been acknowledged by the journal, [y_sent] what has been
    published in the ring and [y_got] what has been consumed. *)
Record Sys := mkSys {
  y_journal : JournalWriter;
  y_seq : Z;
  y_ring : SpscRing Command;
  y_pc : Pc;
  y_peeked : option Z;
  y_log : list JournalRecord;
  y_sent : list Command;
  y_got : list Command;
  y_health : Health
}.

Definition claimedOf (pc : Pc) : option Z :=
  match pc with PcClaimed i _ _ | PcWrite i _ | PcPublish i _ => Some i | _ => None end.

Definition execOf (y : Sys) : Exec Command :=
  mkExec (y_ring y) (claimedOf (y_pc y)) (y_peeked y) (y_sent y) (y_got y).

(** The append of a command under its own kind, as every caller asks for it, and where
    it leaves the producer. *)
Inductive appends (y : Sys) (kind : CommandKind) (cmd : Command) (next : Pc) : Sys → Prop :=
  | appends_ok pad j : kind = cm_kind cmd → accepts cmd →
      valid_pad pad → command_i64 cmd → Z.of_nat (length (y_log y)) < kMaxRecords →
      append c (y_journal y) (s64 (y_seq y + 1)) (kindCode kind) (imageOf pad cmd) = Some (true, j) →
      appends y kind cmd next
        (mkSys j (s64 (y_seq y + 1)) (y_ring y) next (y_peeked y)
           (y_log y ++ [mkJournalRecord (s64 (y_seq y + 1)) (kindCode kind) (imageOf pad cmd)])
           (y_sent y) (y_got y) (afterAppend (y_health y) true))
  | appends_fail pad j : kind = cm_kind cmd → accepts cmd →
      valid_pad pad → command_i64 cmd → Z.of_nat (length (y_log y)) < kMaxRecords →
      append c (y_journal y) (s64 (y_seq y + 1)) (kindCode kind) (imageOf pad cmd) = Some (false, j) →
      appends y kind cmd next
        (mkSys j (y_seq y) (y_ring y) PcIdle (y_peeked y) (y_log y) (y_sent y) (y_got y) (afterAppend (y_health y) false)).

Definition set_ring (y : Sys) (r : SpscRing Command) (pc : Pc) : Sys :=
  mkSys (y_journal y) (y_seq y) r pc (y_peeked y) (y_log y) (y_sent y) (y_got y) (y_health y).

Inductive sys_step : Sys → Sys → Prop :=
  | y_tryClaim y kind cmd r o :
      y_pc y = PcIdle → tryClaim k (y_ring y) = (r, o) →
      sys_step y (set_ring y r (from_option (λ i, PcClaimed i kind cmd) PcIdle o))
  | y_tryAppend y i kind cmd y' :
      y_pc y = PcClaimed i kind cmd → appends y kind cmd (PcWrite i cmd) y' → sys_step y y'
  | y_submitAppend y kind cmd y' :
      y_pc y = PcIdle → appends y kind cmd (PcSpin cmd) y' → sys_step y y'
  | y_spin y cmd r o :
      y_pc y = PcSpin cmd → tryClaim k (y_ring y) = (r, o) →
      sys_step y (set_ring y r (from_option (λ i, PcWrite i cmd) (PcSpin cmd) o))
  | y_writeSlot y i cmd r :
      y_pc y = PcWrite i cmd → writeSlot (y_ring y) i cmd = Some r →
      sys_step y (set_ring y r (PcPublish i cmd))
  | y_publish y i cmd :
      y_pc y = PcPublish i cmd →
      sys_step y (mkSys (y_journal y) (y_seq y) (publish (y_ring y)) PcIdle (y_peeked y) (y_log y)
                    (y_sent y ++ [cmd]) (y_got y) (y_health y))
  | y_peek y r o :
      y_peeked y = None → tryPeek k (y_ring y) = (r, o) →
      sys_step y (mkSys (y_journal y) (y_seq y) r (y_pc y) o (y_log y) (y_sent y) (y_got y) (y_health y))
  | y_consume y i cmd :
      y_peeked y = Some i → readSlot (y_ring y) i = Some cmd →
      sys_step y (mkSys (y_journal y) (y_seq y) (consume (y_ring y)) (y_pc y) None (y_log y)
                    (y_sent y) (y_got y ++ [cmd]) (y_health y)).

(** The journal holds [base] already; the ring is new. *)
Definition sysNew (j : JournalWriter) (base : list JournalRecord) : Sys :=
  mkSys j (Z.of_nat (length base)) (spscNew k emptyCommand) PcIdle None base [] [] Sound.

Inductive sys_reach (j : JournalWriter) (base : list JournalRecord) : Sys → Prop :=
  | sys_init : sys_reach j base (sysNew j base)
  | sys_next y y' : sys_reach j base y → sys_step y y' → sys_reach j base y'.

(** ** The invariant *)

(** The command that is in the journal but not yet in the ring. *)
Definition inflight (pc : Pc) : list Command :=
  match pc with PcSpin cmd | PcWrite _ cmd | PcPublish _ cmd => [cmd] | _ => [] end.

Definition carries (r : JournalRecord) (cmd : Command) : Prop :=
  jr_kind r = kindCode (cm_kind cmd) ∧ ∃ pad, jr_command r = imageOf pad cmd.

(** The record of an accepted command. *)
Definition holds (r : JournalRecord) (cmd : Command) : Prop := carries r cmd ∧ accepts cmd ∧ command_i64 cmd.

(** What may happen to the process. *)
Context (worst : Fault).

(** The end of the process leaves [log] but for the records at risk, and at most one more. *)
Definition durable (j : JournalWriter) (log : list JournalRecord) : Prop :=
  ∀ d sy, stopped worst j d sy → ∃ more m, survives d (log ++ more) m ∧ (length more <= 1)%nat ∧
    (length log <= m + risk worst c)%nat ∧ consecutive 0 (log ++ more) ∧ Forall (λ r, ∃ cmd, holds r cmd) more.

Definition ready (j : JournalWriter) (log : list JournalRecord) : Prop :=
  ∃ fs hot, clean c (view worst j) fs hot (Z.of_nat (length log)) ∧ records fs ++ hotRecords hot = log.

Record sys_ok (base : list JournalRecord) (y : Sys) : Prop := {
  yk_exec : ∃ ct ch, exec_ok k (execOf y) ct ch;
  yk_cons : consecutive 0 (y_log y);
  yk_len : Z.of_nat (length (y_log y)) <= kMaxRecords;
  yk_cmds : ∃ log, y_log y = base ++ log ∧ Forall2 holds log (y_sent y ++ inflight (y_pc y));
  yk_slot i cmd : y_pc y = PcPublish i cmd → readSlot (y_ring y) i = Some cmd;
  yk_seq : y_seq y = Z.of_nat (length (y_log y));
  yk_ready : y_health y = Sound → ready (y_journal y) (y_log y);
  yk_durable : y_health y ≠ Reused → durable (y_journal y) (y_log y)
}.

Lemma ready_durable j log : ready j log → consecutive 0 log → durable j log.
Proof.
  intros (fs & hot & Hcl & Hr) Hcons d sy Hst. exists [], (length log - risk worst c)%nat.
  rewrite app_nil_r. rewrite <- Hr at 1 2. split; [by eapply stopped_survives|].
  split; [simpl; lia|]. split; [lia|done].
Qed.

Lemma record_of_command n kind pad cmd :
  valid_pad pad → command_i64 cmd → in_i64 n → record_ok (mkJournalRecord n (kindCode kind) (imageOf pad cmd)).
Proof. intros Hp Hcmd Hn. split; [by apply imageOf_valid|]. split; [apply kindCode_byte|done]. Qed.

Lemma consecutive_snoc log r :
  consecutive 0 log → Z.of_nat (length log) < INT64_MAX → jr_seq r = Z.of_nat (length log) + 1 →
  consecutive 0 (log ++ [r]).
Proof.
  intros Hcons Hl Hr. apply consecutive_app. split; [done|]. split; [|done].
  rewrite consecutive_last by (done || lia).
  s64_small. done.
Qed.

Lemma consecutive_next log r :
  consecutive 0 log → Z.of_nat (length log) < kMaxRecords → jr_seq r = s64 (Z.of_nat (length log) + 1) →
  consecutive 0 (log ++ [r]).
Proof.
  unfold kMaxRecords. intros Hcons Hl Hr. apply consecutive_snoc; [done|unfold INT64_MAX; lia|].
  rewrite Hr. apply s64_id. unfold in_i64, INT64_MIN, INT64_MAX. lia.
Qed.

(** One append from a ready journal. *)
Lemma append_ready j log kind pad cmd ok j' :
  ready j log → consecutive 0 log → Z.of_nat (length log) < kMaxRecords → valid_pad pad → command_i64 cmd →
  kind = cm_kind cmd → accepts cmd →
  let r := mkJournalRecord (s64 (Z.of_nat (length log) + 1)) (kindCode kind) (imageOf pad cmd) in
  append c j (jr_seq r) (jr_kind r) (jr_command r) = Some (ok, j') →
  if ok then ready j' (log ++ [r]) else durable j' log.
Proof using Hk Hc.
  intros (fs & hot & Hcl & Hr) Hcons Hl Hp Hcmd Hkd Hacc r Ha. unfold kMaxRecords in Hl.
  assert (Hseq : jr_seq r = Z.of_nat (length log) + 1).
  { apply s64_id. unfold in_i64, INT64_MIN, INT64_MAX. lia. }
  assert (Hcons' : consecutive 0 (log ++ [r])) by (by apply consecutive_next).
  subst log. destruct (append_view worst c j fs hot _ r Hc Hcl) as (b & w & Ha' & Hout & Hcl').
  { unfold INT64_MAX. lia. }
  { apply record_of_command; [done|done|]. apply s64_range. }
  { done. }
  rewrite Ha in Ha'. injection Ha' as <- <-. destruct ok.
  - destruct (Hcl' eq_refl) as (fs' & h' & Hc' & Hr'). exists fs', (Some h').
    split; [|done]. rewrite (length_app _ [r]). cbn [length].
    replace (Z.of_nat (_ + 1)) with (Z.of_nat (length (records fs ++ hotRecords hot)) + 1) by lia. done.
  - intros d sy Hst. exists [r]. eexists. split; [by eapply Hout|]. split; [simpl; lia|]. split; [|split; [done|]].
    + lia.
    + constructor; [|done]. exists cmd. split; [|done]. split; [by rewrite <- Hkd|by exists pad].
Qed.

Lemma sysNew_ok j base :
  ready j base → consecutive 0 base → Z.of_nat (length base) <= kMaxRecords → sys_ok base (sysNew j base).
Proof using Hk Hc.
  intros Hr Hcons Hl. split; cbn [sysNew y_log y_sent y_pc y_journal y_seq inflight]; try done.
  - exists 0, 0. by apply spsc_exec_init_ok.
  - exists []. by rewrite app_nil_r.
  - intros _. by apply ready_durable.
Qed.

Lemma appends_step base y kind cmd next y' :
  sys_ok base y → inflight (y_pc y) = [] → appends y kind cmd next y' →
  claimedOf next = claimedOf (y_pc y) → inflight next = [cmd] → (∀ i x, next ≠ PcPublish i x) →
  sys_ok base y'.
Proof using Hk Hc.
  intros [He Hcons Hl (log & Hlog & Hcmds) Hs Hseq Hrd Hdu] Hin Ha Hcl Hnx Hnp.
  rewrite Hin, app_nil_r in Hcmds.
  destruct Ha as [pad j -> Hacc Hp Hcmd Hmax Ha|pad j -> Hacc Hp Hcmd Hmax Ha]; rewrite Hseq in Ha |- *.
  - assert (Hn : y_health y = Sound → ready j (y_log y ++ [mkJournalRecord (s64 (Z.of_nat (length (y_log y)) + 1)) (kindCode (cm_kind cmd)) (imageOf pad cmd)])).
    { intros Hh. exact (append_ready _ _ _ _ _ _ _ (Hrd Hh) Hcons Hmax Hp Hcmd eq_refl Hacc Ha). }
    split; cbn [y_log y_sent y_pc y_journal y_seq y_ring y_health].
    + destruct He as (ct & ch & He). exists ct, ch. unfold execOf in *. cbn. by rewrite Hcl.
    + by apply consecutive_next.
    + rewrite length_app. cbn [length]. lia.
    + eexists. rewrite Hlog, <- app_assoc. split; [done|]. rewrite Hnx. apply Forall2_app; [done|].
      constructor; [|done]. split; [|done]. split; [done|by exists pad].
    + intros i x Hx. by destruct (Hnp i x).
    + rewrite length_app. cbn [length]. rewrite s64_id by (unfold in_i64, INT64_MIN, INT64_MAX, kMaxRecords in *; lia). lia.
    + intros Hh. apply Hn. by destruct (y_health y).
    + intros Hh. apply ready_durable; [|by apply consecutive_next]. apply Hn. by destruct (y_health y).
  - split; cbn [y_log y_sent y_pc y_journal y_seq y_ring y_health]; try done.
    + destruct (claimedOf (y_pc y)) as [i|] eqn:Ecl.
      * eapply (spsc_step_ok k Hk); [|exact He]. unfold execOf. rewrite Ecl. apply step_abandon.
      * unfold execOf in *. by rewrite Ecl in He.
    + exists log. cbn [inflight]. by rewrite app_nil_r.
    + by destruct (y_health y).
    + intros Hh. assert (y_health y = Sound) as Hs0 by (by destruct (y_health y)).
      exact (append_ready _ _ _ _ _ _ _ (Hrd Hs0) Hcons Hmax Hp Hcmd eq_refl Hacc Ha).
Qed.

(** A producer action on the ring that leaves the journal alone. *)
Lemma ring_step base y r pc :
  sys_ok base y → exec_step k (execOf y) (execOf (set_ring y r pc)) →
  inflight pc = inflight (y_pc y) → (∀ i x, pc = PcPublish i x → readSlot r i = Some x) →
  sys_ok base (set_ring y r pc).
Proof using Hk Hc.
  intros [He Hcons Hl Hcmds Hs Hseq Hrd Hdu] Hst Hin Hsl.
  split; cbn [set_ring y_log y_sent y_pc y_journal y_seq y_ring y_health]; try done.
  - by eapply (spsc_step_ok k Hk).
  - by rewrite Hin.
Qed.

Lemma tryPeek_storage (r r' : SpscRing Command) o : tryPeek k r = (r', o) → sp_storage r' = sp_storage r.
Proof. unfold tryPeek. intros H. repeat case_match; injection H as <- <-; done. Qed.

Lemma consumer_step base y r o got :
  sys_ok base y → sp_storage r = sp_storage (y_ring y) →
  exec_step k (execOf y) (mkExec r (claimedOf (y_pc y)) o (y_sent y) got) →
  sys_ok base (mkSys (y_journal y) (y_seq y) r (y_pc y) o (y_log y) (y_sent y) got (y_health y)).
Proof using Hk Hc.
  intros [He Hcons Hl Hcmds Hs Hseq Hrd Hdu] Hst Hstep. split; try done.
  - by eapply (spsc_step_ok k Hk).
  - intros i cmd Hpc. cbn [y_ring] in *. unfold readSlot. rewrite Hst. by apply Hs.
Qed.

Lemma writeSlot_read r i (cmd : Command) r' : writeSlot r i cmd = Some r' → readSlot r' i = Some cmd.
Proof.
  unfold writeSlot, readSlot. destruct (aset _ _ _) as [st|] eqn:E; [|done]. intros [= <-].
  apply aset_Some in E as [Hi ->]. by apply aget_insert_eq.
Qed.

Lemma sys_step_ok base y y' : sys_ok base y → sys_step y y' → sys_ok base y'.
Proof using Hk Hc.
  intros Hy Hst.
  destruct Hst as [y kind cmd r o Hpc Ho|y i kind cmd y' Hpc Ha|y kind cmd y' Hpc Ha|y cmd r o Hpc Ho
    |y i cmd r Hpc Hw|y i cmd Hpc|y r o Hpk Ho|y i cmd Hpk Hrd].
  - apply ring_step; [done| |by rewrite Hpc; destruct o|by destruct o].
    unfold execOf. rewrite Hpc. cbn. replace (claimedOf _) with o by (by destruct o). by apply step_claim.
  - eapply appends_step; [done|..]; try done; by rewrite Hpc.
  - eapply appends_step; [done|..]; try done; by rewrite Hpc.
  - apply ring_step; [done| |by rewrite Hpc; destruct o|by destruct o].
    unfold execOf. rewrite Hpc. cbn. replace (claimedOf _) with o by (by destruct o). by apply step_claim.
  - apply ring_step; [done| |by rewrite Hpc|].
    + unfold execOf. rewrite Hpc. cbn. by eapply step_write.
    + intros j x [= <- <-]. by eapply writeSlot_read.
  - pose proof (yk_slot _ _ Hy i cmd Hpc) as Hs. destruct Hy as [He Hcons Hl (log & Hlog & Hcmds) _ Hseq Hrd Hdu].
    split; cbn [y_log y_sent y_pc y_journal y_seq y_ring y_health inflight]; try done.
    + eapply (spsc_step_ok k Hk); [|exact He]. unfold execOf. rewrite Hpc. cbn. by apply step_publish.
    + exists log. split; [done|]. rewrite app_nil_r. by rewrite Hpc in Hcmds.
  - apply consumer_step; [done|by eapply tryPeek_storage|]. unfold execOf. rewrite Hpk. by apply step_peek.
  - apply consumer_step; [done|done|]. unfold execOf. rewrite Hpk. by apply step_consume.
Qed.

Lemma sys_reach_ok j base y :
  ready j base → consecutive 0 base → Z.of_nat (length base) <= kMaxRecords →
  sys_reach j base y → sys_ok base y.
Proof using Hk Hc.
  intros Hr Hcons Hl. induction 1 as [|y y' _ IH Hst]; [by apply sysNew_ok|by eapply sys_step_ok].
Qed.

Lemma sys_reach_log j base y : sys_reach j base y → (length base <= length (y_log y))%nat.
Proof.
  induction 1 as [|y y' _ IH Hst]; [done|]. destruct Hst; try done.
  - destruct H0; cbn [y_log]; rewrite ?length_app; lia.
  - destruct H0; cbn [y_log]; rewrite ?length_app; lia.
Qed.


(** ** Undisturbed calls *)

Definition sequencerOf (y : Sys) : Sequencer := mkSequencer (y_journal y) (y_ring y) (y_seq y).

(** What [trySubmit] answers, and what it leaves. *)
Inductive answered (y : Sys) (cmd : Command) : TrySubmitResult → Sys → Prop :=
  | answered_full y' :
      Z.of_nat (length (y_sent y)) = Z.of_nat (length (y_got y)) + Capacity k →
      y_journal y' = y_journal y → y_log y' = y_log y → y_sent y' = y_sent y → y_seq y' = y_seq y →
      y_pc y' = PcIdle → y_health y' = Sound → answered y cmd (mkTrySubmitResult RingFull 0) y'
  | answered_failed y' :
      y_log y' = y_log y → y_sent y' = y_sent y → y_seq y' = y_seq y → y_pc y' = PcIdle → y_health y' = Failed →
      answered y cmd (mkTrySubmitResult DurabilityFailure 0) y'
  | answered_sequenced y' r :
      jr_seq r = y_seq y + 1 → carries r cmd → y_log y' = y_log y ++ [r] → y_sent y' = y_sent y ++ [cmd] →
      y_seq y' = y_seq y + 1 → y_pc y' = PcIdle → y_health y' = Sound →
      answered y cmd (mkTrySubmitResult Sequenced (y_seq y + 1)) y'.

Lemma append_total y kind pad cmd :
  ready (y_journal y) (y_log y) → Z.of_nat (length (y_log y)) < kMaxRecords →
  y_seq y = Z.of_nat (length (y_log y)) → valid_pad pad → command_i64 cmd →
  ∃ ok j, append c (y_journal y) (s64 (y_seq y + 1)) (kindCode kind) (imageOf pad cmd) = Some (ok, j).
Proof using Hc.
  intros (fs & hot & Hcl & Hr) Hl Hs Hp Hcmd. unfold kMaxRecords in Hl.
  destruct (append_view worst c (y_journal y) fs hot _
    (mkJournalRecord (s64 (y_seq y + 1)) (kindCode kind) (imageOf pad cmd)) Hc Hcl) as (b & w & Ha & _).
  - unfold INT64_MAX. lia.
  - apply record_of_command; [done|done|apply s64_range].
  - rewrite <- Hs. apply s64_id. unfold in_i64, INT64_MIN, INT64_MAX. lia.
  - by exists b, w.
Qed.

Lemma claimed_slot_writes e ct ch i (cmd : Command) :
  exec_ok k e ct ch → s_claimed e = Some i → ∃ r, writeSlot (s_ring e) i cmd = Some r.
Proof using Hk.
  intros He Hi. destruct (ex_claimed _ _ _ _ He i Hi) as [-> _]. unfold writeSlot.
  rewrite aset_in; [by eexists|]. rewrite (ex_len _ _ _ _ He). by apply mod_range.
Qed.

Lemma trySubmit_runs base y kind pad cmd :
  sys_ok base y → y_pc y = PcIdle → y_health y = Sound → kind = cm_kind cmd → accepts cmd → Z.of_nat (length (y_log y)) < kMaxRecords → valid_pad pad → command_i64 cmd →
  ∃ res y', trySubmit (sequencerOf y) kind pad cmd = Some (res, sequencerOf y') ∧ rtc sys_step y y' ∧
    answered y cmd res y'.
Proof using Hk Hc.
  intros Hy Hpc Hh Hkd Hacc Hl Hp Hcmd. destruct (yk_exec _ _ Hy) as (ct & ch & He).
  pose proof (yk_seq _ _ Hy) as Hseq. pose proof (yk_ready _ _ Hy Hh) as Hrd.
  assert (Hn : s64 (y_seq y + 1) = y_seq y + 1)
    by (apply s64_id; unfold in_i64, INT64_MIN, INT64_MAX, kMaxRecords in *; lia).
  destruct (spsc_tryClaim_spec k Hk _ _ _ He) as (ct' & Hr1 & _ & Ho). cbn [execOf s_ring s_sent s_got] in Hr1, Ho.
  unfold trySubmit, sequencerOf. cbn [sq_ring sq_journal sq_seq].
  destruct (tryClaim k (y_ring y)) as [r o] eqn:Et. cbn [fst snd] in Hr1, Ho.
  pose proof (y_tryClaim y kind cmd r o Hpc Et) as Hst1. destruct o as [i|].
  2: { destruct Ho as [[_ Hfull]|[? _]]; [|done]. eexists _, (set_ring y r PcIdle).
       split; [done|]. split; [by apply rtc_once|]. by apply answered_full. }
  destruct (append_total y kind pad cmd Hrd Hl Hseq Hp Hcmd) as (ok & j & Ha). rewrite Ha. simpl_bind.
  set (y1 := set_ring y r (PcClaimed i kind cmd)) in *. cbn [from_option] in Hst1.
  pose proof (sys_step_ok base y y1 Hy Hst1) as Hy1.
  destruct ok; cbn [negb].
  - pose proof (y_tryAppend y1 i kind cmd _ eq_refl (appends_ok y1 kind cmd (PcWrite i cmd) pad j Hkd Hacc Hp Hcmd Hl Ha)) as Hst2.
    pose proof (sys_step_ok base _ _ Hy1 Hst2) as Hy2. set (y2 := mkSys _ _ _ _ _ _ _ _ _) in Hst2, Hy2.
    destruct (yk_exec _ _ Hy2) as (ct2 & ch2 & He2).
    destruct (claimed_slot_writes (execOf y2) ct2 ch2 i cmd He2 eq_refl) as (r' & Hw).
    change (writeSlot r i cmd = Some r') in Hw. rewrite Hw. simpl_bind.
    pose proof (y_writeSlot y2 i cmd r' eq_refl Hw) as Hst3.
    pose proof (y_publish (set_ring y2 r' (PcPublish i cmd)) i cmd eq_refl) as Hst4.
    eexists _, _. split; [|split; [|]].
    2: { eapply rtc_l; [exact Hst1|]. eapply rtc_l; [exact Hst2|]. eapply rtc_l; [exact Hst3|].
         eapply rtc_l; [exact Hst4|]. apply rtc_refl. }
    + cbn. by rewrite Hn.
    + apply (answered_sequenced _ _ _ (mkJournalRecord (s64 (y_seq y + 1)) (kindCode kind) (imageOf pad cmd)));
        try done; [|by cbn; rewrite Hh]. split; [by rewrite Hkd|by exists pad].
  - pose proof (y_tryAppend y1 i kind cmd _ eq_refl (appends_fail y1 kind cmd (PcWrite i cmd) pad j Hkd Hacc Hp Hcmd Hl Ha)) as Hst2.
    eexists _, _. split; [|split; [eapply rtc_l; [exact Hst1|]; eapply rtc_l; [exact Hst2|]; apply rtc_refl|]].
    + done.
    + apply answered_failed; try done. by cbn; rewrite Hh.
Qed.

Lemma sys_reach_rtc j base y y' : sys_reach j base y → rtc sys_step y y' → sys_reach j base y'.
Proof. intros Hr Hs. induction Hs as [|y1 y2 y3 H12 _ IH]; [done|]. apply IH. by eapply sys_next. Qed.

(** While no append has failed, [trySubmit] always answers.  It answers RingFull exactly when the ring is full,
    and then has changed neither the journal nor the numbering; after a durability
    failure nothing new is visible and the number is not used; otherwise the command
    has the next number in the journal and has been published in the ring.  Its
    actions are those of the step relation. *)
Theorem trySubmit_answers j base y kind pad cmd :
  ready j base → consecutive 0 base → Z.of_nat (length base) <= kMaxRecords → sys_reach j base y →
  y_pc y = PcIdle → y_health y = Sound → kind = cm_kind cmd → accepts cmd → Z.of_nat (length (y_log y)) < kMaxRecords →
  valid_pad pad → command_i64 cmd →
  ∃ res y', trySubmit (sequencerOf y) kind pad cmd = Some (res, sequencerOf y') ∧ rtc sys_step y y' ∧
    answered y cmd res y' ∧
    (ts_outcome res = RingFull ↔ Z.of_nat (length (y_sent y)) = Z.of_nat (length (y_got y)) + Capacity k).
Proof using Hk Hc.
  intros Hr Hcons Hl Hy%sys_reach_ok Hpc Hh Hkd Hacc Hlen Hp Hcmd; try done.
  destruct (trySubmit_runs base y kind pad cmd Hy Hpc Hh Hkd Hacc Hlen Hp Hcmd) as (res & y' & Ht & Hs & Ha).
  exists res, y'. split; [done|]. split; [done|]. split; [done|].
  destruct (yk_exec _ _ Hy) as (ct & ch & He).
  destruct (spsc_tryClaim_spec k Hk _ _ _ He) as (ct' & _ & Hct & Ho). cbn [execOf s_ring s_sent s_got] in Ho, Hct.
  unfold trySubmit in Ht. cbn [sequencerOf sq_ring] in Ht. destruct (tryClaim k (y_ring y)) as [r o]. cbn [snd] in Ho.
  destruct Ho as [[-> Hf]|[-> Hf]].
  - by injection Ht as <- _.
  - split; [|lia]. intros Hfull. inversion Ha; subst; cbn in *; try done; lia.
Qed.
End sequencer.

(** *** One command through a ring with two slots *)

Definition demoCommand : Command := mkCommand 42 0 150 10 7 KNew Buy Limit.
Definition noPad : list Z := [0; 0; 0; 0; 0].

Lemma noPad_ok : valid_pad noPad.
Proof. split; [|done]. repeat (constructor; [unfold is_byte; lia|]). constructor. Qed.
Lemma demoCommand_i64 : command_i64 demoCommand.
Proof. repeat split; vm_compute; discriminate. Qed.

Lemma emptyJournal_ready worst io : ready perRecord worst (writerNew ∅ ∅ io) [].
Proof. exists [], None. split; [|done]. apply writerNew_view, perRecord_ok. Qed.

Definition demoSys : Sys := sysNew 1 (writerNew ∅ ∅ []) [].

Lemma demoSys_sequenced res q :
  trySubmit 1 perRecord (sequencerOf demoSys) KNew noPad demoCommand = Some (res, q) → ts_outcome res = Sequenced.
Proof.
  assert (H : option_map (λ r, ts_outcome r.1)
    (trySubmit 1 perRecord (sequencerOf demoSys) KNew noPad demoCommand) = Some Sequenced) by (vm_compute; reflexivity).
  intros Ht. rewrite Ht in H. cbn [option_map fst] in H. by injection H.
Qed.

Lemma sequenced_sent y cmd res y' :
  answered 1 y cmd res y' → ts_outcome res = Sequenced →
  y_sent y' = y_sent y ++ [cmd] ∧ length (y_log y') = S (length (y_log y)) ∧ y_health y' = Sound.
Proof. intros [] Ho; try discriminate Ho. split; [done|]. rewrite H1, length_app. split; [simpl; lia|done]. Qed.

Lemma demoSys_ok accepts worst : sys_ok 1 perRecord accepts worst [] demoSys.
Proof. apply sysNew_ok; [lia|exact perRecord_ok|apply emptyJournal_ready|exact I|vm_compute; discriminate]. Qed.

Lemma demoSys_submits (accepts : Command → Prop) :
  accepts demoCommand →
  ∃ y, sys_reach 1 perRecord accepts (writerNew ∅ ∅ []) [] y ∧ y_sent y = [demoCommand] ∧ length (y_log y) = 1%nat ∧ y_health y = Sound.
Proof.
  intros Hacc.
  destruct (trySubmit_runs 1 ltac:(lia) perRecord perRecord_ok accepts MachineFailure [] demoSys KNew noPad demoCommand (demoSys_ok _ _)
    eq_refl eq_refl eq_refl Hacc eq_refl noPad_ok demoCommand_i64) as (res & y' & Ht & Hs & Ha).
  exists y'. split; [eapply sys_reach_rtc; [apply sys_init|exact Hs]|].
  exact (sequenced_sent _ _ _ _ Ha (demoSys_sequenced _ _ Ht)).
Qed.

Lemma trySubmit_answers_witness :
  ∃ res y', trySubmit 1 perRecord (sequencerOf demoSys) KNew noPad demoCommand = Some (res, sequencerOf y') ∧
    y_sent y' = [demoCommand].
Proof.
  destruct (trySubmit_answers 1 ltac:(lia) perRecord perRecord_ok (λ _, True) MachineFailure (writerNew ∅ ∅ []) [] demoSys
    KNew noPad demoCommand (emptyJournal_ready _ []) I ltac:(vm_compute; discriminate) (sys_init _ _ _ _ _) eq_refl eq_refl eq_refl I eq_refl
    noPad_ok demoCommand_i64) as (res & y' & Ht & Hs & Ha & _).
  exists res, y'. split; [exact Ht|]. exact (proj1 (sequenced_sent _ _ _ _ Ha (demoSys_sequenced _ _ Ht))).
Defined.

