(* ===== verification/Snapshot.v ===== *)
(** Snapshots: [sequencer/snapshot_format.hpp], [sequencer/snapshot_writer.hpp] and
    [sequencer/snapshot_reader.hpp].

    A snapshot directory holds the temporary file and, by the sequence number in
    their names, the [.snap] files.  The outcome of each system call is taken from a
    list; when it is exhausted calls succeed. *)
From stdpp Require Import gmap sorting.
From S2P Require Import Prelude Types ObjectPool PriceLevel LevelMap OrderBook AbstractBook BookRepr BookSpec BookProps BookClaims BookWalk.
From S2P Require Import Wire Messages Crc32 JournalFormat JournalWriter.

(** ** Format *)

Definition kSnapshotMagic : Z := 0x4E535856.
Definition kSnapshotVersion : Z := 1.
Definition kSnapshotHeaderSize : Z := 80.
Definition kOrderRecordSize : Z := 56.
Definition kSnapshotTrailerSize : Z := 4.

Record SnapshotHeader := mkSnapshotHeader {
  sn_magic : Z; sn_version : Z;
  sn_globalSeq : Z; sn_bookSeq : Z; sn_nextTradeId : Z;
  sn_minPrice : Z; sn_maxPrice : Z; sn_tick : Z; sn_maxOrders : Z;
  sn_stpPolicy : Z; sn_orderCount : Z
}.

Definition encodeSnapshotHeader (h : SnapshotHeader) (out : list Z) : option (list Z) :=
  out ← putU32 out 0 (sn_magic h);
  out ← putU32 out 4 (sn_version h);
  out ← putU64 out 8 (sn_globalSeq h);
  out ← putU64 out 16 (sn_bookSeq h);
  out ← putU64 out 24 (sn_nextTradeId h);
  out ← putI64 out 32 (sn_minPrice h);
  out ← putI64 out 40 (sn_maxPrice h);
  out ← putI64 out 48 (sn_tick h);
  out ← putU64 out 56 (sn_maxOrders h);
  out ← putU8 out 64 (sn_stpPolicy h);
  out ← memcpy out 65 ([0; 0; 0; 0; 0; 0; 0]);
  putU64 out 72 (sn_orderCount h).

Definition decodeSnapshotHeader (src : list Z) : option SnapshotHeader :=
  magic ← getU32 src 0;
  version ← getU32 src 4;
  globalSeq ← getU64 src 8;
  bookSeq ← getU64 src 16;
  nextTradeId ← getU64 src 24;
  minPrice ← getI64 src 32;
  maxPrice ← getI64 src 40;
  tick ← getI64 src 48;
  maxOrders ← getU64 src 56;
  stpPolicy ← getU8 src 64;
  orderCount ← getU64 src 72;
  Some (mkSnapshotHeader magic version globalSeq bookSeq nextTradeId minPrice maxPrice tick
          maxOrders stpPolicy orderCount).

Record OrderRecord := mkOrderRecord {
  or_id : Z; or_price : Z; or_quantity : Z; or_remaining : Z; or_participant : Z; or_seq : Z;
  or_side : Z
}.

Definition encodeOrderRecord (r : OrderRecord) (out : list Z) : option (list Z) :=
  out ← putI64 out 0 (or_id r);
  out ← putI64 out 8 (or_price r);
  out ← putI64 out 16 (or_quantity r);
  out ← putI64 out 24 (or_remaining r);
  out ← putI64 out 32 (or_participant r);
  out ← putI64 out 40 (or_seq r);
  out ← putU8 out 48 (or_side r);
  memcpy out 49 ([0; 0; 0; 0; 0; 0; 0]).

(** [rec.decode(src + p)] *)
Definition decodeOrderRecord (src : list Z) (p : Z) : option OrderRecord :=
  id ← getI64 src p;
  price ← getI64 src (p + 8);
  quantity ← getI64 src (p + 16);
  remaining ← getI64 src (p + 24);
  participant ← getI64 src (p + 32);
  seq ← getI64 src (p + 40);
  side ← getU8 src (p + 48);
  Some (mkOrderRecord id price quantity remaining participant seq side).

(** ** Writing *)

Definition stpCode (p : StpPolicy) : Z :=
  match p with CancelAggressor => 0 | CancelPassive => 1 | CancelBoth => 2 end.

Definition orderRecordOf (o : AOrder) : OrderRecord :=
  mkOrderRecord (ao_id o) (ao_price o) (ao_quantity o) (ao_remaining o) (ao_participant o) (ao_seq o)
    (sideCode (ao_side o)).

(** [buf.resize(off + OrderRecord::kSize); rec.encode(buf.data() + off);] *)
Definition appendOrder (buf : list Z) (o : AOrder) : option (list Z) :=
  out ← encodeOrderRecord (orderRecordOf o) (replicate (Z.to_nat kOrderRecordSize) 0);
  Some (buf ++ out).

Fixpoint appendOrders (buf : list Z) (os : list AOrder) : option (list Z) :=
  match os with
  | [] => Some buf
  | o :: os' => buf ← appendOrder buf o; appendOrders buf os'
  end.

(** The buffer [write] fills: header and body. *)
Definition snapshotBuf (b : OrderBook) (globalSeq : Z) (cfg : BookConfig) : option (list Z) :=
  os ← walkBook b;
  buf ← appendOrders (replicate (Z.to_nat kSnapshotHeaderSize) 0) os;
  encodeSnapshotHeader
    (mkSnapshotHeader kSnapshotMagic kSnapshotVersion (u64 globalSeq) (u64 (seq_ b)) (u64 (nextTradeId_ b))
       (cfg_minPrice cfg) (cfg_maxPrice cfg) (cfg_tick cfg) (u64 (cfg_maxOrders cfg)) (stpCode (cfg_stp cfg))
       (Z.of_nat (length os))) buf.

Record SnapDir := mkSnapDir { sd_tmp : option (list Z); sd_snaps : Dir }.

Definition takeIo (io : list IoResult) : IoResult * list IoResult :=
  match io with [] => (IoOk, []) | r :: io' => (r, io') end.

Definition ioOk (r : IoResult) : bool := match r with IoOk => true | _ => false end.

(** [::write]: how many bytes go out. *)
Definition wrote (r : IoResult) (bs : list Z) : nat :=
  match r with IoOk => length bs | IoFail => 0%nat | IoShort n => Nat.min n (length bs) end.

Fixpoint pruneLoop (names : list Z) (retention : Z) (d : Dir) (io : list IoResult) : Dir * list IoResult :=
  match names with
  | [] => (d, io)
  | n :: names' =>
      if retention <? Z.of_nat (length names) then
        let '(r, io) := takeIo io in
        pruneLoop names' retention (if ioOk r then delete n d else d) io
      else (d, io)
  end.

Definition prune (retention : Z) (d : Dir) (io : list IoResult) : Dir * list IoResult :=
  pruneLoop (merge_sort Z.le (map_to_list d).*1) retention d io.

Definition writeSnapshot (retention : Z) (d : SnapDir) (io : list IoResult) (b : OrderBook)
    (globalSeq : Z) (cfg : BookConfig) : option (bool * SnapDir * list IoResult) :=
  buf ← snapshotBuf b globalSeq cfg;
  crc ← crcOf buf (Z.of_nat (length buf));
  trailer ← putU32 (replicate 4 0) 0 crc;
  let '(r, io) := takeIo io in
  if negb (ioOk r) then Some (false, d, io)
  else
    let '(r1, io) := takeIo io in
    let n1 := wrote r1 buf in
    let ok := bool_decide (n1 = length buf) in
    let '(r2, io) := if ok then takeIo io else (IoFail, io) in
    let n2 := if ok then wrote r2 trailer else 0%nat in
    let ok := ok && bool_decide (n2 = length trailer) in
    let '(r3, io) := if ok then takeIo io else (IoFail, io) in
    let ok := ok && ioOk r3 in
    let tmp := take n1 buf ++ take n2 trailer in
    if negb ok then
      let '(r4, io) := takeIo io in
      Some (false, mkSnapDir (if ioOk r4 then None else Some tmp) (sd_snaps d), io)
    else
      let '(r5, io) := takeIo io in
      if negb (ioOk r5) then Some (false, mkSnapDir (Some tmp) (sd_snaps d), io)
      else
        let '(_, io) := takeIo io in
        let '(snaps, io) := prune retention (<[u64 globalSeq := tmp]> (sd_snaps d)) io in
        Some (true, mkSnapDir None snaps, io).

(** ** Loading *)

Record LoadedSnapshot := mkLoaded { ls_header : SnapshotHeader; ls_orders : list OrderRecord }.

Fixpoint decodeOrders (n : nat) (bs : list Z) (p : Z) : option (list OrderRecord) :=
  match n with
  | O => Some []
  | S n' => r ← decodeOrderRecord bs p; rs ← decodeOrders n' bs (p + kOrderRecordSize); Some (r :: rs)
  end.

Definition tryLoad (bs : list Z) : option (option LoadedSnapshot) :=
  let size := Z.of_nat (length bs) in
  if size <? kSnapshotHeaderSize + kSnapshotTrailerSize then Some None
  else
    let headerAndBodySize := size - kSnapshotTrailerSize in
    storedCrc ← getU32 bs headerAndBodySize;
    crc ← crcOf bs headerAndBodySize;
    if negb (crc =? storedCrc) then Some None
    else
      h ← decodeSnapshotHeader bs;
      if negb ((sn_magic h =? kSnapshotMagic) && (sn_version h =? kSnapshotVersion)) then Some None
      else
        let expectedBodySize := u64 (sn_orderCount h * kOrderRecordSize) in
        if negb (headerAndBodySize =? u64 (kSnapshotHeaderSize + expectedBodySize)) then Some None
        else
          os ← decodeOrders (Z.to_nat (sn_orderCount h)) bs kSnapshotHeaderSize;
          Some (Some (mkLoaded h os)).

Fixpoint loadFirst (names : list Z) (d : Dir) : option (option LoadedSnapshot) :=
  match names with
  | [] => Some None
  | n :: names' =>
      l ← tryLoad (fileOf d n);
      match l with Some s => Some (Some s) | None => loadFirst names' d end
  end.

Definition loadNewestValid (d : SnapDir) : option (option LoadedSnapshot) :=
  loadFirst (rev (merge_sort Z.le (map_to_list (sd_snaps d)).*1)) (sd_snaps d).

(** ** The bytes *)

Definition snapHeaderBytes (h : SnapshotHeader) : list Z :=
  le 4 (sn_magic h) ++ le 4 (sn_version h) ++ le 8 (sn_globalSeq h) ++ le 8 (sn_bookSeq h) ++
  le 8 (sn_nextTradeId h) ++ le 8 (u64 (sn_minPrice h)) ++ le 8 (u64 (sn_maxPrice h)) ++
  le 8 (u64 (sn_tick h)) ++ le 8 (sn_maxOrders h) ++ le 1 (sn_stpPolicy h) ++ [0; 0; 0; 0; 0; 0; 0] ++
  le 8 (sn_orderCount h).

Definition orderBytes (r : OrderRecord) : list Z :=
  le 8 (u64 (or_id r)) ++ le 8 (u64 (or_price r)) ++ le 8 (u64 (or_quantity r)) ++
  le 8 (u64 (or_remaining r)) ++ le 8 (u64 (or_participant r)) ++ le 8 (u64 (or_seq r)) ++
  le 1 (or_side r) ++ [0; 0; 0; 0; 0; 0; 0].

Record header_ok (h : SnapshotHeader) : Prop := {
  hk_magic : sn_magic h = kSnapshotMagic;
  hk_version : sn_version h = kSnapshotVersion;
  hk_globalSeq : in_u64 (sn_globalSeq h);
  hk_bookSeq : in_u64 (sn_bookSeq h);
  hk_nextTradeId : in_u64 (sn_nextTradeId h);
  hk_minPrice : in_i64 (sn_minPrice h);
  hk_maxPrice : in_i64 (sn_maxPrice h);
  hk_tick : in_i64 (sn_tick h);
  hk_maxOrders : in_u64 (sn_maxOrders h);
  hk_stpPolicy : is_byte (sn_stpPolicy h);
  hk_orderCount : in_u64 (sn_orderCount h)
}.

Record orderRecord_ok (r : OrderRecord) : Prop := {
  rk_id : in_i64 (or_id r);
  rk_price : in_i64 (or_price r);
  rk_quantity : in_i64 (or_quantity r);
  rk_remaining : in_i64 (or_remaining r);
  rk_participant : in_i64 (or_participant r);
  rk_seq : in_i64 (or_seq r);
  rk_side : is_byte (or_side r)
}.

Lemma length_snapHeaderBytes h : length (snapHeaderBytes h) = 80%nat.
Proof. unfold snapHeaderBytes. wire_len. Qed.

Lemma length_orderBytes r : length (orderBytes r) = 56%nat.
Proof. unfold orderBytes. wire_len. Qed.

Lemma zeros_bytes : bytes [0; 0; 0; 0; 0; 0; 0].
Proof. apply (Forall_replicate _ 7 0). unfold is_byte. lia. Qed.

Lemma snapHeaderBytes_bytes h : bytes (snapHeaderBytes h).
Proof. unfold snapHeaderBytes. repeat (apply Forall_app_2; [apply le_bytes || apply zeros_bytes|]). apply le_bytes. Qed.

Lemma orderBytes_bytes r : bytes (orderBytes r).
Proof. unfold orderBytes. repeat (apply Forall_app_2; [apply le_bytes|]). apply zeros_bytes. Qed.

Lemma encodeOrderRecord_ok r out :
  is_byte (or_side r) → length out = 56%nat → encodeOrderRecord r out = Some (orderBytes r).
Proof.
  intros Hs Hl. unfold encodeOrderRecord. rewrite (putI64_fill [] out) by (simpl; lia). simpl_bind.
  do 6 encode_step.
  rewrite memcpy_fill by wire_len. rewrite drop_drop, drop_ge by (cbn [length]; lia).
  rewrite app_nil_r. unfold orderBytes. by rewrite <- !app_assoc.
Qed.

Lemma encodeSnapshotHeader_ok h out body :
  is_byte (sn_stpPolicy h) → length out = 80%nat →
  encodeSnapshotHeader h (out ++ body) = Some (snapHeaderBytes h ++ body).
Proof.
  intros Hs Hl. unfold encodeSnapshotHeader.
  rewrite (putU32_fill [] (out ++ body)) by (rewrite ?length_app; simpl; lia).
  simpl_bind. do 10 encode_step. rewrite putU64_fill by wire_len. rewrite drop_drop.
  cbn [length Nat.add]. rewrite drop_app_ge by lia. rewrite Hl. cbn [Nat.sub]. rewrite drop_0.
  unfold snapHeaderBytes. by rewrite <- !app_assoc.
Qed.

Lemma decodeOrderRecord_ok r pre rest p :
  orderRecord_ok r → Z.of_nat (length pre) = p → decodeOrderRecord (pre ++ orderBytes r ++ rest) p = Some r.
Proof.
  intros [H1 H2 H3 H4 H5 H6 H7] Hp. unfold decodeOrderRecord, orderBytes.
  rewrite (getI64_skip pre _ p 0), (getI64_skip pre _ (p + 8) 8), (getI64_skip pre _ (p + 16) 16),
    (getI64_skip pre _ (p + 24) 24), (getI64_skip pre _ (p + 32) 32), (getI64_skip pre _ (p + 40) 40),
    (getU8_skip pre _ (p + 48) 48) by lia.
  rewrite <- !app_assoc. repeat read_field. by destruct r.
Qed.

Lemma decodeSnapshotHeader_ok h rest :
  header_ok h → decodeSnapshotHeader (snapHeaderBytes h ++ rest) = Some h.
Proof.
  intros [H1 H2 H3 H4 H5 H6 H7 H8 H9 H10 H11]. unfold decodeSnapshotHeader, snapHeaderBytes.
  assert (Hm : 0 <= sn_magic h < 4294967296) by (rewrite H1; unfold kSnapshotMagic; lia).
  assert (Hv : 0 <= sn_version h < 4294967296) by (rewrite H2; unfold kSnapshotVersion; lia).
  assert (Hz : length [0; 0; 0; 0; 0; 0; 0] = 7%nat) by done.
  rewrite <- !app_assoc. repeat read_field. by destruct h.
Qed.

(** ** A written file loads *)

Definition bodyBytes (rs : list OrderRecord) : list Z := concat (orderBytes <$> rs).

Lemma length_bodyBytes rs : length (bodyBytes rs) = (56 * length rs)%nat.
Proof.
  induction rs as [|r rs IH]; [done|]. change (bodyBytes (r :: rs)) with (orderBytes r ++ bodyBytes rs).
  rewrite (length_app (orderBytes r)), length_orderBytes, IH. simpl. lia.
Qed.

Lemma bodyBytes_bytes rs : bytes (bodyBytes rs).
Proof.
  induction rs as [|r rs IH]; [constructor|]. change (bodyBytes (r :: rs)) with (orderBytes r ++ bodyBytes rs).
  apply Forall_app_2; [apply orderBytes_bytes|done].
Qed.

Lemma decodeOrders_ok rs pre rest :
  Forall orderRecord_ok rs →
  decodeOrders (length rs) (pre ++ bodyBytes rs ++ rest) (Z.of_nat (length pre)) = Some rs.
Proof.
  intros Hrs. revert pre. induction Hrs as [|r rs Hr Hrs IH]; intros pre; [done|].
  cbn [decodeOrders length]. change (bodyBytes (r :: rs)) with (orderBytes r ++ bodyBytes rs).
  rewrite <- (app_assoc (orderBytes r)).
  rewrite decodeOrderRecord_ok by done. simpl_bind.
  specialize (IH (pre ++ orderBytes r)). rewrite length_app, length_orderBytes, <- app_assoc in IH.
  replace (Z.of_nat (length pre) + kOrderRecordSize) with (Z.of_nat (length pre + 56))
    by (unfold kOrderRecordSize; lia).
  by rewrite IH.
Qed.

Lemma tryLoad_ok h rs :
  header_ok h → Forall orderRecord_ok rs → sn_orderCount h = Z.of_nat (length rs) →
  Z.of_nat (length rs) < 2 ^ 57 →
  tryLoad (sealed (snapHeaderBytes h ++ bodyBytes rs)) = Some (Some (mkLoaded h rs)).
Proof.
  intros Hh Hrs Hn Hlt. set (body := snapHeaderBytes h ++ bodyBytes rs).
  assert (Hlen : Z.of_nat (length body) = 80 + 56 * Z.of_nat (length rs)).
  { unfold body. rewrite length_app, length_snapHeaderBytes, length_bodyBytes. lia. }
  assert (Hb : bytes body) by (apply Forall_app_2; [apply snapHeaderBytes_bytes|apply bodyBytes_bytes]).
  unfold tryLoad. rewrite length_sealed. unfold kSnapshotHeaderSize, kSnapshotTrailerSize.
  destruct (_ <? 80 + 4) eqn:E; [lia|].
  replace (Z.of_nat (length body + 4) - 4) with (Z.of_nat (length body)) by lia.
  pose proof (crc_word _ Hb) as Hw. change (word (crc body)) with (0 <= crc body < 4294967296) in Hw.
  assert (Hst : getU32 (sealed body) (Z.of_nat (length body)) = Some (crc body)).
  { unfold sealed. rewrite (getU32_skip body _ _ 0) by lia. rewrite <- (app_nil_r (le 4 (crc body))).
    by apply getU32_here. }
  rewrite Hst. simpl_bind. unfold sealed. rewrite crcOf_app by done. simpl_bind. rewrite Z.eqb_refl. cbn [negb].
  unfold body. rewrite <- !app_assoc, decodeSnapshotHeader_ok by done. simpl_bind.
  rewrite (hk_magic _ Hh), (hk_version _ Hh), !Z.eqb_refl. cbn [negb andb].
  rewrite Hn. unfold kOrderRecordSize.
  rewrite (u64_id (_ * 56)) by auto with velox. u64_small.
  destruct (_ =? _) eqn:E2; [|fold body in E2; lia]. cbn [negb]. rewrite Nat2Z.id.
  replace 80 with (Z.of_nat (length (snapHeaderBytes h))) by (rewrite length_snapHeaderBytes; done).
  rewrite decodeOrders_ok by done. done.
Qed.

(** ** What the writer writes *)

Lemma appendOrders_ok buf os :
  appendOrders buf os = Some (buf ++ bodyBytes (orderRecordOf <$> os)).
Proof.
  revert buf. induction os as [|o os IH]; intros buf; cbn [appendOrders]; [by rewrite app_nil_r|].
  unfold appendOrder. rewrite encodeOrderRecord_ok; [|apply sideCode_byte|done]. simpl_bind.
  rewrite IH, <- app_assoc. done.
Qed.

Definition headerOf (a : ABook) (globalSeq : Z) (cfg : BookConfig) : SnapshotHeader :=
  mkSnapshotHeader kSnapshotMagic kSnapshotVersion (u64 globalSeq) (u64 (ab_seq a)) (u64 (ab_tid a))
    (cfg_minPrice cfg) (cfg_maxPrice cfg) (cfg_tick cfg) (u64 (cfg_maxOrders cfg)) (stpCode (cfg_stp cfg))
    (Z.of_nat (length (aresting a))).

(** The file for a book. *)
Definition snapshotFile (a : ABook) (globalSeq : Z) (cfg : BookConfig) : list Z :=
  sealed (snapHeaderBytes (headerOf a globalSeq cfg) ++ bodyBytes (orderRecordOf <$> aresting a)).

Lemma snapshotBuf_ok c b a globalSeq :
  config_ok c → Repr c b a →
  snapshotBuf b globalSeq c =
    Some (snapHeaderBytes (headerOf a globalSeq c) ++ bodyBytes (orderRecordOf <$> aresting a)).
Proof.
  intros Hc HR. unfold snapshotBuf. rewrite (walkBook_ok c b a Hc HR). simpl_bind.
  rewrite appendOrders_ok. simpl_bind. destruct HR as (g & _ & _ & -> & ->).
  rewrite encodeSnapshotHeader_ok; [done| |done]. simpl. destruct (cfg_stp c); split; simpl; lia.
Qed.

(** Order fields the book does not constrain are int64_t all the same. *)
Definition order_i64 (o : AOrder) : Prop := in_i64 (ao_id o) ∧ in_i64 (ao_participant o) ∧ in_i64 (ao_seq o).
Definition book_i64 (a : ABook) : Prop := in_i64 (ab_tid a) ∧ Forall order_i64 (aresting a).

Lemma orderRecordOf_ok c s sq o : config_ok c → order_wf c s sq o → order_i64 o → orderRecord_ok (orderRecordOf o).
Proof.
  intros [] [Hs Hr Ha Hrem Hq Hsq] (H1 & H2 & H3). unfold ainRange in Hr.
  split; cbn; try done; try (unfold in_i64, INT64_MIN, INT64_MAX in *; lia). apply sideCode_byte.
Qed.

Lemma aresting_ok c a : config_ok c → wf c a → book_i64 a → Forall orderRecord_ok (orderRecordOf <$> aresting a).
Proof.
  intros Hc Hw [_ Hi]. apply Forall_fmap, Forall_forall. intros o Ho.
  rewrite Forall_forall in Hi. specialize (Hi o Ho). cbn.
  apply elem_of_app in Ho as [Ho|Ho].
  - pose proof (wf_orders _ _ Hw Buy) as H. rewrite Forall_forall in H. by eapply orderRecordOf_ok; [|apply H|].
  - pose proof (wf_orders _ _ Hw Sell) as H. rewrite Forall_forall in H. by eapply orderRecordOf_ok; [|apply H|].
Qed.

Lemma snapshotFile_loads c a globalSeq :
  config_ok c → wf c a → book_i64 a → in_i64 (cfg_tick c) → Z.of_nat (length (aresting a)) < 2 ^ 57 →
  tryLoad (snapshotFile a globalSeq c) =
    Some (Some (mkLoaded (headerOf a globalSeq c) (orderRecordOf <$> aresting a))).
Proof.
  intros Hc Hw Hi Ht Hl. apply tryLoad_ok; [|by eapply aresting_ok| |].
  - destruct Hc. split; cbn; try done; try apply u64_range;
      try (unfold in_i64, in_u64, INT64_MIN, INT64_MAX in *; lia).
    destruct (cfg_stp c); split; simpl; lia.
  - cbn. by rewrite length_fmap.
  - by rewrite length_fmap.
Qed.

(** ** Writing is atomic, and pruning keeps the newest *)

Lemma pruneLoop_keeps names retention d io m :
  1 <= retention → NoDup names → last names = Some m → (pruneLoop names retention d io).1 !! m = d !! m.
Proof.
  intros Hr. revert d io. induction names as [|n names IH]; intros d io Hnd Hl; [done|].
  cbn [pruneLoop]. destruct (retention <? _) eqn:E; [|done]. destruct names as [|n' names]; [simpl in E; lia|].
  apply NoDup_cons in Hnd as [Hn Hnd]. change (last (n' :: names) = Some m) in Hl.
  destruct (takeIo io) as [r io']. rewrite (IH _ _ Hnd Hl). destruct (ioOk r); [|done].
  apply lookup_delete_ne. intros ->. apply Hn. by apply last_Some_elem_of.
Qed.

Lemma pruneLoop_subset names retention d io : (pruneLoop names retention d io).1 ⊆ d.
Proof.
  revert d io. induction names as [|n names IH]; intros d io; [done|]. cbn [pruneLoop].
  destruct (_ <? _); [|done]. destruct (takeIo io) as [r io']. etransitivity; [apply IH|].
  destruct (ioOk r); [apply delete_subseteq|done].
Qed.

Lemma sorted_names (d : Dir) m bs :
  d !! m = Some bs → (∀ n, is_Some (d !! n) → n <= m) →
  NoDup (merge_sort Z.le (map_to_list d).*1) ∧ last (merge_sort Z.le (map_to_list d).*1) = Some m.
Proof.
  intros Hm Hmax. set (l := merge_sort Z.le (map_to_list d).*1).
  assert (Hp : l ≡ₚ (map_to_list d).*1) by apply merge_sort_Permutation.
  assert (Hin : ∀ n, n ∈ l ↔ is_Some (d !! n)).
  { intros n. rewrite Hp, list_elem_of_fmap. split.
    - intros ([n' x] & -> & Hx%elem_of_map_to_list). by exists x.
    - intros [x Hx]. exists (n, x). split; [done|]. by apply elem_of_map_to_list. }
  split; [rewrite Hp; apply NoDup_fst_map_to_list|].
  assert (Hs : StronglySorted Z.le l) by (apply StronglySorted_merge_sort; apply _).
  destruct (last l) as [x|] eqn:El.
  - f_equal. apply last_Some in El as (l' & El). rewrite El in Hs, Hin.
    assert (x <= m) by (apply Hmax, Hin; set_solver).
    assert (Hml : m ∈ l' ++ [x]) by (apply Hin; by exists bs).
    apply elem_of_app in Hml as [Hml|?]; [|set_solver].
    assert (m <= x); [|lia]. eapply (StronglySorted_app_1_elem_of Z.le l' [x]); [done|done|set_solver].
  - apply last_None in El. assert (m ∈ l) by (apply Hin; by exists bs). rewrite El in *. set_solver.
Qed.

Lemma prune_keeps retention d io m bs :
  1 <= retention → d !! m = Some bs → (∀ n, is_Some (d !! n) → n <= m) →
  (prune retention d io).1 !! m = Some bs ∧ (prune retention d io).1 ⊆ d.
Proof.
  intros Hr Hm Hmax. destruct (sorted_names d m bs Hm Hmax) as [Hnd Hl].
  split; [|apply pruneLoop_subset]. unfold prune. by rewrite (pruneLoop_keeps _ _ _ _ m).
Qed.

(** The newest file is the one that is loaded, if it is valid. *)
Lemma loadNewest_first d m bs s :
  sd_snaps d !! m = Some bs → (∀ n, is_Some (sd_snaps d !! n) → n <= m) → tryLoad bs = Some (Some s) →
  loadNewestValid d = Some (Some s).
Proof.
  intros Hm Hmax Hl. destruct (sorted_names _ m bs Hm Hmax) as [_ Hlast]. unfold loadNewestValid.
  apply last_Some in Hlast as (l & ->). rewrite rev_app_distr. cbn [rev app loadFirst].
  unfold fileOf. rewrite Hm. cbn [from_option]. unfold id. by rewrite Hl.
Qed.

Lemma crcOf_all body : bytes body → crcOf body (Z.of_nat (length body)) = Some (crc body).
Proof. intros Hb. pose proof (crcOf_app body [] _ Hb eq_refl) as H. by rewrite app_nil_r in H. Qed.

Lemma trailer_ok v : putU32 (replicate 4 0) 0 v = Some (le 4 v).
Proof. rewrite (putU32_fill [] (replicate 4 0)) by done. done. Qed.

Lemma writeSnapshot_ok c b a retention d io globalSeq :
  config_ok c → Repr c b a →
  ∃ (ok : bool) d' io', writeSnapshot retention d io b globalSeq c = Some (ok, d', io') ∧
    if ok then ∃ io1, sd_snaps d' =
      (prune retention (<[u64 globalSeq := snapshotFile a globalSeq c]> (sd_snaps d)) io1).1
    else sd_snaps d' = sd_snaps d.
Proof.
  intros Hc HR. unfold writeSnapshot. rewrite (snapshotBuf_ok c b a globalSeq Hc HR). simpl_bind.
  set (buf := snapHeaderBytes _ ++ bodyBytes _).
  assert (Hb : bytes buf) by (apply Forall_app_2; [apply snapHeaderBytes_bytes|apply bodyBytes_bytes]).
  rewrite crcOf_all by done. simpl_bind.
  rewrite trailer_ok. simpl_bind.
  destruct (takeIo io) as [r0 io0]. destruct (ioOk r0); cbn [negb]; [|by eexists _, _, _].
  destruct (takeIo io0) as [r1 io1]. case_bool_decide as E1.
  2: { cbn [andb negb]. destruct (takeIo io1) as [r4 io4]. by eexists _, _, _. }
  destruct (takeIo io1) as [r2 io2]. case_bool_decide as E2; cbn [andb].
  2: { cbn [andb negb]. destruct (takeIo io2) as [r4 io4]. by eexists _, _, _. }
  destruct (takeIo io2) as [r3 io3]. destruct (ioOk r3); cbn [negb].
  2: { destruct (takeIo io3) as [r4 io4]. by eexists _, _, _. }
  destruct (takeIo io3) as [r5 io5]. destruct (ioOk r5); cbn [negb]; [|by eexists _, _, _].
  destruct (takeIo io5) as [r6 io6]. rewrite E1, E2, !take_ge by done.
  destruct (prune _ _ io6) as [snaps io7] eqn:Ep. eexists true, _, _. split; [done|]. exists io6.
  cbn [sd_snaps]. change (snapshotFile a globalSeq c) with (buf ++ le 4 (crc buf)). by rewrite Ep.
Qed.

Lemma written_is_newest c a retention d snaps io globalSeq :
  config_ok c → in_i64 (cfg_tick c) → wf c a → book_i64 a → Z.of_nat (length (aresting a)) < 2 ^ 57 →
  1 <= retention → 0 <= globalSeq <= INT64_MAX → (∀ n, is_Some (snaps !! n) → n <= globalSeq) →
  sd_snaps d = (prune retention (<[u64 globalSeq := snapshotFile a globalSeq c]> snaps) io).1 →
  loadNewestValid d = Some (Some (mkLoaded (headerOf a globalSeq c) (orderRecordOf <$> aresting a))).
Proof.
  intros Hc Ht Hw Hi Hl Hr Hg Hmax Hd. rewrite u64_id in Hd by (unfold in_u64, INT64_MAX in *; lia).
  assert (Hle : ∀ n, is_Some (<[globalSeq := snapshotFile a globalSeq c]> snaps !! n) → n <= globalSeq).
  { intros n. destruct (decide (n = globalSeq)) as [->|Hne]; [lia|]. rewrite lookup_insert_ne by done. apply Hmax. }
  destruct (prune_keeps retention (<[globalSeq := snapshotFile a globalSeq c]> snaps) io globalSeq
    (snapshotFile a globalSeq c) Hr) as [Hk Hsub]; [by rewrite lookup_insert_eq|done|].
  rewrite <- Hd in Hk, Hsub. eapply loadNewest_first; [exact Hk| |by apply snapshotFile_loads].
  intros n [x Hx]. apply Hle. exists x. by eapply lookup_weaken.
Qed.

(** A snapshot is written as a whole or not at all, and loads as what was
    written.  Whatever the system calls return, [write] returns; if it fails, the
    newest valid snapshot is the one there was before; if it succeeds for a sequence
    number that is not behind the existing ones, the newest valid snapshot is the
    new one: the book's counters and exactly its resting orders, bids then asks in
    priority order, whatever pruning has removed. *)
Lemma snapshot_roundtrip c b retention d io globalSeq :
  config_ok c → in_i64 (cfg_tick c) → sound c b → book_i64 (abs b) →
  Z.of_nat (length (aresting (abs b))) < 2 ^ 57 →
  1 <= retention → 0 <= globalSeq <= INT64_MAX → (∀ n, is_Some (sd_snaps d !! n) → n <= globalSeq) →
  ∃ (ok : bool) d' io', writeSnapshot retention d io b globalSeq c = Some (ok, d', io') ∧
    loadNewestValid d' =
      if ok then Some (Some (mkLoaded (headerOf (abs b) globalSeq c) (orderRecordOf <$> aresting (abs b))))
      else loadNewestValid d.
Proof.
  intros Hc Ht [HR Hw] Hi Hl Hr Hg Hmax.
  destruct (writeSnapshot_ok c b (abs b) retention d io globalSeq Hc HR) as (ok & d' & io' & Hwr & Hd).
  exists ok, d', io'. split; [done|]. destruct ok; [|unfold loadNewestValid; by rewrite Hd].
  destruct Hd as (io1 & Hd). by eapply written_is_newest.
Qed.

(** *** A book with three resting orders *)

Lemma demoBook_i64 : book_i64 (abs demoBook).
Proof.
  split; [by vm_compute|]. apply Forall_forall. intros o Ho. vm_compute in Ho.
  repeat (apply list_elem_of_In in Ho; cbn in Ho). unfold order_i64, in_i64, INT64_MIN, INT64_MAX.
  destruct Ho as [<-|[<-|[<-|[]]]]; cbn; lia.
Qed.
