(* ===== verification/Recovery.v ===== *)
(** Recovery and the snapshot thread: [recovery/recovery_manager.hpp] and
    [sequencer/snapshot_thread.hpp].

    [fuel] bounds the number of journal records; one more than there are is enough. *)
From stdpp Require Import gmap sorting.
From S2P Require Import Prelude Types ObjectPool PriceLevel LevelMap OrderBook AbstractBook BookRepr BookRefine BookSpec BookProps BookClaims BookWalk.
From S2P Require Import Wire Messages Crc32 Events MatchingThread SpscRing JournalFormat JournalWriter JournalReader JournalSpec.
From S2P Require Import JournalCrash JournalDurable Sequencer Snapshot.

(** ** Applying a record *)

(** [ipc::toNewOrder(r.command)]; an enumeration byte that is no enumerator makes the
    order undefined. *)
Definition imageOrder (i : Image) (id : Z) : option NewOrder :=
  side ← sideOfByte (im_side i);
  type ← engineTypeOf (im_type i);
  Some (mkNew id (im_price i) (im_quantity i) (im_participant i) side type).

(** [Trade storage[64]; TradeBuffer trades{storage, 64, 0};] *)
Definition trades64 : TradeBuffer := Buffer.mkBuffer (replicate 64 zeroTrade) 64 0.

Definition applyRecord (b : OrderBook) (r : ReadResult) : option OrderBook :=
  match kindOf (rr_kind r) with
  | Some KNew =>
      o ← imageOrder (rr_command r) (im_id (rr_command r));
      '(b, _, _) ← OrderBook.submit b o trades64; Some b
  | Some KCancel => '(b, _) ← cancel b (im_id (rr_command r)); Some b
  | Some KReplace =>
      fresh ← imageOrder (rr_command r) (im_newId (rr_command r));
      '(b, _, _, _, _) ← replace b (im_id (rr_command r)) fresh trades64 None; Some b
  | None => Some b
  end.

(** ** RecoveryManager *)

Inductive RecoveryStatus := RecOk | RecTornTail | RecCorrupt.

Record RecoveryResult := mkRecovery {
  rc_status : RecoveryStatus;
  rc_lastSeq : Z;
  rc_hasJournalSegment : bool;
  rc_path : Z;
  rc_offset : Z;
  rc_counter : Z
}.

(** The order a snapshot record describes. *)
Definition restoredOrder (r : OrderRecord) : option NewOrder :=
  side ← sideOfByte (or_side r);
  Some (mkNew (or_id r) (or_price r) (or_quantity r) (or_participant r) side Limit).

Fixpoint restoreOrders (b : OrderBook) (rs : list OrderRecord) : option (OrderBook * bool) :=
  match rs with
  | [] => Some (b, true)
  | r :: rs' =>
      o ← restoredOrder r;
      '(b, ok) ← restoreResting b o (or_remaining r) (or_seq r);
      if negb ok then Some (b, false) else restoreOrders b rs'
  end.

Fixpoint recoverLoop (fuel : nat) (d : Dir) (reader : JournalReader) (b : OrderBook)
    (snapshotSeq lastApplied : Z) : option (RecoveryStatus * Z * OrderBook * JournalReader) :=
  match fuel with
  | O => None
  | S fuel' =>
      '(r, reader) ← next d reader;
      match rr_status r with
      | EndOfJournal => Some (RecOk, lastApplied, b, reader)
      | TruncatedTail => Some (RecTornTail, lastApplied, b, reader)
      | Corrupt => Some (RecCorrupt, lastApplied, b, reader)
      | ReadOk =>
          if rr_seq r <=? snapshotSeq then recoverLoop fuel' d reader b snapshotSeq lastApplied
          else
            b ← applyRecord b r;
            recoverLoop fuel' d reader b snapshotSeq (rr_seq r)
      end
  end.

Definition recover (fuel : nat) (journal : Dir) (snaps : SnapDir) (b : OrderBook) :
    option (RecoveryResult * OrderBook) :=
  snap ← loadNewestValid snaps;
  '(b, ok, snapshotSeq) ←
    match snap with
    | None => Some (b, true, 0)
    | Some s =>
        '(b, ok) ← restoreOrders b (ls_orders s);
        if negb ok then Some (b, false, 0)
        else Some (restoreCounters b (s64 (sn_bookSeq (ls_header s))) (s64 (sn_nextTradeId (ls_header s))),
                   true, s64 (sn_globalSeq (ls_header s)))
    end;
  if negb ok then Some (mkRecovery RecCorrupt 0 false 0 0 0, b)
  else
    '(status, lastApplied, b, reader) ← recoverLoop fuel journal (readerNew journal) b snapshotSeq snapshotSeq;
    match jd_fd reader with
    | None => Some (mkRecovery status lastApplied false 0 0 0, b)
    | Some _ => Some (mkRecovery status lastApplied true (jd_path reader) (jd_offset reader) (jd_counter reader), b)
    end.

(** ** SnapshotThread *)

Fixpoint replayLoop (fuel : nat) (d : Dir) (reader : JournalReader) (b : OrderBook) (targetSeq : Z) :
    option OrderBook :=
  match fuel with
  | O => None
  | S fuel' =>
      '(r, reader) ← next d reader;
      if negb (bool_decide (rr_status r = ReadOk)) || (targetSeq <? rr_seq r) then Some b
      else b ← applyRecord b r; replayLoop fuel' d reader b targetSeq
  end.

Definition replayUpTo (fuel : nat) (d : Dir) (b : OrderBook) (targetSeq : Z) : option OrderBook :=
  replayLoop fuel d (readerNew d) b targetSeq.

Definition snapshotNowSync (fuel : nat) (journal : Dir) (snaps : SnapDir) (io : list IoResult)
    (cfg : BookConfig) (targetSeq : Z) : option (bool * SnapDir * list IoResult) :=
  shadow ← replayUpTo fuel journal (bookNew cfg) targetSeq;
  writeSnapshot 3 snaps io shadow targetSeq cfg.

(** One turn of the thread's loop: the requested number, the last one done and how
    many snapshots have been written. *)
Definition snapshotTurn (fuel : nat) (journal : Dir) (snaps : SnapDir) (io : list IoResult)
    (cfg : BookConfig) (target lastDone written : Z) : option (Z * Z * SnapDir * list IoResult) :=
  if lastDone <? target then
    '(ok, snaps, io) ← snapshotNowSync fuel journal snaps io cfg target;
    if (ok : bool) then Some (target, u64 (written + 1), snaps, io) else Some (lastDone, written, snaps, io)
  else Some (lastDone, written, snaps, io).

(** ** What replaying does *)

(** The contract: the commands' effect on the abstract book. *)
Definition areplay (c : BookConfig) (a : ABook) (cmds : list Command) : ABook :=
  foldl (λ a cmd, ans_book (aanswer c a cmd)) a cmds.

Lemma areplay_arun c q a cmds : (arun c q a cmds).1 = areplay c a cmds.
Proof. revert q a. induction cmds as [|cmd cmds IH]; intros q a; [done|]. cbn [arun fst areplay foldl]. apply IH. Qed.

Lemma answer_wf c a cmd :
  wf c a → ab_seq a < INT64_MAX → valid_command c cmd → wf c (ans_book (aanswer c a cmd)).
Proof.
  intros Hw Hs Hv. unfold aanswer, valid_command in *. destruct (cm_kind cmd); cbn [ans_book].
  - by apply asubmit_wf.
  - by apply acancel_wf.
  - by apply areplace_wf.
Qed.

Lemma imageOrder_of pad cmd id :
  imageOrder (imageOf pad cmd) id
    = Some (mkNew id (cm_price cmd) (cm_quantity cmd) (cm_participant cmd) (cm_side cmd) (cm_type cmd)).
Proof. unfold imageOrder, imageOf. cbn. by rewrite sideOfByte_code, engineTypeOf_code. Qed.

Lemma applyRecord_ok c b a x cmd :
  config_ok c → Repr c b a → carries (recordOf x) cmd → valid_command c cmd →
  ∃ b', applyRecord b x = Some b' ∧ Repr c b' (ans_book (aanswer c a cmd)).
Proof.
  intros Hc HR [Hk (pad & Hi)] Hv. cbn in Hk, Hi. unfold applyRecord. rewrite Hk, Hi, kindOf_code.
  unfold valid_command, aanswer in *. destruct (cm_kind cmd) eqn:Ek; cbn [ans_book].
  - rewrite imageOrder_of. cbn [mbind option_bind im_id imageOf].
    destruct (submitEx_ok c b a (toNewOrder cmd) trades64 None Hc HR (vn_aligned _ _ Hv)) as (b' & Hs & HR' & _).
    exists b'. unfold OrderBook.submit. fold (toNewOrder cmd). by rewrite Hs.
  - cbn [im_id imageOf]. destruct (cancel_ok c b a (cm_id cmd) Hc HR) as (b' & -> & HR'). by exists b'.
  - rewrite imageOrder_of. cbn [mbind option_bind im_id im_newId imageOf].
    destruct (replace_ok c b a (cm_id cmd) (toFreshOrder cmd) trades64 None Hc HR (vn_aligned _ _ Hv)) as (b' & Hs & HR').
    exists b'. fold (toFreshOrder cmd). by rewrite Hs.
Qed.

Fixpoint applyAll (b : OrderBook) (xs : list ReadResult) : option OrderBook :=
  match xs with [] => Some b | x :: xs' => b ← applyRecord b x; applyAll b xs' end.

Lemma applyAll_ok c b a xs cmds :
  config_ok c → Repr c b a → wf c a → Forall2 carries (recordOf <$> xs) cmds → Forall (valid_command c) cmds →
  ab_seq a + Z.of_nat (length cmds) <= INT64_MAX →
  ∃ b', applyAll b xs = Some b' ∧ Repr c b' (areplay c a cmds) ∧ wf c (areplay c a cmds).
Proof.
  intros Hc. revert b a cmds. induction xs as [|x xs IH]; intros b a cmds HR Hw Hcar Hv Hs.
  { apply Forall2_nil_inv_l in Hcar as ->. by exists b. }
  apply Forall2_cons_inv_l in Hcar as (cmd & cmds' & Hx & Hcar & ->). apply Forall_cons in Hv as [Hv Hvs].
  cbn [applyAll areplay foldl length] in *.
  destruct (applyRecord_ok c b a x cmd Hc HR Hx Hv) as (b1 & -> & HR1). simpl_bind.
  pose proof (answer_seq c a cmd Hw) as Has.
  apply (IH b1 _ cmds' HR1); [by apply answer_wf; [|lia|]|done|done|lia].
Qed.

(** ** The loops, in terms of what the reader delivers *)

Definition recStatus (s : ReadStatus) : RecoveryStatus :=
  match s with TruncatedTail => RecTornTail | Corrupt => RecCorrupt | _ => RecOk end.

Lemma recoverLoop_reads fuel d R b ss la xs x R' b' :
  readAll fuel d R = Some (xs, x, R') → applyAll b (filter (λ x, ss < rr_seq x) xs) = Some b' →
  recoverLoop fuel d R b ss la =
    Some (recStatus (rr_status x), from_option rr_seq la (last (filter (λ x, ss < rr_seq x) xs)), b', R').
Proof.
  revert R b la xs. induction fuel as [|fuel IH]; intros R b la xs Hr Ha; [done|].
  cbn [readAll recoverLoop] in *. destruct (next d R) as [[y R1]|]; [|done]. cbn [mbind option_bind] in *.
  case_bool_decide as Eok.
  - destruct (readAll fuel d R1) as [[[ys y'] R2]|] eqn:Er; [|done]. injection Hr as <- <- <-.
    rewrite Eok. rewrite filter_cons in Ha |- *. destruct (decide (ss < rr_seq y)) as [Hlt|Hge].
    + destruct (_ <=? ss) eqn:E; [lia|]. cbn [applyAll] in Ha. destruct (applyRecord b y) as [b1|]; [|done].
      cbn [mbind option_bind] in *. rewrite (IH _ _ (rr_seq y) _ Er Ha). f_equal. f_equal. f_equal. f_equal.
      rewrite last_cons. by destruct (last _).
    + destruct (_ <=? ss) eqn:E; [|lia]. by apply IH.
  - injection Hr as <- <- <-. cbn in Ha. injection Ha as <-. by destruct (rr_status y).
Qed.

Lemma replayLoop_reads fuel d R b t ys zs x R' b' :
  readAll fuel d R = Some (ys ++ zs, x, R') → Forall (λ x, rr_seq x <= t) ys → Forall (λ x, t < rr_seq x) zs →
  applyAll b ys = Some b' → replayLoop fuel d R b t = Some b'.
Proof.
  revert R b ys. induction fuel as [|fuel IH]; intros R b ys Hr Hy Hz Ha; [done|].
  cbn [readAll replayLoop] in *. destruct (next d R) as [[y R1]|]; [|done]. cbn [mbind option_bind] in *.
  case_bool_decide as Eok; cbn [negb orb].
  - destruct (readAll fuel d R1) as [[[xs y'] R2]|] eqn:Er; [|done]. injection Hr as Hx <- <-.
    destruct ys as [|y0 ys].
    + destruct zs as [|z zs]; [done|]. injection Hx as -> ->. apply Forall_cons in Hz as [Hz _].
      destruct (t <? rr_seq z) eqn:E; [|lia]. by injection Ha as <-.
    + injection Hx as -> ->. apply Forall_cons in Hy as [Hy Hys]. destruct (t <? rr_seq y0) eqn:E; [lia|].
      cbn [applyAll] in Ha. destruct (applyRecord b y0) as [b1|]; [|done]. cbn [mbind option_bind] in *.
      by eapply IH.
  - injection Hr as Hn <- <-. symmetry in Hn. apply app_eq_nil in Hn as [-> ->]. by injection Ha as <-.
Qed.

(** Record [i] has number [i + 1]. *)
Lemma consecutive_parts s xs n :
  consecutive s (recordOf <$> xs) → 0 <= s → s + Z.of_nat (length xs) <= INT64_MAX →
  Forall (λ x, rr_seq x <= s + Z.of_nat n) (take n xs) ∧ Forall (λ x, s + Z.of_nat n < rr_seq x) (drop n xs) ∧
  ((n < length xs)%nat → from_option rr_seq (s + Z.of_nat n) (last (drop n xs)) = s + Z.of_nat (length xs)).
Proof.
  revert s n. induction xs as [|x xs IH]; intros s n Hc Hs Hl.
  { destruct n; split; try constructor; try done; simpl; intros; lia. }
  destruct Hc as [Hx Hc]. cbn [length recordOf jr_seq] in *.
  rewrite s64_id in Hx by (unfold in_i64, INT64_MIN, INT64_MAX in *; lia). rewrite Hx in Hc.
  destruct n as [|n].
  - destruct (IH (s + 1) 0%nat Hc) as (_ & H2 & H3); [lia|lia|]. cbn [take drop] in *. split; [constructor|]. split.
    + constructor; [lia|]. eapply Forall_impl; [exact H2|]. simpl. lia.
    + intros _. rewrite last_cons. destruct xs as [|x' xs]; [cbn; lia|].
      destruct (last (x' :: xs)) as [z|] eqn:El; [|by apply last_None in El].
      specialize (H3 ltac:(simpl; lia)). rewrite drop_0, El in H3. cbn [from_option] in *. lia.
  - destruct (IH (s + 1) n Hc) as (H1 & H2 & H3); [lia|lia|]. cbn [take drop]. split; [|split].
    + constructor; [lia|]. eapply Forall_impl; [exact H1|]. simpl. lia.
    + eapply Forall_impl; [exact H2|]. simpl. lia.
    + intros Hn. replace (s + Z.of_nat (S n)) with (s + 1 + Z.of_nat n) by lia. rewrite H3 by lia. lia.
Qed.

Lemma filter_after xs n :
  consecutive 0 (recordOf <$> xs) → Z.of_nat (length xs) <= INT64_MAX →
  filter (λ x, Z.of_nat n < rr_seq x) xs = drop n xs.
Proof.
  intros Hc Hl. destruct (consecutive_parts 0 xs n Hc) as (H1 & H2 & _); [lia|lia|]. simpl in H1, H2.
  rewrite <- (take_drop n xs) at 1. rewrite filter_app, (filter_all _ (drop n xs)) by done.
  assert (filter (λ x, Z.of_nat n < rr_seq x) (take n xs) = []) as ->; [|done].
  clear -H1. induction H1 as [|x l Hx _ IH]; [done|]. rewrite filter_cons. destruct (decide _); [lia|done].
Qed.

(** ** Restoring a snapshot *)

Lemma arest_last s o os : Forall (λ x, before s x o) os → arest s o os = os ++ [o].
Proof.
  induction 1 as [|x os Hx _ IH]; [done|]. cbn [arest].
  assert (noWorse s (ao_price x) (ao_price o) = true) as ->.
  { destruct Hx as [[H _]|[-> _]]; [done|]. unfold noWorse. destruct s; lia. }
  by rewrite IH.
Qed.

Lemma restoredOrder_of o :
  restoredOrder (orderRecordOf o)
    = Some (mkNew (ao_id o) (ao_price o) (ao_quantity o) (ao_participant o) (ao_side o) Limit).
Proof. unfold restoredOrder, orderRecordOf. cbn. by rewrite sideOfByte_code. Qed.

Lemma arestore_next c a s o :
  ao_side o = s → Forall (λ x, before s x o) (aside a s) → ao_id o ∉ ao_id <$> aresting a →
  Z.of_nat (length (aresting a)) < cfg_maxOrders c →
  arestore c a (mkNew (ao_id o) (ao_price o) (ao_quantity o) (ao_participant o) (ao_side o) Limit) (ao_remaining o) (ao_seq o)
    = (set_aside a s (aside a s ++ [o]), true).
Proof.
  intros Hs Hb Hid Hroom. unfold arestore. destruct (_ <? cfg_maxOrders c) eqn:E; [|lia]. cbn [negb].
  rewrite bool_decide_eq_false_2.
  - assert (Hn : newAOrder (mkNew (ao_id o) (ao_price o) (ao_quantity o) (ao_participant o) (ao_side o) Limit)
      (ao_remaining o) (ao_seq o) = o) by (by destruct o).
    rewrite Hn. cbn [n_side]. by rewrite Hs, (arest_last s o (aside a s) Hb).
  - intros Hf. apply Hf, afind_None. intros x Hx Hxe. apply Hid. cbn [n_id] in Hxe. rewrite <- Hxe. by apply list_elem_of_fmap_2.
Qed.

Lemma aresting_snoc a s os o : aresting (set_aside a s (os ++ [o])) ≡ₚ o :: aresting (set_aside a s os).
Proof. destruct s; unfold aresting, set_aside; cbn; solve_Permutation. Qed.

Lemma set_aside_twice a s os os' : set_aside (set_aside a s os) s os' = set_aside a s os'.
Proof. by destruct s. Qed.

Lemma restore_side c s sq os done b a :
  config_ok c → Repr c b (set_aside a s done) → Forall (order_wf c s sq) os →
  StronglySorted (before s) (done ++ os) →
  NoDup (ao_id <$> (aresting (set_aside a s done) ++ os)) →
  Z.of_nat (length (aresting (set_aside a s done)) + length os) <= cfg_maxOrders c →
  ∃ b', restoreOrders b (orderRecordOf <$> os) = Some (b', true) ∧ Repr c b' (set_aside a s (done ++ os)).
Proof.
  intros Hc. revert done b. induction os as [|o os IH]; intros done b HR Hok Hs Hnd Hroom.
  { exists b. rewrite app_nil_r. done. }
  apply Forall_cons in Hok as [Ho Hok]. cbn [fmap list_fmap restoreOrders length] in *.
  rewrite restoredOrder_of. simpl_bind.
  assert (Hside : aside (set_aside a s done) s = done) by (by destruct s).
  assert (Hnext := arestore_next c (set_aside a s done) s o (ow_side _ _ _ _ Ho)). rewrite Hside in Hnext.
  destruct (restoreResting_ok c b _ (mkNew (ao_id o) (ao_price o) (ao_quantity o) (ao_participant o) (ao_side o) Limit)
    (ao_remaining o) (ao_seq o) Hc HR (ow_range _ _ _ _ Ho) (ow_aligned _ _ _ _ Ho)) as (b1 & Hb1 & HR1).
  assert (Hbef : Forall (λ x, before s x o) done).
  { apply Forall_forall. intros x Hx. eapply (StronglySorted_app_1_elem_of (before s) done); [done|done|by left]. }
  assert (Hid : ao_id o ∉ ao_id <$> aresting (set_aside a s done)).
  { rewrite fmap_app in Hnd. apply NoDup_app in Hnd as (_ & Hnd & _). intros Hin. apply (Hnd _ Hin). by left. }
  specialize (Hnext Hbef Hid ltac:(lia)). rewrite Hnext in Hb1, HR1.
  cbn [or_remaining or_seq orderRecordOf fst snd] in *. rewrite Hb1. cbn [mbind option_bind negb].
  rewrite set_aside_twice in HR1.
  destruct (IH (done ++ [o]) b1 HR1 Hok) as (b2 & Hb2 & HR2).
  - by rewrite <- app_assoc.
  - rewrite (aresting_snoc a s done o). cbn. rewrite fmap_app in Hnd. by rewrite fmap_app, fmap_cons, Permutation_middle in *.
  - rewrite (Permutation_length (aresting_snoc a s done o)). cbn [length]. lia.
  - exists b2. by rewrite <- app_assoc in HR2.
Qed.

Lemma restoreOrders_app b b1 xs ys :
  restoreOrders b xs = Some (b1, true) → restoreOrders b (xs ++ ys) = restoreOrders b1 ys.
Proof.
  revert b. induction xs as [|x xs IH]; intros b; cbn [app restoreOrders]; [by intros [= ->]|].
  destruct (restoredOrder x) as [o|]; [|done]. simpl_bind.
  destruct (restoreResting b o (or_remaining x) (or_seq x)) as [[b' ok]|]; [|done]. simpl_bind.
  destruct ok; cbn [negb]; [apply IH|done].
Qed.

Lemma Repr_counters c b a sq tid :
  Repr c b a → Repr c (restoreCounters b sq tid) (set_acounters a sq tid).
Proof. intros (g & [] & Hs & _ & _). exists g. split; [by split|]. split; [exact Hs|done]. Qed.

Lemma restore_snapshot c a :
  config_ok c → wf c a →
  ∃ b, restoreOrders (bookNew c) (orderRecordOf <$> aresting a) = Some (b, true) ∧
    Repr c (restoreCounters b (ab_seq a) (ab_tid a)) a.
Proof.
  intros Hc Hw. pose proof (wf_room _ _ Hw) as Hroom. pose proof (wf_ids _ _ Hw) as Hnd.
  unfold aresting in *. rewrite length_app in Hroom.
  destruct (restore_side c Buy (ab_seq a) (ab_bids a) [] (bookNew c) emptyABook Hc) as (b1 & H1 & HR1).
  - exact (bookNew_ok c Hc).
  - apply (wf_orders _ _ Hw Buy).
  - apply (wf_sorted _ _ Hw Buy).
  - rewrite fmap_app in Hnd. apply NoDup_app in Hnd as [Hnd _]. exact Hnd.
  - cbn. lia.
  - destruct (restore_side c Sell (ab_seq a) (ab_asks a) [] b1 (mkABook (ab_bids a) [] 0 0) Hc) as (b2 & H2 & HR2).
    + exact HR1.
    + apply (wf_orders _ _ Hw Sell).
    + apply (wf_sorted _ _ Hw Sell).
    + cbn. by rewrite app_nil_r.
    + cbn. rewrite app_nil_r. lia.
    + exists b2. rewrite fmap_app, (restoreOrders_app _ _ _ _ H1). split; [done|].
      pose proof (Repr_counters _ _ _ (ab_seq a) (ab_tid a) HR2) as HR. by destruct a.
Qed.

(** ** Field ranges along a replay *)

Lemma amatch_tid_count stp inc tid rem os : in_i64 tid → in_i64 (am_tid (amatch stp inc tid rem os)).
Proof.
  revert tid rem. induction os as [|o os IH]; intros tid rem Ht; cbn [amatch]; [done|].
  repeat case_match; cbn [am_tid]; try done; try apply IH; try apply s64_range; done.
Qed.

Lemma order_i64_reduced o o' : reduced o o' → order_i64 o → order_i64 o'.
Proof. by intros [-> _]. Qed.

Lemma aafter_i64 c a inc : wf c a → book_i64 a → book_i64 (aafter c a inc).
Proof.
  intros Hw [Ht Ho]. split; [by apply amatch_tid_count|]. rewrite Forall_forall in Ho. apply Forall_forall. intros o' Hin.
  assert (H : ∃ s, o' ∈ aside (aafter c a inc) s).
  { apply elem_of_app in Hin as [?|?]; [by exists Buy|by exists Sell]. }
  destruct H as [s Hs]. destruct (shrinks_elem _ _ _ (aafter_shrinks c a inc s Hw) Hs) as (o & Hin' & Hr).
  eapply order_i64_reduced; [done|]. apply Ho. by apply (aside_resting a s).
Qed.

Lemma rest_i64 a s o : book_i64 a → order_i64 o → book_i64 (set_aside a s (arest s o (aside a s))).
Proof.
  intros [Ht Ho] Hn. split; [by destruct s|].
  assert (Hperm : aresting (set_aside a s (arest s o (aside a s))) ≡ₚ o :: aresting a).
  { destruct s; unfold aresting, set_aside; cbn; rewrite arest_perm; [done|]. solve_Permutation. }
  rewrite Hperm. by constructor.
Qed.

Lemma asubmit_i64 c a inc :
  wf c a → book_i64 a → in_i64 (n_id inc) → in_i64 (n_participant inc) → book_i64 (out_book (asubmit c a inc)).
Proof.
  intros Hw Hi Hid Hp. unfold asubmit. destruct (averdict c a inc); [done|].
  pose proof (aafter_i64 c a inc Hw Hi) as Ha. unfold aexecute, adispose.
  repeat case_match; cbn [out_book]; try done;
    (apply rest_i64; [done|]; split; [done|]; split; [done|]; apply s64_range).
Qed.

Lemma acancel_i64 a id : book_i64 a → book_i64 (acancel a id).1.
Proof.
  intros [Ht Ho]. unfold acancel. destruct (afind a id); [|done]. split; [done|]. cbn.
  rewrite Forall_forall in Ho. apply Forall_forall. intros o Hin. apply Ho. unfold aresting in *. cbn in Hin.
  rewrite elem_of_app, !list_elem_of_filter in Hin. rewrite elem_of_app. tauto.
Qed.

Lemma answer_i64 c a cmd :
  wf c a → book_i64 a → command_i64 cmd → book_i64 (ans_book (aanswer c a cmd)).
Proof.
  intros Hw Hi (H1 & H2 & H3 & H4 & H5). unfold aanswer. destruct (cm_kind cmd); cbn [ans_book].
  - by apply asubmit_i64.
  - by apply acancel_i64.
  - unfold areplace. pose proof (acancel_wf c a (cm_id cmd) Hw) as Hw1.
    pose proof (acancel_i64 a (cm_id cmd) Hi) as Hi1. destruct (acancel a (cm_id cmd)) as [a1 r].
    repeat case_match; try done. by apply asubmit_i64.
Qed.

(** Everything a replay keeps. *)
Lemma areplay_ok c a cmds :
  wf c a → book_i64 a → Forall (valid_command c) cmds → Forall command_i64 cmds →
  ab_seq a + Z.of_nat (length cmds) <= INT64_MAX →
  wf c (areplay c a cmds) ∧ book_i64 (areplay c a cmds) ∧
  ab_seq a <= ab_seq (areplay c a cmds) <= ab_seq a + Z.of_nat (length cmds).
Proof.
  revert a. induction cmds as [|cmd cmds IH]; intros a Hw Hi Hv Hc Hs; [simpl; split_and!; done || lia|].
  apply Forall_cons in Hv as [Hv Hvs]. apply Forall_cons in Hc as [Hc Hcs]. cbn [areplay foldl length] in *.
  pose proof (answer_seq c a cmd Hw) as Has.
  destruct (IH (ans_book (aanswer c a cmd))) as (H1 & H2 & H3); try done.
  - apply answer_wf; [done|lia|done].
  - by apply answer_i64.
  - lia.
  - split; [done|]. split; [done|]. unfold areplay in H3. lia.
Qed.

(** ** Recovery is replay *)

(** The journal reads back as [cmds]. *)
Record readable (d : Dir) (cmds : list Command) (torn : bool) (fuel : nat) (R : JournalReader) : Prop := {
  rd_read : ∃ xs x, readAll fuel d (readerNew d) = Some (xs, x, R) ∧ rr_status x = readEnd torn ∧
    consecutive 0 (recordOf <$> xs) ∧ Forall2 carries (recordOf <$> xs) cmds
}.

(** Commands a book of configuration [c] takes. *)
Definition commands_ok (c : BookConfig) (cmds : list Command) : Prop :=
  Forall (valid_command c) cmds ∧ Forall command_i64 cmds ∧ Z.of_nat (length cmds) <= INT64_MAX.

Definition stateAfter (c : BookConfig) (cmds : list Command) : ABook := areplay c emptyABook cmds.

Lemma stateAfter_snoc c cmds cmd : stateAfter c (cmds ++ [cmd]) = ans_book (aanswer c (stateAfter c cmds) cmd).
Proof. unfold stateAfter, areplay. by rewrite foldl_app. Qed.

(** What a snapshot taken after the first [n] commands loads as. *)
Definition snapshotAt (c : BookConfig) (cmds : list Command) (n : nat) : LoadedSnapshot :=
  mkLoaded (headerOf (stateAfter c (take n cmds)) (Z.of_nat n) c)
    (orderRecordOf <$> aresting (stateAfter c (take n cmds))).

Definition snapped (c : BookConfig) (cmds : list Command) (snaps : SnapDir) (n : nat) : Prop :=
  (n <= length cmds)%nat ∧
  (n = 0%nat ∧ loadNewestValid snaps = Some None ∨ loadNewestValid snaps = Some (Some (snapshotAt c cmds n))).

Lemma emptyABook_i64 : book_i64 emptyABook.
Proof. split; [by vm_compute|constructor]. Qed.

Lemma commands_take c cmds n : commands_ok c cmds → commands_ok c (take n cmds).
Proof.
  intros (H1 & H2 & H3). split; [by apply Forall_take|]. split; [by apply Forall_take|]. rewrite length_take. lia.
Qed.

Lemma stateAfter_ok c cmds :
  config_ok c → commands_ok c cmds →
  wf c (stateAfter c cmds) ∧ book_i64 (stateAfter c cmds) ∧
  0 <= ab_seq (stateAfter c cmds) <= Z.of_nat (length cmds).
Proof.
  intros Hc (H1 & H2 & H3).
  exact (areplay_ok c emptyABook cmds (emptyABook_wf c Hc) emptyABook_i64 H1 H2 H3).
Qed.

Lemma stateAfter_split c cmds n :
  areplay c (stateAfter c (take n cmds)) (drop n cmds) = stateAfter c cmds.
Proof. unfold stateAfter, areplay. rewrite <- foldl_app. by rewrite take_drop. Qed.

(** The first half of [recover]. *)
Lemma load_snapshot c cmds snaps n :
  config_ok c → commands_ok c cmds → snapped c cmds snaps n →
  ∃ snap b, loadNewestValid snaps = Some snap ∧
    match snap with
    | None => Some (bookNew c, true, 0)
    | Some s =>
        '(b, ok) ← restoreOrders (bookNew c) (ls_orders s);
        if negb ok then Some (b, false, 0)
        else Some (restoreCounters b (s64 (sn_bookSeq (ls_header s))) (s64 (sn_nextTradeId (ls_header s))),
                   true, s64 (sn_globalSeq (ls_header s)))
    end = Some (b, true, Z.of_nat n) ∧ Repr c b (stateAfter c (take n cmds)).
Proof.
  intros Hc Hcmds [Hn Hs]. pose proof (commands_take c cmds n Hcmds) as Ht.
  destruct (stateAfter_ok c _ Hc Ht) as (Hw & [Htid _] & _). destruct Hs as [[-> Hl]|Hl].
  - exists None, (bookNew c). split; [done|]. split; [done|]. by apply bookNew_ok.
  - destruct (restore_snapshot c (stateAfter c (take n cmds)) Hc Hw) as (b & Hb & HR).
    eexists (Some _), _. split; [exact Hl|]. cbn [snapshotAt ls_orders ls_header]. rewrite Hb.
    cbn [mbind option_bind negb headerOf sn_bookSeq sn_nextTradeId sn_globalSeq].
    rewrite !s64_u64; [by split|..]; try done.
    + destruct Hcmds as (_ & _ & Hlen). unfold in_i64, INT64_MIN, INT64_MAX in *. lia.
    + apply (wf_seq _ _ Hw).
Qed.

Lemma recover_ok c d cmds torn fuel R snaps n :
  config_ok c → commands_ok c cmds → readable d cmds torn fuel R → snapped c cmds snaps n →
  ∃ res b, recover fuel d snaps (bookNew c) = Some (res, b) ∧ Repr c b (stateAfter c cmds) ∧
    rc_status res = (if torn then RecTornTail else RecOk) ∧ rc_lastSeq res = Z.of_nat (length cmds) ∧
    rc_hasJournalSegment res = bool_decide (jd_fd R ≠ None) ∧
    (rc_hasJournalSegment res = true →
       rc_path res = jd_path R ∧ rc_offset res = jd_offset R ∧ rc_counter res = jd_counter R).
Proof.
  intros Hc Hcmds [(xs & x & Hread & Hst & Hcons & Hcar)] Hsn.
  destruct (load_snapshot c cmds snaps n Hc Hcmds Hsn) as (snap & b0 & Hl & Hb0 & HR0).
  pose proof (Forall2_length _ _ _ Hcar) as Hlen. rewrite length_fmap in Hlen.
  destruct Hcmds as (Hv & Hi & Hmax). destruct Hsn as [Hn _].
  assert (Hcm : commands_ok c cmds) by (by split).
  destruct (stateAfter_ok c _ Hc (commands_take c cmds n Hcm)) as (Hw & _ & Hsq). rewrite length_take in Hsq.
  destruct (applyAll_ok c b0 _ (drop n xs) (drop n cmds) Hc HR0 Hw) as (b & Hb & HR & _).
  { rewrite fmap_drop. by apply Forall2_drop. }
  { by apply Forall_drop. }
  { rewrite length_drop. lia. }
  rewrite stateAfter_split in HR. rewrite <- (filter_after xs n) in Hb by (done || lia).
  unfold recover. rewrite Hl. simpl_bind. rewrite Hb0. cbn [mbind option_bind negb].
  rewrite (recoverLoop_reads _ _ _ _ _ (Z.of_nat n) _ _ _ _ Hread Hb). simpl_bind.
  rewrite filter_after by (done || lia).
  assert (Hlast : from_option rr_seq (Z.of_nat n) (last (drop n xs)) = Z.of_nat (length cmds)).
  { destruct (decide (n < length xs)%nat) as [Hlt|Hge].
    - destruct (consecutive_parts 0 xs n Hcons) as (_ & _ & H); [lia|lia|]. rewrite Z.add_0_l in H.
      rewrite H by done. lia.
    - rewrite drop_ge by lia. cbn. lia. }
  rewrite Hlast, Hst. destruct (jd_fd R) eqn:Efd; eexists _, b; split; try done; split; try done;
    cbn [rc_status rc_lastSeq rc_hasJournalSegment rc_path rc_offset rc_counter]; destruct torn; split_and!; done.
Qed.

(** Recovery rebuilds the book.  From a journal that reads back as [cmds], with a
    torn tail or without, and a newest valid snapshot taken after any prefix of them
    (or none), [recover] leaves a sound book that shows exactly what the commands
    make of an empty book, which is what the matching thread shows after them: the
    same orders in the same priority, and the same counters.  It reports the last
    sequence number and where to resume. *)
Theorem recovery_rebuilds_book c d cmds torn fuel R snaps n q :
  config_ok c → commands_ok c cmds → readable d cmds torn fuel R → snapped c cmds snaps n →
  ∃ res b, recover fuel d snaps (bookNew c) = Some (res, b) ∧ sound c b ∧
    abs b = (arun c q (abs (bookNew c)) cmds).1 ∧
    rc_status res = (if torn then RecTornTail else RecOk) ∧ rc_lastSeq res = Z.of_nat (length cmds).
Proof.
  intros Hc Hcmds Hrd Hsn. destruct (recover_ok c d cmds torn fuel R snaps n Hc Hcmds Hrd Hsn)
    as (res & b & Hr & HR & Hst & Hls & _).
  destruct (stateAfter_ok c cmds Hc Hcmds) as (Hw & _). destruct (sound_intro c b _ Hc HR Hw) as [Hs Ha].
  exists res, b. split; [done|]. split; [done|]. split; [|done].
  rewrite Ha, areplay_arun, (Repr_abs c _ emptyABook Hc (bookNew_ok c Hc)). done.
Qed.

(** ** Snapshots taken while the journal grows *)

Lemma replayUpTo_ok c d cmds torn fuel R n :
  config_ok c → commands_ok c cmds → readable d cmds torn fuel R → (n <= length cmds)%nat →
  ∃ b, replayUpTo fuel d (bookNew c) (Z.of_nat n) = Some b ∧ Repr c b (stateAfter c (take n cmds)).
Proof.
  intros Hc Hcmds [(xs & x & Hread & Hst & Hcons & Hcar)] Hn.
  pose proof (Forall2_length _ _ _ Hcar) as Hlen. rewrite length_fmap in Hlen.
  destruct (commands_take c cmds n Hcmds) as (Hv & Hi & Hmax).
  destruct (applyAll_ok c (bookNew c) emptyABook (take n xs) (take n cmds) Hc (bookNew_ok c Hc) (emptyABook_wf c Hc))
    as (b & Hb & HR & _).
  { rewrite fmap_take. by apply Forall2_take. }
  { done. }
  { done. }
  exists b. split; [|done]. destruct Hcmds as (_ & _ & Hm).
  destruct (consecutive_parts 0 xs n Hcons) as (H1 & H2 & _); [lia|lia|]. rewrite Z.add_0_l in H1, H2.
  eapply replayLoop_reads; [|exact H1|exact H2|exact Hb]. by rewrite take_drop.
Qed.

Lemma snapped_more c cmds more snaps n : snapped c cmds snaps n → snapped c (cmds ++ more) snaps n.
Proof.
  intros [Hn Hs]. split; [rewrite length_app; lia|]. unfold snapshotAt in *. by rewrite take_app_le.
Qed.

Lemma snapshotNowSync_ok c d cmds torn fuel R snaps io n :
  config_ok c → in_i64 (cfg_tick c) → cfg_maxOrders c < 2 ^ 57 → commands_ok c cmds → readable d cmds torn fuel R →
  (n <= length cmds)%nat → (∀ k, is_Some (sd_snaps snaps !! k) → k <= Z.of_nat n) →
  ∃ (ok : bool) snaps' io', snapshotNowSync fuel d snaps io c (Z.of_nat n) = Some (ok, snaps', io') ∧
    loadNewestValid snaps' = if ok then Some (Some (snapshotAt c cmds n)) else loadNewestValid snaps.
Proof.
  intros Hc Ht Hmo Hcmds Hrd Hn Hmax.
  destruct (replayUpTo_ok c d cmds torn fuel R n Hc Hcmds Hrd Hn) as (b & Hb & HR).
  destruct (stateAfter_ok c _ Hc (commands_take c cmds n Hcmds)) as (Hw & Hi & _).
  pose proof (wf_room _ _ Hw) as Hroom. unfold snapshotNowSync. rewrite Hb. simpl_bind.
  destruct (writeSnapshot_ok c b _ 3 snaps io (Z.of_nat n) Hc HR) as (ok & d' & io' & Hwr & Hd).
  exists ok, d', io'. split; [done|]. destruct ok; [|unfold loadNewestValid; by rewrite Hd].
  destruct Hd as (io1 & Hd). destruct Hcmds as (_ & _ & H).
  apply (written_is_newest c _ 3 d' (sd_snaps snaps) io1); try done; lia.
Qed.

(** C25: Snapshots change nothing but the work of recovery.  A snapshot taken by the
    snapshot thread after any prefix of the journal, successfully or not, on top of
    earlier ones, while the journal goes on growing: recovery from the grown journal
    and the new snapshot directory gives the book of all the commands. *)
Theorem snapshot_then_recover c d cmds torn fuel R snaps m io n d' more torn' fuel' R' :
  config_ok c → in_i64 (cfg_tick c) → cfg_maxOrders c < 2 ^ 57 → commands_ok c (cmds ++ more) →
  readable d cmds torn fuel R → snapped c cmds snaps m → (n <= length cmds)%nat →
  (∀ k, is_Some (sd_snaps snaps !! k) → k <= Z.of_nat n) → readable d' (cmds ++ more) torn' fuel' R' →
  ∃ ok snaps' io' res b,
    snapshotNowSync fuel d snaps io c (Z.of_nat n) = Some (ok, snaps', io') ∧
    recover fuel' d' snaps' (bookNew c) = Some (res, b) ∧ sound c b ∧ abs b = stateAfter c (cmds ++ more) ∧
    rc_lastSeq res = Z.of_nat (length (cmds ++ more)).
Proof.
  intros Hc Ht Hmo Hall Hrd Hsn Hn Hmax Hrd'.
  assert (Hcmds : commands_ok c cmds).
  { pose proof (commands_take c _ (length cmds) Hall) as H. by rewrite take_app_length in H. }
  destruct (snapshotNowSync_ok c d cmds torn fuel R snaps io n Hc Ht Hmo Hcmds Hrd Hn Hmax) as (ok & snaps' & io' & Hs & Hl).
  assert (Hsn' : ∃ k, snapped c cmds snaps' k).
  { destruct ok; [exists n; split; [done|by right]|]. exists m. destruct Hsn as [H1 H2]. split; [done|]. by rewrite Hl. }
  destruct Hsn' as (k & Hk). apply (snapped_more _ _ more) in Hk.
  destruct (recover_ok c d' _ torn' fuel' R' snaps' k Hc Hall Hrd' Hk) as (res & b & Hr & HR & _ & Hls & _).
  destruct (stateAfter_ok c _ Hc Hall) as (Hw & _). destruct (sound_intro c b _ Hc HR Hw) as [Hsd Ha].
  exists ok, snaps', io', res, b. done.
Qed.

(** *** A journal of four commands, with a snapshot after two *)

Definition tapeRecords : list JournalRecord :=
  imap (λ i cmd, mkJournalRecord (Z.of_nat i + 1) (kindCode (cm_kind cmd)) (imageOf noPad cmd)) tape.

(** The journal of the first [n] commands. *)
Definition tapeDir (n : nat) : Dir :=
  from_option (λ r, jw_dir r.2) ∅ (appendRun perRecord (writerNew ∅ ∅ []) (take n tapeRecords)).

Definition tapeReader (n : nat) : JournalReader :=
  from_option snd (readerNew ∅) (readAll 5 (tapeDir n) (readerNew (tapeDir n))).

Lemma tapeDir_readable n :
  option_map (λ r, (map recordOf r.1.1, rr_status r.1.2)) (readAll 5 (tapeDir n) (readerNew (tapeDir n)))
    = Some (take n tapeRecords, EndOfJournal) →
  consecutive 0 (take n tapeRecords) → readable (tapeDir n) (take n tape) false 5 (tapeReader n).
Proof.
  intros H Hc. split. unfold tapeReader. destruct (readAll 5 (tapeDir n) _) as [[[xs x] R]|]; [|done].
  cbn in H. injection H as Hxs Hst. exists xs, x. split; [done|]. split; [done|].
  change (map recordOf xs) with (recordOf <$> xs) in Hxs. rewrite Hxs. split; [done|].
  apply Forall2_take. unfold tapeRecords, tape. cbn.
  repeat (constructor; [split; [done|by exists noPad]|]). constructor.
Qed.

Lemma tape_commands_ok : commands_ok tapeConfig tape.
Proof.
  split; [exact tape_valid|]. split; [|done].
  repeat (constructor; [unfold command_i64, in_i64, INT64_MIN, INT64_MAX; cbn; lia|]). constructor.
Qed.

Lemma noSnapshots_snapped : snapped tapeConfig tape (mkSnapDir None ∅) 0.
Proof. split; [lia|]. left. split; [done|]. by vm_compute. Qed.

Lemma tapeDir4 : readable (tapeDir 4) tape false 5 (tapeReader 4).
Proof. apply (tapeDir_readable 4); [vm_compute; reflexivity|by repeat constructor]. Qed.

Lemma tapeDir3 : readable (tapeDir 3) (take 3 tape) false 5 (tapeReader 3).
Proof. apply (tapeDir_readable 3); [vm_compute; reflexivity|by repeat constructor]. Qed.

Lemma recovery_rebuilds_book_witness :
  ∃ res b, recover 5 (tapeDir 4) (mkSnapDir None ∅) (bookNew tapeConfig) = Some (res, b) ∧ sound tapeConfig b ∧
    abs b = mkABook [mkAOrder 4 110 2 2 8 4 Buy] [] 4 1.
Proof.
  destruct (recovery_rebuilds_book tapeConfig (tapeDir 4) tape false 5 (tapeReader 4) (mkSnapDir None ∅) 0 0
    tapeConfig_ok tape_commands_ok tapeDir4 noSnapshots_snapped) as (res & b & H1 & H2 & H3 & _).
  exists res, b. split; [exact H1|]. split; [exact H2|]. rewrite H3. vm_compute. reflexivity.
Defined.

Lemma snapshot_then_recover_witness :
  ∃ ok snaps' io' res b,
    snapshotNowSync 5 (tapeDir 3) (mkSnapDir None ∅) [] tapeConfig 2 = Some (ok, snaps', io') ∧
    recover 5 (tapeDir 4) snaps' (bookNew tapeConfig) = Some (res, b) ∧
    abs b = mkABook [mkAOrder 4 110 2 2 8 4 Buy] [] 4 1.
Proof.
  destruct (snapshot_then_recover tapeConfig (tapeDir 3) (take 3 tape) false 5 (tapeReader 3) (mkSnapDir None ∅) 0 [] 2
    (tapeDir 4) (drop 3 tape) false 5 (tapeReader 4) tapeConfig_ok) as (ok & snaps' & io' & res & b & H1 & H2 & _ & H3 & _).
  - by vm_compute.
  - by vm_compute.
  - exact tape_commands_ok.
  - exact tapeDir3.
  - split; [lia|]. left. split; [done|]. by vm_compute.
  - vm_compute. lia.
  - intros k [x Hx]. cbn [sd_snaps] in Hx. by rewrite lookup_empty in Hx.
  - exact tapeDir4.
  - exists ok, snaps', io', res, b. split; [exact H1|]. split; [exact H2|]. rewrite H3. vm_compute. reflexivity.
Defined.
