(* ===== verification/AuditDaemon.v ===== *)
(** The audit tier: [audit/audit_replayer.hpp], [audit/pg_writer.cpp] and the loop of
    [apps/velox_auditd.cpp].

    The replayer runs the journal's commands on a book of its own and turns them into
    rows; the writer stores a batch of rows and the tailer's checkpoint in one
    transaction; the daemon connects the two to the journal tailer.

    Postgres is a parameter, the class [Postgres]: what the tables hold, and what each
    call of the client library answers.  [PostgresLaws] states what the writer relies
    on: a transaction takes effect at its [COMMIT] or not at all, and the effect of
    the statements in it.  A row is given to [COPY] as the values of its columns; the
    text format is not modelled. *)
From stdpp Require Import gmap.
From S2P Require Import Prelude Types ObjectPool PriceLevel LevelMap OrderBook AbstractBook BookRepr BookRefine.
From S2P Require Import BookSpec BookProps BookClaims BookWalk.
From S2P Require Import Wire Messages Crc32 Events MatchingThread JournalFormat JournalWriter JournalReader.
From S2P Require Import JournalSpec JournalCrash JournalDurable JournalTailer SpscRing Sequencer Snapshot Recovery.

(** ** AuditReplayer *)

(** The enumerations are kept as the bytes of the command. *)
Record OrderEventRow := mkOrderEventRow {
  oe_globalSeq : Z;
  oe_shardId : Z;
  oe_kind : Z;
  oe_orderId : Z;
  oe_newOrderId : Z;
  oe_participant : Z;
  oe_side : Z;
  oe_orderType : Z;
  oe_price : Z;
  oe_quantity : Z
}.

Record TradeRow := mkTradeRow {
  tw_globalSeq : Z;
  tw_shardId : Z;
  tw_tradeId : Z;
  tw_aggressorOrderId : Z;
  tw_passiveOrderId : Z;
  tw_price : Z;
  tw_quantity : Z;
  tw_aggressorSide : Side
}.

#[export] Instance OrderEventRow_eq_dec : EqDecision OrderEventRow.
Proof. solve_decision. Defined.
#[export] Instance TradeRow_eq_dec : EqDecision TradeRow.
Proof. solve_decision. Defined.

Record AuditReplayer := mkReplayer {
  ar_shardId : Z;
  ar_book : OrderBook;
  ar_tradeStorage : list Trade
}.

Definition replayerNew (shardId : Z) (cfg : BookConfig) : AuditReplayer :=
  mkReplayer shardId (bookNew cfg) (replicate (Z.to_nat (cfg_maxOrders cfg)) zeroTrade).

Definition tradeRow (globalSeq shardId : Z) (t : Trade) : TradeRow :=
  mkTradeRow globalSeq shardId (t_id t) (t_aggressorId t) (t_passiveId t) (t_price t) (t_quantity t)
    (t_aggressorSide t).

Definition eventRow (A : AuditReplayer) (r : TailResult) (orderId newOrderId : Z) : OrderEventRow :=
  mkOrderEventRow (tr_seq r) (ar_shardId A) (tr_kind r) orderId newOrderId
    (im_participant (tr_command r)) (im_side (tr_command r)) (im_type (tr_command r))
    (im_price (tr_command r)) (im_quantity (tr_command r)).

(** The [switch]: the book and the buffer after the command, and the row's ids.  A kind
    that is no enumerator is no case of it. *)
Definition replayCommand (b : OrderBook) (buf : TradeBuffer) (r : TailResult) :
    option (OrderBook * TradeBuffer * (Z * Z)) :=
  let cmd := tr_command r in
  match kindOf (tr_kind r) with
  | Some KNew =>
      o ← imageOrder cmd (im_id cmd);
      '(b, buf, _) ← OrderBook.submit b o buf; Some (b, buf, (im_id cmd, 0))
  | Some KCancel => '(b, _) ← cancel b (im_id cmd); Some (b, buf, (im_id cmd, 0))
  | Some KReplace =>
      fresh ← imageOrder cmd (im_newId cmd);
      '(b, buf, _, _, _) ← replace b (im_id cmd) fresh buf None; Some (b, buf, (im_id cmd, im_newId cmd))
  | None => Some (b, buf, (0, 0))
  end.

(** [apply]: reading past the end of the storage, were the buffer to overflow, is
    undefined. *)
Definition auditApply (A : AuditReplayer) (r : TailResult) (orderEvents : list OrderEventRow)
    (trades : list TradeRow) : option (AuditReplayer * list OrderEventRow * list TradeRow) :=
  let buf := Buffer.mkBuffer (ar_tradeStorage A) (Z.of_nat (length (ar_tradeStorage A))) 0 in
  '(b, buf, (id, newId)) ← replayCommand (ar_book A) buf r;
  if Buffer.overflowed buf then None
  else Some (mkReplayer (ar_shardId A) b (Buffer.data buf),
             orderEvents ++ [eventRow A r id newId],
             trades ++ (tradeRow (tr_seq r) (ar_shardId A) <$> Buffer.contents buf)).

(** ** PgWriter *)

(** The columns of [order_event]; [new_order_id] may be [NULL]. *)
Record EventTuple := mkEventTuple {
  et_row : OrderEventRow;
  et_newOrderId : option Z
}.

(** The tables, by primary key. *)
Record Tables := mkTables {
  tb_orderEvent : gmap (Z * Z) EventTuple;
  tb_trade : gmap (Z * Z) TradeRow;
  tb_participant : gmap Z Z;
  tb_instrument : gmap Z Z;
  tb_checkpoint : gmap Z Checkpoint
}.

Definition noTables : Tables := mkTables ∅ ∅ ∅ ∅ ∅.

(** The statements, and the steps of a [COPY]. *)
Inductive Stmt :=
  | Begin | Commit | Rollback
  | CreateStageEvents | CopyStageEvents | PutEvent (t : EventTuple)
  | CreateStageTrades | CopyStageTrades | PutTrade (t : TradeRow)
  | EndCopy | AbortCopy | CopyResult
  | InsertEvents | InsertParticipants | InsertInstruments | InsertTrades
  | UpsertCheckpoint (shardId : Z) (cp : Checkpoint).

(** A database with one client.  [pg_status] is [PQstatus] of an open connection;
    [pg_exec] answers whether the call succeeded. *)
Class Postgres (D : Type) := {
  pg_tables : D → Tables;
  pg_status : D → bool;
  pg_connect : D → bool * D;
  pg_finish : D → D;
  pg_exec : D → Stmt → bool * D;
  pg_select : D → Z → option Checkpoint * D
}.

(** [conn_ != nullptr] and the database behind it. *)
Record PgWriter (D : Type) := mkPg { pw_conn : bool; pw_db : D }.
Arguments mkPg {D}.
Arguments pw_conn {D}.
Arguments pw_db {D}.

Section writer.
Context {D : Type} `{!Postgres D}.

Definition connected (w : PgWriter D) : bool := pw_conn w && pg_status (pw_db w).

Definition disconnect (w : PgWriter D) : PgWriter D :=
  if pw_conn w then mkPg false (pg_finish (pw_db w)) else w.

Definition ensureConnected (w : PgWriter D) : bool * PgWriter D :=
  if connected w then (true, w)
  else
    let w := disconnect w in
    let '(ok, db) := pg_connect (pw_db w) in
    if ok : bool then (true, mkPg true db) else (false, mkPg false (pg_finish db)).

Definition execOk (w : PgWriter D) (s : Stmt) : bool * PgWriter D :=
  let '(ok, db) := pg_exec (pw_db w) s in (ok, mkPg (pw_conn w) db).

Definition rollbackAndDisconnect (w : PgWriter D) : bool * PgWriter D :=
  let w := if pw_conn w then (execOk w Rollback).2 else w in (false, disconnect w).

(** Statements one after the other, up to the first that fails. *)
Fixpoint execAll (w : PgWriter D) (ss : list Stmt) : bool * PgWriter D :=
  match ss with
  | [] => (true, w)
  | s :: ss' => let '(ok, w) := execOk w s in if ok : bool then execAll w ss' else (false, w)
  end.

(** The lines of a [COPY]; one that is refused ends it with [PQputCopyEnd(c, "copy
    failed")]. *)
Fixpoint putAll (w : PgWriter D) (lines : list Stmt) : bool * PgWriter D :=
  match lines with
  | [] => (true, w)
  | s :: lines' =>
      let '(ok, w) := execOk w s in
      if ok : bool then putAll w lines' else (false, (execOk w AbortCopy).2)
  end.

Definition eventTuple (row : OrderEventRow) : EventTuple :=
  mkEventTuple row (if oe_kind row =? kindCode KReplace then Some (oe_newOrderId row) else None).

Definition copyOrderEvents (w : PgWriter D) (rows : list OrderEventRow) : bool * PgWriter D :=
  match rows with
  | [] => (true, w)
  | _ =>
      let '(ok, w) := execAll w [CreateStageEvents; CopyStageEvents] in
      if negb ok then (false, w)
      else
        let '(ok, w) := putAll w (PutEvent ∘ eventTuple <$> rows) in
        if negb ok then (false, w)
        else execAll w [EndCopy; CopyResult; InsertEvents; InsertParticipants; InsertInstruments]
  end.

Definition copyTrades (w : PgWriter D) (rows : list TradeRow) : bool * PgWriter D :=
  match rows with
  | [] => (true, w)
  | _ =>
      let '(ok, w) := execAll w [CreateStageTrades; CopyStageTrades] in
      if negb ok then (false, w)
      else
        let '(ok, w) := putAll w (PutTrade <$> rows) in
        if negb ok then (false, w) else execAll w [EndCopy; CopyResult; InsertTrades]
  end.

Definition loadCheckpoint (w : PgWriter D) (shardId : Z) (out : Checkpoint) : bool * Checkpoint * PgWriter D :=
  let '(ok, w) := ensureConnected w in
  if negb ok then (false, out, w)
  else
    let '(row, db) := pg_select (pw_db w) shardId in
    match row with
    | None => (false, out, mkPg (pw_conn w) db)
    | Some cp => (true, cp, mkPg (pw_conn w) db)
    end.

Definition upsertCheckpoint (w : PgWriter D) (shardId : Z) (cp : Checkpoint) : bool * PgWriter D :=
  execOk w (UpsertCheckpoint shardId cp).

Definition writeBatch (w : PgWriter D) (shardId : Z) (orderEvents : list OrderEventRow)
    (trades : list TradeRow) (cp : Checkpoint) : bool * PgWriter D :=
  let '(ok, w) := ensureConnected w in
  if negb ok then (false, w) else
  let '(ok, w) := execOk w Begin in
  if negb ok then rollbackAndDisconnect w else
  let '(ok, w) := copyOrderEvents w orderEvents in
  if negb ok then rollbackAndDisconnect w else
  let '(ok, w) := copyTrades w trades in
  if negb ok then rollbackAndDisconnect w else
  let '(ok, w) := upsertCheckpoint w shardId cp in
  if negb ok then rollbackAndDisconnect w else
  let '(ok, w) := execOk w Commit in
  if negb ok then rollbackAndDisconnect w else (true, w).

(** ** The daemon's loop for one shard *)

Record AuditShard := mkAuditShard {
  as_writer : PgWriter D;
  as_tailer : JournalTailer;
  as_replayer : AuditReplayer;
  as_events : list OrderEventRow;
  as_trades : list TradeRow
}.

(** The loop of [flush]: the batch is written again and again until it is accepted;
    [tries] is the number of failures after which the stop signal is seen. *)
Fixpoint flushBatch (tries : nat) (w : PgWriter D) (shardId : Z) (evs : list OrderEventRow) (trs : list TradeRow)
    (cp : Checkpoint) : bool * PgWriter D :=
  let '(ok, w) := writeBatch w shardId evs trs cp in
  if ok : bool then (true, w)
  else match tries with
       | O => (false, w)
       | S tries' => flushBatch tries' w shardId evs trs cp
       end.

(** [flush]; false when it gave up. *)
Definition flush (tries : nat) (s : AuditShard) : bool * AuditShard :=
  if bool_decide (as_events s = []) && bool_decide (as_trades s = []) then (true, s)
  else
    let '(ok, w) := flushBatch tries (as_writer s) (ar_shardId (as_replayer s)) (as_events s) (as_trades s)
                      (checkpoint (as_tailer s)) in
    if ok : bool then (true, mkAuditShard w (as_tailer s) (as_replayer s) [] [])
    else (false, mkAuditShard w (as_tailer s) (as_replayer s) (as_events s) (as_trades s)).

(** The start of [runShard]. *)
Definition auditStart (d : Dir) (w : PgWriter D) (shardId : Z) (cfg : BookConfig) (fromScratch : bool) :
    option AuditShard :=
  let cp := mkCheckpoint 0 0 0 in
  let '(cp, w) := if fromScratch then (cp, w)
                  else let '(_, cp, w) := loadCheckpoint w shardId cp in (cp, w) in
  t ← tailerNew d cp;
  Some (mkAuditShard w t (replayerNew shardId cfg) [] []).

(** One turn of the loop; false when the loop is left: the journal is corrupt or the
    stop signal was seen. *)
Definition auditTurn (batchSize : nat) (d : Dir) (tries : nat) (s : AuditShard) : option (bool * AuditShard) :=
  '(r, t) ← tailNext d (as_tailer s);
  let s := mkAuditShard (as_writer s) t (as_replayer s) (as_events s) (as_trades s) in
  match tr_status r with
  | TailOk =>
      '(A, evs, trs) ← auditApply (as_replayer s) r (as_events s) (as_trades s);
      let s := mkAuditShard (as_writer s) t A evs trs in
      Some (if (batchSize <=? length evs)%nat then flush tries s else (true, s))
  | TailCorrupt => Some (false, s)
  | NotYet => Some (flush tries s)
  end.

(** The loop, on the directory each turn finds and the failures its flush sees. *)
Fixpoint auditLoop (batchSize : nat) (turns : list (Dir * nat)) (s : AuditShard) : option AuditShard :=
  match turns with
  | [] => Some s
  | (d, tries) :: turns' =>
      '(go, s) ← auditTurn batchSize d tries s;
      if (go : bool) then auditLoop batchSize turns' s else Some s
  end.

(** With the flush behind the loop, when the stop signal is set. *)
Definition runShard (batchSize : nat) (turns : list (Dir * nat)) (s : AuditShard) : option AuditShard :=
  s ← auditLoop batchSize turns s; Some (flush 0 s).2.

End writer.
Arguments AuditShard : clear implicits.
