(* ===== verification/AuditSpec.v ===== *)
(** What the audit tier promises: its tables hold exactly the commands of the journal
    and the trades the engine published for them. *)
From stdpp Require Import gmap sorting.
From S2P Require Import Prelude Types ObjectPool PriceLevel LevelMap OrderBook AbstractBook BookRepr BookRefine.
From S2P Require Import BookSpec BookProps BookClaims BookWalk.
From S2P Require Import Wire Messages Crc32 Events MatchingThread JournalFormat JournalWriter JournalReader.
From S2P Require Import JournalSpec JournalCrash JournalDurable JournalTailer SpscRing Sequencer Snapshot Recovery.
From S2P Require Import AuditDaemon.

(** ** The replayer *)

(** One order trades with each resting order at most once: the storage is large
    enough. *)
Lemma asubmit_count c a inc :
  (length (out_trades (asubmit c a inc)) <= length (aresting a))%nat.
Proof.
  unfold asubmit. destruct (averdict c a inc); [simpl; lia|].
  assert (out_trades (aexecute c a inc) = am_trades (amatched c a inc)) as ->.
  { unfold aexecute, adispose. by repeat case_match. }
  unfold amatched. etransitivity; [apply amatch_count|]. unfold aresting. rewrite length_app.
  destruct (n_side inc); simpl; lia.
Qed.

Lemma answer_count c a cmd :
  wf c a → Z.of_nat (length (ans_trades (aanswer c a cmd))) <= cfg_maxOrders c.
Proof.
  intros Hw. unfold aanswer. pose proof (wf_room _ _ Hw) as Hr. destruct (cm_kind cmd); cbn [ans_trades].
  - pose proof (asubmit_count c a (toNewOrder cmd)). lia.
  - simpl. lia.
  - unfold areplace. repeat (case_match; [simpl; lia|]).
    pose proof (wf_room _ _ (acancel_wf c a (cm_id cmd) Hw)) as Hr'.
    destruct (acancel a (cm_id cmd)) as [a1 r1]. cbn [fst out_trades] in *.
    pose proof (asubmit_count c a1 (toFreshOrder cmd)). lia.
Qed.

(** The row of a command. *)
Definition evRow (sh q : Z) (cmd : Command) : OrderEventRow :=
  mkOrderEventRow q sh (kindCode (cm_kind cmd)) (cm_id cmd)
    (match cm_kind cmd with KReplace => cm_newId cmd | _ => 0 end)
    (cm_participant cmd) (sideCode (cm_side cmd)) (engineTypeCode (cm_type cmd)) (cm_price cmd) (cm_quantity cmd).

Record replayer_ok (c : BookConfig) (sh : Z) (A : AuditReplayer) (a : ABook) : Prop := {
  ro_shard : ar_shardId A = sh;
  ro_book : Repr c (ar_book A) a;
  ro_wf : wf c a;
  ro_room : Z.of_nat (length (ar_tradeStorage A)) = cfg_maxOrders c
}.

Definition newIdOf (cmd : Command) : Z := match cm_kind cmd with KReplace => cm_newId cmd | _ => 0 end.

Lemma replayCommand_ok c b a buf r cmd :
  config_ok c → Repr c b a → carries (tailRecord r) cmd → valid_command c cmd →
  ∃ b', replayCommand b buf r
          = Some (b', Buffer.push_all buf (ans_trades (aanswer c a cmd)), (cm_id cmd, newIdOf cmd)) ∧
    Repr c b' (ans_book (aanswer c a cmd)).
Proof.
  intros Hc HR [Hk (pad & Hi)] Hv. cbn in Hk, Hi. unfold replayCommand, newIdOf. rewrite Hk, Hi, kindOf_code.
  unfold valid_command, aanswer in *. destruct (cm_kind cmd) eqn:Ek; cbn [ans_book ans_trades].
  - rewrite imageOrder_of. cbn [mbind option_bind im_id imageOf].
    destruct (submitEx_ok c b a (toNewOrder cmd) buf None Hc HR (vn_aligned _ _ Hv)) as (b' & Hs & HR' & _).
    exists b'. unfold OrderBook.submit. fold (toNewOrder cmd). by rewrite Hs.
  - cbn [im_id imageOf]. destruct (cancel_ok c b a (cm_id cmd) Hc HR) as (b' & -> & HR'). by exists b'.
  - rewrite imageOrder_of. cbn [mbind option_bind im_id im_newId imageOf].
    destruct (replace_ok c b a (cm_id cmd) (toFreshOrder cmd) buf None Hc HR (vn_aligned _ _ Hv)) as (b' & Hs & HR').
    exists b'. fold (toFreshOrder cmd). by rewrite Hs.
Qed.

(** A fresh buffer over storage that is large enough. *)
Lemma fresh_filled (st xs : list Trade) :
  (length xs <= length st)%nat → Z.of_nat (length st) < 18446744073709551616 →
  let buf := Buffer.push_all (Buffer.mkBuffer st (Z.of_nat (length st)) 0) xs in
  Buffer.overflowed buf = false ∧ Buffer.contents buf = xs ∧ length (Buffer.data buf) = length st.
Proof.
  intros Hl Hst. cbv zeta. set (b := Buffer.mkBuffer st (Z.of_nat (length st)) 0).
  assert (Hb : Buffer.wf b) by (split; cbn; [done|lia]).
  destruct (Buffer.push_all_contents b xs) as [Hcnt Hcon]; [done|cbn; lia|].
  pose proof (proj1 (push_all_wf b xs Hb)) as Hcap. rewrite Buffer.push_all_capacity in Hcap. cbn in *.
  unfold Buffer.overflowed. rewrite Hcnt, Hcon, Buffer.push_all_capacity. cbn.
  split; [lia|]. split; [|lia]. unfold Buffer.contents at 1. cbn [b Buffer.count Buffer.capacity Buffer.data].
  rewrite Z.min_l by lia. apply (take_ge xs). lia.
Qed.

Lemma auditApply_ok c sh A a r cmd evs trs :
  config_ok c → replayer_ok c sh A a → carries (tailRecord r) cmd → valid_command c cmd →
  ab_seq a < INT64_MAX →
  ∃ A', auditApply A r evs trs
          = Some (A', evs ++ [evRow sh (tr_seq r) cmd],
                  trs ++ (tradeRow (tr_seq r) sh <$> ans_trades (aanswer c a cmd))) ∧
    replayer_ok c sh A' (ans_book (aanswer c a cmd)).
Proof.
  intros Hc [<- HR Hw Hroom] Hcar Hv Hsq. unfold auditApply.
  destruct (replayCommand_ok c (ar_book A) a
    (Buffer.mkBuffer (ar_tradeStorage A) (Z.of_nat (length (ar_tradeStorage A))) 0) r cmd Hc HR Hcar Hv)
    as (b' & -> & HR'). simpl_bind.
  pose proof (answer_count c a cmd Hw) as Hn. pose proof (co_orders _ Hc).
  destruct (fresh_filled (ar_tradeStorage A) (ans_trades (aanswer c a cmd))) as (-> & -> & Hlen); [lia..|].
  eexists. split.
  - do 2 f_equal. f_equal. destruct Hcar as [Hk (pad & Hi)]. cbn in Hk, Hi. unfold eventRow, evRow, newIdOf.
    by rewrite Hk, Hi.
  - split; cbn [ar_shardId ar_book ar_tradeStorage]; [done|done|by apply answer_wf|by rewrite Hlen].
Qed.

(** The rows of the trades of a run, from dispatch number [q]. *)
Fixpoint tradeRows (c : BookConfig) (sh q : Z) (a : ABook) (cmds : list Command) : list TradeRow :=
  match cmds with
  | [] => []
  | cmd :: cmds' =>
      let x := aanswer c a cmd in
      (tradeRow (q + 1) sh <$> ans_trades x) ++ tradeRows c sh (q + 1) (ans_book x) cmds'
  end.

Definition eventRows (sh : Z) (cmds : list Command) : list OrderEventRow :=
  imap (λ i cmd, evRow sh (Z.of_nat i + 1) cmd) cmds.

Lemma tradeRows_app c sh q a xs ys :
  tradeRows c sh q a (xs ++ ys)
    = tradeRows c sh q a xs ++ tradeRows c sh (q + Z.of_nat (length xs)) (areplay c a xs) ys.
Proof.
  revert q a. induction xs as [|x xs IH]; intros q a.
  { cbn. by rewrite Z.add_0_r. }
  cbn [app tradeRows length areplay foldl]. rewrite IH, <- app_assoc. do 3 f_equal. lia.
Qed.

Lemma eventRows_snoc sh xs x : eventRows sh (xs ++ [x]) = eventRows sh xs ++ [evRow sh (Z.of_nat (length xs) + 1) x].
Proof. unfold eventRows. rewrite imap_app. cbn. by rewrite Nat.add_0_r. Qed.

Lemma eventRows_lookup sh cmds i : eventRows sh cmds !! i = evRow sh (Z.of_nat i + 1) <$> cmds !! i.
Proof. unfold eventRows. by rewrite list_lookup_imap. Qed.

Lemma eventRows_prefix sh xs ys : xs `prefix_of` ys → eventRows sh xs `prefix_of` eventRows sh ys.
Proof. intros [zs ->]. unfold eventRows. rewrite imap_app. by eexists. Qed.

Lemma tradeRows_prefix c sh q a xs ys : xs `prefix_of` ys → tradeRows c sh q a xs `prefix_of` tradeRows c sh q a ys.
Proof. intros [zs ->]. rewrite tradeRows_app. by eexists. Qed.

(** ** What the writer relies on *)

(** A transaction: the tables as it sees them, and its staging tables. *)
Record Tx := mkTx { tx_tables : Tables; tx_events : list EventTuple; tx_trades : list TradeRow }.

Definition eventKey (t : EventTuple) : Z * Z := (oe_shardId (et_row t), oe_globalSeq (et_row t)).
Definition tradeKey (t : TradeRow) : Z * Z := (tw_shardId t, tw_tradeId t).

(** [SELECT k, MIN(global_seq) ... GROUP BY k] *)
Fixpoint groupMin (k : OrderEventRow → Z) (ts : list EventTuple) : gmap Z Z :=
  match ts with
  | [] => ∅
  | t :: ts' =>
      let m := groupMin k ts' in
      let q := oe_globalSeq (et_row t) in
      <[k (et_row t) := match m !! k (et_row t) with Some q' => Z.min q q' | None => q end]> m
  end.

Definition keyed {A K} (key : A → K) (xs : list A) : list (K * A) := (λ x, (key x, x)) <$> xs.

(** [INSERT ... ON CONFLICT DO NOTHING] keeps the rows that are there. *)
Definition effect (x : Tx) (s : Stmt) : Tx :=
  let T := tx_tables x in
  match s with
  | PutEvent t => mkTx T (tx_events x ++ [t]) (tx_trades x)
  | PutTrade t => mkTx T (tx_events x) (tx_trades x ++ [t])
  | InsertEvents =>
      mkTx (mkTables (tb_orderEvent T ∪ list_to_map (keyed eventKey (tx_events x))) (tb_trade T)
              (tb_participant T) (tb_instrument T) (tb_checkpoint T)) (tx_events x) (tx_trades x)
  | InsertParticipants =>
      mkTx (mkTables (tb_orderEvent T) (tb_trade T) (tb_participant T ∪ groupMin oe_participant (tx_events x))
              (tb_instrument T) (tb_checkpoint T)) (tx_events x) (tx_trades x)
  | InsertInstruments =>
      mkTx (mkTables (tb_orderEvent T) (tb_trade T) (tb_participant T)
              (tb_instrument T ∪ groupMin oe_shardId (tx_events x)) (tb_checkpoint T)) (tx_events x) (tx_trades x)
  | InsertTrades =>
      mkTx (mkTables (tb_orderEvent T) (tb_trade T ∪ list_to_map (keyed tradeKey (tx_trades x)))
              (tb_participant T) (tb_instrument T) (tb_checkpoint T)) (tx_events x) (tx_trades x)
  | UpsertCheckpoint sh cp =>
      mkTx (mkTables (tb_orderEvent T) (tb_trade T) (tb_participant T) (tb_instrument T)
              (<[sh := cp]> (tb_checkpoint T))) (tx_events x) (tx_trades x)
  | _ => x
  end.

(** Not a statement that starts or ends a transaction. *)
Definition inside_tx (s : Stmt) : bool := match s with Begin | Commit | Rollback => false | _ => true end.

(** Statements that all succeed. *)
Inductive ran {D} `{!Postgres D} : D → list Stmt → D → Prop :=
  | ran_nil d : ran d [] d
  | ran_cons d s d1 ss d2 : pg_exec d s = (true, d1) → ran d1 ss d2 → ran d (s :: ss) d2.

(** What the documentation of Postgres and of its client library says: only [COMMIT]
    changes what others see; it makes the whole transaction visible or nothing of it,
    and the whole when it reports success (a failure may be one of the connection,
    after the commit); a query answers what is committed. *)
Class PostgresLaws (D : Type) `{!Postgres D} := {
  pg_connect_quiet d : pg_tables (pg_connect d).2 = pg_tables d;
  pg_finish_quiet d : pg_tables (pg_finish d) = pg_tables d;
  pg_exec_quiet d s : s ≠ Commit → pg_tables (pg_exec d s).2 = pg_tables d;
  pg_select_ok d sh cp :
    pg_tables (pg_select d sh).2 = pg_tables d ∧
    ((pg_select d sh).1 = Some cp → tb_checkpoint (pg_tables d) !! sh = Some cp);
  pg_commit_atomic d d1 body d2 :
    pg_exec d Begin = (true, d1) → ran d1 body d2 → Forall inside_tx body →
    let T := tx_tables (foldl effect (mkTx (pg_tables d) [] []) body) in
    (pg_tables (pg_exec d2 Commit).2 = T ∨
     (pg_exec d2 Commit).1 = false ∧ pg_tables (pg_exec d2 Commit).2 = pg_tables d)
}.

(** ** One batch *)

Section batch.
Context {D : Type} `{!Postgres D} `{!PostgresLaws D}.
Implicit Types w : PgWriter D.

Definition tablesOf w : Tables := pg_tables (pw_db w).

Lemma ran_app d d1 d2 xs ys : ran d xs d1 → ran d1 ys d2 → ran d (xs ++ ys) d2.
Proof. induction 1 as [|? ? ? ? ? ? _ IH]; [done|]. intros H2. econstructor; [done|by apply IH]. Qed.

Lemma execOk_quiet w s ok w' :
  execOk w s = (ok, w') → s ≠ Commit →
  tablesOf w' = tablesOf w ∧ (ok = true → pg_exec (pw_db w) s = (true, pw_db w')).
Proof.
  unfold execOk, tablesOf. pose proof (pg_exec_quiet (pw_db w) s) as Hq.
  destruct (pg_exec (pw_db w) s) as [b db]. intros [= <- <-] Hs. split; [by apply Hq|]. by intros ->.
Qed.

Lemma execAll_quiet w ss ok w' :
  execAll w ss = (ok, w') → Commit ∉ ss →
  tablesOf w' = tablesOf w ∧ (ok = true → ran (pw_db w) ss (pw_db w')).
Proof.
  revert w. induction ss as [|s ss IH]; intros w H Hc; cbn [execAll] in H.
  { injection H as <- <-. split; [done|constructor]. }
  rewrite not_elem_of_cons in Hc. destruct Hc as [Hs Hc].
  destruct (execOk w s) as [b w1] eqn:E. destruct (execOk_quiet _ _ _ _ E) as [Ht Hr]; [done|].
  destruct b; [|by injection H as <- <-].
  destruct (IH w1 H Hc) as [Ht' Hr']. split; [congruence|]. intros Hok. econstructor; auto.
Qed.

Lemma putAll_quiet w ss ok w' :
  putAll w ss = (ok, w') → Commit ∉ ss →
  tablesOf w' = tablesOf w ∧ (ok = true → ran (pw_db w) ss (pw_db w')).
Proof.
  revert w. induction ss as [|s ss IH]; intros w H Hc; cbn [putAll] in H.
  { injection H as <- <-. split; [done|constructor]. }
  rewrite not_elem_of_cons in Hc. destruct Hc as [Hs Hc].
  destruct (execOk w s) as [b w1] eqn:E. destruct (execOk_quiet _ _ _ _ E) as [Ht Hr]; [done|].
  destruct b.
  - destruct (IH w1 H Hc) as [Ht' Hr']. split; [congruence|]. intros Hok. econstructor; auto.
  - injection H as <- <-. split; [|done]. destruct (execOk w1 AbortCopy) as [b2 w2] eqn:E2.
    destruct (execOk_quiet _ _ _ _ E2) as [Ht2 _]; [done|]. cbn [snd]. congruence.
Qed.

(** The statements of a [COPY] and the [INSERT]s behind it. *)
Definition copyStmts (create copy : Stmt) (lines inserts : list Stmt) : list Stmt :=
  match lines with [] => [] | _ => [create; copy] ++ lines ++ [EndCopy; CopyResult] ++ inserts end.

Definition eventStmts (rows : list OrderEventRow) : list Stmt :=
  copyStmts CreateStageEvents CopyStageEvents (PutEvent ∘ eventTuple <$> rows)
    [InsertEvents; InsertParticipants; InsertInstruments].
Definition tradeStmts (rows : list TradeRow) : list Stmt :=
  copyStmts CreateStageTrades CopyStageTrades (PutTrade <$> rows) [InsertTrades].

Lemma copy_quiet w create copy lines inserts ok w' :
  (let '(ok, w) := execAll w [create; copy] in
   if negb ok then (false, w)
   else let '(ok, w) := putAll w lines in
        if negb ok then (false, w) else execAll w ([EndCopy; CopyResult] ++ inserts)) = (ok, w') →
  lines ≠ [] → Commit ∉ copyStmts create copy lines inserts →
  tablesOf w' = tablesOf w ∧ (ok = true → ran (pw_db w) (copyStmts create copy lines inserts) (pw_db w')).
Proof.
  intros H Hne Hc. destruct lines as [|l ls]; [done|].
  change (copyStmts create copy (l :: ls) inserts)
    with ([create; copy] ++ (l :: ls) ++ [EndCopy; CopyResult] ++ inserts) in *.
  rewrite !not_elem_of_app in Hc. destruct Hc as (H1 & H2 & H3).
  destruct (execAll w [create; copy]) as [b1 w1] eqn:E1. destruct (execAll_quiet _ _ _ _ E1) as [T1 R1]; [done|].
  destruct b1; cbn [negb] in H; [|by injection H as <- <-].
  destruct (putAll w1 (l :: ls)) as [b2 w2] eqn:E2. destruct (putAll_quiet _ _ _ _ E2) as [T2 R2]; [done|].
  destruct b2; cbn [negb] in H; [|injection H as <- <-; split; [congruence|done]].
  destruct (execAll_quiet _ _ _ _ H) as [T3 R3]; [by rewrite not_elem_of_app|].
  split; [congruence|]. intros Hok. eapply ran_app; [by apply R1|]. eapply ran_app; [by apply R2|by apply R3].
Qed.

Lemma no_commit {A} (f : A → Stmt) (xs : list A) : (∀ x, f x ≠ Commit) → Commit ∉ f <$> xs.
Proof. intros Hf Hin. apply list_elem_of_fmap in Hin as (x & Hx & _). by apply (Hf x). Qed.

Lemma copyOrderEvents_quiet w rows ok w' :
  copyOrderEvents w rows = (ok, w') →
  tablesOf w' = tablesOf w ∧ (ok = true → ran (pw_db w) (eventStmts rows) (pw_db w')).
Proof.
  intros H. destruct rows as [|r rows]; [injection H as <- <-; split; [done|constructor]|].
  apply (copy_quiet w _ _ _ _ ok w' H); [done|]. unfold copyStmts. cbn [fmap list_fmap].
  pose proof (no_commit (PutEvent ∘ eventTuple) rows ltac:(done)). set_solver.
Qed.

Lemma copyTrades_quiet w rows ok w' :
  copyTrades w rows = (ok, w') →
  tablesOf w' = tablesOf w ∧ (ok = true → ran (pw_db w) (tradeStmts rows) (pw_db w')).
Proof.
  intros H. destruct rows as [|r rows]; [injection H as <- <-; split; [done|constructor]|].
  apply (copy_quiet w _ _ _ _ ok w' H); [done|]. unfold copyStmts. cbn [fmap list_fmap].
  pose proof (no_commit PutTrade rows ltac:(done)). set_solver.
Qed.

Lemma disconnect_quiet w : tablesOf (disconnect w) = tablesOf w.
Proof. unfold disconnect. destruct (pw_conn w); [|done]. apply pg_finish_quiet. Qed.

Lemma rollback_quiet w : tablesOf (rollbackAndDisconnect w).2 = tablesOf w.
Proof.
  unfold rollbackAndDisconnect. cbn [snd]. rewrite disconnect_quiet. destruct (pw_conn w); [|done].
  destruct (execOk w Rollback) as [b w1] eqn:E. by destruct (execOk_quiet _ _ _ _ E) as [? _].
Qed.

Lemma ensureConnected_quiet w : tablesOf (ensureConnected w).2 = tablesOf w.
Proof.
  unfold ensureConnected. destruct (connected w); [done|].
  pose proof (pg_connect_quiet (pw_db (disconnect w))) as Hc. pose proof (disconnect_quiet w) as Hd.
  unfold tablesOf in *. destruct (pg_connect _) as [b db]. cbn in Hc. destruct b; cbn; [congruence|].
  rewrite pg_finish_quiet. congruence.
Qed.

(** The tables with a batch in them. *)
Definition withBatch (T : Tables) (sh : Z) (evs : list OrderEventRow) (trs : list TradeRow) (cp : Checkpoint) : Tables :=
  let ts := eventTuple <$> evs in
  mkTables (tb_orderEvent T ∪ list_to_map (keyed eventKey ts)) (tb_trade T ∪ list_to_map (keyed tradeKey trs))
    (tb_participant T ∪ groupMin oe_participant ts) (tb_instrument T ∪ groupMin oe_shardId ts)
    (<[sh := cp]> (tb_checkpoint T)).

Lemma put_events x evs :
  foldl effect x (PutEvent ∘ eventTuple <$> evs)
    = mkTx (tx_tables x) (tx_events x ++ (eventTuple <$> evs)) (tx_trades x).
Proof.
  revert x. induction evs as [|e evs IH]; intros x; [cbn; rewrite app_nil_r; by destruct x|].
  cbn. rewrite IH. cbn. by rewrite <- app_assoc.
Qed.

Lemma put_trades x trs :
  foldl effect x (PutTrade <$> trs) = mkTx (tx_tables x) (tx_events x) (tx_trades x ++ trs).
Proof.
  revert x. induction trs as [|t trs IH]; intros x; [cbn; rewrite app_nil_r; by destruct x|].
  cbn. rewrite IH. cbn. by rewrite <- app_assoc.
Qed.

Lemma copy_effect x create copy lines inserts :
  (∀ y, effect y create = y) → (∀ y, effect y copy = y) → lines ≠ [] →
  foldl effect x (copyStmts create copy lines inserts) = foldl effect (foldl effect x lines) inserts.
Proof.
  intros H1 H2 Hne. destruct lines as [|l ls]; [done|].
  change (copyStmts _ _ _ _) with ([create; copy] ++ (l :: ls) ++ [EndCopy; CopyResult] ++ inserts).
  rewrite !foldl_app. cbn [foldl]. by rewrite H1, H2.
Qed.

Lemma batch_effect T sh evs trs cp :
  tx_tables (foldl effect (mkTx T [] []) (eventStmts evs ++ tradeStmts trs ++ [UpsertCheckpoint sh cp]))
    = withBatch T sh evs trs cp.
Proof.
  rewrite !foldl_app. set (x := foldl effect (mkTx T [] []) (eventStmts evs)).
  assert (Hx : x = mkTx (mkTables (tb_orderEvent T ∪ list_to_map (keyed eventKey (eventTuple <$> evs))) (tb_trade T)
                (tb_participant T ∪ groupMin oe_participant (eventTuple <$> evs))
                (tb_instrument T ∪ groupMin oe_shardId (eventTuple <$> evs)) (tb_checkpoint T))
                (eventTuple <$> evs) []).
  { unfold x. destruct evs as [|e evs]; [cbn; rewrite !(right_id_L ∅ (∪)); by destruct T|].
    unfold eventStmts. rewrite copy_effect, put_events by done. done. }
  rewrite Hx. destruct trs as [|t trs]; [cbn; unfold withBatch; cbn; by rewrite (right_id_L ∅ (∪) (tb_trade T))|].
  unfold tradeStmts. rewrite copy_effect, put_trades by done. done.
Qed.

Lemma copy_inside create copy lines inserts :
  Forall inside_tx ([create; copy] ++ lines ++ inserts) → Forall inside_tx (copyStmts create copy lines inserts).
Proof.
  intros H. destruct lines as [|l ls]; [constructor|].
  change (copyStmts _ _ _ _) with ([create; copy] ++ (l :: ls) ++ [EndCopy; CopyResult] ++ inserts).
  apply Forall_app in H as [H1 [H2 H3]%Forall_app]. repeat apply Forall_app_2; try done. by repeat constructor.
Qed.

Lemma batch_inside sh evs trs cp :
  Forall inside_tx (eventStmts evs ++ tradeStmts trs ++ [UpsertCheckpoint sh cp]).
Proof.
  repeat apply Forall_app_2; [apply copy_inside..|by repeat constructor];
    (apply Forall_app_2; [by repeat constructor|]); (apply Forall_app_2; [|by repeat constructor]);
    by apply Forall_fmap, Forall_true.
Qed.

(** A batch is stored as a whole or not at all, and as a whole when the writer says so. *)
Lemma writeBatch_ok w sh evs trs cp :
  let T := withBatch (tablesOf w) sh evs trs cp in
  let r := writeBatch w sh evs trs cp in
  tablesOf r.2 = T ∨ r.1 = false ∧ tablesOf r.2 = tablesOf w.
Proof.
  cbv zeta. unfold writeBatch, upsertCheckpoint. pose proof (ensureConnected_quiet w) as T0.
  destruct (ensureConnected w) as [b0 w0]. cbn in T0. destruct b0; cbn [negb]; [|by right].
  destruct (execOk w0 Begin) as [b1 w1] eqn:E1. destruct (execOk_quiet _ _ _ _ E1) as [T1 R1]; [done|].
  destruct b1; cbn [negb]; [|right; split; [done|]; rewrite rollback_quiet; congruence].
  destruct (copyOrderEvents w1 evs) as [b2 w2] eqn:E2. destruct (copyOrderEvents_quiet _ _ _ _ E2) as [T2 R2].
  destruct b2; cbn [negb]; [|right; split; [done|]; rewrite rollback_quiet; congruence].
  destruct (copyTrades w2 trs) as [b3 w3] eqn:E3. destruct (copyTrades_quiet _ _ _ _ E3) as [T3 R3].
  destruct b3; cbn [negb]; [|right; split; [done|]; rewrite rollback_quiet; congruence].
  destruct (execOk w3 (UpsertCheckpoint sh cp)) as [b4 w4] eqn:E4.
  destruct (execOk_quiet _ _ _ _ E4) as [T4 R4]; [done|].
  destruct b4; cbn [negb]; [|right; split; [done|]; rewrite rollback_quiet; congruence].
  pose proof (pg_commit_atomic (pw_db w0) (pw_db w1) (eventStmts evs ++ tradeStmts trs ++ [UpsertCheckpoint sh cp])
    (pw_db w4) (R1 eq_refl)) as Hcommit. cbv zeta in Hcommit.
  rewrite batch_effect in Hcommit. change (pg_tables (pw_db w0)) with (tablesOf w0) in Hcommit. rewrite T0 in Hcommit.
  unfold execOk. destruct (pg_exec (pw_db w4) Commit) as [b5 d5] eqn:E5. cbn [fst snd] in Hcommit.
  destruct Hcommit as [Hc|[-> Hc]].
  { eapply ran_app; [by apply R2|]. eapply ran_app; [by apply R3|]. econstructor; [by apply R4|constructor]. }
  { by apply batch_inside. }
  - left. destruct b5; cbn [negb]; [exact Hc|]. rewrite rollback_quiet. exact Hc.
  - right. cbn [negb]. split; [done|]. rewrite rollback_quiet. exact Hc.
Qed.

(** However often a batch is tried. *)
Lemma flushBatch_ok tries w sh evs trs cp :
  (∀ T, T = tablesOf w ∨ T = withBatch (tablesOf w) sh evs trs cp →
        withBatch T sh evs trs cp = withBatch (tablesOf w) sh evs trs cp) →
  let T := withBatch (tablesOf w) sh evs trs cp in
  let r := flushBatch tries w sh evs trs cp in
  tablesOf r.2 = T ∨ r.1 = false ∧ tablesOf r.2 = tablesOf w.
Proof.
  cbv zeta. set (T0 := tablesOf w). intros Hidem.
  assert (Hgen : ∀ w, (tablesOf w = T0 ∨ tablesOf w = withBatch T0 sh evs trs cp) →
    let r := flushBatch tries w sh evs trs cp in
    tablesOf r.2 = withBatch T0 sh evs trs cp ∨ r.1 = false ∧ tablesOf r.2 = T0); [|apply Hgen; by left].
  induction tries as [|tries IH]; intros w1 Hw1; cbv zeta; cbn [flushBatch];
    pose proof (writeBatch_ok w1 sh evs trs cp) as Hb; cbv zeta in Hb; rewrite (Hidem _ Hw1) in Hb;
    destruct (writeBatch w1 sh evs trs cp) as [ok w2]; cbn [fst snd] in Hb; destruct ok.
  - left. by destruct Hb as [|[? _]].
  - destruct Hb as [Hb|[_ Hb]]; [by left|]. destruct Hw1 as [Hw1|Hw1]; [right|left]; cbn; [|congruence].
    split; [done|congruence].
  - left. by destruct Hb as [|[? _]].
  - apply IH. destruct Hb as [Hb|[_ Hb]]; [by right|]. rewrite Hb. done.
Qed.

End batch.

(** ** The tables of a stretch of the journal *)

Definition firstSeen (k : OrderEventRow → Z) (ts : list EventTuple) : list (Z * Z) :=
  (λ t, (k (et_row t), oe_globalSeq (et_row t))) <$> ts.

Definition tablesFor (c : BookConfig) (sh : Z) (cmds : list Command) (cps : gmap Z Checkpoint) : Tables :=
  let ts := eventTuple <$> eventRows sh cmds in
  mkTables (list_to_map (keyed eventKey ts)) (list_to_map (keyed tradeKey (tradeRows c sh 0 emptyABook cmds)))
    (list_to_map (firstSeen oe_participant ts)) (list_to_map (firstSeen oe_shardId ts)) cps.

(** Grouping rows that come in order finds the first of each group. *)
Lemma groupMin_sorted k ts :
  StronglySorted (λ t t', oe_globalSeq (et_row t) < oe_globalSeq (et_row t')) ts →
  groupMin k ts = list_to_map (firstSeen k ts).
Proof.
  induction 1 as [|t ts Hs IH Ht]; [done|]. cbn. rewrite IH. f_equal.
  destruct (list_to_map (firstSeen k ts) !! _) as [q|] eqn:E; [|done].
  apply elem_of_list_to_map_2 in E. apply list_elem_of_fmap in E as (t' & [= _ ->] & Hin).
  rewrite Forall_forall in Ht. specialize (Ht t' Hin). lia.
Qed.

Section union.
Context {A K V : Type} `{Countable K} (f : A → K * V).

Lemma absorb_rows (xs ys : list A) :
  (∀ y, y ∈ ys → y ∈ xs) → (list_to_map (f <$> xs) ∪ list_to_map (f <$> ys) : gmap K V) = list_to_map (f <$> xs).
Proof.
  intros Hsub. apply map_eq. intros k. rewrite lookup_union.
  destruct (list_to_map (f <$> xs) !! k) as [v|] eqn:Ex; [by rewrite union_Some_l|].
  rewrite (left_id_L None (∪)). apply not_elem_of_list_to_map in Ex.
  apply not_elem_of_list_to_map. intros Hin. apply Ex.
  apply list_elem_of_fmap in Hin as (kv & -> & Hkv). apply list_elem_of_fmap in Hkv as (y & -> & Hy).
  apply list_elem_of_fmap_2, list_elem_of_fmap_2. by apply Hsub.
Qed.

(** Rows [xs] are there; a batch of the rows behind [ks], some of which may be there
    too, is added. *)
Lemma union_rows (ks ys xs : list A) :
  ks `prefix_of` xs →
  (ks ++ ys `prefix_of` xs → (list_to_map (f <$> xs) ∪ list_to_map (f <$> ys) : gmap K V) = list_to_map (f <$> xs)) ∧
  (xs `prefix_of` ks ++ ys →
     (list_to_map (f <$> xs) ∪ list_to_map (f <$> ys) : gmap K V) = list_to_map (f <$> (ks ++ ys))).
Proof.
  intros [es ->]. split.
  - intros [zs Hz]. rewrite <- app_assoc in Hz. apply app_inv_head in Hz as ->. apply absorb_rows.
    intros y Hy. set_solver.
  - intros [zs Hz]. rewrite <- app_assoc in Hz. apply app_inv_head in Hz as ->.
    rewrite (fmap_app f es zs), list_to_map_app, (assoc_L (∪)), absorb_rows by set_solver.
    by rewrite <- list_to_map_app, <- fmap_app, <- app_assoc.
Qed.
End union.

Lemma eventRows_sorted sh cmds :
  StronglySorted (λ t t', oe_globalSeq (et_row t) < oe_globalSeq (et_row t')) (eventTuple <$> eventRows sh cmds).
Proof.
  induction cmds as [|x xs IH] using rev_ind; [constructor|]. rewrite eventRows_snoc, fmap_app.
  apply StronglySorted_app. split; [|split; [done|by repeat constructor]].
  intros t t' Ht Ht'. apply list_elem_of_singleton in Ht' as ->. apply list_elem_of_fmap in Ht as (r & -> & Hr).
  apply list_elem_of_lookup in Hr as [i Hi]. rewrite eventRows_lookup in Hi.
  destruct (xs !! i) as [y|] eqn:Ey; [|done]. injection Hi as <-. apply lookup_lt_Some in Ey. cbn. lia.
Qed.

Lemma sorted_suffix {A} (R : A → A → Prop) xs ys : StronglySorted R (xs ++ ys) → StronglySorted R ys.
Proof. intros Hs. by apply StronglySorted_app in Hs as (_ & _ & Hs). Qed.

(** The batch of the commands [ys] behind [ks]. *)
Lemma withBatch_rows c sh ks ys xs cps cp evs trs :
  ks `prefix_of` xs → eventRows sh ys = eventRows sh ks ++ evs →
  tradeRows c sh 0 emptyABook ys = tradeRows c sh 0 emptyABook ks ++ trs →
  (ys `prefix_of` xs ∨ xs `prefix_of` ys) →
  ∃ zs, (zs = xs ∧ ys `prefix_of` xs ∨ zs = ys ∧ xs `prefix_of` ys) ∧
    withBatch (tablesFor c sh xs cps) sh evs trs cp = tablesFor c sh zs (<[sh := cp]> cps).
Proof.
  intros Hk Hev Htr Hcmp. pose proof (eventRows_sorted sh ys) as Hs. rewrite Hev, fmap_app in Hs.
  apply sorted_suffix in Hs. unfold withBatch, tablesFor. rewrite !groupMin_sorted by done.
  cbn [tb_orderEvent tb_trade tb_participant tb_instrument tb_checkpoint]. unfold keyed, firstSeen.
  assert (He : ∀ l, eventTuple <$> eventRows sh ks ++ l = (eventTuple <$> eventRows sh ks) ++ (eventTuple <$> l))
    by (intros; apply fmap_app).
  assert (Hkx : (eventTuple <$> eventRows sh ks) `prefix_of` (eventTuple <$> eventRows sh xs)).
  { destruct (eventRows_prefix sh _ _ Hk) as [l ->]. rewrite fmap_app. by eexists. }
  pose proof (tradeRows_prefix c sh 0 emptyABook _ _ Hk) as Hkt.
  destruct Hcmp as [Hc|Hc]; [exists xs; split; [by left|]|exists ys; split; [by right|]].
  - assert (Hyx : (eventTuple <$> eventRows sh ks) ++ (eventTuple <$> evs) `prefix_of` (eventTuple <$> eventRows sh xs)).
    { rewrite <- fmap_app, <- Hev. destruct (eventRows_prefix sh _ _ Hc) as [l ->]. rewrite fmap_app. by eexists. }
    assert (Hyt : tradeRows c sh 0 emptyABook ks ++ trs `prefix_of` tradeRows c sh 0 emptyABook xs)
      by (rewrite <- Htr; by apply tradeRows_prefix).
    f_equal; [exact (proj1 (union_rows _ _ _ _ Hkx) Hyx)|exact (proj1 (union_rows _ _ _ _ Hkt) Hyt)|..];
      exact (proj1 (union_rows _ _ _ _ Hkx) Hyx).
  - assert (Hyx : (eventTuple <$> eventRows sh xs) `prefix_of` (eventTuple <$> eventRows sh ks) ++ (eventTuple <$> evs)).
    { rewrite <- fmap_app, <- Hev. destruct (eventRows_prefix sh _ _ Hc) as [l ->]. rewrite fmap_app. by eexists. }
    assert (Hyt : tradeRows c sh 0 emptyABook xs `prefix_of` tradeRows c sh 0 emptyABook ks ++ trs)
      by (rewrite <- Htr; by apply tradeRows_prefix).
    rewrite Hev, He, Htr.
    f_equal; [exact (proj2 (union_rows _ _ _ _ Hkx) Hyx)|exact (proj2 (union_rows _ _ _ _ Hkt) Hyt)|..];
      exact (proj2 (union_rows _ _ _ _ Hkx) Hyx).
Qed.

(** ** Trade ids *)

Definition numbered (tid : Z) (ts : list Trade) : Prop := t_id <$> ts = seqZ tid (Z.of_nat (length ts)).

Lemma amatch_numbered stp inc tid rem os :
  let r := amatch stp inc tid rem os in
  0 <= tid → tid + Z.of_nat (length (am_trades r)) <= INT64_MAX →
  numbered tid (am_trades r) ∧ am_tid r = tid + Z.of_nat (length (am_trades r)).
Proof.
  unfold numbered. revert tid rem. induction os as [|o os IH]; intros tid rem; cbn [amatch]; cbv zeta.
  { intros. cbn. split; [done|lia]. }
  destruct (negb (0 <? rem)); [intros; cbn; split; [done|lia]|].
  destruct (negb (crosses _ _ _ _)); [intros; cbn; split; [done|lia]|].
  destruct (ao_participant o =? n_participant inc).
  { destruct stp; [intros; cbn; split; [done|lia]| |intros; cbn; split; [done|lia]].
    cbn [am_trades am_tid]. apply IH. }
  destruct (_ =? 0); cbn [am_trades am_tid length fmap list_fmap]; intros H0 Hl.
  - assert (s64 (tid + 1) = tid + 1) as E by (s64_small; lia). rewrite E in *.
    destruct (IH (tid + 1) (rem - Z.min rem (ao_remaining o))) as [H1 H2]; [lia|lia|].
    rewrite H1, H2. split; [|lia]. rewrite (seqZ_cons tid) by lia. cbn. repeat f_equal; lia.
  - split; [|s64_small; lia]. rewrite (seqZ_cons tid) by lia. done.
Qed.

Lemma asubmit_numbered c a inc :
  let x := asubmit c a inc in
  0 <= ab_tid a → ab_tid a + Z.of_nat (length (out_trades x)) <= INT64_MAX →
  numbered (ab_tid a) (out_trades x) ∧ ab_tid (out_book x) = ab_tid a + Z.of_nat (length (out_trades x)).
Proof.
  cbv zeta. unfold asubmit. destruct (averdict c a inc); [intros; cbn; split; [done|lia]|].
  assert (out_trades (aexecute c a inc) = am_trades (amatched c a inc)) as ->.
  { unfold aexecute, adispose. by repeat case_match. }
  assert (ab_tid (out_book (aexecute c a inc)) = am_tid (amatched c a inc)) as ->.
  { unfold aexecute, adispose. repeat case_match; try done; by destruct (n_side inc). }
  apply amatch_numbered.
Qed.

Lemma answer_numbered c a cmd :
  let x := aanswer c a cmd in
  0 <= ab_tid a → ab_tid a + Z.of_nat (length (ans_trades x)) <= INT64_MAX →
  numbered (ab_tid a) (ans_trades x) ∧ ab_tid (ans_book x) = ab_tid a + Z.of_nat (length (ans_trades x)).
Proof.
  cbv zeta. assert (Hcan : ab_tid (acancel a (cm_id cmd)).1 = ab_tid a) by (unfold acancel; by case_match).
  unfold aanswer. destruct (cm_kind cmd); cbn [ans_trades ans_book].
  - apply asubmit_numbered.
  - intros. split; [done|]. cbn. lia.
  - unfold areplace. repeat (case_match; [intros; cbn; split; [done|lia]|]).
    destruct (acancel a (cm_id cmd)) as [a1 r1]. cbn [fst] in *. rewrite <- Hcan. apply asubmit_numbered.
Qed.

Lemma tradeRows_numbered c sh q a cmds :
  0 <= ab_tid a → ab_tid a + Z.of_nat (length (tradeRows c sh q a cmds)) <= INT64_MAX →
  tw_tradeId <$> tradeRows c sh q a cmds = seqZ (ab_tid a) (Z.of_nat (length (tradeRows c sh q a cmds))).
Proof.
  revert q a. induction cmds as [|cmd cmds IH]; intros q a H0 Hl; [done|].
  cbn [tradeRows] in *. rewrite length_app, length_fmap in *.
  destruct (answer_numbered c a cmd H0 ltac:(lia)) as [Hn Ht].
  rewrite fmap_app, <- list_fmap_compose, IH, Ht by lia.
  rewrite Nat2Z.inj_add, seqZ_app by lia. f_equal. exact Hn.
Qed.

(** ** What the tables hold *)

(** The trades in a stream of events, with the number of their command. *)
Definition publishedTrades (es : list OutboundEvent) : list (Trade * Z) :=
  omap (λ e, match e_payload e with TradeEvent t => Some (t, e_globalSeq e) | _ => None end) es.

(** The tables show the commands [cmds] and the trades the engine published for them,
    and nothing else. *)
Record audited (c : BookConfig) (sh : Z) (cmds : list Command) (T : Tables) : Prop := {
  au_event i cmd : cmds !! i = Some cmd →
    tb_orderEvent T !! (sh, Z.of_nat i + 1) = Some (eventTuple (evRow sh (Z.of_nat i + 1) cmd));
  au_only_events k t : tb_orderEvent T !! k = Some t → ∃ i, k = (sh, Z.of_nat i + 1) ∧ (i < length cmds)%nat;
  au_trade t q : (t, q) ∈ publishedTrades (arun c 0 emptyABook cmds).2 →
    tb_trade T !! (sh, t_id t) = Some (tradeRow q sh t);
  au_only_trades k r : tb_trade T !! k = Some r →
    ∃ t q, (t, q) ∈ publishedTrades (arun c 0 emptyABook cmds).2 ∧ k = (sh, t_id t) ∧ r = tradeRow q sh t
}.

Lemma published_app xs ys : publishedTrades (xs ++ ys) = publishedTrades xs ++ publishedTrades ys.
Proof. apply omap_app. Qed.

Lemma published_trades q ts : publishedTrades (tradeEvents q ts) = (λ t, (t, q)) <$> ts.
Proof. induction ts as [|t ts IH]; [done|]. cbn. by f_equal. Qed.

Lemma published_victims q vs : publishedTrades (victimEvents q vs) = [].
Proof. by induction vs. Qed.

Lemma published_events c a q cmd :
  publishedTrades (events q cmd (aanswer c a cmd)) = (λ t, (t, q)) <$> ans_trades (aanswer c a cmd).
Proof.
  assert (Hfate : ∀ id s r, publishedTrades [fateEvent q id s r] = []) by (intros; unfold fateEvent; by case_match).
  unfold aanswer, events. destruct (cm_kind cmd); cbn [ans_trades].
  - rewrite !published_app, published_trades, published_victims, Hfate. case_match; cbn; by rewrite ?app_nil_r.
  - case_match; done.
  - assert (Hnone : (areplace c a (cm_id cmd) (toFreshOrder cmd)).2 = None →
      out_trades (areplace c a (cm_id cmd) (toFreshOrder cmd)).1 = []).
    { unfold areplace. repeat (case_match; [done|]). by destruct (acancel a (cm_id cmd)). }
    destruct (areplace c a (cm_id cmd) (toFreshOrder cmd)).2 as [o|]; [|by rewrite Hnone].
    rewrite !published_app, published_trades, published_victims.
    change ([statusEvent (cm_newId cmd) (r_status (out_result (areplace c a (cm_id cmd) (toFreshOrder cmd)).1)) q;
             fateEvent q (cm_newId cmd) (cm_side cmd) (out_result (areplace c a (cm_id cmd) (toFreshOrder cmd)).1)])
      with ([statusEvent (cm_newId cmd) (r_status (out_result (areplace c a (cm_id cmd) (toFreshOrder cmd)).1)) q] ++
            [fateEvent q (cm_newId cmd) (cm_side cmd) (out_result (areplace c a (cm_id cmd) (toFreshOrder cmd)).1)]).
    rewrite published_app, Hfate. cbn. by rewrite app_nil_r.
Qed.

Lemma tradeRows_published c sh q a cmds :
  0 <= q → q + Z.of_nat (length cmds) <= INT64_MAX →
  tradeRows c sh q a cmds = (λ p, tradeRow p.2 sh p.1) <$> publishedTrades (arun c q a cmds).2.
Proof.
  revert q a. induction cmds as [|cmd cmds IH]; intros q a H0 Hq; [done|].
  cbn [length] in Hq. cbn [arun tradeRows snd]. rewrite published_app, fmap_app, published_events.
  assert (s64 (q + 1) = q + 1) as -> by (s64_small; lia).
  rewrite <- list_fmap_compose, <- IH by lia. done.
Qed.

Lemma keyed_lookup {A K} `{Countable K} (key : A → K) (xs : list A) x :
  NoDup (key <$> xs) → x ∈ xs → (list_to_map (keyed key xs) : gmap K A) !! key x = Some x.
Proof.
  intros Hnd Hx. apply elem_of_list_to_map_1.
  - unfold keyed. by rewrite <- list_fmap_compose.
  - apply list_elem_of_fmap. by exists x.
Qed.

Lemma keyed_inv {A K} `{Countable K} (key : A → K) (xs : list A) k x :
  (list_to_map (keyed key xs) : gmap K A) !! k = Some x → x ∈ xs ∧ k = key x.
Proof.
  intros Hk. apply elem_of_list_to_map_2 in Hk. apply list_elem_of_fmap in Hk as (y & [= -> ->] & Hy). done.
Qed.

Lemma eventKeys_nodup sh cmds : NoDup (eventKey <$> (eventTuple <$> eventRows sh cmds)).
Proof.
  apply NoDup_alt. intros i j k Hi Hj. rewrite !list_lookup_fmap, eventRows_lookup in Hi, Hj.
  destruct (cmds !! i), (cmds !! j); simplify_eq/=. lia.
Qed.

Lemma tradeKeys_nodup c sh cmds :
  Z.of_nat (length (tradeRows c sh 0 emptyABook cmds)) <= INT64_MAX →
  NoDup (tradeKey <$> tradeRows c sh 0 emptyABook cmds).
Proof.
  intros Hn. apply (NoDup_fmap_1 snd). rewrite <- list_fmap_compose.
  change (snd ∘ tradeKey) with tw_tradeId. rewrite tradeRows_numbered by done. apply NoDup_seqZ.
Qed.

Lemma tablesFor_audited c sh cmds cps :
  Z.of_nat (length cmds) <= INT64_MAX → Z.of_nat (length (tradeRows c sh 0 emptyABook cmds)) <= INT64_MAX →
  audited c sh cmds (tablesFor c sh cmds cps).
Proof.
  intros Hl Hn. pose proof (tradeRows_published c sh 0 emptyABook cmds ltac:(lia) ltac:(lia)) as Hpub.
  split; unfold tablesFor; cbn [tb_orderEvent tb_trade].
  - intros i cmd Hi. apply (keyed_lookup eventKey _ (eventTuple (evRow sh (Z.of_nat i + 1) cmd))).
    + apply eventKeys_nodup.
    + apply list_elem_of_fmap_2, (list_elem_of_lookup_2 _ i). by rewrite eventRows_lookup, Hi.
  - intros k t Hk. apply keyed_inv in Hk as [Ht ->]. apply list_elem_of_fmap in Ht as (r & -> & Hr).
    apply list_elem_of_lookup in Hr as [i Hi]. rewrite eventRows_lookup in Hi.
    destruct (cmds !! i) eqn:Ei; [|done]. injection Hi as <-. exists i. split; [done|]. by eapply lookup_lt_Some.
  - intros t q Ht. apply (keyed_lookup tradeKey _ (tradeRow q sh t)); [by apply tradeKeys_nodup|].
    rewrite Hpub. apply list_elem_of_fmap. by exists (t, q).
  - intros k r Hk. apply keyed_inv in Hk as [Hr ->]. rewrite Hpub in Hr.
    apply list_elem_of_fmap in Hr as ([t q] & -> & Hr). by exists t, q.
Qed.
