(* ===== verification/AuditClaims.v ===== *)
(** The audit daemon: what its tables hold after any run. *)
From stdpp Require Import gmap sorting.
From S2P Require Import Prelude Types ObjectPool PriceLevel LevelMap OrderBook AbstractBook BookRepr BookRefine.
From S2P Require Import BookSpec BookProps BookClaims BookWalk.
From S2P Require Import Wire Messages Crc32 Events MatchingThread JournalFormat JournalWriter JournalReader.
From S2P Require Import JournalSpec JournalCrash JournalDurable JournalTailer SpscRing Sequencer Snapshot Recovery.
From S2P Require Import AuditDaemon AuditSpec.

(** A tailer started from [cp] goes on behind record [j]. *)
Definition resumes (fs : list (Z * FileSpec)) (cp : Checkpoint) (j : nat) : Prop :=
  ∃ t, tailing fs t j ∧ checkpoint t = cp.

(** The database holds the rows of the first [m] commands, and its checkpoint, if there
    is one, is not ahead of them. *)
Definition stored {D} `{!Postgres D} (fs : list (Z * FileSpec)) (c : BookConfig) (sh : Z) (cmds : list Command)
    (m : nat) (w : PgWriter D) : Prop :=
  ∃ cps, tablesOf w = tablesFor c sh (take m cmds) cps ∧
    ∀ cp, cps !! sh = Some cp → ∃ j, (j <= m)%nat ∧ resumes fs cp j.

(** The checkpoint in the database is the one behind record [m]. *)
Definition checkpointAt {D} `{!Postgres D} (fs : list (Z * FileSpec)) (sh : Z) (m : nat) (w : PgWriter D) : Prop :=
  ∃ cp, tb_checkpoint (tablesOf w) !! sh = Some cp ∧ resumes fs cp m.

Section daemon.
Context {D : Type} `{!Postgres D} `{!PostgresLaws D}.
Context (c : BookConfig) (sh : Z) (all : list Command).
Context (Hc : config_ok c) (Hall : commands_ok c all).

(** The database the daemon was started with holds the rows of the first [m0] commands. *)
Context (m0 : nat).

(** [n] records were applied, the rows of the first [k] of them have left the batch,
    and the tables hold the rows of the first [m] commands; as soon as these are more
    than at the start, the checkpoint is that of the same [m]. *)
Record audit_ok (fs : list (Z * FileSpec)) (s : AuditShard D) (k n m : nat) : Prop := {
  ao_tailing : tailing fs (as_tailer s) n;
  ao_replayer : replayer_ok c sh (as_replayer s) (stateAfter c (take n all));
  ao_events : eventRows sh (take n all) = eventRows sh (take k all) ++ as_events s;
  ao_trades : tradeRows c sh 0 emptyABook (take n all) = tradeRows c sh 0 emptyABook (take k all) ++ as_trades s;
  ao_tables : stored fs c sh all m (as_writer s);
  ao_exact : m = m0 ∨ checkpointAt fs sh m (as_writer s);
  ao_kept : (m0 <= m <= m0 `max` n)%nat;
  ao_counts : (k <= m)%nat ∧ (k <= n)%nat ∧ (n <= length all)%nat ∧ (m <= length all)%nat
}.

Lemma take_prefix {A} (l : list A) i j : (i <= j)%nat → take i l `prefix_of` take j l.
Proof. intros Hij. exists (drop i (take j l)). by rewrite <- (take_drop i (take j l)) at 1; rewrite take_take, Nat.min_l. Qed.

Lemma withBatch_take k n m cps cp evs trs :
  (k <= m)%nat → (n <= length all)%nat → (m <= length all)%nat →
  eventRows sh (take n all) = eventRows sh (take k all) ++ evs →
  tradeRows c sh 0 emptyABook (take n all) = tradeRows c sh 0 emptyABook (take k all) ++ trs →
  withBatch (tablesFor c sh (take m all) cps) sh evs trs cp
    = tablesFor c sh (take (m `max` n) all) (<[sh := cp]> cps).
Proof.
  intros Hk Hn Hm He Ht.
  destruct (withBatch_rows c sh (take k all) (take n all) (take m all) cps cp evs trs) as (zs & Hz & ->);
    [by apply take_prefix|done|done| |].
  { destruct (decide (n <= m)%nat); [left|right]; apply take_prefix; lia. }
  f_equal. destruct Hz as [[-> Hp]|[-> Hp]]; apply prefix_length in Hp; rewrite !length_take in Hp.
  - by rewrite Nat.max_l by lia.
  - by rewrite Nat.max_r by lia.
Qed.

Lemma flush_ok fs tries s k n m :
  audit_ok fs s k n m →
  ∃ k' m', audit_ok fs (flush tries s).2 k' n m' ∧ (m <= m')%nat ∧ ((flush tries s).1 = true → (n <= m')%nat).
Proof.
  intros [H1 H2 H3 H4 (cps & HT & Hcp) Hex Hkp (Hkm & Hkn & Hn & Hm)]. unfold flush.
  destruct (bool_decide (as_events s = []) && bool_decide (as_trades s = [])) eqn:E.
  { apply andb_true_iff in E as [E%bool_decide_eq_true _]. exists k, m.
    assert (k = n).
    { apply (f_equal length) in H3. rewrite E, app_nil_r in H3. unfold eventRows in H3.
      rewrite !length_imap, !length_take in H3. lia. }
    split; [split; try done; by eexists|]. split; [done|]. intros _. lia. }
  set (cp := checkpoint (as_tailer s)). rewrite (ro_shard _ _ _ _ H2).
  assert (Hw : ∀ m' cps', (k <= m')%nat → (m' <= length all)%nat →
    withBatch (tablesFor c sh (take m' all) cps') sh (as_events s) (as_trades s) cp
      = tablesFor c sh (take (m' `max` n) all) (<[sh := cp]> cps')) by (intros; by apply (withBatch_take k)).
  pose proof (flushBatch_ok tries (as_writer s) sh (as_events s) (as_trades s) cp) as Hf. cbv zeta in Hf.
  rewrite HT, Hw in Hf by done.
  assert (Hnew : ∀ cp', <[sh := cp]> cps !! sh = Some cp' → ∃ j, (j <= m `max` n)%nat ∧ resumes fs cp' j).
  { intros cp'. rewrite lookup_insert_eq. intros [= <-]. exists n. split; [lia|]. by exists (as_tailer s). }
  assert (Hat : ∀ w : PgWriter D, tablesOf w = tablesFor c sh (take (m `max` n) all) (<[sh := cp]> cps) →
    (m `max` n)%nat = m0 ∨ checkpointAt fs sh (m `max` n) w).
  { intros w Hw'. destruct (decide (n <= m0)%nat); [left; lia|right]. exists cp. rewrite Hw'. cbn.
    rewrite lookup_insert_eq. split; [done|]. exists (as_tailer s). by rewrite Nat.max_r by lia. }
  destruct (flushBatch tries _ _ _ _ _) as [ok w] eqn:Ef. cbn [fst snd] in Hf.
  destruct Hf as [Hf|[-> Hf]].
  { intros T [-> | ->]; rewrite ?HT, ?Hw by lia; [done|].
    rewrite insert_insert_eq. do 2 f_equal. lia. }
  - destruct ok; cbn [fst snd].
    + exists n, (m `max` n)%nat. split; [|split; [lia|intros; lia]].
      split; cbn [as_tailer as_replayer as_events as_trades as_writer]; try done; try lia;
        [by rewrite app_nil_r|by rewrite app_nil_r|by eexists|by apply Hat].
    + exists k, (m `max` n)%nat. split; [|split; [lia|done]].
      split; cbn [as_tailer as_replayer as_events as_trades as_writer]; try done; try lia; [by eexists|by apply Hat].
  - exists k, m. split; [|split; [lia|done]].
    split; cbn [as_tailer as_replayer as_events as_trades as_writer snd]; try done; [by eexists|].
    unfold checkpointAt in *. by rewrite Hf, <- HT.
Qed.

(** One record is applied. *)
Lemma apply_ok fs s t k n m r cmd :
  audit_ok fs s k n m → all !! n = Some cmd → carries r cmd → jr_seq r = Z.of_nat n + 1 →
  tailing fs t (S n) →
  ∃ A evs trs, auditApply (as_replayer s) (tailOk r) (as_events s) (as_trades s) = Some (A, evs, trs) ∧
    audit_ok fs (mkAuditShard (as_writer s) t A evs trs) k (S n) m.
Proof.
  intros [H1 H2 H3 H4 H5 Hex Hkp (Hkm & Hkn & Hn & Hm)] Hcmd Hcar Hseq Ht. destruct Hall as (Hval & Hi64 & Hlen).
  pose proof (lookup_lt_Some _ _ _ Hcmd) as Hlt.
  destruct (stateAfter_ok c (take n all) Hc (commands_take c all n Hall)) as (Hw & _ & Hsq).
  rewrite length_take in Hsq.
  destruct (auditApply_ok c sh (as_replayer s) (stateAfter c (take n all)) (tailOk r) cmd (as_events s) (as_trades s) Hc H2)
    as (A' & -> & HA); [by destruct r|rewrite Forall_lookup in Hval; by eapply Hval|lia|].
  eexists _, _, _. split; [done|].
  split; cbn [as_tailer as_replayer as_events as_trades as_writer]; try done; try lia.
  - by rewrite (take_S_r _ _ _ Hcmd), stateAfter_snoc.
  - rewrite (take_S_r _ _ _ Hcmd), eventRows_snoc, H3, length_take_le, <- app_assoc by lia.
    cbn [tailOk tr_seq]. by rewrite Hseq.
  - rewrite (take_S_r _ _ _ Hcmd), tradeRows_app, H4, length_take_le, <- app_assoc by lia.
    cbn [tradeRows tailOk tr_seq]. rewrite Hseq, app_nil_r. done.
Qed.

(** One turn of the loop. *)
Lemma auditTurn_ok fs batch tries s k n m :
  live fs → Forall2 carries (records fs) (take (length (records fs)) all) → audit_ok fs s k n m →
  ∃ go s' k' n' m', auditTurn batch (dirOf fs) tries s = Some (go, s') ∧ audit_ok fs s' k' n' m' ∧
    (n <= n')%nat ∧ (m <= m')%nat.
Proof.
  intros Hl Hcar Hs. unfold auditTurn.
  destruct (tailNext_ok fs (as_tailer s) n Hl (ao_tailing _ _ _ _ _ Hs)) as (x & t & -> & Hx). simpl_bind.
  destruct Hx as [(r & Hr & -> & Ht)|(-> & Ht & _)]; cbn [tailOk notYet tr_status].
  - destruct (Forall2_lookup_l _ _ _ _ _ Hcar Hr) as (cmd & Hcmd & Hcr).
    apply lookup_take_Some in Hcmd as [Hcmd _].
    assert (Hseq : jr_seq r = Z.of_nat n + 1).
    { apply (consecutive_nth (records fs)); [apply Hl|done|]. apply lookup_lt_Some in Hr. pose proof (lv_count fs Hl). lia. }
    destruct (apply_ok fs s t k n m r cmd Hs Hcmd Hcr Hseq Ht) as (A & evs & trs & Ha & Hs1).
    cbn [as_replayer as_events as_trades as_writer]. rewrite Ha. simpl_bind.
    destruct (batch <=? length evs)%nat.
    + destruct (flush_ok fs tries _ _ _ _ Hs1) as (k' & m' & Hs2 & Hm & _).
      destruct (flush tries _) as [go s2]. exists go, s2, k', (S n), m'. split; [done|]. split; [done|]. lia.
    + eexists _, _, k, (S n), m. split; [done|]. split; [exact Hs1|]. lia.
  - assert (Hs1 : audit_ok fs (mkAuditShard (as_writer s) t (as_replayer s) (as_events s) (as_trades s)) k n m)
      by (destruct Hs; by split).
    destruct (flush_ok fs tries _ _ _ _ Hs1) as (k' & m' & Hs2 & Hm & _).
    destruct (flush tries _) as [go s2]. exists go, s2, k', n, m'. split; [done|]. split; [done|]. lia.
Qed.

Lemma resumes_grows fs fs' cp j : live fs → grows fs fs' → resumes fs cp j → resumes fs' cp j.
Proof. intros Hl Hg (t & Ht & Hcp). exists t. split; [by apply (tailing_grows fs)|done]. Qed.

Lemma audit_grows fs fs' s k n m : live fs → grows fs fs' → audit_ok fs s k n m → audit_ok fs' s k n m.
Proof.
  intros Hl Hg [H1 H2 H3 H4 (cps & HT & Hcp) H5 H6 H7]. split; try done; [by apply (tailing_grows fs)| |].
  - exists cps. split; [done|]. intros cp E. destruct (Hcp cp E) as (j & Hj & Hr). eauto using resumes_grows.
  - destruct H5 as [?|(cp & Hcp' & Hr)]; [by left|right]. exists cp. eauto using resumes_grows.
Qed.

Lemma follows_grows fs acts fs' s k n m : live fs → follows fs acts fs' → audit_ok fs s k n m → audit_ok fs' s k n m.
Proof.
  intros Hl Hf. induction Hf as [fs|fs a fs1 acts fs2 Ha Hf IH]; [done|]. intros Hs.
  apply finds_live in Ha as [Hg Hl1]. apply IH; [done|]. by apply (audit_grows fs).
Qed.

Lemma follows_records fs acts fs' : live fs → follows fs acts fs' → records fs `prefix_of` records fs'.
Proof.
  intros Hl Hf. induction Hf as [fs|fs a fs1 acts fs2 Ha Hf IH]; [done|].
  apply finds_live in Ha as [Hg Hl1]. etransitivity; [by apply (records_grow fs fs1)|by apply IH].
Qed.

Lemma carries_prefix rs rs' : rs `prefix_of` rs' → Forall2 carries rs' all → Forall2 carries rs (take (length rs) all).
Proof.
  intros [zs ->] Hf. apply Forall2_app_inv_l in Hf as (xs & ys & Hxs & _ & He). rewrite He.
  by rewrite (Forall2_length _ _ _ Hxs), take_app_length.
Qed.

Lemma auditLoop_ok batch turns fs fs' s k n m :
  live fs → follows fs (Poll <$> turns.*1) fs' → Forall2 carries (records fs') all → audit_ok fs s k n m →
  ∃ s' k' n' m', auditLoop batch turns s = Some s' ∧ audit_ok fs' s' k' n' m' ∧ (m <= m')%nat.
Proof.
  intros Hl Hf Hcar. revert fs s k n m Hl Hf.
  induction turns as [|[d tries] turns IH]; intros fs s k n m Hl Hf Hs; cbn [fmap list_fmap fst] in Hf.
  { inversion Hf; subst. exists s, k, n, m. done. }
  inversion Hf as [|? ? fs1 ? ? Ha Hf1]; subst. inversion Ha as [fs0 Hg Hl1 Hd|]; subst.
  cbn [auditLoop].
  destruct (auditTurn_ok fs1 batch tries s k n m Hl1) as (go & s1 & k1 & n1 & m1 & -> & Hs1 & _ & Hm1);
    [|by apply (audit_grows fs)|].
  { eapply carries_prefix; [|exact Hcar]. by eapply follows_records. }
  simpl_bind. destruct go.
  - destruct (IH fs1 s1 k1 n1 m1 Hl1 Hf1 Hs1) as (s' & k' & n' & m' & Hr & Hs' & Hm').
    exists s', k', n', m'. split; [done|]. split; [done|lia].
  - exists s1, k1, n1, m1. split; [done|]. split; [by eapply follows_grows|done].
Qed.

Lemma loadCheckpoint_none (w : PgWriter D) cp :
  tb_checkpoint (tablesOf w) !! sh = None →
  ∃ b w', loadCheckpoint w sh cp = (b, cp, w') ∧ tablesOf w' = tablesOf w.
Proof.
  intros Hn. unfold loadCheckpoint. pose proof (ensureConnected_quiet w) as Hq.
  destruct (ensureConnected w) as [ok w1]. cbn [snd] in Hq. destruct ok; cbn [negb]; [|by eexists _, _].
  pose proof (pg_select_ok (pw_db w1) sh) as Hsel. destruct (pg_select (pw_db w1) sh) as [[cp'|] db].
  - destruct (Hsel cp') as [_ Hs]. specialize (Hs eq_refl). change (pg_tables (pw_db w1)) with (tablesOf w1) in Hs.
    congruence.
  - destruct (Hsel cp) as [Ht _]. eexists _, _. split; [done|]. unfold tablesOf in *. cbn in *. congruence.
Qed.

Lemma replayerNew_ok : replayer_ok c sh (replayerNew sh c) emptyABook.
Proof.
  split; cbn [replayerNew ar_shardId ar_book ar_tradeStorage]; [done|by apply bookNew_ok|by apply emptyABook_wf|].
  rewrite length_replicate. pose proof (co_orders c Hc). lia.
Qed.

Lemma auditStart_ok fs w fromScratch :
  live fs → JournalTailer.ready fs → stored fs c sh all m0 w → (m0 <= length all)%nat →
  (fromScratch = true ∨ tb_checkpoint (tablesOf w) !! sh = None) →
  ∃ s, auditStart (dirOf fs) w sh c fromScratch = Some s ∧ audit_ok fs s 0 0 m0.
Proof.
  intros Hl Hr Hst Hm Hcp. unfold auditStart.
  destruct (tailerNew_fresh fs (mkCheckpoint 0 0 0) Hl Hr eq_refl) as (t & Ht & Htl).
  assert (Hgo : ∀ w', tablesOf w' = tablesOf w → audit_ok fs (mkAuditShard w' t (replayerNew sh c) [] []) 0 0 m0).
  { intros w' Hw'. split; cbn [as_tailer as_replayer as_events as_trades as_writer]; try done; try lia.
    - apply replayerNew_ok.
    - unfold stored in *. by rewrite Hw'. }
  destruct fromScratch.
  - rewrite Ht. simpl_bind. eexists. split; [done|]. by apply Hgo.
  - destruct Hcp as [?|Hn]; [done|]. destruct (loadCheckpoint_none w (mkCheckpoint 0 0 0) Hn) as (b & w' & -> & Hw').
    rewrite Ht. simpl_bind. eexists. split; [done|]. by apply Hgo.
Qed.
End daemon.

(** C10: the audit tables are the journal and the engine's trades.  The daemon is started
    without a checkpoint, or from scratch, on the journal of a live writer whose
    segments have complete headers, with tables that hold nothing but rows of the first
    [m0] commands of that journal.  It never fails (in particular the assertion that
    its trade buffer did not overflow holds), and whatever the writer does meanwhile,
    whatever batches the database refuses, commits, or commits without saying so, and
    whenever the daemon is stopped: the tables hold a row for each of the first [m]
    commands and for each of the trades the matching thread published for them, once
    each and nothing else; no row that was there is lost; the stored checkpoint is not
    ahead of the rows, and as soon as there are more rows than at the start it is the
    checkpoint of exactly these [m] commands; and when the batch is empty every record
    the tailer delivered is in the tables. *)
Theorem audit_tables_follow_journal {D} `{!Postgres D} `{!PostgresLaws D} c sh cmds fs0 turns fs (w : PgWriter D) m0
    fromScratch batch :
  config_ok c → commands_ok c cmds → Z.of_nat (length (tradeRows c sh 0 emptyABook cmds)) <= INT64_MAX →
  live fs0 → JournalTailer.ready fs0 → follows fs0 (Poll <$> turns.*1) fs → Forall2 carries (records fs) cmds →
  stored fs0 c sh cmds m0 w → (m0 <= length cmds)%nat →
  (fromScratch = true ∨ tb_checkpoint (tablesOf w) !! sh = None) →
  ∃ s s' n m, auditStart (dirOf fs0) w sh c fromScratch = Some s ∧ runShard batch turns s = Some s' ∧
    (m0 <= m <= length cmds)%nat ∧ audited c sh (take m cmds) (tablesOf (as_writer s')) ∧
    stored fs c sh cmds m (as_writer s') ∧ (m = m0 ∨ checkpointAt fs sh m (as_writer s')) ∧
    tailing fs (as_tailer s') n ∧ (as_events s' = [] → (n <= m)%nat).
Proof.
  intros Hc Hcmds Hn Hl Hr Hf Hcar Hst Hm0 Hcp.
  destruct (auditStart_ok c sh cmds Hc m0 fs0 w fromScratch Hl Hr Hst Hm0 Hcp) as (s & Hs & Hok).
  destruct (auditLoop_ok c sh cmds Hc Hcmds m0 batch turns fs0 fs s 0 0 m0 Hl Hf Hcar Hok)
    as (s1 & k1 & n1 & m1 & Hrun & Hok1 & Hm1).
  destruct (flush_ok c sh cmds m0 fs 0 s1 k1 n1 m1 Hok1) as (k' & m' & Hok' & Hm' & _).
  exists s, (flush 0 s1).2, n1, m'. split; [done|]. split; [unfold runShard; by rewrite Hrun|].
  destruct Hok' as [H1 H2 H3 H4 H5 H6 H7 (Hkm & Hkn & Hnl & Hml)]. split; [lia|].
  split; [|split; [done|split; [done|split; [done|]]]].
  - destruct H5 as (cps & -> & _). destruct Hcmds as (_ & _ & Hlen). apply tablesFor_audited.
    + rewrite length_take. lia.
    + etransitivity; [|exact Hn]. apply Nat2Z.inj_le, prefix_length, tradeRows_prefix, prefix_take.
  - intros E. rewrite E, app_nil_r in H3. apply (f_equal length) in H3. unfold eventRows in H3.
    rewrite !length_imap, !length_take in H3. lia.
Qed.

(** ** A database *)

(** A database in memory; [sd_script] says how its calls turn out. *)
Inductive PgOutcome := PgDone | PgRefused | PgLost.

Record SimpleDb := mkSimpleDb {
  sd_tables : Tables;
  sd_tx : option Tx;
  sd_script : list PgOutcome
}.

Definition simpleExec (d : SimpleDb) (s : Stmt) : bool * SimpleDb :=
  let rest := tail (sd_script d) in
  let committed := from_option tx_tables (sd_tables d) (sd_tx d) in
  match default PgDone (head (sd_script d)), s with
  | PgDone, Begin => (true, mkSimpleDb (sd_tables d) (Some (mkTx (sd_tables d) [] [])) rest)
  | PgDone, Commit => (true, mkSimpleDb committed None rest)
  | PgDone, Rollback => (true, mkSimpleDb (sd_tables d) None rest)
  | PgDone, _ => (true, mkSimpleDb (sd_tables d) (flip effect s <$> sd_tx d) rest)
  | PgLost, Commit => (false, mkSimpleDb committed None rest)
  | _, _ => (false, mkSimpleDb (sd_tables d) None rest)
  end.

#[export] Instance SimpleDb_postgres : Postgres SimpleDb := {
  pg_tables := sd_tables;
  pg_status _ := true;
  pg_connect d :=
    (match head (sd_script d) with Some PgRefused | Some PgLost => false | _ => true end,
     mkSimpleDb (sd_tables d) None (tail (sd_script d)));
  pg_finish d := mkSimpleDb (sd_tables d) None (sd_script d);
  pg_exec := simpleExec;
  pg_select d sh := (tb_checkpoint (sd_tables d) !! sh, d)
}.

Lemma simple_inside d s d' :
  simpleExec d s = (true, d') → inside_tx s →
  sd_tables d' = sd_tables d ∧ sd_tx d' = flip effect s <$> sd_tx d.
Proof.
  unfold simpleExec. destruct (default PgDone (head (sd_script d))); destruct s; intros [= <-] Hs; done.
Qed.

Lemma simple_ran d body d' x :
  ran d body d' → Forall inside_tx body → sd_tx d = Some x →
  sd_tables d' = sd_tables d ∧ sd_tx d' = Some (foldl effect x body).
Proof.
  intros Hr. revert x. induction Hr as [d|d s d1 ss d2 Hs Hr IH]; intros x Hin Hx; [done|].
  apply Forall_cons in Hin as [Hi Hin]. destruct (simple_inside d s d1 Hs Hi) as [Ht Htx].
  destruct (IH (effect x s) Hin) as [Ht2 Htx2]; [by rewrite Htx, Hx|]. split; [congruence|done].
Qed.

#[export] Instance SimpleDb_laws : PostgresLaws SimpleDb.
Proof.
  split; cbn [pg_tables pg_connect pg_finish pg_exec pg_select SimpleDb_postgres]; try done.
  - intros d s Hs. unfold simpleExec. destruct (default PgDone (head (sd_script d))); by destruct s.
  - intros d d1 body d2 Hb Hr Hin. cbv zeta.
    assert (sd_tables d1 = sd_tables d ∧ sd_tx d1 = Some (mkTx (sd_tables d) [] [])) as [Ht1 Hx1].
    { unfold simpleExec in Hb. destruct (default PgDone (head (sd_script d))); inversion Hb; subst; done. }
    destruct (simple_ran _ _ _ _ Hr Hin Hx1) as [Ht2 Hx2]. unfold simpleExec. rewrite Hx2.
    destruct (default PgDone (head (sd_script d2))); cbn; [by left|right|by left]. split; [done|congruence].
Qed.

(** *** The journal of four commands, whose third trades *)

Definition tapeHalf : list (Z * FileSpec) := [(1, Seg 1 0 (take 2 tapeRecords) [])].
Definition tapeAll : list (Z * FileSpec) := [(1, Seg 1 0 (take 2 tapeRecords) []); (3, Seg 3 1 (drop 2 tapeRecords) [])].

(** The commit of the first batch gets lost on the way back. *)
Definition auditDb : PgWriter SimpleDb :=
  mkPg false (mkSimpleDb noTables None (replicate 12 PgDone ++ [PgLost])).

Definition auditTurns : list (Dir * nat) := replicate 3 (dirOf tapeHalf, 1%nat) ++ replicate 5 (dirOf tapeAll, 1%nat).

Lemma tapeRecords_ok : Forall record_ok tapeRecords.
Proof.
  unfold tapeRecords. apply Forall_lookup. intros i r Hr. rewrite list_lookup_imap in Hr.
  destruct (tape !! i) as [cmd|] eqn:E; [|done]. injection Hr as <-.
  destruct tape_commands_ok as (_ & Hi & _). rewrite Forall_lookup in Hi. pose proof (lookup_lt_Some _ _ _ E) as Hlt.
  split; [apply imageOf_valid; [by eapply Hi|exact noPad_ok]|]. cbn [jr_kind jr_seq].
  split; [destruct (cm_kind cmd); by vm_compute|]. cbn in Hlt. unfold in_i64, INT64_MIN, INT64_MAX. lia.
Qed.

Lemma half_ok f k rs : in_u64 f → in_u64 k → Forall record_ok rs → file_ok (Seg f k rs []).
Proof. intros. split; [done|]. split; [done|]. split; [done|]. split; [constructor|cbn; lia]. Qed.

Lemma tapeHalf_live : live tapeHalf.
Proof.
  split; [|intros; each_file; simpl in *; lia|intros; by each_file|by vm_compute|by vm_compute].
  split; [repeat constructor|]. constructor; [|constructor]. apply half_ok; [done|done|]. apply Forall_take, tapeRecords_ok.
Qed.

Lemma tapeAll_live : live tapeAll.
Proof.
  split; [|intros; each_file; simpl in *; [eauto|lia]|intros; by each_file|by vm_compute|by vm_compute].
  split; [by repeat constructor|]. constructor; [|constructor; [|constructor]]; apply half_ok; try done.
  - apply Forall_take, tapeRecords_ok.
  - apply Forall_drop, tapeRecords_ok.
Qed.

Lemma auditTurns_follow : follows tapeHalf (Poll <$> auditTurns.*1) tapeAll.
Proof.
  assert (Hh : grows tapeHalf tapeHalf) by (intros i p f H; each_file; eexists; split; [done|apply same_seg]).
  assert (Ha : grows tapeHalf tapeAll) by (intros i p f H; each_file; eexists; split; [done|apply same_seg]).
  assert (Hs : grows tapeAll tapeAll) by (intros i p f H; each_file; eexists; split; [done|apply same_seg| |]; try done; apply same_seg).
  do 3 (econstructor; [apply (finds_poll _ tapeHalf); [exact Hh|exact tapeHalf_live]|]).
  econstructor; [apply (finds_poll _ tapeAll); [exact Ha|exact tapeAll_live]|].
  do 4 (econstructor; [apply (finds_poll _ tapeAll); [exact Hs|exact tapeAll_live]|]). constructor.
Qed.

Lemma tapeAll_carries : Forall2 carries (records tapeAll) tape.
Proof.
  change (records tapeAll) with tapeRecords. unfold tapeRecords, tape. cbn.
  repeat (constructor; [split; [done|by exists noPad]|]). constructor.
Qed.

Lemma audit_tables_follow_journal_witness :
  ∃ s s' n m, auditStart (dirOf tapeHalf) auditDb 1 tapeConfig false = Some s ∧ runShard 2 auditTurns s = Some s' ∧
    (0 <= m <= 4)%nat ∧ audited tapeConfig 1 (take m tape) (tablesOf (as_writer s')) ∧
    (m = 0%nat ∨ checkpointAt tapeAll 1 m (as_writer s')) ∧ tailing tapeAll (as_tailer s') n.
Proof.
  destruct (audit_tables_follow_journal tapeConfig 1 tape tapeHalf auditTurns tapeAll auditDb 0 false 2)
    as (s & s' & n & m & H1 & H2 & H3 & H4 & _ & H6 & H5 & _).
  - exact tapeConfig_ok.
  - exact tape_commands_ok.
  - vm_compute. discriminate.
  - exact tapeHalf_live.
  - intros p bs [=].
  - exact auditTurns_follow.
  - exact tapeAll_carries.
  - exists ∅. split; [reflexivity|]. intros cp Hcp. discriminate Hcp.
  - apply Nat.le_0_l.
  - right. reflexivity.
  - exists s, s', n, m. split; [exact H1|]. split; [exact H2|]. split; [exact H3|]. split; [exact H4|].
    split; [exact H6|exact H5].
Defined.

(** ** Resuming from the checkpoint *)

(** The daemon ingests two commands and stops; started again, it resumes from its
    checkpoint and ingests the other two.  The trades and the commands in the tables: *)
Definition auditResumed : option (list TradeRow * nat) :=
  s ← auditStart (dirOf tapeHalf) (mkPg false (mkSimpleDb noTables None [])) 1 tapeConfig false;
  s ← runShard 10 (replicate 3 (dirOf tapeHalf, 0%nat)) s;
  s ← auditStart (dirOf tapeAll) (as_writer s) 1 tapeConfig false;
  s ← runShard 10 (replicate 4 (dirOf tapeAll, 0%nat)) s;
  let T := tablesOf (as_writer s) in
  Some ((map_to_list (tb_trade T)).*2, size (tb_orderEvent T)).

(** The tailer goes on where it was, but the shadow book is empty: the third command,
    which trades in the engine, trades with nothing here, and the audit trail misses
    the trade. *)
Theorem resumed_audit_misses_trades :
  auditResumed = Some ([], 4%nat) ∧
  publishedTrades (arun tapeConfig 0 emptyABook tape).2 = [(mkTrade 0 3 1 120 5 Buy, 3)].
Proof. split; vm_compute; reflexivity. Qed.
