(* ===== verification/Shard.v ===== *)
(** A shard, one instrument's pipeline from journal to book: [runtime/shard.hpp].

    The theorem closes the circle: a shard is killed, or its machine fails, and the
    restarted one has the book of the journalled commands, numbers them on, and is in a
    state from which everything proved about the sequencer and the matching thread
    holds again for the same faults. *)
From stdpp Require Import gmap sorting.
From S2P Require Import Prelude Types ObjectPool PriceLevel LevelMap OrderBook AbstractBook BookRepr BookSpec BookProps.
From S2P Require Import Wire Messages Decoder Crc32 Events MatchingThread SpscRing JournalFormat JournalWriter JournalReader JournalSpec.
From S2P Require Import JournalCrash JournalDurable Sequencer Snapshot Recovery.

Record Shard := mkShard {
  sh_matching : MatchingThread;
  sh_journal : JournalWriter;
  sh_sequencer : Sequencer;
  sh_recoveredSeq : Z
}.

(** The journal writer starts on what the directory holds, of which [sy] is synced, and
    resumes where recovery says; its answer is not looked at, and is the boolean of the
    result.  Nothing is synced here. *)
Definition recoverAndStart (k : Z) (fuel : nat) (journal : Dir) (sy : gmap Z nat) (snaps : SnapDir) (io : list IoResult)
    (cfg : BookConfig) : option (bool * RecoveryResult * Shard) :=
  '(rr, book) ← recover fuel journal snaps (bookNew cfg);
  let matching := matchingNew book (rc_lastSeq rr) in
  let w := writerNew journal sy io in
  let '(resumed, w) :=
    if rc_hasJournalSegment rr
    then resumeFrom w (rc_path rr) (rc_offset rr) (rc_counter rr) (rc_lastSeq rr)
    else (true, w) in
  Some (resumed, rr,
        mkShard matching w (mkSequencer w (spscNew k emptyCommand) (rc_lastSeq rr)) (rc_lastSeq rr)).

(** *** ShardSet *)

(** [indexOf] from position [i] on, over the shards' instrument ids. *)
Fixpoint indexFrom (ids : list Z) (i id : Z) : Z :=
  match ids with
  | [] => -1
  | x :: ids' => if x =? id then i else indexFrom ids' (i + 1) id
  end.

Definition shardIndexOf (ids : list Z) (id : Z) : Z := indexFrom ids 0 id.

Definition instrumentSet (ids : list Z) : option InstrumentSet := instrumentsOf ids.

Lemma indexFrom_spec ids i id :
  (indexFrom ids i id = -1 ∧ id ∉ ids) ∨
  ∃ j : nat, indexFrom ids i id = i + Z.of_nat j ∧ ids !! j = Some id ∧ ∀ m, (m < j)%nat → ids !! m ≠ Some id.
Proof.
  revert i. induction ids as [|x ids IH]; intros i; cbn [indexFrom]; [left; split; [done|set_solver]|].
  destruct (x =? id) eqn:E.
  - right. exists 0%nat. assert (x = id) as -> by lia. split; [lia|]. split; [done|]. intros m Hm. lia.
  - destruct (IH (i + 1)) as [[-> Hn]|(j & -> & Hj & Hm)].
    + left. split; [done|]. rewrite elem_of_cons. intros [->|?]; [lia|done].
    + right. exists (S j). split; [lia|]. split; [done|]. intros [|m] Hlt; simpl; [intros [= ->]; lia|].
      apply Hm. lia.
Qed.

(** ** Crash and restart *)

Section restart.
Context (k : Z) (Hk : 0 <= k <= 63) (wc : WriterConfig) (Hwc : writer_config_ok wc).
Context (c : BookConfig) (Hc : config_ok c).
#[local] Abbreviation ok := (valid_command c).

(** The records in front of [n] and what they carry. *)
Lemma holds_commands recs cmds :
  Forall2 (holds ok) recs cmds → Forall2 carries recs cmds ∧ Forall ok cmds ∧ Forall command_i64 cmds.
Proof. induction 1 as [|r cmd recs cmds (H1 & H2 & H3) _ (IH1 & IH2 & IH3)]; split_and!; by constructor. Qed.

Lemma holds_exists recs : Forall (λ r, ∃ cmd, holds ok r cmd) recs → ∃ cmds, Forall2 (holds ok) recs cmds.
Proof.
  induction 1 as [|r recs (cmd & Hr) _ (cmds & IH)]; [by exists []|]. exists (cmd :: cmds). by constructor.
Qed.

Context (worst : Fault) (Hpol : worst = MachineFailure → wc_policy wc = PerRecord).

Lemma no_risk : risk worst wc = 0%nat.
Proof using Hpol. destruct worst; [done|]. cbn. unfold unsynced. by rewrite Hpol. Qed.

(** What the end of the process leaves of the journal, with its commands. *)
Lemma crash_log base baseCmds y d sy :
  Forall2 (holds ok) base baseCmds → sys_ok k wc ok worst base y → y_health y ≠ Reused → stopped worst (y_journal y) d sy →
  ∃ fs lst recs extra, image d fs lst ∧ imageRecords fs lst = recs ∧ consecutive 0 recs ∧
    (length recs <= length (y_log y) + 1)%nat ∧
    Forall2 (holds ok) recs (baseCmds ++ y_sent y ++ extra) ∧ (length extra <= 2)%nat.
Proof using Hpol.
  intros Hbase Hy Hh Hst. destruct (yk_durable _ _ _ _ _ _ Hy Hh d sy Hst) as (more & m & (fs & lst & j & Him & Hj & Hm) & Hmore & Hle & Hcons & Hho).
  rewrite no_risk in Hle. rewrite length_app in Hm.
  destruct (yk_cmds _ _ _ _ _ _ Hy) as (log & Hlog & Hcmds).
  destruct (holds_exists more Hho) as (mcmds & Hmc). pose proof (Forall2_length _ _ _ Hmc) as Hlm.
  exists fs, lst, (take j (y_log y ++ more)), (inflight (y_pc y) ++ take (j - length (y_log y)) mcmds).
  split; [done|]. split; [done|]. split; [by apply consecutive_take|]. split; [|split].
  - rewrite length_take, length_app. lia.
  - rewrite take_app, (take_ge (y_log y)) by lia. rewrite Hlog at 1.
    rewrite <- app_assoc, (app_assoc (y_sent y)). repeat apply Forall2_app; try done. by apply Forall2_take.
  - rewrite length_app, length_take. destruct (y_pc y); simpl; lia.
Qed.

(** What [recoverAndStart] makes of a directory: the book does not depend on what is
    synced, the further life of the journal does. *)
Lemma restart_image d sy fs lst recs cmds snaps n io fuel :
  image d fs lst → imageRecords fs lst = recs → consecutive 0 recs → Z.of_nat (length recs) < kMaxRecords →
  Forall2 (holds ok) recs cmds → snapped c cmds snaps n → (length recs < fuel)%nat →
  ∃ resumed rr sh, recoverAndStart k fuel d sy snaps io c = Some (resumed, rr, sh) ∧
    thread_ok c (sh_matching sh) ∧ abs (mt_book (sh_matching sh)) = stateAfter c cmds ∧
    mt_dispatchSeq (sh_matching sh) = Z.of_nat (length cmds) ∧ sh_recoveredSeq sh = Z.of_nat (length cmds) ∧
    (resumed = true → (∃ w0, stopped worst w0 d sy) →
       ready wc worst (sh_journal sh) recs ∧ sh_sequencer sh = sequencerOf (sysNew k (sh_journal sh) recs)).
Proof using Hwc Hc.
  intros Him Hrec Hcons Hlen Hh Hsn Hf. subst recs.
  destruct (holds_commands _ _ Hh) as (Hcar & Hv & Hi). pose proof (Forall2_length _ _ _ Hcar) as Hl.
  destruct (image_reads d fs lst fuel Him Hcons Hf) as (xs & x & R & Hread & Hxs & Hst & Hlg & Ha).
  assert (Hcmds : commands_ok c cmds).
  { split; [done|]. split; [done|]. unfold kMaxRecords, INT64_MAX in *. lia. }
  assert (Hrd : readable d cmds (imageTorn lst) fuel R).
  { split. exists xs, x. rewrite Hxs. done. }
  destruct (recover_ok c d cmds _ fuel R snaps n Hc Hcmds Hrd Hsn) as (rr & b & Hr & HR & _ & Hls & Hhas & Hwhere).
  destruct (stateAfter_ok c cmds Hc Hcmds) as (Hw & _). destruct (sound_intro c b _ Hc HR Hw) as [Hs Hab].
  unfold recoverAndStart. rewrite Hr. simpl_bind.
  assert (Hres : (if rc_hasJournalSegment rr
    then resumeFrom (writerNew d sy io) (rc_path rr) (rc_offset rr) (rc_counter rr) (rc_lastSeq rr)
    else (true, writerNew d sy io)) = resumeJournal R (rc_lastSeq rr) (writerNew d sy io)).
  { unfold resumeJournal. rewrite Hhas in *. destruct (jd_fd R); cbn in *; [|done].
    destruct (Hwhere eq_refl) as (-> & -> & ->). done. }
  rewrite Hres. destruct (resumeJournal R (rc_lastSeq rr) (writerNew d sy io)) as [resumed w] eqn:Ew.
  eexists resumed, rr, _. split; [done|]. cbn [sh_matching sh_journal sh_sequencer sh_recoveredSeq].
  split; [by apply matchingNew_ok|]. split; [exact Hab|]. split; [exact Hls|]. split; [exact Hls|].
  intros -> [w0 Hst0]. destruct (resumeJournal_view worst wc w0 d sy fs lst io x R _ w Hwc Hst0 Him Hlen Ha Ew) as (fs' & hot & Hcl & Hrec').
  split; [by exists fs', hot|]. unfold sequencerOf, sysNew. cbn. by rewrite Hls, Hl.
Qed.

End restart.

(** *** A shard that is killed after its first command *)

