(* ===== verification/Digest.v ===== *)
(** State digests and the mirror rebuilt from a book: [recovery/state_digest.hpp],
    [marketdata/mirror_digest.hpp] and [marketdata/snapshot_source.hpp].

    The digest of a book and the digest of a mirror are computed by different walks;
    the theorems say when they agree. *)
From stdpp Require Import sorting.
From S2P Require Import Prelude Types ObjectPool PriceLevel OrderIdMap LevelMap OrderBook.
From S2P Require Import AbstractBook BookRepr BookMatch BookScan BookRefine BookSpec BookProps BookWalk.
From S2P Require Import Wire Messages Events MatchingThread BookMirror Reconstruction.
From S2P Require Import Crc32 JournalFormat Snapshot Recovery.

Record StateDigest := mkDigest {
  dg_lastSeq : Z; dg_nextTradeId : Z; dg_restingOrders : Z; dg_bodyCrc32 : Z
}.

(** [body.resize(off + OrderRecord::kSize); rec.encode(body.data() + off);] *)
Definition appendRecord (body : list Z) (r : OrderRecord) : option (list Z) :=
  out ← encodeOrderRecord r (replicate (Z.to_nat kOrderRecordSize) 0); Some (body ++ out).

Fixpoint appendRecords (body : list Z) (rs : list OrderRecord) : option (list Z) :=
  match rs with
  | [] => Some body
  | r :: rs' => body ← appendRecord body r; appendRecords body rs'
  end.

Definition computeDigest (b : OrderBook) : option StateDigest :=
  os ← walkBook b;
  body ← appendRecords [] (orderRecordOf <$> os);
  crc ← crcOf body (Z.of_nat (length body));
  Some (mkDigest (seq_ b) (nextTradeId_ b) (IdMap.im_size (idMap_ b)) crc).

(** The record of an order the mirror visits; the side is the visitor's argument. *)
Definition mirrorRecord (x : Side * MirrorOrder) : OrderRecord :=
  let '(side, o) := x in
  mkOrderRecord (mo_id o) (mo_price o) (mo_quantity o) (mo_remaining o) (mo_participant o) (mo_seq o)
    (sideCode side).

Definition digestOf (m : BookMirror) : option StateDigest :=
  body ← appendRecords [] (mirrorRecord <$> walk m);
  crc ← crcOf body (Z.of_nat (length body));
  Some (mkDigest (bm_lastSeq m) (bm_tradeCount m) (restingOrders m) crc).

Definition updateOf (o : AOrder) : OrderUpdate :=
  mkUpdate (ao_id o) (ao_price o) (ao_quantity o) (ao_remaining o) (ao_participant o) (ao_seq o).

(** The loop over one side's orders. *)
Definition loadSide (m : BookMirror) (side : Side) (os : list AOrder) : BookMirror :=
  foldl (λ m o, applyOrderUpdate m Rested side (updateOf o)) m os.

Definition loadMirrorFromBook (b : OrderBook) (m : BookMirror) : option BookMirror :=
  bids ← walkSide b Buy;
  asks ← walkSide b Sell;
  Some (seedCounters (loadSide (loadSide (clearMirror m) Buy bids) Sell asks) (seq_ b) (nextTradeId_ b)).

(** ** Digests *)

Lemma appendRecords_ok body rs :
  Forall (λ r, 0 <= or_side r < 256) rs → appendRecords body rs = Some (body ++ bodyBytes rs).
Proof.
  intros Hrs. revert body. induction Hrs as [|r rs Hr _ IH]; intros body; cbn [appendRecords]; [by rewrite app_nil_r|].
  unfold appendRecord. rewrite encodeOrderRecord_ok by done. simpl_bind.
  rewrite IH, <- app_assoc. done.
Qed.

(** The digest both sides are compared with. *)
Definition digest (a : ABook) : StateDigest :=
  mkDigest (ab_seq a) (ab_tid a) (Z.of_nat (length (aresting a)))
    (crc (bodyBytes (orderRecordOf <$> aresting a))).

Lemma digest_body (rs : list OrderRecord) :
  Forall (λ r, 0 <= or_side r < 256) rs →
  (body ← appendRecords [] rs; crcOf body (Z.of_nat (length body))) = Some (crc (bodyBytes rs)).
Proof.
  intros Hrs. rewrite appendRecords_ok by done. cbn [mbind option_bind app].
  rewrite <- (app_nil_r (bodyBytes rs)) at 1. apply crcOf_app; [apply bodyBytes_bytes|done].
Qed.

Lemma orderRecordOf_sides os : Forall (λ r, 0 <= or_side r < 256) (orderRecordOf <$> os).
Proof. apply Forall_fmap, Forall_true. intros o. simpl. apply sideCode_byte. Qed.

Lemma Repr_size c b a : config_ok c → Repr c b a → IdMap.im_size (idMap_ b) = Z.of_nat (length (aresting a)).
Proof.
  intros Hc (g & Hr & Hs & _). rewrite (IdMap.ok_size _ _ (rp_map _ _ _ _ Hr)).
  by rewrite (length_aresting Hr Hs).
Qed.

Lemma computeDigest_ok c b a : config_ok c → Repr c b a → computeDigest b = Some (digest a).
Proof.
  intros Hc HR. unfold computeDigest. rewrite (walkBook_ok c b a Hc HR). simpl_bind.
  pose proof (digest_body _ (orderRecordOf_sides (ab_bids a ++ ab_asks a))) as Hd.
  destruct (appendRecords _ _) as [body|]; [|done]. cbn [mbind option_bind] in Hd |- *. rewrite Hd.
  simpl_bind. rewrite (Repr_size c b a Hc HR).
  destruct HR as (g & _ & _ & -> & ->). done.
Qed.

Lemma mirrorRecord_side s os :
  Forall (λ o, ao_side o = s) os → mirrorRecord <$> ((λ o, (s, mirrorOf o)) <$> os) = orderRecordOf <$> os.
Proof.
  induction 1 as [|o os Ho _ IH]; [done|]. rewrite !fmap_cons, IH. f_equal. unfold mirrorRecord, orderRecordOf. by rewrite Ho.
Qed.

Lemma wf_side c a s : wf c a → Forall (λ o, ao_side o = s) (aside a s).
Proof. intros Hw. eapply Forall_impl; [apply (wf_orders _ _ Hw s)|]. intros o Ho. apply Ho. Qed.

Lemma digestOf_ok c m a : wf c a → mirrors m a → digestOf m = Some (digest a).
Proof.
  intros Hw [Hsh Hls]. unfold digestOf. rewrite (shows_walk _ _ Hsh), fmap_app.
  rewrite (mirrorRecord_side Buy), (mirrorRecord_side Sell), <- fmap_app; [|apply (wf_side c a Sell Hw)|apply (wf_side c a Buy Hw)].
  pose proof (digest_body _ (orderRecordOf_sides (ab_bids a ++ ab_asks a))) as Hd.
  destruct (appendRecords _ _) as [body|]; [|done]. cbn [mbind option_bind] in Hd |- *. rewrite Hd.
  simpl_bind. by rewrite (shows_count _ _ Hsh), (sh_tid _ _ Hsh), Hls.
Qed.

(** ** A mirror loaded from a book *)

Lemma load_side s os done m a :
  shows m (set_aside a s done) → Forall (λ o, ao_side o = s) os →
  StronglySorted (before s) (done ++ os) → NoDup (ao_id <$> (aresting (set_aside a s done) ++ os)) →
  shows (loadSide m s os) (set_aside a s (done ++ os)).
Proof.
  revert done m. induction os as [|o os IH]; intros done m Hsh Hside Hs Hnd; [by rewrite app_nil_r|].
  apply Forall_cons in Hside as [Ho Hside]. cbn [loadSide foldl].
  assert (Hbef : Forall (λ x, before s x o) done).
  { apply Forall_forall. intros x Hx. eapply (StronglySorted_app_1_elem_of (before s) done); [done|done|by left]. }
  assert (Hid : afind (set_aside a s done) (ao_id o) = None).
  { apply afind_None. intros x Hx He. rewrite fmap_app in Hnd. apply NoDup_app in Hnd as (_ & Hnd & _).
    apply (Hnd (ao_id o)); [|by left]. rewrite <- He. by apply list_elem_of_fmap_2. }
  assert (Hnew : shows (applyOrderUpdate m Rested s (updateOf o)) (set_aside a s (done ++ [o]))).
  { unfold applyOrderUpdate. match goal with |- context [insert ?m _ _] => set (m1 := m) end.
    assert (Hm1 : shows m1 (set_aside a s done)).
    { unfold m1. destruct (_ <? _); [|done]. by apply shows_seq. }
    destruct (shows_rested m1 _ o Hm1 Hid) as [H _]. rewrite Ho in H.
    replace (aside (set_aside a s done) s) with done in H by (by destruct s).
    rewrite (arest_last s o done Hbef), set_aside_twice in H. exact H. }
  replace (done ++ o :: os) with ((done ++ [o]) ++ os) in * by (by rewrite <- app_assoc).
  apply IH; try done. rewrite (aresting_snoc a s done o). cbn [app fmap list_fmap] in *.
  rewrite fmap_app in Hnd |- *. by rewrite fmap_cons, <- Permutation_middle in Hnd.
Qed.

Lemma loadMirror_ok c b a m :
  config_ok c → Repr c b a → wf c a → ∃ m', loadMirrorFromBook b m = Some m' ∧ mirrors m' a.
Proof.
  intros Hc HR Hw. pose proof HR as (g & Hr & Hs & Hsq & Htid). unfold loadMirrorFromBook.
  rewrite !(walkSide_queue c Hc b g Hr), <- (Hs Buy), <- (Hs Sell). simpl_bind.
  eexists. split; [done|]. pose proof (wf_ids _ _ Hw) as Hnd. unfold aresting in Hnd.
  assert (H1 : shows (loadSide (clearMirror m) Buy (ab_bids a)) (mkABook (ab_bids a) [] 0 0)).
  { apply (load_side Buy (ab_bids a) [] (clearMirror m) emptyABook);
      [apply mirrorNew_empty|apply (wf_side c a Buy Hw)|apply (wf_sorted _ _ Hw Buy)|].
    cbn. rewrite fmap_app in Hnd. by apply NoDup_app in Hnd as [Hnd _]. }
  pose proof (load_side Sell (ab_asks a) [] _ (mkABook (ab_bids a) [] 0 0) H1 (wf_side c a Sell Hw) (wf_sorted _ _ Hw Sell)) as H2.
  cbn in H2. rewrite app_nil_r in H2. specialize (H2 Hnd).
  split; [|by rewrite <- Hsq]. destruct H2 as [[M1 M2 M3] Hf _]. cbn [aside] in *.
  split; [split| |by rewrite <- Htid].
  - intros []; [apply (M1 Buy)|apply (M1 Sell)].
  - done.
  - intros id [] p; [apply (M3 id Buy p)|apply (M3 id Sell p)].
  - intros []; [apply (Hf Buy)|apply (Hf Sell)].
Qed.

(** The reconstruction oracle.  After any run of the matching thread over valid
    commands, the digest of the engine's book and the digest of a mirror that was
    fed the published events both exist and are equal, and so is the digest of a
    mirror loaded from the book, whatever the mirror held before. *)
Theorem digests_agree c q cmds m old :
  config_ok c → Forall (valid_command c) cmds → Z.of_nat (length cmds) <= INT64_MAX →
  fits c emptyABook cmds = true → run (matchingNew (bookNew c) q) cmds = Some m →
  ∃ d loaded, computeDigest (mt_book m) = Some d ∧
    digestOf (foldl apply mirrorNew (mt_out m)) = Some d ∧
    loadMirrorFromBook (mt_book m) old = Some loaded ∧ digestOf loaded = Some d ∧
    walk loaded = walk (foldl apply mirrorNew (mt_out m)).
Proof.
  intros Hc Hv Hlen Hf Hr.
  destruct (run_mirrors c q cmds m Hc Hv Hlen Hf Hr) as (HR & Hw & Hmi).
  destruct (loadMirror_ok c _ _ old Hc HR Hw) as (loaded & Hl & Hml).
  exists (digest (abs (mt_book m))), loaded. split; [by apply (computeDigest_ok c)|].
  split; [by apply (digestOf_ok c)|]. split; [done|]. split; [by apply (digestOf_ok c)|].
  by rewrite (shows_walk _ _ (proj1 Hml)), (shows_walk _ _ (proj1 Hmi)).
Qed.

Lemma digests_agree_witness :
  ∃ m d, run (matchingNew (bookNew tapeConfig) 0) tape = Some m ∧
    computeDigest (mt_book m) = Some d ∧ digestOf (foldl apply mirrorNew (mt_out m)) = Some d.
Proof.
  destruct (run (matchingNew (bookNew tapeConfig) 0) tape) as [m|] eqn:Hr;
    [|vm_compute in Hr; discriminate].
  destruct (digests_agree tapeConfig 0 tape m mirrorNew) as (d & l & H1 & H2 & _);
    [apply tapeConfig_ok|apply tape_valid|by vm_compute|by vm_compute|done|].
  exists m, d. split; [done|]. by split.
Defined.
