(* ===== verification/MirrorLevels.v ===== *)
(** How one event changes the price levels of a mirror.

    The publisher looks at one level per event: the one the event names.  These
    lemmas say that the mirror changes at most there, and that the level's total
    quantity changes whenever the level does. *)
From stdpp Require Import sorting.
From S2P Require Import Prelude Types AbstractBook BookSpec Events BookMirror Reconstruction.

Fixpoint msum (q : list MirrorOrder) : Z :=
  match q with [] => 0 | o :: q' => mo_remaining o + msum q' end.

Definition level (m : BookMirror) (s : Side) (p : Z) : list MirrorOrder :=
  filter (λ o, mo_price o = p) (flat (levelsOf m s)).

(** Every order has something left, and the quantity of a side fits 63 bits. *)
Definition bounded (m : BookMirror) : Prop :=
  ∀ s, Forall (λ o, 0 < mo_remaining o) (flat (levelsOf m s)) ∧ msum (flat (levelsOf m s)) <= INT64_MAX.

Lemma msum_app q1 q2 : msum (q1 ++ q2) = msum q1 + msum q2.
Proof. induction q1 as [|o q1 IH]; cbn; [done|]. rewrite IH. lia. Qed.

Lemma msum_pos q : Forall (λ o, 0 < mo_remaining o) q → 0 <= msum q ∧ (q ≠ [] → 0 < msum q).
Proof. induction 1 as [|o q Ho _ [IH _]]; cbn; split; try done; lia. Qed.

Lemma msum_filter p q :
  Forall (λ o, 0 < mo_remaining o) q → 0 <= msum (filter (λ o, mo_price o = p) q) <= msum q.
Proof.
  induction 1 as [|o q Ho _ IH]; [done|]. rewrite filter_cons. cbn. case_decide; cbn; lia.
Qed.

Lemma sumRemaining_msum q :
  Forall (λ o, 0 < mo_remaining o) q → msum q <= INT64_MAX → sumRemaining q = msum q.
Proof.
  intros Hq. unfold sumRemaining.
  assert (H : ∀ acc, 0 <= acc → acc + msum q <= INT64_MAX → foldl (λ t o, s64 (t + mo_remaining o)) acc q = acc + msum q).
  { induction Hq as [|o q Ho Hq IH]; intros acc H0 H1; cbn in *; [lia|].
    pose proof (proj1 (msum_pos q Hq)) as Hm. s64_small.
    rewrite IH; lia. }
  intros Hm. rewrite H; lia.
Qed.

Section levels.
Context (m : BookMirror) (Hm : mirror_ok m) (Hb : bounded m).

Lemma level_pos s p : Forall (λ o, 0 < mo_remaining o) (level m s p).
Proof using Hb. apply list.Forall_forall. intros o [_ Ho]%list_elem_of_filter. destruct (Hb s) as [H _]. by eapply Forall_forall in H. Qed.

Lemma level_sum s p : 0 <= msum (level m s p) <= INT64_MAX.
Proof using Hb. destruct (Hb s) as [H1 H2]. pose proof (msum_filter p _ H1). unfold level. lia. Qed.

Lemma levelTotal_level s p : levelTotal m s p = msum (level m s p).
Proof using Hm Hb.
  pose proof (level_filter s (levelsOf m s) p (mk_levels _ Hm s)) as Hl. fold (level m s p) in Hl.
  unfold levelTotal. destruct (omFind _ p) as [q|]; cbn in Hl; subst.
  - apply sumRemaining_msum; [apply level_pos|apply level_sum].
  - by rewrite <- Hl.
Qed.

Lemma levelOrderCount_level s p : levelOrderCount m s p = u32 (Z.of_nat (length (level m s p))).
Proof using Hm.
  pose proof (level_filter s (levelsOf m s) p (mk_levels _ Hm s)) as Hl. fold (level m s p) in Hl.
  unfold levelOrderCount. destruct (omFind _ p) as [q|]; cbn in Hl; subst; [done|]. by rewrite <- Hl.
Qed.
End levels.

(** ** Edits *)

(** [l'] is [l] with orders at price [p] replaced such that the quantity changes. *)
Definition edited (p : Z) (l l' : list MirrorOrder) : Prop :=
  ∃ A os os' B, l = A ++ os ++ B ∧ l' = A ++ os' ++ B ∧
    Forall (λ o, mo_price o = p) os ∧ Forall (λ o, mo_price o = p) os' ∧ msum os ≠ msum os'.

Lemma edited_other p q l l' :
  edited p l l' → q ≠ p → filter (λ o, mo_price o = q) l' = filter (λ o, mo_price o = q) l.
Proof.
  intros (A & os & os' & B & -> & -> & H1 & H2 & _) Hq. rewrite !filter_app. do 2 f_equal.
  assert (H : ∀ l, Forall (λ o, mo_price o = p) l → filter (λ o, mo_price o = q) l = []).
  { induction 1 as [|o l Ho _ IH]; [done|]. by rewrite filter_cons_False by congruence. }
  by rewrite !H.
Qed.

Lemma edited_here p l l' :
  edited p l l' → msum (filter (λ o, mo_price o = p) l') ≠ msum (filter (λ o, mo_price o = p) l).
Proof.
  intros (A & os & os' & B & -> & -> & H1 & H2 & Hne). rewrite !filter_app, !msum_app.
  rewrite (filter_all _ os), (filter_all _ os') by done. lia.
Qed.

Lemma lrest_split s o l : ∃ A B, l = A ++ B ∧ lrest s o l = A ++ o :: B.
Proof.
  induction l as [|x l IH]; [by exists [], []|]. cbn. destruct (noWorse _ _ _).
  - destruct IH as (A & B & -> & ->). by exists (x :: A), B.
  - by exists [], (x :: l).
Qed.

(** ** One event *)

(** The level the publisher compares after an event. *)
Definition place (e : OutboundEvent) : option (Side * Z) :=
  match e_payload e with
  | TradeEvent t => Some (opposite (t_aggressorSide t), t_price t)
  | OrderUpdateEvent u => match e_action e with Rejected => None | _ => Some (e_side e, u_price u) end
  | StatusEvent _ _ => None
  end.

(** The event names the level at which the mirror has the order, if it has it. *)
Definition fits_mirror (m : BookMirror) (e : OutboundEvent) : Prop :=
  match e_payload e with
  | TradeEvent t =>
      0 < t_quantity t <= INT64_MAX ∧
      ∀ loc, bm_index m !! t_passiveId t = Some loc → loc = (opposite (t_aggressorSide t), t_price t)
  | OrderUpdateEvent u =>
      match e_action e with
      | Rested =>
          bm_index m !! u_orderId u = None ∧ 0 < u_remaining u ∧
          u_remaining u + msum (flat (levelsOf m (e_side e))) <= INT64_MAX
      | Rejected => True
      | _ => ∀ loc, bm_index m !! u_orderId u = Some loc → loc = (e_side e, u_price u)
      end
  | StatusEvent _ _ => True
  end.

(** The sides of [m'] are those of [m], but for an edit at [pl]. *)
Definition changes (m m' : BookMirror) (pl : Side * Z) : Prop :=
  ∀ s, flat (levelsOf m' s) = flat (levelsOf m s) ∨
       (s = pl.1 ∧ edited pl.2 (flat (levelsOf m s)) (flat (levelsOf m' s))).

Lemma find_order m id s p :
  mirror_ok m → bm_index m !! id = Some (s, p) →
  ∃ A o B, flat (levelsOf m s) = A ++ o :: B ∧ mo_id o = id ∧ mo_price o = p ∧
    Forall (λ x, mo_id x ≠ id) (A ++ B) ∧ Forall (λ x, mo_id x ≠ id) (flat (levelsOf m (opposite s))).
Proof.
  intros Hm Hix. apply (mk_index _ Hm) in Hix as (o & Ho & <- & <-).
  destruct (locate s _ o (mk_levels _ Hm s) (ids_side m s Hm) Ho) as (q1 & q2 & A & B & Hl).
  exists A, o, B. split_and!; [apply Hl|done|done|apply Hl|]. by apply other_untouched.
Qed.

Lemma opposite_ne s s' : s' ≠ s → s' = opposite s.
Proof. by destruct s, s'. Qed.

Lemma reduce_changes m id qty s p :
  mirror_ok m → bounded m → 0 < qty <= INT64_MAX → (∀ loc, bm_index m !! id = Some loc → loc = (s, p)) →
  changes m (reduce m id qty) (s, p) ∧ bounded (reduce m id qty).
Proof.
  intros Hm Hb Hq Hloc. destruct (mirror_reduce_ok m id qty Hm) as [_ Hf].
  destruct (bm_index m !! id) as [loc|] eqn:Hix.
  2: { assert (Hsame : ∀ s, flat (levelsOf (reduce m id qty) s) = flat (levelsOf m s)).
       { intros s'. rewrite Hf. apply lreduce_none. by apply index_None. }
       split; [intros s'; by left|]. intros s'. rewrite Hsame. apply Hb. }
  rewrite (Hloc _ eq_refl) in Hix. destruct (find_order m id s p Hm Hix) as (A & o & B & HA & Ho & Hp & Hno & Hother).
  pose proof (lreduce_split id qty A o B Hno Ho) as Hl. cbv zeta in Hl. rewrite <- HA, <- Hf in Hl.
  assert (Hopp : flat (levelsOf (reduce m id qty) (opposite s)) = flat (levelsOf m (opposite s))).
  { rewrite Hf. by apply lreduce_none. }
  destruct (Hb s) as [Hpos Hsum]. rewrite HA in Hpos, Hsum.
  apply Forall_app in Hpos as [HpA [Hpo HpB]%Forall_cons].
  rewrite msum_app in Hsum. cbn [msum] in Hsum.
  pose proof (proj1 (msum_pos A HpA)). pose proof (proj1 (msum_pos B HpB)).
  rewrite s64_id in Hl by (unfold in_i64, INT64_MIN, INT64_MAX in *; lia).
  split; intros s'; (destruct (decide (s' = s)) as [->|Hne]; [|rewrite (opposite_ne s s' Hne); rewrite Hopp]).
  - right. split; [done|]. exists A, [o], (if mo_remaining o - qty <=? 0 then [] else [withRemaining o (mo_remaining o - qty)]), B.
    split_and!; [exact HA|exact Hl|by constructor| |]; destruct (_ <=? 0); cbn; try done; try lia; by constructor.
  - by left.
  - rewrite Hl. destruct (_ <=? 0) eqn:E; cbn [app]; rewrite msum_app; cbn [msum]; (split; [|]);
      rewrite ?Forall_app, ?Forall_cons; try (split_and?; try done; cbn; lia).
  - apply Hb.
Qed.

Lemma erase_changes m id s p :
  mirror_ok m → bounded m → (∀ loc, bm_index m !! id = Some loc → loc = (s, p)) →
  changes m (erase m id) (s, p) ∧ bounded (erase m id).
Proof.
  intros Hm Hb Hloc. destruct (mirror_erase_ok m id Hm) as [_ Hf].
  destruct (bm_index m !! id) as [loc|] eqn:Hix.
  2: { assert (Hsame : ∀ s, flat (levelsOf (erase m id) s) = flat (levelsOf m s)).
       { intros s'. rewrite Hf. apply lerase_none. by apply index_None. }
       split; [intros s'; by left|]. intros s'. rewrite Hsame. apply Hb. }
  rewrite (Hloc _ eq_refl) in Hix. destruct (find_order m id s p Hm Hix) as (A & o & B & HA & Ho & Hp & Hno & Hother).
  pose proof (lerase_split id A o B Hno Ho) as Hl. rewrite <- HA, <- Hf in Hl.
  assert (Hopp : flat (levelsOf (erase m id) (opposite s)) = flat (levelsOf m (opposite s))).
  { rewrite Hf. by apply lerase_none. }
  destruct (Hb s) as [Hpos Hsum]. rewrite HA in Hpos, Hsum.
  apply Forall_app in Hpos as [HpA [Hpo HpB]%Forall_cons].
  rewrite msum_app in Hsum. cbn [msum] in Hsum.
  split; intros s'; (destruct (decide (s' = s)) as [->|Hne]; [|rewrite (opposite_ne s s' Hne); rewrite Hopp]).
  - right. split; [done|]. exists A, [o], [], B.
    split_and!; [exact HA|exact Hl|by constructor|done|]. cbn. lia.
  - by left.
  - rewrite Hl, msum_app. split; [by apply Forall_app|lia].
  - apply Hb.
Qed.

Lemma insert_changes m s u :
  mirror_ok m → bounded m → bm_index m !! u_orderId u = None → 0 < u_remaining u →
  u_remaining u + msum (flat (levelsOf m s)) <= INT64_MAX →
  changes m (insert m s u) (s, u_price u) ∧ bounded (insert m s u).
Proof.
  intros Hm Hb Hix Hr Hroom. destruct (mirror_insert_ok m s u Hm Hix) as [_ Hf].
  destruct (lrest_split s (mirrorOrderOf u) (flat (levelsOf m s))) as (A & B & HA & HB).
  destruct (Hb s) as [Hpos Hsum]. rewrite HA in Hpos, Hsum, Hroom. apply Forall_app in Hpos as [HpA HpB].
  rewrite msum_app in Hroom.
  split; intros s'; rewrite Hf; destruct (decide (s = s')) as [<-|Hne]; try (by left); try apply Hb; rewrite HB.
  - right. split; [done|]. exists A, [], [mirrorOrderOf u], B.
    split_and!; [exact HA|done|done|by constructor|]. cbn. lia.
  - rewrite msum_app. cbn [msum mirrorOrderOf mo_remaining].
    split; [|lia]. apply Forall_app. split; [done|]. by constructor.
Qed.

(** Counters are not part of the levels. *)
Lemma seedCounters_same m q t :
  (mirror_ok m → mirror_ok (seedCounters m q t)) ∧ (bounded m → bounded (seedCounters m q t)) ∧
  (∀ s, levelsOf (seedCounters m q t) s = levelsOf m s) ∧ bm_index (seedCounters m q t) = bm_index m.
Proof.
  assert (Hl : ∀ s, levelsOf (seedCounters m q t) s = levelsOf m s) by (by intros []).
  split_and!; [|intros Hb s; rewrite Hl; apply Hb|done|done].
  intros [H1 H2 H3]. split; [|done|]; intros; rewrite Hl; auto.
Qed.

(** The mirror an event's removal or insertion is applied to: the counters may have
    moved. *)
Lemma apply_shape m e :
  ∃ q t, match e_payload e with
  | TradeEvent tr => apply m e = seedCounters (reduce m (t_passiveId tr) (t_quantity tr)) q t
  | OrderUpdateEvent u =>
      apply m e = match e_action e with
                  | Rested => insert (seedCounters m q t) (e_side e) u
                  | Cancelled | Replaced => erase (seedCounters m q t) (u_orderId u)
                  | Rejected => seedCounters m q t
                  end
  | StatusEvent _ _ => apply m e = m
  end.
Proof.
  unfold apply. destruct (e_payload e) as [tr| |u].
  - by eexists _, _.
  - by exists 0, 0.
  - unfold applyOrderUpdate. destruct (bm_lastSeq m <? u_seq u).
    + exists (u_seq u), (bm_tradeCount m). by destruct (e_action e).
    + exists (bm_lastSeq m), (bm_tradeCount m). destruct m. by destruct (e_action e).
Qed.

Lemma apply_changes m e :
  mirror_ok m → bounded m → fits_mirror m e →
  mirror_ok (apply m e) ∧ bounded (apply m e) ∧
  match place e with
  | Some pl => changes m (apply m e) pl
  | None => ∀ s, levelsOf (apply m e) s = levelsOf m s
  end.
Proof.
  intros Hm Hb Hfit. destruct (apply_shape m e) as (q & t & Hshape). unfold fits_mirror, place in *.
  destruct (seedCounters_same m q t) as (Sm & Sb & Sl & Si). specialize (Sm Hm). specialize (Sb Hb).
  destruct (e_payload e) as [tr|? ?|u].
  - rewrite Hshape. destruct Hfit as [Hq Hloc].
    destruct (reduce_changes m _ _ _ _ Hm Hb Hq Hloc) as [Hch Hb'].
    destruct (mirror_reduce_ok m (t_passiveId tr) (t_quantity tr) Hm) as [Hok _].
    destruct (seedCounters_same (reduce m (t_passiveId tr) (t_quantity tr)) q t) as (Rm & Rb & Rl & _).
    split; [auto|]. split; [auto|]. intros s. rewrite Rl. apply Hch.
  - by rewrite Hshape.
  - assert (Hsame : ∀ pl m', changes (seedCounters m q t) m' pl → changes m m' pl).
    { intros pl m' H s. specialize (H s). by rewrite Sl in H. }
    rewrite <- Si in Hfit. destruct (e_action e); rewrite Hshape.
    + destruct Hfit as (Hix & Hr & Hroom). rewrite <- Sl in Hroom.
      destruct (insert_changes _ (e_side e) u Sm Sb Hix Hr Hroom) as [Hch Hb'].
      destruct (mirror_insert_ok _ (e_side e) u Sm Hix) as [Hok _]. auto.
    + destruct (erase_changes _ _ _ _ Sm Sb Hfit) as [Hch Hb'].
      destruct (mirror_erase_ok _ (u_orderId u) Sm) as [Hok _]. auto.
    + auto.
    + destruct (erase_changes _ _ _ _ Sm Sb Hfit) as [Hch Hb'].
      destruct (mirror_erase_ok _ (u_orderId u) Sm) as [Hok _]. auto.
Qed.

Lemma changes_other m m' pl s p : changes m m' pl → (s, p) ≠ pl → level m' s p = level m s p.
Proof.
  intros H Hne. unfold level. destruct (H s) as [->|[-> He]]; [done|]. apply (edited_other _ _ _ _ He).
  intros ->. by destruct pl.
Qed.

Lemma changes_here m m' s p :
  changes m m' (s, p) → level m' s p = level m s p ∨ msum (level m' s p) ≠ msum (level m s p).
Proof. intros H. unfold level. destruct (H s) as [->|[_ He]]; [by left|]. right. by apply (edited_here p). Qed.
