(* ===== verification/MirrorFeed.v ===== *)
(** The events of the matching thread name the right levels.

    Along any run over valid commands, each event finds the mirror in a state in
    which it touches only the level it names ([fits_mirror]), and its fields have
    the width of the feed's messages. *)
From stdpp Require Import sorting.
From S2P Require Import Prelude Types ObjectPool PriceLevel OrderIdMap LevelMap OrderBook.
From S2P Require Import AbstractBook BookRepr BookMatch BookScan BookRefine BookSpec BookProps.
From S2P Require Import Events MatchingThread BookMirror Reconstruction JournalFormat Snapshot Recovery Digest MirrorLevels.

Definition event_i64 (e : OutboundEvent) : Prop :=
  match e_payload e with
  | TradeEvent t =>
      in_i64 (t_id t) ∧ in_i64 (t_aggressorId t) ∧ in_i64 (t_passiveId t) ∧ in_i64 (t_price t) ∧
      in_i64 (t_quantity t)
  | OrderUpdateEvent u =>
      e_action e ≠ Rejected →
      in_i64 (u_orderId u) ∧ in_i64 (u_price u) ∧ in_i64 (u_quantity u) ∧ in_i64 (u_remaining u) ∧
      in_i64 (u_participant u)
  | StatusEvent _ _ => True
  end.

Fixpoint feed_ok (m : BookMirror) (evs : list OutboundEvent) : Prop :=
  match evs with
  | [] => True
  | e :: evs' => fits_mirror m e ∧ event_i64 e ∧ feed_ok (apply m e) evs'
  end.

Lemma feed_ok_app m xs ys : feed_ok m (xs ++ ys) ↔ feed_ok m xs ∧ feed_ok (foldl apply m xs) ys.
Proof. revert m. induction xs as [|e xs IH]; intros m; cbn; [tauto|]. rewrite IH. tauto. Qed.

(** ** Events that only remove *)

Definition shrinking (e : OutboundEvent) : Prop :=
  match e_payload e with OrderUpdateEvent _ => e_action e ≠ Rested | _ => True end.

Lemma erase_index m id : bm_index (erase m id) ⊆ bm_index m.
Proof.
  unfold erase. destruct (bm_index m !! id) as [[[] p]|]; [| |done]; cbn; apply delete_subseteq.
Qed.

Lemma reduce_index m id qty : bm_index (reduce m id qty) ⊆ bm_index m.
Proof.
  unfold reduce. destruct (bm_index m !! id) as [[s p]|]; [|done].
  destruct (omFind _ _) as [deq|]; [|done]. destruct (reduceFirst _ _ _) as [[deq' r]|]; [|done].
  destruct (r <=? 0), s; cbn; try apply delete_subseteq; done.
Qed.

Lemma shrinking_index m e : shrinking e → bm_index (apply m e) ⊆ bm_index m.
Proof.
  unfold shrinking. intros He. destruct (apply_shape m e) as (q & t & Hs).
  destruct (e_payload e) as [tr| |u]; rewrite Hs; [apply reduce_index|done|].
  destruct (e_action e); try done; apply (erase_index (seedCounters m q t)).
Qed.

Lemma fits_shrunk m m' e : shrinking e → bm_index m' ⊆ bm_index m → fits_mirror m e → fits_mirror m' e.
Proof.
  unfold shrinking, fits_mirror. intros Hs Hsub. destruct (e_payload e) as [tr| |u]; [|done|].
  - intros [Hq Hloc]. split; [done|]. intros loc Hl. apply Hloc. by eapply lookup_weaken.
  - destruct (e_action e); try done; intros Hloc loc Hl; apply Hloc; by eapply lookup_weaken.
Qed.

Lemma feed_shrinking m evs :
  Forall (λ e, shrinking e ∧ fits_mirror m e ∧ event_i64 e) evs → feed_ok m evs.
Proof.
  revert m. induction evs as [|e evs IH]; intros m Hev; [done|].
  apply Forall_cons in Hev as [(Hs & Hf & Hi) Hev]. cbn. split; [done|]. split; [done|].
  apply IH. eapply Forall_impl; [exact Hev|]. intros e' (Hs' & Hf' & Hi'). split; [done|]. split; [|done].
  eapply fits_shrunk; [done| |done]. by apply shrinking_index.
Qed.

(** ** Where the mirror has an order *)

Section at_book.
Context (c : BookConfig) (Hc : config_ok c) (m : BookMirror) (a : ABook).
Context (Hsh : shows m a) (Hw : wf c a) (Hi : book_i64 a).

Lemma mirror_at s o loc :
  o ∈ aside a s → bm_index m !! ao_id o = Some loc → loc = (s, ao_price o).
Proof using Hsh Hw.
  intros Ho Hix. destruct loc as [s' p]. apply (mk_index _ (sh_ok _ _ Hsh)) in Hix as (x & Hx & Hid & Hp).
  rewrite (sh_flat _ _ Hsh) in Hx. apply list_elem_of_fmap in Hx as (o' & -> & Ho').
  assert (o' = o) as ->.
  { apply (NoDup_fmap_key ao_id (aresting a)); [apply (wf_ids _ _ Hw)| | |done];
      first [by apply (aside_resting a s')|by apply (aside_resting a s)]. }
  pose proof (wf_side c a s Hw) as H1. pose proof (wf_side c a s' Hw) as H2. rewrite Forall_forall in H1, H2.
  rewrite <- (H1 o Ho), <- (H2 o Ho'). by rewrite <- Hp.
Qed.

Lemma resting_i64 s o :
  o ∈ aside a s → in_i64 (ao_id o) ∧ in_i64 (ao_price o) ∧ in_i64 (ao_quantity o) ∧
    in_i64 (ao_remaining o) ∧ in_i64 (ao_participant o).
Proof using Hw Hi Hc.
  intros Ho. pose proof (wf_orders _ _ Hw s) as Hwo. rewrite Forall_forall in Hwo.
  destruct (Hwo o Ho) as [_ Hr _ Hrem Hq _]. destruct Hi as [_ Hio]. rewrite Forall_forall in Hio.
  destruct (Hio o (aside_resting a s o Ho)) as (H1 & H2 & _). destruct Hc. unfold ainRange in Hr.
  unfold in_i64, INT64_MIN, INT64_MAX in *. split_and!; lia.
Qed.

Lemma removed_event s o q :
  o ∈ aside a s →
  let e := orderUpdateEvent Cancelled s (updateOf o) q Ok in
  shrinking e ∧ fits_mirror m e ∧ event_i64 e.
Proof using All.
  intros Ho e. split; [done|]. split.
  - intros loc Hl. by apply (mirror_at s o).
  - intros _. by apply (resting_i64 s o).
Qed.

Lemma amatch_ids_order stp inc tid rem os : in_i64 tid → Forall (λ t, in_i64 (t_id t)) (am_trades (amatch stp inc tid rem os)).
Proof.
  revert tid rem. induction os as [|o os IH]; intros tid rem Ht; cbn [amatch]; [done|].
  repeat case_match; cbn [am_trades]; try done; try (by apply IH);
    (constructor; [done|]); try done. apply IH, s64_range.
Qed.

(** The trades and removals of an accepted order. *)
Lemma matched_events inc q :
  in_i64 (n_id inc) → 0 < n_quantity inc →
  let r := amatched c a inc in
  Forall (λ e, shrinking e ∧ fits_mirror m e ∧ event_i64 e)
    (tradeEvents q (am_trades r) ++ victimEvents q (am_victims r)).
Proof using All.
  intros Hid Hq r. set (opp := opposite (n_side inc)).
  apply Forall_app. split.
  - unfold tradeEvents. apply Forall_fmap, Forall_forall. intros t Ht. cbn.
    pose proof (amatch_trades (cfg_stp c) inc (ab_tid a) (n_quantity inc) (aside a opp)) as H1.
    rewrite Forall_forall in H1. destruct (H1 t Ht) as [[Ha Hs] (o & Ho & Hp & Hpr & _ & Hle) _].
    destruct (amatch_conserves (cfg_stp c) inc (ab_tid a) (n_quantity inc) (aside a opp) ltac:(lia) (wf_positive c _ _ Hw))
      as (_ & _ & _ & H2). rewrite Forall_forall in H2. specialize (H2 t Ht). cbn in H2.
    pose proof (amatch_ids_order (cfg_stp c) inc (ab_tid a) (n_quantity inc) (aside a opp) (proj1 Hi)) as H3.
    rewrite Forall_forall in H3. specialize (H3 t Ht). cbn in H3.
    destruct (resting_i64 opp o Ho) as (I1 & I2 & I3 & I4 & I5).
    split; [done|]. split.
    + cbn. split; [unfold in_i64, INT64_MIN, INT64_MAX in *; lia|]. rewrite Hp, Hs, Hpr. intros loc. by apply mirror_at.
    + cbn. rewrite Ha, Hp, Hpr. split_and!; try done. unfold in_i64, INT64_MIN, INT64_MAX in *. lia.
  - unfold victimEvents. apply Forall_fmap, Forall_forall. intros v Hv.
    destruct (amatch_names (cfg_stp c) inc (ab_tid a) (n_quantity inc) (aside a opp)) as [_ H1].
    rewrite Forall_forall in H1. specialize (H1 v Hv).
    pose proof (wf_side c a opp Hw) as H2. rewrite Forall_forall in H2. cbn. rewrite (H2 v H1).
    by apply (removed_event opp v q).
Qed.
End at_book.

(** ** Whole commands *)

Lemma msum_mirrorOf os : msum (mirrorOf <$> os) = total os.
Proof. induction os as [|o os IH]; [done|]. rewrite fmap_cons. cbn [msum]. rewrite IH. done. Qed.

Lemma shows_sum m a s : shows m a → msum (flat (levelsOf m s)) = total (aside a s).
Proof. intros Hsh. by rewrite (sh_flat _ _ Hsh), msum_mirrorOf. Qed.

Lemma shows_bounded c m a :
  shows m a → wf c a → (∀ s, total (aside a s) <= INT64_MAX) → bounded m.
Proof.
  intros Hsh Hw Ht s. rewrite (shows_sum m a s Hsh), (sh_flat _ _ Hsh). split; [|apply Ht].
  apply Forall_fmap. eapply Forall_impl; [apply (wf_orders _ _ Hw s)|]. intros o Ho. cbn. apply Ho.
Qed.

Lemma foldl_status m es : Forall (λ e, ∃ id st, e_payload e = StatusEvent id st) es → foldl apply m es = m ∧ feed_ok m es.
Proof.
  induction 1 as [|e es (id & st & He) _ [IH1 IH2]]; [done|]. cbn [foldl feed_ok].
  assert (apply m e = m) as -> by (unfold apply; by rewrite He).
  split; [done|]. unfold fits_mirror, event_i64. by rewrite He.
Qed.

Section run.
Context (c : BookConfig) (Hc : config_ok c).

Lemma total_filter (P : AOrder → Prop) `{!∀ x, Decision (P x)} os :
  Forall (λ o, 0 < ao_remaining o) os → total (filter P os) <= total os.
Proof.
  induction 1 as [|o os Ho _ IH]; [done|]. rewrite filter_cons. case_decide; rewrite ?total_cons; lia.
Qed.

Lemma total_nonneg os : Forall (λ o, 0 < ao_remaining o) os → 0 <= total os.
Proof. induction 1; rewrite ?total_cons; [done|lia]. Qed.

(** What matching and resting do to the quantity of a side. *)
Lemma aexecute_total a inc s :
  wf c a → 0 < n_quantity inc →
  let r := amatched c a inc in
  0 <= am_remaining r <= n_quantity inc ∧
  total (aside (aafter c a inc) s) <= total (aside a s) ∧
  total (aside (out_book (aexecute c a inc)) s) <= total (aside a s) + n_quantity inc.
Proof.
  intros Hw Hq r.
  destruct (amatch_conserves (cfg_stp c) inc (ab_tid a) (n_quantity inc) (aside a (opposite (n_side inc)))
    ltac:(lia) (wf_positive c _ _ Hw)) as (H1 & H2 & H3 & H4).
  fold (amatched c a inc) in H1, H2, H3, H4. fold r in H1, H2, H3, H4.
  pose proof (traded_nonneg _ H4) as H5.
  assert (H6 : 0 <= total (am_victims r)).
  { apply total_nonneg. destruct (amatch_names (cfg_stp c) inc (ab_tid a) (n_quantity inc) (aside a (opposite (n_side inc)))) as [_ Hv].
    eapply Forall_impl; [exact Hv|]. intros v Hv'. pose proof (wf_positive c a (opposite (n_side inc)) Hw) as Hp.
    rewrite Forall_forall in Hp. by apply Hp. }
  split; [lia|].
  assert (H7 : total (aside (aafter c a inc) s) <= total (aside a s)).
  { unfold aafter. fold r. destruct (n_side inc), s; cbn [opposite set_acounters set_aside aside ab_bids ab_asks] in *; lia. }
  split; [done|]. unfold aexecute. rewrite (adispose_book c). fold r. destruct (r_rested _); [|lia].
  rewrite aside_set_aside. case_decide as Hs; [|lia]. subst s.
  rewrite (total_perm _ _ (arest_perm _ _ _)), total_cons. cbn [newAOrder ao_remaining]. lia.
Qed.

Lemma feed_submission m a inc q side mid :
  mirrors m a → wf c a → book_i64 a → ab_seq a < INT64_MAX →
  in_i64 (n_id inc) → in_i64 (n_price inc) → in_i64 (n_participant inc) → n_quantity inc <= INT64_MAX →
  total (aside a (n_side inc)) + Z.max 0 (n_quantity inc) <= INT64_MAX →
  Forall (λ e, ∃ id st, e_payload e = StatusEvent id st) mid →
  let out := asubmit c a inc in
  feed_ok m (tradeEvents q (out_trades out) ++ victimEvents q (out_victims out) ++
    mid ++ [fateEvent q (n_id inc) side (out_result out)]).
Proof using Hc.
  intros Hmi Hw Hi Hsq I1 I2 I3 Hqi Hroom Hmid out. unfold out, asubmit.
  destruct (averdict c a inc) as [st|] eqn:Hv.
  { cbn [out_trades out_victims out_result app tradeEvents victimEvents fmap list_fmap].
    apply feed_ok_app. destruct (foldl_status m mid Hmid) as [-> Hm]. split; [done|]. cbn. done. }
  pose proof (averdict_quantity _ _ _ Hv) as Hq. pose proof (averdict_fresh _ _ _ Hv) as Hfresh.
  destruct (adispose_facts c (aafter c a inc) inc (s64 (ab_seq a + 1)) (amatched c a inc)) as (Ht & Hvi & _).
  cbv zeta in Ht, Hvi. fold (aexecute c a inc) in Ht, Hvi. rewrite Ht, Hvi, app_assoc.
  apply feed_ok_app. split.
  { apply feed_shrinking. apply (matched_events c Hc m a (proj1 Hmi) Hw Hi); [done|lia]. }
  destruct (apply_matched c m a inc q Hmi Hw) as [Hsh _]. cbv zeta in Hsh.
  set (m1 := foldl apply m _) in *. apply feed_ok_app. destruct (foldl_status m1 mid Hmid) as [-> Hm]. split; [done|].
  cbn [feed_ok]. unfold fateEvent. destruct (r_rested (out_result (aexecute c a inc))) eqn:Er; [|done].
  destruct (aexecute_total a inc (n_side inc) Hw ltac:(lia)) as (Hrem & Htot & _).
  pose proof (aafter_unknown c a inc _ Hw Hfresh) as Hfree.
  assert (Hix : bm_index m1 !! n_id inc = None) by (apply (shows_unknown _ _ _ Hsh); exact Hfree).
  pose proof (shows_sum m1 _ (n_side inc) Hsh) as Hsum.
  replace (aside (set_acounters (aafter c a inc) (ab_seq a) (am_tid (amatched c a inc))) (n_side inc))
    with (aside (aafter c a inc) (n_side inc)) in Hsum by (by destruct (n_side inc)).
  assert (Hr : r_remaining (out_result (aexecute c a inc)) = am_remaining (amatched c a inc) ∧
               0 < am_remaining (amatched c a inc)).
  { revert Er. unfold aexecute, adispose. repeat case_match; cbn; try done; split; done || lia. }
  destruct Hr as [Hr Hr0].
  destruct (adispose_echo c (aafter c a inc) inc (s64 (ab_seq a + 1)) (amatched c a inc)) as (E1 & E2 & E3 & _ & E5 & _).
  fold (aexecute c a inc) in E1, E2, E3, E5.
  split; [|split; [|done]].
  - unfold fits_mirror, orderUpdateEvent, resultUpdate. cbn. rewrite Hr, E5, Hsum. split; [done|]. lia.
  - intros _. cbn. rewrite E1, E2, E3, Hr. unfold in_i64, INT64_MIN, INT64_MAX in *. split_and!; try done; lia.
Qed.
(** The quantity a list of commands can add to a side. *)
Definition submitted (cmds : list Command) : Z := foldr (λ cmd n, Z.max 0 (cm_quantity cmd) + n) 0 cmds.

Lemma submitted_nonneg cmds : 0 <= submitted cmds.
Proof. induction cmds as [|cmd cmds IH]; cbn; [done|]. change (foldr _ 0 cmds) with (submitted cmds). lia. Qed.

Lemma asubmit_total a inc s :
  wf c a → total (aside (out_book (asubmit c a inc)) s) <= total (aside a s) + Z.max 0 (n_quantity inc).
Proof using Hc.
  intros Hw. unfold asubmit. destruct (averdict c a inc) as [st|] eqn:Hv; [cbn; lia|].
  pose proof (averdict_quantity _ _ _ Hv) as Hq.
  destruct (aexecute_total a inc s Hw ltac:(lia)) as (_ & _ & H). lia.
Qed.

Lemma aremove_total a id s : wf c a → total (aside (aremove a id) s) <= total (aside a s).
Proof using Hc. intros Hw. destruct s; apply total_filter; [apply (wf_positive c a Buy Hw)|apply (wf_positive c a Sell Hw)]. Qed.

Lemma answer_total a cmd s :
  wf c a → total (aside (ans_book (aanswer c a cmd)) s) <= total (aside a s) + Z.max 0 (cm_quantity cmd).
Proof using Hc.
  intros Hw. unfold aanswer. destruct (cm_kind cmd); cbn [ans_book].
  - apply (asubmit_total a (toNewOrder cmd) s Hw).
  - unfold acancel. destruct (afind a _); cbn [fst]; [|lia]. pose proof (aremove_total a (cm_id cmd) s Hw). lia.
  - unfold areplace. destruct (bool_decide _); [cbn; lia|]. destruct (_ <=? 0); [cbn; lia|].
    destruct (_ && negb (ainRange _ _)); [cbn; lia|]. destruct (_ && bool_decide _); [cbn; lia|].
    pose proof (acancel_wf c a (cm_id cmd) Hw) as Hw1. unfold acancel in *.
    destruct (afind a (cm_id cmd)); cbn [fst] in *.
    + pose proof (aremove_total a (cm_id cmd) s Hw). pose proof (asubmit_total _ (toFreshOrder cmd) s Hw1).
      cbn [toFreshOrder n_quantity fst] in *. lia.
    + apply (asubmit_total a (toFreshOrder cmd) s Hw).
Qed.

Lemma cancel_update id o : ao_id o = id → resultUpdate id (cancelResult o) = updateOf o.
Proof. by intros <-. Qed.

Lemma afind_side a id o : wf c a → afind a id = Some o → o ∈ aside a (ao_side o) ∧ ao_id o = id.
Proof using Hc.
  intros Hw [Ho Hid]%afind_elem. split; [|done].
  assert (∃ s, o ∈ aside a s) as [s Hs].
  { apply elem_of_app in Ho as [Ho|Ho]; [by exists Buy|by exists Sell]. }
  pose proof (wf_side c a s Hw) as H. rewrite Forall_forall in H. by rewrite (H o Hs).
Qed.

Lemma feed_command m a cmd q :
  mirrors m a → wf c a → book_i64 a → ab_seq a < INT64_MAX →
  valid_command c cmd → command_i64 cmd →
  (∀ s, total (aside a s) + Z.max 0 (cm_quantity cmd) <= INT64_MAX) →
  feed_ok m (events q cmd (aanswer c a cmd)).
Proof using Hc.
  intros Hmi Hw Hi Hsq Hv (I1 & I2 & I3 & I4 & I5) Hroom. unfold aanswer, valid_command in *.
  destruct (cm_kind cmd); cbn [events].
  - apply (feed_submission m a (toNewOrder cmd)); try done; [apply Hv|].
    case_bool_decide; [|done]. constructor; [|done]. by eexists _, _.
  - unfold acancel. destruct (afind a (cm_id cmd)) as [o|] eqn:Ho; [|done].
    destruct (afind_side a _ o Hw Ho) as [Hos Hid]. apply feed_shrinking. constructor; [done|].
    constructor; [|done]. cbn [fst snd r_side cancelResult]. rewrite (cancel_update _ o Hid).
    apply (removed_event c Hc m a (proj1 Hmi) Hw Hi _ _ _ Hos).
  - unfold areplace. destruct (bool_decide (afind a (cm_id cmd) = None)) eqn:E0; [done|].
    destruct (n_quantity _ <=? 0); [done|]. destruct (_ && negb (ainRange c _)); [done|].
    destruct (_ && bool_decide _); [done|]. apply bool_decide_eq_false in E0. unfold acancel.
    destruct (afind a (cm_id cmd)) as [o|] eqn:Ho; [|done].
    destruct (afind_side a _ o Hw Ho) as [Hos Hid]. cbn [fst snd].
    pose proof (apply_acancel c m a (cm_id cmd) o q Hmi Hw Ho) as Hmi1.
    change (r_side (cancelResult o)) with (ao_side o).
    apply feed_ok_app. split.
    + apply feed_shrinking. constructor; [|done]. rewrite (cancel_update _ o Hid).
      apply (removed_event c Hc m a (proj1 Hmi) Hw Hi _ _ _ Hos).
    + cbn [foldl]. pose proof (acancel_wf c a (cm_id cmd) Hw) as Hw1. pose proof (acancel_i64 a (cm_id cmd) Hi) as Hi1.
      unfold acancel in Hw1, Hi1. rewrite Ho in Hw1, Hi1.
      pose proof (feed_submission _ (aremove a (cm_id cmd)) (toFreshOrder cmd) q (cm_side cmd)
        [statusEvent (cm_newId cmd) (r_status (out_result (asubmit c (aremove a (cm_id cmd)) (toFreshOrder cmd)))) q] Hmi1 Hw1 Hi1) as Hf.
      cbn [app] in Hf. apply Hf; try done; [apply Hv| |].
      * pose proof (aremove_total a (cm_id cmd) (n_side (toFreshOrder cmd)) Hw).
        specialize (Hroom (n_side (toFreshOrder cmd))). cbn [toFreshOrder n_quantity] in *. lia.
      * constructor; [|done]. by eexists _, _.
Qed.

Lemma answer_keeps a cmd :
  wf c a → book_i64 a → ab_seq a < INT64_MAX → valid_command c cmd → command_i64 cmd →
  wf c (ans_book (aanswer c a cmd)) ∧ book_i64 (ans_book (aanswer c a cmd)).
Proof using Hc. intros Hw Hi Hsq Hv Hci. split; [by apply answer_wf|by apply answer_i64]. Qed.

Lemma feed_run q a m cmds :
  mirrors m a → wf c a → book_i64 a → 0 <= ab_seq a → ab_seq a + Z.of_nat (length cmds) <= INT64_MAX →
  Forall (valid_command c) cmds → Forall command_i64 cmds →
  (∀ s, total (aside a s) + submitted cmds <= INT64_MAX) →
  feed_ok m (arun c q a cmds).2 ∧ mirrors (foldl apply m (arun c q a cmds).2) (arun c q a cmds).1 ∧
  wf c (arun c q a cmds).1 ∧ book_i64 (arun c q a cmds).1 ∧
  (∀ s, total (aside (arun c q a cmds).1 s) <= total (aside a s) + submitted cmds) ∧
  0 <= ab_seq (arun c q a cmds).1 <= ab_seq a + Z.of_nat (length cmds).
Proof using Hc.
  revert q a m. induction cmds as [|cmd cmds IH]; intros q a m Hmi Hw Hi H0 Hsq Hv Hci Hroom.
  { cbn in *. split_and!; try done; lia. }
  apply Forall_cons in Hv as [Hv Hvs]. apply Forall_cons in Hci as [Hci Hcis].
  cbn [arun fst snd length submitted foldr] in *. change (foldr _ 0 cmds) with (submitted cmds) in Hroom |- *.
  pose proof (submitted_nonneg cmds) as Hn.
  assert (Hlt : ab_seq a < INT64_MAX) by lia.
  destruct (answer_keeps a cmd Hw Hi Hlt Hv Hci) as [Hw1 Hi1].
  pose proof (answer_seq c a cmd Hw Hlt) as Has.
  assert (Hmi1 : mirrors (foldl apply m (events (s64 (q + 1)) cmd (aanswer c a cmd))) (ans_book (aanswer c a cmd)))
    by (by apply apply_dispatch).
  destruct (IH (s64 (q + 1)) _ _ Hmi1 Hw1 Hi1) as (F1 & F2 & F3 & F4 & F5 & F6); try done; try lia.
  { intros s. pose proof (answer_total a cmd s Hw). specialize (Hroom s). lia. }
  rewrite foldl_app. split_and!; try done; try lia.
  - apply feed_ok_app. split; [|done]. apply feed_command; try done. intros s. specialize (Hroom s). lia.
  - intros s. specialize (F5 s). pose proof (answer_total a cmd s Hw). lia.
Qed.
End run.
