(* ===== verification/Publisher.v ===== *)
(** The market-data publisher: [marketdata/publisher.hpp].

    A sink is the list of frames it was sent.  The elements of the outbound ring are
    one-word lists; the interleavings of the ring's own steps are the subject of
    [MulticastRing].  The snapshot source is a parameter: a function that fills a
    mirror, or none. *)
From stdpp Require Import gmap sorting.
From S2P Require Import MulticastRing.
From S2P Require Import Prelude Types ObjectPool PriceLevel OrderIdMap LevelMap OrderBook.
From S2P Require Import AbstractBook BookRepr BookMatch BookScan BookRefine BookSpec BookProps BookWalk.
From S2P Require Import Wire Messages Framing FeedCodec Events MatchingThread BookMirror Reconstruction.
From S2P Require Import Crc32 JournalFormat Snapshot Recovery Digest.

Abbreviation Frame := (list Z).

(** [publishOne]: the bytes one encoder call leaves in the local buffer. *)
Definition publishOne (m : DecodedFeedMessage) : option Frame :=
  '(buf, n) ← encodeFeed m (replicate (Z.to_nat (kFrameHeaderSize + kMsgTypeSize + kMaxFrame)) 0);
  Some (take (Z.to_nat n) buf).

Definition restedMsg (instrumentId : Z) (x : Side * MirrorOrder) (seq : Z) : DecodedFeedMessage :=
  let '(side, o) := x in
  FL3Order (mkL3Order instrumentId seq (l3Code L3Rested) (mo_id o) (sideCode side) (mo_price o)
              (mo_quantity o) (mo_remaining o) (mo_participant o)).

(** The orders of a burst to one sink, numbered on from [seq]. *)
Fixpoint burstOrders (sink : list Frame) (instrumentId : Z) (xs : list (Side * MirrorOrder)) (seq : Z) :
    option (list Frame * Z) :=
  match xs with
  | [] => Some (sink, seq)
  | x :: xs' =>
      let seq := u64 (seq + 1) in
      f ← publishOne (restedMsg instrumentId x seq);
      burstOrders (sink ++ [f]) instrumentId xs' seq
  end.

Definition emitSnapshotBurst (sink : list Frame) (instrumentId : Z) (mirror : BookMirror) :
    option (list Frame) :=
  let seq := u64 (0 + 1) in
  f ← publishOne (FSnapshotStart (mkSnapshotStart instrumentId seq (restingOrders mirror)));
  '(sink, seq) ← burstOrders (sink ++ [f]) instrumentId (walk mirror) seq;
  let seq := u64 (seq + 1) in
  d ← digestOf mirror;
  f ← publishOne (FSnapshotEnd (mkSnapshotEnd instrumentId seq (dg_bodyCrc32 d)));
  Some (sink ++ [f]).

Record Publisher := mkPublisher {
  pb_mirror : BookMirror;
  pb_bidTotals : gmap Z Z;
  pb_askTotals : gmap Z Z;
  pb_feedSeq : Z;
  pb_sinks : list (list Frame)
}.

Definition publisherNew : Publisher := mkPublisher mirrorNew ∅ ∅ 0 [].

Definition addSink (p : Publisher) (sink : list Frame) : Publisher :=
  mkPublisher (pb_mirror p) (pb_bidTotals p) (pb_askTotals p) (pb_feedSeq p) (pb_sinks p ++ [sink]).

Definition totalsOf (p : Publisher) (s : Side) : gmap Z Z :=
  match s with Buy => pb_bidTotals p | Sell => pb_askTotals p end.

Definition setTotals (p : Publisher) (s : Side) (t : gmap Z Z) : Publisher :=
  match s with
  | Buy => mkPublisher (pb_mirror p) t (pb_askTotals p) (pb_feedSeq p) (pb_sinks p)
  | Sell => mkPublisher (pb_mirror p) (pb_bidTotals p) t (pb_feedSeq p) (pb_sinks p)
  end.

Definition setMirror (p : Publisher) (m : BookMirror) : Publisher :=
  mkPublisher m (pb_bidTotals p) (pb_askTotals p) (pb_feedSeq p) (pb_sinks p).

Section publisher.
Context (instrumentId : Z).
Context (snapshotSource : option (BookMirror → option BookMirror)).

(** [publishMsg(encode, Msg{..., nextFeedSeq(), ...})] *)
Definition publishMsg (p : Publisher) (msg : Z → DecodedFeedMessage) : option Publisher :=
  let seq := u64 (pb_feedSeq p + 1) in
  f ← publishOne (msg seq);
  Some (mkPublisher (pb_mirror p) (pb_bidTotals p) (pb_askTotals p) seq
          ((λ sink, sink ++ [f]) <$> pb_sinks p)).

Definition diffLevel (p : Publisher) (side : Side) (price : Z) : option Publisher :=
  let newTotal := levelTotal (pb_mirror p) side price in
  let oldTotal := default 0 (totalsOf p side !! price) in
  if newTotal =? oldTotal then Some p
  else
    let action := if oldTotal =? 0 then L2Add else if newTotal =? 0 then L2Delete else L2Modify in
    let p := setTotals p side
               (if newTotal =? 0 then delete price (totalsOf p side)
                else <[price := newTotal]> (totalsOf p side)) in
    publishMsg p (λ seq, FL2Delta (mkL2Delta instrumentId seq (sideCode side) (l2Code action) price
                                     newTotal (levelOrderCount (pb_mirror p) side price))).

Definition applyAndPublish (p : Publisher) (ev : OutboundEvent) : option Publisher :=
  let p := setMirror p (apply (pb_mirror p) ev) in
  match e_payload ev with
  | TradeEvent t =>
      p ← publishMsg p (λ seq, FTradeTick (mkTradeTick instrumentId seq (t_id t) (t_aggressorId t)
            (t_passiveId t) (t_price t) (t_quantity t) (sideCode (t_aggressorSide t))));
      let passiveSide := opposite (t_aggressorSide t) in
      p ← publishMsg p (λ seq, FL3Fill (mkL3Fill instrumentId seq (t_passiveId t) (t_id t) (t_price t)
            (t_quantity t) (remainingOf (pb_mirror p) (t_passiveId t))));
      diffLevel p passiveSide (t_price t)
  | OrderUpdateEvent u =>
      let go action :=
        p ← publishMsg p (λ seq, FL3Order (mkL3Order instrumentId seq (l3Code action) (u_orderId u)
              (sideCode (e_side ev)) (u_price u) (u_quantity u) (u_remaining u) (u_participant u)));
        diffLevel p (e_side ev) (u_price u) in
      match e_action ev with
      | Rested => go L3Rested
      | Cancelled => go L3Cancelled
      | Replaced => go L3Replaced
      | Rejected => Some p
      end
  | StatusEvent _ _ => Some p
  end.

Definition seedLevelTotals (p : Publisher) : Publisher :=
  foldl (λ p x, setTotals p x.1
                  (<[mo_price x.2 := levelTotal (pb_mirror p) x.1 (mo_price x.2)]> (totalsOf p x.1)))
    p (walk (pb_mirror p)).

(** The loop of [resync] over the orders. *)
Fixpoint publishOrders (p : Publisher) (xs : list (Side * MirrorOrder)) : option Publisher :=
  match xs with
  | [] => Some p
  | x :: xs' => p ← publishMsg p (restedMsg instrumentId x); publishOrders p xs'
  end.

Definition resync (p : Publisher) : option Publisher :=
  m ← match snapshotSource with
      | Some source => source (clearMirror (pb_mirror p))
      | None => Some (clearMirror (pb_mirror p))
      end;
  let p := mkPublisher m ∅ ∅ (pb_feedSeq p) (pb_sinks p) in
  p ← publishMsg p (λ seq, FSnapshotStart (mkSnapshotStart instrumentId seq (restingOrders (pb_mirror p))));
  p ← publishOrders p (walk (pb_mirror p));
  let p := seedLevelTotals p in
  d ← digestOf (pb_mirror p);
  publishMsg p (λ seq, FSnapshotEnd (mkSnapshotEnd instrumentId seq (dg_bodyCrc32 d))).

(** [pump] on a ring nobody else steps meanwhile. *)
Fixpoint pump (fuel : nat) (Capacity : Z) (idx : nat) (r : MulticastRing.MulticastRing OutboundEvent)
    (p : Publisher) (drained : Z) :
    option (MulticastRing.MulticastRing OutboundEvent * Publisher * Z) :=
  match fuel with
  | O => None
  | S fuel' =>
      '(r, status) ← MulticastRing.tryPeekChecked Capacity r idx;
      match status with
      | MulticastRing.Empty => Some (r, p, drained)
      | MulticastRing.Lapped =>
          p ← resync p; pump fuel' Capacity idx r p (u64 (drained + 1))
      | MulticastRing.Ok out =>
          ev ← out !! 0%nat;
          r ← MulticastRing.consume r idx;
          p ← applyAndPublish p ev;
          pump fuel' Capacity idx r p (u64 (drained + 1))
      end
  end.
End publisher.

(** ** What goes out *)

Definition seqOf (m : DecodedFeedMessage) : Z :=
  match m with
  | FL2Delta m => l2_feedSeq m
  | FL3Order m => l3_feedSeq m
  | FL3Fill m => lf_feedSeq m
  | FTradeTick m => tt_feedSeq m
  | FSnapshotStart m => ss_feedSeq m
  | FSnapshotEnd m => se_feedSeq m
  end.

Lemma publishOne_ok m : feed_valid m → publishOne m = Some (wireFrame m).
Proof.
  intros Hv. unfold publishOne. pose proof (payload_bounds (feedType m)) as Hp.
  change (encodeFeed m) with (encodeMsg m). rewrite (encodeMsg_ok m); [|done|].
  - simpl_bind. pose proof (wireFrame_length m Hv) as Hl. unfold wireFrame in Hl at 1.
    rewrite <- Hl, Nat2Z.id, take_app_length. done.
  - unfold frameSize, kFrameHeaderSize, kMsgTypeSize, kMaxFrame in *. rewrite length_replicate.
    cbn [msgTypeOf feed_encoder]. lia.
Qed.

(** [p'] is [p] after sending [ms] to every sink, numbered on from its counter. *)
Record sends (p p' : Publisher) (ms : list DecodedFeedMessage) : Prop := {
  sn_sinks : pb_sinks p' = (λ sink, sink ++ (wireFrame <$> ms)) <$> pb_sinks p;
  sn_valid : Forall feed_valid ms;
  sn_numbers : seqOf <$> ms = seqZ (pb_feedSeq p + 1) (Z.of_nat (length ms));
  sn_feedSeq : pb_feedSeq p' = pb_feedSeq p + Z.of_nat (length ms)
}.

Lemma sends_nil p p' : pb_sinks p' = pb_sinks p → pb_feedSeq p' = pb_feedSeq p → sends p p' [].
Proof.
  intros Hs Hq. split; [|done|done|cbn; lia]. rewrite Hs. clear. induction (pb_sinks p) as [|x xs IH]; [done|].
  rewrite fmap_cons, <- IH. by rewrite app_nil_r.
Qed.

Lemma sends_from p q p' ms :
  pb_sinks q = pb_sinks p → pb_feedSeq q = pb_feedSeq p → sends q p' ms → sends p p' ms.
Proof. intros Hs Hq [S V N Q]. rewrite Hs in S. rewrite Hq in N, Q. by split. Qed.

Lemma sends_app p1 p2 p3 ms1 ms2 : sends p1 p2 ms1 → sends p2 p3 ms2 → sends p1 p3 (ms1 ++ ms2).
Proof.
  intros [S1 V1 N1 Q1] [S2 V2 N2 Q2]. split.
  - rewrite S2, S1, <- list_fmap_compose. apply list_fmap_ext. intros i x _. cbn.
    by rewrite fmap_app, app_assoc.
  - by apply Forall_app.
  - rewrite fmap_app, N1, N2, Q1, length_app, Nat2Z.inj_add, seqZ_app by lia.
    do 2 f_equal. lia.
  - rewrite length_app. lia.
Qed.

(** The book side of the publisher is untouched. *)
Definition same_book (p p' : Publisher) : Prop :=
  pb_mirror p' = pb_mirror p ∧ ∀ s, totalsOf p' s = totalsOf p s.

Definition room (p : Publisher) (n : Z) : Prop := 0 <= pb_feedSeq p ∧ pb_feedSeq p + n < 2 ^ 64.

Lemma publishMsg_ok p msg :
  room p 1 → (∀ q, seqOf (msg q) = q) → feed_valid (msg (pb_feedSeq p + 1)) →
  ∃ p', publishMsg p msg = Some p' ∧ sends p p' [msg (pb_feedSeq p + 1)] ∧ same_book p p'.
Proof.
  intros [H0 H1] Hq Hv. unfold publishMsg. u64_small.
  rewrite publishOne_ok by done. simpl_bind. eexists. split; [done|]. split; [|by split; [|intros []]].
  split; cbn; [done|by constructor| |done]. by rewrite Hq.
Qed.

Lemma room_sends p p' ms n : sends p p' ms → room p (Z.of_nat (length ms) + n) → room p' n.
Proof. intros [_ _ _ Hq] [H0 H1]. split; lia. Qed.
