(* ===== verification/Ladder.v ===== *)
(** The visualizer's book and its feed client: [viz/ladder.hpp] and
    [viz/md_client.hpp].

    The maps of the ladder are the ordered maps of [BookMirror].  The client is the
    state between two completions of its asynchronous reads. *)
From stdpp Require Import sorting.
From S2P Require Import Prelude Types Wire Messages Framing FeedCodec BookMirror.

(** ** Ladder *)

Record LevelAgg := mkAgg { la_qty : Z; la_orders : Z }.
Record TradePrint := mkPrint { tp_price : Z; tp_qty : Z; tp_aggressorSide : Z }.

Abbreviation AggLevels := (list (Z * LevelAgg)).

Record Ladder := mkLadder {
  ld_bids : AggLevels;
  ld_asks : AggLevels;
  ld_trades : list TradePrint;
  ld_tradeCount : Z;
  ld_inBurst : bool
}.

Definition kMaxTrades : Z := 50.

Definition ladderNew : Ladder := mkLadder [] [] [] 0 false.

Definition aggOf (l : Ladder) (s : Side) : AggLevels :=
  match s with Buy => ld_bids l | Sell => ld_asks l end.

Definition setAgg (l : Ladder) (s : Side) (lv : AggLevels) : Ladder :=
  match s with
  | Buy => mkLadder lv (ld_asks l) (ld_trades l) (ld_tradeCount l) (ld_inBurst l)
  | Sell => mkLadder (ld_bids l) lv (ld_trades l) (ld_tradeCount l) (ld_inBurst l)
  end.

(** [m.side == Side::Buy ? bids : asks] *)
Definition msgSide (b : Z) : Side := if b =? sideCode Buy then Buy else Sell.

Definition onSnapshotStart (l : Ladder) : Ladder :=
  mkLadder [] [] (ld_trades l) (ld_tradeCount l) true.

Definition onSnapshotEnd (l : Ladder) : Ladder :=
  mkLadder (ld_bids l) (ld_asks l) (ld_trades l) (ld_tradeCount l) false.

Definition onL3Order (l : Ladder) (m : L3OrderMsg) : Ladder :=
  if negb (ld_inBurst l) || negb (l3_action m =? l3Code L3Rested) then l
  else
    let s := msgSide (l3_side m) in
    let agg := default (mkAgg 0 0) (omFind (aggOf l s) (l3_price m)) in
    setAgg l s (omSet (cmp s) (aggOf l s) (l3_price m)
                  (mkAgg (s64 (la_qty agg + l3_remaining m)) (u32 (la_orders agg + 1)))).

Definition applyLevel (s : Side) (lv : AggLevels) (m : L2DeltaMsg) : AggLevels :=
  if l2_action m =? l2Code L2Delete then omErase lv (l2_price m)
  else omSet (cmp s) lv (l2_price m) (mkAgg (l2_totalQty m) (l2_orderCount m)).

Definition onL2Delta (l : Ladder) (m : L2DeltaMsg) : Ladder :=
  let s := msgSide (l2_side m) in setAgg l s (applyLevel s (aggOf l s) m).

(** [while (trades_.size() > kMaxTrades) trades_.pop_front();] *)
Fixpoint trimTrades (ts : list TradePrint) : list TradePrint :=
  match ts with
  | [] => []
  | _ :: ts' => if kMaxTrades <? Z.of_nat (length ts) then trimTrades ts' else ts
  end.

Definition onTrade (l : Ladder) (t : TradeTickMsg) : Ladder :=
  mkLadder (ld_bids l) (ld_asks l)
    (trimTrades (ld_trades l ++ [mkPrint (tt_price t) (tt_quantity t) (tt_aggressorSide t)]))
    (u64 (ld_tradeCount l + 1)) (ld_inBurst l).

(** The callbacks of [topBids] and [topAsks]. *)
Definition top (l : Ladder) (s : Side) (n : nat) : list (Z * Z * Z) :=
  (λ x, (x.1, la_qty x.2, la_orders x.2)) <$> take n (aggOf l s).

(** ** Feed client *)

Record MdClient := mkClient {
  cl_decoder : Reassembly;
  cl_ladder : Ladder;
  cl_lastSeq : Z;
  cl_connected : bool;
  cl_backoff : Z;
  cl_instrumentFilter : Z
}.

(** The completion of a connect; [junk] is the decoder's uninitialised buffer. *)
Definition onConnected (c : MdClient) (junk : list Z) : MdClient :=
  mkClient (reassemblyNew junk) (cl_ladder c) (cl_lastSeq c) true 200 (cl_instrumentFilter c).

(** [fail] and [scheduleReconnect]. *)
Definition clientFail (c : MdClient) : MdClient :=
  mkClient (cl_decoder c) (cl_ladder c) (cl_lastSeq c) false (Z.min (cl_backoff c * 2) 5000)
    (cl_instrumentFilter c).

Definition instrumentOf (m : DecodedFeedMessage) : Z :=
  match m with
  | FSnapshotStart m => ss_instrumentId m
  | FSnapshotEnd m => se_instrumentId m
  | FL3Order m => l3_instrumentId m
  | FL2Delta m => l2_instrumentId m
  | FTradeTick m => tt_instrumentId m
  | FL3Fill m => lf_instrumentId m
  end.

Definition setLadder (c : MdClient) (l : Ladder) (seq : Z) : MdClient :=
  mkClient (cl_decoder c) l seq (cl_connected c) (cl_backoff c) (cl_instrumentFilter c).

Definition dispatch (c : MdClient) (m : DecodedFeedMessage) : MdClient :=
  if negb (cl_instrumentFilter c =? 0) && negb (instrumentOf m =? cl_instrumentFilter c) then c
  else
    match m with
    | FSnapshotStart m => setLadder c (onSnapshotStart (cl_ladder c)) (ss_feedSeq m)
    | FSnapshotEnd m => setLadder c (onSnapshotEnd (cl_ladder c)) (se_feedSeq m)
    | FL3Order m => setLadder c (onL3Order (cl_ladder c) m) (l3_feedSeq m)
    | FL2Delta m => setLadder c (onL2Delta (cl_ladder c) m) (l2_feedSeq m)
    | FTradeTick m => setLadder c (onTrade (cl_ladder c) m) (tt_feedSeq m)
    | FL3Fill m => setLadder c (cl_ladder c) (lf_feedSeq m)
    end.

Definition setDecoder (c : MdClient) (d : Reassembly) : MdClient :=
  mkClient d (cl_ladder c) (cl_lastSeq c) (cl_connected c) (cl_backoff c) (cl_instrumentFilter c).

(** The loop over [decoder_.next(msg)]; [false] when a frame is invalid. *)
Fixpoint readLoop (fuel : nat) (c : MdClient) : option (MdClient * bool) :=
  match fuel with
  | O => None
  | S fuel' =>
      '(d, r) ← feedDecoderNext (cl_decoder c);
      let c := setDecoder c d in
      match r with
      | RIncomplete => Some (c, true)
      | RInvalid _ => Some (clientFail c, false)
      | ROk m => readLoop fuel' (dispatch c m)
      end
  end.

(** The completion of a read of [bs]. *)
Definition onRead (c : MdClient) (bs : list Z) : option MdClient :=
  '(d, accepted) ← feed (cl_decoder c) bs;
  let c := setDecoder c d in
  if negb accepted then Some (clientFail c)
  else
    '(c, _) ← readLoop (S (Z.to_nat (rs_len d))) c; Some c.

Fixpoint onReads (c : MdClient) (reads : list (list Z)) : option MdClient :=
  match reads with
  | [] => Some c
  | bs :: reads' => c ← onRead c bs; if cl_connected c then onReads c reads' else Some c
  end.

(** ** The client dispatches what the decoder returns *)

Lemma dispatch_decoder c d m : dispatch (setDecoder c d) m = setDecoder (dispatch c m) d.
Proof. unfold dispatch. cbn. destruct (_ && _); [done|]. by destruct m. Qed.

Lemma dispatch_all_decoder c d ms : foldl dispatch (setDecoder c d) ms = setDecoder (foldl dispatch c ms) d.
Proof. revert c. induction ms as [|m ms IH]; intros c; [done|]. cbn. by rewrite dispatch_decoder, IH. Qed.

Lemma dispatch_same c m : cl_decoder (dispatch c m) = cl_decoder c ∧ cl_connected (dispatch c m) = cl_connected c.
Proof. unfold dispatch. destruct (_ && _); [done|]. by destruct m. Qed.

Lemma dispatch_all_same c ms :
  cl_decoder (foldl dispatch c ms) = cl_decoder c ∧ cl_connected (foldl dispatch c ms) = cl_connected c.
Proof.
  revert c. induction ms as [|m ms IH]; intros c; [done|]. cbn.
  destruct (IH (dispatch c m)) as [-> ->]. apply dispatch_same.
Qed.

Lemma readLoop_drain fuel c d ms e :
  drain fuel (cl_decoder c) = Some (d, ms, e) →
  readLoop fuel c = Some (match e with
                          | None => (setDecoder (foldl dispatch c ms) d, true)
                          | Some _ => (clientFail (setDecoder (foldl dispatch c ms) d), false)
                          end).
Proof.
  revert c d ms e. induction fuel as [|fuel IH]; intros c d ms e; [done|]. cbn [drain readLoop].
  unfold feedDecoderNext. destruct (next (cl_decoder c)) as [[d1 r]|]; [|done]. simpl_bind.
  destruct r as [m| |x]; [|by intros [= <- <- <-]..].
  destruct (drain fuel d1) as [[[d2 ms2] e2]|] eqn:Hd; [|done]. simpl_bind. intros [= <- <- <-].
  rewrite (IH _ d2 ms2 e2).
  - cbn [foldl]. by rewrite dispatch_decoder, dispatch_all_decoder.
  - rewrite dispatch_decoder. cbn [setDecoder cl_decoder]. exact Hd.
Qed.

Lemma onReads_receive c reads ms d :
  cl_connected c = true → receive (cl_decoder c) reads = Some (ms, inl d) →
  onReads c reads = Some (setDecoder (foldl dispatch c ms) d).
Proof.
  revert c ms. induction reads as [|bs reads IH]; intros c ms Hc; cbn [receive onReads].
  { intros [= <- <-]. by destruct c. }
  unfold onRead. destruct (feed (cl_decoder c) bs) as [[d1 ok]|]; [|done]. simpl_bind.
  destruct ok; cbn [negb]; [|by intros [=]].
  destruct (drain _ d1) as [[[d2 ms2] e]|] eqn:Hd; [|done]. simpl_bind.
  destruct e as [x|]; [by intros [=]|].
  destruct (receive d2 reads) as [[ms3 st]|] eqn:Hr; [|done]. simpl_bind. intros [= <- ->].
  rewrite (readLoop_drain _ (setDecoder c d1) d2 ms2 None Hd). simpl_bind.
  rewrite dispatch_all_decoder. destruct (dispatch_all_same c ms2) as [_ Hcon].
  assert (Hon : cl_connected (setDecoder (foldl dispatch c ms2) d2) = true) by (cbn; by rewrite Hcon).
  change (setDecoder (setDecoder (foldl dispatch c ms2) d1) d2) with (setDecoder (foldl dispatch c ms2) d2).
  rewrite Hon.
  rewrite (IH (setDecoder (foldl dispatch c ms2) d2) ms3); [|done|done].
  by rewrite dispatch_all_decoder, foldl_app.
Qed.

(** A connection that the decoder gives up is closed. *)
Lemma onReads_closed c reads ms e :
  cl_connected c = true → receive (cl_decoder c) reads = Some (ms, inr e) →
  ∃ c', onReads c reads = Some c' ∧ cl_connected c' = false.
Proof.
  revert c ms. induction reads as [|bs reads IH]; intros c ms Hc; cbn [receive onReads]; [done|].
  unfold onRead. destruct (feed (cl_decoder c) bs) as [[d1 ok]|]; [|done]. simpl_bind.
  destruct ok; cbn [negb]; [|intros _; by eexists].
  destruct (drain _ d1) as [[[d2 ms2] e2]|] eqn:Hd; [|done]. simpl_bind.
  rewrite (readLoop_drain _ (setDecoder c d1) d2 ms2 e2 Hd). destruct e2 as [x|]; [intros _; by eexists|].
  destruct (receive d2 reads) as [[ms3 st]|] eqn:Hr; [|done]. simpl_bind. intros [= <- ->].
  rewrite dispatch_all_decoder. destruct (dispatch_all_same c ms2) as [_ Hcon]. cbn [setDecoder cl_connected]. rewrite Hcon, Hc.
  by apply (IH _ ms3); [cbn; rewrite Hcon|].
Qed.

(** What becomes of a client that is sent the frames of [ms]: while no read overflows the
    decoder it stays connected, and while it is connected it has dispatched them all. *)
Lemma client_cut c junk ms reads :
  length junk = 256%nat → bytes junk → Forall feed_valid ms → concat reads = concat (wireFrame <$> ms) →
  ∃ c', onReads (onConnected c junk) reads = Some c' ∧
    (Forall (λ r, Z.of_nat (length r) <= maxChunk) reads → cl_connected c' = true) ∧
    (cl_connected c' = true → ∃ d, c' = setDecoder (foldl dispatch (onConnected c junk) ms) d).
Proof.
  intros Hj Hjb Hv Hcat.
  destruct (roundtrip_cut (PE := feed_encoder) ms junk reads Hj Hjb Hv Hcat) as (ms' & st & Hrec & _ & [(d & -> & -> & _)|[-> Hex]]).
  - pose proof (onReads_receive (onConnected c junk) reads ms d eq_refl Hrec) as Hon. eexists. split; [exact Hon|].
    destruct (dispatch_all_same (onConnected c junk) ms) as [_ Hcon]. split; [intros _; exact Hcon|]. intros _. by exists d.
  - destruct (onReads_closed (onConnected c junk) reads ms' None eq_refl Hrec) as (c' & Hon & Hcl). exists c'.
    split; [done|]. split; [|congruence]. intros Hf. exfalso. apply Exists_exists in Hex as (r & Hin & Hr).
    rewrite Forall_forall in Hf. specialize (Hf r Hin). lia.
Qed.
