(* ===== verification/FeedSpec.v ===== *)
(** What the publisher's messages do to a subscriber's ladder.

    A price level of the ladder is a function of the messages received; these lemmas
    follow one level through an event, a snapshot burst and a whole run. *)
From stdpp Require Import gmap sorting.
From S2P Require Import MulticastRing.
From S2P Require Import Prelude Types ObjectPool PriceLevel OrderIdMap LevelMap OrderBook.
From S2P Require Import AbstractBook BookRepr BookMatch BookScan BookRefine BookSpec BookProps BookWalk.
From S2P Require Import Wire Messages Framing FeedCodec Events MatchingThread BookMirror Reconstruction.
From S2P Require Import Crc32 JournalFormat Snapshot Recovery Digest MirrorLevels MirrorFeed Publisher Ladder.

(** ** Ordered maps *)

Section ordered.
Context {V : Type} (s : Side).
Implicit Types lv : list (Z * V).

Definition sorted_levels lv : Prop := StronglySorted (λ a b, cmp s a.1 b.1 = true) lv.

Lemma omFind_set lv k v k' : omFind (omSet (cmp s) lv k v) k' = if k' =? k then Some v else omFind lv k'.
Proof.
  induction lv as [|[k1 v1] lv IH]; cbn [omSet omFind]; [done|].
  destruct (k =? k1) eqn:E1; [|destruct (cmp s k k1)]; cbn [omFind].
  - assert (k = k1) as -> by lia. by destruct (k' =? k1).
  - done.
  - rewrite IH. destruct (k' =? k1) eqn:E2; [|done]. destruct (k' =? k) eqn:E3; [lia|done].
Qed.

Lemma omFind_beyond lv k : Forall (λ x, cmp s k x.1 = true) lv → omFind lv k = None.
Proof.
  induction 1 as [|[k1 v1] lv Hk _ IH]; [done|]. cbn in *. destruct (k =? k1) eqn:E; [|done].
  unfold cmp in Hk. destruct s; lia.
Qed.

Lemma omFind_erase lv k k' :
  sorted_levels lv → omFind (omErase lv k) k' = if k' =? k then None else omFind lv k'.
Proof.
  induction lv as [|[k1 v1] lv IH]; intros Hs; cbn [omErase omFind]; [by destruct (k' =? k)|].
  apply StronglySorted_inv in Hs as [Hs Hlt]. destruct (k =? k1) eqn:E1; cbn [omFind].
  - assert (k = k1) as -> by lia. destruct (k' =? k1) eqn:E2; [|done].
    assert (k' = k1) as -> by lia. by apply omFind_beyond.
  - rewrite IH by done. destruct (k' =? k1) eqn:E2; [|done]. destruct (k' =? k) eqn:E3; [lia|done].
Qed.

Lemma omSet_elem lv k v x : x ∈ omSet (cmp s) lv k v → x = (k, v) ∨ x ∈ lv.
Proof.
  induction lv as [|[k1 v1] lv IH]; cbn [omSet].
  - intros ->%list_elem_of_singleton. by left.
  - destruct (k =? k1); [|destruct (cmp s k k1)].
    + intros [->|Hx]%elem_of_cons; [by left|]. right. by right.
    + intros [->|Hx]%elem_of_cons; [by left|by right].
    + intros [->|Hx]%elem_of_cons; [right; by left|]. destruct (IH Hx); [by left|right; by right].
Qed.

Lemma cmp_total p q : p ≠ q → cmp s p q = false → cmp s q p = true.
Proof. unfold cmp. destruct s; lia. Qed.

Lemma cmp_trans p q r : cmp s p q = true → cmp s q r = true → cmp s p r = true.
Proof. unfold cmp. destruct s; lia. Qed.

Lemma sorted_set lv k v : sorted_levels lv → sorted_levels (omSet (cmp s) lv k v).
Proof.
  induction lv as [|[k1 v1] lv IH]; intros Hs; cbn [omSet]; [by repeat constructor|].
  apply StronglySorted_inv in Hs as [Hs Hlt]. destruct (k =? k1) eqn:E1; [|destruct (cmp s k k1) eqn:E2].
  - assert (k = k1) as -> by lia. by constructor.
  - constructor; [by constructor|]. constructor; [done|]. eapply Forall_impl; [exact Hlt|].
    intros x Hx. cbn in *. by eapply cmp_trans.
  - constructor; [by apply IH|]. apply Forall_forall. intros x [->|Hx]%omSet_elem; cbn.
    + apply cmp_total; [lia|done].
    + rewrite Forall_forall in Hlt. by apply Hlt.
Qed.

Lemma sorted_erase lv k : sorted_levels lv → sorted_levels (omErase lv k).
Proof.
  induction lv as [|[k1 v1] lv IH]; intros Hs; cbn [omErase]; [done|].
  apply StronglySorted_inv in Hs as [Hs Hlt]. destruct (k =? k1); [done|]. constructor; [by apply IH|].
  apply Forall_forall. intros x Hx. rewrite Forall_forall in Hlt. apply Hlt. clear -Hx.
  induction lv as [|[k2 v2] lv IH]; [done|]. cbn in Hx. destruct (k =? k2); [by right|].
  apply elem_of_cons in Hx as [->|Hx]; [by left|]. right. by apply IH.
Qed.

(** An ordered map is determined by its lookups. *)
Lemma sorted_ext lv lv' :
  sorted_levels lv → sorted_levels lv' → (∀ k, omFind lv k = omFind lv' k) → lv = lv'.
Proof.
  revert lv'. induction lv as [|[k v] lv IH]; intros [|[k' v'] lv'] H1 H2 He.
  - done.
  - specialize (He k'). cbn in He. by rewrite Z.eqb_refl in He.
  - specialize (He k). cbn in He. by rewrite Z.eqb_refl in He.
  - apply StronglySorted_inv in H1 as [H1 L1]. apply StronglySorted_inv in H2 as [H2 L2].
    assert (Hk : k = k').
    { destruct (decide (k = k')) as [|Hne]; [done|]. exfalso.
      destruct (cmp s k k') eqn:Ec.
      - specialize (He k). cbn in He. rewrite Z.eqb_refl in He. destruct (k =? k') eqn:E; [lia|].
        rewrite omFind_beyond in He; [done|]. eapply Forall_impl; [exact L2|]. intros x Hx. cbn in Hx. by eapply cmp_trans.
      - apply cmp_total in Ec; [|done]. specialize (He k'). cbn in He. rewrite Z.eqb_refl in He.
        destruct (k' =? k) eqn:E; [lia|]. rewrite omFind_beyond in He; [done|].
        eapply Forall_impl; [exact L1|]. intros x Hx. cbn in Hx. by eapply cmp_trans. }
    subst k'. pose proof (He k) as Hk. cbn in Hk. rewrite !Z.eqb_refl in Hk. injection Hk as ->. f_equal.
    apply IH; [done|done|]. intros q. destruct (decide (q = k)) as [->|Hne].
    + by rewrite !omFind_beyond.
    + specialize (He q). cbn in He. destruct (q =? k) eqn:E; [lia|done].
Qed.
End ordered.

(** ** One level of a ladder *)

Definition lagg (q : list MirrorOrder) : option LevelAgg :=
  match q with [] => None | _ => Some (mkAgg (msum q) (u32 (Z.of_nat (length q)))) end.

(** What a message says about a level: nothing, that it is gone, or what it holds. *)
Definition deltaAt (s : Side) (p : Z) (m : DecodedFeedMessage) : option (option LevelAgg) :=
  match m with
  | FL2Delta d =>
      if bool_decide (msgSide (l2_side d) = s) && (l2_price d =? p)
      then Some (if l2_action d =? l2Code L2Delete then None else Some (mkAgg (l2_totalQty d) (l2_orderCount d)))
      else None
  | _ => None
  end.

Definition stepLevel (s : Side) (p : Z) (x : option LevelAgg) (m : DecodedFeedMessage) : option LevelAgg :=
  default x (deltaAt s p m).

(** Either the messages say nothing of the level, or what it was before does not
    matter. *)
Lemma steps_forget s p ms :
  (∀ x, foldl (stepLevel s p) x ms = x) ∨ ∃ y, ∀ x, foldl (stepLevel s p) x ms = y.
Proof.
  induction ms as [|m ms [IH|[y IH]]]; [by left| |].
  - destruct (deltaAt s p m) as [z|] eqn:Hd.
    + right. exists z. intros x. cbn. rewrite IH. unfold stepLevel. by rewrite Hd.
    + left. intros x. cbn. rewrite IH. unfold stepLevel. by rewrite Hd.
  - right. exists y. intros x. apply IH.
Qed.

(** A subscriber that has missed the first messages, but started from the level as it
    was after all of [ms], is right after the rest of [ms]. *)
Lemma steps_overtaken s p ms k x0 :
  foldl (stepLevel s p) (foldl (stepLevel s p) x0 ms) (drop k ms) = foldl (stepLevel s p) x0 ms.
Proof.
  destruct (steps_forget s p (drop k ms)) as [H|[y H]]; [by apply H|].
  rewrite H. rewrite <- (take_drop k ms) at 1. by rewrite foldl_app, H.
Qed.

(** ** Messages on a ladder *)

Definition ladderMsg (l : Ladder) (m : DecodedFeedMessage) : Ladder :=
  match m with
  | FSnapshotStart m => onSnapshotStart l
  | FSnapshotEnd m => onSnapshotEnd l
  | FL3Order m => onL3Order l m
  | FL2Delta m => onL2Delta l m
  | FTradeTick m => onTrade l m
  | FL3Fill m => l
  end.

Definition listens (c : MdClient) (instrumentId : Z) : Prop :=
  cl_instrumentFilter c = 0 ∨ cl_instrumentFilter c = instrumentId.

Lemma dispatch_ladder c i m :
  listens c i → instrumentOf m = i →
  cl_ladder (dispatch c m) = ladderMsg (cl_ladder c) m ∧ cl_lastSeq (dispatch c m) = seqOf m ∧
  listens (dispatch c m) i.
Proof.
  intros Hl Hi. unfold dispatch.
  destruct (_ && _) eqn:E; [destruct Hl; lia|]. by destruct m.
Qed.

Lemma dispatch_all_ladder c i ms :
  listens c i → Forall (λ m, instrumentOf m = i) ms →
  cl_ladder (foldl dispatch c ms) = foldl ladderMsg (cl_ladder c) ms ∧
  cl_lastSeq (foldl dispatch c ms) = default (cl_lastSeq c) (last (seqOf <$> ms)).
Proof.
  intros Hl Hms. revert c Hl. induction Hms as [|m ms Hm _ IH]; intros c Hl; [done|]. cbn [foldl].
  destruct (dispatch_ladder c i m Hl Hm) as (H1 & H2 & H3). destruct (IH _ H3) as [-> ->].
  rewrite H1, H2. split; [done|]. rewrite fmap_cons, last_cons. by destruct (last _).
Qed.

Definition ladder_sorted (l : Ladder) : Prop := ∀ s, sorted_levels s (aggOf l s).

(** Messages outside a snapshot burst. *)
Definition live (m : DecodedFeedMessage) : Prop :=
  match m with FSnapshotStart _ | FSnapshotEnd _ => False | _ => True end.

Lemma aggOf_setAgg l s lv s' : aggOf (setAgg l s lv) s' = if decide (s = s') then lv else aggOf l s'.
Proof. by destruct s, s'. Qed.

Lemma ladder_live l m :
  live m → ld_inBurst l = false → ladder_sorted l →
  ld_inBurst (ladderMsg l m) = false ∧ ladder_sorted (ladderMsg l m) ∧
  ∀ s p, omFind (aggOf (ladderMsg l m) s) p = stepLevel s p (omFind (aggOf l s) p) m.
Proof.
  intros Hm Hb Hs. destruct m as [d|o|f|t|st|e]; try done; cbn [ladderMsg].
  - unfold onL2Delta. set (sd := msgSide (l2_side d)). split; [by destruct sd|].
    assert (Ha : sorted_levels sd (applyLevel sd (aggOf l sd) d)).
    { unfold applyLevel. destruct (_ =? _); [by apply sorted_erase|by apply sorted_set]. }
    split.
    + intros s. rewrite aggOf_setAgg. case_decide; [by subst|apply Hs].
    + intros s p. rewrite aggOf_setAgg. unfold stepLevel. cbn [deltaAt]. fold sd. case_decide as Hd.
      * subst s. rewrite bool_decide_eq_true_2 by done. cbn [andb]. unfold applyLevel.
        destruct (l2_action d =? l2Code L2Delete).
        -- rewrite (omFind_erase sd) by done. rewrite (Z.eqb_sym p). by destruct (l2_price d =? p).
        -- rewrite omFind_set. rewrite (Z.eqb_sym p). by destruct (l2_price d =? p).
      * by rewrite bool_decide_eq_false_2.
  - unfold onL3Order. rewrite Hb. cbn. done.
Qed.

Lemma ladder_live_all l ms :
  Forall live ms → ld_inBurst l = false → ladder_sorted l →
  let l' := foldl ladderMsg l ms in
  ld_inBurst l' = false ∧ ladder_sorted l' ∧
  ∀ s p, omFind (aggOf l' s) p = foldl (stepLevel s p) (omFind (aggOf l s) p) ms.
Proof.
  intros Hms. revert l. induction Hms as [|m ms Hm _ IH]; intros l Hb Hs; [done|]. cbn [foldl].
  destruct (ladder_live l m Hm Hb Hs) as (H1 & H2 & H3). destruct (IH _ H1 H2) as (I1 & I2 & I3).
  split; [done|]. split; [done|]. intros s p. by rewrite I3, H3.
Qed.

(** ** The publisher *)

Definition synced (p : Publisher) : Prop :=
  ∀ s price, default 0 (totalsOf p s !! price) = levelTotal (pb_mirror p) s price.

Record pub_ok (p : Publisher) : Prop := {
  po_mirror : mirror_ok (pb_mirror p);
  po_bounded : bounded (pb_mirror p);
  po_synced : synced p
}.

Lemma u32_range n : is_u32 (u32 n).
Proof. unfold is_u32, u32. apply Z.mod_pos_bound. lia. Qed.

Lemma l2Code_byte a : is_byte (l2Code a).
Proof. by destruct a. Qed.

Lemma l3Code_byte a : is_byte (l3Code a).
Proof. by destruct a. Qed.

Lemma msgSide_code s : msgSide (sideCode s) = s.
Proof. by destruct s. Qed.

Lemma elem_sum o q : Forall (λ o, 0 < mo_remaining o) q → o ∈ q → 0 < mo_remaining o <= msum q.
Proof.
  intros Hq Ho. induction Hq as [|x q Hx Hq IH]; [by apply elem_of_nil in Ho|]. cbn [msum].
  pose proof (proj1 (msum_pos q Hq)). apply elem_of_cons in Ho as [->|Ho]; [lia|]. specialize (IH Ho). lia.
Qed.

Lemma remainingOf_i64 m id : mirror_ok m → bounded m → in_i64 (remainingOf m id).
Proof.
  intros Hm Hb. unfold remainingOf. assert (H0 : in_i64 0) by done.
  destruct (bm_index m !! id) as [[s p]|]; [|done]. cbn [fst snd].
  destruct (omFind (levelsOf m s) p) as [q|] eqn:Hf; [|done].
  destruct (list_find _ q) as [[i o]|] eqn:Hl; [|done].
  apply list_find_Some in Hl as (Hl & _). apply list_elem_of_lookup_2 in Hl.
  destruct (omFind_elem s _ _ _ (mk_levels _ Hm s) Hf) as (_ & _ & Hin). destruct (Hb s) as [Hp Hs].
  pose proof (elem_sum o _ Hp (Hin o Hl)). unfold in_i64, INT64_MIN, INT64_MAX in *. lia.
Qed.

Section events.
Context (i : Z) (Hi : is_u32 i).

(** Messages of this instrument that are not part of a burst. *)
Definition own (m : DecodedFeedMessage) : Prop := live m ∧ instrumentOf m = i.

Lemma lagg_total q :
  Forall (λ o, 0 < mo_remaining o) q →
  lagg q = if msum q =? 0 then None else Some (mkAgg (msum q) (u32 (Z.of_nat (length q)))).
Proof.
  intros Hq. destruct (msum_pos q Hq) as [H0 H1]. destruct q as [|o q]; [done|].
  specialize (H1 ltac:(done)). destruct (_ =? 0) eqn:E; [lia|done].
Qed.

(** [diffLevel] after the mirror has gone from [m] to that of [p]. *)
Lemma diffLevel_ok p m s0 p0 :
  mirror_ok m → bounded m → mirror_ok (pb_mirror p) → bounded (pb_mirror p) →
  (∀ s price, default 0 (totalsOf p s !! price) = levelTotal m s price) →
  changes m (pb_mirror p) (s0, p0) → in_i64 p0 → room p 1 →
  ∃ p' ms, diffLevel i p s0 p0 = Some p' ∧ sends p p' ms ∧ pb_mirror p' = pb_mirror p ∧ pub_ok p' ∧
    (length ms <= 1)%nat ∧ Forall own ms ∧
    ∀ s q, foldl (stepLevel s q) (lagg (level m s q)) ms = lagg (level (pb_mirror p) s q).
Proof using Hi.
  intros Hm Hb Hm' Hb' Hold Hch Hp0 Hroom. unfold diffLevel.
  assert (Hoth : ∀ s q, (s, q) ≠ (s0, p0) → level (pb_mirror p) s q = level m s q)
    by (intros; by apply (changes_other m _ (s0, p0))).
  rewrite Hold, !(levelTotal_level (pb_mirror p)), (levelTotal_level m) by done.
  pose proof (level_pos _ Hb' s0 p0) as Hpos. pose proof (level_sum _ Hb' s0 p0) as Hsum.
  destruct (_ =? _) eqn:Eq.
  { destruct (changes_here m _ s0 p0 Hch) as [Hsame|Hne]; [|lia].
    assert (Hall : ∀ s q, level (pb_mirror p) s q = level m s q).
    { intros s q. destruct (decide ((s, q) = (s0, p0))) as [[= -> ->]|Hne]; [done|by apply Hoth]. }
    exists p, []. split; [done|]. split; [by apply sends_nil|]. split; [done|]. split.
    - split; [done|done|]. intros s q. rewrite Hold, !levelTotal_level by done. by rewrite Hall.
    - split; [cbn; lia|]. split; [done|]. intros s q. cbn. by rewrite Hall. }
  set (new := msum (level (pb_mirror p) s0 p0)) in *. set (old := msum (level m s0 p0)) in *.
  set (act := if old =? 0 then L2Add else _).
  set (t := if new =? 0 then _ else _).
  assert (Hst : pb_mirror (setTotals p s0 t) = pb_mirror p ∧ pb_feedSeq (setTotals p s0 t) = pb_feedSeq p ∧
    pb_sinks (setTotals p s0 t) = pb_sinks p) by (by destruct s0).
  destruct Hst as (E1 & E2 & E3). rewrite E1.
  rewrite (levelOrderCount_level _ Hm').
  destruct (publishMsg_ok (setTotals p s0 t)
    (λ seq, FL2Delta (mkL2Delta i seq (sideCode s0) (l2Code act) p0 new (u32 (Z.of_nat (length (level (pb_mirror p) s0 p0)))))))
    as (p' & Hp' & Hsend & Hmir & Htot).
  - unfold room. by rewrite E2.
  - done.
  - rewrite E2. cbn. destruct Hroom. split_and!; try done; try apply u32_range; auto with wire; try apply l2Code_byte;
      unfold in_u64, in_i64, INT64_MIN, INT64_MAX in *; lia.
  - exists p'. eexists. split; [exact Hp'|]. split.
    { apply (sends_from p) in Hsend; [|done|done]. rewrite E2 in Hsend. exact Hsend. }
    rewrite Hmir, E1. split; [done|]. split.
    + split; rewrite ?Hmir, ?E1; try done. intros s q. rewrite Htot, Hmir, E1, levelTotal_level by done.
      destruct (decide ((s, q) = (s0, p0))) as [[= -> ->]|Hne].
      * fold new. assert (totalsOf (setTotals p s0 t) s0 = t) as -> by (by destruct s0). unfold t.
        destruct (new =? 0) eqn:E; [rewrite lookup_delete_eq; cbn; lia|by rewrite lookup_insert_eq].
      * rewrite (Hoth s q Hne), <- levelTotal_level by done. rewrite <- Hold.
        destruct (decide (s = s0)) as [->|Hs].
        -- assert (totalsOf (setTotals p s0 t) s0 = t) as -> by (by destruct s0). unfold t.
           destruct (new =? 0); [rewrite lookup_delete_ne|rewrite lookup_insert_ne]; congruence.
        -- by destruct s, s0.
    + split; [cbn; lia|]. split; [by repeat constructor|]. intros s q. cbn [foldl]. unfold stepLevel. cbn [deltaAt].
      cbn [l2_side l2_price l2_action l2_totalQty l2_orderCount]. rewrite msgSide_code.
      destruct (decide ((s, q) = (s0, p0))) as [[= -> ->]|Hne].
      * rewrite bool_decide_eq_true_2, Z.eqb_refl by done. cbn [andb default]. rewrite (lagg_total _ Hpos). fold new.
        unfold act. destruct (new =? 0) eqn:E; [|by destruct (old =? 0)].
        assert (old =? 0 = false) as -> by lia. done.
      * assert (bool_decide (s0 = s) && (p0 =? q) = false) as ->.
        { destruct (decide (s0 = s)) as [->|]; [|by rewrite bool_decide_eq_false_2].
          rewrite bool_decide_eq_true_2 by done. cbn. apply Z.eqb_neq. congruence. }
        cbn. by rewrite (Hoth s q Hne).
Qed.

(** A message that is not a level update. *)
Definition silent (m : DecodedFeedMessage) : Prop := own m ∧ ∀ s q x, stepLevel s q x m = x.

Lemma silent_steps ms s q x : Forall silent ms → foldl (stepLevel s q) x ms = x.
Proof. induction 1 as [|m ms [_ Hm] _ IH]; [done|]. cbn. by rewrite Hm. Qed.

(** [res] is the publisher after the event: it has sent what takes every level to
    where the event took the mirror. *)
Definition published (p : Publisher) (ev : OutboundEvent) (res : option Publisher) : Prop :=
  ∃ p' ms, res = Some p' ∧ sends p p' ms ∧ pb_mirror p' = apply (pb_mirror p) ev ∧ pub_ok p' ∧
    (length ms <= 3)%nat ∧ Forall own ms ∧
    ∀ s q, foldl (stepLevel s q) (lagg (level (pb_mirror p) s q)) ms = lagg (level (apply (pb_mirror p) ev) s q).

Section event.
Context (p : Publisher) (Hp : pub_ok p) (ev : OutboundEvent).
Context (Hfit : fits_mirror (pb_mirror p) ev) (Hev : event_i64 ev) (Hroom : room p 3).

Let m' := apply (pb_mirror p) ev.

(** The messages in front of the level update, then the update itself. *)
Lemma publish_then_diff pre post s0 p0 :
  place ev = Some (s0, p0) → in_i64 p0 → sends (setMirror p m') pre post → same_book (setMirror p m') pre →
  Forall silent post → (length post <= 2)%nat → published p ev (diffLevel i pre s0 p0).
Proof using Hi Hp Hfit Hroom.
  intros Hpl Hp0 Hsend [Hmir Htot] Hsil Hlen. cbn [setMirror pb_mirror] in Hmir.
  destruct (apply_changes _ ev (po_mirror _ Hp) (po_bounded _ Hp) Hfit) as (Hm & Hb & Hch). rewrite Hpl in Hch.
  destruct (diffLevel_ok pre (pb_mirror p) s0 p0) as (p' & ms & Hd & Hs & Hm' & Hok & Hl & Hown & Hlev);
    try apply Hp; try done; rewrite ?Hmir; try done.
  { intros s q. rewrite Htot. rewrite <- (po_synced _ Hp). by destruct s. }
  { apply (room_sends _ _ _ 1 Hsend). destruct Hroom; split; cbn in *; lia. }
  exists p', (post ++ ms). split; [done|]. split; [|split_and!].
  - eapply sends_app; [|exact Hs]. by apply (sends_from p) in Hsend.
  - by rewrite Hm', Hmir.
  - done.
  - rewrite length_app. lia.
  - apply Forall_app. split; [|done]. eapply Forall_impl; [exact Hsil|]. by intros x [? _].
  - intros s q. rewrite foldl_app, (silent_steps post) by done. by rewrite Hlev, Hmir.
Qed.

Lemma publish_nothing : place ev = None → published p ev (Some (setMirror p m')).
Proof using Hp Hfit.
  intros Hpl. destruct (apply_changes _ ev (po_mirror _ Hp) (po_bounded _ Hp) Hfit) as (Hm & Hb & Hch).
  rewrite Hpl in Hch. destruct Hp as [Hm0 Hb0 Hsy].
  assert (Hall : ∀ s q, level m' s q = level (pb_mirror p) s q).
  { intros s q. unfold level, m'. by rewrite Hch. }
  exists (setMirror p m'), []. split; [done|]. split; [by apply sends_nil|]. split; [done|]. split.
  - split; [done|done|]. intros s q. pose proof (Hsy s q) as H. rewrite levelTotal_level in H |- * by done.
    cbn [setMirror pb_mirror]. rewrite Hall, <- H. by destruct s.
  - split; [cbn; lia|]. split; [done|]. intros s q. cbn. fold m'. by rewrite Hall.
Qed.

Lemma publish_trade t :
  e_payload ev = TradeEvent t → published p ev (applyAndPublish i p ev).
Proof using All.
  intros He. unfold event_i64 in Hev. rewrite He in Hev. destruct Hev as (I1 & I2 & I3 & I4 & I5).
  destruct (apply_changes _ ev (po_mirror _ Hp) (po_bounded _ Hp) Hfit) as (Hm & Hb & _).
  unfold applyAndPublish. rewrite He. fold m' in Hm, Hb |- *. set (q := setMirror p m').
  assert (Hr0 : room q 3) by exact Hroom.
  destruct (publishMsg_ok q (λ seq, FTradeTick (mkTradeTick i seq (t_id t) (t_aggressorId t)
    (t_passiveId t) (t_price t) (t_quantity t) (sideCode (t_aggressorSide t))))) as (p1 & -> & S1 & B1 & B2).
  { destruct Hr0; split; lia. } { done. }
  { destruct Hr0. cbn. split_and!; try done; auto with wire. unfold in_u64. cbn in *. lia. }
  simpl_bind.
  assert (Hr1 : room p1 2) by (apply (room_sends _ _ _ 2 S1); exact Hr0).
  destruct (publishMsg_ok p1 (λ seq, FL3Fill (mkL3Fill i seq (t_passiveId t) (t_id t) (t_price t)
    (t_quantity t) (remainingOf (pb_mirror p1) (t_passiveId t))))) as (p2 & -> & S2 & B3 & B4).
  { destruct Hr1; split; lia. } { done. }
  { destruct Hr1. cbn. rewrite B1. cbn. split_and!; try done; [unfold in_u64; lia|by apply remainingOf_i64]. }
  simpl_bind. eapply publish_then_diff.
  - unfold place. by rewrite He.
  - done.
  - exact (sends_app _ _ _ _ _ S1 S2).
  - split; [by rewrite B3|]. intros s. by rewrite B4.
  - by repeat constructor.
  - done.
Qed.

Lemma publish_update u act :
  e_payload ev = OrderUpdateEvent u → e_action ev ≠ Rejected →
  published p ev
    (p ← publishMsg (setMirror p m') (λ seq, FL3Order (mkL3Order i seq (l3Code act) (u_orderId u)
            (sideCode (e_side ev)) (u_price u) (u_quantity u) (u_remaining u) (u_participant u)));
     diffLevel i p (e_side ev) (u_price u)).
Proof using All.
  intros He Hact. unfold event_i64 in Hev. rewrite He in Hev. destruct (Hev Hact) as (I1 & I2 & I3 & I4 & I5).
  set (q := setMirror p m'). assert (Hr0 : room q 3) by exact Hroom.
  destruct (publishMsg_ok q (λ seq, FL3Order (mkL3Order i seq (l3Code act) (u_orderId u)
          (sideCode (e_side ev)) (u_price u) (u_quantity u) (u_remaining u) (u_participant u)))) as (p1 & -> & S1 & B1).
  { destruct Hr0; split; lia. } { done. }
  { destruct Hr0. cbn. split_and!; try done; auto with wire; [|apply l3Code_byte]. unfold in_u64. cbn in *. lia. }
  simpl_bind. eapply publish_then_diff.
  - unfold place. rewrite He. by destruct (e_action ev).
  - done.
  - exact S1.
  - exact B1.
  - by repeat constructor.
  - cbn. lia.
Qed.

Lemma applyAndPublish_ok : published p ev (applyAndPublish i p ev).
Proof using All.
  destruct (e_payload ev) as [t|id st|u] eqn:He; [by apply (publish_trade t)| |];
    unfold applyAndPublish; rewrite He.
  - apply publish_nothing. unfold place. by rewrite He.
  - destruct (e_action ev) eqn:Ea; try (apply (publish_update u); [done|by rewrite Ea]).
    apply publish_nothing. unfold place. by rewrite He, Ea.
Qed.
End event.

(** ** Whole runs *)

Fixpoint publishAll (p : Publisher) (evs : list OutboundEvent) : option Publisher :=
  match evs with
  | [] => Some p
  | ev :: evs' => p ← applyAndPublish i p ev; publishAll p evs'
  end.

Lemma publishAll_ok p evs :
  pub_ok p → feed_ok (pb_mirror p) evs → room p (3 * Z.of_nat (length evs)) →
  ∃ p' ms, publishAll p evs = Some p' ∧ sends p p' ms ∧ pb_mirror p' = foldl apply (pb_mirror p) evs ∧
    pub_ok p' ∧ (length ms <= 3 * length evs)%nat ∧ Forall own ms ∧
    ∀ s q, foldl (stepLevel s q) (lagg (level (pb_mirror p) s q)) ms = lagg (level (pb_mirror p') s q).
Proof using Hi.
  revert p. induction evs as [|ev evs IH]; intros p Hp Hf Hr; cbn [feed_ok publishAll length foldl] in *.
  { exists p, []. split; [done|]. split; [by apply sends_nil|]. done. }
  destruct Hf as (Hf1 & Hf2 & Hf3).
  destruct (applyAndPublish_ok p Hp ev Hf1 Hf2) as (p1 & ms1 & -> & S1 & M1 & P1 & L1 & O1 & V1).
  { destruct Hr; split; lia. }
  simpl_bind. rewrite <- M1 in Hf3, V1.
  destruct (IH p1 P1 Hf3) as (p2 & ms2 & -> & S2 & M2 & P2 & L2 & O2 & V2).
  { destruct S1 as [_ _ _ Hq]. destruct Hr; split; lia. }
  exists p2, (ms1 ++ ms2). split; [done|]. split; [by eapply sends_app|]. split; [by rewrite M2, M1|].
  split; [done|]. split; [rewrite length_app; lia|]. split; [by apply Forall_app|].
  intros s q. by rewrite foldl_app, V1, V2.
Qed.
End events.
