(* ===== verification/FeedBurst.v ===== *)
(** Snapshot bursts: what [emitSnapshotBurst] and [resync] send, and the ladder they
    leave. *)
From stdpp Require Import gmap sorting.
From S2P Require Import MulticastRing.
From S2P Require Import Prelude Types ObjectPool PriceLevel OrderIdMap LevelMap OrderBook.
From S2P Require Import AbstractBook BookRepr BookMatch BookScan BookRefine BookSpec BookProps BookWalk.
From S2P Require Import Wire Messages Framing FeedCodec Events MatchingThread BookMirror Reconstruction.
From S2P Require Import Crc32 JournalFormat Snapshot Recovery Digest MirrorLevels MirrorFeed Publisher Ladder FeedSpec.

(** The orders of a burst that follow number [n]. *)
Fixpoint restedMsgs (i n : Z) (xs : list (Side * MirrorOrder)) : list DecodedFeedMessage :=
  match xs with
  | [] => []
  | x :: xs' => restedMsg i x (n + 1) :: restedMsgs i (n + 1) xs'
  end.

Definition burstMsgs (i n : Z) (m : BookMirror) (crc : Z) : list DecodedFeedMessage :=
  FSnapshotStart (mkSnapshotStart i (n + 1) (restingOrders m)) ::
  restedMsgs i (n + 1) (walk m) ++
  [FSnapshotEnd (mkSnapshotEnd i (n + 1 + Z.of_nat (length (walk m)) + 1) crc)].

(** A mirror whose fields fit the messages. *)
Record mirror_fits (m : BookMirror) : Prop := {
  mf_orders : Forall (λ x, in_i64 (mo_id x.2) ∧ in_i64 (mo_price x.2) ∧ in_i64 (mo_quantity x.2) ∧
                in_i64 (mo_remaining x.2) ∧ in_i64 (mo_participant x.2)) (walk m);
  mf_count : in_u64 (restingOrders m);
  mf_small : Z.of_nat (length (walk m)) < 2 ^ 62;
  mf_digest : ∃ d, digestOf m = Some d ∧ is_u32 (dg_bodyCrc32 d)
}.

Lemma length_restedMsgs i n xs : length (restedMsgs i n xs) = length xs.
Proof. revert n. induction xs as [|x xs IH]; intros n; cbn; [done|]. by rewrite IH. Qed.

Lemma shows_fits c m a : config_ok c → mirrors m a → wf c a → book_i64 a → mirror_fits m.
Proof.
  intros Hc Hmi Hw Hi. pose proof (proj1 Hmi) as Hsh. pose proof (wf_room _ _ Hw) as Hroom.
  pose proof (co_orders _ Hc) as Hmax. unfold aresting in Hroom. rewrite length_app in Hroom.
  split.
  - rewrite (shows_walk _ _ Hsh). apply Forall_app. split; apply Forall_fmap, Forall_forall; intros o Ho; cbn.
    + apply (resting_i64 c Hc a Hw Hi Buy o Ho).
    + apply (resting_i64 c Hc a Hw Hi Sell o Ho).
  - rewrite (shows_count _ _ Hsh). unfold aresting. rewrite length_app. unfold in_u64. lia.
  - rewrite (shows_walk _ _ Hsh), length_app, !length_fmap. lia.
  - rewrite (digestOf_ok c m a Hw Hmi). eexists. split; [done|]. cbn. apply crc_word, bodyBytes_bytes.
Qed.

Section burst.
Context (i : Z) (Hi : is_u32 i) (m : BookMirror) (Hm : mirror_ok m) (Hb : bounded m) (Hf : mirror_fits m).

Lemma restedMsg_valid x n :
  x ∈ walk m → in_u64 n → feed_valid (restedMsg i x n) ∧ instrumentOf (restedMsg i x n) = i.
Proof using Hi Hf.
  intros Hx Hn. pose proof (mf_orders _ Hf) as Ho. rewrite Forall_forall in Ho.
  destruct (Ho x Hx) as (H1 & H2 & H3 & H4 & H5). destruct x as [s o]. cbn. split; [|done].
  split_and!; try done. by destruct s.
Qed.

Lemma restedMsgs_valid xs n :
  (∀ x, x ∈ xs → x ∈ walk m) → 0 <= n → n + Z.of_nat (length xs) < 2 ^ 64 →
  Forall (λ x, feed_valid x ∧ instrumentOf x = i) (restedMsgs i n xs).
Proof using Hi Hf.
  revert n. induction xs as [|x xs IH]; intros n Hin H0 H1; cbn; [done|]. cbn [length] in H1. constructor.
  - apply restedMsg_valid; [apply Hin; by left|unfold in_u64; lia].
  - apply IH; [|lia|lia]. intros y Hy. apply Hin. by right.
Qed.

(** *** One sink *)

Lemma burstOrders_ok sink xs n :
  (∀ x, x ∈ xs → x ∈ walk m) → 0 <= n → n + Z.of_nat (length xs) < 2 ^ 64 →
  burstOrders sink i xs n = Some (sink ++ (wireFrame <$> restedMsgs i n xs), n + Z.of_nat (length xs)).
Proof using Hi Hf.
  revert sink n. induction xs as [|x xs IH]; intros sink n Hin H0 H1; cbn [burstOrders restedMsgs length].
  { rewrite app_nil_r. do 2 f_equal. cbn. lia. }
  cbn [length] in H1. u64_small. rewrite publishOne_ok.
  2: { apply restedMsg_valid; [apply Hin; by left|unfold in_u64; lia]. }
  simpl_bind. rewrite IH; [|intros y Hy; apply Hin; by right|lia|lia].
  rewrite fmap_cons, <- app_assoc. do 2 f_equal. lia.
Qed.

Lemma emitSnapshotBurst_ok sink :
  ∃ crc, emitSnapshotBurst sink i m = Some (sink ++ (wireFrame <$> burstMsgs i 0 m crc)) ∧
    Forall (λ x, feed_valid x ∧ instrumentOf x = i) (burstMsgs i 0 m crc).
Proof using Hi Hf.
  destruct (mf_digest _ Hf) as (d & Hd & Hcrc). pose proof (mf_small _ Hf) as Hsm.
  assert (Hv : Forall (λ x, feed_valid x ∧ instrumentOf x = i) (burstMsgs i 0 m (dg_bodyCrc32 d))).
  { constructor; [|apply Forall_app; split].
    - split; [|done]. split_and!; try done. apply (mf_count _ Hf).
    - apply restedMsgs_valid; [done|lia|lia].
    - constructor; [|done]. split; [|done]. split_and!; try done. cbn. unfold in_u64. lia. }
  exists (dg_bodyCrc32 d). split; [|done]. pose proof Hv as Hv0. unfold burstMsgs in Hv.
  apply Forall_cons in Hv as [[V1 _] [_ [[V3 _] _]%Forall_cons]%Forall_app].
  unfold emitSnapshotBurst. change (u64 (0 + 1)) with (0 + 1). rewrite publishOne_ok by done.
  simpl_bind. rewrite burstOrders_ok by (done || lia). simpl_bind.
  u64_small. rewrite Hd. simpl_bind.
  rewrite publishOne_ok by done. simpl_bind. f_equal. unfold burstMsgs.
  rewrite fmap_cons, fmap_app, <- !app_assoc. done.
Qed.

(** *** The ladder *)

Definition sideOrders (s : Side) (xs : list (Side * MirrorOrder)) : list MirrorOrder :=
  (filter (λ x, x.1 = s) xs).*2.

Lemma sideOrders_walk s : sideOrders s (walk m) = flat (levelsOf m s).
Proof.
  unfold sideOrders, walk. rewrite filter_app, fmap_app.
  assert (Hsame : ∀ l : list MirrorOrder, filter (λ x, x.1 = s) (pair s <$> l) = pair s <$> l).
  { intros l. apply filter_all, Forall_fmap, Forall_true. done. }
  assert (Hother : ∀ s' (l : list MirrorOrder), s' ≠ s → filter (λ x, x.1 = s) (pair s' <$> l) = []).
  { intros s' l Hne. apply filter_nil_iff. intros x (o & -> & _)%list_elem_of_fmap. done. }
  destruct s.
  - rewrite (Hother Sell) by done. rewrite Hsame, app_nil_r, <- list_fmap_compose. apply list_fmap_id.
  - rewrite (Hother Buy) by done. rewrite Hsame. cbn [fmap list_fmap app]. rewrite <- list_fmap_compose. apply list_fmap_id.
Qed.

(** The ladder shows [xs]. *)
Definition shows_orders (l : Ladder) (xs : list (Side * MirrorOrder)) : Prop :=
  ladder_sorted l ∧ ∀ s p, omFind (aggOf l s) p = lagg (filter (λ o, mo_price o = p) (sideOrders s xs)).

Lemma u32_succ n : u32 (u32 n + 1) = u32 (n + 1).
Proof. unfold u32. by rewrite Zplus_mod_idemp_l. Qed.

Lemma lagg_snoc q o :
  0 <= msum q → msum q + mo_remaining o <= INT64_MAX → 0 <= mo_remaining o →
  let agg := default (mkAgg 0 0) (lagg q) in
  lagg (q ++ [o]) = Some (mkAgg (s64 (la_qty agg + mo_remaining o)) (u32 (la_orders agg + 1))).
Proof.
  intros H0 H1 Hr. cbv zeta.
  assert (Hl : lagg (q ++ [o]) = Some (mkAgg (msum (q ++ [o])) (u32 (Z.of_nat (length (q ++ [o])))))) by (by destruct q).
  rewrite Hl, msum_app, length_app. cbn [msum length].
  assert (Ha : la_qty (default (mkAgg 0 0) (lagg q)) = msum q ∧ la_orders (default (mkAgg 0 0) (lagg q)) = u32 (Z.of_nat (length q)))
    by (by destruct q).
  destruct Ha as [-> ->]. s64_small.
  rewrite u32_succ. do 3 f_equal; lia.
Qed.

Lemma sideOrders_snoc s xs x :
  sideOrders s (xs ++ [x]) = sideOrders s xs ++ (if decide (x.1 = s) then [x.2] else []).
Proof.
  unfold sideOrders. rewrite filter_app, fmap_app. f_equal. rewrite filter_cons. by case_decide.
Qed.

Lemma ladder_rested l xs x n ys :
  walk m = xs ++ x :: ys → ld_inBurst l = true → shows_orders l xs →
  ld_inBurst (ladderMsg l (restedMsg i x n)) = true ∧ shows_orders (ladderMsg l (restedMsg i x n)) (xs ++ [x]).
Proof using Hb.
  intros Hw Hin [Hs Hl]. destruct x as [s0 o]. cbn [ladderMsg restedMsg]. unfold onL3Order. rewrite Hin.
  cbn [negb orb l3_action l3_side l3_price l3_remaining]. rewrite Z.eqb_refl, msgSide_code. cbn [negb].
  set (q := filter (λ x, mo_price x = mo_price o) (sideOrders s0 xs)).
  assert (Hflat : flat (levelsOf m s0) = sideOrders s0 xs ++ o :: sideOrders s0 ys).
  { rewrite <- sideOrders_walk, Hw. unfold sideOrders. rewrite filter_app, fmap_app, filter_cons.
    by rewrite decide_True. }
  assert (Hbound : 0 <= msum q ∧ msum q + mo_remaining o <= INT64_MAX ∧ 0 <= mo_remaining o).
  { destruct (Hb s0) as [Hp Ht]. rewrite Hflat in Hp, Ht. apply Forall_app in Hp as [Hp1 [Hpo Hp2]%Forall_cons].
    pose proof (msum_filter (mo_price o) _ Hp1) as Hq. fold q in Hq. rewrite msum_app in Ht. cbn [msum] in Ht.
    pose proof (proj1 (msum_pos _ Hp2)). lia. }
  destruct Hbound as (B0 & B1 & B2). split; [by destruct s0|]. split.
  - intros s. rewrite aggOf_setAgg. case_decide; [|apply Hs]. subst. by apply sorted_set.
  - intros s p. rewrite aggOf_setAgg, sideOrders_snoc. cbn [fst snd]. case_decide as Hd; [|rewrite app_nil_r; apply Hl].
    subst s0. rewrite omFind_set, Hl. fold q. rewrite filter_app, filter_cons, filter_nil.
    destruct (p =? mo_price o) eqn:E.
    + assert (p = mo_price o) as -> by lia. rewrite decide_True by done. fold q. symmetry. by apply lagg_snoc.
    + rewrite decide_False by lia. rewrite app_nil_r. apply Hl.
Qed.

Lemma ladder_orders l xs ys n :
  walk m = xs ++ ys → ld_inBurst l = true → shows_orders l xs →
  let l' := foldl ladderMsg l (restedMsgs i n ys) in ld_inBurst l' = true ∧ shows_orders l' (walk m).
Proof using Hb.
  revert l xs n. induction ys as [|y ys IH]; intros l xs n Hw Hin Hl; cbn [restedMsgs foldl].
  { rewrite app_nil_r in Hw. by rewrite Hw. }
  destruct (ladder_rested l xs y (n + 1) ys Hw Hin Hl) as [H1 H2].
  apply (IH _ (xs ++ [y])); [by rewrite <- app_assoc|done|done].
Qed.

(** Whatever the ladder held, after a burst it shows the mirror. *)
Lemma ladder_burst l n crc :
  let l' := foldl ladderMsg l (burstMsgs i n m crc) in
  ld_inBurst l' = false ∧ ladder_sorted l' ∧ ∀ s p, omFind (aggOf l' s) p = lagg (level m s p).
Proof using Hb.
  unfold burstMsgs. cbn [foldl]. rewrite foldl_app.
  destruct (ladder_orders (onSnapshotStart l) [] (walk m) (n + 1)) as [_ [Hs Hl]]; [done|done| |].
  { split; [intros []; constructor|by intros []]. }
  cbn [ladderMsg foldl]. split; [done|]. split; [intros s; specialize (Hs s); by destruct s|].
  intros s p. unfold level. rewrite <- sideOrders_walk, <- Hl. by destruct s.
Qed.
End burst.

(** ** Resynchronisation *)

Section resync.
Context (i : Z) (Hi : is_u32 i) (m : BookMirror) (Hm : mirror_ok m) (Hb : bounded m) (Hf : mirror_fits m).

Lemma publishOrders_ok p xs :
  (∀ x, x ∈ xs → x ∈ walk m) → room p (Z.of_nat (length xs)) →
  ∃ p', publishOrders i p xs = Some p' ∧ sends p p' (restedMsgs i (pb_feedSeq p) xs) ∧ same_book p p'.
Proof using Hi Hf.
  revert p. induction xs as [|x xs IH]; intros p Hin Hr; cbn [publishOrders restedMsgs].
  { exists p. split; [done|]. split; [by apply sends_nil|done]. }
  cbn [length] in Hr. destruct Hr as [R0 R1].
  destruct (publishMsg_ok p (restedMsg i x)) as (p1 & -> & S1 & B1 & B2).
  { split; lia. } { by destruct x. }
  { apply (restedMsg_valid i Hi m Hf); [apply Hin; by left|unfold in_u64; lia]. }
  simpl_bind. pose proof (sn_feedSeq _ _ _ S1) as Hq. cbn in Hq.
  destruct (IH p1) as (p2 & -> & S2 & B3 & B4).
  { intros y Hy. apply Hin. by right. } { split; lia. }
  exists p2. split; [done|]. split.
  - rewrite Hq in S2. apply (sends_app _ _ _ _ _ S1 S2).
  - split; [by rewrite B3|]. intros s. by rewrite B4.
Qed.

(** [seedLevelTotals] gives every level of the mirror its total. *)
Lemma seed_fold p xs s price :
  let p' := foldl (λ p x, setTotals p x.1
                  (<[mo_price x.2 := levelTotal (pb_mirror p) x.1 (mo_price x.2)]> (totalsOf p x.1))) p xs in
  pb_mirror p' = pb_mirror p ∧ pb_feedSeq p' = pb_feedSeq p ∧ pb_sinks p' = pb_sinks p ∧
  totalsOf p' s !! price =
    if bool_decide (Exists (λ x, x.1 = s ∧ mo_price x.2 = price) xs) then Some (levelTotal (pb_mirror p) s price)
    else totalsOf p s !! price.
Proof.
  revert p. induction xs as [|[s0 o] xs IH]; intros p; cbn [foldl fst snd].
  { done. }
  set (p1 := setTotals p s0 _). destruct (IH p1) as (-> & -> & -> & ->).
  assert (H1 : pb_mirror p1 = pb_mirror p ∧ pb_feedSeq p1 = pb_feedSeq p ∧ pb_sinks p1 = pb_sinks p) by (by destruct s0).
  destruct H1 as (-> & -> & ->). split_and!; try done.
  assert (Htot : totalsOf p1 s !! price = if decide (s0 = s ∧ mo_price o = price) then Some (levelTotal (pb_mirror p) s price) else totalsOf p s !! price).
  { unfold p1. destruct (decide (s0 = s)) as [->|Hs].
    - assert (∀ t, totalsOf (setTotals p s t) s = t) as -> by (by destruct s).
      case_decide as Hd; cbn [fst snd].
      + destruct Hd as [_ Hd]. subst price. by rewrite lookup_insert_eq.
      + rewrite lookup_insert_ne; [done|tauto].
    - rewrite decide_False by tauto. by destruct s, s0. }
  rewrite Htot. destruct (decide (s0 = s ∧ mo_price o = price)) as [[-> <-]|Hne].
  - rewrite (bool_decide_eq_true_2 (Exists _ ((s, o) :: xs))); [by case_bool_decide|]. by apply Exists_cons_hd.
  - rewrite (bool_decide_ext (Exists _ ((s0, o) :: xs)) (Exists (λ x, x.1 = s ∧ mo_price x.2 = price) xs)); [done|].
    rewrite Exists_cons. cbn. tauto.
Qed.

Lemma seed_synced p :
  pb_mirror p = m → (∀ s, totalsOf p s = ∅) →
  let p' := seedLevelTotals p in pub_ok p' ∧ pb_mirror p' = m ∧ pb_feedSeq p' = pb_feedSeq p ∧ pb_sinks p' = pb_sinks p.
Proof using Hm Hb.
  intros Hp He. cbv zeta. unfold seedLevelTotals. pose proof (λ s q, seed_fold p (walk (pb_mirror p)) s q) as Hs. cbv zeta in Hs.
  set (p' := foldl _ p _) in *. destruct (Hs Buy 0) as (E1 & E2 & E3 & _). rewrite Hp in E1.
  split; [|done]. split; rewrite ?E1; try done. intros s q. destruct (Hs s q) as (_ & _ & _ & ->). rewrite E1, He, Hp, lookup_empty.
  case_bool_decide as Hx; [done|]. cbn. rewrite levelTotal_level by done.
  assert (level m s q = []) as ->; [|done]. apply filter_nil_iff. intros o Ho Hq. apply Hx.
  apply Exists_exists. exists (s, o). split; [|done]. unfold walk. apply elem_of_app.
  destruct s; [left|right]; apply list_elem_of_fmap; by exists o.
Qed.

(** Whatever the publisher held, and whatever a subscriber's ladder held: after
    [resync] both show the mirror the snapshot source made. *)
Lemma resync_ok source p :
  source (clearMirror (pb_mirror p)) = Some m → room p (Z.of_nat (length (walk m)) + 2) →
  ∃ p' ms, resync i (Some source) p = Some p' ∧ sends p p' ms ∧ pb_mirror p' = m ∧ pub_ok p' ∧
    length ms = (length (walk m) + 2)%nat ∧ Forall (λ x, instrumentOf x = i) ms ∧
    ∀ l, let l' := foldl ladderMsg l ms in
      ld_inBurst l' = false ∧ ladder_sorted l' ∧ ∀ s q, omFind (aggOf l' s) q = lagg (level m s q).
Proof using Hi Hm Hb Hf.
  intros Hsrc Hr. destruct (mf_digest _ Hf) as (d & Hd & Hcrc). destruct Hr as [R0 R1].
  unfold resync. rewrite Hsrc. simpl_bind. set (p0 := mkPublisher m ∅ ∅ (pb_feedSeq p) (pb_sinks p)).
  destruct (publishMsg_ok p0 (λ seq, FSnapshotStart (mkSnapshotStart i seq (restingOrders (pb_mirror p0))))) as (p1 & -> & S1 & B1 & B2).
  { split; cbn; lia. } { done. }
  { cbn. split_and!; [done|unfold in_u64; lia|apply (mf_count _ Hf)]. }
  simpl_bind. assert (Q1 : pb_feedSeq p1 = pb_feedSeq p + 1) by apply (sn_feedSeq _ _ _ S1). rewrite B1. cbn [pb_mirror p0].
  destruct (publishOrders_ok p1 (walk m)) as (p2 & -> & S2 & B3 & B4).
  { done. } { split; lia. }
  simpl_bind. pose proof (sn_feedSeq _ _ _ S2) as Q2. rewrite length_restedMsgs in Q2.
  destruct (seed_synced p2) as (Hok & E1 & E2 & E3).
  { by rewrite B3, B1. } { intros s. rewrite B4, B2. by destruct s. }
  rewrite E1, Hd. simpl_bind.
  destruct (publishMsg_ok (seedLevelTotals p2) (λ seq, FSnapshotEnd (mkSnapshotEnd i seq (dg_bodyCrc32 d)))) as (p3 & -> & S3 & B5 & B6).
  { split; rewrite E2; lia. } { done. }
  { cbn. rewrite E2. split_and!; [done|unfold in_u64; lia|done]. }
  assert (Q3 : pb_feedSeq (seedLevelTotals p2) + 1 = pb_feedSeq p + 1 + Z.of_nat (length (walk m)) + 1) by lia.
  cbv beta in S3. rewrite Q3 in S3. apply (sends_from p2) in S3; [|done|done].
  rewrite Q1 in S2. pose proof (sends_app _ _ _ _ _ (sends_app _ _ _ _ _ S1 S2) S3) as S.
  exists p3, (burstMsgs i (pb_feedSeq p) m (dg_bodyCrc32 d)). split; [done|].
  split; [by apply (sends_from p p0)|]. split; [by rewrite B5|].
  split; [|split; [|split]].
  - destruct Hok as [O1 O2 O3]. rewrite <- B5 in O1, O2. split; [done|done|]. intros s q. rewrite B6, B5. apply O3.
  - cbn. rewrite length_app, length_restedMsgs. cbn. lia.
  - constructor; [done|]. apply Forall_app. split; [|by constructor].
    eapply Forall_impl; [apply (restedMsgs_valid i Hi m Hf (walk m)); [done|lia|lia]|]. by intros x [_ ?].
  - intros l. by apply ladder_burst.
Qed.
End resync.
