(* ===== verification/FeedClaims.v ===== *)
(** The market-data path end to end: matching thread, publisher, wire, feed client
    and ladder. *)
From stdpp Require Import gmap sorting.
From S2P Require Import MulticastRing RingHold.
From S2P Require Import Prelude Types ObjectPool PriceLevel OrderIdMap LevelMap OrderBook.
From S2P Require Import AbstractBook BookRepr BookMatch BookScan BookRefine BookSpec BookProps BookWalk.
From S2P Require Import Wire Messages Framing FeedCodec Events MatchingThread BookMirror Reconstruction.
From S2P Require Import Crc32 JournalFormat Snapshot Recovery Digest MirrorLevels MirrorFeed Publisher Ladder.
From S2P Require Import FeedSpec FeedBurst.

(** ** Reference: the depth of one side of a book *)

Fixpoint depth (os : list AOrder) : list (Z * LevelAgg) :=
  match os with
  | [] => []
  | o :: os' =>
      match depth os' with
      | (p, agg) :: lv =>
          if p =? ao_price o then (p, mkAgg (ao_remaining o + la_qty agg) (1 + la_orders agg)) :: lv
          else (ao_price o, mkAgg (ao_remaining o) 1) :: (p, agg) :: lv
      | [] => [(ao_price o, mkAgg (ao_remaining o) 1)]
      end
  end.

(** Total and number of orders at a price. *)
Definition depthAt (os : list AOrder) (p : Z) : option LevelAgg :=
  match filter (λ o, ao_price o = p) os with
  | [] => None
  | q => Some (mkAgg (total q) (Z.of_nat (length q)))
  end.

Lemma depth_first o os :
  ∃ agg lv, depth (o :: os) = (ao_price o, agg) :: lv.
Proof. cbn. destruct (depth os) as [|[p agg] lv]; [by eexists _, _|]. destruct (p =? ao_price o) eqn:E; [|by eexists _, _]. assert (p = ao_price o) as -> by lia. by eexists _, _. Qed.

Lemma before_cmp s x y : before s x y → ao_price x = ao_price y ∨ cmp s (ao_price x) (ao_price y) = true.
Proof. unfold before, noWorse, cmp. intros [[H1 H2]|[H1 _]]; [right|by left]. destruct s; lia. Qed.

Lemma depth_prices os : ∀ x, x ∈ depth os → ∃ o, o ∈ os ∧ x.1 = ao_price o.
Proof.
  induction os as [|o os IH]; intros x Hx; [by apply elem_of_nil in Hx|]. cbn in Hx.
  assert (Htl : ∀ y, y ∈ depth os → ∃ o', o' ∈ o :: os ∧ y.1 = ao_price o').
  { intros y Hy. destruct (IH y Hy) as (o' & Ho' & He). exists o'. split; [by right|done]. }
  destruct (depth os) as [|[p agg] lv].
  - apply list_elem_of_singleton in Hx as ->. exists o. split; [by left|done].
  - destruct (p =? ao_price o) eqn:E; apply elem_of_cons in Hx as [->|Hx].
    + exists o. split; [by left|cbn; lia].
    + apply Htl. by right.
    + exists o. split; [by left|done].
    + by apply Htl.
Qed.

Lemma depth_ok s os :
  StronglySorted (before s) os →
  sorted_levels s (depth os) ∧ ∀ p, omFind (depth os) p = depthAt os p.
Proof.
  induction 1 as [|o os Hs [IHs IH] Hb]; [by split; [constructor|]|].
  assert (Hcmp : ∀ x, x ∈ depth os → x.1 = ao_price o ∨ cmp s (ao_price o) x.1 = true).
  { intros x Hx. destruct (depth_prices os x Hx) as (o' & Ho' & ->). rewrite Forall_forall in Hb.
    destruct (before_cmp s o o' (Hb o' Ho')); auto. }
  assert (Hat : ∀ p, depthAt (o :: os) p = if ao_price o =? p then
      Some (match depthAt os p with None => mkAgg (ao_remaining o) 1
            | Some a => mkAgg (ao_remaining o + la_qty a) (1 + la_orders a) end) else depthAt os p).
  { intros p. unfold depthAt. rewrite filter_cons. destruct (ao_price o =? p) eqn:E.
    - rewrite decide_True by lia. rewrite total_cons. destruct (filter _ os) as [|x q] eqn:Ef; cbn [total foldr length].
      + do 2 f_equal; lia.
      + do 2 f_equal; cbn [la_orders]; lia.
    - by rewrite decide_False by lia. }
  cbn [depth]. pose proof IHs as IHs'. destruct (depth os) as [|[p agg] lv] eqn:Ed.
  - split; [by repeat constructor|]. intros q. rewrite Hat, <- IH. cbn. rewrite Z.eqb_sym. by destruct (_ =? _).
  - apply StronglySorted_inv in IHs' as [Hlv Hlt]. destruct (p =? ao_price o) eqn:E.
    + assert (p = ao_price o) as -> by lia. split; [by constructor|].
      intros q. rewrite Hat, <- IH. cbn [omFind]. rewrite (Z.eqb_sym q). by destruct (ao_price o =? q).
    + assert (Hp : cmp s (ao_price o) p = true).
      { destruct (Hcmp (p, agg)) as [H|H]; [by left|cbn in H; lia|done]. }
      split.
      * constructor; [done|]. constructor; [done|]. eapply Forall_impl; [exact Hlt|]. intros x Hx. cbn in *. by eapply cmp_trans.
      * intros q. rewrite Hat, <- IH. cbn [omFind]. rewrite (Z.eqb_sym q). destruct (ao_price o =? q) eqn:E1; [|done].
        assert (q = ao_price o) as -> by lia. destruct (_ =? p) eqn:E2; [lia|].
        rewrite (omFind_beyond s); [done|]. eapply Forall_impl; [exact Hlt|]. intros x Hx. cbn in *. by eapply cmp_trans.
Qed.

(** The ladder shows the book, level by level. *)
Definition ladder_shows (l : Ladder) (a : ABook) : Prop := ∀ s, aggOf l s = depth (aside a s).

Lemma level_depth c m a s p :
  shows m a → wf c a → cfg_maxOrders c < 2 ^ 32 → lagg (level m s p) = depthAt (aside a s) p.
Proof.
  intros Hsh Hw Hmax. unfold level. rewrite (sh_flat _ _ Hsh), filter_fmap_price. unfold lagg, depthAt.
  destruct (filter _ (aside a s)) as [|o q] eqn:Ef; [done|]. rewrite fmap_cons.
  assert (Hlen : Z.of_nat (length (o :: q)) < 2 ^ 32).
  { rewrite <- Ef. pose proof (wf_room _ _ Hw) as Hr. pose proof (length_filter (λ o, ao_price o = p) (aside a s)).
    unfold aresting in Hr. rewrite length_app in Hr. destruct s; cbn [aside] in *; lia. }
  rewrite <- (fmap_cons mirrorOf), msum_mirrorOf, length_fmap. do 2 f_equal. unfold u32. apply Z.mod_small. lia.
Qed.

Lemma ladder_shows_intro c l m a :
  shows m a → wf c a → cfg_maxOrders c < 2 ^ 32 → ladder_sorted l →
  (∀ s p, omFind (aggOf l s) p = lagg (level m s p)) → ladder_shows l a.
Proof.
  intros Hsh Hw Hmax Hs Hl s. destruct (depth_ok s (aside a s) (wf_sorted _ _ Hw s)) as [Hd Hf].
  apply (sorted_ext s); [apply Hs|done|]. intros p. rewrite Hl, Hf. by apply (level_depth c).
Qed.

(** ** Runs in two parts *)

Lemma run_app m xs ys : run m (xs ++ ys) = run m xs ≫= λ m, run m ys.
Proof.
  revert m. induction xs as [|x xs IH]; intros m; [done|]. cbn [run app]. rewrite option_bind_assoc.
  destruct (MatchingThread.dispatch m x) as [m1|]; [apply IH|done].
Qed.

Lemma fits_app c a xs ys : fits c a (xs ++ ys) = fits c a xs && fits c (areplay c a xs) ys.
Proof. revert a. induction xs as [|x xs IH]; intros a; [done|]. cbn [fits app areplay foldl]. by rewrite IH, andb_assoc. Qed.

Lemma submitted_app xs ys : submitted (xs ++ ys) = submitted xs + submitted ys.
Proof.
  induction xs as [|x xs IH]; [done|]. cbn [app submitted foldr]. fold (submitted (xs ++ ys)) (submitted xs). lia.
Qed.

Lemma areplay_app c a xs ys : areplay c a (xs ++ ys) = areplay c (areplay c a xs) ys.
Proof. apply foldl_app. Qed.

(** What the matching thread publishes for [cmds] on top of a sound book takes the
    mirror and a publisher that showed the book to the next book. *)
Lemma run_feed c m t t' cmds :
  config_ok c → thread_ok c t → mirrors m (abs (mt_book t)) → book_i64 (abs (mt_book t)) →
  Forall (valid_command c) cmds → Forall command_i64 cmds → fits c (abs (mt_book t)) cmds = true →
  0 <= ab_seq (abs (mt_book t)) → ab_seq (abs (mt_book t)) + Z.of_nat (length cmds) <= INT64_MAX →
  (∀ s, total (aside (abs (mt_book t)) s) + submitted cmds <= INT64_MAX) → run t cmds = Some t' →
  ∃ evs, mt_out t' = mt_out t ++ evs ∧ feed_ok m evs ∧ mirrors (foldl apply m evs) (abs (mt_book t')) ∧
    thread_ok c t' ∧ book_i64 (abs (mt_book t')) ∧ abs (mt_book t') = areplay c (abs (mt_book t)) cmds ∧
    0 <= ab_seq (abs (mt_book t')) <= ab_seq (abs (mt_book t)) + Z.of_nat (length cmds) ∧
    (∀ s, total (aside (abs (mt_book t')) s) <= total (aside (abs (mt_book t)) s) + submitted cmds).
Proof.
  intros Hc Ht Hmi Hi Hv Hci Hf H0 Hsq Hroom Hr. pose proof (th_book _ _ Ht) as [HR Hw].
  destruct (run_ok c t cmds Hc Ht Hv) as (t2 & Hr2 & Ht2 & Hb & Ho); [done|done|].
  assert (t2 = t') as -> by congruence.
  destruct (feed_run c Hc (mt_dispatchSeq t) _ m cmds Hmi Hw Hi H0 Hsq Hv Hci Hroom) as (F1 & F2 & F3 & F4 & F5 & F6).
  eexists. split; [exact Ho|]. rewrite Hb, areplay_arun. rewrite areplay_arun in F2, F4, F5, F6. done.
Qed.

(** ** A subscriber that connects at any moment *)

Lemma level_shown m m' a s p : shows m a → shows m' a → level m s p = level m' s p.
Proof. intros H1 H2. unfold level. by rewrite (sh_flat _ _ H1), (sh_flat _ _ H2). Qed.

Lemma freshPublisher_ok sinks : pub_ok (mkPublisher mirrorNew ∅ ∅ 0 sinks).
Proof.
  split; [apply mirrorNew_empty| |intros [] q; done].
  intros []; cbn; (split; [constructor|unfold INT64_MAX; lia]).
Qed.

Lemma own_valid i ms :
  Forall (own i) ms → Forall feed_valid ms → Forall (λ x, feed_valid x ∧ instrumentOf x = i) ms.
Proof. intros H1 H2. apply Forall_and. split; [done|]. eapply Forall_impl; [exact H1|]. by intros x [_ ?]. Qed.

Lemma own_live i ms : Forall (own i) ms → Forall live ms.
Proof. intros H. eapply Forall_impl; [exact H|]. by intros x [? _]. Qed.

(** The ladder of a client that is still connected after the frames of [ms] have arrived. *)
Lemma client_reads cl i junk ms reads :
  listens cl i → length junk = 256%nat → bytes junk → Forall (λ x, feed_valid x ∧ instrumentOf x = i) ms →
  concat reads = concat (wireFrame <$> ms) →
  ∃ cl', onReads (onConnected cl junk) reads = Some cl' ∧
    (Forall (λ r, Z.of_nat (length r) <= maxChunk) reads → cl_connected cl' = true) ∧
    (cl_connected cl' = true → cl_ladder cl' = foldl ladderMsg (cl_ladder cl) ms).
Proof.
  intros Hl Hj Hjb Hms Hcat.
  assert (Hv : Forall feed_valid ms) by (eapply Forall_impl; [exact Hms|]; by intros x [? _]).
  assert (Hin : Forall (λ x, instrumentOf x = i) ms) by (eapply Forall_impl; [exact Hms|]; by intros x [_ ?]).
  destruct (client_cut cl junk ms reads Hj Hjb Hv Hcat) as (cl' & Hon & Hsh & Hcl). exists cl'. split; [done|]. split; [done|].
  intros Hcon. destruct (Hcl Hcon) as (d & ->). by apply (dispatch_all_ladder (onConnected cl junk) i ms).
Qed.

(** The two halves of a run, as the publisher sees them. *)
Lemma two_runs c i q cmds1 cmds2 t1 t2 :
  config_ok c → is_u32 i → commands_ok c (cmds1 ++ cmds2) → submitted (cmds1 ++ cmds2) <= INT64_MAX →
  fits c emptyABook (cmds1 ++ cmds2) = true → 3 * Z.of_nat (length (mt_out t2)) < 2 ^ 64 →
  run (matchingNew (bookNew c) q) cmds1 = Some t1 → run t1 cmds2 = Some t2 →
  ∃ p1 p2 ms1 ms2,
    publishAll i (addSink publisherNew []) (mt_out t1) = Some p1 ∧
    publishAll i p1 (drop (length (mt_out t1)) (mt_out t2)) = Some p2 ∧
    sends (addSink publisherNew []) p1 ms1 ∧ sends p1 p2 ms2 ∧ Forall (own i) (ms1 ++ ms2) ∧
    mirrors (pb_mirror p1) (abs (mt_book t1)) ∧ mirrors (pb_mirror p2) (abs (mt_book t2)) ∧
    thread_ok c t1 ∧ thread_ok c t2 ∧ book_i64 (abs (mt_book t1)) ∧ abs (mt_book t1) = stateAfter c cmds1 ∧
    pub_ok p1 ∧ pub_ok p2 ∧
    (∀ s x, foldl (stepLevel s x) (lagg (level mirrorNew s x)) ms1 = lagg (level (pb_mirror p1) s x)) ∧
    (∀ s x, foldl (stepLevel s x) (lagg (level (pb_mirror p1) s x)) ms2 = lagg (level (pb_mirror p2) s x)).
Proof.
  intros Hc Hi (Hv & Hci & Hlen) Hsub Hf Hout Hr1 Hr2.
  apply Forall_app in Hv as [Hv1 Hv2]. apply Forall_app in Hci as [Hc1 Hc2].
  rewrite submitted_app in Hsub. rewrite fits_app in Hf. apply andb_true_iff in Hf as [Hf1 Hf2].
  rewrite length_app in Hlen. pose proof (submitted_nonneg cmds2) as Hn2.
  assert (Hb0 : abs (bookNew c) = emptyABook) by (apply (Repr_abs c), bookNew_ok; done).
  assert (Ht0 : thread_ok c (matchingNew (bookNew c) q)).
  { apply matchingNew_ok. split; rewrite Hb0; [by apply bookNew_ok|by apply emptyABook_wf]. }
  destruct (run_feed c mirrorNew (matchingNew (bookNew c) q) t1 cmds1 Hc Ht0) as (e1 & O1 & F1 & M1 & T1 & I1 & A1 & Q1 & V1);
    cbn [matchingNew mt_book]; rewrite ?Hb0; try done; try (cbn; lia).
  { apply mirrorNew_empty. } { by intros []; cbn; lia. }
  cbn [matchingNew mt_book mt_out app] in O1, A1, Q1, V1. rewrite Hb0 in A1, Q1, V1.
  destruct (run_feed c (foldl apply mirrorNew e1) t1 t2 cmds2 Hc T1) as (e2 & O2 & F2 & M2 & T2 & I2 & A2 & Q2 & V2); try done.
  { by rewrite A1. } { cbn in *. lia. } { cbn in *. lia. }
  { intros s. specialize (V1 s). assert (total (aside emptyABook s) = 0) by (by destruct s). lia. }
  rewrite O2 in Hout. rewrite length_app in Hout. rewrite O1 in Hout, O2 |- *.
  destruct (publishAll_ok i Hi (addSink publisherNew []) e1 (freshPublisher_ok _) F1) as (p1 & ms1 & P1 & S1 & B1 & K1 & L1 & W1 & X1).
  { split; cbn; lia. }
  cbn [addSink publisherNew pb_mirror] in B1, X1. rewrite <- B1 in F2.
  destruct (publishAll_ok i Hi p1 e2 K1 F2) as (p2 & ms2 & P2 & S2 & B2 & K2 & L2 & W2 & X2).
  { pose proof (sn_feedSeq _ _ _ S1) as Hq. cbn in Hq. split; lia. }
  exists p1, p2, ms1, ms2. rewrite O2, drop_app_length. rewrite <- B1 in M1, M2. rewrite <- B2 in M2.
  split_and!; try done. by apply Forall_app.
Qed.

(** C8: A subscriber that connects while the gateway runs ends up with the engine's book.
    The gateway has started on an empty journal: the matching thread runs [cmds1], then
    [cmds2], on a new book, the commands are valid, with prices on ticks, and fit the buffers,
    and a publisher with a new mirror sends what it publishes.  A client, whatever it has
    shown before, connects when the journal holds [cmds1]: it is sent a burst of the book
    recovered from the journal, and then every frame but the first [k], where the frames
    it missed all belong to [cmds1] (the journal is never behind the feed).  If the client is
    still connected when all is received, its ladder shows, level by level, the total quantity
    and the number of orders of the engine's book, although frames older than the burst were
    replayed over it; and as long as no read is of more than 189 bytes, it is still
    connected.  [full_read_disconnects] shows a longer read, [restarted_publisher_forgets] a
    gateway started on a journal. *)
Theorem subscriber_catches_up c i q cmds1 cmds2 t1 t2 shadow :
  config_ok c → cfg_maxOrders c < 2 ^ 32 → is_u32 i →
  commands_ok c (cmds1 ++ cmds2) → submitted (cmds1 ++ cmds2) <= INT64_MAX →
  fits c emptyABook (cmds1 ++ cmds2) = true → 3 * Z.of_nat (length (mt_out t2)) < 2 ^ 64 →
  run (matchingNew (bookNew c) q) cmds1 = Some t1 → run t1 cmds2 = Some t2 →
  sound c shadow → abs shadow = stateAfter c cmds1 →
  ∃ mirror burst p1 sent1 p2 sent,
    loadMirrorFromBook shadow mirrorNew = Some mirror ∧ emitSnapshotBurst [] i mirror = Some burst ∧
    publishAll i (addSink publisherNew []) (mt_out t1) = Some p1 ∧ pb_sinks p1 = [sent1] ∧
    publishAll i p1 (drop (length (mt_out t1)) (mt_out t2)) = Some p2 ∧ pb_sinks p2 = [sent] ∧
    ∀ k cl junk reads,
      (k <= length sent1)%nat → listens cl i → length junk = 256%nat → bytes junk →
      concat reads = concat (burst ++ drop k sent) →
      ∃ cl', onReads (onConnected cl junk) reads = Some cl' ∧
        (Forall (λ r, Z.of_nat (length r) <= maxChunk) reads → cl_connected cl' = true) ∧
        (cl_connected cl' = true → ladder_shows (cl_ladder cl') (abs (mt_book t2))).
Proof.
  intros Hc Hmax Hi Hcm Hsub Hf Hout Hr1 Hr2 [HRs Hws] Has.
  destruct (two_runs c i q cmds1 cmds2 t1 t2) as (p1 & p2 & ms1 & ms2 & P1 & P2 & S1 & S2 & W & M1 & M2 & T1 & T2 & I1 & A1 & K1 & K2 & X1 & X2); try done.
  rewrite Has in HRs, Hws. destruct (loadMirror_ok c shadow _ mirrorNew Hc HRs Hws) as (mj & Hl & Hmj).
  assert (Hfit : mirror_fits mj) by (apply (shows_fits c _ (stateAfter c cmds1)); try done; by rewrite <- A1).
  assert (Hbj : bounded mj).
  { intros s. rewrite A1 in M1. pose proof (po_bounded _ K1 s) as Hb.
    by rewrite (sh_flat _ _ (proj1 Hmj)), <- (sh_flat _ _ (proj1 M1)). }
  destruct (emitSnapshotBurst_ok i Hi mj Hfit []) as (crc & Hburst & Hbv).
  exists mj, (wireFrame <$> burstMsgs i 0 mj crc), p1, (wireFrame <$> ms1), p2, (wireFrame <$> (ms1 ++ ms2)).
  split; [done|]. split; [done|]. split; [done|]. split; [apply (sn_sinks _ _ _ S1)|]. split; [done|].
  split; [apply (sn_sinks _ _ _ (sends_app _ _ _ _ _ S1 S2))|].
  intros k cl junk reads Hk Hcl Hj Hjb Hcat. rewrite length_fmap in Hk.
  rewrite <- fmap_drop, <- fmap_app, drop_app_le in Hcat by done.
  assert (Hval : Forall (λ x, feed_valid x ∧ instrumentOf x = i) (burstMsgs i 0 mj crc ++ drop k ms1 ++ ms2)).
  { apply Forall_app. split; [done|]. apply Forall_app in W as [W1 W2].
    pose proof (sn_valid _ _ _ S1) as V1. pose proof (sn_valid _ _ _ S2) as V2.
    apply Forall_app. split; [apply Forall_drop|]; by apply own_valid. }
  destruct (client_reads cl i junk _ reads Hcl Hj Hjb Hval Hcat) as (cl' & Hon & Hsh & Hlad).
  exists cl'. split; [done|]. split; [done|]. intros Hcon. rewrite (Hlad Hcon), foldl_app.
  destruct (ladder_burst i mj Hbj (cl_ladder cl) 0 crc) as (B1 & B2 & B3).
  destruct (ladder_live_all (foldl ladderMsg (cl_ladder cl) (burstMsgs i 0 mj crc)) (drop k ms1 ++ ms2)) as (_ & L2 & L3); try done.
  { apply Forall_app in W as [W1 W2]. apply Forall_app.
    split; [apply Forall_drop|]; by apply (own_live i). }
  eapply (ladder_shows_intro c _ (pb_mirror p2)); [apply M2|apply (th_book _ _ T2)|done|done|].
  intros s x. rewrite L3, B3, foldl_app. rewrite A1 in M1.
  rewrite (level_shown mj (pb_mirror p1) _ s x (proj1 Hmj) (proj1 M1)), <- X2. f_equal.
  rewrite <- X1. apply steps_overtaken.
Qed.

(** *** The run of four commands, joined after two *)

Definition freshClient : MdClient := mkClient (reassemblyNew []) ladderNew 0 false 200 0.

Lemma concat_bytes (bs : list Z) : concat ((λ b, [b]) <$> bs) = bs.
Proof. induction bs as [|b bs IH]; [done|]. cbn. f_equal. exact IH. Qed.

Lemma tape_prefix t1 :
  run (matchingNew (bookNew tapeConfig) 0) (take 2 tape) = Some t1 →
  sound tapeConfig (mt_book t1) ∧ abs (mt_book t1) = stateAfter tapeConfig (take 2 tape).
Proof.
  intros H1. assert (Hb0 : abs (bookNew tapeConfig) = emptyABook) by (apply (Repr_abs tapeConfig), bookNew_ok; apply tapeConfig_ok).
  destruct (run_ok tapeConfig (matchingNew (bookNew tapeConfig) 0) (take 2 tape) tapeConfig_ok) as (t & Hr & Ht & Ha & _).
  - apply matchingNew_ok, tapeBook_sound.
  - apply Forall_take, tape_valid.
  - by vm_compute.
  - cbn [matchingNew mt_book]. rewrite Hb0. by vm_compute.
  - pose proof (eq_trans (eq_sym Hr) H1) as E. injection E as ->. split; [apply (th_book _ _ Ht)|]. rewrite Ha, areplay_arun. cbn [matchingNew mt_book]. by rewrite Hb0.
Qed.

Lemma subscriber_catches_up_witness :
  ∃ t1 t2 burst sent cl',
    run (matchingNew (bookNew tapeConfig) 0) (take 2 tape) = Some t1 ∧ run t1 (drop 2 tape) = Some t2 ∧
    onReads (onConnected freshClient (replicate 256 0)) ((λ b, [b]) <$> concat (burst ++ drop 0 sent)) = Some cl' ∧
    ladder_shows (cl_ladder cl') (abs (mt_book t2)).
Proof.
  destruct (run (matchingNew (bookNew tapeConfig) 0) (take 2 tape)) as [t1|] eqn:H1; [|vm_compute in H1; discriminate].
  destruct (tape_prefix t1 H1) as [Hs Ha].
  destruct (run t1 (drop 2 tape)) as [t2|] eqn:H2; [|vm_compute in H1; injection H1 as <-; vm_compute in H2; discriminate].
  assert (Hlen : 3 * Z.of_nat (length (mt_out t2)) < 2 ^ 64).
  { vm_compute in H1. injection H1 as <-. vm_compute in H2. injection H2 as <-. by vm_compute. }
  assert (Hcm : commands_ok tapeConfig (take 2 tape ++ drop 2 tape)) by (rewrite take_drop; apply tape_commands_ok).
  assert (Hsub : submitted (take 2 tape ++ drop 2 tape) <= INT64_MAX) by (vm_compute; discriminate).
  assert (Hf : fits tapeConfig emptyABook (take 2 tape ++ drop 2 tape) = true) by (vm_compute; reflexivity).
  assert (Hmax : cfg_maxOrders tapeConfig < 2 ^ 32) by (vm_compute; reflexivity).
  assert (Hi : is_u32 1) by (unfold is_u32; lia).
  destruct (subscriber_catches_up tapeConfig 1 0 (take 2 tape) (drop 2 tape) t1 t2 (mt_book t1) tapeConfig_ok Hmax Hi
    Hcm Hsub Hf Hlen H1 H2 Hs Ha) as (mirror & burst & p1 & sent1 & p2 & sent & _ & _ & _ & _ & _ & _ & Hcl).
  destruct (Hcl 0%nat freshClient (replicate 256 0) ((λ b, [b]) <$> concat (burst ++ drop 0 sent))) as (cl' & Hr & Hsh & Hl).
  - lia.
  - by left.
  - done.
  - apply Forall_forall. intros x [-> _]%elem_of_replicate. unfold is_byte. clear. lia.
  - rewrite concat_bytes. reflexivity.
  - exists t1, t2, burst, sent, cl'. split; [exact eq_refl|]. split; [exact H2|]. split; [exact Hr|]. apply Hl, Hsh.
    apply Forall_fmap, Forall_true. done.
Defined.

(** ** Draining the ring *)

Section pump.
Context (Capacity i : Z) (source : option (BookMirror → option BookMirror)) (idx : nat).

Lemma pump_S fuel r p n :
  pump i source (S fuel) Capacity idx r p n =
    ('(r, status) ← tryPeekChecked Capacity r idx;
     match status with
     | MulticastRing.Empty => Some (r, p, n)
     | MulticastRing.Lapped => p ← resync i source p; pump i source fuel Capacity idx r p (u64 (n + 1))
     | MulticastRing.Ok out =>
         ev ← out !! 0%nat;
         r ← MulticastRing.consume r idx;
         p ← applyAndPublish i p ev;
         pump i source fuel Capacity idx r p (u64 (n + 1))
     end).
Proof. done. Qed.

(** [pump] applies and publishes exactly the events the ring holds. *)
Lemma pump_ok fuel r p p' n evs c :
  ring_holds Capacity idx r evs c → Z.of_nat (length evs) < Capacity → (length evs < fuel)%nat → 0 <= n → n + Z.of_nat (length evs) < 2 ^ 64 →
  publishAll i p evs = Some p' →
  ∃ r' c', pump i source fuel Capacity idx r p n = Some (r', p', n + Z.of_nat (length evs)) ∧
    ring_holds Capacity idx r' [] c' ∧ c_tail c' = c_tail c + Z.of_nat (length evs).
Proof.
  revert fuel r p n c. induction evs as [|ev evs IH]; intros fuel r p n c Hh Hfr Hf Hn0 Hn Hp;
    (destruct fuel as [|fuel]; [lia|]); rewrite pump_S; cbn [publishAll length] in *.
  - injection Hp as ->. destruct (peek_empty Capacity idx r c Hh) as (r' & c' & -> & Hh' & Ht). exists r', c'. simpl_bind.
    split; [do 2 f_equal; lia|]. split; [done|lia].
  - destruct (peek_event Capacity idx r ev evs c Hh Hfr) as (r1 & c1 & -> & Hh1 & Ht1 & Hlt). simpl_bind.
    change ([ev] !! 0%nat) with (Some ev). simpl_bind.
    destruct (consume_event Capacity idx r1 ev evs c1 Hh1 Hlt) as (r2 & c2 & -> & Hh2 & Ht2). simpl_bind.
    destruct (applyAndPublish i p ev) as [p1|]; [|done]. cbn [mbind option_bind] in *.
    u64_small.
    destruct (IH fuel r2 p1 (n + 1) c2 Hh2 ltac:(lia) ltac:(lia) ltac:(lia) ltac:(lia) Hp) as (r' & c' & -> & Hh' & Ht').
    exists r', c'. split; [do 2 f_equal; lia|]. split; [done|lia].
Qed.

(** A lapped consumer: one resynchronisation, and nothing is left in the ring. *)
Lemma pump_lapped fuel r p c :
  0 < Capacity → (2 <= fuel)%nat → mc_cursors r !! idx = Some c → 0 <= c_tail c <= c_cachedHead c → c_cachedHead c <= mc_head r →
  mc_head r < 2 ^ 64 - 1 → Capacity <= mc_head r - c_tail c →
  ∃ r', pump i source fuel Capacity idx r p 0 = (p ← resync i source p; Some (r', p, 1)) ∧
    ∃ c', mc_cursors r' !! idx = Some c' ∧ c_tail c' = mc_head r ∧ mc_head r' = mc_head r.
Proof.
  intros Hpos Hf Hc H1 H2 H3 Hlap.
  destruct fuel as [|[|fuel]]; [lia|lia|]. rewrite pump_S.
  assert (Hpeek : ∃ r1 c1, tryPeekChecked Capacity r idx = Some (r1, MulticastRing.Lapped) ∧ mc_cursors r1 !! idx = Some c1 ∧
    c_tail c1 = mc_head r ∧ c_cachedHead c1 = mc_head r ∧ mc_head r1 = mc_head r).
  { unfold tryPeekChecked, peekStart. rewrite Hc. simpl_bind.
    destruct (c_tail c =? c_cachedHead c) eqn:E; cbn [c_tail c_cachedHead];
      [destruct (c_tail c =? mc_head r) eqn:E1; [lia|]|]; cbn [negb mbind option_bind];
      unfold checkLapped, lapse; rewrite ?(setCursor_lookup idx r c _ Hc), ?Hc; cbn [mbind option_bind setCursor mc_head c_tail];
      u64_small; (destruct (Capacity <=? _) eqn:E2; [|lia]); simpl_bind;
      eexists _, (mkCursor (mc_head r) (mc_head r) (u64 (c_lapped c + 1))); (split; [done|]); (split; [|done]); cbn; apply list_lookup_insert_eq; rewrite ?length_insert;
      by eapply lookup_lt_Some. }
  destruct Hpeek as (r1 & c1 & -> & G1 & G2 & G3 & G4). simpl_bind.
  assert (Hh : ring_holds Capacity idx r1 [] c1) by (split; cbn; done || lia).
  destruct (peek_empty Capacity idx r1 c1 Hh) as (r2 & c2 & He & Hh2 & Ht2).
  exists r2. split.
  - destruct (resync i source p) as [p1|]; [|done]. simpl_bind. by rewrite pump_S, He.
  - exists c2. destruct Hh2 as [F1 F2 F3 F4 _]. cbn in F4. split; [done|]. lia.
Qed.
End pump.

(** C30: Draining the ring.  In any state the outbound ring can reach, with the
    publisher's consumer less than a lap behind, [pump] returns after one turn per
    pending event: it has applied exactly the pending events, in order, to its
    mirror, sent the same frames to every sink, numbered without a gap, kept its
    table of level totals equal to the mirror's, and left the ring empty for its
    consumer. *)
Theorem pump_drains Capacity k mask N dflt s idx c evs p i source fuel :
  0 <= k <= 63 → Capacity = 2 ^ k → length dflt = 1%nat → exec_reach Capacity 1 mask N dflt s →
  mc_cursors (e_ring s) !! idx = Some c →
  drop (Z.to_nat (c_tail c)) (e_sent s) = (λ ev, [ev]) <$> evs → Z.of_nat (length evs) < Capacity →
  is_u32 i → pub_ok p → feed_ok (pb_mirror p) evs → room p (3 * Z.of_nat (length evs)) → (length evs < fuel)%nat →
  ∃ r' p' ms c', pump i source fuel Capacity idx (e_ring s) p 0 = Some (r', p', Z.of_nat (length evs)) ∧
    pb_mirror p' = foldl apply (pb_mirror p) evs ∧ sends p p' ms ∧ pub_ok p' ∧
    mc_cursors r' !! idx = Some c' ∧ c_tail c' = mc_head r'.
Proof.
  intros Hk HCap Hd Hre Hc Hev Hlen Hi Hp Hf Hr Hfuel.
  pose proof (ring_holds_reach Capacity k mask N dflt s idx c evs Hk HCap Hd Hre Hc Hev (or_intror Hlen)) as Hh.
  destruct (publishAll_ok i Hi p evs Hp Hf Hr) as (p' & ms & Hpub & Hs & Hm & Hok & _).
  destruct (pump_ok Capacity i source idx fuel (e_ring s) p p' 0 evs c Hh Hlen Hfuel) as (r' & c' & Hpump & Hh' & _);
    [lia|destruct Hr; lia|done|].
  exists r', p', ms, c'. split; [exact Hpump|]. destruct Hh' as [G1 _ _ G4 _]. cbn in G4. split_and!; try done. lia.
Qed.

(** C29: Resynchronisation after a lap.  A publisher that was lapped, whatever its
    mirror and its subscribers held, makes one resynchronisation from a snapshot of
    the book [a] and is in step again: its mirror shows [a], its level totals agree
    with it, nothing older is left in the ring, and every subscriber that has
    received the burst shows [a] level by level. *)
Theorem lapped_feed_recovers Capacity k r idx c p cfg i shadow a fuel :
  0 <= k <= 63 → Capacity = 2 ^ k → mc_cursors r !! idx = Some c →
  0 <= c_tail c <= c_cachedHead c → c_cachedHead c <= mc_head r → mc_head r < 2 ^ 64 - 1 →
  Capacity <= mc_head r - c_tail c → (2 <= fuel)%nat → is_u32 i →
  config_ok cfg → cfg_maxOrders cfg < 2 ^ 32 → Repr cfg shadow a → wf cfg a → book_i64 a →
  (∀ s, total (aside a s) <= INT64_MAX) → room p (2 ^ 62) →
  ∃ r' p' ms c', pump i (Some (loadMirrorFromBook shadow)) fuel Capacity idx r p 0 = Some (r', p', 1) ∧
    mirrors (pb_mirror p') a ∧ pub_ok p' ∧ sends p p' ms ∧
    mc_cursors r' !! idx = Some c' ∧ c_tail c' = mc_head r' ∧
    ∀ l, ladder_shows (foldl ladderMsg l ms) a.
Proof.
  intros Hk HCap Hc H1 H2 H3 Hlap Hfuel Hi Hcfg Hmax HR Hw Hi64 Htot Hr.
  destruct (loadMirror_ok cfg shadow a (clearMirror (pb_mirror p)) Hcfg HR Hw) as (m & Hload & Hmi).
  pose proof (shows_bounded cfg m a (proj1 Hmi) Hw Htot) as Hb.
  pose proof (shows_fits cfg m a Hcfg Hmi Hw Hi64) as Hfit. pose proof (mf_small _ Hfit) as Hsm.
  destruct (resync_ok i Hi m (sh_ok _ _ (proj1 Hmi)) Hb Hfit (loadMirrorFromBook shadow) p Hload)
    as (p' & ms & Hre & Hs & Hm & Hok & _ & _ & Hlad).
  { rewrite (shows_walk _ _ (proj1 Hmi)), length_app, !length_fmap. pose proof (wf_room _ _ Hw) as Hroom.
    unfold aresting in Hroom. rewrite length_app in Hroom. destruct Hr; split; lia. }
  destruct (pump_lapped Capacity i (Some (loadMirrorFromBook shadow)) idx fuel r p c) as (r' & Hp & c' & G1 & G2 & G3);
    try done; [apply (mc_capacity Capacity k Hk HCap)|].
  rewrite Hre in Hp. cbn [mbind option_bind] in Hp. exists r', p', ms, c'. rewrite Hm, G3. split_and!; try done.
  intros l. destruct (Hlad l) as (_ & L1 & L2). by apply (ladder_shows_intro cfg _ m a (proj1 Hmi) Hw Hmax L1 L2).
Qed.

(** *** A ring with one event, and a lapped one *)

Definition ringEvent : OutboundEvent := orderUpdateEvent Rested Buy (mkUpdate 4 110 2 2 8 4) 4 Ok.
Definition ringOne : Exec OutboundEvent := ringWith (statusEvent 0 Ok 0) ringEvent.

Lemma pump_drains_witness :
  ∃ r' p', pump 1 None 2 2 1 (e_ring ringOne) (addSink publisherNew []) 0 = Some (r', p', 1) ∧
    walk (pb_mirror p') = [(Buy, mkMirrorOrder 4 110 2 2 8 4)].
Proof.
  destruct (pump_drains 2 1 1 2 [statusEvent 0 Ok 0] ringOne 1 (mkCursor 0 0 0) [ringEvent] (addSink publisherNew []) 1 None 2
    ltac:(lia) eq_refl eq_refl (ringWith_reach _ _) eq_refl eq_refl) as (r' & p' & ms & c' & Hp & Hm & _).
  - cbn. lia.
  - unfold is_u32. lia.
  - apply freshPublisher_ok.
  - repeat split; done || (cbn; unfold INT64_MAX; lia).
  - unfold room. cbn. lia.
  - cbn. lia.
  - exists r', p'. split; [exact Hp|]. rewrite Hm. vm_compute. reflexivity.
Defined.

Lemma lapped_feed_recovers_witness :
  ∃ t1 r' p' c', run (matchingNew (bookNew tapeConfig) 0) (take 2 tape) = Some t1 ∧
    pump 1 (Some (loadMirrorFromBook (mt_book t1))) 2 2 0
      (mkMulticast [[ringEvent]; [ringEvent]] 3 0 [mkCursor 0 1 0]) (addSink publisherNew []) 0 = Some (r', p', 1) ∧
    mirrors (pb_mirror p') (stateAfter tapeConfig (take 2 tape)) ∧ mc_cursors r' !! 0%nat = Some c'.
Proof.
  destruct (run (matchingNew (bookNew tapeConfig) 0) (take 2 tape)) as [t1|] eqn:H1; [|vm_compute in H1; discriminate].
  destruct (tape_prefix t1 H1) as [[HR Hw] Ha].
  destruct (stateAfter_ok tapeConfig (take 2 tape) tapeConfig_ok (commands_take _ _ 2 tape_commands_ok)) as (_ & Hi & _).
  rewrite Ha in HR, Hw.
  destruct (lapped_feed_recovers 2 1 (mkMulticast [[ringEvent]; [ringEvent]] 3 0 [mkCursor 0 1 0]) 0 (mkCursor 0 1 0)
    (addSink publisherNew []) tapeConfig 1 (mt_book t1) (stateAfter tapeConfig (take 2 tape)) 2) as (r' & p' & ms & c' & Hp & Hm & _ & _ & Hc & _).
  - lia.
  - reflexivity.
  - reflexivity.
  - cbn. lia.
  - cbn. lia.
  - cbn. lia.
  - cbn. lia.
  - lia.
  - unfold is_u32. lia.
  - exact tapeConfig_ok.
  - vm_compute. reflexivity.
  - exact HR.
  - exact Hw.
  - exact Hi.
  - intros []; vm_compute; discriminate.
  - unfold room. cbn. lia.
  - exists t1, r', p', c'. split; [reflexivity|]. split; [exact Hp|]. split; [exact Hm|exact Hc].
Defined.

(** ** Where the feed goes wrong *)

(** The client reads up to 4096 bytes at a time into a decoder that holds 256: five
    frames that arrive together disconnect it. *)
Theorem full_read_disconnects :
  let frame := default [] (publishOne (restedMsg 1 (Buy, mkMirrorOrder 4 110 2 2 8 4) 1)) in
  let burst := concat (replicate 5 frame) in
  Z.of_nat (length burst) = 295 ∧
  option_map cl_connected (onRead (onConnected freshClient (replicate 256 0)) burst) = Some false ∧
  option_map cl_connected (onReads (onConnected freshClient (replicate 256 0)) (replicate 5 frame)) = Some true.
Proof. vm_compute. done. Qed.

(** After a restart the publisher's mirror is empty while the recovered book is not.
    A subscriber has been sent the recovered book, 2 at price 110; the next order
    rests 3 more at that price; the level update says 3 where the book has 5. *)
Theorem restarted_publisher_forgets :
  let held := insert mirrorNew Buy (mkUpdate 4 110 2 2 8 4) in
  let ev := orderUpdateEvent Rested Buy (mkUpdate 5 110 3 3 9 5) 5 Ok in
  let sent := option_map pb_sinks (applyAndPublish 1 (addSink publisherNew []) ev) in
  levelTotal (apply held ev) Buy 110 = 5 ∧
  option_map (λ burst, option_map (λ cl, aggOf (cl_ladder cl) Buy)
      (onReads (onConnected freshClient (replicate 256 0)) (burst ++ concat (default [] sent))))
    (emitSnapshotBurst [] 1 held) = Some (Some [(110, mkAgg 3 1)]).
Proof. vm_compute. done. Qed.

(** A resynchronisation from the journal may run ahead of the ring: the journal has
    the order already, its event comes afterwards, and the mirror holds it twice. *)
Theorem resync_ahead_duplicates :
  let ahead := insert mirrorNew Buy (mkUpdate 4 110 2 2 8 4) in
  let later := apply ahead ringEvent in
  levelTotal ahead Buy 110 = 2 ∧ levelTotal later Buy 110 = 4 ∧ length (walk later) = 2%nat.
Proof. vm_compute. done. Qed.
