(* ===== verification/Session.v ===== *)
(** An order-entry connection: [gateway/session.hpp], [gateway/session.cpp],
    [gateway/auth.hpp], and the parts of [gateway/gateway.hpp] a session calls.

    A session runs on the io thread, one handler at a time; each handler is a
    function on the session and the server.  The shards' sequencers are reached
    through the interface [SubmitPort], so that what is proved of a session holds
    however other sessions and the matching threads use them in between. *)
From stdpp Require Import gmap.
From S2P Require Import Prelude Types Wire Messages Framing Decoder Events SpscRing JournalWriter JournalFormat Sequencer Shard.

(** ** Authentication *)

Abbreviation Credentials := (gmap Z (list Z)).

Definition addCredential (creds : Credentials) (id : Z) (token : list Z) : Credentials :=
  <[id := token]> creds.

(** [for (i = 0; i < 32; ++i) diff |= expected[i] ^ token[i];] *)
Definition tokenDiff (expected token : list Z) : Z :=
  foldl (λ diff p, Z.lor diff (Z.lxor p.1 p.2)) 0 (zip expected token).

Definition authenticate (creds : Credentials) (id : Z) (token : list Z) : bool :=
  let found := creds !! id in
  let expected := default (replicate 32 0) found in
  let diff := tokenDiff expected token in
  match found with Some _ => diff =? 0 | None => false end.

(** ** The interface to the sequencers *)

Class SubmitPort (W : Type) := {
  portTrySubmit : W → Z → CommandKind → Command → option (TrySubmitResult * W);
  portLastSeq : W → Z
}.

(** The implementation: [shardSequencer(idx).trySubmit] and [loginAckSeq] on the
    sequencers of the shards. *)
Section shards.
Context (ringBits : Z) (wc : WriterConfig) (pad : list Z).

Definition shardTrySubmit (qs : list Sequencer) (idx : Z) (kind : CommandKind) (cmd : Command) :
    option (TrySubmitResult * list Sequencer) :=
  q ← aget qs idx;
  '(r, q') ← trySubmit ringBits wc q kind pad cmd;
  qs' ← aset qs idx q';
  Some (r, qs').

Definition loginAckSeq (qs : list Sequencer) : Z :=
  match qs with [] => 0 | q :: _ => sq_seq q end.

Definition shardPort : SubmitPort (list Sequencer) := {|
  portTrySubmit := shardTrySubmit;
  portLastSeq := loginAckSeq
|}.
End shards.

(** ** State *)

Inductive State := AwaitingLogin | Authenticated | Closing.

#[export] Instance State_eq_dec : EqDecision State.
Proof. solve_decision. Defined.

Definition kReadChunk : Z := 128.
Definition kMaxMissedHeartbeats : Z := 3.

(** [pendingKind_], [pendingCmd_], [pendingShardIdx_]. *)
Record Pending := mkPending { pd_kind : CommandKind; pd_cmd : Command; pd_shard : Z }.

(** [cs_reading]: an [async_read_some] is outstanding.  [cs_pending] is [None] when
    [hasPending_] is false. *)
Record ClientSession := mkSession {
  cs_decoder : FrameDecoder;
  cs_reading : bool;
  cs_writing : bool;
  cs_pendingWrites : list (list Z);
  cs_state : State;
  cs_participantId : Z;
  cs_lastClientSeq : Z;
  cs_readSuspended : bool;
  cs_closed : bool;
  cs_pending : option Pending;
  cs_missedHeartbeats : Z
}.

Definition setDecoder (s : ClientSession) d :=
  mkSession d (cs_reading s) (cs_writing s) (cs_pendingWrites s) (cs_state s) (cs_participantId s)
    (cs_lastClientSeq s) (cs_readSuspended s) (cs_closed s) (cs_pending s) (cs_missedHeartbeats s).
Definition setReading (s : ClientSession) b :=
  mkSession (cs_decoder s) b (cs_writing s) (cs_pendingWrites s) (cs_state s) (cs_participantId s)
    (cs_lastClientSeq s) (cs_readSuspended s) (cs_closed s) (cs_pending s) (cs_missedHeartbeats s).
Definition setWrites (s : ClientSession) w l :=
  mkSession (cs_decoder s) (cs_reading s) w l (cs_state s) (cs_participantId s)
    (cs_lastClientSeq s) (cs_readSuspended s) (cs_closed s) (cs_pending s) (cs_missedHeartbeats s).
Definition setLogin (s : ClientSession) st p n :=
  mkSession (cs_decoder s) (cs_reading s) (cs_writing s) (cs_pendingWrites s) st p n
    (cs_readSuspended s) (cs_closed s) (cs_pending s) (cs_missedHeartbeats s).
Definition setClientSeq (s : ClientSession) n :=
  mkSession (cs_decoder s) (cs_reading s) (cs_writing s) (cs_pendingWrites s) (cs_state s)
    (cs_participantId s) n (cs_readSuspended s) (cs_closed s) (cs_pending s) (cs_missedHeartbeats s).
Definition setSuspended (s : ClientSession) b :=
  mkSession (cs_decoder s) (cs_reading s) (cs_writing s) (cs_pendingWrites s) (cs_state s)
    (cs_participantId s) (cs_lastClientSeq s) b (cs_closed s) (cs_pending s) (cs_missedHeartbeats s).
Definition setPending (s : ClientSession) p :=
  mkSession (cs_decoder s) (cs_reading s) (cs_writing s) (cs_pendingWrites s) (cs_state s)
    (cs_participantId s) (cs_lastClientSeq s) (cs_readSuspended s) (cs_closed s) p
    (cs_missedHeartbeats s).
Definition setMissed (s : ClientSession) n :=
  mkSession (cs_decoder s) (cs_reading s) (cs_writing s) (cs_pendingWrites s) (cs_state s)
    (cs_participantId s) (cs_lastClientSeq s) (cs_readSuspended s) (cs_closed s) (cs_pending s) n.

(** [closed_ = true; state_ = State::Closing;] *)
Definition closeSession (s : ClientSession) : ClientSession :=
  if cs_closed s then s
  else mkSession (cs_decoder s) (cs_reading s) (cs_writing s) (cs_pendingWrites s) Closing
    (cs_participantId s) (cs_lastClientSeq s) (cs_readSuspended s) true (cs_pending s)
    (cs_missedHeartbeats s).

(** A route names the session by its number; [sv_routes] has one table per shard. *)
Record RouteEntry := mkRoute { rt_session : nat; rt_clientSeqNum : Z }.

(** [sv_posted] is what the router threads have posted to the io thread. *)
Inductive Posted := PostFrame (session : nat) (data : list Z) | PostRetry.

Record Server (W : Type) := mkServer {
  sv_port : W;
  sv_routes : list (gmap Z RouteEntry);
  sv_dropped : list Z;
  sv_posted : list Posted
}.
Arguments mkServer {W}.
Arguments sv_port {W}.
Arguments sv_routes {W}.
Arguments sv_dropped {W}.
Arguments sv_posted {W}.

(** ** Writing *)

Definition doWrite (s : ClientSession) : ClientSession :=
  match cs_pendingWrites s with
  | [] => setWrites s false []
  | w => setWrites s true w
  end.

Definition sendFrame (s : ClientSession) (data : list Z) : ClientSession :=
  if cs_closed s then s
  else
    let s := setWrites s (cs_writing s) (cs_pendingWrites s ++ [data]) in
    if cs_writing s then s else doWrite s.

(** [std::byte buf[size]; n = encode(m, buf); sendFrame(buf, n);] *)
Definition encodeAndSend {M} (enc : M → list Z → option (list Z * Z)) (size : nat)
    (s : ClientSession) (m : M) : option ClientSession :=
  '(buf, n) ← enc m (replicate size 0);
  Some (sendFrame s (take (Z.to_nat n) buf)).

Definition sendLoginReject (s : ClientSession) (reason : RejectReason) : option ClientSession :=
  encodeAndSend encodeLoginReject 16 s (mkLoginReject (rejectCode reason) 0).

Definition sendReject (s : ClientSession) (orderId : Z) (reason : RejectReason) (globalSeq : Z) :
    option ClientSession :=
  encodeAndSend encodeReject 32 s (mkRejectMsg orderId (rejectCode reason) globalSeq).

Definition sendNewAckIfApplicable (s : ClientSession) (cmd : Command) (seq : Z) :
    option ClientSession :=
  match cm_kind cmd with
  | KNew =>
      encodeAndSend encodeExecReport 128 s
        (mkExecReport (cm_id cmd) (execCode NewAck) 0 (cm_quantity cmd) 0 0 seq)
  | _ => Some s
  end.

(** ** Reading *)

Definition doRead (s : ClientSession) : ClientSession :=
  if cs_closed s || cs_readSuspended s then s else setReading s true.

Definition resumeReading (s : ClientSession) : ClientSession :=
  if negb (cs_readSuspended s) || cs_closed s then s else doRead (setSuspended s false).

Definition handleHeartbeat (s : ClientSession) : ClientSession := setMissed s 0.

(** The boolean says whether the message is to be submitted. *)
Definition checkClientSeq (s : ClientSession) (n orderIdForReject : Z) :
    option (ClientSession * bool) :=
  if n <=? cs_lastClientSeq s then
    s ← sendReject s orderIdForReject DuplicateSeq 0; Some (s, false)
  else if u64 (cs_lastClientSeq s + 1) <? n then
    s ← sendReject s orderIdForReject SequenceGap 0; Some (closeSession s, false)
  else Some (setClientSeq s n, true).

Definition engineType (m : NewOrderMsg) : OrderType :=
  match no_orderType m with
  | WMarket => Market
  | WLimit => match no_timeInForce m with WIoc => Ioc | WFok => Fok | Day => Limit end
  end.

Definition newCommand (participant : Z) (m : NewOrderMsg) : Command :=
  mkCommand (no_orderId m) 0 (no_price m) (no_quantity m) participant KNew (no_side m) (engineType m).

Definition cancelCommand (participant : Z) (m : CancelMsg) : Command :=
  mkCommand (cn_orderId m) 0 0 0 participant KCancel Buy Limit.

Definition replaceCommand (participant : Z) (m : CancelReplaceMsg) : Command :=
  mkCommand (cr_orderId m) (cr_orderId m) (cr_newPrice m) (cr_newQuantity m) participant KReplace
    Buy Limit.

Definition routedId (cmd : Command) : Z :=
  match cm_kind cmd with KReplace => cm_newId cmd | _ => cm_id cmd end.

Section session.
Context {W : Type} `{P : !SubmitPort W}.

(** The server's configuration, and the session's own number. *)
Context (creds : Credentials) (shardIds : list Z) (me : nat).

Definition registerRoute (sv : Server W) (shardIdx id : Z) (session : nat) (clientSeqNum : Z) :
    option (Server W) :=
  t ← aget (sv_routes sv) shardIdx;
  ts ← aset (sv_routes sv) shardIdx (<[id := mkRoute session clientSeqNum]> t);
  Some (mkServer (sv_port sv) ts (sv_dropped sv) (sv_posted sv)).

Definition eraseRoute (sv : Server W) (shardIdx id : Z) : option (Server W) :=
  t ← aget (sv_routes sv) shardIdx;
  ts ← aset (sv_routes sv) shardIdx (delete id t);
  Some (mkServer (sv_port sv) ts (sv_dropped sv) (sv_posted sv)).

Definition submitOn (sv : Server W) (shardIdx : Z) (kind : CommandKind) (cmd : Command) :
    option (TrySubmitResult * Server W) :=
  '(r, w) ← portTrySubmit (sv_port sv) shardIdx kind cmd;
  Some (r, mkServer w (sv_routes sv) (sv_dropped sv) (sv_posted sv)).

(** The branch [DurabilityFailure] of [submitOrPend] and [retryPending]. *)
Definition durabilityFailure (sv : Server W) (s : ClientSession) (cmd : Command) (shardIdx : Z) :
    option (Server W * ClientSession) :=
  sv ← eraseRoute sv shardIdx (routedId cmd);
  s ← sendReject s (routedId cmd) EngineReject 0;
  Some (sv, closeSession s).

Definition submitOrPend (sv : Server W) (s : ClientSession) (cmd : Command) (shardIdx : Z) :
    option (Server W * ClientSession) :=
  sv ← registerRoute sv shardIdx (routedId cmd) me (cs_lastClientSeq s);
  '(r, sv) ← submitOn sv shardIdx (cm_kind cmd) cmd;
  match ts_outcome r with
  | Sequenced => s ← sendNewAckIfApplicable s cmd (ts_seq r); Some (sv, s)
  | RingFull => Some (sv, setSuspended (setPending s (Some (mkPending (cm_kind cmd) cmd shardIdx))) true)
  | DurabilityFailure => durabilityFailure sv s cmd shardIdx
  end.

Definition retryPending (sv : Server W) (s : ClientSession) : option (Server W * ClientSession) :=
  match cs_pending s with
  | None => Some (sv, s)
  | Some p =>
      if cs_closed s then Some (sv, s)
      else
        '(r, sv) ← submitOn sv (pd_shard p) (pd_kind p) (pd_cmd p);
        match ts_outcome r with
        | RingFull => Some (sv, s)
        | DurabilityFailure => durabilityFailure sv (setPending s None) (pd_cmd p) (pd_shard p)
        | Sequenced =>
            s ← sendNewAckIfApplicable (setPending s None) (pd_cmd p) (ts_seq r);
            Some (sv, resumeReading s)
        end
  end.

(** The common shape of [handleNewOrder], [handleCancel] and [handleCancelReplace]:
    check the client's sequence number, find the shard, submit. *)
Definition handleOrder (sv : Server W) (s : ClientSession) (clientSeq orderId instrumentId : Z)
    (cmd : Command) : option (Server W * ClientSession) :=
  '(s, next) ← checkClientSeq s clientSeq orderId;
  if negb next then Some (sv, s)
  else
    let shardIdx := shardIndexOf shardIds instrumentId in
    if shardIdx <? 0 then s ← sendReject s orderId EngineReject 0; Some (sv, s)
    else submitOrPend sv s cmd shardIdx.

Definition handleNewOrder (sv : Server W) (s : ClientSession) (m : NewOrderMsg) :=
  handleOrder sv s (no_clientSeqNum m) (no_orderId m) (no_instrumentId m)
    (newCommand (cs_participantId s) m).

Definition handleCancel (sv : Server W) (s : ClientSession) (m : CancelMsg) :=
  handleOrder sv s (cn_clientSeqNum m) (cn_orderId m) (cn_instrumentId m)
    (cancelCommand (cs_participantId s) m).

Definition handleCancelReplace (sv : Server W) (s : ClientSession) (m : CancelReplaceMsg) :=
  handleOrder sv s (cr_clientSeqNum m) (cr_orderId m) (cr_instrumentId m)
    (replaceCommand (cs_participantId s) m).

Definition handleLogin (sv : Server W) (s : ClientSession) (m : LoginMsg) : option ClientSession :=
  if negb (authenticate creds (lg_participantId m) (lg_token m)) then
    s ← sendLoginReject s AuthFailed; Some (closeSession s)
  else
    let s := setLogin s Authenticated (lg_participantId m) (lg_clientSeqNum m) in
    encodeAndSend encodeLoginAck 64 s (mkLoginAck (portLastSeq (sv_port sv)) 0).

(** One message, in state [AwaitingLogin] and in the others. *)
Definition beforeLogin (sv : Server W) (s : ClientSession) (msg : DecodedMessage) :
    option (Server W * ClientSession) :=
  match msg with
  | DLogin m => s ← handleLogin sv s m; Some (sv, s)
  | DHeartbeat _ => Some (sv, handleHeartbeat s)
  | _ => s ← sendLoginReject s NotAuthenticated; Some (sv, closeSession s)
  end.

Definition afterLogin (sv : Server W) (s : ClientSession) (msg : DecodedMessage) :
    option (Server W * ClientSession) :=
  match msg with
  | DNewOrder m => handleNewOrder sv s m
  | DCancel m => handleCancel sv s m
  | DCancelReplace m => handleCancelReplace sv s m
  | DHeartbeat _ => Some (sv, handleHeartbeat s)
  | DLogin _ => s ← sendLoginReject s AlreadyAuthenticated; Some (sv, closeSession s)
  | _ => Some (sv, closeSession s)
  end.

Fixpoint processDecoded (fuel : nat) (sv : Server W) (s : ClientSession) :
    option (Server W * ClientSession) :=
  match fuel with
  | O => None
  | S fuel =>
      '(d, result) ← decoderNext (cs_decoder s);
      let s := setDecoder s d in
      match result with
      | RIncomplete => Some (sv, s)
      | RInvalid _ => Some (sv, closeSession s)
      | ROk msg =>
          if bool_decide (cs_state s = AwaitingLogin) then
            '(sv, s) ← beforeLogin sv s msg;
            if cs_closed s then Some (sv, s) else processDecoded fuel sv s
          else
            '(sv, s) ← afterLogin sv s msg;
            if cs_closed s || cs_readSuspended s then Some (sv, s) else processDecoded fuel sv s
      end
  end.

(** [onRead(n)] with the [n] bytes of [readBuf_]. *)
Definition onRead (fuel : nat) (sv : Server W) (s : ClientSession) (data : list Z) :
    option (Server W * ClientSession) :=
  let s := setMissed s 0 in
  '(d, ok) ← decoderFeed (cs_decoder s) data;
  let s := setDecoder s d in
  if negb ok then Some (sv, closeSession s)
  else
    '(sv, s) ← processDecoded fuel sv s;
    Some (sv, if cs_closed s then s else doRead s).

(** ** Completion handlers *)

(** A message takes at least one byte off the 256-byte buffer. *)
Definition processFuel : nat := 257.

(** Of [async_read_some]; [None] is an error. *)
Definition readDone (sv : Server W) (s : ClientSession) (r : option (list Z)) :
    option (Server W * ClientSession) :=
  let s := setReading s false in
  match r with
  | None => Some (sv, closeSession s)
  | Some data => onRead processFuel sv s data
  end.

(** Of [async_write]. *)
Definition writeDone (s : ClientSession) (ok : bool) : ClientSession :=
  if negb ok then closeSession s
  else doWrite (setWrites s (cs_writing s) (tail (cs_pendingWrites s))).

(** Of the timers: [cancelled] is the error code of a cancelled wait. *)
Definition authTimeout (s : ClientSession) (cancelled : bool) : ClientSession :=
  if cancelled || negb (bool_decide (cs_state s = AwaitingLogin)) then s else closeSession s.

Definition heartbeatTimeout (s : ClientSession) (cancelled : bool) : option ClientSession :=
  if cancelled || bool_decide (cs_state s = Closing) then Some s
  else
    let s := setMissed s (cs_missedHeartbeats s + 1) in
    if kMaxMissedHeartbeats <=? cs_missedHeartbeats s then Some (closeSession s)
    else encodeAndSend encodeHeartbeat 32 s (mkHeartbeat 0).

(** What the io thread runs on a session: completions, the retry round of
    [retryAllPending], and frames posted by the router threads. *)
Inductive IoEvent :=
  | ReadDone (r : option (list Z))
  | WriteDone (ok : bool)
  | AuthTimeout (cancelled : bool)
  | HeartbeatTimeout (cancelled : bool)
  | RetryRound
  | SendPosted (data : list Z).

Definition sessionStep (sv : Server W) (s : ClientSession) (ev : IoEvent) :
    option (Server W * ClientSession) :=
  match ev with
  | ReadDone r => readDone sv s r
  | WriteDone ok => Some (sv, writeDone s ok)
  | AuthTimeout cancelled => Some (sv, authTimeout s cancelled)
  | HeartbeatTimeout cancelled => s ← heartbeatTimeout s cancelled; Some (sv, s)
  | RetryRound => if cs_readSuspended s then retryPending sv s else Some (sv, s)
  | SendPosted data => Some (sv, sendFrame s data)
  end.
End session.

(** The constructor and [start()]. *)
Definition sessionNew (c : DecoderConfig) (junk : list Z) : ClientSession :=
  doRead (mkSession (mkFrameDecoder c (reassemblyNew junk)) false false [] AwaitingLogin 0 0 false
            false None 0).
