(* ===== verification/SessionSpec.v ===== *)
(** What a session promises: the commands it hands to the sequencers are the
    admitted messages of its client's byte stream, in order, each once; with one
    exception, [stray], on a session closed before its login.

    The reference [admittedFrom] reads the whole stream of messages at once: a
    login, then orders numbered without a gap; repeated numbers are skipped, a gap
    or a message out of place ends the stream. *)
From stdpp Require Import gmap.
From S2P Require Import Prelude Types Wire Messages Framing Decoder Events SpscRing JournalWriter JournalFormat Sequencer Shard Session.

(** ** Recording the calls of a session *)

Record Call := mkCall {
  ca_shard : Z; ca_kind : CommandKind; ca_cmd : Command; ca_outcome : Outcome }.

Abbreviation Order := (Z * CommandKind * Command)%type.

Definition isSequenced (a : Call) : bool := bool_decide (ca_outcome a = Sequenced).

Definition sequenced (log : list Call) : list Order :=
  (λ a, (ca_shard a, ca_kind a, ca_cmd a)) <$> filter (λ a, isSequenced a = true) log.

Definition loggedSubmit {W} `{P : !SubmitPort W} (w : W * list Call) (idx : Z) (kind : CommandKind)
    (cmd : Command) : option (TrySubmitResult * (W * list Call)) :=
  '(r, w') ← portTrySubmit w.1 idx kind cmd;
  Some (r, (w', w.2 ++ [mkCall idx kind cmd (ts_outcome r)])).

(** Any port, with the calls made through it. *)
Definition loggedPort {W} (P : SubmitPort W) : SubmitPort (W * list Call) := {|
  portTrySubmit := loggedSubmit (P := P);
  portLastSeq := λ w, portLastSeq w.1
|}.

(** What a session relies on: a sequencer answers, whatever it answers. *)
Class SubmitLaws (W : Type) {P : SubmitPort W} := {
  portOk : nat → W → Prop;
  port_answers shards w idx kind cmd :
    portOk shards w → 0 <= idx < Z.of_nat shards → command_i64 cmd →
    ∃ r w', portTrySubmit w idx kind cmd = Some (r, w') ∧ portOk shards w'
}.

(** ** The reference *)

Section reference.
Context (creds : Credentials) (shardIds : list Z).

(** Client sequence number, instrument and command of an order message. *)
Definition orderOf (pid : Z) (m : DecodedMessage) : option (Z * Z * Command) :=
  match m with
  | DNewOrder m => Some (no_clientSeqNum m, no_instrumentId m, newCommand pid m)
  | DCancel m => Some (cn_clientSeqNum m, cn_instrumentId m, cancelCommand pid m)
  | DCancelReplace m => Some (cr_clientSeqNum m, cr_instrumentId m, replaceCommand pid m)
  | _ => None
  end.

Definition placed (instrumentId : Z) (cmd : Command) : list Order :=
  let idx := shardIndexOf shardIds instrumentId in
  if idx <? 0 then [] else [(idx, cm_kind cmd, cmd)].

(** [ph]: [None] before the login, then the participant and the last number. *)
Fixpoint admittedFrom (ph : option (Z * Z)) (ms : list DecodedMessage) : list Order :=
  match ms with
  | [] => []
  | m :: ms =>
      match ph with
      | None =>
          match m with
          | DLogin l =>
              if authenticate creds (lg_participantId l) (lg_token l)
              then admittedFrom (Some (lg_participantId l, lg_clientSeqNum l)) ms else []
          | DHeartbeat _ => admittedFrom None ms
          | _ => []
          end
      | Some (pid, last) =>
          match orderOf pid m, m with
          | Some (n, inst, cmd), _ =>
              if n =? last + 1 then placed inst cmd ++ admittedFrom (Some (pid, n)) ms
              else if n <=? last then admittedFrom ph ms else []
          | None, DHeartbeat _ => admittedFrom ph ms
          | None, _ => []
          end
      end
  end.

Definition admitted (ms : list DecodedMessage) : list Order := admittedFrom None ms.

Lemma admitted_app ph ms ms' : admittedFrom ph ms `prefix_of` admittedFrom ph (ms ++ ms').
Proof.
  revert ph. induction ms as [|m ms IH]; intros ph; [apply prefix_nil|].
  cbn [app admittedFrom]. repeat case_match; auto using prefix_app.
Qed.
End reference.

(** ** The encoders of the replies have room *)

Lemma storeLoop_some n i b p v :
  0 <= p → 0 <= i → p + i + Z.of_nat n <= Z.of_nat (length b) →
  ∃ b', storeLoop n i b p v = Some b' ∧ length b' = length b.
Proof.
  revert i b. induction n as [|n IH]; intros i b Hp Hi Hl; cbn [storeLoop]; [by eauto|].
  rewrite aset_in by lia. simpl_bind.
  destruct (IH (i + 1) (<[Z.to_nat (p + i) := u8 (Z.shiftr v (8 * i))]> b)) as (b' & -> & Hb');
    [lia|lia|rewrite length_insert; lia|].
  rewrite length_insert in Hb'. eauto.
Qed.

Lemma putU8_some b p v : 0 <= p < Z.of_nat (length b) → ∃ b', putU8 b p v = Some b' ∧ length b' = length b.
Proof. intros Hp. unfold putU8. rewrite aset_in by lia. eexists. split; [done|]. apply length_insert. Qed.

Ltac put_some :=
  match goal with
  | |- context [putU8 ?b ?p ?v] =>
      destruct (putU8_some b p v) as (? & -> & ?); [lia|simpl_bind]
  | |- context [putU32 ?b ?p ?v] =>
      destruct (storeLoop_some 4 0 b p v) as (? & E & ?); [lia..|];
      change (putU32 b p v) with (storeLoop 4 0 b p v); rewrite E; clear E; simpl_bind
  | |- context [putI64 ?b ?p ?v] => change (putI64 b p v) with (putU64 b p (u64 v)); put_some
  | |- context [putU64 ?b ?p ?v] =>
      destruct (storeLoop_some 8 0 b p v) as (? & E & ?); [lia..|];
      change (putU64 b p v) with (storeLoop 8 0 b p v); rewrite E; clear E; simpl_bind
  end.

Ltac reply_fits :=
  match goal with |- context [replicate ?n 0] =>
    let b := fresh "b" in
    let Hb := fresh "Hb" in
    pose proof (length_replicate n 0) as Hb; set (b := replicate n 0) in *; clearbody b
  end;
  unfold writeHeader, kFrameHeaderSize, kMsgTypeSize; cbn [expectedPayloadSize];
  repeat put_some; eauto.

Lemma loginAck_fits m : is_Some (encodeLoginAck m (replicate 64 0)).
Proof. unfold encodeLoginAck. reply_fits. Qed.

Lemma loginReject_fits m : is_Some (encodeLoginReject m (replicate 16 0)).
Proof. unfold encodeLoginReject. reply_fits. Qed.

Lemma execReport_fits m : is_Some (encodeExecReport m (replicate 128 0)).
Proof. unfold encodeExecReport. reply_fits. Qed.

Lemma reject_fits m : is_Some (encodeReject m (replicate 32 0)).
Proof. unfold encodeReject. reply_fits. Qed.

Lemma heartbeat_fits m : is_Some (encodeHeartbeat m (replicate 32 0)).
Proof. unfold encodeHeartbeat. reply_fits. Qed.

(** Sending changes nothing but the write queue. *)
Lemma sendFrame_writes s data : ∃ w l, sendFrame s data = setWrites s w l.
Proof.
  unfold sendFrame, doWrite. destruct (cs_closed s) eqn:E.
  - exists (cs_writing s), (cs_pendingWrites s). by destruct s.
  - cbn. destruct (cs_writing s); cbn; [by eauto|]. destruct (cs_pendingWrites s); cbn; eauto.
Qed.

Lemma send_writes {M} (enc : M → list Z → option (list Z * Z)) size s m :
  is_Some (enc m (replicate size 0)) → ∃ w l, encodeAndSend enc size s m = Some (setWrites s w l).
Proof.
  intros [[b n] Hb]. unfold encodeAndSend. rewrite Hb. simpl_bind.
  destruct (sendFrame_writes s (take (Z.to_nat n) b)) as (w & l & ->). eauto.
Qed.

Lemma sendReject_writes s id r g : ∃ w l, sendReject s id r g = Some (setWrites s w l).
Proof. apply send_writes, reject_fits. Qed.
Lemma sendLoginReject_writes s r : ∃ w l, sendLoginReject s r = Some (setWrites s w l).
Proof. apply send_writes, loginReject_fits. Qed.
Lemma sendNewAck_writes s cmd seq : ∃ w l, sendNewAckIfApplicable s cmd seq = Some (setWrites s w l).
Proof.
  unfold sendNewAckIfApplicable. destruct (cm_kind cmd); [apply send_writes, execReport_fits|..];
    exists (cs_writing s), (cs_pendingWrites s); by destruct s.
Qed.

(** ** One message *)

Definition phase (s : ClientSession) : option (Z * Z) :=
  match cs_state s with AwaitingLogin => None | _ => Some (cs_participantId s, cs_lastClientSeq s) end.

Definition pendingOrders (s : ClientSession) : list Order :=
  match cs_pending s with Some p => [(pd_shard p, pd_kind p, pd_cmd p)] | None => [] end.

(** An open session is either ready for the next message, or keeps the one command
    that found the ring full and does not read. *)
Record calm (s : ClientSession) : Prop := {
  cl_open : cs_closed s = false;
  cl_state : cs_state s ≠ Closing;
  cl_reads : cs_readSuspended s = false;
  cl_free : cs_pending s = None;
  cl_seq : in_u64 (cs_lastClientSeq s);
  cl_pid : in_i64 (cs_participantId s)
}.

Record waiting (shards : nat) (s : ClientSession) (p : Pending) : Prop := {
  wt_open : cs_closed s = false;
  wt_state : cs_state s ≠ Closing;
  wt_suspended : cs_readSuspended s = true;
  wt_idle : cs_reading s = false;
  wt_pending : cs_pending s = Some p;
  wt_shard : 0 <= pd_shard p < Z.of_nat shards;
  wt_command : command_i64 (pd_cmd p);
  wt_seq : in_u64 (cs_lastClientSeq s);
  wt_pid : in_i64 (cs_participantId s)
}.

Section proofs.
Context {W : Type} {P : SubmitPort W} {L : SubmitLaws W}.
Context (creds : Credentials) (shardIds : list Z) (me : nat).

#[local] Existing Instance loggedPort.

Abbreviation server := (Server (W * list Call)).

Definition log (sv : server) : list Call := (sv_port sv).2.

Definition orders (sv : server) (s : ClientSession) : list Order :=
  sequenced (log sv) ++ pendingOrders s.

Definition allSequenced (sv : server) : Prop := Forall (λ a, isSequenced a = true) (log sv).

Definition serverOk (sv : server) : Prop :=
  portOk (length shardIds) (sv_port sv).1 ∧ length (sv_routes sv) = length shardIds.

(** Before the login a session has no participant, no number and no order. *)
Definition fresh (sv : server) (s : ClientSession) : Prop :=
  phase s = None → cs_participantId s = 0 ∧ cs_lastClientSeq s = 0 ∧ orders sv s = [].

(** Where a message leaves a session that was ready for it. *)
Definition advanced (sv : server) (s : ClientSession) (m : DecodedMessage) (sv' : server)
    (s' : ClientSession) : Prop :=
  serverOk sv' ∧ cs_decoder s' = cs_decoder s ∧ cs_reading s' = cs_reading s ∧
  ((cs_closed s' = true ∧ orders sv' s' = orders sv s) ∨
   ∃ k, orders sv' s' = orders sv s ++ k ∧
     (∀ ms, admittedFrom creds shardIds (phase s) (m :: ms)
            = k ++ admittedFrom creds shardIds (phase s') ms) ∧
     (fresh sv s → fresh sv' s') ∧
     (calm s' ∧ (allSequenced sv → allSequenced sv') ∨
      (∃ p, waiting (length shardIds) s' p) ∧ ¬ allSequenced sv')).

Lemma sequenced_snoc l idx kind cmd o :
  sequenced (l ++ [mkCall idx kind cmd o])
  = sequenced l ++ if bool_decide (o = Sequenced) then [(idx, kind, cmd)] else [].
Proof.
  unfold sequenced, isSequenced. rewrite filter_app, fmap_app. f_equal.
  destruct o; reflexivity.
Qed.

Lemma registerRoute_ok sv idx id n :
  serverOk sv → 0 <= idx < Z.of_nat (length shardIds) →
  ∃ sv', registerRoute sv idx id me n = Some sv' ∧ serverOk sv' ∧ sv_port sv' = sv_port sv.
Proof.
  intros [Hp Hl] Hi. unfold registerRoute.
  rewrite <- Hl in Hi. destruct (aget_in _ _ Hi) as [t ->]. simpl_bind.
  rewrite aset_in by done. simpl_bind. eexists. split; [done|].
  split; [|done]. split; [done|]. cbn. by rewrite length_insert.
Qed.

Lemma eraseRoute_ok sv idx id :
  serverOk sv → 0 <= idx < Z.of_nat (length shardIds) →
  ∃ sv', eraseRoute sv idx id = Some sv' ∧ serverOk sv' ∧ sv_port sv' = sv_port sv.
Proof.
  intros [Hp Hl] Hi. unfold eraseRoute.
  rewrite <- Hl in Hi. destruct (aget_in _ _ Hi) as [t ->]. simpl_bind.
  rewrite aset_in by done. simpl_bind. eexists. split; [done|].
  split; [|done]. split; [done|]. cbn. by rewrite length_insert.
Qed.

Lemma submitOn_ok sv idx kind cmd :
  serverOk sv → 0 <= idx < Z.of_nat (length shardIds) → command_i64 cmd →
  ∃ r sv', submitOn sv idx kind cmd = Some (r, sv') ∧ serverOk sv' ∧
    log sv' = log sv ++ [mkCall idx kind cmd (ts_outcome r)].
Proof.
  intros [Hp Hl] Hi Hcmd. unfold submitOn. cbn [portTrySubmit loggedPort]. unfold loggedSubmit.
  destruct (port_answers (length shardIds) _ idx kind cmd Hp Hi Hcmd) as (r & w' & -> & Hw').
  simpl_bind. eexists r, _. split; [done|]. split; [by split|done].
Qed.

Lemma durabilityFailure_ok sv s cmd idx :
  serverOk sv → 0 <= idx < Z.of_nat (length shardIds) →
  ∃ sv' s', durabilityFailure sv s cmd idx = Some (sv', s') ∧ serverOk sv' ∧ sv_port sv' = sv_port sv ∧
    cs_decoder s' = cs_decoder s ∧ cs_reading s' = cs_reading s ∧ cs_closed s' = true ∧
    cs_pending s' = cs_pending s.
Proof.
  intros Hsv Hi. unfold durabilityFailure.
  destruct (eraseRoute_ok sv idx (routedId cmd) Hsv Hi) as (sv' & -> & Hsv' & Hp).
  simpl_bind. destruct (sendReject_writes s (routedId cmd) EngineReject 0) as (w & l & ->).
  simpl_bind. eexists _, _. split; [done|]. split; [done|]. split; [done|].
  unfold closeSession. cbn. by destruct (cs_closed s) eqn:E; cbn; rewrite ?E.
Qed.

(** Submitting the command of a message the sequence check let through. *)
Lemma submitOrPend_ok sv s cmd idx :
  serverOk sv → 0 <= idx < Z.of_nat (length shardIds) → command_i64 cmd → calm s → cs_reading s = false →
  ∃ sv' s', submitOrPend me sv s cmd idx = Some (sv', s') ∧ serverOk sv' ∧
    cs_decoder s' = cs_decoder s ∧ cs_reading s' = cs_reading s ∧
    ((cs_closed s' = true ∧ orders sv' s' = orders sv s) ∨
     orders sv' s' = orders sv s ++ [(idx, cm_kind cmd, cmd)] ∧ phase s' = phase s ∧
     (calm s' ∧ (allSequenced sv → allSequenced sv') ∨
      (∃ p, waiting (length shardIds) s' p) ∧ ¬ allSequenced sv')).
Proof.
  intros Hsv Hi Hcmd [C1 C2 C3 C4 C5 C6] Hr. unfold submitOrPend.
  destruct (registerRoute_ok sv idx (routedId cmd) (cs_lastClientSeq s) Hsv Hi) as (sv1 & -> & Hsv1 & Hp1).
  simpl_bind.
  destruct (submitOn_ok sv1 idx (cm_kind cmd) cmd Hsv1 Hi Hcmd) as (r & sv2 & -> & Hsv2 & Hlog).
  simpl_bind. unfold orders, allSequenced.
  replace (log sv1) with (log sv) in Hlog by (unfold log; by rewrite Hp1).
  destruct (ts_outcome r).
  - destruct (sendNewAck_writes s cmd (ts_seq r)) as (w & l & ->). simpl_bind.
    eexists _, _. split; [done|]. split; [done|]. split; [done|]. split; [done|]. right.
    unfold pendingOrders. cbn [cs_pending setWrites]. rewrite Hlog, sequenced_snoc, C4. cbn.
    rewrite !app_nil_r. split; [done|]. split; [done|]. left. split; [by split|].
    intros H. apply Forall_app. split; [done|]. by constructor.
  - eexists _, _. split; [done|]. split; [done|]. split; [done|]. split; [done|]. right.
    unfold pendingOrders. cbn [cs_pending setSuspended setPending pd_shard pd_kind pd_cmd].
    rewrite Hlog, sequenced_snoc, C4. cbn. rewrite !app_nil_r. split; [done|]. split; [done|].
    right. split; [by eexists; split|]. rewrite Forall_app. intros [_ H]. by inversion H.
  - destruct (durabilityFailure_ok sv2 s cmd idx Hsv2 Hi) as (sv3 & s' & -> & ? & Hp3 & ? & ? & ? & Hpd).
    eexists _, _. split; [done|]. split; [done|]. split; [done|]. split; [done|]. left. split; [done|].
    unfold pendingOrders. rewrite Hpd. f_equal.
    replace (log sv3) with (log sv2) by (unfold log; by rewrite Hp3).
    rewrite Hlog, sequenced_snoc. cbn. by rewrite app_nil_r.
Qed.

Lemma shard_index inst :
  shardIndexOf shardIds inst <? 0 = false → 0 <= shardIndexOf shardIds inst < Z.of_nat (length shardIds).
Proof.
  intros H. destruct (indexFrom_spec shardIds 0 inst) as [[E _]|(j & E & Hj & _)];
    unfold shardIndexOf in *; rewrite E in *; [lia|]. apply lookup_lt_Some in Hj. lia.
Qed.

(** An order message after the login. *)
Lemma handleOrder_ok sv s m pid n orderId inst cmd :
  serverOk sv → calm s → cs_reading s = false → phase s = Some (pid, cs_lastClientSeq s) →
  orderOf pid m = Some (n, inst, cmd) → in_u64 n → command_i64 cmd →
  ∃ sv' s', handleOrder shardIds me sv s n orderId inst cmd = Some (sv', s') ∧ advanced sv s m sv' s'.
Proof.
  intros Hsv Hs Hr Hph Ho Hn Hcmd. pose proof Hs as [C1 C2 C3 C4 C5 C6].
  unfold handleOrder, checkClientSeq, advanced. rewrite Hph. unfold in_u64 in *.
  destruct (n <=? cs_lastClientSeq s) eqn:E1.
  - destruct (sendReject_writes s orderId DuplicateSeq 0) as (w & l & ->). cbn [mbind option_bind negb].
    eexists _, _. split; [done|]. split; [done|]. split; [done|]. split; [done|]. right. exists [].
    unfold orders. cbn [cs_pending setWrites pendingOrders]. rewrite app_nil_r.
    split; [done|]. split; [|split; [done|left; split; [by split|done]]]. intros ms. cbn [admittedFrom]. rewrite Ho, E1.
    replace (phase (setWrites s w l)) with (phase s) by done.
    rewrite Hph. destruct (n =? cs_lastClientSeq s + 1) eqn:E2; [lia|done].
  - u64_small.
    destruct (cs_lastClientSeq s + 1 <? n) eqn:E2.
    + destruct (sendReject_writes s orderId SequenceGap 0) as (w & l & ->). cbn [mbind option_bind negb].
      eexists _, _. split; [done|]. unfold closeSession. cbn [cs_closed setWrites]. rewrite C1. cbn.
      split; [done|]. split; [done|]. split; [done|]. left. by split.
    + assert (n = cs_lastClientSeq s + 1) as Hnx by lia. cbn [mbind option_bind negb].
      assert (Hc : calm (setClientSeq s n)) by (split; cbn; done || unfold in_u64; lia).
      assert (Hph' : phase (setClientSeq s n) = Some (pid, n)).
      { unfold phase in *. cbn. destruct (cs_state s); congruence. }
      assert (Hadm : ∀ ms, admittedFrom creds shardIds (Some (pid, cs_lastClientSeq s)) (m :: ms)
                = placed shardIds inst cmd ++ admittedFrom creds shardIds (Some (pid, n)) ms).
      { intros ms. cbn [admittedFrom]. rewrite Ho. by destruct (n =? _) eqn:E; [|lia]. }
      destruct (shardIndexOf shardIds inst <? 0) eqn:E3.
      * destruct (sendReject_writes (setClientSeq s n) orderId EngineReject 0) as (w & l & ->).
        simpl_bind. eexists _, _. split; [done|]. split; [done|]. split; [done|].
        split; [done|]. right. exists []. unfold orders. rewrite app_nil_r.
        split; [done|]. split; [|split; [intros _ Hno; unfold phase in *; cbn in *; congruence|left; split; [|done]]].
        -- intros ms. rewrite Hadm. unfold placed. by rewrite E3, <- Hph'.
        -- destruct Hc. by split.
      * destruct (submitOrPend_ok sv (setClientSeq s n) cmd _ Hsv (shard_index _ E3) Hcmd Hc Hr)
          as (sv' & s' & -> & Hsv' & Hd & Hrd & Hor).
        eexists _, _. split; [done|]. split; [done|]. split; [done|]. split; [done|].
        destruct Hor as [Hor|(Hk & Hp & Hor)]; [by left|right].
        eexists. split; [exact Hk|]. split; [|split; [intros _ Hno; congruence|done]]. intros ms. rewrite Hadm, Hp, Hph'.
        unfold placed. by rewrite E3.
Qed.

Lemma closed_advanced sv s m s' :
  serverOk sv → cs_closed s = false → cs_decoder s' = cs_decoder s → cs_reading s' = cs_reading s →
  cs_closed s' = false → cs_pending s' = cs_pending s → advanced sv s m sv (closeSession s').
Proof.
  intros Hsv Ho Hd Hr Hc Hp. unfold advanced, closeSession, orders, pendingOrders. rewrite Hc. cbn.
  rewrite Hp. split_and!; try done. by left.
Qed.

Lemma beforeLogin_ok c sv s m :
  serverOk sv → calm s → cs_state s = AwaitingLogin → valid_msg c m →
  ∃ sv' s', beforeLogin creds sv s m = Some (sv', s') ∧ advanced sv s m sv' s' ∧
    cs_readSuspended s' = false.
Proof.
  intros Hsv Hs Hst Hv. pose proof Hs as [C1 C2 C3 C4 C5 C6].
  assert (Hph : phase s = None) by (unfold phase; by rewrite Hst).
  assert (Hrej : ∃ sv' s', (s ← sendLoginReject s NotAuthenticated; Some (sv, closeSession s)) = Some (sv', s') ∧
            advanced sv s m sv' s' ∧ cs_readSuspended s' = false).
  { destruct (sendLoginReject_writes s NotAuthenticated) as (w & l & ->). simpl_bind.
    eexists _, _. split; [done|]. split; [by apply closed_advanced|]. unfold closeSession. cbn. by rewrite C1. }
  destruct m as [m|m|m|m|m|m|m|m|m]; cbn [beforeLogin]; try exact Hrej; clear Hrej.
  - unfold handleLogin. destruct (authenticate creds _ _) eqn:Ea; cbn [negb].
    + edestruct (send_writes encodeLoginAck 64
        (setLogin s Authenticated (lg_participantId m) (lg_clientSeqNum m))) as (w & l & ->);
        [apply loginAck_fits|]. simpl_bind.
      eexists _, _. split; [done|]. split; [|done]. unfold advanced, orders. rewrite Hph.
      split; [done|]. split; [done|]. split; [done|]. right. exists []. cbn [app]. rewrite app_nil_r.
      split; [done|]. split; [intros ms; cbn [admittedFrom]; by rewrite Ea|].
      split; [done|]. left. split; [|done]. destruct Hv as (Hpid & _ & _ & Hseq). by split.
    + destruct (sendLoginReject_writes s AuthFailed) as (w & l & ->). simpl_bind.
      eexists _, _. split; [done|]. split; [by apply closed_advanced|]. unfold closeSession. cbn. by rewrite C1.
  - eexists _, _. split; [done|]. split; [|done]. unfold advanced, orders. rewrite Hph. split_and!; [done..|].
    right. exists []. rewrite app_nil_r. split; [done|]. split; [|split; [done|left; split; [by split|done]]].
    unfold phase. cbn. by rewrite Hst.
Qed.

Lemma order_i64 c m pid n inst cmd :
  valid_msg c m → orderOf pid m = Some (n, inst, cmd) → in_i64 pid → in_u64 n ∧ command_i64 cmd.
Proof.
  assert (H0 : in_i64 0) by done. unfold command_i64.
  destruct m; cbn [orderOf valid_msg]; intros Hv [= <- <- <-] Hpid; cbn; destruct_and?; by split_and!.
Qed.

Lemma afterLogin_ok c sv s m :
  serverOk sv → calm s → cs_reading s = false → cs_state s ≠ AwaitingLogin → valid_msg c m →
  ∃ sv' s', afterLogin shardIds me sv s m = Some (sv', s') ∧ advanced sv s m sv' s'.
Proof.
  intros Hsv Hs Hr Hst Hv. pose proof Hs as [C1 C2 C3 C4 C5 C6].
  assert (Hph : phase s = Some (cs_participantId s, cs_lastClientSeq s)).
  { unfold phase. by destruct (cs_state s). }
  assert (Hcl : ∃ sv' s', Some (sv, closeSession s) = Some (sv', s') ∧ advanced sv s m sv' s').
  { eexists _, _. split; [done|]. by apply closed_advanced. }
  destruct m as [m|m|m|m|m|m|m|m|m]; cbn [afterLogin]; try exact Hcl; clear Hcl.
  - destruct (sendLoginReject_writes s AlreadyAuthenticated) as (w & l & ->). simpl_bind.
    eexists _, _. split; [done|]. by apply closed_advanced.
  - destruct (order_i64 c _ _ _ _ _ Hv eq_refl C6). by eapply handleOrder_ok.
  - destruct (order_i64 c _ _ _ _ _ Hv eq_refl C6). by eapply handleOrder_ok.
  - destruct (order_i64 c _ _ _ _ _ Hv eq_refl C6). by eapply handleOrder_ok.
  - eexists _, _. split; [done|]. unfold advanced, orders. rewrite Hph. split_and!; [done..|].
    right. exists []. rewrite app_nil_r. split; [done|]. split; [|split; [done|left; split; [by split|done]]].
    intros ms. cbn [admittedFrom orderOf app]. by rewrite <- Hph.
Qed.

(** *** A message on a closed session *)

(** The handler of a read that completed before the session was closed still runs.  It finds the
    state [Closing], which [processDecoded] treats as logged in, and ends after one message. *)
Record late (s : ClientSession) : Prop := {
  la_closed : cs_closed s = true;
  la_state : cs_state s = Closing;
  la_free : cs_pending s = None;
  la_seq : in_u64 (cs_lastClientSeq s);
  la_pid : in_i64 (cs_participantId s)
}.

(** What the message adds to the orders. *)
Definition lateOrders (s : ClientSession) (m : DecodedMessage) : list Order :=
  match orderOf (cs_participantId s) m with
  | Some (n, inst, cmd) => if n =? cs_lastClientSeq s + 1 then placed shardIds inst cmd else []
  | None => []
  end.

Lemma submitOrPend_late sv s cmd idx :
  serverOk sv → 0 <= idx < Z.of_nat (length shardIds) → command_i64 cmd →
  cs_closed s = true → cs_pending s = None →
  ∃ sv' s', submitOrPend me sv s cmd idx = Some (sv', s') ∧ serverOk sv' ∧
    cs_closed s' = true ∧ cs_reading s' = cs_reading s ∧
    (orders sv' s' = orders sv s ∨ orders sv' s' = orders sv s ++ [(idx, cm_kind cmd, cmd)]).
Proof.
  intros Hsv Hi Hcmd Hcl Hp. unfold submitOrPend.
  destruct (registerRoute_ok sv idx (routedId cmd) (cs_lastClientSeq s) Hsv Hi) as (sv1 & -> & Hsv1 & Hp1).
  simpl_bind.
  destruct (submitOn_ok sv1 idx (cm_kind cmd) cmd Hsv1 Hi Hcmd) as (r & sv2 & -> & Hsv2 & Hlog).
  simpl_bind. unfold orders, pendingOrders. rewrite Hp, app_nil_r.
  replace (log sv1) with (log sv) in Hlog by (unfold log; by rewrite Hp1).
  destruct (ts_outcome r).
  - destruct (sendNewAck_writes s cmd (ts_seq r)) as (w & l & ->). simpl_bind.
    eexists _, _. split; [done|]. cbn. rewrite Hlog, sequenced_snoc, Hp, app_nil_r. cbn. by split_and!; [..|right].
  - eexists _, _. split; [done|]. cbn. rewrite Hlog, sequenced_snoc. cbn. rewrite app_nil_r. by split_and!; [..|right].
  - destruct (durabilityFailure_ok sv2 s cmd idx Hsv2 Hi) as (sv3 & s' & -> & ? & Hp3 & _ & ? & ? & Hpd).
    eexists _, _. split; [done|]. rewrite Hpd, Hp, app_nil_r. split_and!; [done..|]. left.
    replace (log sv3) with (log sv2) by (unfold log; by rewrite Hp3).
    rewrite Hlog, sequenced_snoc. cbn. by rewrite app_nil_r.
Qed.

Lemma handleOrder_late sv s m n orderId inst cmd :
  serverOk sv → late s → orderOf (cs_participantId s) m = Some (n, inst, cmd) → in_u64 n → command_i64 cmd →
  ∃ sv' s', handleOrder shardIds me sv s n orderId inst cmd = Some (sv', s') ∧ serverOk sv' ∧
    cs_closed s' = true ∧ cs_reading s' = cs_reading s ∧
    (orders sv' s' = orders sv s ∨ orders sv' s' = orders sv s ++ lateOrders s m).
Proof.
  intros Hsv [L1 L2 L3 L4 L5] Ho Hn Hcmd. unfold handleOrder, checkClientSeq, lateOrders. rewrite Ho. unfold in_u64 in *.
  destruct (n <=? cs_lastClientSeq s) eqn:E1.
  { destruct (sendReject_writes s orderId DuplicateSeq 0) as (w & l & ->). cbn [mbind option_bind negb].
    eexists _, _. split; [done|]. by split_and!; [..|left]. }
  u64_small. destruct (cs_lastClientSeq s + 1 <? n) eqn:E2.
  { destruct (sendReject_writes s orderId SequenceGap 0) as (w & l & ->). cbn [mbind option_bind negb].
    eexists _, _. split; [done|]. unfold closeSession. cbn [cs_closed setWrites]. rewrite L1. by split_and!; [..|left]. }
  cbn [mbind option_bind negb]. destruct (n =? cs_lastClientSeq s + 1) eqn:E4; [|lia]. unfold placed.
  destruct (shardIndexOf shardIds inst <? 0) eqn:E3.
  { destruct (sendReject_writes (setClientSeq s n) orderId EngineReject 0) as (w & l & ->). simpl_bind.
    eexists _, _. split; [done|]. by split_and!; [..|left]. }
  apply (submitOrPend_late sv (setClientSeq s n) cmd _ Hsv (shard_index _ E3) Hcmd L1 L3).
Qed.

Lemma afterLogin_late c sv s m :
  serverOk sv → late s → valid_msg c m →
  ∃ sv' s', afterLogin shardIds me sv s m = Some (sv', s') ∧ serverOk sv' ∧
    cs_closed s' = true ∧ cs_reading s' = cs_reading s ∧
    (orders sv' s' = orders sv s ∨ orders sv' s' = orders sv s ++ lateOrders s m).
Proof.
  intros Hsv Hs Hv. pose proof Hs as [L1 L2 L3 L4 L5].
  assert (Hcl : ∀ s', sv = sv → s' = closeSession s → serverOk sv ∧ cs_closed s' = true ∧
    cs_reading s' = cs_reading s ∧ (orders sv s' = orders sv s ∨ orders sv s' = orders sv s ++ lateOrders s m)).
  { intros s' _ ->. unfold closeSession. rewrite L1. by split_and!; [..|left]. }
  destruct m as [m|m|m|m|m|m|m|m|m]; cbn [afterLogin];
    try (eexists _, _; split; [done|]; by apply Hcl); clear Hcl.
  - destruct (sendLoginReject_writes s AlreadyAuthenticated) as (w & l & ->). simpl_bind.
    eexists _, _. split; [done|]. unfold closeSession. cbn [cs_closed setWrites]. rewrite L1. by split_and!; [..|left].
  - destruct (order_i64 c _ _ _ _ _ Hv eq_refl L5). by eapply handleOrder_late.
  - destruct (order_i64 c _ _ _ _ _ Hv eq_refl L5). by eapply handleOrder_late.
  - destruct (order_i64 c _ _ _ _ _ Hv eq_refl L5). by eapply handleOrder_late.
  - eexists _, _. split; [done|]. by split_and!; [..|left].
Qed.

(** ** The read loop *)

Context (c : DecoderConfig) (Hc : instruments_ok (dc_instruments c)).

Definition received (bs : list Z) : list DecodedMessage := (parseStream (PC := frame_codec c) bs).1.

Definition buffered (s : ClientSession) : list Z := pending (fd_stream (cs_decoder s)).

(** What is still to be admitted is in the buffer, or yet to come. *)
Definition caughtUp (bs : list Z) (sv : server) (s : ClientSession) : Prop :=
  ∃ seen, (∀ more, bytes more → received (bs ++ more) = seen ++ received (buffered s ++ more)) ∧
    ∀ ms, admitted creds shardIds (seen ++ ms) = orders sv s ++ admittedFrom creds shardIds (phase s) ms.

Definition decoderOk (s : ClientSession) : Prop :=
  fd_config (cs_decoder s) = c ∧ rs_wf (fd_stream (cs_decoder s)) ∧
  rs_terminal (fd_stream (cs_decoder s)) = false.

(** An open session between two events. *)
Definition live (bs : list Z) (sv : server) (s : ClientSession) : Prop :=
  decoderOk s ∧ caughtUp bs sv s ∧ fresh sv s ∧ (calm s ∨ ∃ p, waiting (length shardIds) s p) ∧
  (allSequenced sv → calm s ∧ parse1 (PC := frame_codec c) (buffered s) = PMore).

(** The one order that can be submitted although it is not admitted: the client has sent it in
    place of a login, numbered 1, and the session was closed before its read was handled. *)
Definition stray (bs : list Z) (os : list Order) : Prop :=
  ∃ m inst cmd, m ∈ received bs ∧ orderOf 0 m = Some (1, inst, cmd) ∧ os = placed shardIds inst cmd ∧
    admitted creds shardIds (received bs) = [].

Definition ended (bs : list Z) (sv : server) (s : ClientSession) : Prop :=
  cs_closed s = true ∧ cs_reading s = false ∧
  (orders sv s `prefix_of` admitted creds shardIds (received bs) ∨ stray bs (orders sv s)).

(** A session before it was closed, in state [st]. *)
Definition reopen (s : ClientSession) (st : State) : ClientSession :=
  mkSession (cs_decoder s) (cs_reading s) (cs_writing s) (cs_pendingWrites s) st (cs_participantId s)
    (cs_lastClientSeq s) (cs_readSuspended s) false (cs_pending s) (cs_missedHeartbeats s).

(** Closed with a read outstanding. *)
Definition closing (bs : list Z) (sv : server) (s : ClientSession) : Prop :=
  cs_closed s = true ∧ cs_state s = Closing ∧ cs_reading s = true ∧ ∃ st, live bs sv (reopen s st).

(** The invariant of a session between two events. *)
Definition settled (bs : list Z) (sv : server) (s : ClientSession) : Prop :=
  serverOk sv ∧ (ended bs sv s ∨ closing bs sv s ∨ live bs sv s).

Lemma caughtUp_now bs sv s :
  caughtUp bs sv s →
  admitted creds shardIds (received bs) = orders sv s ++ admittedFrom creds shardIds (phase s) (received (buffered s)).
Proof.
  intros (seen & H1 & H2). specialize (H1 [] (List.Forall_nil _)). rewrite !app_nil_r in H1. by rewrite H1, H2.
Qed.

Lemma caughtUp_prefix bs sv s : caughtUp bs sv s → orders sv s `prefix_of` admitted creds shardIds (received bs).
Proof. intros H. rewrite (caughtUp_now _ _ _ H). by apply prefix_app_r. Qed.

Lemma received_cons s m rest more :
  rs_wf (fd_stream (cs_decoder s)) → bytes more →
  parse1 (PC := frame_codec c) (buffered s) = PMsg m rest →
  received (buffered s ++ more) = m :: received (rest ++ more) ∧ valid_msg c m.
Proof using Hc.
  intros Hw Hm Hp. assert (Hb : bytes (buffered s)) by (apply Forall_take; apply Hw).
  pose proof (parse1_app (PL := frame_laws c Hc) (buffered s) more Hb Hm) as Happ. rewrite Hp in Happ.
  split; [unfold received; by rewrite parseStream_unfold, Happ|].
  pose proof (parseStream_valid c Hc (buffered s) Hb) as Hv. rewrite parseStream_unfold, Hp in Hv.
  by inversion Hv.
Qed.

Lemma caughtUp_step bs sv s m rest sv' s' k :
  rs_wf (fd_stream (cs_decoder s)) → caughtUp bs sv s →
  parse1 (PC := frame_codec c) (buffered s) = PMsg m rest → buffered s' = rest →
  orders sv' s' = orders sv s ++ k →
  (∀ ms, admittedFrom creds shardIds (phase s) (m :: ms) = k ++ admittedFrom creds shardIds (phase s') ms) →
  caughtUp bs sv' s'.
Proof using Hc.
  intros Hw (seen & H1 & H2) Hp Hb Ho Ha. exists (seen ++ [m]). split.
  - intros more Hm. rewrite H1 by done. destruct (received_cons s m rest more Hw Hm Hp) as [-> _].
    by rewrite Hb, <- app_assoc.
  - intros ms. rewrite <- app_assoc. cbn [app]. by rewrite H2, Ha, Ho, app_assoc.
Qed.

Lemma caughtUp_orders bs sv s sv' s' :
  caughtUp bs sv s → orders sv' s' = orders sv s → phase s' = phase s → buffered s' = buffered s →
  caughtUp bs sv' s'.
Proof. intros (seen & H1 & H2) Ho Hp Hb. exists seen. by rewrite Ho, Hp, Hb. Qed.

(** Taking a message off the buffer changes only the decoder. *)
Lemma advanced_take sv s d m sv' s' :
  advanced sv (setDecoder s d) m sv' s' →
  serverOk sv' ∧ cs_decoder s' = d ∧ cs_reading s' = cs_reading s ∧
  ((cs_closed s' = true ∧ orders sv' s' = orders sv s) ∨
   ∃ k, orders sv' s' = orders sv s ++ k ∧
     (∀ ms, admittedFrom creds shardIds (phase s) (m :: ms) = k ++ admittedFrom creds shardIds (phase s') ms) ∧
     (fresh sv s → fresh sv' s') ∧
     (calm s' ∧ (allSequenced sv → allSequenced sv') ∨
      (∃ p, waiting (length shardIds) s' p) ∧ ¬ allSequenced sv')).
Proof. exact id. Qed.

(** One turn of the loop on a complete frame. *)
Lemma processDecoded_message fuel sv s m rest :
  serverOk sv → decoderOk s → calm s → cs_reading s = false →
  parse1 (PC := frame_codec c) (buffered s) = PMsg m rest →
  ∃ sv' s' d, processDecoded creds shardIds me (S fuel) sv s
      = (if cs_closed s' || cs_readSuspended s' then Some (sv', s')
         else processDecoded creds shardIds me fuel sv' s') ∧
    advanced sv (setDecoder s d) m sv' s' ∧
    decoderOk (setDecoder s d) ∧ buffered (setDecoder s d) = rest.
Proof using Hc.
  intros Hsv (Hcf & Hw & Ht) Hs Hr E1. cbn [processDecoded]. unfold decoderNext. rewrite Hcf.
  destruct (next_ok (PC := frame_codec c) (PL := frame_laws c Hc) _ Hw Ht) as [d' Hn].
  change (pending (fd_stream (cs_decoder s))) with (buffered s) in Hn. rewrite E1 in Hn.
  destruct Hn as (-> & Hw' & Ht' & Hrest). simpl_bind.
  destruct (received_cons s m rest [] Hw (List.Forall_nil _) E1) as [_ Hv].
  set (d1 := mkFrameDecoder c d'). set (s1 := setDecoder s d1).
  assert (Hs1 : calm s1) by (by destruct Hs; split).
  case_bool_decide as Hst.
  - destruct (beforeLogin_ok c sv s1 m Hsv Hs1 Hst Hv) as (sv' & s' & -> & Ha & Hrs).
    simpl_bind. exists sv', s', d1. rewrite Hrs, orb_false_r. split; [done|]. split; [done|].
    by split.
  - destruct (afterLogin_ok c sv s1 m Hsv Hs1 Hr Hst Hv) as (sv' & s' & -> & Ha).
    simpl_bind. exists sv', s', d1. split; [done|]. split; [done|]. by split.
Qed.

Lemma processDecoded_end fuel (sv : server) s :
  decoderOk s →
  match parse1 (PC := frame_codec c) (buffered s) with
  | PMore => processDecoded creds shardIds me (S fuel) sv s = Some (sv, s)
  | PFail _ => ∃ d, processDecoded creds shardIds me (S fuel) sv s = Some (sv, closeSession (setDecoder s d))
  | PMsg _ _ => True
  end.
Proof using Hc.
  intros (Hcf & Hw & Ht). cbn [processDecoded]. unfold decoderNext. rewrite Hcf.
  destruct (next_ok (PC := frame_codec c) (PL := frame_laws c Hc) _ Hw Ht) as [d' Hn].
  change (pending (fd_stream (cs_decoder s))) with (buffered s) in Hn.
  destruct (parse1 (buffered s)) as [|e|m rest]; [|destruct Hn as [-> _]; cbn; by eauto|done].
  destruct Hn as [-> ->]. simpl_bind. rewrite <- Hcf. by destruct s as [[]].
Qed.

Lemma processDecoded_ok fuel bs sv s :
  serverOk sv → decoderOk s → calm s → cs_reading s = false → caughtUp bs sv s → fresh sv s →
  (length (buffered s) < fuel)%nat →
  ∃ sv' s', processDecoded creds shardIds me fuel sv s = Some (sv', s') ∧ serverOk sv' ∧
    (ended bs sv' s' ∨ live bs sv' s') ∧ cs_reading s' = false.
Proof using Hc.
  revert sv s. induction fuel as [|fuel IH]; intros sv s Hsv Hd Hs Hr Hcu Hfr Hf; [lia|].
  pose proof (processDecoded_end fuel sv s Hd) as Hend.
  destruct (parse1 (buffered s)) as [|e|m rest] eqn:E1.
  - rewrite Hend. eexists _, _. split; [done|]. split; [done|]. split; [|done]. right.
    split_and!; [done..|by left|done].
  - destruct Hend as [d ->]. eexists _, _. split; [done|]. unfold closeSession. cbn [cs_closed setDecoder].
    rewrite (cl_open s Hs). split; [done|]. split; [|done]. left. split_and!; [done..|].
    left. by apply caughtUp_prefix in Hcu.
  - destruct (processDecoded_message fuel sv s m rest Hsv Hd Hs Hr E1) as (sv1 & s1 & d & -> & Hadv & Hd1 & Hb1).
    clear Hend. apply advanced_take in Hadv as (Hsv1 & Hdec & Hr1 & Hadv). rewrite Hr in Hr1.
    assert (Hb : buffered s1 = rest) by (rewrite <- Hb1; unfold buffered; by rewrite Hdec).
    assert (Hd' : decoderOk s1) by (unfold decoderOk in *; by rewrite Hdec).
    destruct Hadv as [[Hcl Ho]|(k & Ho & Ha & Hfr1 & Hk)].
    { rewrite Hcl. cbn [orb]. eexists _, _. split; [done|]. split; [done|]. split; [|done]. left.
      split_and!; [done..|]. left. rewrite Ho. by apply caughtUp_prefix. }
    assert (Hcu1 : caughtUp bs sv1 s1) by (eapply caughtUp_step; try done; apply Hd).
    destruct Hk as [[Hs1 Has]|[[p Hp] Hna]].
    + rewrite (cl_open s1 Hs1), (cl_reads s1 Hs1). cbn [orb]. apply IH; try done; [by apply Hfr1|].
      rewrite Hb. apply parse1_rest in E1. lia.
    + rewrite (wt_suspended _ _ _ Hp), orb_true_r. eexists _, _. split; [done|]. split; [done|]. split; [|done].
      right. split_and!; [done|done|by apply Hfr1|by right; eauto|done].
Qed.

(** The loop on a closed session: at most one message is taken. *)
Lemma processDecoded_late fuel sv s :
  serverOk sv → decoderOk s → late s →
  ∃ sv' s', processDecoded creds shardIds me (S fuel) sv s = Some (sv', s') ∧ serverOk sv' ∧
    cs_closed s' = true ∧ cs_reading s' = cs_reading s ∧
    (orders sv' s' = orders sv s ∨
     ∃ m rest, parse1 (PC := frame_codec c) (buffered s) = PMsg m rest ∧
       orders sv' s' = orders sv s ++ lateOrders s m).
Proof using Hc.
  intros Hsv Hd Hs. pose proof (processDecoded_end fuel sv s Hd) as Hend.
  destruct (parse1 (buffered s)) as [|e|m rest] eqn:E1.
  - rewrite Hend. eexists _, _. split; [done|]. destruct Hs. by split_and!; [..|left].
  - destruct Hend as [d ->]. eexists _, _. split; [done|]. unfold closeSession. cbn [cs_closed setDecoder].
    rewrite (la_closed s Hs). destruct Hs. by split_and!; [..|left].
  - clear Hend. destruct Hd as (Hcf & Hw & Ht). cbn [processDecoded]. unfold decoderNext. rewrite Hcf.
    destruct (next_ok (PC := frame_codec c) (PL := frame_laws c Hc) _ Hw Ht) as [d' Hn].
    change (pending (fd_stream (cs_decoder s))) with (buffered s) in Hn. rewrite E1 in Hn.
    destruct Hn as (-> & _). simpl_bind. destruct (received_cons s m rest [] Hw (List.Forall_nil _) E1) as [_ Hv].
    rewrite bool_decide_eq_false_2 by (cbn; by rewrite (la_state s Hs)).
    edestruct (afterLogin_late c sv (setDecoder s (mkFrameDecoder c d')) m Hsv) as (sv' & s' & -> & Hsv' & Hcl & Hrd & Ho);
      [by destruct Hs; split|done|]. simpl_bind. rewrite Hcl. cbn [orb].
    eexists _, _. split; [done|]. split_and!; [done..|]. destruct Ho as [Ho|Ho]; [by left|right; by eauto].
Qed.

(** The order of a late message is admitted if the session had been logged in, and [stray] if not. *)
Lemma late_order bs sv s st m rest os :
  decoderOk s → caughtUp bs sv (reopen s st) → fresh sv (reopen s st) →
  parse1 (PC := frame_codec c) (buffered s) = PMsg m rest → os = orders sv s ++ lateOrders s m →
  os `prefix_of` admitted creds shardIds (received bs) ∨ stray bs os.
Proof using Hc.
  intros Hd Hcu Hfr E1 Ho. pose proof (caughtUp_now _ _ _ Hcu) as Hnow.
  destruct (received_cons (reopen s st) m rest [] (proj1 (proj2 Hd)) (List.Forall_nil _) E1) as [Hrc _].
  rewrite !app_nil_r in Hrc. rewrite Hrc in Hnow. change (orders sv (reopen s st)) with (orders sv s) in *.
  assert (Hin : m ∈ received bs).
  { destruct Hcu as (seen & Hse & _). specialize (Hse [] (List.Forall_nil _)). rewrite !app_nil_r, Hrc in Hse.
    rewrite Hse. set_solver. }
  subst os. unfold lateOrders. destruct (orderOf (cs_participantId s) m) as [[[n inst] cmd]|] eqn:Eo.
  2: { left. rewrite app_nil_r, Hnow. by apply prefix_app_r. }
  destruct (n =? cs_lastClientSeq s + 1) eqn:En.
  2: { left. rewrite app_nil_r, Hnow. by apply prefix_app_r. }
  destruct (phase (reopen s st)) as [[pid last]|] eqn:Eph.
  - assert (pid = cs_participantId s ∧ last = cs_lastClientSeq s) as [-> ->].
    { unfold phase in Eph. cbn in Eph. destruct st; by simplify_eq. }
    left. rewrite Hnow. cbn [admittedFrom]. rewrite Eo, En. apply prefix_app. by apply prefix_app_r.
  - destruct (Hfr Eph) as (Hp0 & Hl0 & Ho0). cbn in Hp0, Hl0. change (orders sv (reopen s st)) with (orders sv s) in Ho0.
    rewrite Hp0 in Eo. rewrite Hl0 in En. right. exists m, inst, cmd. rewrite Ho0 in *. cbn [app] in *.
    split; [done|]. split; [rewrite Eo; repeat f_equal; lia|]. split; [done|]. rewrite Hnow. by destruct m.
Qed.

(** ** The other handlers *)

(** What the invariant looks at. *)
Definition sameCore (s s' : ClientSession) : Prop :=
  cs_decoder s' = cs_decoder s ∧ cs_reading s' = cs_reading s ∧ cs_state s' = cs_state s ∧
  cs_participantId s' = cs_participantId s ∧ cs_lastClientSeq s' = cs_lastClientSeq s ∧
  cs_readSuspended s' = cs_readSuspended s ∧ cs_closed s' = cs_closed s ∧ cs_pending s' = cs_pending s.

Lemma live_core bs sv s s' : sameCore s s' → live bs sv s → live bs sv s'.
Proof.
  destruct s, s'. unfold sameCore. cbn. intros (-> & -> & -> & -> & -> & -> & -> & ->) (H1 & H2 & H3 & H4 & H5).
  split; [done|]. split; [done|]. split; [done|]. split.
  - destruct H4 as [[]|[p []]]; [left|right; exists p]; by split.
  - intros Ha. destruct (H5 Ha) as [[] Hp]. split; [by split|done].
Qed.

Lemma settled_core bs sv s s' : sameCore s s' → settled bs sv s → settled bs sv s'.
Proof.
  intros Hco [Hsv H]. split; [done|]. pose proof Hco as (C1 & C2 & C3 & C4 & C5 & C6 & C7 & C8).
  destruct H as [H|[(H1 & H2 & H3 & st & H)|H]]; [left|right; left|right; right; by eapply live_core].
  - unfold ended, orders, pendingOrders in *. by rewrite C2, C7, C8.
  - unfold closing. rewrite C2, C3, C7. split_and!; [done..|]. exists st. eapply live_core; [|exact H]. by unfold sameCore.
Qed.

Lemma live_is_open bs sv s : live bs sv s → cs_closed s = false ∧ cs_state s ≠ Closing.
Proof. by intros (_ & _ & _ & [[]|[p []]] & _). Qed.

Lemma settled_open bs sv s : settled bs sv s → cs_closed s = false → live bs sv s.
Proof. intros [_ [(? & _)|[(? & _)|H]]] ?; [congruence..|done]. Qed.

Lemma settled_close bs sv s : settled bs sv s → settled bs sv (closeSession s).
Proof.
  intros H. unfold closeSession. destruct (cs_closed s) eqn:E; [done|].
  pose proof (settled_open _ _ _ H E) as Hl. destruct H as [Hsv _]. split; [done|].
  destruct (cs_reading s) eqn:Er.
  - right. left. unfold closing. cbn. split_and!; [done..|]. exists (cs_state s). unfold reopen. cbn.
    replace (mkSession _ _ _ _ _ _ _ _ _ _ _) with s; [done|]. destruct s. cbn in *. by subst.
  - left. split_and!; [done..|]. left. apply (caughtUp_prefix bs sv s), Hl.
Qed.

Lemma closeSession_closed s : cs_closed (closeSession s) = true.
Proof. unfold closeSession. by destruct (cs_closed s) eqn:E. Qed.

Lemma live_doRead bs sv s : live bs sv s → live bs sv (doRead s).
Proof.
  intros H. unfold doRead. destruct (cs_closed s || cs_readSuspended s) eqn:E; [done|].
  destruct H as (H1 & H2 & H3 & H4 & H5). split; [done|]. split; [done|]. split; [done|]. split.
  - destruct H4 as [[]|[p [? ? Hs]]]; [left; by split|]. rewrite Hs, orb_true_r in E. done.
  - intros Ha. destruct (H5 Ha) as [[] Hp]. split; [by split|done].
Qed.

(** A read that fails, on an open or a closed session. *)
Lemma settled_failed bs sv s : settled bs sv s → settled bs sv (closeSession (setReading s false)).
Proof.
  intros [Hsv H]. split; [done|]. left. unfold closeSession. cbn [cs_closed setReading].
  destruct H as [(H1 & H2 & H)|[(H1 & _ & _ & st & H)|H]].
  - by rewrite H1.
  - rewrite H1. split_and!; [done..|]. left. apply (caughtUp_prefix bs sv (reopen s st)), H.
  - rewrite (proj1 (live_is_open _ _ _ H)). split_and!; [done..|]. left. apply (caughtUp_prefix bs sv s), H.
Qed.

(** Bytes fed to the decoder. *)
Lemma caughtUp_feed bs sv s data s' :
  caughtUp bs sv s → bytes data → orders sv s' = orders sv s → phase s' = phase s →
  buffered s' = buffered s ++ data → caughtUp (bs ++ data) sv s'.
Proof.
  intros (seen & H1 & H2) Hb Ho Hp Hbu. exists seen. split; [|by rewrite Ho, Hp].
  intros more Hm. rewrite <- app_assoc, H1 by by apply Forall_app. by rewrite Hbu, <- app_assoc.
Qed.

Lemma caughtUp_more bs sv s data :
  caughtUp bs sv s → bytes data → orders sv s `prefix_of` admitted creds shardIds (received (bs ++ data)).
Proof. intros (seen & H1 & H2) Hb. rewrite H1, H2 by done. by apply prefix_app_r. Qed.

(** Bytes read on an open session: fed to the decoder, and processed as far as the sequencers
    take them. *)
Lemma onRead_ok fuel bs sv s data :
  kCapacity < Z.of_nat fuel →
  serverOk sv → live bs sv s → cs_pending s = None → cs_reading s = false → bytes data →
  ∃ sv' s', onRead creds shardIds me fuel sv s data = Some (sv', s') ∧ settled (bs ++ data) sv' s' ∧
    (cs_closed s' = false → cs_reading s' = true ∨ cs_pending s' ≠ None).
Proof using Hc.
  intros Hfuel Hsv (Hd & Hcu & Hfr & Hs & _) Hp Hr Hb.
  destruct Hs as [[C1 C2 C3 C4 C5 C6]|[p []]]; [|congruence]. destruct Hd as (Hcf & Hw & Ht).
  unfold onRead, decoderFeed. cbn [cs_decoder setMissed].
  destruct (decide (rs_len (fd_stream (cs_decoder s)) + Z.of_nat (length data) <= kCapacity)) as [Hfit|Hfit].
  - destruct (feed_ok _ _ Hw Hb Ht Hfit) as (d' & -> & Hw' & Ht' & Hpd). cbn [mbind option_bind negb].
    set (s1 := setDecoder (setMissed s 0) (mkFrameDecoder (fd_config (cs_decoder s)) d')).
    destruct (processDecoded_ok fuel (bs ++ data) sv s1) as (sv' & s' & -> & Hsv' & Hst & Hr');
      [done|by split|by split|done|by eapply caughtUp_feed|done| |].
    + pose proof (pending_length _ Hw') as Hl. destruct Hw'. unfold buffered.
      cbn [s1 setDecoder cs_decoder fd_stream]. lia.
    + simpl_bind. eexists _, _. split; [done|]. destruct Hst as [Hst|Hst].
      { pose proof Hst as (Ec & _). rewrite Ec. split; [split; [done|by left]|congruence]. }
      destruct (live_is_open _ _ _ Hst) as [Ec _]. rewrite Ec. split; [split; [done|right; right; by apply live_doRead]|].
      intros _. unfold doRead. rewrite Ec. cbn [orb]. destruct Hst as (_ & _ & _ & Hst & _).
      destruct Hst as [[_ _ Hrs]|[p [_ _ Hrs _ Hpd']]]; rewrite Hrs; [by left|right; by rewrite Hpd'].
  - unfold feed. rewrite Ht. cbn [orb]. destruct (kCapacity <? _) eqn:E; [|lia]. cbn [mbind option_bind negb].
    eexists _, _. split; [done|]. rewrite closeSession_closed. split; [|done]. split; [done|]. left.
    unfold closeSession. cbn [cs_closed setDecoder setMissed]. rewrite C1. split_and!; [done..|]. left.
    by apply (caughtUp_more bs sv s data).
Qed.

(** Bytes delivered to a closed session. *)
Lemma onRead_late fuel bs sv s data :
  serverOk sv → closing bs sv s → bytes data →
  ∃ sv' s', onRead creds shardIds me (S fuel) sv (setReading s false) data = Some (sv', s') ∧
    settled (bs ++ data) sv' s' ∧ cs_closed s' = true.
Proof using Hc.
  intros Hsv (Hcl & Hst & Hr & st & Hl) Hb. pose proof Hl as ((Hcf & Hw & Ht) & Hcu & Hfr & Hs & _).
  destruct Hs as [[C1 C2 C3 C4 C5 C6]|[p [_ _ _ Hp _]]]; [|cbn in Hp; congruence]. cbn in *.
  unfold onRead, decoderFeed. cbn [cs_decoder setMissed setReading].
  destruct (decide (rs_len (fd_stream (cs_decoder s)) + Z.of_nat (length data) <= kCapacity)) as [Hfit|Hfit].
  - destruct (feed_ok _ _ Hw Hb Ht Hfit) as (d' & -> & Hw' & Ht' & Hpd). cbn [mbind option_bind negb].
    set (s1 := setDecoder (setMissed (setReading s false) 0) (mkFrameDecoder (fd_config (cs_decoder s)) d')).
    destruct (processDecoded_late fuel sv s1) as (sv' & s' & -> & Hsv' & Hcl' & Hr' & Ho); [done|by split|by split|].
    simpl_bind. rewrite Hcl'. eexists _, _. split; [done|]. split; [|done]. split; [done|]. left. split_and!; [done..|].
    destruct Ho as [->|(m & rest & Hm & Ho)].
    { left. by apply (caughtUp_more bs sv (reopen s st) data). }
    apply (late_order (bs ++ data) sv s1 st m rest); [by split|by eapply caughtUp_feed|done..].
  - unfold feed. rewrite Ht. cbn [orb]. destruct (kCapacity <? _) eqn:E; [|lia]. cbn [mbind option_bind negb].
    unfold closeSession. cbn [cs_closed setDecoder setMissed setReading]. rewrite Hcl.
    eexists _, _. split; [done|]. split; [|done]. split; [done|]. left. split_and!; [done..|]. left.
    by apply (caughtUp_more bs sv (reopen s st) data).
Qed.

(** An open session waits for bytes, or for room in a ring. *)
Definition listening (s : ClientSession) : Prop :=
  cs_closed s = false → cs_reading s = true ∨ cs_pending s ≠ None.

Lemma allSequenced_snoc sv sv' idx kind cmd o :
  log sv' = log sv ++ [mkCall idx kind cmd o] → allSequenced sv' → allSequenced sv ∧ o = Sequenced.
Proof.
  unfold allSequenced. intros -> [H1 H2]%Forall_app. split; [done|]. apply Forall_cons in H2 as [H2 _].
  by apply bool_decide_eq_true in H2.
Qed.

(** A retry round on the command a session keeps. *)
Lemma retryPending_ok bs sv s p :
  settled bs sv s → waiting (length shardIds) s p →
  ∃ sv' s', retryPending sv s = Some (sv', s') ∧ settled bs sv' s' ∧ listening s'.
Proof.
  intros Hs Hw. pose proof (settled_open _ _ _ Hs (wt_open _ _ _ Hw)) as (Hd & Hcu & Hfr & _ & Has).
  destruct Hs as [Hsv _].
  assert (Hna : ¬ allSequenced sv).
  { intros H. destruct (Has H) as [[] _]. destruct Hw. congruence. }
  pose proof Hw as [W1 W2 W3 W4 W5 W6 W7 W8 W9].
  unfold retryPending. rewrite W5, W1.
  destruct (submitOn_ok sv (pd_shard p) (pd_kind p) (pd_cmd p) Hsv W6 W7) as (r & sv1 & -> & Hsv1 & Hlog).
  simpl_bind. pose proof (allSequenced_snoc sv sv1 _ _ _ _ Hlog) as Hna1.
  assert (Hseq : orders sv s = sequenced (log sv) ++ [(pd_shard p, pd_kind p, pd_cmd p)]).
  { unfold orders, pendingOrders. by rewrite W5. }
  destruct (ts_outcome r) eqn:Eo; rewrite ?Eo in *.
  - destruct (sendNewAck_writes (setPending s None) (pd_cmd p) (ts_seq r)) as (w & l & ->).
    simpl_bind. eexists _, _. split; [done|].
    unfold resumeReading. cbn. rewrite W3, W1. cbn [negb orb doRead setSuspended cs_closed setWrites setPending].
    unfold doRead. cbn. rewrite W1. cbn. split; [|by left].
    split; [done|]. right. right.
    assert (Ho : ∀ s', cs_pending s' = None → orders sv1 s' = orders sv s).
    { intros s' Hs'. rewrite Hseq. unfold orders, pendingOrders. by rewrite Hs', Hlog, sequenced_snoc, app_nil_r. }
    split; [done|]. split; [by eapply caughtUp_orders; [|apply Ho|..]|].
    split; [intros Hn; by rewrite Ho; [apply Hfr|]|]. split; [by left; split|tauto].
  - eexists _, _. split; [done|]. split; [|intros _; right; by rewrite W5]. split; [done|]. right. right.
    assert (Ho : orders sv1 s = orders sv s).
    { rewrite Hseq. unfold orders, pendingOrders. rewrite W5, Hlog, sequenced_snoc. cbn. by rewrite app_nil_r. }
    split; [done|]. split; [by eapply caughtUp_orders|].
    split; [intros Hn; rewrite Ho; by apply Hfr|]. split; [by right; eauto|tauto].
  - destruct (durabilityFailure_ok sv1 (setPending s None) (pd_cmd p) (pd_shard p) Hsv1 W6)
      as (sv2 & s' & -> & Hsv2 & Hp2 & _ & Hrd & Hcl & Hpd).
    eexists _, _. split; [done|]. split; [|by intros ?; congruence]. split; [done|]. left. split; [done|].
    split; [by rewrite Hrd|]. left.
    apply caughtUp_prefix in Hcu. rewrite Hseq in Hcu. unfold orders, pendingOrders. rewrite Hpd. cbn.
    rewrite app_nil_r. unfold log in *. rewrite Hp2, Hlog, sequenced_snoc. cbn. rewrite app_nil_r.
    etrans; [|exact Hcu]. by apply prefix_app_r.
Qed.

(** ** A session's life *)

(** A read completes when one is outstanding, with at most [kReadChunk] bytes.  The session may
    have been closed in between: closing the socket does not take back the handler of a read that
    has already completed. *)
Definition enabled (s : ClientSession) (ev : IoEvent) : Prop :=
  match ev with
  | ReadDone (Some data) =>
      cs_reading s = true ∧ bytes data ∧ Z.of_nat (length data) <= kReadChunk
  | _ => True
  end.

Definition eventBytes (ev : IoEvent) : list Z :=
  match ev with ReadDone (Some data) => data | _ => [] end.

Lemma step_ok bs sv s ev :
  settled bs sv s → listening s → enabled s ev →
  ∃ sv' s', sessionStep creds shardIds me sv s ev = Some (sv', s') ∧
    settled (bs ++ eventBytes ev) sv' s' ∧ listening s'.
Proof using Hc.
  intros Hs Hl Hen.
  assert (Hcore : ∀ s', sameCore s s' → settled bs sv s' ∧ listening s').
  { intros s' Hc'. split; [by eapply settled_core|]. unfold listening in *.
    destruct Hc' as (_ & -> & _ & _ & _ & _ & -> & ->). done. }
  assert (Hclose : ∀ s', sameCore s s' → settled bs sv (closeSession s') ∧ listening (closeSession s')).
  { intros s' Hc'. split; [by apply settled_close, Hcore|]. unfold listening. by rewrite closeSession_closed. }
  destruct ev as [[data|]|ok|cancelled|cancelled| |data]; cbn [sessionStep eventBytes]; rewrite ?app_nil_r.
  - destruct Hen as (Hr & Hb & _). cbn [readDone].
    destruct Hs as [Hsv [(_ & ? & _)|[Hs|Hs]]]; [congruence| |].
    + destruct (onRead_late 256 bs sv s data Hsv Hs Hb) as (sv' & s' & ? & ? & Hcl).
      exists sv', s'. split; [done|]. split; [done|]. unfold listening. congruence.
    + assert (Hca : calm s) by (destruct Hs as (_ & _ & _ & [?|[p []]] & _); [done|congruence]).
      apply onRead_ok; try done; [|apply Hca]. destruct Hs as (H1 & H2 & H3 & _ & H5).
      split_and!; [done..| |]; [by left; destruct Hca|].
      intros Ha. destruct (H5 Ha) as [[] ?]. by split.
  - eexists _, _. split; [done|]. split; [by apply settled_failed|].
    unfold listening. by rewrite closeSession_closed.
  - eexists _, _. split; [done|]. unfold writeDone. destruct ok; cbn [negb]; [|by apply Hclose].
    unfold doWrite. cbn. destruct (tail _); by apply Hcore.
  - eexists _, _. split; [done|]. unfold authTimeout. case_match; [by apply Hcore|by apply Hclose].
  - unfold heartbeatTimeout. case_match; [eexists _, _; split; [done|]; by apply Hcore|]. cbv zeta.
    case_match; [eexists _, _; split; [done|]; by apply Hclose|].
    edestruct (send_writes encodeHeartbeat 32) as (w & l & ->); [apply heartbeat_fits|].
    eexists _, _. split; [done|]. by apply Hcore.
  - destruct (cs_readSuspended s) eqn:E; [|eexists _, _; split; [done|]; by apply Hcore].
    destruct (cs_closed s) eqn:Ec.
    + unfold retryPending. rewrite Ec. destruct (cs_pending s); eexists _, _; (split; [done|]); by apply Hcore.
    + pose proof (settled_open _ _ _ Hs Ec) as (_ & _ & _ & [[]|[p Hp]] & _); [congruence|].
      by eapply retryPending_ok.
  - eexists _, _. split; [done|]. destruct (sendFrame_writes s data) as (w & l & ->). by apply Hcore.
Qed.

(** Between two events of the session the rest of the gateway moves on: other
    sessions submit and register routes, the matching threads drain the rings, the
    routers post; only this session's own calls stay as they are. *)
Inductive session_run (junk : list Z) : list Z → server → ClientSession → Prop :=
  | run_start sv : serverOk sv → log sv = [] → session_run junk [] sv (sessionNew c junk)
  | run_others bs sv s sv' :
      session_run junk bs sv s → serverOk sv' → log sv' = log sv → session_run junk bs sv' s
  | run_event bs sv s ev sv' s' :
      session_run junk bs sv s → enabled s ev → sessionStep creds shardIds me sv s ev = Some (sv', s') →
      session_run junk (bs ++ eventBytes ev) sv' s'.

Lemma settled_others bs sv s sv' :
  settled bs sv s → serverOk sv' → log sv' = log sv → settled bs sv' s.
Proof.
  intros [_ Hs] Hsv' Hl. split; [done|].
  unfold ended, closing, live, fresh, caughtUp, orders, allSequenced in *. by rewrite Hl.
Qed.

Lemma run_settled junk bs sv s :
  length junk = 256%nat → bytes junk → session_run junk bs sv s → settled bs sv s ∧ listening s.
Proof using Hc.
  intros Hj Hb. induction 1 as [sv Hsv Hl|bs sv s sv' _ [IH Hli] Hsv' Hl|bs sv s ev sv' s' _ [IH Hli] Hen Hst].
  - assert (Ho : orders sv (sessionNew c junk) = []) by (unfold orders; by rewrite Hl).
    split; [|by left]. split; [done|]. right. right. split; [|split; [|split; [|split; [by left|]]]].
    + split; [done|]. split; [|done]. by split; [cbn; rewrite Hj|..].
    + exists []. rewrite Ho. by split.
    + by intros _.
    + by intros _.
  - split; [by eapply settled_others|done].
  - destruct (step_ok bs sv s ev IH Hli Hen) as (sv1 & s1 & H1 & H2). rewrite Hst in H1.
    by injection H1 as <- <-.
Qed.
End proofs.
