(* ===== verification/SessionClaims.v ===== *)
(** What is proved of order-entry sessions, on the sequencers of the shards: the
    refinement of the reference [admitted], that a session always answers, and three
    runs that show where the code falls short of its comments. *)
From stdpp Require Import gmap.
From S2P Require Import Prelude Types Wire Messages Framing Decoder Events Crc32 SpscRing JournalFormat JournalWriter JournalReader JournalSpec JournalCrash JournalDurable Sequencer Shard.
From S2P Require Import Session SessionSpec.

(** ** The shards' sequencers keep the promise of the interface *)

Section shards.
Context (k : Z) (Hk : 0 <= k <= 63) (wc : WriterConfig) (pad : list Z) (Hpad : valid_pad pad).

Lemma fsyncFile_fd w fd : jw_fd (fsyncFile w fd).2 = jw_fd w.
Proof. unfold fsyncFile. destruct (JournalCrash.sys_ok w) as (r & io & ->). by destruct r. Qed.

Lemma writeFile_fd w fd bs : jw_fd (writeFile w fd bs).2 = jw_fd w.
Proof. unfold writeFile. by destruct (JournalCrash.sys_ok w) as (r & io & ->). Qed.

Lemma openSegment_total w seq :
  ∃ (b : bool) w', openSegment w seq = Some (b, w') ∧ (b = true → is_Some (jw_fd w')).
Proof.
  unfold openSegment. destruct (JournalCrash.sys_ok (set_path w (u64 seq))) as (r & io & ->).
  destruct r; [|by eexists _, _..]. rewrite JournalFormat.encodeSegmentHeader_ok by done. simpl_bind.
  destruct (writeFile _ _ _) as [n w1] eqn:E. apply (f_equal (jw_fd ∘ snd)) in E. cbn [compose snd] in E.
  rewrite writeFile_fd in E. case_match; [by eexists _, _|].
  destruct (fsyncFile _ _) as [b w2] eqn:E2. apply (f_equal (jw_fd ∘ snd)) in E2. cbn [compose snd] in E2.
  rewrite fsyncFile_fd in E2. eexists _, _. split; [done|]. intros _. rewrite <- E2. cbn.
  rewrite <- E. by eexists.
Qed.

Lemma append_answers w seq cmd kind :
  command_i64 cmd → ∃ (b : bool) w', append wc w seq (kindCode kind) (imageOf pad cmd) = Some (b, w').
Proof using Hpad.
  intros Hcmd. unfold append.
  assert (Hrec : ∀ w1, is_Some (jw_fd w1) →
    ∃ (b : bool) w', appendRecord wc w1 seq (kindCode kind) (imageOf pad cmd) = Some (b, w')).
  { intros w1 [fd Hfd]. unfold appendRecord. rewrite Hfd. simpl_bind.
    rewrite encodeRecord_ok; [|by apply imageOf_valid|apply kindCode_byte|done]. simpl_bind.
    destruct (writeFile _ _ _) as [n w2]. case_match; [by eexists _, _|]. case_match; [|by eexists _, _].
    destruct (sync _) as [b w3]. by eexists _, _. }
  assert (Hopen : ∀ w1, ∃ (b : bool) w', ('(ready, w) ← openSegment w1 seq;
      if negb ready then Some (false, w) else appendRecord wc w seq (kindCode kind) (imageOf pad cmd))
      = Some (b, w')).
  { intros w1. destruct (openSegment_total w1 seq) as (b & w' & -> & Hb). simpl_bind.
    destruct b; cbn [negb]; [by apply Hrec, Hb|by eexists _, _]. }
  destruct (jw_fd w) eqn:Efd; [|apply Hopen]. case_match.
  - unfold rollSegment. destruct (sync w) as [[|] w1]; cbn [negb]; [apply Hopen|]. by eexists _, _.
  - cbn [mbind option_bind negb]. by apply Hrec.
Qed.

Definition ringOk (q : Sequencer) : Prop := Z.of_nat (length (sp_storage (sq_ring q))) = Capacity k.

Lemma tryClaim_storage (r r' : SpscRing Command) o :
  tryClaim k r = (r', o) →
  sp_storage r' = sp_storage r ∧ (∀ i, o = Some i → 0 <= i < Capacity k).
Proof using Hk.
  assert (Hm : 0 <= Z.land (sp_head r) (Capacity k - 1) < Capacity k).
  { unfold Capacity. rewrite Z.shiftl_1_l, Z.sub_1_r, <- Z.ones_equiv, Z.land_ones by lia.
    apply Z.mod_pos_bound. apply Z.pow_pos_nonneg; lia. }
  unfold tryClaim. repeat case_match; intros [= <- <-]; (split; [done|]); intros i [= <-]; done.
Qed.

Lemma trySubmit_total q kind cmd :
  ringOk q → command_i64 cmd → ∃ r q', trySubmit k wc q kind pad cmd = Some (r, q') ∧ ringOk q'.
Proof using Hk Hpad.
  intros Hq Hcmd. unfold trySubmit. destruct (tryClaim k (sq_ring q)) as [r [slot|]] eqn:E;
    apply tryClaim_storage in E as [Hst Hi].
  - destruct (append_answers (sq_journal q) (s64 (sq_seq q + 1)) cmd kind Hcmd) as (b & j & ->).
    simpl_bind. destruct b; cbn [negb].
    + unfold writeSlot. rewrite aset_in by (rewrite Hst, Hq; by apply Hi). simpl_bind.
      eexists _, _. split; [done|]. unfold ringOk. cbn. by rewrite length_insert, Hst.
    + eexists _, _. split; [done|]. unfold ringOk. cbn. by rewrite Hst.
  - eexists _, _. split; [done|]. unfold ringOk. cbn. by rewrite Hst.
Qed.

Lemma shardTrySubmit_total shards qs idx kind cmd :
  length qs = shards ∧ Forall ringOk qs → 0 <= idx < Z.of_nat shards → command_i64 cmd →
  ∃ r qs', shardTrySubmit k wc pad qs idx kind cmd = Some (r, qs') ∧ (length qs' = shards ∧ Forall ringOk qs').
Proof using Hk Hpad.
  intros [Hl Hr] Hi Hcmd. rewrite <- Hl in Hi. unfold shardTrySubmit.
  destruct (aget_in qs idx Hi) as [q Hq]. rewrite Hq. simpl_bind.
  apply aget_Some in Hq as [_ Hq].
  destruct (trySubmit_total q kind cmd) as (r & q' & -> & Hq'); [by eapply Forall_lookup_1|done|].
  simpl_bind. rewrite aset_in by done. simpl_bind.
  eexists _, _. split; [done|]. split; [by rewrite length_insert|]. by apply Forall_insert.
Qed.

Definition shardLaws : SubmitLaws (P := shardPort k wc pad) (list Sequencer) :=
  Build_SubmitLaws _ (shardPort k wc pad)
    (λ shards qs, length qs = shards ∧ Forall ringOk qs) shardTrySubmit_total.
End shards.

(** ** The claims *)

Lemma all_sequenced {W} {P : SubmitPort W} {L : SubmitLaws W} creds shardIds me c junk bs (sv : Server (W * list Call)) s :
  instruments_ok (dc_instruments c) → length junk = 256%nat → bytes junk →
  session_run creds shardIds me c junk bs sv s → cs_closed s = false → allSequenced sv →
  admitted creds shardIds (received c bs) = sequenced (log sv).
Proof.
  intros Hc Hj Hb Hrun Hcl Hall. destruct (run_settled creds shardIds me c Hc junk bs sv s Hj Hb Hrun) as [Hs _].
  destruct (settled_open _ _ _ _ _ _ Hs Hcl) as (_ & Hcu & _ & _ & Ha). destruct (Ha Hall) as [Hcalm Hmore].
  rewrite (caughtUp_now _ _ _ _ _ _ Hcu).
  unfold orders, pendingOrders. rewrite (cl_free s Hcalm), app_nil_r.
  unfold received. rewrite parseStream_unfold, Hmore. by rewrite app_nil_r.
Qed.

Lemma submitted_admitted {W} {P : SubmitPort W} {L : SubmitLaws W} creds shardIds me c junk bs (sv : Server (W * list Call)) s :
  instruments_ok (dc_instruments c) → length junk = 256%nat → bytes junk →
  session_run creds shardIds me c junk bs sv s →
  let all := admitted creds shardIds (received c bs) in
  let submitted := sequenced (log sv) ++ pendingOrders s in
  submitted `prefix_of` all ∨
  cs_closed s = true ∧ all = [] ∧
  ∃ m inst cmd, m ∈ received c bs ∧ orderOf 0 m = Some (1, inst, cmd) ∧ submitted = placed shardIds inst cmd.
Proof.
  intros Hc Hj Hb Hrun all submitted. destruct (run_settled creds shardIds me c Hc junk bs sv s Hj Hb Hrun) as [[_ Hs] _].
  destruct Hs as [(Hcl & _ & [Hp|(m & inst & cmd & H1 & H2 & H3 & H4)])|[(_ & _ & _ & st & _ & Hcu & _)|(_ & Hcu & _)]].
  - by left.
  - right. split; [done|]. split; [done|]. by exists m, inst, cmd.
  - left. by apply (caughtUp_prefix creds shardIds c bs sv (reopen s st)).
  - left. by apply (caughtUp_prefix creds shardIds c bs sv s).
Qed.

(** C7: What a session submits.  Whatever the client sends and however it is cut into
    reads, whatever other sessions, matching threads and routers do in between,
    whatever the sequencers answer, and also if the session is closed while a read is
    outstanding, the orders a session has had sequenced, followed by the one it keeps
    when the ring is full, are a prefix of the admitted orders of the bytes received:
    nothing before a valid login, the participant of the login on every command,
    consecutive client numbers, no order twice, none skipped, each on the shard of its
    instrument.  There is one exception, and it is exactly this: the session was closed
    before a login, the bytes received hold no admitted order, and of these bytes one
    order, numbered 1 by the client, has been submitted for participant 0.  While the
    session is open the rest of the admitted orders is in its buffer; and if no
    sequencer has refused, nothing is. *)
Theorem session_submits_admitted {W} {P : SubmitPort W} {L : SubmitLaws W} creds shardIds me c junk bs
    (sv : Server (W * list Call)) s :
  instruments_ok (dc_instruments c) → length junk = 256%nat → bytes junk →
  session_run creds shardIds me c junk bs sv s →
  let all := admitted creds shardIds (received c bs) in
  let submitted := sequenced (log sv) ++ pendingOrders s in
  (submitted `prefix_of` all ∨
   cs_closed s = true ∧ all = [] ∧
   ∃ m inst cmd, m ∈ received c bs ∧ orderOf 0 m = Some (1, inst, cmd) ∧
     submitted = placed shardIds inst cmd) ∧
  (cs_closed s = false →
     all = submitted ++ admittedFrom creds shardIds (phase s) (received c (buffered s))) ∧
  (cs_closed s = false → allSequenced sv → all = sequenced (log sv)).
Proof.
  intros Hc Hj Hb Hrun all submitted. split; [by apply (submitted_admitted creds shardIds me c junk)|].
  split; [|by apply (all_sequenced creds shardIds me c junk)].
  intros Ho. destruct (run_settled creds shardIds me c Hc junk bs sv s Hj Hb Hrun) as [Hs _].
  destruct (settled_open _ _ _ _ _ _ Hs Ho) as (_ & Hcu & _). by apply caughtUp_now.
Qed.

(** C17: A session always answers.  In every reachable state, every event the io thread can
    deliver runs to its end, and leaves the session closed, waiting for bytes, or
    keeping one command and waiting for the next retry round: it is never stuck. *)
Theorem session_answers {W} {P : SubmitPort W} {L : SubmitLaws W} creds shardIds me c junk bs
    (sv : Server (W * list Call)) s ev :
  instruments_ok (dc_instruments c) → length junk = 256%nat → bytes junk →
  session_run creds shardIds me c junk bs sv s → enabled s ev →
  ∃ sv' s', sessionStep (P := loggedPort P) creds shardIds me sv s ev = Some (sv', s') ∧
    session_run creds shardIds me c junk (bs ++ eventBytes ev) sv' s' ∧
    (cs_closed s' = true ∨
     cs_pending s' = None ∧ cs_readSuspended s' = false ∧ cs_reading s' = true ∨
     ∃ p, cs_pending s' = Some p ∧ cs_readSuspended s' = true ∧ cs_reading s' = false).
Proof.
  intros Hc Hj Hb Hrun Hen. destruct (run_settled creds shardIds me c Hc junk bs sv s Hj Hb Hrun) as [Hs Hl].
  destruct (step_ok creds shardIds me c Hc bs sv s ev Hs Hl Hen) as (sv' & s' & Hst & [_ Hs'] & Hl').
  exists sv', s'. split; [done|]. split; [by eapply run_event|].
  destruct Hs' as [(? & _)|[(? & _)|(_ & _ & _ & [[H1 _ H3 H4]|[p []]] & _)]]; [by left..| |by right; right; eauto].
  right. left. split; [done|]. split; [done|]. destruct (Hl' H1); [done|congruence].
Qed.

(** ** Runs on two shards with rings of two slots *)

Section runs.
Context {W : Type} {P : SubmitPort W} {L : SubmitLaws W}.
Context (creds : Credentials) (shardIds : list Z) (me : nat) (c : DecoderConfig) (junk : list Z).

Definition canDeliver (s : ClientSession) (ev : IoEvent) : bool :=
  match ev with
  | ReadDone (Some data) =>
      cs_reading s && forallb (λ b, (0 <=? b) && (b <? 256)) data
        && (Z.of_nat (length data) <=? kReadChunk)
  | _ => true
  end.

Fixpoint runEvents (sv : Server (W * list Call)) (s : ClientSession) (evs : list IoEvent) :
    option (Server (W * list Call) * ClientSession) :=
  match evs with
  | [] => Some (sv, s)
  | ev :: evs =>
      if canDeliver s ev then
        '(sv, s) ← sessionStep (P := loggedPort P) creds shardIds me sv s ev; runEvents sv s evs
      else None
  end.

Lemma canDeliver_enabled s ev : canDeliver s ev = true → enabled s ev.
Proof.
  destruct ev as [[data|]| | | | |]; cbn; try done. rewrite !andb_true_iff.
  intros [[H2 H3] H4]. split_and!; [done| |lia].
  apply Forall_forall. intros b Hb. rewrite forallb_forall in H3.
  apply list_elem_of_In in Hb. apply H3 in Hb. unfold is_byte. lia.
Qed.

Lemma runEvents_run bs sv s evs sv' s' :
  session_run creds shardIds me c junk bs sv s → runEvents sv s evs = Some (sv', s') →
  session_run creds shardIds me c junk (bs ++ concat (eventBytes <$> evs)) sv' s'.
Proof.
  revert bs sv s. induction evs as [|ev evs IH]; intros bs sv s Hr; cbn [runEvents].
  { intros [= <- <-]. cbn. by rewrite app_nil_r. }
  destruct (canDeliver s ev) eqn:E; [|done]. apply canDeliver_enabled in E.
  destruct (sessionStep _ _ _ _ _ _) as [[sv1 s1]|] eqn:Es; [|done]. simpl_bind.
  intros Hev. cbn. rewrite app_assoc. eapply IH; [|done]. by eapply run_event.
Qed.
End runs.

#[local] Instance demoPort : SubmitPort (list Sequencer) := shardPort 1 perRecord noPad.
#[local] Instance demoLaws : SubmitLaws (list Sequencer) := shardLaws 1 ltac:(lia) perRecord noPad noPad_ok.

Definition demoSequencer : Sequencer := mkSequencer (writerNew ∅ ∅ []) (spscNew 1 emptyCommand) 0.

Definition demoServer : Server (list Sequencer * list Call) :=
  mkServer ([demoSequencer; demoSequencer], []) [∅; ∅] [0; 0] [].

Definition demoCreds : Credentials := addCredential ∅ 42 (replicate 32 171).

Definition wireOf (ms : list DecodedMessage) : list Z :=
  concat (default [] (mapM (encodeFrame (PE := frame_encoder demoDecoder demoDecoder_ok)) ms)).

(** A login, then three orders on instrument 7, the last of which finds the ring full. *)
Definition demoOrders : list Z := Eval vm_compute in
  wireOf [DLogin (mkLogin 42 (replicate 32 171) 100);
    DNewOrder (mkNewOrderMsg 101 5001 7 Sell WLimit 1505000 300 Day);
    DCancel (mkCancel 102 5001 7); DCancel (mkCancel 103 5002 7)].

Definition demoEvents : list IoEvent :=
  [ReadDone (Some (take 128 demoOrders)); WriteDone true; ReadDone (Some (drop 128 demoOrders))].

Definition demoRun (evs : list IoEvent) : option (Server (list Sequencer * list Call) * ClientSession) :=
  runEvents demoCreds [1; 7] 0 demoServer (sessionNew demoDecoder (replicate 256 0)) evs.

Lemma demoRun_run evs sv s :
  demoRun evs = Some (sv, s) →
  session_run demoCreds [1; 7] 0 demoDecoder (replicate 256 0) (concat (eventBytes <$> evs)) sv s.
Proof.
  intros H. apply (runEvents_run _ _ _ _ _ [] _ _ _ _ _) with (2 := H). apply run_start; [|done].
  split; [|done]. split; [done|]. repeat constructor.
Qed.

(** What the witnesses look at. *)
Definition summary (r : option (Server (list Sequencer * list Call) * ClientSession)) :=
  (λ p, (sequenced (log p.1), pendingOrders p.2, cs_closed p.2)) <$> r.

Lemma demoRun_summary :
  summary (demoRun demoEvents) = Some
    ([(1, KNew, mkCommand 5001 0 1505000 300 42 KNew Sell Limit);
      (1, KCancel, mkCommand 5001 0 0 0 42 KCancel Buy Limit)],
     [(1, KCancel, mkCommand 5002 0 0 0 42 KCancel Buy Limit)], false).
Proof. vm_compute. reflexivity. Qed.

Lemma demoRun_some evs x : summary (demoRun evs) = Some x → ∃ sv s, demoRun evs = Some (sv, s) ∧
  (sequenced (log sv), pendingOrders s, cs_closed s) = x.
Proof. unfold summary. destruct (demoRun evs) as [[sv s]|]; [|done]. intros [= <-]. by eexists _, _. Qed.

Lemma session_submits_admitted_witness :
  ∃ sv s, demoRun demoEvents = Some (sv, s) ∧ length (sequenced (log sv)) = 2%nat ∧
    sequenced (log sv) ++ pendingOrders s
      `prefix_of` admitted demoCreds [1; 7] (received demoDecoder (concat (eventBytes <$> demoEvents))).
Proof.
  destruct (demoRun_some _ _ demoRun_summary) as (sv & s & Hr & Hx). exists sv, s. split; [exact Hr|].
  split; [injection Hx as -> _ _; reflexivity|].
  destruct (proj1 (session_submits_admitted demoCreds [1; 7] 0%nat demoDecoder (replicate 256 0) _ sv s
    demoDecoder_ok eq_refl (Forall_replicate is_byte 256 0 ltac:(split; [reflexivity|reflexivity]))
    (demoRun_run _ _ _ Hr))) as [H|[H _]]; [exact H|]. injection Hx as _ _ Hcl. rewrite Hcl in H. discriminate H.
Defined.

Lemma session_answers_witness :
  ∃ sv s sv' s', demoRun demoEvents = Some (sv, s) ∧
    sessionStep (P := loggedPort demoPort) demoCreds [1; 7] 0 sv s RetryRound = Some (sv', s').
Proof.
  destruct (demoRun_some _ _ demoRun_summary) as (sv & s & Hr & Hx).
  destruct (session_answers demoCreds [1; 7] 0%nat demoDecoder (replicate 256 0) _ sv s RetryRound
    demoDecoder_ok eq_refl (Forall_replicate is_byte 256 0 ltac:(split; [reflexivity|reflexivity]))
    (demoRun_run _ _ _ Hr) I) as (sv' & s' & Hst & _).
  exists sv, s, sv', s'. split; [exact Hr|exact Hst].
Defined.

(** ** Where the code falls short of its comments *)

(** The matching threads take everything out of the rings. *)
Definition drainRing (q : Sequencer) : Sequencer :=
  let r := sq_ring q in
  mkSequencer (sq_journal q)
    (mkSpsc (sp_storage r) (sp_head r) (sp_head r) (sp_cachedTail r) (sp_head r)) (sq_seq q).

Definition drainAll (sv : Server (list Sequencer * list Call)) : Server (list Sequencer * list Call) :=
  mkServer (drainRing <$> (sv_port sv).1, (sv_port sv).2) (sv_routes sv) (sv_dropped sv) (sv_posted sv).

Lemma drainAll_ok sv : serverOk [1; 7] sv → serverOk [1; 7] (drainAll sv).
Proof.
  intros [[Hl Hr] Hs]. split; [|exact Hs]. split; [cbn; by rewrite length_fmap|].
  cbn. apply Forall_fmap. eapply Forall_impl; [exact Hr|]. by intros q Hq.
Qed.

(** Events with the rings drained before each. *)
Definition drainedRun (r : option (Server (list Sequencer * list Call) * ClientSession)) (ev : IoEvent) :=
  '(sv, s) ← r; runEvents (P := demoPort) demoCreds [1; 7] 0 (drainAll sv) s [ev].

Lemma drainedRun_run evs : ∀ r bs sv s,
  (∀ sv s, r = Some (sv, s) → session_run demoCreds [1; 7] 0 demoDecoder (replicate 256 0) bs sv s) →
  foldl drainedRun r evs = Some (sv, s) →
  session_run demoCreds [1; 7] 0 demoDecoder (replicate 256 0) (bs ++ concat (eventBytes <$> evs)) sv s.
Proof.
  induction evs as [|ev evs IH]; intros r bs sv s Hr; cbn [foldl].
  { intros H. cbn. rewrite app_nil_r. by apply Hr. }
  intros H. cbn. rewrite app_assoc. eapply IH; [|exact H]. clear H sv s. intros sv s H.
  unfold drainedRun in H. destruct r as [[sv0 s0]|]; [|done]. cbn [mbind option_bind] in H.
  specialize (Hr sv0 s0 eq_refl). eapply runEvents_run in H; [cbn in H; rewrite app_nil_r in H; exact H|].
  destruct (run_settled _ _ _ _ demoDecoder_ok (replicate 256 0) bs sv0 s0 eq_refl
    (Forall_replicate is_byte 256 0 ltac:(split; [reflexivity|reflexivity])) Hr) as [[Hsv _] _].
  eapply run_others; [exact Hr|by apply drainAll_ok|done].
Qed.

(** An honest client: a login and a new order, then cancels, numbered on. *)
Definition manyOrders : list Z := Eval vm_compute in
  wireOf ([DLogin (mkLogin 42 (replicate 32 171) 100);
    DNewOrder (mkNewOrderMsg 101 5001 7 Sell WLimit 1505000 300 Day)]
    ++ ((λ i, DCancel (mkCancel (102 + i) 5001 7)) <$> seqZ 0 30)).

Definition chunk (i n : nat) : IoEvent := ReadDone (Some (take n (drop i manyOrders))).

Definition backpressured : list IoEvent := [chunk 0 128; chunk 128 128; RetryRound].

(** After backpressure a session does not come back to what it has already read: the
    ring is empty and the session open, reading and without a pending command, but
    admitted orders stay in its buffer until the client sends more bytes. *)
Theorem resumed_session_stalls :
  ∃ sv s, session_run demoCreds [1; 7] 0 demoDecoder (replicate 256 0) (take 256 manyOrders) sv s ∧
    cs_closed s = false ∧ cs_pending s = None ∧ cs_reading s = true ∧
    admittedFrom demoCreds [1; 7] (phase s) (received demoDecoder (buffered s)) ≠ [].
Proof.
  destruct (foldl drainedRun (demoRun []) backpressured) as [[sv s]|] eqn:E.
  2: { exfalso. assert (H : bool_decide (is_Some (foldl drainedRun (demoRun []) backpressured)) = true)
         by (vm_compute; reflexivity). rewrite E in H. discriminate H. }
  pose proof (drainedRun_run _ _ [] _ _ (λ sv s, demoRun_run [] sv s) E) as Hr.
  exists sv, s. split; [exact Hr|].
  assert (H : (λ p, (cs_closed p.2, cs_pending p.2, cs_reading p.2,
      length (admittedFrom demoCreds [1; 7] (phase p.2) (received demoDecoder (buffered p.2)))))
    <$> foldl drainedRun (demoRun []) backpressured = Some (false, None, true, 2%nat)) by (vm_compute; reflexivity).
  rewrite E in H. cbn in H. injection H as -> -> -> Hl. split; [done|]. split; [done|]. split; [done|].
  intros Hn. rewrite Hn in Hl. discriminate Hl.
Qed.

Definition keepsSending : list IoEvent :=
  [chunk 0 128; chunk 128 128; RetryRound; chunk 256 128; RetryRound; chunk 384 128; RetryRound; chunk 512 128].

(** And when the client does send more, reads of [kReadChunk] bytes pile up behind the
    orders left in the buffer until it overflows: the session is closed as hostile
    although every byte of the client was in order, no sequencer failed, and the
    rings were empty at every event. *)
Theorem resumed_session_overflows :
  ∃ sv s, session_run demoCreds [1; 7] 0 demoDecoder (replicate 256 0) (take 640 manyOrders) sv s ∧
    cs_closed s = true ∧ Forall (λ a, ca_outcome a ≠ DurabilityFailure) (log sv) ∧
    length (sequenced (log sv)) = 11%nat ∧
    length (admitted demoCreds [1; 7] (received demoDecoder (take 640 manyOrders))) = 22%nat.
Proof.
  destruct (foldl drainedRun (demoRun []) keepsSending) as [[sv s]|] eqn:E.
  2: { exfalso. assert (H : bool_decide (is_Some (foldl drainedRun (demoRun []) keepsSending)) = true)
         by (vm_compute; reflexivity). rewrite E in H. discriminate H. }
  pose proof (drainedRun_run _ _ [] _ _ (λ sv s, demoRun_run [] sv s) E) as Hr.
  exists sv, s. split; [exact Hr|].
  assert (H : (λ p, (cs_closed p.2, bool_decide (Forall (λ a, ca_outcome a ≠ DurabilityFailure) (log p.1)),
      length (sequenced (log p.1)))) <$> foldl drainedRun (demoRun []) keepsSending
    = Some (true, true, 11%nat)) by (vm_compute; reflexivity).
  rewrite E in H. cbn in H. injection H as -> Hf ->. split; [done|].
  split; [by apply bool_decide_eq_true in Hf|]. split; [done|]. vm_compute. reflexivity.
Qed.

(** An order in place of the login, in a read that completes as the login timer fires. *)
Definition lateOrder : list Z := Eval vm_compute in
  wireOf [DNewOrder (mkNewOrderMsg 1 5001 7 Sell WLimit 1505000 300 Day)].

(** A read that has completed when the login timer fires is still delivered to the
    closed session.  [processDecoded] treats every state but [AwaitingLogin] as logged
    in, so an order in these bytes goes to the engine, without a login, for
    participant 0. *)
Theorem timed_out_session_submits :
  ∃ sv s, session_run demoCreds [1; 7] 0 demoDecoder (replicate 256 0) lateOrder sv s ∧ cs_closed s = true ∧
    sequenced (log sv) = [(1, KNew, mkCommand 5001 0 1505000 300 0 KNew Sell Limit)] ∧
    admitted demoCreds [1; 7] (received demoDecoder lateOrder) = [].
Proof.
  destruct (demoRun_some [AuthTimeout false; ReadDone (Some lateOrder)]
    ([(1, KNew, mkCommand 5001 0 1505000 300 0 KNew Sell Limit)], [], true)) as (sv & s & Hr & Hx);
    [vm_compute; reflexivity|].
  exists sv, s. injection Hx as -> _ ->. split; [|split; [done|split; [done|vm_compute; reflexivity]]].
  apply demoRun_run in Hr. exact Hr.
Qed.
