(* ===== verification/Router.v ===== *)
(** The exec-report router: [gateway/gateway.hpp], from the outbound ring of a shard
    to the frames posted to the sessions.

    A report is addressed through the shard's route table, which the sessions fill
    before they submit.  The theorem says when a fill is sure to reach the session of
    its order; the run at the end shows how another order can get in the way. *)
From stdpp Require Import gmap.
From S2P Require Import MulticastRing RingHold.
From S2P Require Import Prelude Types Wire Messages Framing Decoder Events Sequencer Session SessionSpec.
From S2P Require Import ObjectPool PriceLevel OrderIdMap LevelMap OrderBook AbstractBook BookWalk MatchingThread.

Section router.
Context {W : Type}.

(** [session.lock()] on the weak pointer of a route. *)
Context (alive : nat → bool).

Definition setTables (sv : Server W) (routes : list (gmap Z RouteEntry)) (dropped : list Z)
    (posted : list Posted) : Server W :=
  mkServer (sv_port sv) routes dropped posted.

(** [++ctx.droppedRoutes] *)
Definition countDropped (sv : Server W) (shardIdx : Z) : option (Server W) :=
  n ← aget (sv_dropped sv) shardIdx;
  d ← aset (sv_dropped sv) shardIdx (u64 (n + 1));
  Some (setTables sv (sv_routes sv) d (sv_posted sv)).

(** [postToIoThread([session, owned] { session->sendFrame(...); })] *)
Definition postFrame (sv : Server W) (session : nat) (data : list Z) : Server W :=
  setTables sv (sv_routes sv) (sv_dropped sv) (sv_posted sv ++ [PostFrame session data]).

Definition encodeAndPost {M} (enc : M → list Z → option (list Z * Z)) (sv : Server W) (session : nat)
    (m : M) : option (Server W) :=
  '(buf, n) ← enc m (replicate 128 0);
  Some (postFrame sv session (take (Z.to_nat n) buf)).

Definition routeExecReport (sv : Server W) (shardIdx orderId : Z) (type : ExecType)
    (execQty leavesQty price tradeId globalSeq : Z) : option (Server W) :=
  t ← aget (sv_routes sv) shardIdx;
  match t !! orderId with
  | None => countDropped sv shardIdx
  | Some e =>
      if negb (alive (rt_session e)) then countDropped sv shardIdx
      else encodeAndPost encodeExecReport sv (rt_session e)
             (mkExecReport orderId (execCode type) execQty leavesQty price tradeId globalSeq)
  end.

Definition routeReject (sv : Server W) (shardIdx orderId : Z) (reason : RejectReason) (globalSeq : Z) :
    option (Server W) :=
  t ← aget (sv_routes sv) shardIdx;
  match t !! orderId with
  | None => countDropped sv shardIdx
  | Some e =>
      ts ← aset (sv_routes sv) shardIdx (delete orderId t);
      let sv := setTables sv ts (sv_dropped sv) (sv_posted sv) in
      if negb (alive (rt_session e)) then countDropped sv shardIdx
      else encodeAndPost encodeReject sv (rt_session e) (mkRejectMsg orderId (rejectCode reason) globalSeq)
  end.

Definition routeOne (sv : Server W) (shardIdx : Z) (ev : OutboundEvent) : option (Server W) :=
  match e_payload ev with
  | TradeEvent t =>
      sv ← routeExecReport sv shardIdx (t_aggressorId t) Fill (t_quantity t) 0 (t_price t) (t_id t) (e_globalSeq ev);
      routeExecReport sv shardIdx (t_passiveId t) Fill (t_quantity t) 0 (t_price t) (t_id t) (e_globalSeq ev)
  | StatusEvent id st =>
      if bool_decide (st = Types.Ok) then routeExecReport sv shardIdx id NewAck 0 0 0 0 (e_globalSeq ev)
      else routeReject sv shardIdx id EngineReject (e_globalSeq ev)
  | OrderUpdateEvent _ => Some sv
  end.

(** The inner loop of [runRouter]; the boolean is [any]. *)
Fixpoint routerDrain (fuel : nat) (Capacity : Z) (shardIdx : Z) (r : MulticastRing OutboundEvent)
    (sv : Server W) (any : bool) : option (MulticastRing OutboundEvent * Server W * bool) :=
  match fuel with
  | O => None
  | S fuel =>
      '(r, o) ← tryPeek Capacity r 0;
      match o with
      | None => Some (r, sv, any)
      | Some el =>
          ev ← el !! 0%nat;
          sv ← routeOne sv shardIdx ev;
          r ← MulticastRing.consume r 0;
          routerDrain fuel Capacity shardIdx r sv true
      end
  end.

(** One turn of [runRouter]: drain, then give the sessions a chance to retry. *)
Definition routerTurn (fuel : nat) (Capacity shardIdx : Z) (r : MulticastRing OutboundEvent)
    (sv : Server W) : option (MulticastRing OutboundEvent * Server W) :=
  '(r, sv, any) ← routerDrain fuel Capacity shardIdx r sv false;
  Some (r, if any : bool then setTables sv (sv_routes sv) (sv_dropped sv) (sv_posted sv ++ [PostRetry]) else sv).

Definition droppedRoutes (sv : Server W) : Z := foldl (λ total n, u64 (total + n)) 0 (sv_dropped sv).

(** [retryAllPending]: the sessions with their numbers; dead ones are removed. *)
Fixpoint retryAllPending `{P : !SubmitPort W} (sv : Server W) (sessions : list (nat * ClientSession)) :
    option (Server W * list (nat * ClientSession)) :=
  match sessions with
  | [] => Some (sv, [])
  | (i, s) :: rest =>
      if negb (alive i) then retryAllPending sv rest
      else
        '(sv, s) ← (if cs_readSuspended s then retryPending sv s else Some (sv, s));
        '(sv, rest) ← retryAllPending sv rest;
        Some (sv, (i, s) :: rest)
  end.
End router.

(** ** Operations on the route table of one shard *)

Inductive RouteOp :=
  | OpRegister (id : Z) (session : nat) (clientSeqNum : Z)
  | OpErase (id : Z)
  | OpEvent (ev : OutboundEvent).

Section ops.
Context {W : Type} (alive : nat → bool) (x : Z).

Definition routeOp (sv : Server W) (op : RouteOp) : option (Server W) :=
  match op with
  | OpRegister id session n => registerRoute sv x id session n
  | OpErase id => eraseRoute sv x id
  | OpEvent ev => routeOne alive sv x ev
  end.

Fixpoint routeOps (sv : Server W) (ops : list RouteOp) : option (Server W) :=
  match ops with [] => Some sv | op :: ops => sv ← routeOp sv op; routeOps sv ops end.

(** ** Reference: the reports an event owes to the owner of an order *)

Definition fillReport (id : Z) (t : Trade) (seq : Z) : ExecReportMsg :=
  mkExecReport id (execCode Fill) (t_quantity t) 0 (t_price t) (t_id t) seq.

Definition owed (id : Z) (ev : OutboundEvent) : list ExecReportMsg :=
  match e_payload ev with
  | TradeEvent t =>
      (if t_aggressorId t =? id then [fillReport id t (e_globalSeq ev)] else []) ++
      (if t_passiveId t =? id then [fillReport id t (e_globalSeq ev)] else [])
  | StatusEvent i st =>
      if (i =? id) && bool_decide (st = Types.Ok)
      then [mkExecReport id (execCode NewAck) 0 0 0 0 (e_globalSeq ev)] else []
  | OrderUpdateEvent _ => []
  end.

Definition owedBy (id : Z) (op : RouteOp) : list ExecReportMsg :=
  match op with OpEvent ev => owed id ev | _ => [] end.

(** A frame posted to session [k] about order [id]. *)
Definition concerns (k : nat) (id : Z) (p : Posted) : bool :=
  match p with
  | PostFrame k' data => bool_decide (k' = k) && bool_decide (getI64 data 5 = Some id)
  | PostRetry => false
  end.

(** Nobody else takes the route of [id] over, and the engine does not reject [id]. *)
Definition leaves_route (k : nat) (id : Z) (op : RouteOp) : Prop :=
  match op with
  | OpRegister i session _ => i = id → session = k
  | OpErase i => i ≠ id
  | OpEvent ev =>
      match e_payload ev with StatusEvent i st => i = id → st = Types.Ok | _ => True end
  end.

Definition op_i64 (op : RouteOp) : Prop :=
  match op with
  | OpEvent ev =>
      in_i64 (e_globalSeq ev) ∧
      match e_payload ev with
      | TradeEvent t =>
          in_i64 (t_id t) ∧ in_i64 (t_aggressorId t) ∧ in_i64 (t_passiveId t) ∧ in_i64 (t_price t) ∧
          in_i64 (t_quantity t)
      | StatusEvent i _ => in_i64 i
      | OrderUpdateEvent _ => True
      end
  | _ => True
  end.

(** ** Proofs *)

Definition tablesOk (sv : Server W) : Prop :=
  0 <= x < Z.of_nat (length (sv_routes sv)) ∧ length (sv_dropped sv) = length (sv_routes sv).

Definition route (sv : Server W) (id : Z) : option nat :=
  t ← aget (sv_routes sv) x; rt_session <$> t !! id.

(** Where an operation leaves the server: what it posted, and the routes it kept. *)
Definition posts (sv sv' : Server W) (ps : list Posted) : Prop :=
  tablesOk sv' ∧ sv_posted sv' = sv_posted sv ++ ps.

Lemma countDropped_ok sv :
  tablesOk sv → ∃ sv', countDropped sv x = Some sv' ∧ posts sv sv' [] ∧ sv_routes sv' = sv_routes sv.
Proof.
  intros [Hx Hl]. unfold countDropped. rewrite <- Hl in Hx. destruct (aget_in _ _ Hx) as [n ->].
  simpl_bind. rewrite aset_in by done. simpl_bind.
  eexists. split; [done|]. split; [|done]. split; [|cbn; by rewrite app_nil_r].
  split; cbn; [lia|by rewrite length_insert].
Qed.

Lemma setTable_ok sv t :
  tablesOk sv →
  ∃ ts, aset (sv_routes sv) x t = Some ts ∧ length ts = length (sv_routes sv) ∧ aget ts x = Some t.
Proof.
  intros [Hx _]. rewrite aset_in by done. eexists. split; [done|]. rewrite length_insert.
  split; [done|]. by apply aget_insert_eq.
Qed.

Lemma frame_concerns m id k k' :
  valid_msg demoDecoder m →
  (∃ rest, payloadOf m = le 8 (u64 id) ++ rest) → in_i64 id → ∀ id',
  concerns k' id' (PostFrame k (frameOf m)) = bool_decide (k = k') && (id =? id').
Proof.
  intros Hv [rest Hp] Hid id'. cbn [concerns]. f_equal. unfold frameOf, frame. rewrite Hp.
  rewrite (getI64_skip _ _ _ 1) by (rewrite ?length_le; lia).
  rewrite (getI64_skip _ _ _ 0) by (rewrite ?length_le; lia). rewrite getI64_here by done.
  destruct (id =? id') eqn:E; [apply bool_decide_eq_true_2; f_equal; lia|].
  apply bool_decide_eq_false_2. intros [= H]. lia.
Qed.

Lemma post_ok {M} (enc : M → list Z → option (list Z * Z)) (inj : M → DecodedMessage) (sv : Server W) k m :
  (∀ m dst, enc m dst = encode (inj m) dst) → valid_msg demoDecoder (inj m) →
  frameSize (msgType (inj m)) <= 128 →
  encodeAndPost enc sv k m = Some (postFrame sv k (frameOf (inj m))).
Proof.
  intros He Hv Hs. unfold encodeAndPost. rewrite He.
  rewrite (encode_ok demoDecoder) by (done || (rewrite length_replicate; lia)). simpl_bind.
  do 2 f_equal. rewrite take_app_le.
  2: { unfold frameOf, frame. rewrite !length_app, !length_le. pose proof (payloadOf_length demoDecoder _ Hv).
       unfold frameSize, kFrameHeaderSize, kMsgTypeSize. lia. }
  rewrite take_ge; [done|]. unfold frameOf, frame. rewrite !length_app, !length_le.
  pose proof (payloadOf_length demoDecoder _ Hv). unfold frameSize, kFrameHeaderSize, kMsgTypeSize. lia.
Qed.

Lemma routeExecReport_ok sv i type q l p t g :
  tablesOk sv → valid_msg demoDecoder (DExecReport (mkExecReport i (execCode type) q l p t g)) →
  ∃ sv' ps, routeExecReport alive sv x i type q l p t g = Some sv' ∧ posts sv sv' ps ∧
    sv_routes sv' = sv_routes sv ∧
    ∀ k id, alive k = true → (i = id → route sv id = Some k) →
      filter (λ a, concerns k id a = true) ps
      = if i =? id then [PostFrame k (frameOf (DExecReport (mkExecReport i (execCode type) q l p t g)))] else [].
Proof.
  intros Hsv Hv. unfold routeExecReport, route. pose proof Hsv as [Hx _]. destruct (aget_in _ _ Hx) as [tb Htb].
  rewrite Htb. simpl_bind.
  assert (Hdrop : (∀ k, alive k = true → rt_session <$> tb !! i ≠ Some k) →
    ∃ sv' ps, countDropped sv x = Some sv' ∧ posts sv sv' ps ∧ sv_routes sv' = sv_routes sv ∧
    ∀ k id, alive k = true → (i = id → rt_session <$> tb !! id = Some k) →
      filter (λ a, concerns k id a = true) ps
      = if i =? id then [PostFrame k (frameOf (DExecReport (mkExecReport i (execCode type) q l p t g)))] else []).
  { intros Hno. destruct (countDropped_ok sv Hsv) as (sv' & -> & Hp & Hr). exists sv', []. split_and!; try done.
    intros k id Hk Ho. destruct (i =? id) eqn:E; [|done]. assert (i = id) as -> by lia. by destruct (Hno k Hk (Ho eq_refl)). }
  destruct (tb !! i) as [e|] eqn:Ei; [|apply Hdrop; by rewrite ?Ei].
  destruct (alive (rt_session e)) eqn:Ea; cbn [negb].
  2: { apply Hdrop. intros k Hk. cbn. intros [= Hek]. congruence. }
  rewrite (post_ok encodeExecReport DExecReport) by (done || lia). eexists _, _. split; [done|].
  split; [by split|]. split; [done|]. intros k id Hk Ho. rewrite filter_cons.
  pose proof (frame_concerns _ i (rt_session e) k Hv) as Hf. cbn [payloadOf er_orderId] in Hf.
  rewrite Hf; [|by eexists|by destruct Hv]. clear Hf. destruct (i =? id) eqn:E.
  - assert (i = id) as -> by lia. specialize (Ho eq_refl). rewrite Ei in Ho. injection Ho as ->.
    rewrite bool_decide_true by done. done.
  - rewrite andb_false_r. done.
Qed.

Lemma posts_app sv1 sv2 sv3 ps qs : posts sv1 sv2 ps → posts sv2 sv3 qs → posts sv1 sv3 (ps ++ qs).
Proof. intros [_ H1] [Ht H2]. split; [done|]. rewrite H2, H1. by rewrite app_assoc. Qed.

Lemma routeReject_ok sv i g :
  tablesOk sv → in_i64 i → in_i64 g →
  ∃ sv' ps, routeReject alive sv x i EngineReject g = Some sv' ∧ posts sv sv' ps ∧
    ∀ k id, i ≠ id → route sv' id = route sv id ∧ filter (λ a, concerns k id a = true) ps = [].
Proof.
  intros Hsv Hi Hg. unfold routeReject, route. pose proof Hsv as [Hx Hl]. destruct (aget_in _ _ Hx) as [tb Htb].
  rewrite Htb. simpl_bind. destruct (tb !! i) as [e|] eqn:Ei.
  - destruct (setTable_ok sv (delete i tb) Hsv) as (ts & -> & Hts & Hget). simpl_bind.
    set (sv1 := setTables sv ts (sv_dropped sv) (sv_posted sv)).
    assert (Hsv1 : tablesOk sv1) by (unfold tablesOk; cbn; by rewrite Hts).
    destruct (alive (rt_session e)); cbn [negb].
    + assert (Hv : valid_msg demoDecoder (DReject (mkRejectMsg i (rejectCode EngineReject) g))) by done.
      rewrite (post_ok encodeReject DReject) by (done || lia). eexists _, _. split; [done|].
      split; [by split|]. intros k id Hne.
      split; [cbn; rewrite Hget; simpl_bind; by rewrite lookup_delete_ne|]. rewrite filter_cons.
      pose proof (frame_concerns _ i (rt_session e) k Hv ltac:(by eexists) Hi id) as Hf. rewrite Hf.
      destruct (i =? id) eqn:E; [lia|]. by rewrite andb_false_r.
    + destruct (countDropped_ok sv1 Hsv1) as (sv' & -> & Hp & Hr). exists sv', []. split; [done|].
      split; [done|]. intros k id Hne. rewrite Hr. cbn. rewrite Hget. simpl_bind.
      by rewrite lookup_delete_ne.
  - destruct (countDropped_ok sv Hsv) as (sv' & -> & Hp & Hr). exists sv', []. split_and!; try done.
    intros k id Hne. rewrite Hr, Htb. done.
Qed.

Definition reportFrames (k : nat) (ms : list ExecReportMsg) : list Posted :=
  (λ m, PostFrame k (frameOf (DExecReport m))) <$> ms.

Lemma i64_0 : in_i64 0.
Proof. done. Qed.

(** One event: the owner of [id] is sent what the event owes it, and stays the owner. *)
Lemma routeOne_ok sv ev k id :
  tablesOk sv → op_i64 (OpEvent ev) → leaves_route k id (OpEvent ev) → alive k = true → route sv id = Some k →
  ∃ sv' ps, routeOne alive sv x ev = Some sv' ∧ posts sv sv' ps ∧ route sv' id = Some k ∧
    filter (λ a, concerns k id a = true) ps = reportFrames k (owed id ev).
Proof.
  intros Hsv [Hg Hi] Hlv Hk Hr. unfold routeOne, owed. destruct ev as [side st act pl g]. cbn in *.
  pose proof i64_0 as H0. destruct pl as [t|i status|u].
  - destruct Hi as (I1 & I2 & I3 & I4 & I5).
    destruct (routeExecReport_ok sv (t_aggressorId t) Fill (t_quantity t) 0 (t_price t) (t_id t) g Hsv)
      as (sv1 & ps1 & -> & Hp1 & Hr1 & Hf1); [by split_and!|]. simpl_bind.
    destruct (routeExecReport_ok sv1 (t_passiveId t) Fill (t_quantity t) 0 (t_price t) (t_id t) g (proj1 Hp1))
      as (sv2 & ps2 & -> & Hp2 & Hr2 & Hf2); [by split_and!|].
    exists sv2, (ps1 ++ ps2). split; [done|]. split; [by eapply posts_app|].
    unfold route in *. rewrite Hr2, Hr1 in *. split; [done|].
    rewrite filter_app, (Hf1 k id Hk (λ _, Hr)), (Hf2 k id Hk (λ _, Hr)). unfold reportFrames.
    rewrite fmap_app. destruct (t_aggressorId t =? id) eqn:Ea, (t_passiveId t =? id) eqn:Ep; cbn; try done;
      rewrite ?Z.eqb_eq in Ea; rewrite ?Z.eqb_eq in Ep; unfold fillReport; by rewrite ?Ea, ?Ep.
  - case_bool_decide as Hst.
    + destruct (routeExecReport_ok sv i NewAck 0 0 0 0 g Hsv) as (sv1 & ps1 & -> & Hp1 & Hr1 & Hf1); [by split_and!|].
      exists sv1, ps1. split; [done|]. split; [done|]. unfold route in *. rewrite Hr1. split; [done|].
      rewrite (Hf1 k id Hk (λ _, Hr)). rewrite andb_true_r. destruct (i =? id) eqn:E; [|done].
      apply Z.eqb_eq in E. by subst.
    + assert (Hne : i ≠ id) by (intros ->; by apply Hst, Hlv).
      destruct (routeReject_ok sv i g Hsv Hi Hg) as (sv1 & ps1 & -> & Hp1 & Hf1).
      destruct (Hf1 k id Hne) as [Hr1 Hf]. exists sv1, ps1. rewrite Hr1, andb_false_r. done.
  - exists sv, []. split_and!; try done. split; [done|]. by rewrite app_nil_r.
Qed.

Lemma register_ok sv id k n :
  tablesOk sv → ∃ sv', registerRoute sv x id k n = Some sv' ∧ posts sv sv' [] ∧ route sv' id = Some k.
Proof.
  intros Hsv. pose proof Hsv as [Hx Hl]. destruct (aget_in _ _ Hx) as [tb Htb]. unfold registerRoute, route.
  rewrite Htb. simpl_bind.
  destruct (setTable_ok sv (<[id := mkRoute k n]> tb) Hsv) as (ts & -> & Hts & Hget). simpl_bind.
  eexists. split; [done|]. split; [split; [unfold tablesOk; cbn; by rewrite Hts|cbn; by rewrite app_nil_r]|].
  cbn. rewrite Hget. simpl_bind. by rewrite lookup_insert_eq.
Qed.

Lemma routeOp_ok sv op k id :
  tablesOk sv → op_i64 op → leaves_route k id op → alive k = true → route sv id = Some k →
  ∃ sv' ps, routeOp sv op = Some sv' ∧ posts sv sv' ps ∧ route sv' id = Some k ∧
    filter (λ a, concerns k id a = true) ps = reportFrames k (owedBy id op).
Proof.
  intros Hsv Hi Hlv Hk Hr. destruct op as [i session n|i|ev]; [..|by apply routeOne_ok]; cbn [routeOp owedBy];
    pose proof Hsv as [Hx Hl]; destruct (aget_in _ _ Hx) as [tb Htb]; unfold registerRoute, eraseRoute, route in *;
    rewrite Htb in *; cbn [mbind option_bind] in *.
  - destruct (setTable_ok sv (<[i := mkRoute session n]> tb) Hsv) as (ts & -> & Hts & Hget). simpl_bind.
    eexists _, []. split; [done|]. split; [split; [unfold tablesOk; cbn; by rewrite Hts|cbn; by rewrite app_nil_r]|].
    split; [|done]. cbn. rewrite Hget. simpl_bind. destruct (decide (i = id)) as [->|Hne].
    + rewrite lookup_insert_eq. cbn. by rewrite (Hlv eq_refl).
    + by rewrite lookup_insert_ne.
  - destruct (setTable_ok sv (delete i tb) Hsv) as (ts & -> & Hts & Hget). simpl_bind.
    eexists _, []. split; [done|]. split; [split; [unfold tablesOk; cbn; by rewrite Hts|cbn; by rewrite app_nil_r]|].
    split; [|done]. cbn. rewrite Hget. simpl_bind. by rewrite lookup_delete_ne.
Qed.

Lemma routeOps_ok ops sv k id :
  tablesOk sv → Forall op_i64 ops → Forall (leaves_route k id) ops → alive k = true → route sv id = Some k →
  ∃ sv' ps, routeOps sv ops = Some sv' ∧ posts sv sv' ps ∧ route sv' id = Some k ∧
    filter (λ a, concerns k id a = true) ps = reportFrames k (concat (owedBy id <$> ops)).
Proof.
  intros Hsv Hi Hl Hk. revert sv Hsv. induction ops as [|op ops IH]; intros sv Hsv Hr; cbn [routeOps].
  { exists sv, []. split_and!; try done. split; [done|]. by rewrite app_nil_r. }
  apply Forall_cons in Hi as [Hi1 Hi], Hl as [Hl1 Hl].
  destruct (routeOp_ok sv op k id Hsv Hi1 Hl1 Hk Hr) as (sv1 & ps1 & -> & Hp1 & Hr1 & Hf1). simpl_bind.
  destruct (IH Hi Hl sv1 (proj1 Hp1) Hr1) as (sv2 & ps2 & -> & Hp2 & Hr2 & Hf2).
  exists sv2, (ps1 ++ ps2). split; [done|]. split; [by eapply posts_app|]. split; [done|].
  rewrite filter_app, Hf1, Hf2. unfold reportFrames. cbn. by rewrite fmap_app.
Qed.
End ops.

(** ** The drain loop *)

Section drain.
Context {W : Type} (alive : nat → bool) (Capacity x : Z).

Lemma routerDrain_S fuel r (sv : Server W) any :
  routerDrain alive (S fuel) Capacity x r sv any =
    ('(r, o) ← tryPeek Capacity r 0;
     match o with
     | None => Some (r, sv, any)
     | Some el =>
         ev ← el !! 0%nat;
         sv ← routeOne alive sv x ev;
         r ← MulticastRing.consume r 0;
         routerDrain alive fuel Capacity x r sv true
     end).
Proof. done. Qed.

Lemma routerDrain_ok evs fuel r (sv sv' : Server W) any c :
  ring_holds Capacity 0 r evs c → (length evs < fuel)%nat →
  routeOps alive x sv (OpEvent <$> evs) = Some sv' →
  ∃ r' c', routerDrain alive fuel Capacity x r sv any
      = Some (r', sv', any || bool_decide (evs ≠ [])) ∧ ring_holds Capacity 0 r' [] c'.
Proof.
  revert fuel r sv any c. induction evs as [|ev evs IH]; intros fuel r sv any c Hh Hf Hops;
    (destruct fuel as [|fuel]; [cbn in Hf; lia|]); rewrite routerDrain_S; cbn [fmap list_fmap routeOps length] in *.
  - injection Hops as ->. destruct (tryPeek_empty Capacity 0 r c Hh) as (r' & c' & -> & Hh' & _).
    simpl_bind. exists r', c'. rewrite bool_decide_false by auto. by rewrite orb_false_r.
  - destruct (tryPeek_event Capacity 0 r ev evs c Hh) as (r1 & c1 & -> & Hh1 & _ & Hlt). simpl_bind.
    change ([ev] !! 0%nat) with (Some ev). simpl_bind.
    cbn [routeOp] in Hops. destruct (routeOne alive sv x ev) as [sv1|]; [|done]. cbn [mbind option_bind] in *.
    destruct (consume_event Capacity 0 r1 ev evs c1 Hh1 Hlt) as (r2 & c2 & -> & Hh2 & _). simpl_bind.
    destruct (IH fuel r2 sv1 true c2 Hh2 ltac:(lia) Hops) as (r' & c' & -> & Hh').
    exists r', c'. rewrite (bool_decide_true (ev :: evs ≠ [])) by done. by rewrite orb_true_r.
Qed.
End drain.

Lemma routeOps_app {W} alive x (sv : Server W) xs ys :
  routeOps alive x sv (xs ++ ys) = (sv' ← routeOps alive x sv xs; routeOps alive x sv' ys).
Proof.
  revert sv. induction xs as [|op xs IH]; intros sv; [done|]. cbn [app routeOps].
  destruct (routeOp alive x sv op); [|done]. simpl_bind. apply IH.
Qed.

(** C16: Reports reach the session of the order.  A session that is alive registers the
    route of an order; then, in any interleaving, sessions register and erase routes of the
    shard and its router handles events; then the router drains what the ring of the shard
    holds, in any state the ring can reach.  As long as no other session registers the same
    order id and the engine does not reject it, the session has been posted, for every fill
    and every acknowledgement of the order, exactly one frame, in the order of the events,
    that encodes the event; and the ring is empty for the router. *)
Theorem fills_reach_their_session {W} alive Capacity kbits mask N dflt (s : Exec OutboundEvent) c evs x
    (sv : Server W) k id n ops fuel :
  0 <= kbits <= 63 → Capacity = 2 ^ kbits → length dflt = 1%nat → exec_reach Capacity 1 mask N dflt s →
  gating mask 0 = true → mc_cursors (e_ring s) !! 0%nat = Some c →
  drop (Z.to_nat (c_tail c)) (e_sent s) = (λ ev, [ev]) <$> evs → (length evs < fuel)%nat →
  tablesOk x sv → alive k = true → Forall op_i64 (ops ++ (OpEvent <$> evs)) →
  Forall (leaves_route k id) (ops ++ (OpEvent <$> evs)) →
  ∃ sv1 r' sv2 ps c', routeOps alive x sv (OpRegister id k n :: ops) = Some sv1 ∧
    routerTurn alive fuel Capacity x (e_ring s) sv1 = Some (r', sv2) ∧
    sv_posted sv2 = sv_posted sv ++ ps ∧
    filter (λ a, concerns k id a = true) ps
      = reportFrames k (concat (owedBy id <$> ops) ++ concat (owed id <$> evs)) ∧
    mc_cursors r' !! 0%nat = Some c' ∧ c_tail c' = mc_head r'.
Proof.
  intros Hk HCap Hd Hre Hg Hc Hev Hfuel Hsv Hal Hi Hlv.
  pose proof (ring_holds_reach Capacity kbits mask N dflt s 0 c evs Hk HCap Hd Hre Hc Hev (or_introl Hg)) as Hh.
  destruct (register_ok x sv id k n Hsv) as (sv0 & H0 & [Ht0 Hp0] & Hr0).
  destruct (routeOps_ok alive x _ sv0 k id Ht0 Hi Hlv Hal Hr0) as (sv2 & ps & Hops & [_ Hps] & _ & Hf).
  rewrite routeOps_app in Hops. destruct (routeOps alive x sv0 ops) as [sv1|] eqn:E1; [|done].
  cbn [mbind option_bind] in Hops.
  destruct (routerDrain_ok alive Capacity x evs fuel (e_ring s) sv1 sv2 false c Hh Hfuel Hops) as (r' & c' & Hdr & Hh').
  destruct Hh' as [G1 _ _ G4 _]. cbn [length] in G4.
  rewrite fmap_app, concat_app, <- list_fmap_compose in Hf.
  exists sv1, r', (if bool_decide (evs ≠ []) then
    setTables sv2 (sv_routes sv2) (sv_dropped sv2) (sv_posted sv2 ++ [PostRetry]) else sv2),
    (ps ++ if bool_decide (evs ≠ []) then [PostRetry] else []), c'.
  split; [cbn [routeOps routeOp]; by rewrite H0|].
  split; [unfold routerTurn; by rewrite Hdr|]. rewrite app_nil_r in Hp0.
  split; [case_bool_decide; cbn; rewrite Hps, Hp0, <- ?app_assoc, ?app_nil_r; done|].
  split; [|split; [done|lia]]. rewrite filter_app, Hf. case_bool_decide; cbn; by rewrite app_nil_r.
Qed.

(** *** One fill, through a ring of two slots *)

Definition emptyServer : Server unit := mkServer tt [∅] [0] [].

Definition demoFill : OutboundEvent := tradeEvent (mkTrade 1 6 5 120 3 Buy) 9.

Lemma fills_reach_their_session_witness :
  ∃ sv1 r' sv2 ps,
    routeOps (λ _, true) 0 emptyServer [OpRegister 5 0 1; OpRegister 6 1 1] = Some sv1 ∧
    routerTurn (λ _, true) 2 2 0 (e_ring (ringWith (statusEvent 0 Types.Ok 0) demoFill)) sv1 = Some (r', sv2) ∧
    sv_posted sv2 = ps ∧
    filter (λ a, concerns 0 5 a = true) ps
      = [PostFrame 0 (frameOf (DExecReport (mkExecReport 5 2 3 0 120 1 9)))].
Proof.
  destruct (fills_reach_their_session (λ _, true) 2 1 1 2 [statusEvent 0 Types.Ok 0]
    (ringWith (statusEvent 0 Types.Ok 0) demoFill) (mkCursor 0 0 0) [demoFill] 0 emptyServer 0 5 1
    [OpRegister 6 1 1] 2) as (sv1 & r' & sv2 & ps & c' & H1 & H2 & H3 & H4 & _).
  - lia.
  - reflexivity.
  - reflexivity.
  - apply ringWith_reach.
  - reflexivity.
  - reflexivity.
  - reflexivity.
  - cbn. lia.
  - split; [cbn; lia|reflexivity].
  - reflexivity.
  - repeat constructor; vm_compute; discriminate.
  - repeat constructor; intros [=].
  - exists sv1, r', sv2, ps. split; [exact H1|]. split; [exact H2|]. split; [exact H3|exact H4].
Defined.

(** ** Where the code falls short of its comments *)

(** Participant 8 reuses the id of an order of participant 7.  The engine rejects the
    duplicate, and the rejection takes the route of the id away: when the resting
    order of participant 7 trades, its session is told nothing, and the report is
    counted as dropped. *)
Theorem duplicate_id_silences_order :
  let cmds := [mkCommand 5 0 120 5 7 KNew Sell Limit; mkCommand 5 0 120 1 8 KNew Sell Limit;
               mkCommand 6 0 120 5 9 KNew Buy Limit] in
  let ops evs := [OpRegister 5 0 1; OpRegister 5 1 1; OpRegister 6 2 1] ++ (OpEvent <$> evs) in
  ∃ m sv, run (matchingNew (bookNew tapeConfig) 0) cmds = Some m ∧
    routeOps (λ _, true) 0 emptyServer (ops (mt_out m)) = Some sv ∧
    concat (owed 5 <$> mt_out m) = [mkExecReport 5 2 5 0 120 0 3] ∧
    filter (λ p, concerns 0 5 p = true) (sv_posted sv) = [] ∧ droppedRoutes sv = 1.
Proof.
  intros cmds ops.
  destruct (run (matchingNew (bookNew tapeConfig) 0) cmds) as [m|] eqn:Hm; [|vm_compute in Hm; discriminate].
  vm_compute in Hm. injection Hm as <-.
  match goal with |- ∃ m' sv, Some ?m = _ ∧ _ => exists m end.
  eexists. split; [reflexivity|]. split; [vm_compute; reflexivity|]. split; [|split]; vm_compute; reflexivity.
Qed.

(** The id, price and remaining quantity of the bids and of the asks. *)
Definition restingOf (b : OrderBook) : option (list (Z * Z * Z) * list (Z * Z * Z)) :=
  let show := list_fmap _ _ (λ o, (ao_id o, ao_price o, ao_remaining o)) in
  bids ← walkSide b Buy; asks ← walkSide b Sell; Some (show bids, show asks).

(** A replace message has no side, and [handleCancelReplace] leaves the side of its
    command at the default: replacing a resting sell order at 120 turns it into a buy
    order. *)
Theorem replace_message_flips_side :
  (m ← run (matchingNew (bookNew tapeConfig) 0)
         [mkCommand 5 0 120 5 7 KNew Sell Limit; replaceCommand 7 (mkCancelReplace 2 5 1 110 3)];
   restingOf (mt_book m)) = Some ([(5, 110, 3)], []).
Proof. vm_compute. reflexivity. Qed.

(** A cancel names an order, and nobody looks at whose it is: participant 8 cancels the
    order of participant 7. *)
Theorem any_participant_cancels :
  (m ← run (matchingNew (bookNew tapeConfig) 0)
         [mkCommand 5 0 120 5 7 KNew Sell Limit; cancelCommand 8 (mkCancel 2 5 1)];
   restingOf (mt_book m)) = Some ([], []).
Proof. vm_compute. reflexivity. Qed.
