(* ===== verification/FeedServer.v ===== *)
(** The market-data fan-out: [marketdata/feed_server.hpp].

    Every subscriber has a queue of frames in front of its socket, limited to
    [maxQueueBytes].  Sessions are shared between the server's list and the handlers
    of their outstanding reads and writes, so a session that left the list still gets
    completions: the model keeps all sessions in a store and the list as references
    into it.  A socket takes the bytes of a write in pieces of any size; a write that
    fails, or a session that is closed while one is outstanding, has sent a part of
    its frame. *)
From S2P Require Import Prelude Types.

(** ** Sessions *)

(** [fs_socket]: the bytes that went out; [fs_sent]: how many of them are of the frame in
    front, which the outstanding write is sending. *)
Record FeedSession := mkFeedSession {
  fs_pending : list (list Z);
  fs_queuedBytes : Z;
  fs_writing : bool;
  fs_closed : bool;
  fs_socket : list Z;
  fs_sent : nat
}.

Definition feedSessionNew : FeedSession := mkFeedSession [] 0 false false [] 0.

Definition closeFeed (s : FeedSession) : FeedSession :=
  mkFeedSession (fs_pending s) (fs_queuedBytes s) (fs_writing s) true (fs_socket s) (fs_sent s).

Definition doWriteFeed (s : FeedSession) : FeedSession :=
  mkFeedSession (fs_pending s) (fs_queuedBytes s) (match fs_pending s with [] => false | _ => true end)
    (fs_closed s) (fs_socket s) (fs_sent s).

Section server.
Context (maxQueueBytes : Z).

Definition enqueue (s : FeedSession) (data : list Z) : FeedSession :=
  let n := Z.of_nat (length data) in
  if fs_closed s then s
  else if maxQueueBytes <? u64 (fs_queuedBytes s + n) then closeFeed s
  else
    let s := mkFeedSession (fs_pending s ++ [data]) (u64 (fs_queuedBytes s + n)) (fs_writing s)
               (fs_closed s) (fs_socket s) (fs_sent s) in
    if fs_writing s then s else doWriteFeed s.

(** The frame of the outstanding [async_write]. *)
Definition front (s : FeedSession) : list Z := default [] (head (fs_pending s)).

(** The socket takes [n] more bytes of it; a closed one takes none. *)
Definition transferred (s : FeedSession) (n : nat) : FeedSession :=
  if fs_closed s then s
  else
    let chunk := take n (drop (fs_sent s) (front s)) in
    mkFeedSession (fs_pending s) (fs_queuedBytes s) (fs_writing s) (fs_closed s) (fs_socket s ++ chunk)
      (fs_sent s + length chunk).

(** The completion of [async_write]: a success has transferred the whole frame, an error
    any part of it. *)
Definition written (s : FeedSession) (ok : bool) : FeedSession :=
  if negb ok then closeFeed s
  else
    match fs_pending s with
    | [] => s
    | f :: rest =>
        doWriteFeed (mkFeedSession rest (u64 (fs_queuedBytes s - Z.of_nat (length f)))
                       (fs_writing s) (fs_closed s) (fs_socket s) 0)
    end.

(** The completion of [async_read_some]: what the subscriber sends is discarded. *)
Definition readFeed (s : FeedSession) (ok : bool) : FeedSession := if ok then s else closeFeed s.

(** ** The server *)

Record FeedServer := mkFeedServer { fv_store : list FeedSession; fv_sessions : list nat }.

Definition feedServerNew : FeedServer := mkFeedServer [] [].

(** [async_accept] without an error; the burst goes to the new session alone, before
    it joins the list. *)
Definition acceptFeed (v : FeedServer) (burst : option (list (list Z))) : FeedServer :=
  let s := foldl enqueue feedSessionNew (default [] burst) in
  mkFeedServer (fv_store v ++ [s]) (fv_sessions v ++ [length (fv_store v)]).

Fixpoint broadcastLoop (store : list FeedSession) (sessions : list nat) (data : list Z) :
    option (list FeedSession * list nat) :=
  match sessions with
  | [] => Some (store, [])
  | i :: rest =>
      s ← store !! i;
      if fs_closed s then broadcastLoop store rest data
      else
        '(store, rest) ← broadcastLoop (<[i := enqueue s data]> store) rest data;
        Some (store, i :: rest)
  end.

Definition broadcast (v : FeedServer) (data : list Z) : option FeedServer :=
  '(store, sessions) ← broadcastLoop (fv_store v) (fv_sessions v) data;
  Some (mkFeedServer store sessions).

(** What the io thread runs, and what happens on the sockets in between: [send]
    dispatches to [broadcast]. *)
Inductive FeedEvent :=
  | FeedAccept (burst : option (list (list Z)))
  | FeedSend (data : list Z)
  | FeedTransfer (i n : nat)
  | FeedWritten (i : nat) (ok : bool)
  | FeedRead (i : nat) (ok : bool).

Definition onSession (v : FeedServer) (i : nat) (f : FeedSession → FeedSession) : option FeedServer :=
  s ← fv_store v !! i; Some (mkFeedServer (<[i := f s]> (fv_store v)) (fv_sessions v)).

Definition feedStep (v : FeedServer) (e : FeedEvent) : option FeedServer :=
  match e with
  | FeedAccept burst => Some (acceptFeed v burst)
  | FeedSend data => broadcast v data
  | FeedTransfer i n => onSession v i (λ s, transferred s n)
  | FeedWritten i ok => onSession v i (λ s, written s ok)
  | FeedRead i ok => onSession v i (λ s, readFeed s ok)
  end.

(** A completion is of an operation some session has outstanding, and a write completes
    without an error when its frame has gone out; frames have a length. *)
Definition feed_event_ok (v : FeedServer) (e : FeedEvent) : Prop :=
  match e with
  | FeedTransfer i _ => ∃ s, fv_store v !! i = Some s ∧ fs_writing s = true
  | FeedWritten i ok =>
      ∃ s, fv_store v !! i = Some s ∧ fs_writing s = true ∧ (ok = true → fs_sent s = length (front s))
  | FeedRead i _ => (i < length (fv_store v))%nat
  | FeedAccept burst => Forall (λ f, Z.of_nat (length f) < 2 ^ 63) (default [] burst)
  | FeedSend data => Z.of_nat (length data) < 2 ^ 63
  end.

(** ** Reference: what each subscriber is offered *)

(** The burst and every frame sent since, for each session in the order accepted. *)
Definition offer (off : list (list (list Z))) (e : FeedEvent) : list (list (list Z)) :=
  match e with
  | FeedAccept burst => off ++ [default [] burst]
  | FeedSend data => (λ o, o ++ [data]) <$> off
  | _ => off
  end.

(** ** Proofs *)

Fixpoint bytesOf (l : list (list Z)) : Z :=
  match l with [] => 0 | f :: l => Z.of_nat (length f) + bytesOf l end.

Lemma bytesOf_app l l' : bytesOf (l ++ l') = bytesOf l + bytesOf l'.
Proof. induction l as [|f l IH]; cbn [bytesOf app]; lia. Qed.

Lemma bytesOf_nonneg l : 0 <= bytesOf l.
Proof. induction l as [|f l IH]; cbn [bytesOf app]; lia. Qed.

(** The next piece of what is being written. *)
Lemma take_chunk {A} (l : list A) k n :
  (k <= length l)%nat → take k l ++ take n (drop k l) = take (k + length (take n (drop k l))) l.
Proof.
  intros Hk. rewrite length_take, length_drop. rewrite <- (take_drop k (take (k + _) l)).
  rewrite take_take, Nat.min_l by lia. f_equal. rewrite skipn_firstn_comm.
  replace (k + n `min` (length l - k) - k)%nat with (n `min` (length l - k))%nat by lia.
  destruct (decide (n <= length l - k)%nat); [by rewrite Nat.min_l by lia|].
  rewrite Nat.min_r, !take_ge by (rewrite ?length_drop; lia). done.
Qed.

(** A session against what it was offered: the frames [out] have gone out as a whole, and
    of the next one a part. *)
Record feed_session_at (off out : list (list Z)) (s : FeedSession) : Prop := {
  fo_prefix : out ++ fs_pending s `prefix_of` off;
  fo_open : fs_closed s = false → out ++ fs_pending s = off;
  fo_socket : fs_socket s = concat out ++ take (fs_sent s) (front s);
  fo_sent : (fs_sent s <= length (front s))%nat;
  fo_queued : fs_queuedBytes s = bytesOf (fs_pending s);
  fo_bound : fs_queuedBytes s <= maxQueueBytes;
  fo_writing : fs_writing s = bool_decide (fs_pending s ≠ [])
}.

Definition feed_session_ok (off : list (list Z)) (s : FeedSession) : Prop := ∃ out, feed_session_at off out s.

Context (Hmax : 0 <= maxQueueBytes < 2 ^ 63).

Lemma close_ok off s : feed_session_ok off s → feed_session_ok off (closeFeed s).
Proof. intros [out []]. exists out. by split. Qed.

Lemma offered_closed off s data : feed_session_ok off s → fs_closed s = true → feed_session_ok (off ++ [data]) s.
Proof. intros [out []] Hc. exists out. split; try done; [by apply prefix_app_r|congruence]. Qed.

Lemma enqueue_offered off s data :
  Z.of_nat (length data) < 2 ^ 63 → feed_session_ok off s → feed_session_ok (off ++ [data]) (enqueue s data).
Proof using Hmax.
  intros Hd Hs. unfold enqueue. destruct (fs_closed s) eqn:Hc; [by apply offered_closed|].
  pose proof Hs as (out & [H1 H2 H6 H7 H3 H4 H5]). pose proof (bytesOf_nonneg (fs_pending s)).
  u64_small. specialize (H2 Hc).
  destruct (maxQueueBytes <? _) eqn:E.
  - apply offered_closed; [by apply close_ok|done].
  - assert (Hok : feed_session_ok (off ++ [data]) (mkFeedSession (fs_pending s ++ [data])
        (fs_queuedBytes s + Z.of_nat (length data)) true false (fs_socket s) (fs_sent s))).
    { assert (Heq : out ++ fs_pending s ++ [data] = off ++ [data]) by (by rewrite app_assoc, H2).
      exists out. split; cbn; try done.
      - by rewrite Heq.
      - rewrite H6. unfold front in *. cbn. destruct (fs_pending s); [|done]. cbn in H7.
        by replace (fs_sent s) with 0%nat by lia.
      - unfold front in *. cbn. destruct (fs_pending s); [cbn in *; lia|done].
      - rewrite bytesOf_app, H3. cbn [bytesOf]. lia.
      - lia.
      - symmetry. apply bool_decide_eq_true. by destruct (fs_pending s). }
    cbn [fs_writing]. destruct (fs_writing s) eqn:Ew; [done|]. unfold doWriteFeed. cbn.
    replace (match fs_pending s ++ [data] with [] => false | _ => true end) with true; [done|].
    by destruct (fs_pending s).
Qed.

Lemma transferred_ok off s n : feed_session_ok off s → feed_session_ok off (transferred s n).
Proof.
  intros (out & [H1 H2 H6 H7 H3 H4 H5]). exists out. unfold transferred. destruct (fs_closed s) eqn:Hc; [by split; rewrite ?Hc|].
  split; cbn; try done.
  - rewrite H6, <- app_assoc. f_equal. by apply take_chunk.
  - change (front (mkFeedSession _ _ _ _ _ _)) with (front s). rewrite length_take, length_drop. lia.
Qed.

Lemma written_ok off s ok :
  (ok = true → fs_sent s = length (front s)) → feed_session_ok off s → feed_session_ok off (written s ok).
Proof using Hmax.
  intros Hall Hs. unfold written. destruct ok; cbn [negb]; [|by apply close_ok]. specialize (Hall eq_refl).
  destruct Hs as (out & [H1 H2 H6 H7 H3 H4 H5]). unfold front in *.
  destruct (fs_pending s) as [|f rest] eqn:Ep; [by exists out; split; unfold front; rewrite ?Ep|].
  cbn [bytesOf head default from_option] in *. pose proof (bytesOf_nonneg rest).
  u64_small.
  assert (Heq : (out ++ [f]) ++ rest = out ++ f :: rest) by (by rewrite <- app_assoc).
  exists (out ++ [f]). split; cbn; rewrite ?Heq; try done; try lia; [|by destruct rest].
  rewrite H6, Hall, take_ge, take_0, app_nil_r by done. by rewrite concat_app, concat_cons, app_nil_r.
Qed.

Lemma burst_ok frames :
  Forall (λ f, Z.of_nat (length f) < 2 ^ 63) frames →
  feed_session_ok frames (foldl enqueue feedSessionNew frames).
Proof using Hmax.
  intros Hf. change frames with ([] ++ frames) at 1.
  assert (H0 : feed_session_ok [] feedSessionNew) by (exists []; split; cbn; done || lia).
  revert H0 Hf. generalize (@nil (list Z)) feedSessionNew. induction frames as [|f frames IH]; intros off s Hs Hf.
  - by rewrite app_nil_r.
  - apply Forall_cons in Hf as [Hf1 Hf]. cbn [foldl].
    replace (off ++ f :: frames) with ((off ++ [f]) ++ frames) by (by rewrite <- app_assoc).
    apply IH; [by apply enqueue_offered|done].
Qed.

(** The server: the list refers to stored sessions, each once, and to every open one. *)
Record feed_server_ok (off : list (list (list Z))) (v : FeedServer) : Prop := {
  vo_sessions : Forall2 feed_session_ok off (fv_store v);
  vo_nodup : NoDup (fv_sessions v);
  vo_bound : Forall (λ i, (i < length (fv_store v))%nat) (fv_sessions v);
  vo_open i s : fv_store v !! i = Some s → fs_closed s = false → i ∈ fv_sessions v
}.

(** What a broadcast does to the store: the listed sessions are offered the frame,
    the others stay. *)
Lemma broadcastLoop_ok data store sessions :
  NoDup sessions → Forall (λ i, (i < length store)%nat) sessions →
  ∃ store' sessions', broadcastLoop store sessions data = Some (store', sessions') ∧
    length store' = length store ∧ sessions' `sublist_of` sessions ∧
    (∀ i s, store !! i = Some s → i ∈ sessions →
       store' !! i = Some (enqueue s data) ∧ (fs_closed s = false → i ∈ sessions')) ∧
    (∀ i, i ∉ sessions → store' !! i = store !! i).
Proof.
  revert store. induction sessions as [|i rest IH]; intros store Hnd Hb; cbn [broadcastLoop].
  { exists store, []. split_and!; try done; set_solver. }
  apply NoDup_cons in Hnd as [Hni Hnd]. apply Forall_cons in Hb as [Hi Hb].
  destruct (lookup_lt_is_Some_2 store i Hi) as [s Hs]. rewrite Hs. simpl_bind.
  destruct (fs_closed s) eqn:Hc.
  - destruct (IH store Hnd Hb) as (st & ss & -> & Hl & Hsub & Hin & Hout). exists st, ss.
    split; [done|]. split; [done|]. split; [by apply sublist_cons|]. split.
    + intros j s' Hj [->|Hjr]%elem_of_cons; [|by apply Hin].
      rewrite (Hout i Hni), Hj. assert (s' = s) as -> by congruence. unfold enqueue. rewrite Hc. done.
    + intros j Hj. apply Hout. set_solver.
  - destruct (IH (<[i := enqueue s data]> store) Hnd) as (st & ss & -> & Hl & Hsub & Hin & Hout).
    { by rewrite length_insert. }
    simpl_bind. exists st, (i :: ss). split; [done|]. rewrite length_insert in Hl. split; [done|].
    split; [by apply sublist_skip|]. split.
    + intros j s' Hj [->|Hjr]%elem_of_cons.
      * assert (s' = s) as -> by congruence. rewrite (Hout i Hni), list_lookup_insert_eq by done. set_solver.
      * assert (j ≠ i) by (intros ->; done). destruct (Hin j s') as [H1 H2]; [by rewrite list_lookup_insert_ne|done|].
        split; [done|]. set_solver.
    + intros j Hj. rewrite Hout by set_solver. apply list_lookup_insert_ne. set_solver.
Qed.

Lemma broadcast_ok off v data :
  Z.of_nat (length data) < 2 ^ 63 → feed_server_ok off v →
  ∃ v', broadcast v data = Some v' ∧ feed_server_ok ((λ o, o ++ [data]) <$> off) v'.
Proof using Hmax.
  intros Hd [H1 H2 H3 H4]. unfold broadcast.
  destruct (broadcastLoop_ok data (fv_store v) (fv_sessions v) H2 H3) as (st & ss & -> & Hl & Hsub & Hin & Hout).
  simpl_bind. eexists. split; [done|].
  assert (Hst : ∀ i s, fv_store v !! i = Some s →
    st !! i = Some (enqueue s data) ∧ (fs_closed s = false → i ∈ ss)).
  { intros i s Hs. destruct (decide (i ∈ fv_sessions v)) as [Hi|Hi]; [by apply Hin|].
    rewrite (Hout i Hi), Hs. destruct (fs_closed s) eqn:Hc; [|by destruct (Hi (H4 i s Hs Hc))].
    unfold enqueue. rewrite Hc. done. }
  split; cbn [fv_store fv_sessions].
  - apply Forall2_same_length_lookup_2; [rewrite length_fmap, Hl; by eapply Forall2_length|].
    intros i o s Ho Hs. apply list_lookup_fmap_Some in Ho as (o' & -> & Ho').
    destruct (Forall2_lookup_l _ _ _ _ _ H1 Ho') as (s' & Hs' & Hok).
    destruct (Hst i s' Hs') as [He _]. rewrite He in Hs. injection Hs as <-. by apply enqueue_offered.
  - by eapply sublist_NoDup.
  - rewrite Hl. rewrite Forall_forall in *. intros i Hi. apply H3.
    by eapply elem_of_sublist.
  - intros i s Hs Hc. assert (Hi : is_Some (fv_store v !! i)).
    { apply lookup_lt_is_Some. rewrite <- Hl. by eapply lookup_lt_Some. }
    destruct Hi as [s' Hs']. destruct (Hst i s' Hs') as [He Hin']. rewrite He in Hs. injection Hs as <-.
    apply Hin'. unfold enqueue in Hc. destruct (fs_closed s') eqn:Hc'; congruence.
Qed.

Lemma onSession_ok off v i f :
  feed_server_ok off v →
  (∃ s, fv_store v !! i = Some s ∧
    ∀ o, feed_session_ok o s → feed_session_ok o (f s) ∧ (fs_closed (f s) = false → fs_closed s = false)) →
  ∃ v', onSession v i f = Some v' ∧ feed_server_ok off v'.
Proof.
  intros [H1 H2 H3 H4] Hf. unfold onSession. destruct Hf as (s & Hs & Hf). rewrite Hs.
  simpl_bind. eexists. split; [done|]. destruct (Forall2_lookup_r _ _ _ _ _ H1 Hs) as (o & Ho & Hok).
  split; cbn [fv_store fv_sessions]; [|done|by rewrite length_insert|].
  - rewrite <- (list_insert_id off i o Ho). apply Forall2_insert; [done|]. by apply Hf.
  - intros j s' Hj Hc. destruct (decide (i = j)) as [<-|Hne].
    + rewrite list_lookup_insert_eq in Hj by (by eapply lookup_lt_Some). injection Hj as <-. eapply H4; [done|]. by eapply Hf.
    + rewrite list_lookup_insert_ne in Hj by done. by eapply H4.
Qed.

Inductive feed_reach : list FeedEvent → FeedServer → Prop :=
  | feed_init : feed_reach [] feedServerNew
  | feed_next es v e v' :
      feed_reach es v → feed_event_ok v e → feedStep v e = Some v' → feed_reach (es ++ [e]) v'.

Lemma feedStep_ok off v e :
  feed_server_ok off v → feed_event_ok v e → ∃ v', feedStep v e = Some v' ∧ feed_server_ok (offer off e) v'.
Proof using Hmax.
  intros Hv He. destruct e as [burst|data|i n|i ok|i ok]; cbn [feedStep offer feed_event_ok] in *.
  - eexists. split; [done|]. destruct Hv as [H1 H2 H3 H4]. unfold acceptFeed. split; cbn [fv_store fv_sessions].
    + apply Forall2_app; [done|]. apply Forall2_cons. split; [by apply burst_ok|by apply Forall2_nil].
    + apply NoDup_app. split; [done|]. split; [|by apply NoDup_singleton]. intros i Hi ->%list_elem_of_singleton.
      rewrite Forall_forall in H3. apply H3 in Hi. lia.
    + rewrite length_app. cbn [length]. apply Forall_app. split; [|by repeat constructor; lia].
      eapply Forall_impl; [exact H3|]. cbn. lia.
    + intros i s Hs Hc. apply elem_of_app. apply lookup_app_Some in Hs as [Hs|[Hi Hs]]; [left; by eapply H4|right].
      destruct (i - length (fv_store v))%nat eqn:Ei; [|done]. apply list_elem_of_singleton. lia.
  - by apply broadcast_ok.
  - destruct He as (s & Hs & _). apply onSession_ok; [done|]. exists s. split; [done|].
    intros o Hok. split; [by apply transferred_ok|]. unfold transferred. by destruct (fs_closed s) eqn:E; rewrite ?E.
  - destruct He as (s & Hs & _ & Hall). apply onSession_ok; [done|]. exists s. split; [done|].
    intros o Hok. split; [by apply written_ok|]. unfold written. destruct ok; [|done]. cbn [negb].
    by destruct (fs_pending s).
  - apply onSession_ok; [done|]. destruct (lookup_lt_is_Some_2 _ _ He) as [s Hs]. exists s. split; [done|].
    intros o Hok. unfold readFeed. destruct ok; [done|]. split; [by apply close_ok|done].
Qed.

Lemma feed_reach_ok es v : feed_reach es v → feed_server_ok (foldl offer [] es) v.
Proof using Hmax.
  induction 1 as [|es v e v' _ IH He Hst].
  - split; cbn; [by apply Forall2_nil|by apply NoDup_nil|by apply Forall_nil|done].
  - destruct (feedStep_ok _ v e IH He) as (v1 & H1 & Hok). rewrite H1 in Hst. injection Hst as <-.
    by rewrite foldl_app.
Qed.

(** C28: The fan-out.  In every reachable state every handler runs to its end, and for every
    subscriber, whatever the others do, however its socket cuts the bytes and whichever of
    its writes fails: a subscriber is offered its own snapshot burst and then every frame
    sent since it connected.  The bytes that have gone out on its socket are some of these
    frames as a whole, [out], and a part of the next, from the first one on and without a
    gap, so that they are a prefix of the bytes of what it was offered.  The frames in its
    queue, the one being written in front, are those that follow, and an open subscriber
    misses none.  The queue holds at most [maxQueueBytes] bytes and is counted exactly; and
    a write is outstanding, or was when the session was closed, exactly when something is
    queued. *)
Theorem subscribers_get_offered_prefix es v :
  feed_reach es v →
  (∀ e, feed_event_ok v e → ∃ v', feedStep v e = Some v') ∧
  ∀ i s, fv_store v !! i = Some s →
    ∃ off out, foldl offer [] es !! i = Some off ∧ out ++ fs_pending s `prefix_of` off ∧
      fs_socket s = concat out ++ take (fs_sent s) (front s) ∧ fs_socket s `prefix_of` concat off ∧
      (fs_closed s = false → out ++ fs_pending s = off ∧ i ∈ fv_sessions v) ∧
      fs_queuedBytes s = bytesOf (fs_pending s) ∧ 0 <= fs_queuedBytes s <= maxQueueBytes ∧
      (fs_writing s = true ↔ fs_pending s ≠ []).
Proof using Hmax.
  intros Hr%feed_reach_ok. split.
  - intros e He. destruct (feedStep_ok _ v e Hr He) as (v' & ? & _). by exists v'.
  - intros i s Hs. destruct Hr as [H1 _ _ H4]. destruct (Forall2_lookup_r _ _ _ _ _ H1 Hs) as (off & Ho & out & []).
    exists off, out. split; [done|]. split; [done|]. split; [done|]. split.
    { rewrite fo_socket0. destruct fo_prefix0 as [more ->]. rewrite !concat_app, <- app_assoc. apply prefix_app.
      unfold front. destruct (fs_pending s) as [|f rest]; cbn; [rewrite take_nil; apply prefix_nil|].
      rewrite <- app_assoc. apply prefix_app_r, prefix_take. }
    split; [intros Hc; split; [by auto|by eapply H4]|].
    split; [done|]. pose proof (bytesOf_nonneg (fs_pending s)). split; [lia|]. rewrite fo_writing0.
    apply bool_decide_eq_true.
Qed.
End server.

(** *** A subscriber that keeps up and one that does not *)

Definition demoFeed : list FeedEvent :=
  [FeedAccept (Some [[1; 2; 3]]); FeedAccept None; FeedSend [4; 5]; FeedTransfer 0 2; FeedTransfer 0 2; FeedWritten 0 true;
   FeedSend [6; 7; 8]; FeedTransfer 0 5; FeedWritten 0 true; FeedTransfer 1 1; FeedSend [9; 9]; FeedTransfer 1 1].

(** Events that can happen, decidably. *)
Definition canHandle (v : FeedServer) (e : FeedEvent) : bool :=
  match e with
  | FeedTransfer i _ => default false (fs_writing <$> fv_store v !! i)
  | FeedWritten i ok =>
      default false ((λ s, fs_writing s && (negb ok || (fs_sent s =? length (front s))%nat)) <$> fv_store v !! i)
  | FeedRead i _ => bool_decide (i < length (fv_store v))%nat
  | FeedAccept burst => forallb (λ f, Z.of_nat (length f) <? 2 ^ 63) (default [] burst)
  | FeedSend data => Z.of_nat (length data) <? 2 ^ 63
  end.

Fixpoint runFeed (max : Z) (v : FeedServer) (es : list FeedEvent) : option FeedServer :=
  match es with
  | [] => Some v
  | e :: es => if canHandle v e then v ← feedStep max v e; runFeed max v es else None
  end.

Lemma canHandle_ok v e : canHandle v e = true → feed_event_ok v e.
Proof.
  destruct e as [burst|data|i n|i ok|i ok]; cbn; try lia.
  - intros H. apply Forall_forall. intros f Hf. rewrite forallb_forall in H.
    apply list_elem_of_In in Hf. apply H in Hf. lia.
  - destruct (fv_store v !! i) as [s|]; [|done]. cbn. eauto.
  - destruct (fv_store v !! i) as [s|]; [|done]. cbn. intros [Hw Ho]%andb_true_iff. exists s. split; [done|].
    split; [done|]. intros ->. by apply Nat.eqb_eq.
  - apply bool_decide_eq_true.
Qed.

Lemma runFeed_reach max es0 v es v' :
  feed_reach max es0 v → runFeed max v es = Some v' → feed_reach max (es0 ++ es) v'.
Proof.
  revert es0 v. induction es as [|e es IH]; intros es0 v Hr; cbn [runFeed].
  { intros [= <-]. by rewrite app_nil_r. }
  destruct (canHandle v e) eqn:E; [|done]. apply canHandle_ok in E.
  destruct (feedStep max v e) as [v1|] eqn:Es; [|done]. simpl_bind. intros Hv.
  replace (es0 ++ e :: es) with ((es0 ++ [e]) ++ es) by (by rewrite <- app_assoc).
  eapply IH; [|done]. by eapply feed_next.
Qed.

(** The second subscriber does not read: it is closed when its queue is full, in the middle
    of a frame. *)
Lemma subscribers_get_offered_prefix_witness :
  ∃ v s0 s1 out0, runFeed 6 feedServerNew demoFeed = Some v ∧
    fv_store v !! 0%nat = Some s0 ∧ fv_store v !! 1%nat = Some s1 ∧
    fs_closed s0 = false ∧ out0 ++ fs_pending s0 = [[1; 2; 3]; [4; 5]; [6; 7; 8]; [9; 9]] ∧
    fs_closed s1 = true ∧ fs_socket s1 = [4] ∧ fs_queuedBytes s1 <= 6.
Proof.
  destruct (runFeed 6 feedServerNew demoFeed) as [v|] eqn:Hv; [|vm_compute in Hv; discriminate Hv].
  pose proof (runFeed_reach 6 [] feedServerNew demoFeed v (feed_init 6) Hv) as Hr.
  destruct (subscribers_get_offered_prefix 6 ltac:(lia) _ v Hr) as [_ H].
  vm_compute in Hv. injection Hv as <-.
  destruct (H 0%nat _ eq_refl) as (off & out0 & Ho & _ & _ & _ & Hop & _).
  destruct (H 1%nat _ eq_refl) as (_ & _ & _ & _ & _ & _ & _ & _ & Hb & _).
  eexists _, _, _, out0. split; [reflexivity|]. split; [reflexivity|]. split; [reflexivity|].
  split; [reflexivity|]. split; [rewrite (proj1 (Hop eq_refl)); vm_compute in Ho; injection Ho as <-; reflexivity|].
  split; [reflexivity|]. split; [reflexivity|]. exact (proj2 Hb).
Defined.
