(* ===== verification/Base64.v ===== *)
(** Base64: [common/base64.hpp], both alphabets, padding optional.

    A string is the list of its bytes.  Decoding an encoding gives the data back; what
    decodes at all are bytes. *)
From Stdlib Require Import Ascii String.
From S2P Require Import Prelude Wire.

(** The bytes of a literal. *)
Fixpoint str (s : string) : list Z :=
  match s with
  | EmptyString => []
  | String.String a s' => Z.of_N (N_of_ascii a) :: str s'
  end.

Definition kStd : list Z := str "ABCDEFGHIJKLMNOPQRSTUVWXYZabcdefghijklmnopqrstuvwxyz0123456789+/".
Definition kUrl : list Z := str "ABCDEFGHIJKLMNOPQRSTUVWXYZabcdefghijklmnopqrstuvwxyz0123456789-_".

Definition kPad : Z := 61.

Definition sextet (table : list Z) (v : Z) : option Z := aget table (Z.land v 63).

(** The loop over groups of three bytes and what remains. *)
Fixpoint encodeGroups (table : list Z) (pad : bool) (data : list Z) : option (list Z) :=
  match data with
  | a :: b :: c :: rest =>
      let n := Z.lor (Z.lor (Z.shiftl a 16) (Z.shiftl b 8)) c in
      c0 ← sextet table (Z.shiftr n 18);
      c1 ← sextet table (Z.shiftr n 12);
      c2 ← sextet table (Z.shiftr n 6);
      c3 ← sextet table n;
      out ← encodeGroups table pad rest;
      Some ([c0; c1; c2; c3] ++ out)
  | [a] =>
      let n := Z.shiftl a 16 in
      c0 ← sextet table (Z.shiftr n 18);
      c1 ← sextet table (Z.shiftr n 12);
      Some ([c0; c1] ++ if pad then [kPad; kPad] else [])
  | [a; b] =>
      let n := Z.lor (Z.shiftl a 16) (Z.shiftl b 8) in
      c0 ← sextet table (Z.shiftr n 18);
      c1 ← sextet table (Z.shiftr n 12);
      c2 ← sextet table (Z.shiftr n 6);
      Some ([c0; c1; c2] ++ if pad then [kPad] else [])
  | [] => Some []
  end.

Definition base64Encode (data : list Z) (urlSafe pad : bool) : option (list Z) :=
  encodeGroups (if urlSafe then kUrl else kStd) pad data.

(** The lambda of [base64Decode]. *)
Definition valueOf (urlSafe : bool) (c : Z) : Z :=
  if (65 <=? c) && (c <=? 90) then c - 65
  else if (97 <=? c) && (c <=? 122) then c - 97 + 26
  else if (48 <=? c) && (c <=? 57) then c - 48 + 52
  else if urlSafe then (if c =? 45 then 62 else if c =? 95 then 63 else -1)
  else (if c =? 43 then 62 else if c =? 47 then 63 else -1).

(** [while (end > 0 && in[end - 1] == '=') --end;] *)
Fixpoint stripPad (s : list Z) (end_ : nat) : nat :=
  match end_ with
  | O => O
  | S e => if bool_decide (s !! e = Some kPad) then stripPad s e else end_
  end.

Fixpoint decodeGroups (urlSafe : bool) (s : list Z) : option (list Z) :=
  match s with
  | a :: b :: c :: d :: rest =>
      let v0 := valueOf urlSafe a in let v1 := valueOf urlSafe b in
      let v2 := valueOf urlSafe c in let v3 := valueOf urlSafe d in
      if (v0 <? 0) || (v1 <? 0) || (v2 <? 0) || (v3 <? 0) then None
      else
        let n := Z.lor (Z.lor (Z.lor (Z.shiftl v0 18) (Z.shiftl v1 12)) (Z.shiftl v2 6)) v3 in
        out ← decodeGroups urlSafe rest;
        Some ([Z.land (Z.shiftr n 16) 255; Z.land (Z.shiftr n 8) 255; Z.land n 255] ++ out)
  | [a; b] =>
      let v0 := valueOf urlSafe a in let v1 := valueOf urlSafe b in
      if (v0 <? 0) || (v1 <? 0) then None
      else
        let n := Z.lor (Z.shiftl v0 6) v1 in
        Some [Z.land (Z.shiftr n 4) 255]
  | [a; b; c] =>
      let v0 := valueOf urlSafe a in let v1 := valueOf urlSafe b in let v2 := valueOf urlSafe c in
      if (v0 <? 0) || (v1 <? 0) || (v2 <? 0) then None
      else
        let n := Z.lor (Z.lor (Z.shiftl v0 12) (Z.shiftl v1 6)) v2 in
        Some [Z.land (Z.shiftr n 10) 255; Z.land (Z.shiftr n 2) 255]
  | _ => Some []
  end.

(** [None] is the answer false. *)
Definition base64Decode (s : list Z) (urlSafe : bool) : option (list Z) :=
  let n := stripPad s (length s) in
  let s := take n s in
  if bool_decide (kPad ∈ s) then None
  else if (n mod 4 =? 1)%nat then None
  else decodeGroups urlSafe s.

(** ** Six bits *)

Lemma land_63 v : Z.land v 63 = v mod 64.
Proof. change 63 with (Z.ones 6). by rewrite Z.land_ones. Qed.

Lemma land_255 v : Z.land v 255 = v mod 256.
Proof. change 255 with (Z.ones 8). by rewrite Z.land_ones. Qed.

Lemma lor_high a b k : 0 <= b < 2 ^ k → 0 <= k → Z.lor (Z.shiftl a k) b = a * 2 ^ k + b.
Proof. intros. rewrite Z.lor_comm, lor_shift by done. lia. Qed.

(** [b] has only bits below [j], above those of the multiple of [2 ^ j]. *)
Lemma lor_mul a b k : 0 <= b < 2 ^ k → 0 <= k → Z.lor (a * 2 ^ k) b = a * 2 ^ k + b.
Proof. intros. rewrite <- Z.shiftl_mul_pow2 by done. rewrite lor_high, Z.shiftl_mul_pow2 by done. done. Qed.

Definition tableOf (urlSafe : bool) : list Z := if urlSafe then kUrl else kStd.

(** The character of six bits, and back. *)
Lemma sextet_ok u v : ∃ ch, sextet (tableOf u) v = Some ch ∧ valueOf u ch = v mod 64 ∧ ch ≠ kPad ∧ is_byte ch.
Proof.
  unfold sextet. rewrite land_63. pose proof (Z.mod_pos_bound v 64 ltac:(lia)) as Hb.
  assert (Hall : Forall (λ i, ∃ ch, aget (tableOf u) (Z.of_nat i) = Some ch ∧ valueOf u ch = Z.of_nat i ∧
      ch ≠ kPad ∧ is_byte ch) (seq 0 64)).
  { destruct u; repeat (constructor; [eexists; split; [reflexivity|split; [reflexivity|split; [done|done]]]|]); constructor. }
  rewrite Forall_forall in Hall. specialize (Hall (Z.to_nat (v mod 64))). rewrite Z2Nat.id in Hall by lia.
  apply Hall. apply elem_of_seq. lia.
Qed.

(** Bytes joined, and sextets joined. *)
Lemma join_bytes a b c :
  is_byte b → is_byte c → Z.lor (Z.lor (Z.shiftl a 16) (Z.shiftl b 8)) c = a * 65536 + b * 256 + c.
Proof.
  unfold is_byte. intros Hb Hc. rewrite (Z.shiftl_mul_pow2 b 8) by lia. rewrite lor_high by lia.
  replace (a * 2 ^ 16 + b * 2 ^ 8) with ((a * 256 + b) * 2 ^ 8) by lia. rewrite lor_mul; lia.
Qed.

Lemma join_sextets v0 v1 v2 v3 :
  0 <= v1 < 64 → 0 <= v2 < 64 → 0 <= v3 < 64 →
  Z.lor (Z.lor (Z.lor (Z.shiftl v0 18) (Z.shiftl v1 12)) (Z.shiftl v2 6)) v3
    = v0 * 262144 + v1 * 4096 + v2 * 64 + v3.
Proof.
  intros. rewrite (Z.shiftl_mul_pow2 v1 12), (Z.shiftl_mul_pow2 v2 6), lor_high by lia.
  replace (v0 * 2 ^ 18 + v1 * 2 ^ 12) with ((v0 * 64 + v1) * 2 ^ 12) by lia. rewrite lor_mul by lia.
  replace ((v0 * 64 + v1) * 2 ^ 12 + v2 * 2 ^ 6) with ((v0 * 4096 + v1 * 64 + v2) * 2 ^ 6) by lia.
  rewrite lor_mul; lia.
Qed.

Lemma join_three v0 v1 v2 :
  0 <= v1 < 64 → 0 <= v2 < 64 →
  Z.lor (Z.lor (Z.shiftl v0 12) (Z.shiftl v1 6)) v2 = v0 * 4096 + v1 * 64 + v2.
Proof.
  intros. rewrite (Z.shiftl_mul_pow2 v1 6), lor_high by lia.
  replace (v0 * 2 ^ 12 + v1 * 2 ^ 6) with ((v0 * 64 + v1) * 2 ^ 6) by lia. rewrite lor_mul; lia.
Qed.

Lemma shiftr_div n k : 0 <= k → Z.shiftr n k = n / 2 ^ k.
Proof. apply Z.shiftr_div_pow2. Qed.

Ltac as_division :=
  rewrite ?shiftr_div, ?land_255 by lia;
  change (2 ^ 2) with 4 in *; change (2 ^ 4) with 16 in *; change (2 ^ 6) with 64 in *;
  change (2 ^ 8) with 256 in *; change (2 ^ 10) with 1024 in *; change (2 ^ 12) with 4096 in *;
  change (2 ^ 16) with 65536 in *; change (2 ^ 18) with 262144 in *.

Ltac euclid := Z.to_euclidean_division_equations; lia.

Lemma byte_sextets a : is_byte a →
  Z.land (Z.shiftr (Z.lor (Z.shiftl (Z.shiftr (Z.shiftl a 16) 18 mod 64) 6) (Z.shiftr (Z.shiftl a 16) 12 mod 64)) 4) 255 = a.
Proof.
  unfold is_byte. intros Ha. rewrite !(Z.shiftl_mul_pow2 a) by lia.
  rewrite lor_high by (try apply Z.mod_pos_bound; lia). as_division. euclid.
Qed.

Lemma bytes2_sextets a b : is_byte a → is_byte b →
  let n := Z.lor (Z.shiftl a 16) (Z.shiftl b 8) in
  let m := Z.lor (Z.lor (Z.shiftl (Z.shiftr n 18 mod 64) 12) (Z.shiftl (Z.shiftr n 12 mod 64) 6)) (Z.shiftr n 6 mod 64) in
  Z.land (Z.shiftr m 10) 255 = a ∧ Z.land (Z.shiftr m 2) 255 = b.
Proof.
  unfold is_byte. intros Ha Hb. cbv zeta. rewrite (Z.shiftl_mul_pow2 b 8) by lia. rewrite (lor_high a) by lia.
  rewrite join_three by (apply Z.mod_pos_bound; lia). as_division. split; euclid.
Qed.

Lemma bytes3_sextets a b c : is_byte a → is_byte b → is_byte c →
  let n := Z.lor (Z.lor (Z.shiftl a 16) (Z.shiftl b 8)) c in
  let m := Z.lor (Z.lor (Z.lor (Z.shiftl (Z.shiftr n 18 mod 64) 18) (Z.shiftl (Z.shiftr n 12 mod 64) 12))
             (Z.shiftl (Z.shiftr n 6 mod 64) 6)) (n mod 64) in
  Z.land (Z.shiftr m 16) 255 = a ∧ Z.land (Z.shiftr m 8) 255 = b ∧ Z.land m 255 = c.
Proof.
  intros Ha Hb Hc. cbv zeta. rewrite join_bytes by done.
  rewrite join_sextets by (apply Z.mod_pos_bound; lia). unfold is_byte in *. as_division.
  set (n := a * 65536 + b * 256 + c).
  assert (Hn : n / 262144 mod 64 * 262144 + n / 4096 mod 64 * 4096 + n / 64 mod 64 * 64 + n mod 64 = n).
  { assert (0 <= n < 16777216) by lia. clearbody n. euclid. }
  rewrite Hn. unfold n. split; [|split]; euclid.
Qed.

Lemma not_negative v : (v mod 64 <? 0) = false.
Proof. pose proof (Z.mod_pos_bound v 64 ltac:(lia)). lia. Qed.

(** ** Round trip *)

(** An encoding is a body without padding, which decodes to the data, and the padding. *)
Lemma encodeGroups_ok u pad data :
  bytes data →
  ∃ body tail, encodeGroups (tableOf u) pad data = Some (body ++ tail) ∧ decodeGroups u body = Some data ∧
    kPad ∉ body ∧ Forall (λ ch, ch = kPad) tail ∧ (length body mod 4 ≠ 1)%nat.
Proof.
  remember (length data) as len eqn:Hlen. revert data Hlen.
  induction len as [len IH] using lt_wf_ind. intros data Hlen Hd.
  destruct data as [|a [|b [|c rest]]]; cbn [encodeGroups].
  - exists [], []. repeat split; [set_solver|constructor|done].
  - apply Forall_cons in Hd as [Ha _].
    destruct (sextet_ok u (Z.shiftr (Z.shiftl a 16) 18)) as (c0 & -> & V0 & N0 & _).
    destruct (sextet_ok u (Z.shiftr (Z.shiftl a 16) 12)) as (c1 & -> & V1 & N1 & _). simpl_bind.
    exists [c0; c1], (if pad then [kPad; kPad] else []). split; [done|]. split.
    + cbn [decodeGroups]. rewrite V0, V1, !not_negative. cbn [orb]. by rewrite byte_sextets.
    + split; [set_solver|]. split; [destruct pad; by repeat constructor|done].
  - apply Forall_cons in Hd as [Ha [Hb _]%Forall_cons]. set (n := Z.lor (Z.shiftl a 16) (Z.shiftl b 8)).
    destruct (sextet_ok u (Z.shiftr n 18)) as (c0 & -> & V0 & N0 & _).
    destruct (sextet_ok u (Z.shiftr n 12)) as (c1 & -> & V1 & N1 & _).
    destruct (sextet_ok u (Z.shiftr n 6)) as (c2 & -> & V2 & N2 & _). simpl_bind.
    exists [c0; c1; c2], (if pad then [kPad] else []). split; [done|]. split.
    + cbn [decodeGroups]. rewrite V0, V1, V2, !not_negative. cbn [orb].
      destruct (bytes2_sextets a b Ha Hb) as [E1 E2]. fold n in E1, E2. by rewrite E1, E2.
    + split; [set_solver|]. split; [destruct pad; by repeat constructor|done].
  - apply Forall_cons in Hd as [Ha [Hb [Hc Hr]%Forall_cons]%Forall_cons].
    set (n := Z.lor (Z.lor (Z.shiftl a 16) (Z.shiftl b 8)) c).
    destruct (IH (length rest)) with (data := rest) as (body & tl & -> & Hdec & Hnp & Htl & Hm);
      [subst len; simpl; lia|done|done|].
    destruct (sextet_ok u (Z.shiftr n 18)) as (c0 & -> & V0 & N0 & _).
    destruct (sextet_ok u (Z.shiftr n 12)) as (c1 & -> & V1 & N1 & _).
    destruct (sextet_ok u (Z.shiftr n 6)) as (c2 & -> & V2 & N2 & _).
    destruct (sextet_ok u n) as (c3 & -> & V3 & N3 & _). simpl_bind.
    exists ([c0; c1; c2; c3] ++ body), tl. split; [by rewrite <- app_assoc|]. split.
    + cbn [decodeGroups app]. rewrite V0, V1, V2, V3, !not_negative, Hdec. cbn [orb mbind option_bind].
      destruct (bytes3_sextets a b c Ha Hb Hc) as (E1 & E2 & E3). fold n in E1, E2, E3. by rewrite E1, E2, E3.
    + split; [set_solver|]. split; [done|]. cbn [app length].
      change (S (S (S (S (length body))))) with (4 + length body)%nat.
      rewrite Nat.Div0.add_mod, Nat.Div0.mod_same, Nat.add_0_l, Nat.Div0.mod_mod. done.
Qed.

Lemma stripPad_front s t e : (e <= length s)%nat → stripPad (s ++ t) e = stripPad s e.
Proof.
  induction e as [|e IH]; intros He; [done|]. cbn [stripPad]. rewrite lookup_app_l, IH by lia. done.
Qed.

Lemma stripPad_ok body tail :
  kPad ∉ body → Forall (λ ch, ch = kPad) tail → stripPad (body ++ tail) (length (body ++ tail)) = length body.
Proof.
  intros Hb Ht. induction tail as [|ch tail IH] using rev_ind.
  - rewrite app_nil_r. destruct body as [|x body] using rev_ind; [done|].
    rewrite length_app, Nat.add_1_r. cbn [stripPad].
    rewrite bool_decide_eq_false_2; [done|]. rewrite lookup_app_r, Nat.sub_diag by lia. set_solver.
  - apply Forall_app in Ht as [Ht [-> _]%Forall_cons]. rewrite app_assoc, (length_app _ [kPad]), Nat.add_1_r.
    cbn [stripPad]. rewrite bool_decide_eq_true_2.
    + rewrite stripPad_front by lia. by apply IH.
    + by rewrite lookup_app_r, Nat.sub_diag by lia.
Qed.

Lemma base64_ok data urlSafe pad :
  bytes data → ∃ s, base64Encode data urlSafe pad = Some s ∧ base64Decode s urlSafe = Some data.
Proof.
  intros Hd. destruct (encodeGroups_ok urlSafe pad data Hd) as (body & tl & He & Hdec & Hnp & Htl & Hm).
  exists (body ++ tl). split; [exact He|]. unfold base64Decode. rewrite stripPad_ok, take_app_length by done.
  rewrite bool_decide_eq_false_2 by done. destruct (length body mod 4 =? 1)%nat eqn:E; [|done].
  apply Nat.eqb_eq in E. done.
Qed.

(** An encoding has only characters of the table, and is not long. *)
Lemma encodeGroups_chars table pad data s :
  encodeGroups table pad data = Some s →
  Forall (λ ch, ch ∈ table ∨ ch = kPad) s ∧ (length s <= 4 * length data)%nat.
Proof.
  remember (length data) as len eqn:Hlen. revert data s Hlen. induction len as [len IH] using lt_wf_ind.
  intros data s Hlen H. assert (Hs : ∀ v ch, sextet table v = Some ch → ch ∈ table ∨ ch = kPad).
  { intros v ch Hch. left. unfold sextet in Hch. apply aget_Some in Hch as [_ Hch]. by eapply list_elem_of_lookup_2. }
  destruct data as [|a [|b [|c rest]]]; cbn [encodeGroups] in H.
  - injection H as <-. split; [constructor|cbn; lia].
  - apply bind_Some in H as (c0 & E0 & H). apply bind_Some in H as (c1 & E1 & H).
    injection H as <-. split; [|subst len; destruct pad; cbn; lia].
    repeat (apply Forall_cons_2; [by eapply Hs|]). destruct pad; repeat (apply Forall_cons_2; [by right|]); constructor.
  - apply bind_Some in H as (c0 & E0 & H). apply bind_Some in H as (c1 & E1 & H).
    apply bind_Some in H as (c2 & E2 & H). injection H as <-.
    split; [|subst len; destruct pad; cbn; lia].
    repeat (apply Forall_cons_2; [by eapply Hs|]). destruct pad; repeat (apply Forall_cons_2; [by right|]); constructor.
  - apply bind_Some in H as (c0 & E0 & H). apply bind_Some in H as (c1 & E1 & H).
    apply bind_Some in H as (c2 & E2 & H). apply bind_Some in H as (c3 & E3 & H).
    apply bind_Some in H as (out & Er & H). injection H as <-.
    destruct (IH (length rest)) with (data := rest) (s := out) as [Hf Hl]; [subst len; cbn; lia|done|done|].
    split; [|subst len; cbn in *; lia]. by repeat (apply Forall_cons_2; [by eapply Hs|]).
Qed.

(** What decodes are bytes. *)
Lemma decodeGroups_bytes u s out : decodeGroups u s = Some out → bytes out.
Proof.
  remember (length s) as len eqn:Hlen. revert s out Hlen. induction len as [len IH] using lt_wf_ind.
  intros s out Hlen H. assert (Hb : ∀ v, is_byte (Z.land v 255)).
  { intros v. rewrite land_255. apply Z.mod_pos_bound. lia. }
  destruct s as [|a [|b [|c [|d rest]]]]; cbn [decodeGroups] in H.
  1, 2: injection H as <-; constructor.
  1, 2: case_match; [done|]; injection H as <-; repeat (apply Forall_cons_2; [apply Hb|]); constructor.
  case_match; [done|]. destruct (decodeGroups u rest) as [o|] eqn:E; [|done]. injection H as <-.
  do 3 (apply Forall_cons_2; [apply Hb|]). apply (IH (length rest)) with (s := rest); [subst; simpl; lia|done|done].
Qed.

Lemma base64Decode_bytes s u out : base64Decode s u = Some out → bytes out.
Proof. unfold base64Decode. repeat (case_match; [done|]). apply decodeGroups_bytes. Qed.

(** Any number of trailing [=] is accepted, and so are encodings whose unused bits are
    not 0. *)
Theorem base64_accepts_any_padding :
  base64Decode (str "dmVsb3g=====") true = Some (str "velox") ∧ base64Decode (str "dmVsb3h") true = Some (str "velox").
Proof. split; vm_compute; reflexivity. Qed.
