(* ===== verification/Fips.v ===== *)
(** The Secure Hash Standard, FIPS 180-4, and HMAC, RFC 2104, written from their text.

    Nothing here is taken from the program: the functions of the standard are defined bit by
    bit, the constants from the roots they are the fractions of, and the arithmetic as
    arithmetic modulo 2 ^ 32.  [Sha256] and [Sha1] show that the code computes these functions. *)
From S2P Require Import Prelude Wire.

(** ** Words *)

(** The word of 32 bits whose bit [i] is [f i]. *)
Definition word (f : Z → bool) : Z := foldr (λ i v, Z.b2z (f (Z.of_nat i)) + 2 * v) 0 (seq 0 32).

(** 3.2: rotations and shifts. *)
Definition ROTR (n x : Z) : Z := word (λ i, Z.testbit x ((i + n) mod 32)).
Definition ROTL (n x : Z) : Z := word (λ i, Z.testbit x ((i - n) mod 32)).
Definition SHR (n x : Z) : Z := word (λ i, (i + n <? 32) && Z.testbit x (i + n)).

(** 4.1: the logical functions. *)
Definition Ch (x y z : Z) : Z := word (λ i, if Z.testbit x i then Z.testbit y i else Z.testbit z i).
Definition Parity (x y z : Z) : Z := word (λ i, xorb (Z.testbit x i) (xorb (Z.testbit y i) (Z.testbit z i))).
Definition Maj (x y z : Z) : Z :=
  word (λ i, match Z.testbit x i, Z.testbit y i, Z.testbit z i with
             | true, true, _ | true, _, true | _, true, true => true
             | _, _, _ => false
             end).

Definition Sum0 (x : Z) : Z := Parity (ROTR 2 x) (ROTR 13 x) (ROTR 22 x).
Definition Sum1 (x : Z) : Z := Parity (ROTR 6 x) (ROTR 11 x) (ROTR 25 x).
Definition sig0 (x : Z) : Z := Parity (ROTR 7 x) (ROTR 18 x) (SHR 3 x).
Definition sig1 (x : Z) : Z := Parity (ROTR 17 x) (ROTR 19 x) (SHR 10 x).

(** ** Constants *)

Definition isPrime (p : Z) : bool := (1 <? p) && forallb (λ d, negb (p mod d =? 0)) (seqZ 2 (p - 2)).
Definition primes : list Z := filter (λ p, isPrime p = true) (seqZ 0 312).

(** The largest number of [n] bits on top of [r] whose cube is at most [v]. *)
Fixpoint cubeRootFrom (n : nat) (r v : Z) : Z :=
  match n with
  | O => r
  | S n' => let r' := r + 2 ^ Z.of_nat n' in cubeRootFrom n' (if r' ^ 3 <=? v then r' else r) v
  end.
Definition cubeRoot (v : Z) : Z := cubeRootFrom 40 0 v.

(** The first 32 bits of the fractional parts of the square and cube root of [p]. *)
Definition rootFraction2 (p : Z) : Z := Z.sqrt (p * 2 ^ 64) mod 2 ^ 32.
Definition rootFraction3 (p : Z) : Z := cubeRoot (p * 2 ^ 96) mod 2 ^ 32.

(** 4.2.2 and 5.3.3: of the first 64 primes, and of the first eight. *)
Definition K256 : list Z := rootFraction3 <$> primes.
Definition H256 : list Z := rootFraction2 <$> take 8 primes.

(** ** Preprocessing *)

(** The [n] bytes of [v], the highest first. *)
Fixpoint be (n : nat) (v : Z) : list Z :=
  match n with O => [] | S n' => Z.shiftr v (8 * Z.of_nat n') mod 256 :: be n' v end.

(** 5.1.1: a one bit; [k] zero bits, the least number with [l + 1 + k = 448] modulo 512; and
    the length [l] in 64 bits.  Seven of the zero bits are in the byte of the one. *)
Definition pad (m : list Z) : list Z :=
  let l := 8 * Z.of_nat (length m) in
  let k := (448 - (l + 1)) mod 512 in
  m ++ [128] ++ replicate (Z.to_nat ((k - 7) / 8)) 0 ++ be 8 l.

(** 5.2.1: the words of a block. *)
Fixpoint wordsOf (n : nat) (block : list Z) : list Z :=
  match n, block with
  | S n', b0 :: b1 :: b2 :: b3 :: rest =>
      ((b0 * 256 + b1) * 256 + b2) * 256 + b3 :: wordsOf n' rest
  | _, _ => []
  end.

(** Addition modulo 2 ^ 32, of the words of two lists. *)
Definition addWords (h s : list Z) : list Z := zip_with (λ x y, (x + y) mod 2 ^ 32) h s.

(** One block after the other, with the compression [f]. *)
Fixpoint blocks {H} (f : H → list Z → H) (n : nat) (m : list Z) (h : H) : H :=
  match n with
  | O => h
  | S n' => blocks f n' (drop 64 m) (f h (take 64 m))
  end.

Definition digest (h : list Z) : list Z := concat (be 4 <$> h).

(** ** SHA-256 *)

(** 6.2.2: the message schedule. *)
Fixpoint schedule256 (n : nat) (W : list Z) : list Z :=
  match n with
  | O => W
  | S n' =>
      let t := length W in
      schedule256 n' (W ++ [(sig1 (W !!! (t - 2)%nat) + W !!! (t - 7)%nat + sig0 (W !!! (t - 15)%nat)
                              + W !!! (t - 16)%nat) mod 2 ^ 32])
  end.

Definition round256 (s : list Z) (KW : Z * Z) : list Z :=
  match s with
  | [a; b; c; d; e; f; g; h] =>
      let T1 := (h + Sum1 e + Ch e f g + KW.1 + KW.2) mod 2 ^ 32 in
      let T2 := (Sum0 a + Maj a b c) mod 2 ^ 32 in
      [(T1 + T2) mod 2 ^ 32; a; b; c; (d + T1) mod 2 ^ 32; e; f; g]
  | _ => s
  end.

Definition compress256 (h block : list Z) : list Z :=
  addWords (foldl round256 h (zip K256 (schedule256 48 (wordsOf 16 block)))) h.

Definition fipsSha256 (m : list Z) : list Z :=
  let p := pad m in digest (blocks compress256 (length p / 64) p H256).

(** ** SHA-1 *)

(** 4.1.1, 4.2.1, 5.3.1. *)
Definition f160 (t : nat) (x y z : Z) : Z :=
  if (t <? 20)%nat then Ch x y z else if (t <? 40)%nat then Parity x y z
  else if (t <? 60)%nat then Maj x y z else Parity x y z.

Definition K160 (t : nat) : Z :=
  if (t <? 20)%nat then 0x5a827999 else if (t <? 40)%nat then 0x6ed9eba1
  else if (t <? 60)%nat then 0x8f1bbcdc else 0xca62c1d6.

Definition H160 : list Z := [0x67452301; 0xefcdab89; 0x98badcfe; 0x10325476; 0xc3d2e1f0].

(** 6.1.2. *)
Definition Parity4 (w x y z : Z) : Z :=
  word (λ i, xorb (Z.testbit w i) (xorb (Z.testbit x i) (xorb (Z.testbit y i) (Z.testbit z i)))).

Fixpoint schedule160 (n : nat) (W : list Z) : list Z :=
  match n with
  | O => W
  | S n' =>
      let t := length W in
      schedule160 n' (W ++ [ROTL 1 (Parity4 (W !!! (t - 3)%nat) (W !!! (t - 8)%nat) (W !!! (t - 14)%nat) (W !!! (t - 16)%nat))])
  end.

Fixpoint rounds160 (t : nat) (W s : list Z) : list Z :=
  match W, s with
  | w :: W', [a; b; c; d; e] =>
      rounds160 (S t) W' [(ROTL 5 a + f160 t b c d + e + K160 t + w) mod 2 ^ 32; a; ROTL 30 b; c; d]
  | _, _ => s
  end.

Definition compress160 (h block : list Z) : list Z :=
  addWords (rounds160 0 (schedule160 64 (wordsOf 16 block)) h) h.

Definition fipsSha1 (m : list Z) : list Z :=
  let p := pad m in digest (blocks compress160 (length p / 64) p H160).

(** ** HMAC, RFC 2104 *)

Definition zeroFill (n : nat) (l : list Z) : list Z := l ++ replicate (n - length l) 0.

(** With SHA-256 as the hash function and 64 as its block size. *)
Definition rfcHmac (key data : list Z) : list Z :=
  let k := zeroFill 64 (if (64 <? length key)%nat then fipsSha256 key else key) in
  fipsSha256 (((λ b, Z.lxor b 0x5c) <$> k) ++ fipsSha256 (((λ b, Z.lxor b 0x36) <$> k) ++ data)).

(** ** Bits and ranges *)

Definition is_word (x : Z) : Prop := 0 <= x < 2 ^ 32.

Lemma bits_from f k n :
  let v := foldr (λ i v, Z.b2z (f (Z.of_nat i)) + 2 * v) 0 (seq k n) in
  0 <= v < 2 ^ Z.of_nat n ∧ ∀ i, 0 <= i < Z.of_nat n → Z.testbit v i = f (Z.of_nat k + i).
Proof.
  revert k. induction n as [|n IH]; intros k; cbn [seq foldr]; [split; [lia|intros; lia]|].
  destruct (IH (S k)) as [Hr Hb]. set (v := foldr _ 0 _) in *. clearbody v.
  assert (Hb01 : 0 <= Z.b2z (f (Z.of_nat k)) <= 1) by (destruct (f _); cbn; lia). split.
  - rewrite Nat2Z.inj_succ, Z.pow_succ_r by lia. lia.
  - intros i Hi. destruct (decide (i = 0)) as [->|Hne].
    + rewrite Z.add_b2z_double_bit0. f_equal. lia.
    + replace i with (Z.succ (i - 1)) at 1 by lia. rewrite Z.add_comm, Z.testbit_succ_r by lia.
      rewrite Hb by lia. f_equal. lia.
Qed.

Lemma word_range f : is_word (word f).
Proof. apply (bits_from f 0 32). Qed.

Lemma word_bit f i : 0 <= i < 32 → Z.testbit (word f) i = f i.
Proof. intros Hi. destruct (bits_from f 0 32) as [_ H]. by apply H. Qed.

Lemma word_high x i : is_word x → 32 <= i → Z.testbit x i = false.
Proof.
  intros Hx Hi. destruct (decide (x = 0)) as [->|]; [apply Z.bits_0|]. unfold is_word in Hx.
  apply Z.bits_above_log2; [lia|]. assert (Z.log2 x < 32) by (apply Z.log2_lt_pow2; lia). lia.
Qed.

(** A number is the word of its bits, when it has no others. *)
Lemma word_eq x f : (∀ i, 0 <= i → Z.testbit x i = (i <? 32) && f i) → x = word f.
Proof.
  intros Hf. apply Z.bits_inj'. intros i Hi. rewrite Hf by done. destruct (Z.ltb_spec i 32); cbn [andb].
  - by rewrite word_bit.
  - by rewrite word_high by (done || apply word_range).
Qed.

Lemma mod_word x : is_word (x mod 2 ^ 32).
Proof. apply Z.mod_pos_bound. lia. Qed.

Lemma length_be n v : length (be n v) = n.
Proof. induction n as [|n IH]; [done|]. cbn. by rewrite IH. Qed.

Lemma be_bytes n v : bytes (be n v).
Proof. induction n as [|n IH]; [constructor|]. cbn. constructor; [|done]. apply Z.mod_pos_bound. lia. Qed.

Lemma digest_bytes h : bytes (digest h).
Proof. apply Forall_concat, Forall_fmap, Forall_forall. intros x _. apply be_bytes. Qed.

(** The cube root is one. *)
Lemma cubeRootFrom_ok n r v :
  0 <= r → r ^ 3 <= v < (r + 2 ^ Z.of_nat n) ^ 3 →
  cubeRootFrom n r v ^ 3 <= v < (cubeRootFrom n r v + 1) ^ 3 ∧ 0 <= cubeRootFrom n r v.
Proof.
  revert r. induction n as [|n IH]; intros r Hr Hv; cbn [cubeRootFrom]; [done|].
  assert (Hp : 0 < 2 ^ Z.of_nat n) by (apply Z.pow_pos_nonneg; lia).
  rewrite Nat2Z.inj_succ, Z.pow_succ_r in Hv by lia.
  destruct (_ <=? v) eqn:E; apply IH; try lia.
Qed.

Lemma cubeRoot_ok v : 0 <= v < 2 ^ 120 → cubeRoot v ^ 3 <= v < (cubeRoot v + 1) ^ 3.
Proof. intros Hv. apply (cubeRootFrom_ok 40 0 v); [lia|]. change ((0 + 2 ^ Z.of_nat 40) ^ 3) with (2 ^ 120). lia. Qed.

(** A compression [f] on other states, which [v] shows as those of [g]. *)
Lemma blocks_sim {H} (P : H → Prop) (v : H → list Z) f g n m h :
  (∀ h b, P h → bytes b → v (f h b) = g (v h) b ∧ P (f h b)) →
  P h → bytes m → v (blocks f n m h) = blocks g n m (v h).
Proof.
  intros Hf. revert m h. induction n as [|n IH]; intros m h Hh Hm; [done|]. cbn [blocks].
  destruct (Hf h (take 64 m) Hh (Forall_take _ _ _ Hm)) as [E Hw].
  rewrite (IH _ _ Hw (Forall_drop _ _ _ Hm)), E. reflexivity.
Qed.
