(* ===== verification/Sha256.v ===== *)
(** SHA-256 and HMAC: [admin/sha256.hpp] and [admin/hmac_sha256.hpp].

    The code pads into a string and works on arrays by index.  A first step takes the
    indices away: no access is out of range and the result is [blockSha256], the code's
    words on lists of blocks.  The second takes its bit operations to those of the
    standard, [Fips]; [sha256_is_fips] is the two together. *)
From Stdlib Require Import String.
From S2P Require Import Prelude Wire Base64 Fips.

(** The rows of the table. *)
Definition kSha256K : list Z := concat [
  [0x428a2f98; 0x71374491; 0xb5c0fbcf; 0xe9b5dba5; 0x3956c25b; 0x59f111f1; 0x923f82a4; 0xab1c5ed5];
  [0xd807aa98; 0x12835b01; 0x243185be; 0x550c7dc3; 0x72be5d74; 0x80deb1fe; 0x9bdc06a7; 0xc19bf174];
  [0xe49b69c1; 0xefbe4786; 0x0fc19dc6; 0x240ca1cc; 0x2de92c6f; 0x4a7484aa; 0x5cb0a9dc; 0x76f988da];
  [0x983e5152; 0xa831c66d; 0xb00327c8; 0xbf597fc7; 0xc6e00bf3; 0xd5a79147; 0x06ca6351; 0x14292967];
  [0x27b70a85; 0x2e1b2138; 0x4d2c6dfc; 0x53380d13; 0x650a7354; 0x766a0abb; 0x81c2c92e; 0x92722c85];
  [0xa2bfe8a1; 0xa81a664b; 0xc24b8b70; 0xc76c51a3; 0xd192e819; 0xd6990624; 0xf40e3585; 0x106aa070];
  [0x19a4c116; 0x1e376c08; 0x2748774c; 0x34b0bcb5; 0x391c0cb3; 0x4ed8aa4a; 0x5b9cca4f; 0x682e6ff3];
  [0x748f82ee; 0x78a5636f; 0x84c87814; 0x8cc70208; 0x90befffa; 0xa4506ceb; 0xbef9a3f7; 0xc67178f2]
].

Definition rotr (v bits : Z) : Z := Z.lor (Z.shiftr v bits) (u32 (Z.shiftl v (32 - bits))).

(** The working variables, and [h]. *)
Record Hash := mkHash { h_a : Z; h_b : Z; h_c : Z; h_d : Z; h_e : Z; h_f : Z; h_g : Z; h_h : Z }.

Definition hashInit : Hash :=
  mkHash 0x6a09e667 0xbb67ae85 0x3c6ef372 0xa54ff53a 0x510e527f 0x9b05688c 0x1f83d9ab 0x5be0cd19.

(** *** Padding *)

Definition paddedLen (len : nat) : nat := ((len + 8) / 64 + 1) * 64.

(** [std::memcpy(msg.data() + p, data, ...)] *)
Fixpoint copyIn (msg : list Z) (p : Z) (data : list Z) : option (list Z) :=
  match data with
  | [] => Some msg
  | x :: data' => msg ← aset msg p x; copyIn msg (p + 1) data'
  end.

(** [for (int i = 0; i < 8; ++i)], the length in bits from the last byte backwards. *)
Fixpoint putLength (n : nat) (i : Z) (msg : list Z) (last bitLen : Z) : option (list Z) :=
  match n with
  | O => Some msg
  | S n' =>
      msg ← aset msg (last - i) (Z.land (Z.shiftr bitLen (8 * i)) 255);
      putLength n' (i + 1) msg last bitLen
  end.

Definition padMessage (data : list Z) : option (list Z) :=
  let len := length data in
  let bitLen := u64 (Z.of_nat len * 8) in
  let msg := replicate (paddedLen len) 0 in
  msg ← copyIn msg 0 data;
  msg ← aset msg (Z.of_nat len) 128;
  putLength 8 0 msg (Z.of_nat (paddedLen len) - 1) bitLen.

(** *** One chunk *)

Definition beWord (b0 b1 b2 b3 : Z) : Z :=
  Z.lor (Z.lor (Z.lor (Z.shiftl b0 24) (Z.shiftl b1 16)) (Z.shiftl b2 8)) b3.

Fixpoint loadWords (n : nat) (i : Z) (msg : list Z) (chunk : Z) (w : list Z) : option (list Z) :=
  match n with
  | O => Some w
  | S n' =>
      let p := chunk + i * 4 in
      b0 ← aget msg p; b1 ← aget msg (p + 1); b2 ← aget msg (p + 2); b3 ← aget msg (p + 3);
      w ← aset w i (beWord b0 b1 b2 b3);
      loadWords n' (i + 1) msg chunk w
  end.

Definition smallSigma0 (x : Z) : Z := Z.lxor (Z.lxor (rotr x 7) (rotr x 18)) (Z.shiftr x 3).
Definition smallSigma1 (x : Z) : Z := Z.lxor (Z.lxor (rotr x 17) (rotr x 19)) (Z.shiftr x 10).

Fixpoint extendWords (n : nat) (i : Z) (w : list Z) : option (list Z) :=
  match n with
  | O => Some w
  | S n' =>
      w15 ← aget w (i - 15); w2 ← aget w (i - 2); w16 ← aget w (i - 16); w7 ← aget w (i - 7);
      w ← aset w i (u32 (w16 + smallSigma0 w15 + w7 + smallSigma1 w2));
      extendWords n' (i + 1) w
  end.

Definition bigSigma1 (e : Z) : Z := Z.lxor (Z.lxor (rotr e 6) (rotr e 11)) (rotr e 25).
Definition bigSigma0 (a : Z) : Z := Z.lxor (Z.lxor (rotr a 2) (rotr a 13)) (rotr a 22).
Definition choose (e f g : Z) : Z := Z.lxor (Z.land e f) (Z.land (u32 (Z.lnot e)) g).
Definition majority (a b c : Z) : Z := Z.lxor (Z.lxor (Z.land a b) (Z.land a c)) (Z.land b c).

(** The body of the loop of 64 rounds. *)
Definition hashRound (s : Hash) (k w : Z) : Hash :=
  let temp1 := u32 (h_h s + bigSigma1 (h_e s) + choose (h_e s) (h_f s) (h_g s) + k + w) in
  let temp2 := u32 (bigSigma0 (h_a s) + majority (h_a s) (h_b s) (h_c s)) in
  mkHash (u32 (temp1 + temp2)) (h_a s) (h_b s) (h_c s) (u32 (h_d s + temp1)) (h_e s) (h_f s) (h_g s).

Fixpoint hashRounds (n : nat) (i : Z) (w : list Z) (s : Hash) : option Hash :=
  match n with
  | O => Some s
  | S n' =>
      k ← aget kSha256K i; wi ← aget w i;
      hashRounds n' (i + 1) w (hashRound s k wi)
  end.

Definition hashAdd (h s : Hash) : Hash :=
  mkHash (u32 (h_a h + h_a s)) (u32 (h_b h + h_b s)) (u32 (h_c h + h_c s)) (u32 (h_d h + h_d s))
    (u32 (h_e h + h_e s)) (u32 (h_f h + h_f s)) (u32 (h_g h + h_g s)) (u32 (h_h h + h_h s)).

Definition hashChunk (msg : list Z) (chunk : Z) (h : Hash) : option Hash :=
  w ← loadWords 16 0 msg chunk (replicate 64 0);
  w ← extendWords 48 16 w;
  s ← hashRounds 64 0 w h;
  Some (hashAdd h s).

(** [for (chunk = 0; chunk < paddedLen; chunk += 64)]; [n] is the number of chunks. *)
Fixpoint hashChunks (n : nat) (chunk : Z) (msg : list Z) (h : Hash) : option Hash :=
  match n with
  | O => Some h
  | S n' => h ← hashChunk msg chunk h; hashChunks n' (chunk + 64) msg h
  end.

Definition wordBytes (x : Z) : list Z :=
  [Z.land (Z.shiftr x 24) 255; Z.land (Z.shiftr x 16) 255; Z.land (Z.shiftr x 8) 255; Z.land x 255].

Definition hashBytes (h : Hash) : list Z :=
  wordBytes (h_a h) ++ wordBytes (h_b h) ++ wordBytes (h_c h) ++ wordBytes (h_d h) ++
  wordBytes (h_e h) ++ wordBytes (h_f h) ++ wordBytes (h_g h) ++ wordBytes (h_h h).

Definition sha256 (data : list Z) : option (list Z) :=
  msg ← padMessage data;
  h ← hashChunks (paddedLen (length data) / 64) 0 msg hashInit;
  Some (hashBytes h).

(** ** HMAC *)

Definition kSha256BlockSize : nat := 64.

Definition hmacSha256 (key data : list Z) : option (list Z) :=
  let empty := replicate kSha256BlockSize 0 in
  keyBlock ← (if (kSha256BlockSize <? length key)%nat
              then hashed ← sha256 key; copyIn empty 0 hashed
              else copyIn empty 0 key);
  let ipad := (λ b, Z.lxor b 0x36) <$> keyBlock in
  let opad := (λ b, Z.lxor b 0x5c) <$> keyBlock in
  innerHash ← sha256 (ipad ++ data);
  sha256 (opad ++ innerHash).

(** The loop of [constantTimeEquals]; the arrays have the same length. *)
Fixpoint bytesDiff (a b : list Z) (diff : Z) : Z :=
  match a, b with
  | x :: a', y :: b' => bytesDiff a' b' (Z.lor diff (Z.lxor x y))
  | _, _ => diff
  end.

Definition constantTimeEquals (a b : list Z) : bool := bytesDiff a b 0 =? 0.

(** ** The same on lists of blocks *)

(** The byte of the one bit, zeros up to 56 modulo 64, and the length in bits. *)
Definition blockPad (m : list Z) : list Z :=
  m ++ [128] ++ replicate ((119 - length m mod 64) mod 64) 0 ++ be 8 (8 * Z.of_nat (length m)).

Fixpoint blockWords (n : nat) (block : list Z) : list Z :=
  match n, block with
  | S n', b0 :: b1 :: b2 :: b3 :: rest => beWord b0 b1 b2 b3 :: blockWords n' rest
  | _, _ => []
  end.

Fixpoint schedule (n : nat) (ws : list Z) : list Z :=
  match n with
  | O => ws
  | S n' =>
      let t := length ws in
      schedule n' (ws ++ [u32 (smallSigma1 (ws !!! (t - 2)%nat) + ws !!! (t - 7)%nat +
                               smallSigma0 (ws !!! (t - 15)%nat) + ws !!! (t - 16)%nat)])
  end.

Definition hashBlock (h : Hash) (block : list Z) : Hash :=
  let ws := schedule 48 (blockWords 16 block) in
  hashAdd h (foldl (λ s kw, hashRound s kw.1 kw.2) h (zip kSha256K ws)).

Definition blockSha256 (m : list Z) : list Z :=
  let p := blockPad m in hashBytes (blocks hashBlock (length p / 64) p hashInit).

(** ** The code works on the blocks *)

Lemma aset_middle {A} (pre post : list A) x y p :
  p = Z.of_nat (length pre) → aset (pre ++ x :: post) p y = Some (pre ++ y :: post).
Proof.
  intros ->. rewrite aset_nat by (rewrite length_app; cbn [length]; lia).
  by rewrite insert_app_r_alt, Nat.sub_diag by lia.
Qed.

Lemma aget_skip {A} (pre l : list A) p j :
  p = Z.of_nat (length pre) → aget (pre ++ l) (p + Z.of_nat j) = l !! j.
Proof. intros ->. rewrite <- Nat2Z.inj_add, aget_nat, lookup_app_r by lia. f_equal. lia. Qed.

Lemma copyIn_ok pre old post data p :
  p = Z.of_nat (length pre) → length old = length data →
  copyIn (pre ++ old ++ post) p data = Some (pre ++ data ++ post).
Proof.
  revert pre old p. induction data as [|x data IH]; intros pre old p Hp Hl.
  { by destruct old. }
  destruct old as [|o old]; [done|]. cbn [copyIn app]. rewrite aset_middle by done. simpl_bind.
  change (pre ++ x :: old ++ post) with (pre ++ [x] ++ old ++ post). rewrite (app_assoc pre [x]).
  rewrite IH; [by rewrite <- app_assoc| |by injection Hl]. rewrite length_app. cbn. lia.
Qed.

Lemma putLength_ok n i pre old last v :
  length old = n → last - Z.of_nat i = Z.of_nat (length pre + n) - 1 →
  putLength n (Z.of_nat i) (pre ++ old ++ be i v) last v = Some (pre ++ be (n + i) v).
Proof.
  revert i old. induction n as [|n IH]; intros i old Hl Hlast.
  { destruct old; [|done]. done. }
  destruct old as [|o old] using rev_ind; [done|]. clear IHold. rewrite length_app in Hl. cbn in Hl.
  cbn [putLength]. rewrite <- !app_assoc. cbn [app]. rewrite (app_assoc pre old).
  rewrite aset_middle by (rewrite length_app; lia). simpl_bind. rewrite <- app_assoc.
  replace (Z.of_nat i + 1) with (Z.of_nat (S i)) by lia.
  change (Z.land (Z.shiftr v (8 * Z.of_nat i)) 255 :: be i v) with ([Z.land (Z.shiftr v (8 * Z.of_nat i)) 255] ++ be i v).
  rewrite land_255. change ([Z.shiftr v (8 * Z.of_nat i) mod 256] ++ be i v) with (be (S i) v).
  rewrite (IH (S i) old) by lia. do 2 f_equal. f_equal. lia.
Qed.

Lemma paddedLen_eq len : paddedLen len = (len + 1 + (119 - len mod 64) mod 64 + 8)%nat.
Proof.
  unfold paddedLen. pose proof (Nat.div_mod_eq len 64) as Hd. pose proof (Nat.mod_upper_bound len 64 ltac:(lia)) as Hr.
  set (q := (len / 64)%nat) in *. set (r := (len mod 64)%nat) in *. clearbody q r. subst len.
  destruct (decide (r < 56)%nat).
  - rewrite <- (Nat.div_unique (64 * q + r + 8) 64 q (r + 8)) by lia.
    rewrite <- (Nat.mod_unique (119 - r) 64 1 (55 - r)) by lia. lia.
  - rewrite <- (Nat.div_unique (64 * q + r + 8) 64 (q + 1) (r - 56)) by lia.
    rewrite Nat.mod_small by lia. lia.
Qed.

Lemma paddedLen_chunks len : paddedLen len = (64 * (paddedLen len / 64))%nat.
Proof. unfold paddedLen. rewrite Nat.div_mul by lia. lia. Qed.

Lemma length_blockPad m : length (blockPad m) = paddedLen (length m).
Proof. unfold blockPad. rewrite paddedLen_eq, !length_app, length_replicate, length_be. cbn. lia. Qed.

Lemma padMessage_ok m : Z.of_nat (length m) * 8 < 18446744073709551616 → padMessage m = Some (blockPad m).
Proof.
  intros Hm. unfold padMessage. rewrite u64_id by (split; lia). rewrite paddedLen_eq.
  set (z := ((119 - length m mod 64) mod 64)%nat).
  replace (length m + 1 + z + 8)%nat with (length m + (1 + (z + 8)))%nat by lia. rewrite replicate_add.
  pose proof (copyIn_ok [] (replicate (length m) 0) (replicate (1 + (z + 8)) 0) m 0 eq_refl (length_replicate _ _)) as Hcp.
  cbn [app] in Hcp. rewrite Hcp. simpl_bind. cbn [replicate Nat.add]. rewrite aset_middle by done. simpl_bind. rewrite replicate_add.
  replace (m ++ 128 :: replicate z 0 ++ replicate 8 0)
    with ((m ++ [128] ++ replicate z 0) ++ replicate 8 0 ++ be 0 (Z.of_nat (length m) * 8))
    by (by rewrite app_nil_r, <- !app_assoc).
  rewrite (putLength_ok 8 0) by (rewrite ?length_app, ?length_replicate; cbn [length]; lia).
  unfold blockPad. fold z. rewrite <- !app_assoc. do 5 f_equal. lia.
Qed.

Lemma loadWords_ok n i pre rest post chunk ws k :
  chunk + Z.of_nat i * 4 = Z.of_nat (length pre) → length rest = (4 * n)%nat → length ws = i →
  loadWords n (Z.of_nat i) (pre ++ rest ++ post) chunk (ws ++ replicate (n + k) 0)
    = Some (ws ++ blockWords n rest ++ replicate k 0).
Proof.
  revert i pre rest ws. induction n as [|n IH]; intros i pre rest ws Hp Hl Hi.
  { by destruct rest. }
  destruct rest as [|b0 [|b1 [|b2 [|b3 rest]]]]; cbn [length] in Hl; try lia. cbn [loadWords].
  set (msg := pre ++ (b0 :: b1 :: b2 :: b3 :: rest) ++ post).
  pose proof (aget_skip pre ((b0 :: b1 :: b2 :: b3 :: rest) ++ post) _ 0 Hp) as G0. rewrite Z.add_0_r in G0.
  pose proof (aget_skip pre ((b0 :: b1 :: b2 :: b3 :: rest) ++ post) _ 1 Hp) as G1.
  pose proof (aget_skip pre ((b0 :: b1 :: b2 :: b3 :: rest) ++ post) _ 2 Hp) as G2.
  pose proof (aget_skip pre ((b0 :: b1 :: b2 :: b3 :: rest) ++ post) _ 3 Hp) as G3.
  fold msg in G0, G1, G2, G3. change (Z.of_nat 1) with 1 in G1. change (Z.of_nat 2) with 2 in G2.
  change (Z.of_nat 3) with 3 in G3. rewrite G0, G1, G2, G3. cbn [lookup list_lookup app mbind option_bind].
  assert (Hmsg : msg = (pre ++ [b0; b1; b2; b3]) ++ rest ++ post) by (unfold msg; by rewrite <- app_assoc).
  rewrite Hmsg. clear G0 G1 G2 G3.
  cbn [Nat.add replicate]. rewrite aset_middle by lia. simpl_bind.
  replace (Z.of_nat i + 1) with (Z.of_nat (S i)) by lia.
  replace (ws ++ beWord b0 b1 b2 b3 :: replicate (n + k) 0) with ((ws ++ [beWord b0 b1 b2 b3]) ++ replicate (n + k) 0)
    by (by rewrite <- app_assoc).
  rewrite IH by (rewrite ?length_app; cbn [length]; lia). by rewrite <- app_assoc.
Qed.

Lemma aget_total (w : list Z) i : (i < length w)%nat → aget w (Z.of_nat i) = Some (w !!! i).
Proof. intros Hi. rewrite aget_nat. by apply list_lookup_lookup_total_lt. Qed.

(** [w[i - k]] where the words up to [i] are done. *)
Lemma aget_back k (ws post : list Z) z :
  z = Z.of_nat k → (0 < k <= length ws)%nat →
  aget (ws ++ post) (Z.of_nat (length ws) - z) = Some (ws !!! (length ws - k)%nat).
Proof.
  intros -> Hk. replace (Z.of_nat (length ws) - Z.of_nat k) with (Z.of_nat (length ws - k)) by lia.
  rewrite aget_total by (rewrite length_app; lia). by rewrite lookup_total_app_l by lia.
Qed.

Lemma extendWords_ok n ws :
  (16 <= length ws)%nat → extendWords n (Z.of_nat (length ws)) (ws ++ replicate n 0) = Some (schedule n ws).
Proof.
  revert ws. induction n as [|n IH]; intros ws Hl; cbn [extendWords schedule].
  { by rewrite app_nil_r. }
  rewrite (aget_back 15 _ _ 15), (aget_back 2 _ _ 2), (aget_back 16 _ _ 16), (aget_back 7 _ _ 7) by lia. simpl_bind. cbn [replicate].
  rewrite aset_middle by done. simpl_bind.
  set (x := u32 _). set (y := u32 (smallSigma1 _ + _ + _ + _)).
  assert (x = y) as -> by (unfold x, y; f_equal; lia).
  replace (ws ++ y :: replicate n 0) with ((ws ++ [y]) ++ replicate n 0) by (by rewrite <- app_assoc).
  replace (Z.of_nat (length ws) + 1) with (Z.of_nat (length (ws ++ [y]))) by (rewrite length_app; cbn; lia).
  apply IH. rewrite length_app. lia.
Qed.

Lemma hashRounds_ok n i w s :
  (i + n = 64)%nat → length w = 64%nat →
  hashRounds n (Z.of_nat i) w s
    = Some (foldl (λ s kw, hashRound s kw.1 kw.2) s (zip (drop i kSha256K) (drop i w))).
Proof.
  revert i s. induction n as [|n IH]; intros i s Hi Hw; cbn [hashRounds].
  { rewrite !drop_ge by (done || (replace i with 64%nat by lia; done)). done. }
  destruct (lookup_lt_is_Some_2 kSha256K i) as [k Hk]; [cbn; lia|].
  destruct (lookup_lt_is_Some_2 w i) as [x Hx]; [lia|].
  rewrite !aget_nat, Hk, Hx. simpl_bind. rewrite (drop_S _ _ _ Hk), (drop_S _ _ _ Hx). cbn [zip zip_with foldl fst snd].
  replace (Z.of_nat i + 1) with (Z.of_nat (S i)) by lia. apply IH; [lia|done].
Qed.

Lemma length_blockWords n block : length block = (4 * n)%nat → length (blockWords n block) = n.
Proof.
  revert block. induction n as [|n IH]; intros block Hl; [done|].
  destruct block as [|b0 [|b1 [|b2 [|b3 rest]]]]; cbn [length] in Hl; try lia. cbn [blockWords length].
  rewrite IH; [done|lia].
Qed.

Lemma length_schedule n ws : length (schedule n ws) = (n + length ws)%nat.
Proof. revert ws. induction n as [|n IH]; intros ws; [done|]. cbn [schedule]. rewrite IH, length_app. cbn. lia. Qed.

(** The three loops from their start. *)
Lemma loadWords_init n k m pre block post :
  length block = (4 * n)%nat → m = (n + k)%nat →
  loadWords n 0 (pre ++ block ++ post) (Z.of_nat (length pre)) (replicate m 0)
    = Some (blockWords n block ++ replicate k 0).
Proof.
  intros Hb ->. apply (loadWords_ok n 0 pre block post (Z.of_nat (length pre)) [] k); [lia|done|done].
Qed.

Lemma extendWords_init n i ws :
  length ws = Z.to_nat i → 16 <= i → extendWords n i (ws ++ replicate n 0) = Some (schedule n ws).
Proof. intros Hl Hi. replace i with (Z.of_nat (length ws)) by lia. apply extendWords_ok. lia. Qed.

Lemma hashRounds_init n w s :
  n = 64%nat → length w = n →
  hashRounds n 0 w s = Some (foldl (λ s kw, hashRound s kw.1 kw.2) s (zip kSha256K w)).
Proof. intros Hn Hw. apply (hashRounds_ok n 0 w s); lia. Qed.

Lemma chunk_loops n1 n2 n3 m pre block post h :
  n1 = 16%nat → n2 = 48%nat → n3 = 64%nat → m = 64%nat → length block = 64%nat →
  (w ← loadWords n1 0 (pre ++ block ++ post) (Z.of_nat (length pre)) (replicate m 0);
   w ← extendWords n2 16 w;
   s ← hashRounds n3 0 w h;
   Some (hashAdd h s))
  = Some (hashAdd h (foldl (λ s kw, hashRound s kw.1 kw.2) h (zip kSha256K (schedule n2 (blockWords n1 block))))).
Proof.
  intros H1 H2 H3 Hm Hb. pose proof (length_blockWords n1 block ltac:(lia)) as Hw.
  rewrite (loadWords_init n1 n2 m pre block post) by lia. simpl_bind.
  rewrite (extendWords_init n2 16) by lia. simpl_bind.
  rewrite (hashRounds_init n3) by (rewrite ?length_schedule; lia). done.
Qed.

Lemma hashChunk_ok pre block post chunk h :
  chunk = Z.of_nat (length pre) → length block = 64%nat →
  hashChunk (pre ++ block ++ post) chunk h = Some (hashBlock h block).
Proof. intros -> Hb. exact (chunk_loops 16 48 64 64 pre block post h eq_refl eq_refl eq_refl eq_refl Hb). Qed.

Lemma hashChunks_ok n pre rest h :
  length rest = (64 * n)%nat → hashChunks n (Z.of_nat (length pre)) (pre ++ rest) h = Some (blocks hashBlock n rest h).
Proof.
  revert pre rest h. induction n as [|n IH]; intros pre rest h Hl; [done|]. cbn [hashChunks blocks].
  rewrite <- (take_drop 64 rest) at 1. rewrite hashChunk_ok by (rewrite ?length_take; lia). simpl_bind.
  rewrite <- (take_drop 64 rest) at 1. rewrite app_assoc.
  replace (Z.of_nat (length pre) + 64) with (Z.of_nat (length (pre ++ take 64 rest)))
    by (rewrite length_app, length_take; lia).
  apply IH. rewrite length_drop. lia.
Qed.

Lemma sha256_blocks m : Z.of_nat (length m) * 8 < 18446744073709551616 → sha256 m = Some (blockSha256 m).
Proof.
  intros Hm. unfold sha256, blockSha256. rewrite padMessage_ok, length_blockPad by done. simpl_bind.
  pose proof (hashChunks_ok (paddedLen (length m) / 64) [] (blockPad m) hashInit) as H. cbn [app length] in H.
  change (Z.of_nat 0) with 0 in H. rewrite H; [done|]. by rewrite length_blockPad, <- paddedLen_chunks.
Qed.

(** ** HMAC *)

Lemma length_blockSha256 m : length (blockSha256 m) = 32%nat.
Proof. done. Qed.

Definition blockHmac (key data : list Z) : list Z :=
  let k := zeroFill 64 (if (64 <? length key)%nat then blockSha256 key else key) in
  blockSha256 (((λ b, Z.lxor b 0x5c) <$> k) ++ blockSha256 (((λ b, Z.lxor b 0x36) <$> k) ++ data)).

Lemma copyIn_fill n l : (length l <= n)%nat → copyIn (replicate n 0) 0 l = Some (zeroFill n l).
Proof.
  intros Hl. unfold zeroFill. replace n with (length l + (n - length l))%nat at 1 by lia. rewrite replicate_add.
  apply (copyIn_ok [] (replicate (length l) 0) (replicate (n - length l) 0) l 0 eq_refl). apply length_replicate.
Qed.

Lemma length_zeroFill n l : (length l <= n)%nat → length (zeroFill n l) = n.
Proof. intros. unfold zeroFill. rewrite length_app, length_replicate. lia. Qed.

Lemma hmacSha256_blocks key data :
  Z.of_nat (length key) < 2 ^ 60 → Z.of_nat (length data) < 2 ^ 60 → hmacSha256 key data = Some (blockHmac key data).
Proof.
  intros Hk Hd. unfold hmacSha256, blockHmac, kSha256BlockSize.
  set (k := if (64 <? length key)%nat then blockSha256 key else key).
  assert (Hkl : (length k <= 64)%nat) by (unfold k; destruct (64 <? length key)%nat eqn:E; [rewrite length_blockSha256; lia|apply Nat.ltb_ge in E; lia]).
  assert (Hblock : (if (64 <? length key)%nat then hashed ← sha256 key; copyIn (replicate 64 0) 0 hashed
                    else copyIn (replicate 64 0) 0 key) = Some (zeroFill 64 k)).
  { unfold k in *. destruct (64 <? length key)%nat; [rewrite sha256_blocks by lia; simpl_bind|]; by apply copyIn_fill. }
  rewrite Hblock. simpl_bind. pose proof (length_zeroFill 64 k Hkl) as Hz.
  rewrite sha256_blocks by (rewrite length_app, length_fmap, Hz; lia). simpl_bind.
  apply sha256_blocks. rewrite length_app, length_fmap, Hz, length_blockSha256. lia.
Qed.

Lemma length_blockHmac key data : length (blockHmac key data) = 32%nat.
Proof. apply length_blockSha256. Qed.

Lemma bytesDiff_ok a b diff :
  length a = length b → bytesDiff a b diff = 0 ↔ diff = 0 ∧ a = b.
Proof.
  revert b diff. induction a as [|x a IH]; intros [|y b] diff Hl; try done; cbn [bytesDiff].
  { tauto. }
  rewrite IH by (by injection Hl). rewrite Z.lor_eq_0_iff, Z.lxor_eq_0_iff. naive_solver.
Qed.

Lemma constantTimeEquals_ok a b : length a = length b → constantTimeEquals a b = bool_decide (a = b).
Proof.
  intros Hl. unfold constantTimeEquals. pose proof (bytesDiff_ok a b 0 Hl) as Hd.
  destruct (bytesDiff a b 0 =? 0) eqn:E.
  - symmetry. apply bool_decide_eq_true. apply Hd. lia.
  - symmetry. apply bool_decide_eq_false. intros ->. assert (bytesDiff b b 0 = 0) by (by apply Hd). lia.
Qed.

(** ** The blocks are those of the standard *)

Lemma u32_word x : is_word (u32 x).
Proof. apply mod_word. Qed.

Lemma u32_bit x i : 0 <= i → Z.testbit (u32 x) i = (i <? 32) && Z.testbit x i.
Proof.
  intros Hi. unfold u32. change 4294967296 with (2 ^ 32).
  destruct (Z.ltb_spec i 32); [by rewrite Z.mod_pow2_bits_low by lia|by rewrite Z.mod_pow2_bits_high by lia].
Qed.

(** Bit [i] of a word is none at 32 or more. *)
Lemma is_word_bit x i : is_word x → Z.testbit x i = (i <? 32) && Z.testbit x i.
Proof. intros Hx. destruct (Z.ltb_spec i 32); [done|]. by rewrite word_high. Qed.

Lemma rotr_ROTR x n : is_word x → 0 < n < 32 → rotr x n = ROTR n x.
Proof.
  intros Hx Hn. apply word_eq. intros i Hi. unfold rotr.
  rewrite Z.lor_spec, Z.shiftr_spec, u32_bit, Z.shiftl_spec by lia. destruct (Z.ltb_spec i 32); cbn [andb].
  - destruct (decide (i + n < 32)).
    + rewrite Z.mod_small by lia. rewrite (Z.testbit_neg_r x (i - _)) by lia. by rewrite orb_false_r.
    + rewrite (word_high x (i + n)) by (done || lia). cbn [orb]. f_equal.
      rewrite <- (Z.mod_unique_pos (i + n) 32 1 (i + n - 32)) by lia. lia.
  - by rewrite word_high by (done || lia).
Qed.

Lemma shiftr_SHR x n : is_word x → 0 <= n → Z.shiftr x n = SHR n x.
Proof.
  intros Hx Hn. apply word_eq. intros i Hi. rewrite Z.shiftr_spec, is_word_bit by (done || lia).
  destruct (Z.ltb_spec (i + n) 32), (Z.ltb_spec i 32); (done || lia).
Qed.

Lemma lxor_Parity x y z : is_word x → is_word y → is_word z → Z.lxor (Z.lxor x y) z = Parity x y z.
Proof.
  intros Hx Hy Hz. apply word_eq. intros i Hi. rewrite !Z.lxor_spec, (is_word_bit x), (is_word_bit y), (is_word_bit z) by done.
  destruct (i <? 32); [|done]. by destruct (Z.testbit x i), (Z.testbit y i), (Z.testbit z i).
Qed.

Lemma choose_Ch x y z : is_word y → is_word z → choose x y z = Ch x y z.
Proof.
  intros Hy Hz. apply word_eq. intros i Hi. unfold choose.
  rewrite Z.lxor_spec, !Z.land_spec, u32_bit, Z.lnot_spec, (is_word_bit y), (is_word_bit z) by done.
  destruct (i <? 32); [|by destruct (Z.testbit x i)]. by destruct (Z.testbit x i), (Z.testbit y i), (Z.testbit z i).
Qed.

Lemma majority_Maj x y z : is_word x → is_word y → is_word z → majority x y z = Maj x y z.
Proof.
  intros Hx Hy Hz. apply word_eq. intros i Hi. unfold majority.
  rewrite !Z.lxor_spec, !Z.land_spec, (is_word_bit x), (is_word_bit y), (is_word_bit z) by done.
  destruct (i <? 32); [|done]. by destruct (Z.testbit x i), (Z.testbit y i), (Z.testbit z i).
Qed.

Lemma sigma_ok x : is_word x →
  bigSigma0 x = Sum0 x ∧ bigSigma1 x = Sum1 x ∧ smallSigma0 x = sig0 x ∧ smallSigma1 x = sig1 x.
Proof.
  intros Hx. unfold bigSigma0, bigSigma1, smallSigma0, smallSigma1. rewrite !rotr_ROTR, !shiftr_SHR by (done || lia).
  repeat split; apply lxor_Parity; apply word_range.
Qed.

Definition hashWords (h : Hash) : list Z := [h_a h; h_b h; h_c h; h_d h; h_e h; h_f h; h_g h; h_h h].
Definition word_hash (h : Hash) : Prop := Forall is_word (hashWords h).

Lemma hashRound_ok s k w :
  word_hash s → hashWords (hashRound s k w) = round256 (hashWords s) (k, w) ∧ word_hash (hashRound s k w).
Proof.
  intros Hs. destruct s as [a b c d e f g h]. unfold word_hash, hashWords in *. cbn in Hs. rewrite !Forall_cons in Hs.
  destruct Hs as (Ha & Hb & Hc & Hd & He & Hf & Hg & Hh & _).
  destruct (sigma_ok a Ha) as (S0 & _). destruct (sigma_ok e He) as (_ & S1 & _).
  unfold hashRound. cbn [h_a h_b h_c h_d h_e h_f h_g h_h round256 fst snd].
  rewrite S0, S1, choose_Ch, majority_Maj by done. split; [done|]. repeat (apply Forall_cons_2; [apply u32_word || done|]); constructor.
Qed.

Lemma hashRounds_fips kw s :
  word_hash s →
  let s' := foldl (λ s kw, hashRound s kw.1 kw.2) s kw in
  hashWords s' = foldl round256 (hashWords s) kw ∧ word_hash s'.
Proof.
  revert s. induction kw as [|[k w] kw IH]; intros s Hs; [done|]. cbn [foldl fst snd].
  destruct (hashRound_ok s k w Hs) as [He Hw]. rewrite <- He. by apply IH.
Qed.

Lemma beWord_ok b0 b1 b2 b3 :
  bytes [b0; b1; b2; b3] → beWord b0 b1 b2 b3 = ((b0 * 256 + b1) * 256 + b2) * 256 + b3 ∧ is_word (beWord b0 b1 b2 b3).
Proof.
  intros Hb. rewrite !Forall_cons in Hb. destruct Hb as (H0 & H1 & H2 & H3 & _). unfold is_byte in *.
  assert (He : beWord b0 b1 b2 b3 = ((b0 * 256 + b1) * 256 + b2) * 256 + b3); [|unfold is_word; lia].
  unfold beWord. rewrite <- Z.lor_assoc, (lor_high b2 b3), <- Z.lor_assoc, (lor_high b1), (lor_high b0) by lia. lia.
Qed.

Lemma blockWords_ok n block :
  bytes block → blockWords n block = wordsOf n block ∧ Forall is_word (blockWords n block).
Proof.
  revert block. induction n as [|n IH]; intros block Hb; [done|].
  destruct block as [|b0 [|b1 [|b2 [|b3 rest]]]]; cbn [blockWords wordsOf]; try (split; [done|constructor]).
  change (b0 :: b1 :: b2 :: b3 :: rest) with ([b0; b1; b2; b3] ++ rest) in Hb. apply Forall_app in Hb as [H4 Hr].
  destruct (beWord_ok _ _ _ _ H4) as [Ew Ww], (IH rest Hr) as [Er Wr]. rewrite <- Ew, Er in *. by split; [|constructor].
Qed.

Lemma word_lookup ws i : Forall is_word ws → is_word (ws !!! i).
Proof.
  intros Hw. destruct (ws !! i) as [x|] eqn:E.
  - rewrite (list_lookup_total_correct _ _ _ E). by eapply Forall_lookup_1.
  - rewrite list_lookup_total_alt, E. done.
Qed.

Lemma schedule_ok n ws : Forall is_word ws → schedule n ws = schedule256 n ws.
Proof.
  revert ws. induction n as [|n IH]; intros ws Hw; [done|]. cbn [schedule schedule256].
  destruct (sigma_ok _ (word_lookup ws (length ws - 2) Hw)) as (_ & _ & _ & ->).
  destruct (sigma_ok _ (word_lookup ws (length ws - 15) Hw)) as (_ & _ & -> & _).
  apply IH. apply Forall_app. split; [done|]. constructor; [apply u32_word|constructor].
Qed.

(** The table and the initial value are the fractions of the roots. *)
Lemma kSha256K_fips : kSha256K = K256.
Proof. vm_compute. reflexivity. Qed.

Lemma hashInit_fips : hashWords hashInit = H256.
Proof. vm_compute. reflexivity. Qed.

Lemma hashAdd_ok h s : hashWords (hashAdd h s) = addWords (hashWords s) (hashWords h) ∧ word_hash (hashAdd h s).
Proof.
  split; [|repeat (apply Forall_cons_2; [apply u32_word|]); constructor].
  unfold hashWords, hashAdd, addWords. cbn [zip_with h_a h_b h_c h_d h_e h_f h_g h_h].
  unfold u32. change 4294967296 with (2 ^ 32).
  by rewrite (Z.add_comm (h_a h)), (Z.add_comm (h_b h)), (Z.add_comm (h_c h)), (Z.add_comm (h_d h)),
    (Z.add_comm (h_e h)), (Z.add_comm (h_f h)), (Z.add_comm (h_g h)), (Z.add_comm (h_h h)).
Qed.

Lemma hashBlock_ok h block :
  word_hash h → bytes block →
  hashWords (hashBlock h block) = compress256 (hashWords h) block ∧ word_hash (hashBlock h block).
Proof.
  intros Hh Hb. unfold hashBlock. set (s := foldl _ h _). destruct (hashAdd_ok h s) as [-> Hw]. split; [|done].
  unfold compress256, s. f_equal. destruct (blockWords_ok 16 block Hb) as [Eb Wb].
  rewrite <- Eb, <- schedule_ok, <- kSha256K_fips by done. by apply hashRounds_fips.
Qed.

Lemma hashBlocks_ok n m h :
  word_hash h → bytes m → hashWords (blocks hashBlock n m h) = blocks compress256 n m (hashWords h).
Proof. exact (blocks_sim word_hash hashWords hashBlock compress256 n m h hashBlock_ok). Qed.

Lemma wordBytes_be x : wordBytes x = be 4 x.
Proof. unfold wordBytes. rewrite !land_255. cbn [be]. by rewrite Z.shiftr_0_r. Qed.

Lemma hashBytes_digest h : hashBytes h = digest (hashWords h).
Proof. unfold hashBytes. rewrite !wordBytes_be. reflexivity. Qed.

(** The standard counts the padding in bits. *)
Lemma blockPad_pad m : blockPad m = pad m.
Proof.
  unfold blockPad, pad. do 3 f_equal. f_equal. set (n := length m).
  pose proof (Nat.div_mod_eq n 64) as Hd. pose proof (Nat.mod_upper_bound n 64 ltac:(lia)) as Hr.
  set (q := (n / 64)%nat) in *. set (r := (n mod 64)%nat) in *. clearbody n q r. subst n.
  destruct (decide (r < 56)%nat).
  - rewrite <- (Nat.mod_unique (119 - r) 64 1 (55 - r)) by lia.
    rewrite <- (Z.mod_unique_pos _ 512 (- Z.of_nat q) (447 - 8 * Z.of_nat r)) by lia.
    replace (447 - 8 * Z.of_nat r - 7) with ((55 - Z.of_nat r) * 8) by lia. rewrite Z.div_mul by lia. lia.
  - rewrite Nat.mod_small by lia.
    rewrite <- (Z.mod_unique_pos _ 512 (- Z.of_nat q - 1) (959 - 8 * Z.of_nat r)) by lia.
    replace (959 - 8 * Z.of_nat r - 7) with ((119 - Z.of_nat r) * 8) by lia. rewrite Z.div_mul by lia. lia.
Qed.

Lemma pad_bytes m : bytes m → bytes (pad m).
Proof.
  intros Hm. unfold pad. apply Forall_app. split; [done|]. constructor; [unfold is_byte; lia|].
  apply Forall_app. split; [apply Forall_replicate; unfold is_byte; lia|apply be_bytes].
Qed.

Lemma hashInit_words : word_hash hashInit.
Proof. by repeat constructor. Qed.

Lemma blockSha256_fips m : bytes m → blockSha256 m = fipsSha256 m.
Proof.
  intros Hm. unfold blockSha256, fipsSha256. rewrite blockPad_pad, hashBytes_digest. cbv zeta.
  rewrite (hashBlocks_ok _ _ _ hashInit_words (pad_bytes m Hm)), hashInit_fips. reflexivity.
Qed.

Lemma fipsSha256_bytes m : bytes (fipsSha256 m).
Proof. apply digest_bytes. Qed.

Lemma xor_byte b k : is_byte b → is_byte k → is_byte (Z.lxor b k).
Proof.
  unfold is_byte. intros Hb Hk. assert (0 <= Z.lxor b k) by (apply Z.lxor_nonneg; tauto).
  split; [done|]. destruct (decide (Z.lxor b k = 0)); [lia|]. change 256 with (2 ^ 8). apply Z.log2_lt_pow2; [lia|].
  pose proof (Z.log2_lxor b k ltac:(lia) ltac:(lia)).
  pose proof (Z.log2_le_mono b 255 ltac:(lia)). pose proof (Z.log2_le_mono k 255 ltac:(lia)).
  change (Z.log2 255) with 7 in *. lia.
Qed.

Lemma padded_bytes k key data : is_byte k → bytes key → bytes data → bytes (((λ b, Z.lxor b k) <$> zeroFill 64 key) ++ data).
Proof.
  intros Hk Hkey Hd. apply Forall_app. split; [|done]. apply Forall_fmap. unfold zeroFill.
  apply Forall_app. split; [|apply Forall_replicate; apply (xor_byte 0); unfold is_byte in *; lia].
  eapply Forall_impl; [exact Hkey|]. intros b Hb. by apply xor_byte.
Qed.

Lemma blockHmac_rfc key data : bytes key → bytes data → blockHmac key data = rfcHmac key data.
Proof.
  intros Hk Hd. unfold blockHmac, rfcHmac. rewrite (blockSha256_fips key Hk). set (k := if (64 <? length key)%nat then _ else key).
  assert (Hb : bytes k) by (unfold k; destruct (_ <? _)%nat; [apply fipsSha256_bytes|done]). cbv zeta.
  assert (Hi : is_byte 0x36) by (unfold is_byte; lia). assert (Ho : is_byte 0x5c) by (unfold is_byte; lia).
  rewrite (blockSha256_fips (_ ++ data)) by exact (padded_bytes _ _ _ Hi Hb Hd).
  apply blockSha256_fips. exact (padded_bytes _ _ _ Ho Hb (fipsSha256_bytes _)).
Qed.

(** C38: the hash function reads and writes inside its arrays and computes SHA-256 as
    FIPS 180-4 defines it, for every message of bytes whose length is below 2^60 bytes; and
    the code over it is HMAC-SHA-256 as RFC 2104 defines it, for every key of bytes below
    that length.  The definitions of [Fips] are the standard's: its functions bit by bit,
    its constants from the roots of the primes. *)
Theorem sha256_is_fips m key :
  bytes m → bytes key → Z.of_nat (length m) < 2 ^ 60 → Z.of_nat (length key) < 2 ^ 60 →
  sha256 m = Some (fipsSha256 m) ∧ hmacSha256 key m = Some (rfcHmac key m).
Proof.
  intros Bm Bk Hm Hk. split.
  - rewrite <- (blockSha256_fips m Bm). apply sha256_blocks. lia.
  - rewrite <- (blockHmac_rfc key m Bk Bm). by apply hmacSha256_blocks.
Qed.

Definition hiThereDigest : list Z :=
  [0xb0; 0x34; 0x4c; 0x61; 0xd8; 0xdb; 0x38; 0x53; 0x5c; 0xa8; 0xaf; 0xce; 0xaf; 0x0b; 0xf1; 0x2b;
   0x88; 0x1d; 0xc2; 0x00; 0xc9; 0x83; 0x3d; 0xa7; 0x26; 0xe9; 0x37; 0x6c; 0x2e; 0x32; 0xcf; 0xf7].

Definition abcDigest : list Z :=
  [0xba; 0x78; 0x16; 0xbf; 0x8f; 0x01; 0xcf; 0xea; 0x41; 0x41; 0x40; 0xde; 0x5d; 0xae; 0x22; 0x23;
   0xb0; 0x03; 0x61; 0xa3; 0x96; 0x17; 0x7a; 0x9c; 0xb4; 0x10; 0xff; 0x61; 0xf2; 0x00; 0x15; 0xad].

(** The digest of three letters, from the standard, and the first test of RFC 4231. *)
Lemma sha256_is_fips_witness :
  (sha256 (str "abc") = Some (fipsSha256 (str "abc")) ∧
   hmacSha256 (replicate 20 11) (str "abc") = Some (rfcHmac (replicate 20 11) (str "abc"))) ∧
  sha256 (str "abc") = Some abcDigest ∧
  hmacSha256 (replicate 20 11) (str "Hi There") = Some hiThereDigest.
Proof.
  split.
  - apply (sha256_is_fips (str "abc") (replicate 20 11)); [| |vm_compute; reflexivity..];
      apply (bool_decide_unpack _); vm_compute; exact I.
  - split; vm_compute; reflexivity.
Defined.
