(* ===== verification/Jwt.v ===== *)
(** Access tokens of the admin API: [admin/jwt.cpp], and the script that issues them,
    [scripts/issue-admin-token.sh].

    A string is the list of its bytes; a position in a string is the rest of the string
    from there.  [None] as the answer of [verifyJwt] means that the call throws
    ([std::stoll] on a number it cannot represent) or is undefined. *)
From Stdlib Require Import String.
From S2P Require Import Prelude Wire Base64 Fips Sha256 SegmentNames.

Inductive JwtReason :=
  | JwtOk | Malformed | AlgRejected | BadSignature | MissingClaim | TtlTooLong | NotYetValid | Expired | Revoked.

#[export] Instance JwtReason_eq_dec : EqDecision JwtReason.
Proof. solve_decision. Defined.

Record VerifyResult := mkVerifyResult {
  vr_ok : bool;
  vr_sub : list Z;
  vr_roles : list (list Z);
  vr_reason : JwtReason
}.

(** ** Reading claims *)

(** The pieces between the delimiters. *)
Fixpoint splitOn (s : list Z) (delim : Z) : list (list Z) :=
  match s with
  | [] => [[]]
  | x :: s' =>
      if x =? delim then [] :: splitOn s' delim
      else match splitOn s' delim with
           | p :: ps => (x :: p) :: ps
           | [] => [[x]]
           end
  end.

(** What follows the first occurrence of [needle], which is not empty. *)
Fixpoint findAfter (needle s : list Z) : option (list Z) :=
  match s with
  | [] => None
  | _ :: s' => if bool_decide (needle `prefix_of` s) then Some (drop (length needle) s) else findAfter needle s'
  end.

(** [find_first_not_of(" \t\r\n", pos)] *)
Fixpoint skipSpace (s : list Z) : list Z :=
  match s with
  | [] => []
  | x :: s' => if bool_decide (x ∈ [32; 9; 13; 10]) then skipSpace s' else s
  end.

(** [json.find(ch, pos)]: what is in front of it, and what follows. *)
Fixpoint untilChar (ch : Z) (s : list Z) : option (list Z * list Z) :=
  match s with
  | [] => None
  | x :: s' =>
      if x =? ch then Some ([], s')
      else '(p, rest) ← untilChar ch s'; Some (x :: p, rest)
  end.

Definition quoted (key : list Z) : list Z := [34] ++ key ++ [34].

Definition findValueStart (json key : list Z) : option (list Z) :=
  rest ← findAfter (quoted key) json;
  match skipSpace rest with
  | 58 :: rest' => match skipSpace rest' with [] => None | v => Some v end
  | _ => None
  end.

Definition extractString (json key : list Z) : option (list Z) :=
  start ← findValueStart json key;
  match start with
  | 34 :: s => fst <$> untilChar 34 s
  | _ => None
  end.

Definition isDigit (x : Z) : bool := (48 <=? x) && (x <=? 57).

Fixpoint takeWhile (f : Z → bool) (s : list Z) : list Z :=
  match s with
  | [] => []
  | x :: s' => if f x then x :: takeWhile f s' else []
  end.

Definition number (ds : list Z) : Z := foldl (λ n d, 10 * n + (d - 48)) 0 ds.

(** [std::stoll]; [None] is an exception. *)
Definition stoll (s : list Z) : option Z :=
  let '(neg, ds) := match s with 45 :: s' => (true, takeWhile isDigit s') | _ => (false, takeWhile isDigit s) end in
  if bool_decide (ds = []) then None
  else
    let v := if neg then - number ds else number ds in
    if bool_decide (in_i64 v) then Some v else None.

(** The inner [None] is the answer false. *)
Definition extractInt (json key : list Z) : option (option Z) :=
  match findValueStart json key with
  | None => Some None
  | Some s =>
      let run := takeWhile (λ x, isDigit x || (x =? 45)) s in
      if bool_decide (run = []) then Some None else v ← stoll run; Some (Some v)
  end.

(** The loop over the text between the brackets. *)
Fixpoint arrayItems (fuel : nat) (s : list Z) : list (list Z) :=
  match fuel with
  | O => []
  | S fuel' =>
      match untilChar 34 s with
      | None => []
      | Some (_, s) =>
          match untilChar 34 s with
          | None => []
          | Some (item, s) => item :: arrayItems fuel' s
          end
      end
  end.

Definition extractStringArray (json key : list Z) : option (list (list Z)) :=
  start ← findValueStart json key;
  match start with
  | 91 :: s => '(items, _) ← untilChar 93 s; Some (arrayItems (length items) items)
  | _ => None
  end.

(** ** Verification *)

Definition fail (reason : JwtReason) : VerifyResult := mkVerifyResult false [] [] reason.

Definition checkClaims (payloadJson : list Z) (nowUnix : Z) (revokedJti : list (list Z)) : option VerifyResult :=
  match extractString payloadJson (str "sub"), extractString payloadJson (str "jti"),
        extractStringArray payloadJson (str "roles") with
  | Some sub, Some jti, Some roles =>
      iat ← extractInt payloadJson (str "iat");
      match iat with
      | None => Some (fail MissingClaim)
      | Some iat =>
          exp ← extractInt payloadJson (str "exp");
          match exp with
          | None => Some (fail MissingClaim)
          | Some exp =>
              if bool_decide (roles = []) then Some (fail MissingClaim)
              else if negb (bool_decide (in_i64 (exp - iat))) then None
              else if 3600 <? exp - iat then Some (fail TtlTooLong)
              else if nowUnix <? iat then Some (fail NotYetValid)
              else if exp <? nowUnix then Some (fail Expired)
              else if bool_decide (jti ∈ revokedJti) then Some (fail Revoked)
              else Some (mkVerifyResult true sub roles JwtOk)
          end
      end
  | _, _, _ => Some (fail MissingClaim)
  end.

Definition verifyJwt (token secret : list Z) (nowUnix : Z) (revokedJti : list (list Z)) : option VerifyResult :=
  match splitOn token 46 with
  | [headerB64; payloadB64; sigB64] =>
      match base64Decode headerB64 true, base64Decode payloadB64 true, base64Decode sigB64 true with
      | Some headerJson, Some payloadJson, Some sigBytes =>
          if negb (bool_decide (extractString headerJson (str "alg") = Some (str "HS256")))
          then Some (fail AlgRejected)
          else if negb (length sigBytes =? 32)%nat then Some (fail BadSignature)
          else
            expected ← hmacSha256 secret (headerB64 ++ str "." ++ payloadB64);
            if negb (constantTimeEquals sigBytes expected) then Some (fail BadSignature)
            else checkClaims payloadJson nowUnix revokedJti
      | _, _, _ => Some (fail Malformed)
      end
  | _ => Some (fail Malformed)
  end.

(** ** Issuing *)

Definition kQuote : list Z := [34].

(** [["A","B"]] *)
Fixpoint roleItems (roles : list (list Z)) : list Z :=
  match roles with
  | [] => []
  | [r] => quoted r
  | r :: rs => quoted r ++ str "," ++ roleItems rs
  end.

Definition tokenHeader : list Z :=
  str "{" ++ quoted (str "alg") ++ str ":" ++ quoted (str "HS256") ++ str "," ++
  quoted (str "typ") ++ str ":" ++ quoted (str "JWT") ++ str "}".

Definition tokenPayload (sub : list Z) (roles : list (list Z)) (iat exp : Z) (jti : list Z) : list Z :=
  str "{" ++ quoted (str "sub") ++ str ":" ++ quoted sub ++ str "," ++
  quoted (str "roles") ++ str ":[" ++ roleItems roles ++ str "]," ++
  quoted (str "iat") ++ str ":" ++ decimal 20 iat ++ str "," ++
  quoted (str "exp") ++ str ":" ++ decimal 20 exp ++ str "," ++
  quoted (str "jti") ++ str ":" ++ quoted jti ++ str "}".

(** [openssl base64 | tr '+/' '-_' | tr -d '=']: the URL-safe alphabet, no padding. *)
Definition b64url (s : list Z) : option (list Z) := base64Encode s true false.

(** [None]: the script refuses. *)
Definition issueToken (secret sub : list Z) (roles : list (list Z)) (now ttl : Z) (jti : list Z) : option (list Z) :=
  if bool_decide (sub = []) || bool_decide (roles = []) || bool_decide (secret = []) || (3600 <? ttl) then None
  else
    header ← b64url tokenHeader;
    payload ← b64url (tokenPayload sub roles now (now + ttl) jti);
    let signingInput := header ++ str "." ++ payload in
    signature ← b64url (rfcHmac secret signingInput);
    Some (signingInput ++ str "." ++ signature).

(** ** Splitting *)

Lemma splitOn_nonempty s d : splitOn s d ≠ [].
Proof. destruct s as [|x s]; cbn; [done|]. case_match; [done|]. by case_match. Qed.

Lemma splitOn_piece s d : d ∉ s → splitOn s d = [s].
Proof.
  induction s as [|x s IH]; intros Hd; [done|]. rewrite not_elem_of_cons in Hd. destruct Hd as [Hx Hd]. cbn.
  destruct (x =? d) eqn:E; [lia|]. by rewrite IH.
Qed.

Lemma splitOn_app s t d : d ∉ s → splitOn (s ++ [d] ++ t) d = s :: splitOn t d.
Proof.
  induction s as [|x s IH]; intros Hd; cbn; [by rewrite Z.eqb_refl|].
  rewrite not_elem_of_cons in Hd. destruct Hd as [Hx Hd].
  destruct (x =? d) eqn:E; [lia|]. change (s ++ d :: t) with (s ++ [d] ++ t). by rewrite IH.
Qed.

Lemma splitOn_join s d p ps : splitOn s d = p :: ps → s = p ++ concat ((λ q, d :: q) <$> ps) ∧ d ∉ p.
Proof.
  revert p ps. induction s as [|x s IH]; intros p ps; cbn.
  { intros [= <- <-]. split; [done|set_solver]. }
  destruct (x =? d) eqn:E.
  - intros [= <- <-]. destruct (splitOn s d) as [|q qs] eqn:Es; [by apply splitOn_nonempty in Es|].
    destruct (IH q qs eq_refl) as [-> _]. cbn. split; [f_equal; lia|set_solver].
  - destruct (splitOn s d) as [|q qs] eqn:Es; [by apply splitOn_nonempty in Es|]. intros [= <- <-].
    destruct (IH q qs eq_refl) as [-> Hq]. split; [done|]. rewrite not_elem_of_cons. split; [lia|done].
Qed.

(** ** What an accepted token is *)

Lemma checkClaims_accepts pj now rev r :
  checkClaims pj now rev = Some r → vr_ok r = true →
  ∃ jti iat exp, extractString pj (str "sub") = Some (vr_sub r) ∧ extractStringArray pj (str "roles") = Some (vr_roles r) ∧
    extractString pj (str "jti") = Some jti ∧ extractInt pj (str "iat") = Some (Some iat) ∧
    extractInt pj (str "exp") = Some (Some exp) ∧
    vr_roles r ≠ [] ∧ iat <= now <= exp ∧ exp - iat <= 3600 ∧ jti ∉ rev ∧ vr_reason r = JwtOk.
Proof.
  unfold checkClaims. intros H Hok.
  destruct (extractString pj (str "sub")) as [sub|]; [|by injection H as <-].
  destruct (extractString pj (str "jti")) as [jti|]; [|by injection H as <-].
  destruct (extractStringArray pj (str "roles")) as [roles|]; [|by injection H as <-].
  destruct (extractInt pj (str "iat")) as [[iat|]|]; [|by injection H as <-|done]. cbn [mbind option_bind] in H.
  destruct (extractInt pj (str "exp")) as [[exp|]|]; [|by injection H as <-|done]. cbn [mbind option_bind] in H.
  case_bool_decide; [by injection H as <-|]. destruct (negb _); [done|].
  destruct (3600 <? exp - iat) eqn:E1; [by injection H as <-|].
  destruct (now <? iat) eqn:E2; [by injection H as <-|]. destruct (exp <? now) eqn:E3; [by injection H as <-|].
  case_bool_decide; [by injection H as <-|]. injection H as <-. exists jti, iat, exp. cbn. repeat split; (done || lia).
Qed.

Lemma verify_accepts token secret now rev r :
  Z.of_nat (length token) < 2 ^ 59 → Z.of_nat (length secret) < 2 ^ 60 →
  verifyJwt token secret now rev = Some r → vr_ok r = true →
  ∃ h p sg hj pj, token = h ++ str "." ++ p ++ str "." ++ sg ∧
    base64Decode h true = Some hj ∧ base64Decode p true = Some pj ∧
    base64Decode sg true = Some (blockHmac secret (h ++ str "." ++ p)) ∧
    extractString hj (str "alg") = Some (str "HS256") ∧ checkClaims pj now rev = Some r.
Proof.
  intros Ht Hs H Hok. unfold verifyJwt in H.
  destruct (splitOn token 46) as [|h [|p [|sg [|]]]] eqn:Es; try (by injection H as <-).
  destruct (splitOn_join token 46 _ _ Es) as [-> _].
  destruct (base64Decode h true) as [hj|] eqn:Eh; [|by injection H as <-].
  destruct (base64Decode p true) as [pj|] eqn:Ep; [|by injection H as <-].
  destruct (base64Decode sg true) as [sb|] eqn:Eg; [|by injection H as <-].
  case_bool_decide as Ha; cbn [negb] in H; [|by injection H as <-].
  destruct (length sb =? 32)%nat eqn:El; cbn [negb] in H; [|by injection H as <-]. apply Nat.eqb_eq in El.
  cbn [concat fmap list_fmap] in *. rewrite app_nil_r in *. rewrite !length_app in Ht. cbn [length] in Ht.
  rewrite hmacSha256_blocks in H; [|done|].
  2: { rewrite !length_app in *. change (length (str ".")) with 1%nat. cbn [length] in Ht. lia. }
  cbn [mbind option_bind] in H.
  rewrite constantTimeEquals_ok in H by (by rewrite length_blockHmac).
  case_bool_decide as Hc; cbn [negb] in H; [|by injection H as <-]. subst sb.
  exists h, p, sg, hj, pj. split; [done|]. repeat split; try done.
Qed.

(** ** Looking for a claim *)

(** Text without quotation marks. *)
Definition plain (s : list Z) : Prop := Forall (λ x, x ≠ 34) s.

Lemma findAfter_plain k c s : plain c → findAfter (quoted k) (c ++ s) = findAfter (quoted k) s.
Proof.
  induction 1 as [|x c Hx _ IH]; [done|]. cbn [app findAfter]. rewrite bool_decide_eq_false_2; [done|].
  unfold quoted. intros [l Hl]. cbn in Hl. by injection Hl as -> _.
Qed.

Lemma plain_split c c' s s' : plain c → plain c' → c ++ 34 :: s = c' ++ 34 :: s' → c = c'.
Proof.
  intros Hc. revert c'. induction Hc as [|x c Hx _ IH]; intros c' Hc' H.
  - destruct c' as [|y c']; [done|]. apply Forall_cons in Hc' as [Hy _]. by injection H as <- _.
  - destruct c' as [|y c']; [by injection H as -> _|]. apply Forall_cons in Hc' as [_ Hc'].
    injection H as <- H. f_equal. by apply IH.
Qed.

(** In front of a quoted text. *)
Lemma findAfter_quoted k c s :
  plain k → plain c →
  findAfter (quoted k) (34 :: c ++ 34 :: s) = if decide (c = k) then Some s else findAfter (quoted k) (34 :: s).
Proof.
  intros Hk Hc. cbn [findAfter]. destruct (decide (c = k)) as [->|Hne].
  - rewrite bool_decide_eq_true_2.
    + change (34 :: k ++ 34 :: s) with ([34] ++ k ++ [34] ++ s). rewrite (app_assoc k), app_assoc.
      unfold quoted. by rewrite drop_app_length.
    + exists s. unfold quoted. cbn. by rewrite <- app_assoc.
  - rewrite bool_decide_eq_false_2; [|].
    + rewrite findAfter_plain by done. done.
    + intros [l Hl]. unfold quoted in Hl. cbn in Hl. injection Hl as Hl. rewrite <- app_assoc in Hl. cbn in Hl.
      by apply Hne, (plain_split _ _ _ _ Hc Hk Hl).
Qed.

Lemma findAfter_skip k c s :
  plain k → plain c → c ≠ k → findAfter (quoted k) (34 :: c ++ 34 :: s) = findAfter (quoted k) (34 :: s).
Proof. intros Hk Hc Hne. rewrite findAfter_quoted by done. by rewrite decide_False. Qed.

Lemma findAfter_hit k s : plain k → findAfter (quoted k) (34 :: k ++ 34 :: s) = Some s.
Proof. intros Hk. rewrite findAfter_quoted by done. by rewrite decide_True. Qed.

Lemma quoted_app k s : quoted k ++ s = 34 :: k ++ 34 :: s.
Proof. unfold quoted. cbn. by rewrite <- app_assoc. Qed.

(** Past a list of quoted texts. *)
Lemma findAfter_roles k pre roles post s :
  plain k → plain pre → plain post → Forall plain roles → roles ≠ [] →
  pre ≠ k → post ≠ k → str "," ≠ k → k ∉ roles →
  findAfter (quoted k) (34 :: pre ++ roleItems roles ++ post ++ 34 :: s) = findAfter (quoted k) (34 :: s).
Proof.
  intros Hk Hpre Hpost Hr Hne Npre Npost Ncomma Nin. revert pre Hpre Npre.
  induction Hr as [|r rs Hr Hrs IH]; intros pre Hpre Npre; [done|].
  rewrite not_elem_of_cons in Nin. destruct Nin as [Nr Nin].
  destruct rs as [|r2 rs]; cbn [roleItems].
  - rewrite quoted_app, findAfter_skip, findAfter_skip, findAfter_skip by done. done.
  - rewrite <- app_assoc, quoted_app, findAfter_skip, findAfter_skip, <- app_assoc by done.
    apply IH; [done|done| |done]. unfold plain. by repeat constructor.
Qed.

Lemma untilChar_ok ch s rest : Forall (λ x, x ≠ ch) s → untilChar ch (s ++ ch :: rest) = Some (s, rest).
Proof.
  induction 1 as [|x s Hx _ IH]; cbn; [by rewrite Z.eqb_refl|]. destruct (x =? ch) eqn:E; [lia|]. by rewrite IH.
Qed.

Lemma findValueStart_ok json key v x :
  findAfter (quoted key) json = Some (58 :: x :: v) → x ∉ [32; 9; 13; 10] →
  findValueStart json key = Some (x :: v).
Proof.
  intros H Hx. unfold findValueStart. rewrite H. simpl_bind. cbn [skipSpace].
  rewrite bool_decide_eq_false_2 by (rewrite !elem_of_cons, elem_of_nil; lia).
  cbn [skipSpace]. by rewrite bool_decide_eq_false_2.
Qed.

Lemma extractString_ok json key v rest :
  findAfter (quoted key) json = Some (58 :: 34 :: v ++ 34 :: rest) → plain v → extractString json key = Some v.
Proof.
  intros H Hv. unfold extractString.
  rewrite (findValueStart_ok _ _ _ _ H) by (rewrite !elem_of_cons, elem_of_nil; lia). simpl_bind.
  by rewrite untilChar_ok.
Qed.

Lemma roleItems_no_bracket roles : Forall (λ r, 93 ∉ r) roles → Forall (λ x, x ≠ 93) (roleItems roles).
Proof.
  induction 1 as [|r rs Hr Hrs IH]; [constructor|].
  assert (Hq : Forall (λ x, x ≠ 93) (quoted r)).
  { unfold quoted. repeat apply Forall_app_2; [by repeat constructor| |by repeat constructor].
    apply Forall_forall. intros x Hx ->. done. }
  destruct rs; [done|]. cbn [roleItems]. apply Forall_app_2; [done|]. apply Forall_app_2; [by repeat constructor|done].
Qed.

Lemma arrayItems_ok fuel roles :
  Forall plain roles → (length roles <= fuel)%nat → arrayItems fuel (roleItems roles) = roles.
Proof.
  intros Hr. revert fuel. induction Hr as [|r rs Hr Hrs IH]; intros fuel Hf; [by destruct fuel|].
  destruct fuel as [|fuel]; [simpl in Hf; lia|]. cbn [length] in Hf. cbn [arrayItems].
  assert (Hitem : ∀ t, untilChar 34 (quoted r ++ t) = Some ([], r ++ 34 :: t)) by (intros; by rewrite quoted_app).
  destruct rs as [|r2 rs].
  - cbn [roleItems]. pose proof (Hitem []) as H0. rewrite app_nil_r in H0. rewrite H0, untilChar_ok by done.
    by destruct fuel.
  - cbn [roleItems]. rewrite Hitem, untilChar_ok by done. f_equal.
    assert (Hcomma : ∀ f t, arrayItems f (str "," ++ t) = arrayItems f t).
    { intros f t. destruct f as [|f]; [done|]. cbn [arrayItems]. change (str "," ++ t) with (44 :: t). cbn [untilChar].
      change (44 =? 34) with false. cbv iota. by destruct (untilChar 34 t) as [[? ?]|]. }
    rewrite Hcomma. apply IH. cbn [length] in *. lia.
Qed.

Lemma roleItems_length roles : (length roles <= length (roleItems roles))%nat.
Proof.
  induction roles as [|r rs IH]; [done|]. destruct rs as [|r2 rs].
  - cbn [roleItems]. unfold quoted. rewrite !length_app. cbn. lia.
  - change (roleItems (r :: r2 :: rs)) with (quoted r ++ str "," ++ roleItems (r2 :: rs)).
    rewrite !length_app. change (length (str ",")) with 1%nat. cbn [length] in *. lia.
Qed.

Lemma extractStringArray_ok json key roles rest :
  findAfter (quoted key) json = Some (58 :: 91 :: roleItems roles ++ 93 :: rest) →
  Forall plain roles → Forall (λ r, 93 ∉ r) roles → extractStringArray json key = Some roles.
Proof.
  intros H Hp Hb. unfold extractStringArray.
  rewrite (findValueStart_ok _ _ _ _ H) by (rewrite !elem_of_cons, elem_of_nil; lia). simpl_bind.
  rewrite untilChar_ok by by apply roleItems_no_bracket. simpl_bind. f_equal.
  apply arrayItems_ok; [done|apply roleItems_length].
Qed.

(** ** Numbers *)

Lemma number_snoc ds d : number (ds ++ [d]) = 10 * number ds + (d - 48).
Proof. unfold number. by rewrite foldl_app. Qed.

Lemma decimal_number fuel n :
  0 <= n < 10 ^ Z.of_nat fuel → (0 < fuel)%nat →
  number (decimal fuel n) = n ∧ Forall (λ x, isDigit x = true) (decimal fuel n) ∧ decimal fuel n ≠ [].
Proof.
  assert (Hd : ∀ x, 0 <= x < 10 → isDigit (48 + x) = true) by (intros; unfold isDigit; lia).
  revert n. induction fuel as [|fuel IH]; intros n Hn Hf; [lia|]. cbn [decimal]. destruct (n <? 10) eqn:E.
  - split; [unfold number; cbn; lia|]. split; [|done]. constructor; [apply Hd; lia|constructor].
  - rewrite Nat2Z.inj_succ, Z.pow_succ_r in Hn by lia.
    assert (fuel ≠ 0%nat) by (intros ->; cbn in Hn; lia).
    destruct (IH (n / 10)) as (H1 & H2 & H3); [|lia|].
    { split; [apply Z.div_pos; lia|apply Z.div_lt_upper_bound; lia]. }
    pose proof (Z.mod_pos_bound n 10 ltac:(lia)). split; [rewrite number_snoc, H1; pose proof (Z.div_mod n 10); lia|].
    split; [|by destruct (decimal fuel (n / 10))]. apply Forall_app_2; [done|]. constructor; [by apply Hd|constructor].
Qed.

Lemma takeWhile_ok f s x rest :
  Forall (λ y, f y = true) s → f x = false → takeWhile f (s ++ x :: rest) = s.
Proof. induction 1 as [|y s Hy _ IH]; intros Hx; cbn; [by rewrite Hx|]. rewrite Hy. f_equal. by apply IH. Qed.

Lemma takeWhile_all f s : Forall (λ y, f y = true) s → takeWhile f s = s.
Proof. induction 1 as [|y s Hy _ IH]; [done|]. cbn. by rewrite Hy, IH. Qed.

Lemma decimal_digits_only n : 0 <= n <= INT64_MAX → Forall (λ x, isDigit x = true) (decimal 20 n).
Proof. intros Hn. apply decimal_number; [unfold INT64_MAX in Hn|]; lia. Qed.

Lemma decimal_nonempty n : 0 <= n <= INT64_MAX → decimal 20 n ≠ [].
Proof. intros Hn. apply decimal_number; [unfold INT64_MAX in Hn|]; lia. Qed.

Lemma stoll_decimal n : 0 <= n <= INT64_MAX → stoll (decimal 20 n) = Some n.
Proof.
  intros Hn. destruct (decimal_number 20 n) as (Hnum & Hdig & Hne); [unfold INT64_MAX in Hn; lia|lia|].
  unfold stoll. destruct (decimal 20 n) as [|x ds] eqn:Ed; [done|]. pose proof (Forall_inv Hdig) as Hx. unfold isDigit in Hx.
  assert (Hm : (match x :: ds with 45 :: s' => (true, takeWhile isDigit s') | _ => (false, takeWhile isDigit (x :: ds)) end)
    = (false, x :: ds)).
  { rewrite takeWhile_all by done. destruct (decide (x = 45)) as [->|Hx45]; [lia|]. by repeat case_match; simplify_eq. }
  rewrite Hm. rewrite bool_decide_eq_false_2 by done. rewrite Hnum. rewrite bool_decide_eq_true_2; [done|].
  unfold in_i64, INT64_MIN in *. lia.
Qed.

Lemma extractInt_ok json key n rest :
  findAfter (quoted key) json = Some (58 :: decimal 20 n ++ 44 :: rest) → 0 <= n <= INT64_MAX →
  extractInt json key = Some (Some n).
Proof.
  intros H Hn. pose proof (decimal_digits_only n Hn) as Hdig. pose proof (decimal_nonempty n Hn) as Hne.
  pose proof (stoll_decimal n Hn) as Hst.
  destruct (decimal 20 n) as [|x ds] eqn:Ed; [done|]. pose proof (Forall_inv Hdig) as Hx. unfold isDigit in Hx.
  unfold extractInt. rewrite (findValueStart_ok json key (ds ++ 44 :: rest) x H)
    by (rewrite !elem_of_cons, elem_of_nil; lia).
  change (x :: ds ++ 44 :: rest) with ((x :: ds) ++ 44 :: rest). rewrite takeWhile_ok; [|by eapply Forall_impl; [exact Hdig|intros y ->]|done].
  rewrite bool_decide_eq_false_2 by done. by rewrite Hst.
Qed.

(** ** The payload *)

(** A claim's name: no quotation mark, and it does not start like punctuation. *)
Definition claim (k : list Z) : Prop := plain k ∧ ∃ x k', k = x :: k' ∧ 97 <= x.

Lemma punctuation_ne k p : claim k → (∃ x p', p = x :: p' ∧ x < 97) → p ≠ k.
Proof. intros [_ (x & k' & -> & Hx)] (y & p' & -> & Hy) [= -> _]. lia. Qed.

Lemma findAfter_number k n s :
  claim k → 0 <= n <= INT64_MAX →
  findAfter (quoted k) (34 :: str ":" ++ decimal 20 n ++ str "," ++ 34 :: s) = findAfter (quoted k) (34 :: s).
Proof.
  intros Hk Hn. destruct (decimal_number 20 n) as (_ & Hdig & _); [unfold INT64_MAX in Hn; lia|lia|].
  rewrite (app_assoc (decimal 20 n)), app_assoc. apply findAfter_skip; [apply Hk| |].
  - repeat apply Forall_app_2; [by repeat constructor| |by repeat constructor].
    eapply Forall_impl; [exact Hdig|]. intros x Hx. unfold isDigit in Hx. lia.
  - apply punctuation_ne; [done|]. by eexists 58, _.
Qed.

Lemma findAfter_punctuation k p s :
  claim k → plain p → (∃ x p', p = x :: p' ∧ x < 97) →
  findAfter (quoted k) (34 :: p ++ 34 :: s) = findAfter (quoted k) (34 :: s).
Proof. intros Hk Hp Hx. apply findAfter_skip; [apply Hk|done|]. by apply punctuation_ne. Qed.

Section payload.
Context (sub : list Z) (roles : list (list Z)) (iat exp : Z) (jti : list Z).
Context (Hsub : plain sub) (Hroles : Forall plain roles) (Hbr : Forall (λ r, 93 ∉ r) roles) (Hne : roles ≠ []).
Context (Hjti : plain jti) (Hiat : 0 <= iat <= INT64_MAX) (Hexp : 0 <= exp <= INT64_MAX).
(** No value is the name of a claim that comes after it. *)
Context (Nsub : ∀ k, k ∈ [str "roles"; str "iat"; str "exp"; str "jti"] → sub ≠ k ∧ k ∉ roles).

Lemma claims_ok k : k ∈ [str "sub"; str "roles"; str "iat"; str "exp"; str "jti"] → claim k.
Proof.
  rewrite !elem_of_cons, elem_of_nil.
  intros [->|[->|[->|[->|[->|[]]]]]]; (split; [by unfold plain; repeat constructor|by eexists _, _]).
Qed.

Lemma payload_sub : extractString (tokenPayload sub roles iat exp jti) (str "sub") = Some sub.
Proof.
  eapply extractString_ok; [|done]. unfold tokenPayload.
  rewrite !quoted_app, findAfter_plain by (by unfold plain; repeat constructor).
  rewrite findAfter_hit by (by unfold plain; repeat constructor). reflexivity.
Qed.

Lemma find_after_sub k :
  k ∈ [str "roles"; str "iat"; str "exp"; str "jti"] →
  findAfter (quoted k) (tokenPayload sub roles iat exp jti)
    = findAfter (quoted k) (quoted (str "roles") ++ str ":[" ++ roleItems roles ++ str "]," ++
        quoted (str "iat") ++ str ":" ++ decimal 20 iat ++ str "," ++
        quoted (str "exp") ++ str ":" ++ decimal 20 exp ++ str "," ++
        quoted (str "jti") ++ str ":" ++ quoted jti ++ str "}").
Proof.
  intros Hk. assert (Hcl : claim k) by (apply claims_ok; set_solver). pose proof Hcl as [Hpl _].
  destruct (Nsub k Hk) as [Ns _]. unfold tokenPayload. rewrite !quoted_app.
  rewrite findAfter_plain by (by unfold plain; repeat constructor).
  rewrite (findAfter_skip k (str "sub")); [|done|by unfold plain; repeat constructor|intros <-; set_solver].
  rewrite findAfter_punctuation; [|done|by unfold plain; repeat constructor|by eexists _, _].
  rewrite (findAfter_skip k sub) by done.
  rewrite findAfter_punctuation; [done|done|by unfold plain; repeat constructor|by eexists _, _].
Qed.

Lemma payload_roles : extractStringArray (tokenPayload sub roles iat exp jti) (str "roles") = Some roles.
Proof.
  eapply extractStringArray_ok; [|done|done]. rewrite find_after_sub by set_solver. rewrite quoted_app.
  rewrite findAfter_hit by (by unfold plain; repeat constructor). reflexivity.
Qed.

Lemma find_after_roles k :
  k ∈ [str "iat"; str "exp"; str "jti"] →
  findAfter (quoted k) (tokenPayload sub roles iat exp jti)
    = findAfter (quoted k) (quoted (str "iat") ++ str ":" ++ decimal 20 iat ++ str "," ++
        quoted (str "exp") ++ str ":" ++ decimal 20 exp ++ str "," ++
        quoted (str "jti") ++ str ":" ++ quoted jti ++ str "}").
Proof.
  intros Hk. assert (Hcl : claim k) by (apply claims_ok; set_solver). pose proof Hcl as [Hpl _].
  rewrite find_after_sub by set_solver. destruct (Nsub k ltac:(set_solver)) as [_ Nr]. rewrite !quoted_app.
  rewrite (findAfter_skip k (str "roles")); [|done|by unfold plain; repeat constructor|intros <-; set_solver].
  rewrite findAfter_roles; try done; try (by unfold plain; repeat constructor);
    (apply punctuation_ne; [done|by eexists _, _]).
Qed.

Lemma payload_iat : extractInt (tokenPayload sub roles iat exp jti) (str "iat") = Some (Some iat).
Proof.
  eapply extractInt_ok; [|done]. rewrite find_after_roles by set_solver. rewrite quoted_app.
  rewrite findAfter_hit by (by unfold plain; repeat constructor). reflexivity.
Qed.

Lemma find_after_iat k :
  k ∈ [str "exp"; str "jti"] →
  findAfter (quoted k) (tokenPayload sub roles iat exp jti)
    = findAfter (quoted k) (quoted (str "exp") ++ str ":" ++ decimal 20 exp ++ str "," ++
        quoted (str "jti") ++ str ":" ++ quoted jti ++ str "}").
Proof.
  intros Hk. assert (Hcl : claim k) by (apply claims_ok; set_solver). pose proof Hcl as [Hpl _].
  rewrite find_after_roles by set_solver. rewrite !quoted_app.
  rewrite (findAfter_skip k (str "iat")); [|done|by unfold plain; repeat constructor|intros <-; set_solver].
  by rewrite findAfter_number.
Qed.

Lemma payload_exp : extractInt (tokenPayload sub roles iat exp jti) (str "exp") = Some (Some exp).
Proof.
  eapply extractInt_ok; [|done]. rewrite find_after_iat by set_solver. rewrite quoted_app.
  rewrite findAfter_hit by (by unfold plain; repeat constructor). reflexivity.
Qed.

Lemma payload_jti : extractString (tokenPayload sub roles iat exp jti) (str "jti") = Some jti.
Proof.
  eapply extractString_ok; [|done]. rewrite find_after_iat by set_solver. rewrite !quoted_app.
  rewrite (findAfter_skip (str "jti") (str "exp"));
    [|by unfold plain; repeat constructor|by unfold plain; repeat constructor|discriminate].
  rewrite findAfter_number by (done || (apply claims_ok; set_solver)).
  rewrite findAfter_hit by (by unfold plain; repeat constructor). reflexivity.
Qed.

(** What the claims of an issued token come to. *)
Definition verdict (now : Z) (rev : list (list Z)) : VerifyResult :=
  if 3600 <? exp - iat then fail TtlTooLong
  else if now <? iat then fail NotYetValid
  else if exp <? now then fail Expired
  else if bool_decide (jti ∈ rev) then fail Revoked
  else mkVerifyResult true sub roles JwtOk.

Lemma checkClaims_issued now rev :
  checkClaims (tokenPayload sub roles iat exp jti) now rev = Some (verdict now rev).
Proof.
  unfold checkClaims. rewrite payload_sub, payload_jti, payload_roles, payload_iat, payload_exp. simpl_bind.
  rewrite bool_decide_eq_false_2 by done. rewrite bool_decide_eq_true_2.
  - unfold verdict. cbn [negb]. by repeat case_match.
  - unfold in_i64, INT64_MIN, INT64_MAX in *. lia.
Qed.
End payload.

(** ** Issued tokens *)

Lemma b64url_ok s :
  bytes s → ∃ e, b64url s = Some e ∧ base64Decode e true = Some s ∧ 46 ∉ e ∧ (length e <= 4 * length s)%nat.
Proof.
  intros Hs. destruct (base64_ok s true false Hs) as (e & He & Hd). exists e. split; [done|]. split; [done|].
  destruct (encodeGroups_chars _ _ _ _ He) as [Hc Hl]. split; [|done]. intros Hin. rewrite Forall_forall in Hc.
  destruct (Hc 46 Hin) as [H|H]; [|done]. revert H. apply (bool_decide_eq_false (46 ∈ kUrl)). by vm_compute.
Qed.

Lemma str_bytes s : bytes (str s).
Proof.
  induction s as [|a s IH]; [constructor|]. cbn [str]. constructor; [|done].
  pose proof (Ascii.N_ascii_bounded a). unfold is_byte. lia.
Qed.

Lemma b64url_bytes s e : b64url s = Some e → bytes e.
Proof.
  intros He. destruct (encodeGroups_chars _ _ _ _ He) as [Hc _]. eapply Forall_impl; [exact Hc|].
  intros x [Hx| ->]; [|done]. assert (Hk : bytes kUrl) by apply str_bytes. rewrite Forall_forall in Hk. by apply Hk.
Qed.

Lemma blockHmac_bytes key data : bytes key → bytes data → bytes (blockHmac key data).
Proof. intros Hk Hd. rewrite (blockHmac_rfc key data Hk Hd). apply fipsSha256_bytes. Qed.

Lemma issued_verifies secret sub roles now ttl jti now' rev :
  sub ≠ [] → roles ≠ [] → secret ≠ [] → ttl <= 3600 → 0 <= now <= INT64_MAX → 0 <= now + ttl <= INT64_MAX →
  plain sub → plain jti → Forall plain roles → Forall (λ r, 93 ∉ r) roles →
  (∀ k, k ∈ [str "roles"; str "iat"; str "exp"; str "jti"] → sub ≠ k ∧ k ∉ roles) →
  bytes secret → bytes (tokenPayload sub roles now (now + ttl) jti) →
  Z.of_nat (length (tokenPayload sub roles now (now + ttl) jti)) < 2 ^ 50 → Z.of_nat (length secret) < 2 ^ 60 →
  ∃ token, issueToken secret sub roles now ttl jti = Some token ∧
    verifyJwt token secret now' rev = Some (verdict sub roles now (now + ttl) jti now' rev).
Proof.
  intros Hsub Hroles Hsec Httl Hnow Hexp Psub Pjti Proles Brk Names Bsec Hb Hlen Hslen. unfold issueToken.
  rewrite !bool_decide_eq_false_2 by done. destruct (3600 <? ttl) eqn:E; [lia|]. cbn [orb].
  destruct (b64url_ok tokenHeader) as (h & Eh & Dh & Nh & Lh).
  { unfold tokenHeader. cbn. repeat (constructor; [unfold is_byte; lia|]). constructor. }
  destruct (b64url_ok _ Hb) as (p & Ep & Dp & Np & Lp). rewrite Eh, Ep. simpl_bind.
  assert (Bin : bytes (h ++ str "." ++ p)).
  { apply Forall_app_2; [by eapply b64url_bytes|]. apply Forall_app_2; [apply str_bytes|by eapply b64url_bytes]. }
  rewrite <- (blockHmac_rfc secret _ Bsec Bin).
  destruct (b64url_ok _ (blockHmac_bytes secret (h ++ str "." ++ p) Bsec Bin)) as (sg & -> & Ds & Ns & _). simpl_bind.
  eexists. split; [done|]. unfold verifyJwt.
  rewrite <- !app_assoc. change (str ".") with [46]. rewrite splitOn_app, splitOn_app, splitOn_piece by done.
  rewrite Dh, Dp, Ds. change (str ".") with [46].
  assert (extractString tokenHeader (str "alg") = Some (str "HS256")) as -> by (by vm_compute).
  rewrite bool_decide_eq_true_2 by done. cbn [negb]. rewrite length_blockHmac. cbn [negb Nat.eqb].
  rewrite hmacSha256_blocks; [|done|].
  2: { rewrite !length_app. change (length tokenHeader) with 27%nat in Lh. cbn [length]. lia. }
  simpl_bind. rewrite constantTimeEquals_ok by done. rewrite bool_decide_eq_true_2 by done. cbn [negb].
  by apply checkClaims_issued.
Qed.

Lemma quoted_bytes s : bytes s → bytes (quoted s).
Proof. intros Hs. unfold quoted. repeat apply Forall_app_2; [by repeat constructor|done|by repeat constructor]. Qed.

Lemma roleItems_bytes roles : Forall bytes roles → bytes (roleItems roles).
Proof.
  induction 1 as [|r rs Hr Hrs IH]; [constructor|]. destruct rs; [by apply quoted_bytes|].
  change (roleItems (r :: l :: rs)) with (quoted r ++ str "," ++ roleItems (l :: rs)).
  apply Forall_app_2; [by apply quoted_bytes|]. apply Forall_app_2; [by repeat constructor|done].
Qed.

Lemma decimal_bytes n : 0 <= n <= INT64_MAX → bytes (decimal 20 n).
Proof.
  intros Hn. destruct (decimal_number 20 n) as (_ & Hd & _); [unfold INT64_MAX in Hn; lia|lia|].
  eapply Forall_impl; [exact Hd|]. intros x Hx. unfold isDigit, is_byte in *. lia.
Qed.

Lemma tokenPayload_bytes sub roles iat exp jti :
  bytes sub → Forall bytes roles → bytes jti → 0 <= iat <= INT64_MAX → 0 <= exp <= INT64_MAX →
  bytes (tokenPayload sub roles iat exp jti).
Proof.
  intros. unfold tokenPayload.
  repeat (apply Forall_app_2; [auto using str_bytes, quoted_bytes, roleItems_bytes, decimal_bytes|]). apply str_bytes.
Qed.

(** C32: a token is accepted only if its third part is the HMAC-SHA-256 under the secret
    of exactly the first two as they stand (what the code computes, and for strings of
    bytes what RFC 2104 defines over FIPS 180-4), the header's algorithm is HS256, and the
    signed claims are all there, with a life of at most an hour that includes the
    present and a token id that is not revoked; the subject and the roles reported
    are the signed ones. *)
Theorem accepted_tokens_are_signed token secret now rev r :
  Z.of_nat (length token) < 2 ^ 59 → Z.of_nat (length secret) < 2 ^ 60 →
  verifyJwt token secret now rev = Some r → vr_ok r = true →
  ∃ h p sg hj pj mac jti iat exp, token = h ++ str "." ++ p ++ str "." ++ sg ∧
    base64Decode h true = Some hj ∧ base64Decode p true = Some pj ∧
    base64Decode sg true = Some mac ∧ hmacSha256 secret (h ++ str "." ++ p) = Some mac ∧
    (bytes token → bytes secret → mac = rfcHmac secret (h ++ str "." ++ p)) ∧
    extractString hj (str "alg") = Some (str "HS256") ∧
    extractString pj (str "sub") = Some (vr_sub r) ∧ extractStringArray pj (str "roles") = Some (vr_roles r) ∧
    vr_roles r ≠ [] ∧ extractString pj (str "jti") = Some jti ∧ jti ∉ rev ∧
    extractInt pj (str "iat") = Some (Some iat) ∧ extractInt pj (str "exp") = Some (Some exp) ∧
    iat <= now <= exp ∧ exp - iat <= 3600.
Proof.
  intros Ht Hs H Hok. destruct (verify_accepts _ _ _ _ _ Ht Hs H Hok) as (h & p & sg & hj & pj & H1 & H2 & H3 & H4 & H5 & Hc).
  destruct (checkClaims_accepts _ _ _ _ Hc Hok) as (jti & iat & exp & C1 & C2 & C3 & C4 & C5 & C6 & C7 & C8 & C9 & _).
  assert (Hin : token = (h ++ str "." ++ p) ++ str "." ++ sg) by (by rewrite H1, <- !app_assoc).
  exists h, p, sg, hj, pj, (blockHmac secret (h ++ str "." ++ p)), jti, iat, exp.
  split; [done|]. split; [done|]. split; [done|]. split; [done|]. split; [|split; [|repeat split; (done || lia)]].
  - apply hmacSha256_blocks; [done|]. rewrite Hin, length_app in Ht. lia.
  - intros Bt Bs. apply blockHmac_rfc; [done|]. rewrite Hin in Bt. by apply Forall_app in Bt as [? _].
Qed.

(** C33: a token the issuing script prints gets the verdict its claims deserve:
    accepted with its subject and roles from the second of issue to the second of
    expiry unless its id is revoked, and otherwise refused for the right reason.  This
    is for a subject, roles and id without quotation marks, roles without closing
    brackets, and a subject and roles that are not spelled like one of the claims
    [roles], [iat], [exp] and [jti]: the script escapes nothing, and the parser takes
    the first quoted occurrence of a claim's name.  The script prints a token for a
    subject, roles and a secret that are not empty and a lifetime of at most an hour;
    the strings are of bytes, the times fit 64 bits, and payload and secret the length
    counters of SHA-256.  The signature the script asks openssl for is that of RFC 2104. *)
Theorem issued_tokens_verify secret sub roles now ttl jti now' rev :
  sub ≠ [] → roles ≠ [] → secret ≠ [] → ttl <= 3600 → 0 <= now <= INT64_MAX → 0 <= now + ttl <= INT64_MAX →
  bytes secret → bytes sub ∧ plain sub → bytes jti ∧ plain jti → Forall bytes roles ∧ Forall plain roles →
  Forall (λ r, 93 ∉ r) roles →
  (∀ k, k ∈ [str "roles"; str "iat"; str "exp"; str "jti"] → sub ≠ k ∧ k ∉ roles) →
  Z.of_nat (length (tokenPayload sub roles now (now + ttl) jti)) < 2 ^ 50 → Z.of_nat (length secret) < 2 ^ 60 →
  ∃ token, issueToken secret sub roles now ttl jti = Some token ∧
    verifyJwt token secret now' rev = Some
      (if now' <? now then fail NotYetValid
       else if now + ttl <? now' then fail Expired
       else if bool_decide (jti ∈ rev) then fail Revoked
       else mkVerifyResult true sub roles JwtOk).
Proof.
  intros Hsub Hroles Hsec Httl Hnow Hexp Bsec [Bsub Psub] [Bjti Pjti] [Broles Proles] Brk Names Hlen Hslen.
  destruct (issued_verifies secret sub roles now ttl jti now' rev) as (token & Hi & Hv); try done.
  { by apply tokenPayload_bytes. }
  exists token. split; [done|]. rewrite Hv. unfold verdict.
  destruct (3600 <? now + ttl - now) eqn:E; [lia|done].
Qed.

(** *** A token for two roles *)

Definition tokenSecret : list Z := str "correct horse battery staple".
Definition adminRoles : list (list Z) := [str "ADMIN"; str "OPERATIONS"].
Definition adminToken : list Z :=
  default [] (issueToken tokenSecret (str "rahul") adminRoles 1700000000 600 (str "0a1b2c3d")).

Lemma accepted_tokens_are_signed_witness :
  ∃ h p sg, adminToken = h ++ str "." ++ p ++ str "." ++ sg ∧
    base64Decode sg true = Some (rfcHmac tokenSecret (h ++ str "." ++ p)).
Proof.
  destruct (accepted_tokens_are_signed adminToken tokenSecret 1700000100 []
    (mkVerifyResult true (str "rahul") adminRoles JwtOk)) as (h & p & sg & hj & pj & mac & jti & iat & exp & H1 & _ & _ & H4 & _ & H6 & _).
  - vm_compute. reflexivity.
  - vm_compute. reflexivity.
  - vm_compute. reflexivity.
  - reflexivity.
  - exists h, p, sg. split; [exact H1|]. rewrite H4, H6; [reflexivity| |apply str_bytes].
    apply (bool_decide_unpack _). vm_compute. exact I.
Defined.

Lemma str_avoids ch s : forallb (λ x, negb (x =? ch)) (str s) = true → Forall (λ x, x ≠ ch) (str s).
Proof. rewrite forallb_forall, Forall_forall. intros H x Hx%list_elem_of_In%H. lia. Qed.

Lemma issued_tokens_verify_witness :
  verifyJwt adminToken tokenSecret 1700000600 [] = Some (mkVerifyResult true (str "rahul") adminRoles JwtOk).
Proof.
  destruct (issued_tokens_verify tokenSecret (str "rahul") adminRoles 1700000000 600 (str "0a1b2c3d") 1700000600 [])
    as (token & Hi & Hv).
  - discriminate.
  - discriminate.
  - discriminate.
  - lia.
  - unfold INT64_MAX. lia.
  - unfold INT64_MAX. lia.
  - apply str_bytes.
  - split; [apply str_bytes|apply str_avoids; reflexivity].
  - split; [apply str_bytes|apply str_avoids; reflexivity].
  - split.
    + do 2 (apply Forall_cons_2; [apply str_bytes|]). constructor.
    + do 2 (apply Forall_cons_2; [apply str_avoids; reflexivity|]). constructor.
  - do 2 (apply Forall_cons_2; [apply (bool_decide_eq_false (93 ∈ _)); reflexivity|]). constructor.
  - intros k Hk. unfold adminRoles. rewrite !elem_of_cons, elem_of_nil in *.
    destruct Hk as [->|[->|[->|[->|[]]]]]; (split; [discriminate|intros [?|[?|[]]]; discriminate]).
  - vm_compute. reflexivity.
  - vm_compute. reflexivity.
  - unfold adminToken. rewrite Hi. exact Hv.
Defined.

(** ** Values that are taken for names *)

(** Claims are looked up by the first quoted occurrence of their name, whether it is a
    name or a value: a token whose subject is called [exp] is refused although it
    has all its claims. *)
Theorem subject_named_like_claim_is_refused :
  (token ← issueToken tokenSecret (str "exp") adminRoles 1700000000 600 (str "0a1b2c3d");
   verifyJwt token tokenSecret 1700000100 []) = Some (fail MissingClaim).
Proof. vm_compute. reflexivity. Qed.
