(* ===== verification/AdminHttp.v ===== *)
(** The admin API: [admin/http_server.cpp], [common/http_parse.hpp], [admin/json.hpp],
    [admin/store.cpp] and [admin/routes.cpp].

    A request is the bytes received up to and behind the blank line; [handle] is what is
    done with them up to the response.  The store is what the file system holds when
    the request is served: the directories below the root, with the models of the
    journal and snapshot directories in them.  [None] means that a handler throws. *)
From Stdlib Require Import String.
From stdpp Require Import gmap sorting.
From S2P Require Import Prelude Types OrderBook Wire Crc32 Events JournalFormat SegmentNames JournalWriter JournalReader Snapshot.
From S2P Require Import Base64 Sha256 Jwt.

Abbreviation Text := (list Z).

(** ** Requests and responses *)

Record HttpRequest := mkRequest {
  rq_method : Text;
  rq_path : Text;
  rq_query : Text;
  rq_headers : gmap Text Text;
  rq_pathParams : gmap Text Text
}.

Record HttpResponse := mkResponse {
  rs_status : Z;
  rs_contentType : Text;
  rs_body : Text
}.

Definition jsonResponse (status : Z) (body : Text) : HttpResponse := mkResponse status (str "application/json") body.

(** [{"error":"..."}] *)
Definition errorBody (e : string) : Text := str "{" ++ quoted (str "error") ++ str ":" ++ quoted (str e) ++ str "}".

(** *** Parsing *)

Definition toLower (s : Text) : Text := (λ c, if (65 <=? c) && (c <=? 90) then c + 32 else c) <$> s.

Definition trim (s : Text) : Text := reverse (skipSpace (reverse (skipSpace s))).

Definition dropCr (line : Text) : Text :=
  match last line with Some 13 => removelast line | _ => line end.

Definition headerLine (headers : gmap Text Text) (line : Text) : gmap Text Text :=
  let line := dropCr line in
  match untilChar 58 line with
  | Some (k, v) => <[toLower (trim k) := trim v]> headers
  | None => headers
  end.

Definition parseHeaders (block : Text) : gmap Text Text := foldl headerLine ∅ (splitOn block 10).

(** [ss >> ...]: the words of a line. *)
Definition isSpace (c : Z) : bool := (c =? 32) || ((9 <=? c) && (c <=? 13)).

Definition words (s : Text) : list Text :=
  filter (λ w, w ≠ []) (splitOn ((λ c, if isSpace c then 32 else c) <$> s) 32).

Definition parseRequest (raw : Text) : HttpRequest :=
  let '(requestLine, rest) := default (raw, []) (untilChar 10 raw) in
  let ws := words (dropCr requestLine) in
  let target := default [] (ws !! 1%nat) in
  let '(path, query) := default (target, []) (untilChar 63 target) in
  mkRequest (default [] (ws !! 0%nat)) path query (parseHeaders rest) ∅.

(** *** Routing *)

Definition splitPath (path : Text) : list Text := filter (λ s, s ≠ []) (splitOn path 47).

(** [p.size() >= 2 && p.front() == '{' && p.back() == '}'] *)
Definition paramName (p : Text) : option Text :=
  match p with
  | 123 :: (_ :: _) as p' => match last p with Some 125 => Some (removelast (tail p')) | _ => None end
  | _ => None
  end.

Fixpoint matchPath (pattern actual : list Text) (params : gmap Text Text) : option (gmap Text Text) :=
  match pattern, actual with
  | [], [] => Some params
  | p :: pattern', a :: actual' =>
      match paramName p with
      | Some name => matchPath pattern' actual' (<[name := a]> params)
      | None => if bool_decide (p = a) then matchPath pattern' actual' params else None
      end
  | _, _ => None
  end.

Definition RouteHandler : Type := HttpRequest → option HttpResponse.

Record Route := mkRoute { ro_segments : list Text; ro_handler : RouteHandler }.

Definition get (pattern : string) (h : RouteHandler) : Route := mkRoute (splitPath (str pattern)) h.

Fixpoint dispatchLoop (routes : list Route) (req : HttpRequest) (pathMatched : bool) : option HttpResponse :=
  match routes with
  | [] =>
      Some (if pathMatched then jsonResponse 405 (errorBody "method_not_allowed")
            else jsonResponse 404 (errorBody "not_found"))
  | r :: routes' =>
      match matchPath (ro_segments r) (splitPath (rq_path req)) ∅ with
      | None => dispatchLoop routes' req pathMatched
      | Some params =>
          if bool_decide (rq_method req = str "GET")
          then ro_handler r (mkRequest (rq_method req) (rq_path req) (rq_query req) (rq_headers req) params)
          else dispatchLoop routes' req true
      end
  end.

Definition dispatch (routes : list Route) (req : HttpRequest) : option HttpResponse := dispatchLoop routes req false.

(** *** The response as text *)

Definition reasonOf (status : Z) : Text :=
  match status with
  | 200 => str "OK" | 400 => str "Bad Request" | 401 => str "Unauthorized" | 403 => str "Forbidden"
  | 404 => str "Not Found" | 405 => str "Method Not Allowed" | _ => str "Error"
  end.

Definition crlf : Text := [13; 10].

Definition responseText (r : HttpResponse) : Text :=
  str "HTTP/1.1 " ++ decimal 20 (rs_status r) ++ str " " ++ reasonOf (rs_status r) ++ crlf ++
  str "Content-Type: " ++ rs_contentType r ++ crlf ++
  str "Content-Length: " ++ decimal 20 (Z.of_nat (length (rs_body r))) ++ crlf ++
  str "Connection: close" ++ crlf ++ crlf ++ rs_body r.

Definition kMaxHeaderBytes : nat := 8192.

(** [async_read_until(..., "\r\n\r\n")] into a buffer of bounded size. *)
Definition headersRead (raw : Text) : bool :=
  bool_decide (is_Some (findAfter (crlf ++ crlf) raw)) && (length raw <=? kMaxHeaderBytes)%nat.

(** One connection: the bytes in, the bytes out; [raw] is what the buffer holds when
    the read ends. *)
Definition handle (routes : list Route) (raw : Text) : option Text :=
  if headersRead raw then resp ← dispatch routes (parseRequest raw); Some (responseText resp)
  else Some [].

(** ** JsonWriter *)

(** A frame: is it an object, and is nothing in it yet. *)
Record JsonWriter := mkJson { js_out : Text; js_stack : list (bool * bool) }.

Definition jsonNew : JsonWriter := mkJson [] [].

Definition beforeValue (w : JsonWriter) : JsonWriter :=
  match js_stack w with
  | (false, first) :: st => mkJson (js_out w ++ if first then [] else str ",") ((false, false) :: st)
  | _ => w
  end.

Definition emit (w : JsonWriter) (s : Text) : JsonWriter := mkJson (js_out w ++ s) (js_stack w).

Definition push (w : JsonWriter) (isObject : bool) : JsonWriter := mkJson (js_out w) ((isObject, true) :: js_stack w).

Definition pop (w : JsonWriter) : option JsonWriter :=
  match js_stack w with [] => None | _ :: st => Some (mkJson (js_out w) st) end.

Definition beginObject (w : JsonWriter) : JsonWriter := push (emit (beforeValue w) (str "{")) true.
Definition endObject (w : JsonWriter) : option JsonWriter := pop (emit w (str "}")).
Definition beginArray (w : JsonWriter) : JsonWriter := push (emit (beforeValue w) (str "[")) false.
Definition endArray (w : JsonWriter) : option JsonWriter := pop (emit w (str "]")).

Definition hexDigit (n : Z) : Z := if n <? 10 then 48 + n else 87 + n.

Definition escapeChar (c : Z) : Text :=
  match c with
  | 34 => [92; 34]
  | 92 => [92; 92]
  | 10 => [92; 110]
  | 13 => [92; 114]
  | 9 => [92; 116]
  | _ => if c <? 32 then [92; 117; 48; 48; hexDigit (c / 16); hexDigit (c mod 16)] else [c]
  end.

Definition escape (s : Text) : Text := concat (escapeChar <$> s).

Definition key (w : JsonWriter) (k : string) : option JsonWriter :=
  match js_stack w with
  | [] => None
  | (o, first) :: st =>
      Some (mkJson (js_out w ++ (if first then [] else str ",") ++ quoted (escape (str k)) ++ str ":") ((o, false) :: st))
  end.

Definition intText (n : Z) : Text := if n <? 0 then 45 :: decimal 20 (- n) else decimal 20 n.

Definition valueString (w : JsonWriter) (s : Text) : JsonWriter := emit (beforeValue w) (quoted (escape s)).
Definition valueInt (w : JsonWriter) (n : Z) : JsonWriter := emit (beforeValue w) (intText n).
Definition valueBool (w : JsonWriter) (b : bool) : JsonWriter := emit (beforeValue w) (if b then str "true" else str "false").
Definition nullValue (w : JsonWriter) : JsonWriter := emit (beforeValue w) (str "null").

(** Members of an object, one after the other. *)
Definition keyInt (w : JsonWriter) (k : string) (n : Z) : option JsonWriter := w ← key w k; Some (valueInt w n).
Definition keyString (w : JsonWriter) (k : string) (s : Text) : option JsonWriter := w ← key w k; Some (valueString w s).
Definition keyBool (w : JsonWriter) (k : string) (b : bool) : option JsonWriter := w ← key w k; Some (valueBool w b).

(** ** AdminStore *)

(** What is in the directory of one shard. *)
Record ShardFiles := mkShardFiles { sf_journal : Dir; sf_snapshots : Dir }.

(** An entry of the root directory. *)
Record RootEntry := mkRootEntry { re_name : Text; re_isDirectory : bool; re_files : ShardFiles }.

(** The root: its entries in the order of the iterator, and the flat layout if
    [<root>/journal] exists. *)
Record AdminStore := mkStore { as_entries : list RootEntry; as_flat : option ShardFiles }.

Record InstrumentInfo := mkInstrument { ii_id : Z; ii_files : ShardFiles }.

Record EngineStatus := mkEngineStatus {
  es_lastGoodSeq : Z;
  es_segmentCount : Z;
  es_snapshotCount : Z;
  es_newestSnapshotSeq : Z;
  es_journalBytes : Z;
  es_openSegment : bool
}.

Record SegmentInfo := mkSegmentInfo {
  si_fileName : Text;
  si_firstSeq : Z;
  si_createdCounter : Z;
  si_bytes : Z;
  si_headerValid : bool
}.

Record SnapshotInfo := mkSnapshotInfo {
  sp_fileName : Text;
  sp_globalSeq : Z;
  sp_bookSeq : Z;
  sp_orderCount : Z;
  sp_bytes : Z;
  sp_crcValid : bool
}.

Definition isAllDigits (s : Text) : bool := negb (bool_decide (s = [])) && forallb isDigit s.

(** [static_cast<std::uint32_t>(std::stoul(s))]; [None] is [std::out_of_range]. *)
Definition stoul32 (s : Text) : option Z := if number s <? 2 ^ 64 then Some (u32 (number s)) else None.

Fixpoint shardsOf (entries : list RootEntry) : option (list InstrumentInfo) :=
  match entries with
  | [] => Some []
  | e :: entries' =>
      if negb (re_isDirectory e) || negb (bool_decide (str "shard-" `prefix_of` re_name e)) then shardsOf entries'
      else
        let idStr := drop 6 (re_name e) in
        if negb (isAllDigits idStr) then shardsOf entries'
        else
          id ← stoul32 idStr;
          out ← shardsOf entries';
          Some (mkInstrument id (re_files e) :: out)
  end.

Definition idLe (a b : InstrumentInfo) : Prop := ii_id a <= ii_id b.

#[export] Instance idLe_dec : RelDecision idLe.
Proof. intros a b. apply Z.le_dec. Defined.

Definition listInstruments (store : AdminStore) : option (list InstrumentInfo) :=
  out ← shardsOf (as_entries store);
  match merge_sort idLe out, as_flat store with
  | [], Some files => Some [mkInstrument 1 files]
  | out, _ => Some out
  end.

(** The inner [None] is [std::nullopt]. *)
Definition findInstrument (store : AdminStore) (id : Z) : option (option InstrumentInfo) :=
  all ← listInstruments store; Some (head (filter (λ inst, ii_id inst = id) all)).

Definition segmentInfo (d : Dir) (p : Z) : option SegmentInfo :=
  let bs := fileOf d p in
  let size := Z.of_nat (length bs) in
  if size <? kSegmentHeaderSize then Some (mkSegmentInfo (segmentName p) 0 0 size false)
  else
    '(h, ok) ← decodeSegmentHeader bs;
    Some (mkSegmentInfo (segmentName p) (s64 (sh_firstSeq h)) (sh_createdCounter h) size ok).

Definition segmentInfos (inst : InstrumentInfo) : option (list SegmentInfo) :=
  let d := sf_journal (ii_files inst) in
  mapM (segmentInfo d) (merge_sort Z.le (map_to_list d).*1).

Definition snapshotInfo (d : Dir) (p : Z) : option SnapshotInfo :=
  let bs := fileOf d p in
  let size := Z.of_nat (length bs) in
  if size <? kSnapshotHeaderSize + kSnapshotTrailerSize then Some (mkSnapshotInfo (snapName p) 0 0 0 size false)
  else
    let headerAndBodySize := size - kSnapshotTrailerSize in
    storedCrc ← getU32 bs headerAndBodySize;
    crc ← crcOf bs headerAndBodySize;
    h ← decodeSnapshotHeader bs;
    Some (mkSnapshotInfo (snapName p) (s64 (sn_globalSeq h)) (s64 (sn_bookSeq h)) (sn_orderCount h) size
            ((crc =? storedCrc) && (sn_magic h =? kSnapshotMagic) && (sn_version h =? kSnapshotVersion))).

Definition listSnapshots (inst : InstrumentInfo) : option (list SnapshotInfo) :=
  let d := sf_snapshots (ii_files inst) in
  mapM (snapshotInfo d) (merge_sort Z.le (map_to_list d).*1).

Definition dirBytes (d : Dir) : Z := foldr Z.add 0 ((λ f : list Z, Z.of_nat (length f)) <$> (map_to_list d).*2).

Definition newestValid (snaps : list SnapshotInfo) : Z :=
  foldl (λ newest s, if sp_crcValid s && (newest <? sp_globalSeq s) then sp_globalSeq s else newest) (-1) snaps.

(** A record is not empty, so the bytes bound the records. *)
Definition engineStatus (inst : InstrumentInfo) : option EngineStatus :=
  let d := sf_journal (ii_files inst) in
  let segmentCount := Z.of_nat (length (jd_segments (readerNew d))) in
  '(_, _, reader) ← readAll (S (Z.to_nat (dirBytes d))) d (readerNew d);
  snaps ← listSnapshots inst;
  Some (mkEngineStatus (s64 (jd_lastGood reader)) segmentCount (Z.of_nat (length snaps)) (newestValid snaps)
          (dirBytes d) (0 <? segmentCount)).

(** ** Routes *)

Definition kDefaultLimit : Z := 100.
Definition kMaxLimit : Z := 1000.

Definition queryPair (out : gmap Text Text) (pair : Text) : gmap Text Text :=
  match untilChar 61 pair with
  | Some (k, v) => <[k := v]> out
  | None => if bool_decide (pair = []) then out else <[pair := []]> out
  end.

Definition parseQuery (query : Text) : gmap Text Text := foldl queryPair ∅ (splitOn query 38).

Definition queryInt (q : gmap Text Text) (k : string) (def : Z) : option Z :=
  match q !! str k with
  | Some v => if isAllDigits v then stoll v else Some def
  | None => Some def
  end.

Definition kValidRoles : list Text := [str "ADMIN"; str "OPERATIONS"; str "READ_ONLY"].

Definition parseInstrumentId (raw : Text) : option (option Z) :=
  if isAllDigits raw then id ← stoul32 raw; Some (Some id) else Some None.

(** The revoked ids, one per line of the file. *)
Definition dropTrailing (line : Text) : Text :=
  let fix go s := match s with x :: s' => if bool_decide (x ∈ [13; 10; 32]) then go s' else s | [] => [] end in
  reverse (go (reverse line)).

Definition loadRevoked (file : option Text) : list Text :=
  match file with
  | None => []
  | Some content => filter (λ l, l ≠ []) (dropTrailing <$> splitOn content 10)
  end.

Section routes.
Context (store : AdminStore) (jwtSecret : Text) (nowUnix : Z) (revokedJti : list Text).

(** [Some None]: authorized; [Some (Some r)]: rejected with [r]. *)
Definition authorize (req : HttpRequest) : option (option HttpResponse) :=
  match rq_headers req !! str "authorization" with
  | None => Some (Some (jsonResponse 401 (errorBody "missing_bearer_token")))
  | Some h =>
      if negb (bool_decide (str "Bearer " `prefix_of` h))
      then Some (Some (jsonResponse 401 (errorBody "missing_bearer_token")))
      else
        r ← verifyJwt (drop 7 h) jwtSecret nowUnix revokedJti;
        if negb (vr_ok r) then Some (Some (jsonResponse 401 (errorBody "invalid_token")))
        else if negb (existsb (λ role, bool_decide (role ∈ kValidRoles)) (vr_roles r))
        then Some (Some (jsonResponse 403 (errorBody "insufficient_role")))
        else Some None
  end.

(** [if (!auth.ok) return auth.rejection;] *)
Definition authorized (h : RouteHandler) : RouteHandler := λ req,
  rejection ← authorize req;
  match rejection with Some r => Some r | None => h req end.

Definition healthz : RouteHandler := λ _,
  Some (jsonResponse 200 (str "{" ++ quoted (str "status") ++ str ":" ++ quoted (str "ok") ++ str "}")).

Definition statusItem (w : JsonWriter) (inst : InstrumentInfo) : option JsonWriter :=
  st ← engineStatus inst;
  w ← keyInt (beginObject w) "instrument_id" (ii_id inst);
  w ← keyInt w "last_good_seq" (es_lastGoodSeq st);
  w ← keyInt w "segment_count" (es_segmentCount st);
  w ← keyInt w "snapshot_count" (es_snapshotCount st);
  w ← keyInt w "newest_snapshot_seq" (es_newestSnapshotSeq st);
  w ← keyInt w "journal_bytes" (s64 (es_journalBytes st));
  w ← keyBool w "open_segment" (es_openSegment st);
  endObject w.

Fixpoint items {A} (item : JsonWriter → A → option JsonWriter) (w : JsonWriter) (xs : list A) : option JsonWriter :=
  match xs with
  | [] => Some w
  | x :: xs' => w ← item w x; items item w xs'
  end.

Definition engineStatusRoute : RouteHandler := authorized (λ _,
  w ← keyString (beginObject jsonNew) "source" (str "disk");
  w ← key w "shards";
  all ← listInstruments store;
  w ← items statusItem (beginArray w) all;
  w ← endArray w;
  w ← endObject w;
  Some (jsonResponse 200 (js_out w))).

(** *** Pages *)

Section page.
Context {A : Type} (keyOf : A → Z) (item : JsonWriter → A → option JsonWriter).

(** The loop over the collection: the writer, the last key, [hasMore]. *)
Fixpoint pageLoop (limit after : Z) (all : list A) (w : JsonWriter) (lastKey : Z) (emitted : Z) :
    option (JsonWriter * Z * bool) :=
  match all with
  | [] => Some (w, lastKey, false)
  | x :: all' =>
      if keyOf x <=? after then pageLoop limit after all' w lastKey emitted
      else if limit <=? emitted then Some (w, lastKey, true)
      else w ← item w x; pageLoop limit after all' w (keyOf x) (emitted + 1)
  end.

Definition page (limit after : Z) (all : list A) : option HttpResponse :=
  w ← key (beginObject jsonNew) "items";
  '(w, lastKey, hasMore) ← pageLoop limit after all (beginArray w) after 0;
  w ← endArray w;
  w ← key w "next_cursor";
  let w := if hasMore : bool then valueInt w lastKey else nullValue w in
  w ← keyBool w "has_more" hasMore;
  w ← endObject w;
  Some (jsonResponse 200 (js_out w)).

Definition pageFor (query : Text) (all : option (list A)) : option HttpResponse :=
  let q := parseQuery query in
  limit ← queryInt q "limit" kDefaultLimit;
  after ← queryInt q "after" (-1);
  all ← all;
  page (Z.min limit kMaxLimit) after all.
End page.

Definition instrumentItem (w : JsonWriter) (inst : InstrumentInfo) : option JsonWriter :=
  w ← keyInt (beginObject w) "id" (ii_id inst); endObject w.

Definition instrumentsRoute : RouteHandler := authorized (λ req,
  pageFor ii_id instrumentItem (rq_query req) (listInstruments store)).

(** The instrument that the path names. *)
Definition withInstrument (req : HttpRequest) (h : InstrumentInfo → option HttpResponse) : option HttpResponse :=
  raw ← rq_pathParams req !! str "id";
  id ← parseInstrumentId raw;
  match id with
  | None => Some (jsonResponse 400 (errorBody "invalid_instrument_id"))
  | Some id =>
      inst ← findInstrument store id;
      match inst with
      | None => Some (jsonResponse 404 (errorBody "instrument_not_found"))
      | Some inst => h inst
      end
  end.

Definition segmentItem (w : JsonWriter) (s : SegmentInfo) : option JsonWriter :=
  w ← keyString (beginObject w) "file_name" (si_fileName s);
  w ← keyInt w "first_seq" (si_firstSeq s);
  w ← keyInt w "created_counter" (s64 (si_createdCounter s));
  w ← keyInt w "bytes" (s64 (si_bytes s));
  w ← keyBool w "header_valid" (si_headerValid s);
  endObject w.

Definition segmentsRoute : RouteHandler := authorized (λ req,
  withInstrument req (λ inst, pageFor si_firstSeq segmentItem (rq_query req) (segmentInfos inst))).

Definition snapshotItem (w : JsonWriter) (s : SnapshotInfo) : option JsonWriter :=
  w ← keyString (beginObject w) "file_name" (sp_fileName s);
  w ← keyInt w "global_seq" (sp_globalSeq s);
  w ← keyInt w "book_seq" (sp_bookSeq s);
  w ← keyInt w "order_count" (s64 (sp_orderCount s));
  w ← keyInt w "bytes" (s64 (sp_bytes s));
  w ← keyBool w "crc_valid" (sp_crcValid s);
  endObject w.

Definition snapshotsRoute : RouteHandler := authorized (λ req,
  withInstrument req (λ inst, pageFor sp_globalSeq snapshotItem (rq_query req) (listSnapshots inst))).

Definition registerAdminRoutes : list Route := [
  get "/healthz" healthz;
  get "/api/v1/engine/status" engineStatusRoute;
  get "/api/v1/instruments" instrumentsRoute;
  get "/api/v1/instruments/{id}/journal/segments" segmentsRoute;
  get "/api/v1/instruments/{id}/snapshots" snapshotsRoute
].
End routes.
