(* ===== verification/AdminClaims.v ===== *)
(** What the admin API promises: nothing of the store is shown without a valid token,
    and following the cursors of a collection shows it once and completely. *)
From Stdlib Require Import String.
From stdpp Require Import gmap sorting.
From S2P Require Import Prelude Types Wire JournalFormat SegmentNames JournalWriter JournalReader Snapshot Base64 Sha256 Jwt.
From S2P Require Import AdminHttp.

(** ** Authorization *)

(** The request carries a token that verifies and has a role of the API. *)
Definition holds_token (secret : Text) (now : Z) (rev : list Text) (req : HttpRequest) : Prop :=
  ∃ token r role, rq_headers req !! str "authorization" = Some (str "Bearer " ++ token) ∧
    verifyJwt token secret now rev = Some r ∧ vr_ok r = true ∧ role ∈ vr_roles r ∧ role ∈ kValidRoles.

Lemma authorize_holds secret now rev req :
  authorize secret now rev req = Some None → holds_token secret now rev req.
Proof.
  unfold authorize. intros H. destruct (rq_headers req !! str "authorization") as [h|] eqn:Eh; [|done].
  case_bool_decide as Hp; [|done]. destruct Hp as [token ->]. cbn [negb] in H.
  rewrite drop_app_length' in H by done. apply bind_Some in H as (r & Hr & H).
  destruct (vr_ok r) eqn:Eo; [|done]. cbn [negb] in H.
  destruct (existsb _ _) eqn:Ee; [|done]. apply existsb_exists in Ee as (role & Hin & Hv).
  apply bool_decide_eq_true in Hv. apply list_elem_of_In in Hin. by exists token, r, role.
Qed.

Lemma authorize_rejects secret now rev req r :
  authorize secret now rev req = Some (Some r) → rs_status r ≠ 200.
Proof.
  unfold authorize. intros H. destruct (rq_headers req !! str "authorization") as [h|]; [|by injection H as <-].
  case_bool_decide; [|by injection H as <-]. cbn [negb] in H. apply bind_Some in H as (v & _ & H).
  destruct (vr_ok v); [|by injection H as <-]. cbn [negb] in H. destruct (existsb _ _); [done|by injection H as <-].
Qed.

(** A handler that the guard wraps. *)
Definition guarded (secret : Text) (now : Z) (rev : list Text) (h : RouteHandler) : Prop :=
  ∃ h', h = authorized secret now rev h'.

(** Without a token two guarded handlers answer the same, and do not answer 200. *)
Lemma guarded_same secret now rev h1 h2 req :
  guarded secret now rev h1 → guarded secret now rev h2 → ¬ holds_token secret now rev req →
  h1 req = h2 req ∧ ∀ resp, h1 req = Some resp → rs_status resp ≠ 200.
Proof.
  intros [h1' ->] [h2' ->] Hn. unfold authorized.
  destruct (authorize secret now rev req) as [[r|]|] eqn:E; cbn [mbind option_bind].
  - split; [done|]. intros resp [= <-]. by eapply authorize_rejects.
  - by apply authorize_holds in E.
  - done.
Qed.

(** Route by route. *)
Definition same_routes (secret : Text) (now : Z) (rev : list Text) (r1 r2 : Route) : Prop :=
  ro_segments r1 = ro_segments r2 ∧
  ((ro_segments r1 = [str "healthz"] ∧ ro_handler r1 = ro_handler r2) ∨
   (guarded secret now rev (ro_handler r1) ∧ guarded secret now rev (ro_handler r2))).

Lemma routes_same secret now rev s1 s2 :
  Forall2 (same_routes secret now rev) (registerAdminRoutes s1 secret now rev) (registerAdminRoutes s2 secret now rev).
Proof.
  unfold registerAdminRoutes, same_routes, get, engineStatusRoute, instrumentsRoute, segmentsRoute, snapshotsRoute.
  apply Forall2_cons_2; cbn [ro_segments ro_handler]; [split; [reflexivity|left; split; reflexivity]|].
  repeat (apply Forall2_cons_2; cbn [ro_segments ro_handler];
    [split; [reflexivity|right; split; eexists; reflexivity]|]).
  apply Forall2_nil_2.
Qed.

Lemma matchPath_literal p actual ps ps' : paramName p = None → matchPath [p] actual ps = Some ps' → actual = [p].
Proof.
  intros Hp. destruct actual as [|a actual]; [done|]. cbn [matchPath]. rewrite Hp.
  case_bool_decide as Ha; [subst a|done]. by destruct actual.
Qed.

Lemma routes_dispatch_same secret now rev rs1 rs2 req b :
  Forall2 (same_routes secret now rev) rs1 rs2 → ¬ holds_token secret now rev req →
  dispatchLoop rs1 req b = dispatchLoop rs2 req b ∧
  ∀ resp, dispatchLoop rs1 req b = Some resp → rs_status resp = 200 → splitPath (rq_path req) = [str "healthz"].
Proof.
  intros H Hn. revert b. induction H as [|r1 r2 rs1 rs2 [Hseg Hr] H IH]; intros b.
  { split; [done|]. intros resp. cbn. by destruct b; intros [= <-]. }
  cbn [dispatchLoop]. rewrite <- Hseg.
  destruct (matchPath (ro_segments r1) _ ∅) as [params|] eqn:Em; [|apply IH].
  case_bool_decide; [|apply IH]. destruct Hr as [[Hh Heq]|[H1 H2]].
  - rewrite Heq. split; [done|]. intros resp _ _. rewrite Hh in Em.
    by eapply matchPath_literal.
  - pose proof (guarded_same secret now rev _ _
      (mkRequest (rq_method req) (rq_path req) (rq_query req) (rq_headers req) params) H1 H2 Hn) as [-> Hs].
    split; [done|]. intros resp Hresp Hok. by apply Hs in Hresp.
Qed.

(** ** Pages *)

(** The commas between the elements of an array or the members of an object. *)
Fixpoint commas (xs : list Text) : Text :=
  match xs with
  | [] => []
  | [x] => x
  | x :: xs' => x ++ str "," ++ commas xs'
  end.

Definition member (k : string) (v : Text) : Text := quoted (str k) ++ str ":" ++ v.
Definition object (ms : list Text) : Text := str "{" ++ commas ms ++ str "}".
Definition boolText (b : bool) : Text := if b then str "true" else str "false".

(** A collection of the API: the key that orders it, the code that writes an item, and
    the text that this is. *)
Class Collection (A : Type) := {
  keyOf : A → Z;
  item : JsonWriter → A → option JsonWriter;
  itemText : A → Text;
  item_writes out first st x :
    item (mkJson out ((false, first) :: st)) x =
    Some (mkJson (out ++ (if first then [] else str ",") ++ itemText x) ((false, false) :: st))
}.

(** Run the writer and compare the texts piece by piece. *)
Ltac written :=
  intros; unfold object, member, boolText; cbn -[str quoted escape intText];
  rewrite <- ?(assoc_L (++)); reflexivity.

Definition instrumentText (i : InstrumentInfo) : Text := object [member "id" (intText (ii_id i))].

#[export] Program Instance instruments : Collection InstrumentInfo :=
  {| keyOf := ii_id; item := instrumentItem; itemText := instrumentText |}.
Next Obligation. unfold instrumentText. written. Qed.

Definition segmentText (s : SegmentInfo) : Text :=
  object [member "file_name" (quoted (escape (si_fileName s))); member "first_seq" (intText (si_firstSeq s));
          member "created_counter" (intText (s64 (si_createdCounter s))); member "bytes" (intText (s64 (si_bytes s)));
          member "header_valid" (boolText (si_headerValid s))].

#[export] Program Instance segments : Collection SegmentInfo :=
  {| keyOf := si_firstSeq; item := segmentItem; itemText := segmentText |}.
Next Obligation. unfold segmentText. written. Qed.

Definition snapshotText (s : SnapshotInfo) : Text :=
  object [member "file_name" (quoted (escape (sp_fileName s))); member "global_seq" (intText (sp_globalSeq s));
          member "book_seq" (intText (sp_bookSeq s)); member "order_count" (intText (s64 (sp_orderCount s)));
          member "bytes" (intText (s64 (sp_bytes s))); member "crc_valid" (boolText (sp_crcValid s))].

#[export] Program Instance snapshots : Collection SnapshotInfo :=
  {| keyOf := sp_globalSeq; item := snapshotItem; itemText := snapshotText |}.
Next Obligation. unfold snapshotText. written. Qed.

(** The page behind the key [after]: the items, the last key, and whether there are more. *)
Definition pageOf `{Collection A} (limit after : Z) (all : list A) : list A * Z * bool :=
  let rest := filter (λ x, after < keyOf x) all in
  let xs := take (Z.to_nat limit) rest in
  (xs, default after (keyOf <$> last xs), bool_decide (limit < Z.of_nat (length rest))).

(** What the response says. *)
Definition pageText `{Collection A} (p : list A * Z * bool) : Text :=
  let '(xs, lastKey, more) := p in
  object [member "items" (str "[" ++ commas (itemText <$> xs) ++ str "]");
          member "next_cursor" (if more : bool then intText lastKey else str "null");
          member "has_more" (boolText more)].

(** The items that a client sees who follows the cursors, with at most [fuel] more requests. *)
Fixpoint followed `{Collection A} (fuel : nat) (limit after : Z) (all : list A) : option (list A) :=
  let '(xs, lastKey, more) := pageOf limit after all in
  if more : bool then
    match fuel with
    | O => None
    | S fuel' => rest ← followed fuel' limit lastKey all; Some (xs ++ rest)
    end
  else Some xs.

(** The query of the client. *)
Definition pageQuery (limit : Z) (cursor : option Z) : Text :=
  str "limit=" ++ decimal 20 limit ++ match cursor with Some k => str "&after=" ++ decimal 20 k | None => [] end.

Section pages.
Context `{C : Collection A}.

(** What [items] appends to an array. *)
Definition tailText (first : bool) (xs : list A) : Text :=
  match xs with [] => [] | _ => (if first then [] else str ",") ++ commas (itemText <$> xs) end.

Lemma tailText_cons first x xs :
  (if first : bool then [] else str ",") ++ itemText x ++ tailText false xs = tailText first (x :: xs).
Proof. destruct xs as [|y xs]; cbn [tailText fmap list_fmap commas]; [by rewrite app_nil_r|done]. Qed.

Lemma pageLoop_ok limit after all out first st lastKey emitted :
  0 <= emitted <= limit →
  pageLoop keyOf item limit after all (mkJson out ((false, first) :: st)) lastKey emitted =
  (let rest := filter (λ x, after < keyOf x) all in
   let xs := take (Z.to_nat (limit - emitted)) rest in
   Some (mkJson (out ++ tailText first xs) ((false, first && bool_decide (xs = [])) :: st),
         default lastKey (keyOf <$> last xs), bool_decide (limit - emitted < Z.of_nat (length rest)))).
Proof.
  revert out first lastKey emitted. induction all as [|x all IH]; intros out first lastKey emitted He.
  { cbn. rewrite take_nil. cbn. rewrite app_nil_r, andb_true_r. rewrite bool_decide_eq_false_2 by lia. done. }
  cbn [pageLoop]. cbv zeta. rewrite filter_cons. destruct (keyOf x <=? after) eqn:Ea.
  { rewrite decide_False by lia. by rewrite IH. }
  rewrite decide_True by lia. destruct (limit <=? emitted) eqn:El.
  { replace (limit - emitted) with 0 by lia. cbn [Z.to_nat take tailText last fmap option_fmap option_map default].
    rewrite app_nil_r, !bool_decide_eq_true_2, andb_true_r by (cbn [length]; (done || lia)). done. }
  rewrite item_writes. simpl_bind. rewrite IH by lia. cbv zeta.
  replace (Z.to_nat (limit - emitted)) with (S (Z.to_nat (limit - (emitted + 1)))) by lia. cbn [take].
  rewrite (bool_decide_eq_false_2 (_ :: _ = [])), andb_false_r by done. cbn [andb].
  rewrite <- tailText_cons, <- !(assoc_L (++)). f_equal. f_equal; [f_equal|].
  - destruct (take _ _) as [|y ys] eqn:Et; [done|]. by rewrite last_cons_cons; destruct (last (y :: ys)) eqn:El'; [|by apply last_None in El'].
  - apply bool_decide_ext. cbn [length]. lia.
Qed.

Lemma page_ok limit after all :
  0 <= limit → page keyOf item limit after all = Some (jsonResponse 200 (pageText (pageOf limit after all))).
Proof.
  intros Hl. unfold page. cbn -[str quoted escape pageLoop pageOf pageText].
  unfold beginArray, push, emit, beforeValue. cbn [js_out js_stack]. rewrite pageLoop_ok by lia. rewrite Z.sub_0_r. simpl_bind. cbv zeta. unfold pageText, pageOf, object, member, boolText.
  destruct (bool_decide (limit < _)); cbn -[str quoted escape intText take tailText last];
    do 2 f_equal; rewrite <- ?(assoc_L (++)); destruct (take _ _); reflexivity.
Qed.

Definition keyLt (x y : A) : Prop := keyOf x < keyOf y.

Lemma filter_sorted after (all : list A) : StronglySorted keyLt all → StronglySorted keyLt (filter (λ x, after < keyOf x) all).
Proof.
  induction 1 as [|x all Hs IH Hx]; [constructor|]. rewrite filter_cons. case_decide; [|done].
  constructor; [done|]. rewrite Forall_forall in *. intros y [_ Hy]%list_elem_of_filter. by apply Hx.
Qed.

Lemma filter_twice a b (all : list A) : a <= b →
  filter (λ x, b < keyOf x) (filter (λ x, a < keyOf x) all) = filter (λ x, b < keyOf x) all.
Proof. intros Hab. rewrite list_filter_filter. apply list_filter_iff. intros x. lia. Qed.

(** Behind the last key of a page is what the page left. *)
Lemma next_page limit after (all : list A) xs lastKey :
  1 <= limit → StronglySorted keyLt all → pageOf limit after all = (xs, lastKey, true) →
  filter (λ x, after < keyOf x) all = xs ++ filter (λ x, lastKey < keyOf x) all ∧ xs ≠ [].
Proof.
  intros Hl Hs [= Hxs Hlast Hm]. apply bool_decide_eq_true in Hm.
  set (rest := filter _ all) in *. assert (Hr : StronglySorted keyLt rest) by by apply filter_sorted.
  rewrite <- (take_drop (Z.to_nat limit) rest) in Hr. rewrite Hxs in Hr, Hlast.
  destruct xs as [|x xs _] using rev_ind.
  { apply (f_equal length) in Hxs. rewrite length_take in Hxs. cbn in Hxs. lia. }
  rewrite last_snoc in Hlast. cbn in Hlast. subst lastKey. split; [|by destruct xs].
  assert (Hin : x ∈ rest) by (eapply elem_of_sublist; [|apply sublist_take]; rewrite Hxs; set_solver).
  assert (Ha : after < keyOf x) by (by apply list_elem_of_filter in Hin as [? _]).
  rewrite <- (filter_twice after) by lia. fold rest. rewrite <- (take_drop (Z.to_nat limit) rest) at 1 2. rewrite Hxs.
  f_equal. rewrite filter_app. apply StronglySorted_app in Hr as (Hlt & Hr1 & _).
  apply StronglySorted_app in Hr1 as (Hle & _). rewrite (filter_none _ (xs ++ [x])), (filter_all _ (drop _ _)).
  - done.
  - apply Forall_forall. intros y Hy. apply (Hlt x y); [set_solver|done].
  - apply Forall_forall. intros y [Hy| ->%list_elem_of_singleton]%elem_of_app; [|lia].
    enough (keyOf y < keyOf x) by lia. apply (Hle y x); [done|set_solver].
Qed.

Lemma last_page limit after (all : list A) xs lastKey :
  pageOf limit after all = (xs, lastKey, false) → xs = filter (λ x, after < keyOf x) all.
Proof. intros [= Hxs _ Hm]. apply bool_decide_eq_false in Hm. subst xs. apply take_ge. lia. Qed.

Lemma followed_ok fuel limit after (all : list A) :
  1 <= limit → StronglySorted keyLt all → (length (filter (λ x, (after < keyOf x)%Z) all) <= fuel)%nat →
  followed fuel limit after all = Some (filter (λ x, after < keyOf x) all).
Proof.
  intros Hl Hs. revert after. induction fuel as [|fuel IH]; intros after Hf; cbn [followed];
    destruct (pageOf limit after all) as [[xs lastKey] more] eqn:Ep; destruct more.
  - destruct (next_page _ _ _ _ _ Hl Hs Ep) as [E Hne]. rewrite E, length_app in Hf. destruct xs; [done|cbn in Hf; lia].
  - by rewrite (last_page _ _ _ _ _ Ep).
  - destruct (next_page _ _ _ _ _ Hl Hs Ep) as [E Hne]. rewrite E, length_app in Hf.
    rewrite IH by (destruct xs; [done|cbn in Hf; lia]). simpl_bind. by rewrite E.
  - by rewrite (last_page _ _ _ _ _ Ep).
Qed.
End pages.

(** ** Queries *)

Lemma digits_no ch s : Forall (λ x, isDigit x = true) s → isDigit ch = false → ch ∉ s.
Proof. intros H Hc Hin. rewrite Forall_forall in H. apply H in Hin. congruence. Qed.

Lemma isAllDigits_decimal n : 0 <= n <= INT64_MAX → isAllDigits (decimal 20 n) = true.
Proof.
  intros Hn. unfold isAllDigits. rewrite bool_decide_eq_false_2 by by apply decimal_nonempty.
  apply forallb_forall. intros x Hx%list_elem_of_In. by eapply Forall_forall in Hx; [|by apply decimal_digits_only].
Qed.

Lemma avoids_not_in {B} (x : B) l : Forall (λ y, y ≠ x) l → x ∉ l.
Proof. rewrite Forall_forall. intros H Hx. by apply (H x). Qed.

Lemma number_no ch n : 0 <= n <= INT64_MAX → isDigit ch = false → ch ∉ decimal 20 n.
Proof. intros Hn. by apply digits_no, decimal_digits_only. Qed.

Lemma queryPair_ok out (k : string) n :
  Forall (λ x, x ≠ 61) (str k) → queryPair out (str k ++ 61 :: decimal 20 n) = <[str k := decimal 20 n]> out.
Proof. intros Hk. unfold queryPair. by rewrite untilChar_ok. Qed.

Lemma queryInt_found q k def n :
  q !! str k = Some (decimal 20 n) → 0 <= n <= INT64_MAX → queryInt q k def = Some n.
Proof. intros Hq Hn. unfold queryInt. by rewrite Hq, isAllDigits_decimal, stoll_decimal. Qed.

Lemma parseQuery_ok limit cursor :
  0 <= limit <= INT64_MAX → (∀ k, cursor = Some k → 0 <= k <= INT64_MAX) →
  parseQuery (pageQuery limit cursor) =
    match cursor with
    | Some k => <[str "after" := decimal 20 k]> {[str "limit" := decimal 20 limit]}
    | None => {[str "limit" := decimal 20 limit]}
    end.
Proof.
  intros Hl Hc. unfold parseQuery, pageQuery.
  assert (Hp : ∀ k n, 38 ∉ str k → 0 <= n <= INT64_MAX → 38 ∉ str k ++ 61 :: decimal 20 n).
  { intros k n Hk Hn. rewrite not_elem_of_app, not_elem_of_cons. split_and!; [done|done|by apply number_no]. }
  assert (H1 : 38 ∉ str "limit" ∧ 38 ∉ str "after") by (split; by apply avoids_not_in, str_avoids).
  assert (H2 : Forall (λ x, x ≠ 61) (str "limit") ∧ Forall (λ x, x ≠ 61) (str "after")) by (split; by apply str_avoids).
  destruct H1, H2. change (str "limit=" ++ ?x) with (str "limit" ++ 61 :: x).
  destruct cursor as [k|].
  - specialize (Hc k eq_refl).
    change (str "limit" ++ 61 :: decimal 20 limit ++ str "&after=" ++ decimal 20 k)
      with (str "limit" ++ (61 :: decimal 20 limit) ++ [38] ++ (str "after" ++ 61 :: decimal 20 k)).
    rewrite (assoc_L (++)). rewrite splitOn_app, splitOn_piece by by apply Hp. cbn [foldl]. by rewrite !queryPair_ok.
  - rewrite app_nil_r, splitOn_piece by by apply Hp. cbn [foldl]. by rewrite queryPair_ok.
Qed.

Lemma pageFor_ok `{Collection A} limit cursor (all : list A) :
  0 <= limit <= INT64_MAX → (∀ k, cursor = Some k → 0 <= k <= INT64_MAX) →
  pageFor keyOf item (pageQuery limit cursor) (Some all) =
  Some (jsonResponse 200 (pageText (pageOf (limit `min` kMaxLimit) (default (-1) cursor) all))).
Proof.
  intros Hl Hc. unfold pageFor. rewrite parseQuery_ok by done.
  rewrite (queryInt_found _ "limit" _ limit); [|by destruct cursor|done]. simpl_bind.
  assert (Ha : queryInt match cursor with
      | Some k => <[str "after" := decimal 20 k]> {[str "limit" := decimal 20 limit]}
      | None => {[str "limit" := decimal 20 limit]}
      end "after" (-1) = Some (default (-1) cursor)).
  { destruct cursor as [k|]; [|done]. apply queryInt_found; [done|by apply Hc]. }
  rewrite Ha. simpl_bind. apply page_ok. unfold kMaxLimit. lia.
Qed.

(** With [limit=0] and an item behind the cursor, a page is empty, says that there is more, and
    has the cursor that was asked for: the client never ends. *)
Lemma zero_limit_stays `{Collection A} after (all : list A) :
  filter (λ x, after < keyOf x) all ≠ [] → pageOf 0 after all = ([], after, true).
Proof.
  intros Hne. unfold pageOf. rewrite bool_decide_eq_true_2; [done|]. destruct (filter _ all); [done|cbn; lia].
Qed.

Lemma zero_limit_never_ends `{Collection A} fuel after (all : list A) :
  filter (λ x, after < keyOf x) all ≠ [] → followed fuel 0 after all = None.
Proof.
  intros Hne. pose proof (zero_limit_stays after all Hne) as Hp.
  induction fuel as [|fuel IH]; cbn [followed]; rewrite Hp; [done|]. by rewrite IH.
Qed.

(** ** The claims *)

(** C34: without a token that verifies and carries one of the roles, the bytes that the admin
    API answers do not depend on the store, and the only path that answers 200 is the health
    check. *)
Theorem admin_store_needs_token secret now rev s1 s2 raw :
  ¬ holds_token secret now rev (parseRequest raw) →
  handle (registerAdminRoutes s1 secret now rev) raw = handle (registerAdminRoutes s2 secret now rev) raw ∧
  ∀ resp, dispatch (registerAdminRoutes s1 secret now rev) (parseRequest raw) = Some resp →
    rs_status resp = 200 → splitPath (rq_path (parseRequest raw)) = [str "healthz"].
Proof.
  intros Hn. pose proof (routes_dispatch_same secret now rev _ _ (parseRequest raw) false
    (routes_same secret now rev s1 s2) Hn) as [Hs H200].
  split; [|exact H200]. unfold handle, dispatch. by rewrite Hs.
Qed.

(** C35: the pages of a collection whose keys are strictly increasing from 0 on, as those of the
    instruments of a store are.  For every limit and cursor that fit 64 bits, a page request is
    answered with the items behind its cursor, at most [limit] and at most [kMaxLimit] (1000) of
    them, in the documented envelope.  If the limit is at least 1, a client who follows the
    cursors from the first page sees every item once, in order, in at most one request per item.
    With the limit 0, which the API accepts, every page is empty and has the cursor that was
    asked for, so that such a client never ends unless there is nothing to see. *)
Theorem pages_cover_collection `{Collection A} limit (all : list A) :
  0 <= limit <= INT64_MAX → StronglySorted keyLt all → Forall (λ x, 0 <= keyOf x <= INT64_MAX) all →
  (∀ cursor, (∀ k, cursor = Some k → 0 <= k <= INT64_MAX) →
    pageFor keyOf item (pageQuery limit cursor) (Some all) =
    Some (jsonResponse 200 (pageText (pageOf (limit `min` kMaxLimit) (default (-1) cursor) all)))) ∧
  (1 <= limit → followed (length all) (limit `min` kMaxLimit) (-1) all = Some all) ∧
  (limit = 0 → all ≠ [] →
    pageOf limit (-1) all = ([], -1, true) ∧ ∀ fuel, followed fuel limit (-1) all = None).
Proof.
  intros Hl Hs Hk. assert (Hf : filter (λ x, -1 < keyOf x) all = all).
  { apply filter_all. eapply Forall_impl; [exact Hk|]. cbn. lia. }
  split; [intros cursor; apply pageFor_ok; lia|]. split.
  - intros H1. rewrite followed_ok; [by rewrite Hf|unfold kMaxLimit; lia|done|by rewrite Hf].
  - intros -> Hne. split; [|intros fuel]; [apply zero_limit_stays|apply zero_limit_never_ends]; by rewrite Hf.
Qed.

(** ** Witnesses *)

Definition demoRequest : Text :=
  str "GET /api/v1/instruments?limit=1 HTTP/1.1" ++ crlf ++ str "Host: admin" ++ crlf ++ crlf.

Definition noFiles : ShardFiles := mkShardFiles ∅ ∅.

Definition demoRoot : AdminStore :=
  mkStore [mkRootEntry (str "shard-7") true noFiles; mkRootEntry (str "lost+found") true noFiles;
           mkRootEntry (str "shard-2") true noFiles] None.

Lemma admin_store_needs_token_witness :
  handle (registerAdminRoutes demoRoot (str "secret") 1000 []) demoRequest =
    handle (registerAdminRoutes (mkStore [] None) (str "secret") 1000 []) demoRequest ∧
  handle (registerAdminRoutes demoRoot (str "secret") 1000 []) demoRequest =
    Some (responseText (jsonResponse 401 (errorBody "missing_bearer_token"))).
Proof.
  split; [|by vm_compute]. refine (proj1 (admin_store_needs_token _ _ _ _ _ _ _)).
  intros (token & r & role & Hh & _).
  assert (Hn : rq_headers (parseRequest demoRequest) !! str "authorization" = None) by by vm_compute.
  congruence.
Defined.

Lemma pages_cover_collection_witness :
  ∃ all, listInstruments demoRoot = Some all ∧ ii_id <$> all = [2; 7] ∧ followed (length all) 1 (-1) all = Some all ∧
    pageFor ii_id instrumentItem (pageQuery 1 None) (Some all) =
      Some (jsonResponse 200 (pageText ([mkInstrument 2 noFiles], 2, true))).
Proof.
  exists [mkInstrument 2 noFiles; mkInstrument 7 noFiles]. split; [by vm_compute|]. split; [done|].
  destruct (pages_cover_collection 1 [mkInstrument 2 noFiles; mkInstrument 7 noFiles]) as (H1 & H2 & _).
  - unfold INT64_MAX. lia.
  - repeat constructor.
  - repeat constructor; unfold INT64_MAX; cbn; lia.
  - split; [apply H2; lia|]. etrans; [apply (H1 None); done|]. by vm_compute.
Defined.

(** ** Limits of the API *)

(** A number that does not fit 64 bits makes the handler throw. *)
Theorem long_limit_throws `{Collection A} (all : option (list A)) :
  pageFor keyOf item (str "limit=99999999999999999999") all = None.
Proof.
  unfold pageFor. assert (Hq : queryInt (parseQuery (str "limit=99999999999999999999")) "limit" kDefaultLimit = None)
    by by vm_compute.
  by rewrite Hq.
Qed.

(** An instrument id is reduced to 32 bits. *)
Theorem wide_id_names_another_instrument : parseInstrumentId (str "4294967297") = Some (Some 1).
Proof. by vm_compute. Qed.

(** A segment whose header is not complete has the key 0; it is on the first page if there is
    room, and on none if there is not. *)
Theorem partial_segment_is_lost :
  ∃ header infos, encodeSegmentHeader (segmentHeader 1 0) (replicate 32 0) = Some header ∧
    segmentInfos (mkInstrument 1 (mkShardFiles {[1 := header; 5 := []]} ∅)) = Some infos ∧
    length infos = 2%nat ∧ followed 2 2 (-1) infos = Some infos ∧ followed 2 1 (-1) infos = Some (take 1 infos).
Proof. do 2 eexists. split; [vm_compute; reflexivity|]. split; [vm_compute; reflexivity|]. by vm_compute. Qed.
