(* ===== verification/Sha1.v ===== *)
(** SHA-1: [viz/sha1.hpp].

    The padding and the loading of words are the code of [admin/sha256.hpp] and are
    shared with its model; [sha1_ok] says that the result on bytes is the hash of
    FIPS 180-4, as [Fips] has it. *)
From Stdlib Require Import String.
From S2P Require Import Prelude Wire Base64 Fips Sha256.

Definition sha1Rotl (v bits : Z) : Z := Z.lor (u32 (Z.shiftl v bits)) (Z.shiftr v (32 - bits)).

(** [h0] to [h4], and the working variables. *)
Record Sha1 := mkSha1 { s1_a : Z; s1_b : Z; s1_c : Z; s1_d : Z; s1_e : Z }.

Definition sha1Init : Sha1 := mkSha1 0x67452301 0xEFCDAB89 0x98BADCFE 0x10325476 0xC3D2E1F0.

Fixpoint sha1Extend (n : nat) (i : Z) (w : list Z) : option (list Z) :=
  match n with
  | O => Some w
  | S n' =>
      w3 ← aget w (i - 3); w8 ← aget w (i - 8); w14 ← aget w (i - 14); w16 ← aget w (i - 16);
      w ← aset w i (sha1Rotl (Z.lxor (Z.lxor (Z.lxor w3 w8) w14) w16) 1);
      sha1Extend n' (i + 1) w
  end.

(** [f] and [k] of a round. *)
Definition sha1Fk (i b c d : Z) : Z * Z :=
  if i <? 20 then (Z.lor (Z.land b c) (Z.land (u32 (Z.lnot b)) d), 0x5A827999)
  else if i <? 40 then (Z.lxor (Z.lxor b c) d, 0x6ED9EBA1)
  else if i <? 60 then (Z.lor (Z.lor (Z.land b c) (Z.land b d)) (Z.land c d), 0x8F1BBCDC)
  else (Z.lxor (Z.lxor b c) d, 0xCA62C1D6).

Definition sha1Round (i : Z) (s : Sha1) (w : Z) : Sha1 :=
  let '(f, k) := sha1Fk i (s1_b s) (s1_c s) (s1_d s) in
  let temp := u32 (sha1Rotl (s1_a s) 5 + f + s1_e s + k + w) in
  mkSha1 temp (s1_a s) (sha1Rotl (s1_b s) 30) (s1_c s) (s1_d s).

Fixpoint sha1Rounds (n : nat) (i : Z) (w : list Z) (s : Sha1) : option Sha1 :=
  match n with
  | O => Some s
  | S n' => wi ← aget w i; sha1Rounds n' (i + 1) w (sha1Round i s wi)
  end.

Definition sha1Add (h s : Sha1) : Sha1 :=
  mkSha1 (u32 (s1_a h + s1_a s)) (u32 (s1_b h + s1_b s)) (u32 (s1_c h + s1_c s)) (u32 (s1_d h + s1_d s))
    (u32 (s1_e h + s1_e s)).

Definition sha1Chunk (msg : list Z) (chunk : Z) (h : Sha1) : option Sha1 :=
  w ← loadWords 16 0 msg chunk (replicate 80 0);
  w ← sha1Extend 64 16 w;
  s ← sha1Rounds 80 0 w h;
  Some (sha1Add h s).

Fixpoint sha1Chunks (n : nat) (chunk : Z) (msg : list Z) (h : Sha1) : option Sha1 :=
  match n with
  | O => Some h
  | S n' => h ← sha1Chunk msg chunk h; sha1Chunks n' (chunk + 64) msg h
  end.

Definition sha1Bytes (h : Sha1) : list Z :=
  wordBytes (s1_a h) ++ wordBytes (s1_b h) ++ wordBytes (s1_c h) ++ wordBytes (s1_d h) ++ wordBytes (s1_e h).

Definition sha1 (data : list Z) : option (list Z) :=
  msg ← padMessage data;
  h ← sha1Chunks (paddedLen (length data) / 64) 0 msg sha1Init;
  Some (sha1Bytes h).

(** ** The same on lists of blocks *)

Definition sha1F (t : nat) (x y z : Z) : Z :=
  if (t <? 20)%nat then Z.lxor (Z.land x y) (Z.land (u32 (Z.lnot x)) z)
  else if (40 <=? t)%nat && (t <? 60)%nat then Z.lxor (Z.lxor (Z.land x y) (Z.land x z)) (Z.land y z)
  else Z.lxor (Z.lxor x y) z.

Fixpoint sha1Schedule (n : nat) (ws : list Z) : list Z :=
  match n with
  | O => ws
  | S n' =>
      let t := length ws in
      sha1Schedule n' (ws ++ [sha1Rotl (Z.lxor (Z.lxor (Z.lxor (ws !!! (t - 3)%nat) (ws !!! (t - 8)%nat))
                                                  (ws !!! (t - 14)%nat)) (ws !!! (t - 16)%nat)) 1])
  end.

Fixpoint sha1RoundList (t : nat) (ws : list Z) (s : Sha1) : Sha1 :=
  match ws with
  | [] => s
  | w :: ws' =>
      let T := u32 (sha1Rotl (s1_a s) 5 + sha1F t (s1_b s) (s1_c s) (s1_d s) + s1_e s + K160 t + w) in
      sha1RoundList (S t) ws' (mkSha1 T (s1_a s) (sha1Rotl (s1_b s) 30) (s1_c s) (s1_d s))
  end.

Definition sha1Block (h : Sha1) (block : list Z) : Sha1 :=
  sha1Add h (sha1RoundList 0 (sha1Schedule 64 (blockWords 16 block)) h).

Definition blockSha1 (m : list Z) : list Z :=
  let p := blockPad m in sha1Bytes (blocks sha1Block (length p / 64) p sha1Init).

(** ** The code works on the blocks *)

(** The code writes disjunctions where exclusive ones do as well. *)
Lemma choose_or x y z : Z.lor (Z.land x y) (Z.land (u32 (Z.lnot x)) z) = Z.lxor (Z.land x y) (Z.land (u32 (Z.lnot x)) z).
Proof.
  apply Z.bits_inj'. intros n Hn. rewrite Z.lor_spec, Z.lxor_spec, !Z.land_spec.
  assert (Hx : Z.testbit x n = true → Z.testbit (u32 (Z.lnot x)) n = false).
  { intros H. unfold u32. change 4294967296 with (2 ^ 32). destruct (decide (n < 32)) as [Hl|Hl].
    - rewrite Z.mod_pow2_bits_low, Z.lnot_spec, H by lia. done.
    - apply Z.mod_pow2_bits_high. lia. }
  destruct (Z.testbit x n); [rewrite Hx by done; by destruct (Z.testbit y n)|].
  by destruct (Z.testbit (u32 (Z.lnot x)) n && Z.testbit z n).
Qed.

Lemma majority_or x y z :
  Z.lor (Z.lor (Z.land x y) (Z.land x z)) (Z.land y z) = Z.lxor (Z.lxor (Z.land x y) (Z.land x z)) (Z.land y z).
Proof.
  apply Z.bits_inj'. intros n Hn. rewrite !Z.lor_spec, !Z.lxor_spec, !Z.land_spec.
  by destruct (Z.testbit x n), (Z.testbit y n), (Z.testbit z n).
Qed.

Lemma sha1Fk_ok t b c d : sha1Fk (Z.of_nat t) b c d = (sha1F t b c d, K160 t).
Proof.
  unfold sha1Fk, sha1F, K160.
  destruct (Nat.ltb_spec t 20); [rewrite (proj2 (Z.ltb_lt _ _)) by lia; by rewrite choose_or|].
  rewrite (proj2 (Z.ltb_ge (Z.of_nat t) 20)) by lia.
  destruct (Nat.ltb_spec t 40); [rewrite (proj2 (Z.ltb_lt _ _)) by lia; destruct (Nat.leb_spec 40 t); [lia|done]|].
  rewrite (proj2 (Z.ltb_ge (Z.of_nat t) 40)) by lia. destruct (Nat.leb_spec 40 t); [|lia].
  destruct (Nat.ltb_spec t 60); [rewrite (proj2 (Z.ltb_lt _ _)) by lia; cbn [andb]; by rewrite majority_or|].
  by rewrite (proj2 (Z.ltb_ge (Z.of_nat t) 60)) by lia.
Qed.

Lemma sha1Extend_ok n ws :
  (16 <= length ws)%nat → sha1Extend n (Z.of_nat (length ws)) (ws ++ replicate n 0) = Some (sha1Schedule n ws).
Proof.
  revert ws. induction n as [|n IH]; intros ws Hl; cbn [sha1Extend sha1Schedule].
  { by rewrite app_nil_r. }
  rewrite (aget_back 3 _ _ 3), (aget_back 8 _ _ 8), (aget_back 14 _ _ 14), (aget_back 16 _ _ 16) by lia. simpl_bind. cbn [replicate].
  rewrite aset_middle by done. simpl_bind. set (y := sha1Rotl _ _).
  replace (ws ++ y :: replicate n 0) with ((ws ++ [y]) ++ replicate n 0) by (by rewrite <- app_assoc).
  replace (Z.of_nat (length ws) + 1) with (Z.of_nat (length (ws ++ [y]))) by (rewrite length_app; cbn; lia).
  apply IH. rewrite length_app. lia.
Qed.

Lemma sha1Rounds_ok n i w s :
  (i + n = length w)%nat → sha1Rounds n (Z.of_nat i) w s = Some (sha1RoundList i (drop i w) s).
Proof.
  revert i s. induction n as [|n IH]; intros i s Hi; cbn [sha1Rounds].
  { by rewrite drop_ge by lia. }
  destruct (lookup_lt_is_Some_2 w i) as [x Hx]; [lia|]. rewrite aget_nat, Hx. simpl_bind.
  rewrite (drop_S _ _ _ Hx). cbn [sha1RoundList]. unfold sha1Round. rewrite sha1Fk_ok.
  replace (Z.of_nat i + 1) with (Z.of_nat (S i)) by lia. apply IH. lia.
Qed.

Lemma length_sha1Schedule n ws : length (sha1Schedule n ws) = (n + length ws)%nat.
Proof. revert ws. induction n as [|n IH]; intros ws; [done|]. cbn [sha1Schedule]. rewrite IH, length_app. cbn. lia. Qed.

Lemma sha1_loops n1 n2 n3 m pre block post h :
  n1 = 16%nat → n2 = 64%nat → n3 = 80%nat → m = 80%nat → length block = 64%nat →
  (w ← loadWords n1 0 (pre ++ block ++ post) (Z.of_nat (length pre)) (replicate m 0);
   w ← sha1Extend n2 16 w;
   s ← sha1Rounds n3 0 w h;
   Some (sha1Add h s))
  = Some (sha1Add h (sha1RoundList 0 (sha1Schedule n2 (blockWords n1 block)) h)).
Proof.
  intros H1 H2 H3 Hm Hb. pose proof (length_blockWords n1 block ltac:(lia)) as Hw.
  rewrite (loadWords_init n1 n2 m pre block post) by lia. simpl_bind.
  replace 16 with (Z.of_nat (length (blockWords n1 block))) by lia. rewrite sha1Extend_ok by lia. simpl_bind.
  change 0 with (Z.of_nat 0) at 1. rewrite (sha1Rounds_ok n3 0) by (rewrite length_sha1Schedule; lia). done.
Qed.

Lemma sha1Chunk_ok pre block post chunk h :
  chunk = Z.of_nat (length pre) → length block = 64%nat →
  sha1Chunk (pre ++ block ++ post) chunk h = Some (sha1Block h block).
Proof. intros -> Hb. exact (sha1_loops 16 64 80 80 pre block post h eq_refl eq_refl eq_refl eq_refl Hb). Qed.

Lemma sha1Chunks_ok n pre rest h :
  length rest = (64 * n)%nat → sha1Chunks n (Z.of_nat (length pre)) (pre ++ rest) h = Some (blocks sha1Block n rest h).
Proof.
  revert pre rest h. induction n as [|n IH]; intros pre rest h Hl; [done|]. cbn [sha1Chunks blocks].
  rewrite <- (take_drop 64 rest) at 1. rewrite sha1Chunk_ok by (rewrite ?length_take; lia). simpl_bind.
  rewrite <- (take_drop 64 rest) at 1. rewrite app_assoc.
  replace (Z.of_nat (length pre) + 64) with (Z.of_nat (length (pre ++ take 64 rest)))
    by (rewrite length_app, length_take; lia).
  apply IH. rewrite length_drop. lia.
Qed.

Lemma sha1_blocks m : Z.of_nat (length m) * 8 < 18446744073709551616 → sha1 m = Some (blockSha1 m).
Proof.
  intros Hm. unfold sha1, blockSha1. rewrite padMessage_ok, length_blockPad by done. simpl_bind.
  pose proof (sha1Chunks_ok (paddedLen (length m) / 64) [] (blockPad m) sha1Init) as H. cbn [app length] in H.
  change (Z.of_nat 0) with 0 in H. rewrite H; [done|]. by rewrite length_blockPad, <- paddedLen_chunks.
Qed.

(** ** The blocks are those of the standard *)

Lemma rotl_ROTL x n : is_word x → 0 < n < 32 → sha1Rotl x n = ROTL n x.
Proof.
  intros Hx Hn. apply word_eq. intros i Hi. unfold sha1Rotl.
  rewrite Z.lor_spec, u32_bit, Z.shiftl_spec, Z.shiftr_spec by lia. destruct (Z.ltb_spec i 32); cbn [andb].
  - destruct (decide (n <= i)).
    + rewrite Z.mod_small, (word_high x (i + _)) by (done || lia). by rewrite orb_false_r.
    + rewrite (Z.testbit_neg_r x (i - n)) by lia. cbn [orb]. f_equal.
      rewrite <- (Z.mod_unique_pos (i - n) 32 (-1) (i - n + 32)) by lia. lia.
  - by rewrite word_high by (done || lia).
Qed.

Lemma sha1F_ok t x y z : is_word x → is_word y → is_word z → sha1F t x y z = f160 t x y z.
Proof.
  intros Hx Hy Hz. unfold sha1F, f160. destruct (Nat.ltb_spec t 20); [by apply choose_Ch|].
  destruct (Nat.ltb_spec t 40), (Nat.leb_spec 40 t), (Nat.ltb_spec t 60); cbn [andb];
    (lia || by apply majority_Maj || by apply lxor_Parity).
Qed.

Lemma lxor_Parity4 w x y z :
  is_word w → is_word x → is_word y → is_word z → Z.lxor (Z.lxor (Z.lxor w x) y) z = Parity4 w x y z.
Proof.
  intros Hw Hx Hy Hz. apply word_eq. intros i Hi.
  rewrite !Z.lxor_spec, (is_word_bit w), (is_word_bit x), (is_word_bit y), (is_word_bit z) by done.
  destruct (i <? 32); [|done]. by destruct (Z.testbit w i), (Z.testbit x i), (Z.testbit y i), (Z.testbit z i).
Qed.

Lemma sha1Schedule_ok n ws : Forall is_word ws → sha1Schedule n ws = schedule160 n ws.
Proof.
  revert ws. induction n as [|n IH]; intros ws Hw; [done|]. cbn [sha1Schedule schedule160].
  rewrite lxor_Parity4, rotl_ROTL by (by apply word_lookup || apply word_range || lia).
  apply IH. apply Forall_app. split; [done|]. constructor; [apply word_range|constructor].
Qed.

Definition sha1Words (h : Sha1) : list Z := [s1_a h; s1_b h; s1_c h; s1_d h; s1_e h].
Definition word_sha1 (h : Sha1) : Prop := Forall is_word (sha1Words h).

Lemma sha1RoundList_ok t ws s : word_sha1 s → sha1Words (sha1RoundList t ws s) = rounds160 t ws (sha1Words s).
Proof.
  revert t s. induction ws as [|w ws IH]; intros t [a b c d e] Hs; [done|].
  cbn [sha1RoundList rounds160 sha1Words s1_a s1_b s1_c s1_d s1_e]. unfold word_sha1, sha1Words in Hs.
  cbn [s1_a s1_b s1_c s1_d s1_e] in Hs. rewrite !Forall_cons in Hs. destruct Hs as (Ha & Hb & Hc & Hd & He & _).
  rewrite sha1F_ok, !rotl_ROTL by (done || lia). apply IH.
  repeat (apply Forall_cons_2; [apply u32_word || apply word_range || done|]). constructor.
Qed.

Lemma sha1Add_ok h s : sha1Words (sha1Add h s) = addWords (sha1Words s) (sha1Words h) ∧ word_sha1 (sha1Add h s).
Proof.
  split; [|repeat (apply Forall_cons_2; [apply u32_word|]); constructor].
  unfold sha1Words, sha1Add, addWords. cbn [zip_with s1_a s1_b s1_c s1_d s1_e].
  unfold u32. change 4294967296 with (2 ^ 32).
  by rewrite (Z.add_comm (s1_a h)), (Z.add_comm (s1_b h)), (Z.add_comm (s1_c h)), (Z.add_comm (s1_d h)), (Z.add_comm (s1_e h)).
Qed.

Lemma sha1Block_ok h block :
  word_sha1 h → bytes block →
  sha1Words (sha1Block h block) = compress160 (sha1Words h) block ∧ word_sha1 (sha1Block h block).
Proof.
  intros Hh Hb. unfold sha1Block. set (s := sha1RoundList _ _ h). destruct (sha1Add_ok h s) as [-> Hw]. split; [|done].
  unfold compress160, s. f_equal. destruct (blockWords_ok 16 block Hb) as [Eb Wb].
  rewrite <- Eb, <- sha1Schedule_ok by done. by apply sha1RoundList_ok.
Qed.

Lemma sha1Init_words : word_sha1 sha1Init.
Proof. by repeat constructor. Qed.

Lemma blockSha1_fips m : bytes m → blockSha1 m = fipsSha1 m.
Proof.
  intros Hm. unfold blockSha1, fipsSha1. rewrite blockPad_pad. cbv zeta. unfold sha1Bytes. rewrite !wordBytes_be.
  set (h := blocks sha1Block _ _ sha1Init).
  assert (Hh : sha1Words h = blocks compress160 (length (pad m) / 64) (pad m) H160)
    by exact (blocks_sim word_sha1 sha1Words sha1Block compress160 _ _ sha1Init sha1Block_ok sha1Init_words (pad_bytes m Hm)).
  rewrite <- Hh. reflexivity.
Qed.

Lemma sha1_ok m : bytes m → Z.of_nat (length m) * 8 < 18446744073709551616 → sha1 m = Some (fipsSha1 m).
Proof. intros Bm Hm. rewrite <- (blockSha1_fips m Bm). by apply sha1_blocks. Qed.
