(* ===== verification/WsServer.v ===== *)
(** The visualizer's web server: [viz/ws_server.cpp], [viz/http_static.hpp].

    A session first reads a request; it answers a file and closes, or it upgrades to a
    WebSocket, on which it reads the frames of the browser one at a time and writes
    text frames from a bounded queue.  [ws_await] is the operation whose handler runs
    next; a read handler gets exactly the bytes it asked for, or an error.  The socket takes
    the bytes of a write in pieces of any size, so that a write that fails has sent a part. *)
From Stdlib Require Import String.
From stdpp Require Import gmap.
From S2P Require Import Prelude Types Wire SegmentNames FeedServer Base64 Sha256 Jwt AdminHttp Sha1.

Definition kWsMagicGuid : Text := str "258EAFA5-E914-47DA-95CA-C5AB0DC85B11".

Definition computeAcceptKey (secWebSocketKey : Text) : option Text :=
  digest ← sha1 (secWebSocketKey ++ kWsMagicGuid); base64Encode digest false true.

(** ** Static files *)

(** [files]: what can be read in the assets directory.  The body and the content type. *)
Definition load (files : Text → option Text) (urlPath : Text) : option (Text * Text) :=
  if bool_decide (urlPath = str "/") || bool_decide (urlPath = str "/index.html") then
    body ← files (str "index.html"); Some (body, str "text/html; charset=utf-8")
  else if bool_decide (urlPath = str "/app.js") then
    body ← files (str "app.js"); Some (body, str "application/javascript; charset=utf-8")
  else if bool_decide (urlPath = str "/style.css") then
    body ← files (str "style.css"); Some (body, str "text/css; charset=utf-8")
  else None.

(** ** Frames out *)

(** [for (int i = 7; i >= 0; --i)] *)
Fixpoint pushLength (n : nat) (len : Z) : list Z :=
  match n with
  | O => []
  | S i => Z.land (Z.shiftr len (8 * Z.of_nat i)) 255 :: pushLength i len
  end.

Definition encodeTextFrame (payload : list Z) : list Z :=
  let len := Z.of_nat (length payload) in
  [0x81] ++
  (if len <=? 125 then [len]
   else if len <=? 65535 then [126; Z.land (Z.shiftr len 8) 255; Z.land len 255]
   else 127 :: pushLength 8 len) ++
  payload.

(** ** Sessions *)

Inductive Await :=
  | AwaitHeaders
  | AwaitHandshake (resp : Text)
  | AwaitHttp (resp : Text)
  | AwaitFrameHeader
  | AwaitLength (extraBytes : nat)
  | AwaitMaskKey
  | AwaitPayload
  | AwaitNothing.

(** [ws_out]: the bytes that went out; [ws_sent]: how many of them are of the outstanding
    write. *)
Record WsSession := mkWs {
  ws_await : Await;
  ws_opcode : Z;
  ws_payloadLen : Z;
  ws_maskKey : list Z;
  ws_payloadBuf : list Z;
  ws_pending : list (list Z);
  ws_queuedBytes : Z;
  ws_writing : bool;
  ws_isWs : bool;
  ws_closed : bool;
  ws_out : list Z;
  ws_sent : nat
}.

Definition wsNew : WsSession := mkWs AwaitHeaders 0 0 [0; 0; 0; 0] [] [] 0 false false false [] 0.

Definition setAwait (s : WsSession) (a : Await) : WsSession :=
  mkWs a (ws_opcode s) (ws_payloadLen s) (ws_maskKey s) (ws_payloadBuf s) (ws_pending s) (ws_queuedBytes s)
    (ws_writing s) (ws_isWs s) (ws_closed s) (ws_out s) (ws_sent s).

Definition setFrame (s : WsSession) (opcode payloadLen : Z) (maskKey payloadBuf : list Z) : WsSession :=
  mkWs (ws_await s) opcode payloadLen maskKey payloadBuf (ws_pending s) (ws_queuedBytes s) (ws_writing s)
    (ws_isWs s) (ws_closed s) (ws_out s) (ws_sent s).

Definition setQueue (s : WsSession) (pending : list (list Z)) (queuedBytes : Z) (writing : bool) : WsSession :=
  mkWs (ws_await s) (ws_opcode s) (ws_payloadLen s) (ws_maskKey s) (ws_payloadBuf s) pending queuedBytes writing
    (ws_isWs s) (ws_closed s) (ws_out s) (ws_sent s).

Definition setOut (s : WsSession) (out : list Z) (sent : nat) : WsSession :=
  mkWs (ws_await s) (ws_opcode s) (ws_payloadLen s) (ws_maskKey s) (ws_payloadBuf s) (ws_pending s) (ws_queuedBytes s)
    (ws_writing s) (ws_isWs s) (ws_closed s) out sent.

Definition closeWs (s : WsSession) : WsSession :=
  mkWs (ws_await s) (ws_opcode s) (ws_payloadLen s) (ws_maskKey s) (ws_payloadBuf s) (ws_pending s) (ws_queuedBytes s)
    (ws_writing s) (ws_isWs s) true (ws_out s) (ws_sent s).

(** [close(); return;] in a handler: no operation follows. *)
Definition closeAndStop (s : WsSession) : WsSession := setAwait (closeWs s) AwaitNothing.

(** *** Writing *)

Definition doWriteWs (s : WsSession) : WsSession :=
  setQueue s (ws_pending s) (ws_queuedBytes s) (match ws_pending s with [] => false | _ => true end).

(** The buffer of the outstanding write. *)
Definition sending (s : WsSession) : list Z :=
  match ws_await s with
  | AwaitHandshake resp | AwaitHttp resp => resp
  | _ => default [] (head (ws_pending s))
  end.

(** The socket takes [n] more bytes of it; a closed one takes none. *)
Definition wsTransferred (s : WsSession) (n : nat) : WsSession :=
  if ws_closed s then s
  else
    let chunk := take n (drop (ws_sent s) (sending s)) in
    setOut s (ws_out s ++ chunk) (ws_sent s + length chunk).

Definition kDefaultMaxQueueBytes : Z := 4 * 1024 * 1024.

Section session.
Context (maxQueueBytes : Z).

Definition enqueueRaw (s : WsSession) (frame : list Z) : WsSession :=
  let n := Z.of_nat (length frame) in
  if ws_closed s then s
  else if maxQueueBytes <? u64 (ws_queuedBytes s + n) then closeWs s
  else
    let s := setQueue s (ws_pending s ++ [frame]) (u64 (ws_queuedBytes s + n)) (ws_writing s) in
    if ws_writing s then s else doWriteWs s.

(** The completion of [async_write]: a success has transferred the whole frame, an error any
    part of it. *)
Definition wsWritten (s : WsSession) (ok : bool) : WsSession :=
  if negb ok then closeWs s
  else
    match ws_pending s with
    | [] => s
    | front :: rest =>
        doWriteWs (setOut (setQueue s rest (u64 (ws_queuedBytes s - Z.of_nat (length front))) (ws_writing s)) (ws_out s) 0)
    end.

Definition sendText (s : WsSession) (payload : list Z) : WsSession :=
  if negb (ws_isWs s) || ws_closed s then s else enqueueRaw s (encodeTextFrame payload).

(** *** Reading frames *)

Definition handleFrame (s : WsSession) : WsSession :=
  if ws_opcode s =? 8 then closeAndStop s
  else
    let s :=
      if ws_opcode s =? 9
      then enqueueRaw s ([0x8A; Z.land (Z.of_nat (length (ws_payloadBuf s))) 127] ++ ws_payloadBuf s)
      else s in
    let s := setFrame s (ws_opcode s) (ws_payloadLen s) (ws_maskKey s) [] in
    if ws_closed s then setAwait s AwaitNothing else setAwait s AwaitFrameHeader.

Definition readPayload (s : WsSession) : WsSession :=
  if ws_payloadLen s =? 0 then handleFrame s else setAwait s AwaitPayload.

(** [payloadBuf_[i] ^= maskKey_[i % 4]], from index [i] on. *)
Fixpoint unmask (i : nat) (maskKey bs : list Z) : list Z :=
  match bs with
  | [] => []
  | b :: bs' => Z.lxor b (maskKey !!! (i mod 4)%nat) :: unmask (S i) maskKey bs'
  end.

Definition readExtendedLength (s : WsSession) (byte1 : Z) : WsSession :=
  let len7 := Z.land byte1 127 in
  if len7 <=? 125 then setAwait (setFrame s (ws_opcode s) len7 (ws_maskKey s) (ws_payloadBuf s)) AwaitMaskKey
  else setAwait s (AwaitLength (if len7 =? 126 then 2 else 8)).

(** How many bytes the outstanding read of a frame asked for; 0 if there is none. *)
Definition wanted (s : WsSession) : nat :=
  match ws_await s with
  | AwaitFrameHeader => 2
  | AwaitLength n => n
  | AwaitMaskKey => 4
  | AwaitPayload => Z.to_nat (ws_payloadLen s)
  | _ => 0
  end.

(** The handler of a frame read; [None] as its argument is an error of the socket. *)
Definition onFrameRead (s : WsSession) (r : option (list Z)) : option WsSession :=
  match r with
  | None => Some (closeAndStop s)
  | Some bs =>
      match ws_await s, bs with
      | AwaitFrameHeader, [b0; b1] =>
          let s := setFrame s (Z.land b0 15) (ws_payloadLen s) (ws_maskKey s) (ws_payloadBuf s) in
          if Z.land b1 128 =? 0 then Some (closeAndStop s) else Some (readExtendedLength s b1)
      | AwaitLength _, _ =>
          let len := foldl (λ len b, Z.lor (u64 (Z.shiftl len 8)) b) 0 bs in
          Some (setAwait (setFrame s (ws_opcode s) len (ws_maskKey s) (ws_payloadBuf s)) AwaitMaskKey)
      | AwaitMaskKey, _ => Some (readPayload (setFrame s (ws_opcode s) (ws_payloadLen s) bs (ws_payloadBuf s)))
      | AwaitPayload, _ =>
          Some (handleFrame (setFrame s (ws_opcode s) (ws_payloadLen s) (ws_maskKey s) (unmask 0 (ws_maskKey s) bs)))
      | _, _ => None
      end
  end.

(** *** The request *)

Definition handshakeText (acceptKey : Text) : Text :=
  str "HTTP/1.1 101 Switching Protocols" ++ crlf ++ str "Upgrade: websocket" ++ crlf ++
  str "Connection: Upgrade" ++ crlf ++ str "Sec-WebSocket-Accept: " ++ acceptKey ++ crlf ++ crlf.

Definition completeHandshake (s : WsSession) (secWebSocketKey : Text) : option WsSession :=
  acceptKey ← computeAcceptKey secWebSocketKey;
  Some (setAwait s (AwaitHandshake (handshakeText acceptKey))).

Definition httpText (status contentType body : Text) : Text :=
  str "HTTP/1.1 " ++ status ++ crlf ++ str "Content-Type: " ++ contentType ++ crlf ++
  str "Content-Length: " ++ decimal 20 (Z.of_nat (length body)) ++ crlf ++
  str "Connection: close" ++ crlf ++ crlf ++ body.

Definition serveHttp (files : Text → option Text) (s : WsSession) (urlPath : Text) : WsSession :=
  let resp :=
    match load files urlPath with
    | Some (body, contentType) => httpText (str "200 OK") contentType body
    | None => httpText (str "404 Not Found") (str "text/plain") (str "not found" ++ [10])
    end in
  setAwait s (AwaitHttp resp).

Definition wantsUpgrade (headers : gmap Text Text) : bool :=
  match headers !! str "upgrade" with
  | Some v => bool_decide (toLower v = str "websocket")
  | None => false
  end.

Definition handleRequestLine (files : Text → option Text) (s : WsSession) (requestLine headerBlock : Text) :
    option WsSession :=
  let ws := words requestLine in
  let method := default [] (ws !! 0%nat) in
  let path := default [] (ws !! 1%nat) in
  let headers := parseHeaders headerBlock in
  match headers !! str "sec-websocket-key" with
  | Some k =>
      if bool_decide (method = str "GET") && wantsUpgrade headers then completeHandshake s k
      else Some (serveHttp files s path)
  | None => Some (serveHttp files s path)
  end.

(** The handler of [readHeaders]: [raw] is all that the buffer holds. *)
Definition onHeaders (files : Text → option Text) (s : WsSession) (r : option (list Z)) : option WsSession :=
  match r with
  | None => Some (closeAndStop s)
  | Some raw =>
      let '(requestLine, rest) := default (raw, []) (untilChar 10 raw) in
      handleRequestLine files s (dropCr requestLine) rest
  end.

(** The completion of the write of a reply. *)
Definition onReplyWritten (s : WsSession) (ok : bool) : WsSession :=
  match ws_await s with
  | AwaitHandshake _ =>
      if negb ok then closeAndStop s
      else mkWs AwaitFrameHeader (ws_opcode s) (ws_payloadLen s) (ws_maskKey s) (ws_payloadBuf s) (ws_pending s)
             (ws_queuedBytes s) (ws_writing s) true (ws_closed s) (ws_out s) 0
  | AwaitHttp _ => closeAndStop s
  | _ => s
  end.

(** ** The server *)

(** All sessions, and the list of the server as references to them. *)
Record WsServer := mkWsServer { wv_store : list WsSession; wv_sessions : list nat }.

Definition acceptWs (v : WsServer) : WsServer :=
  mkWsServer (wv_store v ++ [wsNew]) (wv_sessions v ++ [length (wv_store v)]).

Fixpoint broadcastTextLoop (store : list WsSession) (sessions : list nat) (payload : list Z) :
    option (list WsSession * list nat) :=
  match sessions with
  | [] => Some (store, [])
  | i :: rest =>
      s ← store !! i;
      if ws_closed s then broadcastTextLoop store rest payload
      else
        let store := if ws_isWs s then <[i := sendText s payload]> store else store in
        '(store, rest) ← broadcastTextLoop store rest payload;
        Some (store, i :: rest)
  end.

Definition broadcastText (v : WsServer) (payload : list Z) : option WsServer :=
  '(store, sessions) ← broadcastTextLoop (wv_store v) (wv_sessions v) payload;
  Some (mkWsServer store sessions).
End session.
