(* ===== verification/WsClaims.v ===== *)
(** The web server against RFC 6455: the handshake, the frames of the browser and the
    frames that the browser reads. *)
From Stdlib Require Import String.
From stdpp Require Import gmap.
From S2P Require Import Prelude Types Wire SegmentNames FeedServer Base64 Fips Sha256 Jwt AdminHttp Sha1 WsServer.

(** ** RFC 6455, 5.2 *)

(** The payload length behind the mask bit [m], in its shortest form. *)
Definition lengthBytes (m n : Z) : list Z :=
  if n <=? 125 then [m + n] else if n <=? 65535 then (m + 126) :: be 2 n else (m + 127) :: be 8 n.

(** A final frame from the server. *)
Definition rfcFrame (op : Z) (payload : list Z) : list Z :=
  (128 + op) :: lengthBytes 0 (Z.of_nat (length payload)) ++ payload.

(** A frame from the browser: its first byte, its masking key, its data. *)
Record ClientFrame := mkClientFrame { cf_first : Z; cf_mask : list Z; cf_payload : list Z }.

Definition opcodeOf (f : ClientFrame) : Z := cf_first f mod 16.

Definition clientBytes (f : ClientFrame) : list Z :=
  cf_first f :: lengthBytes 128 (Z.of_nat (length (cf_payload f))) ++ cf_mask f ++
  imap (λ i b, Z.lxor b (cf_mask f !!! (i mod 4)%nat)) (cf_payload f).

(** Control frames carry at most 125 bytes (5.5). *)
Record frame_ok (f : ClientFrame) : Prop := {
  fk_first : is_byte (cf_first f);
  fk_mask : length (cf_mask f) = 4%nat;
  fk_length : Z.of_nat (length (cf_payload f)) < 2 ^ 63;
  fk_control : opcodeOf f = 9 → Z.of_nat (length (cf_payload f)) <= 125
}.

Definition beValue (bs : list Z) : Z := foldl (λ v b, v * 256 + b) 0 bs.

(** What the browser does with the bytes it gets: opcode, data, rest. *)
Definition parseFrame (s : list Z) : option (Z * list Z * list Z) :=
  match s with
  | b0 :: b1 :: s =>
      if (128 <=? b0) && (b1 <? 128) then
        let '(n, s) :=
          if b1 <? 126 then (b1, s)
          else if b1 =? 126 then (beValue (take 2 s), drop 2 s) else (beValue (take 8 s), drop 8 s) in
        if n <=? Z.of_nat (length s) then Some (b0 mod 16, take (Z.to_nat n) s, drop (Z.to_nat n) s) else None
      else None
  | _ => None
  end.

(** All messages of a stream; [fuel] bounds their number. *)
Fixpoint clientView (fuel : nat) (s : list Z) : option (list (Z * list Z)) :=
  match s, fuel with
  | [], _ => Some []
  | _, O => None
  | _, S fuel' => '(op, p, rest) ← parseFrame s; v ← clientView fuel' rest; Some ((op, p) :: v)
  end.

(** ** Lengths *)

Lemma be_fold f a n v :
  (∀ a b, 0 <= a → is_byte b → (a + 1) * 256 <= 2 ^ 64 → f a b = a * 256 + b) →
  0 <= a → (a + 1) * 256 ^ Z.of_nat n <= 2 ^ 64 →
  foldl f a (be n v) = a * 256 ^ Z.of_nat n + v mod 256 ^ Z.of_nat n.
Proof.
  intros Hf. revert a. induction n as [|n IH]; intros a Ha Hb; cbn [be foldl].
  { rewrite Z.mod_1_r, Z.mul_1_r. lia. }
  rewrite Nat2Z.inj_succ, Z.pow_succ_r in * by lia.
  assert (Hp : 0 < 256 ^ Z.of_nat n) by (apply Z.pow_pos_nonneg; lia).
  set (d := Z.shiftr v (8 * Z.of_nat n) mod 256).
  assert (Hd : is_byte d) by (unfold is_byte, d; pose proof (Z.mod_pos_bound (Z.shiftr v (8 * Z.of_nat n)) 256); lia).
  assert (Hv : v mod (256 * 256 ^ Z.of_nat n) = d * 256 ^ Z.of_nat n + v mod 256 ^ Z.of_nat n).
  { unfold d. rewrite Z.shiftr_div_pow2 by lia. replace (2 ^ (8 * Z.of_nat n)) with (256 ^ Z.of_nat n)
      by (rewrite Z.pow_mul_r by lia; done).
    rewrite (Z.mul_comm 256), Z.rem_mul_r by lia. lia. }
  unfold is_byte in Hd. rewrite Hf by (unfold is_byte; nia). rewrite IH by nia. rewrite Hv. lia.
Qed.

Lemma beValue_be n v : (n <= 8)%nat → 0 <= v < 256 ^ Z.of_nat n → beValue (be n v) = v.
Proof.
  intros Hn Hv. unfold beValue. rewrite be_fold; [rewrite Z.mod_small; lia|done|lia|].
  rewrite Z.mul_1_l. etrans; [apply (Z.pow_le_mono_r 256 _ 8); lia|done].
Qed.

Lemma lor_length a b : 0 <= a → is_byte b → (a + 1) * 256 <= 2 ^ 64 → Z.lor (u64 (Z.shiftl a 8)) b = a * 256 + b.
Proof.
  intros Ha Hb Hm. unfold is_byte in Hb. rewrite u64_id by (rewrite Z.shiftl_mul_pow2 by lia; change (2 ^ 8) with 256; unfold in_u64; lia).
  rewrite lor_high by lia. done.
Qed.

Lemma length_code n v :
  (n <= 8)%nat → 0 <= v < 256 ^ Z.of_nat n → foldl (λ len b, Z.lor (u64 (Z.shiftl len 8)) b) 0 (be n v) = v.
Proof.
  intros Hn Hv. rewrite be_fold; [rewrite Z.mod_small; lia|intros; by apply lor_length|lia|].
  rewrite Z.mul_1_l. etrans; [apply (Z.pow_le_mono_r 256 _ 8); lia|done].
Qed.

Lemma pushLength_ok n len : pushLength n len = be n len.
Proof. induction n as [|n IH]; [done|]. cbn. by rewrite land_255, IH. Qed.

Lemma encodeTextFrame_ok p : encodeTextFrame p = rfcFrame 1 p.
Proof.
  unfold encodeTextFrame, rfcFrame, lengthBytes. cbv zeta. cbn [app]. rewrite !Z.add_0_l, pushLength_ok.
  destruct (_ <=? 125); [done|]. destruct (_ <=? 65535); [|done]. cbn [be app]. rewrite !land_255. by rewrite Z.shiftr_0_r.
Qed.

(** ** The browser reads what was framed *)

Lemma parseFrame_ok op p rest :
  0 <= op < 16 → Z.of_nat (length p) < 2 ^ 63 → parseFrame (rfcFrame op p ++ rest) = Some (op, p, rest).
Proof.
  intros Ho Hp. set (n := Z.of_nat (length p)) in *.
  assert (Hcut : ∀ b1 s, (128 <=? 128 + op) && (b1 <? 128) = (b1 <? 128) ∧
     (if n <=? Z.of_nat (length (p ++ s)) then Some ((128 + op) mod 16, take (Z.to_nat n) (p ++ s), drop (Z.to_nat n) (p ++ s)) else None)
       = Some (op, p, s)).
  { intros b1 s. rewrite (proj2 (Z.leb_le 128 (128 + op))) by lia. split; [done|].
    rewrite length_app, (proj2 (Z.leb_le _ _)) by lia. unfold n. rewrite Nat2Z.id, take_app_length, drop_app_length.
    do 3 f_equal. replace (128 + op) with (op + 8 * 16) by lia. rewrite Z.mod_add, Z.mod_small by lia. done. }
  unfold rfcFrame, lengthBytes. fold n. destruct (n <=? 125) eqn:E1; [|destruct (n <=? 65535) eqn:E2];
    cbn [app parseFrame]; rewrite (proj1 (Hcut _ rest)), Z.add_0_l.
  - rewrite (proj2 (Z.ltb_lt n 128)), (proj2 (Z.ltb_lt n 126)) by lia. apply (Hcut 0).
  - cbn [Z.ltb Z.eqb Z.compare Pos.compare Pos.compare_cont]. rewrite <- !app_assoc.
    rewrite take_app_length', drop_app_length' by by rewrite length_be.
    rewrite beValue_be by (cbn; lia). apply (Hcut 0).
  - cbn [Z.ltb Z.eqb Z.compare Pos.compare Pos.compare_cont Pos.eqb]. rewrite <- !app_assoc.
    rewrite take_app_length', drop_app_length' by by rewrite length_be.
    rewrite beValue_be by (cbn; lia). apply (Hcut 0).
Qed.

Definition message_ok (m : Z * list Z) : Prop := 0 <= m.1 < 16 ∧ Z.of_nat (length m.2) < 2 ^ 63.

Lemma clientView_ok fuel msgs :
  Forall message_ok msgs → (length msgs <= fuel)%nat →
  clientView fuel (concat ((λ m, rfcFrame m.1 m.2) <$> msgs)) = Some msgs.
Proof.
  intros Hm. revert fuel. induction Hm as [|[op p] msgs [Ho Hp] _ IH]; intros fuel Hf; [by destruct fuel|].
  destruct fuel as [|fuel]; [cbn in Hf; lia|]. cbn [fmap list_fmap concat fst snd].
  assert (Hne : ∃ x s, rfcFrame op p ++ concat ((λ m, rfcFrame m.1 m.2) <$> msgs) = x :: s) by (by do 2 eexists).
  destruct Hne as (x & s & Hs). rewrite Hs. cbn [clientView]. rewrite <- Hs, parseFrame_ok by done. simpl_bind.
  rewrite IH by (cbn in Hf; lia). done.
Qed.

(** ** The session reads what the browser framed *)

Lemma unmask_ok mask bs i :
  unmask i mask (imap (λ j b, Z.lxor b (mask !!! ((i + j) mod 4)%nat)) bs) = bs.
Proof.
  revert i. induction bs as [|b bs IH]; intros i; [done|]. cbn [imap unmask]. rewrite Nat.add_0_r. f_equal.
  - by rewrite Z.lxor_assoc, Z.lxor_nilpotent, Z.lxor_0_r.
  - rewrite <- (IH (S i)) at 2. f_equal. apply imap_ext. intros j x _. cbn. by rewrite Nat.add_succ_r.
Qed.

Lemma unmask_frame f : unmask 0 (cf_mask f) (imap (λ i b, Z.lxor b (cf_mask f !!! (i mod 4)%nat)) (cf_payload f)) = cf_payload f.
Proof. apply (unmask_ok (cf_mask f) (cf_payload f) 0). Qed.

Lemma land_masked n : 0 <= n < 128 → Z.land (128 + n) 127 = n ∧ (Z.land (128 + n) 128 =? 0) = false.
Proof.
  intros Hn. change 127 with (Z.ones 7). rewrite Z.land_ones by lia. split.
  - replace (128 + n) with (n + 1 * 2 ^ 7) by lia. rewrite Z.mod_add, Z.mod_small by lia. done.
  - apply Z.eqb_neq. intros H. assert (Hb : Z.testbit (Z.land (128 + n) 128) 7 = true).
    { rewrite Z.land_spec. replace (128 + n) with (n + 1 * 2 ^ 7) by lia.
      rewrite Z.testbit_eqb, Z.div_add, Z.div_small by lia. done. }
    by rewrite H in Hb.
Qed.

Definition masked (f : ClientFrame) : list Z := imap (λ i b, Z.lxor b (cf_mask f !!! (i mod 4)%nat)) (cf_payload f).

Definition frameLength (f : ClientFrame) : Z := Z.of_nat (length (cf_payload f)).

(** The handler that is awaited belongs to an upgraded session. *)
Definition upgraded (a : Await) : bool :=
  match a with AwaitHeaders | AwaitHandshake _ | AwaitHttp _ => false | _ => true end.

Definition frontOf (s : WsSession) : list Z := default [] (head (ws_pending s)).

Lemma sending_front s : upgraded (ws_await s) = true → sending s = frontOf s.
Proof. unfold sending. by destruct (ws_await s). Qed.

(** What a session has read of the frame [f], when it is in the middle of it. *)
Inductive in_frame (s : WsSession) (f : ClientFrame) (part : list Z) : Prop :=
  | at_header : ws_await s = AwaitFrameHeader → part = [] → in_frame s f part
  | at_length w :
      ws_await s = AwaitLength w → ws_opcode s = opcodeOf f → (w = 2 ∨ w = 8)%nat →
      frameLength f < 256 ^ Z.of_nat w →
      clientBytes f = part ++ be w (frameLength f) ++ cf_mask f ++ masked f → in_frame s f part
  | at_mask :
      ws_await s = AwaitMaskKey → ws_opcode s = opcodeOf f → ws_payloadLen s = frameLength f →
      clientBytes f = part ++ cf_mask f ++ masked f → in_frame s f part
  | at_payload :
      ws_await s = AwaitPayload → ws_opcode s = opcodeOf f → ws_payloadLen s = frameLength f →
      ws_maskKey s = cf_mask f → cf_payload f ≠ [] →
      clientBytes f = part ++ masked f → in_frame s f part.

(** The state in front of the frame's handler. *)
Definition framed (s : WsSession) (f : ClientFrame) : WsSession :=
  setFrame s (opcodeOf f) (frameLength f) (cf_mask f) (cf_payload f).

(** What reading a frame leaves as it is. *)
Definition same_queue (s s' : WsSession) : Prop :=
  ws_pending s' = ws_pending s ∧ ws_queuedBytes s' = ws_queuedBytes s ∧ ws_writing s' = ws_writing s ∧
  ws_isWs s' = ws_isWs s ∧ ws_closed s' = ws_closed s ∧ ws_out s' = ws_out s ∧ ws_sent s' = ws_sent s ∧
  ws_payloadBuf s' = ws_payloadBuf s.

Lemma masked_nil f : cf_payload f = [] → masked f = [].
Proof. intros H. unfold masked. by rewrite H. Qed.

Lemma length_masked f : length (masked f) = length (cf_payload f).
Proof. apply length_imap. Qed.

(** Bytes that continue a text are its next ones. *)
Lemma next_bytes {A} (part bs rest more l : list A) :
  (part ++ bs) ++ more = (part ++ l) ++ rest → length bs = length l → bs = l.
Proof. rewrite <- !app_assoc. intros H Hl. apply (inj (app part)) in H. by apply app_inj_1 in H as [? _]. Qed.

Section session.
Context (maxQueueBytes : Z).

(** The handler of a read: the next bytes of the frame, or the last ones. *)
Definition read_ok (s : WsSession) (f : ClientFrame) (part bs : list Z) : Prop :=
  ∃ s', onFrameRead maxQueueBytes s (Some bs) = Some s' ∧
    (same_queue s s' ∧ in_frame s' f (part ++ bs) ∧ (length (part ++ bs) < length (clientBytes f))%nat ∨
     part ++ bs = clientBytes f ∧ s' = handleFrame maxQueueBytes (framed s f)).

Lemma read_header s f bs rest more :
  frame_ok f → ws_await s = AwaitFrameHeader → length bs = 2%nat → bs ++ more = clientBytes f ++ rest → read_ok s f [] bs.
Proof.
  intros Hf Ha Hl He. pose proof Hf as [_ Hm Hlen _]. fold (frameLength f) in Hlen.
  assert (Hop : Z.land (cf_first f) 15 = opcodeOf f) by (change 15 with (Z.ones 4); by rewrite Z.land_ones).
  assert (Hcut : ∀ len7 tl, clientBytes f = [cf_first f; 128 + len7] ++ tl → bs = [cf_first f; 128 + len7]).
  { intros len7 tl E. apply (next_bytes [] bs (tl ++ rest) more); [|by rewrite Hl]. cbn [app]. by rewrite He, E. }
  unfold read_ok, onFrameRead. rewrite Ha. cbn [app].
  assert (Hext : ∀ len7 w, bs = [cf_first f; 128 + len7] → 0 <= len7 < 128 → (len7 = 126 ∧ w = 2%nat ∨ len7 = 127 ∧ w = 8%nat) →
    frameLength f < 256 ^ Z.of_nat w → clientBytes f = bs ++ be w (frameLength f) ++ cf_mask f ++ masked f →
    ∃ s', match bs with
      | [b0; b1] =>
        let s := setFrame s (Z.land b0 15) (ws_payloadLen s) (ws_maskKey s) (ws_payloadBuf s) in
        if Z.land b1 128 =? 0 then Some (closeAndStop s) else Some (readExtendedLength s b1)
      | _ => None end = Some s' ∧
      (same_queue s s' ∧ in_frame s' f bs ∧ (length bs < length (clientBytes f))%nat ∨
       bs = clientBytes f ∧ s' = handleFrame maxQueueBytes (framed s f))).
  { intros len7 w -> H7 Hw Hv Hcb. destruct (land_masked len7 H7) as [E7 ->]. eexists. split; [done|]. left.
    unfold readExtendedLength. rewrite E7, Hop. rewrite (proj2 (Z.leb_gt _ _)) by lia.
    split; [by destruct Hw as [[-> ->]|[-> ->]]|]. split; [|rewrite Hcb, length_app, length_app, length_be; cbn; lia].
    apply (at_length _ _ _ w); try done; [by destruct Hw as [[-> ->]|[-> ->]]|lia]. }
  assert (Hcb : clientBytes f = cf_first f :: lengthBytes 128 (frameLength f) ++ cf_mask f ++ masked f) by done.
  unfold lengthBytes in Hcb. destruct (frameLength f <=? 125) eqn:E1; [|destruct (frameLength f <=? 65535) eqn:E2].
  - assert (Hbs : bs = [cf_first f; 128 + frameLength f]) by (by apply (Hcut _ (cf_mask f ++ masked f))).
    destruct (land_masked (frameLength f)) as [E7 E8]; [unfold frameLength in *; lia|].
    rewrite Hbs. rewrite E8. eexists. split; [done|]. left. unfold readExtendedLength. rewrite E7, E1, Hop.
    split; [done|]. split; [by apply at_mask|]. rewrite Hcb. cbn. rewrite length_app, Hm. lia.
  - apply (Hext 126 2%nat); [by apply (Hcut _ (be 2 (frameLength f) ++ cf_mask f ++ masked f))|lia|by left|cbn; lia|].
    rewrite (Hcut 126 (be 2 (frameLength f) ++ cf_mask f ++ masked f)) by done. done.
  - apply (Hext 127 8%nat); [by apply (Hcut _ (be 8 (frameLength f) ++ cf_mask f ++ masked f))|lia|by right|cbn; lia|].
    rewrite (Hcut 127 (be 8 (frameLength f) ++ cf_mask f ++ masked f)) by done. done.
Qed.

Lemma read_next s f part bs rest more :
  frame_ok f → in_frame s f part → ws_payloadBuf s = [] → length bs = wanted s →
  (part ++ bs) ++ more = clientBytes f ++ rest → read_ok s f part bs.
Proof.
  intros Hf Hin Hbuf Hl He. pose proof Hf as [_ Hm Hlen _].
  destruct Hin as [Ha ->|w Ha Ho Hw Hv Hcb|Ha Ho Hp Hcb|Ha Ho Hp Hk Hne Hcb]; unfold wanted in Hl; rewrite Ha in Hl.
  - by eapply read_header.
  - assert (Hbs : bs = be w (frameLength f)).
    { apply (next_bytes part bs (cf_mask f ++ masked f ++ rest) more); [|by rewrite length_be].
      by rewrite He, Hcb, <- !app_assoc. }
    unfold read_ok, onFrameRead. rewrite Ha, Hbs. eexists. split; [done|]. left. split; [done|].
    rewrite length_code by (destruct Hw; unfold frameLength in *; lia). split.
    + apply at_mask; try done. by rewrite <- app_assoc.
    + rewrite Hcb, !length_app, Hm. lia.
  - assert (Hbs : bs = cf_mask f).
    { apply (next_bytes part bs (masked f ++ rest) more); [|by rewrite Hm]. by rewrite He, Hcb, <- !app_assoc. }
    unfold read_ok, onFrameRead. rewrite Ha, Hbs. eexists. split; [done|]. unfold readPayload. cbn [setFrame ws_payloadLen].
    rewrite Hp. destruct (decide (cf_payload f = [])) as [Hnil|Hne].
    + right. split; [by rewrite Hcb, (masked_nil f Hnil), app_nil_r|]. unfold framed, frameLength.
      rewrite Hnil. cbn [length Z.of_nat Z.eqb]. by rewrite Ho, Hbuf.
    + left. assert (Hz : frameLength f ≠ 0) by (unfold frameLength; by destruct (cf_payload f)).
      rewrite (proj2 (Z.eqb_neq _ 0)) by done. split; [done|]. split; [apply at_payload; try done; by rewrite <- app_assoc|].
      rewrite Hcb, !length_app, length_masked. destruct (cf_payload f); [done|cbn; lia].
  - assert (Hbs : bs = masked f).
    { apply (next_bytes part bs rest more); [by rewrite He, Hcb, <- !app_assoc|].
      rewrite length_masked, Hl, Hp. unfold frameLength. lia. }
    unfold read_ok, onFrameRead. rewrite Ha, Hbs. eexists. split; [done|]. right. split; [done|].
    rewrite Hk, unmask_frame. unfold framed. by rewrite Ho, Hp.
Qed.

(** The handler of a read that had completed when the session was closed. *)
Lemma read_closed s bs :
  ws_closed s = true → (0 < wanted s)%nat → length bs = wanted s →
  ∃ s', onFrameRead maxQueueBytes s (Some bs) = Some s' ∧ ws_closed s' = true ∧
    ws_pending s' = ws_pending s ∧ ws_queuedBytes s' = ws_queuedBytes s ∧ ws_writing s' = ws_writing s ∧
    ws_isWs s' = ws_isWs s ∧ ws_out s' = ws_out s ∧ ws_sent s' = ws_sent s ∧ upgraded (ws_await s') = true.
Proof.
  intros Hc Hw Hl.
  assert (Hh : ∀ s1, ws_closed s1 = true → ws_closed (handleFrame maxQueueBytes s1) = true ∧
    ws_pending (handleFrame maxQueueBytes s1) = ws_pending s1 ∧ ws_queuedBytes (handleFrame maxQueueBytes s1) = ws_queuedBytes s1 ∧
    ws_writing (handleFrame maxQueueBytes s1) = ws_writing s1 ∧ ws_isWs (handleFrame maxQueueBytes s1) = ws_isWs s1 ∧
    ws_out (handleFrame maxQueueBytes s1) = ws_out s1 ∧ ws_sent (handleFrame maxQueueBytes s1) = ws_sent s1 ∧
    upgraded (ws_await (handleFrame maxQueueBytes s1)) = true).
  { intros s1 H1. unfold handleFrame, enqueueRaw. rewrite H1. repeat (case_match; cbn in *); try done; congruence. }
  unfold wanted in *. unfold onFrameRead. destruct (ws_await s); try lia.
  - destruct bs as [|b0 [|b1 [|]]]; try done. destruct (_ =? 0); eexists; (split; [done|]); [done|].
    unfold readExtendedLength. by repeat case_match; cbn.
  - eexists. by split.
  - eexists. split; [done|]. unfold readPayload. case_match; [exact (Hh (setFrame _ _ _ _ _) Hc)|done].
  - eexists. split; [done|]. exact (Hh (setFrame _ _ _ _ _) Hc).
Qed.

(** ** A conversation *)

(** A read of the session completes, with bytes or an error; the program pushes a text; the
    socket takes bytes of the outstanding write; the write completes. *)
Inductive WsAct := WsRead (r : option (list Z)) | WsPush (payload : list Z) | WsSent (n : nat) | WsDone (ok : bool).

Definition wsAct (s : WsSession) (a : WsAct) : option WsSession :=
  match a with
  | WsRead r => onFrameRead maxQueueBytes s r
  | WsPush p => Some (sendText maxQueueBytes s p)
  | WsSent n => Some (wsTransferred s n)
  | WsDone ok => Some (wsWritten s ok)
  end.

Definition readBytes (a : WsAct) : list Z := match a with WsRead (Some bs) => bs | _ => [] end.
Definition bytesRead (acts : list WsAct) : list Z := concat (readBytes <$> acts).

(** What can happen to a session that has done [acts], while the browser sends the frames
    [fs]: a read gives as many bytes as it asked for, the next of the stream; a write
    completes without an error when its frame has gone out. *)
Definition act_ok (fs : list ClientFrame) (acts : list WsAct) (s : WsSession) (a : WsAct) : Prop :=
  match a with
  | WsRead r => (0 < wanted s)%nat ∧
      ∀ bs, r = Some bs → length bs = wanted s ∧ bytesRead acts ++ bs `prefix_of` concat (clientBytes <$> fs)
  | WsPush p => Z.of_nat (length p) < 2 ^ 62
  | WsSent _ => ws_writing s = true
  | WsDone ok => ws_writing s = true ∧ (ok = true → ws_sent s = length (sending s))
  end.

Inductive ws_reach (fs : list ClientFrame) (s0 : WsSession) : list WsAct → WsSession → Prop :=
  | ws_init : ws_reach fs s0 [] s0
  | ws_next acts s a s' :
      ws_reach fs s0 acts s → act_ok fs acts s a → wsAct s a = Some s' → ws_reach fs s0 (acts ++ [a]) s'.

(** *** What the browser is to read *)

(** How many frames are complete when [n] bytes have been read. *)
Fixpoint completed (n : nat) (fs : list ClientFrame) : nat :=
  match fs with
  | [] => 0
  | f :: fs' =>
      let k := length (clientBytes f) in if (k <=? n)%nat then S (completed (n - k) fs') else 0
  end.

(** The frames that an act completes. *)
Definition newFrames (fs : list ClientFrame) (acts : list WsAct) (a : WsAct) : list ClientFrame :=
  drop (completed (length (bytesRead acts)) fs) (take (completed (length (bytesRead (acts ++ [a]))) fs) fs).

(** Each text that is pushed, and a pong with the data of each ping. *)
Definition replies (fs : list ClientFrame) (acts : list WsAct) (a : WsAct) : list (Z * list Z) :=
  match a with
  | WsPush p => [(1, p)]
  | _ => (λ f, (10, cf_payload f)) <$> filter (λ f, opcodeOf f = 9) (newFrames fs acts a)
  end.

Fixpoint expectedFrom (fs : list ClientFrame) (before acts : list WsAct) : list (Z * list Z) :=
  match acts with
  | [] => []
  | a :: acts' => replies fs before a ++ expectedFrom fs (before ++ [a]) acts'
  end.

Definition expected (fs : list ClientFrame) (acts : list WsAct) : list (Z * list Z) := expectedFrom fs [] acts.

Definition frames (msgs : list (Z * list Z)) : list (list Z) := (λ m, rfcFrame m.1 m.2) <$> msgs.

(** What ends a session: a close frame, an error of the socket, or a reply for which the
    queue has no room. *)
Definition closes (fs : list ClientFrame) (acts : list WsAct) (s : WsSession) (a : WsAct) : bool :=
  existsb (λ f, opcodeOf f =? 8) (newFrames fs acts a) ||
  existsb (λ m, maxQueueBytes <? ws_queuedBytes s + Z.of_nat (length (rfcFrame m.1 m.2))) (replies fs acts a) ||
  match a with WsRead None | WsDone false => true | _ => false end.

(** *** Proofs *)

Lemma completed_app n done fs :
  completed (length (concat (clientBytes <$> done)) + n) (done ++ fs) = (length done + completed n fs)%nat.
Proof.
  revert n. induction done as [|f done IH]; intros n; [done|]. cbn [app completed fmap list_fmap concat length].
  rewrite length_app, (proj2 (Nat.leb_le _ _)) by lia. cbn. f_equal. rewrite <- IH. f_equal. lia.
Qed.

Lemma completed_part n f fs : (n < length (clientBytes f))%nat → completed n (f :: fs) = 0%nat.
Proof. intros H. cbn [completed]. by rewrite (proj2 (Nat.leb_gt _ _)). Qed.

Lemma bytesRead_snoc acts a : bytesRead (acts ++ [a]) = bytesRead acts ++ readBytes a.
Proof. unfold bytesRead. rewrite fmap_app, concat_app. cbn. by rewrite app_nil_r. Qed.

Lemma expectedFrom_snoc fs before acts a :
  expectedFrom fs before (acts ++ [a]) = expectedFrom fs before acts ++ replies fs (before ++ acts) a.
Proof.
  revert before. induction acts as [|b acts IH]; intros before; cbn [app expectedFrom].
  { by rewrite !app_nil_r. }
  by rewrite IH, <- app_assoc, <- app_assoc.
Qed.

Lemma expected_snoc fs acts a : expected fs (acts ++ [a]) = expected fs acts ++ replies fs acts a.
Proof. apply expectedFrom_snoc. Qed.

Lemma newFrames_none fs acts a : readBytes a = [] → newFrames fs acts a = [].
Proof. intros H. unfold newFrames. rewrite bytesRead_snoc, H, app_nil_r. apply drop_ge. rewrite length_take. lia. Qed.

(** A session that was upgraded: [pre] was written before, then the frames of [out] and a part
    of the next. *)
Record ws_queue (pre : list Z) (msgs : list (Z * list Z)) (out : list (list Z)) (s : WsSession) : Prop := {
  wq_prefix : out ++ ws_pending s `prefix_of` frames msgs;
  wq_open : ws_closed s = false → out ++ ws_pending s = frames msgs;
  wq_out : ws_out s = pre ++ concat out ++ take (ws_sent s) (frontOf s);
  wq_sent : (ws_sent s <= length (frontOf s))%nat;
  wq_queued : ws_queuedBytes s = bytesOf (ws_pending s);
  wq_bound : ws_queuedBytes s <= maxQueueBytes;
  wq_writing : ws_writing s = bool_decide (ws_pending s ≠ []);
  wq_isWs : ws_isWs s = true;
  wq_await : upgraded (ws_await s) = true
}.

(** Where an open session is in the stream of the browser. *)
Definition at_stream (fs : list ClientFrame) (rb : list Z) (s : WsSession) : Prop :=
  ws_payloadBuf s = [] ∧
  ∃ done rest, fs = done ++ rest ∧
    match rest with
    | [] => rb = concat (clientBytes <$> done) ∧ ws_await s = AwaitFrameHeader
    | f :: _ => ∃ part, rb = concat (clientBytes <$> done) ++ part ∧ in_frame s f part ∧
                  (length part < length (clientBytes f))%nat
    end.

Definition ws_ok (fs : list ClientFrame) (pre : list Z) (acts : list WsAct) (s : WsSession) : Prop :=
  (∃ out, ws_queue pre (expected fs acts) out s) ∧ (ws_closed s = false → at_stream fs (bytesRead acts) s).

Context (Hmax : 0 <= maxQueueBytes < 2 ^ 62).

Lemma ws_queue_more pre msgs more out s : ws_closed s = true → ws_queue pre msgs out s → ws_queue pre (msgs ++ more) out s.
Proof.
  intros Hc []. split; try done; [|congruence]. unfold frames in *. rewrite fmap_app. by apply prefix_app_r.
Qed.

Lemma close_queue pre msgs out s : ws_queue pre msgs out s → ws_queue pre msgs out (closeWs s).
Proof. intros []. by split. Qed.

(** A reply is queued, or ends the session. *)
Lemma enqueue_queue pre msgs out op p s :
  Z.of_nat (length (rfcFrame op p)) < 2 ^ 63 → ws_closed s = false → ws_queue pre msgs out s →
  ws_queue pre (msgs ++ [(op, p)]) out (enqueueRaw maxQueueBytes s (rfcFrame op p)) ∧
  ws_closed (enqueueRaw maxQueueBytes s (rfcFrame op p))
    = (maxQueueBytes <? ws_queuedBytes s + Z.of_nat (length (rfcFrame op p))) ∧
  ws_await (enqueueRaw maxQueueBytes s (rfcFrame op p)) = ws_await s ∧
  ws_payloadBuf (enqueueRaw maxQueueBytes s (rfcFrame op p)) = ws_payloadBuf s.
Proof using Hmax.
  intros Hp Hc Hq. pose proof Hq as [H1 H2 H3 H4 H5 H6 H7 H8 H9].  specialize (H2 Hc).
  pose proof (bytesOf_nonneg (ws_pending s)). unfold enqueueRaw. rewrite Hc. u64_small.
  destruct (maxQueueBytes <? _) eqn:E.
  { split; [|done]. apply ws_queue_more; [done|]. by apply close_queue. }
  assert (Hok : ws_queue pre (msgs ++ [(op, p)]) out
    (setQueue s (ws_pending s ++ [rfcFrame op p]) (ws_queuedBytes s + Z.of_nat (length (rfcFrame op p))) true)).
  { assert (Heq : out ++ ws_pending s ++ [rfcFrame op p] = frames (msgs ++ [(op, p)])).
    { unfold frames in *. by rewrite app_assoc, H2, fmap_app. }
    unfold frontOf in *. split; cbn -[rfcFrame bytesOf]; try done.
    - by rewrite Heq.
    - rewrite H3. unfold frontOf. cbn -[rfcFrame]. destruct (ws_pending s); [|done]. cbn in H4.
      by replace (ws_sent s) with 0%nat by lia.
    - unfold frontOf. cbn -[rfcFrame]. destruct (ws_pending s); [cbn in *; lia|done].
    - rewrite bytesOf_app, H5. cbn [bytesOf]. lia.
    - lia.
    - symmetry. apply bool_decide_eq_true. by destruct (ws_pending s). }
  cbn [setQueue ws_writing]. destruct (ws_writing s) eqn:Ew; [done|]. unfold doWriteWs. cbn [ws_pending setQueue].
  replace (match ws_pending s ++ [rfcFrame op p] with [] => false | _ => true end) with true; [done|].
  by destruct (ws_pending s).
Qed.
(** *** The steps *)

Lemma transferred_queue pre msgs out s n : ws_queue pre msgs out s → ws_queue pre msgs out (wsTransferred s n).
Proof.
  intros Hq. unfold wsTransferred. destruct (ws_closed s) eqn:Hc; [done|].
  destruct Hq as [H1 H2 H3 H4 H5 H6 H7 H8 H9]. rewrite (sending_front s H9).
  split; cbn; try done.
  - rewrite H3, <- !app_assoc. do 2 f_equal. by apply take_chunk.
  - change (frontOf (setOut _ _ _)) with (frontOf s). rewrite length_take, length_drop. lia.
Qed.

Lemma written_queue pre msgs out s ok :
  (ok = true → ws_sent s = length (sending s)) → ws_queue pre msgs out s → ∃ out', ws_queue pre msgs out' (wsWritten s ok).
Proof using Hmax.
  intros Hall Hq. unfold wsWritten. destruct ok; cbn [negb]; [|exists out; by apply close_queue]. specialize (Hall eq_refl).
  pose proof Hq as [H1 H2 H3 H4 H5 H6 H7 H8 H9]. rewrite (sending_front s H9) in Hall. unfold frontOf in *.
  destruct (ws_pending s) as [|f rest] eqn:Ep; [by exists out|].
  cbn [bytesOf head default from_option] in *. pose proof (bytesOf_nonneg rest). u64_small.
  assert (Heq : (out ++ [f]) ++ rest = out ++ f :: rest) by (by rewrite <- app_assoc).
  exists (out ++ [f]). split; cbn; rewrite ?Heq; try done; try lia; [|by destruct rest].
  rewrite H3, Hall, take_ge, take_0, app_nil_r by done. by rewrite concat_app, concat_cons, app_nil_r.
Qed.

Lemma queue_same pre msgs out s s' :
  ws_pending s' = ws_pending s → ws_queuedBytes s' = ws_queuedBytes s → ws_writing s' = ws_writing s →
  ws_isWs s' = ws_isWs s → (ws_closed s' = false → ws_closed s = false) → ws_out s' = ws_out s → ws_sent s' = ws_sent s →
  upgraded (ws_await s') = true → ws_queue pre msgs out s → ws_queue pre msgs out s'.
Proof.
  intros E1 E2 E3 E4 E5 E6 E7 E8 [H1 H2 H3 H4 H5 H6 H7 H8 H9].
  split; unfold frontOf in *; rewrite ?E1, ?E2, ?E3, ?E4, ?E6, ?E7; try done. intros Hc. by apply H2, E5.
Qed.

Definition overflows (s : WsSession) (m : Z * list Z) : bool :=
  maxQueueBytes <? ws_queuedBytes s + Z.of_nat (length (rfcFrame m.1 m.2)).

Definition pongs (f : ClientFrame) : list (Z * list Z) := if opcodeOf f =? 9 then [(10, cf_payload f)] else [].

(** The frame in the buffer does not matter to the queue. *)
Lemma enqueue_payload s o l m b b' frame :
  setFrame (enqueueRaw maxQueueBytes (setFrame s o l m b) frame) o l m b' = enqueueRaw maxQueueBytes (setFrame s o l m b') frame.
Proof.
  unfold enqueueRaw. cbn [setFrame ws_closed ws_queuedBytes]. destruct (ws_closed s); [done|].
  destruct (maxQueueBytes <? _); [done|]. cbn [setQueue setFrame ws_writing]. by destruct (ws_writing s).
Qed.

(** The handler of a frame. *)
Lemma frame_handled pre msgs out s f :
  frame_ok f → ws_closed s = false → ws_queue pre msgs out s →
  let s' := handleFrame maxQueueBytes (framed s f) in
  ws_queue pre (msgs ++ pongs f) out s' ∧
  ws_closed s' = (opcodeOf f =? 8) || existsb (overflows s) (pongs f) ∧
  (ws_closed s' = false → ws_await s' = AwaitFrameHeader ∧ ws_payloadBuf s' = []).
Proof using Hmax.
  intros Hf Hc Hq s'. unfold s', handleFrame, framed, pongs. cbn [ws_opcode setFrame]. clear s'.
  destruct (opcodeOf f =? 8) eqn:E8.
  { rewrite (proj2 (Z.eqb_neq _ 9)) by lia. rewrite app_nil_r. split; [|done]. by apply (queue_same _ _ _ s). }
  destruct (opcodeOf f =? 9) eqn:E9; cbn [ws_payloadBuf setFrame].
  2: { cbn [ws_closed setFrame]. rewrite Hc, app_nil_r. split; [by apply (queue_same _ _ _ s)|]. done. }
  set (b := setFrame s (opcodeOf f) (frameLength f) (cf_mask f) []).
  assert (Hpong : [0x8A; Z.land (Z.of_nat (length (cf_payload f))) 127] ++ cf_payload f = rfcFrame 10 (cf_payload f)).
  { pose proof (fk_control f Hf ltac:(lia)). unfold rfcFrame, lengthBytes. rewrite (proj2 (Z.leb_le _ _)) by lia.
    change 127 with (Z.ones 7). rewrite Z.land_ones, Z.mod_small by lia. done. }
  assert (Hlen : Z.of_nat (length (rfcFrame 10 (cf_payload f))) < 2 ^ 63).
  { pose proof (fk_control f Hf ltac:(lia)). unfold rfcFrame, lengthBytes. rewrite (proj2 (Z.leb_le _ _)) by lia. cbn. lia. }
  destruct (enqueue_queue pre msgs out 10 (cf_payload f) b Hlen Hc) as (Hb & Hcl & Haw & Hbuf);
    [apply (queue_same _ _ _ s); try done; apply Hq|].
  rewrite Hpong. cbn [existsb]. rewrite orb_false_l, orb_false_r. unfold overflows. cbn [fst snd].
  set (e := enqueueRaw _ (setFrame _ _ _ _ _) _).
  assert (Hfe : setFrame e (ws_opcode e) (ws_payloadLen e) (ws_maskKey e) [] = enqueueRaw maxQueueBytes b (rfcFrame 10 (cf_payload f))).
  { unfold b. rewrite <- (enqueue_payload s _ _ _ (cf_payload f) []). fold e.
    assert (Hsame : ws_opcode e = opcodeOf f ∧ ws_maskKey e = cf_mask f ∧ ws_payloadLen e = frameLength f).
    { unfold e, enqueueRaw. cbn [setFrame ws_closed]. repeat case_match; done. }
    by destruct Hsame as (-> & -> & ->). }
  rewrite Hfe. change (ws_queuedBytes b) with (ws_queuedBytes s) in Hcl. rewrite Hcl.
  destruct (maxQueueBytes <? _) eqn:Eo; cbn [ws_closed setAwait]; rewrite Hcl.
  - split; [|done]. by eapply queue_same; [..|exact Hb].
  - split; [by eapply queue_same; [..|exact Hb]|]. split; [done|]. intros _. split; [done|]. exact Hbuf.
Qed.

(** The frames that a read completes. *)
Lemma newFrames_at done f rest acts a part :
  bytesRead acts = concat (clientBytes <$> done) ++ part → (length part < length (clientBytes f))%nat →
  ((length (part ++ readBytes a) < length (clientBytes f))%nat → newFrames (done ++ f :: rest) acts a = []) ∧
  (part ++ readBytes a = clientBytes f → newFrames (done ++ f :: rest) acts a = [f]).
Proof.
  intros Hb Hp. unfold newFrames. rewrite bytesRead_snoc, Hb, <- app_assoc, !length_app, completed_app.
  rewrite (completed_part _ f rest Hp), Nat.add_0_r, <- length_app, completed_app. split; intros H.
  - rewrite (completed_part _ f rest H), Nat.add_0_r. apply drop_ge. rewrite length_take. lia.
  - rewrite H. cbn [completed]. rewrite Nat.leb_refl, Nat.sub_diag.
    replace (completed 0 rest) with 0%nat by (by destruct rest). rewrite take_app, take_ge by lia.
    rewrite drop_app_length. replace (length done + 1 - length done)%nat with 1%nat by lia. done.
Qed.

Lemma replies_read fs acts r : replies fs acts (WsRead r) = concat (pongs <$> newFrames fs acts (WsRead r)).
Proof.
  unfold replies. induction (newFrames fs acts (WsRead r)) as [|f l IH]; [done|]. cbn [fmap list_fmap concat].
  rewrite filter_cons, <- IH. unfold pongs. case_decide as E; [by rewrite E|]. by rewrite (proj2 (Z.eqb_neq _ _)).
Qed.

Definition step_ok fs pre acts s a : Prop :=
  ∃ s', wsAct s a = Some s' ∧ ws_ok fs pre (acts ++ [a]) s' ∧ ws_closed s' = ws_closed s || closes fs acts s a.

(** A read on an open session. *)
Lemma read_step fs pre acts s bs :
  Forall frame_ok fs → ws_ok fs pre acts s → ws_closed s = false → act_ok fs acts s (WsRead (Some bs)) →
  step_ok fs pre acts s (WsRead (Some bs)).
Proof using Hmax.
  intros Hfs [(out & Hq) Hat] Hc [Hw Hbs]. destruct (Hbs bs eq_refl) as [Hl [more Hpre]]. specialize (Hat Hc).
  destruct Hat as (Hbuf & done & rest & -> & Hat). rewrite fmap_app, concat_app in Hpre. destruct rest as [|f rest].
  { destruct Hat as [Hrb _]. rewrite Hrb, <- app_assoc in Hpre. apply (inj (app _)) in Hpre. cbn in Hpre.
    symmetry in Hpre. apply app_nil in Hpre as [-> _]. cbn in Hl. lia. }
  destruct Hat as (part & Hrb & Hin & Hpl). apply Forall_app in Hfs as [_ [Hf _]%Forall_cons].
  assert (He : (part ++ bs) ++ more = clientBytes f ++ concat (clientBytes <$> rest)).
  { rewrite Hrb, <- !app_assoc in Hpre. apply (inj (app _)) in Hpre. cbn in Hpre. by rewrite <- app_assoc. }
  destruct (read_next s f part bs _ _ Hf Hin Hbuf Hl He) as (s' & Hs & Hr).
  destruct (newFrames_at done f rest acts (WsRead (Some bs)) part Hrb Hpl) as [Hnone Hone]. cbn [readBytes] in *.
  exists s'. split; [exact Hs|]. unfold ws_ok, closes. rewrite expected_snoc, bytesRead_snoc, replies_read, Hc. cbn [readBytes orb].
  destruct Hr as [(Hsame & Hin' & Hlt)|[Hfull ->]].
  - rewrite (Hnone Hlt). cbn [fmap list_fmap concat existsb orb]. rewrite app_nil_r.
    destruct Hsame as (E1 & E2 & E3 & E4 & E5 & E6 & E7 & E8). split; [|by rewrite E5, Hc]. split.
    + exists out. apply (queue_same _ _ _ s); try done.
      by destruct Hin' as [ -> _ | ? -> _ | -> _ | -> _ ].
    + intros _. split; [congruence|]. exists done, (f :: rest). split; [done|]. exists (part ++ bs).
      by rewrite Hrb, <- app_assoc.
  - rewrite (Hone Hfull). cbn [fmap list_fmap concat existsb]. rewrite app_nil_r.
    destruct (frame_handled pre (expected (done ++ f :: rest) acts) out s f Hf Hc Hq) as (Hq' & Hcl & Hopen).
    split; [|rewrite Hcl, !orb_false_r; done]. split; [by exists out|]. intros Hc'. destruct (Hopen Hc') as [Ha Hb'].
    split; [done|]. exists (done ++ [f]), rest. split; [by rewrite <- app_assoc|].
    assert (Hrd : bytesRead acts ++ bs = concat (clientBytes <$> (done ++ [f]))).
    { rewrite fmap_app, concat_app, Hrb, <- app_assoc, Hfull. cbn. by rewrite app_nil_r. }
    destruct rest as [|f' rest]; [done|]. exists []. split; [by rewrite app_nil_r|]. split; [by apply at_header|].
    cbn. lia.
Qed.

Lemma acts_other fs acts a :
  readBytes a = [] → (∀ p, a ≠ WsPush p) → expected fs (acts ++ [a]) = expected fs acts ∧ bytesRead (acts ++ [a]) = bytesRead acts ∧
  ∀ s, closes fs acts s a = match a with WsRead None | WsDone false => true | _ => false end.
Proof.
  intros Hr Hp. rewrite expected_snoc, bytesRead_snoc, Hr, app_nil_r. unfold closes, replies.
  rewrite (newFrames_none fs acts a Hr). destruct a; try by rewrite app_nil_r. by destruct (Hp payload).
Qed.

Lemma rfcFrame_fits op p : Z.of_nat (length p) < 2 ^ 62 → Z.of_nat (length (rfcFrame op p)) < 2 ^ 63.
Proof.
  intros H. unfold rfcFrame, lengthBytes. cbn [length]. rewrite length_app. repeat case_match; cbn [length]; rewrite ?length_be; lia.
Qed.

Lemma push_step fs pre acts s p : ws_ok fs pre acts s → act_ok fs acts s (WsPush p) → step_ok fs pre acts s (WsPush p).
Proof using Hmax.
  intros [(out & Hq) Hat] Hp. unfold step_ok, ws_ok, closes. rewrite expected_snoc, bytesRead_snoc. cbn [wsAct readBytes].
  rewrite app_nil_r, newFrames_none by done. cbn [existsb orb replies fst snd]. rewrite !orb_false_r.
  eexists. split; [done|]. unfold sendText. rewrite (wq_isWs _ _ _ _ Hq). cbn [negb orb].
  destruct (ws_closed s) eqn:Hc.
  { split; [|done]. split; [|congruence]. exists out. by apply ws_queue_more. }
  rewrite encodeTextFrame_ok.
  destruct (enqueue_queue pre (expected fs acts) out 1 p s (rfcFrame_fits 1 p Hp) Hc Hq) as (Hq' & Hcl & Ha & Hb).
  split; [|done]. split; [by exists out|]. intros _. destruct (Hat eq_refl) as (H1 & done & rest & -> & H2).
  split; [by rewrite Hb|]. exists done, rest. split; [done|]. destruct rest as [|f rest]; [by rewrite Ha|].
  destruct H2 as (part & H2 & Hin & H3). exists part. split; [done|]. split; [|done].
  unfold enqueueRaw. destruct (ws_closed s); [done|]. case_match.
  - destruct Hin; [by apply at_header|by eapply at_length|by apply at_mask|by apply at_payload].
  - cbn [setQueue ws_writing]. case_match;
      (destruct Hin; [by apply at_header|by eapply at_length|by apply at_mask|by apply at_payload]).
Qed.

Lemma act_step fs pre acts s a :
  Forall frame_ok fs → ws_ok fs pre acts s → act_ok fs acts s a → step_ok fs pre acts s a.
Proof using Hmax.
  intros Hfs Hok Ha. pose proof Hok as [(out & Hq) Hat].
  assert (Hkeep : ∀ s', ws_await s' = ws_await s → ws_payloadBuf s' = ws_payloadBuf s → ws_opcode s' = ws_opcode s →
    ws_payloadLen s' = ws_payloadLen s → ws_maskKey s' = ws_maskKey s → ws_closed s = false → at_stream fs (bytesRead acts) s').
  { intros s' E1 E2 E3 E4 E5 Hc. destruct (Hat Hc) as (H1 & done & rest & -> & H2). split; [congruence|].
    exists done, rest. split; [done|]. destruct rest as [|f rest]; [by rewrite E1|]. destruct H2 as (part & H2 & Hin & H3).
    exists part. split; [done|]. split; [|done].
    destruct Hin; [apply at_header|eapply at_length|apply at_mask|apply at_payload]; try done; congruence. }
  destruct a as [[bs|]|p|n|ok].
  - destruct (ws_closed s) eqn:Hc; [|by apply read_step]. destruct Ha as [Hw Hbs]. destruct (Hbs bs eq_refl) as [Hl _].
    destruct (read_closed s bs Hc Hw Hl) as (s' & Hs & Hc' & E1 & E2 & E3 & E4 & E6 & E7 & E8). exists s'. split; [exact Hs|].
    split; [|by rewrite Hc, Hc']. split; [|congruence]. exists out. rewrite expected_snoc. apply ws_queue_more; [done|].
    apply (queue_same _ _ _ s); try done; congruence.
  - destruct (acts_other fs acts (WsRead None)) as (E1 & E2 & E3); [done..|]. eexists. split; [done|]. unfold ws_ok.
    rewrite E1, E2, E3, orb_true_r. split; [|done]. split; [|done]. exists out. by apply (queue_same _ _ _ s).
  - by apply push_step.
  - destruct (acts_other fs acts (WsSent n)) as (E1 & E2 & E3); [done..|]. eexists. split; [done|]. unfold ws_ok.
    rewrite E1, E2, E3, orb_false_r. split; [|unfold wsTransferred; by destruct (ws_closed s) eqn:Hc; rewrite ?Hc].
    split; [exists out; by apply transferred_queue|]. unfold wsTransferred. destruct (ws_closed s) eqn:Hc; [congruence|].
    intros _. by apply Hkeep.
  - destruct (acts_other fs acts (WsDone ok)) as (E1 & E2 & E3); [done..|]. eexists. split; [done|]. unfold ws_ok.
    rewrite E1, E2, E3. destruct Ha as [_ Hall]. destruct (written_queue _ _ _ _ ok Hall Hq) as [out' Hq'].
    assert (Hcl : ws_closed (wsWritten s ok) = ws_closed s || negb ok).
    { unfold wsWritten. destruct ok; cbn [negb]; [|by rewrite orb_true_r]. rewrite orb_false_r. by destruct (ws_pending s). }
    split; [|rewrite Hcl; by destruct ok]. split; [by exists out'|]. rewrite Hcl. intros [Hc Hk]%orb_false_iff.
    destruct ok; [|done]. unfold wsWritten. cbn [negb]. destruct (ws_pending s); [by apply Hkeep|]. by apply Hkeep.
Qed.

Lemma ws_reach_ok fs pre s0 acts s :
  Forall frame_ok fs → ws_ok fs pre [] s0 → ws_reach fs s0 acts s → ws_ok fs pre acts s.
Proof using Hmax.
  intros Hfs H0. induction 1 as [|acts s a s' _ IH Ha Hs]; [done|].
  destruct (act_step fs pre acts s a Hfs IH Ha) as (s1 & H1 & Hok & _). congruence.
Qed.
End session.

Lemma newFrames_in fs acts a : Forall frame_ok fs → Forall frame_ok (newFrames fs acts a).
Proof. intros H. by apply Forall_drop, Forall_take. Qed.

Lemma expected_ok maxQueueBytes fs s0 acts s :
  Forall frame_ok fs → ws_reach maxQueueBytes fs s0 acts s → Forall message_ok (expected fs acts).
Proof.
  intros Hfs. induction 1 as [|acts s a s' _ IH Ha _]; [constructor|]. rewrite expected_snoc. apply Forall_app_2; [done|].
  assert (Hpong : Forall message_ok ((λ f, (10, cf_payload f)) <$> filter (λ f, opcodeOf f = 9) (newFrames fs acts a))).
  { apply Forall_fmap, Forall_forall. intros f [Ho Hin]%list_elem_of_filter.
    pose proof (newFrames_in fs acts a Hfs) as Hn. rewrite Forall_forall in Hn. split; [done|]. by apply Hn. }
  destruct a; try exact Hpong. constructor; [|constructor]. split; [done|]. cbn in *. lia.
Qed.

(** ** The handshake *)

(** A request for an upgrade with the key [k]. *)
Definition upgrade_request (raw k : Text) : Prop :=
  let '(requestLine, rest) := default (raw, []) (untilChar 10 raw) in
  words (dropCr requestLine) !! 0%nat = Some (str "GET") ∧ wantsUpgrade (parseHeaders rest) = true ∧
  parseHeaders rest !! str "sec-websocket-key" = Some k.

Lemma acceptKey_ok k :
  bytes k → Z.of_nat (length k) < 2 ^ 60 →
  ∃ accept, computeAcceptKey k = Some accept ∧ base64Decode accept false = Some (fipsSha1 (k ++ kWsMagicGuid)).
Proof.
  intros Bk Hk. unfold computeAcceptKey. rewrite sha1_ok; [simpl_bind; apply base64_ok, digest_bytes| |].
  - apply Forall_app_2; [done|apply str_bytes].
  - rewrite length_app. change (length kWsMagicGuid) with 36%nat. lia.
Qed.

(** The session when its answer has gone out. *)
Definition handshaken (s : WsSession) : WsSession := onReplyWritten (wsTransferred s (length (sending s))) true.

Lemma handshake_ok files raw k maxQueueBytes fs :
  0 <= maxQueueBytes → upgrade_request raw k → bytes k → Z.of_nat (length k) < 2 ^ 60 → Forall frame_ok fs →
  ∃ accept s0, onHeaders files wsNew (Some raw) = Some s0 ∧
    base64Decode accept false = Some (fipsSha1 (k ++ kWsMagicGuid)) ∧ sending s0 = handshakeText accept ∧
    ws_ok maxQueueBytes fs (handshakeText accept) [] (handshaken s0).
Proof.
  intros Hmax Hr Bk Hk Hfs. destruct (acceptKey_ok k Bk Hk) as (accept & Ha & Hd). unfold onHeaders, upgrade_request in *.
  destruct (default (raw, []) (untilChar 10 raw)) as [requestLine rest]. destruct Hr as (Hm & Hu & Hkey).
  unfold handleRequestLine. rewrite Hm, Hu, Hkey. cbn [default from_option]. rewrite bool_decide_eq_true_2 by done.
  cbn [andb]. unfold completeHandshake. rewrite Ha. simpl_bind. exists accept. eexists. split; [done|]. split; [done|].
  split; [done|]. set (resp := handshakeText accept). clearbody resp. unfold handshaken, wsTransferred. cbn -[firstn skipn].
  split; [exists []|].
  - split; cbn; try done. by rewrite take_ge, app_nil_r.
  - intros _. split; [done|]. exists [], fs. split; [done|]. destruct fs as [|f fs]; [done|]. exists [].
    split; [done|]. split; [by apply at_header|]. cbn. lia.
Qed.

(** C36: WebSocket sessions follow RFC 6455.  A request for an upgrade is answered with the
    accept key of the RFC, the base64 text of the SHA-1 hash of FIPS 180-4 of the client's
    key of bytes and the fixed GUID.  After that the browser sends well-formed masked frames
    (pings of at most 125 bytes), of which the reads of the session get piece after
    piece, the program pushes texts, the socket takes the bytes of the writes in pieces, and
    reads and writes fail, in any order, under any queue bound below 2 ^ 62.  Every handler
    runs to its end.  The session is closed by a close frame, an error of the socket, or a
    text or pong for which the bounded queue has no room, and by nothing else.  The bytes
    that have gone out are the answer to the request, a number of whole frames and a part of
    the next, which is the front of the queue.  Read the way a browser reads them, the
    frames that went out and the queued ones are the first of the expected messages, and all
    of them as long as the session is open: each text pushed, and one pong with the same
    data for every ping, in order.  The queue is counted exactly and within its bound, and a
    write is outstanding exactly when something is queued. *)
Theorem ws_session_follows_rfc6455 maxQueueBytes files raw k fs :
  upgrade_request raw k → bytes k → Z.of_nat (length k) < 2 ^ 60 → 0 <= maxQueueBytes < 2 ^ 62 → Forall frame_ok fs →
  ∃ accept s0,
    onHeaders files wsNew (Some raw) = Some s0 ∧
    base64Decode accept false = Some (fipsSha1 (k ++ kWsMagicGuid)) ∧ sending s0 = handshakeText accept ∧
    ∀ acts s, ws_reach maxQueueBytes fs (handshaken s0) acts s →
      (∀ a, act_ok fs acts s a →
         ∃ s', wsAct maxQueueBytes s a = Some s' ∧ ws_closed s' = ws_closed s || closes maxQueueBytes fs acts s a) ∧
      ∃ out,
        ws_out s = handshakeText accept ++ concat out ++ take (ws_sent s) (frontOf s) ∧
        (let n := length (out ++ ws_pending s) in
         clientView n (concat (out ++ ws_pending s)) = Some (take n (expected fs acts)) ∧
         (ws_closed s = false → n = length (expected fs acts))) ∧
        ws_queuedBytes s = bytesOf (ws_pending s) ∧ ws_queuedBytes s <= maxQueueBytes ∧
        (ws_writing s = true ↔ ws_pending s ≠ []).
Proof.
  intros Hr Bk Hk Hmax Hfs.
  destruct (handshake_ok files raw k maxQueueBytes fs (proj1 Hmax) Hr Bk Hk Hfs) as (accept & s0 & H0 & Hd & Hs0 & Hok).
  exists accept, s0. split; [done|]. split; [done|]. split; [done|]. intros acts s Hreach.
  pose proof (ws_reach_ok maxQueueBytes Hmax fs _ _ acts s Hfs Hok Hreach) as Hws. split.
  { intros a Ha. destruct (act_step maxQueueBytes Hmax fs _ acts s a Hfs Hws Ha) as (s' & ? & _ & ?). by exists s'. }
  destruct Hws as [(out & [H1 H2 H3 H4 H5 H6 H7 H8 H9]) _]. exists out. split; [done|].
  assert (Hpre : out ++ ws_pending s = frames (take (length (out ++ ws_pending s)) (expected fs acts))).
  { destruct H1 as [more Hm]. unfold frames in *. rewrite fmap_take, Hm, take_app_length. done. }
  split; [split|].
  - rewrite Hpre at 2. apply clientView_ok; [|rewrite length_take; lia]. by apply Forall_take, (expected_ok maxQueueBytes fs (handshaken s0) acts s).
  - intros Hc. rewrite (H2 Hc). unfold frames. apply length_fmap.
  - split; [done|]. split; [done|]. rewrite H7. apply bool_decide_eq_true.
Qed.

(** ** The example of the RFC, and a short conversation *)

Definition demoUpgrade : Text :=
  str "GET /ws HTTP/1.1" ++ crlf ++ str "Upgrade: WebSocket" ++ crlf ++
  str "Sec-WebSocket-Key: dGhlIHNhbXBsZSBub25jZQ==" ++ crlf ++ crlf.

Definition demoPing : ClientFrame := mkClientFrame 0x89 [1; 2; 3; 4] (str "hello").
Definition demoClose : ClientFrame := mkClientFrame 0x88 [9; 9; 9; 9] [].

(** The reads of a short frame. *)
Definition readsOf (f : ClientFrame) : list WsAct :=
  [WsRead (Some (take 2 (clientBytes f))); WsRead (Some (take 4 (drop 2 (clientBytes f))))] ++
  (if bool_decide (cf_payload f = []) then [] else [WsRead (Some (drop 6 (clientBytes f)))]).

Definition demoTalk : list WsAct :=
  [WsPush (str "book")] ++ readsOf demoPing ++ [WsSent 4; WsSent 4; WsDone true; WsSent 3] ++ readsOf demoClose ++
  [WsPush (str "late"); WsDone false].

Definition canAct (fs : list ClientFrame) (acts : list WsAct) (s : WsSession) (a : WsAct) : bool :=
  match a with
  | WsRead r => (0 <? wanted s)%nat &&
      match r with
      | Some bs => (length bs =? wanted s)%nat && bool_decide (bytesRead acts ++ bs `prefix_of` concat (clientBytes <$> fs))
      | None => true
      end
  | WsPush p => Z.of_nat (length p) <? 2 ^ 62
  | WsSent _ => ws_writing s
  | WsDone ok => ws_writing s && (negb ok || (ws_sent s =? length (sending s))%nat)
  end.

Lemma canAct_ok fs acts s a : canAct fs acts s a = true → act_ok fs acts s a.
Proof.
  destruct a as [[bs|]|p|n|ok]; cbn [canAct act_ok].
  - intros [H1%Nat.ltb_lt [H2%Nat.eqb_eq H3%bool_decide_eq_true]%andb_true_iff]%andb_true_iff. split; [done|].
    by intros ? [= <-].
  - intros [H1%Nat.ltb_lt _]%andb_true_iff. by split.
  - lia.
  - done.
  - intros [H1 H2]%andb_true_iff. split; [done|]. intros ->. by apply Nat.eqb_eq.
Qed.

Fixpoint runTalk (max : Z) (fs : list ClientFrame) (before : list WsAct) (s : WsSession) (acts : list WsAct) : option WsSession :=
  match acts with
  | [] => Some s
  | a :: acts' => if canAct fs before s a then s ← wsAct max s a; runTalk max fs (before ++ [a]) s acts' else None
  end.

Lemma runTalk_reach max fs s0 before s acts s' :
  ws_reach max fs s0 before s → runTalk max fs before s acts = Some s' → ws_reach max fs s0 (before ++ acts) s'.
Proof.
  revert before s. induction acts as [|a acts IH]; intros before s Hr; cbn [runTalk].
  { intros [= <-]. by rewrite app_nil_r. }
  destruct (canAct fs before s a) eqn:E; [|done]. apply canAct_ok in E.
  destruct (wsAct max s a) as [s1|] eqn:Es; [|done]. simpl_bind. intros Hs.
  replace (before ++ a :: acts) with ((before ++ [a]) ++ acts) by (by rewrite <- app_assoc).
  eapply IH; [|done]. by eapply ws_next.
Qed.

Definition demoStart : WsSession := default wsNew (onHeaders (λ _, None) wsNew (Some demoUpgrade)).

(** The text has gone out as a whole and the pong in part when the close frame arrives. *)
Lemma ws_session_follows_rfc6455_witness :
  computeAcceptKey (str "dGhlIHNhbXBsZSBub25jZQ==") = Some (str "s3pPLMBiTxaQ9kYGzzhZRbK+xOo=") ∧
  take 2 (expected [demoPing; demoClose] demoTalk) = [(1, str "book"); (10, str "hello")] ∧
  ∃ accept s out,
    runTalk kDefaultMaxQueueBytes [demoPing; demoClose] [] (handshaken demoStart) demoTalk = Some s ∧
    ws_out s = handshakeText accept ++ concat out ++ take 3 (frontOf s) ∧ ws_closed s = true ∧
    clientView (length (out ++ ws_pending s)) (concat (out ++ ws_pending s))
      = Some (take (length (out ++ ws_pending s)) (expected [demoPing; demoClose] demoTalk)).
Proof.
  split; [by vm_compute|]. split; [by vm_compute|].
  destruct (ws_session_follows_rfc6455 kDefaultMaxQueueBytes (λ _, None) demoUpgrade (str "dGhlIHNhbXBsZSBub25jZQ==") [demoPing; demoClose])
    as (accept & s0 & H0 & _ & _ & H).
  - vm_compute. done.
  - apply str_bytes.
  - vm_compute. done.
  - vm_compute. done.
  - apply Forall_cons_2; [split; vm_compute; done|]. apply Forall_cons_2; [split; vm_compute; done|constructor].
  - assert (E0 : s0 = demoStart) by (unfold demoStart; rewrite H0; reflexivity). rewrite E0 in H. clear E0 H0 s0.
    destruct (runTalk kDefaultMaxQueueBytes [demoPing; demoClose] [] (handshaken demoStart) demoTalk) as [s|] eqn:Hs;
      [|vm_compute in Hs; discriminate Hs].
    pose proof (runTalk_reach _ _ _ [] _ _ _ (ws_init _ _ _) Hs) as Hr. destruct (H _ _ Hr) as (_ & out & H1 & [H2 _] & _).
    exists accept, s, out. split; [reflexivity|].
    assert (E : (λ s, (ws_closed s, ws_sent s)) <$> runTalk kDefaultMaxQueueBytes [demoPing; demoClose] [] (handshaken demoStart) demoTalk
      = Some (true, 3%nat)) by (vm_compute; reflexivity).
    rewrite Hs in E. injection E as Ec Es. rewrite Es in H1. split; [exact H1|]. split; [exact Ec|exact H2].
Defined.

(** ** Beyond the RFC's limit on pings *)

Definition openWs : WsSession := mkWs AwaitFrameHeader 0 0 [0; 0; 0; 0] [] [] 0 false true false [] 0.

Definition longPing : list Z := clientBytes (mkClientFrame 0x89 [1; 2; 3; 4] (replicate 130 7)).

(** A ping of more than 125 bytes is not refused; the pong carries its length modulo 128 in
    front of all of its data, and the browser can no longer read the stream. *)
Theorem long_ping_breaks_framing :
  ∃ s, (s ← wsAct kDefaultMaxQueueBytes openWs (WsRead (Some (take 2 longPing)));
        s ← wsAct kDefaultMaxQueueBytes s (WsRead (Some (take 2 (drop 2 longPing))));
        s ← wsAct kDefaultMaxQueueBytes s (WsRead (Some (take 4 (drop 4 longPing))));
        wsAct kDefaultMaxQueueBytes s (WsRead (Some (drop 8 longPing)))) = Some s ∧
    ws_closed s = false ∧ clientView 200 (concat (ws_pending s)) = None.
Proof. eexists. split; [vm_compute; reflexivity|]. by vm_compute. Qed.
