(* ===== verification/Telemetry.v ===== *)
(** Live latency figures: [telemetry/live_latency.hpp].

    The reader thread of the load generator owns a histogram and once a second publishes
    six figures through a sequence lock; any thread may load them.  The threads are
    interleaved step by step, a step being one access to shared memory; the copies of
    the snapshot are one step per field, so a load can see a half-written one.  As in the models of
    the rings, memory is sequentially consistent.  The histogram is a library: its operations are
    an interface. *)
From S2P Require Import Prelude.

(** ** The histogram's owner *)

(** [hdr_*] of HdrHistogram, and [rate], a double computed from the count. *)
Class Hdr (H R : Type) := {
  hdr_init : H;
  hdr_record_corrected_value : H → Z → Z → H;
  hdr_value_at_percentile : H → Z → Z;
  hdr_max : H → Z;
  hdr_reset : H → H;
  rate_of : Z → R
}.

(** The fields of [LatencySnapshot], in order. *)
Inductive Field (R : Type) := FieldInt (n : Z) | FieldRate (r : R).
Arguments FieldInt {R}.
Arguments FieldRate {R}.

Abbreviation LatencySnapshot R := (list (Field R)).

Section stats.
Context `{Hdr H R}.

Record LiveLatencyStats := mkStats { ls_hist : H; ls_windowCount : Z }.

Definition statsNew : LiveLatencyStats := mkStats hdr_init 0.

Definition record (s : LiveLatencyStats) (correctedSpanNs intervalNs : Z) : LiveLatencyStats :=
  mkStats (hdr_record_corrected_value (ls_hist s) (if correctedSpanNs <? 0 then 0 else correctedSpanNs) intervalNs)
    (u64 (ls_windowCount s + 1)).

(** The snapshot that [publishAndReset] computes; percentiles in tenths. *)
Definition snapshotOf (s : LiveLatencyStats) : LatencySnapshot R :=
  [FieldInt (hdr_value_at_percentile (ls_hist s) 500); FieldInt (hdr_value_at_percentile (ls_hist s) 990);
   FieldInt (hdr_value_at_percentile (ls_hist s) 999); FieldInt (hdr_max (ls_hist s));
   FieldInt (ls_windowCount s); FieldRate (rate_of (ls_windowCount s))].

Definition resetWindow (s : LiveLatencyStats) : LiveLatencyStats := mkStats (hdr_reset (ls_hist s)) 0.

(** A publication counts the spans recorded since the one before. *)
Lemma window_counts s spans intervalNs :
  Z.of_nat (length spans) < 18446744073709551616 →
  snapshotOf (foldl (λ s x, record s x intervalNs) (resetWindow s) spans) !! 4%nat = Some (FieldInt (Z.of_nat (length spans))).
Proof.
  intros Hl. cbn. do 2 f_equal.
  assert (Hc : ∀ s, 0 <= ls_windowCount s → ls_windowCount s + Z.of_nat (length spans) < 18446744073709551616 →
    ls_windowCount (foldl (λ s x, record s x intervalNs) s spans) = ls_windowCount s + Z.of_nat (length spans)).
  { clear Hl. induction spans as [|x spans IH]; intros s' Hz Hb; cbn [foldl length] in *; [lia|].
    assert (Hr : ls_windowCount (record s' x intervalNs) = ls_windowCount s' + 1) by (cbn; apply u64_id; unfold in_u64; lia).
    rewrite IH; rewrite Hr; lia. }
  rewrite Hc; cbn; lia.
Qed.
End stats.

(** ** The sequence lock *)

Section seqlock.
Context {F : Type}.

(** Where the publishing thread is: outside; writing [snap] from field [i] on, having read the
    version [v]. *)
Inductive Writer := WIdle | WFields (v : Z) (snap : list F) (i : nat).

(** Where a loading thread is. *)
Inductive Reader :=
  | RStart
  | RFields (v1 : Z) (out : list F)
  | RDone (out : list F).

Record Seqlock := mkSeqlock {
  sq_version : Z;
  sq_published : list F;
  sq_writer : Writer;
  sq_readers : list Reader
}.

Definition setReader (q : Seqlock) (t : nat) (r : Reader) : Seqlock :=
  mkSeqlock (sq_version q) (sq_published q) (sq_writer q) (<[t := r]> (sq_readers q)).

(** One access of [load]. *)
Definition loadStep (q : Seqlock) (r : Reader) : option Reader :=
  match r with
  | RStart => Some (if Z.land (sq_version q) 1 =? 0 then RFields (sq_version q) [] else RStart)
  | RFields v1 out =>
      if (length out <? length (sq_published q))%nat
      then x ← sq_published q !! length out; Some (RFields v1 (out ++ [x]))
      else Some (if sq_version q =? v1 then RDone out else RStart)
  | RDone _ => None
  end.

(** The first store of a publication; [snap] was computed before. *)
Definition publishBegin (q : Seqlock) (snap : list F) : Seqlock :=
  mkSeqlock (u64 (sq_version q + 1)) (sq_published q) (WFields (sq_version q) snap 0) (sq_readers q).

(** [published_ = snap], a field at a time, and the last store. *)
Definition publishStep (q : Seqlock) : option Seqlock :=
  match sq_writer q with
  | WIdle => None
  | WFields v snap i =>
      match snap !! i with
      | Some x => Some (mkSeqlock (sq_version q) (<[i := x]> (sq_published q)) (WFields v snap (S i)) (sq_readers q))
      | None => Some (mkSeqlock (u64 (v + 2)) (sq_published q) WIdle (sq_readers q))
      end
  end.

(** ** The threads, interleaved *)

(** A thread goes on with its load, calls [load] again, the owner begins to publish, the owner
    goes on.  [h] is what has been published, the initial value first. *)
Inductive sq_next : list (list F) * Seqlock → list (list F) * Seqlock → Prop :=
  | sq_load h q t r r' :
      sq_readers q !! t = Some r → loadStep q r = Some r' → sq_next (h, q) (h, setReader q t r')
  | sq_call h q t out : sq_readers q !! t = Some (RDone out) → sq_next (h, q) (h, setReader q t RStart)
  | sq_begin h q snap :
      sq_writer q = WIdle → length snap = length (sq_published q) → sq_next (h, q) (h, publishBegin q snap)
  | sq_write h q v snap i q' :
      sq_writer q = WFields v snap i → publishStep q = Some q' →
      sq_next (h, q) (if (i <? length snap)%nat then h else h ++ [snap], q').

Definition seqlockNew (init : list F) (threads : nat) : Seqlock := mkSeqlock 0 init WIdle (replicate threads RStart).

(** The version counts the publications. *)
Definition reader_ok (h : list (list F)) (q : Seqlock) (r : Reader) : Prop :=
  match r with
  | RStart => True
  | RFields v1 out => v1 <= sq_version q ∧ v1 mod 2 = 0 ∧ (sq_version q = v1 → out `prefix_of` sq_published q)
  | RDone out => out ∈ h
  end.

Record sq_ok (h : list (list F)) (q : Seqlock) : Prop := {
  so_hist : h ≠ [];
  so_writer :
    match sq_writer q with
    | WIdle => sq_version q = 2 * (Z.of_nat (length h) - 1) ∧ last h = Some (sq_published q)
    | WFields v snap i =>
        v = 2 * (Z.of_nat (length h) - 1) ∧ sq_version q = v + 1 ∧ length snap = length (sq_published q) ∧
        (i <= length snap)%nat ∧ take i (sq_published q) = take i snap
    end;
  so_readers : Forall (reader_ok h q) (sq_readers q)
}.

(** What thread [t] has seen since there were [n + 1] publications. *)
Definition fresh (n : nat) (t : nat) (h : list (list F)) (q : Seqlock) : Prop :=
  match sq_readers q !! t with
  | Some (RFields v1 _) => 2 * Z.of_nat n <= v1
  | Some (RDone out) => ∃ j, (n <= j)%nat ∧ h !! j = Some out
  | _ => True
  end.

Lemma land_1 v : (Z.land v 1 =? 0) = true ↔ v mod 2 = 0.
Proof. change 1 with (Z.ones 1) at 1. rewrite Z.land_ones by lia. apply Z.eqb_eq. Qed.

Lemma sq_init init threads : sq_ok [init] (seqlockNew init threads).
Proof. split; [done|done|]. apply Forall_replicate. done. Qed.

(** A check that succeeds comes while nobody writes. *)
Lemma check_idle h q v1 : sq_ok h q → sq_version q = v1 → v1 mod 2 = 0 → last h = Some (sq_published q) ∧ v1 = 2 * (Z.of_nat (length h) - 1).
Proof.
  intros [_ Hw _] Hv He. destruct (sq_writer q) as [|v snap i]; [destruct Hw as [Hw ?]; split; [done|lia]|].
  destruct Hw as (-> & Hv' & _). rewrite <- Hv, Hv' in He.
  replace (2 * (Z.of_nat (length h) - 1) + 1) with (1 + (Z.of_nat (length h) - 1) * 2) in He by lia.
  rewrite Z.mod_add in He by lia. done.
Qed.

Lemma loadStep_ok h q r r' : sq_ok h q → reader_ok h q r → loadStep q r = Some r' → reader_ok h q r'.
Proof.
  intros Hq Hr Hs. destruct r as [|v1 out|out]; cbn [loadStep] in Hs; [| |done].
  - injection Hs as <-. destruct (Z.land (sq_version q) 1 =? 0) eqn:E; [|done]. apply land_1 in E.
    split; [lia|]. split; [done|]. intros _. apply prefix_nil.
  - destruct Hr as (Hle & He & Hp). destruct (length out <? length (sq_published q))%nat eqn:El.
    + apply bind_Some in Hs as (x & Hx & [= <-]). split; [done|]. split; [done|]. intros Hv. specialize (Hp Hv).
      destruct Hp as [rest Hrest]. rewrite Hrest in Hx |- *. rewrite lookup_app_r, Nat.sub_diag in Hx by lia.
      destruct rest as [|y rest]; [done|]. injection Hx as <-. exists rest. by rewrite <- app_assoc.
    + apply Nat.ltb_ge in El. destruct (sq_version q =? v1) eqn:E; injection Hs as <-; [|done].
      apply Z.eqb_eq in E. destruct (check_idle h q v1 Hq E He) as [Hlast _].
      pose proof (prefix_length_eq _ _ (Hp E) El) as ->. cbn. apply last_Some in Hlast as [h' ->]. set_solver.
Qed.

Lemma setReader_ok h q t r : sq_ok h q → reader_ok h q r → sq_ok h (setReader q t r).
Proof. intros [H1 H2 H3] Hr. split; [done|done|]. by apply Forall_insert. Qed.

(** The store to the version makes every load in progress fail its check. *)
Lemma publishBegin_ok h q snap :
  sq_ok h q → Z.of_nat (length h) < 2 ^ 62 → sq_writer q = WIdle → length snap = length (sq_published q) →
  sq_ok h (publishBegin q snap).
Proof.
  intros [H1 H2 H3] Hb Hw Hl. rewrite Hw in H2. destruct H2 as [Hv Hlast].
  assert (length h ≠ 0%nat) by (by destruct h). unfold publishBegin. rewrite u64_id by (unfold in_u64; lia). split; cbn; [done|split_and!; (done || lia)|].
  eapply Forall_impl; [exact H3|]. intros [|v1 out|out]; cbn; [done| |done]. intros (Hle & He & Hp). split_and!; [lia|done|lia].
Qed.

Lemma publishStep_ok h q v snap i q' :
  sq_ok h q → Z.of_nat (length h) < 2 ^ 62 → sq_writer q = WFields v snap i → publishStep q = Some q' →
  sq_ok (if (i <? length snap)%nat then h else h ++ [snap]) q'.
Proof.
  intros [H1 H2 H3] Hb Hw Hs. unfold publishStep in Hs. rewrite Hw in H2, Hs. destruct H2 as (Hv & Hver & Hl & Hi & Ht).
  assert (length h ≠ 0%nat) by (by destruct h). assert (Hodd : ∀ v1, v1 mod 2 = 0 → v1 <= sq_version q → v1 <= v).
  { intros v1 He Hle. enough (v1 ≠ v + 1) by lia. intros ->. rewrite Hv in He.
    replace (2 * (Z.of_nat (length h) - 1) + 1) with (1 + (Z.of_nat (length h) - 1) * 2) in He by lia.
    rewrite Z.mod_add in He by lia. done. }
  destruct (snap !! i) as [x|] eqn:Ex.
  - rewrite (proj2 (Nat.ltb_lt _ _)) by (by eapply lookup_lt_Some). injection Hs as <-. split; cbn; [done| |].
    + rewrite length_insert. split_and!; try done; [apply lookup_lt_Some in Ex; lia|].
      apply lookup_lt_Some in Ex as Hlt. rewrite (take_S_r _ _ x), (take_S_r snap _ x) by (rewrite ?list_lookup_insert_eq by lia; done).
      by rewrite take_insert_ge, Ht by lia.
    + eapply Forall_impl; [exact H3|]. intros [|v1 out|out]; cbn; [done| |done]. intros (Hle & He & Hp).
      split_and!; [lia|done|]. intros Heq. specialize (Hodd v1 He Hle). lia.
  - apply lookup_ge_None in Ex. rewrite (proj2 (Nat.ltb_ge _ _)) by done. injection Hs as <-.
    rewrite u64_id by (unfold in_u64; lia). split; cbn; [by destruct h| |].
    + rewrite length_app, last_snoc. cbn. split; [lia|]. f_equal. rewrite <- (take_ge snap i), <- Ht by lia. apply take_ge. lia.
    + eapply Forall_impl; [exact H3|]. intros [|v1 out|out]; cbn; [done| |set_solver]. intros (Hle & He & Hp).
      split_and!; [lia|done|]. intros Heq. specialize (Hodd v1 He Hle). lia.
Qed.

Definition few (h : list (list F)) : Prop := Z.of_nat (length h) < 2 ^ 62.

Lemma sq_next_ok h q h' q' : sq_next (h, q) (h', q') → few h' → sq_ok h q → sq_ok h' q'.
Proof.
  unfold few. intros Hs Hb Hq. inversion Hs; subst.
  - apply setReader_ok; [done|]. eapply loadStep_ok; [done| |done].
    destruct Hq as [_ _ H3]. rewrite Forall_lookup in H3. by eapply H3.
  - by apply setReader_ok.
  - by apply publishBegin_ok.
  - eapply publishStep_ok; [done| |done|done]. destruct (_ <? _)%nat; [done|]. rewrite length_app in Hb. lia.
Qed.

Lemma lookup_last (h : list (list F)) x : last h = Some x → h !! pred (length h) = Some x.
Proof. intros [h' ->]%last_Some. rewrite length_app, Nat.add_comm. cbn. by rewrite list_lookup_middle. Qed.

Lemma loadStep_fresh n h q r r' :
  sq_ok h q → reader_ok h q r → (n < length h)%nat → loadStep q r = Some r' →
  (match r with RFields v1 _ => 2 * Z.of_nat n <= v1 | _ => True end) →
  match r' with
  | RFields v1 _ => 2 * Z.of_nat n <= v1
  | RDone out => ∃ j, (n <= j)%nat ∧ h !! j = Some out
  | RStart => True
  end.
Proof.
  intros Hq Hr Hn Hs Hf. destruct r as [|v1 out|out]; cbn [loadStep] in Hs; [| |done].
  - injection Hs as <-. destruct (Z.land (sq_version q) 1 =? 0); [|done].
    destruct Hq as [_ Hw _]. destruct (sq_writer q); [destruct Hw; lia|]. destruct Hw as (-> & -> & _). lia.
  - destruct Hr as (Hle & He & Hp). destruct (length out <? length (sq_published q))%nat eqn:El.
    { by apply bind_Some in Hs as (x & _ & [= <-]). }
    apply Nat.ltb_ge in El. destruct (sq_version q =? v1) eqn:E; injection Hs as <-; [|done]. apply Z.eqb_eq in E.
    destruct (check_idle h q v1 Hq E He) as [Hlast Hv1].
    pose proof (prefix_length_eq _ _ (Hp E) El) as ->. exists (pred (length h)). split; [lia|by apply lookup_last].
Qed.

Lemma sq_next_fresh n t h q h' q' :
  sq_next (h, q) (h', q') → sq_ok h q → (n < length h)%nat → fresh n t h q → fresh n t h' q'.
Proof.
  intros Hs Hq Hn Hf. pose proof (so_readers _ _ Hq) as Hrs. rewrite Forall_lookup in Hrs.
  unfold fresh in *. inversion Hs as [? ? t' r r' Hr Hl|? ? t' out Hr| |? ? v snap i ? Hw Hp]; subst; cbn [setReader sq_readers].
  - destruct (decide (t = t')) as [<-|Hne]; [|by rewrite list_lookup_insert_ne].
    rewrite list_lookup_insert_eq by (by eapply lookup_lt_Some). rewrite Hr in Hf.
    eapply loadStep_fresh; [done|by eapply Hrs|done|done|]. by destruct r.
  - destruct (decide (t = t')) as [<-|Hne]; [|by rewrite list_lookup_insert_ne].
    by rewrite list_lookup_insert_eq by (by eapply lookup_lt_Some).
  - done.
  - assert (Hsame : sq_readers q' = sq_readers q) by (unfold publishStep in Hp; rewrite Hw in Hp; by destruct (snap !! i); injection Hp as <-).
    rewrite Hsame. destruct (sq_readers q !! t) as [[| |out]|]; try done. destruct (_ <? _)%nat; [done|].
    destruct Hf as (j & Hj & Hh). exists j. split; [done|]. by apply lookup_app_l_Some.
Qed.

Lemma sq_next_grows h q h' q' : sq_next (h, q) (h', q') → (length h <= length h')%nat.
Proof. intros Hs. inversion Hs; subst; try lia. destruct (_ <? _)%nat; [lia|]. rewrite length_app. lia. Qed.

Lemma sq_steps_grow h q h' q' : rtc sq_next (h, q) (h', q') → (length h <= length h')%nat.
Proof.
  intros Hs. remember (h, q) as x eqn:Ex. remember (h', q') as y eqn:Ey. revert h q Ex.
  induction Hs as [x|x [h1 q1] y Hst _ IH]; intros h q ->; [by simplify_eq|].
  etrans; [by eapply sq_next_grows|by eapply IH].
Qed.

Lemma sq_steps_ok h q h' q' : rtc sq_next (h, q) (h', q') → few h' → sq_ok h q →
  sq_ok h' q' ∧ (length h <= length h')%nat ∧
  ∀ n t, (n < length h)%nat → fresh n t h q → fresh n t h' q'.
Proof.
  intros Hs Hb Hq. remember (h, q) as x eqn:Ex. remember (h', q') as y eqn:Ey. revert h q Ex Hq.
  induction Hs as [x|x [h1 q1] y Hstep Hs IH]; intros h q -> Hq; [by simplify_eq|].
  specialize (IH Ey h1 q1 eq_refl). pose proof (sq_next_grows _ _ _ _ Hstep) as Hg.
  assert (Hb1 : few h1).
  { subst y. apply sq_steps_grow in Hs. unfold few in *. lia. }
  destruct IH as (H1 & H2 & H3); [by eapply sq_next_ok|]. split; [done|]. split; [lia|].
  intros n t Hn Hf. apply H3; [lia|by eapply sq_next_fresh].
Qed.

(** An undisturbed load. *)
Fixpoint loadAlone (fuel : nat) (q : Seqlock) (r : Reader) : option (list F) :=
  match fuel, r with
  | _, RDone out => Some out
  | O, _ => None
  | S fuel', _ => r ← loadStep q r; loadAlone fuel' q r
  end.

Lemma loadAlone_fields q v out rest :
  sq_version q = v → sq_published q = out ++ rest → loadAlone (S (length rest)) q (RFields v out) = Some (sq_published q).
Proof.
  intros Hv. revert out. induction rest as [|x rest IH]; intros out Hp; cbn [loadAlone loadStep].
  - rewrite Hp, app_nil_r, (proj2 (Nat.ltb_ge _ _)) by lia. rewrite Hv, Z.eqb_refl. done.
  - rewrite Hp at 1. rewrite length_app, (proj2 (Nat.ltb_lt _ _)) by (cbn; lia).
    rewrite Hp at 1. rewrite list_lookup_middle by done. cbn [mbind option_bind]. rewrite <- IH with (out := out ++ [x]); [done|].
    by rewrite Hp, <- app_assoc.
Qed.

(** C39: loads of the live figures are atomic.  In every (sequentially consistent)
    interleaving of one publishing thread and any number of loading threads, a load that
    returns, returns the fields of one publication, and not of one that had been replaced
    before the load began; and while nothing is being published a load returns the latest
    publication after one access per field and two. *)
Theorem load_is_atomic init threads h q h' q' t :
  rtc sq_next ([init], seqlockNew init threads) (h, q) → rtc sq_next (h, q) (h', q') →
  Z.of_nat (length h') < 2 ^ 62 → sq_readers q !! t = Some RStart →
  (∀ out, sq_readers q' !! t = Some (RDone out) → ∃ j, (pred (length h) <= j)%nat ∧ h' !! j = Some out) ∧
  (sq_writer q' = WIdle → loadAlone (length (sq_published q') + 2) q' RStart = last h').
Proof.
  intros H1 H2 Hb Ht.
  assert (H12 : rtc sq_next ([init], seqlockNew init threads) (h', q')) by (by etrans).
  destruct (sq_steps_ok _ _ _ _ H12 Hb (sq_init init threads)) as ([_ Hw _] & _ & _).
  assert (Hb1 : few h).
  { unfold few. pose proof (sq_steps_grow _ _ _ _ H2). lia. }
  destruct (sq_steps_ok _ _ _ _ H1 Hb1 (sq_init init threads)) as (Hq & Hl & _).
  destruct (sq_steps_ok _ _ _ _ H2 Hb Hq) as (_ & _ & Hf). cbn in Hl.
  split.
  - intros out Ho. specialize (Hf (pred (length h)) t ltac:(lia)). unfold fresh in Hf. rewrite Ht, Ho in Hf. by apply Hf.
  - intros Hi. rewrite Hi in Hw. destruct Hw as [Hv ->]. rewrite Nat.add_comm. cbn [Nat.add loadAlone loadStep].
    rewrite (proj2 (land_1 _)) by (rewrite Hv, Z.mul_comm; apply Z.mod_mul; lia). cbn [mbind option_bind].
    by apply loadAlone_fields.
Qed.
End seqlock.

(** *** A load that is overtaken *)

(** A publication lands between the two fields of a load, which then starts over. *)
Definition demoSteps : list (list Z) * Seqlock :=
  ([[0; 0]; [7; 8]], mkSeqlock 2 [7; 8] WIdle [RDone [7; 8]]).

Lemma demo_overtaken : rtc sq_next ([[0; 0]], seqlockNew [0; 0] 1) demoSteps.
Proof.
  do 2 (eapply rtc_l; [eapply (sq_load _ _ 0); reflexivity|]; cbn).
  eapply rtc_l; [apply (sq_begin _ _ [7; 8]); reflexivity|]; cbn.
  eapply rtc_l; [eapply sq_write; reflexivity|]; cbn. eapply rtc_l; [eapply (sq_load _ _ 0); reflexivity|]; cbn.
  do 2 (eapply rtc_l; [eapply sq_write; reflexivity|]; cbn).
  do 5 (eapply rtc_l; [eapply (sq_load _ _ 0); reflexivity|]; cbn). apply rtc_refl.
Qed.

Lemma load_is_atomic_witness :
  (∀ out, sq_readers demoSteps.2 !! 0%nat = Some (RDone out) → ∃ j, (0 <= j)%nat ∧ demoSteps.1 !! j = Some out) ∧
  (sq_writer demoSteps.2 = WIdle → loadAlone 4 demoSteps.2 RStart = Some [7; 8]).
Proof.
  apply (load_is_atomic [0; 0] 1 [[0; 0]] (seqlockNew [0; 0] 1) demoSteps.1 demoSteps.2 0);
    [apply rtc_refl|exact demo_overtaken|done|done].
Defined.
