(* ===== verification/Credentials.v ===== *)
(** The credentials file of the gateway, [loadFromFile] of [gateway/auth.hpp], and the
    lines that [viz/stats_client.hpp] takes from its socket.

    [None] as the answer of [loadFromFile] means that it throws ([std::stoul] on text that
    is no number). *)
From Stdlib Require Import String.
From stdpp Require Import gmap.
From S2P Require Import Prelude Wire SegmentNames Session Base64 Jwt AdminHttp AdminClaims.

(** ** Reading a line *)

Fixpoint skipWs (s : Text) : Text :=
  match s with
  | [] => []
  | x :: s' => if isSpace x then skipWs s' else s
  end.

(** [iss >> id]; [None] is the fail bit. *)
Definition readInt (s : Text) : option (Z * Text) :=
  let s := skipWs s in
  let '(neg, ds) := match s with 45 :: s' => (true, s') | 43 :: s' => (false, s') | _ => (false, s) end in
  let run := takeWhile isDigit ds in
  let v := if neg : bool then - number run else number run in
  if bool_decide (run = []) || negb (bool_decide (in_i64 v)) then None else Some (v, drop (length run) ds).

(** [iss >> hex] *)
Definition readWord (s : Text) : option Text :=
  let w := takeWhile (λ x, negb (isSpace x)) (skipWs s) in
  if bool_decide (w = []) then None else Some w.

Definition hexValue (c : Z) : option Z :=
  if isDigit c then Some (c - 48)
  else if (97 <=? c) && (c <=? 102) then Some (c - 87)
  else if (65 <=? c) && (c <=? 70) then Some (c - 55)
  else None.

(** [static_cast<unsigned char>(std::stoul(hex.substr(i * 2, 2), nullptr, 16))]: a sign is taken,
    and what follows the digits is not looked at. *)
Definition hexByte (c1 c2 : Z) : option Z :=
  match hexValue c1, hexValue c2 with
  | Some h1, Some h2 => Some (16 * h1 + h2)
  | Some h1, None => Some h1
  | None, Some h2 => if c1 =? 43 then Some h2 else if c1 =? 45 then Some ((256 - h2) mod 256) else None
  | None, None => None
  end.

Fixpoint hexToken (hex : Text) : option (list Z) :=
  match hex with
  | c1 :: c2 :: hex' => b ← hexByte c1 c2; tok ← hexToken hex'; Some (b :: tok)
  | _ => Some []
  end.

(** ** The file *)

(** The loop over the lines: the answer, and the credentials. *)
Fixpoint loadLines (lines : list Text) (creds : Credentials) : option (bool * Credentials) :=
  match lines with
  | [] => Some (true, creds)
  | line :: lines' =>
      match line with
      | [] | 35 :: _ => loadLines lines' creds
      | _ =>
          match readInt line with
          | None => Some (false, creds)
          | Some (id, rest) =>
              match readWord rest with
              | None => Some (false, creds)
              | Some hex =>
                  if negb (length hex =? 64)%nat then Some (false, creds)
                  else tok ← hexToken hex; loadLines lines' (addCredential creds id tok)
              end
          end
      end
  end.

(** [None] as the file: it cannot be opened. *)
Definition loadFromFile (file : option Text) (creds : Credentials) : option (bool * Credentials) :=
  match file with
  | None => Some (false, creds)
  | Some content => loadLines (splitOn content 10) creds
  end.

(** ** A file that was written loads *)

Definition hexText (tok : list Z) : Text := concat ((λ b, [hexDigit (b / 16); hexDigit (b mod 16)]) <$> tok).

Definition credLine (c : Z * list Z) : Text := decimal 20 c.1 ++ str " " ++ hexText c.2 ++ [10].

Definition cred_ok (c : Z * list Z) : Prop := 0 <= c.1 <= INT64_MAX ∧ bytes c.2 ∧ length c.2 = 32%nat.

Lemma hexDigit_ok n : 0 <= n < 16 → hexValue (hexDigit n) = Some n ∧ isSpace (hexDigit n) = false ∧ hexDigit n ≠ 10.
Proof.
  intros Hn. unfold hexDigit, hexValue, isDigit, isSpace. destruct (n <? 10) eqn:E.
  - rewrite (proj2 (andb_true_iff _ _)) by lia. split; [f_equal; lia|lia].
  - rewrite (proj2 (andb_false_iff _ _)) by lia. rewrite (proj2 (andb_true_iff _ _)) by lia. split; [f_equal; lia|lia].
Qed.

Lemma hexToken_ok tok : bytes tok → hexToken (hexText tok) = Some tok.
Proof.
  induction 1 as [|b tok Hb _ IH]; [done|]. unfold is_byte in Hb. unfold hexText in *. cbn [fmap list_fmap concat app hexToken].
  unfold hexByte. destruct (hexDigit_ok (b / 16)) as [-> _]; [euclid|]. destruct (hexDigit_ok (b mod 16)) as [-> _]; [euclid|].
  simpl_bind. rewrite IH. simpl_bind. do 2 f_equal. euclid.
Qed.

Lemma hexText_chars tok : bytes tok → Forall (λ x, negb (isSpace x) = true ∧ x ≠ 10) (hexText tok).
Proof.
  induction 1 as [|b tok Hb _ IH]; [constructor|]. unfold is_byte in Hb. unfold hexText in *. cbn [fmap list_fmap concat app].
  destruct (hexDigit_ok (b / 16)) as (_ & H1 & H2); [euclid|]. destruct (hexDigit_ok (b mod 16)) as (_ & H3 & H4); [euclid|].
  constructor; [by rewrite H1|]. constructor; [by rewrite H3|done].
Qed.

Lemma length_hexText tok : length (hexText tok) = (2 * length tok)%nat.
Proof. induction tok as [|b tok IH]; [done|]. unfold hexText in *. cbn [fmap list_fmap concat app length]. lia. Qed.

Lemma readInt_ok n rest :
  0 <= n <= INT64_MAX → readInt (decimal 20 n ++ 32 :: rest) = Some (n, 32 :: rest).
Proof.
  intros Hn. pose proof (decimal_digits_only n Hn) as Hd. pose proof (decimal_nonempty n Hn) as Hne.
  destruct (decimal_number 20 n) as (Hnum & _); [unfold INT64_MAX in Hn; lia|lia|].
  unfold readInt. destruct (decimal 20 n) as [|x ds] eqn:Ed; [done|]. pose proof (Forall_inv Hd) as Hx. unfold isDigit in Hx.
  assert (Hsk : skipWs ((x :: ds) ++ 32 :: rest) = (x :: ds) ++ 32 :: rest).
  { cbn [app skipWs]. assert (isSpace x = false) as -> by (unfold isSpace; lia). done. }
  rewrite Hsk. cbn [app].
  assert (Hm : match x :: ds ++ 32 :: rest with 45 :: s' => (true, s') | 43 :: s' => (false, s') | _ => (false, x :: ds ++ 32 :: rest) end
    = (false, (x :: ds) ++ 32 :: rest)).
  { destruct (decide (x = 45)) as [->|]; [lia|]. destruct (decide (x = 43)) as [->|]; [lia|]. by repeat case_match; simplify_eq. }
  rewrite Hm, takeWhile_ok by done. rewrite Hnum, (bool_decide_eq_false_2 (_ :: _ = [])) by done.
  rewrite bool_decide_eq_true_2 by (unfold in_i64, INT64_MIN in *; lia).
  cbn [orb negb]. by rewrite drop_app_length.
Qed.

Lemma readWord_ok w : w ≠ [] → Forall (λ x, negb (isSpace x) = true) w → readWord (32 :: w) = Some w.
Proof.
  intros Hne Hw. unfold readWord. change (skipWs (32 :: w)) with (skipWs w).
  destruct w as [|x w]; [done|]. pose proof (Forall_inv Hw) as Hx. cbv beta in Hx.
  cbn [skipWs]. destruct (isSpace x) eqn:E; [done|].
  by rewrite takeWhile_all, bool_decide_eq_false_2.
Qed.

Lemma loadLines_cons c lines creds :
  cred_ok c → loadLines ((decimal 20 c.1 ++ str " " ++ hexText c.2) :: lines) creds = loadLines lines (addCredential creds c.1 c.2).
Proof.
  intros (Hn & Hb & Hl). pose proof (readInt_ok c.1 (hexText c.2) Hn) as Hr. pose proof (decimal_digits_only c.1 Hn) as Hd.
  pose proof (decimal_nonempty c.1 Hn) as Hne. cbn [loadLines]. change (str " " ++ hexText c.2) with (32 :: hexText c.2).
  destruct (decimal 20 c.1) as [|x ds] eqn:Ed; [done|]. pose proof (Forall_inv Hd) as Hx. unfold isDigit in Hx. cbn [app] in *.
  assert (Hm : ∀ (a b : option (bool * Credentials)), match x :: ds ++ 32 :: hexText c.2 with [] | 35 :: _ => a | _ => b end = b).
  { intros a b. destruct (decide (x = 35)) as [->|]; [lia|]. by repeat case_match; simplify_eq. }
  rewrite Hm, Hr, readWord_ok, length_hexText, Hl; [|by intros E%(f_equal length); rewrite length_hexText, Hl in E|].
  - cbn [Nat.mul Nat.add Nat.eqb negb]. by rewrite hexToken_ok.
  - eapply Forall_impl; [by apply hexText_chars|]. by intros x' [].
Qed.

(** Participants written to a file with their tokens can log in with these. *)
Lemma credentials_load cs creds :
  Forall cred_ok cs →
  loadFromFile (Some (concat (credLine <$> cs))) creds = Some (true, foldl (λ m c, addCredential m c.1 c.2) creds cs).
Proof.
  intros Hc. cbn [loadFromFile]. revert creds. induction Hc as [|c cs Hok _ IH]; intros creds; [done|].
  cbn [fmap list_fmap concat foldl]. unfold credLine at 1. rewrite <- !app_assoc. rewrite (app_assoc (str " ")), (app_assoc (decimal 20 c.1)).
  rewrite splitOn_app; [by rewrite loadLines_cons|].
  pose proof Hok as (Hn & Hb & _). rewrite !not_elem_of_app. split_and!; [by apply number_no| |].
  - by apply avoids_not_in, str_avoids.
  - apply avoids_not_in. eapply Forall_impl; [by apply hexText_chars|]. by intros x [].
Qed.

(** A character that is no hex digit passes in the second place of a byte, and makes the start
    throw in the first; neither is answered with false. *)
Theorem bad_hex_is_not_refused :
  loadFromFile (Some (str "1 " ++ concat (replicate 32 (str "1g")))) ∅ = Some (true, {[1 := replicate 32 1]}) ∧
  loadFromFile (Some (str "1 " ++ concat (replicate 32 (str "g1")))) ∅ = None.
Proof. split; by vm_compute. Qed.

(** ** Lines from a socket *)

(** The loop of [doRead]: the lines handed on, and what stays in [partial_]. *)
Fixpoint takeLines (fuel : nat) (partial : Text) : list Text * Text :=
  match fuel with
  | O => ([], partial)
  | S fuel' =>
      match untilChar 10 partial with
      | None => ([], partial)
      | Some (line, rest) =>
          let '(lines, partial) := takeLines fuel' rest in
          (if bool_decide (line = []) then lines else line :: lines, partial)
      end
  end.

(** A read of [chunk]; each turn of the loop removes a character. *)
Definition onStatsRead (partial chunk : Text) : list Text * Text :=
  let partial := partial ++ chunk in takeLines (length partial) partial.

Fixpoint onStatsReads (partial : Text) (chunks : list Text) : list Text * Text :=
  match chunks with
  | [] => ([], partial)
  | c :: chunks' =>
      let '(ls, partial) := onStatsRead partial c in
      let '(ls', partial) := onStatsReads partial chunks' in (ls ++ ls', partial)
  end.

(** The lines of a text without the empty ones, and what follows the last line feed. *)
Definition linesOf (s : Text) : list Text * Text :=
  (filter (λ l, l ≠ []) (removelast (splitOn s 10)), default [] (last (splitOn s 10))).

Lemma splitOn_line s ch :
  match untilChar ch s with
  | None => splitOn s ch = [s]
  | Some (l, r) => splitOn s ch = l :: splitOn r ch ∧ (length r < length s)%nat
  end.
Proof.
  induction s as [|x s IH]; [done|]. cbn. destruct (x =? ch); [split; [done|lia]|].
  destruct (untilChar ch s) as [[l r]|]; cbn [mbind option_bind]; [destruct IH as [-> ?]; split; [done|lia]|by rewrite IH].
Qed.

Lemma removelast_cons {A} (x : A) l : l ≠ [] → removelast (x :: l) = x :: removelast l.
Proof. by destruct l. Qed.

Lemma takeLines_ok fuel s : (length s <= fuel)%nat → takeLines fuel s = linesOf s.
Proof.
  revert s. induction fuel as [|fuel IH]; intros s Hf; [by destruct s; [|cbn in Hf; lia]|]. cbn [takeLines].
  pose proof (splitOn_line s 10) as Hs. unfold linesOf. destruct (untilChar 10 s) as [[l r]|]; [|by rewrite Hs].
  destruct Hs as [-> Hr]. rewrite IH by lia. unfold linesOf. rewrite removelast_cons by apply splitOn_nonempty.
  rewrite last_cons. destruct (last (splitOn r 10)) eqn:El; [|by apply last_None, splitOn_nonempty in El].
  rewrite filter_cons. case_bool_decide; [by rewrite decide_False by naive_solver|by rewrite decide_True].
Qed.

Lemma splitOn_more s t d :
  splitOn (s ++ t) d = removelast (splitOn s d) ++ splitOn (default [] (last (splitOn s d)) ++ t) d.
Proof.
  induction s as [|x s IH]; [done|]. cbn [app splitOn]. destruct (x =? d) eqn:E.
  - rewrite IH, removelast_cons, last_cons by apply splitOn_nonempty.
    destruct (last (splitOn s d)) eqn:El; [done|by apply last_None, splitOn_nonempty in El].
  - rewrite IH. destruct (splitOn s d) as [|p [|p' ps]] eqn:Es; [by apply splitOn_nonempty in Es| |].
    + cbn -[splitOn]. cbn [splitOn]. by rewrite E.
    + rewrite !(removelast_cons _ (p' :: ps)) by done. done.
Qed.

Lemma linesOf_app s t :
  linesOf (s ++ t) = ((linesOf s).1 ++ (linesOf ((linesOf s).2 ++ t)).1, (linesOf ((linesOf s).2 ++ t)).2).
Proof.
  unfold linesOf. cbn [fst snd]. rewrite splitOn_more. set (r := default [] _ ++ t).
  rewrite removelast_app by apply splitOn_nonempty. rewrite filter_app. f_equal.
  rewrite last_app. destruct (last (splitOn r 10)) eqn:El; [done|by apply last_None, splitOn_nonempty in El].
Qed.

(** However the socket cuts the stream, the lines handed on are those of the stream. *)
Lemma stats_lines chunks : onStatsReads [] chunks = linesOf (concat chunks).
Proof.
  assert (H : ∀ p, linesOf p = ([], p) → onStatsReads p chunks = linesOf (p ++ concat chunks)).
  { induction chunks as [|c chunks IH]; intros p Hp; [by rewrite app_nil_r|]. cbn [onStatsReads concat].
    unfold onStatsRead. rewrite takeLines_ok by done. rewrite app_assoc, (linesOf_app (p ++ c)).
    destruct (linesOf (p ++ c)) as [ls r] eqn:E. cbn [fst snd].
    assert (Hr : linesOf r = ([], r)).
    { pose proof (linesOf_app (p ++ c) []) as Ha. rewrite app_nil_r, E in Ha. cbn [fst snd] in Ha. rewrite app_nil_r in Ha.
      destruct (linesOf r) as [l1 r1]. injection Ha as Hl <-. cbn [fst snd] in Hl.
      rewrite <- (app_nil_r ls) in Hl at 1. apply app_inv_head in Hl. by subst. }
    rewrite (IH r Hr). by destruct (linesOf (r ++ concat chunks)). }
  by apply H.
Qed.
