(* ===== verification/Workload.v ===== *)
(** The load generator's order flow: [benchmark/loadgen/workload.hpp].

    The generator promises that a run never grows the book, however long it lasts, so
    that the pool is never exhausted and the figures are those of matching.  The
    theorem shows this for both workloads on the engine path, and that the reader of
    the path sees exactly one completion per command. *)
From S2P Require Import Prelude Types PriceLevel LevelMap OrderBook AbstractBook BookRepr BookRefine BookSpec BookProps.
From S2P Require Import Events MatchingThread.

Definition kMid : Z := 100 * kPriceScale.
Definition kTick : Z := kPriceScale / 100.
Definition kThinGap : Z := 5 * kPriceScale.

Inductive Workload := Dense | Thin.

#[export] Instance Workload_eq_dec : EqDecision Workload.
Proof. solve_decision. Defined.

(** [BookConfig cfg;] with four fields assigned: the policy stays the default. *)
Definition makeConfig : BookConfig :=
  mkConfig (1 * kPriceScale) (200 * kPriceScale) kTick (Z.shiftl 1 20) (cfg_stp defaultConfig).

Definition steadyStateCommand (id : Z) (rest : bool) : Command :=
  mkCommand id 0 (kMid - kTick) 10 (if rest then 2 else 3) KNew (if rest then Buy else Sell) Limit.

(** The two orders of one turn of [populate], submitted to the book directly. *)
Definition populateOrder (id price : Z) (side : Side) : NewOrder := mkNew id price 100 1 side Limit.

Fixpoint populate (levels : nat) (i : Z) (book : OrderBook) (id : Z) (buf : TradeBuffer) :
    option (OrderBook * Z * TradeBuffer) :=
  match levels with
  | O => Some (book, id, buf)
  | S levels' =>
      '(book, buf, _) ← submit book (populateOrder id (kMid - kTick * i) Buy) (Buffer.clear buf);
      '(book, buf, _) ← submit book (populateOrder (id + 1) (kMid + kTick * i) Sell) (Buffer.clear buf);
      populate levels' (i + 1) book (id + 2) buf
  end.

(** [for (int i = 1; i <= 50; ++i)], from [i] on for [levels] turns. *)
Fixpoint densePopulation (levels : nat) (i nextId : Z) : list Command * Z :=
  match levels with
  | O => ([], nextId)
  | S levels' =>
      let '(cmds, id) := densePopulation levels' (i + 1) (nextId + 2) in
      (mkCommand nextId 0 (kMid - kTick * i) 100 1 KNew Buy Limit ::
       mkCommand (nextId + 1) 0 (kMid + kTick * i) 100 1 KNew Sell Limit :: cmds, id)
  end.

(** [for (Price p = kMid; p >= 1 * kPriceScale; p -= kThinGap)] *)
Fixpoint thinPopulation (fuel : nat) (p nextId : Z) : option (list Command * Z) :=
  match fuel with
  | O => None
  | S fuel' =>
      if 1 * kPriceScale <=? p then
        '(cmds, id) ← thinPopulation fuel' (p - kThinGap) (nextId + 1);
        Some (mkCommand nextId 0 p 10 1 KNew Buy Limit :: cmds, id)
      else Some ([], nextId)
  end.

Definition populationCommands (w : Workload) (nextId : Z) : option (list Command * Z) :=
  match w with
  | Dense => Some (densePopulation 50 1 nextId)
  | Thin => thinPopulation 21 kMid nextId
  end.

Definition thinTopPrice : Z := kMid.

Record SteadyStateGenerator := mkGenerator { sg_workload : Workload; sg_topPrice : Z; sg_counter : Z }.

Definition generatorNew (w : Workload) (thinTop : Z) : SteadyStateGenerator := mkGenerator w thinTop 0.

Definition genNext (g : SteadyStateGenerator) (id : Z) : Command * SteadyStateGenerator :=
  let first := sg_counter g mod 2 =? 0 in
  let g' := mkGenerator (sg_workload g) (sg_topPrice g) (u64 (sg_counter g + 1)) in
  (match sg_workload g with
   | Dense => steadyStateCommand id first
   | Thin =>
       if first then mkCommand id 0 (1 * kPriceScale) 10 2 KNew Sell Limit
       else mkCommand id 0 (sg_topPrice g) 10 1 KNew Buy Limit
   end, g').

(** The commands of [n] turns of the sending loop. *)
Fixpoint steady (n : nat) (g : SteadyStateGenerator) (nextId : Z) : list Command :=
  match n with
  | O => []
  | S n' => let '(cmd, g) := genNext g nextId in cmd :: steady n' g (nextId + 1)
  end.

(** [EnginePath::handle]: what the reader makes of an event, the id it completes and
    whether the order was refused for lack of room. *)
Definition handle (ev : OutboundEvent) : option (Z * bool) :=
  match e_payload ev with
  | OrderUpdateEvent u =>
      Some (u_orderId u,
        match e_action ev with
        | Rejected => bool_decide (e_status ev = RejectedPoolExhausted)
        | _ => false
        end)
  | _ => None
  end.

(** [runReader] on the events of the ring: the completions in order. *)
Definition runReader (evs : list OutboundEvent) : list (Z * bool) := omap handle evs.

(** ** One order-update per command *)

Lemma reader_trades q ts : runReader (tradeEvents q ts) = [].
Proof. induction ts; [done|exact IHts]. Qed.

(** A New command without victims completes once, under its own id. *)
Lemma reader_new q cmd out :
  out_victims out = [] → r_status (out_result out) ≠ RejectedPoolExhausted →
  runReader (events q cmd (AnsNew out)) = [(cm_id cmd, false)].
Proof.
  intros Hv Hs. cbn [events]. unfold runReader. rewrite Hv, !omap_app. fold (runReader (tradeEvents q (out_trades out))).
  rewrite reader_trades. cbn [victimEvents fmap list_fmap omap list_omap app].
  assert (Hst : omap handle (if bool_decide (r_status (out_result out) ≠ Ok)
    then [statusEvent (cm_id cmd) (r_status (out_result out)) q] else []) = []) by (by case_bool_decide).
  rewrite Hst. unfold fateEvent. destruct (r_rested (out_result out)); [done|].
  cbn. by rewrite bool_decide_eq_false_2.
Qed.

(** ** A generator whose commands keep an invariant *)

Section steady.
(** [Inv first id a]: the book before a command with id [id]. *)
Context (w : Workload) (Inv : bool → Z → ABook → Prop) (bound : nat).

Definition command (first : bool) (id : Z) : Command :=
  (genNext (mkGenerator w thinTopPrice (if first then 0 else 1)) id).1.

Record keeps : Prop := {
  kp_size first id a : Inv first id a → (length (aresting a) <= bound)%nat;
  kp_step first id a : Inv first id a →
    let out := asubmit makeConfig a (toNewOrder (command first id)) in
    Inv (negb first) (id + 1) (out_book out) ∧ (length (out_trades out) <= 1)%nat ∧ out_victims out = [] ∧
    r_status (out_result out) = Ok
}.
Context (HI : keeps).

Lemma genNext_command c id :
  genNext (mkGenerator w thinTopPrice c) id = (command (c mod 2 =? 0) id, mkGenerator w thinTopPrice (u64 (c + 1))).
Proof. unfold command, genNext. cbn [sg_counter sg_workload sg_topPrice fst]. by destruct (c mod 2 =? 0). Qed.

Lemma command_new first id : cm_kind (command first id) = KNew ∧ cm_id (command first id) = id.
Proof. unfold command, genNext. by destruct w, first. Qed.

Lemma parity_next c : (u64 (c + 1) mod 2 =? 0) = negb (c mod 2 =? 0).
Proof.
  unfold u64. rewrite Z.mod_mod_divide by (by exists (2 ^ 63)).
  rewrite Z.add_mod by done. pose proof (Z.mod_pos_bound c 2). destruct (c mod 2 =? 0) eqn:E.
  - assert (c mod 2 = 0) as -> by lia. done.
  - assert (c mod 2 = 1) as -> by lia. done.
Qed.

Lemma steady_run n c id q a :
  Inv (c mod 2 =? 0) id a →
  let cmds := steady n (mkGenerator w thinTopPrice c) id in
  fits makeConfig a cmds = true ∧ length cmds = n ∧
  runReader (arun makeConfig q a cmds).2 = ((λ cmd, (cm_id cmd, false)) <$> cmds) ∧
  (length (aresting (arun makeConfig q a cmds).1) <= bound)%nat.
Proof using HI.
  revert c id q a. induction n as [|n IH]; intros c id q a Ha; cbn [steady].
  { split_and!; try done. by apply (kp_size HI _ _ _ Ha). }
  rewrite genNext_command. cbn [fits arun fst snd length fmap list_fmap].
  destruct (kp_step HI _ _ _ Ha) as (Ha' & Ht & Hv & Hs). destruct (command_new (c mod 2 =? 0) id) as [Hk Hid].
  rewrite <- parity_next in Ha'. set (cmd := command (c mod 2 =? 0) id) in *.
  assert (Hx : aanswer makeConfig a cmd = AnsNew (asubmit makeConfig a (toNewOrder cmd))) by (unfold aanswer; by rewrite Hk).
  rewrite Hx. cbn [ans_book]. set (out := asubmit makeConfig a (toNewOrder cmd)) in *.
  destruct (IH (u64 (c + 1)) (id + 1) (s64 (q + 1)) (out_book out) Ha') as (H1 & H2 & H3 & H4).
  split; [|split; [by rewrite H2|split; [|exact H4]]].
  - rewrite H1. unfold fitsOne. cbn [ans_trades ans_victims]. rewrite Hv. unfold kTradeBufCapacity. cbn [length].
    apply andb_true_iff. split; [|done]. apply andb_true_iff. split; lia.
  - unfold runReader in *. rewrite omap_app, H3. f_equal.
    pose proof (reader_new (s64 (q + 1)) cmd out Hv) as Hr. unfold runReader in Hr. rewrite Hr; [done|by rewrite Hs].
Qed.
End steady.

(** Accepting a limit order of the generator. *)
Lemma accepted a cmd :
  0 < cm_quantity cmd → ainRange makeConfig (cm_price cmd) = true → cm_type cmd = Limit →
  Forall (λ o, ao_id o < cm_id cmd) (aresting a) → asubmit makeConfig a (toNewOrder cmd) = aexecute makeConfig a (toNewOrder cmd).
Proof.
  intros Hq Hr Ht Hids. unfold asubmit, averdict. cbn [toNewOrder n_quantity n_type n_price n_id].
  destruct (cm_quantity cmd <=? 0) eqn:E; [lia|]. rewrite Ht, Hr. cbn [negb andb].
  rewrite (bool_decide_eq_false_2 (Limit = Market)) by done.
  rewrite (bool_decide_eq_false_2 (Limit = Fok)) by done. cbn [negb andb].
  rewrite bool_decide_eq_false_2; [done|]. intros Hf. apply Hf, afind_None. intros o Ho Hid.
  rewrite Forall_forall in Hids. specialize (Hids o Ho). lia.
Qed.

(** ** The dense workload *)

(** The price at which the flow trades. *)
Definition touch : Z := kMid - kTick.

(** An order at the touch, which a sell order of ten lots can take in one trade. *)
Definition lots (o : AOrder) : Prop :=
  ao_price o = touch ∧ ao_participant o ≠ 3 ∧ 10 <= ao_remaining o ∧ ao_remaining o mod 10 = 0.

Record dense (first : bool) (id : Z) (a : ABook) : Prop := {
  dn_bids : ∃ q rest, ab_bids a = q ++ rest ∧ Forall lots q ∧ total q = (if first then 100 else 110) ∧
    Forall (λ o, ao_price o < touch) rest ∧ length rest = 49%nat;
  dn_asks : Forall (λ o, touch < ao_price o) (ab_asks a) ∧ length (ab_asks a) = 50%nat;
  dn_ids : Forall (λ o, ao_id o < id) (aresting a)
}.

Lemma lots_total q : Forall lots q → 10 * Z.of_nat (length q) <= total q.
Proof. induction 1 as [|o q (_ & _ & H & _) _ IH]; [done|]. cbn [total foldr length] in *. fold (total q). lia. Qed.

Lemma arest_between s o q rest :
  Forall (λ x, noWorse s (ao_price x) (ao_price o) = true) q →
  Forall (λ x, noWorse s (ao_price x) (ao_price o) = false) rest → arest s o (q ++ rest) = q ++ o :: rest.
Proof.
  induction 1 as [|x q Hx _ IH]; intros Hr; cbn [app arest].
  - destruct Hr as [|y rest Hy _]; [done|]. cbn [arest]. by rewrite Hy.
  - rewrite Hx. by rewrite IH.
Qed.

Lemma ids_next (id : Z) (os : list AOrder) : Forall (λ o, ao_id o < id) os → Forall (λ o, ao_id o < id + 1) os.
Proof. intros H. eapply Forall_impl; [exact H|]. simpl. lia. Qed.

Lemma amatch_uncrossed inc tid rem os :
  Forall (λ o, crosses (n_type inc) (n_side inc) (n_price inc) (ao_price o) = false) os → 0 < rem →
  ∃ oc, amatch CancelAggressor inc tid rem os = mkAMatch os [] [] rem tid oc ∧ oc ≠ StpFired.
Proof.
  intros Hf Hr. destruct Hf as [|o os Ho _]; [by exists Exhausted|]. cbn [amatch]. rewrite Ho.
  destruct (0 <? rem) eqn:E; [|lia]. by exists NoLongerCrosses.
Qed.

(** A limit order that meets nobody rests. *)
Lemma rests a cmd :
  cm_type cmd = Limit → 0 < cm_quantity cmd → Z.of_nat (length (aresting a)) < cfg_maxOrders makeConfig →
  Forall (λ o, crosses Limit (cm_side cmd) (cm_price cmd) (ao_price o) = false) (aside a (opposite (cm_side cmd))) →
  ∃ o, let out := aexecute makeConfig a (toNewOrder cmd) in
    out_trades out = [] ∧ out_victims out = [] ∧ r_status (out_result out) = Ok ∧
    aside (out_book out) (cm_side cmd) = arest (cm_side cmd) o (aside a (cm_side cmd)) ∧
    aside (out_book out) (opposite (cm_side cmd)) = aside a (opposite (cm_side cmd)) ∧
    ao_id o = cm_id cmd ∧ ao_price o = cm_price cmd ∧ ao_remaining o = cm_quantity cmd ∧
    ao_participant o = cm_participant cmd.
Proof.
  intros Ht Hq Hroom Hf. exists (newAOrder (toNewOrder cmd) (cm_quantity cmd) (s64 (ab_seq a + 1))).
  assert (Hm : ∃ oc, amatched makeConfig a (toNewOrder cmd)
    = mkAMatch (aside a (opposite (cm_side cmd))) [] [] (cm_quantity cmd) (ab_tid a) oc ∧ oc ≠ StpFired).
  { apply amatch_uncrossed; [|done]. cbn [toNewOrder n_type n_side n_price]. by rewrite Ht. }
  destruct Hm as (oc & Hm & Hoc). unfold aexecute, aafter. rewrite Hm. unfold adispose. cbn [am_outcome am_remaining am_rest am_tid am_trades am_victims].
  assert (Hsame : set_aside a (opposite (cm_side cmd)) (aside a (opposite (cm_side cmd))) = a) by (by destruct a, (cm_side cmd)).
  cbn [toNewOrder n_side n_type n_quantity]. rewrite Hsame, Ht.
  assert (Hlen : length (aresting (set_acounters a (s64 (ab_seq a + 1)) (ab_tid a))) = length (aresting a)) by done.
  destruct (0 <? cm_quantity cmd) eqn:E; [|lia]. rewrite Hlen.
  destruct (Z.of_nat (length (aresting a)) <? cfg_maxOrders makeConfig) eqn:E2; [|lia].
  destruct oc; [| |done]; cbn [out_trades out_victims out_book out_result r_status]; by destruct (cm_side cmd).
Qed.

Lemma dense_buy id a : dense true id a →
  let out := asubmit makeConfig a (toNewOrder (steadyStateCommand id true)) in
  dense false (id + 1) (out_book out) ∧ (length (out_trades out) <= 1)%nat ∧ out_victims out = [] ∧
  r_status (out_result out) = Ok.
Proof.
  intros [(q & rest & Hb & Hq & Ht & Hr & Hl) [Ha Hla] Hids]. pose proof (lots_total q Hq) as Hlen.
  rewrite accepted by done.
  destruct (rests a (steadyStateCommand id true)) as (o & H1 & H2 & H3 & H4 & H5 & Ho); [done|done| | |].
  { unfold aresting. rewrite Hb, !length_app, Hl, Hla. vm_compute (cfg_maxOrders makeConfig). lia. }
  { cbn [steadyStateCommand cm_side cm_price opposite aside]. eapply Forall_impl; [exact Ha|]. intros x Hx.
    by apply Z.leb_gt. }
  set (out := aexecute _ _ _) in *. cbn [steadyStateCommand cm_side opposite aside cm_id cm_price cm_quantity cm_participant] in *.
  destruct Ho as (I1 & I2 & I3 & I4). fold touch in I2. rewrite Hb, (arest_between Buy) in H4.
  2: { eapply Forall_impl; [exact Hq|]. intros x (Hx & _). cbn. lia. }
  2: { eapply Forall_impl; [exact Hr|]. intros x Hx. cbn in *. lia. }
  split; [|split_and!; [rewrite H1; simpl; lia|done|done]]. split.
  - exists (q ++ [o]), rest. rewrite H4, <- app_assoc. split; [done|]. split; [|split; [|done]].
    + apply Forall_app_2; [done|]. constructor; [|done]. split; [done|]. rewrite I3, I4. done.
    + rewrite total_app. cbn. lia.
  - by rewrite H5.
  - unfold aresting in *. rewrite H4, H5. rewrite Hb in Hids. apply ids_next in Hids. rewrite !Forall_app, Forall_cons in *.
    split; [split; [tauto|split; [lia|tauto]]|tauto].
Qed.

(** Ten lots from the head of the queue at the touch. *)
Lemma take_lots inc tid o q rest :
  Forall lots (o :: q) → n_type inc = Limit → n_side inc = Sell → n_price inc <= touch → n_participant inc = 3 →
  let r := amatch CancelAggressor inc tid 10 (o :: q ++ rest) in
  am_remaining r = 0 ∧ am_outcome r ≠ StpFired ∧ am_victims r = [] ∧ length (am_trades r) = 1%nat ∧
  ∃ q', am_rest r = q' ++ rest ∧ Forall lots q' ∧ total q' = total (o :: q) - 10 ∧
    (∀ x, x ∈ q' → ∃ y, y ∈ o :: q ∧ ao_id x = ao_id y).
Proof.
  intros [(Hp & Hpa & H10 & Hm) Hq]%Forall_cons Hty Hsd Hpr Hpt. cbn [amatch]. rewrite Hty, Hsd. cbn [Z.ltb Z.compare negb crosses].
  destruct (n_price inc <=? ao_price o) eqn:E; [|lia]. cbn [negb]. rewrite Hpt.
  destruct (ao_participant o =? 3) eqn:E3; [lia|]. rewrite Z.min_l by lia. destruct (ao_remaining o - 10 =? 0) eqn:E0.
  - assert (Hnil : amatch CancelAggressor inc (s64 (tid + 1)) (10 - 10) (q ++ rest) =
      mkAMatch (q ++ rest) [] [] 0 (s64 (tid + 1)) Exhausted) by (by destruct (q ++ rest)).
    rewrite Hnil. cbn. split_and!; try done. exists q. split_and!; [done|done|cbn; fold (total q); lia|].
    intros x Hx. exists x. split; [by right|done].
  - cbn. split_and!; try done. exists (with_aremaining o (ao_remaining o - 10) :: q). split; [done|]. split; [|split].
    + constructor; [|done]. split; [done|]. split; [done|]. cbn.
      split; [|rewrite Zminus_mod, Hm; done]. pose proof (Z.div_mod (ao_remaining o) 10). lia.
    + cbn. fold (total q). lia.
    + intros x [->|Hx]%elem_of_cons; [exists o; split; [by left|done]|]. exists x. split; [by right|done].
Qed.

(** A limit order that is filled completely. *)
Lemma fills a cmd r :
  amatched makeConfig a (toNewOrder cmd) = r → am_remaining r = 0 → am_outcome r ≠ StpFired → cm_type cmd = Limit →
  let out := aexecute makeConfig a (toNewOrder cmd) in
  out_trades out = am_trades r ∧ out_victims out = am_victims r ∧ r_status (out_result out) = Ok ∧
  aside (out_book out) (cm_side cmd) = aside a (cm_side cmd) ∧
  aside (out_book out) (opposite (cm_side cmd)) = am_rest r.
Proof.
  intros Hm Hr Ho Ht. unfold aexecute, aafter, adispose. rewrite Hm, Hr. cbn [toNewOrder n_type n_side]. rewrite Ht.
  cbn [Z.ltb Z.compare]. destruct (am_outcome r); [| |done]; by destruct (cm_side cmd).
Qed.

Lemma dense_sell id a : dense false id a →
  let out := asubmit makeConfig a (toNewOrder (steadyStateCommand id false)) in
  dense true (id + 1) (out_book out) ∧ (length (out_trades out) <= 1)%nat ∧ out_victims out = [] ∧
  r_status (out_result out) = Ok.
Proof.
  intros [(q & rest & Hb & Hq & Ht & Hr & Hl) [Ha Hla] Hids]. rewrite accepted by done.
  destruct q as [|o q]; [done|].
  destruct (take_lots (toNewOrder (steadyStateCommand id false)) (ab_tid a) o q rest Hq)
    as (R1 & R2 & R3 & R4 & q' & R5 & R6 & R7 & R8); try done.
  assert (Hm : amatched makeConfig a (toNewOrder (steadyStateCommand id false))
    = amatch CancelAggressor (toNewOrder (steadyStateCommand id false)) (ab_tid a) 10 (o :: q ++ rest)).
  { unfold amatched. cbn [toNewOrder steadyStateCommand n_side n_quantity cm_side cm_quantity opposite aside]. by rewrite Hb. }
  destruct (fills _ _ _ Hm R1 R2 eq_refl) as (H1 & H2 & H3 & H4 & H5). set (out := aexecute _ _ _) in *.
  cbn [steadyStateCommand cm_side opposite aside] in *. rewrite H1, H2, R4. split; [|done]. split.
  - exists q', rest. rewrite H5, R5, R7, Ht. split_and!; done.
  - by rewrite H4.
  - unfold aresting in *. rewrite H4, H5, R5. rewrite Hb in Hids. apply ids_next in Hids.
    rewrite Forall_app in Hids. destruct Hids as [Hb' Ha']. apply Forall_app in Hb' as [Ho Hrest].
    apply Forall_app. split; [|done]. apply Forall_app. split; [|done].
    rewrite Forall_forall in Ho. apply Forall_forall. intros x Hx. destruct (R8 x Hx) as (y & Hy & ->). by apply Ho.
Qed.

Lemma dense_size first id a : dense first id a → (length (aresting a) <= 110)%nat.
Proof.
  intros [(q & rest & Hb & Hq & Ht & Hr & Hl) [Ha Hla] Hids]. pose proof (lots_total q Hq) as Hlen.
  unfold aresting. rewrite Hb, !length_app, Hl, Hla. destruct first; lia.
Qed.

Lemma dense_keeps : keeps Dense dense 110.
Proof.
  split; [exact dense_size|]. intros [|] id a H; [by apply dense_buy|by apply dense_sell].
Qed.

(** ** The thin workload *)

Definition rung (p : Z) (o : AOrder) : Prop := ao_price o = p ∧ ao_participant o = 1 ∧ ao_remaining o = 10.

(** The ladder, with its top rung before a sell order and without it before a buy order. *)
Record thin (first : bool) (id : Z) (a : ABook) : Prop := {
  tn_bids : ∃ top rest, ab_bids a = (if first then top :: rest else rest) ∧ rung thinTopPrice top ∧
    Forall (λ o, ao_price o < thinTopPrice) rest ∧ length rest = 19%nat;
  tn_asks : ab_asks a = [];
  tn_ids : Forall (λ o, ao_id o < id) (aresting a)
}.

Lemma thin_sell id a : thin true id a →
  let out := asubmit makeConfig a (toNewOrder (command Thin true id)) in
  thin false (id + 1) (out_book out) ∧ (length (out_trades out) <= 1)%nat ∧ out_victims out = [] ∧
  r_status (out_result out) = Ok.
Proof.
  intros [(top & rest & Hb & (Hp & Hpa & Hrm) & Hr & Hl) Ha Hids]. rewrite accepted by done.
  assert (Hm : ∃ t, amatched makeConfig a (toNewOrder (command Thin true id))
    = mkAMatch rest [t] [] 0 (s64 (ab_tid a + 1)) Exhausted).
  { unfold amatched. change (aside a (opposite (n_side (toNewOrder (command Thin true id))))) with (ab_bids a).
    rewrite Hb. set (inc := toNewOrder _). cbn [amatch]. change (n_quantity inc) with 10.
    change (crosses _ _ _ _) with (1 * kPriceScale <=? ao_price top). rewrite Hp, Hpa, Hrm.
    change (n_participant inc) with 2. cbn. eexists. by destruct rest. }
  destruct Hm as (t & Hm). destruct (fills _ _ _ Hm eq_refl) as (H1 & H2 & H3 & H4 & H5); [done|done|].
  set (out := aexecute _ _ _) in *. change (cm_side (command Thin true id)) with Sell in *. cbn [opposite aside am_rest am_trades am_victims] in *.
  rewrite H1, H2. split; [|done]. split.
  - exists top, rest. by rewrite H5.
  - by rewrite H4.
  - unfold aresting in *. rewrite H4, H5. rewrite Hb in Hids. by apply Forall_cons in Hids as [_ ?%ids_next].
Qed.

Lemma thin_buy id a : thin false id a →
  let out := asubmit makeConfig a (toNewOrder (command Thin false id)) in
  thin true (id + 1) (out_book out) ∧ (length (out_trades out) <= 1)%nat ∧ out_victims out = [] ∧
  r_status (out_result out) = Ok.
Proof.
  intros [(top & rest & Hb & _ & Hr & Hl) Ha Hids]. rewrite accepted by done.
  destruct (rests a (command Thin false id)) as (o & H1 & H2 & H3 & H4 & H5 & Ho); [done|done| | |].
  { unfold aresting. rewrite Hb, Ha, length_app, Hl. done. }
  { change (cm_side (command Thin false id)) with Buy. cbn [opposite aside]. by rewrite Ha. }
  set (out := aexecute _ _ _) in *. change (cm_side (command Thin false id)) with Buy in *. cbn [opposite aside] in *.
  change (cm_price (command Thin false id)) with thinTopPrice in Ho. destruct Ho as (I1 & I2 & I3 & I4).
  pose proof (arest_between Buy o [] rest) as Hrest. rewrite Hb in H4. cbn [app] in Hrest. rewrite Hrest in H4; [|constructor|].
  2: { eapply Forall_impl; [exact Hr|]. intros x Hx. apply Z.leb_gt. by rewrite I2. }
  split; [|split_and!; [rewrite H1; simpl; lia|done|done]]. split.
  - exists o, rest. by rewrite H4.
  - by rewrite H5.
  - unfold aresting in *. rewrite H4, H5, Ha in *. rewrite Hb in Hids. apply ids_next in Hids. rewrite app_nil_r in *.
    cbn [app]. destruct (command_new Thin false id) as [_ Hid]. constructor; [lia|done].
Qed.

Lemma thin_size first id a : thin first id a → (length (aresting a) <= 110)%nat.
Proof.
  intros [(top & rest & Hb & _ & _ & Hl) Ha _]. unfold aresting. rewrite Hb, Ha, app_nil_r. destruct first; cbn [length]; lia.
Qed.

Lemma thin_keeps : keeps Thin thin 110.
Proof. split; [exact thin_size|]. intros [|] id a H; [by apply thin_sell|by apply thin_buy]. Qed.

(** ** The population *)

(** What the invariants ask of a book, as a check. *)
Definition denseReady (a : ABook) : bool :=
  match ab_bids a with
  | o :: rest =>
      (ao_price o =? touch) && negb (ao_participant o =? 3) && (ao_remaining o =? 100)
      && forallb (λ o, ao_price o <? touch) rest && (length rest =? 49)%nat
  | [] => false
  end && forallb (λ o, touch <? ao_price o) (ab_asks a) && (length (ab_asks a) =? 50)%nat.

Definition thinReady (a : ABook) : bool :=
  match ab_bids a with
  | o :: rest =>
      (ao_price o =? thinTopPrice) && (ao_participant o =? 1) && (ao_remaining o =? 10)
      && forallb (λ o, ao_price o <? thinTopPrice) rest && (length rest =? 19)%nat
  | [] => false
  end && bool_decide (length (ab_asks a) = 0%nat).

Lemma forallb_Forall' {A} (f : A → bool) (P : A → Prop) l :
  (∀ x, f x = true → P x) → forallb f l = true → Forall P l.
Proof. intros Hf Hl. rewrite forallb_forall in Hl. apply Forall_forall. intros x Hx. by apply Hf, Hl, list_elem_of_In. Qed.

Definition populated (w : Workload) : list Command := from_option fst [] (populationCommands w 1).
Definition populatedId (w : Workload) : Z := from_option snd 0 (populationCommands w 1).
Definition populatedBook (w : Workload) : ABook * list OutboundEvent := arun makeConfig 0 emptyABook (populated w).

Lemma population w : populationCommands w 1 = Some (populated w, populatedId w).
Proof. destruct w; by vm_compute. Qed.

Lemma population_ids w : Forall (λ o, ao_id o < populatedId w) (aresting (populatedBook w).1).
Proof.
  apply (forallb_Forall' (λ o, ao_id o <? populatedId w)); [intros x Hx; lia|]. destruct w; by vm_compute.
Qed.

Lemma dense_ready id a : denseReady a = true → Forall (λ o, ao_id o < id) (aresting a) → dense true id a.
Proof.
  intros H Hids. unfold denseReady in H. destruct (ab_bids _) as [|o rest] eqn:Eb; [done|].
  rewrite !andb_true_iff in H. destruct H as [[[[[[H1 H2] H3] H4] H5] H6] H7]. split.
  - exists [o], rest. split; [done|]. split; [|split; [cbn; lia|split; [|by apply Nat.eqb_eq]]].
    + constructor; [|done]. split; [lia|]. split; [lia|]. apply Z.eqb_eq in H3. rewrite H3. split; [lia|done].
    + eapply forallb_Forall'; [|exact H4]. simpl. lia.
  - split; [|by apply Nat.eqb_eq]. eapply forallb_Forall'; [|exact H6]. simpl. lia.
  - exact Hids.
Qed.

Lemma thin_ready id a : thinReady a = true → Forall (λ o, ao_id o < id) (aresting a) → thin true id a.
Proof.
  intros H Hids. unfold thinReady in H. destruct (ab_bids _) as [|o rest] eqn:Eb; [done|].
  rewrite !andb_true_iff in H. destruct H as [[[[[H1 H2] H3] H4] H5] H6]. split.
  - exists o, rest. split; [done|]. split; [split_and!; lia|]. split; [|by apply Nat.eqb_eq].
    eapply forallb_Forall'; [|exact H4]. simpl. lia.
  - apply bool_decide_eq_true in H6. by destruct (ab_asks _).
  - exact Hids.
Qed.

Lemma dense_populated : dense true (populatedId Dense) (populatedBook Dense).1.
Proof. apply dense_ready; [by vm_compute|apply population_ids]. Qed.

Lemma thin_populated : thin true (populatedId Thin) (populatedBook Thin).1.
Proof. apply thin_ready; [by vm_compute|apply population_ids]. Qed.

(** ** Long runs *)

Lemma arun_app c q a xs ys :
  (arun c q a (xs ++ ys)).1 = (arun c (foldl (λ q _, s64 (q + 1)) q xs) (arun c q a xs).1 ys).1 ∧
  (arun c q a (xs ++ ys)).2 = (arun c q a xs).2 ++ (arun c (foldl (λ q _, s64 (q + 1)) q xs) (arun c q a xs).1 ys).2.
Proof.
  revert q a. induction xs as [|x xs IH]; intros q a; [done|]. cbn [app arun fst snd foldl].
  destruct (IH (s64 (q + 1)) (ans_book (aanswer c a x))) as [-> ->]. by rewrite <- app_assoc.
Qed.

Lemma fits_run_app c q a xs ys : fits c a (xs ++ ys) = fits c a xs && fits c (arun c q a xs).1 ys.
Proof.
  revert q a. induction xs as [|x xs IH]; intros q a; [done|]. cbn [app fits arun fst].
  by rewrite (IH (s64 (q + 1))), andb_assoc.
Qed.

Lemma steady_ids n g id : cm_id <$> steady n g id = seqZ id (Z.of_nat n).
Proof.
  revert g id. induction n as [|n IH]; intros g id; [done|]. rewrite seqZ_cons by lia. cbn [steady].
  destruct (genNext g id) as [cmd g'] eqn:E. cbn [fmap list_fmap].
  rewrite IH. replace (Z.succ id) with (id + 1) by lia. replace (Z.pred (Z.of_nat (S n))) with (Z.of_nat n) by lia. f_equal.
  unfold genNext in E. injection E as <- _. by destruct (sg_workload g), (_ =? 0).
Qed.

Lemma steady_valid w n c id : Forall (valid_command makeConfig) (steady n (mkGenerator w thinTopPrice c) id).
Proof.
  revert c id. induction n as [|n IH]; intros c id; cbn [steady]; [constructor|]. rewrite genNext_command.
  constructor; [|apply IH]. unfold command, genNext. destruct w, (_ =? 0); split; by vm_compute.
Qed.

Lemma population_valid w : Forall (valid_command makeConfig) (populated w).
Proof.
  apply (forallb_Forall' (λ cmd, match cm_kind cmd with KNew =>
    ((cm_price cmd - cfg_minPrice makeConfig) mod cfg_tick makeConfig =? 0) && (cm_quantity cmd <=? INT64_MAX) | _ => false end)).
  - intros cmd H. unfold valid_command. destruct (cm_kind cmd); [|done|done]. apply andb_true_iff in H as [H1 H2].
    split; [intros _; unfold aligned; cbn [toNewOrder n_price]; lia|cbn [toNewOrder n_quantity]; lia].
  - destruct w; by vm_compute.
Qed.

Lemma population_runs w :
  fits makeConfig emptyABook (populated w) = true ∧
  runReader (populatedBook w).2 = ((λ cmd, (cm_id cmd, false)) <$> populated w) ∧
  cm_id <$> populated w = seqZ 1 (Z.of_nat (length (populated w))) ∧
  populatedId w = 1 + Z.of_nat (length (populated w)) ∧ (length (populated w) <= 100)%nat.
Proof. destruct w; split_and!; vm_compute; (reflexivity || lia). Qed.

Lemma makeConfig_ok : config_ok makeConfig.
Proof. split; by vm_compute. Qed.

(** The books the generator drives. *)
Lemma workload_keeps w : ∃ Inv : bool → Z → ABook → Prop, keeps w Inv 110 ∧ Inv true (populatedId w) (populatedBook w).1.
Proof.
  destruct w.
  - exists dense. split; [exact dense_keeps|exact dense_populated].
  - exists thin. split; [exact thin_keeps|exact thin_populated].
Qed.

(** Everything about a run of the generator on the engine path. *)
Lemma steady_state_run w n pop nextId :
  populationCommands w 1 = Some (pop, nextId) → Z.of_nat n <= 2 ^ 62 →
  let cmds := pop ++ steady n (generatorNew w thinTopPrice) nextId in
  ∃ m, run (matchingNew (bookNew makeConfig) 0) cmds = Some m ∧
    (length (aresting (abs (mt_book m))) <= 110)%nat ∧
    runReader (mt_out m) = ((λ cmd, (cm_id cmd, false)) <$> cmds) ∧
    cm_id <$> cmds = seqZ 1 (Z.of_nat (length cmds)).
Proof.
  rewrite population. intros [= <- <-] Hn. set (st := steady _ _ _). cbn zeta.
  destruct (population_runs w) as (Hf & Hrd & Hids & Hid & Hlen).
  destruct (workload_keeps w) as (Inv & HK & HI).
  set (q := foldl (λ q _, s64 (q + 1)) 0 (populated w)).
  destruct (steady_run w Inv 110 HK n 0 (populatedId w) q _ HI) as (H1 & H2 & H3 & H4).
  change (mkGenerator w thinTopPrice 0) with (generatorNew w thinTopPrice) in *. fold st in H1, H2, H3, H4.
  pose proof (bookNew_ok makeConfig makeConfig_ok) as HR.
  destruct (sound_intro makeConfig _ _ makeConfig_ok HR (emptyABook_wf _ makeConfig_ok)) as [Hs Hab].
  destruct (run_ok makeConfig (matchingNew (bookNew makeConfig) 0) (populated w ++ st) makeConfig_ok
    (matchingNew_ok _ _ _ Hs)) as (m & Hr & _ & Hb & Ho).
  - apply Forall_app. split; [apply population_valid|apply steady_valid].
  - cbn [matchingNew mt_book]. change (seq_ (bookNew makeConfig)) with 0. rewrite length_app, H2. unfold INT64_MAX. lia.
  - cbn [matchingNew mt_book]. rewrite Hab, (fits_run_app _ 0), Hf. exact H1.
  - exists m. split; [exact Hr|]. cbn [matchingNew mt_book mt_dispatchSeq mt_out app] in Hb, Ho. rewrite Hab in Hb, Ho.
    destruct (arun_app makeConfig 0 emptyABook (populated w) st) as [E1 E2]. rewrite E1 in Hb. rewrite E2 in Ho.
    rewrite Hb, Ho. split; [exact H4|]. split.
    + unfold runReader in *. rewrite omap_app, fmap_app. f_equal; [exact Hrd|exact H3].
    + rewrite fmap_app, Hids, length_app, H2. unfold st. rewrite steady_ids, Hid. symmetry.
      rewrite Nat2Z.inj_add, seqZ_app by lia. done.
Qed.

(** C40: The load generator never grows the book.  For both workloads, however many orders
    the generator sends after the population, the matching thread takes them all, at most 110
    orders rest in the book, and the reader of the engine path gets exactly one completion
    per order, in the order in which they were sent, under ids that count up from 1, and
    never one for an exhausted pool. *)
Theorem steady_state_never_grows w n pop nextId :
  populationCommands w 1 = Some (pop, nextId) → Z.of_nat n <= 2 ^ 62 →
  let cmds := pop ++ steady n (generatorNew w thinTopPrice) nextId in
  ∃ m, run (matchingNew (bookNew makeConfig) 0) cmds = Some m ∧
    (length (aresting (abs (mt_book m))) <= 110)%nat ∧
    runReader (mt_out m) = ((λ cmd, (cm_id cmd, false)) <$> cmds) ∧
    cm_id <$> cmds = seqZ 1 (Z.of_nat (length cmds)).
Proof. exact (steady_state_run w n pop nextId). Qed.

Lemma steady_state_never_grows_witness :
  ∃ m, run (matchingNew (bookNew makeConfig) 0) (populated Dense ++ steady 3 (generatorNew Dense thinTopPrice) 101) = Some m ∧
    (length (aresting (abs (mt_book m))) <= 110)%nat.
Proof.
  destruct (steady_state_never_grows Dense 3 (populated Dense) 101) as (m & H1 & H2 & _); [by vm_compute|by vm_compute|].
  exists m. split; [exact H1|exact H2].
Defined.
