(* ===== verification/Loadgen.v ===== *)
(** The load generator's bookkeeping: [benchmark/loadgen/inflight.hpp], [schedule.hpp],
    [latency_recorder.hpp] and the sending and recording loops of [velox_loadgen.cpp].

    The generator thread and the reader thread work on one table.  They write different
    arrays of it, so a run is an interleaving of whole calls.  Times are nanoseconds since
    the start and come from the clock; the histograms are a library and an argument. *)
From stdpp Require Import gmap.
From S2P Require Import Prelude Types OrderBook Wire Messages Framing Decoder Events MatchingThread AbstractBook.
From S2P Require Import Sequencer Session Workload.

(** ** InflightTable *)

Definition kSlots : Z := Z.shiftl 1 20.

(** Three vectors of [kSlots] elements.  The index is masked, so it is always inside; an
    entry that was never written has the value of the constructor. *)
Record InflightTable := mkInflight {
  it_intendedNs : gmap Z Z;
  it_actualSendNs : gmap Z Z;
  it_completeNs : gmap Z Z
}.

Definition inflightNew : InflightTable := mkInflight ∅ ∅ ∅.

Definition slotOf (id : Z) : Z := Z.land id (kSlots - 1).

Definition recordSend (t : InflightTable) (id intendedNs actualSendNs : Z) : InflightTable :=
  mkInflight (<[slotOf id := intendedNs]> (it_intendedNs t)) (<[slotOf id := actualSendNs]> (it_actualSendNs t))
    (it_completeNs t).

Definition recordComplete (t : InflightTable) (id completeNs : Z) : InflightTable :=
  mkInflight (it_intendedNs t) (it_actualSendNs t) (<[slotOf id := completeNs]> (it_completeNs t)).

Definition intendedNs (t : InflightTable) (id : Z) : Z := default 0 (it_intendedNs t !! slotOf id).
Definition actualSendNs (t : InflightTable) (id : Z) : Z := default 0 (it_actualSendNs t !! slotOf id).
Definition completeNs (t : InflightTable) (id : Z) : Z := default (-1) (it_completeNs t !! slotOf id).

(** ** Schedule *)

Record Schedule := mkSchedule { sc_t0 : Z; sc_intervalNs : Z }.

(** [static_cast<std::int64_t>(i) * intervalNs_] *)
Definition scheduledNs (s : Schedule) (i : Z) : Z := s64 (s64 i * sc_intervalNs s).

Definition intendedTime (s : Schedule) (i : Z) : Z := sc_t0 s + scheduledNs s i.

(** [while (Clock::now() < target) cpuPause();] on the readings of the clock: those that
    are left when the loop ends, the last reading first. *)
Fixpoint waitUntil (target : Z) (clock : list Z) : option (list Z) :=
  match clock with
  | [] => None
  | now :: clock' => if now <? target then waitUntil target clock' else Some clock
  end.

(** ** LatencyRecorder *)

Section recorder.
Context {H : Type} (hdr_record_value : H → Z → H) (hdr_record_corrected : H → Z → Z → H).

Record LatencyRecorder := mkRecorder { lr_corrected : H; lr_naive : H }.

Definition recordLatency (r : LatencyRecorder) (intendedNs actualSendNs completeNs intervalNs : Z) : LatencyRecorder :=
  let naiveSpan := s64 (completeNs - actualSendNs) in
  let correctedSpan := s64 (completeNs - intendedNs) in
  mkRecorder (hdr_record_corrected (lr_corrected r) (if correctedSpan <? 0 then 0 else correctedSpan) intervalNs)
    (hdr_record_value (lr_naive r) (if naiveSpan <? 0 then 0 else naiveSpan)).

Fixpoint recordRange (r : LatencyRecorder) (t : InflightTable) (firstId : Z) (count : nat) (intervalNs : Z) :
    LatencyRecorder :=
  match count with
  | O => r
  | S count' =>
      recordRange (recordLatency r (intendedNs t firstId) (actualSendNs t firstId) (completeNs t firstId) intervalNs)
        t (u64 (firstId + 1)) count' intervalNs
  end.

(** ** The sending loop *)

(** A call on the table. *)
Inductive LoadOp :=
  | OpSend (id intended actual : Z)
  | OpComplete (id complete : Z).

Definition loadOp (t : InflightTable) (op : LoadOp) : InflightTable :=
  match op with
  | OpSend id intended actual => recordSend t id intended actual
  | OpComplete id complete => recordComplete t id complete
  end.

(** [sendIndexed(i)] up to the call of [sendOne]; [now] is the reading after the wait. *)
Definition sendIndexed (saturation : bool) (s : Schedule) (id i now : Z) : LoadOp :=
  OpSend id (if saturation then now else scheduledNs s i) now.

(** Warmup and measured phase: the [i]-th send, for the readings in [nows]. *)
Fixpoint sendLoop (saturation : bool) (s : Schedule) (nextId i : Z) (nows : list Z) : list LoadOp :=
  match nows with
  | [] => []
  | now :: nows' => sendIndexed saturation s nextId i now :: sendLoop saturation s (nextId + 1) (i + 1) nows'
  end.

(** ** What the table holds after a run *)

Definition sendOf (op : LoadOp) : option (Z * (Z * Z)) :=
  match op with OpSend id x y => Some (id, (x, y)) | _ => None end.
Definition completeOf (op : LoadOp) : option (Z * Z) :=
  match op with OpComplete id x => Some (id, x) | _ => None end.

Definition sends (ops : list LoadOp) : list (Z * (Z * Z)) := omap sendOf ops.
Definition completes (ops : list LoadOp) : list (Z * Z) := omap completeOf ops.

Definition write {V} (m : gmap Z V) (w : Z * V) : gmap Z V := <[slotOf w.1 := w.2]> m.

Lemma table_writes t ops :
  let t' := foldl loadOp t ops in
  it_intendedNs t' = foldl write (it_intendedNs t) (prod_map id fst <$> sends ops) ∧
  it_actualSendNs t' = foldl write (it_actualSendNs t) (prod_map id snd <$> sends ops) ∧
  it_completeNs t' = foldl write (it_completeNs t) (completes ops).
Proof.
  revert t. induction ops as [|[i x y|i x] ops IH]; intros t; [done|..]; cbn [foldl loadOp];
    destruct (IH (recordSend t i x y)) as (H1 & H2 & H3) || destruct (IH (recordComplete t i x)) as (H1 & H2 & H3);
    by rewrite H1, H2, H3.
Qed.

Lemma slot_mod id : slotOf id = id mod 1048576.
Proof. unfold slotOf, kSlots. change (Z.shiftl 1 20 - 1) with (Z.ones 20). by rewrite Z.land_ones. Qed.

(** The last writes of consecutive ids, as many as there are slots, are still there. *)
Lemma write_last {V} (m : gmap Z V) (ws : list (Z * V)) first i w :
  ws.*1 = seqZ first (Z.of_nat (length ws)) → ws !! i = Some w → Z.of_nat (length ws) <= Z.of_nat i + 1048576 →
  foldl write m ws !! slotOf w.1 = Some w.2.
Proof.
  intros Hids Hi Hlen.
  assert (Hw : ∀ j w', ws !! j = Some w' → w'.1 = first + Z.of_nat j).
  { intros j w' Hj. assert (Hf : ws.*1 !! j = Some w'.1) by (by rewrite list_lookup_fmap, Hj).
    rewrite Hids in Hf. apply lookup_seqZ in Hf as [-> _]. done. }
  rewrite <- (take_drop_middle ws i w Hi). rewrite foldl_app. cbn [foldl].
  assert (Hrest : Forall (λ w', slotOf w'.1 ≠ slotOf w.1) (drop (S i) ws)).
  { apply Forall_lookup. intros j w' Hj. rewrite lookup_drop in Hj. pose proof (lookup_lt_Some _ _ _ Hj) as Hlt.
    rewrite (Hw _ _ Hj), (Hw _ _ Hi), !slot_mod. intros Heq.
    assert (Hd : (Z.of_nat (S j)) mod 1048576 = 0).
    { replace (Z.of_nat (S j)) with (first + Z.of_nat (S i + j) - (first + Z.of_nat i)) by lia.
      rewrite Zminus_mod, Heq, Z.sub_diag. done. }
    rewrite Z.mod_small in Hd by lia. lia. }
  clear Hids Hi Hlen Hw. generalize (foldl write m (take i ws)) as m'. intros m'.
  assert (Hk : ∀ ws' (m : gmap Z V), Forall (λ w', slotOf w'.1 ≠ slotOf w.1) ws' → foldl write m ws' !! slotOf w.1 = m !! slotOf w.1).
  { clear. induction ws' as [|x ws' IH]; intros m Hf; [done|]. apply Forall_cons in Hf as [Hx Hf]. cbn [foldl].
    rewrite (IH _ Hf). unfold write. by rewrite lookup_insert_ne. }
  rewrite (Hk _ _ Hrest). unfold write. by rewrite lookup_insert_eq.
Qed.

Definition recordOwn (intervalNs : Z) (r : LatencyRecorder) (f : Z * Z * Z) : LatencyRecorder :=
  recordLatency r f.1.1 f.1.2 f.2 intervalNs.

Lemma recordRange_reads r t first figs intervalNs :
  0 <= first → first + Z.of_nat (length figs) < 18446744073709551616 →
  (∀ i f, figs !! i = Some f →
     let id := first + Z.of_nat i in f = (intendedNs t id, actualSendNs t id, completeNs t id)) →
  recordRange r t first (length figs) intervalNs = foldl (recordOwn intervalNs) r figs.
Proof.
  revert r first. induction figs as [|f figs IH]; intros r first H0 Hb Hf; [done|]. cbn [length recordRange foldl] in *.
  pose proof (Hf 0%nat f eq_refl) as H0f. cbn zeta in H0f. rewrite Z.add_0_r in H0f.
  rewrite (u64_id (first + 1)) by (unfold in_u64; lia). rewrite IH; [|lia|lia|].
  - by rewrite H0f.
  - intros i g Hg. specialize (Hf (S i) g Hg). cbn zeta in *. replace (first + 1 + Z.of_nat i) with (first + Z.of_nat (S i)) by lia. done.
Qed.

(** What the sending loop recorded and the completions, for the orders from position [k] on. *)
Definition figures (ss : list (Z * (Z * Z))) (cs : list (Z * Z)) : list (Z * Z * Z) :=
  zip_with (λ s c, (s.2.1, s.2.2, c.2)) ss cs.

Lemma figures_zip (ids : list Z) figs cs :
  length ids = length figs → figures (zip ids figs) cs = zip_with (λ (x : Z * Z) (c : Z * Z), (x, c.2)) figs cs.
Proof.
  revert figs cs. induction ids as [|i ids IH]; intros [|[x y] figs] [|c cs] Hl; try done.
  cbn. f_equal. apply IH. by injection Hl.
Qed.

Lemma drop_zip {A B} k (xs : list A) (ys : list B) : drop k (zip xs ys) = zip (drop k xs) (drop k ys).
Proof. revert xs ys. induction k as [|k IH]; intros [|x xs] [|y ys]; cbn; try done. - by destruct (drop k xs). Qed.

Lemma recordRange_own r ops pop n count intervalNs :
  (sends ops).*1 = seqZ (1 + Z.of_nat pop) (Z.of_nat n) → (completes ops).*1 = seqZ 1 (Z.of_nat (pop + n)) →
  (count <= n)%nat → Z.of_nat count <= kSlots → Z.of_nat (pop + n) < 2 ^ 63 →
  recordRange r (foldl loadOp inflightNew ops) (1 + Z.of_nat (pop + (n - count))) count intervalNs
  = foldl (recordOwn intervalNs) r
      (figures (drop (n - count) (sends ops)) (drop (pop + (n - count)) (completes ops))).
Proof.
  intros Hs Hc Hle Hk Hb. assert (Hls : length (sends ops) = n).
  { rewrite <- (length_fmap fst), Hs, length_seqZ. lia. }
  assert (Hlc : length (completes ops) = (pop + n)%nat).
  { rewrite <- (length_fmap fst), Hc, length_seqZ. lia. }
  set (figs := figures _ _). assert (Hlf : length figs = count).
  { unfold figs, figures. rewrite length_zip_with, !length_drop, Hls, Hlc. lia. }
  rewrite <- Hlf at 2. apply recordRange_reads; [lia|rewrite Hlf; lia|]. intros i f Hf. cbn zeta.
  unfold figs, figures in Hf. apply lookup_zip_with_Some in Hf as (w & c & -> & Hw & Hcc).
  rewrite lookup_drop in Hw. rewrite lookup_drop in Hcc. destruct (table_writes inflightNew ops) as (T1 & T2 & T3).
  assert (Hid : w.1 = 1 + Z.of_nat (pop + (n - count)) + Z.of_nat i ∧ c.1 = w.1).
  { assert (Hw1 : (sends ops).*1 !! (n - count + i)%nat = Some w.1) by (by rewrite list_lookup_fmap, Hw).
    assert (Hc1 : (completes ops).*1 !! (pop + (n - count) + i)%nat = Some c.1) by (by rewrite list_lookup_fmap, Hcc).
    rewrite Hs in Hw1. rewrite Hc in Hc1. apply lookup_seqZ in Hw1 as [-> _]. apply lookup_seqZ in Hc1 as [-> _]. lia. }
  destruct Hid as [Hid Hcw]. rewrite <- Hid. change kSlots with 1048576 in Hk.
  assert (Hsl : ∀ {V} (g : Z * Z → V) (m : gmap Z V),
    foldl write m (prod_map id g <$> sends ops) !! slotOf w.1 = Some (g w.2)).
  { intros V g m. pose proof (write_last m (prod_map id g <$> sends ops) (1 + Z.of_nat pop) (n - count + i) (prod_map id g w)) as Hwl.
    apply Hwl; [|by rewrite list_lookup_fmap, Hw|rewrite length_fmap; lia].
    rewrite length_fmap, Hls, <- Hs, <- list_fmap_compose. apply list_fmap_ext. by intros ? []. }
  pose proof (write_last ∅ (completes ops) 1 (pop + (n - count) + i) c) as Hcl.
  unfold intendedNs, actualSendNs, completeNs. rewrite T1, T2, T3. cbn [inflightNew it_intendedNs it_actualSendNs it_completeNs].
  rewrite !Hsl. rewrite <- Hcw, Hcl; [done|by rewrite Hlc, Hc|done|lia].
Qed.

Lemma sendLoop_sends saturation s nextId i nows :
  sends (sendLoop saturation s nextId i nows)
  = zip (seqZ nextId (Z.of_nat (length nows)))
      (zip_with (λ j now, (if saturation : bool then now else scheduledNs s j, now)) (seqZ i (Z.of_nat (length nows))) nows).
Proof.
  revert nextId i. induction nows as [|now nows IH]; intros nextId i; [done|]. cbn [sendLoop length].
  rewrite !(seqZ_cons _ (Z.of_nat (S (length nows)))) by lia. unfold sends in *. cbn [omap list_omap sendIndexed sendOf zip_with].
  rewrite IH. replace (Z.pred (Z.of_nat (S (length nows)))) with (Z.of_nat (length nows)) by lia. done.
Qed.

(** The figures of a measured order are its own.  A run sends [n] orders after the population
    through the engine path, while the reader thread records the completions at any moments.
    Then the pass over the last [count] ids, no more than the table has slots, records for each
    of these orders, in order, when it was meant to be sent (computed from the start of the run
    and not from the previous send), when it was sent and when it was completed. *)
Theorem measured_orders_recorded w pop nextId saturation s nows m ops count r intervalNs :
  let n := length nows in
  populationCommands w 1 = Some (pop, nextId) → Z.of_nat n <= 2 ^ 62 →
  run (matchingNew (bookNew makeConfig) 0) (pop ++ steady n (generatorNew w thinTopPrice) nextId) = Some m →
  sends ops = sends (sendLoop saturation s nextId 0 nows) → (completes ops).*1 = (runReader (mt_out m)).*1 →
  (count <= n)%nat → Z.of_nat count <= kSlots →
  recordRange r (foldl loadOp inflightNew ops) (nextId + Z.of_nat (n - count)) count intervalNs
  = foldl (recordOwn intervalNs) r
      (zip_with (λ (x : Z * Z) (c : Z * Z), (x, c.2))
         (drop (n - count) (zip_with (λ j now, (if saturation then now else scheduledNs s j, now)) (seqZ 0 (Z.of_nat n)) nows))
         (drop (length pop + (n - count)) (completes ops))).
Proof.
  intros n Hpop Hn Hrun Hs Hc Hle Hk. destruct (steady_state_run w n pop nextId Hpop Hn) as (m' & Hr & _ & Hrd & Hids).
  rewrite Hrun in Hr. injection Hr as <-. rewrite population in Hpop. injection Hpop as <- <-.
  destruct (population_runs w) as (_ & _ & _ & Hid & Hlen). rewrite sendLoop_sends in Hs. fold n in Hs.
  set (figs := zip_with (λ j now, (if saturation then now else scheduledNs s j, now)) (seqZ 0 (Z.of_nat n)) nows) in *.
  assert (Hlf : length figs = n) by (unfold figs; rewrite length_zip_with, length_seqZ; lia).
  assert (Hc' : (completes ops).*1 = seqZ 1 (Z.of_nat (length (populated w) + n))).
  { rewrite Hc, Hrd, <- list_fmap_compose. transitivity (cm_id <$> populated w ++ steady n (generatorNew w thinTopPrice) (populatedId w));
      [by apply list_fmap_ext|]. rewrite Hids, length_app.
    do 3 f_equal. rewrite <- (length_fmap cm_id), steady_ids, length_seqZ. lia. }
  rewrite Hid. rewrite <- Z.add_assoc, <- Nat2Z.inj_add.
  rewrite (recordRange_own _ _ (length (populated w)) n).
  - f_equal. rewrite Hs, drop_zip. apply figures_zip. rewrite !length_drop, length_seqZ. lia.
  - rewrite Hs, fst_zip by (rewrite length_seqZ; lia). by rewrite Hid.
  - exact Hc'.
  - exact Hle.
  - exact Hk.
  - lia.
Qed.
End recorder.

(** *** One measured order of the thin workload *)

Definition demoOps : list LoadOp := OpSend 21 0 5 :: ((λ i, OpComplete i (10 + i)) <$> seqZ 1 21).

Lemma measured_orders_recorded_witness :
  recordRange (H := list Z) (λ h v, v :: h) (λ h v _, v :: h) (mkRecorder [] []) (foldl loadOp inflightNew demoOps) 21 1 1
  = mkRecorder [31] [26].
Proof.
  destruct (steady_state_run Thin 1 (populated Thin) 21) as (m & Hr & _ & Hrd & _); [by vm_compute|by vm_compute|].
  etransitivity; [apply (measured_orders_recorded (λ h v, v :: h) (λ h v _, v :: h) Thin (populated Thin) 21 false
    (mkSchedule 0 1) [5] m demoOps 1 (mkRecorder [] []) 1)|by vm_compute]; [..|rewrite Hrd| |]; (exact Hr || by vm_compute).
Defined.

(** Two ids that are [kSlots] apart share a slot: with more than [kSlots] samples the pass
    over the measured ids reads the figures of later orders for the first ones. *)
Lemma slots_are_shared t id x y x' y' :
  intendedNs (recordSend (recordSend t id x y) (id + kSlots) x' y') id = x' ∧
  actualSendNs (recordSend (recordSend t id x y) (id + kSlots) x' y') id = y'.
Proof.
  assert (Hs : slotOf (id + kSlots) = slotOf id).
  { rewrite !slot_mod. change kSlots with (1 * 1048576). by rewrite Z_mod_plus_full. }
  unfold intendedNs, actualSendNs, recordSend. cbn. by rewrite Hs, !lookup_insert_eq.
Qed.

(** ** The wire path: [benchmark/loadgen/wire_harness.hpp] and [WirePath] of [paths.hpp] *)

Definition makeLoadgenToken (byteValue : Z) : list Z := replicate 32 byteValue.

(** The message of [LoadgenClient::login]. *)
Definition loadgenLogin (participant : Z) (token : list Z) : LoginMsg := mkLogin participant token 1.

(** The message of [LoadgenClient::sendNewOrder]. *)
Definition loadgenOrder (clientSeq id : Z) (side : Side) (price qty : Z) : NewOrderMsg :=
  mkNewOrderMsg clientSeq id 1 side WLimit price qty Day.

(** [WirePath::sendOne] for each command; [nextClientSeq_] starts at 1. *)
Fixpoint wireOrders (nextClientSeq : Z) (cmds : list Command) : list NewOrderMsg :=
  match cmds with
  | [] => []
  | cmd :: cmds' =>
      loadgenOrder nextClientSeq (cm_id cmd) (cm_side cmd) (cm_price cmd) (cm_quantity cmd)
        :: wireOrders (u64 (nextClientSeq + 1)) cmds'
  end.

(** [WirePath::runReader]: the id a frame completes. *)
Definition wireHandle (msg : DecodedMessage) : option Z :=
  match msg with
  | DExecReport m => Some (er_orderId m)
  | DReject m => Some (rj_orderId m)
  | _ => None
  end.

(** Every report of an order overwrites its completion, so the figure is that of the last
    one and not of the first. *)
Lemma last_report_counts t id x y : completeNs (recordComplete (recordComplete t id x) id y) id = y.
Proof. unfold completeNs, recordComplete. cbn. by rewrite lookup_insert_eq. Qed.

(** After the login the session expects number 2: the first order of the wire path, number 1,
    is refused as a duplicate and never submitted. *)
Lemma wire_first_order_refused `{P : !SubmitPort W} creds shardIds me (sv : Server W) s s' token cmd cmds :
  handleLogin creds sv s (loadgenLogin 2 token) = Some s' → cs_closed s' = false →
  ∀ m ms sv'' s'', wireOrders 1 (cmd :: cmds) = m :: ms →
  handleNewOrder shardIds me sv s' m = Some (sv'', s'') → sv'' = sv ∧ cs_lastClientSeq s'' = 1.
Proof.
  intros Hl Hopen m ms sv'' s'' [= <- <-].
  assert (Hseq : cs_lastClientSeq s' = 1).
  { unfold handleLogin in Hl. destruct (authenticate _ _ _); cbn [negb] in Hl.
    - unfold encodeAndSend in Hl. destruct (encodeLoginAck _ _) as [[buf n]|]; [|done]. cbn in Hl. injection Hl as <-.
      unfold sendFrame, doWrite. by repeat case_match.
    - destruct (sendLoginReject s AuthFailed) as [s1|]; [|done]. cbn in Hl. injection Hl as <-.
      unfold closeSession in Hopen. destruct (cs_closed s1) eqn:E; cbn in Hopen; congruence. }
  unfold handleNewOrder, handleOrder, checkClientSeq. cbn [loadgenOrder no_clientSeqNum]. rewrite Hseq. cbn [Z.leb Z.compare Pos.compare Pos.compare_cont].
  destruct (sendReject s' _ DuplicateSeq 0) as [s1|] eqn:Es; [|done]. cbn [mbind option_bind negb]. intros [= <- <-].
  split; [done|]. rewrite <- Hseq. unfold sendReject, encodeAndSend in Es. destruct (encodeReject _ _) as [[buf n]|]; [|done].
  cbn in Es. injection Es as <-. unfold sendFrame, doWrite. by repeat case_match.
Qed.

(** The gateway gives every order of a session the participant of its login, so on the wire path
    both legs belong to participant 2, self-trade prevention cancels every sell order and the
    book grows by one order per pair: twenty pairs, twenty more orders and not one trade. *)
Definition wireCommands (n : nat) : list Command :=
  newCommand 2 <$> wireOrders 1 (populated Dense ++ steady n (generatorNew Dense thinTopPrice) (populatedId Dense)).

Lemma wire_path_book_grows :
  (λ n, length (aresting (arun makeConfig 0 emptyABook (wireCommands n)).1)) <$> [0%nat; 20%nat; 40%nat]
  = [100%nat; 110%nat; 120%nat] ∧
  omap (λ ev, match e_payload ev with TradeEvent t => Some t | _ => None end)
    (arun makeConfig 0 emptyABook (wireCommands 40)).2 = [].
Proof. by vm_compute. Qed.
