(* ===== verification/Scenario.v ===== *)
(** Scenario files: [common/scenario.hpp], the order flow that [velox_live], [velox_client] and the
    replay suite read as text.

    A line is read with the extraction operators of [std::istringstream].  The stream is the text
    that is left and whether no extraction has failed yet; after a failure, and at the end of the
    text, an extraction leaves its variable as it was.  Prices are read as [double]: the numbers
    are those of the standard library's specification of IEEE 754 binary64, rounded to nearest. *)
From Stdlib Require Import String SpecFloat.
From S2P Require Import Prelude Types OrderBook Events SegmentNames Base64 Sha256 Jwt AdminHttp.
#[local] Open Scope Z_scope.

Inductive ScenarioKind := SNew | SMarket | SCancel | SReplace.

#[export] Instance ScenarioKind_eq_dec : EqDecision ScenarioKind.
Proof. solve_decision. Defined.

Record ScenarioCommand := mkScenario {
  sn_kind : ScenarioKind;
  sn_id : Z;
  sn_newId : Z;
  sn_side : Side;
  sn_price : Z;
  sn_quantity : Z;
  sn_participant : Z;
  sn_type : OrderType
}.

(** [ScenarioCommand c{};] *)
Definition scenarioNew : ScenarioCommand := mkScenario SNew 0 0 Buy 0 0 0 Limit.

(** ** Stream extraction *)

Record Stream := mkStream { ss_rest : Text; ss_good : bool }.

Fixpoint dropWhile (f : Z → bool) (s : Text) : Text :=
  match s with
  | [] => []
  | x :: s' => if f x then dropWhile f s' else s
  end.

(** The sentry: skip white space; [None] when the extraction fails before it starts. *)
Definition sentry (s : Stream) : option Text :=
  if ss_good s then match dropWhile isSpace (ss_rest s) with [] => None | r => Some r end else None.

Definition failed (s : Stream) : Stream := mkStream (ss_rest s) false.

(** [ss >> str] *)
Definition readString (s : Stream) (old : Text) : Stream * Text :=
  match sentry s with
  | None => (failed s, old)
  | Some r => (mkStream (dropWhile (λ x, negb (isSpace x)) r) true, takeWhile (λ x, negb (isSpace x)) r)
  end.

Definition readSign (r : Text) : bool * Text :=
  match r with
  | 45 :: r' => (true, r')
  | 43 :: r' => (false, r')
  | _ => (false, r)
  end.

(** [ss >> n] for an [int64_t]: no digits give 0, a number that does not fit the nearest one that
    does, and both are failures. *)
Definition readInt64 (s : Stream) (old : Z) : Stream * Z :=
  match sentry s with
  | None => (failed s, old)
  | Some r =>
      let '(neg, r) := readSign r in
      let ds := takeWhile isDigit r in
      let rest := dropWhile isDigit r in
      let v := if (neg : bool) then - number ds else number ds in
      if bool_decide (ds = []) then (mkStream rest false, 0)
      else if INT64_MAX <? v then (mkStream rest false, INT64_MAX)
      else if v <? INT64_MIN then (mkStream rest false, INT64_MIN)
      else (mkStream rest true, v)
  end.

(** *** Floating point *)

Abbreviation double := spec_float.

(** The double nearest to [m * 10 ^ e], [m] not negative: the operands of the division need not
    be doubles themselves. *)
Definition decimalToDouble (neg : bool) (m e : Z) : double :=
  match m with
  | Zpos p =>
      if 0 <=? e then binary_round 53 1024 neg (Z.to_pos (m * 10 ^ e)) 0
      else SFdiv 53 1024 (S754_finite neg p 0) (S754_finite false (Z.to_pos (10 ^ (- e))) 0)
  | _ => S754_zero neg
  end.

(** The exponent behind [e] or [E]: a sign and digits. *)
Definition readExponent (r : Text) : option (bool * Text) * Text :=
  match r with
  | 101 :: r' | 69 :: r' =>
      let '(neg, r') := readSign r' in (Some (neg, takeWhile isDigit r'), dropWhile isDigit r')
  | _ => (None, r)
  end.

(** [ss >> price]: a number that is not complete gives 0 and one that is too large the largest
    double, and both are failures. *)
Definition readDouble (s : Stream) (old : double) : Stream * double :=
  match sentry s with
  | None => (failed s, old)
  | Some r =>
      let '(neg, r) := readSign r in
      let ds := takeWhile isDigit r in
      let r := dropWhile isDigit r in
      let '(fs, r) := match r with 46 :: r' => (takeWhile isDigit r', dropWhile isDigit r') | _ => ([], r) end in
      if bool_decide (ds ++ fs = []) then (mkStream r false, S754_zero false)
      else
        let '(ex, r) := readExponent r in
        let m := number (ds ++ fs) in
        let finish e :=
          match decimalToDouble neg m (e - Z.of_nat (length fs)) with
          | S754_infinity sx => (mkStream r false, (if sx then SFopp else id) (SFmax_float 53 1024))
          | x => (mkStream r true, x)
          end in
        match ex with
        | None => finish 0
        | Some (_, []) => (mkStream r false, S754_zero false)
        | Some (eneg, es) => finish (if (eneg : bool) then - number es else number es)
        end
  end.

(** [static_cast<Price>(x)]: towards zero, undefined when the result does not fit. *)
Definition truncate (x : double) : option Z :=
  match x with
  | S754_zero _ => Some 0
  | S754_finite sx m e =>
      let a := if 0 <=? e then Zpos m * 2 ^ e else Zpos m / 2 ^ (- e) in
      let v := if sx then - a else a in
      if bool_decide (in_i64 v) then Some v else None
  | _ => None
  end.

(** [static_cast<Price>(price * kPriceScale)] *)
Definition scaledPrice (price : double) : option Z :=
  truncate (SFmul 53 1024 price (binary_normalize 53 1024 kPriceScale 0 false)).

(** ** parseScenarioLine *)

(** [(sideStr == "BUY") ? Side::Buy : Side::Sell] *)
Definition sideOfWord (w : Text) : Side := if bool_decide (w = str "BUY") then Buy else Sell.

(** [if (ss >> tok)] and what follows. *)
Definition optionalType (s : Stream) : OrderType :=
  let '(s, tok) := readString s [] in
  if negb (ss_good s) then Limit
  else if bool_decide (tok = str "IOC") then Ioc
  else if bool_decide (tok = str "FOK") then Fok
  else Limit.

(** The four branches, on what follows the verb; [None] when the price cannot be converted. *)
Definition parseNew (s : Stream) : option ScenarioCommand :=
  let '(s, id) := readInt64 s 0 in
  let '(s, sideStr) := readString s [] in
  let '(s, price) := readDouble s (S754_zero false) in
  let '(s, quantity) := readInt64 s 0 in
  let '(s, participant) := readInt64 s 0 in
  p ← scaledPrice price;
  Some (mkScenario SNew id 0 (sideOfWord sideStr) p quantity participant (optionalType s)).

Definition parseMarket (s : Stream) : option ScenarioCommand :=
  let '(s, id) := readInt64 s 0 in
  let '(s, sideStr) := readString s [] in
  let '(s, quantity) := readInt64 s 0 in
  let '(_, participant) := readInt64 s 0 in
  Some (mkScenario SMarket id 0 (sideOfWord sideStr) 0 quantity participant Market).

Definition parseCancel (s : Stream) : option ScenarioCommand :=
  let '(_, id) := readInt64 s 0 in
  Some (mkScenario SCancel id 0 Buy 0 0 0 Limit).

Definition parseReplace (s : Stream) : option ScenarioCommand :=
  let '(s, id) := readInt64 s 0 in
  let '(s, newId) := readInt64 s 0 in
  let '(s, sideStr) := readString s [] in
  let '(s, price) := readDouble s (S754_zero false) in
  let '(s, quantity) := readInt64 s 0 in
  let '(_, participant) := readInt64 s 0 in
  p ← scaledPrice price;
  Some (mkScenario SReplace id newId (sideOfWord sideStr) p quantity participant Limit).

(** [Some None] when the line is no command. *)
Definition parseScenarioLine (line : Text) : option (option ScenarioCommand) :=
  if match line with [] => true | x :: _ => x =? 35 end then Some None
  else
    let '(s, verb) := readString (mkStream line true) [] in
    if bool_decide (verb = str "NEW") then c ← parseNew s; Some (Some c)
    else if bool_decide (verb = str "MARKET") then c ← parseMarket s; Some (Some c)
    else if bool_decide (verb = str "CANCEL") then c ← parseCancel s; Some (Some c)
    else if bool_decide (verb = str "REPLACE") then c ← parseReplace s; Some (Some c)
    else Some None.

Fixpoint loadScenarioStream (lines : list Text) : option (list ScenarioCommand) :=
  match lines with
  | [] => Some []
  | line :: lines' =>
      c ← parseScenarioLine line;
      cmds ← loadScenarioStream lines';
      Some (match c with Some c => c :: cmds | None => cmds end)
  end.

(** [loadScenarioFile]: [std::getline] splits at newlines, and what follows the last one is a line
    only when it is not empty.  A file that cannot be opened has no lines. *)
Definition scenarioLines (text : Text) : list Text :=
  let ls := splitOn text 10 in
  match last ls with Some [] => removelast ls | _ => ls end.

Definition loadScenarioFile (file : option Text) : option (list ScenarioCommand) :=
  loadScenarioStream (match file with Some text => scenarioLines text | None => [] end).

(** ** Writing a scenario *)

Definition sideText (s : Side) : Text := match s with Buy => str "BUY" | Sell => str "SELL" end.

(** The optional last word. *)
Definition typeText (t : OrderType) : Text :=
  match t with Ioc => str " IOC" | Fok => str " FOK" | _ => [] end.

(** A command as the format describes it; [price] is the price as text. *)
Definition scenarioText (c : ScenarioCommand) (price : Text) : Text :=
  match sn_kind c with
  | SNew => str "NEW " ++ intText (sn_id c) ++ str " " ++ sideText (sn_side c) ++ str " " ++ price ++ str " " ++
      intText (sn_quantity c) ++ str " " ++ intText (sn_participant c) ++ typeText (sn_type c)
  | SMarket => str "MARKET " ++ intText (sn_id c) ++ str " " ++ sideText (sn_side c) ++ str " " ++
      intText (sn_quantity c) ++ str " " ++ intText (sn_participant c)
  | SCancel => str "CANCEL " ++ intText (sn_id c)
  | SReplace => str "REPLACE " ++ intText (sn_id c) ++ str " " ++ intText (sn_newId c) ++ str " " ++
      sideText (sn_side c) ++ str " " ++ price ++ str " " ++ intText (sn_quantity c) ++ str " " ++ intText (sn_participant c)
  end.

(** The fields a line of this kind carries; the others have their initial values. *)
Definition scenario_ok (c : ScenarioCommand) (units : Z) : Prop :=
  in_i64 (sn_id c) ∧ in_i64 (sn_newId c) ∧ in_i64 (sn_quantity c) ∧ in_i64 (sn_participant c) ∧
  match sn_kind c with
  | SNew => sn_newId c = 0 ∧ sn_price c = units * kPriceScale ∧ sn_type c ≠ Market
  | SMarket => sn_newId c = 0 ∧ sn_price c = 0 ∧ sn_type c = Market
  | SCancel => sn_newId c = 0 ∧ sn_side c = Buy ∧ sn_price c = 0 ∧ sn_quantity c = 0 ∧ sn_participant c = 0 ∧ sn_type c = Limit
  | SReplace => sn_price c = units * kPriceScale ∧ sn_type c = Limit
  end.

(** *** Words *)

(** A text at which a word ends. *)
Definition ends (r : Text) : Prop := match r with [] => True | x :: _ => isSpace x = true end.

Lemma while_ends f w r :
  Forall (λ x, f x = true) w → match r with [] => True | x :: _ => f x = false end →
  takeWhile f (w ++ r) = w ∧ dropWhile f (w ++ r) = r.
Proof.
  induction 1 as [|x w Hx _ IH]; intros Hr; cbn [app takeWhile dropWhile].
  - destruct r as [|x r]; [done|]. cbn. by rewrite Hr.
  - rewrite Hx. destruct (IH Hr) as [-> ->]. done.
Qed.

Lemma isDigit_isSpace x : isSpace x = true → isDigit x = false.
Proof. unfold isSpace, isDigit. lia. Qed.

(** The sentry in front of a word that a blank separates. *)
Lemma sentry_word w r : w ≠ [] → Forall (λ x, isSpace x = false) w → sentry (mkStream (32 :: w ++ r) true) = Some (w ++ r).
Proof. intros Hw Hs. unfold sentry. cbn. destruct Hs as [|x w Hx _]; [done|]. cbn. by rewrite Hx. Qed.

Lemma sentry_first w r : w ≠ [] → Forall (λ x, isSpace x = false) w → sentry (mkStream (w ++ r) true) = Some (w ++ r).
Proof. intros Hw Hs. unfold sentry. cbn. destruct Hs as [|x w Hx _]; [done|]. cbn. by rewrite Hx. Qed.

Lemma word_ends w r : Forall (λ x, isSpace x = false) w → ends r →
  takeWhile (λ x, negb (isSpace x)) (w ++ r) = w ∧ dropWhile (λ x, negb (isSpace x)) (w ++ r) = r.
Proof.
  intros Hw Hr. apply while_ends.
  - eapply Forall_impl; [exact Hw|]. intros x Hx. cbn. by rewrite Hx.
  - destruct r as [|x r]; [done|]. cbn in *. by rewrite Hr.
Qed.

Lemma readString_word w r old : w ≠ [] → Forall (λ x, isSpace x = false) w → ends r →
  readString (mkStream (32 :: w ++ r) true) old = (mkStream r true, w).
Proof.
  intros Hw Hs Hr. unfold readString. rewrite sentry_word by done. by destruct (word_ends w r Hs Hr) as [-> ->].
Qed.

Lemma readString_first w r old : w ≠ [] → Forall (λ x, isSpace x = false) w → ends r →
  readString (mkStream (w ++ r) true) old = (mkStream r true, w).
Proof.
  intros Hw Hs Hr. unfold readString. rewrite sentry_first by done. by destruct (word_ends w r Hs Hr) as [-> ->].
Qed.

(** *** Numbers *)

Lemma digits_word ds : Forall (λ x, isDigit x = true) ds → Forall (λ x, isSpace x = false) ds.
Proof. intros H. eapply Forall_impl; [exact H|]. intros x. unfold isDigit, isSpace. lia. Qed.

Lemma digits_end ds r : Forall (λ x, isDigit x = true) ds → ends r →
  takeWhile isDigit (ds ++ r) = ds ∧ dropWhile isDigit (ds ++ r) = r.
Proof.
  intros Hd Hr. apply while_ends; [done|]. destruct r as [|x r]; [done|]. by apply isDigit_isSpace.
Qed.

Lemma decimal_ok n : 0 <= n <= 9223372036854775808 →
  number (decimal 20 n) = n ∧ Forall (λ x, isDigit x = true) (decimal 20 n) ∧ decimal 20 n ≠ [].
Proof. intros Hn. apply decimal_number; lia. Qed.

Lemma readSign_digits x ds : isDigit x = true → readSign (x :: ds) = (false, x :: ds).
Proof. unfold isDigit. intros H. unfold readSign. repeat (case_match; try done); lia. Qed.

Lemma readInt64_ok n r old : in_i64 n → ends r →
  readInt64 (mkStream (32 :: intText n ++ r) true) old = (mkStream r true, n).
Proof.
  intros Hn Hr. unfold in_i64, INT64_MIN, INT64_MAX in Hn. unfold readInt64, intText. destruct (n <? 0) eqn:E.
  - destruct (decimal_ok (- n)) as (H1 & H2 & H3); [lia|]. destruct (digits_end _ r H2 Hr) as [T D].
    rewrite (sentry_word (45 :: decimal 20 (- n))); [|done|constructor; [done|by apply digits_word]].
    cbn [app readSign]. rewrite T, D, H1. rewrite bool_decide_eq_false_2 by done.
    unfold INT64_MAX, INT64_MIN. repeat case_match; try lia. f_equal. lia.
  - destruct (decimal_ok n) as (H1 & H2 & H3); [lia|]. destruct (digits_end _ r H2 Hr) as [T D].
    rewrite sentry_word by (done || by apply digits_word). destruct (decimal 20 n) as [|x ds] eqn:Ed; [done|].
    cbn [app] in *. rewrite readSign_digits by (by apply Forall_inv in H2). rewrite T, D, H1.
    rewrite bool_decide_eq_false_2 by done. unfold INT64_MAX, INT64_MIN. repeat case_match; try lia. done.
Qed.

(** Whole prices are exact. *)
Definition wholeExact (p : Z) : bool := bool_decide (scaledPrice (decimalToDouble false p 0) = Some (p * kPriceScale)).

Lemma whole_prices p : 0 <= p <= 10000 → scaledPrice (decimalToDouble false p 0) = Some (p * kPriceScale).
Proof.
  assert (H : forallb wholeExact (seqZ 0 10001) = true) by (by vm_compute).
  rewrite forallb_forall in H. intros Hp. specialize (H p). unfold wholeExact in H. eapply bool_decide_eq_true, H.
  apply list_elem_of_In, elem_of_seqZ. lia.
Qed.

Lemma decimalToDouble_finite p : 0 <= p <= 10000 → ∀ s, decimalToDouble false p 0 ≠ S754_infinity s.
Proof. intros Hp s Hs. pose proof (whole_prices p Hp) as H. rewrite Hs in H. by destruct s. Qed.

Lemma readDouble_whole p r old : 0 <= p <= 10000 → ends r →
  readDouble (mkStream (32 :: decimal 20 p ++ r) true) old = (mkStream r true, decimalToDouble false p 0).
Proof.
  intros Hp Hr. destruct (decimal_ok p) as (H1 & H2 & H3); [lia|]. destruct (digits_end _ r H2 Hr) as [T D].
  pose proof (decimalToDouble_finite p Hp) as Hfin.
  unfold readDouble. rewrite sentry_word by (done || by apply digits_word). destruct (decimal 20 p) as [|x ds] eqn:Ed; [done|].
  cbn [app] in *. rewrite readSign_digits by (by apply Forall_inv in H2). rewrite T, D.
  assert (Hdot : match r with 46 :: r' => (takeWhile isDigit r', dropWhile isDigit r') | _ => ([], r) end = ([], r)).
  { destruct r as [|y r]; [done|]. cbn in Hr. unfold isSpace in Hr. repeat (case_match; try done); lia. }
  assert (Hexp : readExponent r = (None, r)).
  { destruct r as [|y r]; [done|]. cbn in Hr. unfold isSpace in Hr. unfold readExponent. repeat (case_match; try done); lia. }
  rewrite Hdot, app_nil_r. rewrite bool_decide_eq_false_2 by done. rewrite Hexp, H1. change (0 - Z.of_nat (length (@nil Z))) with 0.
  destruct (decimalToDouble false p 0) as [s|s| |s m e] eqn:E; [done| |done|done]. by destruct (Hfin s).
Qed.

Lemma sideText_word s : sideText s ≠ [] ∧ Forall (λ x, isSpace x = false) (sideText s) ∧ sideOfWord (sideText s) = s.
Proof. destruct s; split_and!; try done; repeat constructor. Qed.

Lemma ends_space r : ends (str " " ++ r).
Proof. done. Qed.

Lemma optionalType_ok t : t ≠ Market → optionalType (mkStream (typeText t) true) = t.
Proof. by destruct t. Qed.

Lemma ends_type t : ends (typeText t).
Proof. by destruct t. Qed.

(** The branch that a verb selects. *)
Definition branch (k : ScenarioKind) : Stream → option ScenarioCommand :=
  match k with SNew => parseNew | SMarket => parseMarket | SCancel => parseCancel | SReplace => parseReplace end.

Definition verbOf (k : ScenarioKind) : Text :=
  match k with SNew => str "NEW" | SMarket => str "MARKET" | SCancel => str "CANCEL" | SReplace => str "REPLACE" end.

Lemma parse_verb k r : parseScenarioLine (verbOf k ++ 32 :: r) = (c ← branch k (mkStream (32 :: r) true); Some (Some c)).
Proof.
  unfold parseScenarioLine. rewrite readString_first; [|by destruct k|by destruct k; repeat constructor|done].
  by destruct k.
Qed.

(** One field off the stream. *)
Ltac extract :=
  first [ rewrite readInt64_ok by (done || apply ends_type)
        | rewrite readDouble_whole by done
        | rewrite readString_word by (done || apply sideText_word) ].

(** What the scenario format describes is what the parser reads: a command of any kind, with
    any 64-bit ids, quantity and participant and a price of at most 10000 whole units, written as
    the format says, is read back field by field, its price scaled exactly although it is read as
    a floating-point number. *)
Theorem scenario_roundtrip c units :
  0 <= units <= 10000 → scenario_ok c units →
  parseScenarioLine (scenarioText c (decimal 20 units)) = Some (Some c).
Proof.
  intros Hu (Hid & Hnew & Hq & Hp & Hk). destruct c as [k i n s p q pt t].
  cbn [sn_kind sn_id sn_newId sn_side sn_price sn_quantity sn_participant sn_type] in *.
  destruct (sideText_word s) as (S1 & S2 & S3). pose proof (whole_prices units Hu) as Hw.
  assert (Hv : ∃ r, scenarioText (mkScenario k i n s p q pt t) (decimal 20 units) = verbOf k ++ 32 :: r ∧
    branch k (mkStream (32 :: r) true) = Some (mkScenario k i n s p q pt t)).
  { destruct k; (eexists; split; [reflexivity|]); cbn [branch parseNew parseMarket parseCancel parseReplace];
      change (str " ") with [32]; cbn [app sn_id sn_newId sn_side sn_quantity sn_participant sn_type].
    - unfold parseNew. do 5 extract. rewrite S3, Hw. cbn [mbind option_bind]. destruct Hk as (-> & -> & Ht). by rewrite optionalType_ok.
    - unfold parseMarket. do 3 extract. rewrite <- (app_nil_r (intText pt)). extract. rewrite S3. destruct Hk as (-> & -> & ->). done.
    - unfold parseCancel. rewrite <- (app_nil_r (intText i)). extract. by destruct Hk as (-> & -> & -> & -> & -> & ->).
    - unfold parseReplace. do 5 extract. rewrite <- (app_nil_r (intText pt)). extract. rewrite S3, Hw. cbn [mbind option_bind].
      by destruct Hk as (-> & ->). }
  destruct Hv as (r & -> & Hb). rewrite parse_verb, Hb. done.
Qed.

Lemma scenario_roundtrip_witness :
  parseScenarioLine (str "NEW 7 SELL 250 -3 12 FOK") = Some (Some (mkScenario SNew 7 0 Sell 2500000 (-3) 12 Fok)).
Proof.
  apply (scenario_roundtrip (mkScenario SNew 7 0 Sell 2500000 (-3) 12 Fok) 250); [lia|]. repeat split; by vm_compute.
Defined.

(** A price in cents is not always the number it says: the product with the scale is rounded to a
    double just below it and cut off.  1.13 is read as 1.1299, which is between two ticks. *)
Lemma cents_lose_a_unit :
  option_map (option_map sn_price) (parseScenarioLine (str "NEW 1 BUY 1.13 10 7")) = Some (Some 11299) ∧
  option_map (option_map sn_price) (parseScenarioLine (str "NEW 1 BUY 1.12 10 7")) = Some (Some 11200) ∧
  length (filter (λ p, scaledPrice (decimalToDouble false p (-2)) ≠ Some (p * 100)) (seqZ 100 9901)) = 610%nat.
Proof. by vm_compute. Qed.
