(* ===== verification/Options.v ===== *)
(** The command lines of the programs: [takeArg] and [parseArgs] of [apps/velox_gateway.cpp],
    [velox_live.cpp], [velox_client.cpp], [velox_viz.cpp], [velox_auditd.cpp],
    [velox_adminctl.cpp] and [benchmark/velox_loadgen.cpp].

    Arguments are texts.  [None] is an exception of the standard library's conversions, which no
    program catches. *)
From Stdlib Require Import String.
From S2P Require Import Prelude Types SegmentNames Base64 Jwt AdminHttp Scenario.
#[local] Open Scope Z_scope.

(** ** Conversions *)

(** White space, a sign and digits; what follows is not looked at. *)
Definition integral (s : Text) : option (bool * Z) :=
  let '(neg, r) := readSign (dropWhile isSpace s) in
  let ds := takeWhile isDigit r in
  if bool_decide (ds = []) then None else Some (neg, number ds).

Definition signed (x : bool * Z) : Z := if x.1 then - x.2 else x.2.

(** [std::stol] and [std::stoll], both 64 bits wide. *)
Definition stol (s : Text) : option Z :=
  x ← integral s; if bool_decide (in_i64 (signed x)) then Some (signed x) else None.

Definition stoi (s : Text) : option Z :=
  x ← integral s;
  if (-2147483648 <=? signed x) && (signed x <=? 2147483647) then Some (signed x) else None.

(** [std::stoul] and [std::stoull]: a minus sign is taken modulo 2^64. *)
Definition stoul (s : Text) : option Z :=
  x ← integral s; if x.2 <=? 18446744073709551615 then Some (u64 (signed x)) else None.

Definition u16 (x : Z) : Z := x mod 65536.

(** [static_cast<unsigned short>(std::stoi(tmp))] *)
Definition portOf (s : Text) : option Z := u16 <$> stoi s.

(** [static_cast<InstrumentId>(std::stoul(tmp))] *)
Definition idOf (s : Text) : option Z := u32 <$> stoul s.

(** ** takeArg *)

Definition takeArg (arg key : Text) : option Text :=
  if bool_decide (take (length key) arg = key) then Some (drop (length key) arg) else None.

(** A program's options in the order of its tests: the key and what a match does with the value. *)
Definition Opt (A : Type) : Type := string * (A → Text → option A).

(** The body of the loop: the first key that matches; an argument that matches none is ignored. *)
Fixpoint applyArg {A} (opts : list (Opt A)) (a : A) (arg : Text) : option A :=
  match opts with
  | [] => Some a
  | (key, set) :: opts' =>
      match takeArg arg (str key) with
      | Some v => set a v
      | None => applyArg opts' a arg
      end
  end.

Fixpoint applyArgs {A} (opts : list (Opt A)) (a : A) (args : list Text) : option A :=
  match args with
  | [] => Some a
  | arg :: args' => a ← applyArg opts a arg; applyArgs opts a args'
  end.

(** [parseInstrumentIds] and [parseShardIds]: the pieces between commas, the empty ones skipped. *)
Fixpoint idsOf (toks : list Text) : option (list Z) :=
  match toks with
  | [] => Some []
  | [] :: toks' => idsOf toks'
  | tok :: toks' => x ← idOf tok; xs ← idsOf toks'; Some (x :: xs)
  end.

Definition parseInstrumentIds (csv : Text) : option (list Z) := idsOf (splitOn csv 44).

(** ** The programs *)

Module Gateway.
Record GatewayArgs := mkArgs { journalRoot : Text; port : Z; credsFile : Text; instrumentIds : list Z; mdPort : Z }.
Definition defaults : GatewayArgs := mkArgs [] 9001 [] [1] 0.
Definition options : list (Opt GatewayArgs) := [
  ("--journal=", λ a v, Some (mkArgs v (port a) (credsFile a) (instrumentIds a) (mdPort a)));
  ("--port=", λ a v, p ← portOf v; Some (mkArgs (journalRoot a) p (credsFile a) (instrumentIds a) (mdPort a)));
  ("--creds=", λ a v, Some (mkArgs (journalRoot a) (port a) v (instrumentIds a) (mdPort a)));
  ("--instruments=", λ a v, ids ← parseInstrumentIds v; Some (mkArgs (journalRoot a) (port a) (credsFile a) ids (mdPort a)));
  ("--instrument=", λ a v, i ← idOf v; Some (mkArgs (journalRoot a) (port a) (credsFile a) [i] (mdPort a)));
  ("--md-port=", λ a v, p ← portOf v; Some (mkArgs (journalRoot a) (port a) (credsFile a) (instrumentIds a) p))]%string.
Definition parseGatewayArgs (args : list Text) : option GatewayArgs := applyArgs options defaults args.
End Gateway.

Module Live.
Record LiveArgs := mkArgs { mode : Text; journalRoot : Text; snapshotEvery : Z; groupCommit : Z; digestOut : Text }.
Definition defaults : LiveArgs := mkArgs [] [] 100000 0 [].
Definition options : list (Opt LiveArgs) := [
  ("--mode=", λ a v, Some (mkArgs v (journalRoot a) (snapshotEvery a) (groupCommit a) (digestOut a)));
  ("--journal=", λ a v, Some (mkArgs (mode a) v (snapshotEvery a) (groupCommit a) (digestOut a)));
  ("--snapshot-every=", λ a v, n ← stol v; Some (mkArgs (mode a) (journalRoot a) n (groupCommit a) (digestOut a)));
  ("--group-commit=", λ a v, n ← stol v; Some (mkArgs (mode a) (journalRoot a) (snapshotEvery a) n (digestOut a)));
  ("--digest-out=", λ a v, Some (mkArgs (mode a) (journalRoot a) (snapshotEvery a) (groupCommit a) v))]%string.
Definition parseLiveArgs (args : list Text) : option LiveArgs := applyArgs options defaults args.
End Live.

Module Client.
Record ClientArgs := mkArgs {
  host : Text; port : Z; participant : Z; tokenHex : Text; scenario : Text; count : Z; price : Z; qty : Z }.
Definition defaults : ClientArgs := mkArgs (str "127.0.0.1") 9001 1 [] [] 0 (100 * kPriceScale) 10.
Definition options : list (Opt ClientArgs) := [
  ("--host=", λ a v, Some (mkArgs v (port a) (participant a) (tokenHex a) (scenario a) (count a) (price a) (qty a)));
  ("--port=", λ a v, p ← portOf v; Some (mkArgs (host a) p (participant a) (tokenHex a) (scenario a) (count a) (price a) (qty a)));
  ("--participant=", λ a v, p ← stol v; Some (mkArgs (host a) (port a) p (tokenHex a) (scenario a) (count a) (price a) (qty a)));
  ("--token=", λ a v, Some (mkArgs (host a) (port a) (participant a) v (scenario a) (count a) (price a) (qty a)));
  ("--scenario=", λ a v, Some (mkArgs (host a) (port a) (participant a) (tokenHex a) v (count a) (price a) (qty a)));
  ("--count=", λ a v, n ← stol v; Some (mkArgs (host a) (port a) (participant a) (tokenHex a) (scenario a) n (price a) (qty a)));
  ("--price=", λ a v, p ← stol v; Some (mkArgs (host a) (port a) (participant a) (tokenHex a) (scenario a) (count a) p (qty a)));
  ("--qty=", λ a v, q ← stol v; Some (mkArgs (host a) (port a) (participant a) (tokenHex a) (scenario a) (count a) (price a) q))]%string.
Definition parseClientArgs (args : list Text) : option ClientArgs := applyArgs options defaults args.
End Client.

Module Viz.
Record VizArgs := mkArgs { port : Z; mdHostPort : Text; statsHostPort : Text; assetsDir : Text; topN : Z; instrument : Z }.
(** [assets] is the directory the build configures. *)
Definition defaults (assets : Text) : VizArgs := mkArgs 8080 [] [] assets 12 0.
Definition options : list (Opt VizArgs) := [
  ("--port=", λ a v, p ← portOf v; Some (mkArgs p (mdHostPort a) (statsHostPort a) (assetsDir a) (topN a) (instrument a)));
  ("--md=", λ a v, Some (mkArgs (port a) v (statsHostPort a) (assetsDir a) (topN a) (instrument a)));
  ("--stats=", λ a v, Some (mkArgs (port a) (mdHostPort a) v (assetsDir a) (topN a) (instrument a)));
  ("--assets=", λ a v, Some (mkArgs (port a) (mdHostPort a) (statsHostPort a) v (topN a) (instrument a)));
  ("--top-n=", λ a v, n ← stoul v; Some (mkArgs (port a) (mdHostPort a) (statsHostPort a) (assetsDir a) n (instrument a)));
  ("--instrument=", λ a v, i ← idOf v; Some (mkArgs (port a) (mdHostPort a) (statsHostPort a) (assetsDir a) (topN a) i))]%string.
Definition parseVizArgs (assets : Text) (args : list Text) : option VizArgs := applyArgs options (defaults assets) args.

(** [rfind(':')]: the parts around the last colon. *)
Definition splitHostPort (hostPort : Text) : option (Text * Text) :=
  match splitOn hostPort 58 with
  | [_] => None
  | parts =>
      let port := default [] (last parts) in
      let host := take (length hostPort - length port - 1) hostPort in
      if bool_decide (host = []) || bool_decide (port = []) then None else Some (host, port)
  end.
End Viz.

Module Auditd.
Record AuditdArgs := mkArgs {
  journalRoot : Text; shardIds : list Z; conninfo : Text; batchSize : Z; pollMs : Z; fromScratch : bool }.
Definition defaults : AuditdArgs := mkArgs [] [] [] 1000 50 false.
Definition options : list (Opt AuditdArgs) := [
  ("--journal=", λ a v, Some (mkArgs v (shardIds a) (conninfo a) (batchSize a) (pollMs a) (fromScratch a)));
  ("--shards=", λ a v, ids ← parseInstrumentIds v; Some (mkArgs (journalRoot a) ids (conninfo a) (batchSize a) (pollMs a) (fromScratch a)));
  ("--pg=", λ a v, Some (mkArgs (journalRoot a) (shardIds a) v (batchSize a) (pollMs a) (fromScratch a)));
  ("--batch=", λ a v, n ← stoul v; Some (mkArgs (journalRoot a) (shardIds a) (conninfo a) n (pollMs a) (fromScratch a)));
  ("--poll-ms=", λ a v, n ← stoi v; Some (mkArgs (journalRoot a) (shardIds a) (conninfo a) (batchSize a) n (fromScratch a)));
  ("--from-scratch", λ a v, Some (if bool_decide (v = [])
     then mkArgs (journalRoot a) (shardIds a) (conninfo a) (batchSize a) (pollMs a) true else a))]%string.
Definition parseAuditdArgs (args : list Text) : option AuditdArgs := applyArgs options defaults args.

(** What [main] starts: [None] is the exit with code 2. *)
Definition auditdStart (a : AuditdArgs) : option (list Z) :=
  if bool_decide (journalRoot a = []) || bool_decide (shardIds a = []) || bool_decide (conninfo a = [])
  then None else Some (shardIds a).
End Auditd.

Module Adminctl.
Record AdminctlArgs := mkArgs { journalRoot : Text; port : Z; bindAddr : Text; revokedFile : Text }.
Definition defaults : AdminctlArgs := mkArgs [] 8081 (str "127.0.0.1") [].
Definition options : list (Opt AdminctlArgs) := [
  ("--journal=", λ a v, Some (mkArgs v (port a) (bindAddr a) (revokedFile a)));
  ("--port=", λ a v, p ← portOf v; Some (mkArgs (journalRoot a) p (bindAddr a) (revokedFile a)));
  ("--bind=", λ a v, Some (mkArgs (journalRoot a) (port a) v (revokedFile a)));
  ("--revoked=", λ a v, Some (mkArgs (journalRoot a) (port a) (bindAddr a) v))]%string.
Definition parseAdminctlArgs (args : list Text) : option AdminctlArgs := applyArgs options defaults args.

(** The secret of a daemon that starts; [None] is the exit with code 2. *)
Definition adminctlStart (a : AdminctlArgs) (secretEnv : option Text) : option Text :=
  if bool_decide (journalRoot a = []) then None
  else match secretEnv with None | Some [] => None | Some secret => Some secret end.
End Adminctl.

Module LoadgenArgs.
Record LoadArgs := mkArgs {
  path : Text; workload : Text; rate : Text; samples : Z; warmup : Z; groupCommit : Z; jsonOut : Text; csvOut : Text;
  injectStallMs : Z; injectStallAt : Z; shards : Z; mdPort : Z; statsPort : Z; replayJournal : Text;
  startOnSubscriber : bool; loop : bool }.
Definition defaults : LoadArgs :=
  mkArgs (str "engine") (str "dense") (str "100000") 1000000 100000 0 [] [] 0 0 0 0 0 [] false false.
Definition options : list (Opt LoadArgs) := [
  ("--path=", λ a v, Some (mkArgs v (workload a) (rate a) (samples a) (warmup a) (groupCommit a) (jsonOut a) (csvOut a) (injectStallMs a) (injectStallAt a) (shards a) (mdPort a) (statsPort a) (replayJournal a) (startOnSubscriber a) (loop a)));
  ("--workload=", λ a v, Some (mkArgs (path a) v (rate a) (samples a) (warmup a) (groupCommit a) (jsonOut a) (csvOut a) (injectStallMs a) (injectStallAt a) (shards a) (mdPort a) (statsPort a) (replayJournal a) (startOnSubscriber a) (loop a)));
  ("--rate=", λ a v, Some (mkArgs (path a) (workload a) v (samples a) (warmup a) (groupCommit a) (jsonOut a) (csvOut a) (injectStallMs a) (injectStallAt a) (shards a) (mdPort a) (statsPort a) (replayJournal a) (startOnSubscriber a) (loop a)));
  ("--samples=", λ a v, n ← stoul v; Some (mkArgs (path a) (workload a) (rate a) n (warmup a) (groupCommit a) (jsonOut a) (csvOut a) (injectStallMs a) (injectStallAt a) (shards a) (mdPort a) (statsPort a) (replayJournal a) (startOnSubscriber a) (loop a)));
  ("--warmup=", λ a v, n ← stoul v; Some (mkArgs (path a) (workload a) (rate a) (samples a) n (groupCommit a) (jsonOut a) (csvOut a) (injectStallMs a) (injectStallAt a) (shards a) (mdPort a) (statsPort a) (replayJournal a) (startOnSubscriber a) (loop a)));
  ("--group-commit=", λ a v, n ← stoul v; Some (mkArgs (path a) (workload a) (rate a) (samples a) (warmup a) n (jsonOut a) (csvOut a) (injectStallMs a) (injectStallAt a) (shards a) (mdPort a) (statsPort a) (replayJournal a) (startOnSubscriber a) (loop a)));
  ("--json-out=", λ a v, Some (mkArgs (path a) (workload a) (rate a) (samples a) (warmup a) (groupCommit a) v (csvOut a) (injectStallMs a) (injectStallAt a) (shards a) (mdPort a) (statsPort a) (replayJournal a) (startOnSubscriber a) (loop a)));
  ("--csv-out=", λ a v, Some (mkArgs (path a) (workload a) (rate a) (samples a) (warmup a) (groupCommit a) (jsonOut a) v (injectStallMs a) (injectStallAt a) (shards a) (mdPort a) (statsPort a) (replayJournal a) (startOnSubscriber a) (loop a)));
  ("--inject-stall-ms=", λ a v, n ← stol v; Some (mkArgs (path a) (workload a) (rate a) (samples a) (warmup a) (groupCommit a) (jsonOut a) (csvOut a) n (injectStallAt a) (shards a) (mdPort a) (statsPort a) (replayJournal a) (startOnSubscriber a) (loop a)));
  ("--inject-stall-at=", λ a v, n ← stoul v; Some (mkArgs (path a) (workload a) (rate a) (samples a) (warmup a) (groupCommit a) (jsonOut a) (csvOut a) (injectStallMs a) n (shards a) (mdPort a) (statsPort a) (replayJournal a) (startOnSubscriber a) (loop a)));
  ("--shards=", λ a v, n ← stoul v; Some (mkArgs (path a) (workload a) (rate a) (samples a) (warmup a) (groupCommit a) (jsonOut a) (csvOut a) (injectStallMs a) (injectStallAt a) n (mdPort a) (statsPort a) (replayJournal a) (startOnSubscriber a) (loop a)));
  ("--md-port=", λ a v, p ← portOf v; Some (mkArgs (path a) (workload a) (rate a) (samples a) (warmup a) (groupCommit a) (jsonOut a) (csvOut a) (injectStallMs a) (injectStallAt a) (shards a) p (statsPort a) (replayJournal a) (startOnSubscriber a) (loop a)));
  ("--stats-port=", λ a v, p ← portOf v; Some (mkArgs (path a) (workload a) (rate a) (samples a) (warmup a) (groupCommit a) (jsonOut a) (csvOut a) (injectStallMs a) (injectStallAt a) (shards a) (mdPort a) p (replayJournal a) (startOnSubscriber a) (loop a)));
  ("--replay-journal=", λ a v, Some (mkArgs (path a) (workload a) (rate a) (samples a) (warmup a) (groupCommit a) (jsonOut a) (csvOut a) (injectStallMs a) (injectStallAt a) (shards a) (mdPort a) (statsPort a) v (startOnSubscriber a) (loop a)));
  ("--start-on-subscriber", λ a v, Some (if bool_decide (v = [])
     then mkArgs (path a) (workload a) (rate a) (samples a) (warmup a) (groupCommit a) (jsonOut a) (csvOut a) (injectStallMs a) (injectStallAt a) (shards a) (mdPort a) (statsPort a) (replayJournal a) true (loop a) else a));
  ("--loop", λ a v, Some (if bool_decide (v = [])
     then mkArgs (path a) (workload a) (rate a) (samples a) (warmup a) (groupCommit a) (jsonOut a) (csvOut a) (injectStallMs a) (injectStallAt a) (shards a) (mdPort a) (statsPort a) (replayJournal a) (startOnSubscriber a) true else a))]%string.
Definition parseLoadArgs (args : list Text) : option LoadArgs := applyArgs options defaults args.
End LoadgenArgs.
