(* ===== verification/LiveMain.v ===== *)
(** The live program: [apps/velox_live.cpp].

    The program reads a scenario from its standard input and runs it through the sequencer, the
    journal, the ring and the matching thread, printing trades and acknowledgements; in another
    mode it recovers the book and prints its digest.  The comment at the top of the file
    promises that whatever has been acknowledged on the output survives a kill; [LiveClaims] shows
    it, and what a failure of the machine changes.

    The main thread waits for the matching thread after every command, so the two alternate; what
    the snapshot thread does to the snapshot directory is in [Recovery].  [pad] is what the
    padding of the commands happens to hold, and the outcomes of the system calls are those of
    the journal writer; [sy] is how much of each file is synced when the program starts. *)
From Stdlib Require Import String.
From stdpp Require Import gmap sorting.
From S2P Require Import Base64 Jwt AdminHttp Scenario Options.
From S2P Require Import Prelude Types ObjectPool PriceLevel LevelMap OrderBook AbstractBook BookRepr BookSpec BookProps.
From S2P Require Import Wire Messages Decoder Crc32 Events MatchingThread SpscRing JournalFormat SegmentNames JournalWriter JournalReader.
From S2P Require Import JournalSpec JournalCrash JournalDurable Sequencer Snapshot Recovery Digest Shard.
#[local] Open Scope Z_scope.

(** ** Configuration and output *)

Definition liveConfig : BookConfig :=
  mkConfig (1 * kPriceScale) (10000 * kPriceScale) (kPriceScale / 100) (Z.shiftl 1 20) (cfg_stp defaultConfig).

Definition digestText (d : StateDigest) : Text :=
  str "lastSeq=" ++ intText (dg_lastSeq d) ++ str " nextTradeId=" ++ intText (dg_nextTradeId d) ++
  str " restingOrders=" ++ intText (dg_restingOrders d) ++ str " bodyCrc32=" ++ intText (dg_bodyCrc32 d) ++ [10].

(** The file that [writeDigestFile] leaves, when there is a path. *)
Definition writeDigestFile (path : Text) (d : StateDigest) : option Text :=
  match path with [] => None | _ => Some (digestText d) end.

Definition toIpcCommand (sc : ScenarioCommand) : Command :=
  mkCommand (sn_id sc) (sn_newId sc) (sn_price sc) (sn_quantity sc) (sn_participant sc)
    (match sn_kind sc with SCancel => KCancel | SReplace => KReplace | SNew | SMarket => KNew end)
    (sn_side sc) (sn_type sc).

(** ** Recovering *)

Record RecoverRun := mkRecoverRun { rn_err : Text; rn_out : Text; rn_digestFile : option Text }.

(** What is printed about a tail that did not end cleanly. *)
Definition tailWarning (rr : RecoveryResult) : Text :=
  match rc_status rr with
  | RecOk => []
  | st => str "RECOVER: journal tail ended with " ++ (match st with RecTornTail => str "TornTail" | _ => str "Corrupt" end) ++
      str " after seq " ++ intText (rc_lastSeq rr) ++
      str " (expected after a mid-stream kill; the torn/corrupt record was discarded)" ++ [10]
  end.

Definition recoveredLine (lastSeq : Z) (d : StateDigest) : Text :=
  str "RECOVERED seq=" ++ intText lastSeq ++ str " digest " ++ digestText d.

Definition runRecover (args : Live.LiveArgs) (fuel : nat) (journal : Dir) (snaps : SnapDir) : option RecoverRun :=
  '(rr, book) ← recover fuel journal snaps (bookNew liveConfig);
  d ← computeDigest book;
  Some (mkRecoverRun (tailWarning rr) (recoveredLine (rc_lastSeq rr) d) (writeDigestFile (Live.digestOut args) d)).

(** ** The live loop *)

Record LiveState := mkLive {
  lv_matching : MatchingThread;
  lv_seqr : Sequencer;
  lv_processed : Z;
  lv_submitted : Z;
  lv_requests : list Z;
  lv_out : Text
}.

Definition tradeLine (t : Trade) : Text :=
  str "TRADE " ++ intText (t_id t) ++ str " agg=" ++ intText (t_aggressorId t) ++ str " pass=" ++ intText (t_passiveId t) ++
  str " px=" ++ intText (t_price t) ++ str " qty=" ++ intText (t_quantity t) ++ [10].

Definition eventText (ev : OutboundEvent) : Text :=
  match e_payload ev with TradeEvent t => tradeLine t | _ => [] end.

(** Drains consumer 0 of the outbound ring. *)
Definition drainOut (m : MatchingThread) : Text * MatchingThread :=
  (concat (eventText <$> mt_out m),
   mkMatching (mt_book m) (mt_dispatchSeq m) (mt_trades m) (mt_victims m) []).

Definition ackLine (seq : Z) : Text := str "ACK " ++ intText seq ++ [10].

Section live.
(** The inbound ring has [2 ^ k] slots, the writer the configuration [wc]. *)
Context (k : Z) (wc : WriterConfig) (pad : Z → list Z) (snapshotEvery : Z).

(** One turn of the matching thread's loop. *)
Definition matchingTurn (m : MatchingThread) (r : SpscRing Command) (processed : Z) :
    option (MatchingThread * SpscRing Command * Z) :=
  match tryPeek k r with
  | (r, None) => Some (m, r, processed)
  | (r, Some i) =>
      cmd ← readSlot r i;
      m ← dispatch m cmd;
      Some (m, consume r, u64 (processed + 1))
  end.

(** [while (matching.processedCount() < submittedThisRun) cpuPause();] *)
Fixpoint waitProcessed (turns : nat) (m : MatchingThread) (r : SpscRing Command) (processed submitted : Z) :
    option (MatchingThread * SpscRing Command * Z) :=
  if processed <? submitted then
    match turns with
    | O => None
    | S turns' => '(m, r, processed) ← matchingTurn m r processed; waitProcessed turns' m r processed submitted
    end
  else Some (m, r, processed).

(** The body of the loop for a command: [inr] goes on, [inl] is the exit after a failed append.
    Nobody touches the ring while the command is pushed, so one attempt is enough. *)
Definition liveCommand (st : LiveState) (ic : Command) : option (LiveState + LiveState) :=
  '(acked, q) ← submit k wc [id] (lv_seqr st) (cm_kind ic) (pad (sq_seq (lv_seqr st))) ic;
  if acked =? 0 then
    Some (inl (mkLive (lv_matching st) q (lv_processed st) (lv_submitted st) (lv_requests st) (lv_out st)))
  else
    let submitted := u64 (lv_submitted st + 1) in
    '(m, r, processed) ← waitProcessed 1 (lv_matching st) (sq_ring q) (lv_processed st) submitted;
    let '(text, m) := drainOut m in
    let requests := if (0 <? snapshotEvery) && (Z.rem acked snapshotEvery =? 0)
                    then lv_requests st ++ [acked] else lv_requests st in
    Some (inr (mkLive m (mkSequencer (sq_journal q) r (sq_seq q)) processed submitted requests
                 (lv_out st ++ text ++ ackLine acked))).

Fixpoint liveLoop (st : LiveState) (lines : list Text) : option (Z * LiveState) :=
  match lines with
  | [] => Some (0, st)
  | line :: lines' =>
      sc ← parseScenarioLine line;
      match sc with
      | None => liveLoop st lines'
      | Some sc =>
          x ← liveCommand st (toIpcCommand sc);
          match x with inl st => Some (1, st) | inr st => liveLoop st lines' end
      end
  end.
End live.

Definition kInRing : Z := 16.

(** [args.groupCommit > 0 ? ...] for the policy and the group size. *)
Definition liveWriter (groupCommit : Z) : WriterConfig :=
  writerConfig (256 * 1024 * 1024) (if 0 <? groupCommit then Group else PerRecord) (if 0 <? groupCommit then groupCommit else 1).

(** The state in front of the loop; the answer of [resumeFrom] is not looked at.  Unlike a shard,
    the program does not restore the dispatch number, which it never prints. *)
Definition liveStart (k : Z) (fuel : nat) (journal : Dir) (sy : gmap Z nat) (snaps : SnapDir) (io : list IoResult) : option (bool * LiveState) :=
  '(rr, book) ← recover fuel journal snaps (bookNew liveConfig);
  let w := writerNew journal sy io in
  let '(resumed, w) :=
    if rc_hasJournalSegment rr
    then resumeFrom w (rc_path rr) (rc_offset rr) (rc_counter rr) (rc_lastSeq rr)
    else (true, w) in
  Some (resumed, mkLive (matchingNew book 0) (mkSequencer w (spscNew k emptyCommand) (rc_lastSeq rr)) 0 0 [] []).

Definition runLive (args : Live.LiveArgs) (fuel : nat) (journal : Dir) (sy : gmap Z nat) (snaps : SnapDir) (io : list IoResult)
    (pad : Z → list Z) (lines : list Text) : option (Z * LiveState) :=
  '(_, st) ← liveStart kInRing fuel journal sy snaps io;
  liveLoop kInRing (liveWriter (Live.groupCommit args)) pad (Live.snapshotEvery args) st lines.

(** ** Without a journal *)

Fixpoint benchLoop (b : OrderBook) (n : Z) (lines : list Text) : option (OrderBook * Z) :=
  match lines with
  | [] => Some (b, n)
  | line :: lines' =>
      sc ← parseScenarioLine line;
      match sc with
      | None => benchLoop b n lines'
      | Some sc =>
          b ← match sn_kind sc with
              | SNew | SMarket =>
                  '(b, _, _) ← OrderBook.submit b (mkNew (sn_id sc) (sn_price sc) (sn_quantity sc) (sn_participant sc) (sn_side sc) (sn_type sc)) trades64;
                  Some b
              | SCancel => '(b, _) ← cancel b (sn_id sc); Some b
              | SReplace =>
                  '(b, _, _, _, _) ← replace b (sn_id sc)
                    (mkNew (sn_newId sc) (sn_price sc) (sn_quantity sc) (sn_participant sc) (sn_side sc) Limit) trades64 None;
                  Some b
              end;
          benchLoop b (u64 (n + 1)) lines'
      end
  end.

Definition runBench (lines : list Text) : option Text :=
  '(_, n) ← benchLoop (bookNew liveConfig) 0 lines;
  Some (str "BENCH processed=" ++ intText n ++ str " (no journal, no durability)" ++ [10]).

(** What [main] does: [None] is the usage message and exit code 2. *)
Inductive LiveMode := ModeLive | ModeRecover | ModeBench.

Definition liveMode (args : Live.LiveArgs) : option LiveMode :=
  if bool_decide (Live.journalRoot args = []) && negb (bool_decide (Live.mode args = str "bench")) then None
  else if bool_decide (Live.mode args = str "live") then Some ModeLive
  else if bool_decide (Live.mode args = str "recover") then Some ModeRecover
  else if bool_decide (Live.mode args = str "bench") then Some ModeBench
  else None.
