(* ===== verification/LiveClaims.v ===== *)
(** What the live program promises: an acknowledged command survives. *)
From Stdlib Require Import String.
From stdpp Require Import gmap sorting.
From S2P Require Import Base64 Jwt AdminHttp Scenario Options.
From S2P Require Import Prelude Types ObjectPool PriceLevel LevelMap OrderBook AbstractBook BookRepr BookRefine BookSpec BookProps.
From S2P Require Import Wire Messages Decoder Crc32 Events MatchingThread SpscRing JournalFormat SegmentNames JournalWriter JournalReader.
From S2P Require Import JournalSpec JournalCrash JournalDurable Sequencer Snapshot Recovery Digest Shard LiveMain.
#[local] Open Scope Z_scope.

Lemma liveConfig_ok : config_ok liveConfig.
Proof. split; by vm_compute. Qed.

(** ** A call of [submit] and a turn of the matching thread, as steps of the system *)

Section calls.
Context (k : Z) (Hk : 0 <= k <= 63) (wc : WriterConfig) (Hwc : writer_config_ok wc) (accepts : Command → Prop) (worst : Fault).
#[local] Abbreviation steps := (rtc (sys_step k wc accepts)).

(** Where [submit] leaves the system, and what it answers. *)
Inductive submitted (y : Sys) (cmd : Command) : Z → Sys → Prop :=
  | submitted_failed y' :
      y_health y' = Failed → y_log y' = y_log y → y_sent y' = y_sent y → y_got y' = y_got y → submitted y cmd 0 y'
  | submitted_ok y' :
      y_pc y' = PcIdle → y_health y' = Sound → length (y_log y') = S (length (y_log y)) → y_sent y' = y_sent y ++ [cmd] → y_got y' = y_got y →
      y_peeked y' = y_peeked y → y_seq y' = y_seq y + 1 → submitted y cmd (y_seq y + 1) y'.

Lemma submit_runs base y kind pad cmd :
  sys_ok k wc accepts worst base y → y_pc y = PcIdle → y_health y = Sound → length (y_sent y) = length (y_got y) → kind = cm_kind cmd → accepts cmd →
  Z.of_nat (length (y_log y)) < kMaxRecords → valid_pad pad → command_i64 cmd →
  ∃ s y', submit k wc [id] (sequencerOf y) kind pad cmd = Some (s, sequencerOf y') ∧ steps y y' ∧ submitted y cmd s y'.
Proof using Hk Hwc.
  intros Hy Hpc Hh Hroom Hkd Hacc Hl Hp Hcmd. pose proof (yk_seq _ _ _ _ _ _ Hy) as Hseq. pose proof (yk_ready _ _ _ _ _ _ Hy Hh) as Hrd.
  assert (Hn : s64 (y_seq y + 1) = y_seq y + 1)
    by (apply s64_id; unfold in_i64, INT64_MIN, INT64_MAX, kMaxRecords in *; lia).
  destruct (append_total wc Hwc worst y kind pad cmd Hrd Hl Hseq Hp Hcmd) as (ok & j & Ha).
  unfold submit. cbn [sequencerOf sq_journal sq_seq sq_ring]. rewrite Ha. simpl_bind. destruct ok; cbn [negb].
  - pose proof (y_submitAppend k wc accepts y kind cmd _ Hpc (appends_ok _ _ y kind cmd (PcSpin cmd) pad j Hkd Hacc Hp Hcmd Hl Ha)) as Hst1.
    pose proof (sys_step_ok k Hk wc Hwc accepts worst base _ _ Hy Hst1) as Hy1. set (y1 := mkSys _ _ _ _ _ _ _ _ _) in Hst1, Hy1.
    destruct (yk_exec _ _ _ _ _ _ Hy1) as (ct & ch & He). destruct (spsc_tryClaim_spec k Hk _ _ _ He) as (ct' & _ & _ & Ho).
    cbn [execOf y1 y_ring y_sent y_got s_ring s_sent s_got] in Ho. cbn [pushLoop id]. unfold push.
    destruct (tryClaim k (y_ring y)) as [r o] eqn:Et. cbn [snd] in Ho. pose proof (Capacity_pos k Hk) as Hcap.
    destruct Ho as [[_ Hfull]|[Ho _]]; [lia|]. subst o. set (i := _ mod _) in *.
    pose proof (y_spin k wc accepts y1 cmd r (Some i) eq_refl Et) as Hst2. cbn [from_option] in Hst2.
    pose proof (sys_step_ok k Hk wc Hwc accepts worst base _ _ Hy1 Hst2) as Hy2. set (y2 := set_ring _ _ _) in Hst2, Hy2.
    destruct (yk_exec _ _ _ _ _ _ Hy2) as (ct2 & ch2 & He2).
    destruct (claimed_slot_writes k Hk (execOf y2) ct2 ch2 i cmd He2 eq_refl) as (r' & Hw).
    change (writeSlot r i cmd = Some r') in Hw. rewrite Hw. cbn [mbind option_bind].
    pose proof (y_writeSlot k wc accepts y2 i cmd r' eq_refl Hw) as Hst3.
    pose proof (y_publish k wc accepts (set_ring y2 r' (PcPublish i cmd)) i cmd eq_refl) as Hst4.
    exists (y_seq y + 1). eexists _. split; [|split].
    2: { eapply rtc_l; [exact Hst1|]. eapply rtc_l; [exact Hst2|]. eapply rtc_l; [exact Hst3|].
         eapply rtc_l; [exact Hst4|]. apply rtc_refl. }
    + cbn. by rewrite Hn at 1.
    + apply submitted_ok; try done; cbn; [by rewrite Hh|]. rewrite length_app. simpl. lia.
  - pose proof (y_submitAppend k wc accepts y kind cmd _ Hpc (appends_fail _ _ y kind cmd (PcSpin cmd) pad j Hkd Hacc Hp Hcmd Hl Ha)) as Hst1.
    eexists 0, _. split; [|split; [eapply rtc_l; [exact Hst1|apply rtc_refl]|]]; [done|].
    apply submitted_failed; try done. by cbn; rewrite Hh.
Qed.

Lemma turn_runs base y cmd m processed :
  sys_ok k wc accepts worst base y → y_peeked y = None → y_sent y = y_got y ++ [cmd] →
  ∃ r, steps y (mkSys (y_journal y) (y_seq y) r (y_pc y) None (y_log y) (y_sent y) (y_got y ++ [cmd]) (y_health y)) ∧
    matchingTurn k m (y_ring y) processed = (m' ← dispatch m cmd; Some (m', r, u64 (processed + 1))).
Proof using Hk.
  intros Hy Hpk Hs. destruct (yk_exec _ _ _ _ _ _ Hy) as (ct & ch & He).
  destruct (spsc_tryPeek_spec k Hk _ _ _ He) as (ch' & Hr & _ & Ho). cbn [execOf s_ring s_sent s_got] in Hr, Ho.
  unfold matchingTurn. destruct (tryPeek k (y_ring y)) as [r o] eqn:Ep. cbn [fst snd] in Hr, Ho.
  destruct Ho as [[_ Hl]|[-> _]]; [rewrite Hs, length_app in Hl; simpl in Hl; lia|]. set (i := _ mod _) in *.
  assert (Hrd : readSlot r i = Some cmd).
  { unfold readSlot. rewrite Hr. cbn [sp_storage]. pose proof (ex_slots _ _ _ _ He (length (y_got y))) as Hsl. cbn [execOf s_ring s_sent s_got] in Hsl.
    pose proof (mod_range k Hk (Z.of_nat (length (y_got y)))) as Hm. pose proof (ex_len _ _ _ _ He) as Hlen. cbn [execOf s_ring] in Hlen.
    unfold aget. destruct (_ && _) eqn:E; [|unfold i in E; lia]. unfold i. rewrite Hsl by (rewrite Hs, length_app; simpl; lia).
    rewrite Hs. apply list_lookup_middle. done. }
  exists (consume r). split.
  - eapply rtc_l; [by apply y_peek; [exact Hpk|exact Ep]|]. eapply rtc_l; [|apply rtc_refl].
    by apply (y_consume k wc accepts (mkSys (y_journal y) (y_seq y) r (y_pc y) (Some i) (y_log y) (y_sent y) (y_got y) (y_health y)) i cmd).
  - by rewrite Hrd.
Qed.
End calls.

(** ** One command *)

(** What the program prints for the commands [cmds], from book [a] and sequence number [seq] on. *)
Fixpoint liveOutput (a : ABook) (seq : Z) (cmds : list Command) : Text :=
  match cmds with
  | [] => []
  | cmd :: cmds' =>
      let x := aanswer liveConfig a cmd in
      concat (tradeLine <$> ans_trades x) ++ ackLine (seq + 1) ++ liveOutput (ans_book x) (seq + 1) cmds'
  end.

Lemma concat_none {A} (f : A → OutboundEvent) (xs : list A) :
  (∀ x, eventText (f x) = []) → concat (eventText <$> (f <$> xs)) = [].
Proof. intros H. induction xs as [|x xs IH]; [done|]. cbn. by rewrite H. Qed.

Lemma tradeEvents_text q ts : concat (eventText <$> tradeEvents q ts) = concat (tradeLine <$> ts).
Proof. unfold tradeEvents. by rewrite <- list_fmap_compose. Qed.

(** Of the events of a command only the trades are printed. *)
Lemma events_text q a cmd :
  let x := aanswer liveConfig a cmd in concat (eventText <$> events q cmd x) = concat (tradeLine <$> ans_trades x).
Proof.
  assert (Hf : ∀ id side r, eventText (fateEvent q id side r) = []) by (intros; unfold fateEvent; by case_match).
  assert (Hv : ∀ vs, concat (eventText <$> victimEvents q vs) = []) by (intros; by apply concat_none).
  unfold aanswer. destruct (cm_kind cmd); cbn [events ans_trades].
  - rewrite !fmap_app, !concat_app, tradeEvents_text, Hv. case_bool_decide; cbn; by rewrite Hf, !app_nil_r.
  - by case_bool_decide.
  - pose proof (areplace_early liveConfig a (cm_id cmd) (toFreshOrder cmd)) as [_ He].
    destruct (areplace _ _ _ _) as [out [o|]]; cbn [fst snd] in *.
    + rewrite !fmap_app, !concat_app, tradeEvents_text, Hv. cbn. by rewrite Hf, !app_nil_r.
    + destruct (He eq_refl) as [-> _]. done.
Qed.

Section live.
Context (k : Z) (Hk : 0 <= k <= 63) (wc : WriterConfig) (Hwc : writer_config_ok wc) (worst : Fault).
Context (pad : Z → list Z) (Hpad : ∀ n, valid_pad (pad n)) (every : Z).
Context (base : list JournalRecord) (baseCmds : list Command) (Hbase : Forall2 (holds (valid_command liveConfig)) base baseCmds).
#[local] Abbreviation c := liveConfig.
#[local] Abbreviation steps := (rtc (sys_step k wc (valid_command c))).
#[local] Abbreviation good := (sys_ok k wc (valid_command c) worst base).

Lemma steps_good y y' : good y → steps y y' → good y'.
Proof using Hk Hwc. intros Hy Hs. induction Hs as [|y y1 y2 Hst _ IH]; [done|]. apply IH. by eapply sys_step_ok. Qed.

(** The program between two commands, when [done] have been acknowledged. *)
Record idle (done : list Command) (y : Sys) (st : LiveState) : Prop := {
  id_good : good y;
  id_seqr : lv_seqr st = sequencerOf y;
  id_pc : y_pc y = PcIdle;
  id_health : y_health y = Sound;
  id_peeked : y_peeked y = None;
  id_sent : y_sent y = done;
  id_got : y_got y = done;
  id_log : length (y_log y) = (length base + length done)%nat;
  id_thread : thread_ok c (lv_matching st);
  id_out : mt_out (lv_matching st) = [];
  id_book : abs (mt_book (lv_matching st)) = stateAfter c (baseCmds ++ done);
  id_commands : commands_ok c (baseCmds ++ done);
  id_processed : lv_processed st = Z.of_nat (length done);
  id_submitted : lv_submitted st = Z.of_nat (length done)
}.

(** The matching thread takes the one command that waits, and its trades are printed. *)
Lemma wait_ok done y m cmd :
  good y → y_peeked y = None → y_got y = done → y_sent y = done ++ [cmd] → thread_ok c m → mt_out m = [] →
  abs (mt_book m) = stateAfter c (baseCmds ++ done) → commands_ok c (baseCmds ++ done) →
  Z.of_nat (length (baseCmds ++ done)) < INT64_MAX → valid_command c cmd →
  fitsOne (aanswer c (stateAfter c (baseCmds ++ done)) cmd) = true →
  let processed := Z.of_nat (length done) in
  let y' r := mkSys (y_journal y) (y_seq y) r (y_pc y) None (y_log y) (y_sent y) (done ++ [cmd]) (y_health y) in
  ∃ r m', steps y (y' r) ∧ waitProcessed k 1 m (y_ring y) processed (u64 (processed + 1)) = Some (m', r, processed + 1) ∧
    thread_ok c m' ∧ abs (mt_book m') = stateAfter c (baseCmds ++ done ++ [cmd]) ∧
    (drainOut m').1 = concat (tradeLine <$> ans_trades (aanswer c (stateAfter c (baseCmds ++ done)) cmd)).
Proof using Hk Hwc.
  intros Hy Hpk Hg Hs Hm Ho Hb Hcm Hl Hv Hf processed y'. unfold y'. rewrite <- Hg in Hs.
  destruct (turn_runs k Hk wc (valid_command c) worst base y cmd m processed Hy Hpk Hs) as (r & Hst & Ht).
  destruct (stateAfter_ok c _ liveConfig_ok Hcm) as (_ & _ & Hsq). rewrite <- Hb in Hsq.
  apply andb_true_iff in Hf as [Hf1 Hf2]. rewrite <- Hb in Hf1, Hf2.
  destruct (dispatch_ok c liveConfig_ok m cmd Hm Hv) as (m' & Hd & Hm' & Hb' & _ & Ho'); [|lia..|].
  { change (ab_seq (abs (mt_book m)) < INT64_MAX). lia. }
  rewrite Hd in Ht. cbn [mbind option_bind] in Ht.
  assert (Hu : u64 (processed + 1) = processed + 1).
  { apply u64_id. unfold in_u64, INT64_MAX, processed in *. rewrite length_app in Hl. lia. }
  exists r, m'. split; [by rewrite Hg in Hst|]. split; [|split; [done|]].
  - unfold processed in *. cbn [waitProcessed]. rewrite Hu in *. destruct (_ <? _) eqn:E; [|lia]. rewrite Ht. simpl_bind.
    by rewrite Z.ltb_irrefl.
  - rewrite Ho in Ho'. split.
    + rewrite app_assoc, stateAfter_snoc, <- Hb. exact Hb'.
    + cbn [drainOut fst]. rewrite Ho', Hb. apply (events_text _ (stateAfter c (baseCmds ++ done)) cmd).
Qed.

Lemma liveCommand_ok done y st cmd :
  idle done y st → valid_command c cmd → command_i64 cmd → Z.of_nat (length base + length done) + 1 < kMaxRecords →
  fitsOne (aanswer c (stateAfter c (baseCmds ++ done)) cmd) = true →
  ∃ x y', liveCommand k wc pad every st cmd = Some x ∧ steps y y' ∧
    match x with
    | inl st' => lv_seqr st' = sequencerOf y' ∧ y_sent y' = done ∧ lv_out st' = lv_out st ∧ y_health y' = Failed
    | inr st' => idle (done ++ [cmd]) y' st' ∧
        lv_out st' = lv_out st ++ concat (tradeLine <$> ans_trades (aanswer c (stateAfter c (baseCmds ++ done)) cmd)) ++
          ackLine (Z.of_nat (length base + length done) + 1)
    end.
Proof using Hk Hwc Hpad Hbase.
  intros [Hy Hq Hpc Hhe Hpk Hs Hg Hlog Hm Ho Hb Hcm Hp Hsub] Hv Hi Hl Hf. unfold liveCommand. rewrite Hq.
  pose proof (Forall2_length _ _ _ Hbase) as Hlb.
  pose proof (yk_seq _ _ _ _ _ _ Hy) as Hseq.
  destruct (submit_runs k Hk wc Hwc (valid_command c) worst base y (cm_kind cmd) (pad (y_seq y)) cmd Hy Hpc Hhe) as
    (s & y1 & Hsb & Hst1 & Hout); [by rewrite Hs, Hg|done|done|lia|done|done|].
  cbn [sequencerOf sq_seq]. rewrite Hsb. simpl_bind. pose proof (steps_good _ _ Hy Hst1) as Hy1.
  destruct Hout as [y1 Hh1 _ Hs1 _|y1 Hpc1 Hh1 Hl1 Hs1 Hg1 Hpk1 Hsq1]; cbn [Z.eqb].
  { eexists _, y1. split; [done|]. split; [done|]. cbn. by rewrite Hs1. }
  destruct (_ =? 0) eqn:E0; [lia|]. rewrite Hp, Hsub.
  destruct (wait_ok done y1 (lv_matching st) cmd Hy1) as (r & m' & Hst2 & Hw & Hm' & Hb' & Ht); try done; try congruence.
  { rewrite length_app. unfold INT64_MAX, kMaxRecords in *. lia. }
  cbn [sequencerOf sq_ring]. rewrite Hw. simpl_bind. eexists _, _. split; [done|].
  split; [by etransitivity|]. cbn [lv_out]. split.
  - split; cbn; try done.
    + by eapply steps_good.
    + by rewrite Hs1, Hs.
    + rewrite length_app. simpl. lia.
    + by destruct Hm' as [? ? ?].
    + destruct Hcm as (? & ? & ?). split; [|split]; rewrite ?app_assoc.
      * apply Forall_app. split; [done|by constructor].
      * apply Forall_app. split; [done|by constructor].
      * rewrite !length_app. simpl. unfold INT64_MAX, kMaxRecords in *. lia.
    + rewrite length_app. simpl. lia.
    + rewrite length_app. simpl. rewrite u64_id; [lia|]. unfold in_u64, kMaxRecords in *. lia.
  - unfold drainOut in Ht. cbn [fst] in Ht. rewrite Ht. by rewrite Hseq, Hlog.
Qed.

(** What the loop leaves: the commands of the lines have been acknowledged, up to a failed append. *)
Lemma liveLoop_ok lines scs done y st :
  loadScenarioStream lines = Some scs → idle done y st →
  let cmds := toIpcCommand <$> scs in
  Forall (valid_command c) cmds → Forall command_i64 cmds → fits c (stateAfter c (baseCmds ++ done)) cmds = true →
  Z.of_nat (length base + length done + length cmds) < kMaxRecords →
  ∃ code st' acked rest y', liveLoop k wc pad every st lines = Some (code, st') ∧ steps y y' ∧
    cmds = acked ++ rest ∧ code = (if rest then 0 else 1) ∧ lv_seqr st' = sequencerOf y' ∧ y_sent y' = done ++ acked ∧ y_health y' ≠ Reused ∧
    lv_out st' = lv_out st ++ liveOutput (stateAfter c (baseCmds ++ done)) (Z.of_nat (length base + length done)) acked.
Proof using Hk Hwc Hpad Hbase.
  revert scs done y st. induction lines as [|line lines IH]; intros scs done y st Hld Hid cmds Hv Hi Hf Hl;
    cbn [loadScenarioStream liveLoop] in Hld |- *.
  - injection Hld as <-. exists 0, st, [], [], y. rewrite !app_nil_r. destruct Hid as [? ? ? Hh]. rewrite Hh. done.
  - destruct (parseScenarioLine line) as [sc|]; [|done]. cbn [mbind option_bind] in Hld |- *.
    destruct (loadScenarioStream lines) as [scs'|]; [|done]. cbn [mbind option_bind] in Hld.
    destruct sc as [sc|]; [|by eapply IH; [..|exact Hid|exact Hv|exact Hi|exact Hf|exact Hl]].
    injection Hld as <-. unfold cmds in *. clear cmds. rewrite fmap_cons in *. cbn [fits length] in *.
    apply Forall_cons in Hv as [Hv Hvs]. apply Forall_cons in Hi as [Hi His]. apply andb_true_iff in Hf as [Hf Hfs].
    destruct (liveCommand_ok done y st (toIpcCommand sc) Hid Hv Hi ltac:(lia) Hf) as (x & y1 & -> & Hst & Hx).
    simpl_bind. destruct x as [st1|st1].
    + destruct Hx as (Hq & Hs & Ho & Hh). eexists 1, st1, [], _, y1. split; [done|]. split; [done|]. split; [done|].
      split; [done|]. split; [done|]. cbn [liveOutput]. rewrite !app_nil_r, Hh. done.
    + destruct Hx as (Hid1 & Ho). rewrite <- stateAfter_snoc, <- app_assoc in Hfs.
      destruct (IH scs' (done ++ [toIpcCommand sc]) y1 st1 eq_refl Hid1 Hvs His Hfs) as
        (code & st' & acked & rest & y' & Hlp & Hst' & Hcm & Hcode & Hq & Hs & Hh & Ho'); [rewrite length_app; simpl; lia|].
      exists code, st', (toIpcCommand sc :: acked), rest, y'. split; [done|]. split; [by etransitivity|].
      split; [by rewrite Hcm|]. split; [done|]. split; [done|]. split; [by rewrite Hs, <- app_assoc|]. split; [done|].
      rewrite Ho', Ho. cbn [liveOutput]. rewrite (app_assoc baseCmds), stateAfter_snoc, length_app, <- !app_assoc. cbn [length].
      do 4 f_equal. lia.
Qed.
End live.

(** ** Starting, being killed and recovering *)

#[local] Abbreviation c := liveConfig.

(** A directory from which the journal reads as the commands [cmds]. *)
Definition journalHolds (d : Dir) (cmds : list Command) : Prop :=
  ∃ fs lst, image d fs lst ∧ consecutive 0 (imageRecords fs lst) ∧
    Forall2 (holds (valid_command c)) (imageRecords fs lst) cmds.

Lemma recoverAndStart_parts k fuel d sy snaps io resumed rr sh :
  recoverAndStart k fuel d sy snaps io c = Some (resumed, rr, sh) →
  recover fuel d snaps (bookNew c) = Some (rr, mt_book (sh_matching sh)) ∧ sh_recoveredSeq sh = rc_lastSeq rr ∧
  liveStart k fuel d sy snaps io =
    Some (resumed, mkLive (matchingNew (mt_book (sh_matching sh)) 0) (sh_sequencer sh) 0 0 [] []).
Proof.
  unfold recoverAndStart, liveStart. destruct (recover _ _ _ _) as [[rr' b]|]; [|done]. simpl_bind.
  destruct (if rc_hasJournalSegment rr' then _ else _) as [res w]. intros [= <- <- <-]. done.
Qed.

Lemma liveWriter_ok g : g < 18446744073709551616 → writer_config_ok (liveWriter g).
Proof. intros Hg. unfold writer_config_ok, liveWriter, writerConfig. cbn. destruct (0 <? g) eqn:E; cbn; repeat case_match; lia. Qed.

(** The state in front of the loop. *)
Lemma liveStart_ok worst k wc fuel d sy snaps n io baseCmds :
  0 <= k <= 63 → writer_config_ok wc → journalHolds d baseCmds → (∃ w0, stopped worst w0 d sy) → snapped c baseCmds snaps n →
  (length baseCmds < fuel)%nat → Z.of_nat (length baseCmds) < kMaxRecords →
  ∃ resumed st, liveStart k fuel d sy snaps io = Some (resumed, st) ∧ lv_out st = [] ∧
    (resumed = true → ∃ base y, Forall2 (holds (valid_command c)) base baseCmds ∧ idle k wc worst base baseCmds [] y st).
Proof.
  intros Hk Hwc (fs & lst & Him & Hcons & Hh) Hw0 Hsn Hf Hl. pose proof (Forall2_length _ _ _ Hh) as Hlen.
  destruct (restart_image k wc Hwc c liveConfig_ok worst d sy fs lst _ baseCmds snaps n io fuel Him eq_refl Hcons) as
    (resumed & rr & sh & Hr & Hth & Hab & _ & _ & Hres); [lia|done|done|lia|].
  destruct (recoverAndStart_parts _ _ _ _ _ _ _ _ _ Hr) as (_ & _ & Hst). eexists resumed, _. split; [exact Hst|].
  split; [done|]. intros Hrs. destruct (Hres Hrs Hw0) as [Hrd Hq]. exists (imageRecords fs lst), (sysNew k (sh_journal sh) (imageRecords fs lst)).
  split; [done|]. destruct (holds_commands _ _ _ Hh) as (_ & Hv & Hi).
  split; cbn [sysNew y_pc y_health y_peeked y_sent y_got y_log lv_matching lv_seqr lv_processed lv_submitted length matchingNew mt_out mt_book]; try done.
  - apply sysNew_ok; [done|done|done|done|lia].
  - apply matchingNew_ok, (th_book _ _ Hth).
  - by rewrite app_nil_r.
  - rewrite app_nil_r. split; [done|]. split; [done|]. unfold INT64_MAX, kMaxRecords in *. lia.
Qed.

Lemma runRecover_prints args fuel d snaps rr b a :
  recover fuel d snaps (bookNew c) = Some (rr, b) → Repr c b a →
  runRecover args fuel d snaps =
    Some (mkRecoverRun (tailWarning rr) (recoveredLine (rc_lastSeq rr) (digest a)) (writeDigestFile (Live.digestOut args) (digest a))).
Proof. intros Hr HR. unfold runRecover. rewrite Hr. simpl_bind. by rewrite (computeDigest_ok c _ _ liveConfig_ok HR). Qed.

Lemma runRecover_ok args d cmds snaps n fuel :
  journalHolds d cmds → snapped c cmds snaps n → (length cmds < fuel)%nat → Z.of_nat (length cmds) < kMaxRecords →
  ∃ run, runRecover args fuel d snaps = Some run ∧
    rn_out run = recoveredLine (Z.of_nat (length cmds)) (digest (stateAfter c cmds)) ∧
    rn_digestFile run = writeDigestFile (Live.digestOut args) (digest (stateAfter c cmds)).
Proof.
  intros (fs & lst & Him & Hcons & Hh) Hsn Hf Hl. pose proof (Forall2_length _ _ _ Hh) as Hlen.
  destruct (restart_image 0 (liveWriter 0) (liveWriter_ok 0 eq_refl) c liveConfig_ok ProcessKill d ∅ fs lst _ cmds snaps n [] fuel Him eq_refl Hcons) as
    (resumed & rr & sh & Hr & Hth & Hab & _ & Hls & _); [lia|done|done|lia|].
  destruct (recoverAndStart_parts _ _ _ _ _ _ _ _ _ Hr) as (Hrec & Hseq & _).
  destruct (th_book _ _ Hth) as [HR _]. rewrite (runRecover_prints args _ _ _ _ _ _ Hrec HR), Hab.
  eexists. split; [done|]. cbn [rn_out rn_digestFile]. by rewrite <- Hseq, Hls.
Qed.

Lemma steps_sent k wc accepts y y' : rtc (sys_step k wc accepts) y y' → y_sent y `prefix_of` y_sent y'.
Proof.
  induction 1 as [|y y1 y2 Hst _ IH]; [done|]. etransitivity; [|exact IH]. destruct Hst; try done.
  - by destruct H0.
  - by destruct H0.
  - by apply prefix_app_r.
Qed.


(** *** An empty directory and two orders that trade *)

Definition demoLine : Text := str "NEW 1 BUY 100 10 7".
Definition demoLines : list Text := [demoLine; str "# a comment"; str "NEW 2 SELL 100 4 8"].
Definition demoScenario : list ScenarioCommand :=
  [mkScenario SNew 1 0 Buy 1000000 10 7 Limit; mkScenario SNew 2 0 Sell 1000000 4 8 Limit].
Definition noSnapshots : SnapDir := mkSnapDir None ∅.
Definition liveArgs : Live.LiveArgs := Live.mkArgs (str "live") (str "j") 0 0 [].

Lemma demoLines_load : loadScenarioStream demoLines = Some demoScenario.
Proof. vm_compute. reflexivity. Qed.

Lemma emptyDir_holds : journalHolds ∅ [].
Proof.
  exists [], None. split; [|by split]. split; cbn; try done; try by constructor. split; constructor.
Qed.

Lemma demo_fits : fits c (stateAfter c []) (toIpcCommand <$> demoScenario) = true.
Proof. vm_compute. reflexivity. Qed.

Lemma demo_valid : Forall (valid_command c) (toIpcCommand <$> demoScenario).
Proof. repeat (apply Forall_cons; split; [by split; vm_compute|]). constructor. Qed.

Lemma demo_i64 : Forall command_i64 (toIpcCommand <$> demoScenario).
Proof. repeat (apply Forall_cons; split; [by repeat split; vm_compute|]). constructor. Qed.

(** Recovery of an empty directory does not look at the book. *)
Lemma recover_empty b : recover 1 ∅ noSnapshots b = Some (mkRecovery RecOk 0 false 0 0 0, b).
Proof. vm_compute. reflexivity. Qed.

Definition firstSeqr : Sequencer := mkSequencer (writerNew ∅ ∅ []) (spscNew kInRing emptyCommand) 0.
Definition firstState : LiveState := mkLive (matchingNew (bookNew c) 0) firstSeqr 0 0 [] [].

Lemma start_empty : liveStart kInRing 1 ∅ ∅ noSnapshots [] = Some (true, firstState).
Proof. unfold liveStart. rewrite recover_empty. reflexivity. Qed.


(** ** With a group commit

    What a crash leaves when every unsynced byte is lost. *)
Definition lostTails (w : JournalWriter) : Dir := map_imap (λ p bs, Some (take (synced w p) bs)) (jw_dir w).

Lemma lostTails_crashed w : crashed w (lostTails w).
Proof.
  intros p. unfold lostTails. rewrite map_lookup_imap. destruct (jw_dir w !! p) as [bs|]; cbn; [|done].
  exists (synced w p). done.
Qed.

Lemma liveCommand_acked k wc pad every st cmd bytes q0 acked q x :
  lv_seqr st = q0 → pad (sq_seq q0) = bytes → submit k wc [id] q0 (cm_kind cmd) bytes cmd = Some (acked, q) → acked ≠ 0 →
  liveCommand k wc pad every st cmd = Some x → ∃ st', x = inr st' ∧ sq_journal (lv_seqr st') = sq_journal q.
Proof.
  unfold liveCommand. intros -> -> -> Ha. simpl_bind. destruct (_ =? 0) eqn:E; [lia|].
  destruct (waitProcessed _ _ _ _ _ _) as [[[m r] processed]|]; [|done]. simpl_bind. intros [= <-]. by eexists.
Qed.

Definition firstOrder : ScenarioCommand := mkScenario SNew 1 0 Buy 1000000 10 7 Limit.
#[local] Abbreviation firstCommand := (toIpcCommand firstOrder).
#[local] Abbreviation firstSubmit := (submit kInRing (liveWriter 2) [id] firstSeqr (cm_kind firstCommand) noPad firstCommand).

Lemma liveLoop_one k wc pad every st line sc st' :
  parseScenarioLine line = Some (Some sc) → liveCommand k wc pad every st (toIpcCommand sc) = Some (inr st') →
  liveLoop k wc pad every st [line] = Some (0, st').
Proof. intros Hp Hx. cbn [liveLoop]. rewrite Hp. cbn [mbind option_bind]. by rewrite Hx. Qed.

(** The record of the first command is in the file but not synced. *)
Lemma firstSubmit_unsynced : ∃ q, firstSubmit = Some (1, q) ∧
  ∀ b, ∃ rr, recover 1 (lostTails (sq_journal q)) noSnapshots b = Some (rr, b) ∧ rc_lastSeq rr = 0.
Proof.
  assert (H : ∀ b, option_map (λ x, (x.1, option_map snd (recover 1 (lostTails (sq_journal x.2)) noSnapshots b),
      rc_lastSeq ∘ fst <$> recover 1 (lostTails (sq_journal x.2)) noSnapshots b)) firstSubmit = Some (1, Some b, Some 0))
    by (intros b; vm_compute; reflexivity).
  destruct firstSubmit as [[acked q]|]; [|by specialize (H (bookNew c))]. exists q. split.
  - specialize (H (bookNew tapeConfig)). cbn [option_map fst snd] in H. by injection H as -> _ _.
  - intros b. specialize (H b). cbn [option_map fst snd] in H. injection H as _ H1 H2.
    destruct (recover _ _ _ _) as [[rr b']|]; [|done]. injection H1 as ->. injection H2 as H2. by exists rr.
Qed.

(** With [--group-commit=2] the first command is acknowledged before its record is synced, and
    a crash that loses the unsynced bytes recovers the empty book: the promise at the top of the
    file holds for the default policy only. *)
Lemma group_commit_loses_acknowledged : ∃ st st' run,
  liveStart kInRing 1 ∅ ∅ noSnapshots [] = Some (true, st) ∧
  liveLoop kInRing (liveWriter 2) (λ _, noPad) 0 st [demoLine] = Some (0, st') ∧ lv_out st' = ackLine 1 ∧
  crashed (sq_journal (lv_seqr st')) (lostTails (sq_journal (lv_seqr st'))) ∧
  runRecover liveArgs 1 (lostTails (sq_journal (lv_seqr st'))) noSnapshots = Some run ∧
  rn_out run = recoveredLine 0 (digest emptyABook).
Proof.
  destruct (liveStart_ok MachineFailure kInRing (liveWriter 2) 1 ∅ ∅ noSnapshots 0 [] [] ltac:(done) (liveWriter_ok 2 eq_refl) emptyDir_holds (stopped_empty _)) as (res & st & Hst & Ho & Hid).
  { split; [lia|]. left. split; [done|]. by vm_compute. }
  { simpl. lia. }
  { by vm_compute. }
  rewrite start_empty in Hst. injection Hst as <- <-. destruct (Hid eq_refl) as (base & y & Hb & Hi0).
  apply Forall2_nil_inv_r in Hb as Hbn. subst base.
  destruct (liveCommand_ok kInRing ltac:(done) (liveWriter 2) (liveWriter_ok 2 eq_refl) MachineFailure (λ _, noPad) (λ _, noPad_ok) 0 [] [] Hb [] y firstState firstCommand Hi0)
    as (x & y' & Hx & _ & Hm); [by split; vm_compute|by repeat split; vm_compute|by vm_compute|by vm_compute|].
  destruct firstSubmit_unsynced as (q & Hs & Hq). destruct (Hq (bookNew c)) as (rr & Hr & Hrl).
  destruct (liveCommand_acked _ _ (λ _, noPad) 0 firstState firstCommand noPad firstSeqr 1 q x eq_refl eq_refl Hs ltac:(done) Hx) as (st' & -> & Hj). destruct Hm as [_ Hout].
  exists firstState, st'. eexists. split; [exact start_empty|]. split; [|split; [|split; [apply lostTails_crashed|]]].
  - apply (liveLoop_one _ _ _ _ _ _ firstOrder); [vm_compute; reflexivity|exact Hx].
  - rewrite Hout, Ho. vm_compute. reflexivity.
  - rewrite Hj. split; [exact (runRecover_prints _ _ _ _ _ _ _ Hr (bookNew_ok c liveConfig_ok))|].
    cbn [rn_out]. by rewrite Hrl.
Qed.
