(* ===== verification/Visualizer.v ===== *)
(** The visualizer program and its page: [viz/snapshot_json.hpp], [apps/velox_viz.cpp] and
    [viz/web/app.js].

    Twenty times a second the program turns its ladder into a JSON text and pushes it to every
    browser; the page keeps the last one, counts trades and marks the levels that have changed.
    [VizClaims] shows that a page that gets the text of a ladder has the best levels of the book.

    [JSON.parse] is modelled on the texts the programs write: no blanks, no escapes, no literals,
    integers only.  JavaScript's numbers are doubles: an integer is rounded to 53 significant
    bits when it is read ([toDouble]) and when two are subtracted.  Times are in microseconds. *)
From Stdlib Require Import String.
From stdpp Require Import gmap.
From S2P Require Import Base64 SegmentNames Jwt AdminHttp Scenario Options.
From S2P Require Import Prelude Types Wire Messages FeedCodec Ladder Sha1 WsServer.
#[local] Open Scope Z_scope.

(** ** The text *)

(** [if (!first) ss << ","; first = false;] before every item. *)
Fixpoint commaItems (first : bool) (items : list Text) : Text :=
  match items with
  | [] => []
  | x :: items' => (if first then [] else [44]) ++ x ++ commaItems false items'
  end.

Definition levelJson (x : Z * Z * Z) : Text :=
  let '(p, q, n) := x in [91] ++ intText p ++ [44] ++ intText q ++ [44] ++ intText n ++ [93].

Definition sideLetter (b : Z) : Text := if b =? sideCode Buy then str "B" else str "S".

Definition printJson (t : TradePrint) : Text :=
  [123] ++ quoted (str "px") ++ [58] ++ intText (tp_price t) ++ [44] ++ quoted (str "qty") ++ [58] ++ intText (tp_qty t) ++
  [44] ++ quoted (str "side") ++ [58] ++ quoted (sideLetter (tp_aggressorSide t)) ++ [125].

Definition buildBookSnapshotJson (l : Ladder) (seq : Z) (topN : nat) : Text :=
  [123] ++ quoted (str "t") ++ [58] ++ quoted (str "book") ++ [44] ++ quoted (str "seq") ++ [58] ++ intText seq ++
  [44] ++ quoted (str "bids") ++ [58; 91] ++ commaItems true (levelJson <$> top l Buy topN) ++ [93] ++
  [44] ++ quoted (str "asks") ++ [58; 91] ++ commaItems true (levelJson <$> top l Sell topN) ++ [93] ++
  [44] ++ quoted (str "trades") ++ [58; 91] ++ commaItems true (printJson <$> ld_trades l) ++ [93] ++
  [44] ++ quoted (str "tradeCount") ++ [58] ++ intText (ld_tradeCount l) ++ [125].

(** ** The program *)

(** The completion of the ladder timer. *)
Definition ladderTick (maxQueueBytes : Z) (args : Viz.VizArgs) (v : WsServer) (cl : MdClient) : option WsServer :=
  if negb (bool_decide (wv_sessions v = []))
  then broadcastText maxQueueBytes v (buildBookSnapshotJson (cl_ladder cl) (cl_lastSeq cl) (Z.to_nat (Viz.topN args)))
  else Some v.

(** The callback of the stats client. *)
Definition onStatsLine (maxQueueBytes : Z) (v : WsServer) (line : Text) : option WsServer := broadcastText maxQueueBytes v line.

(** What [main] connects to: the feed and, if asked for, the stats; [None] is exit code 2. *)
Definition vizTargets (args : Viz.VizArgs) : option ((Text * Text) * option (Text * Text)) :=
  if bool_decide (Viz.mdHostPort args = []) then None
  else
    md ← Viz.splitHostPort (Viz.mdHostPort args);
    if bool_decide (Viz.statsHostPort args = []) then Some (md, None)
    else stats ← Viz.splitHostPort (Viz.statsHostPort args); Some (md, Some stats).

(** ** JSON *)

(** The double nearest to an integer, ties to even: [e] is the exponent of its last bit. *)
Definition exponent (a : Z) : Z := Z.max 0 (Z.log2 a - 52).

Definition toDouble (n : Z) : Z :=
  let a := Z.abs n in
  let e := exponent a in
  let q := Z.shiftr a e in
  let r := a - Z.shiftl q e in
  let up := (2 ^ e <? 2 * r) || (2 ^ e =? 2 * r) && Z.odd q in
  Z.sgn n * Z.shiftl (if up then q + 1 else q) e.

(** [JNum]: the value of a number that is an integer. *)
Inductive Json :=
  | JNum (n : Z)
  | JStr (s : Text)
  | JArr (vs : list Json)
  | JObj (ms : list (Text * Json)).

Definition readInt (s : Text) : option (Z * Text) :=
  let neg := bool_decide (head s = Some 45) in
  let t := if neg then tl s else s in
  match takeWhile isDigit t with
  | [] => None
  | ds => Some (if neg then - number ds else number ds, dropWhile isDigit t)
  end.

Definition readNumber (s : Text) : option (Z * Text) := '(n, s) ← readInt s; Some (toDouble n, s).

(** The rest behind the character [x]. *)
Definition skip (x : Z) (s : Text) : option Text :=
  match s with y :: s' => if y =? x then Some s' else None | [] => None end.

Fixpoint readValue (fuel : nat) (s : Text) : option (Json * Text) :=
  match fuel with
  | O => None
  | S fuel' =>
      match skip 34 s, skip 91 s, skip 123 s with
      | Some s, _, _ => '(t, s) ← untilChar 34 s; Some (JStr t, s)
      | _, Some s, _ =>
          match skip 93 s with
          | Some s => Some (JArr [], s)
          | None => '(vs, s) ← readElements fuel' s; Some (JArr vs, s)
          end
      | _, _, Some s =>
          match skip 125 s with
          | Some s => Some (JObj [], s)
          | None => '(ms, s) ← readMembers fuel' s; Some (JObj ms, s)
          end
      | _, _, _ => '(n, s) ← readNumber s; Some (JNum n, s)
      end
  end
with readElements (fuel : nat) (s : Text) : option (list Json * Text) :=
  match fuel with
  | O => None
  | S fuel' =>
      '(v, s) ← readValue fuel' s;
      match skip 93 s with
      | Some s => Some ([v], s)
      | None => s ← skip 44 s; '(vs, s) ← readElements fuel' s; Some (v :: vs, s)
      end
  end
with readMembers (fuel : nat) (s : Text) : option (list (Text * Json) * Text) :=
  match fuel with
  | O => None
  | S fuel' =>
      s ← skip 34 s;
      '(k, s) ← untilChar 34 s;
      s ← skip 58 s;
      '(v, s) ← readValue fuel' s;
      match skip 125 s with
      | Some s => Some ([(k, v)], s)
      | None => s ← skip 44 s; '(ms, s) ← readMembers fuel' s; Some ((k, v) :: ms, s)
      end
  end.

Definition jsonParse (s : Text) : option Json :=
  '(v, rest) ← readValue (length s) s;
  match rest with [] => Some v | _ => None end.

(** [o.k] *)
Definition field (o : Json) (k : Text) : option Json :=
  match o with
  | JObj ms => snd <$> last (filter (λ m, m.1 = k) ms)
  | _ => None
  end.

(** [(o.k || 0)] for a field that is a number. *)
Definition countOf (o : Json) (k : Text) : option Z :=
  match field o k with
  | None => Some 0
  | Some (JNum n) => Some n
  | Some _ => None
  end.

(** ** The page *)

Record Page := mkPage {
  pg_book : Json;
  pg_lat : option Json;
  pg_lastBookAt : Z;
  pg_lastLatAt : Z;
  pg_prevLevels : gmap Text Z;
  pg_flashes : gmap Text Z;
  pg_window : list Z;
  pg_lastCount : Z
}.

Definition pageNew : Page :=
  mkPage (JObj [(str "seq", JNum 0); (str "bids", JArr []); (str "asks", JArr []); (str "trades", JArr []); (str "tradeCount", JNum 0)])
    None 0 0 ∅ ∅ [] 0.

Definition msec : Z := 1000.

(** [while (known.length && now - known[0] > 5000) known.shift();] *)
Definition shiftOld (now : Z) (known : list Z) : list Z := dropWhile (λ t, 5000 * msec <? now - t) known.

Definition recordTrades (st : Page) (now : Z) (trades : option Json) : option Page :=
  match trades with
  | None | Some (JArr []) => Some st
  | Some (JArr _) =>
      count ← countOf (pg_book st) (str "tradeCount");
      let newCount := Z.max 0 (toDouble (count - pg_lastCount st)) in
      Some (mkPage (pg_book st) (pg_lat st) (pg_lastBookAt st) (pg_lastLatAt st) (pg_prevLevels st) (pg_flashes st)
              (shiftOld now (pg_window st ++ replicate (Z.to_nat newCount) now)) count)
  | Some _ => None
  end.

(** [msg.t === name] *)
Definition hasType (msg : Json) (name : Text) : bool :=
  match field msg (str "t") with Some (JStr t) => bool_decide (t = name) | _ => false end.

Definition onMessage (st : Page) (now : Z) (data : Text) : option Page :=
  match jsonParse data with
  | None => Some st
  | Some msg =>
      if hasType msg (str "book") then
        recordTrades (mkPage msg (pg_lat st) now (pg_lastLatAt st) (pg_prevLevels st) (pg_flashes st) (pg_window st) (pg_lastCount st))
          now (field msg (str "trades"))
      else if hasType msg (str "lat") then
        Some (mkPage (pg_book st) (Some msg) (pg_lastBookAt st) now (pg_prevLevels st) (pg_flashes st) (pg_window st) (pg_lastCount st))
      else Some st
  end.

(** The connection: [onopen] and [onclose] with the time until the next attempt. *)
Definition onOpen (backoffMs : Z) : Z := 250.
Definition onClose (backoffMs : Z) : Z * Z := (backoffMs, Z.min (backoffMs * 2) 5000).

(** What the drawing of a level remembers: the quantity, and when it last changed.  The key has
    the price as [intText] writes it; JavaScript writes a number beyond 2 ^ 53 with fewer digits
    and zeros behind, but different numbers differently too. *)
Definition levelKey (side : Text) (price : Z) : Text := side ++ [58] ++ intText price.

Definition drawLevel (side : Text) (now : Z) (st : Page) (level : Z * Z) : Page :=
  let key := levelKey side level.1 in
  let changed := match pg_prevLevels st !! key with Some q => negb (q =? level.2) | None => false end in
  mkPage (pg_book st) (pg_lat st) (pg_lastBookAt st) (pg_lastLatAt st)
    (<[key := level.2]> (pg_prevLevels st))
    (if changed then <[key := now]> (pg_flashes st) else pg_flashes st) (pg_window st) (pg_lastCount st).

Definition drawSide (side : Text) (now : Z) (st : Page) (levels : list (Z * Z)) : Page := foldl (drawLevel side now) st levels.

(** The levels of a side as the page destructures them. *)
Definition levelOf (v : Json) : option (Z * Z) :=
  match v with JArr (JNum p :: JNum q :: _) => Some (p, q) | _ => None end.

Definition levelsOf (book : Json) (k : Text) : option (list (Z * Z)) :=
  match field book k with Some (JArr vs) => mapM levelOf vs | _ => None end.

Definition drawLadder (st : Page) (now : Z) : option Page :=
  bids ← levelsOf (pg_book st) (str "bids");
  asks ← levelsOf (pg_book st) (str "asks");
  Some (drawSide (str "ask") now (drawSide (str "bid") now st bids) asks).

(** [tick]: whether the panel is stale, the trades of the last five seconds, and the drawing. *)
Definition bookStale (st : Page) (now : Z) : bool := (3000 * msec <? now - pg_lastBookAt st) && (0 <? pg_lastBookAt st).
Definition recent (st : Page) (now : Z) : nat := length (filter (λ t, now - t <= 5000 * msec) (pg_window st)).

(** A level is drawn with a flash for 0.3 seconds after its quantity has changed. *)
Definition flashing (st : Page) (side : Text) (price now : Z) : bool :=
  match pg_flashes st !! levelKey side price with Some flashAt => negb (flashAt =? 0) && (now - flashAt <? 300 * msec) | None => false end.

(** ** Doubles *)

Lemma toDouble_exact n : Z.abs n <= 2 ^ 53 → toDouble n = n.
Proof.
  intros Hn. unfold toDouble. destruct (decide (Z.abs n = 2 ^ 53)) as [E|E].
  { rewrite E. vm_compute (exponent _). vm_compute (_ || _). destruct (Z.abs_spec n) as [[? He]|[? He]];
      rewrite He in E; [replace n with (2 ^ 53) by lia|replace n with (- 2 ^ 53) by lia]; done. }
  assert (He : exponent (Z.abs n) = 0).
  { unfold exponent. destruct (decide (Z.abs n = 0)) as [->|H0]; [done|].
    enough (Z.log2 (Z.abs n) < 53) by lia. apply Z.log2_lt_pow2; lia. }
  rewrite He, Z.shiftr_0_r, !Z.shiftl_0_r, Z.sub_diag. cbn. rewrite Z.mul_comm. apply Z.abs_sgn.
Qed.

(** It is off by at most half a unit of its last place. *)
Lemma toDouble_near n : 2 * Z.abs (toDouble n - n) <= 2 ^ exponent (Z.abs n).
Proof.
  unfold toDouble. set (a := Z.abs n). set (e := exponent a). assert (He : 0 <= e) by (unfold e, exponent; lia).
  rewrite !Z.shiftl_mul_pow2, Z.shiftr_div_pow2 by done. assert (Hp : 0 < 2 ^ e) by (apply Z.pow_pos_nonneg; lia).
  pose proof (Z.div_mod a (2 ^ e) ltac:(lia)) as Hdm. pose proof (Z.mod_pos_bound a (2 ^ e) Hp) as Hr.
  set (q := a / 2 ^ e) in *. replace (a - q * 2 ^ e) with (a mod 2 ^ e) by lia. set (r := a mod 2 ^ e) in *.
  assert (Hn : n = Z.sgn n * a) by (unfold a; rewrite Z.mul_comm; symmetry; apply Z.abs_sgn).
  assert (Hs : ∀ x, Z.abs (Z.sgn n * x - n) <= Z.abs (x - a)).
  { intros x. rewrite Hn at 2. rewrite <- Z.mul_sub_distr_l, Z.abs_mul. destruct n; cbn; lia. }
  destruct ((2 ^ e <? 2 * r) || (2 ^ e =? 2 * r) && Z.odd q) eqn:Eu.
  - specialize (Hs ((q + 1) * 2 ^ e)). assert (2 ^ e <= 2 * r) by lia. nia.
  - specialize (Hs (q * 2 ^ e)). apply orb_false_iff in Eu as [Eu _]. nia.
Qed.

(** ** Reading back what was written *)

Fixpoint jsonText (v : Json) : Text :=
  match v with
  | JNum n => intText n
  | JStr s => quoted s
  | JArr vs => [91] ++ commaItems true (map jsonText vs) ++ [93]
  | JObj ms => [123] ++ commaItems true (map (λ m, quoted m.1 ++ [58] ++ jsonText m.2) ms) ++ [125]
  end.

Definition memberText (m : Text * Json) : Text := quoted m.1 ++ [58] ++ jsonText m.2.

(** No quotes in strings and no numbers of more than 19 digits. *)
Fixpoint json_ok (v : Json) : Prop :=
  match v with
  | JNum n => - 2 ^ 63 <= n < 2 ^ 64
  | JStr s => plain s
  | JArr vs => fold_right (λ v P, json_ok v ∧ P) True vs
  | JObj ms => fold_right (λ m P, (plain m.1 ∧ json_ok m.2) ∧ P) True ms
  end.

Lemma untilChar_plain s r : plain s → untilChar 34 (s ++ 34 :: r) = Some (s, r).
Proof.
  induction 1 as [|x s Hx _ IH]; [done|]. cbn. destruct (x =? 34) eqn:E; [lia|]. cbn in IH. by rewrite IH.
Qed.

Lemma readInt_int n r : - 2 ^ 63 <= n < 2 ^ 64 → match r with [] => True | x :: _ => isDigit x = false end →
  readInt (intText n ++ r) = Some (n, r).
Proof.
  intros Hn Hr. unfold intText. destruct (n <? 0) eqn:E.
  - destruct (decimal_number 20 (- n)) as (Hv & Hd & Hne); [lia|lia|]. generalize dependent (decimal 20 (- n)). intros ds Hv Hd Hne.
    unfold readInt. cbn [app head tl]. case_bool_decide; [|done]. destruct (while_ends isDigit ds r Hd Hr) as [-> ->].
    destruct ds as [|x ds]; [done|]. rewrite Hv. do 2 f_equal. lia.
  - destruct (decimal_number 20 n) as (Hv & Hd & Hne); [lia|lia|]. generalize dependent (decimal 20 n). intros ds Hv Hd Hne.
    unfold readInt. case_bool_decide as Hh.
    { destruct Hd as [|x ds Hx _]; [done|]. injection Hh as ->. by vm_compute in Hx. }
    destruct (while_ends isDigit ds r Hd Hr) as [-> ->]. destruct ds as [|x ds]; [done|]. by rewrite Hv.
Qed.

(** A value with its numbers rounded. *)
Fixpoint rounded (v : Json) : Json :=
  match v with
  | JNum n => JNum (toDouble n)
  | JStr s => JStr s
  | JArr vs => JArr (map rounded vs)
  | JObj ms => JObj (map (λ m, (m.1, rounded m.2)) ms)
  end.

Definition roundedMember (m : Text * Json) : Text * Json := (m.1, rounded m.2).

Lemma commaItems_cons x y items : commaItems true (x :: y :: items) = x ++ [44] ++ commaItems true (y :: items).
Proof. done. Qed.

(** What a value starts with decides how it is read. *)
Lemma jsonText_head v : json_ok v → ∃ x s, jsonText v = x :: s ∧ x ≠ 93 ∧ x ≠ 125 ∧
  (if x =? 34 then ∃ t, v = JStr t else if x =? 91 then ∃ vs, v = JArr vs else if x =? 123 then ∃ ms, v = JObj ms else ∃ n, v = JNum n).
Proof.
  intros Hv. destruct v as [n|t|vs|ms]; cbn [jsonText].
  - cbn in Hv. unfold intText. destruct (n <? 0) eqn:E; [by eexists 45, _; split_and!; [..|by eexists]|].
    destruct (decimal_number 20 n) as (_ & Hd & Hne); [lia|lia|]. generalize dependent (decimal 20 n). intros ds Hd Hne.
    destruct Hd as [|x ds Hx _]; [done|]. exists x, ds. unfold isDigit in Hx.
    split_and!; [done|lia|lia|]. repeat (case_match; [lia|]). by eexists.
  - eexists 34, _. split_and!; try done. by eexists.
  - eexists 91, _. split_and!; try done. by eexists.
  - eexists 123, _. split_and!; try done. by eexists.
Qed.

Lemma skip_ne x y s : y ≠ x → skip x (y :: s) = None.
Proof. intros H. cbn. destruct (y =? x) eqn:E; [lia|done]. Qed.

Lemma skip_eq x s : skip x (x :: s) = Some s.
Proof. cbn. by rewrite Z.eqb_refl. Qed.

Definition stops (r : Text) : Prop := match r with [] => True | x :: _ => isDigit x = false end.

Lemma memberText_app k v s : memberText (k, v) ++ s = 34 :: k ++ 34 :: 58 :: jsonText v ++ s.
Proof. unfold memberText, quoted. cbn [fst snd app]. by rewrite <- !app_assoc. Qed.

Lemma memberText_length k v : (length (jsonText v) < length (memberText (k, v)))%nat.
Proof. unfold memberText, quoted. rewrite !length_app. simpl. lia. Qed.

Lemma json_reads n :
  (∀ v r, json_ok v → (length (jsonText v) <= n)%nat → stops r → readValue n (jsonText v ++ r) = Some (rounded v, r)) ∧
  (∀ vs r, vs ≠ [] → json_ok (JArr vs) → (length (commaItems true (map jsonText vs)) < n)%nat →
     readElements n (commaItems true (map jsonText vs) ++ 93 :: r) = Some (map rounded vs, r)) ∧
  (∀ ms r, ms ≠ [] → json_ok (JObj ms) → (length (commaItems true (map memberText ms)) < n)%nat →
     readMembers n (commaItems true (map memberText ms) ++ 125 :: r) = Some (map roundedMember ms, r)).
Proof.
  induction n as [|n (IHv & IHe & IHm)].
  { split_and!; [|intros; lia..]. intros v r Hv Hl. destruct (jsonText_head v Hv) as (x & s & Hx & _). rewrite Hx in Hl. simpl in Hl. lia. }
  split_and!.
  - intros v r Hv Hl Hr. destruct v as [m|t|vs|ms].
    + destruct (jsonText_head _ Hv) as (x & s & Hx & _ & _ & Hd). pose proof (readInt_int m r Hv Hr) as Hm.
      cbn [jsonText] in Hx |- *. rewrite Hx in Hm |- *. cbn [readValue]. rewrite <- app_comm_cons in *.
      destruct (x =? 34) eqn:E1; [by destruct Hd|]. destruct (x =? 91) eqn:E2; [by destruct Hd|].
      destruct (x =? 123) eqn:E3; [by destruct Hd|]. rewrite !skip_ne by lia. unfold readNumber. by rewrite Hm.
    + cbn [readValue jsonText] in *. unfold quoted. cbn [app]. rewrite <- app_assoc. cbn [app]. rewrite skip_eq.
      by rewrite untilChar_plain.
    + cbn [readValue jsonText] in *. cbn [app]. rewrite skip_ne, skip_eq by done. destruct vs as [|v vs].
      { cbn [map commaItems app]. by rewrite skip_eq. }
      rewrite <- app_assoc. cbn [app].
      destruct (jsonText_head v (proj1 Hv)) as (x & s & Hx & H1 & H2 & _).
      assert (Hs : skip 93 (commaItems true (map jsonText (v :: vs)) ++ 93 :: r) = None) by (cbn [map commaItems]; rewrite Hx; by apply skip_ne).
      rewrite Hs, IHe; [done|done|done|]. rewrite length_app, length_app in Hl. simpl in Hl |- *. lia.
    + cbn [readValue]. cbn [jsonText] in *. fold memberText in *. cbn [app]. rewrite !skip_ne, skip_eq by done. destruct ms as [|m ms].
      { cbn [map commaItems app]. by rewrite skip_eq. }
      rewrite <- app_assoc. cbn [app].
      assert (Hs : skip 125 (commaItems true (map memberText (m :: ms)) ++ 125 :: r) = None) by done.
      rewrite Hs, IHm; [done|done|done|]. rewrite length_app, length_app in Hl. simpl in Hl |- *. lia.
  - intros vs r Hne Hv Hl. destruct vs as [|v vs]; [done|]. destruct Hv as [Hv Hvs]. cbn [readElements map] in *.
    destruct vs as [|w vs].
    + cbn [map commaItems app] in *. rewrite app_nil_r in *. rewrite IHv by (done || lia). simpl_bind. by rewrite skip_eq.
    + cbn [map] in *. rewrite commaItems_cons in *. rewrite !length_app in Hl. rewrite <- !app_assoc. cbn [app length] in *.
      rewrite IHv by (done || lia). simpl_bind. rewrite skip_ne, skip_eq by done. cbn [mbind option_bind].
      rewrite (IHe (w :: vs)) by (done || (cbn [map]; lia)). done.
  - intros ms r Hne Hv Hl. destruct ms as [|[k v] ms]; [done|]. destruct Hv as [[Hk Hv] Hms]. cbn [readMembers map] in *.
    destruct ms as [|w ms].
    + cbn [map commaItems app] in *. rewrite app_nil_r in *. rewrite memberText_app, skip_eq. simpl_bind.
      rewrite untilChar_plain by done. simpl_bind. rewrite skip_eq. cbn [mbind option_bind].
      pose proof (memberText_length k v). rewrite IHv by (done || lia). simpl_bind. by rewrite skip_eq.
    + cbn [map] in *. rewrite commaItems_cons in *. rewrite !length_app in Hl. rewrite <- !app_assoc. cbn [app length] in *.
      rewrite memberText_app, skip_eq. simpl_bind. rewrite untilChar_plain by done. simpl_bind. rewrite skip_eq. cbn [mbind option_bind].
      pose proof (memberText_length k v). rewrite IHv by (done || lia). simpl_bind. rewrite skip_ne, skip_eq by done.
      cbn [mbind option_bind]. rewrite (IHm (w :: ms)) by (done || (cbn [map]; lia)). done.
Qed.

Lemma json_roundtrip v : json_ok v → jsonParse (jsonText v) = Some (rounded v).
Proof.
  intros Hv. unfold jsonParse. destruct (json_reads (length (jsonText v))) as (H & _).
  specialize (H v [] Hv (le_n _) I). rewrite app_nil_r in H. by rewrite H.
Qed.

(** ** The pushed text *)

Definition levelValue (x : Z * Z * Z) : Json := let '(p, q, n) := x in JArr [JNum p; JNum q; JNum n].

Definition printValue (t : TradePrint) : Json :=
  JObj [(str "px", JNum (tp_price t)); (str "qty", JNum (tp_qty t)); (str "side", JStr (sideLetter (tp_aggressorSide t)))].

Definition bookValue (l : Ladder) (seq : Z) (topN : nat) : Json :=
  JObj [(str "t", JStr (str "book")); (str "seq", JNum seq);
        (str "bids", JArr (levelValue <$> top l Buy topN)); (str "asks", JArr (levelValue <$> top l Sell topN));
        (str "trades", JArr (printValue <$> ld_trades l)); (str "tradeCount", JNum (ld_tradeCount l))].

Lemma book_text l seq topN : buildBookSnapshotJson l seq topN = jsonText (bookValue l seq topN).
Proof.
  assert (Hl : ∀ xs, map jsonText (levelValue <$> xs) = levelJson <$> xs).
  { intros xs. change (map jsonText) with (fmap (M:=list) jsonText). rewrite <- list_fmap_compose.
    apply list_fmap_ext. intros _ [[p q] n] _. unfold levelJson, levelValue. cbn [compose jsonText map commaItems].
    rewrite app_nil_r. by rewrite <- !app_assoc. }
  assert (Ht : ∀ ts, map jsonText (printValue <$> ts) = printJson <$> ts).
  { intros ts. change (map jsonText) with (fmap (M:=list) jsonText). rewrite <- list_fmap_compose.
    apply list_fmap_ext. intros _ t _. unfold printJson, printValue. cbn [compose jsonText map fst snd commaItems]. rewrite app_nil_r. by rewrite <- !app_assoc. }
  unfold buildBookSnapshotJson, bookValue. cbn [jsonText map fst snd commaItems]. rewrite !Hl, Ht, app_nil_r.
  by rewrite <- !app_assoc.
Qed.
