(* ===== verification/VizClaims.v ===== *)
(** What a browser that is connected to the visualizer shows. *)
From Stdlib Require Import String.
From stdpp Require Import gmap.
From S2P Require Import Base64 SegmentNames Jwt AdminHttp Scenario Options Sha1 WsServer.
From S2P Require Import Prelude Types AbstractBook BookSpec MatchingThread Recovery Framing Wire Messages FeedCodec BookMirror Ladder FeedSpec FeedClaims Visualizer.
#[local] Open Scope Z_scope.

(** ** The push to all sessions *)

Section push.
Context (maxQueueBytes : Z).

(** What a push makes of a session of the list. *)
Definition pushed (payload : Text) (s : WsSession) : WsSession :=
  if ws_closed s || negb (ws_isWs s) then s else sendText maxQueueBytes s payload.

Definition isOpen (store : list WsSession) (i : nat) : Prop := ∃ s, store !! i = Some s ∧ ws_closed s = false.

#[export] Instance isOpen_dec store i : Decision (isOpen store i).
Proof.
  destruct (store !! i) as [s|] eqn:E; [|right; intros (s & H & _); congruence].
  destruct (ws_closed s) eqn:Ec; [right; intros (s' & H & H'); congruence|left; by exists s].
Defined.

Lemma filter_isOpen store store' ss : Forall (λ j, store' !! j = store !! j) ss → filter (isOpen store') ss = filter (isOpen store) ss.
Proof.
  induction 1 as [|j ss Hj _ IH]; [done|]. rewrite !filter_cons, IH.
  rewrite (decide_ext (isOpen store' j) (isOpen store j)); [done|]. unfold isOpen. by rewrite Hj.
Qed.

Lemma pushes_ok store ss payload :
  NoDup ss → Forall (λ i, (i < length store)%nat) ss →
  ∃ store', broadcastTextLoop maxQueueBytes store ss payload = Some (store', filter (isOpen store) ss) ∧
    length store' = length store ∧
    ∀ i, store' !! i = (if decide (i ∈ ss) then pushed payload <$> store !! i else store !! i).
Proof.
  revert store. induction ss as [|i ss IH]; intros store Hnd Hlt; cbn [broadcastTextLoop].
  { exists store. split; [done|]. split; [done|]. intros i. by rewrite decide_False by set_solver. }
  apply NoDup_cons in Hnd as [Hi Hnd]. apply Forall_cons in Hlt as [Hl Hlt].
  destruct (lookup_lt_is_Some_2 store i Hl) as [s Hs]. rewrite Hs. simpl_bind. rewrite filter_cons.
  destruct (ws_closed s) eqn:Ec.
  - destruct (IH store Hnd Hlt) as (store' & -> & Hlen & Hst). exists store'.
    rewrite decide_False by (intros (s' & H & H'); congruence). split; [done|]. split; [done|]. intros j. rewrite Hst.
    destruct (decide (j = i)) as [->|Hne].
    + rewrite decide_False, decide_True by set_solver. rewrite Hs. cbn. unfold pushed. by rewrite Ec.
    + by rewrite (decide_ext (j ∈ ss) (j ∈ i :: ss)) by set_solver.
  - set (store1 := if ws_isWs s then _ else _).
    assert (H1 : ∀ j, store1 !! j = if decide (j = i) then Some (pushed payload s) else store !! j).
    { intros j. unfold store1, pushed. rewrite Ec. destruct (ws_isWs s); cbn; destruct (decide (j = i)) as [->|Hne]; try done.
      - by apply list_lookup_insert_eq.
      - by apply list_lookup_insert_ne. }
    assert (Hl1 : length store1 = length store) by (unfold store1; destruct (ws_isWs s); [apply length_insert|done]).
    destruct (IH store1 Hnd) as (store' & -> & Hlen & Hst); [by rewrite Hl1|]. simpl_bind. exists store'. split_and!; [|lia|].
    + rewrite decide_True by (by exists s). rewrite (filter_isOpen store store1); [done|].
      apply Forall_forall. intros j Hj. rewrite H1, decide_False; [done|]. by intros ->.
    + intros j. rewrite Hst, H1. destruct (decide (j = i)) as [->|Hne].
      * rewrite decide_False, decide_True by set_solver. by rewrite Hs.
      * by rewrite (decide_ext (j ∈ ss) (j ∈ i :: ss)) by set_solver.
Qed.
End push.

(** ** The page *)

Lemma intText_inj n m : in_i64 n → in_i64 m → intText n = intText m → n = m.
Proof.
  intros Hn Hm H. unfold in_i64, INT64_MIN, INT64_MAX in *.
  pose proof (readInt_int n [] ltac:(lia) I) as H1. pose proof (readInt_int m [] ltac:(lia) I) as H2. congruence.
Qed.

Lemma levelKey_inj side p q : in_i64 p → in_i64 q → levelKey side p = levelKey side q → p = q.
Proof. intros Hp Hq H. apply app_inv_head in H. injection H as H. by apply intText_inj. Qed.

(** When a level was last marked, after a drawing that shows quantity [q]. *)
Definition marked (st : Page) (key : Text) (q now : Z) : option Z :=
  match pg_prevLevels st !! key with
  | Some q0 => if q0 =? q then pg_flashes st !! key else Some now
  | None => pg_flashes st !! key
  end.

Lemma drawSide_ok side now levels st :
  NoDup levels.*1 → Forall in_i64 levels.*1 →
  let st' := drawSide side now st levels in
  (∀ k, (∀ p, p ∈ levels.*1 → k ≠ levelKey side p) →
     pg_prevLevels st' !! k = pg_prevLevels st !! k ∧ pg_flashes st' !! k = pg_flashes st !! k) ∧
  (∀ p q, (p, q) ∈ levels → pg_prevLevels st' !! levelKey side p = Some q ∧
     pg_flashes st' !! levelKey side p = marked st (levelKey side p) q now).
Proof.
  unfold drawSide. revert st. induction levels as [|[p0 q0] levels IH]; intros st Hnd Hi; cbn [foldl].
  { split; [done|]. intros p q. by rewrite elem_of_nil. }
  cbn [fmap list_fmap fst] in Hnd, Hi. apply NoDup_cons in Hnd as [Hp0 Hnd]. apply Forall_cons in Hi as [Hi0 Hi].
  destruct (IH (drawLevel side now st (p0, q0)) Hnd Hi) as [H1 H2]. rewrite Forall_forall in Hi.
  assert (Hfr : ∀ p, p ∈ levels.*1 → levelKey side p0 ≠ levelKey side p).
  { intros p Hp He. apply levelKey_inj in He; [by subst|done|by apply Hi]. }
  split.
  - intros k Hk. destruct (H1 k) as [-> ->].
    { intros p Hp. apply Hk. cbn. by apply elem_of_cons; right. }
    assert (Hne : levelKey side p0 ≠ k) by (intros <-; by apply (Hk p0); [by left|]).
    cbn. rewrite lookup_insert_ne by done. split; [done|]. case_match; [by apply lookup_insert_ne|done].
  - intros p q [[= -> ->]|Hin]%elem_of_cons.
    + destruct (H1 _ Hfr) as [-> ->]. cbn. rewrite lookup_insert_eq. split; [done|]. unfold marked.
      destruct (pg_prevLevels st !! _) as [q1|]; [|done]. destruct (q1 =? q0); [done|]. cbn. apply lookup_insert_eq.
    + destruct (H2 p q Hin) as [-> ->]. split; [done|].
      assert (Hne : levelKey side p0 ≠ levelKey side p) by (apply Hfr; apply list_elem_of_fmap; by exists (p, q)).
      unfold marked, drawLevel. cbn [pg_prevLevels pg_flashes fst snd]. rewrite lookup_insert_ne by done.
      case_match; case_match; try done; [case_match|]; try done; by rewrite lookup_insert_ne.
Qed.

(** The figures of a ladder lie in the ranges of their types. *)
Definition figures_ok (l : Ladder) : Prop :=
  (∀ s, Forall (λ x, in_i64 x.1 ∧ in_i64 (la_qty x.2) ∧ 0 <= la_orders x.2 < 2 ^ 32) (aggOf l s)) ∧
  Forall (λ t, in_i64 (tp_price t) ∧ in_i64 (tp_qty t)) (ld_trades l) ∧ in_u64 (ld_tradeCount l).

(** Figures that doubles represent exactly. *)
Definition figures_exact (l : Ladder) : Prop :=
  (∀ s, Forall (λ x, Z.abs x.1 <= 2 ^ 53 ∧ Z.abs (la_qty x.2) <= 2 ^ 53) (aggOf l s)) ∧ ld_tradeCount l <= 2 ^ 53.

Lemma json_ok_array vs : json_ok (JArr vs) ↔ Forall json_ok vs.
Proof. induction vs as [|v vs IH]; [done|]. rewrite Forall_cons, <- IH. done. Qed.

Lemma plain_letter b : plain (sideLetter b).
Proof. unfold sideLetter. case_match; repeat constructor; done. Qed.

Lemma bookValue_ok l seq n : figures_ok l → in_u64 seq → json_ok (bookValue l seq n).
Proof.
  intros (Hl & Ht & Hc) Hs.
  assert (Hr : ∀ x, in_i64 x → - 2 ^ 63 <= x < 2 ^ 64) by (unfold in_i64, INT64_MIN, INT64_MAX; lia).
  assert (Hu : ∀ x, in_u64 x → - 2 ^ 63 <= x < 2 ^ 64) by (unfold in_u64; lia).
  assert (Hlv : ∀ s, json_ok (JArr (levelValue <$> top l s n))).
  { intros s. apply json_ok_array. unfold top. rewrite <- list_fmap_compose. apply Forall_fmap, Forall_take.
    eapply Forall_impl; [apply (Hl s)|]. intros x (H1 & H2 & H3). cbn. split_and!; try done; try (by apply Hr); lia. }
  assert (Htv : json_ok (JArr (printValue <$> ld_trades l))).
  { apply json_ok_array, Forall_fmap. eapply Forall_impl; [exact Ht|]. intros t [H1 H2]. unfold compose, printValue.
    cbn [json_ok fold_right fst snd]. split_and!; try (by apply Hr); try apply plain_letter; repeat constructor; done. }
  unfold bookValue. cbn [json_ok fold_right fst snd]. split_and!; try apply Hlv; try exact Htv; try (by apply Hu);
    try exact I; repeat constructor; done.
Qed.

Definition sideKey (s : Side) : Text := match s with Buy => str "bids" | Sell => str "asks" end.
Definition sideName (s : Side) : Text := match s with Buy => str "bid" | Sell => str "ask" end.

(** The levels of the book, best first, as the page has them. *)
Definition shownLevels (a : ABook) (s : Side) (n : nat) : list (Z * LevelAgg) := take n (depth (aside a s)).
Definition levelArray (x : Z * LevelAgg) : Json := JArr [JNum x.1; JNum (la_qty x.2); JNum (la_orders x.2)].

Lemma shown_array l a s n : ladder_shows l a → levelValue <$> top l s n = levelArray <$> shownLevels a s n.
Proof. intros Hl. unfold top, shownLevels. by rewrite (Hl s), <- list_fmap_compose. Qed.

Lemma levels_read xs : mapM levelOf (levelArray <$> xs) = Some ((λ x, (x.1, la_qty x.2)) <$> xs).
Proof. induction xs as [|x xs IH]; [done|]. rewrite !fmap_cons. cbn [mapM]. by rewrite IH. Qed.

Lemma book_side l seq n s : field (rounded (bookValue l seq n)) (sideKey s) = Some (rounded (JArr (levelValue <$> top l s n))).
Proof. by destruct s. Qed.

Lemma levels_exact l s n :
  figures_ok l → figures_exact l → rounded (JArr (levelValue <$> top l s n)) = JArr (levelValue <$> top l s n).
Proof.
  intros (Hf & _) (He & _). cbn [rounded]. f_equal. change (map rounded) with (fmap (M:=list) rounded).
  unfold top. rewrite <- !list_fmap_compose. apply list_fmap_ext. intros i x Hx%list_elem_of_lookup_2.
  eapply elem_of_sublist in Hx; [|apply sublist_take].
  pose proof (Hf s) as H1. pose proof (He s) as H2. rewrite Forall_forall in H1, H2.
  destruct (H1 x Hx) as (_ & _ & Ho). destruct (H2 x Hx) as [Hp Hq]. cbn.
  by rewrite !toDouble_exact by lia.
Qed.

Lemma recent_shift now known :
  filter (λ t, now - t <= 5000 * msec) (shiftOld now known) = filter (λ t, now - t <= 5000 * msec) known.
Proof.
  induction known as [|t known IH]; [done|]. unfold shiftOld in *. cbn [dropWhile]. rewrite filter_cons.
  destruct (_ <? _) eqn:E; [|by rewrite filter_cons]. rewrite decide_False by lia. exact IH.
Qed.

Lemma recordTrades_recent st now n ts :
  countOf (pg_book st) (str "tradeCount") = Some n → ts ≠ [] →
  ∃ st', recordTrades st now (Some (JArr ts)) = Some st' ∧ pg_book st' = pg_book st ∧ pg_lastBookAt st' = pg_lastBookAt st ∧
    pg_prevLevels st' = pg_prevLevels st ∧ pg_flashes st' = pg_flashes st ∧ pg_lastCount st' = n ∧
    recent st' now = (recent st now + Z.to_nat (toDouble (n - pg_lastCount st)))%nat.
Proof.
  intros Hn Hts. unfold recordTrades. destruct ts as [|t ts]; [done|]. rewrite Hn. eexists. split; [done|].
  cbn [pg_book pg_lastBookAt pg_prevLevels pg_flashes pg_lastCount]. split_and!; try done. unfold recent. cbn [pg_window].
  rewrite recent_shift, filter_app, length_app. f_equal.
  replace (Z.to_nat (Z.max 0 _)) with (Z.to_nat (toDouble (n - pg_lastCount st))) by lia.
  generalize (Z.to_nat (toDouble (n - pg_lastCount st))). intros k. induction k as [|k IH]; [done|].
  cbn [replicate]. rewrite filter_cons, decide_True by (unfold msec; lia). cbn. by rewrite IH.
Qed.

(** What the page makes of the text of a ladder. *)
Lemma onMessage_book l seq n st now :
  figures_ok l → in_u64 seq →
  ∃ st', onMessage st now (buildBookSnapshotJson l seq n) = Some st' ∧ pg_book st' = rounded (bookValue l seq n) ∧
    pg_lastBookAt st' = now ∧ pg_prevLevels st' = pg_prevLevels st ∧ pg_flashes st' = pg_flashes st ∧
    (ld_trades l ≠ [] →
       recent st' now = (recent st now + Z.to_nat (toDouble (toDouble (ld_tradeCount l) - pg_lastCount st)))%nat).
Proof.
  intros Hl Hs. unfold onMessage. rewrite book_text, (json_roundtrip _ (bookValue_ok l seq n Hl Hs)).
  change (hasType (rounded (bookValue l seq n)) (str "book")) with true. cbv iota.
  change (field (rounded (bookValue l seq n)) (str "trades")) with (Some (JArr (map rounded (printValue <$> ld_trades l)))).
  destruct (ld_trades l) as [|t ts] eqn:Et; [by eexists; split_and!|].
  destruct (recordTrades_recent (mkPage (rounded (bookValue l seq n)) (pg_lat st) now (pg_lastLatAt st) (pg_prevLevels st) (pg_flashes st)
    (pg_window st) (pg_lastCount st)) now (toDouble (ld_tradeCount l)) (map rounded (printValue <$> t :: ts)) eq_refl
    ltac:(rewrite fmap_cons; discriminate)) as (st' & Hr & H1 & H2 & H3 & H4 & H5 & H6). exists st'. by split_and!.
Qed.

Lemma sorted_nodup s (lv : list (Z * LevelAgg)) n : sorted_levels s lv → NoDup (take n lv).*1.
Proof.
  intros Hs. rewrite fmap_take. eapply sublist_NoDup; [|apply sublist_take].
  induction Hs as [|x lv _ IH Hx]; [constructor|]. rewrite fmap_cons. constructor; [|done].
  intros (y & Hy & Hin)%list_elem_of_fmap. rewrite Forall_forall in Hx. specialize (Hx y Hin). destruct s; unfold cmp in Hx; simpl in Hx; lia.
Qed.

(** The drawing after it: a level is marked when its quantity is not the one drawn before. *)
Lemma drawLadder_ok c a l seq n st later :
  wf c a → ladder_shows l a → figures_ok l → figures_exact l → pg_book st = rounded (bookValue l seq n) →
  ∃ st', drawLadder st later = Some st' ∧
    ∀ s x, x ∈ shownLevels a s n →
      let key := levelKey (sideName s) x.1 in
      pg_prevLevels st' !! key = Some (la_qty x.2) ∧ pg_flashes st' !! key = marked st key (la_qty x.2) later.
Proof.
  intros Hw Hl Hfo He Hb. pose proof Hfo as (Hf & _). set (lv s := (λ x : Z * LevelAgg, (x.1, la_qty x.2)) <$> shownLevels a s n).
  assert (Hlv : ∀ s, levelsOf (pg_book st) (sideKey s) = Some (lv s)).
  { intros s. unfold levelsOf. rewrite Hb, book_side, levels_exact, (shown_array l a) by done. apply levels_read. }
  assert (Hk : ∀ s, (lv s).*1 = (shownLevels a s n).*1) by (intros s; unfold lv; by rewrite <- list_fmap_compose).
  assert (Hnd : ∀ s, NoDup (lv s).*1).
  { intros s. rewrite Hk. apply (sorted_nodup s). apply depth_ok, (wf_sorted _ _ Hw s). }
  assert (Hi : ∀ s, Forall in_i64 (lv s).*1).
  { intros s. rewrite Hk. unfold shownLevels. rewrite <- (Hl s). apply Forall_fmap, Forall_take.
    eapply Forall_impl; [apply (Hf s)|]. by intros x (? & _). }
  unfold drawLadder. pose proof (Hlv Buy) as HB. pose proof (Hlv Sell) as HS. cbn [sideKey] in HB, HS. rewrite HB, HS. cbn [mbind option_bind]. eexists. split; [done|].
  destruct (drawSide_ok (str "bid") later (lv Buy) st (Hnd Buy) (Hi Buy)) as [B1 B2].
  destruct (drawSide_ok (str "ask") later (lv Sell) (drawSide (str "bid") later st (lv Buy)) (Hnd Sell) (Hi Sell)) as [S1 S2].
  intros s x Hx. assert (Hin : (x.1, la_qty x.2) ∈ lv s) by (apply list_elem_of_fmap; by exists x). destruct s; cbn [sideName] in *.
  - destruct (S1 (levelKey (str "bid") x.1)) as [-> ->]; [by intros p _|]. by apply B2.
  - destruct (S2 _ _ Hin) as [-> ->]. split; [done|]. unfold marked.
    destruct (B1 (levelKey (str "ask") x.1)) as [-> ->]; [by intros p _|]. done.
Qed.

(** C37: A connected browser shows the engine's book.  When the ladder of the feed client shows the
    book, the timer of the visualizer hands one text to every open session of its list and drops
    the closed ones.  A page that receives this text reads it as JSON and has from then on, each
    number rounded to the nearest double, the feed's sequence number and, on both sides, the best
    levels of the book, best first, with the total quantity and the number of orders of each.
    Up to 2 ^ 53 these numbers are exact.  If the prices, the quantities and the number of trades
    are, then, if there are trades to show, the page adds to those of the last five seconds as
    many as the number of trades has grown since its last such message, which are all of them
    for a page that was just opened; and when it is next drawn, a level is marked exactly when
    its quantity is not the one that was drawn before. *)
Theorem browser_shows_book c a cl v args maxQueueBytes st now :
  wf c a → ladder_shows (cl_ladder cl) a → figures_ok (cl_ladder cl) → in_u64 (cl_lastSeq cl) →
  NoDup (wv_sessions v) → Forall (λ i, (i < length (wv_store v))%nat) (wv_sessions v) → wv_sessions v ≠ [] →
  let n := Z.to_nat (Viz.topN args) in
  ∃ text v' st',
    ladderTick maxQueueBytes args v cl = Some v' ∧
    wv_sessions v' = filter (isOpen (wv_store v)) (wv_sessions v) ∧
    (∀ i, i ∈ wv_sessions v → wv_store v' !! i = pushed maxQueueBytes text <$> wv_store v !! i) ∧
    onMessage st now text = Some st' ∧ pg_lastBookAt st' = now ∧
    field (pg_book st') (str "seq") = Some (JNum (toDouble (cl_lastSeq cl))) ∧
    (∀ s, field (pg_book st') (sideKey s) = Some (rounded (JArr (levelArray <$> shownLevels a s n)))) ∧
    (figures_exact (cl_ladder cl) →
      (∀ s, field (pg_book st') (sideKey s) = Some (JArr (levelArray <$> shownLevels a s n))) ∧
      (ld_trades (cl_ladder cl) ≠ [] → 0 <= pg_lastCount st <= 2 ^ 53 →
         recent st' now = (recent st now + Z.to_nat (ld_tradeCount (cl_ladder cl) - pg_lastCount st))%nat) ∧
      ∀ later, ∃ st'', drawLadder st' later = Some st'' ∧
        ∀ s x, x ∈ shownLevels a s n →
          let key := levelKey (sideName s) x.1 in
          pg_prevLevels st'' !! key = Some (la_qty x.2) ∧ pg_flashes st'' !! key = marked st key (la_qty x.2) later).
Proof.
  intros Hw Hl Hf Hs Hnd Hlt Hne n. set (text := buildBookSnapshotJson (cl_ladder cl) (cl_lastSeq cl) n).
  destruct (pushes_ok maxQueueBytes (wv_store v) (wv_sessions v) text Hnd Hlt) as (store' & Hb & _ & Hst).
  destruct (onMessage_book (cl_ladder cl) (cl_lastSeq cl) n st now Hf Hs) as (st' & Hm & Hbk & Hat & Hp & Hfl & Hr).
  eexists text, _, st'. split.
  { unfold ladderTick. rewrite bool_decide_eq_false_2 by done. cbn [negb]. unfold broadcastText. fold n text. rewrite Hb. done. }
  cbn [wv_sessions wv_store]. split; [done|]. split; [intros i Hi; by rewrite Hst, decide_True|]. split; [done|]. split; [done|].
  rewrite Hbk. split; [done|]. split; [intros s; by rewrite book_side, (shown_array _ a s n Hl)|]. intros He. split; [|split].
  - intros s. by rewrite book_side, levels_exact, (shown_array _ a s n Hl).
  - intros Ht Hk. rewrite (Hr Ht). destruct Hf as (_ & _ & Hcu). destruct He as (_ & Hcx). unfold in_u64 in Hcu.
    by rewrite (toDouble_exact (ld_tradeCount _)), toDouble_exact by lia.
  - intros later. destruct (drawLadder_ok c a (cl_ladder cl) (cl_lastSeq cl) n st' later Hw Hl Hf He Hbk) as (st'' & Hd & Hk).
    exists st''. split; [done|]. unfold marked in *. by rewrite Hp, Hfl in Hk.
Qed.

(** *** A book with one level, and a page that has just been opened *)

Definition demoBook : ABook := stateAfter tapeConfig tape.
Definition demoLadder : Ladder := mkLadder (depth (ab_bids demoBook)) (depth (ab_asks demoBook)) [mkPrint 110 2 0] 5 false.
Definition demoClient : MdClient := mkClient (reassemblyNew []) demoLadder 7 true 200 0.
Definition demoServer : WsServer := mkWsServer [mkWs AwaitFrameHeader 0 0 [0; 0; 0; 0] [] [] 0 false true false [] 0] [0%nat].
Definition vizArgs : Viz.VizArgs := Viz.defaults [].

Lemma browser_shows_book_witness : ∃ text v' st',
  ladderTick kDefaultMaxQueueBytes vizArgs demoServer demoClient = Some v' ∧ onMessage pageNew 9000 text = Some st' ∧
  field (pg_book st') (str "bids") = Some (JArr [JArr [JNum 110; JNum 2; JNum 1]]) ∧ recent st' 9000 = 5%nat.
Proof.
  destruct (browser_shows_book tapeConfig demoBook demoClient demoServer vizArgs kDefaultMaxQueueBytes pageNew 9000) as
    (text & v' & st' & H1 & _ & _ & H2 & _ & _ & _ & H).
  - apply stateAfter_ok; [exact tapeConfig_ok|exact tape_commands_ok].
  - by intros [].
  - split_and!; [|apply Forall_cons; split; [split; by vm_compute|constructor]|by vm_compute].
    intros []; [|constructor]. apply Forall_cons. split; [split_and!; by vm_compute|constructor].
  - by vm_compute.
  - repeat constructor. set_solver.
  - repeat constructor.
  - done.
  - destruct H as (H3 & H4 & _).
    + split; [|by vm_compute]. intros []; [|constructor]. apply Forall_cons. split; [split; by vm_compute|constructor].
    + exists text, v', st'. split; [exact H1|]. split; [exact H2|]. split; [exact (H3 Buy)|].
      exact (H4 ltac:(done) ltac:(by vm_compute)).
Defined.

(** A page that is opened counts every trade since the visualizer has connected as one of the last
    five seconds: its counter of known trades starts at 0. *)
Lemma first_message_counts_all l seq n now :
  figures_ok l → figures_exact l → in_u64 seq → ld_trades l ≠ [] →
  ∃ st', onMessage pageNew now (buildBookSnapshotJson l seq n) = Some st' ∧ recent st' now = Z.to_nat (ld_tradeCount l).
Proof.
  intros Hl He Hs Ht. destruct (onMessage_book l seq n pageNew now Hl Hs) as (st' & Hm & _ & _ & _ & _ & Hr).
  exists st'. split; [done|]. rewrite (Hr Ht). destruct Hl as (_ & _ & Hcu). destruct He as (_ & Hcx). unfold in_u64 in Hcu.
  rewrite (toDouble_exact (ld_tradeCount l)), Z.sub_0_r, toDouble_exact by lia. done.
Qed.

(** Beyond 2 ^ 53 levels get lost: two prices that differ by one are one to the page. *)
Definition farLadder : Ladder :=
  mkLadder [(2 ^ 53 + 1, mkAgg 5 1); (2 ^ 53, mkAgg 7 1)] [] [] 0 false.

Lemma large_prices_collide :
  (λ st, field (pg_book st) (str "bids")) <$> onMessage pageNew 0 (buildBookSnapshotJson farLadder 0 2)
  = Some (Some (JArr [JArr [JNum (2 ^ 53); JNum 5; JNum 1]; JArr [JNum (2 ^ 53); JNum 7; JNum 1]])).
Proof. by vm_compute. Qed.
