(* ===== verification/ClientMain.v ===== *)
(** The reference client: [apps/velox_client.cpp].

    The client logs in, sends the orders of a scenario file or a fixed number of its own, and
    prints the reports that come back.  The theorem joins it to the session that serves it in the
    gateway: the first of the client's orders are sequenced, and all of them when everything has
    arrived, the session is open and no sequencer has refused. *)
From Stdlib Require Import String.
From stdpp Require Import gmap.
From S2P Require Import Base64 Jwt AdminHttp Scenario Credentials Options.
From S2P Require Import Prelude Types Wire Messages Framing Decoder Events Sequencer Shard Session SessionSpec SessionClaims.
#[local] Open Scope Z_scope.

(** ** Login *)

Definition hexToToken (hex : Text) : option (list Z) :=
  if (length hex =? 64)%nat then hexToken hex else Some (replicate 32 0).

Definition clientLogin (args : Client.ClientArgs) : option LoginMsg :=
  tok ← hexToToken (Client.tokenHex args); Some (mkLogin (Client.participant args) tok 1).

(** A message encoded into a buffer of 128 bytes and written to the socket. *)
Definition clientWrite (m : DecodedMessage) : option (list Z) :=
  '(buf, n) ← encode m (replicate 128 0); Some (take (Z.to_nat n) buf).

Definition clientDecoder (ids : InstrumentSet) : DecoderConfig := mkDecoderConfig ids 0 (100000 * kPriceScale).

(** [reads]: what the socket delivers, [None] for an error; the reads that are left over are
    returned. *)
Fixpoint readOne (reads : list (option (list Z))) (d : FrameDecoder) : option (option DecodedMessage * FrameDecoder * list (option (list Z))) :=
  '(d, r) ← decoderNext d;
  match r with
  | ROk m => Some (Some m, d, reads)
  | RInvalid _ => Some (None, d, reads)
  | RIncomplete =>
      match reads with
      | [] => None
      | None :: reads' => Some (None, d, reads')
      | Some bs :: reads' =>
          '(d, ok) ← decoderFeed d bs;
          if negb ok then Some (None, d, reads') else readOne reads' d
      end
  end.

(** ** Orders *)

Definition clientOrder (clientSeq id : Z) (side : Side) (price qty : Z) : NewOrderMsg :=
  mkNewOrderMsg clientSeq id 1 side WLimit price qty Day.

(** [sendNewOrder] for each: the messages, numbered from [clientSeq] on. *)
Fixpoint clientOrders (clientSeq : Z) (orders : list (Z * Side * Z * Z)) : list NewOrderMsg :=
  match orders with
  | [] => []
  | (id, side, price, qty) :: orders' =>
      clientOrder clientSeq id side price qty :: clientOrders (u64 (clientSeq + 1)) orders'
  end.

(** What the loop over the scenario file sends. *)
Definition scenarioOrder (sc : ScenarioCommand) : option (Z * Side * Z * Z) :=
  match sn_kind sc with
  | SNew | SMarket => Some (sn_id sc, sn_side sc, sn_price sc, sn_quantity sc)
  | _ => None
  end.

Definition countedOrder (args : Client.ClientArgs) (i : Z) : Z * Side * Z * Z :=
  (i + 1, (if Z.rem i 2 =? 0 then Buy else Sell), Client.price args, Client.qty args).

Definition ordersOf (args : Client.ClientArgs) (file : option Text) : option (list (Z * Side * Z * Z)) :=
  if negb (bool_decide (Client.scenario args = []))
  then scs ← loadScenarioFile file; Some (omap (M := list) scenarioOrder scs)
  else Some (fmap (M := list) (countedOrder args) (seqZ 0 (Client.count args))).

(** Everything the client writes when the login is acknowledged. *)
Definition clientMessages (args : Client.ClientArgs) (file : option Text) : option (list DecodedMessage) :=
  login ← clientLogin args;
  orders ← ordersOf args file;
  Some (DLogin login :: (DNewOrder <$> clientOrders 2 orders)).

Definition clientBytes (args : Client.ClientArgs) (file : option Text) : option (list Z) :=
  ms ← clientMessages args file; bs ← mapM clientWrite ms; Some (concat bs).

(** ** Reports *)

Definition execTypeName (code : Z) : Text :=
  if code =? execCode NewAck then str "NEW_ACK"
  else if code =? execCode PartialFill then str "PARTIAL_FILL"
  else if code =? execCode Fill then str "FILL"
  else if code =? execCode ExCancelled then str "CANCELLED"
  else if code =? execCode ExReplaced then str "REPLACED"
  else str "?".

Definition reportLine (m : DecodedMessage) : Text :=
  match m with
  | DExecReport m => str "EXEC_REPORT order=" ++ intText (er_orderId m) ++ str " type=" ++ execTypeName (er_execType m) ++
      str " globalSeq=" ++ intText (er_globalSeq m) ++ [10]
  | DReject m => str "REJECT order=" ++ intText (rj_orderId m) ++ str " reason=" ++ intText (rj_reason m) ++ [10]
  | _ => []
  end.

(** The grace period: one read after the other, the answer of [feed] is not looked at. *)
Fixpoint drainReports (reads : list (list Z)) (d : FrameDecoder) : option (Text * FrameDecoder) :=
  match reads with
  | [] => Some ([], d)
  | bs :: reads' =>
      '(d, _) ← decoderFeed d bs;
      '(s, ms, _) ← drain (PC := frame_codec (fd_config d)) (S (Z.to_nat (rs_len (fd_stream d)))) (fd_stream d);
      '(text, d) ← drainReports reads' (mkFrameDecoder (fd_config d) s);
      Some (concat (reportLine <$> ms) ++ text, d)
  end.

(** ** What the gateway makes of it *)

Section client.
Context (c : DecoderConfig) (Hc : instruments_ok (dc_instruments c)).

Lemma clientWrite_frame m : valid_msg c m → clientWrite m = Some (frameOf m).
Proof.
  intros Hm. unfold clientWrite. pose proof (payload_bounds (msgType m)) as Hp.
  assert (Hs : frameSize (msgType m) <= 128) by (unfold frameSize, kFrameHeaderSize, kMsgTypeSize; lia).
  rewrite (encode_ok c) by (done || (rewrite length_replicate; lia)). simpl_bind. f_equal. apply take_app_length'.
  unfold frameOf, frame. rewrite !length_app, !length_le. pose proof (payloadOf_length c m Hm).
  unfold frameSize, kFrameHeaderSize, kMsgTypeSize. lia.
Qed.

Lemma clientWrites ms : Forall (valid_msg c) ms → mapM clientWrite ms = Some (frameOf <$> ms).
Proof.
  induction 1 as [|m ms Hm _ IH]; [done|]. cbn [mapM]. rewrite clientWrite_frame by done. simpl_bind. by rewrite IH.
Qed.

Lemma received_frames ms : Forall (valid_msg c) ms → received c (concat (frameOf <$> ms)) = ms.
Proof using Hc.
  intros Hms. unfold received. by rewrite (frames_parse (PE := frame_encoder c Hc) ms Hms : parseStream (concat (frameOf <$> ms)) = _).
Qed.

(** An order the decoder of the gateway takes. *)
Definition order_ok (o : Z * Side * Z * Z) : Prop :=
  let '(id, _, price, qty) := o in
  in_i64 id ∧ in_i64 price ∧ in_i64 qty ∧ 0 < qty ∧ dc_minPrice c <= price <= dc_maxPrice c.

Lemma clientOrders_valid n orders :
  1 ∈ members (dc_instruments c) → 0 <= n → n + Z.of_nat (length orders) < 2 ^ 64 → Forall order_ok orders →
  Forall (valid_msg c) (DNewOrder <$> clientOrders n orders).
Proof.
  intros H1. revert n. induction orders as [|[[[id side] price] qty] orders IH]; intros n Hn Hl Ho; [constructor|].
  apply Forall_cons in Ho as [(H2 & H3 & H4 & H5 & H6) Ho]. cbn [length] in Hl. cbn [clientOrders]. rewrite fmap_cons. constructor.
  - cbn. split_and!; try done; try (unfold in_u64, is_u32; lia); try (by left); by intros [? _].
  - rewrite u64_id by (unfold in_u64; lia). apply IH; [lia|lia|done].
Qed.

(** The command of an order. *)
Definition orderCommand (pid : Z) (o : Z * Side * Z * Z) : Command :=
  let '(id, side, price, qty) := o in mkCommand id 0 price qty pid KNew side Limit.

Lemma orders_admitted creds shardIds pid last orders :
  0 <= shardIndexOf shardIds 1 → 0 <= last → last + 1 + Z.of_nat (length orders) < 2 ^ 64 →
  admittedFrom creds shardIds (Some (pid, last)) (DNewOrder <$> clientOrders (last + 1) orders)
  = (λ o, (shardIndexOf shardIds 1, KNew, orderCommand pid o)) <$> orders.
Proof.
  intros Hs. revert last. induction orders as [|[[[id side] price] qty] orders IH]; intros last Hl Hlen; [done|].
  cbn [length] in Hlen. cbn [clientOrders]. rewrite !fmap_cons. cbn [admittedFrom orderOf clientOrder no_clientSeqNum no_instrumentId].
  rewrite Z.eqb_refl. unfold placed. destruct (_ <? 0) eqn:E; [lia|]. cbn [app]. f_equal.
  rewrite u64_id by (unfold in_u64; lia). apply IH; lia.
Qed.

(** The client numbers its orders from 2 on. *)
Lemma clientOrders_numbers n orders m :
  1 < n → n + Z.of_nat (length orders) < 2 ^ 64 → m ∈ clientOrders n orders → no_clientSeqNum m ≠ 1.
Proof.
  revert n. induction orders as [|[[[id side] price] qty] orders IH]; intros n Hn Hl Hm; [by apply elem_of_nil in Hm|].
  cbn [length] in Hl. cbn [clientOrders] in Hm. apply elem_of_cons in Hm as [->|Hm]; [cbn; lia|].
  rewrite u64_id in Hm by (unfold in_u64; lia). apply (IH (n + 1)); [lia|lia|done].
Qed.

Lemma frames_prefix ms got :
  Forall (valid_msg c) ms → got `prefix_of` concat (frameOf <$> ms) → received c got `prefix_of` ms.
Proof using Hc.
  intros Hms [more Hg]. rewrite <- (received_frames ms) by done. rewrite Hg. unfold received.
  assert (Hb : bytes (got ++ more)).
  { rewrite <- Hg. apply Forall_concat, Forall_fmap. eapply Forall_impl; [exact Hms|]. intros m Hm. by apply (wireFrame_bytes (PE := frame_encoder c Hc)). }
  apply Forall_app in Hb as [Hb1 Hb2]. by apply (parseStream_prefix (PL := frame_laws c Hc)).
Qed.

(** What a session can have submitted when it has received a part of the client's bytes. *)
Lemma client_submits {W} {P : SubmitPort W} {L : SubmitLaws W} creds shardIds me junk login orders got (sv : Server (W * list Call)) s :
  let ms := DLogin login :: (DNewOrder <$> clientOrders 2 orders) in
  length junk = 256%nat → bytes junk → Forall (valid_msg c) ms → Z.of_nat (length orders) < 2 ^ 63 →
  got `prefix_of` concat (frameOf <$> ms) → session_run creds shardIds me c junk got sv s →
  sequenced (log sv) ++ pendingOrders s `prefix_of` admitted creds shardIds ms.
Proof using Hc.
  intros ms Hj Hb Hv Hlen Hg Hrun. pose proof (frames_prefix ms got Hv Hg) as Hpre.
  destruct (submitted_admitted creds shardIds me c junk got sv s Hc Hj Hb Hrun) as [Hp|(_ & _ & m & inst & cmd & Hm & Ho & _)].
  - etransitivity; [exact Hp|]. destruct Hpre as [more ->]. apply admitted_app.
  - exfalso. destruct Hpre as [more Hms]. assert (Hin : m ∈ ms) by (rewrite Hms; set_solver).
    apply elem_of_cons in Hin as [->|Hin]; [done|]. apply list_elem_of_fmap in Hin as (o & -> & Hin).
    injection Ho as Hn _ _. by apply (clientOrders_numbers 2 orders o); [lia|lia|..].
Qed.

(** C18: The client's orders are the ones sequenced.  A client has credentials the gateway knows,
    and orders the gateway's decoder takes, on a gateway with instrument 1.  Whatever way its
    bytes are cut into reads, whatever the other sessions, the matching threads and the routers
    do in between, whatever the sequencers answer, and however much of its bytes has been
    received: the commands its session has had sequenced, and the one that waits for room, are a
    prefix of one limit order per order of the client, with the client's participant, on the
    shard of instrument 1, in the client's order.  They are all of them when everything has been
    received, the session is still open and no sequencer has refused a command. *)
Theorem client_orders_are_sequenced {W} {P : SubmitPort W} {L : SubmitLaws W} creds shardIds me junk args file login orders :
  length junk = 256%nat → bytes junk → clientLogin args = Some login → ordersOf args file = Some orders →
  in_i64 (Client.participant args) → length (lg_token login) = 32%nat → bytes (lg_token login) →
  authenticate creds (Client.participant args) (lg_token login) = true →
  1 ∈ members (dc_instruments c) → 0 <= shardIndexOf shardIds 1 →
  Forall order_ok orders → Z.of_nat (length orders) < 2 ^ 63 →
  let commands := (λ o, (shardIndexOf shardIds 1, KNew, orderCommand (Client.participant args) o)) <$> orders in
  ∃ bs, clientBytes args file = Some bs ∧
    ∀ got (sv : Server (W * list Call)) s,
      got `prefix_of` bs → session_run creds shardIds me c junk got sv s →
      sequenced (log sv) ++ pendingOrders s `prefix_of` commands ∧
      (got = bs → cs_closed s = false → allSequenced sv → sequenced (log sv) = commands).
Proof using Hc.
  intros Hj Hb Hl Ho Hp Ht Htb Hau H1 Hs Hok Hlen commands.
  assert (Hlg : login = mkLogin (Client.participant args) (lg_token login) 1).
  { unfold clientLogin in Hl. destruct (hexToToken _); [|done]. cbn in Hl. by injection Hl as <-. }
  set (ms := DLogin login :: (DNewOrder <$> clientOrders 2 orders)).
  assert (Hv : Forall (valid_msg c) ms).
  { constructor; [|apply clientOrders_valid; try done; lia]. rewrite Hlg. cbn. by split_and!. }
  assert (Hadm : admitted creds shardIds ms = commands).
  { unfold ms, admitted. cbn [admittedFrom]. rewrite Hlg at 1 2. cbn [lg_participantId lg_token]. rewrite Hau.
    rewrite Hlg. cbn [lg_participantId lg_clientSeqNum]. apply (orders_admitted _ _ _ 1); lia || done. }
  exists (concat (frameOf <$> ms)). split.
  - unfold clientBytes, clientMessages. rewrite Hl, Ho. cbn [mbind option_bind]. fold ms. by rewrite clientWrites.
  - intros got sv s Hg Hrun. split; [rewrite <- Hadm; by apply (client_submits creds shardIds me junk login orders got)|].
    intros -> Hcl Hall. by rewrite <- (all_sequenced creds shardIds me c junk _ sv s Hc Hj Hb Hrun Hcl Hall), received_frames.
Qed.
End client.

(** *** Two orders of a client without a scenario *)

Definition hexAb : Text := concat (replicate 32 (str "ab")).
Definition countArgs : Client.ClientArgs := Client.mkArgs (str "127.0.0.1") 9001 42 hexAb [] 2 1000000 10.
Definition twoOrders : list (Z * Side * Z * Z) := [(1, Buy, 1000000, 10); (2, Sell, 1000000, 10)].
Definition countBytes : list Z := Eval vm_compute in default [] (clientBytes countArgs None).
Definition countEvents : list IoEvent := [ReadDone (Some (take 100 countBytes)); WriteDone true; ReadDone (Some (drop 100 countBytes))].

Lemma countRun_summary : summary (demoRun countEvents) = Some
  ([(0, KNew, mkCommand 1 0 1000000 10 42 KNew Buy Limit); (0, KNew, mkCommand 2 0 1000000 10 42 KNew Sell Limit)], [], false).
Proof. vm_compute. reflexivity. Qed.

Lemma countRun_all :
  (λ r, bool_decide (Forall (λ a, isSequenced a = true) (log r.1))) <$> demoRun countEvents = Some true.
Proof. vm_compute. reflexivity. Qed.

Lemma client_orders_are_sequenced_witness : ∃ sv s,
  demoRun countEvents = Some (sv, s) ∧
  sequenced (log sv) = [(0, KNew, mkCommand 1 0 1000000 10 42 KNew Buy Limit); (0, KNew, mkCommand 2 0 1000000 10 42 KNew Sell Limit)].
Proof.
  destruct (client_orders_are_sequenced (P := demoPort) (L := demoLaws) demoDecoder demoDecoder_ok demoCreds [1; 7] 0%nat (replicate 256 0) countArgs None
    (mkLogin 42 (replicate 32 171) 1) twoOrders) as (bs & Hb & H).
  - done.
  - by apply Forall_replicate.
  - vm_compute. reflexivity.
  - vm_compute. reflexivity.
  - by vm_compute.
  - done.
  - by apply Forall_replicate.
  - vm_compute. reflexivity.
  - apply (bool_decide_unpack _). vm_compute. exact I.
  - by vm_compute.
  - repeat (apply Forall_cons; split; [by split_and!; vm_compute|]). constructor.
  - by vm_compute.
  - destruct (demoRun_some _ _ countRun_summary) as (sv & s & Hr & Hx). exists sv, s. split; [exact Hr|].
    pose proof countRun_all as Ha. rewrite Hr in Ha. cbn in Ha. injection Ha as Ha. apply bool_decide_eq_true in Ha.
    assert (Hbs : bs = countBytes) by (assert (Hc : clientBytes countArgs None = Some countBytes) by (vm_compute; reflexivity); congruence).
    subst bs. exact (proj2 (H _ sv s (reflexivity _) (demoRun_run _ _ _ Hr)) eq_refl (f_equal snd Hx) Ha).
Defined.

(** ** What the client gets wrong

    A market order of a scenario is sent as a limit order with price 0, and an immediate-or-cancel
    order as a day order; a gateway whose prices start at 1.00 takes the former for a hostile
    message and closes the session. *)
Definition scenarioArgs : Client.ClientArgs := Client.mkArgs (str "127.0.0.1") 9001 42 hexAb (str "f") 0 0 0.

Lemma scenario_orders_change :
  ordersOf scenarioArgs (Some (str "MARKET 5 BUY 10 7")) = Some [(5, Buy, 0, 10)] ∧
  (parseStream (PC := frame_codec demoDecoder) (frameOf (DNewOrder (clientOrder 2 5 Buy 0 10)))).2 = inl InvalidField ∧
  ordersOf scenarioArgs (Some (str "NEW 5 BUY 100 10 7 IOC")) = ordersOf scenarioArgs (Some (str "NEW 5 BUY 100 10 7")).
Proof. by vm_compute. Qed.

(** Ten reports that arrive in full reads of 256 bytes: the second read does not fit behind what
    the first has left in the buffer and is thrown away.  Four reports are printed, then a fifth
    with the number 0 that nobody sent, put together from the bytes of two, and no more. *)
Definition ackReport (id globalSeq : Z) : DecodedMessage := DExecReport (mkExecReport id (execCode NewAck) 0 10 0 0 globalSeq).
Definition tenReports : list Z := concat (frameOf <$> ((λ i, ackReport i i) <$> seqZ 1 10)).

Lemma reports_are_lost :
  fst <$> drainReports [take 256 tenReports; take 256 (drop 256 tenReports); drop 512 tenReports]
            (mkFrameDecoder (clientDecoder (dc_instruments demoDecoder)) (reassemblyNew (replicate 256 0)))
  = Some (concat (reportLine <$> [ackReport 1 1; ackReport 2 2; ackReport 3 3; ackReport 4 4; ackReport 5 0])).
Proof. vm_compute. reflexivity. Qed.
