(* ===== verification/GatewayMain.v ===== *)
(** The gateway program: [apps/velox_gateway.cpp], with the construction of its shards
    ([runtime/shard.hpp]) and of the server ([gateway/gateway.hpp]).

    Every instrument has a shard with a directory of its own.  The program recovers all of them
    before it listens, and sends every new subscriber of the feed a snapshot of each book, rebuilt
    from the journals.  The theorem is about a start on directories that earlier runs have left:
    every shard gets its own book back, orders are routed to it, and a subscriber that filters one
    instrument and stays connected sees that instrument's book although the bursts of all are sent.

    [disk] gives the journal and the snapshots below a directory, [onDisk] how much of each file
    of the journal is synced; [io] the outcomes of the system calls of each journal. *)
From Stdlib Require Import String.
From stdpp Require Import gmap sorting.
From S2P Require Import Base64 Jwt AdminHttp Scenario Credentials Options.
From S2P Require Import Prelude Types ObjectPool PriceLevel LevelMap OrderBook AbstractBook BookRepr BookRefine BookSpec BookProps.
From S2P Require Import Wire Messages Framing Decoder FeedCodec Crc32 Events MatchingThread SpscRing JournalFormat SegmentNames JournalWriter JournalReader.
From S2P Require Import JournalSpec JournalCrash JournalDurable Sequencer Snapshot Recovery Shard BookMirror Reconstruction Digest MirrorLevels.
From S2P Require Import MirrorFeed Publisher Ladder FeedSpec FeedBurst FeedClaims Session LiveMain LiveClaims.
#[local] Open Scope Z_scope.

Definition gatewayConfig : BookConfig :=
  mkConfig (1 * kPriceScale) (10000 * kPriceScale) (kPriceScale / 100) (Z.shiftl 1 20) (cfg_stp defaultConfig).

Definition kMaxShards : Z := 64.

(** The journal of a shard is constructed with the default arguments. *)
Definition shardWriter : WriterConfig := writerConfig (256 * 1024 * 1024) PerRecord 1.

(** ** The shards *)

Record ShardEntry := mkEntry { en_instrumentId : Z; en_root : Text }.

(** [addShard]: [root / ("shard-" + std::to_string(id))]. *)
Definition addShard (entries : list ShardEntry) (id : Z) (root : Text) : list ShardEntry :=
  entries ++ [mkEntry id (root ++ str "/shard-" ++ intText id)].

Section gateway.
Context (k : Z) (disk : Text → Dir * SnapDir) (onDisk : Text → gmap Z nat) (io : Text → list IoResult) (fuel : nat).

(** [Shard::recoverAndStart] on the directories of the entry. *)
Definition startShard (e : ShardEntry) : option (bool * RecoveryResult * Shard) :=
  recoverAndStart k fuel (disk (en_root e)).1 (onDisk (en_root e)) (disk (en_root e)).2 (io (en_root e)) gatewayConfig.

Definition recoverAndStartAll (entries : list ShardEntry) : option (list (bool * RecoveryResult * Shard)) := mapM startShard entries.

(** The book a snapshot source or a burst rebuilds from a shard's journal. *)
Definition shadowMirror (e : ShardEntry) : option BookMirror :=
  '(_, shadow) ← recover fuel (disk (en_root e)).1 (disk (en_root e)).2 (bookNew gatewayConfig);
  loadMirrorFromBook shadow mirrorNew.

(** The burst for a new subscriber: one group per shard, into the same sink. *)
Fixpoint snapshotBurst (sink : list Frame) (entries : list ShardEntry) : option (list Frame) :=
  match entries with
  | [] => Some sink
  | e :: entries' =>
      mirror ← shadowMirror e;
      sink ← emitSnapshotBurst sink (en_instrumentId e) mirror;
      snapshotBurst sink entries'
  end.

(** ** The server *)

(** What [GatewayServer]'s constructor makes of the shards: the decoder configuration of every
    session, and the sequencers its port submits to. *)
Definition sessionConfig (ids : list Z) : option DecoderConfig :=
  set ← instrumentSet ids; Some (mkDecoderConfig set (cfg_minPrice gatewayConfig) (cfg_maxPrice gatewayConfig)).

Definition shardSequencers (shards : list (bool * RecoveryResult * Shard)) : list Sequencer := (λ x, sh_sequencer x.2) <$> shards.

(** [doAccept]: the new session joins the list of those that a retry round visits. *)
Definition acceptSession (c : DecoderConfig) (junk : list Z) (sessions : list ClientSession) : list ClientSession :=
  sessions ++ [sessionNew c junk].

(** ** [main] *)

Record Gateway := mkGateway {
  gw_entries : list ShardEntry;
  gw_shards : list (bool * RecoveryResult * Shard);
  gw_creds : Credentials;
  gw_config : DecoderConfig
}.

Inductive GatewayExit := ExitCode (n : Z) | Running (g : Gateway).

(** [creds]: the credentials file. *)
Definition gatewayMain (args : Gateway.GatewayArgs) (creds : option Text) : option GatewayExit :=
  let ids := Gateway.instrumentIds args in
  if bool_decide (Gateway.journalRoot args = []) || bool_decide (Gateway.credsFile args = []) || bool_decide (ids = [])
  then Some (ExitCode 2)
  else if kMaxShards <? Z.of_nat (length ids) then Some (ExitCode 2)
  else
    '(ok, auth) ← loadFromFile creds ∅;
    if negb ok then Some (ExitCode 2)
    else
      let entries := foldl (λ es id, addShard es id (Gateway.journalRoot args)) [] ids in
      shards ← recoverAndStartAll entries;
      c ← sessionConfig ids;
      Some (Running (mkGateway entries shards auth c)).
End gateway.

(** ** A start on what earlier runs have left *)

(** The configurations of the programs agree, as the comment in the source asks. *)
Lemma gatewayConfig_live : gatewayConfig = liveConfig.
Proof. reflexivity. Qed.

Lemma filter_dispatch c id ms :
  id ≠ 0 → cl_instrumentFilter c = id →
  cl_ladder (foldl dispatch c ms) = foldl ladderMsg (cl_ladder c) (filter (λ m, instrumentOf m = id) ms).
Proof.
  intros Hid. revert c. induction ms as [|m ms IH]; intros c Hf; [done|]. cbn [foldl]. rewrite filter_cons.
  assert (Hk : cl_instrumentFilter (dispatch c m) = id) by (unfold dispatch; case_match; [done|by destruct m]).
  rewrite IH by done. case_decide as Hm.
  - destruct (dispatch_ladder c id m (or_intror Hf) Hm) as (-> & _). done.
  - f_equal. unfold dispatch. rewrite Hf. destruct (_ && _) eqn:E; [done|lia].
Qed.

Lemma shardIndexOf_ok ids i id : NoDup ids → ids !! i = Some id → shardIndexOf ids id = Z.of_nat i.
Proof.
  intros Hnd Hi. unfold shardIndexOf. destruct (indexFrom_spec ids 0 id) as [[_ Hn]|(j & -> & Hj & _)].
  - by apply list_elem_of_lookup_2 in Hi.
  - rewrite (NoDup_lookup _ _ _ _ Hnd Hi Hj). lia.
Qed.

Lemma instrumentsOf_ok ids s : instruments_ok s → NoDup (members s ++ ids) → Z.of_nat (length (members s ++ ids)) <= 64 →
  ∃ s', foldl (λ acc id, acc ≫= λ s, addInstrument s id) (Some s) ids = Some s' ∧ members s' = members s ++ ids.
Proof.
  revert s. induction ids as [|id ids IH]; intros s Hs Hnd Hl; cbn [foldl]; [exists s; by rewrite app_nil_r|].
  destruct (addInstrument_ok s id Hs) as (s' & Ha & Hs' & Hm). cbn [mbind option_bind]. rewrite Ha.
  assert (Hm' : members s' = members s ++ [id]).
  { rewrite Hm. apply NoDup_app in Hnd as (_ & Hd & _). rewrite bool_decide_eq_false_2 by (intros H; apply (Hd id H); by left).
    cbn [orb]. rewrite length_app in Hl. simpl in Hl. destruct Hs as (Hl' & Hc & _).
    assert (length (members s) = Z.to_nat (is_count s)) by (unfold members; rewrite length_take; lia). destruct (64 <=? _) eqn:E; [lia|done]. }
  rewrite (cons_middle id), app_assoc, <- Hm' in Hnd. destruct (IH s' Hs' Hnd) as (s2 & H1 & H2).
  { rewrite Hm', <- app_assoc. exact Hl. }
  exists s2. split; [done|]. by rewrite H2, Hm', <- app_assoc.
Qed.

Section start.
Context (k : Z) (disk : Text → Dir * SnapDir) (onDisk : Text → gmap Z nat) (io : Text → list IoResult) (fuel : nat) (root : Text).
Context (worst : Fault).
Context (cmdsOf : Z → list Command) (snapAt : Z → nat).
#[local] Abbreviation c := gatewayConfig.
#[local] Abbreviation entry := (λ id, mkEntry id (root ++ str "/shard-" ++ intText id)).

Lemma entries_of ids es : foldl (λ es id, addShard es id root) es ids = es ++ (entry <$> ids).
Proof.
  revert es. induction ids as [|id ids IH]; intros es; cbn [foldl]; [by rewrite app_nil_r|].
  rewrite IH. unfold addShard. by rewrite <- app_assoc.
Qed.

(** The directory of an instrument was left by an earlier process and holds its commands, and
    they fit a book. *)
Record served (id : Z) : Prop := {
  se_id : is_u32 id;
  se_left : ∃ w0, stopped worst w0 (disk (en_root (entry id))).1 (onDisk (en_root (entry id)));
  se_journal : journalHolds (disk (en_root (entry id))).1 (cmdsOf id);
  se_snaps : snapped c (cmdsOf id) (disk (en_root (entry id))).2 (snapAt id);
  se_fuel : (length (cmdsOf id) < fuel)%nat;
  se_len : Z.of_nat (length (cmdsOf id)) < kMaxRecords;
  se_total s : total (aside (stateAfter c (cmdsOf id)) s) <= INT64_MAX
}.

(** What a start makes of the directory of [id]. *)
Definition started (id : Z) (x : bool * RecoveryResult * Shard) : Prop :=
  let '(resumed, _, sh) := x in
  thread_ok c (sh_matching sh) ∧ abs (mt_book (sh_matching sh)) = stateAfter c (cmdsOf id) ∧
  mt_dispatchSeq (sh_matching sh) = Z.of_nat (length (cmdsOf id)) ∧ sh_recoveredSeq sh = Z.of_nat (length (cmdsOf id)) ∧
  (resumed = true → ∃ recs, ready shardWriter worst (sh_journal sh) recs ∧
     Forall2 (holds (valid_command c)) recs (cmdsOf id) ∧ sh_sequencer sh = sequencerOf (sysNew k (sh_journal sh) recs)).

Lemma startShard_ok id : served id → ∃ x, startShard k disk onDisk io fuel (entry id) = Some x ∧ started id x.
Proof.
  intros [_ Hw0 (fs & lst & Him & Hcons & Hh) Hsn Hf Hl _]. pose proof (Forall2_length _ _ _ Hh) as Hlen.
  destruct (restart_image k shardWriter (liveWriter_ok 0 eq_refl) c liveConfig_ok worst _ (onDisk (en_root (entry id))) fs lst _ (cmdsOf id) (disk (en_root (entry id))).2 (snapAt id)
    (io (en_root (entry id))) fuel Him eq_refl Hcons) as (resumed & rr & sh & Hr & H1 & H2 & H3 & H4 & H5); [lia|done|done|lia|].
  exists (resumed, rr, sh). split; [exact Hr|]. split_and!; try done. intros Hres. destruct (H5 Hres Hw0). by eexists.
Qed.

Lemma startAll_ok ids :
  Forall served ids → ∃ xs, recoverAndStartAll k disk onDisk io fuel (entry <$> ids) = Some xs ∧ Forall2 started ids xs.
Proof.
  unfold recoverAndStartAll. induction 1 as [|id ids Hid _ (xs & IH & Hxs)]; [by exists []|].
  destruct (startShard_ok id Hid) as (x & Hx & Hs). exists (x :: xs). split; [|by constructor].
  rewrite fmap_cons. cbn [mapM]. rewrite Hx. simpl_bind. by rewrite IH.
Qed.

Lemma shadowMirror_ok id : served id → ∃ m, shadowMirror disk fuel (entry id) = Some m ∧ mirrors m (stateAfter c (cmdsOf id)).
Proof.
  intros Hid. destruct (startShard_ok id Hid) as ([[resumed rr] sh] & Hx & Hth & Hab & _).
  destruct (recoverAndStart_parts _ _ _ _ _ _ _ _ _ Hx) as (Hrec & _).
  change liveConfig with gatewayConfig in Hrec. unfold shadowMirror. rewrite Hrec. simpl_bind.
  destruct (th_book _ _ Hth) as [HR Hw]. destruct (loadMirror_ok c _ _ mirrorNew liveConfig_ok HR Hw) as (m & Hm & Hmi).
  exists m. rewrite <- Hab. done.
Qed.

Lemma served_state id : served id → wf c (stateAfter c (cmdsOf id)) ∧ book_i64 (stateAfter c (cmdsOf id)).
Proof.
  intros [_ _ (fs & lst & _ & _ & Hh) _ _ Hl _]. destruct (holds_commands _ _ _ Hh) as (_ & Hv & Hi).
  destruct (stateAfter_ok c (cmdsOf id) liveConfig_ok) as (Hw & Hb & _); [|done].
  split; [done|]. split; [done|]. unfold INT64_MAX, kMaxRecords in *. lia.
Qed.

(** The bursts of all shards; each group is the one of its shard. *)
Lemma snapshotBurst_ok ids sink :
  NoDup ids → Forall served ids →
  ∃ ms, snapshotBurst disk fuel sink (entry <$> ids) = Some (sink ++ (wireFrame <$> ms)) ∧ Forall feed_valid ms ∧
    Forall (λ x, instrumentOf x ∈ ids) ms ∧
    ∀ id, id ∈ ids → ∃ m crc, mirrors m (stateAfter c (cmdsOf id)) ∧
      filter (λ x, instrumentOf x = id) ms = burstMsgs id 0 m crc.
Proof.
  intros Hnd Hs. revert sink. induction Hs as [|id ids Hid Hs IH]; intros sink.
  { exists []. rewrite app_nil_r. split; [done|]. split; [constructor|]. split; [constructor|]. intros id. by rewrite elem_of_nil. }
  apply NoDup_cons in Hnd as [Hni Hnd]. destruct (shadowMirror_ok id Hid) as (m & Hm & Hmi).
  destruct (served_state id Hid) as [Hw Hb]. pose proof (shows_fits c m _ liveConfig_ok Hmi Hw Hb) as Hfit.
  destruct (emitSnapshotBurst_ok id (se_id _ Hid) m Hfit sink) as (crc & He & Hv).
  destruct (IH Hnd (sink ++ (wireFrame <$> burstMsgs id 0 m crc))) as (ms & Hbu & Hval & Hin & Hgr).
  assert (Hown : Forall (λ x, instrumentOf x = id) (burstMsgs id 0 m crc)) by (eapply Forall_impl; [exact Hv|]; by intros x [_ ?]).
  exists (burstMsgs id 0 m crc ++ ms). split_and!.
  - rewrite fmap_cons. cbn [snapshotBurst]. rewrite Hm. cbn [mbind option_bind en_instrumentId]. rewrite He. cbn [mbind option_bind].
    rewrite Hbu, fmap_app, <- app_assoc. done.
  - apply Forall_app. split; [|done]. eapply Forall_impl; [exact Hv|]. by intros x [? _].
  - apply Forall_app. split; [eapply Forall_impl; [exact Hown|]; cbn; set_solver|eapply Forall_impl; [exact Hin|]; cbn; set_solver].
  - intros id' [->|Hid']%elem_of_cons; rewrite filter_app.
    + exists m, crc. split; [done|]. rewrite (filter_all _ _ Hown), (filter_none (λ x, instrumentOf x = id) ms); [by rewrite app_nil_r|].
      eapply Forall_impl; [exact Hin|]. intros x Hx Hx'. by subst id.
    + destruct (Hgr id' Hid') as (m' & crc' & Hmi' & Hg). exists m', crc'. split; [done|]. rewrite Hg.
      rewrite (filter_none (λ x, instrumentOf x = id') (burstMsgs id 0 m crc)); [done|].
      eapply Forall_impl; [exact Hown|]. intros x Hx Hx'. by rewrite Hx in Hx'; subst id'.
Qed.

(** A mirror that shows a book has sums that fit when those of the book do. *)
Lemma mirrors_bounded m a : mirrors m a → wf c a → (∀ s, total (aside a s) <= INT64_MAX) → bounded m.
Proof.
  intros Hmi Hw Ht s. rewrite (sh_flat _ _ (proj1 Hmi)), msum_mirrorOf. split; [|apply Ht].
  apply Forall_fmap. exact (wf_positive c a s Hw).
Qed.

(** A client that filters [id] and is sent the bursts of all shards. *)
Lemma filtered_client ms id cl junk reads :
  id ≠ 0 → served id → cl_instrumentFilter cl = id → length junk = 256%nat → bytes junk →
  Forall feed_valid ms →
  (∃ m crc, mirrors m (stateAfter c (cmdsOf id)) ∧ filter (λ x, instrumentOf x = id) ms = burstMsgs id 0 m crc) →
  concat reads = concat (wireFrame <$> ms) →
  ∃ cl', onReads (onConnected cl junk) reads = Some cl' ∧
    (Forall (λ r, Z.of_nat (length r) <= maxChunk) reads → cl_connected cl' = true) ∧
    (cl_connected cl' = true → ladder_shows (cl_ladder cl') (stateAfter c (cmdsOf id))).
Proof.
  intros H0 Hid Hfl Hj Hjb Hv (m & crc & Hmi & Hg) Hcat. destruct (served_state id Hid) as [Hw _].
  destruct (client_cut cl junk ms reads Hj Hjb Hv Hcat) as (cl' & Hon & Hsh & Hcl). exists cl'. split; [done|]. split; [done|].
  intros Hcon. destruct (Hcl Hcon) as (d & ->). cbn [Ladder.setDecoder cl_ladder].
  rewrite (filter_dispatch _ id) by done. rewrite Hg.
  destruct (ladder_burst id m (mirrors_bounded m _ Hmi Hw (se_total _ Hid)) (cl_ladder (onConnected cl junk)) 0 crc) as (_ & B2 & B3).
  by eapply (ladder_shows_intro c); [apply Hmi| | |exact B2|exact B3].
Qed.
End start.

(** C9: A gateway serves the books of its instruments.  The program starts for distinct
    instruments, on directories that earlier processes have left by a kill or a failure of the
    machine ([stopped]) and whose journals hold the instruments' commands, with a credentials file
    it can read.  It always comes to the point where it serves: every shard has exactly the book
    and the numbers of its own commands, and, if its journal could be resumed, a sequencer and a
    journal that go on from there; orders are routed to the shard of their instrument, and the
    decoder of the sessions knows exactly these instruments.  A subscriber of the feed that asks
    for one instrument is sent the bursts of all of them.  If it is still connected when it has
    received them, it shows, level by level, the book of that instrument; and as long as no read
    is of more than 189 bytes, it is still connected. *)
Theorem gateway_serves_its_instruments k disk onDisk io fuel worst args creds auth cmdsOf snapAt :
  let ids := Gateway.instrumentIds args in
  let root := Gateway.journalRoot args in
  root ≠ [] → Gateway.credsFile args ≠ [] → loadFromFile creds ∅ = Some (true, auth) →
  ids ≠ [] → NoDup ids → Z.of_nat (length ids) <= kMaxShards →
  Forall (served disk onDisk fuel root worst cmdsOf snapAt) ids →
  ∃ g burst,
    gatewayMain k disk onDisk io fuel args creds = Some (Running g) ∧ gw_creds g = auth ∧
    Forall2 (started k worst cmdsOf) ids (gw_shards g) ∧
    (∀ i id, ids !! i = Some id → shardIndexOf ids id = Z.of_nat i) ∧
    (∀ id, id ∈ members (dc_instruments (gw_config g)) ↔ id ∈ ids) ∧
    snapshotBurst disk fuel [] (gw_entries g) = Some burst ∧
    ∀ id cl junk reads,
      id ∈ ids → id ≠ 0 → cl_instrumentFilter cl = id → length junk = 256%nat → bytes junk →
      concat reads = concat burst →
      ∃ cl', onReads (onConnected cl junk) reads = Some cl' ∧
        (Forall (λ r, Z.of_nat (length r) <= maxChunk) reads → cl_connected cl' = true) ∧
        (cl_connected cl' = true → ladder_shows (cl_ladder cl') (stateAfter gatewayConfig (cmdsOf id))).
Proof.
  intros ids root Hr Hcr Hau Hne Hnd Hlen Hs.
  destruct (startAll_ok k disk onDisk io fuel root worst cmdsOf snapAt ids Hs) as (xs & Hxs & Hst).
  destruct (snapshotBurst_ok k disk onDisk io fuel root worst cmdsOf snapAt ids [] Hnd Hs) as (ms & Hbu & Hv & _ & Hg).
  unfold gatewayMain. fold ids root. rewrite !bool_decide_eq_false_2 by done. cbn [orb].
  destruct (kMaxShards <? _) eqn:E; [lia|]. rewrite Hau. cbn [mbind option_bind negb].
  rewrite (entries_of root ids []), app_nil_l, Hxs. cbn [mbind option_bind].
  destruct (instrumentsOf_ok ids instrumentsNew) as (set & Hset & Hmem); [by split; [|split; [|constructor]]|done|done|].
  unfold sessionConfig, instrumentSet, instrumentsOf. rewrite Hset. cbn [mbind option_bind].
  eexists _, _. split; [done|]. cbn [gw_creds gw_shards gw_config gw_entries dc_instruments]. split; [done|]. split; [done|].
  split; [intros i id; by apply shardIndexOf_ok|]. split; [intros id; by rewrite Hmem|]. split; [exact Hbu|].
  intros id cl junk reads Hin H0 Hfl Hj Hjb Hcat. rewrite Forall_forall in Hs.
  by apply (filtered_client disk onDisk fuel root worst cmdsOf snapAt ms id cl junk reads); [|apply Hs|..|apply Hg|].
Qed.

(** *** Two instruments on a new disk *)

Definition newDisk : Text → Dir * SnapDir := λ _, (∅, noSnapshots).
Definition gatewayArgs : Gateway.GatewayArgs := Gateway.mkArgs (str "j") 9001 (str "c") [1; 2] 9100.
Definition credsLine : Text := str "42 " ++ concat (replicate 32 (str "ab")).

Lemma newDisk_served id : is_u32 id → served newDisk (λ _, ∅) 1 (str "j") MachineFailure (λ _, []) (λ _, 0%nat) id.
Proof.
  intros Hid. split; [done|apply stopped_empty|exact emptyDir_holds| |simpl; lia|by vm_compute|].
  - split; [simpl; lia|]. left. split; [done|]. by vm_compute.
  - intros []; by vm_compute.
Qed.

Lemma gateway_serves_its_instruments_witness : ∃ g auth burst,
  gatewayMain 4 newDisk (λ _, ∅) (λ _, []) 1 gatewayArgs (Some credsLine) = Some (Running g) ∧ gw_creds g = auth ∧
  loadFromFile (Some credsLine) ∅ = Some (true, auth) ∧ length (gw_shards g) = 2%nat ∧
  snapshotBurst newDisk 1 [] (gw_entries g) = Some burst.
Proof.
  destruct (loadFromFile (Some credsLine) ∅) as [[ok auth]|] eqn:Hl; [|exfalso; revert Hl; vm_compute; discriminate].
  assert (ok = true) as -> by (revert Hl; vm_compute; congruence).
  destruct (gateway_serves_its_instruments 4 newDisk (λ _, ∅) (λ _, []) 1 MachineFailure gatewayArgs (Some credsLine) auth (λ _, []) (λ _, 0%nat)) as
    (g & burst & H1 & H2 & H3 & _ & _ & H4 & _).
  - done.
  - done.
  - exact Hl.
  - done.
  - apply (bool_decide_unpack _). vm_compute. exact I.
  - by vm_compute.
  - repeat (apply Forall_cons; split; [apply newDisk_served; by vm_compute|]). constructor.
  - exists g, auth, burst. split; [exact H1|]. split; [exact H2|]. split; [reflexivity|]. split; [|exact H4].
    exact (eq_sym (Forall2_length _ _ _ H3)).
Defined.
